(* ===== verification/_CoqProject ===== *)
-Q . S2P
Prelude.v
RustStd.v
Json.v
JsonDemo.v
Envelope.v
RedisStore.v
RedisKeys.v
RedisScripts.v
RedisSpecs.v
RedisMembership.v
RedisCapacity.v
RedisPresence.v
RedisTypes.v
RedisDemo.v
RedisProps.v
Protocol.v
SocketIds.v
EnvelopeDemo.v
Kind.v
Frame.v
Timer.v
Outbound.v
Fanout.v
WorkerIndex.v
WorkerDrain.v
Mailbox.v
ChannelState.v
Registry.v
UserRegistry.v
Adapter.v
Auth.v
App.v
Webhook.v
ClusterNode.v
RedisAdapter.v
Sweeper.v
Bridge.v
ClusterProps.v
ReconcileProps.v
SweeperProps.v
ClusterWitness.v
Dispatcher.v
Ssrf.v
Rate.v
Handler.v
Inbound.v
Text.v
Handshake.v
Config.v
RestLimits.v
Rest.v
RestProps.v
RestWitness.v
AppStores.v
Databases.v
AppCacheProps.v
AppWitness.v
Rustls.v
ConnTls.v
TlsProps.v
RestStream.v
StreamProps.v
TlsWitness.v
Links.v
Admission.v
Worker.v
WorkerLedger.v
WorkerView.v
WorkerProps.v
WorkerTimers.v
WorkerWitness.v
Fleet.v
Metrics.v
MetricsProps.v
HandlerProps.v
SessionProps.v
LoadClient.v
LoadProps.v
Ramp.v
Conformance.v
