(* ===== verification/Prelude.v ===== *)
(** * Pylon: a verification development for the Pusher-compatible server

    Pylon is a realtime server: clients open WebSocket connections to worker
    threads, subscribe to channels and receive what other clients or the REST
    API publish; several nodes form a cluster over Redis; webhooks report what
    happens to the apps' own servers. The development translates the program
    file by file into Rocq functions and proves what makes each part correct.

    ** The parts and the files that model them

    Language and libraries. [Prelude] (this file): results, tactics, generic
    lemmas. [RustStd], [Text]: what the code uses of Rust's integers, strings
    and UTF-8. [Json]: the data model of [serde_json]; its text is a parameter.

    Protocol ([src/src/protocol], [src/src/channel/kind.rs],
    [src/src/presence], [src/src/user/mod.rs]): [Protocol], [SocketIds],
    [Kind].

    Transport ([src/src/transport]): [Frame] is the frame codec, [Handshake]
    the reading of a request head, [Timer] the timer wheel, [Outbound] the
    queue and flush of one connection, [Inbound] the path from the bytes of a
    socket to the handler and back, [WorkerIndex] and [WorkerDrain] the
    worker's subscription index and its broadcast inbox, [Fanout] the hand-off
    between workers, [Admission] the counters that all workers share. [Worker]
    composes them into the event loop of one worker over plain TCP; [Links],
    [WorkerLedger], [WorkerView], [WorkerProps] and [WorkerTimers] hold what it
    guarantees, [WorkerWitness] concrete runs. [Rustls] is the TLS library as a
    class, [ConnTls] a connection that carries a TLS session, [RestStream] the
    streams a worker hands to the HTTP stack, with theorems in [TlsProps] and
    [StreamProps], a session and runs in [TlsWitness]. [Fleet]
    sizes, starts, watches and stops the workers ([transport/mod.rs],
    [server/shutdown.rs]).

    Channels and users ([src/src/channel], [src/src/user],
    [src/src/connection], [src/src/adapter/local.rs]): [Mailbox],
    [ChannelState], [Registry], [UserRegistry], and [Adapter], the trait as a
    class with laws and the local adapter as its instance.

    The connection handler ([src/src/ws], [src/src/rate.rs]): [Handler] over
    any adapter, [Rate], with their theorems in [HandlerProps] and, for the
    drain of a session's mailbox, [SessionProps].

    Apps ([src/src/app], [src/src/auth]): [App], [Auth], [AppStores] (the file,
    the two caches, invalidation, the purger), [Databases] (SQL, MongoDB), with
    theorems in [AppCacheProps] and concrete runs in [AppWitness].

    Cluster ([src/src/adapter/redis], [src/src/cluster]): [Envelope];
    [RedisStore], the commands of Redis and their documented laws; [RedisKeys],
    [RedisScripts] and [RedisSpecs], the key schema and the Lua scripts;
    [RedisMembership], [RedisCapacity], [RedisPresence], [RedisTypes], the
    invariants they keep under interleaving; [ClusterNode], [RedisAdapter],
    [Sweeper], [Bridge], the Rust side; [ClusterProps], [ReconcileProps],
    [SweeperProps], its theorems.

    REST API ([src/src/http]): [RestLimits], [Rest], theorems in [RestProps],
    runs in [RestWitness]; [Metrics], the metrics endpoint, with
    [MetricsProps]. Configuration ([src/src/server]): [Config].

    Webhooks ([src/src/webhook]): [Webhook], [Dispatcher], [Ssrf].

    Tools. The load generator ([src/load]): [LoadClient], its client and
    publisher, with [LoadProps] against the server; [Ramp],
    its search for a node's ceilings. The conformance runner
    ([src/conformance]): [Conformance].

    ** How state and effects are translated

    A struct is a record with the source's fields, an enum an inductive type, a
    method a function on the state that returns the new one. Objects that
    several handles share (mailboxes, worker slots, rate buckets, counters)
    live in a store keyed by identity, so that aliasing is visible. Integers
    are [Z] with wrapping, saturation and width written out; [f64] is the
    Standard Library's binary64. A call over the network meets a fate (not
    sent, executed and the reply lost, answered), and the other nodes take a
    turn before it. Concurrency is a step relation whose steps are the atomic
    sections of the code. Sockets are scripts of answers.

    Code outside the repository is a class of operations ([SerdeJson],
    [Crypto], [Redis], [Moka], [TtlCache], [IdleCache], [HttpParse], [Rustls]
    and the like) with, where a theorem relies on it, a class of its documented
    laws. Each such class has a concrete instance in a module or file named
    [...Demo], at which the theorems are instantiated.

    A run of a worker is a list of inputs to its loop (readiness, completed
    lookups, broadcasts, the clock). The iteration order of its hash sets is
    that of [elements]; the socket ids it mints are distinct within a turn, its
    lookups number fewer than [2^64], and its clock stays below [u64::MAX].

    ** What the theorems show

    - connections: the handler and the adapter agree over any interleaved
      history, refusals of the cluster included, no channel is joined without a
      token that this connection presented for it, client events are relayed
      exactly when allowed ([HandlerProps]);
    - bytes: frames and envelopes read back, however the stream is cut; a
      conforming stream is delivered, but for fragmented messages over the cap;
      what a peer reads is a sequence of whole frames; byte accounts are exact; the
      flush returns ([Frame], [Inbound], [Outbound], [Envelope]); the same over
      TLS, and a request that leaves its worker for the HTTP stack loses,
      repeats and reorders nothing ([TlsProps], [StreamProps]);
    - the node: registry edges alternate, channel state refines its roll, the
      wheel refines a map of deadlines, the worker index is exact, broadcasts
      arrive in order, the connection counters are bounded and exact, the units
      of the cluster up to lost releases and answers ([Registry], [ChannelState], [Timer], [WorkerIndex], [WorkerDrain],
      [Admission]);
    - the worker: its byte totals are the sums over its connections, its index
      mirrors the sessions, a lookup answers only who asked, no connection
      outlives its deadlines; the fleet's budgets add up and it stops in order
      ([WorkerLedger], [WorkerProps], [WorkerTimers], [Fleet]);
    - the cluster: a broadcast is delivered once per node or refused, capacity is
      exceeded at most by what a re-seed overlooked, a vacancy is reported once,
      presence refines the seats, a sweep spares the live, a tick of the
      reconciler restores and removes nothing, losing Redis loses nothing local;
    - the API: an unsigned request is inert, a publish reaches the subscribers
      and is all or nothing unless the cluster refuses one of its broadcasts,
      limits refine token buckets that are dropped only when idle or crowded
      out, an accepted configuration is what the environment says and sound, lookups are as recent as the times to live, a
      purge hits exactly the removed apps, webhooks never reach private
      addresses, a scrape reads exactly the counters of the node;
    - the tools: the load generator's client and the server, written apart,
      agree on signatures, frames and stamps; its ramps return with the ceiling;
      the conformance runner's exit code, audits, command line and calendar mean
      what they say ([LoadProps], [Ramp], [Conformance]);
    - and where the code does not do what it means to, the run that shows it.

    ** Bounds and fuel

    Loops over a finite list recurse on it. The flush of a connection recurses
    on the script of the socket's answers, and [flush_returns] shows that it
    returns; the retry loop of a webhook recurses on its attempts. The wheel's
    and the parser's loops carry a bound that the theorems show sufficient. The
    loops over a TLS session carry the length of the script or the bytes the
    session holds as fuel, each round consuming at least one of them; running
    out is a value of its own, and the theorems show it is not reached.

    ** Not modelled

    Binding sockets, spawning threads (and failing to), installing signal handlers, loading
    certificates ([src/src/main.rs], the rest of [transport/mod.rs],
    [transport/tls.rs]) and serving a handed-over stream with [hyper]: calls of
    the runtime without logic of their own. In the worker's loop, its TLS
    branches, its echo mode and the computation of the poll's timeout. The
    loops that repeat a modelled pass on a timer. Of the tools, the processes
    they start and stop, the load generator's scenarios and command line, and
    the conformance runner's HTTP servers. The test adapter. *)

From Stdlib Require Export Ascii.
From stdpp Require Export base gmap strings list sorting fin_maps.
From Stdlib Require Export ZArith Lia.

#[global] Set Default Goal Selector "!".
#[global] Set Warnings "-clear-no-such-hyp".

(** ** Results

    Rust's [Result<A, E>], with the [?] operator as a binder. *)

Inductive result (A E : Type) : Type :=
| Ok (a : A)
| Err (e : E).
Arguments Ok {A E} a.
Arguments Err {A E} e.

#[export] Instance result_eq_dec `{EqDecision A, EqDecision E} :
  EqDecision (result A E).
Proof. solve_decision. Defined.

Declare Scope rust_scope.
Delimit Scope rust_scope with rust.

Notation "'let?' x ':=' c 'in' k" :=
  (match c with Ok x => k | Err e => Err e end)
  (at level 10, x pattern, c at level 100, k at level 200)
  : rust_scope.

Definition ok_or {A E} (o : option A) (e : E) : result A E :=
  match o with Some a => Ok a | None => Err e end.

Definition is_ok {A E} (r : result A E) : bool :=
  match r with Ok _ => true | Err _ => false end.

(** ** Proof automation

    [inv_all] simplifies constructor equalities, [case_bool] splits on the
    boolean tests of the code with their propositional reading, and the hint
    database [pylon] collects the lemmas the components use for the common
    cases. *)

Create HintDb pylon.
Create Rewrite HintDb pylon_rw.

Ltac inv_all :=
  repeat match goal with
  | H : Ok _ = Ok _ |- _ => injection H as H; try subst
  | H : Err _ = Err _ |- _ => injection H as H; try subst
  | H : Ok _ = Err _ |- _ => discriminate H
  | H : Err _ = Ok _ |- _ => discriminate H
  | H : Some _ = Some _ |- _ => injection H as H; try subst
  | H : Some _ = None |- _ => discriminate H
  | H : None = Some _ |- _ => discriminate H
  | H : (_, _) = (_, _) |- _ => injection H as H; try subst
  | H : _ ∧ _ |- _ => destruct H
  end.

Ltac case_bool :=
  match goal with
  | H : context [if ?b then _ else _] |- _ => destruct b eqn:?
  | |- context [if ?b then _ else _] => destruct b eqn:?
  end.

Ltac to_prop :=
  repeat match goal with
  | H : (_ && _)%bool = true |- _ => apply andb_true_iff in H as [? ?]
  | H : (_ || _)%bool = false |- _ => apply orb_false_iff in H as [? ?]
  | H : negb _ = true |- _ => apply negb_true_iff in H
  | H : negb _ = false |- _ => apply negb_false_iff in H
  | H : bool_decide _ = true |- _ => apply bool_decide_eq_true_1 in H
  | H : bool_decide _ = false |- _ => apply bool_decide_eq_false_1 in H
  | H : (_ =? _)%Z = true |- _ => apply Z.eqb_eq in H
  | H : (_ =? _)%Z = false |- _ => apply Z.eqb_neq in H
  | H : (_ <? _)%Z = true |- _ => apply Z.ltb_lt in H
  | H : (_ <? _)%Z = false |- _ => apply Z.ltb_ge in H
  | H : (_ <=? _)%Z = true |- _ => apply Z.leb_le in H
  | H : (_ <=? _)%Z = false |- _ => apply Z.leb_gt in H
  | H : (_ =? _)%nat = true |- _ => apply Nat.eqb_eq in H
  | H : (_ =? _)%nat = false |- _ => apply Nat.eqb_neq in H
  | H : (_ <? _)%nat = true |- _ => apply Nat.ltb_lt in H
  | H : (_ <? _)%nat = false |- _ => apply Nat.ltb_ge in H
  | H : (_ <=? _)%nat = true |- _ => apply Nat.leb_le in H
  | H : (_ <=? _)%nat = false |- _ => apply Nat.leb_gt in H
  end.

(** Closed equations by evaluation. *)
Ltac by_eval := match goal with |- _ = ?y => vm_cast_no_check (@eq_refl _ y) end.

(** ** Lists *)

Lemma filter_all {A} (P : A → Prop) `{!∀ x, Decision (P x)} (l : list A) :
  Forall P l → filter P l = l.
Proof. induction 1 as [|x l Hx _ IH]; [done|]. rewrite filter_cons_True by done. by rewrite IH. Qed.

Lemma filter_sublist {A} (P : A → Prop) `{!∀ x, Decision (P x)} (l : list A) :
  sublist (filter P l) l.
Proof.
  induction l as [|x l IH]; [constructor|]. rewrite filter_cons. case_decide; by constructor.
Qed.
