(* ===== verification/RustStd.v ===== *)
(** * The part of Rust's language and standard library the code uses

    Machine integers are [Z] with their saturating and wrapping operations
    written out; a [&str] is a Rocq [string], one [ascii] per UTF-8 byte, so
    [String.length] is [str::len]; a [&[u8]] is a [list Z] of bytes. *)

From S2P Require Import Prelude.

(** ** u64 and u32 arithmetic *)

Module U64.

Definition MAX : Z := 2 ^ 64 - 1.

Definition saturating_add (a b : Z) : Z := Z.min (a + b) MAX.
Definition saturating_sub (a b : Z) : Z := Z.max (a - b) 0.
Definition saturating_mul (a b : Z) : Z := Z.min (a * b) MAX.
Definition abs_diff (a b : Z) : Z := Z.abs (a - b).

Definition in_range (a : Z) : Prop := (0 <= a <= MAX)%Z.

Lemma saturating_add_range a b :
  (0 <= a)%Z → (0 <= b)%Z → in_range (saturating_add a b).
Proof. unfold in_range, saturating_add, MAX. lia. Qed.

Lemma saturating_add_ge a b :
  in_range a → (0 <= b)%Z → (a <= saturating_add a b)%Z.
Proof. unfold in_range, saturating_add, MAX. lia. Qed.

Lemma saturating_sub_nonneg a b : (0 <= saturating_sub a b)%Z.
Proof. unfold saturating_sub. lia. Qed.

End U64.

#[export] Hint Resolve U64.saturating_add_range U64.saturating_add_ge
  U64.saturating_sub_nonneg : pylon.

Definition U32_MAX : Z := 2 ^ 32 - 1.

(** ** Bytes *)

Definition is_byte (b : Z) : Prop := (0 <= b < 256)%Z.

Definition u8_of_ascii (c : ascii) : Z := Z.of_N (N_of_ascii c).

Definition as_bytes (s : string) : list Z :=
  u8_of_ascii <$> String.list_ascii_of_string s.

(** [str::from_utf8] succeeds exactly on the byte strings this accepts
    (RFC 3629: no overlong form, no surrogate, nothing above U+10FFFF). *)
Definition is_cont (b : Z) : bool := (0x80 <=? b)%Z && (b <=? 0xBF)%Z.

Definition second_of_3 (b0 b1 : Z) : bool :=
  if (b0 =? 0xE0)%Z then (0xA0 <=? b1)%Z && (b1 <=? 0xBF)%Z
  else if (b0 =? 0xED)%Z then (0x80 <=? b1)%Z && (b1 <=? 0x9F)%Z
  else is_cont b1.

Definition second_of_4 (b0 b1 : Z) : bool :=
  if (b0 =? 0xF0)%Z then (0x90 <=? b1)%Z && (b1 <=? 0xBF)%Z
  else if (b0 =? 0xF4)%Z then (0x80 <=? b1)%Z && (b1 <=? 0x8F)%Z
  else is_cont b1.

Fixpoint utf8_valid (bs : list Z) : bool :=
  match bs with
  | [] => true
  | b0 :: r =>
    if (b0 <? 0x80)%Z then utf8_valid r
    else if (0xC2 <=? b0)%Z && (b0 <=? 0xDF)%Z then
      match r with
      | b1 :: r => is_cont b1 && utf8_valid r
      | _ => false
      end
    else if (0xE0 <=? b0)%Z && (b0 <=? 0xEF)%Z then
      match r with
      | b1 :: b2 :: r => second_of_3 b0 b1 && is_cont b2 && utf8_valid r
      | _ => false
      end
    else if (0xF0 <=? b0)%Z && (b0 <=? 0xF4)%Z then
      match r with
      | b1 :: b2 :: b3 :: r =>
          second_of_4 b0 b1 && is_cont b2 && is_cont b3 && utf8_valid r
      | _ => false
      end
    else false
  end.

(** Big-endian machine words. *)
Fixpoint be_bytes (n : nat) (x : Z) : list Z :=
  match n with
  | O => []
  | S n => (x / 2 ^ (8 * Z.of_nat n)) mod 256 :: be_bytes n x
  end%Z.

Definition from_be_bytes (bs : list Z) : Z :=
  foldl (fun acc b => acc * 256 + b)%Z 0%Z bs.

(** ** Strings *)

Module Str.

Fixpoint strip_prefix (p s : string) : option string :=
  match p, s with
  | EmptyString, _ => Some s
  | String a p, String b s =>
      if decide (a = b) then strip_prefix p s else None
  | _, EmptyString => None
  end.

Definition starts_with (p s : string) : bool :=
  match strip_prefix p s with Some _ => true | None => false end.

Fixpoint split_once (c : ascii) (s : string) : option (string * string) :=
  match s with
  | EmptyString => None
  | String a s =>
      if decide (a = c) then Some (EmptyString, s)
      else match split_once c s with
           | Some (l, r) => Some (String a l, r)
           | None => None
           end
  end.

Fixpoint split (c : ascii) (s : string) : list string :=
  match s with
  | EmptyString => [EmptyString]
  | String a s =>
      if decide (a = c) then EmptyString :: split c s
      else match split c s with
           | w :: ws => String a w :: ws
           | [] => [String a EmptyString]
           end
  end.

Fixpoint all (f : ascii → bool) (s : string) : bool :=
  match s with
  | EmptyString => true
  | String a s => f a && all f s
  end.

Definition is_empty (s : string) : bool :=
  match s with EmptyString => true | _ => false end.

(** [s.chars().count()]: one scalar value per byte that does not continue
    the previous one. *)
Fixpoint chars_count (s : string) : nat :=
  match s with
  | EmptyString => 0
  | String a s =>
      if is_cont (u8_of_ascii a) then chars_count s else S (chars_count s)
  end.

Definition is_ascii_digit (c : ascii) : bool :=
  (48 <=? u8_of_ascii c)%Z && (u8_of_ascii c <=? 57)%Z.

Definition is_ascii_alphanumeric (c : ascii) : bool :=
  is_ascii_digit c
  || ((65 <=? u8_of_ascii c)%Z && (u8_of_ascii c <=? 90)%Z)
  || ((97 <=? u8_of_ascii c)%Z && (u8_of_ascii c <=? 122)%Z).

(** [str::parse] for an unsigned type of maximum [max]: an optional [+],
    then at least one digit, and no overflow. *)
Fixpoint digits (max acc : Z) (s : string) : option Z :=
  match s with
  | EmptyString => Some acc
  | String c s =>
      if is_ascii_digit c then
        let acc := (acc * 10 + (u8_of_ascii c - 48))%Z in
        if (acc <=? max)%Z then digits max acc s else None
      else None
  end.

Definition parse_uint (max : Z) (s : string) : option Z :=
  match s with
  | EmptyString => None
  | String "+"%char EmptyString => None
  | String "+"%char s => digits max 0 s
  | s => digits max 0 s
  end.

Lemma strip_prefix_Some p s r :
  strip_prefix p s = Some r ↔ s = (p +:+ r).
Proof.
  revert s. induction p as [|a p IH]; intros [|b s]; simpl.
  - split; [by intros [= <-]|]. intros ->. done.
  - split; [by intros [= <-]|]. intros ->. done.
  - split; [done|]. intros H; discriminate H.
  - destruct (decide (a = b)) as [->|Hab].
    + rewrite IH. split; [by intros ->|]. intros H. by inversion H.
    + split; [done|]. intros H. by inversion H.
Qed.

Lemma starts_with_true p s :
  starts_with p s = true ↔ ∃ r, s = (p +:+ r).
Proof.
  unfold starts_with. destruct (strip_prefix p s) as [r|] eqn:E.
  - apply strip_prefix_Some in E. naive_solver.
  - split; [done|]. intros [r Hr]. apply strip_prefix_Some in Hr. congruence.
Qed.

Lemma split_once_Some c s l r :
  split_once c s = Some (l, r) ↔
  s = (l +:+ String c r) ∧ all (λ a, bool_decide (a ≠ c)) l = true.
Proof.
  revert l. induction s as [|a s IH]; intros l; simpl.
  - split; [done|]. intros [H _]. destruct l; by inversion H.
  - case_decide as Hac; subst.
    + split; [by intros [= <- <-]|]. intros [H Hl]. destruct l as [|b l].
      { by inversion H. }
      inversion H; subst. simpl in Hl. to_prop. done.
    + destruct (split_once c s) as [[l' r']|] eqn:E.
      * split.
        { intros [= <- <-]. destruct (proj1 (IH l') eq_refl) as [-> Hl].
          simpl. split; [done|]. by rewrite Hl, bool_decide_eq_true_2. }
        { intros [H Hl]. destruct l as [|b l]; inversion H; subst; [done|].
          simpl in Hl. to_prop. destruct (IH l) as [_ HI].
          ospecialize (HI _); [by split|]. congruence. }
      * split; [done|]. intros [H Hl].
        destruct l as [|b l]; inversion H; subst; [done|].
        simpl in Hl. to_prop. destruct (IH l) as [_ HI].
        ospecialize (HI _); [by split|]. congruence.
Qed.

Lemma split_once_None c s :
  split_once c s = None → all (λ a, bool_decide (a ≠ c)) s = true.
Proof.
  induction s as [|a s IH]; simpl; [done|]. case_decide as Hac; [done|].
  destruct (split_once c s) as [[]|]; [done|]. intros _. by rewrite IH, bool_decide_eq_true_2.
Qed.

Lemma all_app f s t : all f (s +:+ t) = all f s && all f t.
Proof. induction s as [|a s IH]; simpl; [done|]. by rewrite <-andb_assoc, IH. Qed.

Lemma all_impl (f g : ascii → bool) s :
  (∀ c, f c = true → g c = true) → all f s = true → all g s = true.
Proof. intros Hfg. induction s; simpl; [done|]. intros; to_prop.
  by rewrite Hfg, IHs. Qed.

Lemma app_inj_sep (c : ascii) l1 r1 l2 r2 :
  all (λ a, bool_decide (a ≠ c)) l1 = true →
  all (λ a, bool_decide (a ≠ c)) l2 = true →
  (l1 +:+ String c r1) = (l2 +:+ String c r2) → l1 = l2 ∧ r1 = r2.
Proof.
  intros H1 H2 E.
  pose proof (proj2 (split_once_Some c (l1 +:+ String c r1) l1 r1) (conj eq_refl H1)) as A1.
  pose proof (proj2 (split_once_Some c (l2 +:+ String c r2) l2 r2) (conj eq_refl H2)) as A2.
  rewrite E in A1. rewrite A1 in A2. by inversion A2.
Qed.

(** A piece without the separator. *)
Lemma split_before c w r :
  all (λ a, bool_decide (a ≠ c)) w = true → split c (w +:+ String c r) = w :: split c r.
Proof.
  induction w as [|a w IH]; intros Hw; simpl in *.
  - by rewrite decide_True.
  - to_prop. rewrite decide_False by done. by rewrite IH.
Qed.

End Str.

Lemma string_app_assoc (a b c : string) : (a +:+ (b +:+ c)) = ((a +:+ b) +:+ c).
Proof.
  induction a as [|x a IH]; [done|].
  change (String x (a +:+ (b +:+ c)) = String x ((a +:+ b) +:+ c)). by rewrite IH.
Qed.

Lemma strip_prefix_app p r : Str.strip_prefix p (p +:+ r) = Some r.
Proof. by apply Str.strip_prefix_Some. Qed.

#[export] Hint Rewrite Str.all_app : pylon_rw.

(** ** Concatenated texts *)

Lemma as_bytes_app a b : as_bytes (a +:+ b) = as_bytes a ++ as_bytes b.
Proof.
  induction a as [|c a IH]; [done|]. change (String c a +:+ b) with (String c (a +:+ b)).
  unfold as_bytes in *. cbn [String.list_ascii_of_string]. rewrite !fmap_cons, IH. done.
Qed.

Lemma utf8_valid_app a b : utf8_valid a = true → utf8_valid b = true → utf8_valid (a ++ b) = true.
Proof.
  intros Ha Hb. remember (length a) as n eqn:Hn. revert a Hn Ha.
  induction (lt_wf n) as [n _ IH]. intros [|b0 a] Hn Ha; [done|]. simpl in Hn, Ha |- *.
  assert (∀ r, length r < n → utf8_valid r = true → utf8_valid (r ++ b) = true) as IH' by (intros; by eapply IH).
  clear IH. destruct (b0 <? 0x80)%Z; [by apply IH'; [lia|]|].
  destruct ((0xC2 <=? b0)%Z && _); [|destruct ((0xE0 <=? b0)%Z && _); [|destruct ((0xF0 <=? b0)%Z && _); [|done]]].
  - destruct a as [|b1 a]; [done|]. simpl in Hn |- *. to_prop. rewrite IH' by (done || lia). by rewrite andb_true_r.
  - destruct a as [|b1 [|b2 a]]; [done..|]. simpl in Hn |- *. to_prop. rewrite IH' by (done || lia).
    rewrite andb_true_r. by apply andb_true_iff.
  - destruct a as [|b1 [|b2 [|b3 a]]]; [done..|]. simpl in Hn |- *. to_prop. rewrite IH' by (done || lia).
    rewrite andb_true_r. by rewrite !andb_true_iff.
Qed.
