(* ===== verification/Json.v ===== *)
(** * JSON values

    The data model of [serde_json::Value] as the code pattern-matches on it,
    and the library's own functions, which are parameters of the model
    (class [SerdeJson]) with their documented laws ([SerdeJsonLaws]). *)

From S2P Require Import Prelude RustStd.

(** [serde_json::Number]: an unsigned or negative integer, or a finite
    [f64] (kept as its 64-bit pattern). *)
Inductive Number : Type :=
| PosInt (n : Z)
| NegInt (n : Z)
| Float (bits : Z).

#[warnings="-register-all"]
Inductive Value : Type :=
| JNull
| JBool (b : bool)
| JNumber (n : Number)
| JString (s : string)
| JArray (l : list Value)
| JObject (m : list (string * Value)).

#[export] Instance Number_eq_dec : EqDecision Number.
Proof. solve_decision. Defined.

(** The object map: lookup and insertion (an existing key keeps its slot). *)
Fixpoint map_get (k : string) (m : list (string * Value)) : option Value :=
  match m with
  | [] => None
  | (k', v) :: m => if decide (k = k') then Some v else map_get k m
  end.

Fixpoint map_insert (k : string) (v : Value) (m : list (string * Value))
    : list (string * Value) :=
  match m with
  | [] => [(k, v)]
  | (k', v') :: m =>
      if decide (k = k') then (k, v) :: m else (k', v') :: map_insert k v m
  end.

Definition get (v : Value) (k : string) : option Value :=
  match v with JObject m => map_get k m | _ => None end.

Definition as_str (v : Value) : option string :=
  match v with JString s => Some s | _ => None end.

Definition as_array (v : Value) : option (list Value) :=
  match v with JArray l => Some l | _ => None end.

Definition is_null (v : Value) : bool :=
  match v with JNull => true | _ => false end.

Definition json_uint (n : Z) : Value := JNumber (PosInt n).

Definition json_strings (l : list string) : Value := JArray (JString <$> l).

(** What the code calls of [serde_json]: the text parser, the compact
    printers, and [PartialEq] on values. *)
Class SerdeJson : Type := {
  from_str : string → option Value;
  to_string : Value → string;
  number_to_string : Number → string;
  value_eqb : Value → Value → bool
}.

(** [PartialEq for Value] is an equivalence (a [Number] is never NaN), but
    coarser than identity: objects compare as maps and [0.0 == -0.0]. *)
Class SerdeJsonLaws `{SerdeJson} : Prop := {
  value_eqb_refl v : value_eqb v v = true;
  value_eqb_sym v w : value_eqb v w = true → value_eqb w v = true;
  value_eqb_trans u v w :
    value_eqb u v = true → value_eqb v w = true → value_eqb u w = true
}.

Definition value_equiv `{SerdeJson} (v w : Value) : Prop :=
  value_eqb v w = true.

#[export] Instance value_equiv_equivalence `{SerdeJsonLaws} :
  Equivalence value_equiv.
Proof.
  split; red; unfold value_equiv.
  - apply value_eqb_refl.
  - apply value_eqb_sym.
  - apply value_eqb_trans.
Qed.

Lemma map_get_insert k k' v m :
  map_get k (map_insert k' v m) = if decide (k = k') then Some v else map_get k m.
Proof.
  induction m as [|[k1 v1] m IH]; simpl; [done|].
  destruct (decide (k' = k1)); simpl; repeat case_decide; congruence.
Qed.
