(* ===== verification/JsonDemo.v ===== *)
(** * A concrete JSON library

    A small printer and parser (objects, arrays, strings without escapes,
    naturals, booleans, null) that instantiates [SerdeJson], so that the
    theorems over the class are evaluated on concrete inputs. *)

From stdpp Require Import pretty.
From S2P Require Import Prelude RustStd Json.

Module JsonDemo.

Definition quote : string := String "034"%char EmptyString.

Definition quoted (s : string) : string := quote +:+ s +:+ quote.

Definition show_number (n : Number) : string :=
  match n with PosInt n | NegInt n | Float n => pretty n end.

Fixpoint show (v : Value) : string :=
  match v with
  | JNull => "null"
  | JBool b => if b then "true" else "false"
  | JNumber n => show_number n
  | JString s => quoted s
  | JArray l =>
      let fix go (l : list Value) : string :=
        match l with
        | [] => "]"
        | [v] => show v +:+ "]"
        | v :: l => show v +:+ "," +:+ go l
        end in
      "[" +:+ go l
  | JObject m =>
      let fix go (m : list (string * Value)) : string :=
        match m with
        | [] => "}"
        | [(k, v)] => quoted k +:+ ":" +:+ show v +:+ "}"
        | (k, v) :: m => quoted k +:+ ":" +:+ show v +:+ "," +:+ go m
        end in
      "{" +:+ go m
  end.

(** The text up to the closing quote, and the rest. *)
Fixpoint scan_string (s : string) : option (string * string) :=
  match s with
  | EmptyString => None
  | String c s =>
      if decide (c = "034"%char) then Some (EmptyString, s)
      else prod_map (String c) id <$> scan_string s
  end.

Fixpoint scan_digits (acc : Z) (s : string) : Z * string :=
  match s with
  | String c s' =>
      if Str.is_ascii_digit c
      then scan_digits (acc * 10 + (Z.of_nat (nat_of_ascii c) - 48)) s' else (acc, s)
  | EmptyString => (acc, s)
  end.

Fixpoint parse (fuel : nat) (s : string) : option (Value * string) :=
  match fuel, s with
  | S fuel, String c s' =>
      if decide (c = "034"%char) then prod_map JString id <$> scan_string s'
      else if Str.is_ascii_digit c then
        let '(n, r) := scan_digits 0 s in Some (JNumber (PosInt n), r)
      else if decide (c = "["%char) then prod_map JArray id <$> parse_items fuel s'
      else if decide (c = "{"%char) then prod_map JObject id <$> parse_fields fuel s'
      else match Str.strip_prefix "true" s, Str.strip_prefix "false" s,
                 Str.strip_prefix "null" s with
           | Some r, _, _ => Some (JBool true, r)
           | _, Some r, _ => Some (JBool false, r)
           | _, _, Some r => Some (JNull, r)
           | _, _, _ => None
           end
  | _, _ => None
  end
with parse_items (fuel : nat) (s : string) : option (list Value * string) :=
  match fuel, s with
  | S fuel, String c s' =>
      if decide (c = "]"%char) then Some ([], s')
      else
        '(v, r) ← parse fuel (if decide (c = ","%char) then s' else s);
        prod_map (cons v) id <$> parse_items fuel r
  | _, _ => None
  end
with parse_fields (fuel : nat) (s : string) : option (list (string * Value) * string) :=
  match fuel, s with
  | S fuel, String c s' =>
      if decide (c = "}"%char) then Some ([], s')
      else if decide (c = "034"%char) then
        '(k, r) ← scan_string s';
        r ← Str.strip_prefix ":" r;
        '(v, r) ← parse fuel r;
        prod_map (cons (k, v)) id <$> parse_fields fuel r
      else if decide (c = ","%char) then parse_fields fuel s'
      else None
  | _, _ => None
  end.

Definition parse_text (s : string) : option Value :=
  '(v, r) ← parse (S (2 * String.length s)) s;
  if Str.is_empty r then Some v else None.

#[export] Instance demo : SerdeJson := {|
  from_str := parse_text;
  to_string := show;
  number_to_string := show_number;
  value_eqb v w := bool_decide (show v = show w)
|}.

#[export] Instance demo_laws : SerdeJsonLaws.
Proof.
  split; intros *; simpl; rewrite ?bool_decide_eq_true; congruence.
Qed.

(** The parser reads back what the printer writes. *)
Example parse_show :
  let v := JObject [("user_id", JString "u1"); ("user_info",
    JObject [("n", JNumber (PosInt 42)); ("l", JArray [JNull; JBool true])])] in
  from_str (to_string v) = Some v.
Proof. vm_compute. reflexivity. Qed.

End JsonDemo.
