(* ===== verification/Envelope.v ===== *)
(** * The cross-node envelope: [src/src/adapter/redis/envelope.rs]

    What one node publishes and every other node decodes. The derived
    serializers are modelled by the members they write and by what they accept;
    the JSON text and base64 are parameters with their documented round
    trips. *)

From S2P Require Import Prelude RustStd Json.

(** ** Parameters *)

(** The text of a struct: printed from its members in order; read back as the
    members of an object (a repeated name is repeated) or the elements of an
    array, which a derived [Deserialize] also accepts. *)
Inductive RawStruct : Type :=
| RObject (m : list (string * Value))
| RArray (l : list Value).

Class SerdeStruct : Type := {
  struct_to_string : list (string * Value) → string;
  struct_from_str : string → option RawStruct
}.

(** Members that are strings or null. *)
Definition plain (v : Value) : Prop :=
  match v with JNull | JString _ => True | _ => False end.

Class SerdeStructLaws `{SerdeStruct} : Prop := {
  struct_utf8 m : utf8_valid (as_bytes (struct_to_string m)) = true;
  struct_roundtrip m : Forall (λ q, plain q.2) m →
    struct_from_str (struct_to_string m) = Some (RObject m)
}.

(** [base64::engine::general_purpose::STANDARD], on byte strings. *)
Class Base64 : Type := {
  b64_encode : string → string;
  b64_decode : string → option string
}.

Class Base64Laws `{Base64} : Prop := {
  b64_roundtrip s : b64_decode (b64_encode s) = Some s
}.

(** ** Data *)

Inductive EnvelopeKind : Type := Broadcast | UserSend | UserTerminate | WatchOnline | WatchOffline.

#[export] Instance EnvelopeKind_eq_dec : EqDecision EnvelopeKind.
Proof. solve_decision. Defined.

Definition EnvelopeKind_default : EnvelopeKind := Broadcast.

Definition kind_name (k : EnvelopeKind) : string :=
  match k with
  | Broadcast => "Broadcast"
  | UserSend => "UserSend"
  | UserTerminate => "UserTerminate"
  | WatchOnline => "WatchOnline"
  | WatchOffline => "WatchOffline"
  end.

Definition kind_of_name (s : string) : option EnvelopeKind :=
  if decide (s = "Broadcast") then Some Broadcast
  else if decide (s = "UserSend") then Some UserSend
  else if decide (s = "UserTerminate") then Some UserTerminate
  else if decide (s = "WatchOnline") then Some WatchOnline
  else if decide (s = "WatchOffline") then Some WatchOffline
  else None.

Record Envelope : Type := mkEnvelope {
  env_node_id : string;
  env_app : string;
  env_kind : EnvelopeKind;
  env_channel : string;
  env_event : Value;
  env_except : option string;
  env_frame_b64 : option string
}.

(** ** Serialization *)

Definition opt_member (k : string) (o : option string) : list (string * Value) :=
  match o with Some s => [(k, JString s)] | None => [] end.

Definition envelope_members (e : Envelope) : list (string * Value) :=
  [("node_id", JString (env_node_id e)); ("app", JString (env_app e));
   ("kind", JString (kind_name (env_kind e))); ("channel", JString (env_channel e));
   ("event", env_event e)]
  ++ opt_member "except" (env_except e) ++ opt_member "frame_b64" (env_frame_b64 e).

Definition FrameOnlyWire (node_id app : string) (kind : EnvelopeKind) (channel : string)
    (except : option string) (frame_b64 : string) : list (string * Value) :=
  [("node_id", JString node_id); ("app", JString app); ("kind", JString (kind_name kind));
   ("channel", JString channel)]
  ++ opt_member "except" except ++ [("frame_b64", JString frame_b64)].

(** ** Deserialization *)

Definition de_string (v : Value) : option string := as_str v.

Definition de_opt_string (v : Value) : option (option string) :=
  match v with JNull => Some None | JString s => Some (Some s) | _ => None end.

(** A unit variant: its name, or an object from its name to null. *)
Definition de_kind (v : Value) : option EnvelopeKind :=
  match v with
  | JString s => kind_of_name s
  | JObject [(s, JNull)] => kind_of_name s
  | _ => None
  end.

(** A member that occurs at most once: absent, or its value. *)
Definition member_of (k : string) (m : list (string * Value)) : option (option Value) :=
  match filter (λ q, q.1 = k) m with
  | [] => Some None
  | [(_, v)] => Some (Some v)
  | _ => None
  end.

Definition required {A} (de : Value → option A) (o : option Value) : option A := o ≫= de.

Definition defaulted {A} (d : A) (de : Value → option A) (o : option Value) : option A :=
  match o with None => Some d | Some v => de v end.

Definition build (node_id app kind channel event except frame_b64 : option Value)
    : option Envelope :=
  node_id ← required de_string node_id;
  app ← required de_string app;
  kind ← defaulted EnvelopeKind_default de_kind kind;
  channel ← required de_string channel;
  event ← defaulted JNull Some event;
  except ← defaulted None de_opt_string except;
  frame_b64 ← defaulted None de_opt_string frame_b64;
  Some (mkEnvelope node_id app kind channel event except frame_b64).

Definition de_envelope (r : RawStruct) : option Envelope :=
  match r with
  | RObject m =>
      node_id ← member_of "node_id" m;
      app ← member_of "app" m;
      kind ← member_of "kind" m;
      channel ← member_of "channel" m;
      event ← member_of "event" m;
      except ← member_of "except" m;
      frame_b64 ← member_of "frame_b64" m;
      build node_id app kind channel event except frame_b64
  | RArray l =>
      if decide (length l ≤ 7) then
        build (l !! 0) (l !! 1) (l !! 2) (l !! 3) (l !! 4) (l !! 5) (l !! 6)
      else None
  end.

Section envelope.
Context `{SerdeStruct, Base64}.

Definition encode_frame_b64 (frame : string) : string := b64_encode frame.

Definition encode (e : Envelope) : string := struct_to_string (envelope_members e).

Definition encode_with (e : Envelope) (legacy_event : bool) : string :=
  match env_frame_b64 e with
  | Some frame_b64 =>
      if legacy_event then encode e
      else struct_to_string (FrameOnlyWire (env_node_id e) (env_app e) (env_kind e) (env_channel e)
                               (env_except e) frame_b64)
  | None => encode e
  end.

Definition decode (text : string) : option Envelope := struct_from_str text ≫= de_envelope.

Definition frame (e : Envelope) : option string :=
  let legacy := as_str (env_event e) in
  match env_frame_b64 e with
  | Some b64 =>
      match b64_decode b64 with
      | Some bytes => if utf8_valid (as_bytes bytes) then Some bytes else legacy
      | None => legacy
      end
  | None => legacy
  end.
End envelope.

Definition is_from (e : Envelope) (my_node_id : string) : bool :=
  bool_decide (env_node_id e = my_node_id).

(** ** Round trip *)

Section roundtrip.
Context `{SerdeStructLaws, Base64Laws}.

(** What a receiver makes of an envelope published with this setting. *)
Definition received (e : Envelope) (legacy_event : bool) : Envelope :=
  match env_frame_b64 e with
  | Some _ =>
      if legacy_event then e
      else mkEnvelope (env_node_id e) (env_app e) (env_kind e) (env_channel e) JNull (env_except e)
             (env_frame_b64 e)
  | None => e
  end.

Lemma kind_of_kind_name k : kind_of_name (kind_name k) = Some k.
Proof. by destruct k. Qed.

Lemma de_envelope_members e : plain (env_event e) → de_envelope (RObject (envelope_members e)) = Some e.
Proof.
  intros Hp. destruct e as [n a k c ev ex fb].
  destruct ex, fb; unfold de_envelope, member_of; simpl; unfold build; simpl;
    by rewrite kind_of_kind_name.
Qed.

Lemma members_plain e : plain (env_event e) → Forall (λ q, plain q.2) (envelope_members e).
Proof. intros Hp. destruct e as [n a k c ev [ex|] [fb|]]; simpl in *; repeat constructor; done. Qed.

Lemma decode_encode_with e legacy :
  plain (env_event e) → decode (encode_with e legacy) = Some (received e legacy).
Proof.
  intros Hp. unfold decode, encode_with, received.
  assert (struct_from_str (encode e) ≫= de_envelope = Some e) as Hfull.
  { unfold encode. rewrite struct_roundtrip by by apply members_plain. by apply de_envelope_members. }
  destruct (env_frame_b64 e) as [fb|] eqn:Ef; [|done]. destruct legacy; [done|].
  rewrite struct_roundtrip.
  - destruct e as [n a k c ev [ex|] fb']; simpl in *; unfold de_envelope, member_of; simpl;
      unfold build; simpl; rewrite kind_of_kind_name; by simplify_eq/=.
  - destruct (env_except e); simpl; repeat constructor; done.
Qed.

Lemma encode_with_utf8 e legacy : utf8_valid (as_bytes (encode_with e legacy)) = true.
Proof.
  unfold encode_with, encode. destruct (env_frame_b64 e), legacy; apply struct_utf8.
Qed.

(** An envelope whose frame, a Rust string, travels as both carriers. *)
Definition carries (e : Envelope) (f : string) : Prop :=
  utf8_valid (as_bytes f) = true ∧ env_event e = JString f ∧
  env_frame_b64 e = Some (encode_frame_b64 f).

Lemma frame_received e legacy f : carries e f → frame (received e legacy) = Some f.
Proof.
  intros (Hu & Hev & Hf). unfold received, frame. rewrite Hf.
  destruct legacy; simpl; rewrite ?Hf; unfold encode_frame_b64; rewrite b64_roundtrip; by rewrite Hu.
Qed.

(** C32. Publishing and decoding an envelope gives it back, in either wire shape,
    with only the legacy member dropped where the shape omits it; the frame it
    carries arrives byte for byte either way, and an envelope without a frame
    carries none. *)
Theorem envelope_roundtrip (e : Envelope) (legacy_event : bool) :
  plain (env_event e) →
  ∃ e', decode (encode_with e legacy_event) = Some e' ∧
    env_node_id e' = env_node_id e ∧ env_app e' = env_app e ∧ env_kind e' = env_kind e ∧
    env_channel e' = env_channel e ∧ env_except e' = env_except e ∧
    (∀ f, carries e f → frame e' = Some f) ∧
    (env_event e = JNull → env_frame_b64 e = None → frame e' = None).
Proof.
  intros Hp. exists (received e legacy_event). split; [by apply decode_encode_with|].
  assert (∀ f, carries e f → frame (received e legacy_event) = Some f) as Hf
    by (intros f; apply frame_received).
  unfold received in *. destruct (env_frame_b64 e) as [fb|] eqn:Ef; [destruct legacy_event|];
    (split_and!; [done..|]); intros Hn He; [congruence..|].
  unfold frame. by rewrite Ef, Hn.
Qed.
End roundtrip.
