(* ===== verification/RedisStore.v ===== *)
(** * Redis as the cluster code uses it

    Redis is a service, so it is a parameter: class [Redis] lists the commands
    the Lua scripts and the Rust code send, class [RedisLaws] states what the
    command reference documents of each, as a total-correctness triple [wp]
    over the keyspace it exposes. A command on a key of another type raises an
    error; a script stops at the first error and keeps what it has written. *)

From stdpp Require Import pretty.
From S2P Require Import Prelude RustStd.

(** ** The keyspace *)

Inductive RVal : Type :=
| RHash (h : gmap string string)
| RSet (m : gset string)
| RStr (v : string).

#[export] Instance RVal_eq_dec : EqDecision RVal.
Proof. solve_decision. Defined.

Abbreviation Keyspace := (gmap string RVal).

(** Integers are stored and printed in decimal. *)
Definition dec (z : Z) : string := pretty z.
#[global] Arguments dec : simpl never.

#[export] Instance dec_inj : Inj (=) (=) dec.
Proof. unfold dec. apply _. Qed.

(** A missing key reads as an empty collection. *)
Definition hash_at (s : Keyspace) (k : string) : option (gmap string string) :=
  match s !! k with
  | None => Some ∅
  | Some (RHash h) => Some h
  | Some _ => None
  end.

Definition set_at (s : Keyspace) (k : string) : option (gset string) :=
  match s !! k with
  | None => Some ∅
  | Some (RSet m) => Some m
  | Some _ => None
  end.

Definition str_at (s : Keyspace) (k : string) : option (option string) :=
  match s !! k with
  | None => Some None
  | Some (RStr v) => Some (Some v)
  | Some _ => None
  end.

(** A collection that becomes empty is removed with its key. *)
Definition put_hash (k : string) (h : gmap string string) (s : Keyspace) : Keyspace :=
  if decide (h = ∅) then delete k s else <[k := RHash h]> s.

Definition put_set (k : string) (m : gset string) (s : Keyspace) : Keyspace :=
  if decide (m = ∅) then delete k s else <[k := RSet m]> s.

Definition hashof (s : Keyspace) (k : string) : gmap string string := default ∅ (hash_at s k).
Definition setof (s : Keyspace) (k : string) : gset string := default ∅ (set_at s k).

(** ** Scripts *)

Definition Script (R A : Type) : Type := R → option A * R.

Definition sret {R A} (a : A) : Script R A := λ r, (Some a, r).

Definition sbind {R A B} (m : Script R A) (f : A → Script R B) : Script R B := λ r,
  match m r with
  | (Some a, r) => f a r
  | (None, r) => (None, r)
  end.

Declare Scope redis_scope.
Delimit Scope redis_scope with redis.

Notation "x <-- m ;; k" := (sbind m (λ x, k))
  (at level 100, m at level 90, k at level 200, right associativity) : redis_scope.
Notation "m ;;; k" := (sbind m (λ _, k))
  (at level 100, k at level 200, right associativity) : redis_scope.

Fixpoint sfor {R A} (l : list A) (f : A → Script R unit) : Script R unit :=
  match l with
  | [] => sret tt
  | x :: l => sbind (f x) (λ _, sfor l f)
  end.

Class Redis (R : Type) : Type := {
  HSET : string → list (string * string) → Script R Z;
  HDEL : string → list string → Script R Z;
  HGET : string → string → Script R (option string);
  HEXISTS : string → string → Script R Z;
  HLEN : string → Script R Z;
  HKEYS : string → Script R (list string);
  HGETALL : string → Script R (list (string * string));
  HINCRBY : string → string → Z → Script R Z;
  SADD : string → list string → Script R Z;
  SREM : string → string → Script R Z;
  SMEMBERS : string → Script R (list string);
  DEL : list string → Script R Z;
  EXISTS : string → Script R Z;
  EXPIRE : string → Z → Script R Z;
  GET : string → Script R (option string);
  SET : string → string → Z → Script R unit;
  SET_NX : string → string → Z → Script R (option string)
}.

(** The interpreter's [tonumber], on the numbers that it and [dec] print. *)
Class Lua : Type := { tonumber : string → option Z }.

Definition LUA_INT : Z := 2 ^ 53.

Class LuaLaws `{Lua} : Prop := {
  tonumber_dec z : (- LUA_INT <= z <= LUA_INT)%Z → tonumber (dec z) = Some z
}.

(** ** Triples

    [wp m Q s]: from any state whose keyspace is [s], [m] answers, with an
    answer and a keyspace that satisfy [Q]. *)

Class RedisView (R : Type) : Type := { keyspace : R → Keyspace }.

Definition wp `{RedisView R} {A} (m : Script R A) (Q : A → Keyspace → Prop) (s : Keyspace) : Prop :=
  ∀ r, keyspace r = s → ∃ a r', m r = (Some a, r') ∧ Q a (keyspace r').

Definition I64_MAX : Z := 2 ^ 63 - 1.
Definition i64 (z : Z) : Prop := (- 2 ^ 63 <= z <= I64_MAX)%Z.

(** Documented behaviour of each command, on a key of its type. *)
Class RedisLaws (R : Type) `{Redis R, RedisView R} : Prop := {
  HSET_law k fvs s h : hash_at s k = Some h → fvs ≠ [] →
    wp (HSET k fvs) (λ _ s', s' = put_hash k (foldl (λ h p, <[p.1 := p.2]> h) h fvs) s) s;
  HDEL_law k fs s h : hash_at s k = Some h → fs ≠ [] →
    wp (HDEL k fs) (λ _ s', s' = put_hash k (foldl (λ h f, delete f h) h fs) s) s;
  HGET_law k f s h : hash_at s k = Some h →
    wp (HGET k f) (λ a s', s' = s ∧ a = h !! f) s;
  HEXISTS_law k f s h : hash_at s k = Some h →
    wp (HEXISTS k f) (λ a s', s' = s ∧ a = if decide (is_Some (h !! f)) then 1%Z else 0%Z) s;
  HLEN_law k s h : hash_at s k = Some h →
    wp (HLEN k) (λ a s', s' = s ∧ a = Z.of_nat (size h)) s;
  HKEYS_law k s h : hash_at s k = Some h →
    wp (HKEYS k) (λ a s', s' = s ∧ a ≡ₚ (map_to_list h).*1) s;
  HGETALL_law k s h : hash_at s k = Some h →
    wp (HGETALL k) (λ a s', s' = s ∧ a ≡ₚ map_to_list h) s;
  HINCRBY_law k f d s h z : hash_at s k = Some h → default (dec 0) (h !! f) = dec z →
    i64 (z + d) →
    wp (HINCRBY k f d)
      (λ a s', a = (z + d)%Z ∧ s' = put_hash k (<[f := dec (z + d)]> h) s) s;
  SADD_law k ms s m : set_at s k = Some m → ms ≠ [] →
    wp (SADD k ms) (λ _ s', s' = put_set k (m ∪ list_to_set ms) s) s;
  SREM_law k x s m : set_at s k = Some m →
    wp (SREM k x) (λ a s', a = (if decide (x ∈ m) then 1%Z else 0%Z) ∧
                           s' = put_set k (m ∖ {[x]}) s) s;
  SMEMBERS_law k s m : set_at s k = Some m →
    wp (SMEMBERS k) (λ a s', s' = s ∧ a ≡ₚ elements m) s;
  DEL_law ks s : wp (DEL ks) (λ _ s', s' = foldl (λ s k, delete k s) s ks) s;
  EXISTS_law k s :
    wp (EXISTS k) (λ a s', s' = s ∧ a = if decide (is_Some (s !! k)) then 1%Z else 0%Z) s;
  EXPIRE_law k secs s : (0 < secs)%Z →
    wp (EXPIRE k secs) (λ a s', s' = s ∧ a = if decide (is_Some (s !! k)) then 1%Z else 0%Z) s;
  GET_law k s v : str_at s k = Some v → wp (GET k) (λ a s', s' = s ∧ a = v) s;
  SET_law k v ttl s : (0 < ttl)%Z → wp (SET k v ttl) (λ _ s', s' = <[k := RStr v]> s) s;
  SET_NX_law k v ttl s : (0 < ttl)%Z →
    wp (SET_NX k v ttl) (λ a s',
      match s !! k with
      | None => a = Some "OK" ∧ s' = <[k := RStr v]> s
      | Some _ => a = None ∧ s' = s
      end) s
}.

(** ** Views after updates *)

Lemma hash_at_put_eq s k h : hash_at (put_hash k h s) k = Some h.
Proof.
  unfold hash_at, put_hash. case_decide as Hh; [by rewrite lookup_delete_eq, Hh|].
  by rewrite lookup_insert_eq.
Qed.

Lemma put_hash_ne s k k' h : k ≠ k' → put_hash k h s !! k' = s !! k'.
Proof.
  intros Hk. unfold put_hash. case_decide; [by rewrite lookup_delete_ne|by rewrite lookup_insert_ne].
Qed.

Lemma set_at_put_eq s k m : set_at (put_set k m s) k = Some m.
Proof.
  unfold set_at, put_set. case_decide as Hm; [by rewrite lookup_delete_eq, Hm|].
  by rewrite lookup_insert_eq.
Qed.

Lemma put_set_ne s k k' m : k ≠ k' → put_set k m s !! k' = s !! k'.
Proof.
  intros Hk. unfold put_set. case_decide; [by rewrite lookup_delete_ne|by rewrite lookup_insert_ne].
Qed.

Lemma hash_at_ext s s' k : s !! k = s' !! k → hash_at s k = hash_at s' k.
Proof. unfold hash_at. by intros ->. Qed.

Lemma set_at_ext s s' k : s !! k = s' !! k → set_at s k = set_at s' k.
Proof. unfold set_at. by intros ->. Qed.

Lemma hash_at_delete_eq s k : hash_at (delete k s) k = Some ∅.
Proof. unfold hash_at. by rewrite lookup_delete_eq. Qed.

Lemma set_at_delete_eq s k : set_at (delete k s) k = Some ∅.
Proof. unfold set_at. by rewrite lookup_delete_eq. Qed.

Lemma put_hash_put s k h h' : put_hash k h' (put_hash k h s) = put_hash k h' s.
Proof.
  apply map_eq. intros k'. unfold put_hash.
  repeat case_decide; destruct (decide (k = k')) as [->|Hk];
    by simplify_map_eq.
Qed.

Lemma delete_put_hash s k h : delete k (put_hash k h s) = delete k s.
Proof.
  unfold put_hash. case_decide; apply map_eq; intros k';
    destruct (decide (k = k')) as [->|Hk]; by simplify_map_eq.
Qed.

Lemma put_hash_empty s k : put_hash k ∅ s = delete k s.
Proof. unfold put_hash. by rewrite decide_True. Qed.

Lemma hash_at_Some s k h : hash_at s k = Some h → hashof s k = h.
Proof. unfold hashof. by intros ->. Qed.

Lemma set_at_Some s k m : set_at s k = Some m → setof s k = m.
Proof. unfold setof. by intros ->. Qed.

Lemma hashof_put_eq s k h : hashof (put_hash k h s) k = h.
Proof. apply hash_at_Some, hash_at_put_eq. Qed.

Lemma hashof_ext s s' k : s !! k = s' !! k → hashof s k = hashof s' k.
Proof. intros E. unfold hashof. by rewrite (hash_at_ext s s' k E). Qed.

Lemma hashof_put_ne s k k' h : k ≠ k' → hashof (put_hash k h s) k' = hashof s k'.
Proof. intros Hk. by apply hashof_ext, put_hash_ne. Qed.

Lemma hashof_delete_eq s k : hashof (delete k s) k = ∅.
Proof. apply hash_at_Some, hash_at_delete_eq. Qed.

Lemma hashof_delete_ne s k k' : k ≠ k' → hashof (delete k s) k' = hashof s k'.
Proof. intros Hk. by apply hashof_ext, lookup_delete_ne. Qed.

(** A keyspace holds no empty collection. *)
Definition no_empty (s : Keyspace) : Prop :=
  ∀ k, s !! k ≠ Some (RHash ∅) ∧ s !! k ≠ Some (RSet ∅).

Lemma no_empty_put_hash s k h : no_empty s → no_empty (put_hash k h s).
Proof.
  intros Hs k'. destruct (decide (k = k')) as [->|Hk]; [|by rewrite put_hash_ne].
  unfold put_hash. case_decide; [rewrite lookup_delete_eq|rewrite lookup_insert_eq]; split; congruence.
Qed.

Lemma no_empty_put_set s k m : no_empty s → no_empty (put_set k m s).
Proof.
  intros Hs k'. destruct (decide (k = k')) as [->|Hk]; [|by rewrite put_set_ne].
  unfold put_set. case_decide; [rewrite lookup_delete_eq|rewrite lookup_insert_eq]; split; congruence.
Qed.

Lemma no_empty_delete s k : no_empty s → no_empty (delete k s).
Proof.
  intros Hs k'. destruct (decide (k = k')) as [->|Hk];
    [by rewrite lookup_delete_eq|by rewrite lookup_delete_ne].
Qed.

Lemma put_hash_same s k h : no_empty s → hash_at s k = Some h → put_hash k h s = s.
Proof.
  intros Hs Hh. unfold hash_at in Hh. unfold put_hash. destruct (s !! k) as [[h'|m|v]|] eqn:E;
    simplify_eq.
  - case_decide as Hh; [by destruct (Hs k); subst|]. by apply insert_id.
  - rewrite decide_True by done. by apply delete_id.
Qed.

Lemma put_hash_comm s k1 k2 h1 h2 :
  k1 ≠ k2 → put_hash k1 h1 (put_hash k2 h2 s) = put_hash k2 h2 (put_hash k1 h1 s).
Proof.
  intros Hk. unfold put_hash. repeat case_decide.
  - apply delete_delete.
  - by rewrite delete_insert_ne.
  - by rewrite delete_insert_ne.
  - by rewrite insert_insert_ne.
Qed.

Create Rewrite HintDb redis.
#[export] Hint Rewrite hash_at_put_eq set_at_put_eq hash_at_delete_eq put_hash_put delete_put_hash
  put_hash_empty : redis.
#[export] Hint Resolve no_empty_put_hash no_empty_put_set no_empty_delete : pylon.

(** ** Rules *)

Section wp.
Context `{RedisView R}.

Lemma wp_ret {A} (a : A) (Q : A → Keyspace → Prop) s : Q a s → wp (sret (R := R) a) Q s.
Proof. intros HQ r <-. by exists a, r. Qed.

Lemma wp_mono {A} (m : Script R A) (Q Q' : A → Keyspace → Prop) s :
  wp m Q s → (∀ a s', Q a s' → Q' a s') → wp m Q' s.
Proof. intros Hm HQ r Hr. destruct (Hm r Hr) as (a & r' & ? & ?). exists a, r'. auto. Qed.

Lemma wp_bind {A B} (m : Script R A) (f : A → Script R B) (Q : B → Keyspace → Prop) s :
  wp m (λ a s', wp (f a) Q s') s → wp (sbind m f) Q s.
Proof.
  intros Hm r Hr. destruct (Hm r Hr) as (a & r' & E & Hf). unfold sbind. rewrite E.
  by apply Hf.
Qed.

(** One command, then the rest. *)
Lemma wp_seq {A B} (m : Script R A) (f : A → Script R B) (P : A → Keyspace → Prop) Q s :
  wp m P s → (∀ a s', P a s' → wp (f a) Q s') → wp (sbind m f) Q s.
Proof. intros Hm Hf. apply wp_bind. by eapply wp_mono. Qed.

(** Nothing to execute. *)
Lemma wp_pure {A B} (a : A) (f : A → Script R B) Q s : wp (f a) Q s → wp (sbind (sret a) f) Q s.
Proof. intros Hf r Hr. by apply Hf. Qed.

(** A loop, by its invariant over the elements still to come. *)
Lemma wp_for {A} (l : list A) (f : A → Script R unit) (I : list A → Keyspace → Prop) s :
  I l s →
  (∀ x l s, I (x :: l) s → wp (f x) (λ _ s', I l s') s) →
  wp (sfor l f) (λ _ s', I [] s') s.
Proof.
  intros HI Hf. revert s HI. induction l as [|x l IH]; intros s HI; simpl.
  - by apply wp_ret.
  - eapply wp_seq; [by apply Hf|]. intros a s' Hs'. by apply IH.
Qed.

(** What a run of a verified script does. *)
Lemma wp_run {A} (m : Script R A) (Q : A → Keyspace → Prop) r :
  wp m Q (keyspace r) → ∃ a r', m r = (Some a, r') ∧ Q a (keyspace r').
Proof. intros Hm. by apply Hm. Qed.
End wp.

(** [rview] reads a key of an updated keyspace, [rstep L] executes the next
    command with its law [L]. *)
Create HintDb redis_ne.
#[export] Hint Resolve not_eq_sym : redis_ne.

Ltac rne := first [done | by apply not_eq_sym | by eauto with redis_ne].

Ltac rview :=
  lazymatch goal with
  | |- hash_at (put_hash ?k _ _) ?k = _ => apply hash_at_put_eq
  | |- hash_at (delete ?k _) ?k = _ => apply hash_at_delete_eq
  | |- set_at (put_set ?k _ _) ?k = _ => apply set_at_put_eq
  | |- set_at (delete ?k _) ?k = _ => apply set_at_delete_eq
  | |- hash_at (put_hash ?k ?h ?s) ?k' = _ =>
      rewrite (hash_at_ext _ s k' (put_hash_ne s k k' h ltac:(rne))); rview
  | |- hash_at (put_set ?k ?h ?s) ?k' = _ =>
      rewrite (hash_at_ext _ s k' (put_set_ne s k k' h ltac:(rne))); rview
  | |- hash_at (delete ?k ?s) ?k' = _ =>
      rewrite (hash_at_ext _ s k' (lookup_delete_ne s k k' ltac:(rne))); rview
  | |- set_at (put_hash ?k ?h ?s) ?k' = _ =>
      rewrite (set_at_ext _ s k' (put_hash_ne s k k' h ltac:(rne))); rview
  | |- set_at (put_set ?k ?h ?s) ?k' = _ =>
      rewrite (set_at_ext _ s k' (put_set_ne s k k' h ltac:(rne))); rview
  | |- set_at (delete ?k ?s) ?k' = _ =>
      rewrite (set_at_ext _ s k' (lookup_delete_ne s k k' ltac:(rne))); rview
  | |- _ => eassumption
  end.

Ltac rsolve := first [done | rview | lia | eassumption].

Tactic Notation "rstep" uconstr(L) :=
  eapply wp_seq;
  [ eapply L; rsolve
  | cbv beta; intros ? ? ?; destruct_and?; subst ].

(** ** A network call

    The adapter's commands travel over a connection: a call is answered, or
    lost before or after the server executed it. *)
Inductive Fate : Type := Answered | NotSent | ReplyLost.

Definition call {R A} (f : Fate) (m : Script R A) (r : R) : option A * R :=
  match f with
  | Answered => m r
  | NotSent => (None, r)
  | ReplyLost => (None, (m r).2)
  end.
