(* ===== verification/RedisKeys.v ===== *)
(** * The Redis key schema: [src/src/adapter/redis/keys.rs]

    Builders of the keys, and the type of value each kind of key holds: the
    scripts only ever meet keys of the type their commands expect. *)

From S2P Require Import Prelude RustStd RedisStore.

Module Keys.

(** A [Keys] is its prefix. *)
Definition braced (prefix kind app name : string) : string :=
  prefix +:+ ":" +:+ kind +:+ ":" +:+ app +:+ ":{" +:+ name +:+ "}".

Definition msg (p app channel : string) : string := braced p "msg" app channel.
Definition occ (p app channel : string) : string := braced p "occ" app channel.
Definition cache (p app channel : string) : string := braced p "cache" app channel.
Definition chans (p app : string) : string := p +:+ ":chans:" +:+ app.
Definition node (p node_id : string) : string := p +:+ ":node:" +:+ node_id.
Definition nodes (p : string) : string := p +:+ ":nodes".
Definition apps (p : string) : string := p +:+ ":apps".
Definition sweeplock (p : string) : string := p +:+ ":sweeplock".
Definition presusers (p app channel : string) : string := braced p "presusers" app channel.
Definition presinfo (p app channel : string) : string := braced p "presinfo" app channel.
Definition presmembers (p app channel : string) : string := braced p "presmembers" app channel.
Definition presseats (p app channel : string) : string := braced p "presseats" app channel.
Definition usr (p app user_id : string) : string := braced p "usr" app user_id.
Definition users (p app : string) : string := p +:+ ":users:" +:+ app.
Definition usermsg (p app user_id : string) : string := braced p "usermsg" app user_id.
Definition watch (p app user_id : string) : string := braced p "watch" app user_id.
Definition appconns (p : string) : string := p +:+ ":appconns".
Definition nodeconns_prefix (p : string) : string := p +:+ ":nodeconns:".
Definition nodeconns (p node_id : string) : string := nodeconns_prefix p +:+ node_id.

End Keys.

Definition member_token (node_id socket_id : string) : string := node_id +:+ ":" +:+ socket_id.

(** ** What each key holds *)

Inductive KeyType : Type := THash | TCounts | TSet | TString.

Definition word_type (w : string) : option KeyType :=
  if decide (w ∈ ["occ"; "presinfo"; "presmembers"; "presseats"; "usr"]) then Some THash
  else if decide (w ∈ ["presusers"; "appconns"; "nodeconns"]) then Some TCounts
  else if decide (w ∈ ["chans"; "nodes"; "apps"; "users"]) then Some TSet
  else if decide (w ∈ ["node"; "sweeplock"; "cache"]) then Some TString
  else None.

Definition key_type (p k : string) : option KeyType :=
  match Str.strip_prefix (p +:+ ":") k with
  | None => None
  | Some rest =>
      match Str.split_once ":" rest with
      | Some (w, _) => word_type w
      | None => word_type rest
      end
  end.

(** Counters are integers in decimal. *)
Definition counts (h : gmap string string) : Prop := map_Forall (λ _ v, ∃ z, v = dec z) h.

Definition has_type (t : KeyType) (v : RVal) : Prop :=
  match t, v with
  | THash, RHash _ => True
  | TCounts, RHash h => counts h
  | TSet, RSet _ => True
  | TString, RStr _ => True
  | _, _ => False
  end.

Definition typed (p : string) (s : Keyspace) : Prop :=
  ∀ k v t, s !! k = Some v → key_type p k = Some t → has_type t v.

(** ** Facts *)

Lemma key_type_app p r :
  key_type p (p +:+ ":" +:+ r) =
  match Str.split_once ":" r with Some (w, _) => word_type w | None => word_type r end.
Proof. unfold key_type. by rewrite string_app_assoc, strip_prefix_app. Qed.

Lemma braced_type p w app name :
  Str.all (λ a, bool_decide (a ≠ ":"%char)) w = true →
  key_type p (Keys.braced p w app name) = word_type w.
Proof.
  intros Hw. unfold Keys.braced. rewrite key_type_app.
  assert (Str.split_once ":" (w +:+ ":" +:+ app +:+ ":{" +:+ name +:+ "}")
    = Some (w, app +:+ ":{" +:+ name +:+ "}")) as ->; [|done].
  by apply Str.split_once_Some.
Qed.

Section keys.
Context (p : string).

Lemma presusers_type a c : key_type p (Keys.presusers p a c) = Some TCounts.
Proof. by apply braced_type. Qed.
Lemma appconns_type : key_type p (Keys.appconns p) = Some TCounts.
Proof. apply (key_type_app p "appconns"). Qed.
Lemma nodeconns_type n : key_type p (Keys.nodeconns p n) = Some TCounts.
Proof.
  unfold Keys.nodeconns, Keys.nodeconns_prefix. rewrite <-string_app_assoc.
  exact (key_type_app p ("nodeconns:" +:+ n)).
Qed.
Lemma occ_type a c : key_type p (Keys.occ p a c) = Some THash.
Proof. by apply braced_type. Qed.
Lemma presinfo_type a c : key_type p (Keys.presinfo p a c) = Some THash.
Proof. by apply braced_type. Qed.
Lemma presmembers_type a c : key_type p (Keys.presmembers p a c) = Some THash.
Proof. by apply braced_type. Qed.
Lemma presseats_type a c : key_type p (Keys.presseats p a c) = Some THash.
Proof. by apply braced_type. Qed.
Lemma usr_type a c : key_type p (Keys.usr p a c) = Some THash.
Proof. by apply braced_type. Qed.
Lemma chans_type a : key_type p (Keys.chans p a) = Some TSet.
Proof. apply (key_type_app p ("chans:" +:+ a)). Qed.
Lemma users_type a : key_type p (Keys.users p a) = Some TSet.
Proof. apply (key_type_app p ("users:" +:+ a)). Qed.
Lemma nodes_type : key_type p (Keys.nodes p) = Some TSet.
Proof. apply (key_type_app p "nodes"). Qed.
Lemma apps_type : key_type p (Keys.apps p) = Some TSet.
Proof. apply (key_type_app p "apps"). Qed.
Lemma node_type n : key_type p (Keys.node p n) = Some TString.
Proof. apply (key_type_app p ("node:" +:+ n)). Qed.
Lemma sweeplock_type : key_type p (Keys.sweeplock p) = Some TString.
Proof. apply (key_type_app p "sweeplock"). Qed.
Lemma cache_type a c : key_type p (Keys.cache p a c) = Some TString.
Proof. by apply braced_type. Qed.
End keys.

Create HintDb redis_keys.
#[export] Hint Resolve presusers_type appconns_type nodeconns_type occ_type presinfo_type
  presmembers_type presseats_type usr_type chans_type users_type nodes_type apps_type node_type
  sweeplock_type cache_type : redis_keys.

(** Keys of different kinds differ. *)
Ltac keys_ne :=
  unfold Keys.msg, Keys.occ, Keys.cache, Keys.presusers, Keys.presinfo, Keys.presmembers,
    Keys.presseats, Keys.usr, Keys.usermsg, Keys.watch, Keys.braced, Keys.chans, Keys.users,
    Keys.nodes, Keys.node, Keys.apps, Keys.appconns, Keys.nodeconns, Keys.nodeconns_prefix,
    Keys.sweeplock;
  rewrite <-?string_app_assoc;
  let E := fresh in intros E; apply (inj (String.append _)) in E; vm_compute in E; discriminate E.

#[export] Hint Extern 1 (_ ≠ _) => keys_ne : redis_ne.

(** ** Typed views *)

Lemma typed_hash p s k : typed p s → key_type p k = Some THash → hash_at s k = Some (hashof s k).
Proof.
  intros Hs Hk. unfold hashof, hash_at. destruct (s !! k) as [[h|m|v]|] eqn:E; [done| | |done];
    by specialize (Hs _ _ _ E Hk).
Qed.

Lemma typed_counts p s k :
  typed p s → key_type p k = Some TCounts → hash_at s k = Some (hashof s k) ∧ counts (hashof s k).
Proof.
  intros Hs Hk. unfold hashof, hash_at. destruct (s !! k) as [[h|m|v]|] eqn:E.
  - by specialize (Hs _ _ _ E Hk).
  - by specialize (Hs _ _ _ E Hk).
  - by specialize (Hs _ _ _ E Hk).
  - split; [done|]. intros f v Hv. simpl in Hv. by rewrite lookup_empty in Hv.
Qed.

Lemma typed_set p s k : typed p s → key_type p k = Some TSet → set_at s k = Some (setof s k).
Proof.
  intros Hs Hk. unfold setof, set_at. destruct (s !! k) as [[h|m|v]|] eqn:E; [|done| |done];
    by specialize (Hs _ _ _ E Hk).
Qed.

Lemma typed_delete p s k : typed p s → typed p (delete k s).
Proof. intros Hs k' v t [_ ?]%lookup_delete_Some. by eapply Hs. Qed.

Lemma typed_put_hash p s k h :
  typed p s → key_type p k = Some THash → typed p (put_hash k h s).
Proof.
  intros Hs Hk k' v t Hv Ht. destruct (decide (k = k')) as [->|Hkk].
  - unfold put_hash in Hv. case_decide; [by rewrite lookup_delete_eq in Hv|].
    rewrite lookup_insert_eq in Hv. by simplify_eq.
  - rewrite put_hash_ne in Hv by done. by eapply Hs.
Qed.

Lemma typed_put_counts p s k h :
  typed p s → counts h → key_type p k = Some TCounts → typed p (put_hash k h s).
Proof.
  intros Hs Hh Hk k' v t Hv Ht. destruct (decide (k = k')) as [->|Hkk].
  - unfold put_hash in Hv. case_decide; [by rewrite lookup_delete_eq in Hv|].
    rewrite lookup_insert_eq in Hv. by simplify_eq.
  - rewrite put_hash_ne in Hv by done. by eapply Hs.
Qed.

Lemma typed_put_set p s k m :
  typed p s → key_type p k = Some TSet → typed p (put_set k m s).
Proof.
  intros Hs Hk k' v t Hv Ht. destruct (decide (k = k')) as [->|Hkk].
  - unfold put_set in Hv. case_decide; [by rewrite lookup_delete_eq in Hv|].
    rewrite lookup_insert_eq in Hv. by simplify_eq.
  - rewrite put_set_ne in Hv by done. by eapply Hs.
Qed.

Lemma counts_insert h f z : counts h → counts (<[f := dec z]> h).
Proof. intros Hh. apply map_Forall_insert_2; [by exists z|done]. Qed.

Lemma counts_delete h f : counts h → counts (delete f h).
Proof. apply map_Forall_delete. Qed.

#[export] Hint Resolve typed_delete typed_put_hash typed_put_counts typed_put_set counts_insert
  counts_delete : redis_keys.
