(* ===== verification/RedisScripts.v ===== *)
(** * The Lua scripts of [src/src/adapter/redis/client.rs]

    Each script is a program over the Redis commands, run atomically by the
    server. [KEYS] and [ARGV] are the arguments, in their order; a number the
    Rust side prints only for Redis to parse back is passed as itself. *)

From S2P Require Import Prelude RustStd RedisStore.

#[local] Open Scope redis_scope.

Section scripts.
Context `{Redis R, Lua}.
#[local] Abbreviation script := (Script R).

(** Arithmetic on [nil] raises. *)
Definition sfail {A} : script A := λ r, (None, r).

Definition number (o : option Z) : script Z :=
  match o with Some z => sret z | None => sfail end.

(** [tonumber(v or '0')]. *)
Definition number_or_0 (v : option string) : option Z := tonumber (default "0" v).

Definition MEMBERSHIP_JOIN_LUA (hash index token expire_at : string) (ttl_secs : Z)
    (member : string) : script Z :=
  HSET hash [(token, expire_at)] ;;;
  EXPIRE hash ttl_secs ;;;
  SADD index [member] ;;;
  HLEN hash.

Definition UNSUBSCRIBE_LUA (occ chans token channel : string) : script (Z * Z) :=
  HDEL occ [token] ;;;
  count <-- HLEN occ ;;
  if (count <=? 0)%Z then
    DEL [occ] ;;;
    won <-- SREM chans channel ;;
    sret (count, won)
  else sret (count, 0%Z).

Definition VACATE_LUA (occ chans presusers presinfo presmembers presseats channel : string)
    : script (Z * list string) :=
  n <-- HLEN occ ;;
  if negb (n =? 0)%Z then sret (0%Z, []) else
  roster <-- HKEYS presusers ;;
  DEL [occ] ;;;
  removed <-- SREM chans channel ;;
  if (removed =? 0)%Z then sret (0%Z, []) else
  DEL [presusers; presinfo; presmembers; presseats] ;;;
  sret (1%Z, roster).

(** ** Seats *)

Definition nl : ascii := "010"%char.
Definition NL : string := String nl "".

(** The [string.gmatch] of the re-seat: pairs of newline-terminated lines. *)
Fixpoint pairs (l : list string) : list (string * string) :=
  match l with
  | a :: b :: l => (a, b) :: pairs l
  | _ => []
  end.

Definition gmatch_seats (packed : string) : list (string * string) :=
  pairs (removelast (Str.split nl packed)).

Definition flat (l : list (string * string)) : list string := l ≫= λ p, [p.1; p.2].

Fixpoint live_seats (members : string) (l : list (string * string)) : script (list (string * string)) :=
  match l with
  | [] => sret []
  | (token, presented) :: l =>
      alive <-- HEXISTS members token ;;
      live <-- live_seats members l ;;
      sret (if (alive =? 1)%Z then (token, presented) :: live else live)
  end.

Definition RESEAT_LUA (members info seats user : string) : script unit :=
  packed <-- HGET seats user ;;
  match packed with
  | None => sret tt
  | Some packed =>
      live <-- live_seats members (gmatch_seats packed) ;;
      match live with
      | [] => HDEL seats [user] ;;; sret tt
      | (_, seat) :: _ =>
          HSET seats [(user, String.concat NL (flat live) +:+ NL)] ;;;
          HSET info [(user, seat)] ;;;
          sret tt
      end
  end.

(** ** Presence *)

Definition over_cap (presusers user : string) (cap : Z) : script bool :=
  if negb (0 <=? cap)%Z then sret false else
  known <-- HEXISTS presusers user ;;
  if negb (known =? 0)%Z then sret false else
  n <-- HLEN presusers ;;
  sret (cap <=? n)%Z.

Definition PRESENCE_JOIN_LUA (presusers presinfo presmembers presseats user info token max : string)
    : script Z :=
  cap <-- number (tonumber max) ;;
  full <-- over_cap presusers user cap ;;
  if (full : bool) then sret (-1)%Z else
  HSET presmembers [(token, user)] ;;;
  seats <-- HGET presseats user ;;
  HSET presseats [(user, default "" seats +:+ token +:+ NL +:+ info +:+ NL)] ;;;
  conn <-- HINCRBY presusers user 1 ;;
  (if (conn =? 1)%Z then HSET presinfo [(user, info)] else sret 0%Z) ;;;
  sret conn.

Definition drop_user (presusers presinfo presseats user : string) : script unit :=
  HDEL presusers [user] ;;;
  HDEL presinfo [user] ;;;
  HDEL presseats [user] ;;;
  sret tt.

Definition PRESENCE_LEAVE_LUA (presusers presinfo presmembers presseats user token : string)
    : script Z :=
  HDEL presmembers [token] ;;;
  conn <-- HINCRBY presusers user (-1) ;;
  (if (conn <=? 0)%Z then drop_user presusers presinfo presseats user
   else RESEAT_LUA presmembers presinfo presseats user) ;;;
  sret conn.

Definition REAP_MEMBER_LUA (presusers presinfo presmembers presseats token : string)
    : script (string * Z * Z) :=
  user <-- HGET presmembers token ;;
  match user with
  | None => sret ("", 0%Z, 0%Z)
  | Some user =>
      HDEL presmembers [token] ;;;
      v <-- HGET presusers user ;;
      let conn := default 0%Z (number_or_0 v) in
      if (conn <=? 1)%Z then
        drop_user presusers presinfo presseats user ;;;
        sret (user, 0%Z, if (conn =? 1)%Z then 1%Z else 0%Z)
      else
        left <-- HINCRBY presusers user (-1) ;;
        RESEAT_LUA presmembers presinfo presseats user ;;;
        sret (user, left, 0%Z)
  end.

(** ** User bindings *)

(** The text before the first colon, if there is some. *)
Definition node_of (token : string) : option string :=
  match Str.split_once ":" token with
  | Some (String c n, _) => Some (String c n)
  | _ => None
  end.

Fixpoint reap_bindings (usr : string) (now : option Z) (l : list (string * string))
    (dead_node : string) (fresh : Z) : script (string * Z) :=
  match l with
  | [] => sret (dead_node, fresh)
  | (token, stamp) :: l =>
      is_fresh <-- match tonumber stamp with
                   | None => sret false
                   | Some expire_at => now <-- number now ;; sret (now <=? expire_at)%Z
                   end ;;
      if (is_fresh : bool) then reap_bindings usr now l dead_node (fresh + 1)%Z
      else
        HDEL usr [token] ;;;
        reap_bindings usr now l
          (if Str.is_empty dead_node then default dead_node (node_of token) else dead_node) fresh
  end.

Definition USER_REAP_LUA (usr users now user_id : string) : script (Z * string) :=
  bindings <-- HGETALL usr ;;
  acc <-- reap_bindings usr (tonumber now) bindings "" 0 ;;
  if (0 <? acc.2)%Z then sret (0%Z, "") else
  DEL [usr] ;;;
  removed <-- SREM users user_id ;;
  if (removed =? 0)%Z then sret (0%Z, "") else
  sret (1%Z, acc.1).

Definition USER_SIGNOUT_LUA (usr users token user_id : string) : script Z :=
  HDEL usr [token] ;;;
  conn <-- HLEN usr ;;
  if (conn <=? 0)%Z then
    DEL [usr] ;;;
    SREM users user_id ;;;
    sret conn
  else sret conn.

(** ** Capacity *)

Definition at_capacity (appconns app : string) (cap : option Z) : script bool :=
  match cap with
  | Some cap =>
      if (0 <? cap)%Z then
        v <-- HGET appconns app ;;
        cur <-- number (number_or_0 v) ;;
        sret (cap <=? cur)%Z
      else sret false
  | None => sret false
  end.

Definition ADMIT_APP_LUA (appconns nodeconns app capacity : string) (ttl_secs : Z) : script Z :=
  full <-- at_capacity appconns app (tonumber capacity) ;;
  if (full : bool) then sret 0%Z else
  HINCRBY appconns app 1 ;;;
  HINCRBY nodeconns app 1 ;;;
  EXPIRE nodeconns ttl_secs ;;;
  sret 1%Z.

Definition RELEASE_APP_LUA (appconns nodeconns app : string) : script Z :=
  node <-- HINCRBY nodeconns app (-1) ;;
  if (node <? 0)%Z then HDEL nodeconns [app] ;;; sret 0%Z else
  (if (node =? 0)%Z then HDEL nodeconns [app] else sret 0%Z) ;;;
  total <-- HINCRBY appconns app (-1) ;;
  (if (total <=? 0)%Z then HDEL appconns [app] else sret 0%Z) ;;;
  sret total.

Definition reclaim_app (appconns : string) (p : string * string) : script unit :=
  let n := default 0%Z (tonumber p.2) in
  v <-- HGET appconns p.1 ;;
  total <-- number (number_or_0 v) ;;
  (if (total <=? n)%Z then HDEL appconns [p.1] else HINCRBY appconns p.1 (- n)) ;;;
  sret tt.

Definition RECLAIM_NODE_LUA (appconns nodeconns node : string) : script Z :=
  alive <-- EXISTS node ;;
  if (alive =? 1)%Z then sret (-1)%Z else
  counts <-- HGETALL nodeconns ;;
  sfor counts (reclaim_app appconns) ;;;
  DEL [nodeconns] ;;;
  sret (Z.of_nat (length counts)).

Fixpoint sum_nodes (prefix self app : string) (nodes : list string) (total : Z) : script Z :=
  match nodes with
  | [] => sret total
  | node :: nodes =>
      if decide (node = self) then sum_nodes prefix self app nodes total
      else
        v <-- HGET (prefix +:+ node) app ;;
        sum_nodes prefix self app nodes (total + default 0 (v ≫= tonumber))%Z
  end.

Definition reseed_app (appconns prefix self : string) (nodes : list string) (p : string * string)
    : script unit :=
  live <-- number (tonumber p.2) ;;
  total <-- sum_nodes prefix self p.1 nodes live ;;
  HSET appconns [(p.1, dec total)] ;;;
  sret tt.

Definition RESEED_NODE_CAPACITY_LUA (appconns nodeconns nodes prefix self : string) (ttl_secs : Z)
    (counts : list (string * string)) : script Z :=
  sfor counts (λ p, HSET nodeconns [p] ;;; sret tt) ;;;
  EXPIRE nodeconns ttl_secs ;;;
  members <-- SMEMBERS nodes ;;
  sfor counts (reseed_app appconns prefix self members) ;;;
  sret (Z.of_nat (length counts)).
End scripts.
