(* ===== verification/RedisSpecs.v ===== *)
(** * What the Lua scripts do

    A triple for every script of [RedisScripts], at the keys the Rust side
    passes: it answers on every well-typed keyspace, and its effect is the
    stated update. *)

From S2P Require Import Prelude RustStd RedisStore RedisKeys RedisScripts.

Section specs.
Context `{RedisLaws R, !Lua, !LuaLaws} (p : string).

Section membership.
Context (app channel : string).
#[local] Abbreviation occ := (Keys.occ p app channel).
#[local] Abbreviation chans := (Keys.chans p app).

Lemma membership_join_spec token stamp ttl s :
  typed p s → (0 < ttl)%Z →
  wp (MEMBERSHIP_JOIN_LUA occ chans token stamp ttl channel) (λ n s',
    n = Z.of_nat (size (<[token := stamp]> (hashof s occ))) ∧
    s' = put_set chans (setof s chans ∪ {[channel]})
           (put_hash occ (<[token := stamp]> (hashof s occ)) s)) s.
Proof.
  intros Hs Httl.
  pose proof (typed_hash p s occ Hs ltac:(auto with redis_keys)) as Ho.
  pose proof (typed_set p s chans Hs ltac:(auto with redis_keys)) as Hc.
  unfold MEMBERSHIP_JOIN_LUA. rstep HSET_law. rstep EXPIRE_law. rstep SADD_law.
  eapply wp_mono; [eapply HLEN_law; rview|].
  cbv beta. intros n s' [-> ->]. simpl. by rewrite union_empty_r_L.
Qed.

Lemma unsubscribe_spec token s :
  typed p s →
  wp (UNSUBSCRIBE_LUA occ chans token channel) (λ a s',
    let h := delete token (hashof s occ) in
    if decide (h = ∅) then
      a = (0%Z, if decide (channel ∈ setof s chans) then 1%Z else 0%Z) ∧
      s' = put_set chans (setof s chans ∖ {[channel]}) (delete occ s)
    else a = (Z.of_nat (size h), 0%Z) ∧ s' = put_hash occ h s) s.
Proof.
  intros Hs.
  pose proof (typed_hash p s occ Hs ltac:(auto with redis_keys)) as Ho.
  pose proof (typed_set p s chans Hs ltac:(auto with redis_keys)) as Hc.
  unfold UNSUBSCRIBE_LUA. rstep HDEL_law. rstep HLEN_law. simpl.
  destruct (decide (delete token (hashof s occ) = ∅)) as [E|E].
  - rewrite E, map_size_empty. simpl. rstep DEL_law. simpl. rewrite put_hash_empty, delete_delete_eq.
    rstep SREM_law. by apply wp_ret.
  - assert (size (delete token (hashof s occ)) ≠ 0) by by rewrite map_size_empty_iff.
    destruct (Z.leb_spec (Z.of_nat (size (delete token (hashof s occ)))) 0); [lia|].
    by apply wp_ret.
Qed.

#[local] Abbreviation presusers := (Keys.presusers p app channel).
#[local] Abbreviation presinfo := (Keys.presinfo p app channel).
#[local] Abbreviation presmembers := (Keys.presmembers p app channel).
#[local] Abbreviation presseats := (Keys.presseats p app channel).

Lemma vacate_spec s :
  typed p s →
  wp (VACATE_LUA occ chans presusers presinfo presmembers presseats channel) (λ a s',
    if decide (hashof s occ = ∅) then
      let s1 := put_set chans (setof s chans ∖ {[channel]}) (delete occ s) in
      if decide (channel ∈ setof s chans) then
        a.1 = 1%Z ∧ a.2 ≡ₚ (map_to_list (hashof s presusers)).*1 ∧
        s' = delete presseats (delete presmembers (delete presinfo (delete presusers s1)))
      else a = (0%Z, []) ∧ s' = s1
    else a = (0%Z, []) ∧ s' = s) s.
Proof.
  intros Hs.
  pose proof (typed_hash p s occ Hs ltac:(auto with redis_keys)) as Ho.
  pose proof (typed_set p s chans Hs ltac:(auto with redis_keys)) as Hc.
  pose proof (typed_counts p s presusers Hs ltac:(auto with redis_keys)) as [Hu _].
  unfold VACATE_LUA. rstep HLEN_law.
  destruct (decide (hashof s occ = ∅)) as [E|E].
  - rewrite E, map_size_empty. simpl. rstep HKEYS_law. rstep DEL_law. simpl.
    rstep SREM_law. case_decide; simpl; [|by apply wp_ret].
    rstep DEL_law. by apply wp_ret.
  - assert (size (hashof s occ) ≠ 0) by by rewrite map_size_empty_iff.
    destruct (Z.eqb_spec (Z.of_nat (size (hashof s occ))) 0); [lia|]. by apply wp_ret.
Qed.
End membership.
End specs.
