(* ===== verification/RedisMembership.v ===== *)
(** * Cluster-wide occupancy and sign-ins

    Every node writes the membership hash of a channel and the index of
    occupied channels through the scripts of [src/src/adapter/redis/client.rs],
    the reconciler and the sweeper. Under any interleaving of these atomic
    steps, with keys expiring in between, the right to report a vacancy is
    granted once per occupancy. The same for the bindings of a user. *)

From S2P Require Import Prelude RustStd RedisStore RedisKeys RedisScripts RedisSpecs.

(** A keyspace updated at typed keys. *)
Ltac typed_tac := repeat first [eassumption | apply typed_put_set | apply typed_put_hash
  | apply typed_delete | by auto with redis_keys].

Section membership.
Context `{RedisLaws R, !Lua, !LuaLaws} (p app channel : string).
#[local] Open Scope redis_scope.
#[local] Abbreviation occ := (Keys.occ p app channel).
#[local] Abbreviation chans := (Keys.chans p app).
#[local] Abbreviation presusers := (Keys.presusers p app channel).
#[local] Abbreviation presinfo := (Keys.presinfo p app channel).
#[local] Abbreviation presmembers := (Keys.presmembers p app channel).
#[local] Abbreviation presseats := (Keys.presseats p app channel).

(** What a node sends for this channel: a join, a leave, the reconciler's
    re-stamp and re-index, the sweeper's removal of stale members and its
    vacate. *)
Inductive MemOp : Type :=
| MJoin (token stamp : string) (ttl : Z)
| MLeave (token : string)
| MStamp (stamps : list (string * string))
| MIndex
| MHdel (tokens : list string)
| MVacate.

Definition mem_step (op : MemOp) : Script R bool :=
  match op with
  | MJoin token stamp ttl =>
      MEMBERSHIP_JOIN_LUA occ chans token stamp ttl channel ;;; sret false
  | MLeave token =>
      a <-- UNSUBSCRIBE_LUA occ chans token channel ;; sret (a.2 =? 1)%Z
  | MStamp stamps => HSET occ stamps ;;; sret false
  | MIndex => SADD chans [channel] ;;; sret false
  | MHdel tokens => HDEL occ tokens ;;; sret false
  | MVacate =>
      a <-- VACATE_LUA occ chans presusers presinfo presmembers presseats channel ;;
      sret (a.1 =? 1)%Z
  end.

Definition op_ok (op : MemOp) : Prop :=
  match op with
  | MJoin _ _ ttl => (0 < ttl)%Z
  | MStamp stamps => stamps ≠ []
  | MHdel tokens => tokens ≠ []
  | _ => True
  end.

Definition indexed (s : Keyspace) : bool := bool_decide (channel ∈ setof s chans).

(** A step of the rest of the cluster: it may change anything but this
    channel's members and its index entry. *)
Definition elsewhere (s s' : Keyspace) : Prop :=
  typed p s' ∧ hashof s' occ = hashof s occ ∧ indexed s' = indexed s.

Inductive mem_steps : R → list (MemOp * bool) → R → Prop :=
| ms_start r : mem_steps r [] r
| ms_op r tr r1 op won r2 :
    mem_steps r tr r1 → op_ok op → mem_step op r1 = (Some won, r2) →
    mem_steps r (tr ++ [(op, won)]) r2
| ms_lapse r tr r1 r2 :
    mem_steps r tr r1 → keyspace r2 = delete occ (keyspace r1) → mem_steps r tr r2
| ms_other r tr r1 r2 :
    mem_steps r tr r1 → elsewhere (keyspace r1) (keyspace r2) → mem_steps r tr r2.

(** The index entry as the steps write it: asserted, or removed by the one
    step that is granted the report. *)
Inductive Edge : Type := Asserted | Vacated.

Definition edge_of (x : MemOp * bool) : list Edge :=
  match x with
  | (MJoin _ _ _, _) | (MIndex, _) => [Asserted]
  | (_, true) => [Vacated]
  | (_, false) => []
  end.

Fixpoint alternates (b : bool) (es : list Edge) : option bool :=
  match es with
  | [] => Some b
  | Asserted :: es => alternates true es
  | Vacated :: es => if b then alternates false es else None
  end.

(** Does [op] find the last member gone? The sweeper's plain removal of stale
    members ([MHdel]) does not look; the [VACATE_LUA] that follows it does. *)
Definition empties (op : MemOp) (s : Keyspace) : bool :=
  match op with
  | MLeave token => bool_decide (delete token (hashof s occ) = ∅)
  | MVacate => bool_decide (hashof s occ = ∅)
  | _ => false
  end.

Definition indexed_after (op : MemOp) (s : Keyspace) : bool :=
  match op with
  | MJoin _ _ _ | MIndex => true
  | _ => indexed s && negb (empties op s)
  end.

Lemma indexed_set s m : set_at s chans = Some m → indexed s = bool_decide (channel ∈ m).
Proof. intros Hm. unfold indexed. by rewrite (set_at_Some _ _ _ Hm). Qed.

(** What one step does to the members and to the index entry. *)
Definition step_post (op : MemOp) (s : Keyspace) (won : bool) (s' : Keyspace) : Prop :=
  typed p s' ∧ won = indexed s && empties op s ∧ indexed s' = indexed_after op s ∧
  (won = true → hashof s' occ = ∅).

Lemma leave_step token s : typed p s →
  wp (mem_step (MLeave token)) (step_post (MLeave token) s) s.
Proof.
  intros Hs. pose proof (typed_set p s chans Hs ltac:(auto with redis_keys)) as Hc.
  simpl. eapply wp_seq; [by apply unsubscribe_spec|]. cbv beta zeta. intros a s' Ha. apply wp_ret.
  unfold step_post, indexed_after, empties. case_decide as E.
  - destruct Ha as [-> ->]. rewrite (bool_decide_eq_true_2 _ E), andb_true_r, andb_false_r.
    split_and!; simpl.
    + typed_tac.
    + unfold indexed. case_decide as Hin; symmetry;
        [by apply bool_decide_eq_true_2|by apply bool_decide_eq_false_2].
    + erewrite indexed_set by rview. by apply bool_decide_eq_false_2; set_solver.
    + intros _. apply hash_at_Some. rview.
  - destruct Ha as [-> ->]. rewrite (bool_decide_eq_false_2 _ E), andb_false_r, andb_true_r.
    split_and!; simpl; [typed_tac|done| |done].
    erewrite indexed_set by rview. done.
Qed.

Lemma vacate_step s : typed p s → wp (mem_step MVacate) (step_post MVacate s) s.
Proof.
  intros Hs. pose proof (typed_set p s chans Hs ltac:(auto with redis_keys)) as Hc.
  simpl. eapply wp_seq; [by apply vacate_spec|]. cbv beta zeta. intros [w l] s' Ha. apply wp_ret.
  unfold step_post, indexed_after, empties. simpl in Ha. case_decide as E.
  - rewrite (bool_decide_eq_true_2 _ E), andb_true_r, andb_false_r.
    assert (indexed s = bool_decide (channel ∈ setof s chans)) as -> by done. case_decide as Hin.
    + destruct Ha as (-> & _ & ->). rewrite (bool_decide_eq_true_2 _ Hin).
      split_and!; simpl; [typed_tac|done| |].
      * erewrite indexed_set by rview. by apply bool_decide_eq_false_2; set_solver.
      * intros _. apply hash_at_Some. rview.
    + destruct Ha as ([= -> ->] & ->). rewrite (bool_decide_eq_false_2 _ Hin).
      split_and!; simpl; [typed_tac|done| |done].
      erewrite indexed_set by rview. by apply bool_decide_eq_false_2; set_solver.
  - destruct Ha as ([= -> ->] & ->). rewrite (bool_decide_eq_false_2 _ E), andb_false_r, andb_true_r.
    by split_and!.
Qed.

Lemma mem_step_spec op s : typed p s → op_ok op → wp (mem_step op) (step_post op s) s.
Proof.
  intros Hs Hop. pose proof (typed_set p s chans Hs ltac:(auto with redis_keys)) as Hc.
  pose proof (typed_hash p s occ Hs ltac:(auto with redis_keys)) as Ho.
  destruct op as [token stamp ttl|token|stamps| |tokens|]; simpl in Hop;
    [|by apply leave_step| | | |by apply vacate_step];
    unfold step_post, indexed_after, empties; rewrite ?andb_false_r, ?andb_true_r; simpl.
  - eapply wp_seq; [by apply membership_join_spec|]. cbv beta. intros n s' [-> ->]. apply wp_ret.
    split_and!; [typed_tac|done| |done].
    erewrite indexed_set by rview. by apply bool_decide_eq_true_2; set_solver.
  - rstep HSET_law. apply wp_ret. split_and!; [typed_tac|done| |done]. by erewrite indexed_set by rview.
  - rstep SADD_law. apply wp_ret. split_and!; [typed_tac|done| |done].
    erewrite indexed_set by rview. by apply bool_decide_eq_true_2; set_solver.
  - rstep HDEL_law. apply wp_ret. split_and!; [typed_tac|done| |done]. by erewrite indexed_set by rview.
Qed.

Lemma alternates_app b es es' :
  alternates b (es ++ es') = match alternates b es with Some b => alternates b es' | None => None end.
Proof.
  revert b. induction es as [|[] es IH]; intros b; simpl; [done|apply IH|]. destruct b; [apply IH|done].
Qed.

Definition edges (tr : list (MemOp * bool)) : list Edge := tr ≫= edge_of.

(** One step moves the index entry as its edge says. *)
Lemma edge_step op s won s' :
  step_post op s won s' → alternates (indexed s) (edge_of (op, won)) = Some (indexed s').
Proof.
  intros (_ & -> & -> & _). unfold indexed_after.
  destruct op; simpl; rewrite ?andb_false_r, ?andb_true_r; try done;
    destruct (indexed s); simpl; [case_bool_decide| |case_bool_decide|]; done.
Qed.

Lemma mem_steps_inv r tr r' :
  mem_steps r tr r' → typed p (keyspace r) →
  typed p (keyspace r') ∧ alternates (indexed (keyspace r)) (edges tr) = Some (indexed (keyspace r')).
Proof.
  intros Hst Hr. induction Hst as [r|r tr r1 op won r2 _ IH Hop E|r tr r1 r2 _ IH E|r tr r1 r2 _ IH E];
    [done| | |]; destruct (IH Hr) as [Ht Ha].
  - destruct (wp_run _ _ r1 (mem_step_spec op (keyspace r1) Ht Hop)) as (won' & r2' & E' & Hp).
    rewrite E in E'. simplify_eq. split; [apply Hp|].
    unfold edges. rewrite bind_app. simpl. rewrite app_nil_r, alternates_app.
    fold (edges tr). rewrite Ha. by apply edge_step.
  - rewrite E. split; [by apply typed_delete|]. rewrite Ha. f_equal.
    pose proof (typed_set p _ chans Ht ltac:(auto with redis_keys)) as Hc.
    erewrite (indexed_set (delete occ (keyspace r1))) by rview. done.
  - destruct E as (Ht' & _ & Hi). by rewrite Hi.
Qed.

(** C28. The [channel_vacated] right is granted once per occupancy. Under any
    interleaving of joins, leaves, reconciler ticks, sweeps and expiring
    membership hashes from any number of nodes, every step answers; a leave or
    a vacate is granted the report exactly when it leaves an indexed channel
    without members, and then removes it from the index, and no other step is;
    and between two grants the channel was indexed again by a join or a
    reconciler. *)
Theorem vacancy_reported_once (r0 r : R) (tr : list (MemOp * bool)) (op : MemOp) :
  typed p (keyspace r0) → indexed (keyspace r0) = false → mem_steps r0 tr r → op_ok op →
  alternates false (edges tr) = Some (indexed (keyspace r)) ∧
  ∃ won r', mem_step op r = (Some won, r') ∧
    won = indexed (keyspace r) && empties op (keyspace r) ∧
    indexed (keyspace r') = indexed_after op (keyspace r) ∧
    (won = true → hashof (keyspace r') occ = ∅).
Proof.
  intros Ht Hi Hst Hop. destruct (mem_steps_inv r0 tr r Hst Ht) as [Htr Ha]. rewrite Hi in Ha.
  split; [done|].
  destruct (wp_run _ _ r (mem_step_spec op (keyspace r) Htr Hop)) as (won & r' & E & Hp).
  exists won, r'. split; [done|]. apply Hp.
Qed.
End membership.

(** ** Sign-ins *)

Section users.
Context `{RedisLaws R, !Lua, !LuaLaws} (p app user : string).
#[local] Open Scope redis_scope.
#[local] Abbreviation usr := (Keys.usr p app user).
#[local] Abbreviation users := (Keys.users p app).

Definition is_fresh (now : Z) (stamp : string) : bool :=
  match tonumber stamp with Some e => (now <=? e)%Z | None => false end.

Definition reap1 (now : Z) (h : gmap string string) (q : string * string) : gmap string string :=
  if is_fresh now q.2 then h else delete q.1 h.

Definition count_fresh (now : Z) (l : list (string * string)) : Z :=
  Z.of_nat (length (filter (λ q, is_fresh now q.2 = true) l)).

Lemma reap_bindings_spec now l dead fresh s h :
  hash_at s usr = Some h →
  wp (reap_bindings usr (Some now) l dead fresh) (λ a s',
    a.2 = (fresh + count_fresh now l)%Z ∧ hash_at s' usr = Some (foldl (reap1 now) h l) ∧
    (no_empty s → no_empty s') ∧ ∀ k, k ≠ usr → s' !! k = s !! k) s.
Proof.
  revert dead fresh s h. unfold count_fresh.
  induction l as [|[token stamp] l IH]; intros dead fresh s h Hh; simpl.
  { apply wp_ret. split_and!; [simpl; lia|done..]. }
  assert (wp (match tonumber stamp with
              | Some e => now <-- number (Some now) ;; sret (now <=? e)%Z
              | None => sret false end) (λ b s', b = is_fresh now stamp ∧ s' = s) s) as Hf.
  { unfold is_fresh. destruct (tonumber stamp); [apply wp_pure|]; by apply wp_ret. }
  eapply wp_seq; [exact Hf|]. cbv beta. intros b s' [-> ->]. clear Hf.
  rewrite filter_cons. unfold reap1 at 2. simpl. destruct (is_fresh now stamp).
  - rewrite decide_True by done. eapply wp_mono; [by apply IH|].
    cbv beta. intros a s' (-> & ? & ? & ?). simpl. split_and!; [lia|done..].
  - rewrite decide_False by done. rstep HDEL_law.
    eapply wp_mono; [apply IH; rview|]. cbv beta. intros a' s' (-> & Hs & He & Hk). split_and!; [done|done| |].
    + intros Hne. by apply He, no_empty_put_hash.
    + intros k Hne. rewrite Hk by done. by rewrite put_hash_ne.
Qed.

Lemma reap_lookup now l h t :
  foldl (reap1 now) h l !! t =
  if decide (Exists (λ q, q.1 = t ∧ is_fresh now q.2 = false) l) then None else h !! t.
Proof.
  revert h. induction l as [|[t' x] l IH]; intros h; simpl; [done|].
  rewrite IH. unfold reap1. simpl.
  destruct (decide (Exists _ l)) as [Hl|Hl]; destruct (decide (Exists _ (_ :: l))) as [Hc|Hc];
    rewrite Exists_cons in Hc; simpl in Hc; try tauto.
  - destruct (is_fresh now x); [naive_solver|]. destruct Hc as [[-> _]|Hc]; [|done].
    by rewrite lookup_delete_eq.
  - destruct (is_fresh now x); [done|]. apply lookup_delete_ne. naive_solver.
Qed.

Lemma reap_filter now l h :
  l ≡ₚ map_to_list h → foldl (reap1 now) h l = filter (λ q, is_fresh now q.2 = true) h.
Proof.
  intros Hl. apply map_eq. intros t. rewrite reap_lookup.
  assert (∀ q, q ∈ l ↔ h !! q.1 = Some q.2) as Hin.
  { intros [a b]. rewrite Hl. apply elem_of_map_to_list. }
  rewrite map_lookup_filter. destruct (h !! t) as [x|] eqn:E; simpl; [|by case_decide].
  case_decide as Hd.
  - apply Exists_exists in Hd as (q & Hq & Ht & Hst). apply Hin in Hq.
    rewrite Ht, E in Hq. simplify_eq. rewrite option_guard_False; [done|congruence].
  - destruct (is_fresh now x) eqn:Ef; [by rewrite option_guard_True|]. destruct Hd.
    apply Exists_exists. exists (t, x). split; [by apply Hin|done].
Qed.

Lemma fresh_none now l h :
  l ≡ₚ map_to_list h → (0 <? count_fresh now l)%Z = negb (bool_decide (filter (λ q, is_fresh now q.2 = true) h = ∅)).
Proof.
  intros Hl. unfold count_fresh. case_bool_decide as E; simpl.
  - assert (filter (λ q, is_fresh now q.2 = true) l = []) as ->; [|done].
    destruct (filter (λ q, is_fresh now q.2 = true) l) as [|[t x] m] eqn:Ef; [done|].
    assert ((t, x) ∈ filter (λ q, is_fresh now q.2 = true) l) as Hin by (rewrite Ef; by left).
    apply list_elem_of_filter in Hin as [Hf Hin]. rewrite Hl in Hin. apply elem_of_map_to_list in Hin.
    assert (filter (λ q, is_fresh now q.2 = true) h !! t = Some x) as Hx by by apply map_lookup_filter_Some.
    by rewrite E, lookup_empty in Hx.
  - apply map_choose in E as (t & x & [Hx Hf]%map_lookup_filter_Some).
    assert ((t, x) ∈ filter (λ q, is_fresh now q.2 = true) l) as Hin.
    { apply list_elem_of_filter. split; [done|]. rewrite Hl. by apply elem_of_map_to_list. }
    destruct (filter (λ q, is_fresh now q.2 = true) l); [by apply elem_of_nil in Hin|done].
Qed.

Definition live (now : Z) (s : Keyspace) : gmap string string :=
  filter (λ q, is_fresh now q.2 = true) (hashof s usr).

Lemma typed_same s s' k :
  typed p s → key_type p k = Some THash → is_Some (hash_at s' k) →
  (∀ k', k' ≠ k → s' !! k' = s !! k') → typed p s'.
Proof.
  intros Hs Hk [h Hh] Hsame k' v t Hv Ht. destruct (decide (k' = k)) as [->|Hne].
  - unfold hash_at in Hh. rewrite Hv in Hh. rewrite Hk in Ht. simplify_eq. by destruct v.
  - rewrite Hsame in Hv by done. by eapply Hs.
Qed.

Lemma user_reap_spec now_ms now s :
  typed p s → tonumber now_ms = Some now →
  wp (USER_REAP_LUA usr users now_ms user) (λ a s',
    typed p s' ∧ (no_empty s → no_empty s') ∧
    (∀ k, k ≠ usr → k ≠ users → s' !! k = s !! k) ∧ hashof s' usr = live now s ∧
    if decide (live now s = ∅) then
      a.1 = (if decide (user ∈ setof s users) then 1 else 0)%Z ∧
      setof s' users = setof s users ∖ {[user]}
    else a = (0%Z, "") ∧ setof s' users = setof s users) s.
Proof.
  intros Hs Hnow. pose proof (typed_set p s users Hs ltac:(auto with redis_keys)) as Hc.
  pose proof (typed_hash p s usr Hs ltac:(auto with redis_keys)) as Ho.
  unfold USER_REAP_LUA. rewrite Hnow. eapply wp_seq; [by apply HGETALL_law|].
  cbv beta. intros l s1 [-> Hl]. eapply wp_seq; [by apply reap_bindings_spec|].
  cbv beta. intros [dead fresh] s2 (Hf & Hh & He & Hk). simpl in Hf.
  rewrite (reap_filter now l _ Hl) in Hh. fold (live now s) in Hh.
  assert (typed p s2) as Ht2.
  { eapply (typed_same s s2 usr); eauto with redis_keys. }
  assert (set_at s2 users = Some (setof s users)) as Hc2.
  { rewrite <-Hc. apply set_at_ext, Hk. rne. }
  cbn [fst snd]. rewrite Hf, Z.add_0_l, (fresh_none now l _ Hl). fold (live now s).
  destruct (decide (live now s = ∅)) as [E|E];
    [rewrite bool_decide_eq_true_2 by done|rewrite bool_decide_eq_false_2 by done]; simpl.
  - rstep DEL_law. simpl. rstep SREM_law. case_decide; simpl; apply wp_ret;
      (split_and!; [typed_tac|auto with pylon| |rewrite E; apply hash_at_Some; rview|done
        |apply set_at_Some; rview]);
      intros k Hu Hs'; rewrite put_set_ne, lookup_delete_ne by done; by apply Hk.
  - apply wp_ret. split_and!; [done|done|auto|by apply hash_at_Some|done|by apply set_at_Some].
Qed.

Lemma user_signout_spec token s :
  typed p s →
  wp (USER_SIGNOUT_LUA usr users token user) (λ a s',
    let h := delete token (hashof s usr) in
    typed p s' ∧ (no_empty s → no_empty s') ∧ a = Z.of_nat (size h) ∧ hashof s' usr = h ∧
    setof s' users = if decide (h = ∅) then setof s users ∖ {[user]} else setof s users) s.
Proof.
  intros Hs. pose proof (typed_set p s users Hs ltac:(auto with redis_keys)) as Hc.
  pose proof (typed_hash p s usr Hs ltac:(auto with redis_keys)) as Ho.
  unfold USER_SIGNOUT_LUA. rstep HDEL_law. rstep HLEN_law. simpl.
  destruct (decide (delete token (hashof s usr) = ∅)) as [E|E].
  - rewrite E, map_size_empty. simpl. rstep DEL_law. simpl. rstep SREM_law. apply wp_ret.
    split_and!; [typed_tac|auto with pylon|done|apply hash_at_Some; rview|apply set_at_Some; rview].
  - assert (size (delete token (hashof s usr)) ≠ 0) by by rewrite map_size_empty_iff.
    destruct (Z.leb_spec (Z.of_nat (size (delete token (hashof s usr)))) 0); [lia|].
    apply wp_ret.
    split_and!; [typed_tac|auto with pylon|done|apply hash_at_Some; rview|apply set_at_Some; rview].
Qed.

Lemma user_signin_spec token stamp ttl s :
  typed p s → (0 < ttl)%Z →
  wp (MEMBERSHIP_JOIN_LUA usr users token stamp ttl user) (λ n s',
    n = Z.of_nat (size (<[token := stamp]> (hashof s usr))) ∧
    s' = put_set users (setof s users ∪ {[user]})
           (put_hash usr (<[token := stamp]> (hashof s usr)) s)) s.
Proof.
  intros Hs Httl.
  pose proof (typed_hash p s usr Hs ltac:(auto with redis_keys)) as Ho.
  pose proof (typed_set p s users Hs ltac:(auto with redis_keys)) as Hc.
  unfold MEMBERSHIP_JOIN_LUA. rstep HSET_law. rstep EXPIRE_law. rstep SADD_law.
  eapply wp_mono; [eapply HLEN_law; rview|].
  cbv beta. intros n s' [-> ->]. simpl. by rewrite union_empty_r_L.
Qed.

(** The reap of a user's last binding and the sign-out of the connection that
    held it both answer with the offline edge: the reap [won = 1], the
    sign-out, which finds an empty hash, 0. *)
Theorem signout_repeats_offline (r : R) (now_ms : string) (now : Z) (token : string) :
  typed p (keyspace r) → tonumber now_ms = Some now → live now (keyspace r) = ∅ →
  user ∈ setof (keyspace r) users →
  ∃ dead r1 r2, USER_REAP_LUA usr users now_ms user r = (Some (1%Z, dead), r1) ∧
    USER_SIGNOUT_LUA usr users token user r1 = (Some 0%Z, r2).
Proof.
  intros Hs Hnow Hl Hu.
  destruct (wp_run _ _ r (user_reap_spec now_ms now (keyspace r) Hs Hnow))
    as ([won dead] & r1 & E1 & Ht & _ & _ & Hh & Hc).
  rewrite !decide_True in Hc by done. destruct Hc as [Hw _]. simpl in Hw. subst won.
  destruct (wp_run _ _ r1 (user_signout_spec token (keyspace r1) Ht)) as (a & r2 & E2 & _ & _ & -> & _).
  rewrite Hh, Hl, delete_empty, map_size_empty in E2. by exists dead, r1, r2.
Qed.

(** A sign-in is never lost to the sweeper. A reap leaves exactly the bindings
    that have not expired, wins only when none is left and the user was still
    indexed, and then de-indexes the user; otherwise the user stays indexed. *)
Theorem reap_spares_live_bindings (r : R) (now_ms : string) (now : Z) :
  typed p (keyspace r) → tonumber now_ms = Some now →
  ∃ won dead r', USER_REAP_LUA usr users now_ms user r = (Some (won, dead), r') ∧
    hashof (keyspace r') usr = filter (λ q, is_fresh now q.2 = true) (hashof (keyspace r) usr) ∧
    (won = 1%Z ↔ live now (keyspace r) = ∅ ∧ user ∈ setof (keyspace r) users) ∧
    (live now (keyspace r) ≠ ∅ → setof (keyspace r') users = setof (keyspace r) users).
Proof.
  intros Hs Hnow.
  destruct (wp_run _ _ r (user_reap_spec now_ms now (keyspace r) Hs Hnow))
    as ([won dead] & r' & E & Ht & _ & _ & Hh & Hc).
  exists won, dead, r'. split; [done|]. split; [exact Hh|]. case_decide as Hl.
  - simpl in Hc. destruct Hc as [-> _]. split; [|done]. case_decide; naive_solver.
  - destruct Hc as [[= -> ->] Hc]. naive_solver.
Qed.
End users.
