(* ===== verification/RedisCapacity.v ===== *)
(** * Cluster-wide connection capacity

    The admission, release, reclaim and re-seed scripts of
    [src/src/adapter/redis/client.rs] keep, for each app, a cluster total and
    one count per node. The total is the sum of the counts, plus what nodes
    whose hash expired have not yet given back; so an admission is never
    granted beyond the capacity. *)

From S2P Require Import Prelude RustStd RedisStore RedisKeys RedisScripts RedisSpecs.

(** ** Counters *)

Section counters.
Context `{!Lua, !LuaLaws}.

(** A field read as the scripts read it. *)
Definition num (h : gmap string string) (f : string) : Z := default 0%Z (number_or_0 (h !! f)).

(** Hashes of integers that Lua reads exactly. *)
Definition small (h : gmap string string) : Prop :=
  map_Forall (λ _ v, ∃ z, v = dec z ∧ (- LUA_INT <= z <= LUA_INT)%Z) h.

Lemma small_num h f : small h →
  number_or_0 (h !! f) = Some (num h f) ∧ default (dec 0) (h !! f) = dec (num h f) ∧
  (- LUA_INT <= num h f <= LUA_INT)%Z.
Proof.
  intros Hh. unfold num, number_or_0. destruct (h !! f) as [v|] eqn:E; simpl.
  - destruct (Hh _ _ E) as (z & -> & Hz). rewrite tonumber_dec by done. done.
  - change "0" with (dec 0). rewrite tonumber_dec by (unfold LUA_INT; lia). simpl.
    split_and!; [done|done|unfold LUA_INT; lia|unfold LUA_INT; lia].
Qed.

Lemma small_insert h f z : small h → (- LUA_INT <= z <= LUA_INT)%Z → small (<[f := dec z]> h).
Proof. intros Hh Hz. apply map_Forall_insert_2; [by exists z|done]. Qed.

Lemma small_delete h f : small h → small (delete f h).
Proof. apply map_Forall_delete. Qed.

Lemma small_empty : small ∅.
Proof. intros f v Hv. by rewrite lookup_empty in Hv. Qed.

Lemma num_insert h f g z : (- LUA_INT <= z <= LUA_INT)%Z →
  num (<[f := dec z]> h) g = if decide (g = f) then z else num h g.
Proof.
  intros Hz. unfold num, number_or_0. case_decide as E; [subst|by rewrite lookup_insert_ne].
  rewrite lookup_insert_eq. simpl. by rewrite tonumber_dec.
Qed.

Lemma num_delete h f g : num (delete f h) g = if decide (g = f) then 0%Z else num h g.
Proof.
  unfold num, number_or_0. case_decide as E; [subst|by rewrite lookup_delete_ne].
  rewrite lookup_delete_eq. simpl. change "0" with (dec 0).
  by rewrite tonumber_dec by (unfold LUA_INT; lia).
Qed.

Lemma num_empty f : num ∅ f = 0%Z.
Proof.
  unfold num, number_or_0. rewrite lookup_empty. simpl. change "0" with (dec 0).
  by rewrite tonumber_dec by (unfold LUA_INT; lia).
Qed.
End counters.

(** ** The scripts *)

Section capacity.
Context `{RedisLaws R, !Lua, !LuaLaws} (p : string).
#[local] Abbreviation appconns := (Keys.appconns p).
#[local] Abbreviation nodeconns := (Keys.nodeconns p).

Lemma admit_spec node app cap ttl s A N :
  hash_at s appconns = Some A → hash_at s (nodeconns node) = Some N → small A → small N →
  (0 <= cap <= LUA_INT)%Z → (0 < ttl)%Z →
  wp (ADMIT_APP_LUA appconns (nodeconns node) app (dec cap) ttl) (λ a s',
    if (0 <? cap)%Z && (cap <=? num A app)%Z then a = 0%Z ∧ s' = s
    else a = 1%Z ∧
      s' = put_hash (nodeconns node) (<[app := dec (num N app + 1)]> N)
             (put_hash appconns (<[app := dec (num A app + 1)]> A) s)) s.
Proof.
  intros HA HN SA SN Hcap Httl. destruct (small_num A app SA) as (EA & DA & BA).
  destruct (small_num N app SN) as (EN & DN & BN). unfold LUA_INT in *.
  unfold ADMIT_APP_LUA. eapply wp_seq with (P := λ b s', b = ((0 <? cap) && (cap <=? num A app))%Z ∧ s' = s).
  { rewrite tonumber_dec by (unfold LUA_INT; lia). unfold at_capacity. case_bool; [|by apply wp_ret].
    rstep HGET_law. rewrite EA. apply wp_pure. by apply wp_ret. }
  cbv beta. intros b s' [-> ->]. case_bool; [by apply wp_ret|].
  eapply wp_seq; [eapply HINCRBY_law; [exact HA|exact DA|unfold i64, I64_MAX; lia]|].
  cbv beta. intros ? ? [-> ->].
  eapply wp_seq; [eapply HINCRBY_law; [rview|exact DN|unfold i64, I64_MAX; lia]|].
  cbv beta. intros ? ? [-> ->]. rstep EXPIRE_law. by apply wp_ret.
Qed.

Lemma release_spec node app s A N :
  hash_at s appconns = Some A → hash_at s (nodeconns node) = Some N → small A → small N →
  wp (RELEASE_APP_LUA appconns (nodeconns node) app) (λ a s',
    if (num N app - 1 <? 0)%Z then
      a = 0%Z ∧ s' = put_hash (nodeconns node) (delete app N) s
    else a = (num A app - 1)%Z ∧
      s' = put_hash appconns
             (if (num A app - 1 <=? 0)%Z then delete app A else <[app := dec (num A app - 1)]> A)
             (put_hash (nodeconns node)
                (if (num N app - 1 =? 0)%Z then delete app N else <[app := dec (num N app - 1)]> N) s)) s.
Proof.
  intros HA HN SA SN. destruct (small_num A app SA) as (EA & DA & BA).
  destruct (small_num N app SN) as (EN & DN & BN). unfold LUA_INT in *. unfold RELEASE_APP_LUA.
  eapply wp_seq; [eapply HINCRBY_law; [exact HN|exact DN|unfold i64, I64_MAX; lia]|].
  cbv beta. intros ? ? [-> ->]. change (num N app + -1)%Z with (num N app - 1)%Z.
  destruct (num N app - 1 <? 0)%Z.
  { rstep HDEL_law. apply wp_ret. simpl. rewrite put_hash_put, delete_insert_eq. split; reflexivity. }
  eapply wp_seq with (P := λ _ s', s' = put_hash (nodeconns node)
    (if (num N app - 1 =? 0)%Z then delete app N else <[app := dec (num N app - 1)]> N) s).
  { destruct (num N app - 1 =? 0)%Z; [|by apply wp_ret]. eapply wp_mono; [eapply HDEL_law; rsolve|]. cbv beta.
    intros ? ? ->. simpl. rewrite put_hash_put, delete_insert_eq. reflexivity. }
  cbv beta. intros ? s1 Hs1. assert (hash_at s1 appconns = Some A) as HA1 by (subst; rview).
  eapply wp_seq; [eapply HINCRBY_law; [exact HA1|exact DA|unfold i64, I64_MAX; lia]|].
  cbv beta. intros ? ? [-> ->]. change (num A app + -1)%Z with (num A app - 1)%Z.
  eapply wp_seq with (P := λ _ s', s' = put_hash appconns
    (if (num A app - 1 <=? 0)%Z then delete app A else <[app := dec (num A app - 1)]> A) s1).
  { destruct (num A app - 1 <=? 0)%Z; [|by apply wp_ret]. eapply wp_mono; [eapply HDEL_law; rsolve|]. cbv beta.
    intros ? ? ->. simpl. rewrite put_hash_put, delete_insert_eq. reflexivity. }
  cbv beta. intros ? ? ->. apply wp_ret. subst s1. by split.
Qed.

(** The reclaim of one field. *)
Definition reclaim1 (A : gmap string string) (q : string * string) : gmap string string :=
  let n := default 0%Z (tonumber q.2) in
  if (num A q.1 <=? n)%Z then delete q.1 A else <[q.1 := dec (num A q.1 - n)]> A.

(** Counts of connections: natural numbers that Lua reads exactly. *)
Definition natural (q : string * string) : Prop := ∃ z, q.2 = dec z ∧ (0 <= z <= LUA_INT)%Z.

Lemma natural_num q : natural q → (0 <= default 0%Z (tonumber q.2) <= LUA_INT)%Z.
Proof.
  intros (z & -> & Hz). rewrite tonumber_dec by (unfold LUA_INT in *; lia). done.
Qed.

Lemma reclaim1_small A q : small A → natural q → small (reclaim1 A q).
Proof.
  intros HA Hq%natural_num. destruct (small_num A q.1 HA) as (_ & _ & HB).
  unfold reclaim1, LUA_INT in *. destruct (Z.leb_spec (num A q.1) (default 0%Z (tonumber q.2)));
    [by apply small_delete|]. apply small_insert; [done|]. unfold LUA_INT. lia.
Qed.

Lemma reclaim_loop_spec l s A :
  hash_at s appconns = Some A → small A → Forall natural l → no_empty s →
  wp (sfor l (reclaim_app appconns)) (λ _ s',
    s' = put_hash appconns (foldl reclaim1 A l) s) s.
Proof.
  intros HA SA Hl. revert s A HA SA.
  induction Hl as [|q l Hq _ IH]; intros s A HA SA Hne; simpl.
  { apply wp_ret. by rewrite put_hash_same. }
  destruct (small_num A q.1 SA) as (EA & DA & BA). pose proof (natural_num q Hq) as BQ.
  unfold LUA_INT in *.
  eapply wp_seq with (P := λ _ s', s' = put_hash appconns (reclaim1 A q) s).
  - unfold reclaim_app. rstep HGET_law. rewrite EA. apply wp_pure. unfold reclaim1.
    destruct (num A q.1 <=? default 0%Z (tonumber q.2))%Z.
    + rstep HDEL_law. by apply wp_ret.
    + eapply wp_seq; [eapply HINCRBY_law; [exact HA|exact DA|unfold i64, I64_MAX; lia]|].
      cbv beta. intros ? ? [-> ->]. by apply wp_ret.
  - cbv beta. intros _ s' ->. eapply wp_mono.
    + apply IH; [apply hash_at_put_eq|by apply reclaim1_small|by apply no_empty_put_hash].
    + cbv beta. intros _ s' ->. apply put_hash_put.
Qed.

Lemma reclaim1_num A q f : small A → natural q →
  num (reclaim1 A q) f =
  if decide (f = q.1) then Z.max 0 (num A f - default 0%Z (tonumber q.2)) else num A f.
Proof.
  intros SA Hq%natural_num. destruct (small_num A q.1 SA) as (_ & _ & BA).
  unfold reclaim1, LUA_INT in *. destruct (Z.leb_spec (num A q.1) (default 0%Z (tonumber q.2))).
  - rewrite num_delete. case_decide; [subst; lia|done].
  - rewrite num_insert by (unfold LUA_INT; lia). case_decide; [subst; lia|done].
Qed.

Lemma reclaim_num l A f : small A → Forall natural l → NoDup l.*1 → (0 <= num A f)%Z →
  num (foldl reclaim1 A l) f = Z.max 0 (num A f - num (list_to_map l) f).
Proof.
  intros SA Hl. revert A SA. induction Hl as [|q l Hq Hl IH]; intros A SA Hnd Hpos; simpl.
  { rewrite num_empty. lia. }
  destruct q as [g v]. simpl in Hnd. apply NoDup_cons in Hnd as [Hg Hnd].
  pose proof (natural_num _ Hq) as Bq. simpl in Bq.
  rewrite IH; [|by apply reclaim1_small|done|rewrite reclaim1_num by done; simpl; case_decide; lia].
  rewrite reclaim1_num by done. simpl. destruct (decide (f = g)) as [->|Hne].
  - assert (num (<[g := v]> (list_to_map l)) g = default 0%Z (tonumber v)) as ->.
    { unfold num, number_or_0. by rewrite lookup_insert_eq. }
    assert (num (list_to_map l) g = 0%Z) as ->; [|lia].
    unfold num, number_or_0. rewrite not_elem_of_list_to_map_1 by done. simpl.
    change "0" with (dec 0). by rewrite tonumber_dec by (unfold LUA_INT; lia).
  - unfold num at 4. rewrite lookup_insert_ne by done. done.
Qed.

Lemma reclaim_spec node s A N :
  hash_at s appconns = Some A → hash_at s (nodeconns node) = Some N →
  small A → map_Forall (λ f v, natural (f, v)) N → no_empty s →
  wp (RECLAIM_NODE_LUA appconns (nodeconns node) (Keys.node p node)) (λ a s',
    match s !! Keys.node p node with
    | Some _ => a = (-1)%Z ∧ s' = s
    | None => ∃ A', s' = delete (nodeconns node) (put_hash appconns A' s) ∧ small A' ∧
        ∀ f, (0 <= num A f)%Z → num A' f = Z.max 0 (num A f - num N f)
    end) s.
Proof.
  intros HA HN SA SN Hne. unfold RECLAIM_NODE_LUA. rstep EXISTS_law.
  destruct (s !! Keys.node p node) as [v|]; simpl; [by apply wp_ret|].
  eapply wp_seq; [by apply HGETALL_law|]. cbv beta. intros l s' [-> Hl].
  assert (Forall natural l) as Hnat.
  { apply Forall_forall. intros [f v] Hin. rewrite Hl in Hin. apply elem_of_map_to_list in Hin.
    exact (SN f v Hin). }
  assert (NoDup l.*1) as Hnd by (rewrite Hl; apply NoDup_fst_map_to_list).
  assert (list_to_map l = N) as Hmap.
  { rewrite (list_to_map_proper _ _ Hnd Hl). apply list_to_map_to_list. }
  eapply wp_seq; [by apply reclaim_loop_spec|]. cbv beta. intros _ s' ->.
  rstep DEL_law. apply wp_ret. simpl. exists (foldl reclaim1 A l). split; [done|]. split.
  - clear -SA Hnat H3. revert A SA.
    induction Hnat as [|q l Hq _ IH]; intros A SA; simpl; [done|]. apply IH. by apply reclaim1_small.
  - intros f Hf. by apply reclaim_num.
Qed.

(** ** The re-seed *)

Definition zsum (f : string → Z) (l : list string) : Z := foldr (λ n acc, f n + acc)%Z 0%Z l.

Lemma zsum_nonneg f l : (∀ n, n ∈ l → 0 <= f n)%Z → (0 <= zsum f l)%Z.
Proof.
  induction l as [|n l IH]; simpl; [lia|]. intros Hf.
  pose proof (Hf n ltac:(by left)). enough (0 <= zsum f l)%Z by lia.
  apply IH. intros m Hm. apply Hf. by right.
Qed.

Lemma zsum_ext f g l : (∀ n, n ∈ l → f n = g n) → zsum f l = zsum g l.
Proof.
  induction l as [|n l IH]; simpl; [done|]. intros Hf. rewrite (Hf n) by by left.
  rewrite IH; [done|]. intros m Hm. apply Hf. by right.
Qed.

(** One summand changes. *)
Lemma zsum_update f g l x : NoDup l → x ∈ l → (∀ n, n ≠ x → g n = f n) →
  zsum g l = (zsum f l - f x + g x)%Z.
Proof.
  intros Hl Hx Hfg. induction l as [|n l IH]; [by apply elem_of_nil in Hx|].
  apply NoDup_cons in Hl as [Hn Hl]. apply elem_of_cons in Hx as [->|Hx]; simpl.
  - rewrite (zsum_ext g f l); [lia|]. intros m Hm. apply Hfg. by intros ->.
  - rewrite IH, (Hfg n); [lia| |done|done]. by intros ->.
Qed.

Lemma zsum_ge f l x : (∀ n, n ∈ l → 0 <= f n)%Z → x ∈ l → (f x <= zsum f l)%Z.
Proof.
  induction l as [|n l IH]; intros Hf Hx; [by apply elem_of_nil in Hx|]. simpl.
  assert (∀ n, n ∈ l → 0 <= f n)%Z as Hl by (intros m Hm; apply Hf; by right).
  pose proof (zsum_nonneg f l Hl). pose proof (Hf n ltac:(by left)).
  apply elem_of_cons in Hx as [->|Hx]; [lia|]. specialize (IH Hl Hx). lia.
Qed.

Lemma zsum_perm f l l' : l ≡ₚ l' → zsum f l = zsum f l'.
Proof. induction 1; simpl; lia. Qed.

(** Summands that are zero may be left out. *)
Lemma zsum_sub f l l' : NoDup l → NoDup l' → (∀ n, n ∈ l' → n ∈ l) →
  (∀ n, n ∈ l → n ∉ l' → f n = 0%Z) → zsum f l = zsum f l'.
Proof.
  revert l. induction l' as [|n l' IH]; intros l Hl Hl' Hin Hz; simpl.
  - rewrite (zsum_ext f (λ _, 0%Z)); [|intros m Hm; apply Hz; [done|apply not_elem_of_nil]].
    clear. induction l; simpl; lia.
  - apply NoDup_cons in Hl' as [Hn Hl'].
    assert (∃ l0, l ≡ₚ n :: l0) as [l0 Hp].
    { destruct (list_elem_of_split l n) as (l1 & l2 & ->); [apply Hin; by left|].
      exists (l1 ++ l2). by rewrite Permutation_middle. }
    rewrite (zsum_perm f l (n :: l0) Hp). simpl. rewrite Hp in Hl.
    apply NoDup_cons in Hl as [Hn0 Hl0]. rewrite (IH l0); [done|done|done| |].
    + intros m Hm. assert (m ∈ l) as Hml by (apply Hin; by right). rewrite Hp in Hml.
      apply elem_of_cons in Hml as [->|]; done.
    + intros m Hm Hml. apply Hz; [rewrite Hp; by right|]. apply not_elem_of_cons. split; [|done].
      by intros ->.
Qed.

(** The units of the other members of [nodes]. *)
Definition others (s : Keyspace) (self app : string) (nodes : list string) : Z :=
  zsum (λ n, if decide (n = self) then 0%Z else num (hashof s (nodeconns n)) app) nodes.

Lemma sum_nodes_spec self app nodes t s :
  (∀ n, n ∈ nodes → hash_at s (nodeconns n) = Some (hashof s (nodeconns n))) →
  wp (sum_nodes (Keys.nodeconns_prefix p) self app nodes t) (λ a s',
    s' = s ∧ a = (t + others s self app nodes)%Z) s.
Proof.
  revert t. unfold others. induction nodes as [|n nodes IH]; intros t Hn; simpl.
  { apply wp_ret. split; [done|lia]. }
  assert (∀ m, m ∈ nodes → hash_at s (nodeconns m) = Some (hashof s (nodeconns m))) as Hn'
    by (intros m Hm; apply Hn; by right).
  case_decide as E.
  - eapply wp_mono; [by apply IH|]. cbv beta. intros a s' [-> ->]. split; [done|lia].
  - eapply wp_seq; [apply HGET_law, Hn; by left|]. cbv beta. intros v s' [-> ->].
    eapply wp_mono; [by apply IH|]. cbv beta. intros a s' [-> ->]. split; [done|].
    assert (default 0%Z (hashof s (nodeconns n) !! app ≫= tonumber) = num (hashof s (nodeconns n)) app)
      as ->; [|lia].
    unfold num, number_or_0. destruct (hashof s (nodeconns n) !! app); simpl; [done|].
    change "0" with (dec 0). by rewrite tonumber_dec by (unfold LUA_INT; lia).
Qed.

Lemma nodeconns_ne n m : n ≠ m → nodeconns n ≠ nodeconns m.
Proof. intros Hne E. unfold Keys.nodeconns in E. by apply (inj (String.append _)) in E. Qed.

Lemma others_ext s s' self app nodes :
  (∀ n, n ≠ self → s' !! nodeconns n = s !! nodeconns n) →
  others s' self app nodes = others s self app nodes.
Proof.
  intros Hs. apply zsum_ext. intros n _. case_decide as E; [done|].
  unfold hashof. by rewrite (hash_at_ext s' s _ (Hs n E)).
Qed.

Definition seed (N : gmap string string) (counts : list (string * string)) : gmap string string :=
  foldl (λ h q, <[q.1 := q.2]> h) N counts.

Definition retotal (s : Keyspace) (self : string) (nodes : list string) (A : gmap string string)
    (counts : list (string * string)) : gmap string string :=
  foldl (λ A q, <[q.1 := dec (default 0%Z (tonumber q.2) + others s self q.1 nodes)]> A) A counts.

Lemma seed_loop_spec self counts s N :
  hash_at s (nodeconns self) = Some N → no_empty s →
  wp (sfor counts (λ q, sbind (HSET (nodeconns self) [q]) (λ _, sret tt))) (λ _ s',
    s' = put_hash (nodeconns self) (seed N counts) s) s.
Proof.
  revert s N. induction counts as [|q counts IH]; intros s N HN Hne; simpl.
  { apply wp_ret. by rewrite put_hash_same. }
  eapply wp_seq with (P := λ _ s', s' = put_hash (nodeconns self) (<[q.1 := q.2]> N) s).
  { rstep HSET_law. by apply wp_ret. }
  cbv beta. intros _ s' ->.
  eapply wp_mono; [apply IH; [apply hash_at_put_eq|by apply no_empty_put_hash]|].
  cbv beta. intros _ s' ->. apply put_hash_put.
Qed.

Lemma retotal_loop_spec self nodes counts s0 s A :
  hash_at s appconns = Some A → no_empty s → Forall natural counts →
  (∀ n, n ∈ nodes → hash_at s (nodeconns n) = Some (hashof s (nodeconns n))) →
  (∀ n, n ≠ self → s !! nodeconns n = s0 !! nodeconns n) →
  wp (sfor counts (reseed_app appconns (Keys.nodeconns_prefix p) self nodes)) (λ _ s',
    s' = put_hash appconns (retotal s0 self nodes A counts) s) s.
Proof.
  intros HA Hne Hc. revert s A HA Hne.
  induction Hc as [|q counts Hq _ IH]; intros s A HA Hne Hn Hs; simpl.
  { apply wp_ret. by rewrite put_hash_same. }
  assert (∀ n, put_hash appconns (<[q.1 := dec (default 0%Z (tonumber q.2) +
    others s0 self q.1 nodes)]> A) s !! nodeconns n = s !! nodeconns n) as Hk.
  { intros n. apply put_hash_ne. rne. }
  eapply wp_seq with (P := λ _ s', s' = put_hash appconns (<[q.1 := dec (default 0%Z (tonumber q.2) +
    others s0 self q.1 nodes)]> A) s).
  - unfold reseed_app. destruct Hq as (z & Ez & Hz). rewrite Ez.
    rewrite tonumber_dec by (unfold LUA_INT in *; lia). apply wp_pure.
    eapply wp_seq; [by apply sum_nodes_spec|]. cbv beta. intros t s' [-> ->].
    rewrite (others_ext s0 s self q.1 nodes Hs). rstep HSET_law. by apply wp_ret.
  - cbv beta. intros _ s' ->. eapply wp_mono; [apply IH|].
    + apply hash_at_put_eq.
    + by apply no_empty_put_hash.
    + intros n Hin. unfold hashof. rewrite (hash_at_ext _ _ _ (Hk n)). by apply Hn.
    + intros n Hself. rewrite Hk. by apply Hs.
    + cbv beta. intros _ s' ->. apply put_hash_put.
Qed.

Lemma reseed_spec self counts ttl s :
  typed p s → no_empty s → Forall natural counts → (0 < ttl)%Z →
  wp (RESEED_NODE_CAPACITY_LUA appconns (nodeconns self) (Keys.nodes p) (Keys.nodeconns_prefix p)
        self ttl counts) (λ a s',
    ∃ nodes, nodes ≡ₚ elements (setof s (Keys.nodes p)) ∧
      s' = put_hash appconns (retotal s self nodes (hashof s appconns) counts)
             (put_hash (nodeconns self) (seed (hashof s (nodeconns self)) counts) s)) s.
Proof.
  intros Hs Hne Hc Httl.
  destruct (typed_counts p s appconns Hs ltac:(auto with redis_keys)) as [HA _].
  assert (∀ n, hash_at s (nodeconns n) = Some (hashof s (nodeconns n))) as HN.
  { intros n. apply (typed_counts p s); auto with redis_keys. }
  pose proof (typed_set p s (Keys.nodes p) Hs ltac:(auto with redis_keys)) as Hset.
  unfold RESEED_NODE_CAPACITY_LUA. eapply wp_seq; [by apply seed_loop_spec|].
  cbv beta. intros _ s' ->. rstep EXPIRE_law.
  eapply wp_seq; [eapply SMEMBERS_law; rview|]. cbv beta. intros nodes s' [-> Hnodes].
  eapply wp_seq.
  { apply (retotal_loop_spec self nodes counts s); [rview|by apply no_empty_put_hash|done| |].
    - intros n Hn. destruct (decide (n = self)) as [->|Hself].
      + unfold hashof at 2. by rewrite hash_at_put_eq.
      + unfold hashof at 2. rewrite (hash_at_ext _ s); [by rewrite HN|].
        apply put_hash_ne, nodeconns_ne. congruence.
    - intros n Hn. apply put_hash_ne, nodeconns_ne. congruence. }
  cbv beta. intros _ s' ->. apply wp_ret. by exists nodes.
Qed.
End capacity.

(** ** The books *)

Section books.
Context `{RedisLaws R, !Lua, !LuaLaws} (p : string) (Ns : list string) (HNs : NoDup Ns).
#[local] Abbreviation appconns := (Keys.appconns p).
#[local] Abbreviation nodeconns := (Keys.nodeconns p).
#[local] Open Scope redis_scope.

(** [Ns] are the nodes of the cluster, dead or alive. *)
Definition units (s : Keyspace) (n app : string) : Z := num (hashof s (nodeconns n)) app.
Definition total (s : Keyspace) (app : string) : Z := num (hashof s appconns) app.
Definition held (s : Keyspace) (app : string) : Z := zsum (λ n, units s n app) Ns.

Definition naturals (h : gmap string string) : Prop := map_Forall (λ f v, natural (f, v)) h.

(** The total of an app covers the units held, but for a debt [d]. *)
Record books (d : string → Z) (s : Keyspace) : Prop := mkBooks {
  bk_typed : typed p s;
  bk_no_empty : no_empty s;
  bk_small : small (hashof s appconns);
  bk_naturals n : n ∈ Ns → naturals (hashof s (nodeconns n));
  bk_total app : (0 <= total s app)%Z;
  bk_covered app : (held s app <= total s app + d app)%Z
}.

Lemma naturals_small h : naturals h → small h.
Proof.
  intros Hh f v Hv. destruct (Hh f v Hv) as (z & E & Hz). simpl in E. exists z.
  unfold LUA_INT in *. split; [done|lia].
Qed.

Lemma naturals_num h f : naturals h → (0 <= num h f <= LUA_INT)%Z.
Proof.
  intros Hh. unfold num, number_or_0. destruct (h !! f) as [v|] eqn:E; simpl.
  - exact (natural_num (f, v) (Hh f v E)).
  - change "0" with (dec 0). rewrite tonumber_dec by (unfold LUA_INT; lia). unfold LUA_INT. simpl. lia.
Qed.

Lemma naturals_insert h f z : naturals h → (0 <= z <= LUA_INT)%Z → naturals (<[f := dec z]> h).
Proof. intros Hh Hz. apply map_Forall_insert_2; [by exists z|done]. Qed.

Lemma naturals_delete h f : naturals h → naturals (delete f h).
Proof. apply map_Forall_delete. Qed.

Lemma units_nonneg d s n app : books d s → n ∈ Ns → (0 <= units s n app)%Z.
Proof. intros Hs Hn. apply (naturals_num _ app (bk_naturals d s Hs n Hn)). Qed.

Lemma held_nonneg d s app : books d s → (0 <= held s app)%Z.
Proof. intros Hs. apply zsum_nonneg. intros n Hn. by apply (units_nonneg d). Qed.

Lemma units_held d s n app : books d s → n ∈ Ns → (0 <= units s n app <= held s app)%Z.
Proof.
  intros Hs Hn. split; [by apply (units_nonneg d)|].
  apply (zsum_ge (λ n, units s n app) Ns n); [|done]. intros m Hm. by apply (units_nonneg d).
Qed.

(** A keyspace in which one node's hash and the totals have been replaced. *)
Definition rebooked (s : Keyspace) (node : string) (N A : gmap string string) (s' : Keyspace) : Prop :=
  typed p s' ∧ no_empty s' ∧ hashof s' (nodeconns node) = N ∧ hashof s' appconns = A ∧
  ∀ n, n ≠ node → hashof s' (nodeconns n) = hashof s (nodeconns n).

Lemma held_rebooked s node N A s' app :
  node ∈ Ns → rebooked s node N A s' →
  held s' app = (held s app - units s node app + num N app)%Z ∧ total s' app = num A app.
Proof.
  intros Hn (_ & _ & HN & HA & Hk). unfold held, total. rewrite HA. split; [|done].
  rewrite (zsum_update (λ n, units s n app) (λ n, units s' n app) Ns node HNs Hn).
  - cbv beta. assert (units s' node app = num N app) as -> by (unfold units; by rewrite HN). done.
  - intros n Hne. unfold units. by rewrite Hk.
Qed.

Lemma books_rebooked d d' s node N A s' :
  books d s → node ∈ Ns → rebooked s node N A s' → naturals N → small A →
  (∀ app, (0 <= num A app)%Z ∧ (held s app - units s node app + num N app <= num A app + d' app)%Z) → books d' s'.
Proof.
  intros Hs Hn Hr SN SA Hle. pose proof Hr as (Ht & Hne & HN & HA & Hk). split; [done|done| | | |].
  - by rewrite HA.
  - intros n Hin. destruct (decide (n = node)) as [->|E]; [by rewrite HN|].
    rewrite Hk by done. by apply (bk_naturals d).
  - intros app. destruct (held_rebooked s node N A s' app Hn Hr) as [_ ->]. apply Hle.
  - intros app. destruct (held_rebooked s node N A s' app Hn Hr) as [-> ->]. apply Hle.
Qed.

Inductive CapOp : Type :=
| CAdmit (node app : string) (capacity ttl : Z)
| CRelease (node app : string)
| CReclaim (node : string)
| CReseed (node : string) (ttl : Z) (counts : list (string * string)).

Definition cap_step (op : CapOp) : Script R Z :=
  match op with
  | CAdmit node app cap ttl => ADMIT_APP_LUA appconns (nodeconns node) app (dec cap) ttl
  | CRelease node app => RELEASE_APP_LUA appconns (nodeconns node) app
  | CReclaim node => RECLAIM_NODE_LUA appconns (nodeconns node) (Keys.node p node)
  | CReseed node ttl counts =>
      RESEED_NODE_CAPACITY_LUA appconns (nodeconns node) (Keys.nodes p) (Keys.nodeconns_prefix p)
        node ttl counts
  end.

(** The nodes are those of the cluster, a capacity is a [u32] and no count
    reaches [2^53]. *)
Definition cap_ok (op : CapOp) (s : Keyspace) : Prop :=
  match op with
  | CAdmit node app cap ttl =>
      node ∈ Ns ∧ (0 <= cap <= U32_MAX)%Z ∧ (0 < ttl)%Z ∧ (total s app < LUA_INT)%Z ∧ (held s app < LUA_INT)%Z
  | CRelease node app => node ∈ Ns
  | CReclaim node => node ∈ Ns
  | CReseed node ttl counts =>
      node ∈ Ns ∧ (0 < ttl)%Z ∧ NoDup counts.*1 ∧ Forall natural counts ∧
      (∀ n, n ∈ setof s (Keys.nodes p) → n ∈ Ns) ∧
      ∀ q, q ∈ counts → (default 0 (tonumber q.2) + held s q.1 <= LUA_INT)%Z
  end.

(** The units a total has beyond the held ones: those of expired hashes. *)
Definition residue (s : Keyspace) (app : string) : Z := (total s app - held s app)%Z.

Lemma views d s : books d s →
  hash_at s appconns = Some (hashof s appconns) ∧
  ∀ n, hash_at s (nodeconns n) = Some (hashof s (nodeconns n)).
Proof.
  intros Hs. split; [|intros n]; apply (typed_counts p s); eauto using bk_typed with redis_keys.
Qed.

Lemma small_counts h : small h → counts h.
Proof. intros Hh f v Hv. destruct (Hh f v Hv) as (z & -> & _). by exists z. Qed.

Lemma rebooked_put d s node N A s1 :
  books d s → small A → small N →
  s1 = put_hash (nodeconns node) N (put_hash appconns A s) ∨
  s1 = put_hash appconns A (put_hash (nodeconns node) N s) → rebooked s node N A s1.
Proof.
  intros Hs SA SN Hs1.
  assert (s1 = put_hash (nodeconns node) N (put_hash appconns A s)) as ->.
  { destruct Hs1 as [->| ->]; [done|]. apply put_hash_comm. rne. }
  split_and!.
  - apply typed_put_counts; [apply typed_put_counts; [apply Hs|..]|..];
      auto using small_counts with redis_keys.
  - do 2 apply no_empty_put_hash. apply Hs.
  - apply hashof_put_eq.
  - rewrite hashof_put_ne by rne. apply hashof_put_eq.
  - intros n Hn. rewrite hashof_put_ne by (apply nodeconns_ne; congruence). apply hashof_put_ne. rne.
Qed.

(** A rebooking in which node and total change alike, the total not below zero:
    no debt grows, and a total without residue stays without. *)
Lemma books_kept d s node N A s' :
  books d s → node ∈ Ns → rebooked s node N A s' → naturals N → small A →
  (∀ app, num A app = Z.max 0 (total s app - units s node app + num N app)) →
  books d s' ∧ ∀ app, (residue s app <= 0)%Z → (residue s' app <= 0)%Z.
Proof.
  intros Hs Hn Hr SN SA HA. split.
  - apply (books_rebooked d d s node N A s' Hs Hn Hr SN SA). intros app. rewrite HA.
    pose proof (bk_covered d s Hs app). lia.
  - intros app. unfold residue. destruct (held_rebooked s node N A s' app Hn Hr) as [-> ->].
    rewrite HA. pose proof (units_held d s node app Hs Hn). pose proof (naturals_num _ app SN). lia.
Qed.

Lemma admit_step d node app cap ttl s :
  books d s → cap_ok (CAdmit node app cap ttl) s →
  wp (cap_step (CAdmit node app cap ttl)) (λ a s',
    books d s' ∧ (∀ app', (residue s app' <= 0)%Z → (residue s' app' <= 0)%Z) ∧
    if (0 <? cap)%Z && (cap <=? total s app)%Z then a = 0%Z ∧ s' = s
    else a = 1%Z ∧ held s' app = (held s app + 1)%Z ∧ (0 < units s' node app)%Z) s.
Proof.
  intros Hs (Hn & Hcap & Httl & Ht & Hh). destruct (views d s Hs) as [HA HN].
  pose proof (bk_naturals d s Hs node Hn) as SN. pose proof (naturals_num _ app SN) as BN.
  pose proof (units_held d s node app Hs Hn) as Hge. pose proof (bk_total d s Hs app) as Htot.
  destruct (small_num _ app (bk_small d s Hs)) as (_ & _ & BA). fold (total s app) in BA.
  unfold units in Hge. unfold U32_MAX, LUA_INT in *.
  eapply wp_mono.
  { apply (admit_spec p node app cap ttl s _ _ HA (HN node) (bk_small d s Hs) (naturals_small _ SN));
      [unfold LUA_INT; lia|done]. }
  cbv beta. fold (total s app). intros a s' Ha.
  destruct ((0 <? cap)%Z && (cap <=? total s app)%Z); [by destruct Ha as [-> ->]|].
  destruct Ha as [-> Hs'].
  assert (rebooked s node (<[app := dec (num (hashof s (nodeconns node)) app + 1)]> (hashof s (nodeconns node)))
    (<[app := dec (total s app + 1)]> (hashof s appconns)) s') as Hr.
  { apply (rebooked_put d); [done| | |by left]; apply small_insert;
      [by apply (bk_small d)|unfold LUA_INT; lia|by apply naturals_small|unfold LUA_INT; lia]. }
  destruct (books_kept d s node _ _ s' Hs Hn Hr) as [Hb Hres].
  - apply naturals_insert; [done|unfold LUA_INT; lia].
  - apply small_insert; [by apply (bk_small d)|unfold LUA_INT; lia].
  - intros app'. rewrite !num_insert by (unfold LUA_INT; lia). pose proof (bk_total d s Hs app'). unfold units, total in *.
    case_decide; [subst; lia|lia].
  - split_and!; [done|done|done| |].
    + destruct (held_rebooked s node _ _ s' app Hn Hr) as [-> _].
      rewrite num_insert by (unfold LUA_INT; lia). rewrite decide_True by done. unfold units. lia.
    + unfold units. destruct Hr as (_ & _ & -> & _). rewrite num_insert by (unfold LUA_INT; lia).
      rewrite decide_True by done. lia.
Qed.

Lemma release_step d node app s :
  books d s → node ∈ Ns →
  wp (cap_step (CRelease node app)) (λ a s',
    books d s' ∧ (∀ app', (residue s app' <= 0)%Z → (residue s' app' <= 0)%Z) ∧
    ((0 < units s node app)%Z → held s' app = (held s app - 1)%Z)) s.
Proof.
  intros Hs Hn. destruct (views d s Hs) as [HA HN].
  pose proof (bk_naturals d s Hs node Hn) as SN. pose proof (naturals_num _ app SN) as BN.
  pose proof (units_held d s node app Hs Hn) as Hge. pose proof (bk_total d s Hs) as Htot. pose proof (Htot app) as Ht0.
  destruct (small_num _ app (bk_small d s Hs)) as (_ & _ & BA). fold (total s app) in BA.
  unfold units in Hge. unfold LUA_INT in *.
  eapply wp_mono.
  { exact (release_spec p node app s _ _ HA (HN node) (bk_small d s Hs) (naturals_small _ SN)). }
  cbv beta. fold (total s app). intros a s' Ha.
  set (N := hashof s (nodeconns node)) in *. set (A := hashof s appconns) in *.
  assert (∃ N' A', rebooked s node N' A' s' ∧ naturals N' ∧ small A' ∧
    (∀ app', num A' app' = Z.max 0 (total s app' - units s node app' + num N' app')) ∧
    ((0 < num N app)%Z → num N' app = (num N app - 1)%Z))
    as (N' & A' & Hr & HN' & HA' & Hsum & Hone).
  2: { destruct (books_kept d s node N' A' s') as [Hb Hres]; [done..|]. split_and!; [done|done|].
       intros Hpos. destruct (held_rebooked s node N' A' s' app Hn Hr) as [-> _].
       unfold units in *. fold N in Hpos |- *. rewrite Hone by done. lia. }
  destruct (Z.ltb_spec (num N app - 1) 0).
  - destruct Ha as [_ Hs']. exists (delete app N), A. split_and!.
    + apply (rebooked_put d); [done|by apply (bk_small d)|by apply small_delete, naturals_small|].
      left. rewrite (put_hash_same s appconns A (bk_no_empty d s Hs) HA). done.
    + by apply naturals_delete.
    + by apply (bk_small d).
    + intros app'. specialize (Htot app'). rewrite num_delete. unfold units. fold N. unfold total in *. fold A in Htot |- *.
      case_decide; [subst; lia|lia].
    + intros Hpos. lia.
  - destruct Ha as [_ Hs'].
    set (N' := if (num N app - 1 =? 0)%Z then delete app N else <[app := dec (num N app - 1)]> N) in Hs'.
    set (A' := if (total s app - 1 <=? 0)%Z then delete app A
               else <[app := dec (total s app - 1)]> A) in Hs'.
    assert (naturals N') as HN'.
    { subst N'. destruct (num N app - 1 =? 0)%Z; [by apply naturals_delete|].
      apply naturals_insert; [done|unfold LUA_INT; lia]. }
    assert (small A') as HA'.
    { subst A'. destruct (total s app - 1 <=? 0)%Z; [by apply small_delete, (bk_small d)|].
      apply small_insert; [by apply (bk_small d)|unfold LUA_INT; lia]. }
    exists N', A'. split_and!; [|done|done| |].
    + apply (rebooked_put d); [done|done|by apply naturals_small|by right].
    + intros app'. pose proof (Htot app') as Ht1. unfold units. fold N. subst N' A'. unfold total in *. fold A in BA, Ht0, Ht1 |- *.
      destruct (Z.leb_spec (num A app - 1) 0), (Z.eqb_spec (num N app - 1) 0);
        rewrite ?num_delete, ?num_insert by (unfold LUA_INT; lia); case_decide; subst; lia.
    + intros _. subst N'. destruct (Z.eqb_spec (num N app - 1) 0);
        rewrite ?num_delete, ?num_insert by (unfold LUA_INT; lia); rewrite decide_True by done; lia.
Qed.

Lemma reclaim_step d node s :
  books d s → node ∈ Ns →
  wp (cap_step (CReclaim node)) (λ a s',
    books d s' ∧ ∀ app, (residue s app <= 0)%Z → (residue s' app <= 0)%Z) s.
Proof.
  intros Hs Hn. destruct (views d s Hs) as [HA HN]. pose proof (bk_naturals d s Hs node Hn) as SN.
  eapply wp_mono.
  { exact (reclaim_spec p node s _ _ HA (HN node) (bk_small d s Hs) SN (bk_no_empty d s Hs)). }
  cbv beta. intros a s' Ha. destruct (s !! Keys.node p node) as [v|]; [by destruct Ha as [_ ->]|].
  destruct Ha as (A' & -> & SA' & Hnum).
  apply (books_kept d s node ∅ A'); [done|done| |apply map_Forall_empty|done|].
  - apply (rebooked_put d); [done|done|apply small_empty|left; by rewrite put_hash_empty].
  - intros app. rewrite num_empty, Hnum by apply (bk_total d s Hs app). unfold total, units. lia.
Qed.

Lemma fold_insert_lookup (F : string * string → string) (l : list (string * string))
    (h : gmap string string) f :
  NoDup l.*1 →
  foldl (λ h q, <[q.1 := F q]> h) h l !! f =
  match (list_to_map l : gmap string string) !! f with Some v => Some (F (f, v)) | None => h !! f end.
Proof.
  revert h. induction l as [|[g v] l IH]; intros h Hnd; simpl; [by rewrite lookup_empty|].
  simpl in Hnd. apply NoDup_cons in Hnd as [Hg Hnd]. rewrite IH by done.
  destruct (decide (g = f)) as [->|Hne]; [|by rewrite !lookup_insert_ne].
  rewrite not_elem_of_list_to_map_1 by done. by rewrite !lookup_insert_eq.
Qed.

(** What a re-seed by [node] overlooks: the units of the nodes that are not
    advertised. *)
Definition overlooked (s : Keyspace) (node app : string) : Z :=
  zsum (λ n, if decide (n ∈ setof s (Keys.nodes p) ∨ n = node) then 0%Z else units s n app) Ns.

Lemma zsum_add f g l : zsum (λ n, f n + g n)%Z l = (zsum f l + zsum g l)%Z.
Proof. induction l as [|n l IH]; simpl; [done|]. rewrite IH. lia. Qed.

(** What the nodes of the set other than the seeding one hold. *)
Lemma others_held s node app nodes :
  node ∈ Ns → nodes ≡ₚ elements (setof s (Keys.nodes p)) →
  (∀ n, n ∈ setof s (Keys.nodes p) → n ∈ Ns) →
  others p s node app nodes = (held s app - units s node app - overlooked s node app)%Z.
Proof.
  intros Hn Hp Hin. set (f := λ n, if decide (n = node) then 0%Z else units s n app).
  set (g := λ n, if decide (n ∈ setof s (Keys.nodes p)) then f n else 0%Z).
  assert (∀ n, n ∈ nodes ↔ n ∈ setof s (Keys.nodes p)) as Hel.
  { intros n. rewrite Hp. apply elem_of_elements. }
  change (others p s node app nodes) with (zsum f nodes).
  rewrite (zsum_ext f g nodes); [|intros n Hin'; subst g; simpl; rewrite decide_True; [done|by apply Hel]].
  rewrite <-(zsum_sub g Ns nodes HNs).
  - assert (zsum f Ns = zsum g Ns + overlooked s node app)%Z as Hf.
    { unfold overlooked. rewrite <-zsum_add. apply zsum_ext. intros n _. subst f g. simpl.
      repeat case_decide; tauto || lia. }
    rewrite (zsum_update (λ n, units s n app) f Ns node HNs Hn) in Hf; subst f; cbv beta in *.
    + rewrite decide_True in Hf by done. unfold held. lia.
    + intros n Hne. by rewrite decide_False.
  - rewrite Hp. apply NoDup_elements.
  - intros n Hn'. by apply Hin, Hel.
  - intros n HnN Hn'. subst g. simpl. rewrite decide_False; [done|]. by rewrite <-Hel.
Qed.

Lemma overlooked_bounds d s node app : books d s → node ∈ Ns →
  (0 <= overlooked s node app <= held s app - units s node app)%Z.
Proof.
  intros Hs Hn. split.
  - apply zsum_nonneg. intros n Hin. case_decide; [done|]. by apply (units_nonneg d).
  - set (f := λ n, if decide (n = node) then 0%Z else units s n app).
    assert (zsum f Ns = held s app - units s node app)%Z as <-.
    { rewrite (zsum_update (λ n, units s n app) f Ns node HNs Hn); subst f; cbv beta.
      - rewrite decide_True by done. unfold held. lia.
      - intros n Hne. by rewrite decide_False. }
    assert (∀ l, (∀ n, n ∈ l → n ∈ Ns) →
      (zsum (λ n, if decide (n ∈ setof s (Keys.nodes p) ∨ n = node) then 0 else units s n app) l <= zsum f l)%Z) as Hl;
      [|by apply Hl].
    induction l as [|n l IH]; intros Hl; simpl; [done|]. specialize (IH (λ m Hm, Hl m (list_elem_of_further _ _ _ Hm))).
    pose proof (units_nonneg d s n app Hs (Hl n (list_elem_of_here _ _))). subst f. simpl in *. repeat case_decide; tauto || lia.
Qed.

Lemma seed_naturals N counts :
  naturals N → Forall natural counts → NoDup counts.*1 → naturals (seed N counts).
Proof.
  intros HN Hc Hnd f v. unfold seed. rewrite (fold_insert_lookup snd counts N f Hnd).
  destruct (list_to_map counts !! f) as [v'|] eqn:E; [|apply HN]. intros [= <-].
  apply elem_of_list_to_map_2 in E. by rewrite Forall_forall in Hc; apply Hc.
Qed.

Definition live_count (counts : list (string * string)) (app : string) : option Z :=
  option_map (λ v, default 0%Z (tonumber v)) ((list_to_map counts : gmap string string) !! app).

Lemma seed_num N counts app : NoDup counts.*1 →
  num (seed N counts) app = default (num N app) (live_count counts app).
Proof.
  intros Hnd. unfold live_count, num, number_or_0, seed.
  rewrite (fold_insert_lookup snd counts N app Hnd). by destruct (list_to_map counts !! app).
Qed.

(** The totals that a re-seed writes. *)
Lemma retotal_num d node ttl counts s nodes :
  books d s → cap_ok (CReseed node ttl counts) s → nodes ≡ₚ elements (setof s (Keys.nodes p)) →
  small (retotal p s node nodes (hashof s appconns) counts) ∧
  ∀ app, num (retotal p s node nodes (hashof s appconns) counts) app =
    match live_count counts app with
    | Some z => (z + (held s app - units s node app - overlooked s node app))%Z | None => total s app end.
Proof.
  intros Hs (Hn & _ & Hnd & Hnat & Hin & Hq) Hp. set (A' := retotal _ _ _ _ _ _).
  assert (∀ app v, (list_to_map counts : gmap string string) !! app = Some v →
    (0 <= default 0%Z (tonumber v))%Z ∧ (default 0%Z (tonumber v) + held s app <= LUA_INT)%Z) as Hsum.
  { intros app v E. apply elem_of_list_to_map_2 in E. pose proof (Hq _ E) as Hb. simpl in Hb.
    split; [|done]. rewrite Forall_forall in Hnat. by destruct (natural_num _ (Hnat _ E)). }
  assert (∀ app, A' !! app = match (list_to_map counts : gmap string string) !! app with
    | Some v => Some (dec (default 0%Z (tonumber v) + (held s app - units s node app - overlooked s node app)))
    | None => hashof s appconns !! app end) as HA'.
  { intros app. subst A'. unfold retotal.
    rewrite (fold_insert_lookup (λ q, dec (default 0%Z (tonumber q.2) + others p s node q.1 nodes)))
      by done. destruct (list_to_map counts !! app) as [v|] eqn:E; [|done]. simpl.
    by rewrite (others_held s node app nodes Hn Hp Hin). }
  assert (small A') as SA'.
  { intros app v. rewrite HA'. destruct (list_to_map counts !! app) as [w|] eqn:E; [|apply (bk_small d s Hs)].
    intros [= <-]. eexists. split; [done|]. destruct (Hsum app w E) as (Hw & Hb).
    pose proof (overlooked_bounds d s node app Hs Hn). pose proof (units_nonneg d s node app Hs Hn).
    unfold LUA_INT in *. lia. }
  split; [done|]. intros app. unfold live_count, num, number_or_0. rewrite HA'.
  destruct (list_to_map counts !! app) as [w|] eqn:E; [|done]. simpl.
  specialize (SA' app). rewrite HA', E in SA'. destruct (SA' _ eq_refl) as (z & Ez & Hz).
  rewrite Ez, tonumber_dec by done. simpl. by apply (inj dec) in Ez.
Qed.

(** The debts after a script: a re-seed settles those of the apps it carries, up
    to what it overlooks. *)
Definition debt_after (s : Keyspace) (op : CapOp) (d : string → Z) : string → Z :=
  match op with
  | CReseed node _ counts => λ app,
      match live_count counts app with Some _ => overlooked s node app | None => d app end
  | _ => d
  end.

(** A re-seed leaves the seeded apps without residue. *)
Lemma reseed_step d node ttl counts s :
  books d s → cap_ok (CReseed node ttl counts) s →
  wp (cap_step (CReseed node ttl counts)) (λ a s',
    books (debt_after s (CReseed node ttl counts) d) s' ∧ ∀ app,
    residue s' app = match live_count counts app with
      | Some _ => (- overlooked s node app)%Z | None => residue s app end ∧
    held s' app = (held s app - units s node app
                   + default (units s node app) (live_count counts app))%Z) s.
Proof.
  intros Hs Hop. pose proof Hop as (Hn & Httl & Hnd & Hnat & Hin & Hq). eapply wp_mono.
  { exact (reseed_spec p node counts ttl s (bk_typed d s Hs) (bk_no_empty d s Hs) Hnat Httl). }
  cbv beta. intros a s' (nodes & Hp & Hs').
  destruct (retotal_num d node ttl counts s nodes Hs Hop Hp) as [SA' HnA].
  set (N' := seed (hashof s (nodeconns node)) counts) in *.
  assert (naturals N') as SN' by (apply seed_naturals; [by apply (bk_naturals d s Hs)|done|done]).
  assert (∀ app, num N' app = default (units s node app) (live_count counts app)) as HnN
    by (intros app; by apply seed_num).
  assert (rebooked s node N' (retotal p s node nodes (hashof s appconns) counts) s') as Hr.
  { apply (rebooked_put d); [done|done|by apply naturals_small|by right]. }
  split.
  - apply (books_rebooked d _ s node _ _ s' Hs Hn Hr SN' SA'). intros app.
    pose proof (naturals_num _ app SN') as Hz. rewrite HnN in Hz. rewrite HnA, HnN. simpl.
    pose proof (bk_covered d s Hs app). pose proof (bk_total d s Hs app).
    pose proof (overlooked_bounds d s node app Hs Hn). destruct (live_count counts app); simpl in *; lia.
  - intros app. unfold residue. destruct (held_rebooked s node _ _ s' app Hn Hr) as [-> ->].
    rewrite HnA, HnN. destruct (live_count counts app); simpl; lia.
Qed.

(** ** Interleavings *)

(** A step of the rest of the cluster touches no capacity hash. *)
Definition uncounted (s s' : Keyspace) : Prop :=
  typed p s' ∧ no_empty s' ∧ hashof s' appconns = hashof s appconns ∧
  ∀ n, n ∈ Ns → hashof s' (nodeconns n) = hashof s (nodeconns n).

(** A script that ran and its answer, or a node's hash that expired. *)
Inductive CapEvent : Type := CRan (op : CapOp) (a : Z) | CLapsed (node : string).

(** The debts are what re-seeds overlooked. *)
Inductive cap_steps (r : R) : list CapEvent → (string → Z) → R → Prop :=
| cs_start : cap_steps r [] (λ _, 0%Z) r
| cs_op tr d r1 op a r2 :
    cap_steps r tr d r1 → cap_ok op (keyspace r1) → cap_step op r1 = (Some a, r2) →
    cap_steps r (tr ++ [CRan op a]) (debt_after (keyspace r1) op d) r2
| cs_lapse tr d r1 node r2 :
    cap_steps r tr d r1 → node ∈ Ns → keyspace r2 = delete (nodeconns node) (keyspace r1) →
    cap_steps r (tr ++ [CLapsed node]) d r2
| cs_other tr d r1 r2 :
    cap_steps r tr d r1 → uncounted (keyspace r1) (keyspace r2) → cap_steps r tr d r2.

Definition no_lapse (tr : list CapEvent) : bool :=
  forallb (λ e, match e with CRan _ _ => true | CLapsed _ => false end) tr.

Lemma lapse_step d node s : books d s → node ∈ Ns → books d (delete (nodeconns node) s).
Proof.
  intros Hs Hn. destruct (views d s Hs) as [HA HN].
  assert (rebooked s node ∅ (hashof s appconns) (delete (nodeconns node) s)) as Hr.
  { apply (rebooked_put d); [done|by apply (bk_small d)|apply small_empty|left].
    rewrite put_hash_empty, put_hash_same; [done|by apply (bk_no_empty d)|done]. }
  apply (books_rebooked d d s node _ _ _ Hs Hn Hr); [apply map_Forall_empty|by apply (bk_small d)|].
  intros app. rewrite num_empty. pose proof (units_nonneg d s node app Hs Hn).
  pose proof (bk_covered d s Hs app). pose proof (bk_total d s Hs app). unfold total in *. lia.
Qed.

Lemma uncounted_same d s s' : books d s → uncounted s s' →
  books d s' ∧ ∀ app, held s' app = held s app ∧ total s' app = total s app.
Proof.
  intros Hs (Ht & Hne & HA & HN).
  assert (∀ app, held s' app = held s app ∧ total s' app = total s app) as Hsame.
  { intros app. unfold held, total. rewrite HA. split; [|done]. apply zsum_ext. intros n Hn.
    unfold units. by rewrite HN. }
  split; [|done]. split; [done|done|rewrite HA; by apply (bk_small d)| | |].
  - intros n Hn. rewrite HN by done. by apply (bk_naturals d).
  - intros app. destruct (Hsame app) as [_ ->]. by apply (bk_total d).
  - intros app. destruct (Hsame app) as [-> ->]. by apply (bk_covered d).
Qed.

Lemma cap_step_books d op s : books d s → cap_ok op s →
  wp (cap_step op) (λ a s', books (debt_after s op d) s' ∧
    ∀ app, (residue s app <= 0)%Z → (residue s' app <= 0)%Z) s.
Proof.
  intros Hs Hop. destruct op as [node app cap ttl|node app|node|node ttl counts].
  - eapply wp_mono; [by apply (admit_step d)|]. cbv beta. by intros a s' (Hb & Hr & _).
  - eapply wp_mono; [by apply (release_step d)|]. cbv beta. by intros a s' (Hb & Hr & _).
  - eapply wp_mono; [by apply (reclaim_step d)|]. cbv beta. by intros a s' (Hb & Hr).
  - eapply wp_mono; [by apply (reseed_step d)|]. cbv beta. intros a s' (Hb & Hr).
    split; [done|]. intros app' Hz. destruct (Hr app') as [-> _].
    pose proof (overlooked_bounds d s node app' Hs (proj1 Hop)). destruct (live_count counts app'); lia.
Qed.

Lemma cap_steps_books r tr d r' : cap_steps r tr d r' → books (λ _, 0%Z) (keyspace r) →
  books d (keyspace r') ∧
  (no_lapse tr = true → ∀ app, residue (keyspace r) app = 0%Z → (residue (keyspace r') app <= 0)%Z).
Proof.
  intros Hst Hr.
  induction Hst as [|tr d r1 op a r2 _ [Hb Hz] Hop E|tr d r1 node r2 _ [Hb Hz] Hn E|tr d r1 r2 _ [Hb Hz] E].
  - split; [done|]. intros _ app ->. done.
  - destruct (wp_run _ _ r1 (cap_step_books d op (keyspace r1) Hb Hop)) as (a' & r2' & E' & Hb' & Hz').
    rewrite E in E'. simplify_eq. split; [done|]. unfold no_lapse. rewrite forallb_app. simpl.
    intros [Hl _]%andb_prop app Ha. by apply Hz', Hz.
  - rewrite E. split; [by apply lapse_step|]. unfold no_lapse. rewrite forallb_app. simpl.
    by rewrite andb_false_r.
  - destruct (uncounted_same _ _ _ Hb E) as [Hb' Hsame]. split; [done|]. intros Hl app Ha.
    unfold residue. destruct (Hsame app) as [-> ->]. by apply Hz.
Qed.

(** C26. Under any interleaving of admissions, releases, reclaims of dead nodes,
    re-seeds and expiring node hashes, an admission answers; granted, it adds
    one unit and the units held in the cluster stay within a positive capacity,
    but for the units the last re-seed of the app overlooked, those of nodes
    missing from the set of nodes at the time; refused, it changes nothing, and
    as long as no node hash expired the app then really holds that many units. *)
Theorem capacity_never_exceeded (r0 r : R) (tr : list CapEvent) (d : string → Z) (node app : string) (cap ttl : Z) :
  books (λ _, 0%Z) (keyspace r0) → cap_steps r0 tr d r → cap_ok (CAdmit node app cap ttl) (keyspace r) →
  ∃ a r', cap_step (CAdmit node app cap ttl) r = (Some a, r') ∧
    ((a = 1%Z ∧ held (keyspace r') app = (held (keyspace r) app + 1)%Z ∧
      ((0 < cap)%Z → (held (keyspace r') app <= cap + d app)%Z)) ∨
     (a = 0%Z ∧ (0 < cap)%Z ∧ keyspace r' = keyspace r ∧
      (no_lapse tr = true → residue (keyspace r0) app = 0%Z → (cap <= held (keyspace r) app)%Z))).
Proof.
  intros Hr0 Hst Hop. destruct (cap_steps_books r0 tr d r Hst Hr0) as [Hb Hz].
  destruct (wp_run _ _ r (admit_step d node app cap ttl (keyspace r) Hb Hop)) as (a & r' & E & _ & _ & Ha).
  exists a, r'. split; [done|]. pose proof (bk_covered _ _ Hb app) as Hcov.
  destruct (Z.ltb_spec 0 cap), (Z.leb_spec cap (total (keyspace r) app)); simpl in Ha;
    destruct Ha as [-> Ha]; [right|left; destruct Ha as [Ha _]; split_and!; [done|done|lia]..].
  split_and!; [done|done|done|]. intros Hl Hres. specialize (Hz Hl app Hres). unfold residue in Hz. lia.
Qed.

(** Whatever expired or was reclaimed before, a re-seed answers and leaves, for
    every app it carries, this node with its live count and the cluster total
    equal to the sum over the nodes, but for those that are not advertised. *)
Theorem reseed_restores_total (r0 r : R) (tr : list CapEvent) (d : string → Z) (node : string) (ttl : Z)
    (counts : list (string * string)) :
  books (λ _, 0%Z) (keyspace r0) → cap_steps r0 tr d r → cap_ok (CReseed node ttl counts) (keyspace r) →
  ∃ a r', cap_step (CReseed node ttl counts) r = (Some a, r') ∧
    ∀ app z, live_count counts app = Some z →
      total (keyspace r') app = (held (keyspace r') app - overlooked (keyspace r) node app)%Z ∧
      held (keyspace r') app = (held (keyspace r) app - units (keyspace r) node app + z)%Z.
Proof.
  intros Hr0 Hst Hop. destruct (cap_steps_books r0 tr d r Hst Hr0) as [Hb _].
  destruct (wp_run _ _ r (reseed_step d node ttl counts (keyspace r) Hb Hop)) as (a & r' & E & _ & Ha).
  exists a, r'. split; [done|]. intros app z Hz. destruct (Ha app) as [Hres Hheld].
  rewrite Hz in Hres, Hheld. unfold residue in Hres. simpl in Hheld. lia.
Qed.
End books.
