(* ===== verification/RedisPresence.v ===== *)
(** * The cluster roster: the presence scripts of [src/src/adapter/redis/client.rs]

    The four presence hashes of a channel represent the join-ordered list of
    its live connections: the scripts add and remove one connection, and the
    roster advertises for each user what the oldest of its connections
    presented. *)

From S2P Require Import Prelude RustStd RedisStore RedisKeys RedisScripts RedisSpecs.

(** ** Packed seats *)

Definition one_line (x : string) : Prop := Str.all (λ a, bool_decide (a ≠ nl)) x = true.

Definition pack (l : list (string * string)) : string :=
  foldr (λ q acc, q.1 +:+ NL +:+ q.2 +:+ NL +:+ acc) "" l.

Lemma split_line w r : one_line w → Str.split nl (w +:+ NL +:+ r) = w :: Str.split nl r.
Proof. apply Str.split_before. Qed.

Lemma split_cons c s : ∃ w ws, Str.split c s = w :: ws.
Proof.
  destruct s as [|a s]; simpl; [by eexists _, _|]. case_decide; [by eexists _, _|].
  destruct (Str.split c s); by eexists _, _.
Qed.

Lemma gmatch_pack l :
  Forall (λ q, one_line q.1 ∧ one_line q.2) l → gmatch_seats (pack l) = l.
Proof.
  unfold gmatch_seats. induction 1 as [|[t i] l [Ht Hi] _ IH]; [done|]. simpl in *.
  rewrite split_line, split_line by done.
  destruct (split_cons nl (pack l)) as (w & ws & E). rewrite E in IH |- *.
  change ((t, i) :: pairs (removelast (w :: ws)) = (t, i) :: l). by rewrite IH.
Qed.

Lemma pack_app l1 l2 : pack (l1 ++ l2) = (pack l1 +:+ pack l2).
Proof.
  induction l1 as [|q l1 IH]; simpl; [done|]. by rewrite IH, <-!string_app_assoc.
Qed.

Lemma concat_pack l : l ≠ [] → (String.concat NL (flat l) +:+ NL) = pack l.
Proof.
  intros Hl. induction l as [|[t i] l IH]; [done|]. destruct l as [|q l].
  - change ((t +:+ NL +:+ i) +:+ NL = (t +:+ NL +:+ i +:+ NL +:+ "")).
    by rewrite <-!string_app_assoc.
  - change ((t +:+ NL +:+ i +:+ NL +:+ String.concat NL (flat (q :: l))) +:+ NL
      = (t +:+ NL +:+ i +:+ NL +:+ pack (q :: l))).
    rewrite <-IH by done. by rewrite <-!string_app_assoc.
Qed.

(** ** The scripts *)

Section presence.
Context `{RedisLaws R, !Lua, !LuaLaws} (p app channel : string).
#[local] Abbreviation presusers := (Keys.presusers p app channel).
#[local] Abbreviation presinfo := (Keys.presinfo p app channel).
#[local] Abbreviation presmembers := (Keys.presmembers p app channel).
#[local] Abbreviation presseats := (Keys.presseats p app channel).

(** The four hashes of this channel. *)
Record Tables : Type := mkTables {
  t_users : gmap string string;
  t_info : gmap string string;
  t_members : gmap string string;
  t_seats : gmap string string
}.

Definition tables_at (s : Keyspace) (T : Tables) : Prop :=
  hash_at s presusers = Some (t_users T) ∧ hash_at s presinfo = Some (t_info T) ∧
  hash_at s presmembers = Some (t_members T) ∧ hash_at s presseats = Some (t_seats T).

(** [s'] is [s] with these hashes, and no other key, changed to [T]. *)
Definition updates (s : Keyspace) (T : Tables) (s' : Keyspace) : Prop :=
  tables_at s' T ∧ no_empty s' ∧
  ∀ k, k ∉ [presusers; presinfo; presmembers; presseats] → s' !! k = s !! k.

Definition alive (M : gmap string string) (l : list (string * string)) : list (string * string) :=
  filter (λ q, is_Some (M !! q.1)) l.

Lemma live_seats_spec l s M :
  hash_at s presmembers = Some M →
  wp (live_seats presmembers l) (λ a s', s' = s ∧ a = alive M l) s.
Proof.
  intros HM. induction l as [|[t i] l IH]; simpl; [by apply wp_ret|].
  rstep HEXISTS_law. eapply wp_seq; [exact IH|]. cbv beta. intros a s' [-> ->]. apply wp_ret.
  split; [done|]. unfold alive. rewrite filter_cons. simpl. by case_decide.
Qed.

(** What the re-seat does to [presinfo] and [presseats]. *)
Definition reseated (user : string) (I M S : gmap string string)
    : gmap string string * gmap string string :=
  match S !! user with
  | None => (I, S)
  | Some packed =>
      match alive M (gmatch_seats packed) with
      | [] => (I, delete user S)
      | (t, seat) :: live => (<[user := seat]> I, <[user := pack ((t, seat) :: live)]> S)
      end
  end.

Lemma reseat_spec user s I M S :
  hash_at s presinfo = Some I → hash_at s presmembers = Some M → hash_at s presseats = Some S →
  no_empty s →
  wp (RESEAT_LUA presmembers presinfo presseats user) (λ _ s',
    s' = put_hash presinfo (reseated user I M S).1 (put_hash presseats (reseated user I M S).2 s)) s.
Proof.
  intros HI HM HS Hne. unfold RESEAT_LUA, reseated. rstep HGET_law.
  destruct (S !! user) as [packed|]; simpl.
  - eapply wp_seq; [by apply live_seats_spec|]. cbv beta. intros a s' [-> ->].
    destruct (alive M (gmatch_seats packed)) as [|[t seat] live] eqn:E; cbv beta iota; cbn [fst snd].
    + rstep HDEL_law. apply wp_ret. simpl. symmetry. apply put_hash_same; [|rview].
      by apply no_empty_put_hash.
    + rewrite concat_pack by done. rstep HSET_law. rstep HSET_law. by apply wp_ret.
  - apply wp_ret. rewrite (put_hash_same s presseats S) by done. by rewrite put_hash_same.
Qed.

Lemma typed_tables s : typed p s →
  tables_at s (mkTables (hashof s presusers) (hashof s presinfo) (hashof s presmembers)
                 (hashof s presseats)).
Proof.
  intros Hs. split_and!; simpl.
  1: by apply (typed_counts p s presusers Hs (presusers_type p app channel)).
  all: apply (typed_hash p); auto with redis_keys.
Qed.

Lemma typed_updates s T s' : typed p s → counts (t_users T) → updates s T s' → typed p s'.
Proof.
  intros Hs HT ((HU & HI & HM & HS) & _ & Hk) k v t Hv Ht.
  destruct (decide (k ∈ [presusers; presinfo; presmembers; presseats])) as [Hin|Hin].
  - assert (∀ h, hash_at s' k = Some h → v = RHash h) as Hgo.
    { unfold hash_at. rewrite Hv. intros h Hh. destruct v; by simplify_eq. }
    rewrite !elem_of_cons in Hin. destruct Hin as [->|[->|[->|[->|Hin]]]].
    + rewrite (Hgo _ HU). rewrite presusers_type in Ht. by simplify_eq.
    + rewrite (Hgo _ HI). rewrite presinfo_type in Ht. by simplify_eq.
    + rewrite (Hgo _ HM). rewrite presmembers_type in Ht. by simplify_eq.
    + rewrite (Hgo _ HS). rewrite presseats_type in Ht. by simplify_eq.
    + by apply elem_of_nil in Hin.
  - rewrite Hk in Hv by done. by eapply Hs.
Qed.

(** Writing the hashes of this channel only. *)
Inductive writes : Keyspace → Keyspace → Prop :=
| writes_refl s : writes s s
| writes_hash s s' k h : k ∈ [presusers; presinfo; presmembers; presseats] →
    writes s s' → writes s (put_hash k h s').

Lemma writes_updates s s' T : no_empty s → writes s s' → tables_at s' T → updates s T s'.
Proof.
  intros Hs Hw HT. split; [done|]. clear HT. induction Hw as [|s s' k h Hk Hw IH]; [done|].
  destruct (IH Hs) as [Hne Hsame]. split; [by apply no_empty_put_hash|].
  intros k' Hk'. rewrite put_hash_ne by set_solver. by apply Hsame.
Qed.

Ltac in_tables := rewrite !elem_of_cons; tauto.

Ltac updates_tac :=
  apply writes_updates;
  [ done
  | repeat (first [apply writes_refl | apply writes_hash; [in_tables|]])
  | split_and!; simpl; rview ].

Definition over (cap : Z) (user : string) (T : Tables) : bool :=
  (0 <=? cap)%Z && bool_decide (t_users T !! user = None) && (cap <=? Z.of_nat (size (t_users T)))%Z.

Definition join_tables (user info token : string) (n : Z) (T : Tables) : Tables :=
  mkTables (<[user := dec (n + 1)]> (t_users T))
    (if (n + 1 =? 1)%Z then <[user := info]> (t_info T) else t_info T)
    (<[token := user]> (t_members T))
    (<[user := default "" (t_seats T !! user) +:+ token +:+ NL +:+ info +:+ NL]> (t_seats T)).

Lemma over_cap_spec user cap s T :
  tables_at s T → wp (over_cap presusers user cap) (λ a s', s' = s ∧ a = over cap user T) s.
Proof.
  intros (HU & _). unfold over_cap, over.
  destruct (0 <=? cap)%Z; simpl; [|by apply wp_ret].
  rstep HEXISTS_law. destruct (t_users T !! user) as [v|] eqn:E.
  - rewrite decide_True by done. simpl. by apply wp_ret.
  - rewrite decide_False by by intros []. simpl. rstep HLEN_law. by apply wp_ret.
Qed.

Lemma presence_join_spec user info token max cap n s T :
  no_empty s → tables_at s T → tonumber max = Some cap →
  default (dec 0) (t_users T !! user) = dec n → i64 (n + 1) →
  wp (PRESENCE_JOIN_LUA presusers presinfo presmembers presseats user info token max) (λ a s',
    if over cap user T then a = (-1)%Z ∧ s' = s
    else a = (n + 1)%Z ∧ updates s (join_tables user info token n T) s') s.
Proof.
  intros Hne HT Hmax Hn Hi. pose proof HT as (HU & HI & HM & HS).
  unfold PRESENCE_JOIN_LUA. rewrite Hmax. apply wp_pure.
  eapply wp_seq; [by apply over_cap_spec|].
  cbv beta. intros ? ? [-> ->]. destruct (over cap user T); [by apply wp_ret|].
  rstep HSET_law. rstep HGET_law. rstep HSET_law. rstep HINCRBY_law. simpl.
  unfold join_tables. destruct (n + 1 =? 1)%Z.
  - rstep HSET_law. apply wp_ret. split; [done|]. simpl. updates_tac.
  - apply wp_pure. apply wp_ret. split; [done|]. updates_tac.
Qed.

Definition leave_tables (user token : string) (n : Z) (T : Tables) : Tables :=
  let M := delete token (t_members T) in
  if (n - 1 <=? 0)%Z then
    mkTables (delete user (t_users T)) (delete user (t_info T)) M (delete user (t_seats T))
  else
    mkTables (<[user := dec (n - 1)]> (t_users T)) (reseated user (t_info T) M (t_seats T)).1 M
      (reseated user (t_info T) M (t_seats T)).2.

Lemma drop_user_spec user s U I S :
  hash_at s presusers = Some U → hash_at s presinfo = Some I → hash_at s presseats = Some S →
  wp (drop_user presusers presinfo presseats user) (λ _ s',
    s' = put_hash presseats (delete user S)
           (put_hash presinfo (delete user I) (put_hash presusers (delete user U) s))) s.
Proof.
  intros HU HI HS. unfold drop_user. rstep HDEL_law. rstep HDEL_law. rstep HDEL_law.
  by apply wp_ret.
Qed.

Lemma presence_leave_spec user token n s T :
  no_empty s → tables_at s T → default (dec 0) (t_users T !! user) = dec n → i64 (n - 1) →
  wp (PRESENCE_LEAVE_LUA presusers presinfo presmembers presseats user token) (λ a s',
    a = (n - 1)%Z ∧ updates s (leave_tables user token n T) s') s.
Proof.
  intros Hne HT Hn Hi. pose proof HT as (HU & HI & HM & HS).
  unfold PRESENCE_LEAVE_LUA. rstep HDEL_law. rstep HINCRBY_law. simpl.
  unfold leave_tables. change (n + -1)%Z with (n - 1)%Z. destruct (n - 1 <=? 0)%Z.
  - eapply wp_seq; [eapply drop_user_spec; rview|]. cbv beta. intros ? ? ->. apply wp_ret.
    split; [done|]. rewrite delete_insert_eq. updates_tac.
  - eapply wp_seq; [eapply reseat_spec; [rview..|auto with pylon]|]. cbv beta. intros ? ? ->.
    apply wp_ret. split; [done|]. updates_tac.
Qed.

Lemma reap_member_spec token s T :
  no_empty s → tables_at s T →
  (∀ user, t_members T !! token = Some user →
     ∃ n, default (dec 0) (t_users T !! user) = dec n ∧ (- LUA_INT < n <= LUA_INT)%Z) →
  wp (REAP_MEMBER_LUA presusers presinfo presmembers presseats token) (λ a s',
    match t_members T !! token with
    | None => a = ("", 0%Z, 0%Z) ∧ s' = s
    | Some user => ∃ n, default (dec 0) (t_users T !! user) = dec n ∧
        a = (user, Z.max 0 (n - 1), if (n =? 1)%Z then 1%Z else 0%Z) ∧
        updates s (leave_tables user token n T) s'
    end) s.
Proof.
  intros Hne HT Hn. pose proof HT as (HU & HI & HM & HS).
  unfold REAP_MEMBER_LUA. rstep HGET_law.
  destruct (t_members T !! token) as [user|] eqn:E; [|by apply wp_ret].
  destruct (Hn user eq_refl) as (n & Hd & Hb). unfold LUA_INT in Hb.
  rstep HDEL_law. rstep HGET_law. simpl. unfold number_or_0. change "0" with (dec 0).
  rewrite Hd, tonumber_dec by (unfold LUA_INT; lia). simpl. unfold leave_tables.
  destruct (Z.leb_spec n 1).
  - eapply wp_seq; [eapply drop_user_spec; rview|]. cbv beta. intros ? ? ->. apply wp_ret.
    exists n. split_and!; [done| |].
    + by rewrite Z.max_l by lia.
    + destruct (Z.leb_spec (n - 1) 0); [|lia]. updates_tac.
  - eapply wp_seq; [eapply HINCRBY_law; [rview|exact Hd|unfold i64, I64_MAX; lia]|].
    cbv beta. intros ? ? [-> ->]. change (n + -1)%Z with (n - 1)%Z.
    eapply wp_seq; [eapply reseat_spec; [rview..|auto with pylon]|]. cbv beta. intros ? ? ->.
    apply wp_ret. exists n. split_and!; [done| |].
    + rewrite Z.max_r by lia. destruct (Z.eqb_spec n 1); [lia|done].
    + destruct (Z.leb_spec (n - 1) 0); [lia|]. updates_tac.
Qed.
End presence.

(** ** What the hashes represent *)

Record Seat : Type := mkSeat { st_token : string; st_user : string; st_info : string }.

Definition mine (u : string) (l : list Seat) : list Seat := filter (λ x, st_user x = u) l.
Definition drop_token (t : string) (l : list Seat) : list Seat := filter (λ x, st_token x ≠ t) l.
Definition seat_pair (x : Seat) : string * string := (st_token x, st_info x).

Definition seat_ok (x : Seat) : Prop := one_line (st_token x) ∧ one_line (st_info x).

(** The live connections [l] of the channel, oldest first. *)
Record represents (l : list Seat) (T : Tables) : Prop := mkRepresents {
  rep_nodup : NoDup (st_token <$> l);
  rep_lines : Forall seat_ok l;
  rep_members t u : t_members T !! t = Some u ↔ ∃ x, x ∈ l ∧ st_token x = t ∧ st_user x = u;
  rep_users u : t_users T !! u =
    match length (mine u l) with O => None | n => Some (dec (Z.of_nat n)) end;
  rep_info u : t_info T !! u = st_info <$> head (mine u l);
  rep_seats u : t_seats T !! u =
    match mine u l with [] => None | l => Some (pack (seat_pair <$> l)) end
}.

Lemma mine_app u l1 l2 : mine u (l1 ++ l2) = mine u l1 ++ mine u l2.
Proof. apply filter_app. Qed.

Lemma mine_drop u t l : mine u (drop_token t l) = drop_token t (mine u l).
Proof.
  unfold mine, drop_token. rewrite !list_filter_filter. apply list_filter_iff. naive_solver.
Qed.

Lemma token_inj l x y :
  NoDup (st_token <$> l) → x ∈ l → y ∈ l → st_token x = st_token y → x = y.
Proof.
  intros Hl [i Hi]%list_elem_of_lookup [j Hj]%list_elem_of_lookup E.
  assert (i = j) as ->; [|congruence].
  eapply (NoDup_lookup _ i j (st_token x) Hl).
  - by rewrite list_lookup_fmap, Hi.
  - by rewrite list_lookup_fmap, Hj, E.
Qed.

Lemma drop_absent t l : t ∉ st_token <$> l → drop_token t l = l.
Proof.
  intros Ht. apply filter_all. apply Forall_forall. intros x Hx Hxt.
  apply Ht. rewrite <-Hxt. by apply list_elem_of_fmap_2.
Qed.

Lemma mine_nodup u l : NoDup (st_token <$> l) → NoDup (st_token <$> mine u l).
Proof. intros Hl. eapply sublist_NoDup; [exact Hl|]. apply fmap_sublist, filter_sublist. Qed.

(** A user loses one seat, the others none. *)
Lemma mine_drop_other u x l :
  NoDup (st_token <$> l) → x ∈ l → st_user x ≠ u → drop_token (st_token x) (mine u l) = mine u l.
Proof.
  intros Hl Hx Hu. apply drop_absent. intros (y & E & [Hy Hyl]%list_elem_of_filter)%list_elem_of_fmap.
  by rewrite (token_inj l x y) in Hu.
Qed.

Lemma length_drop x l :
  NoDup (st_token <$> l) → x ∈ l → S (length (drop_token (st_token x) l)) = length l.
Proof.
  intros Hl Hx. apply list_elem_of_split in Hx as (l1 & l2 & ->).
  rewrite fmap_app, fmap_cons in Hl. apply NoDup_app in Hl as (H1 & H2 & H3).
  apply NoDup_cons in H3 as [H3 H4].
  unfold drop_token. rewrite filter_app, filter_cons. rewrite decide_False by naive_solver.
  change (S (length (drop_token (st_token x) l1 ++ drop_token (st_token x) l2))
    = length (l1 ++ x :: l2)).
  rewrite !drop_absent; [rewrite !length_app; simpl; lia|done|].
  intros Hin. apply (H2 _ Hin). by left.
Qed.

Lemma rep_count u l T : represents l T →
  default (dec 0) (t_users T !! u) = dec (Z.of_nat (length (mine u l))).
Proof. intros HT. rewrite (rep_users _ _ HT). by destruct (length (mine u l)). Qed.

Lemma rep_counts l T : represents l T → counts (t_users T).
Proof.
  intros HT u v Hv. rewrite (rep_users _ _ HT) in Hv. destruct (length (mine u l)); simplify_eq.
  by eexists.
Qed.

Lemma mine_snoc u x l :
  mine u (l ++ [x]) = if decide (st_user x = u) then mine u l ++ [x] else mine u l.
Proof.
  unfold mine. rewrite filter_app, filter_cons, filter_nil. case_decide; [done|]. apply app_nil_r.
Qed.

Lemma elem_of_snoc {A} (x y : A) l : x ∈ l ++ [y] ↔ x ∈ l ∨ x = y.
Proof. rewrite elem_of_app, list_elem_of_singleton. done. Qed.

Lemma pack_snoc l x : pack (seat_pair <$> l ++ [x]) =
  (pack (seat_pair <$> l) +:+ st_token x +:+ NL +:+ st_info x +:+ NL).
Proof. by rewrite fmap_app, pack_app. Qed.

Lemma seats_snoc (l : list Seat) x :
  match l ++ [x] with [] => None | l => Some (pack (seat_pair <$> l)) end
  = Some (pack (seat_pair <$> l ++ [x])).
Proof. by destruct l. Qed.

Lemma represents_join l T token user info :
  represents l T → token ∉ st_token <$> l → one_line token → one_line info →
  represents (l ++ [mkSeat token user info])
    (join_tables user info token (Z.of_nat (length (mine user l))) T).
Proof.
  intros HT Ht Hlt Hli. pose proof (rep_users _ _ HT) as HU. pose proof (rep_info _ _ HT) as HI.
  pose proof (rep_seats _ _ HT) as HS. split; simpl.
  - rewrite fmap_app. apply NoDup_app. split; [apply HT|]. split; [|apply NoDup_singleton].
    intros t Hin Heq. apply list_elem_of_singleton in Heq. by subst.
  - apply Forall_app. split; [apply HT|]. by repeat constructor.
  - intros t u. setoid_rewrite elem_of_snoc. destruct (decide (t = token)) as [->|Hne].
    + rewrite lookup_insert_eq. split.
      * intros [= <-]. exists (mkSeat token user info). auto.
      * intros (x & [Hx| ->] & Hxt & Hxu); [|by subst].
        destruct Ht. rewrite <-Hxt. by apply list_elem_of_fmap_2.
    + rewrite lookup_insert_ne by done. rewrite (rep_members _ _ HT).
      split; [naive_solver|]. intros (x & [Hx| ->] & Hxt & Hxu); [naive_solver|by destruct Hne].
  - intros u. rewrite mine_snoc. simpl. destruct (decide (user = u)) as [->|Hu].
    + rewrite lookup_insert_eq, length_app, Nat.add_comm. simpl. apply (f_equal Some), (f_equal dec). lia.
    + by rewrite lookup_insert_ne, HU.
  - intros u. rewrite mine_snoc. simpl. destruct (decide (user = u)) as [->|Hu].
    + destruct (Z.eqb_spec (Z.of_nat (length (mine u l)) + 1) 1) as [Hz|Hz].
      * rewrite lookup_insert_eq. destruct (mine u l); [done|simpl in Hz; lia].
      * rewrite HI. destruct (mine u l); [simpl in Hz; lia|done].
    + case_bool; [|by rewrite HI]. by rewrite lookup_insert_ne, HI.
  - intros u. rewrite mine_snoc. simpl. destruct (decide (user = u)) as [->|Hu].
    + rewrite lookup_insert_eq, seats_snoc. apply (f_equal Some).
      rewrite HS, pack_snoc. by destruct (mine u l).
    + rewrite lookup_insert_ne by done. apply HS.
Qed.

Lemma alive_mine l T x :
  represents l T → x ∈ l →
  alive (delete (st_token x) (t_members T)) (seat_pair <$> mine (st_user x) l)
  = seat_pair <$> mine (st_user x) (drop_token (st_token x) l).
Proof.
  intros HT Hx. rewrite mine_drop. unfold alive, drop_token.
  assert (∀ y, y ∈ mine (st_user x) l → y ∈ l) as Hsub.
  { intros y Hy. by apply list_elem_of_filter in Hy as [_ ?]. }
  revert Hsub. generalize (mine (st_user x) l). intros m Hsub.
  induction m as [|y m IH]; [done|]. rewrite fmap_cons, !filter_cons, IH; [|set_solver].
  cbn [seat_pair fst].
  assert (is_Some (delete (st_token x) (t_members T) !! st_token y) ↔ st_token y ≠ st_token x) as Hiff.
  { rewrite lookup_delete_is_Some. split; [naive_solver|]. intros Hne. split; [done|].
    exists (st_user y). apply (rep_members _ _ HT). exists y. split; [|done]. apply Hsub. by left. }
  repeat case_decide; tauto.
Qed.

Lemma reseated_mine l T x :
  represents l T → x ∈ l →
  reseated (st_user x) (t_info T) (delete (st_token x) (t_members T)) (t_seats T) =
  match mine (st_user x) (drop_token (st_token x) l) with
  | [] => (t_info T, delete (st_user x) (t_seats T))
  | y :: m => (<[st_user x := st_info y]> (t_info T),
               <[st_user x := pack (seat_pair <$> y :: m)]> (t_seats T))
  end.
Proof.
  intros HT Hx. unfold reseated. rewrite (rep_seats _ _ HT).
  assert (x ∈ mine (st_user x) l) as Hxm by by apply list_elem_of_filter.
  destruct (mine (st_user x) l) as [|z m'] eqn:Em; [by apply elem_of_nil in Hxm|].
  rewrite <-Em, gmatch_pack, (alive_mine l T x HT Hx).
  - by destruct (mine (st_user x) (drop_token (st_token x) l)).
  - apply Forall_fmap, Forall_forall. intros y [_ Hy]%list_elem_of_filter.
    exact (proj1 (Forall_forall _ _) (rep_lines _ _ HT) y Hy).
Qed.

(** The tables after a leave, at the leaving user and at another one. *)
Lemma leave_tables_at l T x (T' := leave_tables (st_user x) (st_token x)
    (Z.of_nat (length (mine (st_user x) l))) T) (left := mine (st_user x) (drop_token (st_token x) l)) :
  represents l T → x ∈ l →
  t_members T' = delete (st_token x) (t_members T) ∧
  t_users T' !! st_user x = match length left with O => None | n => Some (dec (Z.of_nat n)) end ∧
  t_info T' !! st_user x = st_info <$> head left ∧
  t_seats T' !! st_user x = match left with [] => None | l => Some (pack (seat_pair <$> l)) end ∧
  ∀ u, u ≠ st_user x → t_users T' !! u = t_users T !! u ∧ t_info T' !! u = t_info T !! u ∧
    t_seats T' !! u = t_seats T !! u.
Proof.
  intros HT Hx. assert (x ∈ mine (st_user x) l) as Hxm by by apply list_elem_of_filter.
  pose proof (length_drop x _ (mine_nodup (st_user x) l (rep_nodup _ _ HT)) Hxm) as Hlen.
  rewrite <-mine_drop in Hlen. subst T'. unfold leave_tables. rewrite (reseated_mine l T x HT Hx).
  fold left in Hlen |- *. rewrite <-Hlen.
  destruct left as [|y m]; cbn [length] in *.
  - destruct (Z.leb_spec (Z.of_nat 1 - 1) 0) as [_|?]; [|lia]. simpl.
    rewrite !lookup_delete_eq. split_and!; [done..|]. intros u Hu. by rewrite !lookup_delete_ne.
  - destruct (Z.leb_spec (Z.of_nat (S (S (length m))) - 1) 0) as [?|_]; [lia|]. simpl.
    rewrite !lookup_insert_eq. split_and!; [done| |done|done|].
    + apply (f_equal Some), (f_equal dec). lia.
    + intros u Hu. by rewrite !lookup_insert_ne.
Qed.

Lemma represents_leave l T x :
  represents l T → x ∈ l →
  represents (drop_token (st_token x) l)
    (leave_tables (st_user x) (st_token x) (Z.of_nat (length (mine (st_user x) l))) T).
Proof.
  intros HT Hx. pose proof (rep_nodup _ _ HT) as Hnd.
  destruct (leave_tables_at l T x HT Hx) as (HM & HU & HI & HS & Ho).
  assert (∀ u, u ≠ st_user x → mine u (drop_token (st_token x) l) = mine u l) as Hother.
  { intros u Hu. rewrite mine_drop. by apply mine_drop_other. }
  split.
  - eapply sublist_NoDup; [exact Hnd|]. apply fmap_sublist, filter_sublist.
  - apply Forall_forall. intros y [_ Hy]%list_elem_of_filter.
    exact (proj1 (Forall_forall _ _) (rep_lines _ _ HT) y Hy).
  - intros t u. rewrite HM, lookup_delete_Some, (rep_members _ _ HT).
    unfold drop_token. setoid_rewrite list_elem_of_filter. naive_solver.
  - intros u. destruct (decide (u = st_user x)) as [->|Hu]; [done|].
    destruct (Ho u Hu) as [-> _]. rewrite Hother by done. apply HT.
  - intros u. destruct (decide (u = st_user x)) as [->|Hu]; [done|].
    destruct (Ho u Hu) as (_ & -> & _). rewrite Hother by done. apply HT.
  - intros u. destruct (decide (u = st_user x)) as [->|Hu].
    { rewrite HS. by destruct (mine (st_user x) (drop_token (st_token x) l)). }
    destruct (Ho u Hu) as (_ & _ & ->). rewrite Hother by done. apply HT.
Qed.

(** ** Refinement *)

Inductive PresOp : Type :=
| PJoin (user info token : string) (cap : Z)
| PLeave (user token : string)
| PReap (token : string).

Inductive PresReply : Type :=
| RCount (n : Z)
| RReap (user : string) (remaining won : Z).

(** The specification: a list of live connections. *)
Definition distinct_users (l : list Seat) : nat := length (remove_dups (st_user <$> l)).

Definition is_full (cap : Z) (user : string) (l : list Seat) : bool :=
  (0 <=? cap)%Z && (length (mine user l) =? 0)%nat && (cap <=? Z.of_nat (distinct_users l))%Z.

Definition count_of (user : string) (l : list Seat) : Z := Z.of_nat (length (mine user l)).

Definition seat_of (token : string) (l : list Seat) : option Seat :=
  head (filter (λ x, st_token x = token) l).

Definition spec_step (op : PresOp) (l : list Seat) : list Seat * PresReply :=
  match op with
  | PJoin user info token cap =>
      if is_full cap user l then (l, RCount (-1))
      else let l := l ++ [mkSeat token user info] in (l, RCount (count_of user l))
  | PLeave user token =>
      match seat_of token l with
      | Some _ => let l := drop_token token l in (l, RCount (count_of user l))
      | None => (l, RCount (-1))
      end
  | PReap token =>
      match seat_of token l with
      | None => (l, RReap "" 0 0)
      | Some x =>
          let l := drop_token token l in
          let n := count_of (st_user x) l in
          (l, RReap (st_user x) n (if (n =? 0)%Z then 1%Z else 0%Z))
      end
  end.

(** A connection joins with a token not in use and leaves as it joined, also
    when the sweeper has reaped it before and with it the last connection of its
    user; the sweeper may reap any token. *)
Definition legal (op : PresOp) (l : list Seat) : Prop :=
  (Z.of_nat (length l) < LUA_INT)%Z ∧
  match op with
  | PJoin user info token cap =>
      ¬ token ∈ (st_token <$> l) ∧ one_line token ∧ one_line info ∧ (- LUA_INT <= cap <= LUA_INT)%Z
  | PLeave user token => (∃ info, mkSeat token user info ∈ l) ∨ seat_of token l = None ∧ mine user l = []
  | PReap token => True
  end.

Fixpoint spec_run (ops : list PresOp) (l : list Seat) : list Seat * list PresReply :=
  match ops with
  | [] => (l, [])
  | op :: ops =>
      let '(l, a) := spec_step op l in
      let '(l, rs) := spec_run ops l in
      (l, a :: rs)
  end.

Fixpoint legal_run (ops : list PresOp) (l : list Seat) : Prop :=
  match ops with
  | [] => True
  | op :: ops => legal op l ∧ legal_run ops (spec_step op l).1
  end.

Lemma users_dom l T : represents l T → dom (t_users T) = list_to_set (st_user <$> l).
Proof.
  intros HT. apply set_eq. intros u. rewrite elem_of_dom, elem_of_list_to_set, (rep_users _ _ HT).
  rewrite list_elem_of_fmap. split.
  - destruct (mine u l) as [|x m] eqn:E; [by intros []|]. intros _.
    assert (x ∈ mine u l) as Hx by (rewrite E; by left).
    apply list_elem_of_filter in Hx as [Hu Hx]. by exists x.
  - intros (x & -> & Hx). assert (x ∈ mine (st_user x) l) as Hm by by apply list_elem_of_filter.
    destruct (mine (st_user x) l); [by apply elem_of_nil in Hm|]. done.
Qed.

Lemma users_size l T : represents l T → size (t_users T) = distinct_users l.
Proof.
  intros HT. rewrite <-(size_dom (t_users T)), (users_dom l T HT). unfold distinct_users.
  rewrite <-(size_list_to_set (C := gset string)) by apply NoDup_remove_dups.
  f_equal. apply set_eq. intros u. by rewrite !elem_of_list_to_set, elem_of_remove_dups.
Qed.

Lemma over_full cap user l T : represents l T → over cap user T = is_full cap user l.
Proof.
  intros HT. unfold over, is_full. rewrite (users_size l T HT), (rep_users _ _ HT).
  by destruct (length (mine user l)).
Qed.

Lemma seat_of_Some token l x : seat_of token l = Some x → x ∈ l ∧ st_token x = token.
Proof.
  unfold seat_of. intros Hh. destruct (filter _ l) as [|y m] eqn:E; simplify_eq/=.
  assert (x ∈ filter (λ x, st_token x = token) l) as Hx by (rewrite E; by left).
  apply list_elem_of_filter in Hx. tauto.
Qed.

Lemma seat_of_None token l x : seat_of token l = None → x ∈ l → st_token x ≠ token.
Proof.
  unfold seat_of. intros Hh Hx Ht. destruct (filter _ l) as [|y m] eqn:E; [|done].
  assert (x ∈ filter (λ x, st_token x = token) l) as Hf by by apply list_elem_of_filter.
  rewrite E in Hf. by apply elem_of_nil in Hf.
Qed.

Lemma count_snoc x l : count_of (st_user x) (l ++ [x]) = (count_of (st_user x) l + 1)%Z.
Proof. unfold count_of. rewrite mine_snoc, decide_True, length_app by done. simpl. lia. Qed.

Lemma count_drop x l :
  NoDup (st_token <$> l) → x ∈ l →
  count_of (st_user x) (drop_token (st_token x) l) = (count_of (st_user x) l - 1)%Z.
Proof.
  intros Hl Hx. unfold count_of. rewrite mine_drop.
  assert (x ∈ mine (st_user x) l) as Hm by by apply list_elem_of_filter.
  pose proof (length_drop x _ (mine_nodup (st_user x) l Hl) Hm). lia.
Qed.

Lemma count_bound u l : (0 <= count_of u l <= Z.of_nat (length l))%Z.
Proof.
  unfold count_of. pose proof (sublist_length _ _ (filter_sublist (λ x, st_user x = u) l)).
  unfold mine. lia.
Qed.

(** A leave that finds neither its connection nor another of its user. *)
Lemma represents_gone l T user token :
  represents l T → seat_of token l = None → mine user l = [] → represents l (leave_tables user token 0 T).
Proof.
  intros HT Hs Hu. assert (leave_tables user token 0 T = T) as ->; [|done].
  pose proof (rep_users _ _ HT user) as HU. pose proof (rep_info _ _ HT user) as HI.
  pose proof (rep_seats _ _ HT user) as HS. rewrite Hu in HU, HI, HS. simpl in HU, HI, HS.
  assert (t_members T !! token = None) as HM.
  { destruct (t_members T !! token) as [u|] eqn:E; [|done].
    apply (rep_members _ _ HT) in E as (x & Hx & Ht & _). by destruct (seat_of_None token l x Hs Hx). }
  unfold leave_tables. simpl. rewrite !delete_id by done. by destruct T.
Qed.

Section refinement.
Context `{RedisLaws R, !Lua, !LuaLaws} (p app channel : string).
#[local] Abbreviation presusers := (Keys.presusers p app channel).
#[local] Abbreviation presinfo := (Keys.presinfo p app channel).
#[local] Abbreviation presmembers := (Keys.presmembers p app channel).
#[local] Abbreviation presseats := (Keys.presseats p app channel).
#[local] Open Scope redis_scope.

Definition pres_step (op : PresOp) : Script R PresReply :=
  match op with
  | PJoin user info token cap =>
      n <-- PRESENCE_JOIN_LUA presusers presinfo presmembers presseats user info token (dec cap) ;;
      sret (RCount n)
  | PLeave user token =>
      n <-- PRESENCE_LEAVE_LUA presusers presinfo presmembers presseats user token ;;
      sret (RCount n)
  | PReap token =>
      a <-- REAP_MEMBER_LUA presusers presinfo presmembers presseats token ;;
      sret (RReap a.1.1 a.1.2 a.2)
  end.

Fixpoint pres_run (ops : list PresOp) : Script R (list PresReply) :=
  match ops with
  | [] => sret []
  | op :: ops => a <-- pres_step op ;; rs <-- pres_run ops ;; sret (a :: rs)
  end.

(** The keyspace holds the connections [l], and elsewhere what [s0] holds. *)
Definition holds (s0 : Keyspace) (l : list Seat) (s : Keyspace) : Prop :=
  no_empty s ∧ (∃ T, tables_at p app channel s T ∧ represents l T) ∧
  ∀ k, k ∉ [presusers; presinfo; presmembers; presseats] → s !! k = s0 !! k.

Lemma holds_updates s0 l l' s T s' :
  holds s0 l s → represents l' T → updates p app channel s T s' → holds s0 l' s'.
Proof.
  intros (_ & _ & Hk) HT (HT' & Hne & Hk'). split_and!; [done|by exists T|].
  intros k Hin. rewrite Hk' by done. by apply Hk.
Qed.

Lemma join_step_spec s0 user info token cap l s :
  holds s0 l s → legal (PJoin user info token cap) l →
  wp (pres_step (PJoin user info token cap)) (λ a s',
    a = (spec_step (PJoin user info token cap) l).2 ∧
    holds s0 (spec_step (PJoin user info token cap) l).1 s') s.
Proof.
  intros Hh (Hlen & Hfresh & Ht & Hi & Hcap). pose proof Hh as (Hne & (T & HT & Hrep) & _).
  unfold LUA_INT in Hlen. pose proof (count_bound user l). simpl. eapply wp_seq.
  { eapply (presence_join_spec p app channel user info token (dec cap) cap (count_of user l)); eauto.
    - by apply tonumber_dec.
    - by apply rep_count.
    - unfold i64, I64_MAX. lia. }
  cbv beta. rewrite (over_full cap user l T Hrep). intros n s' Hn. apply wp_ret.
  destruct (is_full cap user l); destruct Hn as [-> Hn]; simpl; [by subst|].
  pose proof (count_snoc (mkSeat token user info) l) as Hc. simpl in Hc. rewrite Hc. split; [done|].
  eapply holds_updates; [done|by apply represents_join|done].
Qed.

Lemma leave_step_spec s0 user token l s :
  holds s0 l s → legal (PLeave user token) l →
  wp (pres_step (PLeave user token)) (λ a s',
    a = (spec_step (PLeave user token) l).2 ∧
    holds s0 (spec_step (PLeave user token) l).1 s') s.
Proof.
  intros Hh (Hlen & Hleg). pose proof Hh as (Hne & (T & HT & Hrep) & _).
  unfold LUA_INT in Hlen. pose proof (count_bound user l). simpl. eapply wp_seq.
  { eapply (presence_leave_spec p app channel user token (count_of user l)); eauto.
    - by apply rep_count.
    - unfold i64, I64_MAX. lia. }
  cbv beta. intros n s' [-> Hn]. apply wp_ret. destruct Hleg as [[info Hx]|[Hs Hu]].
  - destruct (seat_of token l) as [x|] eqn:Es; [|by destruct (seat_of_None token l _ Es Hx)].
    pose proof (count_drop (mkSeat token user info) l (rep_nodup _ _ Hrep) Hx) as Hc.
    simpl in Hc. rewrite Hc. split; [done|].
    eapply holds_updates; [done|by apply (represents_leave l T (mkSeat token user info))|done].
  - rewrite Hs. unfold count_of in *. rewrite Hu in *. split; [done|].
    eapply holds_updates; [done|by apply (represents_gone l T user token)|done].
Qed.

Lemma reap_step_spec s0 token l s :
  holds s0 l s → legal (PReap token) l →
  wp (pres_step (PReap token)) (λ a s',
    a = (spec_step (PReap token) l).2 ∧ holds s0 (spec_step (PReap token) l).1 s') s.
Proof.
  intros Hh (Hlen & _). pose proof Hh as (Hne & (T & HT & Hrep) & _). unfold LUA_INT in Hlen.
  simpl. eapply wp_seq.
  { eapply (reap_member_spec p app channel token); [done|done|].
    intros user Hu. exists (count_of user l). split; [by apply rep_count|].
    pose proof (count_bound user l). unfold LUA_INT. lia. }
  cbv beta. intros a s' Ha. apply wp_ret. destruct (seat_of token l) as [x|] eqn:Ex.
  - apply seat_of_Some in Ex as [Hx <-].
    assert (t_members T !! st_token x = Some (st_user x)) as E by (apply (rep_members _ _ Hrep); eauto).
    rewrite E in Ha. destruct Ha as (n & Hn & -> & Hup).
    rewrite (rep_count (st_user x) l T Hrep) in Hn. apply (inj dec) in Hn. subst n.
    pose proof (count_drop x l (rep_nodup _ _ Hrep) Hx) as Hc.
    pose proof (count_bound (st_user x) (drop_token (st_token x) l)). unfold count_of in *. simpl.
    split; [|eapply holds_updates; [done|by apply represents_leave|done]].
    rewrite Hc, Z.max_r by lia. f_equal.
    destruct (Z.eqb_spec (Z.of_nat (length (mine (st_user x) l))) 1),
      (Z.eqb_spec (Z.of_nat (length (mine (st_user x) l)) - 1) 0); lia.
  - assert (t_members T !! token = None) as E.
    { destruct (t_members T !! token) as [u|] eqn:E; [|done].
      apply (rep_members _ _ Hrep) in E as (x & Hx & Ht & _).
      by destruct (seat_of_None token l x Ex Hx). }
    rewrite E in Ha. by destruct Ha as [-> ->].
Qed.

Lemma pres_run_spec s0 ops l s :
  holds s0 l s → legal_run ops l →
  wp (pres_run ops) (λ rs s', rs = (spec_run ops l).2 ∧ holds s0 (spec_run ops l).1 s') s.
Proof.
  revert l s. induction ops as [|op ops IH]; intros l s Hh Hl; [by apply wp_ret|].
  destruct Hl as [Hop Hl]. simpl. eapply wp_seq.
  - destruct op; [by apply join_step_spec|by apply leave_step_spec|by apply reap_step_spec].
  - cbv beta. intros a s' [-> Hs']. destruct (spec_step op l) as [l1 a]. simpl in *.
    eapply wp_seq; [by apply IH|]. cbv beta. intros rs s2 [-> Hs2]. apply wp_ret.
    by destruct (spec_run ops l1).
Qed.

Lemma holds_nil s :
  no_empty s → (∀ k, k ∈ [presusers; presinfo; presmembers; presseats] → s !! k = None) →
  holds s [] s.
Proof.
  intros Hne Hk. split_and!; [done| |done].
  exists (mkTables ∅ ∅ ∅ ∅). split.
  - unfold tables_at, hash_at. rewrite !Hk by (rewrite !elem_of_cons; tauto). done.
  - split; [apply NoDup_nil_2|constructor|..]; simpl; intros; rewrite ?lookup_empty; [|done..].
    split; [done|]. intros (x & Hx & _). by apply elem_of_nil in Hx.
Qed.

(** C27. The presence scripts implement one join-ordered list of live connections
    per channel. From a channel without members, over any history of joins
    with unused tokens, leaves of joined connections, leaves of connections the
    sweeper reaped with the last of their user, and reaps, every reply is that of
    the list (the user's connection count, whether the cap refused the join, who
    owns the [member_removed] of a reap, -1 for a leave that comes after it), the
    four hashes represent the list at the end, with each user's roster entry the
    one its oldest live connection presented, and no other key is touched. The
    leave left out, of a reaped connection whose user has another one, takes that
    user off the roster: see [late_leave_drops_live_user]. *)
Theorem presence_refines_seats (ops : list PresOp) (r : R) :
  no_empty (keyspace r) →
  (∀ k, k ∈ [presusers; presinfo; presmembers; presseats] → keyspace r !! k = None) →
  legal_run ops [] →
  ∃ r', pres_run ops r = (Some (spec_run ops []).2, r') ∧
    holds (keyspace r) (spec_run ops []).1 (keyspace r').
Proof.
  intros Hne Hk Hl.
  destruct (wp_run _ _ r (pres_run_spec (keyspace r) ops [] (keyspace r) (holds_nil _ Hne Hk) Hl))
    as (rs & r' & E & -> & Hh).
  by exists r'.
Qed.

(** A leave does not ask whether its connection is still seated. When the
    sweeper has already reaped the leaving connection and the user has one
    other live connection, the leave answers 0, the cluster's
    last-connection edge, and removes the user from the counts and the roster,
    although the other connection is still a member. *)
Theorem late_leave_drops_live_user (r : R) (s0 : Keyspace) (l : list Seat) (x : Seat) (token : string) :
  holds s0 l (keyspace r) → mine (st_user x) l = [x] → token ≠ st_token x →
  ∃ r', PRESENCE_LEAVE_LUA presusers presinfo presmembers presseats (st_user x) token r = (Some 0%Z, r') ∧
    hashof (keyspace r') presmembers !! st_token x = Some (st_user x) ∧
    hashof (keyspace r') presusers !! st_user x = None ∧
    hashof (keyspace r') presinfo !! st_user x = None.
Proof.
  intros (Hne & (T & HT & Hrep) & _) Hm Ht.
  assert (x ∈ l) as Hx by (apply (list_elem_of_filter (λ y, st_user y = st_user x)); fold (mine (st_user x) l);
    rewrite Hm; by left).
  destruct (wp_run _ _ r (presence_leave_spec p app channel (st_user x) token 1 (keyspace r) T Hne HT
    ltac:(by rewrite (rep_count _ l T Hrep), Hm) ltac:(unfold i64, I64_MAX; lia)))
    as (a & r' & E & -> & ((HU & HI & HM & HS) & _)).
  exists r'. split; [exact E|]. unfold leave_tables in *. simpl in *.
  rewrite (hash_at_Some _ _ _ HM), (hash_at_Some _ _ _ HU), (hash_at_Some _ _ _ HI).
  split_and!; [|apply lookup_delete_eq..]. rewrite lookup_delete_ne by done.
  apply (rep_members _ _ Hrep). by exists x.
Qed.
End refinement.
