(* ===== verification/RedisTypes.v ===== *)
(** * The keyspace stays well typed

    Every script of [src/src/adapter/redis/client.rs], called at the keys the
    Rust side passes, finds each key with the data type its commands need and
    leaves it so. *)

From S2P Require Import Prelude RustStd RedisStore RedisKeys RedisScripts RedisSpecs.
From S2P Require Import RedisMembership RedisCapacity RedisPresence.

(** A script and its arguments. *)
Inductive ScriptCall : Type :=
| CallJoin (app channel token stamp : string) (ttl : Z)
| CallUnsubscribe (app channel token : string)
| CallVacate (app channel : string)
| CallPresenceJoin (app channel user info token : string) (cap : Z)
| CallPresenceLeave (app channel user token : string)
| CallReapMember (app channel token : string)
| CallSignin (app user token stamp : string) (ttl : Z)
| CallUserReap (app user : string) (now : Z)
| CallSignout (app user token : string)
| CallAdmit (node app : string) (capacity ttl : Z)
| CallRelease (node app : string)
| CallReclaim (node : string)
| CallReseed (node : string) (ttl : Z) (counts : list (string * string)).

Section types.
Context `{RedisLaws R, !Lua, !LuaLaws} (p : string).
#[local] Open Scope redis_scope.

Definition run_call (c : ScriptCall) : Script R unit :=
  match c with
  | CallJoin app channel token stamp ttl =>
      MEMBERSHIP_JOIN_LUA (Keys.occ p app channel) (Keys.chans p app) token stamp ttl channel ;;; sret tt
  | CallUnsubscribe app channel token =>
      UNSUBSCRIBE_LUA (Keys.occ p app channel) (Keys.chans p app) token channel ;;; sret tt
  | CallVacate app channel =>
      VACATE_LUA (Keys.occ p app channel) (Keys.chans p app) (Keys.presusers p app channel)
        (Keys.presinfo p app channel) (Keys.presmembers p app channel) (Keys.presseats p app channel)
        channel ;;; sret tt
  | CallPresenceJoin app channel user info token cap =>
      PRESENCE_JOIN_LUA (Keys.presusers p app channel) (Keys.presinfo p app channel)
        (Keys.presmembers p app channel) (Keys.presseats p app channel) user info token (dec cap) ;;; sret tt
  | CallPresenceLeave app channel user token =>
      PRESENCE_LEAVE_LUA (Keys.presusers p app channel) (Keys.presinfo p app channel)
        (Keys.presmembers p app channel) (Keys.presseats p app channel) user token ;;; sret tt
  | CallReapMember app channel token =>
      REAP_MEMBER_LUA (Keys.presusers p app channel) (Keys.presinfo p app channel)
        (Keys.presmembers p app channel) (Keys.presseats p app channel) token ;;; sret tt
  | CallSignin app user token stamp ttl =>
      MEMBERSHIP_JOIN_LUA (Keys.usr p app user) (Keys.users p app) token stamp ttl user ;;; sret tt
  | CallUserReap app user now =>
      USER_REAP_LUA (Keys.usr p app user) (Keys.users p app) (dec now) user ;;; sret tt
  | CallSignout app user token =>
      USER_SIGNOUT_LUA (Keys.usr p app user) (Keys.users p app) token user ;;; sret tt
  | CallAdmit node app capacity ttl =>
      ADMIT_APP_LUA (Keys.appconns p) (Keys.nodeconns p node) app (dec capacity) ttl ;;; sret tt
  | CallRelease node app =>
      RELEASE_APP_LUA (Keys.appconns p) (Keys.nodeconns p node) app ;;; sret tt
  | CallReclaim node =>
      RECLAIM_NODE_LUA (Keys.appconns p) (Keys.nodeconns p node) (Keys.node p node) ;;; sret tt
  | CallReseed node ttl counts =>
      RESEED_NODE_CAPACITY_LUA (Keys.appconns p) (Keys.nodeconns p node) (Keys.nodes p)
        (Keys.nodeconns_prefix p) node ttl counts ;;; sret tt
  end.

(** Arguments as the Rust side forms them: positive times to live, integers
    that Lua reads exactly. *)
Definition call_ok (c : ScriptCall) : Prop :=
  match c with
  | CallJoin _ _ _ _ ttl | CallSignin _ _ _ _ ttl => (0 < ttl)%Z
  | CallPresenceJoin _ _ _ _ _ cap => (- LUA_INT <= cap <= LUA_INT)%Z
  | CallUserReap _ _ now => (0 <= now <= LUA_INT)%Z
  | CallAdmit _ _ capacity ttl => (0 <= capacity <= U32_MAX)%Z ∧ (0 < ttl)%Z
  | CallReseed _ ttl counts => (0 < ttl)%Z ∧ Forall natural counts
  | _ => True
  end.

(** Counters below [2^53], those of nodes and presence never negative. *)
Definition counters_ok (s : Keyspace) : Prop :=
  ∀ k f v, key_type p k = Some TCounts → hashof s k !! f = Some v →
    ∃ z, v = dec z ∧ (0 <= z < LUA_INT)%Z.

Definition kept (s : Keyspace) : Prop := typed p s ∧ no_empty s.

Lemma kept_put_hash s k h : kept s → key_type p k = Some THash → kept (put_hash k h s).
Proof. intros [? ?] ?. split; [by apply typed_put_hash|by apply no_empty_put_hash]. Qed.

Lemma kept_put_counts s k h :
  kept s → counts h → key_type p k = Some TCounts → kept (put_hash k h s).
Proof. intros [? ?] ? ?. split; [by apply typed_put_counts|by apply no_empty_put_hash]. Qed.

Lemma kept_put_set s k m : kept s → key_type p k = Some TSet → kept (put_set k m s).
Proof. intros [? ?] ?. split; [by apply typed_put_set|by apply no_empty_put_set]. Qed.

Lemma kept_delete s k : kept s → kept (delete k s).
Proof. intros [? ?]. split; [by apply typed_delete|by apply no_empty_delete]. Qed.

Lemma counters_count s k f : counters_ok s → key_type p k = Some TCounts →
  ∃ z, default (dec 0) (hashof s k !! f) = dec z ∧ (0 <= z < LUA_INT)%Z.
Proof.
  intros Hs Hk. destruct (hashof s k !! f) as [v|] eqn:E; simpl; [by eapply Hs|].
  exists 0%Z. split; [done|unfold LUA_INT; lia].
Qed.

Lemma counters_small s k : counters_ok s → key_type p k = Some TCounts → small (hashof s k).
Proof.
  intros Hs Hk f v Hv. destruct (Hs k f v Hk Hv) as (z & -> & Hz). exists z. unfold LUA_INT in *.
  split; [done|lia].
Qed.

#[local] Hint Resolve kept_put_hash kept_put_counts kept_put_set kept_delete : redis_keys.

Lemma run_unit {A} (m : Script R A) Q (s : Keyspace) :
  wp m (λ _ s', Q s') s → wp (sbind m (λ _, sret tt)) (λ _ s', Q s') s.
Proof. intros Hm. eapply wp_seq; [exact Hm|]. cbv beta. intros _ s' HQ. by apply wp_ret. Qed.

Lemma membership_kept c s :
  kept s → call_ok c →
  match c with CallJoin _ _ _ _ _ | CallUnsubscribe _ _ _ | CallVacate _ _ | CallSignin _ _ _ _ _
    | CallUserReap _ _ _ | CallSignout _ _ _ => True | _ => False end →
  wp (run_call c) (λ _ s', kept s') s.
Proof.
  intros Hs Hc Hk. pose proof Hs as [Ht Hn].
  destruct c; try done; simpl in Hc |- *; apply run_unit; eapply wp_mono.
  1: by apply membership_join_spec. 2: by apply unsubscribe_spec. 3: by apply vacate_spec.
  4: by apply user_signin_spec.
  5: { apply (user_reap_spec p app user (dec now) now); [done|]. apply tonumber_dec. unfold LUA_INT in *. lia. }
  6: by apply user_signout_spec.
  all: cbv beta zeta; intros a s' Ha.
  - destruct Ha as [_ ->]. eauto with redis_keys.
  - case_decide; destruct Ha as [_ ->]; eauto with redis_keys.
  - repeat case_decide; destruct_and!; subst; eauto 8 with redis_keys.
  - destruct Ha as [_ ->]. eauto with redis_keys.
  - destruct Ha as (? & ? & _). split; auto.
  - destruct Ha as (? & ? & _). split; auto.
Qed.

Lemma leave_counts user token n T : counts (t_users T) → counts (t_users (leave_tables user token n T)).
Proof.
  intros HT. unfold leave_tables. destruct (n - 1 <=? 0)%Z; simpl; auto with redis_keys.
Qed.

Lemma kept_updates app channel s T s' :
  kept s → counts (t_users T) → updates p app channel s T s' → kept s'.
Proof.
  intros [Ht _] HT Hu. split; [by eapply typed_updates|apply Hu].
Qed.

Lemma presence_kept c s :
  kept s → counters_ok s → call_ok c →
  match c with CallPresenceJoin _ _ _ _ _ _ | CallPresenceLeave _ _ _ _ | CallReapMember _ _ _ => True
    | _ => False end →
  wp (run_call c) (λ _ s', kept s') s.
Proof.
  intros Hs Hcs Hc Hk. pose proof Hs as [Ht Hn].
  assert (∀ app channel, counts (hashof s (Keys.presusers p app channel))) as Hcount.
  { intros app channel. by apply (typed_counts p s _ Ht (presusers_type p app channel)). }
  assert (∀ app channel user, ∃ n, default (dec 0) (hashof s (Keys.presusers p app channel) !! user) = dec n ∧
    (0 <= n < LUA_INT)%Z) as Hd by (intros; by apply counters_count, presusers_type).
  destruct c as [| | |app channel user info token cap|app channel user token|app channel token| | | | | | |];
    try done; simpl in Hc |- *; apply run_unit; pose proof (typed_tables p app channel s Ht) as HT.
  - destruct (Hd app channel user) as (n & En & Hb). unfold LUA_INT in Hb. eapply wp_mono.
    { apply (presence_join_spec p app channel user info token (dec cap) cap n s _ Hn HT);
        [by apply tonumber_dec|exact En|unfold i64, I64_MAX; lia]. }
    cbv beta. intros a s' Ha. destruct (over cap user _); destruct Ha as [_ Ha]; [by subst|].
    eapply kept_updates; [done| |done]. simpl. apply counts_insert, Hcount.
  - destruct (Hd app channel user) as (n & En & Hb). unfold LUA_INT in Hb. eapply wp_mono.
    { apply (presence_leave_spec p app channel user token n s _ Hn HT);
        [exact En|unfold i64, I64_MAX; lia]. }
    cbv beta. intros a s' [_ Ha]. eapply kept_updates; [done| |exact Ha]. apply leave_counts, Hcount.
  - eapply wp_mono.
    { apply (reap_member_spec p app channel token s _ Hn HT). intros user _. simpl.
      destruct (Hd app channel user) as (n & En & Hb). exists n. unfold LUA_INT in *. split; [done|lia]. }
    cbv beta. intros a s' Ha. destruct (t_members _ !! token); [|by destruct Ha as [_ ->]].
    destruct Ha as (n & _ & _ & Ha). eapply kept_updates; [done| |exact Ha]. apply leave_counts, Hcount.
Qed.

Lemma seed_counts N l : counts N → Forall natural l → counts (seed N l).
Proof.
  intros HN Hl. revert N HN. induction Hl as [|q l (z & Ez & _) _ IH]; intros N HN; simpl; [done|].
  apply IH. rewrite Ez. by apply counts_insert.
Qed.

Lemma retotal_counts s self nodes A l : counts A → counts (retotal p s self nodes A l).
Proof.
  revert A. induction l as [|q l IH]; intros A HA; simpl; [done|]. by apply IH, counts_insert.
Qed.

Lemma capacity_kept c s :
  kept s → counters_ok s → call_ok c →
  match c with CallAdmit _ _ _ _ | CallRelease _ _ | CallReclaim _ | CallReseed _ _ _ => True
    | _ => False end →
  wp (run_call c) (λ _ s', kept s') s.
Proof.
  intros Hs Hcs Hc Hk. pose proof Hs as [Ht Hn].
  pose proof (typed_counts p s _ Ht (appconns_type p)) as [HA CA].
  pose proof (counters_small s _ Hcs (appconns_type p)) as SA.
  assert (∀ n, hash_at s (Keys.nodeconns p n) = Some (hashof s (Keys.nodeconns p n)) ∧
    counts (hashof s (Keys.nodeconns p n)) ∧ small (hashof s (Keys.nodeconns p n))) as HN.
  { intros n. destruct (typed_counts p s _ Ht (nodeconns_type p n)). split_and!; [done|done|].
    apply (counters_small s _ Hcs (nodeconns_type p n)). }
  destruct c as [| | | | | | | | |node app cap ttl|node app|node|node ttl l]; try done;
    destruct (HN node) as (HNn & CN & SN); simpl in Hc |- *; apply run_unit; eapply wp_mono.
  - apply (admit_spec p node app cap ttl s _ _ HA HNn SA SN); [unfold U32_MAX, LUA_INT in *; lia|apply Hc].
  - cbv beta. intros a s' Ha. case_bool; destruct Ha as [_ ->]; [done|]. auto with redis_keys.
  - apply (release_spec p node app s _ _ HA HNn SA SN).
  - cbv beta. intros a s' Ha. destruct (_ <? 0)%Z; destruct Ha as [_ ->]; [auto with redis_keys|].
    destruct (_ <=? 0)%Z, (_ =? 0)%Z; auto with redis_keys.
  - apply (reclaim_spec p node s _ _ HA HNn SA); [|done].
    intros f v Hv. destruct (Hcs _ f v (nodeconns_type p node) Hv) as (z & -> & Hz).
    exists z. unfold LUA_INT in *. split; [done|lia].
  - cbv beta. intros a s' Ha. destruct (s !! _); [by destruct Ha as [_ ->]|].
    destruct Ha as (A' & -> & SA' & _). apply kept_delete. auto using small_counts with redis_keys.
  - destruct Hc as [Httl Hl]. by apply reseed_spec.
  - cbv beta. intros a s' (nodes & _ & ->). destruct Hc as [_ Hl].
    auto using seed_counts, retotal_counts with redis_keys.
Qed.

(** C31. Every script of the adapter, at its keys and with the arguments the Rust
    side forms, answers on a keyspace where each key holds the data type of its
    kind, and leaves the keyspace so. *)
Theorem scripts_well_typed (c : ScriptCall) (r : R) :
  typed p (keyspace r) → no_empty (keyspace r) → counters_ok (keyspace r) → call_ok c →
  ∃ r', run_call c r = (Some tt, r') ∧ typed p (keyspace r') ∧ no_empty (keyspace r').
Proof.
  intros Ht Hn Hcs Hc.
  assert (wp (run_call c) (λ _ s', kept s') (keyspace r)) as Hw.
  { destruct c; first [by apply membership_kept|by apply presence_kept|by apply capacity_kept]. }
  destruct (wp_run _ _ r Hw) as ([] & r' & E & ? & ?). by exists r'.
Qed.
End types.
