(* ===== verification/RedisDemo.v ===== *)
(** * A concrete Redis

    A store whose state is its keyspace satisfies the documented laws, so the
    theorems that assume them can be instantiated and evaluated. *)

From stdpp Require Import pretty.
From S2P Require Import Prelude RustStd RedisStore.

Module RedisDemo.

(** ** Reading decimals back *)

Fixpoint undigits (acc : Z) (s : string) : option Z :=
  match s with
  | EmptyString => Some acc
  | String c s =>
      if Str.is_ascii_digit c then undigits (acc * 10 + (u8_of_ascii c - 48))%Z s else None
  end.

Definition undec (s : string) : option Z :=
  match s with
  | EmptyString => None
  | String "-"%char s => match undigits 0 s with Some z => Some (- z)%Z | None => None end
  | s => undigits 0 s
  end.

Lemma undigits_char (n : N) acc s : (n < 10)%N →
  undigits acc (String (pretty_N_char n) s) = undigits (acc * 10 + Z.of_N n)%Z s.
Proof.
  intros Hn.
  assert (n = 0 ∨ n = 1 ∨ n = 2 ∨ n = 3 ∨ n = 4 ∨ n = 5 ∨ n = 6 ∨ n = 7 ∨ n = 8 ∨ n = 9)%N
    as Hc by lia.
  destruct_or!; subst; reflexivity.
Qed.

Lemma undigits_go (x : N) s : undigits 0 (pretty_N_go x s) = undigits (Z.of_N x) s.
Proof.
  revert s. induction (N.lt_wf_0 x) as [x _ IH]. intros s.
  destruct (decide (0 < x)%N) as [Hx|Hx].
  - rewrite pretty_N_go_step, IH, undigits_char; [|by apply N.mod_lt|by apply N.div_lt|done].
    f_equal. pose proof (N.div_mod x 10 ltac:(done)). lia.
  - replace x with 0%N by lia. by rewrite pretty_N_go_0.
Qed.

Lemma undigits_N (n : N) : undigits 0 (pretty n) = Some (Z.of_N n).
Proof. unfold pretty, pretty_N. case_decide; [by subst|]. by rewrite undigits_go. Qed.

Lemma pretty_N_cons (n : N) : ∃ c s, pretty n = String c s ∧ c ≠ "-"%char.
Proof.
  pose proof (undigits_N n) as Hd. destruct (pretty n) as [|c s] eqn:E.
  - unfold pretty, pretty_N in E. case_decide; [done|].
    assert (∀ x s, s ≠ "" → pretty_N_go x s ≠ "") as Hne.
    { intros x. induction (N.lt_wf_0 x) as [x _ IH]. intros s Hs.
      destruct (decide (0 < x)%N); [|by replace x with 0%N by lia; rewrite pretty_N_go_0].
      rewrite pretty_N_go_step by done. apply IH; [by apply N.div_lt|done]. }
    rewrite pretty_N_go_step in E by lia. by apply Hne in E.
  - exists c, s. split; [done|]. intros ->. done.
Qed.

Lemma undec_dec z : undec (dec z) = Some z.
Proof.
  unfold dec. destruct z as [|x|x]; [done| |].
  - change (undec (pretty (N.pos x)) = Some (Z.pos x)). pose proof (undigits_N (N.pos x)) as Hd.
    destruct (pretty_N_cons (N.pos x)) as (c & s & E & Hc). rewrite E in *.
    unfold undec. destruct c as [[] [] [] [] [] [] [] []]; done.
  - change (undec (String "-" (pretty (N.pos x))) = Some (Z.neg x)). simpl.
    by rewrite (undigits_N (N.pos x)).
Qed.

(** ** Commands *)

#[local] Abbreviation cmd := (Script Keyspace).

Definition on_hash {A} (k : string) (f : gmap string string → A * gmap string string) : cmd A := λ s,
  match hash_at s k with
  | Some h => let '(a, h) := f h in (Some a, put_hash k h s)
  | None => (None, s)
  end.

Definition read_hash {A} (k : string) (f : gmap string string → A) : cmd A := λ s,
  (f <$> hash_at s k, s).

Definition on_set {A} (k : string) (f : gset string → A * gset string) : cmd A := λ s,
  match set_at s k with
  | Some m => let '(a, m) := f m in (Some a, put_set k m s)
  | None => (None, s)
  end.

Definition hincrby (k f : string) (d : Z) : cmd Z := λ s,
  match hash_at s k with
  | Some h =>
      match undec (default (dec 0) (h !! f)) with
      | Some z => (Some (z + d)%Z, put_hash k (<[f := dec (z + d)]> h) s)
      | None => (None, s)
      end
  | None => (None, s)
  end.

#[export] Instance store : Redis Keyspace := {|
  HSET k fvs := on_hash k (λ h, (0%Z, foldl (λ h p, <[p.1 := p.2]> h) h fvs));
  HDEL k fs := on_hash k (λ h, (0%Z, foldl (λ h f, delete f h) h fs));
  HGET k f := read_hash k (λ h, h !! f);
  HEXISTS k f := read_hash k (λ h, if decide (is_Some (h !! f)) then 1%Z else 0%Z);
  HLEN k := read_hash k (λ h, Z.of_nat (size h));
  HKEYS k := read_hash k (λ h, (map_to_list h).*1);
  HGETALL k := read_hash k map_to_list;
  HINCRBY := hincrby;
  SADD k ms := on_set k (λ m, (0%Z, m ∪ list_to_set ms));
  SREM k x := on_set k (λ m, (if decide (x ∈ m) then 1%Z else 0%Z, m ∖ {[x]}));
  SMEMBERS k := λ s, (elements <$> set_at s k, s);
  DEL ks := λ s, (Some 0%Z, foldl (λ s k, delete k s) s ks);
  EXISTS k := λ s, (Some (if decide (is_Some (s !! k)) then 1%Z else 0%Z), s);
  EXPIRE k _ := λ s, (Some (if decide (is_Some (s !! k)) then 1%Z else 0%Z), s);
  GET k := λ s, (str_at s k, s);
  SET k v _ := λ s, (Some tt, <[k := RStr v]> s);
  SET_NX k v _ := λ s,
    match s !! k with
    | None => (Some (Some "OK"), <[k := RStr v]> s)
    | Some _ => (Some None, s)
    end
|}.

#[export] Instance view : RedisView Keyspace := {| keyspace s := s |}.

#[export] Instance lua : Lua := {| tonumber := undec |}.

#[export] Instance lua_laws : LuaLaws.
Proof. split. intros z _. apply undec_dec. Qed.

#[export] Instance laws : RedisLaws Keyspace.
Proof.
  split; unfold wp; simpl; unfold on_hash, on_set, read_hash, hincrby.
  all: intros; subst;
    repeat match goal with E : hash_at _ _ = Some _ |- _ => rewrite E; clear E
           | E : set_at _ _ = Some _ |- _ => rewrite E; clear E
           | E : str_at _ _ = Some _ |- _ => rewrite E; clear E end; simpl.
  all: try by eexists _, _.
  - match goal with E : default _ _ = dec _ |- _ => rewrite E end. rewrite undec_dec.
    by eexists _, _.
  - destruct (_ !! _); by eexists _, _.
Qed.
End RedisDemo.
