(* ===== verification/RedisProps.v ===== *)
(** * The Redis scripts at work

    Runs of the scripts of [src/src/adapter/redis/client.rs] on a concrete
    store: instances of the theorems on occupancy, capacity and presence, and
    the histories in which a retry or a late call does what its author did not
    intend. *)

From S2P Require Import Prelude RustStd RedisStore RedisKeys RedisScripts RedisSpecs.
From S2P Require Import RedisMembership RedisCapacity RedisPresence RedisTypes RedisDemo.

Section props.
#[local] Existing Instance RedisDemo.store.
#[local] Existing Instance RedisDemo.view.
#[local] Existing Instance RedisDemo.lua.
#[local] Existing Instance RedisDemo.lua_laws.
#[local] Existing Instance RedisDemo.laws.

Lemma typed_empty p : typed p ∅.
Proof. intros k v t Hk. by rewrite lookup_empty in Hk. Qed.

Lemma no_empty_empty : no_empty ∅.
Proof. intros k. by rewrite lookup_empty. Qed.

(** A join at node [n1], then its leave. *)
Lemma vacancy_reported_once_witness :
  ∃ won r', mem_step "p" "a" "c" (MLeave "n1:1.1")
      (mem_step "p" "a" "c" (MJoin "n1:1.1" "10" 60) (∅ : Keyspace)).2 = (Some won, r') ∧
    won = true ∧ indexed "p" "a" "c" (keyspace r') = false.
Proof.
  pose (r1 := (mem_step "p" "a" "c" (MJoin "n1:1.1" "10" 60) (∅ : Keyspace)).2).
  assert (mem_steps "p" "a" "c" (∅ : Keyspace) [(MJoin "n1:1.1" "10" 60, false)] r1) as Hst.
  { eapply (ms_op "p" "a" "c" ∅ [] ∅); [constructor|done|vm_compute; reflexivity]. }
  pose proof (vacancy_reported_once (R := Keyspace) "p" "a" "c" ∅ r1
    [(MJoin "n1:1.1" "10" 60, false)] (MLeave "n1:1.1")) as Hv.
  destruct (Hv (typed_empty "p") eq_refl Hst I) as (_ & won & r' & E & Hw & Hi & _).
  exists won, r'. split; [exact E|]. rewrite Hw, Hi. split; vm_compute; reflexivity.
Defined.

(** Two sessions of one user; the sweeper reaps the first, a stranger is
    refused, the second leaves, and at last the first. *)
Definition visit : list PresOp :=
  [PJoin "u" "1" "n1:1.1" 1; PJoin "u" "2" "n2:2.2" 1; PReap "n1:1.1"; PJoin "v" "3" "n2:3.3" 1;
   PLeave "u" "n2:2.2"; PLeave "u" "n1:1.1"].

Lemma visit_legal : legal_run visit [].
Proof.
  simpl. unfold legal, LUA_INT. simpl.
  split_and!; try lia; try reflexivity; try set_solver; try (vm_compute; reflexivity).
Qed.

Lemma presence_refines_seats_witness :
  ∃ r', pres_run "p" "a" "c" visit (∅ : Keyspace) =
    (Some [RCount 1; RCount 2; RReap "u" 1 0; RCount (-1); RCount 0; RCount (-1)], r') ∧
    holds "p" "a" "c" ∅ [] r'.
Proof.
  pose proof (presence_refines_seats (R := Keyspace) "p" "a" "c" visit ∅ no_empty_empty
    (λ k _, lookup_empty k) visit_legal) as Hv. exact Hv.
Defined.

(** The second session is alive when the first, reaped, leaves. *)
Definition two_sessions : Keyspace := (pres_run "p" "a" "c" (take 3 visit) (∅ : Keyspace)).2.

Lemma late_leave_drops_live_user_witness :
  ∃ r', PRESENCE_LEAVE_LUA (Keys.presusers "p" "a" "c") (Keys.presinfo "p" "a" "c")
      (Keys.presmembers "p" "a" "c") (Keys.presseats "p" "a" "c") "u" "n1:1.1" two_sessions
    = (Some 0%Z, r') ∧ hashof r' (Keys.presmembers "p" "a" "c") !! "n2:2.2" = Some "u" ∧
    hashof r' (Keys.presusers "p" "a" "c") !! "u" = None.
Proof.
  assert (legal_run (take 3 visit) []) as Hl by (destruct visit_legal as (? & ? & ? & _); by split_and!).
  assert (holds "p" "a" "c" ∅ [mkSeat "n2:2.2" "u" "2"] (keyspace two_sessions)) as Hh.
  { pose proof (pres_run_spec (R := Keyspace) "p" "a" "c" ∅ (take 3 visit) [] ∅
      (holds_nil "p" "a" "c" ∅ no_empty_empty (λ k _, lookup_empty k)) Hl) as Hw.
    destruct (Hw ∅ eq_refl) as (rs & r' & E & _ & Hh).
    assert ((spec_run (take 3 visit) []).1 = [mkSeat "n2:2.2" "u" "2"]) as E1 by (vm_compute; reflexivity).
    rewrite E1 in Hh. assert (two_sessions = r') as E2 by exact (f_equal snd E). rewrite E2. exact Hh. }
  pose proof (late_leave_drops_live_user (R := Keyspace) "p" "a" "c" two_sessions ∅ _
    (mkSeat "n2:2.2" "u" "2") "n1:1.1" Hh eq_refl ltac:(done)) as Hv.
  destruct Hv as (r' & E & Hm & Hu & _). exists r'. exact (conj E (conj Hm Hu)).
Defined.

(** ** Sign-ins *)

(** One binding that expired at 10, another that lasts until 30. *)
Definition bound (bindings : gmap string string) : Keyspace :=
  {[Keys.usr "p" "a" "u" := RHash bindings; Keys.users "p" "a" := RSet {["u"]}]}.

Lemma bound_typed b : typed "p" (bound b).
Proof.
  intros k v t Hk Ht. unfold bound in Hk. apply lookup_insert_Some in Hk as [[<- <-]|[_ Hk]].
  - rewrite usr_type in Ht. by simplify_eq.
  - apply lookup_singleton_Some in Hk as [<- <-]. rewrite users_type in Ht. by simplify_eq.
Qed.

Lemma signout_repeats_offline_witness :
  ∃ dead r1 r2,
    USER_REAP_LUA (Keys.usr "p" "a" "u") (Keys.users "p" "a") (dec 20) "u"
      (bound {["n1:1.1" := dec 10]}) = (Some (1%Z, dead), r1) ∧
    USER_SIGNOUT_LUA (Keys.usr "p" "a" "u") (Keys.users "p" "a") "n1:1.1" "u" r1 = (Some 0%Z, r2).
Proof.
  pose proof (signout_repeats_offline (R := Keyspace) "p" "a" "u" (bound {["n1:1.1" := dec 10]})
    (dec 20) 20 "n1:1.1" (bound_typed _) ltac:(vm_compute; reflexivity)
    ltac:(vm_compute; reflexivity) ltac:(apply (bool_decide_unpack _); by vm_compute)) as Hv.
  exact Hv.
Defined.

Lemma reap_spares_live_bindings_witness :
  ∃ won dead r',
    USER_REAP_LUA (Keys.usr "p" "a" "u") (Keys.users "p" "a") (dec 20) "u"
      (bound {["n1:1.1" := dec 10; "n2:2.2" := dec 30]}) = (Some (won, dead), r') ∧
    hashof r' (Keys.usr "p" "a" "u") = {["n2:2.2" := dec 30]} ∧ won ≠ 1%Z.
Proof.
  pose proof (reap_spares_live_bindings (R := Keyspace) "p" "a" "u"
    (bound {["n1:1.1" := dec 10; "n2:2.2" := dec 30]}) (dec 20) 20 (bound_typed _)
    ltac:(vm_compute; reflexivity)) as Hv.
  destruct Hv as (won & dead & r' & E & Hh & Hw & _). exists won, dead, r'. split; [exact E|].
  split; [etrans; [exact Hh|vm_compute; reflexivity]|]. intros Hone. apply Hw in Hone as [Hl _].
  vm_compute in Hl. discriminate Hl.
Defined.

Lemma scripts_well_typed_witness :
  ∃ r', run_call "p" (CallPresenceJoin "a" "c" "u" "1" "n1:1.1" 1) (∅ : Keyspace) = (Some tt, r') ∧
    typed "p" r'.
Proof.
  assert (counters_ok "p" ∅) as Hc.
  { intros k f v _ Hv. unfold hashof, hash_at in Hv. rewrite lookup_empty in Hv. discriminate Hv. }
  assert (call_ok (CallPresenceJoin "a" "c" "u" "1" "n1:1.1" 1)) as Hok by (simpl; unfold LUA_INT; lia).
  pose proof (scripts_well_typed (R := Keyspace) "p" (CallPresenceJoin "a" "c" "u" "1" "n1:1.1" 1) ∅
    (typed_empty "p") no_empty_empty Hc Hok) as Hv.
  destruct Hv as (r' & E & Ht & _). exists r'. exact (conj E Ht).
Defined.

(** ** Capacity *)

Definition cluster : list string := ["n1"; "n2"].

Lemma cluster_nodup : NoDup cluster.
Proof. apply (bool_decide_unpack _). by vm_compute. Qed.

Lemma books_empty : books "p" cluster (λ _, 0%Z) ∅.
Proof.
  assert (∀ k, hashof ∅ k = ∅) as Hk
    by (intros k; unfold hashof, hash_at; by rewrite lookup_empty).
  split; [apply typed_empty|apply no_empty_empty|rewrite Hk; apply small_empty| | |].
  - intros n _. rewrite Hk. apply map_Forall_empty.
  - intros app. unfold total. by rewrite Hk, num_empty.
  - intros app. unfold held, total, units. simpl. rewrite !Hk, !num_empty. lia.
Qed.

Lemma admit_ok : cap_ok "p" cluster (CAdmit "n1" "a" 1 60) ∅.
Proof. split_and!; [by left|done..]. Qed.

Definition admitted : Keyspace := (cap_step "p" (CAdmit "n1" "a" 1 60) (∅ : Keyspace)).2.

Lemma admitted_steps : cap_steps "p" cluster ∅ [CRan (CAdmit "n1" "a" 1 60) 1] (λ _, 0%Z) admitted.
Proof.
  exact (cs_op "p" cluster ∅ [] _ ∅ (CAdmit "n1" "a" 1 60) 1 admitted (cs_start "p" cluster ∅) admit_ok ltac:(vm_compute; reflexivity)).
Qed.

(** One unit is taken; the next admission, at another node, is refused. *)
Lemma capacity_never_exceeded_witness :
  ∃ a r', cap_step "p" (CAdmit "n2" "a" 1 60) admitted = (Some a, r') ∧
    a = 0%Z ∧ (1 <= held "p" cluster admitted "a")%Z.
Proof.
  assert (cap_ok "p" cluster (CAdmit "n2" "a" 1 60) (keyspace admitted)) as Hok.
  { split_and!; [right; by left|done..|vm_compute; reflexivity|vm_compute; reflexivity]. }
  pose proof (capacity_never_exceeded (R := Keyspace) "p" cluster cluster_nodup ∅ admitted
    [CRan (CAdmit "n1" "a" 1 60) 1] (λ _, 0%Z) "n2" "a" 1 60 books_empty admitted_steps Hok) as Hv.
  destruct Hv as (a & r' & E & [(-> & _ & _)|(-> & _ & _ & Hheld)]).
  - assert ((cap_step "p" (CAdmit "n2" "a" 1 60) admitted).1 = Some 0%Z) as E0
      by (vm_compute; reflexivity). rewrite E in E0. discriminate E0.
  - exists 0%Z, r'. split; [exact E|]. split; [done|]. apply Hheld; vm_compute; reflexivity.
Defined.

(** The hash of [n1] expires and is seeded again. *)
Lemma reseed_restores_total_witness :
  ∃ a r', cap_step "p" (CReseed "n1" 60 [("a", dec 1)])
      (delete (Keys.nodeconns "p" "n1") admitted) = (Some a, r') ∧
    total "p" r' "a" = held "p" cluster r' "a".
Proof.
  assert (cap_steps "p" cluster ∅ [CRan (CAdmit "n1" "a" 1 60) 1; CLapsed "n1"] (λ _, 0%Z)
    (delete (Keys.nodeconns "p" "n1") admitted)) as Hst.
  { eapply (cs_lapse "p" cluster ∅ [CRan (CAdmit "n1" "a" 1 60) 1] (λ _, 0%Z));
      [exact admitted_steps|by left|done]. }
  assert (cap_ok "p" cluster (CReseed "n1" 60 [("a", dec 1)])
    (keyspace (delete (Keys.nodeconns "p" "n1") admitted))) as Hok.
  { split_and!; [by left|done|apply NoDup_singleton| | |].
    - constructor; [by exists 1%Z|constructor].
    - assert (setof (keyspace (delete (Keys.nodeconns "p" "n1") admitted)) (Keys.nodes "p") = ∅) as ->
        by (vm_compute; reflexivity). set_solver.
    - intros q Hq. apply list_elem_of_singleton in Hq. subst q. vm_compute. discriminate. }
  pose proof (reseed_restores_total (R := Keyspace) "p" cluster cluster_nodup ∅
    (delete (Keys.nodeconns "p" "n1") admitted) _ _ "n1" 60 [("a", dec 1)] books_empty Hst Hok) as Hv.
  destruct Hv as (a & r' & E & Hz). exists a, r'. split; [exact E|].
  destruct (Hz "a" 1%Z ltac:(vm_compute; reflexivity)) as [Ht _].
  assert (overlooked "p" cluster (keyspace (delete (Keys.nodeconns "p" "n1") admitted)) "n1" "a" = 0%Z) as Ho
    by (vm_compute; reflexivity). rewrite Ho, Z.sub_0_r in Ht. exact Ht.
Defined.
End props.
