(* ===== verification/Protocol.v ===== *)
(** * The protocol layer: [src/src/protocol]

    Socket ids, errors, capabilities, the version-agnostic commands and
    events, version negotiation, and the v7 codec. *)

From stdpp Require Import pretty.
From S2P Require Import Prelude RustStd Json.

(** ** [protocol/socket_id.rs] *)

Module SocketId.

Definition CAPACITY : nat := 24.

Record t : Type := mk { buf : list ascii; len : nat }.

#[global] Instance t_eq_dec : EqDecision t.
Proof. solve_decision. Defined.

#[global] Program Instance t_countable : Countable t :=
  inj_countable (λ s, (buf s, len s)) (λ '(b, n), Some (mk b n)) _.
Next Obligation. by intros []. Qed.

Definition from_raw (raw : string) : t :=
  let s := String.list_ascii_of_string raw in
  let n := Nat.min (length s) CAPACITY in
  mk (take n s ++ replicate (CAPACITY - n) Ascii.zero) n.

Definition as_str (s : t) : string :=
  let bs := take (len s) (buf s) in
  if utf8_valid (u8_of_ascii <$> bs)
  then String.string_of_list_ascii bs else EmptyString.

(** The two halves come from the random generator, in [[1, 10^10)]. *)
Definition generate (a b : N) : t :=
  from_raw (pretty a +:+ "." +:+ pretty b).

End SocketId.

Abbreviation SocketId := SocketId.t.

(** ** [protocol/error.rs] *)

Record PusherError : Type := mkPusherError { pe_code : Z; pe_message : string }.

#[export] Instance PusherError_eq_dec : EqDecision PusherError.
Proof. solve_decision. Defined.

Module PusherErrors.
Definition app_not_found := mkPusherError 4001 "Could not find app by key".
Definition app_disabled := mkPusherError 4003 "Application disabled".
Definition over_capacity := mkPusherError 4004 "App connection limit reached".
Definition path_not_found := mkPusherError 4005 "Path not found".
Definition invalid_version := mkPusherError 4006 "Invalid version string format".
Definition unsupported_protocol := mkPusherError 4007 "Unsupported protocol version".
Definition no_protocol := mkPusherError 4008 "No protocol version supplied".
Definition server_over_capacity := mkPusherError 4100 "Server is over capacity".
Definition backend_unavailable :=
  mkPusherError 4103 "application store temporarily unavailable".
Definition max_lifetime := mkPusherError 4202 "Closed after inactivity".
End PusherErrors.

(** ** [protocol/event.rs] and [protocol/command.rs] *)

Record WatchlistChange : Type := mkWatchlistChange {
  wc_name : string;
  wc_user_ids : list string
}.

Record PresencePayload : Type := mkPresencePayload {
  pp_ids : list string;
  pp_hash : list (string * Value);
  pp_count : nat
}.

Inductive ServerEvent : Type :=
| ConnectionEstablished (socket_id : SocketId) (activity_timeout : Z)
| Ping
| Pong
| SubscriptionSucceeded (channel : string) (presence : option PresencePayload)
| SubscriptionCount (channel : string) (count : nat)
| Error (e : PusherError)
| ChannelEvent (channel event : string) (data : Value) (user_id : option string)
| SubscriptionError (channel error_type error : string) (status : Z)
| MemberAdded (channel user_id : string) (user_info : Value)
| MemberRemoved (channel user_id : string)
| CacheMiss (channel : string)
| SigninSuccess (user_data : string)
| WatchlistEvents (events : list WatchlistChange)
| ClientEventError (code : Z) (message : string)
| Close (code : Z) (reason : string)
| Raw (frame : string).

Module Cmd.
Inductive ClientCommand : Type :=
| Ping
| Subscribe (channel : string) (auth channel_data : option string)
| Unsubscribe (channel : string)
| ClientEvent (event channel : string) (data : Value)
| Signin (auth user_data : string)
| Unknown (event : string).
End Cmd.
Abbreviation ClientCommand := Cmd.ClientCommand.

(** ** [protocol/codec.rs] *)

Record Capabilities : Type := mkCapabilities {
  cap_client_events : bool;
  cap_presence : bool;
  cap_encrypted_channels : bool;
  cap_cache_channels : bool;
  cap_user_auth : bool;
  cap_watchlist : bool
}.

Definition Capabilities_v7 : Capabilities :=
  mkCapabilities true true true true true true.

Inductive DecodeError : Type :=
| DecodeJson
| MissingField (field : string).

(** The version seam: one record per protocol version. *)
Record Codec : Type := mkCodec {
  version : Z;
  capabilities : Capabilities;
  codec_decode : string → result ClientCommand DecodeError;
  codec_encode_into : ServerEvent → string → string
}.

Definition codec_encode (c : Codec) (event : ServerEvent) : string :=
  codec_encode_into c event EmptyString.

(** ** [protocol/v7/frames.rs]: the v7 wire form

    [encode_into] appends: [out] is the text already in the buffer. *)

Module Frames.
Section with_json.
Context `{SerdeJson}.

Definition write_frame (out : string) (frame : Value) : string :=
  out +:+ to_string frame.

Definition double_encoded (fields : list (string * Value)) : Value :=
  JString (to_string (JObject fields)).

Definition roster_data (p : PresencePayload) : Value :=
  double_encoded [("presence", JObject
    [("ids", json_strings (pp_ids p)); ("hash", JObject (pp_hash p));
     ("count", json_uint (Z.of_nat (pp_count p)))])].

Definition error_frame (code : Z) (message : string) : Value :=
  JObject [("event", JString "pusher:error");
           ("data", JObject [("code", json_uint code); ("message", JString message)])].

Definition encode_into (event : ServerEvent) (out : string) : string :=
  match event with
  | ConnectionEstablished socket_id activity_timeout =>
      write_frame out (JObject
        [("event", JString "pusher:connection_established");
         ("data", double_encoded
            [("socket_id", JString (SocketId.as_str socket_id));
             ("activity_timeout", json_uint activity_timeout)])])
  | Ping => write_frame out (JObject [("event", JString "pusher:ping"); ("data", JObject [])])
  | Pong => write_frame out (JObject [("event", JString "pusher:pong"); ("data", JObject [])])
  | SubscriptionSucceeded channel presence =>
      let data := match presence with
                  | None => JString "{}"
                  | Some p => roster_data p
                  end in
      write_frame out (JObject
        [("event", JString "pusher_internal:subscription_succeeded");
         ("channel", JString channel); ("data", data)])
  | SubscriptionCount channel count =>
      write_frame out (JObject
        [("event", JString "pusher_internal:subscription_count");
         ("channel", JString channel);
         ("data", double_encoded [("subscription_count", json_uint (Z.of_nat count))])])
  | Error e => write_frame out (error_frame (pe_code e) (pe_message e))
  | ChannelEvent channel event data user_id =>
      let frame := [("event", JString event); ("channel", JString channel); ("data", data)] in
      write_frame out (JObject
        match user_id with
        | Some uid => map_insert "user_id" (JString uid) frame
        | None => frame
        end)
  | SubscriptionError channel error_type error status =>
      write_frame out (JObject
        [("event", JString "pusher:subscription_error"); ("channel", JString channel);
         ("data", JObject [("type", JString error_type); ("error", JString error);
                           ("status", json_uint status)])])
  | MemberAdded channel user_id user_info =>
      write_frame out (JObject
        [("event", JString "pusher_internal:member_added"); ("channel", JString channel);
         ("data", double_encoded [("user_id", JString user_id); ("user_info", user_info)])])
  | MemberRemoved channel user_id =>
      write_frame out (JObject
        [("event", JString "pusher_internal:member_removed"); ("channel", JString channel);
         ("data", double_encoded [("user_id", JString user_id)])])
  | CacheMiss channel =>
      write_frame out (JObject
        [("event", JString "pusher:cache_miss"); ("channel", JString channel)])
  | SigninSuccess user_data =>
      write_frame out (JObject
        [("event", JString "pusher:signin_success");
         ("data", JObject [("user_data", JString user_data)])])
  | WatchlistEvents events =>
      let events := (λ e, JObject [("name", JString (wc_name e));
                                   ("user_ids", json_strings (wc_user_ids e))]) <$> events in
      write_frame out (JObject
        [("event", JString "pusher_internal:watchlist_events");
         ("data", JObject [("events", JArray events)])])
  | ClientEventError code message => write_frame out (error_frame code message)
  | Close _ _ => out
  | Raw s => out +:+ s
  end.

Definition str_field (v : Value) (k : string) : option string :=
  get v k ≫= as_str.

Open Scope rust_scope.

Definition decode (text : string) : result ClientCommand DecodeError :=
  let? v := ok_or (from_str text) DecodeJson in
  let? event := ok_or (str_field v "event") (MissingField "event") in
  if decide (event = "pusher:ping") then Ok Cmd.Ping
  else if decide (event = "pusher:subscribe") then
    let? data := ok_or (get v "data") (MissingField "data") in
    let? channel := ok_or (str_field data "channel") (MissingField "channel") in
    Ok (Cmd.Subscribe channel (str_field data "auth") (str_field data "channel_data"))
  else if decide (event = "pusher:unsubscribe") then
    let? data := ok_or (get v "data") (MissingField "data") in
    let? channel := ok_or (str_field data "channel") (MissingField "channel") in
    Ok (Cmd.Unsubscribe channel)
  else if decide (event = "pusher:signin") then
    let? data := ok_or (get v "data") (MissingField "data") in
    let? auth := ok_or (str_field data "auth") (MissingField "auth") in
    let? user_data := ok_or (str_field data "user_data") (MissingField "user_data") in
    Ok (Cmd.Signin auth user_data)
  else if Str.starts_with "client-" event then
    let? channel := ok_or (str_field v "channel") (MissingField "channel") in
    Ok (Cmd.ClientEvent event channel (default JNull (get v "data")))
  else Ok (Cmd.Unknown event).

End with_json.
End Frames.

(** ** [protocol/v7/mod.rs], [protocol/mod.rs] and [protocol/wire.rs] *)

Definition MIN_PROTOCOL : Z := 7.
Definition MAX_PROTOCOL : Z := 7.

Section negotiation.
Context `{SerdeJson}.

Definition V7Codec : Codec :=
  mkCodec 7 Capabilities_v7 Frames.decode Frames.encode_into.

Definition codec_for (_version : Z) : Codec := V7Codec.

Definition supported_or_4007 (major : Z) : result Codec PusherError :=
  if (MIN_PROTOCOL <=? major)%Z && (major <=? MAX_PROTOCOL)%Z
  then Ok (codec_for (major mod 256)%Z)
  else Err PusherErrors.unsupported_protocol.

Definition major_of (version : string) : option Z :=
  Str.parse_uint U32_MAX (default EmptyString (head (Str.split "."%char version))).

Definition negotiate (protocol version : option string) (strict : bool)
    : result Codec PusherError :=
  match protocol with
  | Some s =>
      match Str.parse_uint U32_MAX s with
      | Some n => supported_or_4007 n
      | None => Err PusherErrors.invalid_version
      end
  | None =>
      match version with
      | Some v =>
          match major_of v with
          | Some major => supported_or_4007 major
          | None => Err PusherErrors.invalid_version
          end
      | None =>
          if strict then Err PusherErrors.no_protocol else Ok (codec_for MAX_PROTOCOL)
      end
  end.

(** [ACTIVE_VERSIONS]: the negotiation range as a list. *)
Definition all_versions : list Z :=
  (λ i, MIN_PROTOCOL + Z.of_nat i)%Z <$> seq 0 (Z.to_nat (MAX_PROTOCOL - MIN_PROTOCOL + 1)).

(** [wire::encode_into] panics outside the negotiable range ([None]). *)
Definition wire_encode_into (version : Z) (event : ServerEvent) (out : string)
    : option string :=
  if decide (version = 7%Z) then Some (Frames.encode_into event out) else None.

Definition wire_encode (version : Z) (event : ServerEvent) : option string :=
  wire_encode_into version event EmptyString.

(** [wire::encode(ACTIVE_VERSIONS[0], event)], the shared-frame encoding. *)
Definition wire_encode_first (event : ServerEvent) : string :=
  default EmptyString (head all_versions ≫= λ v, wire_encode v event).

Lemma wire_encode_first_eq event :
  wire_encode_first event = Frames.encode_into event EmptyString.
Proof. reflexivity. Qed.

End negotiation.
