(* ===== verification/SocketIds.v ===== *)
(** * Socket ids: facts about [src/src/protocol/socket_id.rs]

    A generated id is two decimal numbers joined by a dot; the theorems show
    that it is never truncated, reads back exactly, identifies its two numbers,
    and contains no separator of the signing strings. *)

From stdpp Require Import pretty.
From S2P Require Import Prelude RustStd Json Protocol.

(** ** Decimal printing *)

Lemma pretty_char_digit (n : N) : (n < 10)%N → Str.is_ascii_digit (pretty_N_char n) = true.
Proof.
  intros Hn.
  assert (n = 0 ∨ n = 1 ∨ n = 2 ∨ n = 3 ∨ n = 4 ∨ n = 5 ∨ n = 6 ∨ n = 7 ∨ n = 8 ∨ n = 9)%N
    as Hc by lia.
  destruct_or!; subst; reflexivity.
Qed.

Lemma pretty_go_digits (n : N) (s : string) :
  Str.all Str.is_ascii_digit s = true → Str.all Str.is_ascii_digit (pretty_N_go n s) = true.
Proof.
  revert s. induction (N.lt_wf_0 n) as [n _ IH]. intros s Hs.
  destruct (decide (0 < n)%N) as [Hn|Hn].
  - rewrite pretty_N_go_step by done. apply IH; [by apply N.div_lt|].
    simpl. rewrite Hs, pretty_char_digit; [done|]. by apply N.mod_lt.
  - replace n with 0%N by lia. by rewrite pretty_N_go_0.
Qed.

Lemma pretty_go_length (k : nat) (n : N) (s : string) :
  (n < 10 ^ N.of_nat k)%N → String.length (pretty_N_go n s) ≤ k + String.length s.
Proof.
  revert n s. induction k as [|k IH]; intros n s Hn.
  - replace n with 0%N by (simpl in Hn; lia). by rewrite pretty_N_go_0.
  - destruct (decide (0 < n)%N) as [Hp|Hp].
    + rewrite pretty_N_go_step by done.
      etrans; [apply IH|simpl; lia]. apply N.Div0.div_lt_upper_bound.
      rewrite Nat2N.inj_succ, N.pow_succ_r' in Hn. done.
    + replace n with 0%N by lia. rewrite pretty_N_go_0. lia.
Qed.

Lemma pretty_digits (n : N) : Str.all Str.is_ascii_digit (pretty n) = true.
Proof.
  unfold pretty, pretty_N. case_decide; [done|]. by apply pretty_go_digits.
Qed.

Lemma pretty_length (n : N) : (n < 10 ^ 10)%N → String.length (pretty n) ≤ 10.
Proof.
  intros Hn. unfold pretty, pretty_N. case_decide; [simpl; lia|].
  by apply (pretty_go_length 10).
Qed.

Lemma digits_char max acc (n : N) s : (n < 10)%N →
  Str.digits max acc (String (pretty_N_char n) s) =
  if (acc * 10 + Z.of_N n <=? max)%Z then Str.digits max (acc * 10 + Z.of_N n) s else None.
Proof.
  intros Hn.
  assert (n = 0 ∨ n = 1 ∨ n = 2 ∨ n = 3 ∨ n = 4 ∨ n = 5 ∨ n = 6 ∨ n = 7 ∨ n = 8 ∨ n = 9)%N
    as Hc by lia.
  destruct_or!; subst; reflexivity.
Qed.

Lemma digits_go max (x : N) s : (Z.of_N x <= max)%Z →
  Str.digits max 0 (pretty_N_go x s) = Str.digits max (Z.of_N x) s.
Proof.
  revert s. induction (N.lt_wf_0 x) as [x _ IH]. intros s Hm.
  destruct (decide (0 < x)%N) as [Hx|Hx].
  - pose proof (N.div_mod x 10 ltac:(done)). pose proof (N.mod_lt x 10 ltac:(done)).
    pose proof (N.div_lt x 10 Hx ltac:(done)) as Hlt.
    rewrite pretty_N_go_step by done. revert Hlt. generalize dependent (x mod 10)%N.
    generalize (x / 10)%N as q. intros q r Hx' Hr Hlt. rewrite IH, digits_char by lia.
    replace (Z.of_N q * 10 + Z.of_N r)%Z with (Z.of_N x) by lia.
    by destruct (Z.leb_spec (Z.of_N x) max); [|lia].
  - replace x with 0%N by lia. by rewrite pretty_N_go_0.
Qed.

(** A number printed and parsed at its width. *)
Lemma parse_uint_pretty max n : (0 <= n <= max)%Z → Str.parse_uint max (pretty (Z.to_N n)) = Some n.
Proof.
  intros Hn. assert (Str.digits max 0 (pretty (Z.to_N n)) = Some n) as Hd.
  { unfold pretty, pretty_N. case_decide as Hz.
    - assert (n = 0%Z) as -> by lia. by destruct max; [..|lia].
    - rewrite digits_go by lia. simpl. f_equal. lia. }
  pose proof (pretty_digits (Z.to_N n)) as Ha. unfold Str.parse_uint.
  destruct (pretty (Z.to_N n)) as [|c s] eqn:E.
  - simpl in Hd. injection Hd as <-. discriminate E.
  - destruct (decide (c = "+"%char)) as [->|Hc]; [done|].
    destruct c as [[] [] [] [] [] [] [] []]; first [exact Hd|by destruct Hc].
Qed.

Lemma pretty_go_long (k : nat) : ∀ (n : N) (s : string), (10 ^ N.of_nat k <= n)%N →
  k + String.length s < String.length (pretty_N_go n s).
Proof.
  induction k as [|k IH]; intros n s Hn.
  - change (10 ^ N.of_nat 0)%N with 1%N in Hn. rewrite pretty_N_go_step by lia.
    assert (∀ m t, String.length t ≤ String.length (pretty_N_go m t)) as Hg.
    { intros m. induction (N.lt_wf_0 m) as [m _ IH]. intros t. destruct (decide (0 < m)%N) as [Hm|Hm].
      - rewrite pretty_N_go_step by done. etrans; [|apply IH; by apply N.div_lt]. simpl. lia.
      - replace m with 0%N by lia. by rewrite pretty_N_go_0. }
    pose proof (Hg (n / 10)%N (String (pretty_N_char (n mod 10)) s)) as Hl. simpl in Hl |- *. lia.
  - rewrite Nat2N.inj_succ, N.pow_succ_r' in Hn. pose proof (N.pow_nonzero 10 (N.of_nat k) ltac:(done)).
    rewrite pretty_N_go_step by lia.
    assert (10 ^ N.of_nat k <= n / 10)%N as Hq by (apply N.div_le_lower_bound; lia).
    pose proof (IH _ (String (pretty_N_char (n mod 10)) s) Hq) as Hl. simpl in Hl |- *. lia.
Qed.

(** A number has at least [k + 1] digits exactly from [10 ^ k] on. *)
Lemma pretty_long (k : nat) (n : N) : 0 < k → (k < String.length (pretty n) ↔ (10 ^ N.of_nat k <= n)%N).
Proof.
  intros Hk. unfold pretty, pretty_N. case_decide as Hz.
  - subst n. simpl. pose proof (N.pow_nonzero 10 (N.of_nat k) ltac:(done)). lia.
  - split.
    + intros Hl. destruct (decide (10 ^ N.of_nat k <= n)%N); [done|].
      pose proof (pretty_go_length k n "" ltac:(lia)) as Hg. simpl in Hg. lia.
    + intros Hn. pose proof (pretty_go_long k n "" Hn) as Hg. simpl in Hg. lia.
Qed.

(** ** Reading back *)

Lemma utf8_valid_ascii bs : Forall (λ b, (0 <= b < 128)%Z) bs → utf8_valid bs = true.
Proof.
  induction 1 as [|b bs Hb _ IH]; simpl; [done|]. by rewrite (proj2 (Z.ltb_lt b 128)) by lia.
Qed.

Definition ascii_only (s : string) : bool := Str.all (λ c, (u8_of_ascii c <? 128)%Z) s.

Lemma ascii_only_bytes s :
  ascii_only s = true →
  Forall (λ b, (0 <= b < 128)%Z) (u8_of_ascii <$> String.list_ascii_of_string s).
Proof.
  induction s as [|c s IH]; simpl; [constructor|]. intros Hs. unfold ascii_only in Hs.
  simpl in Hs. to_prop. constructor; [|by apply IH]. unfold u8_of_ascii in *. lia.
Qed.

Lemma length_list_ascii s : length (String.list_ascii_of_string s) = String.length s.
Proof. induction s; simpl; congruence. Qed.

Lemma from_raw_short raw :
  String.length raw ≤ SocketId.CAPACITY →
  SocketId.len (SocketId.from_raw raw) = String.length raw ∧
  take (String.length raw) (SocketId.buf (SocketId.from_raw raw)) =
    String.list_ascii_of_string raw.
Proof.
  intros Hlen. unfold SocketId.from_raw. rewrite length_list_ascii, Nat.min_l by done.
  rewrite (firstn_all2 (n := String.length raw)) by (rewrite length_list_ascii; lia).
  simpl. split; [done|]. apply take_app_length'. symmetry; apply length_list_ascii.
Qed.

Lemma as_str_from_raw raw :
  String.length raw ≤ SocketId.CAPACITY → ascii_only raw = true →
  SocketId.as_str (SocketId.from_raw raw) = raw.
Proof.
  intros Hlen Ha. destruct (from_raw_short raw Hlen) as [Hl Ht].
  unfold SocketId.as_str. rewrite Hl, Ht.
  rewrite utf8_valid_ascii by by apply ascii_only_bytes.
  apply String.string_of_list_ascii_of_string.
Qed.

Lemma digit_facts c :
  Str.is_ascii_digit c = true →
  (u8_of_ascii c <? 128)%Z = true ∧ bool_decide (c ≠ "."%char) = true ∧
  bool_decide (c ≠ ":"%char) = true.
Proof.
  intros Hd. unfold Str.is_ascii_digit in Hd. to_prop. split_and!.
  - apply Z.ltb_lt. lia.
  - apply bool_decide_eq_true_2. intros ->. vm_compute in *. done.
  - apply bool_decide_eq_true_2. intros ->. vm_compute in *. done.
Qed.

Lemma string_length_app s t : String.length (s +:+ t) = String.length s + String.length t.
Proof. induction s as [|c s IH]; simpl; [done|]. f_equal. exact IH. Qed.

Section generated.
Context (a b : N).

Definition id_text : string := pretty a +:+ "." +:+ pretty b.

Lemma id_text_all (f : ascii → bool) :
  (∀ c, Str.is_ascii_digit c = true → f c = true) → f "."%char = true →
  Str.all f id_text = true.
Proof.
  intros Hf Hdot. unfold id_text. rewrite !Str.all_app. simpl. rewrite Hdot.
  rewrite !(Str.all_impl _ _ _ Hf); try apply pretty_digits. done.
Qed.

Lemma id_text_length : (a < 10 ^ 10)%N → (b < 10 ^ 10)%N → String.length id_text ≤ 21.
Proof.
  intros Ha%pretty_length Hb%pretty_length. unfold id_text.
  rewrite !string_length_app. simpl. lia.
Qed.

Lemma as_str_generate :
  (a < 10 ^ 10)%N → (b < 10 ^ 10)%N → SocketId.as_str (SocketId.generate a b) = id_text.
Proof.
  intros Ha Hb. apply as_str_from_raw.
  - pose proof (id_text_length Ha Hb). unfold SocketId.CAPACITY. unfold id_text in *. lia.
  - apply id_text_all; [|done]. intros c Hc. by apply digit_facts.
Qed.
End generated.

(** ** Properties *)

(** A generated socket id is never truncated: its text is the two numbers
    joined by a dot, at most 21 of the 24 bytes; it contains no colon, and two
    generated ids are equal only when both numbers are. *)
Theorem generated_ids_exact (a b a' b' : N) :
  (a < 10 ^ 10)%N → (b < 10 ^ 10)%N → (a' < 10 ^ 10)%N → (b' < 10 ^ 10)%N →
  SocketId.as_str (SocketId.generate a b) = (pretty a +:+ "." +:+ pretty b) ∧
  SocketId.len (SocketId.generate a b) ≤ 21 ∧
  Str.all (λ c, bool_decide (c ≠ ":"%char)) (SocketId.as_str (SocketId.generate a b)) = true ∧
  (SocketId.generate a b = SocketId.generate a' b' → a = a' ∧ b = b').
Proof.
  intros Ha Hb Ha' Hb'. pose proof (id_text_length a b Ha Hb) as Hlen.
  rewrite as_str_generate by done. split_and!; [done| | |].
  - destruct (from_raw_short (id_text a b)) as [Hl _]; [unfold SocketId.CAPACITY; lia|].
    unfold SocketId.generate. fold (id_text a b). rewrite Hl. done.
  - apply id_text_all; [|done]. intros c Hc. by apply digit_facts.
  - intros Heq. apply (f_equal SocketId.as_str) in Heq.
    rewrite !as_str_generate in Heq by done. unfold id_text in Heq.
    apply (Str.app_inj_sep "."%char) in Heq as [?%(inj pretty) ?%(inj pretty)]; [done|..].
    all: eapply Str.all_impl; [|apply pretty_digits]; intros c Hc; by apply digit_facts.
Qed.

(** [from_raw] keeps a client-supplied ASCII id of at most 24 bytes exactly,
    and distinguishes any two such ids. *)
Theorem from_raw_roundtrip (raw raw' : string) :
  String.length raw ≤ SocketId.CAPACITY → String.length raw' ≤ SocketId.CAPACITY →
  (ascii_only raw = true → SocketId.as_str (SocketId.from_raw raw) = raw) ∧
  (SocketId.from_raw raw = SocketId.from_raw raw' → raw = raw').
Proof.
  intros Hl Hl'. split; [by apply as_str_from_raw|]. intros Heq.
  destruct (from_raw_short raw Hl) as [E1 E2]. destruct (from_raw_short raw' Hl') as [E3 E4].
  rewrite <-(String.string_of_list_ascii_of_string raw).
  rewrite <-(String.string_of_list_ascii_of_string raw').
  rewrite <-E2, <-E4, <-E1, <-E3, Heq. done.
Qed.

Lemma generated_ids_exact_witness :
  SocketId.as_str (SocketId.generate 123 456) = "123.456".
Proof. apply (generated_ids_exact 123 456 1 2); vm_compute; reflexivity. Defined.

Lemma from_raw_roundtrip_witness :
  SocketId.as_str (SocketId.from_raw "9.7") = "9.7".
Proof. apply (from_raw_roundtrip "9.7" "9.8"); vm_compute; lia || reflexivity. Defined.
