(* ===== verification/EnvelopeDemo.v ===== *)
(** * A concrete envelope text

    A printer and a reader of structs, and an encoding of bytes as letters,
    that satisfy the laws the envelope relies on. *)

From S2P Require Import Prelude RustStd Json Envelope SocketIds.

Module EnvelopeDemo.

(** Each byte as two letters. *)
Definition letter (b0 b1 b2 b3 : bool) : ascii := Ascii b0 b1 b2 b3 false true true false.

Fixpoint enc (s : string) : string :=
  match s with
  | EmptyString => EmptyString
  | String (Ascii b0 b1 b2 b3 b4 b5 b6 b7) s =>
      String (letter b0 b1 b2 b3) (String (letter b4 b5 b6 b7) (enc s))
  end.

Fixpoint dec_str (s : string) : string * string :=
  match s with
  | String (Ascii b0 b1 b2 b3 false true true false)
      (String (Ascii b4 b5 b6 b7 false true true false) r) =>
      let '(t, rest) := dec_str r in (String (Ascii b0 b1 b2 b3 b4 b5 b6 b7) t, rest)
  | _ => (EmptyString, s)
  end.

Lemma dec_enc s c r : (∀ b0 b1 b2 b3, c ≠ letter b0 b1 b2 b3) →
  dec_str (enc s +:+ String c r) = (s, String c r).
Proof.
  intros Hc. induction s as [|[b0 b1 b2 b3 b4 b5 b6 b7] s IH].
  - change (enc "" +:+ String c r) with (String c r). destruct c as [b0 b1 b2 b3 [] [] [] []]; try done.
    by destruct (Hc b0 b1 b2 b3).
  - change (enc (String (Ascii b0 b1 b2 b3 b4 b5 b6 b7) s) +:+ String c r)
      with (String (letter b0 b1 b2 b3) (String (letter b4 b5 b6 b7) (enc s +:+ String c r))).
    simpl. by rewrite IH.
Qed.

Definition print_value (v : Value) : string :=
  match v with
  | JNull => "0;"
  | JString s => "1" +:+ enc s +:+ ";"
  | _ => "2;"
  end.

Fixpoint print (m : list (string * Value)) : string :=
  match m with
  | [] => ""
  | (k, v) :: m => enc k +:+ "=" +:+ print_value v +:+ print m
  end.

Fixpoint read (fuel : nat) (s : string) : option (list (string * Value)) :=
  match fuel, s with
  | _, EmptyString => Some []
  | O, _ => None
  | S fuel, s =>
      match dec_str s with
      | (k, String "="%char (String "0"%char (String ";"%char r))) =>
          (λ m, (k, JNull) :: m) <$> read fuel r
      | (k, String "="%char (String "1"%char r)) =>
          match dec_str r with
          | (v, String ";"%char r) => (λ m, (k, JString v) :: m) <$> read fuel r
          | _ => None
          end
      | _ => None
      end
  end.

#[export] Instance serde : SerdeStruct := {|
  struct_to_string := print;
  struct_from_str s := RObject <$> read (String.length s) s
|}.

#[export] Instance b64 : Base64 := {| b64_encode s := enc s +:+ ";"; b64_decode s := Some (dec_str s).1 |}.

#[export] Instance b64_laws : Base64Laws.
Proof. split. intros s. simpl. by rewrite dec_enc. Qed.

Lemma app_length a b : String.length (a +:+ b) = String.length a + String.length b.
Proof.
  induction a as [|c a IH]; [done|]. change (String c a +:+ b) with (String c (a +:+ b)). simpl. by rewrite IH.
Qed.

Lemma app_assoc_str (a b c : string) : (a +:+ b) +:+ c = a +:+ (b +:+ c).
Proof.
  induction a as [|x a IH]; [done|].
  change (String x ((a +:+ b) +:+ c) = String x (a +:+ (b +:+ c))). by rewrite IH.
Qed.

Lemma read_print m fuel : Forall (λ q, plain q.2) m → String.length (print m) ≤ fuel →
  read fuel (print m) = Some m.
Proof.
  intros Hm. revert fuel. induction Hm as [|[k v] m Hv _ IH]; intros fuel Hf; [by destruct fuel|].
  destruct v as [| | |s| |]; try done.
  - assert (print ((k, JNull) :: m) = enc k +:+ String "=" (String "0" (String ";" (print m)))) as E by done.
    rewrite E in Hf |- *. rewrite app_length in Hf. simpl in Hf.
    destruct fuel as [|fuel]; [lia|]. destruct (enc k +:+ _) as [|c0 r0] eqn:E0; [by destruct k as [|[]]|].
    cbn [read]. rewrite <-E0, dec_enc by done. simpl. rewrite IH by lia. done.
  - assert (print ((k, JString s) :: m) = enc k +:+ String "=" (String "1" (enc s +:+ String ";" (print m)))) as E.
    { change (print ((k, JString s) :: m))
        with (enc k +:+ String "=" (String "1" ((enc s +:+ ";") +:+ print m))). by rewrite app_assoc_str. }
    rewrite E in Hf |- *. rewrite app_length in Hf. simpl in Hf. rewrite app_length in Hf. simpl in Hf.
    destruct fuel as [|fuel]; [lia|]. destruct (enc k +:+ _) as [|c0 r0] eqn:E0; [by destruct k as [|[]]|].
    cbn [read]. rewrite <-E0, dec_enc by done. simpl. rewrite dec_enc by done. rewrite IH by lia. done.
Qed.

Definition low (s : string) : Prop := Forall (λ b, (0 <= b < 128)%Z) (as_bytes s).

Lemma low_app a b : low a → low b → low (a +:+ b).
Proof. unfold low. rewrite as_bytes_app. intros Ha Hb. by apply Forall_app. Qed.

Lemma low_enc s : low (enc s).
Proof.
  unfold low. induction s as [|[b0 b1 b2 b3 b4 b5 b6 b7] s IH]; [constructor|].
  unfold as_bytes in *. simpl. constructor; [|constructor; [|exact IH]].
  - destruct b0, b1, b2, b3; vm_compute; split; congruence.
  - destruct b4, b5, b6, b7; vm_compute; split; congruence.
Qed.

Lemma low_print m : low (print m).
Proof.
  assert (∀ s, bool_decide (low s) = true → low s) as Hd by (intros s; apply bool_decide_eq_true_1).
  induction m as [|[k v] m IH]; [constructor|]. simpl.
  apply low_app; [apply low_enc|]. apply low_app; [by apply Hd|]. apply low_app; [|exact IH].
  destruct v; try by apply Hd. simpl. apply low_app; [by apply Hd|]. apply low_app; [apply low_enc|by apply Hd].
Qed.

#[export] Instance serde_laws : SerdeStructLaws.
Proof.
  split.
  - intros m. apply utf8_valid_ascii, low_print.
  - intros m Hm. simpl. by rewrite read_print.
Qed.
End EnvelopeDemo.

(** A frame published without the legacy member. *)
Lemma envelope_roundtrip_witness :
  ∃ e', @decode EnvelopeDemo.serde
      (@encode_with EnvelopeDemo.serde
         (mkEnvelope "n1" "app" Broadcast "room" (JString "hi") None (Some (EnvelopeDemo.enc "hi" +:+ ";")))
         false) = Some e' ∧
    @frame EnvelopeDemo.b64 e' = Some "hi".
Proof.
  pose proof (@envelope_roundtrip EnvelopeDemo.serde EnvelopeDemo.serde_laws EnvelopeDemo.b64 EnvelopeDemo.b64_laws
    (mkEnvelope "n1" "app" Broadcast "room" (JString "hi") None (Some (EnvelopeDemo.enc "hi" +:+ ";")))
    false I) as Hv.
  destruct Hv as (e' & E & _ & _ & _ & _ & _ & Hf & _). exists e'. split; [exact E|].
  apply Hf. split; [reflexivity|split; reflexivity].
Defined.
