(* ===== verification/Kind.v ===== *)
(** * Channel names and parsed payloads

    [src/src/channel/kind.rs], [src/src/presence/member.rs] and the parsing
    half of [src/src/user/mod.rs]. *)

From S2P Require Import Prelude RustStd Json Protocol.

(** ** [channel/kind.rs] *)

Definition SERVER_TO_USER_PREFIX : string := "#server-to-user-".

Inductive AuthKind : Type := Public | Private | Presence | PrivateEncrypted.

#[export] Instance AuthKind_eq_dec : EqDecision AuthKind.
Proof. solve_decision. Defined.

Definition requires_auth (k : AuthKind) : bool :=
  match k with Private | Presence | PrivateEncrypted => true | Public => false end.

Record ChannelInfo : Type := mkChannelInfo { ci_auth : AuthKind; ci_cache : bool }.

Definition ChannelInfo_of (name : string) : ChannelInfo :=
  let '(auth, rest) :=
    match Str.strip_prefix "private-encrypted-" name with
    | Some r => (PrivateEncrypted, r)
    | None =>
        match Str.strip_prefix "presence-" name with
        | Some r => (Presence, r)
        | None =>
            match Str.strip_prefix "private-" name with
            | Some r => (Private, r)
            | None => (Public, name)
            end
        end
    end in
  mkChannelInfo auth (Str.starts_with "cache-" rest).

Definition channel_char (c : ascii) : bool :=
  Str.is_ascii_alphanumeric c
  || bool_decide (c ∈ ["_"; "-"; "="; "@"; ","; "."; ";"]%char).

Definition validate_channel_name (name : string) (max_len : nat) : bool :=
  if Str.is_empty name || (max_len <? String.length name)%nat then false
  else Str.all channel_char name.

(** ** [presence/member.rs] *)

Record PresenceMember : Type := mkPresenceMember {
  pm_user_id : string;
  pm_user_info : Value
}.

Inductive ChannelDataError : Type := ChannelDataNotJson | MissingUserId.

Section parsing.
Context `{SerdeJson}.

Definition parse_channel_data (raw : string) : result PresenceMember ChannelDataError :=
  match from_str raw with
  | None => Err ChannelDataNotJson
  | Some v =>
      let user_id := match get v "user_id" with
                     | Some (JString s) => Some s
                     | Some (JNumber n) => Some (number_to_string n)
                     | _ => None
                     end in
      match user_id with
      | None => Err MissingUserId
      | Some user_id => Ok (mkPresenceMember user_id (default JNull (get v "user_info")))
      end
  end.

(** ** [user/mod.rs] *)

Record AuthenticatedUser : Type := mkAuthenticatedUser {
  au_id : string;
  au_user_data_raw : string;
  au_watchlist : list string
}.

Inductive UserDataError : Type := UserDataNotJson | MissingId.

Definition parse_user_data (raw : string) : result AuthenticatedUser UserDataError :=
  match from_str raw with
  | None => Err UserDataNotJson
  | Some v =>
      match get v "id" with
      | Some (JString s) =>
          if Str.is_empty s then Err MissingId
          else
            let watchlist :=
              match get v "watchlist" ≫= as_array with
              | Some a => omap as_str a
              | None => []
              end in
            Ok (mkAuthenticatedUser s raw watchlist)
      | _ => Err MissingId
      end
  end.

End parsing.

(** ** Classification lemmas *)

(** No character of a valid channel name is one of the separators the
    signing strings and the reserved namespace use. *)
Lemma channel_char_no_sep c :
  channel_char c = true → c ≠ ":"%char ∧ c ≠ "#"%char.
Proof. intros Hc. split; intros ->; vm_compute in Hc; discriminate. Qed.

Lemma validate_channel_name_spec name max_len :
  validate_channel_name name max_len = true ↔
  name ≠ EmptyString ∧ String.length name ≤ max_len ∧ Str.all channel_char name = true.
Proof.
  unfold validate_channel_name. destruct (Str.is_empty name) eqn:E; simpl.
  - destruct name; [|done]. split; [done|]. by intros [? _].
  - destruct (Nat.ltb_spec max_len (String.length name)).
    + split; [done|]. lia.
    + split; [|tauto]. intros ?. split_and!; [|lia|done]. by destruct name.
Qed.

Lemma validate_no_colon name max_len :
  validate_channel_name name max_len = true →
  Str.all (λ a, bool_decide (a ≠ ":"%char)) name = true.
Proof.
  intros (_ & _ & Hall)%validate_channel_name_spec.
  eapply Str.all_impl; [|exact Hall].
  intros c [? _]%channel_char_no_sep. by apply bool_decide_eq_true_2.
Qed.
