(* ===== verification/Frame.v ===== *)
(** * The WebSocket frame codec: [src/src/transport/frame.rs]

    Bytes are integers in [[0, 256)], lengths integers (a declared length can
    be near [2^63]); [usize] is 64 bits wide. [parse] returns the buffer it
    leaves next to its result. *)

From S2P Require Import Prelude RustStd.

(** ** Data *)

Inductive OpCode : Type :=
| OpContinuation | OpText | OpBinary | OpClose | OpPing | OpPong.

#[export] Instance OpCode_eq_dec : EqDecision OpCode.
Proof. solve_decision. Defined.

Inductive ParseError : Type :=
| Incomplete
| ProtocolError (msg : string)
| TooLarge.

#[export] Instance ParseError_eq_dec : EqDecision ParseError.
Proof. solve_decision. Defined.

Record Frame : Type := mkFrame { fin : bool; opcode : OpCode; payload : list Z }.

#[export] Instance Frame_eq_dec : EqDecision Frame.
Proof. solve_decision. Defined.

Definition USIZE_MAX : Z := 2 ^ 64 - 1.

(** ** Operations *)

Definition OpCode_from_u8 (v : Z) : result OpCode ParseError :=
  if (v =? 0)%Z then Ok OpContinuation
  else if (v =? 1)%Z then Ok OpText
  else if (v =? 2)%Z then Ok OpBinary
  else if (v =? 8)%Z then Ok OpClose
  else if (v =? 9)%Z then Ok OpPing
  else if (v =? 10)%Z then Ok OpPong
  else Err (ProtocolError "reserved opcode").

Definition OpCode_as_u8 (o : OpCode) : Z :=
  match o with
  | OpContinuation => 0 | OpText => 1 | OpBinary => 2
  | OpClose => 8 | OpPing => 9 | OpPong => 10
  end%Z.

Definition is_control (o : OpCode) : bool :=
  match o with OpClose | OpPing | OpPong => true | _ => false end.

(** [u64::from_le_bytes] and [to_le_bytes]. *)
Fixpoint from_le_bytes (bs : list Z) : Z :=
  match bs with [] => 0 | b :: bs => b + 256 * from_le_bytes bs end%Z.

Fixpoint to_le_bytes (n : nat) (x : Z) : list Z :=
  match n with O => [] | S n => (x mod 256)%Z :: to_le_bytes n (x / 256)%Z end.

(** Eight bytes at a time against the broadcast key, then the tail. *)
Fixpoint unmask (data : list Z) (key : list Z) : list Z :=
  let key64 := from_le_bytes (key ++ key) in
  match data with
  | b0 :: b1 :: b2 :: b3 :: b4 :: b5 :: b6 :: b7 :: rest =>
      to_le_bytes 8 (Z.lxor (from_le_bytes [b0; b1; b2; b3; b4; b5; b6; b7]) key64)
      ++ unmask rest key
  | tail => imap (λ i byte, Z.lxor byte (key !!! (i mod 4))) tail
  end.

Open Scope rust_scope.

(** The payload length and the size of its extended field. *)
Definition parse_len (buf : list Z) (len7 : Z) : result (Z * Z) ParseError :=
  let available := Z.of_nat (length buf) in
  if (len7 =? 126)%Z then
    if (available <? 4)%Z then Err Incomplete
    else Ok (from_be_bytes [buf !!! 2; buf !!! 3], 2%Z)
  else if (len7 =? 127)%Z then
    if (available <? 10)%Z then Err Incomplete
    else
      let raw := from_be_bytes [buf !!! 2; buf !!! 3; buf !!! 4; buf !!! 5;
                                buf !!! 6; buf !!! 7; buf !!! 8; buf !!! 9] in
      if negb (Z.land raw 0x8000000000000000 =? 0)%Z
      then Err (ProtocolError "64-bit length high bit set")
      else if (USIZE_MAX <? raw)%Z then Err TooLarge
      else Ok (raw, 8%Z)
  else Ok (len7, 0%Z).

Definition check_control (op : OpCode) (fin : bool) (payload_len : Z)
    : result unit ParseError :=
  if is_control op then
    if negb fin then Err (ProtocolError "fragmented control frame")
    else if (125 <? payload_len)%Z then Err (ProtocolError "control frame payload > 125")
    else Ok tt
  else Ok tt.

(** Everything [parse] decides before it commits: FIN, opcode, header size and
    payload size of a frame that is wholly buffered. *)
Definition parse_header (buf : list Z) (max_payload : Z)
    : result (bool * OpCode * Z * Z) ParseError :=
  let available := Z.of_nat (length buf) in
  if (available <? 2)%Z then Err Incomplete else
  let b0 := buf !!! 0 in
  let b1 := buf !!! 1 in
  let fin := negb (Z.land b0 0x80 =? 0)%Z in
  if negb (Z.land b0 0x70 =? 0)%Z then Err (ProtocolError "reserved bits set") else
  let? op := OpCode_from_u8 (Z.land b0 0x0F) in
  let masked := negb (Z.land b1 0x80 =? 0)%Z in
  let len7 := Z.land b1 0x7F in
  let? (payload_len, len_field_bytes) := parse_len buf len7 in
  let? _ := check_control op fin payload_len in
  if negb masked then Err (ProtocolError "unmasked client frame") else
  if (max_payload <? payload_len)%Z then Err TooLarge else
  let header_len := (2 + len_field_bytes + 4)%Z in
  if (USIZE_MAX <? header_len + payload_len)%Z then Err TooLarge else
  if (available <? header_len + payload_len)%Z then Err Incomplete else
  Ok (fin, op, header_len, payload_len).

Definition parse (buf : list Z) (max_payload : Z) : list Z * result Frame ParseError :=
  match parse_header buf max_payload with
  | Err e => (buf, Err e)
  | Ok (fin, op, header_len, payload_len) =>
      let total := Z.to_nat (header_len + payload_len) in
      let frame_bytes := take total buf in
      let h := Z.to_nat header_len in
      let key := take 4 (drop (h - 4) frame_bytes) in
      (drop total buf, Ok (mkFrame fin op (unmask (drop h frame_bytes) key)))
  end.

Definition encode (out : list Z) (fin : bool) (op : OpCode) (payload : list Z) : list Z :=
  let b0 := Z.lor (if fin then 0x80 else 0)%Z (OpCode_as_u8 op) in
  let len := Z.of_nat (length payload) in
  let header :=
    if (len <=? 125)%Z then [len]
    else if (len <=? 65535)%Z then 126%Z :: be_bytes 2 len
    else 127%Z :: be_bytes 8 len in
  out ++ [b0] ++ header ++ payload.

Definition encode_text (out payload : list Z) : list Z := encode out true OpText payload.

(** ** References *)

(** RFC 6455, section 5.3: byte [i] is combined with byte [i mod 4] of the key. *)
Definition mask_ref (data key : list Z) : list Z :=
  imap (λ i b, Z.lxor b (key !!! (i mod 4))) data.

(** What a client sends: the same frame with the mask bit, the key and the
    masked payload. *)
Definition client_encode (fin : bool) (op : OpCode) (key payload : list Z) : list Z :=
  match encode [] fin op payload with
  | b0 :: b1 :: r =>
      let ext := take (length r - length payload) r in
      b0 :: Z.lor b1 0x80 :: ext ++ key ++ mask_ref payload key
  | short => short
  end.

(** ** Little-endian words and bytewise exclusive or *)

Lemma lxor_mod_256 x y : (Z.lxor x y mod 256 = Z.lxor (x mod 256) (y mod 256))%Z.
Proof.
  change 256%Z with (2 ^ 8)%Z. rewrite <-!Z.land_ones by lia.
  apply Z.bits_inj'. intros n _. rewrite !Z.land_spec, !Z.lxor_spec, !Z.land_spec.
  by destruct (Z.testbit x n), (Z.testbit y n), (Z.testbit _ n).
Qed.

Lemma lxor_div_256 x y : (Z.lxor x y / 256 = Z.lxor (x / 256) (y / 256))%Z.
Proof.
  change 256%Z with (2 ^ 8)%Z. rewrite <-!Z.shiftr_div_pow2 by lia. apply Z.shiftr_lxor.
Qed.

Lemma cons_le_mod b x : is_byte b → ((b + 256 * x) mod 256 = b)%Z.
Proof. unfold is_byte. intros. rewrite Z.mul_comm, Z_mod_plus_full. by apply Z.mod_small. Qed.

Lemma cons_le_div b x : is_byte b → ((b + 256 * x) / 256 = x)%Z.
Proof.
  unfold is_byte. intros. rewrite Z.mul_comm, Z_div_plus_full by lia.
  rewrite Z.div_small by lia. lia.
Qed.

(** A word-sized exclusive or is the bytewise one. *)
Lemma xor_le_bytes (xs ys : list Z) :
  Forall is_byte xs → Forall is_byte ys → length xs = length ys →
  to_le_bytes (length xs) (Z.lxor (from_le_bytes xs) (from_le_bytes ys)) =
  zip_with Z.lxor xs ys.
Proof.
  intros Hxs. revert ys. induction Hxs as [|x xs Hx Hxs IH]; intros ys Hys Hlen.
  - by destruct ys.
  - destruct Hys as [|y ys Hy Hys]; [done|]. simpl in *.
    rewrite lxor_mod_256, lxor_div_256, !cons_le_mod, !cons_le_div by done.
    f_equal. apply IH; [done|]. lia.
Qed.

(** ** [unmask] *)

#[local] Arguments Nat.modulo : simpl never.

Lemma mask_ref_app8 (xs rest key : list Z) :
  length xs = 8 → mask_ref (xs ++ rest) key = mask_ref xs key ++ mask_ref rest key.
Proof.
  intros Hlen. unfold mask_ref. rewrite imap_app. f_equal. apply imap_ext.
  intros i x _. simpl. rewrite Hlen. do 2 f_equal.
  rewrite Nat.add_comm. apply (Nat.Div0.mod_add i 2 4).
Qed.

(** One word of [unmask] is eight bytes of the reference. *)
Lemma unmask_word (xs : list Z) k0 k1 k2 k3 :
  length xs = 8 → Forall is_byte xs → Forall is_byte [k0; k1; k2; k3] →
  to_le_bytes 8 (Z.lxor (from_le_bytes xs) (from_le_bytes [k0; k1; k2; k3; k0; k1; k2; k3])) =
  mask_ref xs [k0; k1; k2; k3].
Proof.
  intros Hlen Hxs Hk. rewrite <-Hlen, xor_le_bytes; [|done| |by rewrite Hlen].
  - do 9 (destruct xs as [|? xs]; try done).
  - change (Forall is_byte ([k0; k1; k2; k3] ++ [k0; k1; k2; k3])). by apply Forall_app.
Qed.

Lemma unmask_ref (data key : list Z) :
  Forall is_byte data → Forall is_byte key → length key = 4 →
  unmask data key = mask_ref data key.
Proof.
  intros Hd Hk Hlen. destruct key as [|k0 [|k1 [|k2 [|k3 [|]]]]]; try done. clear Hlen.
  assert (∃ n, length data ≤ n) as [n Hn] by eauto.
  revert data Hd Hn. induction n as [|n IH]; intros data Hd Hn.
  - by destruct data; [|simpl in Hn; lia].
  - do 8 (destruct data as [|? data]; [reflexivity|]).
    match goal with
    | |- unmask (?a :: ?b :: ?c :: ?d :: ?e :: ?f :: ?g :: ?h :: ?r) ?k = _ =>
        change (unmask ([a; b; c; d; e; f; g; h] ++ r) k =
                mask_ref ([a; b; c; d; e; f; g; h] ++ r) k);
        change (Forall is_byte ([a; b; c; d; e; f; g; h] ++ r)) in Hd
    end.
    apply Forall_app in Hd as [Hxs Hd].
    rewrite mask_ref_app8 by done. simpl in Hn.
    rewrite <-unmask_word, <-IH by (done || lia). reflexivity.
Qed.

Lemma length_mask_ref data key : length (mask_ref data key) = length data.
Proof. apply length_imap. Qed.

(** Masking twice with one key is the identity. *)
Lemma mask_ref_involutive data key : mask_ref (mask_ref data key) key = data.
Proof.
  apply list_eq. intros i. unfold mask_ref. rewrite !list_lookup_imap.
  destruct (data !! i); simpl; [|done].
  by rewrite Z.lxor_assoc, Z.lxor_nilpotent, Z.lxor_0_r.
Qed.

Lemma lxor_byte x y : is_byte x → is_byte y → is_byte (Z.lxor x y).
Proof.
  unfold is_byte. intros Hx Hy.
  assert (Z.lxor x y / 256 = 0)%Z as H0 by by rewrite lxor_div_256, !Z.div_small.
  apply Z.div_small_iff in H0; lia.
Qed.

Lemma mask_ref_bytes data key :
  Forall is_byte data → Forall is_byte key → length key = 4 →
  Forall is_byte (mask_ref data key).
Proof.
  intros Hd Hk Hlen. apply Forall_lookup. intros i b. unfold mask_ref.
  rewrite list_lookup_imap. destruct (data !! i) as [x|] eqn:Hx; simpl; [|done].
  intros [= <-]. apply lxor_byte; [exact (Forall_lookup_1 _ _ _ _ Hd Hx)|].
  destruct (lookup_lt_is_Some_2 key (i mod 4)) as [k Hi].
  { rewrite Hlen. apply Nat.mod_upper_bound. lia. }
  rewrite (list_lookup_total_correct _ _ _ Hi). exact (Forall_lookup_1 _ _ _ _ Hk Hi).
Qed.

(** ** Extending the buffer

    A result other than [Incomplete] does not depend on the bytes that follow. *)

Lemma parse_len_app buf more len7 :
  parse_len buf len7 ≠ Err Incomplete → parse_len (buf ++ more) len7 = parse_len buf len7.
Proof.
  unfold parse_len. rewrite length_app.
  destruct (len7 =? 126)%Z.
  { destruct (Z.ltb_spec (Z.of_nat (length buf)) 4); [done|]. intros _.
    rewrite (proj2 (Z.ltb_ge _ _)) by lia. rewrite !lookup_total_app_l by lia. done. }
  destruct (len7 =? 127)%Z; [|done].
  destruct (Z.ltb_spec (Z.of_nat (length buf)) 10); [done|]. intros _.
  rewrite (proj2 (Z.ltb_ge _ _)) by lia. rewrite !lookup_total_app_l by lia. done.
Qed.

Lemma parse_header_app buf more max :
  parse_header buf max ≠ Err Incomplete →
  parse_header (buf ++ more) max = parse_header buf max.
Proof.
  unfold parse_header.
  destruct (Z.ltb_spec (Z.of_nat (length buf)) 2); [done|].
  rewrite (proj2 (Z.ltb_ge (Z.of_nat (length (buf ++ more))) _)) by (rewrite length_app; lia).
  rewrite !lookup_total_app_l by lia.
  destruct (negb _); [done|]. destruct (OpCode_from_u8 _) as [op|]; [|done].
  set (len7 := Z.land (buf !!! 1) 127). intros Hne.
  rewrite parse_len_app; [|by intros He; rewrite He in Hne].
  destruct (parse_len buf len7) as [[p l]|]; [|done].
  destruct (check_control _ _ _); [|done]. do 3 (case_match; [done|]).
  destruct (Z.ltb_spec (Z.of_nat (length buf)) (2 + l + 4 + p)); [done|].
  rewrite (proj2 (Z.ltb_ge _ _)); [done|]. rewrite length_app. lia.
Qed.

Lemma parse_header_total buf max fin op h p :
  parse_header buf max = Ok (fin, op, h, p) →
  (h + p <= Z.of_nat (length buf) ∧ 6 <= h ∧ p <= max)%Z.
Proof.
  unfold parse_header. repeat (case_match; try done).
  intros [= <- <- <- <-]. to_prop. split_and!; [done| |done].
  match goal with H : parse_len _ _ = Ok _ |- _ => revert H end.
  unfold parse_len. repeat case_match; intros [= <- <-]; lia.
Qed.

Lemma parse_app_ok buf more max rest f :
  parse buf max = (rest, Ok f) → parse (buf ++ more) max = (rest ++ more, Ok f).
Proof.
  unfold parse. destruct (parse_header buf max) as [[[[fin op] h] p]|] eqn:Hh; [|done].
  rewrite parse_header_app by (by rewrite Hh). rewrite Hh. intros [= <- <-].
  apply parse_header_total in Hh as [Ht _].
  by rewrite take_app_le, drop_app_le by lia.
Qed.

Lemma parse_app_err buf more max e :
  parse buf max = (buf, Err e) → e ≠ Incomplete →
  parse (buf ++ more) max = (buf ++ more, Err e).
Proof.
  unfold parse. destruct (parse_header buf max) as [[[[fin op] h] p]|] eqn:Hh; [done|].
  intros [= <-] Hne. rewrite parse_header_app; [by rewrite Hh|]. rewrite Hh. congruence.
Qed.

(** ** Big-endian words *)

Lemma from_be_bytes_nonneg bs : Forall is_byte bs → (0 <= from_be_bytes bs)%Z.
Proof.
  intros Hbs. unfold from_be_bytes.
  enough (∀ acc, 0 <= acc → 0 <= foldl (λ acc b, acc * 256 + b) acc bs)%Z as He.
  { apply He. lia. }
  induction Hbs as [|b bs Hb Hbs IH]; intros acc Hacc; simpl; [done|].
  apply IH. unfold is_byte in Hb. lia.
Qed.

Lemma from_be_be_bytes_acc n x acc :
  (0 <= x)%Z →
  foldl (λ acc b, acc * 256 + b)%Z acc (be_bytes n x) =
  (acc * 2 ^ (8 * Z.of_nat n) + x mod 2 ^ (8 * Z.of_nat n))%Z.
Proof.
  intros Hx. revert acc. induction n as [|n IH]; intros acc.
  - simpl. rewrite Z.mod_1_r. lia.
  - simpl be_bytes. simpl foldl. rewrite IH.
    replace (8 * Z.of_nat (S n))%Z with (8 + 8 * Z.of_nat n)%Z by lia.
    rewrite (Z.pow_add_r 2 8) by lia. change (2 ^ 8)%Z with 256%Z.
    set (m := (2 ^ (8 * Z.of_nat n))%Z). assert (0 < m)%Z by (apply Z.pow_pos_nonneg; lia).
    rewrite (Z.mul_comm 256 m), Z.rem_mul_r by lia. lia.
Qed.

Lemma from_be_be_bytes n x :
  (0 <= x < 2 ^ (8 * Z.of_nat n))%Z → from_be_bytes (be_bytes n x) = x.
Proof.
  intros Hx. unfold from_be_bytes. rewrite from_be_be_bytes_acc by lia.
  rewrite Z.mod_small by done. lia.
Qed.

Lemma length_be_bytes n x : length (be_bytes n x) = n.
Proof. induction n; simpl; congruence. Qed.

Lemma be_bytes_is_byte n x : Forall is_byte (be_bytes n x).
Proof. induction n; simpl; constructor; [|done]. unfold is_byte. by apply Z.mod_pos_bound. Qed.

(** ** Progress *)

Lemma Forall_lookup_total_byte (l : list Z) i :
  Forall is_byte l → i < length l → is_byte (l !!! i).
Proof. intros Hl Hi. by apply Forall_lookup_total_1. Qed.

Lemma parse_len_nonneg buf len7 p l :
  Forall is_byte buf → (0 <= len7)%Z → parse_len buf len7 = Ok (p, l) → (0 <= p)%Z.
Proof.
  intros Hb H7. unfold parse_len. repeat case_match; intros [= <- <-]; to_prop; [..|done].
  all: apply from_be_bytes_nonneg;
    repeat (apply Forall_cons; split; [apply Forall_lookup_total_byte; [done|lia]|]);
    apply Forall_nil_2.
Qed.

Lemma parse_header_nonneg buf max fin op h p :
  Forall is_byte buf → parse_header buf max = Ok (fin, op, h, p) → (0 <= p)%Z.
Proof.
  intros Hb. unfold parse_header. repeat (case_match; try done).
  intros [= <- <- <- <-]. eapply parse_len_nonneg; [done| |done].
  apply Z.land_nonneg. lia.
Qed.

(** The committed frame, with its payload in reference form. *)
Lemma parse_ok_inv buf max rest f :
  Forall is_byte buf → parse buf max = (rest, Ok f) →
  ∃ h p, parse_header buf max = Ok (fin f, opcode f, h, p) ∧ (6 <= h ∧ 0 <= p)%Z ∧
    rest = drop (Z.to_nat (h + p)) buf ∧
    payload f = mask_ref (take (Z.to_nat p) (drop (Z.to_nat h) buf))
                  (take 4 (drop (Z.to_nat h - 4) buf)).
Proof.
  intros Hb. unfold parse.
  destruct (parse_header buf max) as [[[[fi op] h] p]|] eqn:Hh; [|done].
  intros [= <- <-]. exists h, p. simpl.
  pose proof (parse_header_total _ _ _ _ _ _ Hh) as (Ht & H6 & _).
  pose proof (parse_header_nonneg _ _ _ _ _ _ Hb Hh) as Hp.
  split_and!; [done..|].
  rewrite !skipn_firstn_comm, firstn_firstn.
  replace (Z.to_nat (h + p) - Z.to_nat h) with (Z.to_nat p) by lia.
  rewrite (Nat.min_l 4) by lia.
  apply unmask_ref; [by apply Forall_take, Forall_drop..|].
  rewrite length_take, length_drop. lia.
Qed.

(** A parsed frame leaves a strictly shorter buffer and respects the budget. *)
Lemma parse_shrinks buf max rest f :
  Forall is_byte buf → parse buf max = (rest, Ok f) →
  length rest < length buf ∧ (Z.of_nat (length (payload f)) <= max)%Z.
Proof.
  intros Hb Hp. destruct (parse_ok_inv _ _ _ _ Hb Hp) as (h & p & Hh & ? & -> & ->).
  pose proof (parse_header_total _ _ _ _ _ _ Hh) as (? & ? & ?).
  rewrite length_mask_ref, length_take, !length_drop. lia.
Qed.

(** ** Round trip *)

(** The 7-bit length and the extended field [encode] chooses. *)
Definition len_form (len : Z) : Z * list Z :=
  if (len <=? 125)%Z then (len, [])
  else if (len <=? 65535)%Z then (126%Z, be_bytes 2 len)
  else (127%Z, be_bytes 8 len).

Lemma encode_eq out fi op p :
  encode out fi op p =
  out ++ Z.lor (if fi then 0x80 else 0) (OpCode_as_u8 op) ::
         (len_form (Z.of_nat (length p))).1 ::
         (len_form (Z.of_nat (length p))).2 ++ p.
Proof. unfold encode, len_form. by repeat case_match. Qed.

Lemma client_encode_eq fi op key p :
  client_encode fi op key p =
  Z.lor (if fi then 0x80 else 0) (OpCode_as_u8 op) ::
  Z.lor (len_form (Z.of_nat (length p))).1 0x80 ::
  (len_form (Z.of_nat (length p))).2 ++ key ++ mask_ref p key.
Proof.
  unfold client_encode. rewrite encode_eq. simpl.
  rewrite length_app, Nat.add_sub, take_app_length. done.
Qed.

Lemma len_form_small len : (0 <= len → 0 <= (len_form len).1 < 128)%Z.
Proof. unfold len_form. repeat case_match; simpl; to_prop; lia. Qed.

Lemma len_form_ext len : length (len_form len).2 ≤ 8.
Proof. unfold len_form. repeat case_match; simpl; lia. Qed.

Lemma land_high_bit x : (0 <= x < 2 ^ 63 → Z.land x 0x8000000000000000 = 0)%Z.
Proof.
  intros Hx. change 0x8000000000000000%Z with (2 ^ 63)%Z.
  apply Z.bits_inj'. intros n Hn. rewrite Z.land_spec, Z.bits_0, Z.pow2_bits_eqb by lia.
  destruct (Z.eqb_spec 63 n) as [<-|]; [|by rewrite andb_false_r].
  rewrite andb_true_r. apply Z.testbit_false; [lia|]. by rewrite Z.div_small.
Qed.

(** [parse_len] reads back the length form. *)
Lemma parse_len_form b0 b1 len tl :
  (0 <= len < 2 ^ 63)%Z →
  parse_len (b0 :: b1 :: (len_form len).2 ++ tl) (len_form len).1 =
  Ok (len, Z.of_nat (length (len_form len).2)).
Proof.
  intros Hlen. unfold len_form.
  destruct (Z.leb_spec len 125); [|destruct (Z.leb_spec len 65535)]; simpl fst; simpl snd.
  - unfold parse_len. rewrite !(proj2 (Z.eqb_neq len _)) by lia. done.
  - unfold parse_len. change (126 =? 126)%Z with true. cbv iota.
    rewrite (proj2 (Z.ltb_ge _ _)) by (simpl; lia). simpl lookup_total.
    do 2 f_equal. apply (from_be_be_bytes 2). simpl. lia.
  - unfold parse_len. change (127 =? 126)%Z with false. change (127 =? 127)%Z with true.
    cbv iota.
    rewrite (proj2 (Z.ltb_ge _ _)) by (simpl; lia). simpl lookup_total.
    pose proof (from_be_be_bytes 8 len ltac:(simpl; lia)) as Hbe. unfold be_bytes in *.
    rewrite Hbe, land_high_bit by done. simpl.
    rewrite (proj2 (Z.ltb_ge _ _)); [done|]. unfold USIZE_MAX. lia.
Qed.

Lemma land_lor_low x : (0 <= x < 128 → Z.land (Z.lor x 0x80) 0x7F = x)%Z.
Proof.
  intros Hx. rewrite Z.land_lor_distr_l. change (Z.land 0x80 0x7F) with 0%Z.
  rewrite Z.lor_0_r. change 0x7F%Z with (Z.ones 7). rewrite Z.land_ones by lia.
  by apply Z.mod_small.
Qed.

Lemma land_lor_high x : (0 <= x < 128 → (Z.land (Z.lor x 0x80) 0x80 =? 0) = false)%Z.
Proof.
  intros Hx. apply Z.eqb_neq. intros Hz. apply (f_equal (λ z, Z.testbit z 7)) in Hz.
  by rewrite Z.land_spec, Z.lor_spec, orb_true_r in Hz.
Qed.

Lemma first_byte (fi : bool) (op : OpCode) :
  let b0 := Z.lor (if fi then 0x80 else 0)%Z (OpCode_as_u8 op) in
  Z.land b0 0x70 = 0%Z ∧ OpCode_from_u8 (Z.land b0 0x0F) = Ok op ∧
  negb (Z.land b0 0x80 =? 0)%Z = fi.
Proof. by destruct fi, op. Qed.

Lemma parse_header_client fi op key p max tl :
  let len := Z.of_nat (length p) in
  (len <= max)%Z → (len < 2 ^ 63)%Z → length key = 4 →
  check_control op fi len = Ok tt →
  parse_header (client_encode fi op key p ++ tl) max =
  Ok (fi, op, 2 + Z.of_nat (length (len_form len).2) + 4, len)%Z.
Proof.
  intros len Hmax H63 Hk Hc. rewrite client_encode_eq. fold len.
  pose proof (len_form_small len ltac:(lia)) as Hs.
  destruct (first_byte fi op) as (Hb1 & Hb2 & Hb3). unfold parse_header. simpl app.
  rewrite (proj2 (Z.ltb_ge _ 2)) by (simpl; lia).
  simpl lookup_total.
  rewrite Hb1, Hb2, Hb3, land_lor_low, land_lor_high by done. simpl negb. cbv iota.
  rewrite <-!app_assoc, parse_len_form by lia. rewrite Hc.
  rewrite !(proj2 (Z.ltb_ge _ _)); [done|..].
  all: pose proof (len_form_ext len); unfold USIZE_MAX; simpl;
    rewrite ?length_app, ?length_mask_ref; lia.
Qed.

(** The three slices [parse] cuts. *)
Lemma frame_slices (b0 b1 : Z) (ext key m tl : list Z) :
  length key = 4 →
  let buf := (b0 :: b1 :: ext ++ key ++ m) ++ tl in
  let h := 2 + length ext + 4 in
  let fb := take (h + length m) buf in
  drop (h + length m) buf = tl ∧ drop h fb = m ∧ take 4 (drop (h - 4) fb) = key.
Proof.
  intros Hk buf h fb.
  assert (fb = b0 :: b1 :: ext ++ key ++ m) as ->.
  { subst fb buf. apply take_app_length'. subst h. simpl. rewrite !length_app. lia. }
  split_and!.
  - apply drop_app_length'. subst h. simpl. rewrite !length_app. lia.
  - subst h. replace (2 + length ext + 4) with (S (S (length (ext ++ key))))
      by (rewrite length_app; lia).
    simpl. rewrite app_assoc. apply drop_app_length.
  - subst h. replace (2 + length ext + 4 - 4) with (S (S (length ext))) by lia. simpl.
    rewrite drop_app_length. by apply take_app_length'.
Qed.

(** The server reads back what a client framed, and leaves what follows. *)
Lemma parse_client_encode fi op key p max tl :
  let len := Z.of_nat (length p) in
  Forall is_byte p → Forall is_byte key → length key = 4 →
  (len <= max)%Z → (len < 2 ^ 63)%Z → check_control op fi len = Ok tt →
  parse (client_encode fi op key p ++ tl) max = (tl, Ok (mkFrame fi op p)).
Proof.
  intros len Hp Hkb Hk Hmax H63 Hc. unfold parse.
  rewrite parse_header_client by done. fold len.
  rewrite client_encode_eq. fold len. set (ext := (len_form len).2).
  replace (Z.to_nat (2 + Z.of_nat (length ext) + 4 + len))
    with (2 + length ext + 4 + length (mask_ref p key)) by (rewrite length_mask_ref; lia).
  replace (Z.to_nat (2 + Z.of_nat (length ext) + 4)) with (2 + length ext + 4) by lia.
  match goal with |- context [?b0 :: ?b1 :: ext ++ _] =>
    destruct (frame_slices b0 b1 ext key (mask_ref p key) tl Hk) as (H1 & H2 & H3) end.
  rewrite H1, H2, H3.
  by rewrite unmask_ref, mask_ref_involutive by auto using mask_ref_bytes.
Qed.

(** ** Properties *)

(** The word-at-a-time [unmask] is the bytewise exclusive or of RFC 6455:
    byte [i] of the payload against byte [i mod 4] of the key, at every
    payload length. *)
Theorem unmask_is_bytewise_xor (data key : list Z) :
  Forall is_byte data → Forall is_byte key → length key = 4 →
  unmask data key = imap (λ i b, Z.lxor b (key !!! (i mod 4))) data.
Proof. apply unmask_ref. Qed.

(** Every frame a client can legally send (any opcode and FIN, any key,
    any payload within the budget, control frames whole and at most 125 bytes)
    is parsed back exactly, whichever length form it needs, and the bytes
    after it stay in the buffer. *)
Theorem parse_client_roundtrip (fi : bool) (op : OpCode) (key p tl : list Z) (max : Z) :
  Forall is_byte p → Forall is_byte key → length key = 4 →
  (Z.of_nat (length p) <= max)%Z → (Z.of_nat (length p) < 2 ^ 63)%Z →
  (is_control op = true → fi = true ∧ length p ≤ 125) →
  parse (client_encode fi op key p ++ tl) max = (tl, Ok (mkFrame fi op p)).
Proof.
  intros Hp Hkb Hk Hmax H63 Hc. apply parse_client_encode; try done.
  unfold check_control. destruct (is_control op); [|done].
  destruct (Hc eq_refl) as [-> Hlen]. simpl. rewrite (proj2 (Z.ltb_ge _ _)) by lia. done.
Qed.

(** Parsing is independent of how the bytes arrive: a parsed frame and a
    fatal error do not change when more bytes follow, an error leaves the
    buffer as it was, and a parsed frame strictly shortens the buffer and
    respects the payload budget, so a caller's parse loop terminates. *)
Theorem parse_stream_stable (buf more buf' : list Z) (max : Z) (r : result Frame ParseError) :
  Forall is_byte buf → parse buf max = (buf', r) →
  match r with
  | Ok f => parse (buf ++ more) max = (buf' ++ more, Ok f) ∧
            length buf' < length buf ∧ (Z.of_nat (length (payload f)) <= max)%Z
  | Err e => buf' = buf ∧
             (e ≠ Incomplete → parse (buf ++ more) max = (buf ++ more, Err e))
  end.
Proof.
  intros Hb Hp. destruct r as [f|e].
  - split; [by apply parse_app_ok|]. by apply parse_shrinks.
  - assert (buf' = buf) as ->.
    { revert Hp. unfold parse. repeat case_match; congruence. }
    split; [done|]. by apply parse_app_err.
Qed.

(** A server frame is the payload behind a header of bytes with the mask
    bit clear, in the shortest of the three length forms (2, 4 or 10 bytes). *)
Theorem encode_header_minimal (out p : list Z) (fi : bool) (op : OpCode) :
  (Z.of_nat (length p) < 2 ^ 63)%Z →
  ∃ b0 b1 ext, encode out fi op p = out ++ (b0 :: b1 :: ext) ++ p ∧
    Forall is_byte (b0 :: b1 :: ext) ∧ (b1 < 128)%Z ∧
    length (b0 :: b1 :: ext) =
      (if (Z.of_nat (length p) <=? 125)%Z then 2
       else if (Z.of_nat (length p) <=? 65535)%Z then 4 else 10).
Proof.
  intros H63. rewrite encode_eq. eexists _, _, _. split; [reflexivity|].
  pose proof (len_form_small (Z.of_nat (length p)) ltac:(lia)) as Hs.
  split; [|split].
  - repeat apply Forall_cons_2.
    + destruct fi, op; vm_compute; split; congruence.
    + unfold is_byte. lia.
    + unfold len_form. repeat case_match; [apply Forall_nil_2|apply be_bytes_is_byte..].
  - lia.
  - unfold len_form. by repeat case_match.
Qed.

(** ** Concrete inputs *)

Lemma unmask_is_bytewise_xor_witness :
  unmask [1; 2; 3; 4; 5; 6; 7; 8; 9]%Z [17; 34; 51; 68]%Z =
  imap (λ i b, Z.lxor b ([17; 34; 51; 68]%Z !!! (i mod 4))) [1; 2; 3; 4; 5; 6; 7; 8; 9]%Z.
Proof.
  apply unmask_is_bytewise_xor; [..|reflexivity];
    repeat constructor; vm_compute; congruence.
Defined.

Lemma parse_client_roundtrip_witness :
  parse (client_encode true OpPing [1; 2; 3; 4]%Z [104; 105]%Z ++ [129]%Z) 1024 =
  ([129]%Z, Ok (mkFrame true OpPing [104; 105]%Z)).
Proof.
  apply parse_client_roundtrip; try (simpl; lia);
    repeat constructor; vm_compute; congruence.
Defined.

Lemma parse_stream_stable_witness :
  let buf := client_encode true OpText [1; 2; 3; 4]%Z [104; 105]%Z in
  parse (buf ++ [1; 2]%Z) 16 = ([] ++ [1; 2]%Z, Ok (mkFrame true OpText [104; 105]%Z)).
Proof.
  intros buf.
  apply (parse_stream_stable buf [1; 2]%Z [] 16 (Ok (mkFrame true OpText [104; 105]%Z))).
  - repeat constructor; vm_compute; congruence.
  - vm_compute. reflexivity.
Defined.

Lemma encode_header_minimal_witness :
  ∃ b0 b1 ext, encode [] true OpText [104; 105]%Z = [] ++ (b0 :: b1 :: ext) ++ [104; 105]%Z ∧
    Forall is_byte (b0 :: b1 :: ext) ∧ (b1 < 128)%Z ∧ length (b0 :: b1 :: ext) = 2.
Proof. apply (encode_header_minimal [] [104; 105]%Z true OpText). simpl. lia. Defined.
