(* ===== verification/Timer.v ===== *)
(** * The per-worker timer wheel: [src/src/transport/timer.rs]

    Deadlines are absolute milliseconds ([u64]). The wheel keeps three side
    tables (liveness, lifetime, handshake) and a timeline of buckets that
    indexes them. The reference is one map of armed deadlines, each pending
    until it fires; every operation of the wheel refines its counterpart. *)

From S2P Require Import Prelude RustStd.

#[local] Open Scope Z_scope.

Abbreviation ConnId := nat.

(** ** The wheel *)

Inductive Due : Type :=
| DuePing (c : ConnId)
| Close4201 (c : ConnId)
| Close4202 (c : ConnId)
| HandshakeTimeout (c : ConnId).

Inductive TimerKind : Type := KIdle | KPong | KLifetime | KHandshake.

#[export] Instance TimerKind_eq_dec : EqDecision TimerKind.
Proof. solve_decision. Defined.
#[export] Instance Due_eq_dec : EqDecision Due.
Proof. solve_decision. Defined.

Record Timer : Type := mkTimer { t_deadline_ms : Z; t_kind : TimerKind }.

#[export] Instance Timer_eq_dec : EqDecision Timer.
Proof. solve_decision. Defined.

(** A timeline bucket member. *)
Abbreviation Slot := (ConnId * TimerKind)%type.

Record TimerWheel : Type := mkTimerWheel {
  activity_timeout_ms : Z;
  pong_timeout_ms : Z;
  timeline : gmap Z (list Slot);
  live : gmap ConnId Timer;
  lifetime : gmap ConnId Z;
  handshake : gmap ConnId Z
}.

Definition with_timeouts (activity_timeout_secs pong_timeout_secs : Z) : TimerWheel :=
  mkTimerWheel (activity_timeout_secs * 1000) (pong_timeout_secs * 1000) ∅ ∅ ∅ ∅.

Definition set_timeline (tl : gmap Z (list Slot)) (w : TimerWheel) : TimerWheel :=
  mkTimerWheel (activity_timeout_ms w) (pong_timeout_ms w) tl (live w) (lifetime w) (handshake w).
Definition set_live (m : gmap ConnId Timer) (w : TimerWheel) : TimerWheel :=
  mkTimerWheel (activity_timeout_ms w) (pong_timeout_ms w) (timeline w) m (lifetime w)
    (handshake w).
Definition set_lifetime (m : gmap ConnId Z) (w : TimerWheel) : TimerWheel :=
  mkTimerWheel (activity_timeout_ms w) (pong_timeout_ms w) (timeline w) (live w) m (handshake w).
Definition set_handshake (m : gmap ConnId Z) (w : TimerWheel) : TimerWheel :=
  mkTimerWheel (activity_timeout_ms w) (pong_timeout_ms w) (timeline w) (live w) (lifetime w) m.

(** The timeline half of [scrub] and of a push. *)
Definition scrub_timeline (conn : ConnId) (deadline_ms : Z) (kind : TimerKind)
    (tl : gmap Z (list Slot)) : gmap Z (list Slot) :=
  match tl !! deadline_ms with
  | None => tl
  | Some bucket =>
      let bucket := filter (λ s, ¬ (s.1 = conn ∧ s.2 = kind)) bucket in
      if decide (bucket = []) then delete deadline_ms tl else <[deadline_ms := bucket]> tl
  end.

Definition push_slot (deadline_ms : Z) (s : Slot) (tl : gmap Z (list Slot))
    : gmap Z (list Slot) :=
  <[deadline_ms := default [] (tl !! deadline_ms) ++ [s]]> tl.

Definition scrub (conn : ConnId) (deadline_ms : Z) (kind : TimerKind) (w : TimerWheel)
    : TimerWheel :=
  set_timeline (scrub_timeline conn deadline_ms kind (timeline w)) w.

Definition schedule (conn : ConnId) (deadline_ms : Z) (kind : TimerKind) (w : TimerWheel)
    : TimerWheel :=
  let w := match live w !! conn with
           | Some old => scrub conn (t_deadline_ms old) (t_kind old) w
           | None => w
           end in
  let w := set_live (<[conn := mkTimer deadline_ms kind]> (live w)) w in
  set_timeline (push_slot deadline_ms (conn, kind) (timeline w)) w.

Definition touch (conn : ConnId) (now_ms : Z) (w : TimerWheel) : TimerWheel :=
  schedule conn (U64.saturating_add now_ms (activity_timeout_ms w)) KIdle w.

Definition mark_ping_sent (conn : ConnId) (now_ms : Z) (w : TimerWheel) : TimerWheel :=
  schedule conn (U64.saturating_add now_ms (pong_timeout_ms w)) KPong w.

Definition arm_lifetime (conn : ConnId) (deadline_ms : Z) (w : TimerWheel) : TimerWheel :=
  let old := lifetime w !! conn in
  let w := set_lifetime (<[conn := deadline_ms]> (lifetime w)) w in
  let w := match old with Some old => scrub conn old KLifetime w | None => w end in
  set_timeline (push_slot deadline_ms (conn, KLifetime) (timeline w)) w.

Definition arm_handshake (conn : ConnId) (deadline_ms : Z) (w : TimerWheel) : TimerWheel :=
  let old := handshake w !! conn in
  let w := set_handshake (<[conn := deadline_ms]> (handshake w)) w in
  let w := match old with Some old => scrub conn old KHandshake w | None => w end in
  set_timeline (push_slot deadline_ms (conn, KHandshake) (timeline w)) w.

Definition clear_handshake (conn : ConnId) (w : TimerWheel) : TimerWheel :=
  match handshake w !! conn with
  | Some d => scrub conn d KHandshake (set_handshake (delete conn (handshake w)) w)
  | None => w
  end.

Definition clear_liveness (conn : ConnId) (w : TimerWheel) : TimerWheel :=
  match live w !! conn with
  | Some t => scrub conn (t_deadline_ms t) (t_kind t) (set_live (delete conn (live w)) w)
  | None => w
  end.

Definition clear_lifetime (conn : ConnId) (w : TimerWheel) : TimerWheel :=
  match lifetime w !! conn with
  | Some d => scrub conn d KLifetime (set_lifetime (delete conn (lifetime w)) w)
  | None => w
  end.

Definition remove (conn : ConnId) (w : TimerWheel) : TimerWheel :=
  clear_handshake conn (clear_lifetime conn (clear_liveness conn w)).

(** The validation of one popped entry against its side table. *)
Definition honour (w : TimerWheel) (deadline_ms : Z) (s : Slot) : option Due :=
  match s.2 with
  | KIdle | KPong =>
      t ← live w !! s.1;
      if decide (t_deadline_ms t = deadline_ms ∧ t_kind t = s.2)
      then Some (if decide (s.2 = KIdle) then DuePing s.1 else Close4201 s.1)
      else None
  | KLifetime =>
      if decide (lifetime w !! s.1 = Some deadline_ms) then Some (Close4202 s.1) else None
  | KHandshake =>
      if decide (handshake w !! s.1 = Some deadline_ms)
      then Some (HandshakeTimeout s.1) else None
  end.

(** The buckets in ascending deadline order. *)
Definition deadline_le (p q : Z * list Slot) : Prop := p.1 <= q.1.
#[export] Instance deadline_le_dec p q : Decision (deadline_le p q) :=
  decide (p.1 <= q.1).

Definition due (now_ms : Z) (w : TimerWheel) : TimerWheel * list Due :=
  let bound := (now_ms + 1) mod 2 ^ 64 in
  let expired := filter (λ p, p.1 < bound) (timeline w) in
  let w := set_timeline (filter (λ p, bound <= p.1) (timeline w)) w in
  (w, p ← merge_sort deadline_le (map_to_list expired); omap (honour w p.1) p.2).

(** ** The reference: armed deadlines *)

Inductive Class_ : Type := CLive | CLifetime | CHandshake.

#[export] Instance Class_eq_dec : EqDecision Class_.
Proof. solve_decision. Defined.
#[export] Instance Class_countable : Countable Class_.
Proof.
  refine (inj_countable' (λ c, match c with CLive => 0 | CLifetime => 1 | CHandshake => 2 end)%nat
    (λ n, match n with 0 => CLive | 1 => CLifetime | _ => CHandshake end)%nat _).
  by intros [].
Defined.

Definition class_of (k : TimerKind) : Class_ :=
  match k with KIdle | KPong => CLive | KLifetime => CLifetime | KHandshake => CHandshake end.

Record Armed : Type := mkArmed { a_deadline : Z; a_kind : TimerKind; a_pending : bool }.

Abbreviation AWheel := (gmap (ConnId * Class_) Armed).

Definition due_of (s : Slot) : Due :=
  match s.2 with
  | KIdle => DuePing s.1 | KPong => Close4201 s.1
  | KLifetime => Close4202 s.1 | KHandshake => HandshakeTimeout s.1
  end.

Definition arm (c : ConnId) (d : Z) (k : TimerKind) (a : AWheel) : AWheel :=
  <[(c, class_of k) := mkArmed d k true]> a.

Definition disarm (c : ConnId) (cl : Class_) (a : AWheel) : AWheel := delete (c, cl) a.

(** What has come due stays armed but no longer pending. *)
Definition expire (now : Z) (e : Armed) : Armed :=
  mkArmed (a_deadline e) (a_kind e) (a_pending e && (now <? a_deadline e)).

Definition expire_all (now : Z) (a : AWheel) : AWheel := expire now <$> a.

(** ** Refinement relation *)

Definition slot_in (tl : gmap Z (list Slot)) (d : Z) (s : Slot) : Prop :=
  ∃ b, tl !! d = Some b ∧ s ∈ b.

(** The timeline holds exactly the pending deadlines, once each, in no empty bucket. *)
Record timeline_ok (a : AWheel) (tl : gmap Z (list Slot)) : Prop := {
  tl_slots d c k : slot_in tl d (c, k) ↔ a !! (c, class_of k) = Some (mkArmed d k true);
  tl_buckets d b : tl !! d = Some b → b ≠ [] ∧ NoDup b
}.

Record wrefines (a : AWheel) (w : TimerWheel) : Prop := {
  w_live c : live w !! c = (λ e, mkTimer (a_deadline e) (a_kind e)) <$> a !! (c, CLive);
  w_lifetime c : lifetime w !! c = a_deadline <$> a !! (c, CLifetime);
  w_handshake c : handshake w !! c = a_deadline <$> a !! (c, CHandshake);
  w_kinds c cl e : a !! (c, cl) = Some e → class_of (a_kind e) = cl;
  w_timeline : timeline_ok a (timeline w)
}.

(** ** Timeline lemmas *)

Lemma slot_in_insert tl d b d' s :
  slot_in (<[d := b]> tl) d' s ↔ (d' = d ∧ s ∈ b) ∨ (d' ≠ d ∧ slot_in tl d' s).
Proof.
  unfold slot_in. setoid_rewrite lookup_insert_Some. naive_solver.
Qed.

Lemma slot_in_delete tl d d' s :
  slot_in (delete d tl) d' s ↔ d' ≠ d ∧ slot_in tl d' s.
Proof. unfold slot_in. setoid_rewrite lookup_delete_Some. naive_solver. Qed.

Lemma slot_in_push tl d s d' s' :
  slot_in (push_slot d s tl) d' s' ↔ slot_in tl d' s' ∨ (d' = d ∧ s' = s).
Proof.
  unfold push_slot. rewrite slot_in_insert, elem_of_app, list_elem_of_singleton.
  destruct (decide (d' = d)) as [->|Hne]; [|tauto].
  unfold slot_in. destruct (tl !! d) as [b|]; simpl.
  - split; [|naive_solver]. intros [[_ [?|?]]|[? _]]; eauto; done.
  - rewrite elem_of_nil. naive_solver.
Qed.

Lemma slot_in_scrub tl c d k d' s :
  slot_in (scrub_timeline c d k tl) d' s ↔ slot_in tl d' s ∧ ¬ (d' = d ∧ s = (c, k)).
Proof.
  unfold scrub_timeline. destruct (tl !! d) as [b|] eqn:Hd.
  2:{ split; [|tauto]. intros Hs. split; [done|]. intros [-> _].
      destruct Hs as (b & Hb & _). congruence. }
  set (b' := filter _ b).
  assert (s ∈ b' ↔ s ∈ b ∧ s ≠ (c, k)) as Hb'.
  { subst b'. rewrite list_elem_of_filter. destruct s; simpl. split; [|naive_solver].
    intros [Hn ?]. split; [done|]. intros [= -> ->]. tauto. }
  assert (d' = d → slot_in tl d' s ↔ s ∈ b) as Hin.
  { intros ->. unfold slot_in. rewrite Hd. naive_solver. }
  destruct (decide (b' = [])) as [He|_].
  - rewrite slot_in_delete. rewrite He, elem_of_nil in Hb'.
    destruct (decide (d' = d)); [rewrite Hin by done|]; tauto.
  - rewrite slot_in_insert. destruct (decide (d' = d)); [rewrite Hin by done|]; tauto.
Qed.

Lemma scrub_buckets tl c d k :
  (∀ d b, tl !! d = Some b → b ≠ [] ∧ NoDup b) →
  ∀ d' b, scrub_timeline c d k tl !! d' = Some b → b ≠ [] ∧ NoDup b.
Proof.
  intros Hok d' b. unfold scrub_timeline. destruct (tl !! d) as [b0|] eqn:Hd; [|apply Hok].
  destruct (decide _) as [|Hne].
  - rewrite lookup_delete_Some. intros [_ ?]. by apply (Hok d').
  - rewrite lookup_insert_Some. intros [[<- <-]|[_ ?]]; [|by apply (Hok d')].
    split; [done|]. by apply NoDup_filter, (Hok d).
Qed.

Lemma push_buckets tl d s :
  (∀ d b, tl !! d = Some b → b ≠ [] ∧ NoDup b) → ¬ slot_in tl d s →
  ∀ d' b, push_slot d s tl !! d' = Some b → b ≠ [] ∧ NoDup b.
Proof.
  intros Hok Hs d' b. unfold push_slot. rewrite lookup_insert_Some.
  intros [[<- <-]|[_ ?]]; [|by apply (Hok d')]. split; [by destruct (default _ _)|].
  destruct (tl !! d) as [b|] eqn:Hd; simpl; [|apply NoDup_singleton].
  apply NoDup_app. split_and!; [by apply (Hok d)| |apply NoDup_singleton].
  intros x Hx. rewrite list_elem_of_singleton. intros ->. apply Hs. by exists b.
Qed.

(** The slot of the armed entry, if any, goes. *)
Definition scrub_old (c : ConnId) (old : option Armed) (tl : gmap Z (list Slot))
    : gmap Z (list Slot) :=
  match old with Some e => scrub_timeline c (a_deadline e) (a_kind e) tl | None => tl end.

Lemma scrub_old_ok a tl c cl :
  (∀ e, a !! (c, cl) = Some e → class_of (a_kind e) = cl) →
  timeline_ok a tl → timeline_ok (disarm c cl a) (scrub_old c (a !! (c, cl)) tl).
Proof.
  intros Hcl [Hs Hb]. unfold disarm. split.
  - intros d c' k. destruct (a !! (c, cl)) as [e|] eqn:He; simpl.
    + specialize (Hcl e eq_refl). rewrite slot_in_scrub, Hs, lookup_delete_Some.
      split.
      * intros [Ha Hne]. split; [|done]. intros [= -> ->]. apply Hne.
        rewrite He in Ha. by simplify_eq.
      * intros [Hne Ha]. split; [done|]. intros [-> [= -> ->]]. by rewrite Hcl in Hne.
    + rewrite Hs, delete_id by done. done.
  - destruct (a !! (c, cl)); simpl; [by apply scrub_buckets|done].
Qed.

Lemma push_ok a tl c d k :
  a !! (c, class_of k) = None → timeline_ok a tl →
  timeline_ok (arm c d k a) (push_slot d (c, k) tl).
Proof.
  intros Ha [Hs Hb]. unfold arm. split.
  - intros d' c' k'. rewrite slot_in_push, Hs, lookup_insert_Some. split.
    + intros [Ha'|[-> [= -> ->]]]; [right|by left].
      split; [|done]. intros [= <- Hk]. rewrite <-Hk, Ha in Ha'. done.
    + intros [[[= <- Hk] [= -> ->]]|[_ ?]]; [by right|by left].
  - apply push_buckets; [done|]. rewrite Hs, Ha. done.
Qed.

Lemma rearm_ok a tl c d k :
  (∀ e, a !! (c, class_of k) = Some e → class_of (a_kind e) = class_of k) →
  timeline_ok a tl →
  timeline_ok (arm c d k a) (push_slot d (c, k) (scrub_old c (a !! (c, class_of k)) tl)).
Proof.
  intros Hcl Hok. apply (scrub_old_ok a tl c (class_of k) Hcl) in Hok.
  unfold arm. rewrite <-insert_delete_eq. apply push_ok; [|done].
  apply lookup_delete_eq.
Qed.

(** ** The operations refine their counterparts *)

Lemma wrefines_empty act pong : wrefines ∅ (with_timeouts act pong).
Proof.
  split; simpl; try done. split; [|done]. intros d c k. split; [|done].
  by intros (b & Hb & _).
Qed.

Lemma kinds_arm a c d k :
  (∀ c cl e, a !! (c, cl) = Some e → class_of (a_kind e) = cl) →
  ∀ c' cl e, arm c d k a !! (c', cl) = Some e → class_of (a_kind e) = cl.
Proof.
  intros Hk c' cl e. unfold arm. rewrite lookup_insert_Some.
  intros [[[= <- <-] <-]|[_ ?]]; [done|]. by eapply Hk.
Qed.

Lemma kinds_disarm a c cl0 :
  (∀ c cl e, a !! (c, cl) = Some e → class_of (a_kind e) = cl) →
  ∀ c' cl e, disarm c cl0 a !! (c', cl) = Some e → class_of (a_kind e) = cl.
Proof. intros Hk c' cl e. unfold disarm. rewrite lookup_delete_Some. intros [_ ?]. eauto. Qed.

Lemma schedule_refines a w c d k :
  class_of k = CLive → wrefines a w → wrefines (arm c d k a) (schedule c d k w).
Proof.
  intros Hk [Hl Hlt Hh Hkinds Htl].
  assert (timeline (schedule c d k w) =
          push_slot d (c, k) (scrub_old c (a !! (c, CLive)) (timeline w))) as Ht.
  { unfold schedule. rewrite Hl. by destruct (a !! (c, CLive)). }
  assert (live (schedule c d k w) = <[c := mkTimer d k]> (live w)) as Hlive
    by (unfold schedule; by case_match).
  assert (lifetime (schedule c d k w) = lifetime w) as Hlt' by (unfold schedule; by case_match).
  assert (handshake (schedule c d k w) = handshake w) as Hh' by (unfold schedule; by case_match).
  split.
  - intros c'. rewrite Hlive. unfold arm. rewrite Hk.
    destruct (decide (c = c')) as [->|]; [by rewrite !lookup_insert_eq|].
    rewrite !lookup_insert_ne by congruence. apply Hl.
  - intros c'. unfold arm. rewrite Hk, Hlt', lookup_insert_ne by congruence. apply Hlt.
  - intros c'. unfold arm. rewrite Hk, Hh', lookup_insert_ne by congruence. apply Hh.
  - by apply kinds_arm.
  - rewrite Ht, <-Hk. apply rearm_ok; [|done]. rewrite Hk. intros e. apply Hkinds.
Qed.

Lemma old_lifetime (a : AWheel) (c : ConnId) :
  (∀ c cl e, a !! (c, cl) = Some e → class_of (a_kind e) = cl) →
  ∀ e, a !! (c, CLifetime) = Some e → a_kind e = KLifetime.
Proof. intros Hk e He. apply Hk in He. by destruct (a_kind e). Qed.

Lemma old_handshake (a : AWheel) (c : ConnId) :
  (∀ c cl e, a !! (c, cl) = Some e → class_of (a_kind e) = cl) →
  ∀ e, a !! (c, CHandshake) = Some e → a_kind e = KHandshake.
Proof. intros Hk e He. apply Hk in He. by destruct (a_kind e). Qed.

Lemma arm_lifetime_refines a w c d :
  wrefines a w → wrefines (arm c d KLifetime a) (arm_lifetime c d w).
Proof.
  intros [Hl Hlt Hh Hkinds Htl]. pose proof (old_lifetime a c Hkinds) as Hold.
  assert (timeline (arm_lifetime c d w) =
          push_slot d (c, KLifetime) (scrub_old c (a !! (c, CLifetime)) (timeline w))) as Ht.
  { unfold arm_lifetime. rewrite Hlt. destruct (a !! (c, CLifetime)) as [e|]; [|done].
    simpl. by rewrite Hold. }
  unfold arm_lifetime in *. split.
  - intros c'. unfold arm. simpl. rewrite lookup_insert_ne by done.
    by destruct (lifetime w !! c); apply Hl.
  - intros c'. unfold arm. simpl class_of. destruct (decide (c = c')) as [->|].
    + rewrite lookup_insert_eq. destruct (lifetime w !! c'); apply lookup_insert_eq.
    + rewrite lookup_insert_ne by congruence. rewrite <-Hlt.
      by destruct (lifetime w !! c); apply lookup_insert_ne.
  - intros c'. unfold arm. simpl. rewrite lookup_insert_ne by done.
    by destruct (lifetime w !! c); apply Hh.
  - by apply kinds_arm.
  - rewrite Ht. apply (rearm_ok a); [|done]. intros e He. by rewrite (Hold e He).
Qed.

Lemma arm_handshake_refines a w c d :
  wrefines a w → wrefines (arm c d KHandshake a) (arm_handshake c d w).
Proof.
  intros [Hl Hlt Hh Hkinds Htl]. pose proof (old_handshake a c Hkinds) as Hold.
  assert (timeline (arm_handshake c d w) =
          push_slot d (c, KHandshake) (scrub_old c (a !! (c, CHandshake)) (timeline w))) as Ht.
  { unfold arm_handshake. rewrite Hh. destruct (a !! (c, CHandshake)) as [e|]; [|done].
    simpl. by rewrite Hold. }
  unfold arm_handshake in *. split.
  - intros c'. unfold arm. simpl. rewrite lookup_insert_ne by done.
    by destruct (handshake w !! c); apply Hl.
  - intros c'. unfold arm. simpl. rewrite lookup_insert_ne by done.
    by destruct (handshake w !! c); apply Hlt.
  - intros c'. unfold arm. simpl class_of. destruct (decide (c = c')) as [->|].
    + rewrite lookup_insert_eq. destruct (handshake w !! c'); apply lookup_insert_eq.
    + rewrite lookup_insert_ne by congruence. rewrite <-Hh.
      by destruct (handshake w !! c); apply lookup_insert_ne.
  - by apply kinds_arm.
  - rewrite Ht. apply (rearm_ok a); [|done]. intros e He. by rewrite (Hold e He).
Qed.

(** Disarming one class, stated on the fields the three clears touch. *)
Lemma disarm_refines a w w' c cl :
  wrefines a w →
  timeline w' = scrub_old c (a !! (c, cl)) (timeline w) →
  (∀ c', live w' !! c' =
     if decide ((c, cl) = (c', CLive)) then None else live w !! c') →
  (∀ c', lifetime w' !! c' =
     if decide ((c, cl) = (c', CLifetime)) then None else lifetime w !! c') →
  (∀ c', handshake w' !! c' =
     if decide ((c, cl) = (c', CHandshake)) then None else handshake w !! c') →
  wrefines (disarm c cl a) w'.
Proof.
  intros [Hl Hlt Hh Hkinds Htl] Ht El Elt Eh. unfold disarm. split.
  - intros c'. rewrite El. case_decide as Hd; [by rewrite Hd, lookup_delete_eq|].
    rewrite lookup_delete_ne by done. apply Hl.
  - intros c'. rewrite Elt. case_decide as Hd; [by rewrite Hd, lookup_delete_eq|].
    rewrite lookup_delete_ne by done. apply Hlt.
  - intros c'. rewrite Eh. case_decide as Hd; [by rewrite Hd, lookup_delete_eq|].
    rewrite lookup_delete_ne by done. apply Hh.
  - by apply kinds_disarm.
  - rewrite Ht. apply scrub_old_ok; [|done]. intros e. apply Hkinds.
Qed.

Lemma lookup_delete_decide {A} (m : gmap nat A) (c c' : nat) (cl : Class_) :
  delete c m !! c' = if decide ((c, cl) = (c', cl)) then None else m !! c'.
Proof.
  case_decide as Hd; simplify_eq; [apply lookup_delete_eq|].
  apply lookup_delete_ne. congruence.
Qed.

Ltac cleared_field :=
  first [ apply lookup_delete_decide
        | rewrite decide_False by congruence; done
        | case_decide; [simplify_eq|done] ].

Lemma clear_liveness_refines a w c :
  wrefines a w → wrefines (disarm c CLive a) (clear_liveness c w).
Proof.
  intros Hw. unfold clear_liveness. rewrite (w_live _ _ Hw). apply (disarm_refines a w); [done|..].
  { by destruct (a !! _). }
  all: intros c'; destruct (a !! (c, CLive)) as [e|] eqn:He; simpl; cleared_field.
  by rewrite (w_live _ _ Hw), He.
Qed.

Lemma clear_lifetime_refines a w c :
  wrefines a w → wrefines (disarm c CLifetime a) (clear_lifetime c w).
Proof.
  intros Hw. unfold clear_lifetime. rewrite (w_lifetime _ _ Hw). apply (disarm_refines a w); [done|..].
  { destruct (a !! (c, CLifetime)) as [e|] eqn:He; [|done]. simpl.
    by rewrite (old_lifetime a c (w_kinds _ _ Hw) e He). }
  all: intros c'; destruct (a !! (c, CLifetime)) as [e|] eqn:He; simpl; cleared_field.
  by rewrite (w_lifetime _ _ Hw), He.
Qed.

Lemma clear_handshake_refines a w c :
  wrefines a w → wrefines (disarm c CHandshake a) (clear_handshake c w).
Proof.
  intros Hw. unfold clear_handshake. rewrite (w_handshake _ _ Hw). apply (disarm_refines a w); [done|..].
  { destruct (a !! (c, CHandshake)) as [e|] eqn:He; [|done]. simpl.
    by rewrite (old_handshake a c (w_kinds _ _ Hw) e He). }
  all: intros c'; destruct (a !! (c, CHandshake)) as [e|] eqn:He; simpl; cleared_field.
  by rewrite (w_handshake _ _ Hw), He.
Qed.

Definition disarm_all (c : ConnId) (a : AWheel) : AWheel :=
  disarm c CHandshake (disarm c CLifetime (disarm c CLive a)).

Lemma remove_wheel_refines a w c : wrefines a w → wrefines (disarm_all c a) (remove c w).
Proof.
  intros Hw. by apply clear_handshake_refines, clear_lifetime_refines, clear_liveness_refines.
Qed.

(** ** [due] *)

(** Under the invariant every popped entry validates. *)
Lemma honour_pending a w d c k :
  wrefines a w → a !! (c, class_of k) = Some (mkArmed d k true) →
  honour w d (c, k) = Some (due_of (c, k)).
Proof.
  intros Hw Ha. unfold honour, due_of. destruct k; simpl in *.
  - by rewrite (w_live _ _ Hw), Ha; simpl; rewrite !decide_True.
  - by rewrite (w_live _ _ Hw), Ha; simpl; rewrite decide_True.
  - by rewrite (w_lifetime _ _ Hw), Ha; simpl; rewrite decide_True.
  - by rewrite (w_handshake _ _ Hw), Ha; simpl; rewrite decide_True.
Qed.

Lemma expire_refines a w now tl :
  wrefines a w →
  timeline_ok (expire_all now a) tl →
  wrefines (expire_all now a) (set_timeline tl w).
Proof.
  intros [Hl Hlt Hh Hkinds _] Htl. unfold expire_all in *. split; simpl.
  - intros c. rewrite Hl, lookup_fmap. by destruct (a !! _).
  - intros c. rewrite Hlt, lookup_fmap. by destruct (a !! _).
  - intros c. rewrite Hh, lookup_fmap. by destruct (a !! _).
  - intros c cl e. rewrite lookup_fmap. destruct (a !! _) as [e'|] eqn:He; [|done].
    intros [= <-]. simpl. by eapply Hkinds.
  - done.
Qed.

Lemma expire_pending a now c k d :
  expire_all now a !! (c, class_of k) = Some (mkArmed d k true) ↔
  a !! (c, class_of k) = Some (mkArmed d k true) ∧ now < d.
Proof.
  unfold expire_all. rewrite lookup_fmap. destruct (a !! _) as [[d' k' p']|]; simpl.
  - unfold expire. simpl. split.
    + intros [= -> -> Hp]. to_prop. by subst.
    + intros [[= -> -> ->] Hd]. rewrite (proj2 (Z.ltb_lt _ _)); done.
  - naive_solver.
Qed.

Lemma timeline_ok_expire a now tl :
  timeline_ok a tl →
  timeline_ok (expire_all now a) (filter (λ p, now + 1 <= p.1) tl).
Proof.
  intros [Hs Hb]. split.
  - intros d c k. rewrite expire_pending, <-Hs. unfold slot_in.
    setoid_rewrite map_lookup_filter_Some. simpl. split.
    + intros (b & [Hd Hle] & Hin). split; [eauto|lia].
    + intros [(b & Hd & Hin) Hlt]. exists b. split_and!; [done|lia|done].
  - intros d b. rewrite map_lookup_filter_Some. intros [Hd _]. by eapply Hb.
Qed.

(** The expired entries in the order [due] visits them. *)
Definition expired_entries (bound : Z) (tl : gmap Z (list Slot)) : list (Z * Slot) :=
  merge_sort deadline_le (map_to_list (filter (λ p, p.1 < bound) tl))
    ≫= λ p, (p.1,.) <$> p.2.

#[export] Instance deadline_le_trans : Transitive deadline_le.
Proof. intros p q r. unfold deadline_le. lia. Qed.

#[export] Instance deadline_le_total : Total deadline_le.
Proof. intros p q. unfold deadline_le. lia. Qed.

Lemma elem_of_expired bound tl d s :
  (d, s) ∈ expired_entries bound tl ↔ slot_in tl d s ∧ d < bound.
Proof.
  unfold expired_entries. rewrite list_elem_of_bind.
  setoid_rewrite merge_sort_Permutation. unfold slot_in. split.
  - intros ([d' b] & Hin & Hm). apply elem_of_map_to_list in Hm.
    rewrite map_lookup_filter_Some in Hm. apply list_elem_of_fmap in Hin as (s' & ? & ?).
    simplify_eq/=. destruct Hm. eauto.
  - intros [(b & Hd & Hs) Hlt]. exists (d, b). rewrite elem_of_map_to_list.
    rewrite map_lookup_filter_Some. split; [|done]. by apply list_elem_of_fmap_2.
Qed.

Lemma NoDup_expired bound tl :
  (∀ d b, tl !! d = Some b → b ≠ [] ∧ NoDup b) → NoDup (expired_entries bound tl).
Proof.
  intros Hb. apply NoDup_bind.
  - intros [d1 b1] [d2 b2] y H1 H2 (s1 & -> & _)%list_elem_of_fmap
      (s2 & [= -> ->] & _)%list_elem_of_fmap.
    rewrite merge_sort_Permutation in H1, H2.
    apply elem_of_map_to_list in H1, H2. simpl in *. congruence.
  - intros [d b] Hin. rewrite merge_sort_Permutation in Hin.
    apply elem_of_map_to_list, map_lookup_filter_Some in Hin as [Hin _].
    apply NoDup_fmap_2; [by intros ?? [= ->]|]. by eapply Hb.
  - rewrite merge_sort_Permutation. apply NoDup_map_to_list.
Qed.

Lemma sorted_entries (bs : list (Z * list Slot)) :
  StronglySorted deadline_le bs →
  StronglySorted (λ x y : Z * Slot, x.1 <= y.1) (bs ≫= λ p, (p.1,.) <$> p.2).
Proof.
  induction 1 as [|[d b] bs Hbs IH Hd]; simpl; [constructor|].
  apply StronglySorted_app. split_and!; [| |exact IH].
  - intros [d1 s1] [d2 s2] (? & [= -> ->] & _)%list_elem_of_fmap
      ([d3 b3] & (? & [= -> ->] & _)%list_elem_of_fmap & Hin)%list_elem_of_bind.
    rewrite Forall_forall in Hd. apply (Hd _ Hin).
  - clear. induction b as [|s b IH]; simpl; constructor; [done|].
    apply Forall_fmap, Forall_forall. intros ? _. simpl. lia.
Qed.

Lemma omap_honour a w d b :
  wrefines a w → timeline w !! d = Some b → omap (honour w d) b = due_of <$> b.
Proof.
  intros Hw Hd.
  assert (∀ s, s ∈ b → honour w d s = Some (due_of s)) as Hh.
  { intros [c k] Hin. apply (honour_pending a); [done|].
    apply (tl_slots _ _ (w_timeline _ _ Hw)). by exists b. }
  clear Hd. induction b as [|s b IH]; simpl; [done|].
  rewrite Hh by apply list_elem_of_here. f_equal. apply IH. intros s' ?.
  apply Hh. by apply list_elem_of_further.
Qed.

Lemma due_out a w now :
  wrefines a w → 0 <= now < U64.MAX →
  (due now w).2 = due_of ∘ snd <$> expired_entries (now + 1) (timeline w).
Proof.
  intros Hw Hnow. unfold due, expired_entries. simpl.
  rewrite Z.mod_small by (unfold U64.MAX in Hnow; lia).
  assert (∀ p, p ∈ merge_sort deadline_le
            (map_to_list (filter (λ p, p.1 < now + 1) (timeline w))) →
          timeline w !! p.1 = Some p.2) as Hin.
  { intros [d b]. rewrite merge_sort_Permutation, elem_of_map_to_list.
    rewrite map_lookup_filter_Some. by intros [? _]. }
  revert Hin. generalize (merge_sort deadline_le
    (map_to_list (filter (λ p, p.1 < now + 1) (timeline w)))) as bs.
  induction bs as [|[d b] bs IH]; intros Hin; simpl; [done|].
  rewrite fmap_app, <-list_fmap_compose. f_equal.
  - change (omap (honour w d) b = due_of <$> b). eapply omap_honour; [done|].
    apply (Hin (d, b)), list_elem_of_here.
  - apply IH. intros p Hp. by apply Hin, list_elem_of_further.
Qed.

Lemma due_refines a w now :
  wrefines a w → 0 <= now < U64.MAX → wrefines (expire_all now a) (due now w).1.
Proof.
  intros Hw Hnow. unfold due. simpl.
  rewrite Z.mod_small by (unfold U64.MAX in Hnow; lia).
  apply expire_refines; [done|]. apply timeline_ok_expire, Hw.
Qed.

(** ** Histories *)

Inductive timer_op : Type :=
| OTouch (c : ConnId) (now : Z)
| OMarkPingSent (c : ConnId) (now : Z)
| OArmLifetime (c : ConnId) (d : Z)
| OArmHandshake (c : ConnId) (d : Z)
| OClearHandshake (c : ConnId)
| OClearLiveness (c : ConnId)
| ORemove (c : ConnId)
| ODue (now : Z).

Definition wheel_step (w : TimerWheel) (op : timer_op) : TimerWheel :=
  match op with
  | OTouch c now => touch c now w
  | OMarkPingSent c now => mark_ping_sent c now w
  | OArmLifetime c d => arm_lifetime c d w
  | OArmHandshake c d => arm_handshake c d w
  | OClearHandshake c => clear_handshake c w
  | OClearLiveness c => clear_liveness c w
  | ORemove c => remove c w
  | ODue now => (due now w).1
  end.

Definition armed_step (act pong : Z) (a : AWheel) (op : timer_op) : AWheel :=
  match op with
  | OTouch c now => arm c (U64.saturating_add now act) KIdle a
  | OMarkPingSent c now => arm c (U64.saturating_add now pong) KPong a
  | OArmLifetime c d => arm c d KLifetime a
  | OArmHandshake c d => arm c d KHandshake a
  | OClearHandshake c => disarm c CHandshake a
  | OClearLiveness c => disarm c CLive a
  | ORemove c => disarm_all c a
  | ODue now => expire_all now a
  end.

(** Clock readings are below [u64::MAX]. *)
Definition op_ok (op : timer_op) : Prop :=
  match op with ODue now => 0 <= now < U64.MAX | _ => True end.

Definition wheel_run (act pong : Z) : list timer_op → TimerWheel :=
  foldl wheel_step (with_timeouts act pong).

Definition armed_run (act pong : Z) : list timer_op → AWheel :=
  foldl (armed_step (act * 1000) (pong * 1000)) ∅.

Lemma wheel_step_timeouts w op :
  activity_timeout_ms (wheel_step w op) = activity_timeout_ms w ∧
  pong_timeout_ms (wheel_step w op) = pong_timeout_ms w.
Proof.
  destruct op; simpl;
    unfold touch, mark_ping_sent, schedule, arm_lifetime, arm_handshake, remove,
      clear_handshake, clear_lifetime, clear_liveness;
    by repeat (case_match; simpl).
Qed.

Lemma wheel_step_refines a w op :
  op_ok op → wrefines a w →
  wrefines (armed_step (activity_timeout_ms w) (pong_timeout_ms w) a op) (wheel_step w op).
Proof.
  intros Hop Hw. destruct op; simpl in *.
  - by apply schedule_refines.
  - by apply schedule_refines.
  - by apply arm_lifetime_refines.
  - by apply arm_handshake_refines.
  - by apply clear_handshake_refines.
  - by apply clear_liveness_refines.
  - by apply remove_wheel_refines.
  - by apply due_refines.
Qed.

Lemma wheel_fold_refines ops a w :
  Forall op_ok ops → wrefines a w →
  wrefines (foldl (armed_step (activity_timeout_ms w) (pong_timeout_ms w)) a ops)
    (foldl wheel_step w ops).
Proof.
  intros Hops. revert a w. induction Hops as [|op ops Hop _ IH]; intros a w Hw; simpl; [done|].
  destruct (wheel_step_timeouts w op) as [<- <-].
  apply IH. destruct (wheel_step_timeouts w op) as [-> ->]. by apply wheel_step_refines.
Qed.

Lemma wheel_run_refines act pong ops :
  Forall op_ok ops → wrefines (armed_run act pong ops) (wheel_run act pong ops).
Proof. intros Hops. 
  apply (wheel_fold_refines ops ∅ (with_timeouts act pong)); [done|]. apply wrefines_empty.
Qed.

(** What [due] reports, against the armed deadlines. *)
Lemma elem_of_due a w now x :
  wrefines a w → 0 <= now < U64.MAX →
  x ∈ (due now w).2 ↔
  ∃ d c k, x = due_of (c, k) ∧ a !! (c, class_of k) = Some (mkArmed d k true) ∧ d <= now.
Proof.
  intros Hw Hnow. rewrite (due_out a w now Hw Hnow), list_elem_of_fmap. split.
  - intros ([d [c k]] & -> & [Hs Hlt]%elem_of_expired). exists d, c, k.
    apply (tl_slots _ _ (w_timeline _ _ Hw)) in Hs. split_and!; [done..|lia].
  - intros (d & c & k & -> & Ha & Hle). exists (d, (c, k)). split; [done|].
    apply elem_of_expired. split; [|lia]. by apply (tl_slots _ _ (w_timeline _ _ Hw)).
Qed.

Lemma due_of_inj s1 s2 : due_of s1 = due_of s2 → s1 = s2.
Proof. destruct s1 as [? []], s2 as [? []]; unfold due_of; simpl; congruence. Qed.

Lemma NoDup_due a w now :
  wrefines a w → 0 <= now < U64.MAX → NoDup (due now w).2.
Proof.
  intros Hw Hnow. rewrite (due_out a w now Hw Hnow).
  apply NoDup_fmap_2_strong; [|apply NoDup_expired, Hw].
  intros [d1 [c1 k1]] [d2 [c2 k2]] [H1 _]%elem_of_expired [H2 _]%elem_of_expired Heq.
  apply due_of_inj in Heq as [= -> ->].
  apply (tl_slots _ _ (w_timeline _ _ Hw)) in H1, H2. congruence.
Qed.

(** An operation that leaves a pending deadline of [c] and its class alone. *)
Definition keeps (c : ConnId) (cl : Class_) (d : Z) (op : timer_op) : Prop :=
  match op with
  | OTouch c' _ | OMarkPingSent c' _ | OClearLiveness c' => (c', CLive) ≠ (c, cl)
  | OArmLifetime c' _ => (c', CLifetime) ≠ (c, cl)
  | OArmHandshake c' _ | OClearHandshake c' => (c', CHandshake) ≠ (c, cl)
  | ORemove c' => c' ≠ c
  | ODue now => now < d
  end.

Lemma armed_step_keeps act pong a op c k d :
  keeps c (class_of k) d op →
  a !! (c, class_of k) = Some (mkArmed d k true) →
  armed_step act pong a op !! (c, class_of k) = Some (mkArmed d k true).
Proof.
  intros Hk Ha. destruct op; simpl in *; unfold disarm_all, arm, disarm;
    rewrite ?lookup_insert_ne, ?lookup_delete_ne by (simpl; congruence); try done.
  by apply expire_pending.
Qed.

Lemma armed_fold_keeps act pong a ops c k d :
  Forall (keeps c (class_of k) d) ops →
  a !! (c, class_of k) = Some (mkArmed d k true) →
  foldl (armed_step act pong) a ops !! (c, class_of k) = Some (mkArmed d k true).
Proof.
  intros Hops. revert a. induction Hops; intros a Ha; simpl; [done|].
  by apply IHHops, armed_step_keeps.
Qed.

(** The liveness class holds one deadline: what it is decides what is due. *)
Lemma liveness_due a w now c d k :
  wrefines a w → 0 <= now < U64.MAX → class_of k = CLive →
  a !! (c, CLive) = Some (mkArmed d k true) →
  (DuePing c ∈ (due now w).2 ↔ k = KIdle ∧ d <= now) ∧
  (Close4201 c ∈ (due now w).2 ↔ k = KPong ∧ d <= now).
Proof.
  intros Hw Hnow Hcl Ha. rewrite !(elem_of_due a w now) by done. split; split.
  - intros (d' & c' & k' & Hx & Ha' & Hle). destruct k'; inversion Hx; subst c'.
    simpl in Ha'. rewrite Ha in Ha'. by simplify_eq.
  - intros [-> Hle]. by exists d, c, KIdle.
  - intros (d' & c' & k' & Hx & Ha' & Hle). destruct k'; inversion Hx; subst c'.
    simpl in Ha'. rewrite Ha in Ha'. by simplify_eq.
  - intros [-> Hle]. by exists d, c, KPong.
Qed.

(** ** Properties *)

(** After any history of calls, the wheel is its map of armed deadlines:
    the side tables hold them, and the timeline holds exactly one slot for
    each deadline that has not fired yet, in no empty bucket, so no re-arm or
    teardown leaves a stale slot. *)
Theorem wheel_refines_armed (act pong : Z) (ops : list timer_op) :
  Forall op_ok ops → wrefines (armed_run act pong ops) (wheel_run act pong ops).
Proof. apply wheel_run_refines. Qed.

(** [due] is sound and complete: it reports each armed deadline that has
    elapsed and not fired, exactly once, in deadline order, and nothing else;
    afterwards those deadlines no longer fire. *)
Theorem due_sound_complete (act pong now : Z) (ops : list timer_op) :
  Forall op_ok ops → 0 <= now < U64.MAX →
  let a := armed_run act pong ops in
  let r := due now (wheel_run act pong ops) in
  (∃ es, r.2 = due_of ∘ snd <$> es ∧ StronglySorted (λ x y, x.1 <= y.1) es ∧
     ∀ d c k, (d, (c, k)) ∈ es ↔
       a !! (c, class_of k) = Some (mkArmed d k true) ∧ d <= now) ∧
  NoDup r.2 ∧ wrefines (expire_all now a) r.1 ∧ (due now r.1).2 = [].
Proof.
  intros Hops Hnow a r. pose proof (wheel_run_refines act pong ops Hops) as Hw.
  fold a in Hw. pose proof (due_refines a _ now Hw Hnow) as Hw'. split_and!.
  - eexists. split; [by apply (due_out a)|]. split.
    + apply sorted_entries, StronglySorted_merge_sort; apply _.
    + intros d c k. rewrite elem_of_expired, (tl_slots _ _ (w_timeline _ _ Hw)).
      split; intros [? ?]; (split; [done|lia]).
  - by apply (NoDup_due a).
  - done.
  - apply elem_of_nil_inv. intros x. subst r. rewrite (elem_of_due _ _ now x Hw') by done.
    intros (d & c & k & _ & [_ ?]%expire_pending & ?). lia.
Qed.

(** The maximum-lifetime and handshake deadlines are absolute: once armed
    at [d], no traffic, ping, reschedule or call for another connection moves
    them, and the first [due] at or after [d] reports them, unless the
    connection is removed, the deadline is re-armed or (handshake only) the
    session establishes. *)
Theorem absolute_deadlines_fire (act pong d now : Z) (c : ConnId)
    (before after : list timer_op) :
  Forall op_ok before → Forall op_ok after → 0 <= now < U64.MAX → d <= now →
  (Forall (keeps c CLifetime d) after →
   Close4202 c ∈
     (due now (wheel_run act pong (before ++ OArmLifetime c d :: after))).2) ∧
  (Forall (keeps c CHandshake d) after →
   HandshakeTimeout c ∈
     (due now (wheel_run act pong (before ++ OArmHandshake c d :: after))).2).
Proof.
  intros Hb Ha Hnow Hd.
  assert (∀ k op, op_ok op → armed_step (act * 1000) (pong * 1000)
            (armed_run act pong before) op !! (c, class_of k) = Some (mkArmed d k true) →
          Forall (keeps c (class_of k) d) after →
          due_of (c, k) ∈ (due now (wheel_run act pong (before ++ op :: after))).2) as Hgen.
  { intros k op Hop Harm Hkeep.
    assert (Forall op_ok (before ++ op :: after)) as Hall
      by (apply Forall_app; split; [done|by constructor]).
    apply (elem_of_due _ _ _ _ (wheel_run_refines act pong _ Hall)); [done|].
    exists d, c, k. split_and!; [done| |done].
    unfold armed_run. rewrite foldl_app. simpl. by apply armed_fold_keeps. }
  split.
  - apply (Hgen KLifetime); [done|]. simpl. apply lookup_insert_eq.
  - apply (Hgen KHandshake); [done|]. simpl. apply lookup_insert_eq.
Qed.

(** The liveness contract: after activity at [t], nothing is due for the
    connection's liveness before [t + activity_timeout], and a ping (never a
    4201 close) is due from then on; after a ping sent at [t], a 4201 close
    (and no further ping) is due from [t + pong_timeout] on; so any inbound
    frame cancels a pending 4201 close. *)
Theorem liveness_contract (act pong t now : Z) (c : ConnId) (ops : list timer_op) :
  Forall op_ok ops → 0 <= now < U64.MAX →
  let active := due now (wheel_run act pong (ops ++ [OTouch c t])) in
  let pinged := due now (wheel_run act pong (ops ++ [OMarkPingSent c t])) in
  (DuePing c ∈ active.2 ↔ U64.saturating_add t (act * 1000) <= now) ∧
  (Close4201 c ∉ active.2) ∧
  (Close4201 c ∈ pinged.2 ↔ U64.saturating_add t (pong * 1000) <= now) ∧
  (DuePing c ∉ pinged.2).
Proof.
  intros Hops Hnow. simpl.
  assert (∀ op k d, op_ok op → class_of k = CLive →
    armed_step (act * 1000) (pong * 1000) (armed_run act pong ops) op !! (c, CLive) =
      Some (mkArmed d k true) →
    let w := wheel_run act pong (ops ++ [op]) in
    (DuePing c ∈ (due now w).2 ↔ k = KIdle ∧ d <= now) ∧
    (Close4201 c ∈ (due now w).2 ↔ k = KPong ∧ d <= now)) as Hgen.
  { intros op k d Hop Hcl Ha w.
    assert (Forall op_ok (ops ++ [op])) as Hall by (apply Forall_app; auto).
    pose proof (wheel_run_refines act pong _ Hall) as Hw.
    apply (liveness_due _ _ now c d k Hw Hnow Hcl).
    unfold armed_run. rewrite foldl_app. done. }
  destruct (Hgen (OTouch c t) KIdle _ I eq_refl (lookup_insert_eq _ _ _)) as [H1 H2].
  destruct (Hgen (OMarkPingSent c t) KPong _ I eq_refl (lookup_insert_eq _ _ _)) as [H3 H4].
  rewrite H1, H2, H3, H4. naive_solver.
Qed.

(** Removing a connection leaves no trace of it: no side-table entry, no
    timeline slot and nothing due, so a recycled token starts clean. *)
Theorem remove_leaves_nothing (act pong now d : Z) (c : ConnId) (k : TimerKind)
    (ops : list timer_op) :
  Forall op_ok ops → 0 <= now < U64.MAX →
  let w := wheel_run act pong (ops ++ [ORemove c]) in
  live w !! c = None ∧ lifetime w !! c = None ∧ handshake w !! c = None ∧
  ¬ slot_in (timeline w) d (c, k) ∧ due_of (c, k) ∉ (due now w).2.
Proof.
  intros Hops Hnow w.
  assert (wrefines (disarm_all c (armed_run act pong ops)) w) as Hw.
  { subst w. unfold wheel_run. rewrite foldl_app. simpl.
    by apply remove_wheel_refines, wheel_run_refines. }
  assert (∀ cl, disarm_all c (armed_run act pong ops) !! (c, cl) = None) as Hnone.
  { intros cl. unfold disarm_all, disarm.
    destruct cl; rewrite ?lookup_delete_ne, ?lookup_delete_eq by done; done. }
  split_and!.
  - by rewrite (w_live _ _ Hw), Hnone.
  - by rewrite (w_lifetime _ _ Hw), Hnone.
  - by rewrite (w_handshake _ _ Hw), Hnone.
  - by rewrite (tl_slots _ _ (w_timeline _ _ Hw)), Hnone.
  - rewrite (elem_of_due _ _ now _ Hw Hnow).
    intros (d' & c' & k' & [= -> ->]%due_of_inj & Ha & _). by rewrite Hnone in Ha.
Qed.

(** ** Concrete inputs *)

Definition demo_ops : list timer_op :=
  [OArmHandshake 1 10000; OTouch 1 0; OClearHandshake 1; OArmLifetime 1 90000;
   OTouch 1 5000; OMarkPingSent 2 1000; ODue 2000].

Lemma demo_ops_ok : Forall op_ok demo_ops.
Proof. repeat (apply Forall_cons_2; [simpl; unfold U64.MAX; lia|]). apply Forall_nil_2. Qed.

Lemma wheel_refines_armed_witness :
  wrefines (armed_run 120 30 demo_ops) (wheel_run 120 30 demo_ops) ∧
  live (wheel_run 120 30 demo_ops) !! 1%nat = Some (mkTimer 125000 KIdle).
Proof. split; [apply wheel_refines_armed, demo_ops_ok|by_eval]. Defined.

Lemma due_sound_complete_witness :
  NoDup (due 90000 (wheel_run 120 30 demo_ops)).2 ∧
  (due 90000 (wheel_run 120 30 demo_ops)).2 = [Close4201 2; Close4202 1].
Proof.
  split; [|by_eval].
  apply (due_sound_complete 120 30 90000 demo_ops demo_ops_ok).
  unfold U64.MAX. lia.
Defined.

Lemma absolute_deadlines_fire_witness :
  Close4202 1 ∈ (due 90000 (wheel_run 120 30
    (demo_ops ++ OArmLifetime 1 80000 :: [OTouch 1 79000; OMarkPingSent 1 79500]))).2.
Proof.
  apply (absolute_deadlines_fire 120 30 80000 90000 1 demo_ops
           [OTouch 1 79000; OMarkPingSent 1 79500] demo_ops_ok).
  - repeat (apply Forall_cons_2; [done|]). apply Forall_nil_2.
  - unfold U64.MAX. lia.
  - lia.
  - repeat (apply Forall_cons_2; [done|]). apply Forall_nil_2.
Defined.

Lemma liveness_contract_witness :
  DuePing 1 ∈ (due 125000 (wheel_run 120 30 (demo_ops ++ [OTouch 1 5000]))).2.
Proof.
  destruct (liveness_contract 120 30 5000 125000 1 demo_ops demo_ops_ok) as [Hping _].
  - unfold U64.MAX. lia.
  - apply (proj2 Hping). unfold U64.saturating_add, U64.MAX. lia.
Defined.

Lemma remove_leaves_nothing_witness :
  live (wheel_run 120 30 (demo_ops ++ [ORemove 1])) !! 1%nat = None.
Proof.
  apply (remove_leaves_nothing 120 30 200000 0 1 KIdle demo_ops demo_ops_ok).
  unfold U64.MAX. lia.
Defined.
