(* ===== verification/Outbound.v ===== *)
(** * The outbound queue of a connection: [src/src/transport/conn.rs]

    The byte-bounded drop-head queue, the CoDel freshness overlay and the
    coalescing flush. The socket is a script of answers: each call to
    [write_batch] consumes one, [Room n] standing for a sink that takes up to
    [n] bytes of what it is offered; the bytes taken are appended to the wire.
    [u64] clocks saturate as in the code; byte counts are integers. *)

From S2P Require Import Prelude RustStd.

#[local] Open Scope Z_scope.

(** ** Data *)

Inductive WriteStatus : Type := Drained | WouldBlock | WClosed.

#[export] Instance WriteStatus_eq_dec : EqDecision WriteStatus.
Proof. solve_decision. Defined.

Record CodelParams : Type := mkCodelParams { target_ns : Z; interval_ns : Z }.

Definition CodelParams_DEFAULT : CodelParams := mkCodelParams 5000000 100000000.
Definition CodelParams_DISABLED : CodelParams := mkCodelParams 0 100000000.
Definition enabled (p : CodelParams) : bool := negb (target_ns p =? 0).

Record CodelState : Type := mkCodelState {
  interval_min : option Z;
  interval_end : Z;
  overloaded : bool
}.

Definition CodelState_default : CodelState := mkCodelState None 0 false.

(** A pre-encoded frame and its enqueue time. *)
Definition OutFrame : Type := list Z * Z.

Definition flen (f : OutFrame) : Z := Z.of_nat (length f.1).

Definition WRITEV_MAX_SLICES : Z := 1024.
Definition WRITEV_MAX_BYTES : Z := 256 * 1024.
Definition TLS_BATCH_MAX_BYTES : Z := 60 * 1024.

(** The fields of [Connection] other than the socket and its scratch buffers. *)
Record Connection : Type := mkConnection {
  out : list OutFrame;
  out_cursor : nat;
  out_bytes : Z;
  high_water : Z;
  codel : CodelParams;
  codel_state : CodelState;
  codel_dropped : Z;
  drophead_dropped : Z;
  tls_unflushed_bytes : Z;
  reassembly_bytes : Z;
  frame_buffer_bytes : Z;
  inflight_delta : Z;
  outbound_delta : Z
}.

Definition Connection_new (high_water : Z) : Connection :=
  mkConnection [] 0 0 high_water CodelParams_DISABLED CodelState_default 0 0 0 0 0 0 0.

(** ** Field updates *)

Definition set_out (o : list OutFrame) (c : Connection) : Connection :=
  mkConnection o (out_cursor c) (out_bytes c) (high_water c) (codel c) (codel_state c)
    (codel_dropped c) (drophead_dropped c) (tls_unflushed_bytes c) (reassembly_bytes c)
    (frame_buffer_bytes c) (inflight_delta c) (outbound_delta c).

Definition set_cursor (n : nat) (c : Connection) : Connection :=
  mkConnection (out c) n (out_bytes c) (high_water c) (codel c) (codel_state c)
    (codel_dropped c) (drophead_dropped c) (tls_unflushed_bytes c) (reassembly_bytes c)
    (frame_buffer_bytes c) (inflight_delta c) (outbound_delta c).

Definition set_codel (p : CodelParams) (c : Connection) : Connection :=
  mkConnection (out c) (out_cursor c) (out_bytes c) (high_water c) p (codel_state c)
    (codel_dropped c) (drophead_dropped c) (tls_unflushed_bytes c) (reassembly_bytes c)
    (frame_buffer_bytes c) (inflight_delta c) (outbound_delta c).

Definition set_codel_state (s : CodelState) (c : Connection) : Connection :=
  mkConnection (out c) (out_cursor c) (out_bytes c) (high_water c) (codel c) s
    (codel_dropped c) (drophead_dropped c) (tls_unflushed_bytes c) (reassembly_bytes c)
    (frame_buffer_bytes c) (inflight_delta c) (outbound_delta c).

(** [out_bytes], [inflight_delta] and [outbound_delta] always move together. *)
Definition bill (n : Z) (c : Connection) : Connection :=
  mkConnection (out c) (out_cursor c) (out_bytes c + n) (high_water c) (codel c)
    (codel_state c) (codel_dropped c) (drophead_dropped c) (tls_unflushed_bytes c)
    (reassembly_bytes c) (frame_buffer_bytes c) (inflight_delta c + n) (outbound_delta c + n).

Definition count_codel_drop (c : Connection) : Connection :=
  mkConnection (out c) (out_cursor c) (out_bytes c) (high_water c) (codel c) (codel_state c)
    (codel_dropped c + 1) (drophead_dropped c) (tls_unflushed_bytes c) (reassembly_bytes c)
    (frame_buffer_bytes c) (inflight_delta c) (outbound_delta c).

Definition count_drophead (c : Connection) : Connection :=
  mkConnection (out c) (out_cursor c) (out_bytes c) (high_water c) (codel c) (codel_state c)
    (codel_dropped c) (drophead_dropped c + 1) (tls_unflushed_bytes c) (reassembly_bytes c)
    (frame_buffer_bytes c) (inflight_delta c) (outbound_delta c).

(** ** [queue] *)

(** The eviction loop: while the new frame does not fit, remove the oldest
    droppable frame. Each turn removes one, so the queue length is fuel enough. *)
Fixpoint evict (fuel : nat) (locked : nat) (need : Z) (c : Connection) (dropped : nat)
    : Connection * nat :=
  match fuel with
  | O => (c, dropped)
  | S fuel =>
      if (high_water c <? out_bytes c + need) && (locked <? length (out c))%nat then
        match out c !! locked with
        | None => (c, dropped)
        | Some victim =>
            evict fuel locked need
              (count_drophead (bill (- flen victim) (set_out (delete locked (out c)) c)))
              (S dropped)
        end
      else (c, dropped)
  end.

Definition queue (frame : list Z) (now_ns : Z) (c : Connection) : Connection * nat :=
  let need := Z.of_nat (length frame) in
  let locked := if (0 <? out_cursor c)%nat then 1%nat else 0%nat in
  let '(c, dropped) := evict (length (out c)) locked need c 0 in
  let c := bill need c in
  (set_out (out c ++ [(frame, now_ns)]) c, dropped).

(** ** Accounting *)

Definition set_reassembly_bytes (n : Z) (c : Connection) : Connection :=
  mkConnection (out c) (out_cursor c) (out_bytes c) (high_water c) (codel c) (codel_state c)
    (codel_dropped c) (drophead_dropped c) (tls_unflushed_bytes c) n (frame_buffer_bytes c)
    (inflight_delta c + (n - reassembly_bytes c)) (outbound_delta c).

Definition set_frame_buffer_bytes (n : Z) (c : Connection) : Connection :=
  mkConnection (out c) (out_cursor c) (out_bytes c) (high_water c) (codel c) (codel_state c)
    (codel_dropped c) (drophead_dropped c) (tls_unflushed_bytes c) (reassembly_bytes c) n
    (inflight_delta c + (n - frame_buffer_bytes c)) (outbound_delta c).

Definition accounted_bytes (c : Connection) : Z :=
  out_bytes c + reassembly_bytes c + frame_buffer_bytes c + tls_unflushed_bytes c.

Definition outbound_bytes (c : Connection) : Z := out_bytes c + tls_unflushed_bytes c.

Definition take_inflight_delta (c : Connection) : Connection * Z :=
  (mkConnection (out c) (out_cursor c) (out_bytes c) (high_water c) (codel c) (codel_state c)
     (codel_dropped c) (drophead_dropped c) (tls_unflushed_bytes c) (reassembly_bytes c)
     (frame_buffer_bytes c) 0 (outbound_delta c), inflight_delta c).

Definition take_outbound_delta (c : Connection) : Connection * Z :=
  (mkConnection (out c) (out_cursor c) (out_bytes c) (high_water c) (codel c) (codel_state c)
     (codel_dropped c) (drophead_dropped c) (tls_unflushed_bytes c) (reassembly_bytes c)
     (frame_buffer_bytes c) (inflight_delta c) 0, outbound_delta c).

Definition take_codel_dropped (c : Connection) : Connection * Z :=
  (mkConnection (out c) (out_cursor c) (out_bytes c) (high_water c) (codel c) (codel_state c)
     0 (drophead_dropped c) (tls_unflushed_bytes c) (reassembly_bytes c)
     (frame_buffer_bytes c) (inflight_delta c) (outbound_delta c), codel_dropped c).

Definition take_drophead_dropped (c : Connection) : Connection * Z :=
  (mkConnection (out c) (out_cursor c) (out_bytes c) (high_water c) (codel c) (codel_state c)
     (codel_dropped c) 0 (tls_unflushed_bytes c) (reassembly_bytes c)
     (frame_buffer_bytes c) (inflight_delta c) (outbound_delta c), drophead_dropped c).

(** ** CoDel *)

Definition note_interval (p : CodelParams) (now_ns sojourn : Z) (s : CodelState) : CodelState :=
  let interval_end' :=
    if interval_end s =? 0 then U64.saturating_add now_ns (interval_ns p)
    else interval_end s in
  let min := match interval_min s with Some m => Z.min m sojourn | None => sojourn end in
  if interval_end' <=? now_ns then
    mkCodelState (Some sojourn) (U64.saturating_add now_ns (interval_ns p)) (target_ns p <? min)
  else mkCodelState (Some min) interval_end' (overloaded s).

Definition age_empty (p : CodelParams) (now_ns : Z) (s : CodelState) : CodelState :=
  if negb (interval_end s =? 0) && (interval_end s <=? now_ns)
  then mkCodelState None (U64.saturating_add now_ns (interval_ns p)) false
  else s.

(** The dequeue loop over the frames [o] of the queue. *)
Fixpoint codel_loop (front_locked : bool) (now_ns two_target : Z) (o : list OutFrame)
    (c : Connection) : Connection :=
  match o with
  | [] => set_codel_state (age_empty (codel c) now_ns (codel_state c)) c
  | victim :: rest =>
      let sojourn := U64.saturating_sub now_ns victim.2 in
      let c := set_codel_state (note_interval (codel c) now_ns sojourn (codel_state c)) c in
      if front_locked then c
      else if overloaded (codel_state c) && (two_target <? sojourn) && (1 <? length o)%nat
      then codel_loop front_locked now_ns two_target rest
             (count_codel_drop (bill (- flen victim) (set_out rest c)))
      else c
  end.

Definition codel_dequeue (front_locked : bool) (now_ns : Z) (c : Connection) : Connection :=
  if negb (enabled (codel c)) then c
  else codel_loop front_locked now_ns (U64.saturating_mul (target_ns (codel c)) 2) (out c) c.

(** ** The coalescing flush *)

(** One answer of the sink. *)
Inductive IoResult : Type :=
| Room (n : nat)
| IoWouldBlock
| IoInterrupted
| IoError.

(** Gather whole frames into one batch; each turn pops one, so the queue length
    is fuel enough. *)
Fixpoint gather (fuel : nat) (start_cursor : nat) (max_bytes now_ns : Z)
    (batch : list OutFrame) (batch_bytes : Z) (c : Connection)
    : list OutFrame * Z * Connection :=
  match fuel, out c with
  | S fuel, front :: rest =>
      let first := bool_decide (batch = []) in
      let take := flen front - (if first then Z.of_nat start_cursor else 0) in
      if negb first && ((WRITEV_MAX_SLICES <=? Z.of_nat (length batch))
                        || (max_bytes <? batch_bytes + take))
      then (batch, batch_bytes, c)
      else
        let batch := batch ++ [front] in
        let c := codel_dequeue ((0 <? out_cursor c)%nat && bool_decide (batch = [])) now_ns
                   (set_out rest c) in
        gather fuel start_cursor max_bytes now_ns batch (batch_bytes + take) c
  | _, _ => (batch, batch_bytes, c)
  end.

(** The bytes of whole frames, in order. *)
Fixpoint bytes_of (l : list OutFrame) : list Z :=
  match l with [] => [] | f :: l => f.1 ++ bytes_of l end.

(** The bytes offered: the batch from the cursor of its first frame. *)
Definition offered (start_cursor : nat) (batch : list OutFrame) : list Z :=
  match batch with
  | [] => []
  | f :: rest => drop start_cursor f.1 ++ bytes_of rest
  end.

(** Pop the fully written frames: [cursor] bytes of the first are already out.
    Returns the unwritten tail, the bytes left over and whether any was popped. *)
Fixpoint complete (batch : list OutFrame) (cursor n : nat) (c : Connection)
    : list OutFrame * nat * nat * Connection :=
  match batch with
  | [] => ([], cursor, n, c)
  | f :: rest =>
      let rem := (length f.1 - cursor)%nat in
      if (n <? rem)%nat then (batch, cursor, n, c)
      else complete rest 0 (n - rem) (bill (- flen f) c)
  end.

(** After a write of [n > 0] bytes. *)
Definition apply_write (batch : list OutFrame) (start_cursor n : nat) (c : Connection)
    : Connection :=
  let '(tail, cursor, n, c) := complete batch start_cursor n c in
  match tail with
  | [] => set_cursor 0 c
  | _ => set_out (tail ++ out c) (set_cursor (cursor + n) c)
  end.

Definition restore_batch (batch : list OutFrame) (c : Connection) : Connection :=
  set_out (batch ++ out c) c.

(** How a write fails. *)
Inductive IoKind : Type := KWouldBlock | KInterrupted | KOther.

(** [WriteSink]: hand a batch to the sink, which says how many bytes it took;
    no answer when the script of its socket has ended. *)
Class WriteSink (W : Type) : Type :=
  write_batch : list Z → W → W * option (result nat IoKind).

(** The flush loop, one turn per unit of fuel. No status when the script or
    the fuel ends before the loop does. *)
Fixpoint flush_coalesced `{WriteSink W} (fuel : nat) (max_bytes now_ns : Z) (c : Connection)
    (sink : W) : Connection * W * option WriteStatus :=
  match fuel with
  | O => (c, sink, None)
  | S fuel =>
      let c := codel_dequeue (0 <? out_cursor c)%nat now_ns c in
      match out c with
      | [] => (c, sink, Some Drained)
      | _ =>
          let start_cursor := out_cursor c in
          let '(batch, batch_bytes, c) :=
            gather (length (out c)) start_cursor max_bytes now_ns [] 0 c in
          match write_batch (offered start_cursor batch) sink with
          | (sink, None) => (restore_batch batch c, sink, None)
          | (sink, Some (Ok n)) =>
              if (n =? 0)%nat then (restore_batch batch c, sink, Some WClosed)
              else flush_coalesced fuel max_bytes now_ns (apply_write batch start_cursor n c) sink
          | (sink, Some (Err KWouldBlock)) => (restore_batch batch c, sink, Some WouldBlock)
          | (sink, Some (Err KInterrupted)) =>
              flush_coalesced fuel max_bytes now_ns (restore_batch batch c) sink
          | (sink, Some (Err KOther)) => (restore_batch batch c, sink, Some WClosed)
          end
      end
  end.

(** ** The plain socket *)

(** A [TcpStream]: its coming answers and the bytes it took. *)
Record TcpStream : Type := mkTcpStream { tcp_writes : list IoResult; tcp_wire : list Z }.

Definition tcp_write (bytes : list Z) (s : TcpStream) : TcpStream * option (result nat IoKind) :=
  match tcp_writes s with
  | [] => (s, None)
  | Room room :: writes =>
      let n := Nat.min room (length bytes) in
      (mkTcpStream writes (tcp_wire s ++ take n bytes), Some (Ok n))
  | IoWouldBlock :: writes => (mkTcpStream writes (tcp_wire s), Some (Err KWouldBlock))
  | IoInterrupted :: writes => (mkTcpStream writes (tcp_wire s), Some (Err KInterrupted))
  | IoError :: writes => (mkTcpStream writes (tcp_wire s), Some (Err KOther))
  end.

#[export] Instance TcpStream_sink : WriteSink TcpStream := tcp_write.

(** Every turn takes an answer of the socket, so their number is fuel enough. *)
Definition flush_script (sink : list IoResult) (max_bytes now_ns : Z) (c : Connection)
    (wire : list Z) : Connection * list Z * list IoResult * option WriteStatus :=
  let '(c, s, st) :=
    flush_coalesced (S (length sink)) max_bytes now_ns c (mkTcpStream sink wire) in
  (c, tcp_wire s, tcp_writes s, st).

Definition flush_plain (sink : list IoResult) (now_ns : Z) (c : Connection) (wire : list Z)
    : Connection * list Z * list IoResult * option WriteStatus :=
  flush_script sink WRITEV_MAX_BYTES now_ns c wire.

(** The flush of a plain socket, by its next answer. *)
Lemma flush_script_eq sink max now c wire :
  flush_script sink max now c wire =
  let c := codel_dequeue (0 <? out_cursor c)%nat now c in
  match out c with
  | [] => (c, wire, sink, Some Drained)
  | _ =>
      let start_cursor := out_cursor c in
      let '(batch, batch_bytes, c) := gather (length (out c)) start_cursor max now [] 0 c in
      match sink with
      | [] => (restore_batch batch c, wire, [], None)
      | Room room :: sink =>
          let n := Nat.min room (length (offered start_cursor batch)) in
          if (n =? 0)%nat then (restore_batch batch c, wire, sink, Some WClosed)
          else flush_script sink max now (apply_write batch start_cursor n c)
                 (wire ++ take n (offered start_cursor batch))
      | IoWouldBlock :: sink => (restore_batch batch c, wire, sink, Some WouldBlock)
      | IoInterrupted :: sink => flush_script sink max now (restore_batch batch c) wire
      | IoError :: sink => (restore_batch batch c, wire, sink, Some WClosed)
      end
  end.
Proof.
  unfold flush_script at 1. cbn [flush_coalesced]. cbv zeta.
  set (c1 := codel_dequeue _ now c). destruct (out c1) as [|f rest]; [done|].
  destruct (gather _ _ _ _ _ _ _) as [[batch b] c2]. set (o := offered _ batch).
  destruct sink as [|[room| | |] sink]; try done.
  unfold write_batch, TcpStream_sink, tcp_write at 1. cbn [tcp_writes tcp_wire].
  destruct (Nat.eqb_spec (Nat.min room (length o)) 0) as [Hn|Hn]; [|done].
  by rewrite Hn, app_nil_r.
Qed.

(** ** The other buffers are not the queue's *)

Definition buffers (c : Connection) : Z * Z * Z :=
  (reassembly_bytes c, frame_buffer_bytes c, tls_unflushed_bytes c).

Lemma buffers_queue frame now c : buffers (queue frame now c).1 = buffers c.
Proof.
  assert (∀ fuel locked need c d, buffers (evict fuel locked need c d).1 = buffers c) as Hev.
  { induction fuel as [|fuel IH]; intros locked need c1 d; simpl; [done|].
    destruct (_ && _); [|done]. destruct (out c1 !! locked); [|done]. by rewrite IH. }
  unfold queue. specialize (Hev (length (out c)) (if (0 <? out_cursor c)%nat then 1 else 0)%nat
    (Z.of_nat (length frame)) c 0%nat). destruct (evict _ _ _ _ _) as [c1 k]. exact Hev.
Qed.

Lemma buffers_codel fl now c : buffers (codel_dequeue fl now c) = buffers c.
Proof.
  unfold codel_dequeue. destruct (negb _); [done|].
  generalize (U64.saturating_mul (target_ns (codel c)) 2) (out c). intros two o.
  revert c. induction o as [|f o IH]; intros c; simpl; [done|].
  destruct fl; [done|]. destruct (_ && _); [|done]. by rewrite IH.
Qed.

Lemma buffers_gather fuel start max now batch b c :
  buffers (gather fuel start max now batch b c).2 = buffers c.
Proof.
  revert batch b c. induction fuel as [|fuel IH]; intros batch b c; simpl; [done|].
  destruct (out c) as [|f rest]; [done|]. destruct (_ && _); [done|].
  by rewrite IH, buffers_codel.
Qed.

Lemma buffers_complete batch cursor n c : buffers (complete batch cursor n c).2 = buffers c.
Proof.
  revert cursor n c. induction batch as [|f batch IH]; intros cursor n c; simpl; [done|].
  destruct (_ <? _)%nat; [done|]. by rewrite IH.
Qed.

Lemma buffers_apply_write batch start n c : buffers (apply_write batch start n c) = buffers c.
Proof.
  unfold apply_write. pose proof (buffers_complete batch start n c) as Hb.
  destruct (complete batch start n c) as [[[tail cursor] n'] c']. by destruct tail.
Qed.

Lemma buffers_coalesced `{WriteSink W} fuel max now c (s : W) :
  buffers (flush_coalesced fuel max now c s).1.1 = buffers c.
Proof.
  revert c s. induction fuel as [|fuel IH]; intros c s; simpl; [done|].
  rewrite <-(buffers_codel (0 <? out_cursor c)%nat now c).
  set (c1 := codel_dequeue _ now c). destruct (out c1) as [|f rest]; [done|].
  pose proof (buffers_gather (length (f :: rest)) (out_cursor c1) max now [] 0 c1) as Hg.
  simpl length in Hg. destruct (gather _ _ _ _ _ _ _) as [[batch b] c2].
  destruct (write_batch _ s) as [s' [[n|[| |]]|]]; try done; [|by rewrite IH].
  destruct (_ =? 0)%nat; [done|]. by rewrite IH, buffers_apply_write.
Qed.

Lemma buffers_flush sink max now c wire :
  buffers (flush_script sink max now c wire).1.1.1 = buffers c.
Proof.
  unfold flush_script. pose proof (buffers_coalesced (S (length sink)) max now c (mkTcpStream sink wire)) as Hb.
  by destruct (flush_coalesced _ _ _ _ _) as [[c' s] st].
Qed.

(** ** Books: the deltas follow the byte counts *)

Definition total (l : list OutFrame) : Z := foldr (λ f acc, flen f + acc) 0 l.

Lemma total_app l1 l2 : total (l1 ++ l2) = total l1 + total l2.
Proof. induction l1; simpl; lia. Qed.

Lemma flen_nonneg f : 0 <= flen f.
Proof. unfold flen. lia. Qed.

Lemma total_nonneg l : 0 <= total l.
Proof. induction l as [|f l IH]; simpl; [lia|]. pose proof (flen_nonneg f). lia. Qed.

(** Between two states the deltas and the accounted totals moved equally, and
    the configuration did not move. *)
Record same_books (c c' : Connection) : Prop := {
  sb_inflight : inflight_delta c' - accounted_bytes c' = inflight_delta c - accounted_bytes c;
  sb_outbound : outbound_delta c' - outbound_bytes c' = outbound_delta c - outbound_bytes c;
  sb_codel : codel c' = codel c;
  sb_high_water : high_water c' = high_water c
}.

#[export] Instance same_books_refl : Reflexive same_books.
Proof. by split. Qed.

#[export] Instance same_books_trans : Transitive same_books.
Proof. intros c1 c2 c3 [] []. split; [lia|lia|congruence..]. Qed.

Ltac books := split; unfold accounted_bytes, outbound_bytes; simpl; try done; lia.

Lemma sb_set_out o c : same_books c (set_out o c).
Proof. books. Qed.
Lemma sb_set_cursor n c : same_books c (set_cursor n c).
Proof. books. Qed.
Lemma sb_set_codel_state s c : same_books c (set_codel_state s c).
Proof. books. Qed.
Lemma sb_bill n c : same_books c (bill n c).
Proof. books. Qed.
Lemma sb_count_codel_drop c : same_books c (count_codel_drop c).
Proof. books. Qed.
Lemma sb_count_drophead c : same_books c (count_drophead c).
Proof. books. Qed.

#[export] Hint Resolve sb_set_out sb_set_cursor sb_set_codel_state sb_bill
  sb_count_codel_drop sb_count_drophead : pylon.

(** ** Eviction *)

Record evict_post (locked : nat) (need : Z) (c c' : Connection) (k : nat) : Prop := {
  ev_out : out c' = take locked (out c) ++ drop (locked + k) (out c);
  ev_count : drophead_dropped c' = drophead_dropped c + Z.of_nat k;
  ev_codel : codel_dropped c' = codel_dropped c;
  ev_cursor : out_cursor c' = out_cursor c;
  ev_length : (length (out c') + k)%nat = length (out c);
  ev_bytes : out_bytes c' - total (out c') = out_bytes c - total (out c);
  ev_books : same_books c c';
  ev_minimal : ∀ j, (j < k)%nat →
    high_water c < out_bytes c - total (take j (drop locked (out c))) + need
}.

Lemma total_delete (l : list OutFrame) i f :
  l !! i = Some f → total (delete i l) = total l - flen f.
Proof.
  intros Hi. rewrite delete_take_drop, total_app.
  rewrite <-(take_drop_middle l i f Hi) at 3. rewrite total_app. simpl. lia.
Qed.

Lemma evict_post_refl locked need c : evict_post locked need c c 0.
Proof.
  split; try done; try lia.
  by rewrite Nat.add_0_r, take_drop.
Qed.

Lemma evict_post_step locked need c victim c' k :
  out c !! locked = Some victim → high_water c < out_bytes c + need →
  evict_post locked need
    (count_drophead (bill (- flen victim) (set_out (delete locked (out c)) c))) c' k →
  evict_post locked need c c' (S k).
Proof.
  intros Hv Hhw [Hout Hcnt Hcd Hcur Hlen' Hb Hsb Hmin]. simpl in *.
  pose proof (lookup_lt_Some _ _ _ Hv) as Hlt. rewrite length_delete in Hlen' by eauto.
  pose proof (total_delete _ _ _ Hv) as Htot. rewrite delete_take_drop in *.
  assert (length (take locked (out c)) = locked) as Hlen by (rewrite length_take; lia).
  split; try lia; try done.
  - rewrite Hout, take_app_length' by done. f_equal.
    rewrite <-drop_drop, drop_app_length' by done. rewrite drop_drop. f_equal. lia.
  - etrans; [|exact Hsb]. etrans; [apply sb_set_out|].
    etrans; [apply sb_bill|apply sb_count_drophead].
  - intros [|j] Hj; simpl; [lia|]. specialize (Hmin j ltac:(lia)).
    rewrite drop_app_length' in Hmin by done.
    rewrite (drop_S _ _ _ Hv). simpl. lia.
Qed.

Lemma evict_spec fuel locked need c dropped :
  ∃ k, (evict fuel locked need c dropped).2 = (dropped + k)%nat ∧
    evict_post locked need c (evict fuel locked need c dropped).1 k ∧
    ((length (out c) - locked <= fuel)%nat →
     let c' := (evict fuel locked need c dropped).1 in
     out_bytes c' + need <= high_water c' ∨ (length (out c') <= locked)%nat).
Proof.
  revert c dropped. induction fuel as [|fuel IH]; intros c dropped; simpl.
  { exists 0%nat. split_and!; [lia|apply evict_post_refl|]. lia. }
  destruct (Z.ltb_spec (high_water c) (out_bytes c + need)) as [Hhw|Hhw]; simpl.
  2:{ exists 0%nat. split_and!; [lia|apply evict_post_refl|]. lia. }
  destruct (Nat.ltb_spec locked (length (out c))) as [Hlt|Hlt]; simpl.
  2:{ exists 0%nat. split_and!; [lia|apply evict_post_refl|]. lia. }
  destruct (lookup_lt_is_Some_2 _ _ Hlt) as [victim Hv]. rewrite Hv.
  match goal with |- context [evict fuel locked need ?x ?y] =>
    destruct (IH x y) as (k & Hd & Hpost & Hend) end.
  exists (S k). split_and!; [lia|by eapply evict_post_step|].
  intros Hf. apply Hend. simpl. rewrite length_delete by eauto. lia.
Qed.

(** ** What a CoDel dequeue may drop *)

Record codel_post (front_locked : bool) (now_ns two_target : Z) (c c' : Connection)
    (dropped : list OutFrame) : Prop := {
  cd_out : out c = dropped ++ out c';
  cd_cursor : out_cursor c' = out_cursor c;
  cd_count : codel_dropped c' = codel_dropped c + Z.of_nat (length dropped);
  cd_drophead : drophead_dropped c' = drophead_dropped c;
  cd_bytes : out_bytes c' - total (out c') = out_bytes c - total (out c);
  cd_books : same_books c c';
  cd_locked : front_locked = true → dropped = [];
  cd_stale : Forall (λ f, two_target < U64.saturating_sub now_ns f.2) dropped;
  cd_last : out c ≠ [] → out c' ≠ []
}.

Lemma codel_post_state fl now two s c : codel_post fl now two c (set_codel_state s c) [].
Proof. split; simpl; try apply Forall_nil_2; done || lia. Qed.

Lemma codel_loop_spec fl now two o c :
  out c = o → ∃ dropped, codel_post fl now two c (codel_loop fl now two o c) dropped.
Proof.
  revert c. induction o as [|victim rest IH]; intros c Ho; simpl.
  { exists []. apply codel_post_state. }
  set (c1 := set_codel_state _ c).
  destruct fl; [exists []; apply codel_post_state|].
  destruct (overloaded _ && _ && _) eqn:Hcond; [|exists []; apply codel_post_state].
  destruct (IH (count_codel_drop (bill (- flen victim) (set_out rest c1))) eq_refl)
    as (dropped & [Ho' Hcur Hcnt Hdh Hb Hsb Hl Hst Hlast]).
  exists (victim :: dropped). simpl in *. split; simpl.
  - rewrite Ho. f_equal. exact Ho'.
  - done.
  - lia.
  - done.
  - rewrite Ho. simpl. lia.
  - etrans; [|exact Hsb]. etrans; [apply sb_set_codel_state|].
    etrans; [apply sb_set_out|]. etrans; [apply sb_bill|apply sb_count_codel_drop].
  - done.
  - to_prop. by constructor.
  - intros _. apply Hlast. to_prop. destruct rest; [simpl in *; lia|done].
Qed.

Lemma codel_dequeue_spec fl now c :
  ∃ dropped,
    codel_post fl now (U64.saturating_mul (target_ns (codel c)) 2) c (codel_dequeue fl now c)
      dropped ∧
    (enabled (codel c) = false → dropped = []).
Proof.
  unfold codel_dequeue. destruct (enabled (codel c)); simpl.
  - destruct (codel_loop_spec fl now (U64.saturating_mul (target_ns (codel c)) 2) (out c) c eq_refl)
      as [d Hd]. by exists d.
  - exists []. split; [|done]. split; simpl; try apply Forall_nil_2; done || lia.
Qed.

(** ** Gathering *)

(** [new] is what a gather moved into the batch; what it skipped was dropped
    by CoDel. *)
Record gather_post (c c' : Connection) (new : list OutFrame) : Prop := {
  g_sub : sublist (new ++ out c') (out c);
  g_cursor : out_cursor c' = out_cursor c;
  g_count : codel_dropped c' + Z.of_nat (length (new ++ out c')) =
            codel_dropped c + Z.of_nat (length (out c));
  g_drophead : drophead_dropped c' = drophead_dropped c;
  g_bytes : out_bytes c' - total (new ++ out c') = out_bytes c - total (out c);
  g_books : same_books c c';
  g_codel : codel c' = codel c
}.

Lemma gather_post_refl c : gather_post c c [].
Proof. split; simpl; try done; try lia. Qed.

Lemma gather_post_step now two c front rest c1 dropped c' new :
  out c = front :: rest →
  codel_post false now two (set_out rest c) c1 dropped →
  gather_post c1 c' new → gather_post c c' (front :: new).
Proof.
  intros Ho [Ho1 Hcur Hcnt Hdh Hb Hsb _ _ _] [Hs Hcur' Hcnt' Hdh' Hb' Hsb' Hc'].
  simpl in *. subst rest. split; simpl; try congruence.
  - rewrite Ho. apply sublist_skip. etrans; [exact Hs|]. by apply sublist_inserts_l.
  - rewrite Ho. simpl. rewrite !length_app in *. lia.
  - rewrite Ho. simpl. rewrite !total_app in *. lia.
  - etrans; [|exact Hsb']. etrans; [apply sb_set_out|exact Hsb].
  - rewrite Hc'. apply (sb_codel _ _ Hsb).
Qed.

Lemma gather_spec fuel start max now batch bytes c :
  ∃ new c', gather_post c c' new ∧
    (∃ b, gather fuel start max now batch bytes c = (batch ++ new, b, c')) ∧
    (fuel ≠ O → batch = [] → ∀ f rest, out c = f :: rest → ∃ new', new = f :: new').
Proof.
  revert batch bytes c. induction fuel as [|fuel IH]; intros batch bytes c; simpl.
  { exists [], c. split_and!; [apply gather_post_refl| |done].
    exists bytes. by rewrite app_nil_r. }
  destruct (out c) as [|front rest] eqn:Ho.
  { exists [], c. split_and!; [apply gather_post_refl| |done].
    exists bytes. by rewrite app_nil_r. }
  destruct (negb _ && _) eqn:Hstop.
  { exists [], c. split_and!; [apply gather_post_refl| |].
    - exists bytes. by rewrite app_nil_r.
    - intros _ ->. by rewrite bool_decide_eq_true_2 in Hstop. }
  rewrite (bool_decide_eq_false_2 (batch ++ [front] = [])) by (by destruct batch).
  rewrite andb_false_r.
  destruct (codel_dequeue_spec false now (set_out rest c)) as (d & Hd & _).
  match goal with |- context [gather fuel start max now ?b ?n ?x] =>
    destruct (IH b n x) as (new & c' & Hpost & (bb & Hg) & _) end.
  exists (front :: new), c'. split_and!; [by eapply gather_post_step| |].
  - exists bb. rewrite Hg, <-app_assoc. done.
  - intros _ -> f r [= -> ->]. eauto.
Qed.

(** ** Applying a write *)

(** The bytes of the front frame that are already on the wire. *)
Definition front_part (cursor : nat) (l : list OutFrame) : list Z :=
  match l with [] => [] | f :: _ => take cursor f.1 end.

Definition cursor_fits (cursor : nat) (l : list OutFrame) : Prop :=
  cursor = 0%nat ∨ ∃ f rest, l = f :: rest ∧ (cursor < length f.1)%nat.

Lemma complete_spec batch cursor n c :
  (n <= length (offered cursor batch))%nat → cursor_fits cursor batch →
  ∃ sent tail cursor' n' c',
    complete batch cursor n c = (tail, cursor', n', c') ∧ batch = sent ++ tail ∧
    front_part cursor batch ++ take n (offered cursor batch) =
      bytes_of sent ++ front_part (cursor' + n') tail ∧
    (tail ≠ [] → cursor_fits (cursor' + n') tail) ∧ 
    out c' = out c ∧ out_cursor c' = out_cursor c ∧
    out_bytes c' = out_bytes c - total sent ∧
    codel_dropped c' = codel_dropped c ∧ drophead_dropped c' = drophead_dropped c ∧
    same_books c c'.
Proof.
  revert cursor n c. induction batch as [|f rest IH]; intros cursor n c Hn Hfit; simpl.
  { exists [], [], cursor, n, c. simpl in Hn. replace n with 0%nat by lia.
    split_and!; try done; simpl; lia. }
  assert (cursor <= length f.1)%nat as Hcur.
  { destruct Hfit as [->|(? & ? & [= <- <-] & ?)]; lia. }
  simpl in Hn. rewrite length_app, length_drop in Hn.
  destruct (Nat.ltb_spec n (length f.1 - cursor)) as [Hlt|Hge].
  { exists [], (f :: rest), cursor, n, c. split_and!; try done; simpl; try lia.
    - rewrite take_app_le by (rewrite length_drop; lia). apply take_take_drop.
    - intros _. right. exists f, rest. split; [done|lia]. }
  destruct (IH 0%nat (n - (length f.1 - cursor))%nat (bill (- flen f) c))
    as (sent & tail & cur' & n' & c' & Hc & -> & Hw & Hfit' & Ho & Hcu & Hb & Hd & Hdh & Hsb).
  { destruct rest as [|g rest]; simpl in *; [lia|]. rewrite !length_app, drop_0 in *. simpl. lia. }
  { by left. }
  exists (f :: sent), tail, cur', n', c'. simpl in *. split_and!; try done; try lia.
  - rewrite take_app_ge by (rewrite length_drop; lia).
    rewrite length_drop, <-app_assoc, <-Hw, app_assoc, take_drop. f_equal.
    destruct (sent ++ tail) as [|g r]; simpl; [done|]. by rewrite drop_0.
  - etrans; [apply sb_bill|exact Hsb].
Qed.

(** The state of the stream: what has been sent whole, the written part of the
    front frame, what is queued, and the frames accounted as dropped. *)
Record stream_ok (queued : list OutFrame) (wire : list Z) (sent : list OutFrame)
    (c : Connection) : Prop := {
  s_wire : wire = bytes_of sent ++ front_part (out_cursor c) (out c);
  s_cursor : cursor_fits (out_cursor c) (out c);
  s_order : sublist (sent ++ out c) queued;
  s_count : Z.of_nat (length (sent ++ out c)) + codel_dropped c + drophead_dropped c =
            Z.of_nat (length queued);
  s_bytes : out_bytes c = total (out c)
}.

Lemma front_part_0 l : front_part 0 l = [].
Proof. by destruct l. Qed.

Lemma cursor_fits_nil cursor : cursor_fits cursor [] → cursor = 0%nat.
Proof. by intros [?|(? & ? & ? & ?)]. Qed.

Lemma codel_dequeue_stream queued wire sent now c :
  stream_ok queued wire sent c →
  stream_ok queued wire sent (codel_dequeue (0 <? out_cursor c)%nat now c) ∧
  same_books c (codel_dequeue (0 <? out_cursor c)%nat now c).
Proof.
  intros [Hw Hcu Ho Hn Hb].
  destruct (codel_dequeue_spec (0 <? out_cursor c)%nat now c)
    as (dropped & [Hout Hcur Hcnt Hdh Hby Hsb Hl _ _] & _).
  split; [|done]. destruct (out_cursor c) as [|cur] eqn:Hc0.
  - split; rewrite ?Hcur, ?Hc0; try (by left); try lia.
    + by rewrite Hw, !front_part_0.
    + etrans; [|exact Ho]. rewrite Hout.
      apply sublist_app; [done|]. by apply sublist_inserts_l.
    + rewrite Hout in Hn. rewrite !length_app in *. lia.
  - rewrite Hl in Hout, Hcnt by done. simpl in Hout, Hcnt.
    split; rewrite <-?Hout, ?Hcur; done || (rewrite <-Hout in Hby; lia).
Qed.

(** ** One turn of the flush loop *)

Section turn.
Context (queued : list OutFrame) (wire : list Z) (sent : list OutFrame).
Context (c c' : Connection) (f : OutFrame) (new : list OutFrame).
Hypothesis Hs : stream_ok queued wire sent c.
Hypothesis Hf : ∃ rest, out c = f :: rest.
Hypothesis Hg : gather_post c c' (f :: new).

Lemma turn_sublist : sublist (sent ++ (f :: new) ++ out c') queued.
Proof.
  etrans; [|exact (s_order _ _ _ _ Hs)]. apply sublist_app; [done|]. apply Hg.
Qed.

Lemma turn_fits : cursor_fits (out_cursor c) (f :: new).
Proof.
  destruct Hf as [rest Ho]. destruct (s_cursor _ _ _ _ Hs) as [?|(g & r & Ho' & Hlt)].
  - by left.
  - right. exists f, new. split; [done|]. congruence.
Qed.

Lemma turn_count :
  Z.of_nat (length (sent ++ (f :: new) ++ out c')) + codel_dropped c' + drophead_dropped c' =
  Z.of_nat (length queued).
Proof.
  pose proof (s_count _ _ _ _ Hs). pose proof (g_count _ _ _ Hg). pose proof (g_drophead _ _ _ Hg).
  rewrite !length_app in *. lia.
Qed.

Lemma turn_wire : wire = bytes_of sent ++ front_part (out_cursor c) (f :: new).
Proof. rewrite (s_wire _ _ _ _ Hs). by destruct Hf as [rest ->]. Qed.

Lemma turn_bytes : out_bytes c' = total ((f :: new) ++ out c').
Proof. pose proof (g_bytes _ _ _ Hg). pose proof (s_bytes _ _ _ _ Hs). lia. Qed.

Lemma restore_stream :
  stream_ok queued wire sent (restore_batch (f :: new) c') ∧
  same_books c (restore_batch (f :: new) c').
Proof.
  split; [|etrans; [apply Hg|apply sb_set_out]].
  unfold restore_batch. split; simpl; rewrite ?(g_cursor _ _ _ Hg).
  - apply turn_wire.
  - destruct turn_fits as [?|(? & ? & [= <- <-] & ?)]; [by left|right; eauto].
  - apply turn_sublist.
  - apply turn_count.
  - apply turn_bytes.
Qed.

Lemma bytes_of_app l1 l2 : bytes_of (l1 ++ l2) = bytes_of l1 ++ bytes_of l2.
Proof. induction l1; simpl; [done|]. by rewrite <-app_assoc, IHl1. Qed.

Lemma apply_write_stream n :
  (n <= length (offered (out_cursor c) (f :: new)))%nat →
  ∃ done, stream_ok queued (wire ++ take n (offered (out_cursor c) (f :: new)))
            (sent ++ done) (apply_write (f :: new) (out_cursor c) n c') ∧
    same_books c (apply_write (f :: new) (out_cursor c) n c') ∧
    sublist (done ++ out (apply_write (f :: new) (out_cursor c) n c')) (out c).
Proof.
  intros Hn.
  destruct (complete_spec (f :: new) (out_cursor c) n c' Hn turn_fits)
    as (done & tail & cur' & n' & c2 & Hc & Hbatch & Hw & Hfit & Ho & Hcu & Hb & Hd & Hdh & Hsb).
  exists done. unfold apply_write. rewrite Hc.
  pose proof turn_sublist as Hsub. pose proof turn_count as Hcnt. pose proof turn_bytes as Hby.
  rewrite Hbatch, <-app_assoc, app_assoc in Hsub.
  rewrite Hbatch, <-app_assoc, app_assoc in Hcnt.
  rewrite Hbatch, !total_app in Hby.
  assert (wire ++ take n (offered (out_cursor c) (f :: new)) =
          bytes_of (sent ++ done) ++ front_part (cur' + n') tail) as Hw'.
  { rewrite turn_wire, <-app_assoc, Hw, bytes_of_app. by rewrite <-app_assoc. }
  split_and!.
  - destruct tail as [|g tail]; simpl in *.
    + split; simpl; rewrite ?Ho; try done; try lia; [|by left].
      rewrite Hw'. f_equal. by destruct (out c').
    + split; simpl; rewrite ?Ho; try done; try lia.
      * destruct (Hfit ltac:(done)) as [?|(? & ? & [= <- <-] & ?)]; [by left|right; eauto].
      * rewrite total_app. lia.
  - etrans; [apply Hg|]. etrans; [exact Hsb|].
    destruct tail; [apply sb_set_cursor|].
    etrans; [apply sb_set_cursor|apply sb_set_out].
  - etrans; [|exact (g_sub _ _ _ Hg)]. rewrite Hbatch, <-app_assoc.
    destruct tail; simpl; by rewrite Ho.
Qed.
End turn.

(** ** The flush *)

(** The frames of the queue and the room they need. *)
Definition unsent (c : Connection) : Z := total (out c) - Z.of_nat (out_cursor c).

Fixpoint interrupts (sink : list IoResult) : nat :=
  match sink with
  | [] => 0
  | IoInterrupted :: sink => S (interrupts sink)
  | _ :: sink => interrupts sink
  end.

(** The start of a run of whole frames of the queue, in order. *)
Definition unspliced (queued : list OutFrame) (wire : list Z) : Prop :=
  ∃ frames n, wire = take n (bytes_of frames) ∧ sublist frames queued.

(** What a sink promises: the bytes it reports are those it took, and a refusal
    that is not an error takes nothing. A sink may take bytes and then fail or
    run out of answers, unless it is [exact]. *)
Class SinkLaws (W : Type) `{WriteSink W} (good : W → Prop) (accepted : W → list Z)
    (exact : Prop) : Prop := {
  sink_takes bytes s s' n :
    good s → write_batch bytes s = (s', Some (Ok n)) →
    good s' ∧ (n <= length bytes)%nat ∧ accepted s' = accepted s ++ take n bytes;
  sink_refuses bytes s s' k :
    good s → write_batch bytes s = (s', Some (Err k)) → k ≠ KOther →
    good s' ∧ accepted s' = accepted s;
  sink_stops bytes s s' r :
    good s → write_batch bytes s = (s', r) → r = None ∨ r = Some (Err KOther) →
    ∃ n, accepted s' = accepted s ++ take n bytes;
  sink_ends bytes s s' :
    good s → write_batch bytes s = (s', None) → exact → accepted s' = accepted s;
  sink_fails bytes s s' :
    good s → write_batch bytes s = (s', Some (Err KOther)) → exact →
    accepted s' = accepted s
}.

Record flush_post (queued sent : list OutFrame) (sure : Prop) (c c' : Connection)
    (wire' : list Z) (st : option WriteStatus) : Prop := {
  f_stream : sure → ∃ more, stream_ok queued wire' (sent ++ more) c';
  f_unspliced : unspliced queued wire';
  f_books : same_books c c';
  f_drained : st = Some Drained → out c' = []
}.

Lemma gather_front c max now :
  out c ≠ [] →
  ∃ f new b c', (∃ rest, out c = f :: rest) ∧
    gather (length (out c)) (out_cursor c) max now [] 0 c = (f :: new, b, c') ∧
    gather_post c c' (f :: new).
Proof.
  intros Hne. destruct (out c) as [|f rest] eqn:Ho; [done|].
  destruct (gather_spec (length (f :: rest)) (out_cursor c) max now [] 0 c)
    as (new & c' & Hg & (b & Heq) & Hfirst).
  destruct (Hfirst ltac:(done) eq_refl f rest Ho) as [new' ->].
  exists f, new', b, c'. simpl app in Heq. eauto.
Qed.

Lemma offered_unspliced queued wire sent c c' f new n :
  stream_ok queued wire sent c → (∃ rest, out c = f :: rest) → gather_post c c' (f :: new) →
  unspliced queued (wire ++ take n (offered (out_cursor c) (f :: new))).
Proof.
  intros Hs Hf Hg. exists (sent ++ f :: new), (length wire + n)%nat.
  rewrite (turn_wire _ _ _ _ _ new Hs Hf), bytes_of_app. simpl. split.
  - set (p := take _ f.1). rewrite <-(take_drop (out_cursor c) f.1) at 2. fold p.
    rewrite <-(app_assoc p), (app_assoc (bytes_of sent)). by rewrite take_app_add.
  - pose proof (turn_sublist _ _ _ _ _ _ _ Hs Hg) as Ht. etrans; [|exact Ht].
    rewrite (app_assoc sent). by apply sublist_inserts_r.
Qed.

Lemma stream_unspliced queued wire sent c : stream_ok queued wire sent c → unspliced queued wire.
Proof.
  intros Hs. exists (sent ++ out c), (length wire). split; [|apply Hs].
  rewrite (s_wire _ _ _ _ Hs), bytes_of_app.
  destruct (s_cursor _ _ _ _ Hs) as [->|(f & rest & -> & Hlt)].
  - by rewrite front_part_0, app_nil_r, take_app_length.
  - simpl. set (p := take _ f.1). rewrite <-(take_drop (out_cursor c) f.1) at 1. fold p.
    rewrite <-(app_assoc p), (app_assoc (bytes_of sent)). by rewrite take_app_length.
Qed.

Lemma flush_spec `{SinkLaws W good accepted exact} queued fuel max now c s sent :
  good s → stream_ok queued (accepted s) sent c →
  let '(c', s', st) := flush_coalesced fuel max now c s in
  flush_post queued sent (st = Some Drained ∨ st = Some WouldBlock ∨ exact) c c' (accepted s') st.
Proof.
  revert c s sent. induction fuel as [|fuel IH]; intros c s sent Hgood Hs; simpl.
  { split; [|by eapply stream_unspliced|done|done]. intros _. exists []. by rewrite app_nil_r. }
  destruct (codel_dequeue_stream _ _ _ now _ Hs) as [Hs1 Hb1]. set (c1 := codel_dequeue _ now c) in *.
  pose proof (stream_unspliced _ _ _ _ Hs) as Hun.
  destruct (decide (out c1 = [])) as [He|Hne].
  { rewrite He. split; [|done..]. intros _. exists []. by rewrite app_nil_r. }
  destruct (gather_front c1 max now Hne) as (f & new & b & c2 & Hf & Heq & Hg).
  destruct (restore_stream _ _ _ _ _ _ _ Hs1 Hf Hg) as [Hr Hrb].
  assert (same_books c (restore_batch (f :: new) c2)) as Hrb' by (by etrans).
  assert (∀ s' st sure, accepted s' = accepted s → st ≠ Some Drained →
    flush_post queued sent sure c (restore_batch (f :: new) c2) (accepted s') st) as Hstop.
  { intros s' st sure -> Hst. split; [|done..]. intros _. exists []. by rewrite app_nil_r. }
  assert (∀ bytes s' r st, write_batch bytes s = (s', r) → r = None ∨ r = Some (Err KOther) →
    bytes = offered (out_cursor c1) (f :: new) → st ≠ Some Drained → st ≠ Some WouldBlock →
    flush_post queued sent (st = Some Drained ∨ st = Some WouldBlock ∨ exact) c
      (restore_batch (f :: new) c2) (accepted s') st) as Hquit.
  { intros bytes s' r st Hw Hk -> Hd Hwb. split; [| |done|done].
    - intros [?|[?|Hex]]; [done..|]. exists []. rewrite app_nil_r.
      destruct Hk as [->| ->]; [by rewrite (sink_ends _ _ _ Hgood Hw Hex)|by rewrite (sink_fails _ _ _ Hgood Hw Hex)].
    - destruct (sink_stops _ _ _ _ Hgood Hw Hk) as [n ->]. by eapply offered_unspliced. }
  pose proof (apply_write_stream _ _ _ _ _ _ _ Hs1 Hf Hg) as Hwr.
  destruct (out c1) as [|g rest] eqn:Ho; [done|]. rewrite Heq.
  destruct (write_batch _ s) as [s' [[n|[| |]]|]] eqn:Hw.
  - destruct (sink_takes _ _ _ _ Hgood Hw) as (Hgood' & Hn & Hacc).
    destruct (Nat.eqb_spec n 0) as [->|_]; [apply Hstop; [by rewrite Hacc, app_nil_r|done]|].
    destruct (Hwr n Hn) as (done & Hws & Hwb & _).
    rewrite <-Hacc in Hws. specialize (IH _ _ _ Hgood' Hws).
    destruct (flush_coalesced fuel _ _ _ _) as [[c' s''] st].
    destruct IH as [Hm Hu Hb Hd]. split; [|done| |done].
    + intros Hsure. destruct (Hm Hsure) as [more Hm']. exists (done ++ more). by rewrite app_assoc.
    + etrans; [exact Hb1|]. etrans; [exact Hwb|exact Hb].
  - destruct (sink_refuses _ _ _ _ Hgood Hw ltac:(done)) as [_ Hacc]. by apply Hstop.
  - destruct (sink_refuses _ _ _ _ Hgood Hw ltac:(done)) as [Hgood' Hacc].
    rewrite <-Hacc in Hr. specialize (IH _ _ _ Hgood' Hr).
    destruct (flush_coalesced fuel _ _ _ _) as [[c' s''] st].
    destruct IH as [Hm Hu Hb Hd]. split; [done|done|by etrans|done].
  - by eapply Hquit; [exact Hw|right|..].
  - by eapply Hquit; [exact Hw|left|..].
Qed.

#[export] Instance TcpStream_laws : SinkLaws TcpStream (λ _, True) tcp_wire True.
Proof.
  split; unfold write_batch, TcpStream_sink, tcp_write.
  - intros bytes s s' n _ He. destruct (tcp_writes s) as [|[room| | |] writes]; simplify_eq/=.
    split_and!; [done|lia|done].
  - intros bytes s s' k _ He Hk. by destruct (tcp_writes s) as [|[room| | |] writes]; simplify_eq/=.
  - intros bytes s s' r _ He Hr. exists 0%nat. rewrite app_nil_r.
    destruct (tcp_writes s) as [|[room| | |] writes]; simplify_eq/=; try done. by destruct Hr.
  - intros bytes s s' _ He _. by destruct (tcp_writes s) as [|[room| | |] writes]; simplify_eq/=.
  - intros bytes s s' _ He _. by destruct (tcp_writes s) as [|[room| | |] writes]; simplify_eq/=.
Qed.

Lemma flush_script_spec queued sink max now c wire sent :
  stream_ok queued wire sent c →
  let '(c', wire', _, st) := flush_script sink max now c wire in
  (∃ more, stream_ok queued wire' (sent ++ more) c') ∧ same_books c c' ∧
  (st = Some Drained → out c' = []).
Proof.
  intros Hs. pose proof (flush_spec queued (S (length sink)) max now c (mkTcpStream sink wire) sent I Hs) as Hf.
  unfold flush_script. destruct (flush_coalesced _ _ _ _ _) as [[c' s'] st].
  destruct Hf as [Hst _ Hb Hd]. split_and!; [apply Hst; tauto|done|done].
Qed.

(** ** Termination of the flush *)

Lemma total_length l : total l = Z.of_nat (length (bytes_of l)).
Proof. induction l as [|f l IH]; simpl; [done|]. rewrite length_app. unfold flen. lia. Qed.

Lemma total_sublist l1 l2 : sublist l1 l2 → total l1 <= total l2.
Proof.
  induction 1 as [|f ?? _ IH|f ?? _ IH]; simpl; [done|lia|].
  pose proof (flen_nonneg f). lia.
Qed.

Lemma front_part_length cursor l :
  cursor_fits cursor l → length (front_part cursor l) = cursor.
Proof.
  intros [->|(f & rest & -> & Hlt)]; [by destruct l|]. simpl. rewrite length_take. lia.
Qed.

Lemma stream_length queued wire sent c :
  stream_ok queued wire sent c →
  Z.of_nat (length wire) = total sent + Z.of_nat (out_cursor c).
Proof.
  intros Hs. rewrite (s_wire _ _ _ _ Hs), length_app, total_length.
  rewrite front_part_length by apply Hs. lia.
Qed.

Lemma unsent_nonneg queued wire sent c : stream_ok queued wire sent c → 0 <= unsent c.
Proof.
  intros Hs. unfold unsent. destruct (s_cursor _ _ _ _ Hs) as [->|(f & rest & -> & Hlt)].
  - pose proof (total_nonneg (out c)). lia.
  - simpl. pose proof (total_nonneg rest). unfold flen. lia.
Qed.

Lemma codel_dequeue_unsent fl now c : unsent (codel_dequeue fl now c) <= unsent c.
Proof.
  destruct (codel_dequeue_spec fl now c) as (d & [Ho Hcu _ _ _ _ _ _ _] & _).
  unfold unsent. rewrite Hcu, Ho, total_app. pose proof (total_nonneg d). lia.
Qed.

Lemma flush_terminates queued sink max now c wire sent :
  stream_ok queued wire sent c →
  unsent c + Z.of_nat (interrupts sink) < Z.of_nat (length sink) →
  (flush_script sink max now c wire).2 ≠ None.
Proof.
  revert c wire sent. induction sink as [|r sink IH]; intros c wire sent Hs Hlen;
    rewrite flush_script_eq; simpl.
  { pose proof (unsent_nonneg _ _ _ _ Hs). simpl in Hlen. lia. }
  destruct (codel_dequeue_stream _ _ _ now _ Hs) as [Hs1 _].
  pose proof (codel_dequeue_unsent (0 <? out_cursor c)%nat now c) as Hu.
  set (c1 := codel_dequeue _ now c) in *.
  destruct (decide (out c1 = [])) as [He|Hne]; [by rewrite He|].
  destruct (gather_front c1 max now Hne) as (f & new & b & c2 & Hf & Heq & Hg).
  destruct (restore_stream _ _ _ _ _ _ _ Hs1 Hf Hg) as [Hr _].
  pose proof (apply_write_stream _ _ _ _ _ _ _ Hs1 Hf Hg) as Hwr.
  pose proof (total_sublist _ _ (g_sub _ _ _ Hg)) as Htot.
  pose proof (g_cursor _ _ _ Hg) as Hcu. pose proof (stream_length _ _ _ _ Hs1) as Hl1.
  unfold unsent in *. destruct (out c1) as [|g rest] eqn:Ho; [done|]. rewrite Heq.
  destruct r as [room| | |]; [|done| |done]; simpl in Hlen.
  - set (n := Nat.min room _). destruct (Nat.eqb_spec n 0); [done|].
    destruct (Hwr n) as (done & Hw & _ & Hsub); [subst n; lia|].
    apply (IH _ _ _ Hw). pose proof (stream_length _ _ _ _ Hw) as Hl2.
    apply total_sublist in Hsub. rewrite !total_app in *.
    rewrite length_app, length_take in Hl2. subst n. lia.
  - apply (IH _ _ _ Hr). simpl in *. lia.
Qed.

(** ** Queueing *)

Definition locked_of (c : Connection) : nat := if (0 <? out_cursor c)%nat then 1%nat else 0%nat.

Lemma queue_eq frame now c :
  ∃ k c1, queue frame now c =
      (set_out (out c1 ++ [(frame, now)]) (bill (Z.of_nat (length frame)) c1), k) ∧
    evict_post (locked_of c) (Z.of_nat (length frame)) c c1 k ∧
    (out_bytes c1 + Z.of_nat (length frame) <= high_water c1 ∨
     (length (out c1) <= locked_of c)%nat).
Proof.
  unfold queue. fold (locked_of c).
  destruct (evict_spec (length (out c)) (locked_of c) (Z.of_nat (length frame)) c 0)
    as (k & Hk & Hpost & Hend).
  destruct (evict _ _ _ _ _) as [c1 d]. simpl in *. exists k, c1. subst d.
  split_and!; [done..|]. apply Hend. lia.
Qed.

Lemma take_drop_sublist {A} (l : list A) (i j : nat) :
  (i <= j)%nat → sublist (take i l ++ drop j l) l.
Proof.
  intros Hij. rewrite <-(take_drop i l) at 3. apply sublist_app; [done|].
  replace j with (i + (j - i))%nat by lia. rewrite <-drop_drop. apply sublist_drop.
Qed.

Lemma queue_stream queued wire sent frame now c :
  stream_ok queued wire sent c →
  stream_ok (queued ++ [(frame, now)]) wire sent (queue frame now c).1 ∧
  same_books c (queue frame now c).1.
Proof.
  intros Hs. destruct (queue_eq frame now c)
    as (k & c1 & -> & [Hout Hcnt Hcd Hcur Hlen Hb Hsb _] & _). simpl.
  pose proof (s_bytes _ _ _ _ Hs) as Hby. pose proof (s_count _ _ _ _ Hs) as Hn.
  assert (front_part (out_cursor c) (out c1 ++ [(frame, now)]) =
          front_part (out_cursor c) (out c) ∧
          cursor_fits (out_cursor c) (out c1 ++ [(frame, now)])) as [Hfp Hfit].
  { rewrite Hout. unfold locked_of.
    destruct (s_cursor _ _ _ _ Hs) as [->|(f & rest & -> & Hlt)].
    - split; [by rewrite !front_part_0|by left].
    - destruct (Nat.ltb_spec 0 (out_cursor c)).
      + simpl. split; [done|]. right. eauto.
      + replace (out_cursor c) with 0%nat by lia. split; [by rewrite !front_part_0|by left]. }
  split; [|etrans; [exact Hsb|]; etrans; [apply sb_bill|apply sb_set_out]].
  split; simpl; rewrite ?Hcur, ?Hfp; try done.
  - apply Hs.
  - rewrite app_assoc. apply sublist_app; [|done]. etrans; [|apply Hs].
    apply sublist_app; [done|]. rewrite Hout. apply take_drop_sublist. lia.
  - rewrite !length_app in *. simpl. lia.
  - rewrite total_app. simpl. unfold flen. simpl. lia.
Qed.

(** ** Histories *)

Inductive out_op : Type :=
| OQueue (frame : list Z) (now_ns : Z)
| OFlush (sink : list IoResult) (now_ns : Z)
| OSetReassembly (n : Z)
| OSetFrameBuffer (n : Z)
| OTakeInflight
| OTakeOutbound.

(** A connection with what its peer received, what was queued and the deltas
    the worker took. *)
Record World : Type := mkWorld {
  w_conn : Connection;
  w_wire : list Z;
  w_queued : list OutFrame;
  w_inflight : Z;
  w_outbound : Z
}.

Definition out_step (w : World) (op : out_op) : World :=
  match op with
  | OQueue frame now =>
      mkWorld (queue frame now (w_conn w)).1 (w_wire w) (w_queued w ++ [(frame, now)])
        (w_inflight w) (w_outbound w)
  | OFlush sink now =>
      let '(c, wire, _, _) := flush_plain sink now (w_conn w) (w_wire w) in
      mkWorld c wire (w_queued w) (w_inflight w) (w_outbound w)
  | OSetReassembly n =>
      mkWorld (set_reassembly_bytes n (w_conn w)) (w_wire w) (w_queued w) (w_inflight w)
        (w_outbound w)
  | OSetFrameBuffer n =>
      mkWorld (set_frame_buffer_bytes n (w_conn w)) (w_wire w) (w_queued w) (w_inflight w)
        (w_outbound w)
  | OTakeInflight =>
      let '(c, d) := take_inflight_delta (w_conn w) in
      mkWorld c (w_wire w) (w_queued w) (w_inflight w + d) (w_outbound w)
  | OTakeOutbound =>
      let '(c, d) := take_outbound_delta (w_conn w) in
      mkWorld c (w_wire w) (w_queued w) (w_inflight w) (w_outbound w + d)
  end.

Definition out_run (hw : Z) (p : CodelParams) : list out_op → World :=
  foldl out_step (mkWorld (set_codel p (Connection_new hw)) [] [] 0 0).

(** The invariant of every history. *)
Record world_ok (w : World) : Prop := {
  wo_stream : ∃ sent, stream_ok (w_queued w) (w_wire w) sent (w_conn w);
  wo_inflight : w_inflight w + inflight_delta (w_conn w) = accounted_bytes (w_conn w);
  wo_outbound : w_outbound w + outbound_delta (w_conn w) = outbound_bytes (w_conn w)
}.

Lemma stream_ok_same queued wire sent c c' :
  out c' = out c → out_cursor c' = out_cursor c → out_bytes c' = out_bytes c →
  codel_dropped c' = codel_dropped c → drophead_dropped c' = drophead_dropped c →
  stream_ok queued wire sent c → stream_ok queued wire sent c'.
Proof. intros Ho Hc Hb Hcd Hdh [? ? ? ? ?]. split; rewrite ?Ho, ?Hc, ?Hb, ?Hcd, ?Hdh; done. Qed.

Lemma out_step_ok w op : world_ok w → world_ok (out_step w op).
Proof.
  intros [[sent Hs] Hi Ho]. destruct op as [frame now|sink now|n|n| |]; simpl.
  - destruct (queue_stream _ _ _ frame now _ Hs) as [Hs' [Hb1 Hb2 _ _]].
    split; simpl; [by exists sent|lia..].
  - pose proof (flush_script_spec _ sink WRITEV_MAX_BYTES now _ _ _ Hs) as Hf. unfold flush_plain.
    destruct (flush_script _ _ _ _ _) as [[[c' wire'] sink'] st].
    destruct Hf as ([more Hm] & [Hb1 Hb2 _ _] & _). split; simpl; [by eexists|lia..].
  - split; simpl; [exists sent; by eapply stream_ok_same; [..|exact Hs]|..];
      unfold accounted_bytes, outbound_bytes in *; simpl; lia.
  - split; simpl; [exists sent; by eapply stream_ok_same; [..|exact Hs]|..];
      unfold accounted_bytes, outbound_bytes in *; simpl; lia.
  - split; simpl; [exists sent; by eapply stream_ok_same; [..|exact Hs]|..];
      unfold accounted_bytes, outbound_bytes in *; simpl; lia.
  - split; simpl; [exists sent; by eapply stream_ok_same; [..|exact Hs]|..];
      unfold accounted_bytes, outbound_bytes in *; simpl; lia.
Qed.

Lemma out_run_ok hw p ops : world_ok (out_run hw p ops).
Proof.
  assert (world_ok (mkWorld (set_codel p (Connection_new hw)) [] [] 0 0)) as Hinit.
  { split; simpl; [|done..]. exists []. split; simpl; try done. by left. }
  unfold out_run. revert Hinit. generalize (mkWorld (set_codel p (Connection_new hw)) [] [] 0 0).
  induction ops as [|op ops IH]; intros w Hw; simpl; [done|]. by apply IH, out_step_ok.
Qed.

(** ** Properties *)

(** C35. Whatever is queued and however the socket accepts bytes (short writes,
    blocks, interrupts, errors), the peer receives whole frames in queue
    order followed by a proper prefix of the frame now at the front: no byte
    stream is ever spliced; and every queued frame is sent whole, still
    queued, or counted as dropped. *)
Theorem stream_integrity (hw : Z) (p : CodelParams) (ops : list out_op) :
  let w := out_run hw p ops in
  ∃ sent, w_wire w = bytes_of sent ++ front_part (out_cursor (w_conn w)) (out (w_conn w)) ∧
    cursor_fits (out_cursor (w_conn w)) (out (w_conn w)) ∧
    sublist (sent ++ out (w_conn w)) (w_queued w) ∧
    Z.of_nat (length (sent ++ out (w_conn w))) + codel_dropped (w_conn w)
      + drophead_dropped (w_conn w) = Z.of_nat (length (w_queued w)).
Proof. destruct (out_run_ok hw p ops) as [[sent []] _ _]. by exists sent. Qed.

(** The byte accounting never drifts: after any history, [out_bytes] is
    the sum of the queued frame lengths, and the deltas the worker took plus
    the pending one equal the accounted (respectively outbound) bytes. *)
Theorem byte_accounting_exact (hw : Z) (p : CodelParams) (ops : list out_op) :
  let w := out_run hw p ops in
  out_bytes (w_conn w) = total (out (w_conn w)) ∧
  w_inflight w + inflight_delta (w_conn w) = accounted_bytes (w_conn w) ∧
  w_outbound w + outbound_delta (w_conn w) = outbound_bytes (w_conn w).
Proof. by destruct (out_run_ok hw p ops) as [[sent []] ? ?]. Qed.

(** [queue] is exact drop-head: it appends the frame after evicting the
    fewest oldest droppable frames, never the one mid-write, until the frame
    fits under [high_water] or nothing droppable is left. *)
Theorem queue_drops_oldest (hw : Z) (p : CodelParams) (ops : list out_op)
    (frame : list Z) (now : Z) :
  let c := w_conn (out_run hw p ops) in
  let c' := (queue frame now c).1 in
  let k := (queue frame now c).2 in
  let locked := if (0 <? out_cursor c)%nat then 1%nat else 0%nat in
  out c' = take locked (out c) ++ drop (locked + k) (out c) ++ [(frame, now)] ∧
  drophead_dropped c' = drophead_dropped c + Z.of_nat k ∧
  (out_bytes c' <= high_water c ∨ (length (out c') <= locked + 1)%nat) ∧
  (∀ j, (j < k)%nat →
     high_water c < out_bytes c - total (take j (drop locked (out c)))
                    + Z.of_nat (length frame)).
Proof.
  intros c c' k locked. subst c' k.
  destruct (queue_eq frame now c) as (k & c1 & -> & [Hout Hcnt _ _ _ _ Hsb Hmin] & Hend).
  simpl. fold (locked_of c) in locked. subst locked. split_and!.
  - by rewrite Hout, <-app_assoc.
  - done.
  - rewrite length_app. simpl. rewrite (sb_high_water _ _ Hsb) in Hend. lia.
  - done.
Qed.

(** The flush loop terminates: it returns as soon as the socket has
    answered more often than there are unsent bytes and interruptions, and
    [Drained] means the queue is empty. *)
Theorem flush_returns (hw : Z) (p : CodelParams) (ops : list out_op)
    (sink : list IoResult) (now : Z) :
  let w := out_run hw p ops in
  let r := flush_plain sink now (w_conn w) (w_wire w) in
  unsent (w_conn w) + Z.of_nat (interrupts sink) < Z.of_nat (length sink) →
  ∃ st, r.2 = Some st ∧ (st = Drained → out r.1.1.1 = []).
Proof.
  intros w r Hlen. destruct (out_run_ok hw p ops) as [[sent Hs] _ _]. fold w in Hs.
  pose proof (flush_terminates _ sink WRITEV_MAX_BYTES now _ _ _ Hs Hlen) as Hne.
  pose proof (flush_script_spec _ sink WRITEV_MAX_BYTES now _ _ _ Hs) as Hf.
  subst r. unfold flush_plain. destruct (flush_script _ _ _ _ _) as [[[c' wire'] sink'] st].
  destruct st as [st|]; [|done]. exists st. split; [done|]. intros ->. by apply Hf.
Qed.

(** CoDel drops only a prefix of stale frames: each one has waited more
    than twice the target, the frame mid-write and the last remaining frame
    are never dropped, and a zero target drops nothing. *)
Theorem codel_drops_only_stale (front_locked : bool) (now : Z) (c : Connection) :
  let c' := codel_dequeue front_locked now c in
  ∃ dropped, out c = dropped ++ out c' ∧
    codel_dropped c' = codel_dropped c + Z.of_nat (length dropped) ∧
    Forall (λ f, U64.saturating_mul (target_ns (codel c)) 2
                 < U64.saturating_sub now f.2) dropped ∧
    (front_locked = true ∨ target_ns (codel c) = 0 → dropped = []) ∧
    (out c ≠ [] → out c' ≠ []).
Proof.
  intros c'. destruct (codel_dequeue_spec front_locked now c)
    as (d & [Ho _ Hc _ _ _ Hl Hst Hlast] & Hdis).
  exists d. split_and!; try done. intros [?|Ht]; [by apply Hl|].
  apply Hdis. unfold enabled. by rewrite Ht.
Qed.

(** ** Concrete inputs *)

Definition demo_world : World :=
  out_run 6 CodelParams_DISABLED
    [OQueue [1; 2; 3] 0; OQueue [4; 5] 1; OFlush [Room 2; IoWouldBlock] 2; OQueue [6; 7; 8] 3].

(** A partly written front survives an eviction: the second frame goes instead. *)
Example demo_world_evicts_second :
  out (w_conn demo_world) = [([1; 2; 3], 0); ([6; 7; 8], 3)] ∧ w_wire demo_world = [1; 2].
Proof. split; by_eval. Qed.

Lemma flush_returns_witness :
  let w := out_run 6 CodelParams_DISABLED [OQueue [1; 2; 3] 0] in
  ∃ st, (flush_plain [Room 1; IoInterrupted; Room 1; Room 9; Room 9] 1 (w_conn w) (w_wire w)).2
          = Some st ∧
    (st = Drained →
     out (flush_plain [Room 1; IoInterrupted; Room 1; Room 9; Room 9] 1
            (w_conn w) (w_wire w)).1.1.1 = []).
Proof.
  apply (flush_returns 6 CodelParams_DISABLED [OQueue [1; 2; 3] 0]
           [Room 1; IoInterrupted; Room 1; Room 9; Room 9] 1).
  vm_compute. reflexivity.
Defined.
