(* ===== verification/Fanout.v ===== *)
(** * The sharded broadcast hand-off: [src/src/transport/fanout.rs]

    The worker slots are shared between the sink, the saturation flag and the
    workers, so they live in one table keyed by identity; the sink and the flag
    hold lists of keys. A slot's bounded channel is its queue of messages. *)

From S2P Require Import Prelude RustStd Json Protocol Frame.

Record BroadcastMsg : Type := mkBroadcastMsg {
  bm_app : string;
  bm_channel : string;
  bm_frames : list (Z * list Z);
  bm_except : option SocketId
}.

Record WorkerSlot : Type := mkWorkerSlot {
  ws_inbox : list BroadcastMsg;
  ws_cap : nat;
  ws_gone : bool;
  ws_wakes : option nat;
  ws_dropped : Z;
  ws_budget_saturated : bool
}.

(** The shared objects: the slots, and the state of the saturation flag. *)
Record Percore : Type := mkPercore {
  pc_slots : gmap nat WorkerSlot;
  pc_inbox_full : bool;
  pc_workers : option (list nat)
}.

Section with_json.
Context `{SerdeJson}.

(** One frame per version; [None] where [wire::encode] panics. *)
Definition frames_for (versions : list Z) (event : ServerEvent) : option (list (Z * list Z)) :=
  match event with
  | Raw f =>
      let frame := encode_text [] (as_bytes f) in
      Some ((λ v, (v, frame)) <$> versions)
  | other =>
      mapM (λ v, match wire_encode v other with
                 | Some json => Some (v, encode_text [] (as_bytes json))
                 | None => None
                 end) versions
  end.

End with_json.

(** ** [SaturationFlag] *)

Definition bind_workers (workers : list nat) (p : Percore) : Percore :=
  match pc_workers p with
  | None => mkPercore (pc_slots p) (pc_inbox_full p) (Some workers)
  | Some _ => p
  end.

Definition set_inbox_full (p : Percore) : Percore :=
  mkPercore (pc_slots p) true (pc_workers p).

Definition clear_inbox_full (p : Percore) : Percore :=
  mkPercore (pc_slots p) false (pc_workers p).

Definition budget_bit (p : Percore) (k : nat) : bool :=
  match pc_slots p !! k with Some s => ws_budget_saturated s | None => false end.

Definition flag_is_saturated (p : Percore) : bool :=
  pc_inbox_full p ||
  match pc_workers p with Some ws => existsb (budget_bit p) ws | None => false end.

(** ** [BroadcastSink] *)

(** [SyncSender::try_send] on the slot, then the wake. *)
Definition offer (msg : BroadcastMsg) (s : WorkerSlot) : WorkerSlot * option unit :=
  if ws_gone s then (s, Some tt)
  else if (ws_cap s <=? length (ws_inbox s))%nat then
    (mkWorkerSlot (ws_inbox s) (ws_cap s) false (ws_wakes s)
       ((ws_dropped s + 1) mod 2 ^ 64)%Z (ws_budget_saturated s), None)
  else
    (mkWorkerSlot (ws_inbox s ++ [msg]) (ws_cap s) false (S <$> ws_wakes s) (ws_dropped s)
       (ws_budget_saturated s), Some tt).

Definition offer_to (msg : BroadcastMsg) (p : Percore) (k : nat) : Percore :=
  match pc_slots p !! k with
  | None => p
  | Some s =>
      match offer msg s with
      | (s, Some _) => mkPercore (<[k := s]> (pc_slots p)) (pc_inbox_full p) (pc_workers p)
      | (s, None) => set_inbox_full (mkPercore (<[k := s]> (pc_slots p)) (pc_inbox_full p) (pc_workers p))
      end
  end.

Definition sink_broadcast (workers : list nat) (app channel : string)
    (frames : list (Z * list Z)) (except : option SocketId) (p : Percore) : Percore :=
  foldl (offer_to (mkBroadcastMsg app channel frames except)) p workers.

(** ** Lemmas *)

(** The slot cannot take a message now. *)
Definition slot_full (s : WorkerSlot) : bool :=
  negb (ws_gone s) && (ws_cap s <=? length (ws_inbox s)).

Definition full_at (p : Percore) (k : nat) : bool :=
  match pc_slots p !! k with Some s => slot_full s | None => false end.

Lemma offer_full msg s : (offer msg s).2 = None ↔ slot_full s = true.
Proof.
  unfold offer, slot_full. destruct (ws_gone s); [done|]. simpl. by destruct (_ <=? _).
Qed.

Lemma offer_to_slots msg p k :
  pc_slots (offer_to msg p k) = alter (λ s, (offer msg s).1) k (pc_slots p).
Proof.
  apply map_eq. intros i. unfold offer_to. destruct (pc_slots p !! k) as [s|] eqn:Hs.
  - destruct (offer msg s) as [s' [[]|]] eqn:Ho; simpl;
      (destruct (decide (i = k)) as [->|Hi];
       [rewrite lookup_insert_eq, lookup_alter_eq, Hs; simpl; by rewrite Ho
       |by rewrite lookup_insert_ne, lookup_alter_ne]).
  - destruct (decide (i = k)) as [->|Hi]; [|by rewrite lookup_alter_ne].
    by rewrite lookup_alter_eq, Hs.
Qed.

Lemma offer_to_flag msg p k :
  pc_inbox_full (offer_to msg p k) = pc_inbox_full p || full_at p k.
Proof.
  unfold offer_to, full_at. destruct (pc_slots p !! k) as [s|]; [|by rewrite orb_false_r].
  destruct (offer msg s) as [s' [[]|]] eqn:Ho; simpl.
  - destruct (slot_full s) eqn:Hf; [|by rewrite orb_false_r].
    apply (offer_full msg) in Hf. by rewrite Ho in Hf.
  - rewrite (proj1 (offer_full msg s)) by by rewrite Ho. by rewrite orb_true_r.
Qed.

Lemma offer_to_workers msg p k : pc_workers (offer_to msg p k) = pc_workers p.
Proof.
  unfold offer_to. destruct (pc_slots p !! k) as [s|]; [|done].
  by destruct (offer msg s) as [? [[]|]].
Qed.

Lemma offer_to_full_at msg p k k' : k ≠ k' → full_at (offer_to msg p k) k' = full_at p k'.
Proof. intros Hk. unfold full_at. by rewrite offer_to_slots, lookup_alter_ne. Qed.

Section handed_off.
Context (workers : list nat) (msg : BroadcastMsg).

(** Every listed slot was offered the message once. *)
Lemma offers_spec p :
  NoDup workers →
  let p' := foldl (offer_to msg) p workers in
  (∀ k, pc_slots p' !! k =
        if decide (k ∈ workers) then (λ s, (offer msg s).1) <$> pc_slots p !! k
        else pc_slots p !! k) ∧
  pc_inbox_full p' = pc_inbox_full p || existsb (full_at p) workers ∧
  pc_workers p' = pc_workers p.
Proof.
  revert p. induction workers as [|w ws IH]; intros p Hnd; cbn [foldl existsb].
  { rewrite orb_false_r. split_and!; [|done..]. intros k. by rewrite decide_False by set_solver. }
  apply NoDup_cons in Hnd as [Hw Hnd]. destruct (IH (offer_to msg p w) Hnd) as (Hs & Hf & Hp).
  split_and!.
  - intros k. rewrite Hs, offer_to_slots. destruct (decide (k = w)) as [->|Hk].
    + rewrite decide_False by done. rewrite decide_True by set_solver. by rewrite lookup_alter_eq.
    + rewrite lookup_alter_ne by done. destruct (decide (k ∈ ws)).
      * by rewrite decide_True by set_solver.
      * by rewrite decide_False by set_solver.
  - rewrite Hf, offer_to_flag, <-orb_assoc. f_equal. f_equal.
    assert (∀ l, w ∉ l → existsb (full_at (offer_to msg p w)) l = existsb (full_at p) l) as He.
    { induction l as [|x l IHl]; simpl; [done|]. intros Hx.
      rewrite offer_to_full_at by set_solver. by rewrite IHl by set_solver. }
    by apply He.
  - by rewrite Hp, offer_to_workers.
Qed.

End handed_off.

Section frames.
Context `{SerdeJson}.

(** The text every subscriber of the active versions receives. *)
Definition event_text (event : ServerEvent) : string :=
  match event with Raw f => f | other => wire_encode_first other end.

Lemma frames_for_active event :
  frames_for all_versions event = Some [(7%Z, encode_text [] (as_bytes (event_text event)))].
Proof. by destruct event. Qed.
End frames.

(** ** Properties *)

(** A sharded broadcast is offered to every worker exactly once: a live
    worker with room gets the message at the tail of its inbox and one wake, a
    full one loses it and counts the drop, a dead one and every other worker are
    untouched; no budget bit moves, and the node reads as saturated afterwards
    exactly when it did before or some worker was full. *)
Theorem sink_hands_off_once (workers : list nat) (app channel : string)
    (frames : list (Z * list Z)) (except : option SocketId) (p : Percore) :
  NoDup workers →
  let msg := mkBroadcastMsg app channel frames except in
  let p' := sink_broadcast workers app channel frames except p in
  (∀ k s, k ∈ workers → pc_slots p !! k = Some s →
     ∃ s', pc_slots p' !! k = Some s' ∧
       ws_budget_saturated s' = ws_budget_saturated s ∧ ws_cap s' = ws_cap s ∧
       (ws_gone s = true → s' = s) ∧
       (ws_gone s = false → ws_cap s ≤ length (ws_inbox s) →
          ws_inbox s' = ws_inbox s ∧ ws_wakes s' = ws_wakes s ∧
          ws_dropped s' = ((ws_dropped s + 1) mod 2 ^ 64)%Z) ∧
       (ws_gone s = false → length (ws_inbox s) < ws_cap s →
          ws_inbox s' = ws_inbox s ++ [msg] ∧ ws_wakes s' = S <$> ws_wakes s ∧
          ws_dropped s' = ws_dropped s)) ∧
  (∀ k, k ∉ workers → pc_slots p' !! k = pc_slots p !! k) ∧
  flag_is_saturated p' = flag_is_saturated p || existsb (full_at p) workers.
Proof.
  intros Hnd msg p'. destruct (offers_spec workers msg p Hnd) as (Hs & Hf & Hw).
  change (foldl _ p workers) with p' in *. split_and!.
  - intros k s Hk Hsk. exists (offer msg s).1. rewrite Hs, decide_True, Hsk by done.
    split; [done|]. unfold offer. destruct (ws_gone s); [by split_and!|].
    destruct (Nat.leb_spec (ws_cap s) (length (ws_inbox s))); simpl;
      split_and!; try done; intros; lia.
  - intros k Hk. by rewrite Hs, decide_False.
  - assert (∀ k, budget_bit p' k = budget_bit p k) as Hb.
    { intros k. unfold budget_bit. rewrite Hs. destruct (decide (k ∈ workers)); [|done].
      destruct (pc_slots p !! k) as [s|]; [|done]. simpl. unfold offer.
      destruct (ws_gone s); [done|]. by destruct (_ <=? _). }
    unfold flag_is_saturated. rewrite Hf, Hw.
    assert (match pc_workers p with Some ws => existsb (budget_bit p') ws | None => false end =
            match pc_workers p with Some ws => existsb (budget_bit p) ws | None => false end) as ->.
    { destruct (pc_workers p) as [ws|]; [|done]. clear -Hb. induction ws as [|k ws IH]; simpl; [done|]. by rewrite Hb, IH. }
    destruct (pc_inbox_full p), (existsb (full_at p) workers); simpl; by rewrite ?orb_true_r, ?orb_false_r.
Qed.

Module FanoutDemo.
Definition slot (cap : nat) : WorkerSlot := mkWorkerSlot [] cap false (Some 0) 0 false.
Definition node : Percore := mkPercore {[0 := slot 1; 1 := slot 0]} false (Some [0; 1]).
End FanoutDemo.

Lemma sink_hands_off_once_witness :
  flag_is_saturated (sink_broadcast [0; 1] "app" "room" [] None FanoutDemo.node) =
  flag_is_saturated FanoutDemo.node || existsb (full_at FanoutDemo.node) [0; 1].
Proof.
  destruct (sink_hands_off_once [0; 1] "app" "room" [] None FanoutDemo.node) as (_ & _ & Hf).
  - repeat constructor; set_solver.
  - exact Hf.
Defined.
