(* ===== verification/WorkerIndex.v ===== *)
(** * The worker's subscription index and shed bands: [src/src/transport/worker.rs]

    [LocalSubs] maps each channel to the connections of this worker that are in
    it. [reconcile_membership] brings it up to date with a session's protocol
    state and [deindex_connection] removes a closing session. Of a [Session]
    the model keeps the fields the index reads. *)

From S2P Require Import Prelude RustStd Json Protocol Outbound Fanout.

(** ** Shed bands *)

Module Shed.
Inductive ShedBand : Type := Normal | Pressure | Severe | Saturated.

#[export] Instance ShedBand_eq_dec : EqDecision ShedBand.
Proof. solve_decision. Defined.

Definition shed_band (inflight budget : Z) : ShedBand :=
  if (budget =? 0)%Z then Normal
  else
    let scaled := U64.saturating_mul inflight 100 in
    if (scaled <? U64.saturating_mul budget 80)%Z then Normal
    else if (scaled <? U64.saturating_mul budget 95)%Z then Pressure
    else if (scaled <? U64.saturating_mul budget 100)%Z then Severe
    else Saturated.

Definition BUDGET_PRESSURE_RELEASE_BAND : ShedBand := Normal.

Definition update_budget_pressure (bit : bool) (inflight budget : Z) : bool :=
  let band := shed_band inflight budget in
  if decide (band = Saturated) then true
  else if decide (band = BUDGET_PRESSURE_RELEASE_BAND) then false
  else bit.

Definition should_skip (band : ShedBand) (out_bytes high_water : Z) : bool :=
  match band with
  | Normal => false
  | Pressure => (high_water <? out_bytes * 2)%Z
  | Severe => (high_water <? out_bytes * 16)%Z
  | Saturated => true
  end.
End Shed.
Import Shed.

(** ** The index *)

Abbreviation subs_of_channel := (gmap SocketId (nat * Z)).
Definition LocalSubs : Type := gmap (string * string) (gmap SocketId (nat * Z)).

Record Session : Type := mkSession {
  s_app : string;
  s_socket_id : SocketId;
  s_version : Z;
  s_subscribed : gset string;
  s_subs : gset string
}.

Definition set_subs (subs : gset string) (s : Session) : Session :=
  mkSession (s_app s) (s_socket_id s) (s_version s) (s_subscribed s) subs.

Definition set_subscribed (subscribed : gset string) (s : Session) : Session :=
  mkSession (s_app s) (s_socket_id s) (s_version s) subscribed (s_subs s).

(** [entry(k).or_default().insert(sid, e)]. *)
Definition index_insert (k : string * string) (sid : SocketId) (e : nat * Z) (m : LocalSubs)
    : LocalSubs :=
  <[k := <[sid := e]> (default ∅ (m !! k))]> m.

(** Remove the subscriber, and the channel with its last one. *)
Definition index_remove (k : string * string) (sid : SocketId) (m : LocalSubs) : LocalSubs :=
  match m !! k with
  | None => m
  | Some subs =>
      let subs := delete sid subs in
      if decide (subs = ∅) then delete k m else <[k := subs]> m
  end.

Definition deindex_connection (s : Session) (m : LocalSubs) : LocalSubs :=
  let union := elements (s_subscribed s) ++ elements (s_subs s ∖ s_subscribed s) in
  foldl (λ m channel, index_remove (s_app s, channel) (s_socket_id s) m) m union.

Definition reconcile_membership (s : Session) (token : nat) (m : LocalSubs)
    : Session * LocalSubs :=
  if decide (s_subs s = s_subscribed s) then (s, m)
  else
    let entry := (token, s_version s) in
    let added := elements (s_subscribed s ∖ s_subs s) in
    let m := foldl (λ m channel, index_insert (s_app s, channel) (s_socket_id s) entry m) m added in
    let subs := s_subs s ∪ list_to_set added in
    let removed := elements (filter (λ c, c ∉ s_subscribed s) subs) in
    let m := foldl (λ m channel, index_remove (s_app s, channel) (s_socket_id s) m) m removed in
    (set_subs (filter (λ c, c ∈ s_subscribed s) subs) s, m).

(** ** Lookups *)

Definition indexed (m : LocalSubs) (k : string * string) (sid : SocketId) : option (nat * Z) :=
  m !! k ≫= (λ subs : subs_of_channel, subs !! sid).

Definition no_empty_channel (m : LocalSubs) : Prop := ∀ k, m !! k ≠ Some ∅.

Lemma indexed_insert m k sid e k' sid' :
  indexed (index_insert k sid e m) k' sid' =
  if decide (k' = k ∧ sid' = sid) then Some e else indexed m k' sid'.
Proof.
  unfold indexed, index_insert, LocalSubs in *. destruct (decide (k' = k)) as [->|Hk].
  - rewrite lookup_insert_eq. simpl. destruct (decide (sid' = sid)) as [->|Hs].
    + by rewrite lookup_insert_eq, decide_True.
    + rewrite lookup_insert_ne, decide_False by naive_solver. by destruct (m !! k).
  - by rewrite lookup_insert_ne, decide_False by naive_solver.
Qed.

Lemma indexed_remove m k sid k' sid' :
  indexed (index_remove k sid m) k' sid' =
  if decide (k' = k ∧ sid' = sid) then None else indexed m k' sid'.
Proof.
  unfold indexed, index_remove, LocalSubs in *. destruct (m !! k) as [subs|] eqn:Hm.
  2:{ case_decide as Hd; [|done]. destruct Hd as [-> ->]. by rewrite Hm. }
  destruct (decide (k' = k)) as [->|Hk].
  - assert (delete sid subs !! sid' = if decide (k = k ∧ sid' = sid) then None else subs !! sid')
      as Hd.
    { destruct (decide (sid' = sid)) as [->|Hs].
      - by rewrite lookup_delete_eq, decide_True.
      - by rewrite lookup_delete_ne, decide_False by naive_solver. }
    rewrite Hm. simpl. rewrite <-Hd. clear Hd. case_decide as He.
    + by rewrite lookup_delete_eq, He, lookup_empty.
    + by rewrite lookup_insert_eq.
  - rewrite (decide_False (P := k' = k ∧ sid' = sid)) by (by intros [? _]).
    case_decide; by rewrite ?lookup_delete_ne, ?lookup_insert_ne by done.
Qed.

Lemma no_empty_index_insert m k sid e :
  no_empty_channel m → no_empty_channel (index_insert k sid e m).
Proof.
  intros Hm k'. unfold index_insert, LocalSubs in *. destruct (decide (k' = k)) as [->|Hk].
  - rewrite lookup_insert_eq. intros [= He]. by apply insert_non_empty in He.
  - rewrite lookup_insert_ne by done. apply Hm.
Qed.

Lemma no_empty_index_remove m k sid :
  no_empty_channel m → no_empty_channel (index_remove k sid m).
Proof.
  intros Hm k'. unfold index_remove, LocalSubs in *. destruct (m !! k) as [subs|]; [|apply Hm].
  case_decide as He; destruct (decide (k' = k)) as [->|Hk];
    rewrite ?lookup_delete_eq, ?lookup_delete_ne, ?lookup_insert_eq, ?lookup_insert_ne by done;
    try apply Hm; congruence.
Qed.

Section loops.
Context (app : string) (sid : SocketId) (e : nat * Z).

Lemma indexed_insert_loop l m k' sid' :
  indexed (foldl (λ m channel, index_insert (app, channel) sid e m) m l) k' sid' =
  if decide (k'.1 = app ∧ sid' = sid ∧ k'.2 ∈ l) then Some e else indexed m k' sid'.
Proof.
  revert m. induction l as [|c l IH]; intros m; cbn [foldl].
  { by rewrite decide_False by set_solver. }
  rewrite IH, indexed_insert. destruct k' as [a c']. simpl.
  repeat case_decide; try done; destruct_and?; simplify_eq; set_solver.
Qed.

Lemma indexed_remove_loop l m k' sid' :
  indexed (foldl (λ m channel, index_remove (app, channel) sid m) m l) k' sid' =
  if decide (k'.1 = app ∧ sid' = sid ∧ k'.2 ∈ l) then None else indexed m k' sid'.
Proof.
  revert m. induction l as [|c l IH]; intros m; cbn [foldl].
  { by rewrite decide_False by set_solver. }
  rewrite IH, indexed_remove. destruct k' as [a c']. simpl.
  repeat case_decide; try done; destruct_and?; simplify_eq; set_solver.
Qed.

Lemma no_empty_insert_loop l m :
  no_empty_channel m →
  no_empty_channel (foldl (λ m channel, index_insert (app, channel) sid e m) m l).
Proof. revert m. induction l; intros m Hm; simpl; [done|]. auto using no_empty_index_insert. Qed.

Lemma no_empty_remove_loop l m :
  no_empty_channel m →
  no_empty_channel (foldl (λ m channel, index_remove (app, channel) sid m) m l).
Proof. revert m. induction l; intros m Hm; simpl; [done|]. auto using no_empty_index_remove. Qed.
End loops.

(** ** A worker's life *)

Record IndexWorld : Type := mkIndexWorld {
  iw_sessions : gmap nat Session;
  iw_subs : LocalSubs
}.

Inductive index_op : Type :=
| IOpen (token : nat) (app : string) (sid : SocketId) (version : Z)
| IDispatch (token : nat) (subscribed : gset string)
| IReconcile (token : nat)
| IClose (token : nat).

(** A new session takes a vacant slab slot and an unused socket id; a dispatch
    leaves the protocol state in any condition; a close de-indexes the session
    whether or not it was reconciled. *)
Inductive index_step : IndexWorld → index_op → IndexWorld → Prop :=
| index_open w token app sid version :
    iw_sessions w !! token = None →
    (∀ t s, iw_sessions w !! t = Some s → s_app s = app → s_socket_id s ≠ sid) →
    index_step w (IOpen token app sid version)
      (mkIndexWorld (<[token := mkSession app sid version ∅ ∅]> (iw_sessions w)) (iw_subs w))
| index_dispatch w token s subscribed :
    iw_sessions w !! token = Some s →
    index_step w (IDispatch token subscribed)
      (mkIndexWorld (<[token := set_subscribed subscribed s]> (iw_sessions w)) (iw_subs w))
| index_reconcile w token s :
    iw_sessions w !! token = Some s →
    index_step w (IReconcile token)
      (mkIndexWorld (<[token := (reconcile_membership s token (iw_subs w)).1]> (iw_sessions w))
         (reconcile_membership s token (iw_subs w)).2)
| index_close w token s :
    iw_sessions w !! token = Some s →
    index_step w (IClose token)
      (mkIndexWorld (delete token (iw_sessions w)) (deindex_connection s (iw_subs w))).

Inductive index_reach : list index_op → IndexWorld → Prop :=
| index_init : index_reach [] (mkIndexWorld ∅ ∅)
| index_more tr w op w' :
    index_reach tr w → index_step w op w' → index_reach (tr ++ [op]) w'.

(** The session at [token] is recorded in channel [k]. *)
Definition recorded (w : IndexWorld) (k : string * string) (sid : SocketId) (token : nat) (v : Z)
    : Prop :=
  ∃ s, iw_sessions w !! token = Some s ∧ s_app s = k.1 ∧ s_socket_id s = sid ∧
    s_version s = v ∧ k.2 ∈ s_subs s.

Record index_ok (w : IndexWorld) : Prop := {
  ix_exact : ∀ k sid token v,
    indexed (iw_subs w) k sid = Some (token, v) ↔ recorded w k sid token v;
  ix_no_empty : no_empty_channel (iw_subs w);
  ix_unique : ∀ t1 t2 s1 s2, iw_sessions w !! t1 = Some s1 → iw_sessions w !! t2 = Some s2 →
    s_app s1 = s_app s2 → s_socket_id s1 = s_socket_id s2 → t1 = t2
}.

Lemma reconcile_fields s token m :
  let s' := (reconcile_membership s token m).1 in
  s_app s' = s_app s ∧ s_socket_id s' = s_socket_id s ∧ s_version s' = s_version s ∧
  s_subscribed s' = s_subscribed s ∧ s_subs s' = s_subscribed s.
Proof.
  unfold reconcile_membership. case_decide as Hs; simpl; split_and!; try done.
  apply set_eq. intros c. rewrite elem_of_filter. set_unfold.
  destruct (decide (c ∈ s_subs s)); tauto.
Qed.

Lemma reconcile_indexed s token m k sid :
  (∀ c, c ∈ s_subs s → indexed m (s_app s, c) (s_socket_id s) = Some (token, s_version s)) →
  (∀ c, c ∉ s_subs s → indexed m (s_app s, c) (s_socket_id s) = None) →
  indexed (reconcile_membership s token m).2 k sid =
  if decide (k.1 = s_app s ∧ sid = s_socket_id s) then
    if decide (k.2 ∈ s_subscribed s) then Some (token, s_version s) else None
  else indexed m k sid.
Proof.
  intros Hin Hout. unfold reconcile_membership. destruct k as [a c]. simpl.
  destruct (decide (s_subs s = s_subscribed s)) as [Hs|Hs].
  - simpl. case_decide as Hk; [|done]. destruct Hk as [-> ->]. case_decide; rewrite <-Hs in *; auto.
  - simpl. rewrite indexed_remove_loop, indexed_insert_loop. simpl.
    destruct (decide (a = s_app s ∧ sid = s_socket_id s)) as [[-> ->]|Hk].
    2:{ rewrite !decide_False by naive_solver. done. }
    specialize (Hin c). specialize (Hout c).
    repeat case_decide; try done; destruct_and?; destruct (decide (c ∈ s_subs s)) as [Hc|Hc];
      auto; exfalso; set_solver.
Qed.

Lemma no_empty_reconcile s token m :
  no_empty_channel m → no_empty_channel (reconcile_membership s token m).2.
Proof.
  intros Hm. unfold reconcile_membership. case_decide; simpl; [done|].
  by apply no_empty_remove_loop, no_empty_insert_loop.
Qed.

Lemma deindex_indexed s m k sid :
  (∀ c, c ∉ s_subs s → indexed m (s_app s, c) (s_socket_id s) = None) →
  indexed (deindex_connection s m) k sid =
  if decide (k.1 = s_app s ∧ sid = s_socket_id s) then None else indexed m k sid.
Proof.
  intros Hout. unfold deindex_connection. rewrite indexed_remove_loop. destruct k as [a c]. simpl.
  destruct (decide (a = s_app s ∧ sid = s_socket_id s)) as [[-> ->]|Hk].
  2:{ rewrite !decide_False by naive_solver. done. }
  case_decide; [done|]. apply Hout. destruct (decide (c ∈ s_subscribed s)); set_solver.
Qed.

(** A session's own entries, from the invariant. *)
Lemma own_entries w token s :
  index_ok w → iw_sessions w !! token = Some s →
  (∀ c, c ∈ s_subs s →
    indexed (iw_subs w) (s_app s, c) (s_socket_id s) = Some (token, s_version s)) ∧
  (∀ c, c ∉ s_subs s → indexed (iw_subs w) (s_app s, c) (s_socket_id s) = None).
Proof.
  intros [Hex _ Huni] Hs. split; intros c Hc.
  - apply Hex. by exists s.
  - destruct (indexed _ _ _) as [[t v]|] eqn:Hi; [|done].
    apply Hex in Hi as (s' & Hs' & Ha & Hsid & _ & Hc'). simpl in *.
    assert (t = token) as -> by by eapply Huni. by simplify_eq.
Qed.

(** Changing the session at one token, its app and id kept. *)
Lemma recorded_insert w token s s' m k sid t v :
  iw_sessions w !! token = Some s → s_app s' = s_app s → s_socket_id s' = s_socket_id s →
  s_version s' = s_version s →
  recorded (mkIndexWorld (<[token := s']> (iw_sessions w)) m) k sid t v ↔
  (t ≠ token ∧ recorded w k sid t v) ∨
  (t = token ∧ s_app s = k.1 ∧ s_socket_id s = sid ∧ s_version s = v ∧ k.2 ∈ s_subs s').
Proof.
  intros Hs Ha Hsid Hv. unfold recorded. simpl. destruct (decide (t = token)) as [->|Ht].
  - rewrite lookup_insert_eq. split.
    + intros (? & [= <-] & ?). right. rewrite <-Ha, <-Hsid, <-Hv. tauto.
    + intros [[? _]|(_ & ?)]; [done|]. exists s'. rewrite Ha, Hsid, Hv. tauto.
  - rewrite lookup_insert_ne by done. naive_solver.
Qed.

Lemma unique_insert w token s s' :
  index_ok w → iw_sessions w !! token = Some s →
  s_app s' = s_app s → s_socket_id s' = s_socket_id s →
  ∀ t1 t2 s1 s2, <[token := s']> (iw_sessions w) !! t1 = Some s1 →
    <[token := s']> (iw_sessions w) !! t2 = Some s2 →
    s_app s1 = s_app s2 → s_socket_id s1 = s_socket_id s2 → t1 = t2.
Proof.
  intros [_ _ Huni] Hs Ha Hsid t1 t2 s1 s2 H1 H2 Ha' Hs'.
  apply lookup_insert_Some in H1 as [[<- <-]|[Hn1 H1]];
    apply lookup_insert_Some in H2 as [[<- <-]|[Hn2 H2]]; [done| | |by eapply Huni].
  - eapply Huni; [done..|congruence|congruence].
  - eapply Huni; [done..|congruence|congruence].
Qed.

Section steps.
Context (w : IndexWorld) (Hok : index_ok w).

Lemma index_open_ok token app sid v :
  iw_sessions w !! token = None →
  (∀ t s, iw_sessions w !! t = Some s → s_app s = app → s_socket_id s ≠ sid) →
  index_ok (mkIndexWorld (<[token := mkSession app sid v ∅ ∅]> (iw_sessions w)) (iw_subs w)).
Proof.
  intros Hfree Hfresh. destruct Hok as [Hex Hne Huni]. split; simpl; [|done|].
  - intros k sid' t v'. rewrite Hex. unfold recorded. simpl.
    destruct (decide (t = token)) as [->|Ht]; [|by rewrite lookup_insert_ne].
    rewrite lookup_insert_eq, Hfree. split; [naive_solver|].
    intros (s & [= <-] & _ & _ & _ & Hin). simpl in Hin. set_solver.
  - intros t1 t2 s1 s2 [[<- <-]|[? H1]]%lookup_insert_Some [[<- <-]|[? H2]]%lookup_insert_Some;
      simpl; [done| | |by eapply Huni].
    + intros Ha Hsid. by destruct (Hfresh _ _ H2).
    + intros Ha Hsid. by destruct (Hfresh _ _ H1).
Qed.

(** Another session cannot share the app and id of the one at [token]. *)
Lemma other_session token s k sid t v :
  iw_sessions w !! token = Some s → k.1 = s_app s → sid = s_socket_id s →
  recorded w k sid t v → t = token.
Proof.
  intros Hs Hk -> (s' & Hs' & Ha & Hsid & _). eapply (ix_unique w Hok); [done..|congruence|done].
Qed.

Lemma index_dispatch_ok token s sub :
  iw_sessions w !! token = Some s →
  index_ok (mkIndexWorld (<[token := set_subscribed sub s]> (iw_sessions w)) (iw_subs w)).
Proof.
  intros Hs. split; simpl; [|apply Hok|by eapply unique_insert].
  intros k sid t v. rewrite (ix_exact w Hok), (recorded_insert w token s) by done.
  unfold recorded. simpl. destruct (decide (t = token)) as [->|Ht]; [|naive_solver].
  rewrite Hs. naive_solver.
Qed.

Lemma index_reconcile_ok token s :
  iw_sessions w !! token = Some s →
  index_ok (mkIndexWorld (<[token := (reconcile_membership s token (iw_subs w)).1]> (iw_sessions w))
              (reconcile_membership s token (iw_subs w)).2).
Proof.
  intros Hs. destruct (own_entries w token s Hok Hs) as [Hin Hout].
  pose proof (reconcile_fields s token (iw_subs w)) as (Ha & Hsid & Hv & Hsub & Hsubs).
  split; simpl; [|apply no_empty_reconcile, Hok|by eapply unique_insert].
  intros k sid t v. rewrite (recorded_insert w token s) by done.
  rewrite reconcile_indexed by done. rewrite Hsubs.
  destruct (decide (k.1 = s_app s ∧ sid = s_socket_id s)) as [[Hk ->]|Hk].
  - pose proof (other_session token s k _ t v Hs Hk eq_refl) as Hother.
    case_decide as Hc; (split; [try done|]).
    + intros [= <- <-]. by right.
    + intros [[Ht Hr]|(-> & _ & _ & -> & _)]; [by apply Hother in Hr|done].
    + intros [[Ht Hr]|(_ & _ & _ & _ & ?)]; [by apply Hother in Hr|done].
  - rewrite (ix_exact w Hok). split.
    + intros Hr. left. split; [|done]. intros ->. destruct Hr as (s' & Hs' & ? & ? & _).
      apply Hk. by simplify_eq.
    + intros [[_ ?]|(-> & ? & ? & _)]; [done|]. by destruct Hk.
Qed.

Lemma index_close_ok token s :
  iw_sessions w !! token = Some s →
  index_ok (mkIndexWorld (delete token (iw_sessions w)) (deindex_connection s (iw_subs w))).
Proof.
  intros Hs. destruct (own_entries w token s Hok Hs) as [Hin Hout].
  split; simpl; [|apply no_empty_remove_loop, Hok|].
  2:{ intros t1 t2 s1 s2 [_ H1]%lookup_delete_Some [_ H2]%lookup_delete_Some.
      by eapply (ix_unique w Hok). }
  intros k sid t v. rewrite deindex_indexed by done. unfold recorded. simpl.
  setoid_rewrite lookup_delete_Some.
  destruct (decide (k.1 = s_app s ∧ sid = s_socket_id s)) as [[Hk ->]|Hk].
  - split; [done|]. intros (s' & [Ht Hs'] & Hr). exfalso. apply Ht. symmetry.
    apply (other_session token s k (s_socket_id s) t v); [done..|]. by exists s'.
  - rewrite (ix_exact w Hok). unfold recorded. split; [|naive_solver].
    intros (s' & Hs' & ? & ? & ?). exists s'. split; [|done]. split; [|done].
    intros <-. apply Hk. by simplify_eq.
Qed.
End steps.

Lemma index_step_ok w op w' : index_ok w → index_step w op w' → index_ok w'.
Proof.
  intros Hok Hstep. destruct Hstep; eauto using index_open_ok, index_dispatch_ok,
    index_reconcile_ok, index_close_ok.
Qed.

Lemma index_reach_ok tr w : index_reach tr w → index_ok w.
Proof.
  induction 1 as [|tr w op w' _ IH Hstep]; [|by eapply index_step_ok].
  split; simpl; [|done..]. intros k sid t v. unfold recorded. simpl. naive_solver.
Qed.

(** ** Bands, without saturation *)

Definition scales (n : Z) : Prop := (0 <= n ∧ n * 100 <= U64.MAX)%Z.

Lemma shed_band_cases inflight budget :
  scales inflight → scales budget → (0 < budget)%Z →
  (shed_band inflight budget = Saturated ↔ (budget <= inflight)%Z) ∧
  (shed_band inflight budget = Normal ↔ (inflight * 100 < budget * 80)%Z) ∧
  (shed_band inflight budget = Pressure ↔
     (budget * 80 <= inflight * 100 < budget * 95)%Z).
Proof.
  intros [Hi Hi'] [Hb Hb'] Hpos. unfold shed_band, U64.saturating_mul.
  rewrite !Z.min_l by lia.
  destruct (Z.eqb_spec budget 0); [lia|].
  destruct (Z.ltb_spec (inflight * 100) (budget * 80)); [split_and!; split; done || lia|].
  destruct (Z.ltb_spec (inflight * 100) (budget * 95)); [split_and!; split; done || lia|].
  destruct (Z.ltb_spec (inflight * 100) (budget * 100)); split_and!; split; done || lia.
Qed.

(** ** Properties *)

(** The worker's subscription index is exact in every reachable state: a
    channel lists a connection, with its slab token and protocol version, exactly
    when the session at that token has recorded the channel; no channel entry is
    empty. Reconciling records exactly the channels the protocol state has, and
    closing leaves no entry at the token, even when the last dispatch was never
    reconciled. *)
Theorem local_index_exact (tr : list index_op) (w : IndexWorld) :
  index_reach tr w →
  (∀ k sid token v, indexed (iw_subs w) k sid = Some (token, v) ↔ recorded w k sid token v) ∧
  no_empty_channel (iw_subs w) ∧
  (∀ token w' s, index_step w (IReconcile token) w' → iw_sessions w' !! token = Some s →
     s_subs s = s_subscribed s ∧
     ∀ channel, indexed (iw_subs w') (s_app s, channel) (s_socket_id s) =
       if decide (channel ∈ s_subscribed s) then Some (token, s_version s) else None) ∧
  (∀ token w', index_step w (IClose token) w' →
     ∀ k sid v, indexed (iw_subs w') k sid ≠ Some (token, v)).
Proof.
  intros Hr%index_reach_ok. split_and!; [apply Hr|apply Hr| |].
  - intros token w' s Hstep Hs. pose proof (index_step_ok _ _ _ Hr Hstep) as Hok'.
    destruct (own_entries _ _ _ Hok' Hs) as [Hin Hout].
    inversion Hstep as [| |? ? s0 Hs0 |]; subst. simpl in *. rewrite lookup_insert_eq in Hs.
    injection Hs as <-.
    pose proof (reconcile_fields s0 token (iw_subs w)) as (_ & _ & _ & Hsub & Hsubs).
    split; [congruence|]. intros channel. rewrite Hsub, <-Hsubs. case_decide; auto.
  - intros token w' Hstep k sid v Hi. pose proof (index_step_ok _ _ _ Hr Hstep) as Hok'.
    apply (ix_exact _ Hok') in Hi as (s & Hs & _).
    inversion Hstep; subst. simpl in Hs. by rewrite lookup_delete_eq in Hs.
Qed.

(** The budget-pressure bit has hysteresis: over any series of readings it
    ends up raised exactly when some reading reached the budget and no later
    reading fell below 80% of it. *)
Theorem budget_pressure_hysteresis (budget : Z) (readings : list Z) :
  scales budget → (0 < budget)%Z → Forall scales readings →
  foldl (λ bit inflight, update_budget_pressure bit inflight budget) false readings = true ↔
  ∃ before peak after, readings = before ++ peak :: after ∧ (budget <= peak)%Z ∧
    Forall (λ x, (budget * 80 <= x * 100)%Z) after.
Proof.
  intros Hb Hpos. induction readings as [|x l IH] using rev_ind; intros Hall; simpl.
  { split; [done|]. intros (b & p & a & Heq & _). by destruct b. }
  apply Forall_app in Hall as [Hl Hx]. apply Forall_cons_1 in Hx as [Hx _]. specialize (IH Hl).
  rewrite foldl_app. simpl. unfold update_budget_pressure at 1.
  destruct (shed_band_cases x budget Hx Hb Hpos) as (Hsat & Hnorm & _).
  case_decide as Hs; [|case_decide as Hn].
  - split; [intros _|done]. exists l, x, []. by apply Hsat in Hs.
  - split; [done|]. intros (b & p & a & Heq & Hp & Ha). apply Hnorm in Hn.
    destruct a as [|y a _] using rev_ind.
    + apply app_inj_tail in Heq as [_ ->]. lia.
    + rewrite app_comm_cons, app_assoc in Heq. apply app_inj_tail in Heq as [_ ->].
      apply Forall_app in Ha as [_ Ha]. apply Forall_cons_1 in Ha as [Ha _]. lia.
  - rewrite IH. split; intros (b & p & a & Heq & Hp & Ha).
    + exists b, p, (a ++ [x]). subst l. split_and!; [by rewrite <-app_assoc|done|].
      apply Forall_app. split; [done|]. apply Forall_singleton.
      destruct (Z.lt_ge_cases (x * 100) (budget * 80)) as [Hc|Hc]; [|done].
      apply Hnorm in Hc. done.
    + destruct a as [|y a _] using rev_ind.
      * apply app_inj_tail in Heq as [_ ->]. apply Hsat in Hp. done.
      * rewrite app_comm_cons, app_assoc in Heq. apply app_inj_tail in Heq as [-> ->].
        apply Forall_app in Ha as [Ha _]. by exists b, p, a.
Qed.

Module IndexDemo.
Definition sid : SocketId := SocketId.from_raw "1.2".
Definition fresh : Session := mkSession "app" sid 7 ∅ ∅.
Definition joined : Session := mkSession "app" sid 7 {["room"]} ∅.
Definition w1 : IndexWorld := mkIndexWorld (<[0 := fresh]> ∅) ∅.
Definition w2 : IndexWorld := mkIndexWorld (<[0 := joined]> (iw_sessions w1)) (iw_subs w1).
Definition w3 : IndexWorld :=
  mkIndexWorld (<[0 := (reconcile_membership joined 0 (iw_subs w2)).1]> (iw_sessions w2))
    (reconcile_membership joined 0 (iw_subs w2)).2.

Lemma reach2 : index_reach ([IOpen 0 "app" sid 7] ++ [IDispatch 0 {["room"]}]) w2.
Proof.
  eapply (index_more _ w1); [|by apply (index_dispatch w1 0 fresh)].
  apply (index_more [] (mkIndexWorld ∅ ∅)); [apply index_init|]. apply index_open; [done|].
  intros t s Hs. simpl in Hs. by rewrite lookup_empty in Hs.
Qed.

Lemma reach3 :
  index_reach (([IOpen 0 "app" sid 7] ++ [IDispatch 0 {["room"]}]) ++ [IReconcile 0]) w3.
Proof. eapply index_more; [apply reach2|]. by apply (index_reconcile w2 0 joined). Qed.
End IndexDemo.

Lemma local_index_exact_witness :
  indexed (iw_subs IndexDemo.w3) ("app", "room") IndexDemo.sid = Some (0, 7%Z).
Proof.
  destruct (local_index_exact _ _ IndexDemo.reach2) as (_ & _ & Hrec & _).
  edestruct (Hrec 0 IndexDemo.w3) as [_ Hi];
    [by apply (index_reconcile IndexDemo.w2 0 IndexDemo.joined)|done|].
  apply (Hi "room").
Defined.

Lemma budget_pressure_hysteresis_witness :
  foldl (λ bit inflight, update_budget_pressure bit inflight 1000%Z) false [10; 1200; 900]%Z = true.
Proof.
  apply (budget_pressure_hysteresis 1000 [10; 1200; 900]%Z).
  - by vm_compute.
  - done.
  - repeat (apply Forall_cons; split; [by vm_compute|]). apply Forall_nil_2.
  - exists [10%Z], 1200%Z, [900%Z]. split_and!; [done|lia|]. apply Forall_singleton. lia.
Defined.
