(* ===== verification/WorkerDrain.v ===== *)
(** * Draining a worker's broadcast inbox: [src/src/transport/worker.rs]

    [drain_broadcast_inbox] moves every message of the inbox into the outbound
    queues of the worker's subscribers, skipping those the shed bands exclude.
    Of a slab [Entry] the model keeps the connection, its state and whether it
    has a session. The byte totals are [u64] and wrap. *)

From S2P Require Import Prelude RustStd Json Protocol Outbound Fanout WorkerIndex.
Import Shed.

Inductive ConnState : Type := Handshaking | Open.

#[export] Instance ConnState_eq_dec : EqDecision ConnState.
Proof. solve_decision. Defined.

Record Entry : Type := mkEntry {
  e_conn : Connection;
  e_state : ConnState;
  e_session : bool
}.

Definition set_conn (c : Connection) (e : Entry) : Entry := mkEntry c (e_state e) (e_session e).

(** What the drain threads through: the slab, the worker's totals, its budget
    bit when it has one, and the connections queued onto. *)
Record Drain : Type := mkDrain {
  d_conns : gmap nat Entry;
  d_inflight : Z;
  d_outbound : Z;
  d_drophead : Z;
  d_bit : option bool;
  d_touched : gset nat
}.

Definition is_open (e : Entry) : bool :=
  e_session e && bool_decide (e_state e = Open).

Definition open_conn (conns : gmap nat Entry) (token : nat) : option Connection :=
  match conns !! token with
  | Some e => if is_open e then Some (e_conn e) else None
  | None => None
  end.

Definition wrapping_add (a b : Z) : Z := ((a + b) mod 2 ^ 64)%Z.

(** The frame for a subscriber's version; an unknown version gets the first. *)
Definition choose_frame (frames : list (Z * list Z)) (first_frame : list Z) (version : Z)
    : list Z :=
  if (length frames =? 1)%nat then first_frame
  else match List.find (λ p, (p.1 =? version)%Z) frames with
       | Some p => p.2
       | None => first_frame
       end.

Section drain.
Context (effective_budget now_ns : Z) (to_close : gset nat).

Definition queue_on (token : nat) (conn : Connection) (frame : list Z) (d : Drain) : Drain :=
  let conn := (Outbound.queue frame now_ns conn).1 in
  let '(conn, di) := take_inflight_delta conn in
  let '(conn, dout) := take_outbound_delta conn in
  let '(conn, dh) := take_drophead_dropped conn in
  mkDrain (alter (set_conn conn) token (d_conns d))
    (wrapping_add (d_inflight d) di) (wrapping_add (d_outbound d) dout)
    (if (0 <? dh)%Z then wrapping_add (d_drophead d) dh else d_drophead d)
    (d_bit d) ({[token]} ∪ d_touched d).

Definition raise_bit (d : Drain) : Drain :=
  mkDrain (d_conns d) (d_inflight d) (d_outbound d) (d_drophead d) ((λ _, true) <$> d_bit d)
    (d_touched d).

Definition deliver (frames : list (Z * list Z)) (first_frame : list Z)
    (except : option SocketId) (d : Drain) (sub : SocketId * (nat * Z)) : Drain :=
  let '(sid, (token, version)) := sub in
  let band := shed_band (d_inflight d) effective_budget in
  if decide (band = Saturated) then raise_bit d
  else if decide (except = Some sid) then d
  else if decide (token ∈ to_close) then d
  else
    match open_conn (d_conns d) token with
    | None => d
    | Some conn =>
        if should_skip band (out_bytes conn) (high_water conn) then d
        else queue_on token conn (choose_frame frames first_frame version) d
    end.

Definition drain_message (local_subs : LocalSubs) (d : Drain) (msg : BroadcastMsg) : Drain :=
  match local_subs !! (bm_app msg, bm_channel msg) with
  | None => d
  | Some subs =>
      match bm_frames msg with
      | [] => d
      | (_, first_frame) :: _ =>
          foldl (deliver (bm_frames msg) first_frame (bm_except msg)) d (map_to_list subs)
      end
  end.

Definition drain_broadcast_inbox (local_subs : LocalSubs) (inbox : list BroadcastMsg)
    (d : Drain) : Drain :=
  foldl (drain_message local_subs) d inbox.
End drain.

(** ** One connection through a drain *)

(** A frame queued, the deltas taken by the worker. *)
Definition enqueue (now_ns : Z) (c : Connection) (frame : list Z) : Connection :=
  (take_drophead_dropped (take_outbound_delta (take_inflight_delta
     (Outbound.queue frame now_ns c).1).1).1).1.

Definition entry_enqueue (now_ns : Z) (e : Entry) (frame : list Z) : Entry :=
  set_conn (enqueue now_ns (e_conn e) frame) e.

Lemma is_open_enqueue now e frame : is_open (entry_enqueue now e frame) = is_open e.
Proof. done. Qed.

Lemma queue_on_conns now token conn frame d :
  d_conns (queue_on now token conn frame d) =
  alter (set_conn (enqueue now conn frame)) token (d_conns d).
Proof. done. Qed.

(** The frame a message owes to the subscriber entry [sub]. *)
Definition owed (to_close : gset nat) (msg : BroadcastMsg) (sub : SocketId * (nat * Z))
    : option (list Z) :=
  match bm_frames msg with
  | [] => None
  | (_, first_frame) :: _ =>
      if decide (bm_except msg = Some sub.1) then None
      else if decide (sub.2.1 ∈ to_close) then None
      else Some (choose_frame (bm_frames msg) first_frame sub.2.2)
  end.

Definition sub_token (sub : SocketId * (nat * Z)) : nat := sub.2.1.

(** The frames a message owes to the connection at [token]. *)
Definition owed_to (to_close : gset nat) (subs : list (SocketId * (nat * Z)))
    (msg : BroadcastMsg) (token : nat) : list (list Z) :=
  omap (owed to_close msg) (filter (λ s, sub_token s = token) subs).

(** An entry after some of the owed frames, in order; all of them when nothing
    is shed. A connection that is not open gets none. *)
Definition delivered (now : Z) (all : bool) (due : list (list Z)) (e e' : Entry) : Prop :=
  if is_open e then
    ∃ sent, sublist sent due ∧ e' = foldl (entry_enqueue now) e sent ∧ (all = true → sent = due)
  else e' = e.

Lemma is_open_foldl now e sent : is_open (foldl (entry_enqueue now) e sent) = is_open e.
Proof. revert e. induction sent as [|f s IH]; intros e; simpl; [done|]. by rewrite IH. Qed.

Lemma delivered_nil now all e : delivered now all [] e e.
Proof. unfold delivered. destruct (is_open e); [by exists []|done]. Qed.

Lemma delivered_app now all due1 due2 e1 e2 e3 :
  delivered now all due1 e1 e2 → delivered now all due2 e2 e3 →
  delivered now all (due1 ++ due2) e1 e3.
Proof.
  unfold delivered. destruct (is_open e1) eqn:Ho.
  - intros (s1 & Hs1 & -> & Ha1). rewrite is_open_foldl, Ho. intros (s2 & Hs2 & -> & Ha2).
    exists (s1 ++ s2). rewrite foldl_app. split_and!; [by apply sublist_app|done|].
    intros Hall. by rewrite Ha1, Ha2.
  - intros ->. by rewrite Ho.
Qed.

Section deliveries.
Context (budget now : Z) (to_close : gset nat).

Lemma shed_band_off inflight : shed_band inflight 0 = Normal.
Proof. done. Qed.

Lemma deliver_spec msg v0 first_frame rest d sub token e :
  bm_frames msg = (v0, first_frame) :: rest → d_conns d !! token = Some e →
  ∃ e', d_conns (deliver budget now to_close (bm_frames msg) first_frame (bm_except msg) d sub)
          !! token = Some e' ∧
    delivered now (budget =? 0)%Z (owed_to to_close [sub] msg token) e e'.
Proof.
  intros Hf He. destruct sub as [sid [tok v]]. unfold owed_to, deliver. cbn [filter list_filter].
  unfold sub_token. cbn [fst snd].
  destruct (decide (shed_band (d_inflight d) budget = Saturated)) as [Hsat|_].
  { exists e. split; [done|]. unfold delivered. destruct (is_open e); [|done].
    exists []. split_and!; [apply sublist_nil_l|done|].
    intros ->%Z.eqb_eq. by rewrite shed_band_off in Hsat. }
  destruct (decide (tok = token)) as [->|Htok].
  2:{ exists e. split; [|apply delivered_nil].
      repeat case_decide; try done. destruct (open_conn _ _) as [c|]; [|done].
      destruct (should_skip _ _ _); [done|]. by rewrite queue_on_conns, lookup_alter_ne. }
  unfold owed. rewrite Hf. cbn [omap list_omap fst snd].
  case_decide; [exists e; split; [done|apply delivered_nil]|].
  case_decide; [exists e; split; [done|apply delivered_nil]|].
  unfold open_conn. rewrite He. destruct (is_open e) eqn:Ho.
  2:{ exists e. split; [done|]. unfold delivered. by rewrite Ho. }
  destruct (should_skip _ _ _) eqn:Hskip.
  - exists e. split; [done|]. unfold delivered. rewrite Ho. exists [].
    split_and!; [apply sublist_nil_l|done|]. intros ->%Z.eqb_eq.
    by rewrite shed_band_off in Hskip.
  - eexists. rewrite queue_on_conns, lookup_alter_eq, He. split; [done|].
    unfold delivered. rewrite Ho. eexists [_]. by split_and!.
Qed.

Lemma deliver_all_spec msg v0 first_frame rest subs d token e :
  bm_frames msg = (v0, first_frame) :: rest → d_conns d !! token = Some e →
  ∃ e', d_conns (foldl (deliver budget now to_close (bm_frames msg) first_frame (bm_except msg))
          d subs) !! token = Some e' ∧
    delivered now (budget =? 0)%Z (owed_to to_close subs msg token) e e'.
Proof.
  intros Hf. revert d e. induction subs as [|sub subs IH]; intros d e He; simpl.
  { exists e. split; [done|apply delivered_nil]. }
  destruct (deliver_spec msg v0 first_frame rest d sub token e Hf He) as (e1 & He1 & Hd1).
  destruct (IH _ e1 He1) as (e2 & He2 & Hd2). exists e2. split; [done|].
  replace (owed_to to_close (sub :: subs) msg token)
    with (owed_to to_close [sub] msg token ++ owed_to to_close subs msg token);
    [by eapply delivered_app|].
  unfold owed_to. by rewrite <-omap_app, <-filter_app.
Qed.

(** The frames a message owes to a connection, by the subscription index. *)
Definition due (local_subs : LocalSubs) (token : nat) (msg : BroadcastMsg) : list (list Z) :=
  match local_subs !! (bm_app msg, bm_channel msg) with
  | Some subs => owed_to to_close (map_to_list subs) msg token
  | None => []
  end.

Lemma drain_message_spec local_subs d msg token e :
  d_conns d !! token = Some e →
  ∃ e', d_conns (drain_message budget now to_close local_subs d msg) !! token = Some e' ∧
    delivered now (budget =? 0)%Z (due local_subs token msg) e e'.
Proof.
  intros He. unfold drain_message, due.
  destruct (local_subs !! _) as [subs|]; [|exists e; split; [done|apply delivered_nil]].
  destruct (bm_frames msg) as [|[v0 first_frame] rest] eqn:Hf.
  - exists e. split; [done|]. unfold owed_to, owed. rewrite Hf.
    replace (omap _ _) with (@nil (list Z)); [apply delivered_nil|].
    by induction (filter _ _).
  - rewrite <-Hf. by eapply deliver_all_spec.
Qed.

Lemma drain_inbox_spec local_subs inbox d token e :
  d_conns d !! token = Some e →
  ∃ e', d_conns (drain_broadcast_inbox budget now to_close local_subs inbox d) !! token = Some e' ∧
    delivered now (budget =? 0)%Z (inbox ≫= due local_subs token) e e'.
Proof.
  revert d e. induction inbox as [|msg inbox IH]; intros d e He; simpl.
  { exists e. split; [done|apply delivered_nil]. }
  destruct (drain_message_spec local_subs d msg token e He) as (e1 & He1 & Hd1).
  destruct (IH _ e1 He1) as (e2 & He2 & Hd2). exists e2. split; [done|].
  by eapply delivered_app.
Qed.
End deliveries.

(** ** What the index makes of a message *)

Lemma NoDup_all_equal {A} (l : list A) (x : A) :
  NoDup l → (∀ y, y ∈ l → y = x) → l = [] ∨ l = [x].
Proof.
  intros Hnd Hall. destruct l as [|y [|z l]]; [by left|right|exfalso].
  - by rewrite (Hall y) by set_solver.
  - apply NoDup_cons_1_1 in Hnd. apply Hnd. rewrite (Hall y), (Hall z) by set_solver. set_solver.
Qed.

(** The one frame a message carries for a session. *)
Definition session_due (to_close : gset nat) (s : Session) (token : nat) (msg : BroadcastMsg)
    : list (list Z) :=
  match bm_frames msg with
  | [] => []
  | (_, first_frame) :: _ =>
      if decide (bm_app msg = s_app s ∧ bm_channel msg ∈ s_subs s ∧
                 bm_except msg ≠ Some (s_socket_id s) ∧ token ∉ to_close)
      then [choose_frame (bm_frames msg) first_frame (s_version s)] else []
  end.

Lemma due_session w token s to_close msg :
  index_ok w → iw_sessions w !! token = Some s →
  due to_close (iw_subs w) token msg = session_due to_close s token msg.
Proof.
  intros Hok Hs. destruct (own_entries w token s Hok Hs) as [Hin Hout].
  unfold due, session_due.
  destruct (iw_subs w !! (bm_app msg, bm_channel msg)) as [subs|] eqn:Hsubs.
  2:{ destruct (bm_frames msg) as [|[v f] rest]; [done|].
      case_decide as Hd; [|done]. destruct Hd as (Ha & Hc & _).
      pose proof (Hin _ Hc) as Hi. unfold indexed in Hi. by rewrite <-Ha, Hsubs in Hi. }
  set (x := (s_socket_id s, (token, s_version s))).
  assert (∀ y, y ∈ filter (λ s, sub_token s = token) (map_to_list subs) →
            y = x ∧ bm_app msg = s_app s ∧ bm_channel msg ∈ s_subs s) as Hall.
  { intros [sid [t v]] [Ht Hy]%list_elem_of_filter. unfold sub_token in Ht. simpl in Ht. subst t.
    apply elem_of_map_to_list in Hy.
    assert (recorded w (bm_app msg, bm_channel msg) sid token v) as (s' & Hs' & ? & ? & ? & ?).
    { apply (ix_exact w Hok). unfold indexed. rewrite Hsubs. done. }
    simplify_eq. by subst x. }
  unfold owed_to.
  destruct (NoDup_all_equal (filter (λ s, sub_token s = token) (map_to_list subs)) x)
    as [Hl|Hl]; [apply NoDup_filter, NoDup_map_to_list|naive_solver| |]; rewrite Hl in *.
  - simpl. destruct (bm_frames msg) as [|[v f] rest]; [done|].
    rewrite decide_False; [done|]. intros (Ha & Hc & _).
    pose proof (Hin _ Hc) as Hi. unfold indexed in Hi. rewrite <-Ha, Hsubs in Hi. simpl in Hi.
    assert (x ∈ filter (λ s, sub_token s = token) (map_to_list subs)) as Hx.
    { apply list_elem_of_filter. split; [done|]. by apply elem_of_map_to_list. }
    rewrite Hl in Hx. set_solver.
  - destruct (Hall x) as (_ & Ha & Hc); [set_solver|]. simpl. unfold owed, x.
    destruct (bm_frames msg) as [|[v f] rest]; [done|]. simpl.
    repeat case_decide; try done; tauto.
Qed.

(** ** The ledger *)

Definition entry_bytes (e : Entry) : Z := accounted_bytes (e_conn e).

Definition ledger (conns : gmap nat Entry) : Z :=
  map_fold (λ _ e acc, entry_bytes e + acc)%Z 0%Z conns.

Lemma ledger_insert conns token e e' :
  conns !! token = Some e →
  ledger (<[token := e']> conns) = (ledger conns - entry_bytes e + entry_bytes e')%Z.
Proof.
  intros He. unfold ledger. rewrite <-insert_delete_eq.
  rewrite map_fold_insert_L; [|intros; lia|apply lookup_delete_eq].
  rewrite (map_fold_delete_L _ _ token e conns); [lia|intros; lia|done].
Qed.

(** No delta is pending and every byte count is what it counts. *)
Record settled (c : Connection) : Prop := {
  st_delta : inflight_delta c = 0%Z;
  st_out : out_bytes c = total (out c);
  st_reassembly : (0 <= reassembly_bytes c)%Z;
  st_frame : (0 <= frame_buffer_bytes c)%Z;
  st_tls : (0 <= tls_unflushed_bytes c)%Z
}.

Lemma settled_nonneg c : settled c → (0 <= accounted_bytes c)%Z.
Proof. intros [_ Ho ? ? ?]. unfold accounted_bytes. pose proof (total_nonneg (out c)). lia. Qed.

Lemma queue_settled frame now c :
  settled c →
  let c' := (Outbound.queue frame now c).1 in
  out_bytes c' = total (out c') ∧ reassembly_bytes c' = reassembly_bytes c ∧
  frame_buffer_bytes c' = frame_buffer_bytes c ∧ tls_unflushed_bytes c' = tls_unflushed_bytes c ∧
  inflight_delta c' = (accounted_bytes c' - accounted_bytes c)%Z ∧
  (accounted_bytes c' <= accounted_bytes c + Z.of_nat (length frame))%Z.
Proof.
  intros [Hd Ho _ _ _].
  assert (reassembly_bytes (Outbound.queue frame now c).1 = reassembly_bytes c ∧
          frame_buffer_bytes (Outbound.queue frame now c).1 = frame_buffer_bytes c ∧
          tls_unflushed_bytes (Outbound.queue frame now c).1 = tls_unflushed_bytes c)
    as (Hr & Hf & Ht).
  { pose proof (buffers_queue frame now c) as Hb. by injection Hb. }
  destruct (queue_eq frame now c) as (k & c1 & Heq & [Hout _ _ _ _ Hby Hsb _] & _).
  rewrite Heq in *. simpl in *. pose proof (sb_inflight _ _ Hsb) as Hi.
  assert (total (out c1) <= total (out c))%Z as Hle.
  { rewrite Hout. apply total_sublist, take_drop_sublist. lia. }
  assert (accounted_bytes (set_out (out c1 ++ [(frame, now)]) (bill (Z.of_nat (length frame)) c1)) =
          (accounted_bytes c1 + Z.of_nat (length frame))%Z) as Ha
    by (unfold accounted_bytes; simpl; lia).
  rewrite Ha. split_and!; try done.
  - rewrite total_app. simpl. unfold flen. simpl. lia.
  - lia.
  - unfold accounted_bytes. lia.
Qed.

Lemma enqueue_settled frame now c :
  settled c →
  settled (enqueue now c frame) ∧
  accounted_bytes (enqueue now c frame) =
    (accounted_bytes c + inflight_delta (Outbound.queue frame now c).1)%Z ∧
  (accounted_bytes (enqueue now c frame) <= accounted_bytes c + Z.of_nat (length frame))%Z.
Proof.
  intros Hc. pose proof (queue_settled frame now c Hc) as (Ho & Hr & Hf & Ht & Hd & Hle).
  destruct Hc as [_ _ Hr0 Hf0 Ht0]. unfold enqueue.
  set (c' := (Outbound.queue frame now c).1) in *. split_and!.
  - split; simpl; [done|done|lia..].
  - rewrite Hd. unfold accounted_bytes. simpl. lia.
  - exact Hle.
Qed.

(** The worker's total is the sum over its connections, none of which has a
    pending delta. *)
Record ledger_ok (d : Drain) : Prop := {
  lg_settled : ∀ t e, d_conns d !! t = Some e → settled (e_conn e);
  lg_total : d_inflight d = ledger (d_conns d)
}.

Lemma ledger_nonneg conns :
  (∀ t e, conns !! t = Some e → settled (e_conn e)) → (0 <= ledger conns)%Z.
Proof.
  unfold ledger. induction conns as [|t e m Ht Hfold IH] using map_first_key_ind; intros Hs.
  - by rewrite map_fold_empty.
  - rewrite map_fold_insert_L by (intros; lia || done).
    assert (0 <= entry_bytes e)%Z
      by (apply settled_nonneg, (Hs t); apply lookup_insert_eq).
    assert (0 <= map_fold (λ _ e acc, entry_bytes e + acc)%Z 0%Z m)%Z; [|lia].
    apply IH. intros t' e' He'. apply (Hs t'). rewrite lookup_insert_ne; [done|congruence].
Qed.

Lemma choose_frame_in frames v0 first rest v :
  frames = (v0, first) :: rest → ∃ v', (v', choose_frame frames first v) ∈ frames.
Proof.
  intros ->. unfold choose_frame. destruct (_ =? 1); [exists v0; set_solver|].
  destruct (List.find _ _) as [[v' f]|] eqn:Hf; [|exists v0; set_solver].
  apply List.find_some in Hf as [Hin _]. exists v'. by apply list_elem_of_In.
Qed.

Section bound.
Context (budget now bound : Z) (to_close : gset nat).
Context (Hbudget : (0 < budget)%Z) (Hwrap : (budget + bound < 2 ^ 64)%Z).

Lemma below_budget inflight :
  shed_band inflight budget ≠ Saturated → (inflight < budget)%Z.
Proof using Hbudget.
  unfold shed_band, U64.saturating_mul. destruct (Z.eqb_spec budget 0); [lia|].
  destruct (Z.ltb_spec (Z.min (inflight * 100) U64.MAX) (Z.min (budget * 80) U64.MAX)); [lia|].
  destruct (Z.ltb_spec (Z.min (inflight * 100) U64.MAX) (Z.min (budget * 95) U64.MAX)); [lia|].
  destruct (Z.ltb_spec (Z.min (inflight * 100) U64.MAX) (Z.min (budget * 100) U64.MAX)); [lia|done].
Qed.

Lemma queue_on_ledger d token e frame :
  ledger_ok d → d_conns d !! token = Some e → (d_inflight d < budget)%Z →
  (Z.of_nat (length frame) <= bound)%Z →
  let d' := queue_on now token (e_conn e) frame d in
  ledger_ok d' ∧ (d_inflight d' <= budget + bound)%Z.
Proof using Hwrap.
  intros [Hs Ht] He Hlt Hlen. pose proof (Hs _ _ He) as Hc.
  destruct (enqueue_settled frame now (e_conn e) Hc) as (Hc' & Heq & Hle).
  assert (d_conns (queue_on now token (e_conn e) frame d) =
          <[token := entry_enqueue now e frame]> (d_conns d)) as Hconns.
  { rewrite queue_on_conns. apply map_eq. intros t. destruct (decide (t = token)) as [->|Hn].
    - by rewrite lookup_alter_eq, lookup_insert_eq, He.
    - by rewrite lookup_alter_ne, lookup_insert_ne. }
  assert (∀ t e', d_conns (queue_on now token (e_conn e) frame d) !! t = Some e' →
            settled (e_conn e')) as Hs'.
  { intros t e'. rewrite Hconns. intros [[<- <-]|[_ Ht']]%lookup_insert_Some; [done|by eapply Hs]. }
  pose proof (ledger_nonneg _ Hs') as Hnn. rewrite Hconns, (ledger_insert _ _ e) in Hnn by done.
  assert (d_inflight (queue_on now token (e_conn e) frame d) =
          ledger (d_conns (queue_on now token (e_conn e) frame d))) as Hfl.
  { rewrite Hconns, (ledger_insert _ _ e) by done. unfold entry_bytes in *. simpl in *.
    unfold wrapping_add. rewrite Heq in *. rewrite Z.mod_small; lia. }
  split; [by split|]. rewrite Hfl, Hconns, (ledger_insert _ _ e) by done.
  unfold entry_bytes in *. simpl in *. lia.
Qed.

Definition frames_fit (msg : BroadcastMsg) : Prop :=
  ∀ v f, (v, f) ∈ bm_frames msg → (Z.of_nat (length f) <= bound)%Z.

(** Everything the drain keeps, below the limit [top]. *)
Definition drain_ok (top : Z) (d : Drain) : Prop := ledger_ok d ∧ (d_inflight d <= top)%Z.

Lemma deliver_ledger top msg v0 first rest d sub :
  (budget + bound <= top)%Z → bm_frames msg = (v0, first) :: rest → frames_fit msg →
  drain_ok top d →
  drain_ok top (deliver budget now to_close (bm_frames msg) first (bm_except msg) d sub).
Proof using Hbudget Hwrap.
  intros Htop Hf Hfit [Hl Hle]. destruct sub as [sid [tok v]]. unfold deliver.
  case_decide as Hsat; [by destruct Hl; split; [split|]|].
  repeat (case_decide; [done|]). unfold open_conn.
  destruct (d_conns d !! tok) as [e|] eqn:He; [|done]. destruct (is_open e); [|done].
  destruct (should_skip _ _ _); [done|].
  destruct (choose_frame_in _ v0 first rest v Hf) as [v' Hin].
  destruct (queue_on_ledger d tok e (choose_frame (bm_frames msg) first v)) as [Hl' Hle'];
    [done..|by apply below_budget|by eapply Hfit|]. split; [done|]. lia.
Qed.

Lemma drain_message_ledger top local_subs d msg :
  (budget + bound <= top)%Z → frames_fit msg → drain_ok top d →
  drain_ok top (drain_message budget now to_close local_subs d msg).
Proof using Hbudget Hwrap.
  intros Htop Hfit Hd. unfold drain_message. destruct (local_subs !! _) as [subs|]; [|done].
  destruct (bm_frames msg) as [|[v0 first] rest] eqn:Hf; [done|]. rewrite <-Hf.
  revert d Hd. induction (map_to_list subs) as [|sub l IH]; intros d Hd; simpl; [done|].
  apply IH. by eapply deliver_ledger.
Qed.

Lemma drain_inbox_ledger top local_subs inbox d :
  (budget + bound <= top)%Z → Forall frames_fit inbox → drain_ok top d →
  drain_ok top (drain_broadcast_inbox budget now to_close local_subs inbox d).
Proof using Hbudget Hwrap.
  intros Htop Hfit. unfold drain_broadcast_inbox. revert d.
  induction Hfit as [|msg inbox Hm _ IH]; intros d Hd; simpl; [done|].
  apply IH. by apply drain_message_ledger.
Qed.
End bound.

(** The drain, by what the session recorded. *)
Lemma drain_session_spec (tr : list index_op) (w : IndexWorld) (budget now : Z)
    (to_close : gset nat) (inbox : list BroadcastMsg) (d : Drain) (token : nat) (s : Session)
    (e : Entry) :
  index_reach tr w → iw_sessions w !! token = Some s → d_conns d !! token = Some e →
  ∃ e', d_conns (drain_broadcast_inbox budget now to_close (iw_subs w) inbox d) !! token
          = Some e' ∧
    delivered now (budget =? 0)%Z (inbox ≫= session_due to_close s token) e e'.
Proof.
  intros Hr%index_reach_ok Hs He.
  destruct (drain_inbox_spec budget now to_close (iw_subs w) inbox d token e He) as (e' & He' & Hd).
  exists e'. split; [done|].
  replace (inbox ≫= session_due to_close s token)
    with (inbox ≫= due to_close (iw_subs w) token); [done|].
  clear -Hr Hs. induction inbox as [|msg inbox IH]; [done|].
  by rewrite !bind_cons, IH, (due_session w token s).
Qed.


(** ** Properties *)

(** Draining the inbox queues on an open connection, in inbox order, a
    subsequence of the frames its messages carry for it: one frame, in the
    connection's negotiated version, for each message of a channel the session
    has recorded, none for the message's excluded sender. With no byte budget
    nothing is shed and it is the whole sequence; a connection that is not open
    is untouched. *)
Theorem drain_delivers_in_order (tr : list index_op) (w : IndexWorld) (budget now : Z)
    (to_close : gset nat) (inbox : list BroadcastMsg) (d : Drain) (token : nat) (s : Session)
    (e : Entry) :
  index_reach tr w → iw_sessions w !! token = Some s → d_conns d !! token = Some e →
  ∃ e', d_conns (drain_broadcast_inbox budget now to_close (iw_subs w) inbox d) !! token
          = Some e' ∧
    delivered now (budget =? 0)%Z (inbox ≫= session_due to_close s token) e e'.
Proof. apply drain_session_spec. Qed.

(** The byte budget bounds a drain: the worker's total stays exactly the sum
    of what its connections hold, never wraps, and ends at most one frame above
    the budget (or where it started, when it started higher). *)
Theorem drain_budget_bound (budget now bound : Z) (to_close : gset nat)
    (local_subs : LocalSubs) (inbox : list BroadcastMsg) (d : Drain) :
  (0 < budget)%Z → (budget + bound < 2 ^ 64)%Z → Forall (frames_fit bound) inbox → ledger_ok d →
  let d' := drain_broadcast_inbox budget now to_close local_subs inbox d in
  d_inflight d' = ledger (d_conns d') ∧
  (d_inflight d' <= Z.max (d_inflight d) (budget + bound))%Z.
Proof.
  intros Hb Hw Hfit Hl d'.
  destruct (drain_inbox_ledger budget now bound to_close Hb Hw
              (Z.max (d_inflight d) (budget + bound)) local_subs inbox d) as [[_ Ht] Hle];
    [lia|done|split; [done|lia]|done].
Qed.

Module DrainDemo.
Definition conn : Connection := Connection_new 100.
Definition drain : Drain := mkDrain {[0 := mkEntry conn Open true]} 0 0 0 (Some false) ∅.
Definition hello : BroadcastMsg := mkBroadcastMsg "app" "room" [(7%Z, [1; 2; 3]%Z)] None.
Definition subs : LocalSubs := {[("app", "room") := {[SocketId.from_raw "1.2" := (0, 7%Z)]}]}.
End DrainDemo.

Lemma drain_delivers_in_order_witness :
  ∃ e', d_conns (drain_broadcast_inbox 0 5 ∅ (iw_subs IndexDemo.w3) [DrainDemo.hello]
          DrainDemo.drain) !! 0 = Some e' ∧
    delivered 5 true [[1; 2; 3]%Z] (mkEntry DrainDemo.conn Open true) e'.
Proof.
  destruct (drain_delivers_in_order _ _ 0 5 ∅ [DrainDemo.hello] DrainDemo.drain 0
    (mkSession "app" IndexDemo.sid 7 {["room"]} {["room"]}) (mkEntry DrainDemo.conn Open true)
    IndexDemo.reach3) as (e' & He' & Hd); [by_eval|by_eval|].
  exists e'. split; [exact He'|]. exact Hd.
Defined.

Lemma drain_budget_bound_witness :
  let d' := drain_broadcast_inbox 1000 5 ∅ DrainDemo.subs [DrainDemo.hello] DrainDemo.drain in
  (d_inflight d' <= 1010)%Z.
Proof.
  apply (drain_budget_bound 1000 5 10 ∅ DrainDemo.subs [DrainDemo.hello] DrainDemo.drain).
  - done.
  - done.
  - apply Forall_singleton. intros v f Hin. apply list_elem_of_singleton in Hin.
    injection Hin as _ ->. simpl. lia.
  - split; [|done]. intros t e Ht. unfold DrainDemo.drain in Ht. simpl in Ht. apply lookup_singleton_Some in Ht as [_ <-]. by split.
Defined.
