(* ===== verification/Mailbox.v ===== *)
(** * Mailboxes: [src/src/connection/handle.rs]

    A [Mailbox] is a handle on shared objects: a bounded channel, the owning
    worker's dirty-token queue and waker, and a drop counter. The shared
    objects live in a [Store], keyed by identity, so that two handles on the
    same channel alias. *)

From S2P Require Import Prelude RustStd Json Protocol.

(** A bounded [mpsc] channel; [closed] once its receiver is gone. *)
Record Chan : Type := mkChan {
  queue : list ServerEvent;
  capacity : nat;
  closed : bool
}.

Record Store : Type := mkStore {
  chans : gmap nat Chan;
  dirty : gmap nat (list nat);
  wakes : gmap nat nat;
  counters : gmap nat Z
}.

Record MailboxNotify : Type := mkMailboxNotify {
  mn_token : nat;
  mn_dirty : nat;
  mn_waker : nat
}.

Record Mailbox : Type := mkMailbox {
  mb_inner : nat;
  mb_notify : option MailboxNotify;
  mb_dropped : option nat
}.

Record ConnectionHandle : Type := mkConnectionHandle {
  ch_socket_id : SocketId;
  ch_mailbox : Mailbox
}.

#[export] Instance MailboxNotify_eq_dec : EqDecision MailboxNotify.
Proof. solve_decision. Defined.
#[export] Instance Mailbox_eq_dec : EqDecision Mailbox.
Proof. solve_decision. Defined.
#[export] Instance ConnectionHandle_eq_dec : EqDecision ConnectionHandle.
Proof. solve_decision. Defined.

(** [Sender::try_send]. *)
Inductive TrySend : Type := Sent | Full | Closed.

Definition try_send (inner : nat) (event : ServerEvent) (st : Store) : Store * TrySend :=
  match chans st !! inner with
  | None => (st, Closed)
  | Some c =>
      if closed c then (st, Closed)
      else if (capacity c <=? length (queue c))%nat then (st, Full)
      else
        (mkStore (<[inner := mkChan (queue c ++ [event]) (capacity c) false]> (chans st))
           (dirty st) (wakes st) (counters st), Sent)
  end.

(** [AtomicU64::fetch_add(1)], wrapping. *)
Definition bump (counter : option nat) (st : Store) : Store :=
  match counter with
  | None => st
  | Some k =>
      mkStore (chans st) (dirty st) (wakes st)
        (alter (λ n, (n + 1) mod 2 ^ 64)%Z k (counters st))
  end.

(** Mark the connection dirty, then wake its worker. *)
Definition notify_worker (n : option MailboxNotify) (st : Store) : Store :=
  match n with
  | None => st
  | Some n =>
      mkStore (chans st)
        (alter (λ q, q ++ [mn_token n]) (mn_dirty n) (dirty st))
        (alter S (mn_waker n) (wakes st))
        (counters st)
  end.

(** [Mailbox::send]: drop-on-full is [Ok]; only a closed channel is an error,
    carrying the undelivered event. *)
Definition send (m : Mailbox) (event : ServerEvent) (st : Store)
    : Store * result unit ServerEvent :=
  match try_send (mb_inner m) event st with
  | (st, Sent) => (notify_worker (mb_notify m) st, Ok tt)
  | (st, Full) => (bump (mb_dropped m) st, Ok tt)
  | (st, Closed) => (st, Err event)
  end.

(** [let _ = mailbox.send(event)]. *)
Definition send_ (m : Mailbox) (event : ServerEvent) (st : Store) : Store :=
  (send m event st).1.

(** ** Lemmas *)

Definition queue_of (st : Store) (i : nat) : list ServerEvent :=
  match chans st !! i with Some c => queue c | None => [] end.

(** A channel accepts the next send. *)
Definition has_room (st : Store) (i : nat) : Prop :=
  ∃ c, chans st !! i = Some c ∧ closed c = false ∧ length (queue c) < capacity c.

Definition within_capacity (st : Store) : Prop :=
  ∀ i c, chans st !! i = Some c → length (queue c) ≤ capacity c.

Lemma chans_bump k st : chans (bump k st) = chans st.
Proof. by destruct k. Qed.

Lemma chans_notify n st : chans (notify_worker n st) = chans st.
Proof. by destruct n. Qed.

#[export] Hint Rewrite chans_bump chans_notify : pylon_rw.

Lemma send_other m event st i :
  i ≠ mb_inner m → chans (send_ m event st) !! i = chans st !! i.
Proof.
  intros Hi. unfold send_, send, try_send.
  destruct (chans st !! mb_inner m) as [c|]; [|done].
  destruct (closed c); [done|].
  destruct (capacity c <=? length (queue c)); simpl; autorewrite with pylon_rw; [done|].
  simpl. by rewrite lookup_insert_ne.
Qed.

Lemma send_room m event st :
  has_room st (mb_inner m) →
  queue_of (send_ m event st) (mb_inner m) = queue_of st (mb_inner m) ++ [event].
Proof.
  intros (c & Hc & Hcl & Hlen). unfold queue_of, send_, send, try_send.
  rewrite Hc, Hcl. destruct (Nat.leb_spec (capacity c) (length (queue c))); [lia|].
  simpl. autorewrite with pylon_rw. simpl. by rewrite lookup_insert_eq.
Qed.

Lemma send_within_capacity m event st :
  within_capacity st → within_capacity (send_ m event st).
Proof.
  intros Hst i c. destruct (decide (i = mb_inner m)) as [->|Hi].
  2:{ rewrite send_other by done. apply Hst. }
  unfold send_, send, try_send.
  destruct (chans st !! mb_inner m) as [c'|] eqn:Hc; [|simpl; congruence].
  pose proof (Hst _ _ Hc). destruct (closed c'); [simpl; congruence|].
  destruct (Nat.leb_spec (capacity c') (length (queue c'))); simpl;
    autorewrite with pylon_rw; simpl; [congruence|].
  rewrite lookup_insert_eq. intros [= <-]. simpl. rewrite length_app. simpl. lia.
Qed.

#[export] Hint Resolve send_within_capacity : pylon.

(** One [send] to each handle of a list. *)
Definition send_all (hs : list ConnectionHandle) (event : ServerEvent) (st : Store) : Store :=
  foldl (λ st h, send_ (ch_mailbox h) event st) st hs.

Definition inner_of (h : ConnectionHandle) : nat := mb_inner (ch_mailbox h).

Lemma send_all_other hs event st i :
  i ∉ (inner_of <$> hs) → chans (send_all hs event st) !! i = chans st !! i.
Proof.
  revert st. induction hs as [|h hs IH]; intros st; simpl; [done|].
  rewrite not_elem_of_cons. intros [Hi Hni].
  unfold send_all in *. simpl. rewrite IH by done. by apply send_other.
Qed.

(** Distinct mailboxes with room each receive exactly one copy. *)
Lemma send_all_room hs event st h :
  NoDup (inner_of <$> hs) → h ∈ hs → has_room st (inner_of h) →
  queue_of (send_all hs event st) (inner_of h) = queue_of st (inner_of h) ++ [event].
Proof.
  revert st. induction hs as [|h' hs IH]; intros st; simpl; [by rewrite elem_of_nil|].
  rewrite NoDup_cons, elem_of_cons. intros [Hnin Hnd] [->|Hin] Hroom.
  - unfold queue_of. unfold send_all. simpl.
    fold (send_all hs event (send_ (ch_mailbox h') event st)).
    rewrite send_all_other by done. by apply send_room.
  - assert (inner_of h ≠ inner_of h') as Hne.
    { intros Heq. apply Hnin. rewrite <-Heq. by apply list_elem_of_fmap_2. }
    unfold send_all. simpl. fold (send_all hs event (send_ (ch_mailbox h') event st)).
    rewrite IH; [|done|done|].
    + unfold queue_of. by rewrite send_other.
    + destruct Hroom as (c & Hc & ?). exists c. by rewrite send_other.
Qed.

Lemma send_all_within_capacity hs event st :
  within_capacity st → within_capacity (send_all hs event st).
Proof.
  revert st. induction hs as [|h hs IH]; intros st Hst; simpl; [done|].
  apply IH. by apply send_within_capacity.
Qed.
