(* ===== verification/ChannelState.v ===== *)
(** * One channel's membership: [src/src/channel/state.rs], [channel/outcome.rs]

    [ChannelState] keeps the subscribers by socket id, the distinct presence
    users with their connections in join order, and two memoised values: the
    fan-out snapshot and the encoded roster frame. The reference is the list of
    subscriptions in join order ([roll]); [refines] relates the two, and every
    operation preserves it. *)

From S2P Require Import Prelude RustStd Json JsonDemo Protocol Kind Mailbox.

(** ** [channel/outcome.rs] *)

Record PresenceJoin : Type := mkPresenceJoin {
  pj_first_for_user : bool;
  pj_roster_frame : string;
  pj_member : PresenceMember
}.

Record SubscribeOutcome : Type := mkSubscribeOutcome {
  so_subscription_count : nat;
  so_presence : option PresenceJoin;
  so_occupied : bool
}.

Record PresenceLeave : Type := mkPresenceLeave {
  pl_last_for_user : bool;
  pl_user_id : string
}.

Record UnsubscribeOutcome : Type := mkUnsubscribeOutcome {
  uo_subscription_count : nat;
  uo_presence : option PresenceLeave;
  uo_vacated : bool
}.

Record ChannelSummary : Type := mkChannelSummary {
  cs_name : string;
  cs_occupied : bool;
  cs_subscription_count : nat;
  cs_user_count : option nat
}.

(** ** [channel/state.rs] *)

Definition PARALLEL_THRESHOLD : nat := 256.

Record Subscriber : Type := mkSubscriber {
  sub_handle : ConnectionHandle;
  sub_member : option PresenceMember
}.

Record PresenceUser : Type := mkPresenceUser {
  pu_user_info : Value;
  pu_conns : list SocketId
}.

Record ChannelState : Type := mkChannelState {
  subscribers : gmap SocketId Subscriber;
  users : gmap string PresenceUser;
  snapshot : option (list (SocketId * Subscriber));
  roster_frame : option string
}.

Definition ChannelState_default : ChannelState := mkChannelState ∅ ∅ None None.

Record Fanout : Type := mkFanout {
  fo_frame : string;
  fo_snapshot : list (SocketId * Subscriber);
  fo_except : option SocketId;
  fo_parallel : bool
}.

Definition take_snapshot (s : ChannelState) : ChannelState :=
  mkChannelState (subscribers s) (users s) None (roster_frame s).
Definition take_roster_frame (s : ChannelState) : ChannelState :=
  mkChannelState (subscribers s) (users s) (snapshot s) None.
Definition set_users (u : gmap string PresenceUser) (s : ChannelState) : ChannelState :=
  mkChannelState (subscribers s) u (snapshot s) (roster_frame s).
Definition set_subscribers (m : gmap SocketId Subscriber) (s : ChannelState) : ChannelState :=
  mkChannelState m (users s) (snapshot s) (roster_frame s).

(** A [BTreeMap] walk: the entries in ascending byte order of their keys. *)
Definition key_le {A} (p q : string * A) : Prop := String.le p.1 q.1.
#[export] Instance key_le_dec {A} (p q : string * A) : Decision (key_le p q) := _.

Definition btree_iter {A} (m : gmap string A) : list (string * A) :=
  merge_sort key_le (map_to_list m).

Definition subscription_count (s : ChannelState) : nat := size (subscribers s).

Definition socket_ids (s : ChannelState) : list SocketId := (map_to_list (subscribers s)).*1.

Definition is_empty (s : ChannelState) : bool := bool_decide (subscribers s = ∅).

Definition user_count (s : ChannelState) : option nat :=
  if decide (users s = ∅) then None else Some (size (users s)).

Definition roster (s : ChannelState) : PresencePayload :=
  mkPresencePayload (btree_iter (users s)).*1
    (prod_map id pu_user_info <$> btree_iter (users s))
    (size (users s)).

Definition members (s : ChannelState) : list PresenceMember :=
  (λ p, mkPresenceMember p.1 (pu_user_info p.2)) <$> btree_iter (users s).

Section with_json.
Context `{SerdeJson}.

(** The encode of the current roster, as a fresh (uncached) call would do it. *)
Definition fresh_roster_frame (channel : string) (s : ChannelState) : string :=
  wire_encode_first (SubscriptionSucceeded channel (Some (roster s))).

Definition cached_roster_frame (channel : string) (s : ChannelState)
    : ChannelState * string :=
  match roster_frame s with
  | Some f => (s, f)
  | None =>
      let f := fresh_roster_frame channel s in
      (mkChannelState (subscribers s) (users s) (snapshot s) (Some f), f)
  end.

Definition reseat_user_info (user_id : string) (oldest : SocketId) (s : ChannelState)
    : ChannelState :=
  match subscribers s !! oldest ≫= sub_member with
  | None => s
  | Some m =>
      match users s !! user_id with
      | None => s
      | Some user =>
          if value_eqb (pu_user_info user) (pm_user_info m) then s
          else
            take_roster_frame
              (set_users
                 (<[user_id := mkPresenceUser (pm_user_info m) (pu_conns user)]> (users s)) s)
      end
  end.

Definition remove (socket_id : SocketId) (s : ChannelState)
    : ChannelState * option PresenceLeave :=
  match subscribers s !! socket_id with
  | None => (s, None)
  | Some sub =>
      let s := take_snapshot (set_subscribers (delete socket_id (subscribers s)) s) in
      match sub_member sub with
      | None => (s, None)
      | Some member =>
          let '(s, oldest_left) :=
            match users s !! pm_user_id member with
            | Some u =>
                let conns := filter (λ c, c ≠ socket_id) (pu_conns u) in
                (set_users (<[pm_user_id member :=
                               mkPresenceUser (pu_user_info u) conns]> (users s)) s,
                 head conns)
            | None => (s, None)
            end in
          let s' :=
            match oldest_left with
            | None => take_roster_frame (set_users (delete (pm_user_id member) (users s)) s)
            | Some oldest => reseat_user_info (pm_user_id member) oldest s
            end in
          (s', Some (mkPresenceLeave (bool_decide (oldest_left = None)) (pm_user_id member)))
      end
  end.

(** The roster half of [add]: the user's entry gains the connection. *)
Definition add_user (m : PresenceMember) (socket_id : SocketId) (s : ChannelState)
    : ChannelState * PresenceJoin :=
  let u := default (mkPresenceUser (pm_user_info m) []) (users s !! pm_user_id m) in
  let conns := pu_conns u ++ [socket_id] in
  (set_users (<[pm_user_id m := mkPresenceUser (pu_user_info u) conns]> (users s)) s,
   mkPresenceJoin (length conns =? 1)%nat EmptyString m).

Definition add (channel : string) (handle : ConnectionHandle)
    (member : option PresenceMember) (s : ChannelState)
    : ChannelState * option PresenceJoin :=
  let socket_id := ch_socket_id handle in
  let s := (remove socket_id s).1 in
  let '(s, join) :=
    match member with
    | None => (s, None)
    | Some m => prod_map id Some (add_user m socket_id s)
    end in
  let s := take_snapshot
    (set_subscribers (<[socket_id := mkSubscriber handle member]> (subscribers s)) s) in
  match join with
  | None => (s, None)
  | Some j =>
      let s := if pj_first_for_user j then take_roster_frame s else s in
      let '(s, f) := cached_roster_frame channel s in
      (s, Some (mkPresenceJoin (pj_first_for_user j) f (pj_member j)))
  end.

Definition fanout (event : ServerEvent) (except : option SocketId) (s : ChannelState)
    : ChannelState * Fanout :=
  let frame := match event with Raw f => f | other => wire_encode_first other end in
  let snap := default (map_to_list (subscribers s)) (snapshot s) in
  (mkChannelState (subscribers s) (users s) (Some snap) (roster_frame s),
   mkFanout frame snap except (PARALLEL_THRESHOLD <? size (subscribers s))%nat).

End with_json.

(** The mailboxes a fan-out sends to, in snapshot order. *)
Definition fanout_targets (f : Fanout) : list ConnectionHandle :=
  (λ p, sub_handle p.2) <$> filter (λ p, Some p.1 ≠ fo_except f) (fo_snapshot f).

(** [Fanout::send] on the serial path. *)
Definition Fanout_send (f : Fanout) (st : Store) : Store :=
  send_all (fanout_targets f) (Raw (fo_frame f)) st.

(** [Fanout::send] in general: above the threshold the chunks run on a thread
    pool, so the sends happen in some order of the targets. *)
Definition Fanout_sends (f : Fanout) (st st' : Store) : Prop :=
  if fo_parallel f
  then ∃ order, order ≡ₚ fanout_targets f ∧ st' = send_all order (Raw (fo_frame f)) st
  else st' = Fanout_send f st.

(** ** The reference: subscriptions in join order *)

Abbreviation roll := (list (SocketId * Subscriber)).

Definition roll_remove (sid : SocketId) (l : roll) : roll := filter (λ e, e.1 ≠ sid) l.

Definition roll_add (h : ConnectionHandle) (m : option PresenceMember) (l : roll) : roll :=
  roll_remove (ch_socket_id h) l ++ [(ch_socket_id h, mkSubscriber h m)].

Definition user_of (e : SocketId * Subscriber) : option string :=
  pm_user_id <$> sub_member e.2.

Definition entries_of (uid : string) (l : roll) : roll :=
  filter (λ e, user_of e = Some uid) l.

(** The metadata of the user's oldest live connection. *)
Definition info_of (uid : string) (l : roll) : option Value :=
  head (entries_of uid l) ≫= λ e, pm_user_info <$> sub_member e.2.

(** The user ids present, ascending and without repetition. *)
Definition roll_users (l : roll) : gset string := list_to_set (omap user_of l).

(** One user's roster entry against the roll. *)
Definition user_ok `{SerdeJson} (l : roll) (uid : string) (ou : option PresenceUser) : Prop :=
  match ou with
  | None => entries_of uid l = []
  | Some u =>
      pu_conns u = (entries_of uid l).*1 ∧
      ∃ v, info_of uid l = Some v ∧ value_equiv (pu_user_info u) v
  end.

(** A memoised roster frame is the encode of the current roster. *)
Definition frame_coherent `{SerdeJson} (channel : string) (s : ChannelState) : Prop :=
  ∀ f, roster_frame s = Some f → f = fresh_roster_frame channel s.

Record refines `{SerdeJson} (channel : string) (l : roll) (s : ChannelState) : Prop := {
  r_nodup : NoDup l.*1;
  r_subscribers : subscribers s = list_to_map l;
  r_users : ∀ uid, user_ok l uid (users s !! uid);
  r_snapshot : ∀ p, snapshot s = Some p → p ≡ₚ map_to_list (subscribers s);
  r_frame : frame_coherent channel s
}.

(** ** The ordered walk *)

#[export] Instance key_le_trans {A} : Transitive (@key_le A).
Proof. intros p q r. unfold key_le. apply transitivity. Qed.

#[export] Instance key_le_total {A} : Total (@key_le A).
Proof. intros p q. unfold key_le. apply total, _. Qed.

Lemma btree_iter_perm {A} (m : gmap string A) : btree_iter m ≡ₚ map_to_list m.
Proof. apply merge_sort_Permutation. Qed.

Lemma btree_iter_sorted {A} (m : gmap string A) : StronglySorted key_le (btree_iter m).
Proof. apply StronglySorted_merge_sort; apply _. Qed.

Lemma elem_of_btree_iter {A} (m : gmap string A) k x :
  (k, x) ∈ btree_iter m ↔ m !! k = Some x.
Proof. by rewrite btree_iter_perm, elem_of_map_to_list. Qed.

Lemma key_le_sorted_fmap {A B} (f : A → B) (l : list (string * A)) :
  StronglySorted key_le l → StronglySorted key_le (prod_map id f <$> l).
Proof.
  induction 1 as [|x l Hl IH Hx]; simpl; constructor; [done|].
  apply Forall_fmap. eapply Forall_impl; [exact Hx|]. by intros [].
Qed.

Lemma btree_iter_fmap {A B} (f : A → B) (m : gmap string A) :
  btree_iter (f <$> m) = prod_map id f <$> btree_iter m.
Proof.
  apply (StronglySorted_unique_strong key_le).
  - intros [k1 x1] [k2 x2] H1 H2 H12 H21. unfold key_le in *. simpl in *.
    assert (k1 = k2) as -> by by apply (anti_symm String.le).
    apply elem_of_btree_iter in H1.
    apply list_elem_of_fmap in H2 as ([k x] & [= -> ->] & H2).
    apply elem_of_btree_iter in H2. rewrite lookup_fmap in H1. simpl in *.
    rewrite H2 in H1. by simplify_eq/=.
  - apply btree_iter_sorted.
  - apply key_le_sorted_fmap, btree_iter_sorted.
  - rewrite btree_iter_perm, map_to_list_fmap. by rewrite btree_iter_perm.
Qed.

Lemma btree_iter_keys {A B} (f : A → B) (m : gmap string A) :
  (btree_iter m).*1 = (btree_iter (f <$> m)).*1.
Proof.
  rewrite btree_iter_fmap, <-list_fmap_compose. by apply list_fmap_ext; intros ? [].
Qed.

(** The roster is a function of the users' metadata alone. *)
Lemma roster_eq s s' :
  pu_user_info <$> users s = pu_user_info <$> users s' → roster s = roster s'.
Proof.
  intros Heq. unfold roster.
  rewrite !(btree_iter_keys pu_user_info), <-!btree_iter_fmap, Heq.
  f_equal. by rewrite <-!(map_size_fmap pu_user_info), Heq.
Qed.

Lemma fresh_roster_frame_eq `{SerdeJson} channel s s' :
  pu_user_info <$> users s = pu_user_info <$> users s' →
  fresh_roster_frame channel s = fresh_roster_frame channel s'.
Proof. intros Heq. unfold fresh_roster_frame. by rewrite (roster_eq _ _ Heq). Qed.

(** ** The roll *)

Lemma entries_of_remove uid sid l :
  entries_of uid (roll_remove sid l) = roll_remove sid (entries_of uid l).
Proof.
  unfold entries_of, roll_remove. rewrite !list_filter_filter.
  apply list_filter_iff. tauto.
Qed.

Lemma entries_of_app uid l1 l2 :
  entries_of uid (l1 ++ l2) = entries_of uid l1 ++ entries_of uid l2.
Proof. apply filter_app. Qed.

Lemma roll_remove_notin sid l : sid ∉ l.*1 → roll_remove sid l = l.
Proof.
  induction l as [|e l IH]; simpl; [done|]. rewrite not_elem_of_cons. intros [Hne Hin].
  unfold roll_remove. rewrite filter_cons_True by done. f_equal. by apply IH.
Qed.

Lemma fst_roll_remove sid l : (roll_remove sid l).*1 = filter (λ c, c ≠ sid) l.*1.
Proof.
  induction l as [|e l IH]; [done|]. unfold roll_remove in *. simpl.
  rewrite !filter_cons. destruct (decide (e.1 ≠ sid)); simpl; [|exact IH].
  by f_equal.
Qed.

Lemma elem_of_roll_remove sid e l : e ∈ roll_remove sid l ↔ e.1 ≠ sid ∧ e ∈ l.
Proof. by unfold roll_remove, entries_of; rewrite list_elem_of_filter. Qed.

Lemma notin_roll_remove sid l : sid ∉ (roll_remove sid l).*1.
Proof. rewrite fst_roll_remove, list_elem_of_filter. by intros [? _]. Qed.

Lemma NoDup_roll_remove sid l : NoDup l.*1 → NoDup (roll_remove sid l).*1.
Proof. rewrite fst_roll_remove. apply NoDup_filter. Qed.

Lemma NoDup_roll_add h m l : NoDup l.*1 → NoDup (roll_add h m l).*1.
Proof.
  intros Hnd. unfold roll_add. rewrite fmap_app, NoDup_app. split_and!.
  - by apply NoDup_roll_remove.
  - intros sid Hin. simpl. rewrite list_elem_of_singleton. intros ->.
    by apply notin_roll_remove in Hin.
  - apply NoDup_singleton.
Qed.

Lemma list_to_map_roll_remove sid l :
  NoDup l.*1 →
  list_to_map (roll_remove sid l) =@{gmap SocketId Subscriber} delete sid (list_to_map l).
Proof.
  intros Hnd. apply map_eq. intros sid'. destruct (decide (sid' = sid)) as [->|Hne].
  - rewrite lookup_delete_eq. apply not_elem_of_list_to_map, notin_roll_remove.
  - rewrite lookup_delete_ne by done. apply option_eq. intros sub.
    rewrite <-!elem_of_list_to_map by auto using NoDup_roll_remove.
    rewrite elem_of_roll_remove. simpl. tauto.
Qed.

Lemma elem_of_entries_of uid e l : e ∈ entries_of uid l ↔ user_of e = Some uid ∧ e ∈ l.
Proof. by unfold roll_remove, entries_of; rewrite list_elem_of_filter. Qed.

(** A socket's entry belongs to one user at most. *)
Lemma entries_of_other sid sub uid l :
  NoDup l.*1 → (sid, sub) ∈ l → user_of (sid, sub) ≠ Some uid →
  sid ∉ (entries_of uid l).*1.
Proof.
  intros Hnd Hin Hne ([sid' sub'] & -> & [Hu Hin']%elem_of_entries_of)%list_elem_of_fmap.
  simpl in *.
  assert (sub = sub') as ->; [|done].
  apply (elem_of_list_to_map (M := gmap SocketId)) in Hin, Hin'; [congruence|done..].
Qed.

Lemma info_of_cons uid e es l :
  entries_of uid l = e :: es →
  ∃ m, sub_member e.2 = Some m ∧ pm_user_id m = uid ∧ info_of uid l = Some (pm_user_info m).
Proof.
  intros Heq. assert (e ∈ entries_of uid l) as [Hu _]%elem_of_entries_of.
  { rewrite Heq. apply list_elem_of_here. }
  unfold user_of in Hu. destruct (sub_member e.2) as [m|] eqn:Hm; [|done].
  exists m. simplify_eq/=. unfold info_of. rewrite Heq. simpl. by rewrite Hm.
Qed.

Lemma info_of_app uid l l' v :
  info_of uid l = Some v → info_of uid (l ++ l') = Some v.
Proof. unfold info_of. rewrite entries_of_app. by destruct (entries_of uid l). Qed.

Lemma user_ok_ext `{SerdeJson} l l' uid ou :
  entries_of uid l = entries_of uid l' → user_ok l uid ou → user_ok l' uid ou.
Proof. unfold user_ok, info_of. by intros ->. Qed.

(** ** The memoised values stay coherent *)

Section coherence.
Context `{SerdeJson} (channel : string).

Lemma frame_coherent_fresh s : roster_frame s = None → frame_coherent channel s.
Proof. by intros Hs f; rewrite Hs. Qed.

Lemma frame_coherent_same s s' :
  roster_frame s' = roster_frame s →
  pu_user_info <$> users s' = pu_user_info <$> users s →
  frame_coherent channel s → frame_coherent channel s'.
Proof.
  intros Hf Hu Hs f. rewrite Hf, (fresh_roster_frame_eq _ _ _ Hu). apply Hs.
Qed.

(** Changing only the connections of a user keeps the roster. *)
Lemma infos_insert (us : gmap string PresenceUser) uid u conns :
  us !! uid = Some u →
  pu_user_info <$> <[uid := mkPresenceUser (pu_user_info u) conns]> us =
  pu_user_info <$> us.
Proof.
  intros Hu. rewrite fmap_insert. simpl. apply insert_id. by rewrite lookup_fmap, Hu.
Qed.

Lemma reseat_coherent uid oldest s :
  frame_coherent channel s → frame_coherent channel (reseat_user_info uid oldest s).
Proof.
  intros Hs. unfold reseat_user_info.
  by repeat (case_match; try done).
Qed.

Lemma remove_coherent sid s :
  frame_coherent channel s → frame_coherent channel (remove sid s).1.
Proof.
  intros Hs. unfold remove. destruct (subscribers s !! sid) as [sub|]; [|done].
  destruct (sub_member sub) as [m|]; simpl.
  2:{ by eapply frame_coherent_same; [| |exact Hs]. }
  destruct (users s !! pm_user_id m) as [u|] eqn:Hu; simpl.
  2:{ by apply frame_coherent_fresh. }
  destruct (head _) as [oldest|]; simpl.
  - apply reseat_coherent. eapply frame_coherent_same; [| |exact Hs]; simpl; [done|].
    by apply infos_insert.
  - by apply frame_coherent_fresh.
Qed.

Lemma cached_roster_frame_coherent s :
  frame_coherent channel s →
  frame_coherent channel (cached_roster_frame channel s).1 ∧
  (cached_roster_frame channel s).2 = fresh_roster_frame channel s.
Proof.
  intros Hs. unfold cached_roster_frame. destruct (roster_frame s) eqn:Hf; simpl.
  - split; [done|]. by apply Hs.
  - split; [|done]. intros f [= <-]. by apply fresh_roster_frame_eq.
Qed.
End coherence.

(** ** Refinement *)

Section refinement.
Context `{SerdeJsonLaws} (channel : string).

Lemma refines_default : refines channel [] ChannelState_default.
Proof. by split; [apply NoDup_nil_2| | | |]. Qed.

Lemma subscribers_reseat uid oldest s :
  subscribers (reseat_user_info uid oldest s) = subscribers s.
Proof. unfold reseat_user_info. by repeat case_match. Qed.

Lemma snapshot_reseat uid oldest s :
  snapshot (reseat_user_info uid oldest s) = snapshot s.
Proof. unfold reseat_user_info. by repeat case_match. Qed.

Lemma subscribers_remove sid s :
  subscribers (remove sid s).1 = delete sid (subscribers s).
Proof.
  unfold remove. destruct (subscribers s !! sid) as [sub|] eqn:Hs.
  2:{ by rewrite delete_id. }
  destruct (sub_member sub); [|done]. destruct (users _ !! _); [|done].
  destruct (head _); [|done]. simpl. by rewrite subscribers_reseat.
Qed.

Lemma snapshot_remove sid s :
  snapshot (remove sid s).1 = None ∨ (remove sid s).1 = s.
Proof.
  unfold remove. destruct (subscribers s !! sid) as [sub|]; [left|by right].
  destruct (sub_member sub); [|done]. destruct (users _ !! _); [|done].
  destruct (head _); [|done]. simpl. by rewrite snapshot_reseat.
Qed.

Lemma users_reseat_other uid uid' oldest s :
  uid' ≠ uid → users (reseat_user_info uid oldest s) !! uid' = users s !! uid'.
Proof.
  intros Hne. unfold reseat_user_info. repeat case_match; try done.
  simpl. by rewrite lookup_insert_ne.
Qed.

Lemma users_remove_other sid sub uid s :
  subscribers s !! sid = Some sub → user_of (sid, sub) ≠ Some uid →
  users (remove sid s).1 !! uid = users s !! uid.
Proof.
  intros Hs Hne. unfold remove. rewrite Hs. unfold user_of in Hne. simpl in Hne.
  destruct (sub_member sub) as [m|]; [|done].
  assert (uid ≠ pm_user_id m) by (intros ->; by apply Hne).
  simpl. destruct (users s !! pm_user_id m) as [u|]; simpl.
  - destruct (head _) as [oldest|]; simpl.
    + rewrite users_reseat_other by done. simpl. by rewrite lookup_insert_ne.
    + rewrite lookup_delete_ne by done. by rewrite lookup_insert_ne.
  - by rewrite lookup_delete_ne.
Qed.

(** After the reseat the entry agrees with the oldest surviving connection. *)
Lemma user_ok_reseat l uid e es u s :
  entries_of uid l = e :: es →
  subscribers s !! e.1 = Some e.2 →
  users s !! uid = Some u → pu_conns u = (e :: es).*1 →
  user_ok l uid (users (reseat_user_info uid e.1 s) !! uid).
Proof.
  intros Hl Hsub Hu Hconns.
  destruct (info_of_cons _ _ _ _ Hl) as (m & Hm & _ & Hinfo).
  unfold reseat_user_info. rewrite Hsub. simpl. rewrite Hm, Hu.
  destruct (value_eqb (pu_user_info u) (pm_user_info m)) eqn:Heq; simpl.
  - rewrite Hu. simpl. rewrite Hl. eauto.
  - rewrite lookup_insert_eq. simpl. rewrite Hl. split; [done|].
    exists (pm_user_info m). by split.
Qed.

(** The departing connection's user, in the roll and in the state. *)
Lemma remove_member l s sid sub m :
  refines channel l s → subscribers s !! sid = Some sub → sub_member sub = Some m →
  user_ok (roll_remove sid l) (pm_user_id m) (users (remove sid s).1 !! pm_user_id m) ∧
  (remove sid s).2 =
    Some (mkPresenceLeave
            (bool_decide (entries_of (pm_user_id m) (roll_remove sid l) = []))
            (pm_user_id m)).
Proof.
  intros Hr Hs Hm. set (uid := pm_user_id m).
  assert ((sid, sub) ∈ l) as Hin.
  { rewrite (r_subscribers _ _ _ Hr) in Hs. by apply elem_of_list_to_map_2 in Hs. }
  assert ((sid, sub) ∈ entries_of uid l) as Hine.
  { apply elem_of_entries_of. unfold user_of. simpl. by rewrite Hm. }
  unfold remove. rewrite Hs, Hm. fold uid. simpl.
  pose proof (r_users _ _ _ Hr uid) as Hok.
  destruct (users s !! uid) as [u|]; simpl in Hok.
  2:{ rewrite Hok in Hine. by apply not_elem_of_nil in Hine. }
  destruct Hok as [Hconns _]. rewrite Hconns, <-fst_roll_remove, <-entries_of_remove.
  destruct (entries_of uid (roll_remove sid l)) as [|e es] eqn:He; simpl.
  - by rewrite lookup_delete_eq.
  - split; [|done].
    eapply user_ok_reseat; [exact He| |apply lookup_insert_eq|done].
    simpl. rewrite (r_subscribers _ _ _ Hr).
    rewrite <-list_to_map_roll_remove by apply Hr.
    apply elem_of_list_to_map; [by apply NoDup_roll_remove, Hr|].
    assert (e ∈ entries_of uid (roll_remove sid l)) as [_ Hel]%elem_of_entries_of.
    { rewrite He. apply list_elem_of_here. }
    by destruct e.
Qed.

Lemma remove_users_ok l s sid uid :
  refines channel l s → user_ok (roll_remove sid l) uid (users (remove sid s).1 !! uid).
Proof.
  intros Hr. destruct (subscribers s !! sid) as [sub|] eqn:Hs.
  - destruct (decide (user_of (sid, sub) = Some uid)) as [Hu|Hu].
    + unfold user_of in Hu. simpl in Hu.
      destruct (sub_member sub) as [m|] eqn:Hm; [|done]. simplify_eq/=.
      by eapply remove_member.
    + erewrite users_remove_other by done.
      eapply user_ok_ext; [|by apply Hr]. rewrite entries_of_remove.
      symmetry. apply roll_remove_notin. eapply entries_of_other; [apply Hr| |exact Hu].
      apply elem_of_list_to_map; [apply Hr|]. by rewrite <-(r_subscribers _ _ _ Hr).
  - assert (sid ∉ l.*1) as Hnin.
    { apply (not_elem_of_list_to_map (M := gmap SocketId)).
      by rewrite <-(r_subscribers _ _ _ Hr). }
    unfold remove. rewrite Hs, roll_remove_notin by done. apply Hr.
Qed.

Lemma remove_refines l s sid :
  refines channel l s → refines channel (roll_remove sid l) (remove sid s).1.
Proof.
  intros Hr. split.
  - by apply NoDup_roll_remove, Hr.
  - rewrite subscribers_remove, (r_subscribers _ _ _ Hr).
    symmetry. apply list_to_map_roll_remove, Hr.
  - intros uid. by apply remove_users_ok.
  - destruct (snapshot_remove sid s) as [Hn|Heq]; [by rewrite Hn|].
    rewrite Heq. apply Hr.
  - apply remove_coherent, Hr.
Qed.

(** [add] after its leading [remove], on the users. *)
Lemma add_user_ok l s sid h m :
  (∀ uid, user_ok l uid (users s !! uid)) →
  (∀ uid, user_ok (l ++ [(sid, mkSubscriber h (Some m))]) uid
            (users (add_user m sid s).1 !! uid)) ∧
  pj_first_for_user (add_user m sid s).2 =
    bool_decide (entries_of (pm_user_id m) l = []).
Proof.
  intros Hus. set (e := (sid, mkSubscriber h (Some m))).
  assert (entries_of (pm_user_id m) [e] = [e]) as He
    by by unfold entries_of; rewrite filter_cons_True.
  pose proof (Hus (pm_user_id m)) as Hok. unfold add_user, user_ok in *. simpl. split.
  - intros uid. destruct (decide (uid = pm_user_id m)) as [->|Hne].
    + rewrite lookup_insert_eq, entries_of_app, fmap_app, He. simpl.
      destruct (users s !! pm_user_id m) as [u|]; simpl.
      * destruct Hok as (-> & v & Hv & ?). split; [done|].
        exists v. split; [by apply info_of_app|done].
      * rewrite Hok. split; [done|]. exists (pm_user_info m). split; [|done].
        unfold info_of. by rewrite entries_of_app, Hok, He.
    + rewrite lookup_insert_ne by done. apply (user_ok_ext l); [|apply Hus].
      rewrite entries_of_app. unfold entries_of at 3.
      rewrite filter_cons_False, app_nil_r; [done|]. unfold user_of. simpl. congruence.
  - rewrite length_app, Nat.add_1_r. destruct (users s !! pm_user_id m) as [u|]; simpl.
    + destruct Hok as (-> & v & Hv & _). unfold info_of in Hv.
      by destruct (entries_of (pm_user_id m) l).
    + by rewrite Hok.
Qed.

(** The frame cache across [add]: reset exactly when the user is new. *)
Lemma add_user_frame m sid s s' :
  frame_coherent channel s → roster_frame s' = roster_frame s →
  users s' = users (add_user m sid s).1 →
  frame_coherent channel
    (if pj_first_for_user (add_user m sid s).2 then take_roster_frame s' else s').
Proof.
  intros Hs Hf Hu. unfold add_user in *. simpl in *.
  destruct (users s !! pm_user_id m) as [u|] eqn:Hm; simpl in *.
  - case_match; [by apply frame_coherent_fresh|].
    eapply frame_coherent_same; [exact Hf| |exact Hs].
    rewrite Hu. by apply infos_insert.
  - by apply frame_coherent_fresh.
Qed.

(** [add] past its leading [remove], as a function of the state it starts from. *)
Lemma add_step l s h m :
  refines channel l s → ch_socket_id h ∉ l.*1 →
  let s1 := take_snapshot (set_subscribers
    (<[ch_socket_id h := mkSubscriber h m]> (subscribers s))
    (match m with Some m => (add_user m (ch_socket_id h) s).1 | None => s end)) in
  let s2 :=
    match m with
    | Some m => if pj_first_for_user (add_user m (ch_socket_id h) s).2
                then take_roster_frame s1 else s1
    | None => s1
    end in
  refines channel (l ++ [(ch_socket_id h, mkSubscriber h m)]) s2.
Proof.
  intros Hr Hnin s1 s2.
  assert (subscribers s2 = subscribers s1 ∧ snapshot s2 = None ∧ users s2 = users s1)
    as (Hsubs & Hsnap & Husers) by (subst s1 s2; by repeat case_match).
  split.
  - rewrite fmap_app, NoDup_app. split_and!; [apply Hr| |apply NoDup_singleton].
    simpl. intros sid Hin. rewrite list_elem_of_singleton. by intros ->.
  - rewrite Hsubs. subst s1. simpl. rewrite (r_subscribers _ _ _ Hr), list_to_map_snoc;
      done.
  - intros uid. rewrite Husers. subst s1 s2. destruct m as [m|].
    + apply (add_user_ok l s (ch_socket_id h) h m), Hr.
    + apply (user_ok_ext l); [|by apply Hr]. rewrite entries_of_app.
      unfold entries_of at 3. by rewrite filter_cons_False, app_nil_r.
  - by rewrite Hsnap.
  - subst s1 s2. destruct m as [m|]; [|by apply Hr].
    eapply add_user_frame; [apply Hr|done..].
Qed.

Lemma cached_roster_frame_refines l s :
  refines channel l s → refines channel l (cached_roster_frame channel s).1.
Proof.
  intros Hr. pose proof (cached_roster_frame_coherent channel s (r_frame _ _ _ Hr)) as [Hf _].
  revert Hf. unfold cached_roster_frame. destruct (roster_frame s); [done|].
  intros Hf. split; [apply Hr..|exact Hf].
Qed.

Lemma add_refines l s h m :
  refines channel l s →
  refines channel (roll_add h m l) (add channel h m s).1 ∧
  (add channel h m s).2 =
    (m ← m; Some (mkPresenceJoin
      (bool_decide (entries_of (pm_user_id m) (roll_remove (ch_socket_id h) l) = []))
      (fresh_roster_frame channel (add channel h (Some m) s).1) m)).
Proof.
  intros Hr. pose proof (remove_refines l s (ch_socket_id h) Hr) as Hr1.
  pose proof (add_step _ _ h m Hr1 (notin_roll_remove _ _)) as Hr2. simpl in Hr2.
  unfold add. destruct m as [m|]; [|by split].
  pose proof (add_user_ok _ _ (ch_socket_id h) h m (r_users _ _ _ Hr1)) as [_ Hfirst].
  unfold add_user in Hr2, Hfirst. simpl in *. rewrite Hfirst in *.
  match type of Hr2 with refines _ _ ?s => set (s2 := s) in * end.
  pose proof (cached_roster_frame_refines _ _ Hr2) as Hr3.
  pose proof (cached_roster_frame_coherent channel s2 (r_frame _ _ _ Hr2)) as [_ Hfr].
  assert (users (cached_roster_frame channel s2).1 = users s2) as Hus
    by (unfold cached_roster_frame; by case_match).
  destruct (cached_roster_frame channel s2) as [s3 f]. simpl in *. split; [done|].
  rewrite Hfr. do 2 f_equal. apply fresh_roster_frame_eq. by rewrite Hus.
Qed.

Lemma map_to_list_refines l s :
  refines channel l s → map_to_list (subscribers s) ≡ₚ l.
Proof. intros Hr. rewrite (r_subscribers _ _ _ Hr). apply map_to_list_to_map, Hr. Qed.

Lemma fanout_refines l s ev ex :
  refines channel l s →
  refines channel l (fanout ev ex s).1 ∧ fo_snapshot (fanout ev ex s).2 ≡ₚ l.
Proof.
  intros Hr. assert (default (map_to_list (subscribers s)) (snapshot s)
                       ≡ₚ map_to_list (subscribers s)) as Hp.
  { destruct (snapshot s) eqn:Hs; [by apply Hr|done]. }
  split.
  - split; simpl; [apply Hr..| |].
    + intros p [= <-]. done.
    + eapply frame_coherent_same; [| |apply Hr]; done.
  - simpl. by rewrite Hp, map_to_list_refines.
Qed.
End refinement.

(** ** Histories *)

Inductive chan_op : Type :=
| OpAdd (h : ConnectionHandle) (m : option PresenceMember)
| OpRemove (sid : SocketId)
| OpFanout (ev : ServerEvent) (except : option SocketId)
| OpRosterFrame.

Definition chan_step `{SerdeJson} (channel : string) (s : ChannelState) (op : chan_op)
    : ChannelState :=
  match op with
  | OpAdd h m => (add channel h m s).1
  | OpRemove sid => (remove sid s).1
  | OpFanout ev ex => (fanout ev ex s).1
  | OpRosterFrame => (cached_roster_frame channel s).1
  end.

Definition roll_step (l : roll) (op : chan_op) : roll :=
  match op with
  | OpAdd h m => roll_add h m l
  | OpRemove sid => roll_remove sid l
  | _ => l
  end.

Definition chan_run `{SerdeJson} (channel : string) : list chan_op → ChannelState :=
  foldl (chan_step channel) ChannelState_default.

Definition roll_run : list chan_op → roll := foldl roll_step [].

Lemma chan_step_refines `{SerdeJsonLaws} channel l s op :
  refines channel l s → refines channel (roll_step l op) (chan_step channel s op).
Proof.
  intros Hr. destruct op; simpl.
  - by apply add_refines.
  - by apply remove_refines.
  - apply (fanout_refines channel l s ev except Hr).
  - by apply cached_roster_frame_refines.
Qed.

Lemma chan_run_refines `{SerdeJsonLaws} channel ops :
  refines channel (roll_run ops) (chan_run channel ops).
Proof.
  unfold roll_run, chan_run. generalize (refines_default channel).
  generalize (@nil (SocketId * Subscriber)) ChannelState_default.
  induction ops as [|op ops IH]; intros l s Hr; simpl; [done|].
  by apply IH, chan_step_refines.
Qed.

(** ** The roster payload *)

Lemma elem_of_roll_users uid l : uid ∈ roll_users l ↔ entries_of uid l ≠ [].
Proof.
  unfold roll_users. rewrite elem_of_list_to_set, list_elem_of_omap. split.
  - intros (e & He & Hu) Hnil. apply (not_elem_of_nil e). rewrite <-Hnil.
    by apply elem_of_entries_of.
  - destruct (entries_of uid l) as [|e es] eqn:He; [done|]. intros _. exists e.
    assert (e ∈ entries_of uid l) as [? ?]%elem_of_entries_of; [|done].
    rewrite He. apply list_elem_of_here.
Qed.

Lemma dom_users_refines `{SerdeJson} channel l s :
  refines channel l s → dom (users s) = roll_users l.
Proof.
  intros Hr. apply set_eq. intros uid. rewrite elem_of_roll_users, elem_of_dom.
  pose proof (r_users _ _ _ Hr uid) as Hok. unfold user_ok in Hok.
  destruct (users s !! uid) as [u|].
  - destruct Hok as (_ & v & Hv & _). split; [|done]. intros _ Hnil.
    unfold info_of in Hv. by rewrite Hnil in Hv.
  - rewrite Hok. split; [by intros []|done].
Qed.

Lemma roster_ids_perm s : pp_ids (roster s) ≡ₚ elements (dom (users s)).
Proof.
  simpl. rewrite btree_iter_perm.
  apply NoDup_Permutation; [apply NoDup_fst_map_to_list|apply NoDup_elements|].
  intros uid. rewrite elem_of_elements, elem_of_dom, list_elem_of_fmap. split.
  - intros ([k u] & -> & Hin%elem_of_map_to_list). by exists u.
  - intros [u Hu]. exists (uid, u). by rewrite elem_of_map_to_list.
Qed.

Lemma roster_ids_sorted s : StronglySorted String.le (pp_ids (roster s)).
Proof.
  simpl. induction (btree_iter_sorted (users s)) as [|x l _ IH Hx]; simpl; constructor.
  - done.
  - by apply Forall_fmap.
Qed.

Lemma roster_hash_keys s : (pp_hash (roster s)).*1 = pp_ids (roster s).
Proof. simpl. rewrite <-list_fmap_compose. by apply list_fmap_ext; intros ? []. Qed.

(** ** Properties *)

Section claims.
Context `{SerdeJsonLaws} (channel : string).

(** C33. After any history of joins, leaves, broadcasts and roster reads, the
    channel state is the join-ordered list of subscriptions: same
    subscribers, each presence user's live connections in join order with
    the metadata of the oldest one, a fan-out snapshot that is exactly the
    subscriber set, and a memoised roster frame that equals a fresh encode. *)
Theorem channel_state_refines_roll (ops : list chan_op) :
  refines channel (roll_run ops) (chan_run channel ops).
Proof. apply chan_run_refines. Qed.

(** After any history, a presence join reports [first_for_user] exactly
    when the user has no other connection, carrying the encode of the roster
    it produced, and a leave reports [last_for_user] exactly when no other
    connection of that user remains; joins and leaves of sockets without a
    member report nothing. *)
Theorem presence_edges (ops : list chan_op) (h : ConnectionHandle)
    (m : option PresenceMember) (sid : SocketId) :
  let s := chan_run channel ops in
  let others sid m := entries_of (pm_user_id m) (roll_remove sid (roll_run ops)) in
  (add channel h m s).2 =
    (m ← m; Some (mkPresenceJoin (bool_decide (others (ch_socket_id h) m = []))
                    (fresh_roster_frame channel (add channel h (Some m) s).1) m)) ∧
  (remove sid s).2 =
    (m ← subscribers s !! sid ≫= sub_member;
     Some (mkPresenceLeave (bool_decide (others sid m = [])) (pm_user_id m))).
Proof.
  intros s others. pose proof (chan_run_refines channel ops) as Hr. split.
  - apply (add_refines channel _ _ h m Hr).
  - destruct (subscribers s !! sid) as [sub|] eqn:Hs; simpl.
    + destruct (sub_member sub) as [m'|] eqn:Hm; simpl.
      * by apply (remove_member channel _ _ _ sub m' Hr).
      * unfold remove. by rewrite Hs, Hm.
    + unfold remove. by rewrite Hs.
Qed.

(** The roster payload lists exactly the users with a live connection,
    once each and in ascending order; its hash has the same keys in the same
    order and its count is their number. *)
Theorem roster_lists_live_users (ops : list chan_op) :
  let p := roster (chan_run channel ops) in
  StronglySorted String.le (pp_ids p) ∧ NoDup (pp_ids p) ∧
  (∀ uid, uid ∈ pp_ids p ↔ entries_of uid (roll_run ops) ≠ []) ∧
  (pp_hash p).*1 = pp_ids p ∧ pp_count p = length (pp_ids p).
Proof.
  simpl. pose proof (chan_run_refines channel ops) as Hr.
  pose proof (roster_ids_perm (chan_run channel ops)) as Hp. simpl in Hp. split_and!.
  - apply roster_ids_sorted.
  - rewrite Hp. apply NoDup_elements.
  - intros uid. rewrite Hp, elem_of_elements, (dom_users_refines _ _ _ Hr).
    apply elem_of_roll_users.
  - apply roster_hash_keys.
  - by rewrite Hp, <-size_dom.
Qed.
End claims.

(** ** Concrete inputs *)

Module ChannelDemo.
Definition handle (name : string) (chan : nat) : ConnectionHandle :=
  mkConnectionHandle (SocketId.from_raw name) (mkMailbox chan None None).

Definition member (uid info : string) : PresenceMember :=
  mkPresenceMember uid (JObject [("name", JString info)]).

(** One user on two devices, another on one, and the first device leaves. *)
Definition ops : list chan_op :=
  [OpAdd (handle "1.1" 0) (Some (member "alice" "phone"));
   OpAdd (handle "1.2" 1) (Some (member "bob" "desk"));
   OpAdd (handle "1.3" 2) (Some (member "alice" "laptop"));
   OpFanout Ping None;
   OpRemove (SocketId.from_raw "1.1")].
End ChannelDemo.

#[local] Existing Instance JsonDemo.demo.
#[local] Existing Instance JsonDemo.demo_laws.

Lemma channel_state_refines_roll_witness :
  refines "presence-room" (roll_run ChannelDemo.ops)
    (chan_run "presence-room" ChannelDemo.ops) ∧
  (pu_user_info <$> users (chan_run "presence-room" ChannelDemo.ops) !! "alice") =
    Some (JObject [("name", JString "laptop")]).
Proof. split; [apply channel_state_refines_roll|by_eval]. Defined.

Lemma presence_edges_witness :
  (remove (SocketId.from_raw "1.3") (chan_run "presence-room" ChannelDemo.ops)).2 =
  Some (mkPresenceLeave true "alice").
Proof.
  rewrite (proj2 (presence_edges "presence-room" ChannelDemo.ops
    (ChannelDemo.handle "1.4" 3) None (SocketId.from_raw "1.3"))).
  by_eval.
Defined.

Lemma roster_lists_live_users_witness :
  pp_ids (roster (chan_run "presence-room" ChannelDemo.ops)) = ["alice"; "bob"] ∧
  NoDup (pp_ids (roster (chan_run "presence-room" ChannelDemo.ops))).
Proof.
  split; [by_eval|].
  apply (roster_lists_live_users "presence-room" ChannelDemo.ops).
Defined.
