(* ===== verification/Registry.v ===== *)
(** * The channel registry: [src/src/channel/registry.rs]

    The [(app, channel)] map over [ChannelState]. Each method is one or two
    atomic sections under the map's shard guard; [unsubscribe] is two (the
    removal, then the conditional prune), and the step relation interleaves
    them with the calls of other threads. *)

From S2P Require Import Prelude RustStd Json JsonDemo Protocol Kind Mailbox ChannelState.

Abbreviation key := (string * string)%type.
Abbreviation Registry := (gmap key ChannelState).

Section with_json.
Context `{SerdeJson}.

Definition subscribe (app channel : string) (handle : ConnectionHandle)
    (member : option PresenceMember) (r : Registry) : Registry * SubscribeOutcome :=
  let k := (app, channel) in
  let state := default ChannelState_default (r !! k) in
  let was_empty := (subscription_count state =? 0)%nat in
  let '(state, presence) := add channel handle member state in
  let count := subscription_count state in
  (<[k := state]> r,
   mkSubscribeOutcome count presence (was_empty && (count =? 1)%nat)).

(** The first section of [unsubscribe]: the removal under [get_mut]. *)
Definition unsubscribe_remove (k : key) (socket_id : SocketId) (r : Registry)
    : Registry * (nat * option PresenceLeave * bool) :=
  match r !! k with
  | Some state =>
      let '(state, presence) := remove socket_id state in
      (<[k := state]> r, (subscription_count state, presence, is_empty state))
  | None => (r, (0, None, false))
  end.

(** The second section: [remove_if(key, is_empty)]. *)
Definition remove_if_empty (k : key) (r : Registry) : Registry :=
  match r !! k with
  | Some s => if is_empty s then delete k r else r
  | None => r
  end.

Definition unsubscribe (app channel : string) (socket_id : SocketId) (r : Registry)
    : Registry * UnsubscribeOutcome :=
  let k := (app, channel) in
  let '(r, (count, presence, now_empty)) := unsubscribe_remove k socket_id r in
  (if now_empty then remove_if_empty k r else r,
   mkUnsubscribeOutcome count presence now_empty).

(** The guarded half of [broadcast]: the fan-out snapshot. *)
Definition broadcast_fanout (app channel : string) (event : ServerEvent)
    (except : option SocketId) (r : Registry) : Registry * option Fanout :=
  match r !! (app, channel) with
  | None => (r, None)
  | Some state =>
      let '(state, f) := fanout event except state in
      (<[(app, channel) := state]> r, Some f)
  end.

Definition broadcast (app channel : string) (event : ServerEvent)
    (except : option SocketId) (r : Registry) (st : Store) : Registry * Store :=
  match broadcast_fanout app channel event except r with
  | (r, None) => (r, st)
  | (r, Some f) => (r, Fanout_send f st)
  end.

Definition channel_summary (app channel : string) (r : Registry) : ChannelSummary :=
  match r !! (app, channel) with
  | Some s =>
      mkChannelSummary channel (negb (is_empty s)) (subscription_count s) (user_count s)
  | None => mkChannelSummary channel false 0 None
  end.

Definition channels (app : string) (prefix : option string) (r : Registry)
    : list ChannelSummary :=
  (λ e, mkChannelSummary e.1.2 true (subscription_count e.2) (user_count e.2)) <$>
  filter (λ e, match prefix with None => true | Some p => Str.starts_with p e.1.2 end = true)
    (filter (λ e, e.1.1 = app ∧ is_empty e.2 = false) (map_to_list r)).

Definition presence_members (app channel : string) (r : Registry) : list PresenceMember :=
  match r !! (app, channel) with Some s => members s | None => [] end.

Definition registry_roster_frame (app channel : string) (r : Registry)
    : Registry * option string :=
  match r !! (app, channel) with
  | None => (r, None)
  | Some s =>
      match user_count s with
      | None => (r, None)
      | Some _ =>
          let '(s, f) := cached_roster_frame channel s in
          (<[(app, channel) := s]> r, Some f)
      end
  end.

Definition local_members (r : Registry) : list (key * list SocketId) :=
  (λ e, (e.1, socket_ids e.2)) <$> filter (λ e, is_empty e.2 = false) (map_to_list r).

End with_json.

(** ** Concurrent callers

    The threads' shared state: the map and the prunes that have been decided
    under the guard but not yet performed. *)

Record RWorld : Type := mkRWorld { rw_reg : Registry; rw_pending : list key }.

(** What the calls report: [occupied], and [vacated] by the unsubscribe of a
    member or of a socket that was none. *)
Inductive edge : Type := Occupied (k : key) | Vacated (k : key) | VacatedAgain (k : key).

Definition vacated_edge (k : key) (sid : SocketId) (r : Registry) : edge :=
  match r !! k ≫= λ s, subscribers s !! sid with Some _ => Vacated k | None => VacatedAgain k end.

Inductive rstep `{SerdeJson} : RWorld → list edge → RWorld → Prop :=
| RS_subscribe app channel h m r p r' o :
    subscribe app channel h m r = (r', o) →
    rstep (mkRWorld r p)
      (if so_occupied o then [Occupied (app, channel)] else [])
      (mkRWorld r' p)
| RS_unsubscribe k sid r p r' n pl now_empty :
    unsubscribe_remove k sid r = (r', (n, pl, now_empty)) →
    rstep (mkRWorld r p)
      (if (now_empty : bool) then [vacated_edge k sid r] else [])
      (mkRWorld r' (if now_empty then k :: p else p))
| RS_prune k r p1 p2 :
    rstep (mkRWorld r (p1 ++ k :: p2)) [] (mkRWorld (remove_if_empty k r) (p1 ++ p2))
| RS_broadcast app channel ev ex r p r' f :
    broadcast_fanout app channel ev ex r = (r', f) →
    rstep (mkRWorld r p) [] (mkRWorld r' p)
| RS_roster app channel r p r' f :
    registry_roster_frame app channel r = (r', f) →
    rstep (mkRWorld r p) [] (mkRWorld r' p).

(** Reachability, with the edges reported so far, oldest first. *)
Inductive rreach `{SerdeJson} : list edge → RWorld → Prop :=
| rreach_init : rreach [] (mkRWorld ∅ [])
| rreach_step tr w es w' : rreach tr w → rstep w es w' → rreach (tr ++ es) w'.

(** Edges of one key: [false] is closed, and each edge must flip the state, but
    for those of sockets that were no members, which come while it is closed. *)
Fixpoint edges_run (k : key) (open : bool) (tr : list edge) : option bool :=
  match tr with
  | [] => Some open
  | Occupied k' :: tr =>
      if decide (k' = k) then (if open then None else edges_run k true tr)
      else edges_run k open tr
  | Vacated k' :: tr =>
      if decide (k' = k) then (if open then edges_run k false tr else None)
      else edges_run k open tr
  | VacatedAgain k' :: tr =>
      if decide (k' = k) then (if open then None else edges_run k false tr)
      else edges_run k open tr
  end.

Definition has_subscribers (r : Registry) (k : key) : bool :=
  match r !! k with Some s => negb (is_empty s) | None => false end.

(** ** Lemmas *)

Definition registry_refines `{SerdeJson} (r : Registry) : Prop :=
  ∀ k s, r !! k = Some s → ∃ l, refines k.2 l s.

(** No entry is left behind empty. *)
Definition no_empty_entry (r : Registry) : Prop :=
  ∀ k s, r !! k = Some s → is_empty s = false.

Section counts.
Context `{SerdeJson} (channel : string).

Lemma subscription_count_refines l s :
  refines channel l s → subscription_count s = length l.
Proof.
  intros Hr. unfold subscription_count.
  rewrite <-length_map_to_list. apply Permutation_length.
  rewrite (r_subscribers _ _ _ Hr). apply map_to_list_to_map, Hr.
Qed.

Lemma is_empty_refines l s : refines channel l s → is_empty s = bool_decide (l = []).
Proof.
  intros Hr. apply bool_decide_ext. rewrite <-map_size_empty_iff.
  pose proof (subscription_count_refines l s Hr) as Hc. unfold subscription_count in Hc.
  rewrite Hc. apply length_zero_iff_nil.
Qed.

Lemma roll_add_nonempty h m l : roll_add h m l ≠ [].
Proof. unfold roll_add. by destruct (roll_remove _ l). Qed.
End counts.

Section lemmas.
Context `{SerdeJsonLaws}.

Lemma default_refines r k :
  registry_refines r →
  ∃ l, refines k.2 l (default ChannelState_default (r !! k)) ∧
       has_subscribers r k = bool_decide (l ≠ []).
Proof.
  intros Hr. unfold has_subscribers. destruct (r !! k) as [s|] eqn:Hk; simpl.
  - destruct (Hr _ _ Hk) as [l Hl]. exists l. split; [done|].
    rewrite (is_empty_refines _ _ _ Hl). by rewrite bool_decide_not.
  - exists []. split; [apply refines_default|]. done.
Qed.

Lemma has_subscribers_insert_ne r k k' s :
  k ≠ k' → has_subscribers (<[k := s]> r) k' = has_subscribers r k'.
Proof. intros Hne. unfold has_subscribers. by rewrite lookup_insert_ne. Qed.

Lemma has_subscribers_insert_eq r k s :
  has_subscribers (<[k := s]> r) k = negb (is_empty s).
Proof. unfold has_subscribers. by rewrite lookup_insert_eq. Qed.

Lemma registry_refines_insert r k s l :
  registry_refines r → refines k.2 l s → registry_refines (<[k := s]> r).
Proof.
  intros Hr Hs k' s'. rewrite lookup_insert_Some. intros [[<- <-]|[_ Hk]]; eauto.
Qed.

Lemma registry_refines_delete r k : registry_refines r → registry_refines (delete k r).
Proof. intros Hr k' s'. rewrite lookup_delete_Some. intros [_ Hk]. eauto. Qed.

(** [subscribe]: the entry gains the subscription, and [occupied] is the
    empty-to-occupied edge. *)
Lemma subscribe_spec app channel h m r :
  registry_refines r →
  let k := (app, channel) in
  ∃ l, refines channel l (default ChannelState_default (r !! k)) ∧
    has_subscribers r k = bool_decide (l ≠ []) ∧
    ∃ s, (subscribe app channel h m r).1 = <[k := s]> r ∧
      refines channel (roll_add h m l) s ∧
      so_subscription_count (subscribe app channel h m r).2 = length (roll_add h m l) ∧
      so_occupied (subscribe app channel h m r).2 = negb (has_subscribers r k).
Proof.
  intros Hr k. destruct (default_refines r k Hr) as (l & Hl & Hh). simpl in Hl.
  exists l. split_and!; [done..|]. unfold subscribe. fold k.
  destruct (add_refines channel _ _ h m Hl) as [Ha _].
  destruct (add _ _ _ _) as [s j]. simpl in *. exists s.
  rewrite (subscription_count_refines _ _ _ Hl), (subscription_count_refines _ _ _ Ha).
  split_and!; [done..|]. rewrite Hh. destruct l as [|e l]; [done|].
  rewrite bool_decide_eq_true_2; done.
Qed.

Lemma unsubscribe_remove_spec k sid r s :
  registry_refines r → r !! k = Some s →
  ∃ l s' pl, refines k.2 l s ∧ refines k.2 (roll_remove sid l) s' ∧
    unsubscribe_remove k sid r =
      (<[k := s']> r, (length (roll_remove sid l), pl, is_empty s')).
Proof.
  intros Hr Hk. destruct (Hr _ _ Hk) as [l Hl].
  pose proof (remove_refines _ _ _ sid Hl) as Hl'.
  unfold unsubscribe_remove. rewrite Hk.
  destruct (remove sid s) as [s' pl]. exists l, s', pl. simpl in *.
  by rewrite (subscription_count_refines _ _ _ Hl').
Qed.

Lemma remove_if_empty_has k k' r :
  has_subscribers (remove_if_empty k r) k' = has_subscribers r k'.
Proof.
  unfold remove_if_empty. destruct (r !! k) as [s|] eqn:Hk; [|done].
  destruct (is_empty s) eqn:He; [|done]. unfold has_subscribers.
  destruct (decide (k = k')) as [<-|Hne].
  - by rewrite lookup_delete_eq, Hk, He.
  - by rewrite lookup_delete_ne.
Qed.

Lemma remove_if_empty_refines k r :
  registry_refines r → registry_refines (remove_if_empty k r).
Proof.
  intros Hr. unfold remove_if_empty. repeat case_match; try done.
  by apply registry_refines_delete.
Qed.

Lemma broadcast_fanout_refines app channel ev ex r :
  registry_refines r →
  registry_refines (broadcast_fanout app channel ev ex r).1 ∧
  ∀ k, has_subscribers (broadcast_fanout app channel ev ex r).1 k = has_subscribers r k.
Proof.
  intros Hr. unfold broadcast_fanout.
  destruct (r !! (app, channel)) as [s|] eqn:Hk; [|done].
  destruct (Hr _ _ Hk) as [l Hl].
  pose proof (fanout_refines channel l s ev ex Hl) as [Hf _].
  split.
  - simpl. by eapply registry_refines_insert.
  - intros k. simpl. destruct (decide ((app, channel) = k)) as [<-|Hne].
    + rewrite has_subscribers_insert_eq. unfold has_subscribers. by rewrite Hk.
    + by apply has_subscribers_insert_ne.
Qed.

(** Building the roster frame changes no subscription. *)
Lemma roster_frame_entry app channel r :
  (registry_roster_frame app channel r).1 = r ∨
  ∃ s, r !! (app, channel) = Some s ∧
    (registry_roster_frame app channel r).1 = <[(app, channel) := (cached_roster_frame channel s).1]> r ∧
    is_empty (cached_roster_frame channel s).1 = is_empty s.
Proof.
  unfold registry_roster_frame. destruct (r !! (app, channel)) as [s|] eqn:Hk; [|by left].
  destruct (user_count s); [|by left]. right. exists s. split; [done|].
  assert (is_empty (cached_roster_frame channel s).1 = is_empty s) as He
    by (unfold cached_roster_frame; by case_match).
  by destruct (cached_roster_frame channel s).
Qed.

Lemma edges_run_app k b t1 t2 :
  edges_run k b (t1 ++ t2) = edges_run k b t1 ≫= λ b', edges_run k b' t2.
Proof.
  revert b. induction t1 as [|[k'|k'|k'] t1 IH]; intros b; simpl; [done|..];
    case_decide; destruct b; done.
Qed.

Lemma unsubscribe_remove_refines k sid r :
  registry_refines r → registry_refines (unsubscribe_remove k sid r).1.
Proof.
  intros Hr. destruct (r !! k) as [s|] eqn:Hk; [|unfold unsubscribe_remove; by rewrite Hk].
  destruct (unsubscribe_remove_spec k sid r s Hr Hk) as (l & s' & pl & _ & Hl & ->).
  by eapply registry_refines_insert.
Qed.

Lemma rstep_refines w es w' :
  rstep w es w' → registry_refines (rw_reg w) → registry_refines (rw_reg w').
Proof.
  intros [app channel h m r p r' o Ho|k sid r p r' n pl ne Hu|k r p1 p2
         |app channel ev ex r p r' f Hf|app channel r p r' f Hf] Hr; simpl in *.
  - destruct (subscribe_spec app channel h m r Hr) as (l & _ & _ & s & Hs & Hl & _).
    rewrite Ho in Hs. simpl in Hs. subst. by eapply registry_refines_insert.
  - pose proof (unsubscribe_remove_refines k sid r Hr) as Hr'. by rewrite Hu in Hr'.
  - by apply remove_if_empty_refines.
  - pose proof (broadcast_fanout_refines app channel ev ex r Hr) as [? _].
    by rewrite Hf in *.
  - destruct (roster_frame_entry app channel r) as [He|(s & Hk & He & _)]; rewrite Hf in He; simpl in He; subst r'; [done|].
    destruct (Hr _ _ Hk) as [l Hl]. eapply registry_refines_insert; [done|by apply cached_roster_frame_refines].
Qed.

(** A removal: nobody else's entry changes, the report is whether the entry is
    empty now, and only a member's removal empties an entry. *)
Lemma unsubscribe_remove_edges k sid r k' :
  registry_refines r →
  let '(r', (_, _, now_empty)) := unsubscribe_remove k sid r in
  edges_run k' (has_subscribers r k') (if now_empty then [vacated_edge k sid r] else []) =
  Some (has_subscribers r' k').
Proof.
  intros Hr. destruct (r !! k) as [s|] eqn:Hk; [|unfold unsubscribe_remove; by rewrite Hk].
  destruct (unsubscribe_remove_spec k sid r s Hr Hk) as (l & s' & pl & Hl & Hl' & Hu).
  rewrite Hu. destruct (decide (k = k')) as [<-|Hne]; cycle 1.
  { rewrite has_subscribers_insert_ne by done. unfold vacated_edge.
    destruct (is_empty s'); [|done]. destruct (r !! k ≫= _); simpl; by rewrite decide_False. }
  rewrite has_subscribers_insert_eq. unfold has_subscribers, vacated_edge. rewrite Hk. simpl.
  destruct (subscribers s !! sid) as [sub|] eqn:Hsid.
  - replace (is_empty s) with false by (symmetry; apply bool_decide_eq_false_2; intros He; by rewrite He in Hsid).
    destruct (is_empty s'); simpl; [by rewrite decide_True|done].
  - assert (s' = s) as -> by (unfold unsubscribe_remove, remove in Hu; rewrite Hk, Hsid in Hu;
      injection Hu as Hu _ _ _; apply (f_equal (lookup k)) in Hu; rewrite !lookup_insert_eq in Hu; by injection Hu).
    destruct (is_empty s); simpl; [by rewrite decide_True|done].
Qed.

(** One step's edges flip exactly the keys they name. *)
Lemma rstep_edges w es w' k :
  rstep w es w' → registry_refines (rw_reg w) →
  edges_run k (has_subscribers (rw_reg w) k) es = Some (has_subscribers (rw_reg w') k).
Proof.
  intros [app channel h m r p r' o Ho|k1 sid r p r' n pl ne Hu|k1 r p1 p2
         |app channel ev ex r p r' f Hf|app channel r p r' f Hf] Hr; simpl in *.
  - destruct (subscribe_spec app channel h m r Hr) as (l & _ & _ & s & Hs & Hl & _ & Hocc).
    rewrite Ho in Hs, Hocc. simpl in *. subst r'. rewrite Hocc.
    destruct (decide ((app, channel) = k)) as [<-|Hne].
    + rewrite has_subscribers_insert_eq, (is_empty_refines _ _ _ Hl).
      rewrite bool_decide_eq_false_2 by apply roll_add_nonempty.
      destruct (has_subscribers r _); simpl; [done|]. by rewrite decide_True.
    + rewrite has_subscribers_insert_ne by done.
      destruct (negb _); simpl; [by rewrite decide_False|done].
  - pose proof (unsubscribe_remove_edges k1 sid r k Hr) as He. by rewrite Hu in He.
  - by rewrite remove_if_empty_has.
  - pose proof (broadcast_fanout_refines app channel ev ex r Hr) as [_ Hh].
    rewrite Hf in Hh. simpl in Hh. by rewrite Hh.
  - destruct (roster_frame_entry app channel r) as [He|(s & Hk & He & Hs)]; rewrite Hf in He; simpl in He; subst r'; [done|].
    destruct (decide ((app, channel) = k)) as [<-|Hne]; [|by rewrite has_subscribers_insert_ne].
    rewrite has_subscribers_insert_eq, Hs. unfold has_subscribers. by rewrite Hk.
Qed.

(** An entry is empty only until its prune has run. *)
Definition pruning (w : RWorld) : Prop :=
  ∀ k s, rw_reg w !! k = Some s → is_empty s = true → k ∈ rw_pending w.

Lemma rstep_pruning w es w' : rstep w es w' → registry_refines (rw_reg w) → pruning w → pruning w'.
Proof.
  intros [app channel h m r p r' o Ho|k1 sid r p r' n pl ne Hu|k1 r p1 p2
         |app channel ev ex r p r' f Hf|app channel r p r' f Hf] Hr Hp k s; simpl in *.
  - destruct (subscribe_spec app channel h m r Hr) as (l & _ & _ & s' & Hs & Hl & _).
    rewrite Ho in Hs. simpl in Hs. subst r'. rewrite lookup_insert_Some. intros [[<- <-]|[_ Hk]]; [|by apply (Hp k s)].
    rewrite (is_empty_refines _ _ _ Hl), bool_decide_eq_true. intros Hn. by apply roll_add_nonempty in Hn.
  - destruct (r !! k1) as [s1|] eqn:Hk1.
    2:{ unfold unsubscribe_remove in Hu. rewrite Hk1 in Hu. simplify_eq. apply (Hp k s). }
    destruct (unsubscribe_remove_spec k1 sid r s1 Hr Hk1) as (l & s' & pl' & _ & _ & He). rewrite He in Hu. simplify_eq.
    rewrite lookup_insert_Some. intros [[<- <-]|[_ Hk]] Hs; [rewrite Hs; by left|].
    destruct (is_empty s'); [right|]; by apply (Hp k s).
  - unfold remove_if_empty. destruct (r !! k1) as [s1|] eqn:Hk1; [destruct (is_empty s1) eqn:He|];
      rewrite ?lookup_delete_Some; intros Hk Hs; [destruct Hk as [Hne Hk]|..]; pose proof (Hp k s Hk Hs) as Hin; simpl in Hin;
      apply elem_of_app in Hin as [Hin|[->|Hin]%elem_of_cons]; rewrite ?elem_of_app; tauto || congruence.
  - unfold broadcast_fanout in Hf. destruct (r !! (app, channel)) as [s1|] eqn:Hk1; simplify_eq; [|apply (Hp k s)].
    assert (is_empty (fanout ev ex s1).1 = is_empty s1) as He by (unfold fanout; by repeat case_match).
    destruct (fanout ev ex s1) as [s2 f2]. simplify_eq/=.
    rewrite lookup_insert_Some. intros [[<- <-]|[_ Hk]] Hs; [apply (Hp _ s1 Hk1); by rewrite <-He|by apply (Hp k s)].
  - destruct (roster_frame_entry app channel r) as [He|(s1 & Hk & He & Hs1)]; rewrite Hf in He; simpl in He; subst r'; [apply (Hp k s)|].
    rewrite lookup_insert_Some. intros [[<- <-]|[_ Hk']] Hs; [apply (Hp _ s1 Hk); by rewrite <-Hs1|by apply (Hp k s)].
Qed.

Lemma rreach_pruning tr w : rreach tr w → registry_refines (rw_reg w) ∧ pruning w.
Proof.
  induction 1 as [|tr w es w' _ [IH1 IH2] Hs]; [split; intros k s; simpl; by rewrite lookup_empty|].
  split; [by eapply rstep_refines|by eapply rstep_pruning].
Qed.

(** A report of [vacated] by a socket that was no member finds the entry empty. *)
Lemma again_pending tr w es w' k :
  rreach tr w → rstep w es w' → VacatedAgain k ∈ es → k ∈ rw_pending w.
Proof.
  intros Hw Hs Hin. destruct (rreach_pruning _ _ Hw) as [Hr Hp].
  destruct Hs as [app channel h m r p r' o Ho|k1 sid r p r' n pl ne Hu|k1 r p1 p2
         |app channel ev ex r p r' f Hf|app channel r p r' f Hf]; simpl in *.
  - destruct (so_occupied o); [by apply list_elem_of_singleton in Hin|by apply elem_of_nil in Hin].
  - destruct ne; [|by apply elem_of_nil in Hin]. apply list_elem_of_singleton in Hin. unfold vacated_edge in Hin.
    destruct (r !! k1) as [s|] eqn:Hk; [|unfold unsubscribe_remove in Hu; by rewrite Hk in Hu]. simpl in Hin.
    destruct (subscribers s !! sid) eqn:Hsid; [done|]. injection Hin as ->. apply (Hp k1 s Hk).
    unfold unsubscribe_remove, remove in Hu. rewrite Hk, Hsid in Hu. by injection Hu.
  - by apply elem_of_nil in Hin.
  - by apply elem_of_nil in Hin.
  - by apply elem_of_nil in Hin.
Qed.

Lemma rreach_refines tr w : rreach tr w → registry_refines (rw_reg w).
Proof.
  induction 1 as [|tr w es w' _ IH Hs]; [|by eapply rstep_refines].
  intros k s. simpl. by rewrite lookup_empty.
Qed.

Lemma rreach_edges tr w k :
  rreach tr w → edges_run k false tr = Some (has_subscribers (rw_reg w) k).
Proof.
  induction 1 as [|tr w es w' Hw IH Hs]; [done|].
  rewrite edges_run_app, IH. simpl. apply rstep_edges; [done|]. by eapply rreach_refines.
Qed.

Lemma no_empty_subscribe app channel h m r :
  registry_refines r → no_empty_entry r → no_empty_entry (subscribe app channel h m r).1.
Proof.
  intros Hr Hn. destruct (subscribe_spec app channel h m r Hr)
    as (l & _ & _ & s & -> & Hl & _). intros k s'.
  rewrite lookup_insert_Some. intros [[<- <-]|[_ Hk]]; [|by eapply Hn].
  rewrite (is_empty_refines _ _ _ Hl). by apply bool_decide_eq_false_2, roll_add_nonempty.
Qed.

Lemma no_empty_unsubscribe app channel sid r :
  registry_refines r → no_empty_entry r → no_empty_entry (unsubscribe app channel sid r).1.
Proof.
  intros Hr Hn. unfold unsubscribe. set (k := (app, channel)).
  destruct (r !! k) as [s|] eqn:Hk.
  2:{ unfold unsubscribe_remove. by rewrite Hk. }
  destruct (unsubscribe_remove_spec k sid r s Hr Hk) as (l & s' & pl & _ & _ & ->).
  unfold remove_if_empty. intros k' s2. simpl. destruct (is_empty s') eqn:He.
  - rewrite lookup_insert_eq, He, lookup_delete_Some, lookup_insert_Some.
    intros [? [[? ?]|[_ ?]]]; [done|]. by eapply Hn.
  - rewrite lookup_insert_Some. intros [[<- <-]|[_ ?]]; [done|]. by eapply Hn.
Qed.
End lemmas.

(** ** Delivery *)

(** The mailboxes of a channel's subscribers are pairwise distinct. *)
Definition distinct_mailboxes (s : ChannelState) : Prop :=
  NoDup ((λ p, inner_of (sub_handle p.2)) <$> map_to_list (subscribers s)).

(** The frame one broadcast shares. *)
Definition frame_of `{SerdeJson} (event : ServerEvent) : string :=
  match event with Raw f => f | other => wire_encode_first other end.

Section delivery.
Context `{SerdeJsonLaws}.

Lemma fanout_targets_elem channel l s ev ex h :
  refines channel l s →
  h ∈ fanout_targets (fanout ev ex s).2 ↔
  ∃ sid sub, subscribers s !! sid = Some sub ∧ Some sid ≠ ex ∧ h = sub_handle sub.
Proof.
  intros Hr. unfold fanout_targets. rewrite list_elem_of_fmap.
  pose proof (fanout_refines channel l s ev ex Hr) as [_ Hp].
  setoid_rewrite list_elem_of_filter. setoid_rewrite Hp.
  setoid_rewrite <-(map_to_list_refines channel l s Hr). split.
  - intros ([sid sub] & -> & Hex & Hin%elem_of_map_to_list). by exists sid, sub.
  - intros (sid & sub & Hs & Hex & ->). exists (sid, sub).
    by rewrite elem_of_map_to_list.
Qed.

Lemma fanout_targets_nodup channel l s ev ex :
  refines channel l s → distinct_mailboxes s →
  NoDup (inner_of <$> fanout_targets (fanout ev ex s).2).
Proof.
  intros Hr Hd. unfold fanout_targets. rewrite <-list_fmap_compose.
  pose proof (fanout_refines channel l s ev ex Hr) as [_ Hp].
  rewrite <-(map_to_list_refines channel l s Hr) in Hp.
  eapply sublist_NoDup; [|apply fmap_sublist, sublist_filter].
  by rewrite Hp.
Qed.

(** Whatever order the pool runs the sends in, they are the sends. *)
Lemma Fanout_sends_order f st st' :
  Fanout_sends f st st' →
  ∃ order, order ≡ₚ fanout_targets f ∧ st' = send_all order (Raw (fo_frame f)) st.
Proof.
  unfold Fanout_sends, Fanout_send. destruct (fo_parallel f); [done|]. intros ->. eauto.
Qed.

Lemma broadcast_room channel l s ev ex st st' sid sub :
  refines channel l s → distinct_mailboxes s →
  Fanout_sends (fanout ev ex s).2 st st' →
  subscribers s !! sid = Some sub → Some sid ≠ ex →
  has_room st (inner_of (sub_handle sub)) →
  queue_of st' (inner_of (sub_handle sub)) =
    queue_of st (inner_of (sub_handle sub)) ++ [Raw (frame_of ev)].
Proof.
  intros Hr Hd (order & Hp & ->)%Fanout_sends_order Hs Hex Hroom.
  apply send_all_room; [| |done].
  - rewrite Hp. by eapply fanout_targets_nodup.
  - rewrite Hp, fanout_targets_elem by done. by exists sid, sub.
Qed.

Lemma broadcast_other channel l s ev ex st st' i :
  refines channel l s → Fanout_sends (fanout ev ex s).2 st st' →
  (∀ sid sub, subscribers s !! sid = Some sub → Some sid ≠ ex →
              i ≠ inner_of (sub_handle sub)) →
  chans st' !! i = chans st !! i.
Proof.
  intros Hr (order & Hp & ->)%Fanout_sends_order Hi. apply send_all_other.
  rewrite Hp. intros (h & -> & Hin)%list_elem_of_fmap.
  apply (fanout_targets_elem channel l s ev ex h Hr) in Hin as (sid & sub & Hs & Hex & ->).
  by eapply Hi.
Qed.
End delivery.

(** ** Sequential histories *)

Inductive reg_op : Type :=
| RSubscribe (app channel : string) (h : ConnectionHandle) (m : option PresenceMember)
| RUnsubscribe (app channel : string) (sid : SocketId)
| RBroadcast (app channel : string) (ev : ServerEvent) (ex : option SocketId).

Definition reg_step `{SerdeJson} (r : Registry) (op : reg_op) : Registry :=
  match op with
  | RSubscribe app channel h m => (subscribe app channel h m r).1
  | RUnsubscribe app channel sid => (unsubscribe app channel sid r).1
  | RBroadcast app channel ev ex => (broadcast_fanout app channel ev ex r).1
  end.

Definition reg_run `{SerdeJson} : list reg_op → Registry := foldl reg_step ∅.

Section histories.
Context `{SerdeJsonLaws}.

Lemma unsubscribe_refines app channel sid r :
  registry_refines r → registry_refines (unsubscribe app channel sid r).1.
Proof.
  intros Hr. unfold unsubscribe. destruct (r !! (app, channel)) as [s|] eqn:Hk.
  - destruct (unsubscribe_remove_spec _ sid r s Hr Hk) as (l & s' & pl & _ & Hl & ->).
    simpl. assert (registry_refines (<[(app, channel) := s']> r))
      by by eapply registry_refines_insert.
    destruct (is_empty s'); [by apply remove_if_empty_refines|done].
  - unfold unsubscribe_remove. by rewrite Hk.
Qed.

Lemma no_empty_broadcast app channel ev ex r :
  no_empty_entry r → no_empty_entry (broadcast_fanout app channel ev ex r).1.
Proof.
  intros Hn. unfold broadcast_fanout. destruct (r !! (app, channel)) as [s|] eqn:Hk; [|done].
  intros k s'. simpl. rewrite lookup_insert_Some. intros [[<- <-]|[_ ?]]; [|by eapply Hn].
  apply (Hn _ _ Hk).
Qed.

Lemma reg_step_inv r op :
  registry_refines r ∧ no_empty_entry r →
  registry_refines (reg_step r op) ∧ no_empty_entry (reg_step r op).
Proof.
  intros [Hr Hn]. destruct op as [app channel h m|app channel sid|app channel ev ex]; simpl.
  - split; [|by apply no_empty_subscribe].
    destruct (subscribe_spec app channel h m r Hr) as (l & _ & _ & s & -> & Hl & _).
    by eapply registry_refines_insert.
  - split; [by apply unsubscribe_refines|by apply no_empty_unsubscribe].
  - split; [by apply broadcast_fanout_refines|by apply no_empty_broadcast].
Qed.

Lemma reg_run_inv ops : registry_refines (reg_run ops) ∧ no_empty_entry (reg_run ops).
Proof.
  assert (registry_refines ∅ ∧ no_empty_entry ∅) as Hinit.
  { split; intros k s; by rewrite lookup_empty. }
  unfold reg_run. revert Hinit. generalize (∅ : Registry).
  induction ops as [|op ops IH]; intros r Hr; simpl; [done|].
  by apply IH, reg_step_inv.
Qed.

(** The listing against the per-channel summary. *)
Lemma elem_of_channels app prefix r sm :
  no_empty_entry r →
  sm ∈ channels app prefix r ↔
  sm = channel_summary app (cs_name sm) r ∧ cs_occupied sm = true ∧
  match prefix with None => True | Some p => Str.starts_with p (cs_name sm) = true end.
Proof.
  intros Hn. unfold channels. rewrite list_elem_of_fmap.
  setoid_rewrite list_elem_of_filter. setoid_rewrite list_elem_of_filter. split.
  - intros ([[app' name] s] & -> & Hp & [Happ He] & Hin%elem_of_map_to_list). simpl in *.
    subst app'. unfold channel_summary. rewrite Hin, He. by destruct prefix.
  - unfold channel_summary. destruct (r !! (app, cs_name sm)) as [s|] eqn:Hk.
    + pose proof (Hn _ _ Hk) as He. rewrite He. intros (Heq & _ & Hp).
      exists ((app, cs_name sm), s). simpl. rewrite elem_of_map_to_list.
      by destruct prefix.
    + intros (Heq & Ho & _). rewrite Heq in Ho. done.
Qed.
End histories.

(** ** Properties *)

Section claims.
Context `{SerdeJsonLaws}.

(** C34. Under any interleaving of concurrent subscribes, unsubscribes of any
    socket, deferred prunes, broadcasts and rosters, the [occupied] and [vacated] edges
    that subscribers report for one channel strictly alternate starting with
    [occupied], and the last one tells whether the channel now has a subscriber;
    so every occupancy change is reported once. An unsubscribe of a socket that
    is no member reports [vacated] only while another unsubscribe that emptied
    the channel has not pruned it yet. *)
Theorem occupancy_edges_alternate (tr : list edge) (w : RWorld) (k : key) :
  rreach tr w →
  edges_run k false tr = Some (has_subscribers (rw_reg w) k) ∧
  (∀ es w', rstep w es w' → VacatedAgain k ∈ es → k ∈ rw_pending w).
Proof. intros Hw. split; [by apply rreach_edges|]. intros es w'. by eapply again_pending. Qed.

(** A broadcast appends exactly one copy of the shared frame to the
    mailbox of every subscriber other than the excluded socket that has
    room, whatever order the parallel fan-out runs in, and changes no other
    mailbox. *)
Theorem broadcast_exactly_once (ops : list reg_op) (app channel : string)
    (ev : ServerEvent) (ex : option SocketId) (s : ChannelState) (st st' : Store) :
  reg_run ops !! (app, channel) = Some s →
  distinct_mailboxes s →
  (∃ r' f, broadcast_fanout app channel ev ex (reg_run ops) = (r', Some f) ∧
           Fanout_sends f st st') →
  (∀ sid sub, subscribers s !! sid = Some sub → Some sid ≠ ex →
     has_room st (inner_of (sub_handle sub)) →
     queue_of st' (inner_of (sub_handle sub)) =
       queue_of st (inner_of (sub_handle sub)) ++ [Raw (frame_of ev)]) ∧
  (∀ i, (∀ sid sub, subscribers s !! sid = Some sub → Some sid ≠ ex →
                    i ≠ inner_of (sub_handle sub)) →
        chans st' !! i = chans st !! i).
Proof.
  intros Hk Hd (r' & f & Hb & Hsend).
  destruct (proj1 (reg_run_inv ops) _ _ Hk) as [l Hl]. simpl in Hl.
  unfold broadcast_fanout in Hb. rewrite Hk in Hb. simplify_eq/=. split.
  - intros sid sub Hs Hex Hroom. 
    by apply (broadcast_room channel l s ev ex st st' sid).
  - intros i Hi. by apply (broadcast_other channel l s ev ex st).
Qed.

(** After any sequence of calls no empty channel entry is kept, and the
    channel listing of an app is exactly the summaries of its occupied
    channels with the prefix. *)
Theorem channels_lists_occupied (ops : list reg_op) (app : string)
    (prefix : option string) (sm : ChannelSummary) :
  no_empty_entry (reg_run ops) ∧
  (sm ∈ channels app prefix (reg_run ops) ↔
   sm = channel_summary app (cs_name sm) (reg_run ops) ∧ cs_occupied sm = true ∧
   match prefix with None => True | Some p => Str.starts_with p (cs_name sm) = true end).
Proof.
  pose proof (reg_run_inv ops) as [_ Hn]. split; [done|]. by apply elem_of_channels.
Qed.
End claims.

(** ** Concrete inputs *)

Module RegistryDemo.
Import ChannelDemo.
#[local] Existing Instance JsonDemo.demo.

Definition ops : list reg_op :=
  [RSubscribe "app" "room" (handle "1.1" 0) None;
   RSubscribe "app" "room" (handle "1.2" 1) None;
   RSubscribe "app" "side" (handle "1.2" 1) None;
   RUnsubscribe "app" "side" (SocketId.from_raw "1.2")].

Definition store : Store :=
  mkStore {[0 := mkChan [] 4 false; 1 := mkChan [Ping] 4 false]} ∅ ∅ ∅.

(** The last subscriber leaves; before the prune runs, a stranger is
    unsubscribed and a new subscriber arrives. *)
Definition reg1 := (subscribe "app" "room" (handle "1.1" 0) None ∅).1.
Definition room1 : ChannelState :=
  default ChannelState_default (reg1 !! ("app", "room")).
Definition reg2 := (unsubscribe_remove ("app", "room") (SocketId.from_raw "1.1") reg1).1.
Definition stranger := (unsubscribe_remove ("app", "room") (SocketId.from_raw "9.9") reg2).1.
Definition reg3 := (subscribe "app" "room" (handle "1.2" 1) None stranger).1.
Definition reg4 := remove_if_empty ("app", "room") reg3.

Definition room : ChannelState :=
  default ChannelState_default (reg_run ops !! ("app", "room")).
Definition except : option SocketId := Some (SocketId.from_raw "1.1").
Definition fan : Fanout := (fanout Ping except room).2.
Definition after : Registry := (broadcast_fanout "app" "room" Ping except (reg_run ops)).1.
End RegistryDemo.

#[local] Existing Instance JsonDemo.demo.
#[local] Existing Instance JsonDemo.demo_laws.

Lemma rreach_step_eq tr w es w' tr' :
  rreach tr w → rstep w es w' → tr ++ es = tr' → rreach tr' w'.
Proof. intros Hw Hs <-. by eapply rreach_step. Qed.

Lemma rreach_demo :
  let k := ("app", "room") in
  rreach [Occupied k; Vacated k; VacatedAgain k; Occupied k] (mkRWorld RegistryDemo.reg4 [k]).
Proof.
  intros k.
  assert (rreach [Occupied k] (mkRWorld RegistryDemo.reg1 [])) as H1.
  { eapply rreach_step_eq; [apply rreach_init| |].
    - apply (RS_subscribe "app" "room" (ChannelDemo.handle "1.1" 0) None ∅ [] RegistryDemo.reg1),
        surjective_pairing.
    - by_eval. }
  assert (rreach [Occupied k; Vacated k] (mkRWorld RegistryDemo.reg2 [k])) as H2.
  { eapply rreach_step_eq; [exact H1| |].
    - apply (RS_unsubscribe k (SocketId.from_raw "1.1") RegistryDemo.reg1 [] RegistryDemo.reg2 0 None true).
      by_eval.
    - by_eval. }
  assert (rreach [Occupied k; Vacated k; VacatedAgain k] (mkRWorld RegistryDemo.stranger [k; k])) as H3.
  { eapply rreach_step_eq; [exact H2| |].
    - apply (RS_unsubscribe k (SocketId.from_raw "9.9") RegistryDemo.reg2 [k] RegistryDemo.stranger 0 None true).
      by_eval.
    - by_eval. }
  assert (rreach [Occupied k; Vacated k; VacatedAgain k; Occupied k] (mkRWorld RegistryDemo.reg3 [k; k])) as H4.
  { eapply rreach_step_eq; [exact H3| |].
    - apply (RS_subscribe "app" "room" (ChannelDemo.handle "1.2" 1) None RegistryDemo.stranger [k; k]
        RegistryDemo.reg3), surjective_pairing.
    - by_eval. }
  eapply rreach_step_eq; [exact H4|apply (RS_prune k RegistryDemo.reg3 [] [k])|reflexivity].
Qed.

Lemma occupancy_edges_alternate_witness :
  let k := ("app", "room") in
  edges_run k false [Occupied k; Vacated k; VacatedAgain k; Occupied k] = Some true ∧
  edges_run k false [Occupied k; Vacated k; VacatedAgain k; Occupied k] =
    Some (has_subscribers RegistryDemo.reg4 k).
Proof.
  intros k. split; [by_eval|].
  apply (occupancy_edges_alternate _ (mkRWorld RegistryDemo.reg4 [k]) k rreach_demo).
Defined.

Lemma broadcast_exactly_once_witness :
  let st' := (broadcast "app" "room" Ping RegistryDemo.except
                (reg_run RegistryDemo.ops) RegistryDemo.store).2 in
  queue_of st' 1 = [Ping; Raw (frame_of Ping)] ∧ chans st' !! 0 = Some (mkChan [] 4 false).
Proof.
  intros st'.
  destruct (broadcast_exactly_once RegistryDemo.ops "app" "room" Ping
    RegistryDemo.except RegistryDemo.room RegistryDemo.store st') as [Hr Ho].
  - by_eval.
  - unfold distinct_mailboxes. apply (bool_decide_unpack _). vm_compute. exact I.
  - exists RegistryDemo.after, RegistryDemo.fan. split; [by_eval|].
    unfold Fanout_sends. replace (fo_parallel RegistryDemo.fan) with false by by_eval. by_eval.
  - split.
    + apply (Hr (SocketId.from_raw "1.2") (mkSubscriber (ChannelDemo.handle "1.2" 1) None)).
      * by_eval.
      * apply (bool_decide_unpack _). vm_compute. exact I.
      * exists (mkChan [Ping] 4 false). split_and!; [by_eval..|simpl; lia].
    + rewrite Ho; [by_eval|].
      intros sid sub Hs Hne Hi. apply Hne.
      apply elem_of_map_to_list in Hs. vm_compute in Hs.
      repeat (apply elem_of_cons in Hs as [Hs|Hs]; [simplify_eq; vm_compute in Hi; done|]).
      by apply elem_of_nil in Hs.
Defined.

Lemma channels_lists_occupied_witness :
  no_empty_entry (reg_run RegistryDemo.ops) ∧
  mkChannelSummary "room" true 2 None ∈
    channels "app" (Some "ro") (reg_run RegistryDemo.ops).
Proof.
  destruct (channels_lists_occupied RegistryDemo.ops "app" (Some "ro")
    (mkChannelSummary "room" true 2 None)) as [Hn Hiff].
  split; [exact Hn|]. apply Hiff. split_and!; by_eval.
Defined.
