(* ===== verification/UserRegistry.v ===== *)
(** * Users, watchers and app connections

    [src/src/user/registry.rs] (signed-in connections per user, watchlists) and
    [src/src/adapter/app_registry.rs] (live connections per app). *)

From S2P Require Import Prelude RustStd Json Protocol Kind Mailbox.

Abbreviation sockets := (gmap SocketId ConnectionHandle).

(** ** [user/registry.rs] *)

Record UserJoinOutcome : Type := mkUserJoinOutcome { uj_first_for_user : bool }.
Record UserLeaveOutcome : Type := mkUserLeaveOutcome { ul_last_for_user : bool }.

Record UserRegistry : Type := mkUserRegistry {
  ur_users : gmap (string * string) sockets;
  ur_watchers : gmap (string * string) sockets;
  ur_watching : gmap (string * SocketId) (list string)
}.

Definition UserRegistry_new : UserRegistry := mkUserRegistry ∅ ∅ ∅.

(** [entry.or_default()] then [insert]. *)
Definition sockets_insert (k : string * string) (h : ConnectionHandle)
    (m : gmap (string * string) sockets) : gmap (string * string) sockets :=
  <[k := <[ch_socket_id h := h]> (default ∅ (m !! k))]> m.

(** [get_mut], [remove], then [remove_if(is_empty)]: the map afterwards, and
    whether the entry was there and is now gone. *)
Definition sockets_remove (k : string * string) (sid : SocketId)
    (m : gmap (string * string) sockets) : gmap (string * string) sockets * bool :=
  match m !! k with
  | None => (m, false)
  | Some set =>
      let set := delete sid set in
      if decide (set = ∅) then (delete k m, true) else (<[k := set]> m, false)
  end.

Definition signin (app user_id : string) (handle : ConnectionHandle) (r : UserRegistry)
    : UserRegistry * UserJoinOutcome :=
  let k := (app, user_id) in
  let first := bool_decide (default ∅ (ur_users r !! k) = ∅) in
  (mkUserRegistry (sockets_insert k handle (ur_users r)) (ur_watchers r) (ur_watching r),
   mkUserJoinOutcome first).

Definition signout (app user_id : string) (socket_id : SocketId) (r : UserRegistry)
    : UserRegistry * UserLeaveOutcome :=
  let '(users, last) := sockets_remove (app, user_id) socket_id (ur_users r) in
  (mkUserRegistry users (ur_watchers r) (ur_watching r), mkUserLeaveOutcome last).

Definition handles (app user_id : string) (r : UserRegistry) : list ConnectionHandle :=
  (map_to_list (default ∅ (ur_users r !! (app, user_id)))).*2.

Definition is_online (app user_id : string) (r : UserRegistry) : bool :=
  match ur_users r !! (app, user_id) with
  | Some e => bool_decide (e ≠ ∅)
  | None => false
  end.

(** The loop of [unwatch] over the watched users. *)
Fixpoint unwatch_loop (app : string) (sid : SocketId) (watched : list string)
    (m : gmap (string * string) sockets) : gmap (string * string) sockets * list string :=
  match watched with
  | [] => (m, [])
  | w :: watched =>
      let '(m, gone) := sockets_remove (app, w) sid m in
      let '(m, now_empty) := unwatch_loop app sid watched m in
      (m, if (gone : bool) then w :: now_empty else now_empty)
  end.

Definition unwatch (app : string) (socket_id : SocketId) (r : UserRegistry)
    : UserRegistry * list string :=
  match ur_watching r !! (app, socket_id) with
  | None => (r, [])
  | Some watched =>
      let '(watchers, now_empty) := unwatch_loop app socket_id watched (ur_watchers r) in
      (mkUserRegistry (ur_users r) watchers (delete (app, socket_id) (ur_watching r)), now_empty)
  end.

(** The loop of [watch]: the map afterwards and the users whose watcher set
    went from empty to one. *)
Fixpoint watch_loop (app : string) (h : ConnectionHandle) (watched : list string)
    (m : gmap (string * string) sockets) : gmap (string * string) sockets * list string :=
  match watched with
  | [] => (m, [])
  | w :: watched =>
      let first := bool_decide (default ∅ (m !! (app, w)) = ∅) in
      let '(m, newly) := watch_loop app h watched (sockets_insert (app, w) h m) in
      (m, if first then w :: newly else newly)
  end.

Definition watch (app : string) (handle : ConnectionHandle) (watched : list string)
    (r : UserRegistry) : UserRegistry * (list string * list string) :=
  let sock := ch_socket_id handle in
  let '(r, _) := unwatch app sock r in
  let '(watchers, newly_watched) := watch_loop app handle watched (ur_watchers r) in
  let r := mkUserRegistry (ur_users r) watchers (ur_watching r) in
  let online := filter (λ w, is_online app w r = true) watched in
  (mkUserRegistry (ur_users r) (ur_watchers r) (<[(app, sock) := watched]> (ur_watching r)),
   (online, newly_watched)).

Definition watchers_of (app user_id : string) (r : UserRegistry) : list ConnectionHandle :=
  (map_to_list (default ∅ (ur_watchers r !! (app, user_id)))).*2.

Definition local_bindings (r : UserRegistry) : list ((string * string) * list SocketId) :=
  (λ e, (e.1, (map_to_list e.2).*1)) <$> filter (λ e, e.2 ≠ ∅) (map_to_list (ur_users r)).

(** ** [adapter/app_registry.rs] *)

Definition AppRegistry : Type := gmap string sockets.

Definition app_insert (app_id : string) (h : ConnectionHandle) (r : AppRegistry) : AppRegistry :=
  <[app_id := <[ch_socket_id h := h]> (default ∅ (r !! app_id))]> r.

Definition app_remove (app_id : string) (sid : SocketId) (r : AppRegistry) : AppRegistry :=
  match r !! app_id with
  | None => r
  | Some set =>
      let set := delete sid set in
      if decide (set = ∅) then delete app_id r else <[app_id := set]> r
  end.

Definition drain_app (app_id : string) (r : AppRegistry) : AppRegistry * list ConnectionHandle :=
  (delete app_id r, (map_to_list (default ∅ (r !! app_id))).*2).

Definition connected_app_ids (r : AppRegistry) : list string := (map_to_list r).*1.

(** ** Socket sets keyed by name *)

Definition bound (m : gmap (string * string) sockets) (k : string * string) (sid : SocketId)
    : option ConnectionHandle := default ∅ (m !! k) !! sid.

Definition no_empty (m : gmap (string * string) sockets) : Prop :=
  ∀ k set, m !! k = Some set → set ≠ ∅.

Definition occupied (m : gmap (string * string) sockets) (k : string * string) : Prop :=
  default ∅ (m !! k) ≠ ∅.

#[export] Instance occupied_dec m k : Decision (occupied m k).
Proof. unfold occupied. apply _. Defined.

Lemma occupied_Some m k : no_empty m → occupied m k ↔ is_Some (m !! k).
Proof.
  intros Hn. unfold occupied. destruct (m !! k) as [s|] eqn:Hk; simpl.
  - split; [eauto|]. intros _. by eapply Hn.
  - split; [done|]. by intros [].
Qed.

Lemma bound_insert m k h k' sid :
  bound (sockets_insert k h m) k' sid =
  if decide (k' = k ∧ sid = ch_socket_id h) then Some h else bound m k' sid.
Proof.
  unfold bound, sockets_insert. destruct (decide (k' = k)) as [->|Hk].
  - rewrite lookup_insert_eq. simpl. destruct (decide (sid = ch_socket_id h)) as [->|Hs].
    + rewrite lookup_insert_eq, decide_True; done.
    + rewrite lookup_insert_ne, decide_False by naive_solver. done.
  - rewrite lookup_insert_ne, decide_False by naive_solver. done.
Qed.

Lemma no_empty_insert m k h : no_empty m → no_empty (sockets_insert k h m).
Proof.
  intros Hn k' set. unfold sockets_insert. rewrite lookup_insert_Some.
  intros [[_ <-]|[_ ?]]; [apply insert_non_empty|by eapply Hn].
Qed.

Lemma occupied_insert m k h k' :
  occupied (sockets_insert k h m) k' ↔ k' = k ∨ occupied m k'.
Proof.
  unfold occupied, sockets_insert. destruct (decide (k' = k)) as [->|Hk].
  - rewrite lookup_insert_eq. simpl. split; [by left|]. intros _. apply insert_non_empty.
  - rewrite lookup_insert_ne by done. naive_solver.
Qed.

Lemma bound_remove m k sid k' sid' :
  bound (sockets_remove k sid m).1 k' sid' =
  if decide (k' = k ∧ sid' = sid) then None else bound m k' sid'.
Proof.
  unfold bound, sockets_remove. destruct (m !! k) as [set|] eqn:Hk.
  - destruct (decide (delete sid set = ∅)) as [He|He]; simpl.
    + destruct (decide (k' = k)) as [->|Hne].
      * rewrite lookup_delete_eq, Hk. simpl. rewrite lookup_empty.
        case_decide; [done|]. rewrite <-(lookup_delete_ne set sid sid') by naive_solver.
        by rewrite He, lookup_empty.
      * rewrite lookup_delete_ne, decide_False by naive_solver. done.
    + destruct (decide (k' = k)) as [->|Hne].
      * rewrite lookup_insert_eq, Hk. simpl. rewrite lookup_delete.
        repeat case_decide; naive_solver.
      * rewrite lookup_insert_ne, decide_False by naive_solver. done.
  - simpl. case_decide as Hd; [|done]. destruct Hd as [-> _]. by rewrite Hk.
Qed.

Lemma occupied_bound m k : occupied m k ↔ ∃ sid, is_Some (bound m k sid).
Proof.
  unfold occupied, bound. split.
  - intros (sid & h & Hs)%map_choose. exists sid. by rewrite Hs.
  - intros (sid & h & Hs) He. rewrite He, lookup_empty in Hs. done.
Qed.

Lemma no_empty_remove m k sid : no_empty m → no_empty (sockets_remove k sid m).1.
Proof.
  intros Hn. unfold sockets_remove. destruct (m !! k) as [set|]; [|done].
  destruct (decide _) as [|Hne]; intros k' set'; simpl.
  - rewrite lookup_delete_Some. intros [_ ?]. by eapply Hn.
  - rewrite lookup_insert_Some. intros [[_ <-]|[_ ?]]; [done|by eapply Hn].
Qed.

(** The flag is the occupied-to-empty edge. *)
Lemma sockets_remove_edge m k sid :
  no_empty m →
  (sockets_remove k sid m).2 = bool_decide (occupied m k ∧ ¬ occupied (sockets_remove k sid m).1 k).
Proof.
  intros Hn. unfold sockets_remove. destruct (m !! k) as [set|] eqn:Hk.
  - destruct (decide (delete sid set = ∅)) as [He|He]; simpl; symmetry.
    + apply bool_decide_eq_true_2. unfold occupied. rewrite Hk, lookup_delete_eq. simpl.
      split; [by eapply Hn|]. tauto.
    + apply bool_decide_eq_false_2. unfold occupied. rewrite lookup_insert_eq. simpl. tauto.
  - simpl. symmetry. apply bool_decide_eq_false_2. tauto.
Qed.

(** ** The loops *)

Ltac solve_decides :=
  repeat case_decide;
  repeat match goal with H : context [_ ∈ _ :: _] |- _ => rewrite elem_of_cons in H end;
  naive_solver.

Lemma bound_unwatch_loop app sid watched m k' sid' :
  bound (unwatch_loop app sid watched m).1 k' sid' =
  if decide (k'.1 = app ∧ k'.2 ∈ watched ∧ sid' = sid) then None else bound m k' sid'.
Proof.
  revert m. induction watched as [|w watched IH]; intros m; simpl.
  - rewrite decide_False; [done|]. rewrite elem_of_nil. tauto.
  - destruct (sockets_remove (app, w) sid m) as [m1 gone] eqn:Hr.
    specialize (IH m1). destruct (unwatch_loop app sid watched m1) as [m2 ne]. simpl in *.
    pose proof (bound_remove m (app, w) sid k' sid') as Hb. rewrite Hr in Hb. simpl in Hb.
    rewrite IH, Hb. destruct k' as [a u]; simpl. solve_decides.
Qed.

Lemma no_empty_unwatch_loop app sid watched m :
  no_empty m → no_empty (unwatch_loop app sid watched m).1.
Proof.
  revert m. induction watched as [|w watched IH]; intros m Hn; simpl; [done|].
  pose proof (no_empty_remove m (app, w) sid Hn) as H1.
  destruct (sockets_remove (app, w) sid m) as [m1 gone].
  specialize (IH m1 H1). by destruct (unwatch_loop app sid watched m1).
Qed.

Lemma elem_of_unwatch_loop app sid watched m w :
  no_empty m →
  w ∈ (unwatch_loop app sid watched m).2 ↔
  w ∈ watched ∧ occupied m (app, w) ∧ ¬ occupied (unwatch_loop app sid watched m).1 (app, w).
Proof.
  revert m. induction watched as [|w0 watched IH]; intros m Hn; simpl.
  { rewrite elem_of_nil. naive_solver. }
  pose proof (no_empty_remove m (app, w0) sid Hn) as Hn1.
  pose proof (sockets_remove_edge m (app, w0) sid Hn) as Hedge.
  pose proof (bound_remove m (app, w0) sid) as Hb.
  destruct (sockets_remove (app, w0) sid m) as [m1 gone]. simpl in *.
  specialize (IH m1 Hn1). pose proof (bound_unwatch_loop app sid watched m1) as Hb2.
  destruct (unwatch_loop app sid watched m1) as [m2 ne]. simpl in *.
  assert (∀ k, occupied m1 k → occupied m k) as Hmono1.
  { intros k (s & Hs)%occupied_bound. apply occupied_bound. exists s.
    rewrite Hb in Hs. case_decide; [by apply is_Some_None in Hs|done]. }
  assert (∀ k, occupied m2 k → occupied m1 k) as Hmono2.
  { intros k (s & Hs)%occupied_bound. apply occupied_bound. exists s.
    rewrite Hb2 in Hs. case_decide; [by apply is_Some_None in Hs|done]. }
  assert (w ∉ watched → occupied m1 (app, w) → occupied m2 (app, w)) as Hkeep.
  { intros Hni (s & Hs)%occupied_bound. apply occupied_bound. exists s.
    rewrite Hb2, decide_False; [done|]. simpl. tauto. }
  assert (w ≠ w0 → occupied m (app, w) → occupied m1 (app, w)) as Hother.
  { intros Hne (s & Hs)%occupied_bound. apply occupied_bound. exists s.
    rewrite Hb, decide_False; [done|]. intros [[= ->] _]. done. }
  assert (w ∈ (if gone then w0 :: ne else ne) ↔ (gone = true ∧ w = w0) ∨ w ∈ ne) as ->.
  { destruct gone; [rewrite elem_of_cons|]; naive_solver. }
  rewrite Hedge, bool_decide_eq_true, IH, elem_of_cons.
  destruct (decide (w ∈ watched)), (decide (occupied m1 (app, w))), (decide (w = w0));
    subst; naive_solver.
Qed.

Lemma bound_watch_loop app h watched m k' sid' :
  bound (watch_loop app h watched m).1 k' sid' =
  if decide (k'.1 = app ∧ k'.2 ∈ watched ∧ sid' = ch_socket_id h) then Some h
  else bound m k' sid'.
Proof.
  revert m. induction watched as [|w watched IH]; intros m; simpl.
  - rewrite decide_False; [done|]. rewrite elem_of_nil. tauto.
  - specialize (IH (sockets_insert (app, w) h m)).
    destruct (watch_loop app h watched _) as [m2 ne]. simpl in *.
    rewrite IH, bound_insert. destruct k' as [a u]; simpl. solve_decides.
Qed.

Lemma no_empty_watch_loop app h watched m :
  no_empty m → no_empty (watch_loop app h watched m).1.
Proof.
  revert m. induction watched as [|w watched IH]; intros m Hn; simpl; [done|].
  specialize (IH _ (no_empty_insert m (app, w) h Hn)).
  by destruct (watch_loop app h watched _).
Qed.

Lemma elem_of_watch_loop app h watched m w :
  w ∈ (watch_loop app h watched m).2 ↔ w ∈ watched ∧ ¬ occupied m (app, w).
Proof.
  revert m. induction watched as [|w0 watched IH]; intros m; simpl.
  { rewrite elem_of_nil. naive_solver. }
  specialize (IH (sockets_insert (app, w0) h m)). rewrite occupied_insert in IH.
  destruct (watch_loop app h watched _) as [m2 ne]. simpl in *.
  assert (w ∈ (if bool_decide (default ∅ (m !! (app, w0)) = ∅) then w0 :: ne else ne)
          ↔ (¬ occupied m (app, w0) ∧ w = w0) ∨ w ∈ ne) as ->.
  { unfold occupied. case_bool_decide; [rewrite elem_of_cons|]; tauto. }
  rewrite IH, elem_of_cons. destruct (decide (w = w0)) as [->|Hne]; [tauto|].
  split; [|naive_solver]. intros [[_ ?]|[? Hno]]; [done|]. tauto.
Qed.

(** ** Invariant *)

(** No empty set is kept, and the two watch indexes are inverse. *)
Record ureg_ok (r : UserRegistry) : Prop := {
  uo_users : no_empty (ur_users r);
  uo_watchers : no_empty (ur_watchers r);
  uo_inverse app w sid :
    is_Some (bound (ur_watchers r) (app, w) sid) ↔
    w ∈ default [] (ur_watching r !! (app, sid))
}.

Lemma is_online_occupied app uid r :
  is_online app uid r = bool_decide (occupied (ur_users r) (app, uid)).
Proof.
  unfold is_online. destruct (ur_users r !! (app, uid)) as [e|] eqn:He; symmetry.
  - apply bool_decide_ext. unfold occupied. by rewrite He.
  - apply bool_decide_eq_false_2. unfold occupied. rewrite He. simpl. tauto.
Qed.

Lemma unwatch_spec app sid r :
  ureg_ok r →
  let r' := (unwatch app sid r).1 in
  ureg_ok r' ∧ ur_users r' = ur_users r ∧ ur_watching r' = delete (app, sid) (ur_watching r) ∧
  (∀ w, w ∈ (unwatch app sid r).2 ↔
     occupied (ur_watchers r) (app, w) ∧ ¬ occupied (ur_watchers r') (app, w)).
Proof.
  intros [Hu Hw Hinv]. unfold unwatch.
  destruct (ur_watching r !! (app, sid)) as [watched|] eqn:Hl; simpl.
  2:{ rewrite delete_id by done. split_and!; try done. intros w.
      rewrite elem_of_nil. naive_solver. }
  pose proof (bound_unwatch_loop app sid watched (ur_watchers r)) as Hb.
  pose proof (no_empty_unwatch_loop app sid watched _ Hw) as Hn.
  pose proof (λ w, elem_of_unwatch_loop app sid watched _ w Hw) as He.
  destruct (unwatch_loop app sid watched (ur_watchers r)) as [m ne]. simpl in *.
  split_and!; try done.
  - split; simpl; [done..|]. intros app' w sid'. rewrite Hb. simpl.
    specialize (Hinv app' w sid').
    destruct (decide ((app, sid) = (app', sid'))) as [[= <- <-]|Hne].
    + rewrite lookup_delete_eq. simpl. rewrite elem_of_nil. rewrite Hl in Hinv. simpl in Hinv.
      case_decide; [split; [by intros []|done]|]. rewrite Hinv. tauto.
    + rewrite lookup_delete_ne by done. rewrite decide_False by naive_solver. done.
  - intros w. rewrite He. split; [tauto|]. intros [Ho Hno]. split; [|done].
    apply occupied_bound in Ho as (s & Hs). apply dec_stable. intros Hni. apply Hno.
    apply occupied_bound. exists s. rewrite Hb, decide_False; [done|]. simpl. tauto.
Qed.

Lemma watch_spec app h watched r :
  ureg_ok r →
  let r' := (watch app h watched r).1 in
  let r0 := (unwatch app (ch_socket_id h) r).1 in
  ureg_ok r' ∧ ur_users r' = ur_users r ∧
  ur_watching r' !! (app, ch_socket_id h) = Some watched ∧
  (∀ w, w ∈ (watch app h watched r).2.1 ↔ w ∈ watched ∧ is_online app w r = true) ∧
  (∀ w, w ∈ (watch app h watched r).2.2 ↔
     ¬ occupied (ur_watchers r0) (app, w) ∧ occupied (ur_watchers r') (app, w)).
Proof.
  intros Hr. destruct (unwatch_spec app (ch_socket_id h) r Hr) as (Hr0 & Hu0 & Hw0 & _).
  unfold watch. destruct (unwatch app (ch_socket_id h) r) as [r0 dropped]. simpl in *.
  destruct Hr0 as [Hu Hw Hinv].
  pose proof (bound_watch_loop app h watched (ur_watchers r0)) as Hb.
  pose proof (no_empty_watch_loop app h watched _ Hw) as Hn.
  pose proof (elem_of_watch_loop app h watched (ur_watchers r0)) as He.
  destruct (watch_loop app h watched (ur_watchers r0)) as [m newly]. simpl in *.
  split_and!; try done.
  - split; simpl; [done..|]. intros app' w sid'. rewrite Hb. simpl. specialize (Hinv app' w sid').
    destruct (decide ((app, ch_socket_id h) = (app', sid'))) as [[= <- <-]|Hne].
    + rewrite lookup_insert_eq. simpl. rewrite Hw0, lookup_delete_eq in Hinv. simpl in Hinv.
      rewrite elem_of_nil in Hinv. case_decide; [naive_solver|]. rewrite Hinv. tauto.
    + rewrite lookup_insert_ne by done. rewrite decide_False by naive_solver. done.
  - apply lookup_insert_eq.
  - intros w. rewrite list_elem_of_filter, !is_online_occupied. simpl. rewrite Hu0. tauto.
  - intros w. rewrite He. split.
    + intros [Hin Hno]. split; [done|]. apply occupied_bound. exists (ch_socket_id h).
      rewrite Hb, decide_True by done. eauto.
    + intros [Hno (s & Hs)%occupied_bound]. split; [|done]. rewrite Hb in Hs.
      case_decide; [naive_solver|]. exfalso. apply Hno, occupied_bound. eauto.
Qed.

Lemma signin_spec app uid h r :
  ureg_ok r →
  let r' := (signin app uid h r).1 in
  ureg_ok r' ∧ bound (ur_users r') (app, uid) (ch_socket_id h) = Some h ∧
  (∀ app' uid', is_online app' uid' r' =
     bool_decide ((app', uid') = (app, uid)) || is_online app' uid' r) ∧
  uj_first_for_user (signin app uid h r).2 = negb (is_online app uid r).
Proof.
  intros [Hu Hw Hinv]. simpl. split_and!.
  - split; simpl; [by apply no_empty_insert|done..].
  - rewrite bound_insert, decide_True by done. done.
  - intros app' uid'. rewrite !is_online_occupied. simpl.
    rewrite <-bool_decide_or. apply bool_decide_ext, occupied_insert.
  - rewrite is_online_occupied. unfold occupied. by repeat case_bool_decide.
Qed.

Lemma signout_spec app uid sid r :
  ureg_ok r →
  let r' := (signout app uid sid r).1 in
  ureg_ok r' ∧ bound (ur_users r') (app, uid) sid = None ∧
  (∀ app' uid', (app', uid') ≠ (app, uid) → is_online app' uid' r' = is_online app' uid' r) ∧
  ul_last_for_user (signout app uid sid r).2 =
    is_online app uid r && negb (is_online app uid r').
Proof.
  intros [Hu Hw Hinv]. unfold signout.
  pose proof (no_empty_remove _ (app, uid) sid Hu) as Hn.
  pose proof (bound_remove (ur_users r) (app, uid) sid) as Hb.
  pose proof (sockets_remove_edge _ (app, uid) sid Hu) as Hedge.
  destruct (sockets_remove (app, uid) sid (ur_users r)) as [m last]. simpl in *.
  split_and!.
  - by split.
  - rewrite Hb, decide_True; done.
  - intros app' uid' Hne. rewrite !is_online_occupied. simpl. apply bool_decide_ext.
    rewrite !occupied_bound. setoid_rewrite Hb.
    split; intros (s & Hs); exists s; rewrite decide_False in *; naive_solver.
  - rewrite Hedge, !is_online_occupied. simpl. rewrite bool_decide_and. by rewrite bool_decide_not.
Qed.

(** ** Histories *)

Inductive user_op : Type :=
| USignin (app user_id : string) (h : ConnectionHandle)
| USignout (app user_id : string) (sid : SocketId)
| UWatch (app : string) (h : ConnectionHandle) (watched : list string)
| UUnwatch (app : string) (sid : SocketId).

Definition user_step (r : UserRegistry) (op : user_op) : UserRegistry :=
  match op with
  | USignin app uid h => (signin app uid h r).1
  | USignout app uid sid => (signout app uid sid r).1
  | UWatch app h watched => (watch app h watched r).1
  | UUnwatch app sid => (unwatch app sid r).1
  end.

Definition user_run : list user_op → UserRegistry := foldl user_step UserRegistry_new.

Lemma user_run_ok ops : ureg_ok (user_run ops).
Proof.
  assert (ureg_ok UserRegistry_new) as Hinit.
  { split; [by intros k s|by intros k s|]. intros app w sid. simpl.
    rewrite lookup_empty. simpl. rewrite elem_of_nil. split; [by intros []|done]. }
  unfold user_run. revert Hinit. generalize UserRegistry_new.
  induction ops as [|op ops IH]; intros r Hr; simpl; [done|]. apply IH.
  destruct op; simpl.
  - by apply signin_spec.
  - by apply signout_spec.
  - by apply watch_spec.
  - by apply unwatch_spec.
Qed.

Lemma elem_of_watchers_of app w r h :
  h ∈ watchers_of app w r ↔ ∃ sid, bound (ur_watchers r) (app, w) sid = Some h.
Proof.
  unfold watchers_of, bound. rewrite list_elem_of_fmap. split.
  - intros ([sid h'] & -> & Hin%elem_of_map_to_list). eauto.
  - intros [sid Hs]. exists (sid, h). by rewrite elem_of_map_to_list.
Qed.

(** ** App connections *)

Lemma app_remove_insert app h r :
  r !! app ≫= (.!! ch_socket_id h) = None → (∀ k s, r !! k = Some s → s ≠ ∅) →
  app_remove app (ch_socket_id h) (app_insert app h r) = r.
Proof.
  intros Hnone Hn. unfold app_remove, app_insert, AppRegistry in *. rewrite lookup_insert_eq.
  rewrite delete_insert_eq. destruct (r !! app) as [s|] eqn:Hr; simpl in *.
  - rewrite delete_id by done. rewrite decide_False by by eapply Hn.
    rewrite insert_insert_eq. by apply insert_id.
  - rewrite delete_empty, decide_True by done. by rewrite delete_insert_id.
Qed.

(** ** Properties *)

(** After any history of sign-ins, sign-outs and watches, a sign-in
    reports [first_for_user] exactly when the user was offline and makes it
    online, a sign-out reports [last_for_user] exactly when it takes the user
    offline, and neither affects any other user or app. *)
Theorem user_presence_edges (ops : list user_op) (app uid app' uid' : string)
    (h : ConnectionHandle) (sid : SocketId) :
  let r := user_run ops in
  let joined := signin app uid h r in
  let left := signout app uid sid r in
  uj_first_for_user joined.2 = negb (is_online app uid r) ∧
  is_online app uid joined.1 = true ∧
  ul_last_for_user left.2 = is_online app uid r && negb (is_online app uid left.1) ∧
  bound (ur_users left.1) (app, uid) sid = None ∧
  ((app', uid') ≠ (app, uid) →
   is_online app' uid' joined.1 = is_online app' uid' r ∧
   is_online app' uid' left.1 = is_online app' uid' r).
Proof.
  intros r joined left. pose proof (user_run_ok ops) as Hr. fold r in Hr.
  destruct (signin_spec app uid h r Hr) as (_ & _ & Hon & Hfirst).
  destruct (signout_spec app uid sid r Hr) as (_ & Hgone & Hoff & Hlast).
  split_and!; [done| |done|done|].
  - rewrite Hon, bool_decide_eq_true_2; done.
  - intros Hne. split; [|by apply Hoff]. by rewrite Hon, bool_decide_eq_false_2.
Qed.

(** After any history, a connection is among the watchers of a user
    exactly when that user is on the connection's current watchlist, no empty
    watcher set is kept, and [unwatch] reports exactly the users whose watcher
    set it empties. *)
Theorem watch_indexes_inverse (ops : list user_op) (app w : string) (sid : SocketId) :
  let r := user_run ops in
  (is_Some (bound (ur_watchers r) (app, w) sid) ↔
   w ∈ default [] (ur_watching r !! (app, sid))) ∧
  (watchers_of app w r = [] ↔ ur_watchers r !! (app, w) = None) ∧
  (w ∈ (unwatch app sid r).2 ↔
   watchers_of app w r ≠ [] ∧ watchers_of app w (unwatch app sid r).1 = []) ∧
  ¬ is_Some (bound (ur_watchers (unwatch app sid r).1) (app, w) sid).
Proof.
  intros r. pose proof (user_run_ok ops) as Hr. fold r in Hr.
  assert (∀ r, watchers_of app w r = [] ↔ ¬ occupied (ur_watchers r) (app, w)) as Hnil.
  { intros r'. unfold watchers_of, occupied. rewrite <-length_zero_iff_nil, length_fmap.
    rewrite length_map_to_list, map_size_empty_iff. split; [tauto|apply dec_stable]. }
  destruct (unwatch_spec app sid r Hr) as (Hr' & _ & Hdel & He). split_and!.
  - apply Hr.
  - rewrite Hnil, occupied_Some by apply Hr. by rewrite eq_None_not_Some.
  - rewrite He, !Hnil. split; [tauto|]. intros [? ?]. split; [by apply dec_stable|done].
  - rewrite (uo_inverse _ Hr'), Hdel, lookup_delete_eq. simpl. apply not_elem_of_nil.
Qed.
