(* ===== verification/Adapter.v ===== *)
(** * The adapter seam: [src/src/adapter/mod.rs], [src/src/adapter/local.rs] and
    [src/src/channel/cache.rs]

    The trait [Adapter] is a class of operations over the adapter's own state
    and the shared objects of the node; [AdapterLaws] states what the handlers
    rely on. [LocalAdapter] implements it over the registries. The cache library
    is a parameter with its documented expiry behaviour. *)

From S2P Require Import Prelude RustStd Json Protocol Kind Frame Fanout Mailbox ChannelState.
From S2P Require Import Registry UserRegistry.

(** ** Cached events *)

Record CachedEvent : Type := mkCachedEvent { ce_event : string; ce_data : string }.
Record CacheEntry : Type := mkCacheEntry { cache_event : CachedEvent; cache_ttl : Z }.

(** A concurrent cache with per-entry expiry: an insertion carries the duration
    the policy chose, a read sees what has not expired at its time. *)
Class Moka : Type := {
  moka : Type;
  moka_new : moka;
  moka_insert : string * string → CacheEntry → option Z → Z → moka → moka;
  moka_get : string * string → Z → moka → option CacheEntry;
  moka_run_pending_tasks : Z → moka → moka
}.

Class MokaLaws `{Moka} : Prop := {
  moka_get_new k now : moka_get k now moka_new = None;
  moka_get_insert k k' e d t now m : (t <= now)%Z →
    moka_get k now (moka_insert k' e d t m) =
    if decide (k = k') then
      match d with
      | Some d => if (now <? t + d)%Z then Some e else None
      | None => Some e
      end
    else moka_get k now m;
  moka_get_pending k t now m : (t <= now)%Z →
    moka_get k now (moka_run_pending_tasks t m) = moka_get k now m
}.

(** [PerEntryTtl]: creation and overwriting stamp the entry's own TTL. *)
Definition expire_after_create (e : CacheEntry) : option Z := Some (cache_ttl e).
Definition expire_after_update (e : CacheEntry) (_duration_until_expiry : option Z) : option Z :=
  Some (cache_ttl e).

Section cache.
Context `{Moka}.

Definition cache_store_set (app channel : string) (event : CachedEvent) (ttl now : Z) (c : moka)
    : moka :=
  let entry := mkCacheEntry event ttl in
  moka_insert (app, channel) entry
    match moka_get (app, channel) now c with
    | None => expire_after_create entry
    | Some _ => expire_after_update entry None
    end now c.

Definition cache_store_get (app channel : string) (now : Z) (c : moka) : option CachedEvent :=
  cache_event <$> moka_get (app, channel) now c.
End cache.

(** ** The trait *)

Inductive BroadcastError : Type := Publish (m : string).

(** The objects an adapter shares with the rest of the node: the mailboxes, the
    per-core broadcast pipeline, and the clock. *)
Record Env : Type := mkEnv {
  env_store : Store;
  env_percore : Percore;
  env_now : Z
}.

Definition set_store (st : Store) (e : Env) : Env := mkEnv st (env_percore e) (env_now e).
Definition set_percore (p : Percore) (e : Env) : Env := mkEnv (env_store e) p (env_now e).

Class Adapter (A : Type) : Type := {
  ad_subscribe : string → string → ConnectionHandle → option PresenceMember →
    A * Env → A * Env * SubscribeOutcome;
  ad_unsubscribe : string → string → SocketId → A * Env → A * Env * UnsubscribeOutcome;
  ad_broadcast : string → string → ServerEvent → option SocketId →
    A * Env → A * Env * result unit BroadcastError;
  ad_channels : string → option string → A * Env → list ChannelSummary;
  ad_channel : string → string → A * Env → ChannelSummary;
  ad_presence_members : string → string → A * Env → list PresenceMember;
  ad_resend_presence_ack : string → string → Mailbox → A * Env → A * Env;
  ad_cache_set : string → string → CachedEvent → Z → A * Env → A * Env;
  ad_cache_get : string → string → A * Env → option CachedEvent;
  ad_signin_user : string → string → ConnectionHandle → A * Env → A * Env * UserJoinOutcome;
  ad_signout_user : string → string → SocketId → A * Env → A * Env * UserLeaveOutcome;
  ad_is_user_online : string → string → A * Env → bool;
  ad_send_to_user : string → string → ServerEvent → A * Env → A * Env;
  ad_terminate_user : string → string → A * Env → A * Env * list SocketId;
  ad_purge_app : string → A * Env → A * Env * list SocketId;
  ad_watch : string → ConnectionHandle → list string → A * Env → A * Env * list string;
  ad_unwatch : string → SocketId → A * Env → A * Env;
  ad_watchers_of : string → string → A * Env → list ConnectionHandle
}.

(** ** [LocalAdapter] *)

Record LocalAdapter `{Moka} : Type := mkLocalAdapter {
  la_registry : Registry;
  la_cache : moka;
  la_users : UserRegistry;
  la_apps : AppRegistry;
  la_sink : option (list nat)
}.

Section local.
Context `{SerdeJson, Moka}.

Definition LocalAdapter_new (registry : Registry) (apps : AppRegistry) : LocalAdapter :=
  mkLocalAdapter _ registry moka_new UserRegistry_new apps None.

Definition set_registry (r : Registry) (a : LocalAdapter) : LocalAdapter :=
  mkLocalAdapter _ r (la_cache a) (la_users a) (la_apps a) (la_sink a).
Definition set_cache (c : moka) (a : LocalAdapter) : LocalAdapter :=
  mkLocalAdapter _ (la_registry a) c (la_users a) (la_apps a) (la_sink a).
Definition set_users (u : UserRegistry) (a : LocalAdapter) : LocalAdapter :=
  mkLocalAdapter _ (la_registry a) (la_cache a) u (la_apps a) (la_sink a).
Definition set_apps (r : AppRegistry) (a : LocalAdapter) : LocalAdapter :=
  mkLocalAdapter _ (la_registry a) (la_cache a) (la_users a) r (la_sink a).

(** The sink is installed once. *)
Definition set_broadcast_sink (sink : list nat) (a : LocalAdapter) : LocalAdapter :=
  match la_sink a with
  | None => mkLocalAdapter _ (la_registry a) (la_cache a) (la_users a) (la_apps a) (Some sink)
  | Some _ => a
  end.

Definition DISCONNECTED : string := "You got disconnected by the app.".

Definition close_handles_4009 (hs : list ConnectionHandle) (st : Store) : Store * list SocketId :=
  (foldl (λ st h,
     send_ (ch_mailbox h) (Close 4009 DISCONNECTED)
       (send_ (ch_mailbox h) (Error (mkPusherError 4009 DISCONNECTED)) st)) st hs,
   ch_socket_id <$> hs).

Definition local_subscribe (app channel : string) (h : ConnectionHandle)
    (member : option PresenceMember) (w : LocalAdapter * Env)
    : LocalAdapter * Env * SubscribeOutcome :=
  let '(a, e) := w in
  let '(r, out) := Registry.subscribe app channel h member (la_registry a) in
  (set_registry r a, e, out).

Definition local_unsubscribe (app channel : string) (sid : SocketId) (w : LocalAdapter * Env)
    : LocalAdapter * Env * UnsubscribeOutcome :=
  let '(a, e) := w in
  let '(r, out) := Registry.unsubscribe app channel sid (la_registry a) in
  (set_registry r a, e, out).

Definition local_broadcast (app channel : string) (event : ServerEvent)
    (except : option SocketId) (w : LocalAdapter * Env)
    : LocalAdapter * Env * result unit BroadcastError :=
  let '(a, e) := w in
  match la_sink a with
  | Some sink =>
      let frames := default [] (frames_for all_versions event) in
      (a, set_percore (sink_broadcast sink app channel frames except (env_percore e)) e, Ok tt)
  | None =>
      let '(r, st) := Registry.broadcast app channel event except (la_registry a) (env_store e) in
      (set_registry r a, set_store st e, Ok tt)
  end.

Definition local_resend_presence_ack (app channel : string) (m : Mailbox)
    (w : LocalAdapter * Env) : LocalAdapter * Env :=
  let '(a, e) := w in
  let '(r, frame) := registry_roster_frame app channel (la_registry a) in
  (set_registry r a,
   match frame with
   | Some f => set_store (send_ m (Raw f) (env_store e)) e
   | None => e
   end).

(** Encode once, share the text among every socket of the user. *)
Definition local_send_to_user (app user_id : string) (event : ServerEvent)
    (w : LocalAdapter * Env) : LocalAdapter * Env :=
  let '(a, e) := w in
  let hs := handles app user_id (la_users a) in
  if bool_decide (hs = []) then (a, e)
  else
    let frame := match event with Raw f => f | other => wire_encode_first other end in
    (a, set_store (send_all hs (Raw frame) (env_store e)) e).

Definition local_terminate_user (app user_id : string) (w : LocalAdapter * Env)
    : LocalAdapter * Env * list SocketId :=
  let '(a, e) := w in
  let '(st, ids) := close_handles_4009 (handles app user_id (la_users a)) (env_store e) in
  (a, set_store st e, ids).

Definition local_purge_app (app_id : string) (w : LocalAdapter * Env)
    : LocalAdapter * Env * list SocketId :=
  let '(a, e) := w in
  let '(apps, hs) := drain_app app_id (la_apps a) in
  let '(st, ids) := close_handles_4009 hs (env_store e) in
  (set_apps apps a, set_store st e, ids).

#[export] Instance LocalAdapter_adapter : Adapter LocalAdapter := {|
  ad_subscribe := local_subscribe;
  ad_unsubscribe := local_unsubscribe;
  ad_broadcast := local_broadcast;
  ad_channels app prefix w := Registry.channels app prefix (la_registry w.1);
  ad_channel app channel w := channel_summary app channel (la_registry w.1);
  ad_presence_members app channel w := presence_members app channel (la_registry w.1);
  ad_resend_presence_ack := local_resend_presence_ack;
  ad_cache_set app channel event ttl w :=
    (set_cache (cache_store_set app channel event ttl (env_now w.2) (la_cache w.1)) w.1, w.2);
  ad_cache_get app channel w := cache_store_get app channel (env_now w.2) (la_cache w.1);
  ad_signin_user app uid h w :=
    let '(u, out) := signin app uid h (la_users w.1) in (set_users u w.1, w.2, out);
  ad_signout_user app uid sid w :=
    let '(u, out) := signout app uid sid (la_users w.1) in (set_users u w.1, w.2, out);
  ad_is_user_online app uid w := is_online app uid (la_users w.1);
  ad_send_to_user := local_send_to_user;
  ad_terminate_user := local_terminate_user;
  ad_purge_app := local_purge_app;
  ad_watch app h watched w :=
    let '(u, (online, _)) := watch app h watched (la_users w.1) in (set_users u w.1, w.2, online);
  ad_unwatch app sid w := (set_users (unwatch app sid (la_users w.1)).1 w.1, w.2);
  ad_watchers_of app uid w := watchers_of app uid (la_users w.1)
|}.
End local.

(** ** What the handlers rely on

    Who is subscribed (with the user id of a presence member), who is signed in
    as whom, who watches whom; and how each operation moves these. *)
Class AdapterView (A : Type) : Type := {
  ad_inv : A → Prop;
  ad_sub : A → string → string → SocketId → option (option string);
  ad_signed : A → string → string → SocketId → bool;
  ad_watching : A → string → SocketId → string → bool
}.

(** The three views agree. *)
Definition same_view `{AdapterView A} (a a' : A) : Prop :=
  (∀ app ch sid, ad_sub a' app ch sid = ad_sub a app ch sid) ∧
  (∀ app uid sid, ad_signed a' app uid sid = ad_signed a app uid sid) ∧
  (∀ app sid uid, ad_watching a' app sid uid = ad_watching a app sid uid).

#[export] Instance same_view_refl `{AdapterView A} : Reflexive (@same_view A _).
Proof. by repeat split. Qed.

#[export] Instance same_view_trans `{AdapterView A} : Transitive (@same_view A _).
Proof. intros a b c (H1 & H2 & H3) (H4 & H5 & H6). repeat split; intros; congruence. Qed.

Class AdapterLaws (A : Type) `{Adapter A, AdapterView A} : Prop := {
  law_subscribe app ch h m w :
    let a' := (ad_subscribe app ch h m w).1.1 in
    (ad_inv w.1 → ad_inv a') ∧
    (∀ app' ch' sid, ad_sub a' app' ch' sid =
       if decide (app' = app ∧ ch' = ch ∧ sid = ch_socket_id h) then Some (pm_user_id <$> m)
       else ad_sub w.1 app' ch' sid) ∧
    (∀ app uid sid, ad_signed a' app uid sid = ad_signed w.1 app uid sid) ∧
    (∀ app sid uid, ad_watching a' app sid uid = ad_watching w.1 app sid uid);
  law_unsubscribe app ch sid w :
    let a' := (ad_unsubscribe app ch sid w).1.1 in
    (ad_inv w.1 → ad_inv a') ∧
    (∀ app' ch' sid', ad_sub a' app' ch' sid' =
       if decide (app' = app ∧ ch' = ch ∧ sid' = sid) then None else ad_sub w.1 app' ch' sid') ∧
    (∀ app uid sid, ad_signed a' app uid sid = ad_signed w.1 app uid sid) ∧
    (∀ app sid uid, ad_watching a' app sid uid = ad_watching w.1 app sid uid);
  law_broadcast app ch ev ex w :
    let a' := (ad_broadcast app ch ev ex w).1.1 in
    (ad_inv w.1 → ad_inv a') ∧ same_view w.1 a';
  law_resend app ch m w :
    let a' := (ad_resend_presence_ack app ch m w).1 in
    (ad_inv w.1 → ad_inv a') ∧ same_view w.1 a';
  law_signin app uid h w :
    let a' := (ad_signin_user app uid h w).1.1 in
    (ad_inv w.1 → ad_inv a') ∧
    (∀ app ch sid, ad_sub a' app ch sid = ad_sub w.1 app ch sid) ∧
    (∀ app' uid' sid, ad_signed a' app' uid' sid =
       bool_decide (app' = app ∧ uid' = uid ∧ sid = ch_socket_id h)
       || ad_signed w.1 app' uid' sid) ∧
    (∀ app sid uid, ad_watching a' app sid uid = ad_watching w.1 app sid uid);
  law_signout app uid sid w :
    let a' := (ad_signout_user app uid sid w).1.1 in
    (ad_inv w.1 → ad_inv a') ∧
    (∀ app ch sid, ad_sub a' app ch sid = ad_sub w.1 app ch sid) ∧
    (∀ app' uid' sid', ad_signed a' app' uid' sid' =
       negb (bool_decide (app' = app ∧ uid' = uid ∧ sid' = sid))
       && ad_signed w.1 app' uid' sid') ∧
    (∀ app sid uid, ad_watching a' app sid uid = ad_watching w.1 app sid uid);
  law_watch app h watched w :
    let a' := (ad_watch app h watched w).1.1 in
    ad_inv w.1 →
    ad_inv a' ∧
    (∀ app ch sid, ad_sub a' app ch sid = ad_sub w.1 app ch sid) ∧
    (∀ app uid sid, ad_signed a' app uid sid = ad_signed w.1 app uid sid) ∧
    (∀ app' sid uid, ad_watching a' app' sid uid =
       if decide (app' = app ∧ sid = ch_socket_id h) then bool_decide (uid ∈ watched)
       else ad_watching w.1 app' sid uid);
  law_unwatch app sid w :
    let a' := (ad_unwatch app sid w).1 in
    ad_inv w.1 →
    ad_inv a' ∧
    (∀ app ch sid, ad_sub a' app ch sid = ad_sub w.1 app ch sid) ∧
    (∀ app uid sid, ad_signed a' app uid sid = ad_signed w.1 app uid sid) ∧
    (∀ app' sid' uid, ad_watching a' app' sid' uid =
       negb (bool_decide (app' = app ∧ sid' = sid)) && ad_watching w.1 app' sid' uid)
}.

(** ** [LocalAdapter] keeps the promises *)

Section views.
Context `{SerdeJson, Moka}.

Definition sub_of (r : Registry) (app ch : string) (sid : SocketId) : option (option string) :=
  (λ sub, pm_user_id <$> sub_member sub) <$>
    subscribers (default ChannelState_default (r !! (app, ch))) !! sid.

#[export] Instance LocalAdapter_view : AdapterView LocalAdapter := {|
  ad_inv a := ureg_ok (la_users a);
  ad_sub a := sub_of (la_registry a);
  ad_signed a app uid sid := bool_decide (is_Some (bound (ur_users (la_users a)) (app, uid) sid));
  ad_watching a app sid uid :=
    bool_decide (is_Some (bound (ur_watchers (la_users a)) (app, uid) sid))
|}.

Lemma subscribers_cached ch s : subscribers (cached_roster_frame ch s).1 = subscribers s.
Proof. unfold cached_roster_frame. by destruct (roster_frame s). Qed.

Lemma subscribers_add ch h m s :
  subscribers (add ch h m s).1 =
  <[ch_socket_id h := mkSubscriber h m]> (subscribers s).
Proof.
  rewrite <-insert_delete_eq, <-subscribers_remove. unfold add. destruct m as [m|]; [|done].
  simpl. match goal with |- context [cached_roster_frame ch ?s] =>
    pose proof (subscribers_cached ch s) as Hc; destruct (cached_roster_frame ch s) end.
  simpl in *. rewrite Hc. by destruct (_ =? 1).
Qed.

Lemma sub_of_subscribe app ch h m r app' ch' sid :
  sub_of (Registry.subscribe app ch h m r).1 app' ch' sid =
  if decide (app' = app ∧ ch' = ch ∧ sid = ch_socket_id h) then Some (pm_user_id <$> m)
  else sub_of r app' ch' sid.
Proof.
  unfold Registry.subscribe, sub_of.
  pose proof (subscribers_add ch h m (default ChannelState_default (r !! (app, ch)))) as Ha.
  destruct (add ch h m _) as [s p]. simpl in *.
  destruct (decide ((app', ch') = (app, ch))) as [[= -> ->]|Hk].
  - rewrite lookup_insert_eq. simpl. rewrite Ha. destruct (decide (sid = ch_socket_id h)) as [->|Hs].
    + by rewrite lookup_insert_eq, decide_True.
    + rewrite lookup_insert_ne, decide_False by naive_solver. done.
  - rewrite lookup_insert_ne, decide_False by naive_solver. done.
Qed.

Lemma sub_of_prune k r app' ch' sid :
  sub_of (remove_if_empty k r) app' ch' sid = sub_of r app' ch' sid.
Proof.
  unfold remove_if_empty, sub_of. destruct (r !! k) as [s|] eqn:Hk; [|done].
  destruct (is_empty s) eqn:He; [|done]. destruct (decide (k = (app', ch'))) as [->|Hne].
  - rewrite lookup_delete_eq, Hk. simpl. unfold is_empty in He.
    apply bool_decide_eq_true_1 in He. by rewrite He, !lookup_empty.
  - by rewrite lookup_delete_ne.
Qed.

Lemma sub_of_unsubscribe app ch sid r app' ch' sid' :
  sub_of (Registry.unsubscribe app ch sid r).1 app' ch' sid' =
  if decide (app' = app ∧ ch' = ch ∧ sid' = sid) then None else sub_of r app' ch' sid'.
Proof.
  unfold Registry.unsubscribe, unsubscribe_remove.
  destruct (r !! (app, ch)) as [s|] eqn:Hk; simpl.
  2:{ case_decide as Hd; [|done]. destruct Hd as (-> & -> & ->).
      unfold sub_of. rewrite Hk. simpl. by rewrite lookup_empty. }
  pose proof (subscribers_remove sid s) as Hs. destruct (remove sid s) as [s' p]. simpl in *.
  assert (sub_of (<[(app, ch) := s']> r) app' ch' sid' =
    if decide (app' = app ∧ ch' = ch ∧ sid' = sid) then None else sub_of r app' ch' sid') as <-;
    [|by destruct (is_empty s'); [apply sub_of_prune|]].
  unfold sub_of. destruct (decide ((app', ch') = (app, ch))) as [[= -> ->]|Hne].
  - rewrite lookup_insert_eq, Hk. simpl. rewrite Hs.
    destruct (decide (sid' = sid)) as [->|Hsid].
    + by rewrite lookup_delete_eq, decide_True.
    + by rewrite lookup_delete_ne, decide_False by naive_solver.
  - by rewrite lookup_insert_ne, decide_False by naive_solver.
Qed.

Lemma sub_of_same r r' k s s' :
  r !! k = Some s → r' = <[k := s']> r → subscribers s' = subscribers s →
  ∀ app ch sid, sub_of r' app ch sid = sub_of r app ch sid.
Proof.
  intros Hk -> Hs app ch sid. unfold sub_of. destruct (decide (k = (app, ch))) as [->|Hne].
  - by rewrite lookup_insert_eq, Hk; simpl; rewrite Hs.
  - by rewrite lookup_insert_ne.
Qed.

(** Watch sets after [unwatch] and [watch]. *)
Lemma bound_unwatch app sid u app' uid sid' :
  ureg_ok u →
  bound (ur_watchers (unwatch app sid u).1) (app', uid) sid' =
  if decide (app' = app ∧ sid' = sid) then None else bound (ur_watchers u) (app', uid) sid'.
Proof.
  intros Hu. destruct (unwatch_spec app sid u Hu) as ([_ _ Hinv'] & _ & Hw & _).
  destruct (decide (app' = app ∧ sid' = sid)) as [[-> ->]|Hne].
  - apply eq_None_not_Some. rewrite Hinv', Hw, lookup_delete_eq. simpl. set_solver.
  - unfold unwatch. destruct (ur_watching u !! (app, sid)) as [l|]; [|done].
    pose proof (bound_unwatch_loop app sid l (ur_watchers u) (app', uid) sid') as Hb.
    destruct (unwatch_loop app sid l (ur_watchers u)) as [m ne]. simpl in *.
    rewrite Hb, decide_False; [done|]. naive_solver.
Qed.

Lemma bound_watch app h watched u app' uid sid' :
  ureg_ok u →
  bound (ur_watchers (watch app h watched u).1) (app', uid) sid' =
  if decide (app' = app ∧ sid' = ch_socket_id h) then
    if decide (uid ∈ watched) then Some h else None
  else bound (ur_watchers u) (app', uid) sid'.
Proof.
  intros Hu. pose proof (bound_unwatch app (ch_socket_id h) u app' uid sid' Hu) as Hb0.
  unfold watch. destruct (unwatch app (ch_socket_id h) u) as [u0 ne]. simpl in Hb0.
  pose proof (bound_watch_loop app h watched (ur_watchers u0) (app', uid) sid') as Hb.
  destruct (watch_loop app h watched (ur_watchers u0)) as [m newly]. simpl in *.
  rewrite Hb, Hb0. repeat case_decide; try done; naive_solver.
Qed.

Lemma users_watch app h watched u : ur_users (watch app h watched u).1 = ur_users u.
Proof.
  unfold watch, unwatch. destruct (ur_watching u !! _) as [l|].
  - destruct (unwatch_loop _ _ _ _). simpl. by destruct (watch_loop _ _ _ _).
  - by destruct (watch_loop _ _ _ _).
Qed.

Lemma bound_signout app uid sid u app' uid' sid' :
  bound (ur_users (signout app uid sid u).1) (app', uid') sid' =
  if decide (app' = app ∧ uid' = uid ∧ sid' = sid) then None
  else bound (ur_users u) (app', uid') sid'.
Proof.
  unfold signout. pose proof (bound_remove (ur_users u) (app, uid) sid (app', uid') sid') as Hb.
  destruct (sockets_remove _ _ _) as [m l]. simpl in *. rewrite Hb.
  repeat case_decide; naive_solver.
Qed.

Lemma users_unwatch app sid u : ur_users (unwatch app sid u).1 = ur_users u.
Proof. unfold unwatch. destruct (ur_watching u !! _); [|done]. by destruct (unwatch_loop _ _ _ _). Qed.

Lemma local_broadcast_view app ch ev ex w :
  la_users (local_broadcast app ch ev ex w).1.1 = la_users w.1 ∧
  ∀ app' ch' sid, sub_of (la_registry (local_broadcast app ch ev ex w).1.1) app' ch' sid =
                  sub_of (la_registry w.1) app' ch' sid.
Proof.
  destruct w as [a e]. unfold local_broadcast. destruct (la_sink a); [done|].
  unfold Registry.broadcast, broadcast_fanout.
  destruct (la_registry a !! (app, ch)) as [s|] eqn:Hk; simpl; [|done].
  split; [done|]. by eapply sub_of_same.
Qed.

Lemma local_resend_view app ch m w :
  la_users (local_resend_presence_ack app ch m w).1 = la_users w.1 ∧
  ∀ app' ch' sid, sub_of (la_registry (local_resend_presence_ack app ch m w).1) app' ch' sid =
                  sub_of (la_registry w.1) app' ch' sid.
Proof.
  destruct w as [a e]. unfold local_resend_presence_ack, registry_roster_frame.
  destruct (la_registry a !! (app, ch)) as [s|] eqn:Hk; simpl; [|done].
  destruct (user_count s); [|done].
  pose proof (subscribers_cached ch s) as Hs. destruct (cached_roster_frame ch s) as [s' f].
  simpl in *. split; [done|]. by eapply sub_of_same.
Qed.

#[export] Instance LocalAdapter_laws : AdapterLaws LocalAdapter.
Proof.
  split.
  - intros app ch h m [a e]. simpl.
    pose proof (sub_of_subscribe app ch h m (la_registry a)) as Hs.
    destruct (Registry.subscribe app ch h m (la_registry a)) as [r out]. by split_and!.
  - intros app ch sid [a e]. simpl.
    pose proof (sub_of_unsubscribe app ch sid (la_registry a)) as Hs.
    destruct (Registry.unsubscribe app ch sid (la_registry a)) as [r out]. by split_and!.
  - intros app ch ev ex w. destruct (local_broadcast_view app ch ev ex w) as [Hu Hs].
    simpl. unfold same_view. simpl. rewrite Hu. by split_and!.
  - intros app ch m w. destruct (local_resend_view app ch m w) as [Hu Hs].
    simpl. unfold same_view. simpl. rewrite Hu. by split_and!.
  - intros app uid h [a e]. simpl. split_and!; [intros Hu|done| |done].
    + by destruct (signin_spec app uid h (la_users a) Hu).
    + intros app' uid' sid. rewrite bound_insert.
      destruct (decide ((app', uid') = (app, uid) ∧ sid = ch_socket_id h)) as [[[= -> ->] ->]|Hne].
      * by rewrite bool_decide_eq_true_2 by eauto; rewrite bool_decide_eq_true_2.
      * rewrite (bool_decide_eq_false_2 (app' = app ∧ uid' = uid ∧ sid = ch_socket_id h))
          by naive_solver. done.
  - intros app uid sid [a e]. simpl.
    pose proof (signout_spec app uid sid (la_users a)) as Hok.
    pose proof (bound_signout app uid sid (la_users a)) as Hb.
    assert (ur_watchers (signout app uid sid (la_users a)).1 = ur_watchers (la_users a)) as Hw
      by (unfold signout; by destruct (sockets_remove _ _ _)).
    destruct (signout app uid sid (la_users a)) as [u out]. simpl in *.
    split_and!; [intros Hu; by apply Hok|done| |intros; by rewrite Hw].
    intros app' uid' sid'. rewrite Hb. case_decide as Hd.
    + by rewrite (bool_decide_eq_true_2 _ Hd).
    + by rewrite (bool_decide_eq_false_2 _ Hd).
  - intros app h watched [a e] a' Hu. unfold a'. clear a'. simpl in *.
    pose proof (bound_watch app h watched (la_users a)) as Hb.
    pose proof (users_watch app h watched (la_users a)) as Hus.
    destruct (watch_spec app h watched (la_users a) Hu) as [Hok _].
    destruct (watch app h watched (la_users a)) as [u [online newly]]. simpl in *.
    split_and!; [done|done|intros; by rewrite Hus|].
    intros app' sid uid. rewrite Hb by done. repeat case_decide; done.
  - intros app sid [a e] a' Hu. unfold a'. clear a'. simpl in *.
    destruct (unwatch_spec app sid (la_users a) Hu) as [Hok _].
    split_and!; [done|done|intros; by rewrite users_unwatch|].
    intros app' sid' uid. rewrite bound_unwatch by done. case_decide as Hd.
    + by rewrite (bool_decide_eq_true_2 _ Hd).
    + by rewrite (bool_decide_eq_false_2 _ Hd).
Qed.
End views.

(** ** Cache channels *)

Section caching.
Context `{MokaLaws}.

(** A write: channel, event, TTL and time. *)
Record cache_write : Type := mkCacheWrite {
  cw_app : string;
  cw_channel : string;
  cw_event : CachedEvent;
  cw_ttl : Z;
  cw_time : Z
}.

Definition cache_run (ops : list cache_write) : moka :=
  foldl (λ c o, cache_store_set (cw_app o) (cw_channel o) (cw_event o) (cw_ttl o) (cw_time o) c)
    moka_new ops.

Lemma cache_get_set app ch now c o :
  (cw_time o <= now)%Z →
  cache_store_get app ch now
    (cache_store_set (cw_app o) (cw_channel o) (cw_event o) (cw_ttl o) (cw_time o) c) =
  if decide (cw_app o = app ∧ cw_channel o = ch) then
    if (now <? cw_time o + cw_ttl o)%Z then Some (cw_event o) else None
  else cache_store_get app ch now c.
Proof.
  intros Ht. unfold cache_store_get, cache_store_set.
  rewrite moka_get_insert by done.
  assert (match moka_get (cw_app o, cw_channel o) (cw_time o) c with
          | Some _ => expire_after_update (mkCacheEntry (cw_event o) (cw_ttl o)) None
          | None => expire_after_create (mkCacheEntry (cw_event o) (cw_ttl o))
          end = Some (cw_ttl o)) as -> by by destruct (moka_get _ _ _).
  destruct (decide ((app, ch) = (cw_app o, cw_channel o))) as [[= -> ->]|Hne].
  - rewrite decide_True by done. by destruct (_ <? _)%Z.
  - rewrite (decide_False (P := cw_app o = app ∧ cw_channel o = ch)) by naive_solver. done.
Qed.

(** A cache channel replays the last event written to it, and only while it
    is fresh: after any series of writes up to now, a read returns the latest
    write to that channel of that app when less than its TTL has passed, and
    nothing otherwise. Reads and writes to other channels never matter. *)
Theorem cache_replays_last_event (ops : list cache_write) (app ch : string) (now : Z) :
  Forall (λ o, (cw_time o <= now)%Z) ops →
  cache_store_get app ch now (cache_run ops) =
  match last (filter (λ o, cw_app o = app ∧ cw_channel o = ch) ops) with
  | Some o => if (now <? cw_time o + cw_ttl o)%Z then Some (cw_event o) else None
  | None => None
  end.
Proof.
  induction ops as [|o ops IH] using rev_ind; intros Hall.
  { unfold cache_run, cache_store_get. simpl. by rewrite moka_get_new. }
  apply Forall_app in Hall as [Hall Ho]. apply Forall_cons_1 in Ho as [Ho _].
  unfold cache_run. rewrite foldl_app. simpl. fold (cache_run ops).
  rewrite cache_get_set, filter_app by done. rewrite filter_cons.
  destruct (decide (cw_app o = app ∧ cw_channel o = ch)).
  - by rewrite filter_nil, last_snoc.
  - rewrite filter_nil, app_nil_r. by apply IH.
Qed.
End caching.

(** ** Evictions *)

Section evictions.
Context `{SerdeJson, Moka}.

(** How many more frames a mailbox takes. *)
Definition room (st : Store) (i : nat) : nat :=
  match chans st !! i with
  | Some c => if closed c then 0 else capacity c - length (queue c)
  | None => 0
  end.

Definition disconnect_frames : list ServerEvent :=
  [Error (mkPusherError 4009 DISCONNECTED); Close 4009 DISCONNECTED].

(** A send fills one place, or drops the frame. *)
Lemma send_fills h ev st :
  let st' := send_ (ch_mailbox h) ev st in
  queue_of st' (inner_of h) = queue_of st (inner_of h) ++ take (room st (inner_of h)) [ev] ∧
  room st' (inner_of h) = room st (inner_of h) - 1.
Proof.
  unfold send_, send, try_send, inner_of, room. set (i := mb_inner (ch_mailbox h)).
  destruct (chans st !! i) as [c|] eqn:Hc; simpl.
  2:{ by rewrite Hc, app_nil_r. }
  destruct (closed c) eqn:Hcl; simpl; [by rewrite Hc, Hcl, app_nil_r|].
  destruct (Nat.leb_spec (capacity c) (length (queue c))) as [Hf|Hf]; simpl.
  - replace (capacity c - length (queue c)) with 0 by lia. rewrite take_0, app_nil_r. unfold queue_of.
    autorewrite with pylon_rw. rewrite Hc, Hcl. split; [done|lia].
  - unfold queue_of. autorewrite with pylon_rw. simpl. rewrite lookup_insert_eq, Hc. simpl.
    rewrite length_app. simpl. destruct (capacity c - length (queue c)) as [|n] eqn:E; [lia|]. simpl.
    split; [by destruct n|lia].
Qed.

Lemma close_one h st :
  let st' := send_ (ch_mailbox h) (Close 4009 DISCONNECTED)
    (send_ (ch_mailbox h) (Error (mkPusherError 4009 DISCONNECTED)) st) in
  queue_of st' (inner_of h) = queue_of st (inner_of h) ++ take (room st (inner_of h)) disconnect_frames.
Proof.
  intros st'. subst st'. destruct (send_fills h (Error (mkPusherError 4009 DISCONNECTED)) st) as [Hq Hr].
  destruct (send_fills h (Close 4009 DISCONNECTED) (send_ (ch_mailbox h) (Error (mkPusherError 4009 DISCONNECTED)) st))
    as [-> _]. rewrite Hq, Hr.
  rewrite <-app_assoc. f_equal. destruct (room st (inner_of h)) as [|[|n]]; [done..|]. by destruct n.
Qed.

Lemma close_handles_other hs st i :
  i ∉ (inner_of <$> hs) → chans (close_handles_4009 hs st).1 !! i = chans st !! i.
Proof.
  unfold close_handles_4009. simpl. revert st. induction hs as [|h hs IH]; intros st; simpl; [done|].
  rewrite not_elem_of_cons. intros [Hi Hni]. rewrite IH by done. by rewrite !send_other.
Qed.

Lemma close_handles_each hs st h :
  NoDup (inner_of <$> hs) → h ∈ hs →
  queue_of (close_handles_4009 hs st).1 (inner_of h) =
  queue_of st (inner_of h) ++ take (room st (inner_of h)) disconnect_frames.
Proof.
  revert st. induction hs as [|h' hs IH]; intros st Hnd Hin.
  { by apply elem_of_nil in Hin. }
  rewrite fmap_cons in Hnd. apply NoDup_cons in Hnd as [Hnin Hnd].
  change (close_handles_4009 (h' :: hs) st).1 with
    (close_handles_4009 hs (send_ (ch_mailbox h') (Close 4009 DISCONNECTED)
       (send_ (ch_mailbox h') (Error (mkPusherError 4009 DISCONNECTED)) st))).1.
  apply elem_of_cons in Hin as [->|Hin].
  - unfold queue_of at 1. rewrite close_handles_other by done. apply (close_one h' st).
  - assert (inner_of h ≠ inner_of h') as Hne.
    { intros Heq. apply Hnin. rewrite <-Heq. by apply list_elem_of_fmap_2. }
    unfold inner_of in *. rewrite IH by done. unfold queue_of, room. by rewrite !send_other.
Qed.

(** Purging an app closes every connection registered for it and no other:
    the returned ids are the app's sockets, the app's index entry is gone, each
    of its mailboxes (one per connection) receives the 4009 error and then the
    4009 close, as far as it has room, no other mailbox changes, and no other
    app's index moves. *)
Theorem purge_app_closes_exactly (a : LocalAdapter) (e : Env) (app_id : string) :
  let hs := (map_to_list (default ∅ (la_apps a !! app_id))).*2 in
  let '(a', e', ids) := ad_purge_app app_id (a, e) in
  ids = ch_socket_id <$> hs ∧
  la_apps a' = delete app_id (la_apps a) ∧
  (∀ i, i ∉ inner_of <$> hs → chans (env_store e') !! i = chans (env_store e) !! i) ∧
  (NoDup (inner_of <$> hs) → ∀ h, h ∈ hs →
     queue_of (env_store e') (inner_of h) =
     queue_of (env_store e) (inner_of h) ++ take (room (env_store e) (inner_of h)) disconnect_frames).
Proof.
  intros hs. simpl. fold hs. split_and!; [done|done| |].
  - intros i Hi. by apply (close_handles_other hs (env_store e) i).
  - intros Hnd h Hh. by apply (close_handles_each hs (env_store e) h).
Qed.

(** A user event reaches every socket signed in as that user: each of the
    user's mailboxes (distinct, with room) receives one frame, the single shared
    encoding of the event; no other mailbox changes. *)
Theorem send_to_user_reaches_all (a : LocalAdapter) (e : Env) (app uid : string)
    (event : ServerEvent) :
  let hs := handles app uid (la_users a) in
  let '(a', e') := ad_send_to_user app uid event (a, e) in
  a' = a ∧
  (∀ i, i ∉ inner_of <$> hs → chans (env_store e') !! i = chans (env_store e) !! i) ∧
  (NoDup (inner_of <$> hs) → ∀ h, h ∈ hs → has_room (env_store e) (inner_of h) →
     queue_of (env_store e') (inner_of h) =
     queue_of (env_store e) (inner_of h) ++ [Raw (event_text event)]).
Proof.
  intros hs. simpl. unfold local_send_to_user. fold hs. case_bool_decide as He.
  - split_and!; [done|done|]. intros _ h Hh. rewrite He in Hh. by apply elem_of_nil in Hh.
  - split_and!; [done| |].
    + intros i Hi. by apply send_all_other.
    + intros Hnd h Hh Hroom. by apply send_all_room.
Qed.
End evictions.

Module MokaDemo.
(** Entries with their deadlines. *)
#[local] Instance store : Moka := {|
  moka := gmap (string * string) (CacheEntry * option Z);
  moka_new := ∅;
  moka_insert k e d t m := <[k := (e, (λ d, t + d)%Z <$> d)]> m;
  moka_get k now m :=
    match m !! k with
    | Some (e, Some dl) => if (now <? dl)%Z then Some e else None
    | Some (e, None) => Some e
    | None => None
    end;
  moka_run_pending_tasks t m := m
|}.

#[local] Instance store_laws : MokaLaws.
Proof.
  split; simpl.
  - intros. by rewrite lookup_empty.
  - intros k k' e d t now m _. case_decide as Hk; subst.
    + rewrite lookup_insert_eq. by destruct d.
    + by rewrite lookup_insert_ne.
  - done.
Qed.
End MokaDemo.

Lemma cache_replays_last_event_witness :
  cache_store_get (H := MokaDemo.store) "app" "cache-a" 20
    (cache_run (H := MokaDemo.store)
       [mkCacheWrite "app" "cache-a" (mkCachedEvent "e1" "1") 30 5;
        mkCacheWrite "app" "cache-a" (mkCachedEvent "e2" "2") 30 10]) =
  Some (mkCachedEvent "e2" "2").
Proof.
  etransitivity; [apply (cache_replays_last_event (H := MokaDemo.store)
    (H0 := MokaDemo.store_laws))|by_eval].
  repeat (apply Forall_cons; split; [simpl; lia|]). apply Forall_nil_2.
Defined.
