(* ===== verification/Auth.v ===== *)
(** * Authentication: [src/src/auth]

    The HMAC and MD5 primitives are parameters (class [Crypto]), and so are the
    Unicode case mappings, of which the code relies on the ASCII part (class
    [UnicodeCase]). Query maps are finite maps; their iteration order is that of
    [map_to_list], and the theorems do not depend on it. *)

From S2P Require Import Prelude RustStd Json Protocol Kind.

(** ** [auth/signature.rs] *)

Class Crypto : Type := {
  hmac_sha256_hex : string → string → string;
  md5_hex : string → string
}.

Definition ascii_lower (c : ascii) : ascii :=
  let n := nat_of_ascii c in
  if (65 <=? n) && (n <=? 90) then ascii_of_nat (n + 32) else c.

Fixpoint ascii_lowercase (s : string) : string :=
  match s with EmptyString => EmptyString | String c s => String (ascii_lower c) (ascii_lowercase s) end.

Definition is_ascii (s : string) : bool := Str.all (λ c, nat_of_ascii c <? 128) s.

Class UnicodeCase : Type := {
  to_lowercase : string → string;
  to_uppercase : string → string
}.

(** [str::to_lowercase] on ASCII text. *)
Class UnicodeCaseLaws `{UnicodeCase} : Prop := {
  to_lowercase_ascii s : is_ascii s = true → to_lowercase s = ascii_lowercase s
}.

(** The byte fold of [subtle]'s [ct_eq], on slices of equal length. *)
Fixpoint ct_diff (a b : string) : Z :=
  match a, b with
  | String x a, String y b => Z.lor (Z.lxor (u8_of_ascii x) (u8_of_ascii y)) (ct_diff a b)
  | _, _ => 0
  end%Z.

Definition constant_time_eq (a b : string) : bool :=
  if negb (String.length a =? String.length b) then false else (ct_diff a b =? 0)%Z.

Section with_crypto.
Context `{Crypto, UnicodeCase}.

Definition user_signing_string (socket_id user_data : string) : string :=
  socket_id +:+ "::user::" +:+ user_data.

Definition channel_signing_string (socket_id channel : string) (channel_data : option string)
    : string :=
  match channel_data with
  | Some cd => socket_id +:+ ":" +:+ channel +:+ ":" +:+ cd
  | None => socket_id +:+ ":" +:+ channel
  end.

Definition user_signature (secret socket_id user_data : string) : string :=
  hmac_sha256_hex secret (user_signing_string socket_id user_data).

Definition channel_signature (secret socket_id channel : string) (channel_data : option string)
    : string :=
  hmac_sha256_hex secret (channel_signing_string socket_id channel channel_data).

(** ** [auth/channel.rs] and [auth/user.rs] *)

Inductive TokenError : Type := Malformed | KeyMismatch | BadSignature.

Definition TokenError_message (e : TokenError) : string :=
  match e with
  | Malformed => "Bad auth token"
  | KeyMismatch => "Auth key mismatch"
  | BadSignature => "Invalid signature"
  end.

(** The shape both verifiers share, over the expected signature. *)
Definition verify_token (app_key expected token : string) : result unit TokenError :=
  match Str.split_once ":"%char token with
  | None => Err Malformed
  | Some (key, sig) =>
      if negb (bool_decide (key = app_key)) then Err KeyMismatch
      else if constant_time_eq sig expected then Ok tt else Err BadSignature
  end.

Definition channel_verify (app_key app_secret socket_id channel : string)
    (channel_data : option string) (token : string) : result unit TokenError :=
  verify_token app_key (channel_signature app_secret socket_id channel channel_data) token.

Definition user_verify (app_key app_secret socket_id user_data token : string)
    : result unit TokenError :=
  verify_token app_key (user_signature app_secret socket_id user_data) token.

(** ** [auth/rest.rs] *)

Inductive RestAuthError : Type :=
| RMissingParam | RBadVersion | RKeyMismatch | RExpired | RBadBodyMd5 | RBadSignature
| RCaseCollidingParams.

Definition GENERIC_AUTH_FAILURE : string := "invalid authentication".

Fixpoint join (sep : string) (l : list string) : string :=
  match l with
  | [] => EmptyString
  | [s] => s
  | s :: l => s +:+ sep +:+ join sep l
  end.

Definition newline : string := String "010"%char EmptyString.

(** The [BTreeMap] walk: ascending keys. *)
Definition param_le (p q : string * string) : Prop := String.le p.1 q.1.
#[export] Instance param_le_dec p q : Decision (param_le p q) := _.

Definition sorted_params (params : gmap string string) : list (string * string) :=
  merge_sort param_le (map_to_list params).

Definition signing_string (method path : string) (params : gmap string string) : string :=
  let query := join "&" ((λ p, p.1 +:+ "=" +:+ p.2) <$> sorted_params params) in
  to_uppercase method +:+ newline +:+ path +:+ newline +:+ query.

(** Lowercase every key; [None] when two keys differ only by case. *)
Fixpoint lowercase_params (l : list (string * string)) (signed : gmap string string)
    : option (gmap string string) :=
  match l with
  | [] => Some signed
  | (k, v) :: l =>
      match signed !! to_lowercase k with
      | Some _ => None
      | None => lowercase_params l (<[to_lowercase k := v]> signed)
      end
  end.

Definition body_md5_ok (params : gmap string string) (body : string) : bool :=
  if negb (Str.is_empty body) || bool_decide (is_Some (params !! "body_md5")) then
    match params !! "body_md5" with
    | Some m => constant_time_eq m (md5_hex body)
    | None => false
    end
  else true.

Definition rest_verify (app_key app_secret method path : string) (params : gmap string string)
    (body : string) (now window : Z) : result unit RestAuthError :=
  if negb (bool_decide (params !! "auth_version" = Some "1.0")) then Err RBadVersion
  else if negb (constant_time_eq (default EmptyString (params !! "auth_key")) app_key)
  then Err RKeyMismatch
  else
    match params !! "auth_timestamp" ≫= Str.parse_uint U64.MAX with
    | None => Err RMissingParam
    | Some ts =>
        if (window <? U64.abs_diff now ts)%Z then Err RExpired
        else if negb (body_md5_ok params body) then Err RBadBodyMd5
        else
          match params !! "auth_signature" with
          | None => Err RMissingParam
          | Some signature =>
              match lowercase_params (map_to_list params) ∅ with
              | None => Err RCaseCollidingParams
              | Some signed =>
                  let signed := delete "auth_signature" signed in
                  let expected := hmac_sha256_hex app_secret (signing_string method path signed) in
                  if constant_time_eq signature expected then Ok tt else Err RBadSignature
              end
          end
    end.

End with_crypto.

(** ** Constant-time comparison *)

Lemma u8_of_ascii_inj a b : u8_of_ascii a = u8_of_ascii b → a = b.
Proof.
  unfold u8_of_ascii. intros Hab. rewrite <-(ascii_N_embedding a), <-(ascii_N_embedding b).
  f_equal. lia.
Qed.

Lemma ct_diff_zero a b :
  String.length a = String.length b → ct_diff a b = 0%Z ↔ a = b.
Proof.
  revert b. induction a as [|x a IH]; intros [|y b] Hlen; simpl in *; [done..|].
  rewrite Z.lor_eq_0_iff, IH by lia. split.
  - intros [Hx ->]. apply Z.lxor_eq in Hx. apply u8_of_ascii_inj in Hx. by subst.
  - intros [= -> ->]. by rewrite Z.lxor_nilpotent.
Qed.

Lemma constant_time_eq_true a b : constant_time_eq a b = true ↔ a = b.
Proof.
  unfold constant_time_eq. destruct (Nat.eqb_spec (String.length a) (String.length b)); simpl.
  - rewrite Z.eqb_eq. by apply ct_diff_zero.
  - split; [done|]. by intros ->.
Qed.

(** ** Tokens *)

Definition no_colon (s : string) : bool := Str.all (λ a, bool_decide (a ≠ ":"%char)) s.

Lemma no_colon_not_split ch a b : no_colon ch = true → ch ≠ (a +:+ ":" +:+ b).
Proof.
  intros Hc ->. unfold no_colon in Hc. rewrite Str.all_app in Hc.
  simpl in Hc. by rewrite andb_false_r in Hc.
Qed.

(** A token either has no colon or has a key before its first one. *)
Lemma token_cases token :
  no_colon token = true ∨ ∃ key sig, token = (key +:+ ":" +:+ sig) ∧ no_colon key = true.
Proof.
  destruct (Str.split_once ":"%char token) as [[key sig]|] eqn:Hs.
  - apply Str.split_once_Some in Hs as [-> Hk]. right. by exists key, sig.
  - left. by apply Str.split_once_None.
Qed.

Lemma verify_token_malformed app_key expected token :
  no_colon token = true → verify_token app_key expected token = Err Malformed.
Proof.
  intros Hn. unfold verify_token.
  destruct (Str.split_once ":"%char token) as [[key sig]|] eqn:Hs; [|done].
  apply Str.split_once_Some in Hs as [-> Hk]. by eapply no_colon_not_split in Hn.
Qed.

Lemma verify_token_parts app_key expected key sig :
  no_colon key = true →
  verify_token app_key expected (key +:+ ":" +:+ sig) =
  if decide (key = app_key) then if decide (sig = expected) then Ok tt else Err BadSignature
  else Err KeyMismatch.
Proof.
  intros Hk. unfold verify_token.
  change (key +:+ ":" +:+ sig) with (key +:+ String ":" sig).
  rewrite (proj2 (Str.split_once_Some ":"%char _ key sig) (conj eq_refl Hk)).
  case_bool_decide; simpl; (destruct (decide (key = app_key)); [|done]); [|done].
  destruct (constant_time_eq sig expected) eqn:He.
  - apply constant_time_eq_true in He. by rewrite decide_True.
  - rewrite decide_False; [done|]. intros ->.
    rewrite (proj2 (constant_time_eq_true expected expected)) in He; done.
Qed.

(** Every verdict, by the shape of the token. *)
Lemma verify_token_verdicts app_key expected token :
  let verdict := verify_token app_key expected token in
  (verdict = Ok tt ↔ token = (app_key +:+ ":" +:+ expected) ∧ no_colon app_key = true) ∧
  (verdict = Err Malformed ↔ no_colon token = true) ∧
  (verdict = Err KeyMismatch ↔
     ∃ key sig, token = (key +:+ ":" +:+ sig) ∧ no_colon key = true ∧ key ≠ app_key) ∧
  (verdict = Err BadSignature ↔
     ∃ sig, token = (app_key +:+ ":" +:+ sig) ∧ no_colon app_key = true ∧ sig ≠ expected).
Proof.
  intros verdict.
  assert (verdict = verify_token app_key expected token) as Hv by done. clearbody verdict.
  destruct (token_cases token) as [Hn|(key & sig & -> & Hk)].
  - rewrite verify_token_malformed in Hv by done. subst verdict.
    pose proof (no_colon_not_split token) as Hne.
    split_and!; (split; [try done|]); [|done| |].
    + intros [-> _]. by eapply Hne in Hn.
    + intros (k & s & -> & _). by eapply Hne in Hn.
    + intros (s & -> & _). by eapply Hne in Hn.
  - rewrite verify_token_parts in Hv by done.
    split_and!; split.
    + repeat case_decide; subst; done.
    + intros [Heq Hk']. rewrite <-(verify_token_parts app_key expected key sig Hk) in Hv.
      rewrite Heq, verify_token_parts, !decide_True in Hv; done.
    + repeat case_decide; subst; done.
    + intros Hn. by eapply no_colon_not_split in Hn.
    + repeat case_decide; subst; [done..|]. by eauto.
    + intros (k & s & Heq & Hk' & Hne).
      rewrite <-(verify_token_parts app_key expected key sig Hk) in Hv.
      rewrite Heq, verify_token_parts, decide_False in Hv; done.
    + repeat case_decide; subst; [done| |done]. by eauto.
    + intros (s & Heq & Hk' & Hne).
      rewrite <-(verify_token_parts app_key expected key sig Hk) in Hv.
      rewrite Heq, verify_token_parts, decide_True, decide_False in Hv; done.
Qed.

Lemma verify_token_ok app_key expected token :
  verify_token app_key expected token = Ok tt ↔
  token = (app_key +:+ ":" +:+ expected) ∧ no_colon app_key = true.
Proof. apply (verify_token_verdicts app_key expected token). Qed.

(** ** What a token is good for *)

Inductive Credential : Type :=
| PrivateChannel (socket_id channel : string)
| PresenceChannel (socket_id channel channel_data : string)
| UserSignin (socket_id user_data : string).

Definition signed_message (c : Credential) : string :=
  match c with
  | PrivateChannel s ch => channel_signing_string s ch None
  | PresenceChannel s ch d => channel_signing_string s ch (Some d)
  | UserSignin s d => user_signing_string s d
  end.

(** The socket ids and channel names the handler passes to the verifiers. *)
Definition credential_ok (max_len : nat) (c : Credential) : bool :=
  match c with
  | PrivateChannel s ch | PresenceChannel s ch _ =>
      no_colon s && validate_channel_name ch max_len
  | UserSignin s _ => no_colon s
  end.

(** Past the socket id and its colon. *)
Definition after_socket (c : Credential) : string * string :=
  match c with
  | PrivateChannel s ch => (s, ch)
  | PresenceChannel s ch d => (s, ch +:+ ":" +:+ d)
  | UserSignin s d => (s, ":user::" +:+ d)
  end.

Lemma signed_message_split c :
  no_colon (after_socket c).1 = true →
  Str.split_once ":"%char (signed_message c) = Some (after_socket c).
Proof.
  intros Hs. destruct c; apply Str.split_once_Some; (split; [|exact Hs]); reflexivity.
Qed.

Lemma channel_no_colon ch max_len :
  validate_channel_name ch max_len = true → no_colon ch = true.
Proof. apply validate_no_colon. Qed.

Lemma channel_head_not_colon ch max_len t :
  validate_channel_name ch max_len = true → ch ≠ (":" +:+ t).
Proof. intros Hv%channel_no_colon ->. done. Qed.

Lemma signed_message_inj max_len c1 c2 :
  credential_ok max_len c1 = true → credential_ok max_len c2 = true →
  signed_message c1 = signed_message c2 → c1 = c2.
Proof.
  intros H1 H2 Heq.
  assert (∀ c, credential_ok max_len c = true → no_colon (after_socket c).1 = true) as Hs.
  { intros [] Hc; simpl in *; to_prop; done. }
  pose proof (signed_message_split c1 (Hs _ H1)) as E1. rewrite Heq in E1.
  rewrite (signed_message_split c2 (Hs _ H2)) in E1.
  assert (after_socket c1 = after_socket c2) as E by congruence. clear Heq E1 Hs.
  pose proof (f_equal fst E) as Es. apply (f_equal snd) in E.
  destruct c1 as [s1 ch1|s1 ch1 d1|s1 d1], c2 as [s2 ch2|s2 ch2 d2|s2 d2];
    simpl in Es, E, H1, H2; subst s2; to_prop.
  - by subst.
  - by apply no_colon_not_split in E; [|eapply channel_no_colon].
  - by apply (channel_head_not_colon _ max_len) in E.
  - by symmetry in E; apply no_colon_not_split in E; [|eapply channel_no_colon].
  - apply (Str.app_inj_sep ":"%char) in E as [-> ->]; [done|by eapply channel_no_colon..].
  - exfalso. apply (f_equal (Str.split_once ":"%char)) in E.
    rewrite (proj2 (Str.split_once_Some ":"%char _ ch1 d1)) in E
      by (split; [done|by eapply channel_no_colon]).
    simplify_eq/=.
  - symmetry in E. by apply (channel_head_not_colon _ max_len) in E.
  - exfalso. symmetry in E. apply (f_equal (Str.split_once ":"%char)) in E.
    rewrite (proj2 (Str.split_once_Some ":"%char _ ch2 d2)) in E
      by (split; [done|by eapply channel_no_colon]).
    simplify_eq/=.
  - f_equal. by inversion E.
Qed.

(** ** REST verification *)

Section rest.
Context `{Crypto, UnicodeCase}.

Definition lower_key (p : string * string) : string * string := (to_lowercase p.1, p.2).

(** The loop accepts exactly the lists whose lowered keys are distinct and new,
    and then holds the lowered bindings. *)
Lemma lowercase_params_spec l acc r :
  lowercase_params l acc = Some r ↔
  NoDup (lower_key <$> l).*1 ∧ (∀ k, k ∈ (lower_key <$> l).*1 → acc !! k = None) ∧
  r = list_to_map (lower_key <$> l) ∪ acc.
Proof.
  revert acc. induction l as [|[k v] l IH]; intros acc; simpl.
  - rewrite (left_id_L ∅ (∪)). split; [|naive_solver].
    intros [= ->]. split_and!; [constructor|set_solver|done].
  - destruct (acc !! to_lowercase k) as [w|] eqn:Hk.
    { split; [done|]. intros (_ & Hn & _). rewrite Hn in Hk; [done|set_solver]. }
    rewrite IH, NoDup_cons. setoid_rewrite elem_of_cons. split.
    + intros (Hnd & Hacc & ->). assert (to_lowercase k ∉ (lower_key <$> l).*1) as Hnew.
      { intros Hin%Hacc. by rewrite lookup_insert_eq in Hin. }
      split_and!; [done|done| |].
      * intros k' [->|Hin]; [done|]. pose proof (Hacc _ Hin) as Hl.
        by apply lookup_insert_None in Hl as [? _].
      * rewrite <-insert_union_l, insert_union_r; [done|].
        by apply not_elem_of_list_to_map_1.
    + intros ([Hnew Hnd] & Hacc & ->). split_and!; [done| |].
      * intros k' Hin. rewrite lookup_insert_ne; [by apply Hacc; right|]. by intros <-.
      * rewrite <-insert_union_l, insert_union_r; [done|].
        by apply not_elem_of_list_to_map_1.
Qed.

Lemma lowercase_params_perm l l' :
  l ≡ₚ l' → lowercase_params l ∅ = lowercase_params l' ∅.
Proof.
  intros Hp. apply option_eq. intros r. rewrite !lowercase_params_spec.
  assert (lower_key <$> l ≡ₚ lower_key <$> l') as Hk by by rewrite Hp.
  assert (NoDup (lower_key <$> l).*1 →
          list_to_map (M := gmap string string) (lower_key <$> l) =
          list_to_map (lower_key <$> l')) as Hm
    by (intros; by apply list_to_map_proper).
  split; intros (Hnd & Hn & ->); (split_and!; [|intros; apply lookup_empty|]).
  - by rewrite <-Hk.
  - by rewrite Hm.
  - by rewrite Hk.
  - rewrite Hm; [done|]. by rewrite Hk.
Qed.

(** The parameters a request signs, or a case collision. *)
Definition signed_params (params : gmap string string) : option (gmap string string) :=
  delete "auth_signature" <$> lowercase_params (map_to_list params) ∅.

(** Renaming a key to another spelling of the same lowered key signs the same. *)
Lemma signed_params_rename params k k' v :
  params !! k = Some v → params !! k' = None → to_lowercase k' = to_lowercase k →
  signed_params (<[k' := v]> (delete k params)) = signed_params params.
Proof.
  intros Hk Hk' Hlow. unfold signed_params. f_equal.
  destruct (decide (k = k')) as [->|Hne]; [congruence|].
  rewrite (lowercase_params_perm _ ((k', v) :: map_to_list (delete k params)))
    by (apply map_to_list_insert; by rewrite lookup_delete_ne).
  rewrite (lowercase_params_perm (map_to_list params) ((k, v) :: map_to_list (delete k params)))
    by (symmetry; by apply map_to_list_delete).
  simpl. by rewrite Hlow.
Qed.

(** Two spellings of one key are refused. *)
Lemma signed_params_collision params k k' v :
  params !! k = Some v → to_lowercase k' = to_lowercase k → k' ≠ k →
  is_Some (signed_params params) → params !! k' = None.
Proof.
  intros Hk Hlow Hne [r Hr]. destruct (params !! k') as [v'|] eqn:Hk'; [|done]. exfalso.
  unfold signed_params in Hr. apply fmap_Some in Hr as (s & Hs & _).
  apply lowercase_params_spec in Hs as (Hnd & _).
  rewrite <-(map_to_list_delete params k v Hk) in Hnd.
  assert (delete k params !! k' = Some v') as Hd by by rewrite lookup_delete_ne.
  rewrite <-(map_to_list_delete _ k' v' Hd) in Hnd. simpl in Hnd.
  rewrite Hlow in Hnd. apply NoDup_cons_1_1 in Hnd. set_solver.
Qed.

Lemma body_md5_ok_true params body :
  body_md5_ok params body = true ↔
  params !! "body_md5" = Some (md5_hex body) ∨ (body = EmptyString ∧ params !! "body_md5" = None).
Proof.
  unfold body_md5_ok. destruct (params !! "body_md5") as [m|] eqn:Hm.
  - rewrite orb_true_r, constant_time_eq_true. naive_solver.
  - destruct body; simpl; naive_solver.
Qed.

(** What an accepted request is. *)
Lemma rest_verify_ok app_key app_secret method path params body now window :
  rest_verify app_key app_secret method path params body now window = Ok tt ↔
  params !! "auth_version" = Some "1.0" ∧
  default EmptyString (params !! "auth_key") = app_key ∧
  (∃ ts, params !! "auth_timestamp" ≫= Str.parse_uint U64.MAX = Some ts ∧
         (U64.abs_diff now ts <= window)%Z) ∧
  (params !! "body_md5" = Some (md5_hex body) ∨
   (body = EmptyString ∧ params !! "body_md5" = None)) ∧
  ∃ signed, signed_params params = Some signed ∧
    params !! "auth_signature" =
      Some (hmac_sha256_hex app_secret (signing_string method path signed)).
Proof.
  unfold rest_verify. rewrite <-body_md5_ok_true.
  case_bool_decide as Hv; simpl; [|naive_solver].
  destruct (constant_time_eq _ app_key) eqn:Hk; simpl.
  2:{ split; [done|]. intros (_ & Hk' & _). apply constant_time_eq_true in Hk'. congruence. }
  apply constant_time_eq_true in Hk.
  destruct (params !! "auth_timestamp" ≫= _) as [ts|] eqn:Hts; [|naive_solver].
  destruct (Z.ltb_spec window (U64.abs_diff now ts)) as [Hw|Hw]; [naive_solver lia|].
  destruct (body_md5_ok params body) eqn:Hb; simpl; [|naive_solver].
  unfold signed_params.
  destruct (params !! "auth_signature") as [sig|] eqn:Hsig; [|naive_solver].
  destruct (lowercase_params (map_to_list params) ∅) as [s|] eqn:Hl; simpl; [|naive_solver].
  destruct (constant_time_eq sig _) eqn:Hc.
  - apply constant_time_eq_true in Hc as ->. split; [intros _|done].
    split_and!; eauto.
  - split; [done|]. intros (_ & _ & _ & _ & s' & [= <-] & [= Hs]).
    apply constant_time_eq_true in Hs. congruence.
Qed.

End rest.

(** ** Properties *)

Section properties.
Context `{Crypto, UnicodeCase}.

(** A credential is verified by the verifier of its kind. *)
Definition credential_verify (app_key app_secret : string) (c : Credential) (token : string)
    : result unit TokenError :=
  match c with
  | PrivateChannel s ch => channel_verify app_key app_secret s ch None token
  | PresenceChannel s ch d => channel_verify app_key app_secret s ch (Some d) token
  | UserSignin s d => user_verify app_key app_secret s d token
  end.

Lemma credential_verify_token app_key app_secret c token :
  credential_verify app_key app_secret c token =
  verify_token app_key (hmac_sha256_hex app_secret (signed_message c)) token.
Proof. by destruct c. Qed.

(** The verdict on a channel or sign-in token, on every branch: accepted
    exactly when it is the app key, a colon and the HMAC of the message for this
    socket and this channel or user; malformed exactly when it has no colon;
    a key mismatch exactly when the part before the first colon is another key;
    a bad signature otherwise. *)
Theorem token_verdicts app_key app_secret c token :
  let expected := hmac_sha256_hex app_secret (signed_message c) in
  let verdict := credential_verify app_key app_secret c token in
  (verdict = Ok tt ↔ token = (app_key +:+ ":" +:+ expected) ∧ no_colon app_key = true) ∧
  (verdict = Err Malformed ↔ no_colon token = true) ∧
  (verdict = Err KeyMismatch ↔
     ∃ key sig, token = (key +:+ ":" +:+ sig) ∧ no_colon key = true ∧ key ≠ app_key) ∧
  (verdict = Err BadSignature ↔
     ∃ sig, token = (app_key +:+ ":" +:+ sig) ∧ no_colon app_key = true ∧ sig ≠ expected).
Proof. intros expected verdict. unfold verdict. rewrite credential_verify_token. apply verify_token_verdicts. Qed.

(** C37. A token is good for one purpose: when one token is accepted for two
    requests of sockets whose ids have no colon, on channels with valid names,
    the requests are the same socket, the same channel or sign-in and the same
    data, unless the HMAC itself collides on the two messages. *)
Theorem token_binds_request app_key app_secret max_len c1 c2 token :
  credential_ok max_len c1 = true → credential_ok max_len c2 = true →
  credential_verify app_key app_secret c1 token = Ok tt →
  credential_verify app_key app_secret c2 token = Ok tt →
  c1 = c2 ∨
  (signed_message c1 ≠ signed_message c2 ∧
   hmac_sha256_hex app_secret (signed_message c1) =
   hmac_sha256_hex app_secret (signed_message c2)).
Proof.
  rewrite !credential_verify_token, !verify_token_ok. intros Hc1 Hc2 [-> Hk] [Heq _].
  apply (Str.app_inj_sep ":"%char _ _ _ _ Hk Hk) in Heq as [_ Heq].
  destruct (decide (signed_message c1 = signed_message c2)) as [Hm|Hm]; [left|by right].
  by eapply signed_message_inj.
Qed.

(** A signed REST request is accepted exactly when it has version 1.0, the
    app's key, a timestamp within the window, a [body_md5] that is the digest of
    the received body (or neither a body nor the parameter), no two keys that
    differ only by case, and the HMAC of the method, path and lowered sorted
    parameters; and the order in which the parameter map is walked is
    irrelevant. *)
Theorem rest_verify_characterised app_key app_secret method path params body now window :
  (rest_verify app_key app_secret method path params body now window = Ok tt ↔
   params !! "auth_version" = Some "1.0" ∧
   default EmptyString (params !! "auth_key") = app_key ∧
   (∃ ts, params !! "auth_timestamp" ≫= Str.parse_uint U64.MAX = Some ts ∧
          (U64.abs_diff now ts <= window)%Z) ∧
   (params !! "body_md5" = Some (md5_hex body) ∨
    (body = EmptyString ∧ params !! "body_md5" = None)) ∧
   NoDup (to_lowercase <$> (map_to_list params).*1) ∧
   params !! "auth_signature" =
     Some (hmac_sha256_hex app_secret
       (signing_string method path
         (delete "auth_signature" (list_to_map (lower_key <$> map_to_list params)))))) ∧
  (∀ walk, walk ≡ₚ map_to_list params →
     lowercase_params walk ∅ = lowercase_params (map_to_list params) ∅).
Proof.
  split; [|by intros; apply lowercase_params_perm].
  rewrite rest_verify_ok. do 4 f_equiv. unfold signed_params.
  assert (to_lowercase <$> (map_to_list params).*1 = (lower_key <$> map_to_list params).*1)
    as -> by (rewrite <-!list_fmap_compose; done).
  split.
  - intros (s & (s' & Hs & ->)%fmap_Some & ->).
    apply lowercase_params_spec in Hs as (? & _ & ->). by rewrite (right_id_L ∅ (∪)).
  - intros [Hnd ->]. eexists. split; [|done]. apply fmap_Some. eexists. split; [|done].
    apply lowercase_params_spec. split_and!; [done|intros; apply lookup_empty|].
    by rewrite (right_id_L ∅ (∪)).
Qed.

(** The body-stripping guard is case-sensitive while the signature is not:
    any accepted request that carries a [body_md5] is still accepted after the
    parameter is renamed to [Body_md5] and the whole body is dropped. *)
Theorem body_strip_by_rename `{!UnicodeCaseLaws} app_key app_secret method path params body
    now window digest :
  rest_verify app_key app_secret method path params body now window = Ok tt →
  params !! "body_md5" = Some digest →
  rest_verify app_key app_secret method path
    (<["Body_md5" := digest]> (delete "body_md5" params)) EmptyString now window = Ok tt.
Proof.
  rewrite !rest_verify_ok. intros (Hv & Hk & Hts & _ & s & Hs & Hsig) Hd.
  assert (to_lowercase "Body_md5" = to_lowercase "body_md5") as Hlow
    by (rewrite !to_lowercase_ascii; done).
  assert (params !! "Body_md5" = None) as Hn
    by (eapply (signed_params_collision params "body_md5"); [done..|by rewrite Hs]).
  rewrite !(lookup_insert_ne _ "Body_md5") by done. rewrite !(lookup_delete_ne _ "body_md5") by done.
  rewrite lookup_delete_eq. rewrite signed_params_rename by done.
  split_and!; [done|done|done|by right|exists s]. by rewrite lookup_delete_ne.
Qed.

End properties.

(** ** Concrete instances *)

Module AuthDemo.
#[local] Instance crypto : Crypto :=
  {| hmac_sha256_hex s m := s +:+ "/" +:+ m; md5_hex b := "md5-" +:+ b |}.
#[local] Instance case : UnicodeCase :=
  {| to_lowercase := ascii_lowercase; to_uppercase s := s |}.
#[local] Instance case_laws : UnicodeCaseLaws.
Proof. by constructor. Qed.

Definition join_room : Credential := PrivateChannel "1.2" "private-room".

Definition query : gmap string string :=
  <["auth_signature" := "secret/POST" +:+ newline +:+ "/apps/1/events" +:+ newline +:+
      "auth_key=key&auth_timestamp=100&auth_version=1.0&body_md5=md5-hello"]>
  (<["auth_key" := "key"]> (<["auth_timestamp" := "100"]>
  (<["auth_version" := "1.0"]> {["body_md5" := "md5-hello"]}))).
End AuthDemo.

Lemma token_binds_request_witness :
  AuthDemo.join_room = PrivateChannel "1.2" "private-room" ∨
  (signed_message AuthDemo.join_room ≠ signed_message (PrivateChannel "1.2" "private-room") ∧
   (hmac_sha256_hex (Crypto := AuthDemo.crypto) "secret" (signed_message AuthDemo.join_room) =
    hmac_sha256_hex (Crypto := AuthDemo.crypto) "secret"
      (signed_message (PrivateChannel "1.2" "private-room")))).
Proof.
  apply (token_binds_request (H := AuthDemo.crypto) "key" "secret" 164 AuthDemo.join_room
    (PrivateChannel "1.2" "private-room") "key:secret/1.2:private-room"); vm_compute; reflexivity.
Defined.

Lemma body_strip_by_rename_witness :
  rest_verify (H := AuthDemo.crypto) (H0 := AuthDemo.case) "key" "secret" "POST"
    "/apps/1/events" (<["Body_md5" := "md5-hello"]> (delete "body_md5" AuthDemo.query))
    EmptyString 120 600 = Ok tt.
Proof.
  apply (body_strip_by_rename (H := AuthDemo.crypto) (H0 := AuthDemo.case)
    (H1 := AuthDemo.case_laws) "key" "secret" "POST" "/apps/1/events"
    AuthDemo.query "hello" 120 600); vm_compute; reflexivity.
Defined.
