(* ===== verification/App.v ===== *)
(** * Apps: [src/src/app/mod.rs]

    The tenant record, its precomputed webhook gates, its validation, and the
    outcome of a lookup in the app store. *)

From stdpp Require Import pretty.
From S2P Require Import Prelude RustStd Json Protocol Kind Auth.

Definition WEBHOOK_EVENT_TYPES : list string :=
  ["channel_occupied"; "channel_vacated"; "member_added"; "member_removed"; "client_event";
   "cache_miss"; "subscription_count"].

Record WebhookConfig : Type := mkWebhookConfig {
  wc_url : string;
  wc_event_types : list string;
  wc_headers : gmap string string
}.

Record App : Type := mkApp {
  app_name : string;
  app_id : string;
  app_key : string;
  app_secret : string;
  app_enabled : bool;
  client_messages_enabled : bool;
  app_capacity : Z;
  max_backend_events_per_second : option Z;
  max_read_requests_per_second : option Z;
  subscription_count_enabled : bool;
  app_webhooks : list WebhookConfig;
  has_channel_occupied_webhooks : bool;
  has_channel_vacated_webhooks : bool;
  has_member_added_webhooks : bool;
  has_member_removed_webhooks : bool;
  has_client_event_webhooks : bool;
  has_cache_miss_webhooks : bool;
  has_subscription_count_webhooks : bool
}.

Definition any_webhook (webhooks : list WebhookConfig) (name : string) : bool :=
  existsb (λ w, existsb (λ t, bool_decide (t = name)) (wc_event_types w)) webhooks.

Definition recompute_has_flags (a : App) : App :=
  let any := any_webhook (app_webhooks a) in
  mkApp (app_name a) (app_id a) (app_key a) (app_secret a) (app_enabled a)
    (client_messages_enabled a) (app_capacity a) (max_backend_events_per_second a)
    (max_read_requests_per_second a) (subscription_count_enabled a) (app_webhooks a)
    (any "channel_occupied") (any "channel_vacated") (any "member_added")
    (any "member_removed") (any "client_event") (any "cache_miss") (any "subscription_count").

(** [trim().is_empty()]: every character is [White_Space], read off the UTF-8
    bytes. *)
Fixpoint blank (bs : list Z) : bool :=
  match bs with
  | [] => true
  | b :: bs1 =>
      if ((0x09 <=? b) && (b <=? 0x0D) || (b =? 0x20))%Z then blank bs1
      else
        match bs1 with
        | [] => false
        | b1 :: bs2 =>
            if ((b =? 0xC2) && ((b1 =? 0x85) || (b1 =? 0xA0)))%Z then blank bs2
            else
              match bs2 with
              | [] => false
              | b2 :: bs3 =>
                  if ((b =? 0xE1) && (b1 =? 0x9A) && (b2 =? 0x80)
                      || (b =? 0xE2) && (b1 =? 0x80) && (0x80 <=? b2) && (b2 <=? 0x8A)
                      || (b =? 0xE2) && (b1 =? 0x80)
                         && ((b2 =? 0xA8) || (b2 =? 0xA9) || (b2 =? 0xAF))
                      || (b =? 0xE2) && (b1 =? 0x81) && (b2 =? 0x9F)
                      || (b =? 0xE3) && (b1 =? 0x80) && (b2 =? 0x80))%Z
                  then blank bs3 else false
              end
        end
  end.

Definition trim_is_empty (s : string) : bool := blank (as_bytes s).

Definition in_app (a : App) (rest : string) : string := "app '" +:+ app_id a +:+ "'" +:+ rest.

Definition in_webhook (a : App) (i : nat) (rest : string) : string :=
  in_app a (" webhook[" +:+ pretty i +:+ "]: " +:+ rest).

Fixpoint validate_types (a : App) (i : nat) (types : list string) : result unit string :=
  match types with
  | [] => Ok tt
  | t :: types =>
      if decide (t ∈ WEBHOOK_EVENT_TYPES) then validate_types a i types
      else Err (in_webhook a i ("unknown event_type '" +:+ t +:+ "'"))
  end.

Fixpoint validate_webhooks (a : App) (i : nat) (ws : list WebhookConfig) : result unit string :=
  match ws with
  | [] => Ok tt
  | w :: ws =>
      if trim_is_empty (wc_url w) then Err (in_webhook a i "url is empty")
      else if bool_decide (wc_event_types w = [])
      then Err (in_webhook a i "event_types must be non-empty")
      else
        match validate_types a i (wc_event_types w) with
        | Err e => Err e
        | Ok _ => validate_webhooks a (S i) ws
        end
  end.

Definition validate (a : App) : result unit string :=
  if trim_is_empty (app_id a) then Err (in_app a ": id is empty")
  else if trim_is_empty (app_key a) then Err (in_app a ": key is empty")
  else if negb (no_colon (app_key a))
  then Err (in_app a (": key must not contain ':' — the channel-auth and " +:+
    "pusher:signin tokens are '<key>:<signature>' and split at the " +:+
    "first colon, so such a key fails every websocket auth"))
  else if trim_is_empty (app_secret a) then Err (in_app a ": secret is empty")
  else validate_webhooks a 0 (app_webhooks a).

Inductive AppLookupError : Type := Backend (m : string) | Decode (m : string).

Definition AppLookupError_display (e : AppLookupError) : string :=
  match e with
  | Backend m => "app store backend error: " +:+ m
  | Decode m => "app row decode error: " +:+ m
  end.

Inductive AppLookup : Type := Found (a : App) | Disabled | NotFound.

Definition into_enabled (l : AppLookup) : option App :=
  match l with Found a => Some a | Disabled | NotFound => None end.

Definition AppLookup_from (v : option App) : AppLookup :=
  match v with Some a => Found a | None => NotFound end.

(** ** Lemmas *)

Lemma validate_types_ok a i types :
  validate_types a i types = Ok tt ↔ Forall (λ t, t ∈ WEBHOOK_EVENT_TYPES) types.
Proof.
  induction types as [|t types IH]; simpl; [split; constructor|].
  rewrite Forall_cons. case_decide; [rewrite IH; tauto|]. split; [done|tauto].
Qed.

Definition webhook_ok (w : WebhookConfig) : Prop :=
  trim_is_empty (wc_url w) = false ∧ wc_event_types w ≠ [] ∧
  Forall (λ t, t ∈ WEBHOOK_EVENT_TYPES) (wc_event_types w).

Lemma validate_webhooks_ok a i ws :
  validate_webhooks a i ws = Ok tt ↔ Forall webhook_ok ws.
Proof.
  revert i. induction ws as [|w ws IH]; intros i; simpl; [split; constructor|].
  rewrite Forall_cons. unfold webhook_ok.
  destruct (trim_is_empty (wc_url w)); [split; [done|naive_solver]|].
  case_bool_decide; [split; [done|naive_solver]|].
  rewrite <-(validate_types_ok a i).
  destruct (validate_types a i (wc_event_types w)) as [[]|e]; [rewrite IH; tauto|].
  split; [done|]. by intros [(_ & _ & ?) _].
Qed.

Lemma existsb_bool_decide (l : list string) (x : string) :
  existsb (λ t, bool_decide (t = x)) l = true ↔ x ∈ l.
Proof.
  induction l as [|y l IH]; simpl; [split; [done|set_solver]|].
  rewrite orb_true_iff, bool_decide_eq_true, IH. set_solver.
Qed.

Lemma any_webhook_true ws name :
  any_webhook ws name = true ↔ ∃ w, w ∈ ws ∧ name ∈ wc_event_types w.
Proof.
  unfold any_webhook. induction ws as [|w ws IH]; simpl; [split; [done|set_solver]|].
  rewrite orb_true_iff, existsb_bool_decide, IH. set_solver.
Qed.

(** ** Properties *)

(** What validation guarantees: an app is valid exactly when its id, key and
    secret are not blank, its key has no colon and every webhook has a URL and at
    least one event type, all known; and a valid app accepts every channel and
    sign-in token correctly signed with its secret. *)
Theorem valid_app_tokens `{Crypto} (a : App) :
  (validate a = Ok tt ↔
   trim_is_empty (app_id a) = false ∧ trim_is_empty (app_key a) = false ∧
   no_colon (app_key a) = true ∧ trim_is_empty (app_secret a) = false ∧
   Forall webhook_ok (app_webhooks a)) ∧
  (validate a = Ok tt → ∀ c,
   credential_verify (app_key a) (app_secret a) c
     (app_key a +:+ ":" +:+ hmac_sha256_hex (app_secret a) (signed_message c)) = Ok tt).
Proof.
  assert (validate a = Ok tt ↔
   trim_is_empty (app_id a) = false ∧ trim_is_empty (app_key a) = false ∧
   no_colon (app_key a) = true ∧ trim_is_empty (app_secret a) = false ∧
   Forall webhook_ok (app_webhooks a)) as Hv.
  { unfold validate. rewrite <-(validate_webhooks_ok a 0).
    destruct (trim_is_empty (app_id a)); [split; [done|naive_solver]|].
    destruct (trim_is_empty (app_key a)); [split; [done|naive_solver]|].
    destruct (no_colon (app_key a)); simpl; [|split; [done|naive_solver]].
    destruct (trim_is_empty (app_secret a)); [split; [done|naive_solver]|]. tauto. }
  split; [done|]. intros (_ & _ & Hk & _)%Hv c.
  rewrite credential_verify_token. by apply verify_token_ok.
Qed.

(** Each gate the hot path reads is true exactly when some configured
    endpoint subscribes to that event; recomputing changes nothing else and is
    idempotent. *)
Theorem has_flags_exact (a : App) :
  let a' := recompute_has_flags a in
  let wants name := ∃ w, w ∈ app_webhooks a ∧ name ∈ wc_event_types w in
  (has_channel_occupied_webhooks a' = true ↔ wants "channel_occupied") ∧
  (has_channel_vacated_webhooks a' = true ↔ wants "channel_vacated") ∧
  (has_member_added_webhooks a' = true ↔ wants "member_added") ∧
  (has_member_removed_webhooks a' = true ↔ wants "member_removed") ∧
  (has_client_event_webhooks a' = true ↔ wants "client_event") ∧
  (has_cache_miss_webhooks a' = true ↔ wants "cache_miss") ∧
  (has_subscription_count_webhooks a' = true ↔ wants "subscription_count") ∧
  validate a' = validate a ∧ recompute_has_flags a' = a'.
Proof.
  intros a' wants. unfold wants.
  split_and!; [apply any_webhook_true..| |done].
  unfold a', recompute_has_flags, validate. simpl.
  assert (∀ ws i, validate_webhooks a' i ws = validate_webhooks a i ws) as Hw.
  { induction ws as [|w ws IH]; intros i; simpl; [done|]. rewrite IH.
    assert (validate_types a' i (wc_event_types w) = validate_types a i (wc_event_types w)) as ->;
      [|done].
    induction (wc_event_types w) as [|t l IHl]; simpl; [done|]. by case_decide. }
  unfold a', recompute_has_flags in Hw. by rewrite Hw.
Qed.
