(* ===== verification/Webhook.v ===== *)
(** * Webhook triggers: [src/src/webhook/event.rs] and [src/src/webhook/mod.rs]

    The seven triggers with their JSON form, and the enqueue handle over the
    dispatcher's bounded mailbox with its counters. *)

From S2P Require Import Prelude RustStd Json.

Module Hook.
Inductive WebhookEvent : Type :=
| ChannelOccupied (app channel : string)
| ChannelVacated (app channel : string)
| MemberAdded (app channel user_id : string)
| MemberRemoved (app channel user_id : string)
| ClientEvent (app channel event : string) (data : Value) (socket_id : string)
    (user_id : option string)
| CacheMiss (app channel : string)
| SubscriptionCount (app channel : string) (count : nat).
End Hook.
Abbreviation WebhookEvent := Hook.WebhookEvent.

Definition event_app (e : WebhookEvent) : string :=
  match e with
  | Hook.ChannelOccupied app _ | Hook.ChannelVacated app _ | Hook.MemberAdded app _ _
  | Hook.MemberRemoved app _ _ | Hook.ClientEvent app _ _ _ _ _ | Hook.CacheMiss app _
  | Hook.SubscriptionCount app _ _ => app
  end.

Definition event_name (e : WebhookEvent) : string :=
  match e with
  | Hook.ChannelOccupied _ _ => "channel_occupied"
  | Hook.ChannelVacated _ _ => "channel_vacated"
  | Hook.MemberAdded _ _ _ => "member_added"
  | Hook.MemberRemoved _ _ _ => "member_removed"
  | Hook.ClientEvent _ _ _ _ _ _ => "client_event"
  | Hook.CacheMiss _ _ => "cache_miss"
  | Hook.SubscriptionCount _ _ _ => "subscription_count"
  end.

(** Objects are built by insertion, in the order of the code. *)
Definition json_object (fields : list (string * Value)) : Value :=
  JObject (foldl (λ m f, map_insert f.1 f.2 m) [] fields).

Definition to_json `{SerdeJson} (e : WebhookEvent) : Value :=
  match e with
  | Hook.ChannelOccupied _ channel =>
      json_object [("name", JString "channel_occupied"); ("channel", JString channel)]
  | Hook.ChannelVacated _ channel =>
      json_object [("name", JString "channel_vacated"); ("channel", JString channel)]
  | Hook.MemberAdded _ channel user_id =>
      json_object [("name", JString "member_added"); ("channel", JString channel);
                   ("user_id", JString user_id)]
  | Hook.MemberRemoved _ channel user_id =>
      json_object [("name", JString "member_removed"); ("channel", JString channel);
                   ("user_id", JString user_id)]
  | Hook.ClientEvent _ channel event data socket_id user_id =>
      let data_text := match data with JString t => t | v => to_string v end in
      json_object ([("name", JString "client_event"); ("channel", JString channel);
                    ("event", JString event); ("data", JString data_text);
                    ("socket_id", JString socket_id)] ++
                   match user_id with Some uid => [("user_id", JString uid)] | None => [] end)
  | Hook.CacheMiss _ channel =>
      json_object [("name", JString "cache_miss"); ("channel", JString channel)]
  | Hook.SubscriptionCount _ channel count =>
      json_object [("name", JString "subscription_count"); ("channel", JString channel);
                   ("subscription_count", json_uint (Z.of_nat count))]
  end.

(** ** The enqueue handle *)

(** The mailbox shared with the dispatcher, and the metrics. *)
Record WebhookHandle : Type := mkWebhookHandle {
  wh_queue : list WebhookEvent;
  wh_closed : bool;
  wh_enqueued : Z;
  wh_dropped : Z;
  wh_max_capacity : nat
}.

Definition queue_depth (w : WebhookHandle) : Z :=
  Z.of_nat (wh_max_capacity w - (wh_max_capacity w - length (wh_queue w))).

Definition enqueue (event : WebhookEvent) (w : WebhookHandle) : WebhookHandle :=
  if wh_closed w || (wh_max_capacity w <=? length (wh_queue w)) then
    mkWebhookHandle (wh_queue w) (wh_closed w) (wh_enqueued w)
      ((wh_dropped w + 1) mod 2 ^ 64)%Z (wh_max_capacity w)
  else
    mkWebhookHandle (wh_queue w ++ [event]) (wh_closed w)
      ((wh_enqueued w + 1) mod 2 ^ 64)%Z (wh_dropped w) (wh_max_capacity w).
