(* ===== verification/ClusterNode.v ===== *)
(** * A node of the cluster: the Redis side of
    [src/src/adapter/redis/mod.rs], [presence.rs], [user.rs], [pubsub.rs]

    The state a node's [RedisAdapter] works on: its local adapter, the shared
    objects of the node, the pub/sub subscriptions of its client, and the Redis
    server it shares with the other nodes. Operations thread this state; before
    every network call the other nodes take a turn at the server, and the call
    meets its fate. *)

From S2P Require Import Prelude RustStd Json RedisStore RedisKeys RedisScripts Envelope.
From S2P Require Import Protocol Kind Fanout Mailbox ChannelState Registry UserRegistry Adapter.
From S2P Require Import Webhook.

(** ** Configuration *)

Record RedisConfig : Type := mkRedisConfig {
  membership_ttl_secs : Z;
  presence_heartbeat_secs : Z;
  node_heartbeat_secs : Z;
  sweep_interval_secs : Z;
  webhook_vacated_grace_ms : Z;
  sharded_pubsub : bool;
  envelope_compat : bool
}.

Definition node_conns_ttl_secs (c : RedisConfig) : Z :=
  4 * Z.max (node_heartbeat_secs c) 1 + 4 * Z.max (sweep_interval_secs c) 1 + 5.

Definition occ_ttl_secs (c : RedisConfig) : Z :=
  membership_ttl_secs c + 4 * Z.max (sweep_interval_secs c) 1 + 5.

(** The sweeper's lease and the node's liveness key. *)
Definition lease_ms (c : RedisConfig) : Z :=
  Z.max (Z.max (sweep_interval_secs c) 1 * 1000 * 3) 5000.

Definition node_ttl_secs (c : RedisConfig) : Z := 3 * Z.max (node_heartbeat_secs c) 1.

(** What identifies an adapter. *)
Record RedisAdapter : Type := mkRedisAdapter {
  ra_prefix : string;
  ra_node_id : string;
  ra_cfg : RedisConfig
}.

(** A payload published on a pub/sub channel of one of the two namespaces. *)
Record Publication : Type := mkPublication {
  pub_sharded : bool;
  pub_channel : string;
  pub_payload : string
}.

(** What happens at a network call: what the rest of the cluster does to the
    server before it, and whether it is answered. *)
Record Turn (R : Type) : Type := mkTurn { tn_others : R → R; tn_fate : Fate }.
Arguments mkTurn {R}.
Arguments tn_others {R}.
Arguments tn_fate {R}.

(** [ClusterMetrics] of [src/src/cluster/bridge.rs]. *)
Record ClusterMetrics : Type := mkClusterMetrics {
  cmd_dropped : Z;
  publish_failed : Z;
  redis_connected : bool
}.

Definition ClusterMetrics_new : ClusterMetrics := mkClusterMetrics 0 0 false.

(** ** The state of a node *)

Record Node `{Moka} (R : Type) : Type := mkNode {
  nd_local : LocalAdapter;
  nd_env : Env;
  nd_tracked : gset (bool * string);
  nd_hooks : WebhookHandle;
  nd_metrics : ClusterMetrics;
  nd_redis : R;
  nd_wire : list Publication;
  nd_turns : list (Turn R);
  nd_now_ms : Z
}.
Arguments mkNode {_ R}.
Arguments nd_local {_ R}.
Arguments nd_env {_ R}.
Arguments nd_tracked {_ R}.
Arguments nd_hooks {_ R}.
Arguments nd_metrics {_ R}.
Arguments nd_redis {_ R}.
Arguments nd_wire {_ R}.
Arguments nd_turns {_ R}.
Arguments nd_now_ms {_ R}.

Definition Op `{Moka} (R A : Type) : Type := Node R → A * Node R.

Definition oret `{Moka} {R A} (a : A) : Op R A := λ n, (a, n).
Definition obind `{Moka} {R A B} (m : Op R A) (f : A → Op R B) : Op R B := λ n,
  let '(a, n) := m n in f a n.

Declare Scope node_scope.
Delimit Scope node_scope with node.
Notation "x <~ m ;; k" := (obind m (λ x, k))
  (at level 100, m at next level, right associativity) : node_scope.
Notation "m ;~ k" := (obind m (λ _, k)) (at level 100, right associativity) : node_scope.

Fixpoint ofor `{Moka} {R A} (l : list A) (f : A → Op R unit) : Op R unit :=
  match l with
  | [] => oret tt
  | x :: l => obind (f x) (λ _, ofor l f)
  end.

(** The texts of the client library's errors. *)
Class NetErrors : Type := { publish_error : string; utf8_error : string }.

(** ** Network *)

Section net.
Context `{SerdeJson, Moka, !Redis R, !Lua, !SerdeStruct, !Base64}.
#[local] Open Scope node_scope.

(** Once the list is used up, the node is alone and its calls are answered. *)
Definition next_turn : Op R Fate := λ n,
  match nd_turns n with
  | [] => (Answered, n)
  | t :: ts =>
      (tn_fate t, mkNode (nd_local n) (nd_env n) (nd_tracked n) (nd_hooks n) (nd_metrics n)
                    (tn_others t (nd_redis n)) (nd_wire n) ts (nd_now_ms n))
  end.

Definition set_redis (r : R) (n : Node R) : Node R :=
  mkNode (nd_local n) (nd_env n) (nd_tracked n) (nd_hooks n) (nd_metrics n) r (nd_wire n) (nd_turns n) (nd_now_ms n).
Definition set_tracked (t : gset (bool * string)) (n : Node R) : Node R :=
  mkNode (nd_local n) (nd_env n) t (nd_hooks n) (nd_metrics n) (nd_redis n) (nd_wire n) (nd_turns n) (nd_now_ms n).
Definition set_wire (w : list Publication) (n : Node R) : Node R :=
  mkNode (nd_local n) (nd_env n) (nd_tracked n) (nd_hooks n) (nd_metrics n) (nd_redis n) w (nd_turns n) (nd_now_ms n).
Definition set_hooks (w : WebhookHandle) (n : Node R) : Node R :=
  mkNode (nd_local n) (nd_env n) (nd_tracked n) w (nd_metrics n) (nd_redis n) (nd_wire n) (nd_turns n) (nd_now_ms n).
Definition set_local (w : LocalAdapter * Env) (n : Node R) : Node R :=
  mkNode w.1 w.2 (nd_tracked n) (nd_hooks n) (nd_metrics n) (nd_redis n) (nd_wire n) (nd_turns n) (nd_now_ms n).

Definition set_metrics (m : ClusterMetrics) (n : Node R) : Node R :=
  mkNode (nd_local n) (nd_env n) (nd_tracked n) (nd_hooks n) m (nd_redis n) (nd_wire n) (nd_turns n)
    (nd_now_ms n).

(** A command or a script, as a network call. *)
Definition remote {A} (m : Script R A) : Op R (option A) :=
  f <~ next_turn ;;
  λ n, let '(a, r) := call f m (nd_redis n) in (a, set_redis r n).

(** An operation of the local adapter. *)
Definition on_local {A} (f : LocalAdapter * Env → LocalAdapter * Env * A) : Op R A := λ n,
  let '(w, a) := f (nd_local n, nd_env n) in (a, set_local w n).
Definition on_local_ (f : LocalAdapter * Env → LocalAdapter * Env) : Op R unit := λ n,
  (tt, set_local (f (nd_local n, nd_env n)) n).
Definition ask_local {A} (f : LocalAdapter * Env → A) : Op R A := λ n, (f (nd_local n, nd_env n), n).

Definition now_ms : Op R Z := λ n, (nd_now_ms n, n).
Definition hook (event : WebhookEvent) : Op R unit := λ n, (tt, set_hooks (enqueue event (nd_hooks n)) n).

(** [PUBLISH] or [SPUBLISH]: whether it was acknowledged. *)
Definition publish_channel (channel payload : string) (sharded : bool) : Op R bool :=
  f <~ next_turn ;;
  λ n,
    let sent := set_wire (nd_wire n ++ [mkPublication sharded channel payload]) n in
    match f with
    | Answered => (true, sent)
    | NotSent => (false, n)
    | ReplyLost => (false, sent)
    end.

(** [SUBSCRIBE] or [SSUBSCRIBE] on the node's subscriber client, and back. *)
Definition sub_channel (channel : string) (sharded : bool) : Op R bool :=
  f <~ next_turn ;;
  λ n, match f with
       | Answered => (true, set_tracked (nd_tracked n ∪ {[(sharded, channel)]}) n)
       | _ => (false, n)
       end.

Definition unsub_channel (channel : string) (sharded : bool) : Op R bool :=
  f <~ next_turn ;;
  λ n, match f with
       | Answered => (true, set_tracked (nd_tracked n ∖ {[(sharded, channel)]}) n)
       | _ => (false, n)
       end.
End net.

(** ** [presence.rs] *)

Section presence.
Context `{SerdeJson, Moka, !Redis R, !Lua, !SerdeStruct, !Base64} (ra : RedisAdapter).
#[local] Open Scope node_scope.
#[local] Abbreviation p := (ra_prefix ra).

(** An [anyhow::Result]: [None] is the error. *)
Definition obind_ok {A B} (m : Op R (option A)) (f : A → Op R (option B)) : Op R (option B) :=
  a <~ m ;; match a with Some a => f a | None => oret None end.

Definition presence_roster (app channel : string) : Op R (option PresencePayload) :=
  obind_ok (remote (HGETALL (Keys.presinfo p app channel))) (λ entries,
    let m : gmap string string := list_to_map (reverse entries) in
    let ids := (btree_iter m).*1 in
    let hash := (λ q, (q.1, default JNull (from_str q.2))) <$> btree_iter m in
    oret (Some (mkPresencePayload ids hash (length ids)))).

Definition presence_join (app channel : string) (member : PresenceMember) (socket_id : SocketId)
    (max_members : option Z) : Op R (option (option (bool * PresencePayload))) :=
  let token := member_token (ra_node_id ra) (SocketId.as_str socket_id) in
  let info := to_string (pm_user_info member) in
  let cap := match max_members with Some n => Z.min n I64_MAX | None => (-1)%Z end in
  obind_ok
    (remote (PRESENCE_JOIN_LUA (Keys.presusers p app channel) (Keys.presinfo p app channel)
               (Keys.presmembers p app channel) (Keys.presseats p app channel)
               (pm_user_id member) info token (dec cap))) (λ conn,
    if (conn <? 0)%Z then oret (Some None)
    else obind_ok (presence_roster app channel) (λ roster,
      oret (Some (Some ((conn =? 1)%Z, roster))))).

Definition presence_leave (app channel user_id : string) (socket_id : SocketId) : Op R (option bool) :=
  let token := member_token (ra_node_id ra) (SocketId.as_str socket_id) in
  obind_ok
    (remote (PRESENCE_LEAVE_LUA (Keys.presusers p app channel) (Keys.presinfo p app channel)
               (Keys.presmembers p app channel) (Keys.presseats p app channel) user_id token)) (λ conn,
    oret (Some (conn =? 0)%Z)).

Definition is_presence (channel : string) : bool := Str.starts_with "presence-" channel.

Definition member_le (a b : PresenceMember) : Prop := String.le (pm_user_id a) (pm_user_id b).
#[export] Instance member_le_dec a b : Decision (member_le a b) := _.

Definition presence_members_of (app channel : string) : Op R (option (list PresenceMember)) :=
  obind_ok (remote (HGETALL (Keys.presinfo p app channel))) (λ entries,
    oret (Some (merge_sort member_le
      ((λ q, mkPresenceMember q.1 (default JNull (from_str q.2))) <$> entries)))).

Definition presence_user_count (app channel : string) : Op R (option nat) :=
  obind_ok (remote (HLEN (Keys.presusers p app channel))) (λ n,
    oret (Some (Z.to_nat (Z.max n 0)))).

Definition NO_ORIGIN_NODE : string := "".

(** [String::from_utf8] of an encoded envelope. *)
Definition payload_of (e : Envelope) : option string :=
  let text := encode_with e (envelope_compat (ra_cfg ra)) in
  if utf8_valid (as_bytes text) then Some text else None.

Definition emit_member_removed (app channel user_id : string) : Op R unit :=
  let frame := wire_encode_first (MemberRemoved channel user_id) in
  let env := mkEnvelope NO_ORIGIN_NODE app Broadcast channel (JString frame) None
               (Some (encode_frame_b64 frame)) in
  match payload_of env with
  | Some payload => publish_channel (Keys.msg p app channel) payload (sharded_pubsub (ra_cfg ra)) ;~ oret tt
  | None => oret tt
  end ;~
  hook (Hook.MemberRemoved app channel user_id).

Definition reap_member (app channel token : string) : Op R unit :=
  v <~ remote (REAP_MEMBER_LUA (Keys.presusers p app channel) (Keys.presinfo p app channel)
                 (Keys.presmembers p app channel) (Keys.presseats p app channel) token) ;;
  match v with
  | Some (user_id, _, won) =>
      if (won =? 1)%Z then emit_member_removed app channel user_id else oret tt
  | None => oret tt
  end.

Definition emit_drained_members (app channel : string) (users : list string) : Op R unit :=
  ofor users (emit_member_removed app channel).
End presence.

(** ** [user.rs] *)

Section user.
Context `{SerdeJson, Moka, !Redis R, !Lua, !SerdeStruct, !Base64} (ra : RedisAdapter).
#[local] Open Scope node_scope.
#[local] Abbreviation p := (ra_prefix ra).

Definition user_signin (app user_id : string) (socket_id : SocketId) (ttl_secs : Z)
    : Op R (option bool) :=
  let token := member_token (ra_node_id ra) (SocketId.as_str socket_id) in
  now <~ now_ms ;;
  obind_ok
    (remote (MEMBERSHIP_JOIN_LUA (Keys.usr p app user_id) (Keys.users p app) token
               (dec (now + ttl_secs * 1000)) ttl_secs user_id)) (λ conn,
    oret (Some (conn =? 1)%Z)).

Definition user_signout (app user_id : string) (socket_id : SocketId) : Op R (option bool) :=
  let token := member_token (ra_node_id ra) (SocketId.as_str socket_id) in
  obind_ok (remote (USER_SIGNOUT_LUA (Keys.usr p app user_id) (Keys.users p app) token user_id)) (λ conn,
    oret (Some (conn =? 0)%Z)).

Definition user_is_online (app user_id : string) : Op R (option bool) :=
  obind_ok (remote (HLEN (Keys.usr p app user_id))) (λ n, oret (Some (0 <? n)%Z)).

Definition user_publish (channel node_id app user_id : string) (kind : EnvelopeKind) (frame : Value)
    : Op R unit :=
  let env := mkEnvelope node_id app kind user_id frame None (encode_frame_b64 <$> as_str frame) in
  match payload_of ra env with
  | Some payload => publish_channel channel payload (sharded_pubsub (ra_cfg ra)) ;~ oret tt
  | None => oret tt
  end.

Definition reap_user (app user_id : string) (now : Z) : Op R unit :=
  v <~ remote (USER_REAP_LUA (Keys.usr p app user_id) (Keys.users p app) (dec now) user_id) ;;
  match v with
  | Some (won, dead_node) =>
      if (won =? 1)%Z then
        user_publish (Keys.watch p app user_id) dead_node app user_id WatchOffline JNull
      else oret tt
  | None => oret tt
  end.
End user.

(** ** The cluster half of the operations *)

Section cluster.
Context `{SerdeJson, Moka, !Redis R, !Lua, !SerdeStruct, !Base64, !NetErrors} (ra : RedisAdapter).
#[local] Open Scope node_scope.
#[local] Abbreviation p := (ra_prefix ra).
#[local] Abbreviation cfg := (ra_cfg ra).

Definition cluster_sub_channel (app channel : string) : Op R unit :=
  sub_channel (Keys.msg p app channel) (sharded_pubsub cfg) ;~ oret tt.

Definition cluster_unsub_channel (app channel : string) : Op R unit :=
  unsub_channel (Keys.msg p app channel) (sharded_pubsub cfg) ;~ oret tt.

Definition has_local_subscribers (app channel : string) : Op R bool :=
  ask_local (λ w, 0 <? cs_subscription_count (ad_channel app channel w)).

Definition cluster_membership_join (app channel : string) (socket_id : SocketId)
    : Op R (nat * bool) :=
  let token := member_token (ra_node_id ra) (SocketId.as_str socket_id) in
  now <~ now_ms ;;
  c <~ remote (MEMBERSHIP_JOIN_LUA (Keys.occ p app channel) (Keys.chans p app) token
                 (dec (now + membership_ttl_secs cfg * 1000)) (occ_ttl_secs cfg) channel) ;;
  let out := match c with Some c => (Z.to_nat c, (c =? 1)%Z) | None => (0, false) end in
  remote (SADD (Keys.apps p) [app]) ;~
  oret out.

Definition cluster_subscribe (app channel : string) (socket_id : SocketId) (node_first : bool)
    : Op R (nat * bool) :=
  (if node_first then cluster_sub_channel app channel else oret tt) ;~
  cluster_membership_join app channel socket_id.

Definition cluster_unsubscribe (app channel : string) (socket_id : SocketId) (node_last : bool)
    : Op R (nat * bool) :=
  (if node_last then
     busy <~ has_local_subscribers app channel ;;
     if (busy : bool) then oret tt else cluster_unsub_channel app channel
   else oret tt) ;~
  let token := member_token (ra_node_id ra) (SocketId.as_str socket_id) in
  a <~ remote (UNSUBSCRIBE_LUA (Keys.occ p app channel) (Keys.chans p app) token channel) ;;
  oret match a with Some (count, won) => (Z.to_nat count, (won =? 1)%Z) | None => (0, false) end.

Definition cluster_presence_join (app channel : string) (member : PresenceMember)
    (socket_id : SocketId) (max_members : option Z)
    : Op R (option (option (bool * PresencePayload))) :=
  presence_join ra app channel member socket_id max_members.

Definition cluster_presence_leave (app channel user_id : string) (socket_id : SocketId)
    : Op R (option bool) :=
  presence_leave ra app channel user_id socket_id.

Definition cluster_signin (app user_id : string) (socket_id : SocketId) (node_first : bool)
    : Op R bool :=
  (if node_first then sub_channel (Keys.usermsg p app user_id) (sharded_pubsub cfg) ;~ oret tt
   else oret tt) ;~
  remote (SADD (Keys.apps p) [app]) ;~
  a <~ user_signin ra app user_id socket_id (membership_ttl_secs cfg) ;;
  match a with
  | Some first =>
      (if (first : bool) then
         user_publish ra (Keys.watch p app user_id) (ra_node_id ra) app user_id WatchOnline JNull
       else oret tt) ;~
      oret first
  | None => oret node_first
  end.

Definition cluster_signout (app user_id : string) (socket_id : SocketId) (node_last : bool)
    : Op R bool :=
  (if node_last then
     online <~ ask_local (ad_is_user_online app user_id) ;;
     if (online : bool) then oret tt
     else unsub_channel (Keys.usermsg p app user_id) (sharded_pubsub cfg) ;~ oret tt
   else oret tt) ;~
  a <~ user_signout ra app user_id socket_id ;;
  match a with
  | Some last =>
      (if (last : bool) then
         user_publish ra (Keys.watch p app user_id) (ra_node_id ra) app user_id WatchOffline JNull
       else oret tt) ;~
      oret last
  | None => oret node_last
  end.

Fixpoint online_of (app : string) (watched : list string) : Op R (list string) :=
  match watched with
  | [] => oret []
  | u :: watched =>
      b <~ user_is_online ra app u ;;
      on <~ match b with Some b => oret b | None => ask_local (ad_is_user_online app u) end ;;
      rest <~ online_of app watched ;;
      oret (if (on : bool) then u :: rest else rest)
  end.

Definition cluster_watch (app : string) (watched newly_watched : list string) : Op R (list string) :=
  ofor newly_watched (λ u, sub_channel (Keys.watch p app u) (sharded_pubsub cfg) ;~ oret tt) ;~
  online_of app watched.

Definition cluster_unwatch (app : string) (no_longer_watched : list string) : Op R unit :=
  ofor no_longer_watched (λ u, unsub_channel (Keys.watch p app u) (sharded_pubsub cfg) ;~ oret tt).

Definition cluster_admit_app (app : string) (capacity : Z) : Op R (option bool) :=
  a <~ remote (ADMIT_APP_LUA (Keys.appconns p) (Keys.nodeconns p (ra_node_id ra)) app (dec capacity)
                 (node_conns_ttl_secs cfg)) ;;
  oret match a with Some a => Some (a =? 1)%Z | None => None end.

Definition cluster_release_app (app : string) : Op R unit :=
  remote (RELEASE_APP_LUA (Keys.appconns p) (Keys.nodeconns p (ra_node_id ra)) app) ;~ oret tt.

Definition cluster_publish_broadcast (app channel frame : string) (except : option SocketId)
    : Op R (result unit BroadcastError) :=
  let env := mkEnvelope (ra_node_id ra) app Broadcast channel (JString frame)
               (SocketId.as_str <$> except) (Some (encode_frame_b64 frame)) in
  match payload_of ra env with
  | None => oret (Err (Publish utf8_error))
  | Some payload =>
      ok <~ publish_channel (Keys.msg p app channel) payload (sharded_pubsub cfg) ;;
      oret (if (ok : bool) then Ok tt else Err (Publish publish_error))
  end.
End cluster.
