(* ===== verification/RedisAdapter.v ===== *)
(** * The Redis adapter: [src/src/adapter/redis/mod.rs] and [pubsub.rs]

    The trait methods of [RedisAdapter] over the state of a node, the receive
    loop that delivers what other nodes published, the membership reconciler
    and the node heartbeat. *)

From S2P Require Import Prelude RustStd Json RedisStore RedisKeys RedisScripts Envelope.
From S2P Require Import Protocol Kind Fanout Mailbox ChannelState Registry UserRegistry Adapter.
From S2P Require Import Webhook ClusterNode.

Section adapter.
Context `{SerdeJson, Moka, !Redis R, !Lua, !SerdeStruct, !Base64, !NetErrors} (ra : RedisAdapter).
#[local] Open Scope node_scope.
#[local] Abbreviation p := (ra_prefix ra).
#[local] Abbreviation cfg := (ra_cfg ra).

(** ** The trait methods *)

Definition redis_subscribe (app channel : string) (h : ConnectionHandle)
    (member : option PresenceMember) : Op R SubscribeOutcome :=
  let socket_id := ch_socket_id h in
  out <~ on_local (ad_subscribe app channel h member) ;;
  let node_first := so_subscription_count out =? 1 in
  a <~ cluster_subscribe ra app channel socket_id node_first ;;
  let out := if 0 <? a.1 then mkSubscribeOutcome a.1 (so_presence out) a.2 else out in
  match so_presence out with
  | None => oret out
  | Some join =>
      b <~ cluster_presence_join ra app channel (pj_member join) socket_id None ;;
      oret match b with
           | Some (Some (first_for_user, roster)) =>
               mkSubscribeOutcome (so_subscription_count out)
                 (Some (mkPresenceJoin first_for_user
                    (wire_encode_first (SubscriptionSucceeded channel (Some roster)))
                    (pj_member join)))
                 (so_occupied out)
           | _ => out
           end
  end.

Definition redis_unsubscribe (app channel : string) (socket_id : SocketId) : Op R UnsubscribeOutcome :=
  out <~ on_local (ad_unsubscribe app channel socket_id) ;;
  let node_last := uo_subscription_count out =? 0 in
  out <~ match uo_presence out with
         | None => oret out
         | Some leave =>
             b <~ cluster_presence_leave ra app channel (pl_user_id leave) socket_id ;;
             oret match b with
                  | Some last_for_user =>
                      mkUnsubscribeOutcome (uo_subscription_count out)
                        (Some (mkPresenceLeave last_for_user (pl_user_id leave))) (uo_vacated out)
                  | None => out
                  end
         end ;;
  a <~ cluster_unsubscribe ra app channel socket_id node_last ;;
  oret (if (0 <? a.1) || a.2 then mkUnsubscribeOutcome a.1 (uo_presence out) a.2 else out).

(** The frame, encoded once. *)
Definition frame_once (event : ServerEvent) : string :=
  match event with Raw f => f | other => wire_encode_first other end.

Definition redis_broadcast (app channel : string) (event : ServerEvent) (except : option SocketId)
    : Op R (result unit BroadcastError) :=
  let f := frame_once event in
  a <~ cluster_publish_broadcast ra app channel f except ;;
  match a with
  | Err e => oret (Err e)
  | Ok _ => on_local (ad_broadcast app channel (Raw f) except)
  end.

(** The loop of [channels]: [None] is the fall-back to the local adapter. *)
Fixpoint channels_loop (app : string) (prefix : option string) (names : list string)
    : Op R (option (list ChannelSummary)) :=
  match names with
  | [] => oret (Some [])
  | name :: names =>
      if match prefix with Some pre => negb (Str.starts_with pre name) | None => false end
      then channels_loop app prefix names
      else
        c <~ remote (HLEN (Keys.occ p app name)) ;;
        match c with
        | None => oret None
        | Some count =>
            if (count <=? 0)%Z then channels_loop app prefix names
            else
              uc <~ (if is_presence name then presence_user_count ra app name else oret None) ;;
              rest <~ channels_loop app prefix names ;;
              oret ((λ l, mkChannelSummary name true (Z.to_nat count) uc :: l) <$> rest)
        end
  end.

Definition redis_channels (app : string) (prefix : option string) : Op R (list ChannelSummary) :=
  members <~ remote (SMEMBERS (Keys.chans p app)) ;;
  out <~ match members with
         | Some names => channels_loop app prefix names
         | None => oret None
         end ;;
  match out with
  | Some l => oret l
  | None => ask_local (ad_channels app prefix)
  end.

Definition redis_channel (app channel : string) : Op R ChannelSummary :=
  c <~ remote (HLEN (Keys.occ p app channel)) ;;
  match c with
  | None => ask_local (ad_channel app channel)
  | Some count =>
      uc <~ (if is_presence channel then
               n <~ presence_user_count ra app channel ;;
               match n with
               | Some n => oret (Some n)
               | None => ask_local (λ w, cs_user_count (ad_channel app channel w))
               end
             else oret None) ;;
      oret (mkChannelSummary channel (0 <? count)%Z (Z.to_nat count) uc)
  end.

Definition redis_presence_members (app channel : string) : Op R (list PresenceMember) :=
  m <~ presence_members_of ra app channel ;;
  match m with
  | Some m => oret m
  | None => ask_local (ad_presence_members app channel)
  end.

(** [let _ = mailbox.send(..)]. *)
Definition mail (m : Mailbox) (event : ServerEvent) : Op R unit :=
  on_local_ (λ w, (w.1, set_store (send_ m event (env_store w.2)) w.2)).

Definition redis_resend_presence_ack (app channel : string) (m : Mailbox) : Op R unit :=
  if negb (is_presence channel) then oret tt
  else
    r <~ presence_roster ra app channel ;;
    match r with
    | Some roster => mail m (SubscriptionSucceeded channel (Some roster))
    | None => oret tt
    end.

(** ** The last event of a cache channel *)

Definition cached_members (e : CachedEvent) : list (string * Value) :=
  [("event", JString (ce_event e)); ("data", JString (ce_data e))].

Definition de_cached (r : RawStruct) : option CachedEvent :=
  match r with
  | RObject m =>
      event ← member_of "event" m;
      data ← member_of "data" m;
      event ← required de_string event;
      data ← required de_string data;
      Some (mkCachedEvent event data)
  | RArray [e; d] =>
      event ← de_string e;
      data ← de_string d;
      Some (mkCachedEvent event data)
  | RArray _ => None
  end.

Definition redis_cache_set (app channel : string) (event : CachedEvent) (ttl_ms : Z) : Op R unit :=
  let json := struct_to_string (cached_members event) in
  if (ttl_ms =? 0)%Z then oret tt
  else remote (SET (Keys.cache p app channel) json ttl_ms) ;~ oret tt.

Definition redis_cache_get (app channel : string) : Op R (option CachedEvent) :=
  raw <~ remote (GET (Keys.cache p app channel)) ;;
  oret match raw with
       | Some (Some s) => struct_from_str s ≫= de_cached
       | _ => None
       end.

(** ** Users *)

Definition redis_signin_user (app user_id : string) (h : ConnectionHandle) : Op R UserJoinOutcome :=
  let socket_id := ch_socket_id h in
  out <~ on_local (ad_signin_user app user_id h) ;;
  first <~ cluster_signin ra app user_id socket_id (uj_first_for_user out) ;;
  oret (mkUserJoinOutcome first).

Definition redis_signout_user (app user_id : string) (socket_id : SocketId) : Op R UserLeaveOutcome :=
  out <~ on_local (ad_signout_user app user_id socket_id) ;;
  last <~ cluster_signout ra app user_id socket_id (ul_last_for_user out) ;;
  oret (mkUserLeaveOutcome last).

Definition redis_is_user_online (app user_id : string) : Op R bool :=
  b <~ user_is_online ra app user_id ;;
  match b with
  | Some b => oret b
  | None => ask_local (ad_is_user_online app user_id)
  end.

Definition redis_send_to_user (app user_id : string) (event : ServerEvent) : Op R unit :=
  let f := frame_once event in
  on_local_ (ad_send_to_user app user_id (Raw f)) ;~
  user_publish ra (Keys.usermsg p app user_id) (ra_node_id ra) app user_id UserSend (JString f).

Definition redis_terminate_user (app user_id : string) : Op R (list SocketId) :=
  ids <~ on_local (ad_terminate_user app user_id) ;;
  user_publish ra (Keys.usermsg p app user_id) (ra_node_id ra) app user_id UserTerminate JNull ;~
  oret ids.

Definition redis_purge_app (app_id : string) : Op R (list SocketId) :=
  ids <~ on_local (ad_purge_app app_id) ;;
  remote (SREM (Keys.apps p) app_id) ;~
  oret ids.

Definition redis_watch (app : string) (h : ConnectionHandle) (watched : list string)
    : Op R (list string) :=
  newly <~ on_local (λ w,
    let '(u, (_, newly)) := watch app h watched (la_users w.1) in
    (set_users u w.1, w.2, newly)) ;;
  cluster_watch ra app watched newly.

Definition redis_unwatch (app : string) (socket_id : SocketId) : Op R unit :=
  gone <~ on_local (λ w,
    let '(u, gone) := unwatch app socket_id (la_users w.1) in (set_users u w.1, w.2, gone)) ;;
  cluster_unwatch ra app gone.
End adapter.

(** ** The receive loop *)

Section receive.
Context `{SerdeJson, Moka, !SerdeStruct, !Base64}.

(** What the subscriber's stream yields: a message (its value, when it is a
    string), or the news that some were skipped. *)
Inductive Received : Type := Message (value : option string) | Lagged (skipped : Z).

(** The frame of a watched user's transition, to the local watchers. *)
Definition notify_watch (app user_id name : string) (w : LocalAdapter * Env) : LocalAdapter * Env :=
  let ev := WatchlistEvents [mkWatchlistChange name [user_id]] in
  foldl (λ w h, (w.1, set_store (send_ (ch_mailbox h) ev (env_store w.2)) w.2)) w
    (ad_watchers_of app user_id w).

Definition route (env : Envelope) (w : LocalAdapter * Env) : LocalAdapter * Env :=
  match env_kind env with
  | Broadcast =>
      match frame env with
      | None => w
      | Some f =>
          (ad_broadcast (env_app env) (env_channel env) (Raw f)
             (SocketId.from_raw <$> env_except env) w).1
      end
  | UserSend =>
      match frame env with
      | None => w
      | Some f => ad_send_to_user (env_app env) (env_channel env) (Raw f) w
      end
  | UserTerminate => (ad_terminate_user (env_app env) (env_channel env) w).1
  | WatchOnline => notify_watch (env_app env) (env_channel env) "online" w
  | WatchOffline => notify_watch (env_app env) (env_channel env) "offline" w
  end.

Definition receive (node_id : string) (w : LocalAdapter * Env) (m : Received) : LocalAdapter * Env :=
  match m with
  | Lagged _ => w
  | Message None => w
  | Message (Some payload) =>
      match decode payload with
      | None => w
      | Some env => if is_from env node_id then w else route env w
      end
  end.

(** The loop, until the stream closes. *)
Definition receive_loop (node_id : string) (ms : list Received) (w : LocalAdapter * Env)
    : LocalAdapter * Env :=
  foldl (receive node_id) w ms.
End receive.

(** ** Reconciliation *)

Section reconcile.
Context `{SerdeJson, Moka, !Redis R, !Lua, !SerdeStruct, !Base64, !NetErrors} (ra : RedisAdapter).
#[local] Open Scope node_scope.
#[local] Abbreviation p := (ra_prefix ra).
#[local] Abbreviation cfg := (ra_cfg ra).

Abbreviation LocalGroups := (list ((string * string) * list SocketId)).

(** One multi-member [SADD] per app. *)
Definition group_by_app (groups : LocalGroups) : list (string * list string) :=
  btree_iter (foldl (λ m g,
    <[g.1.1 := default [] (m !! g.1.1) ++ [g.1.2]]> m) (∅ : gmap string (list string)) groups).

Definition wanted (members bindings : LocalGroups) : list string :=
  ((λ g, Keys.msg p g.1.1 g.1.2) <$> members) ++ ((λ g, Keys.usermsg p g.1.1 g.1.2) <$> bindings).

Definition resubscribe_missing (members bindings : LocalGroups) : Op R unit := λ n,
  let tracked : gset string := set_map snd (nd_tracked n) in
  ofor (filter (λ k, k ∉ tracked) (wanted members bindings))
    (λ k, sub_channel k (sharded_pubsub cfg) ;~ oret tt) n.

Definition stamps (expire_at : string) (socket_ids : list SocketId) : list (string * string) :=
  (λ sid, (member_token (ra_node_id ra) (SocketId.as_str sid), expire_at)) <$> socket_ids.

(** The pipeline, in the order its commands are queued. *)
Definition restamp_script (members bindings : LocalGroups) (expire_at : string) : Script R unit :=
  (let channels_by_app := group_by_app members in
   let users_by_app := group_by_app bindings in
   let apps := elements (list_to_set (channels_by_app.*1 ++ users_by_app.*1) : gset string) in
   sfor members (λ g,
     HSET (Keys.occ p g.1.1 g.1.2) (stamps expire_at g.2) ;;;
     EXPIRE (Keys.occ p g.1.1 g.1.2) (occ_ttl_secs cfg) ;;; sret tt) ;;;
   sfor bindings (λ g,
     HSET (Keys.usr p g.1.1 g.1.2) (stamps expire_at g.2) ;;;
     EXPIRE (Keys.usr p g.1.1 g.1.2) (membership_ttl_secs cfg) ;;; sret tt) ;;;
   sfor channels_by_app (λ g, SADD (Keys.chans p g.1) g.2 ;;; sret tt) ;;;
   sfor users_by_app (λ g, SADD (Keys.users p g.1) g.2 ;;; sret tt) ;;;
   SADD (Keys.apps p) (merge_sort String.le apps) ;;;
   sret tt)%redis.

Definition restamp_and_reindex (members bindings : LocalGroups) : Op R bool :=
  now <~ now_ms ;;
  a <~ remote (restamp_script members bindings (dec (now + membership_ttl_secs cfg * 1000))) ;;
  oret (bool_decide (is_Some a)).

(** One tick of [membership_reconcile_loop]. *)
Definition reconcile_tick : Op R unit :=
  groups <~ ask_local (λ w, (local_members (la_registry w.1), local_bindings (la_users w.1))) ;;
  let '(members, bindings) := groups in
  if bool_decide (members = []) && bool_decide (bindings = []) then oret tt
  else
    resubscribe_missing members bindings ;~
    restamp_and_reindex members bindings ;~
    oret tt.

(** ** Heartbeat *)

Definition reseed_node_capacity (conn_counts : option (gmap string Z)) : Op R unit :=
  match conn_counts with
  | None => oret tt
  | Some counts =>
      let argv := (λ q, (q.1, dec q.2)) <$> filter (λ q, (0 < q.2)%Z) (map_to_list counts) in
      if bool_decide (argv = []) then oret tt
      else
        remote (RESEED_NODE_CAPACITY_LUA (Keys.appconns p) (Keys.nodeconns p (ra_node_id ra))
                  (Keys.nodes p) (Keys.nodeconns_prefix p) (ra_node_id ra)
                  (node_conns_ttl_secs cfg) argv) ;~
        oret tt
  end.

Definition store_connected (gauge b : bool) : Op R unit := λ n,
  (tt, if gauge then set_metrics (mkClusterMetrics (cmd_dropped (nd_metrics n))
                                    (publish_failed (nd_metrics n)) b) n else n).

(** One tick of [node_heartbeat_loop]; [gauge] is whether it has a gauge to
    store its health in. *)
Definition heartbeat_tick (gauge : bool) (conn_counts : option (gmap string Z)) : Op R unit :=
  set_ok <~ remote (SET (Keys.node p (ra_node_id ra)) "1" (node_ttl_secs cfg)) ;;
  match set_ok with
  | None => store_connected gauge false
  | Some _ =>
      sadd_ok <~ remote (SADD (Keys.nodes p) [ra_node_id ra]) ;;
      match sadd_ok with
      | None => store_connected gauge false
      | Some _ =>
          armed <~ remote (EXPIRE (Keys.nodeconns p (ra_node_id ra)) (node_conns_ttl_secs cfg)) ;;
          match armed with
          | Some 1%Z => oret tt
          | Some _ => reseed_node_capacity conn_counts
          | None => oret tt
          end ;~
          store_connected gauge true
      end
  end.
End reconcile.
