(* ===== verification/Sweeper.v ===== *)
(** * The sweeper: [src/src/adapter/redis/sweeper.rs]

    One node at a time, by lease, removes what crashed nodes left behind: stale
    members, vacant channels, stale sign-ins, and the capacity counts of dead
    nodes. *)

From S2P Require Import Prelude RustStd Json RedisStore RedisKeys RedisScripts Envelope.
From S2P Require Import Protocol Adapter Webhook ClusterNode.

Section sweeper.
Context `{SerdeJson, Moka, !Redis R, !Lua, !SerdeStruct, !Base64, !NetErrors} (ra : RedisAdapter).
#[local] Open Scope node_scope.
#[local] Abbreviation p := (ra_prefix ra).

Record SweepReport : Type := mkSweepReport {
  sr_acquired : bool;
  sr_reaped : nat;
  sr_vacated : list (string * string)
}.

Definition acquire_lease (lease_ms : Z) : Op R bool :=
  set <~ remote (SET_NX (Keys.sweeplock p) (ra_node_id ra) lease_ms) ;;
  match set with
  | Some (Some _) => oret true
  | None => oret false
  | Some None =>
      owner <~ remote (GET (Keys.sweeplock p)) ;;
      match owner with
      | Some (Some o) =>
          if decide (o = ra_node_id ra) then
            remote (SET (Keys.sweeplock p) (ra_node_id ra) lease_ms) ;~ oret true
          else oret false
      | _ => oret false
      end
  end.

Definition is_stale (now : Z) (expire_at : string) : bool :=
  match Str.parse_uint U64.MAX expire_at with
  | Some exp => (exp <? now)%Z
  | None => true
  end.

Definition stale_of (now : Z) (members : list (string * string)) : list string :=
  (filter (λ q, is_stale now q.2 = true) members).*1.

(** The vacate half of a channel's sweep: whether it was vacated. *)
Definition sweep_vacate (app channel : string) : Op R bool :=
  v <~ remote (VACATE_LUA (Keys.occ p app channel) (Keys.chans p app) (Keys.presusers p app channel)
                 (Keys.presinfo p app channel) (Keys.presmembers p app channel)
                 (Keys.presseats p app channel) channel) ;;
  match v with
  | Some (won, drained) =>
      if (won =? 1)%Z then
        emit_drained_members ra app channel drained ;~
        hook (Hook.ChannelVacated app channel) ;~
        oret true
      else oret false
  | None => oret false
  end.

(** The body of the channel loop: members reaped, and whether it was vacated. *)
Definition sweep_channel (now : Z) (app channel : string) : Op R (nat * bool) :=
  m <~ remote (HGETALL (Keys.occ p app channel)) ;;
  match m with
  | None => oret (0, false)
  | Some members =>
      let stale := stale_of now members in
      (if is_presence channel then ofor stale (reap_member ra app channel) else oret tt) ;~
      ok <~ (if decide (stale = []) then oret (Some 0%Z)
             else remote (HDEL (Keys.occ p app channel) stale)) ;;
      match ok with
      | None => oret (0, false)
      | Some _ =>
          if length stale <? length members then oret (length stale, false)
          else
            won <~ sweep_vacate app channel ;;
            oret (length stale, won)
      end
  end.

Fixpoint sweep_channels (now : Z) (app : string) (channels : list string)
    : Op R (nat * list (string * string)) :=
  match channels with
  | [] => oret (0, [])
  | channel :: channels =>
      a <~ sweep_channel now app channel ;;
      b <~ sweep_channels now app channels ;;
      oret (a.1 + b.1, (if a.2 then [(app, channel)] else []) ++ b.2)
  end.

Fixpoint sweep_apps (now : Z) (apps : list string) : Op R (nat * list (string * string)) :=
  match apps with
  | [] => oret (0, [])
  | app :: apps =>
      c <~ remote (SMEMBERS (Keys.chans p app)) ;;
      a <~ match c with Some channels => sweep_channels now app channels | None => oret (0, []) end ;;
      b <~ sweep_apps now apps ;;
      oret (a.1 + b.1, a.2 ++ b.2)
  end.

Definition sweep_users (now : Z) (app : string) : Op R unit :=
  u <~ remote (SMEMBERS (Keys.users p app)) ;;
  match u with
  | Some users => ofor users (λ user_id, reap_user ra app user_id now)
  | None => oret tt
  end.

Definition sweep_node (node : string) : Op R unit :=
  alive <~ remote (EXISTS (Keys.node p node)) ;;
  match alive with
  | Some 0%Z =>
      reclaimed <~ remote (RECLAIM_NODE_LUA (Keys.appconns p) (Keys.nodeconns p node)
                             (Keys.node p node)) ;;
      match reclaimed with
      | None => oret tt
      | Some a =>
          if (a =? -1)%Z then oret tt
          else remote (SREM (Keys.nodes p) node) ;~ oret tt
      end
  | _ => oret tt
  end.

(** [Vec::new()] where the read failed. *)
Definition or_none (o : option (list string)) : list string := default [] o.

Definition sweep_once (lease_ms now : Z) : Op R SweepReport :=
  held <~ acquire_lease lease_ms ;;
  if negb held then oret (mkSweepReport false 0 [])
  else
    apps <~ remote (SMEMBERS (Keys.apps p)) ;;
    a <~ sweep_apps now (or_none apps) ;;
    apps <~ remote (SMEMBERS (Keys.apps p)) ;;
    ofor (or_none apps) (sweep_users now) ;~
    nodes <~ remote (SMEMBERS (Keys.nodes p)) ;;
    ofor (or_none nodes) sweep_node ;~
    oret (mkSweepReport true a.1 a.2).
End sweeper.
