(* ===== verification/Bridge.v ===== *)
(** * The cluster bridge: [src/src/cluster/bridge.rs] and [adapter.rs]

    The commands workers fire at the bridge over a bounded queue, the handle
    that fires them, what the bridge's drain loop does for each, and the
    worker-side adapter that keeps the node-local half. *)

From S2P Require Import Prelude RustStd Json RedisStore RedisKeys RedisScripts Envelope.
From S2P Require Import Protocol Kind Fanout Mailbox ChannelState Registry UserRegistry Adapter.
From S2P Require Import App Webhook ClusterNode RedisAdapter.

Definition CMD_CHANNEL_CAPACITY : Z := 8192.

Module CC.
Inductive ClusterCmd : Type :=
| Publish (app channel frame : string) (except : option SocketId)
| Subscribe (app channel : string) (socket_id : SocketId) (mailbox : Mailbox) (node_first : bool)
| Unsubscribe (app channel : string) (socket_id : SocketId) (node_last : bool)
| PresenceSubscribe (app channel : string) (member : PresenceMember) (socket_id : SocketId)
    (mailbox : Mailbox) (node_first : bool)
| PresenceLeave (app channel user_id : string) (socket_id : SocketId) (node_last : bool)
| Signin (app user_id : string) (socket_id : SocketId) (node_first : bool)
| Signout (app user_id : string) (socket_id : SocketId) (node_last : bool)
| Watch (app : string) (socket_id : SocketId) (watched newly_watched : list string)
    (mailbox : Mailbox)
| Unwatch (app : string) (socket_id : SocketId) (no_longer_watched : list string)
| AdmitApp (app : string) (capacity : Z) (reply : nat)
| ReleaseApp (app : string)
| PresenceAck (app channel : string) (mailbox : Mailbox).
End CC.
Abbreviation ClusterCmd := CC.ClusterCmd.

(** ** The drain loop *)

Section bridge.
Context `{SerdeJson, Moka, !Redis R, !Lua, !SerdeStruct, !Base64, !NetErrors} (ra : RedisAdapter).
(** The app store, whether the webhook handle has been attached, which reply
    channels still have a receiver, and the presence cap. *)
Context (by_id : string → result AppLookup AppLookupError) (attached : bool)
  (listening : nat → bool) (max_presence_members : Z).
#[local] Open Scope node_scope.

Definition hook_if (b : bool) (event : WebhookEvent) : Op R unit :=
  if b && attached then hook event else oret tt.

Definition count_publish_failure : Op R unit := λ n,
  (tt, set_metrics (mkClusterMetrics (cmd_dropped (nd_metrics n))
         ((publish_failed (nd_metrics n) + 1) mod 2 ^ 64) (redis_connected (nd_metrics n))) n).

(** The cluster-wide emission of an event, a failure counted. *)
Definition emit (app channel : string) (event : ServerEvent) (except : option SocketId) : Op R unit :=
  a <~ redis_broadcast ra app channel event except ;;
  match a with Ok _ => oret tt | Err _ => count_publish_failure end.

(** [apps.by_id]: an app that is not found drops the edge. *)
Definition with_app (app : string) (k : App → Op R unit) : Op R unit :=
  match by_id app with
  | Ok (Found a) => k a
  | _ => oret tt
  end.

Definition emit_count (a : App) (app channel : string) (count : nat) : Op R unit :=
  if (0 <? count) && subscription_count_enabled a && bool_decide (ci_auth (ChannelInfo_of channel) ≠ Presence)
  then
    emit app channel (SubscriptionCount channel count) None ;~
    hook_if (has_subscription_count_webhooks a) (Hook.SubscriptionCount app channel count)
  else oret tt.

Definition handle_subscribe (app channel : string) (socket_id : SocketId) (mailbox : Mailbox)
    (node_first : bool) : Op R unit :=
  co <~ cluster_subscribe ra app channel socket_id node_first ;;
  let '(count, occupied) := co in
  with_app app (λ a,
    emit_count a app channel count ;~
    hook_if (occupied && has_channel_occupied_webhooks a) (Hook.ChannelOccupied app channel) ;~
    if ci_cache (ChannelInfo_of channel) then
      cached <~ redis_cache_get ra app channel ;;
      match cached with
      | Some c => mail mailbox (ChannelEvent channel (ce_event c) (JString (ce_data c)) None)
      | None =>
          hook_if (has_cache_miss_webhooks a) (Hook.CacheMiss app channel) ;~
          mail mailbox (CacheMiss channel)
      end
    else oret tt).

Definition handle_unsubscribe (app channel : string) (socket_id : SocketId) (node_last : bool)
    : Op R unit :=
  cv <~ cluster_unsubscribe ra app channel socket_id node_last ;;
  let '(count, vacated) := cv in
  with_app app (λ a,
    emit_count a app channel count ;~
    hook_if (vacated && has_channel_vacated_webhooks a) (Hook.ChannelVacated app channel)).

(** Sorted and deduplicated ids, the last info of each. *)
Definition roster_payload (members : list PresenceMember) : PresencePayload :=
  let ids := (btree_iter (list_to_map ((λ m, (pm_user_id m, tt)) <$> members) : gmap string unit)).*1 in
  mkPresencePayload ids
    (foldl (λ hash m, map_insert (pm_user_id m) (pm_user_info m) hash) [] members) (length ids).

Definition handle_presence_subscribe (app channel : string) (member : PresenceMember)
    (socket_id : SocketId) (mailbox : Mailbox) (node_first : bool) : Op R unit :=
  (if node_first then cluster_sub_channel ra app channel else oret tt) ;~
  b <~ cluster_presence_join ra app channel member socket_id (Some max_presence_members) ;;
  admitted <~ match b with
              | Some admitted => oret admitted
              | None =>
                  roster <~ redis_presence_members ra app channel ;;
                  oret (Some (false, roster_payload roster))
              end ;;
  match admitted with
  | None =>
      mail mailbox (SubscriptionError channel "LimitReached" "Presence channel is full" 4004) ;~
      out <~ on_local (ad_unsubscribe app channel socket_id) ;;
      if uo_subscription_count out =? 0 then cluster_unsub_channel ra app channel else oret tt
  | Some (first_for_user, roster) =>
      co <~ cluster_membership_join ra app channel socket_id ;;
      let '(_, occupied) := co in
      mail mailbox (SubscriptionSucceeded channel (Some roster)) ;~
      with_app app (λ a,
        (if (first_for_user : bool) then
           emit app channel (MemberAdded channel (pm_user_id member) (pm_user_info member))
             (Some socket_id) ;~
           hook_if (has_member_added_webhooks a) (Hook.MemberAdded app channel (pm_user_id member))
         else oret tt) ;~
        hook_if (occupied && has_channel_occupied_webhooks a) (Hook.ChannelOccupied app channel))
  end.

Definition handle_presence_leave (app channel user_id : string) (socket_id : SocketId)
    (node_last : bool) : Op R unit :=
  b <~ cluster_presence_leave ra app channel user_id socket_id ;;
  let last_for_user := default false b in
  cv <~ cluster_unsubscribe ra app channel socket_id node_last ;;
  let '(_, vacated) := cv in
  with_app app (λ a,
    (if last_for_user then
       emit app channel (MemberRemoved channel user_id) None ;~
       hook_if (has_member_removed_webhooks a) (Hook.MemberRemoved app channel user_id)
     else oret tt) ;~
    hook_if (vacated && has_channel_vacated_webhooks a) (Hook.ChannelVacated app channel)).

Definition notify_local_watchers (app user_id name : string) : Op R unit :=
  on_local_ (notify_watch app user_id name).

Definition handle_signin (app user_id : string) (socket_id : SocketId) (node_first : bool) : Op R unit :=
  first <~ cluster_signin ra app user_id socket_id node_first ;;
  if (first : bool) then notify_local_watchers app user_id "online" else oret tt.

Definition handle_signout (app user_id : string) (socket_id : SocketId) (node_last : bool) : Op R unit :=
  last <~ cluster_signout ra app user_id socket_id node_last ;;
  if (last : bool) then notify_local_watchers app user_id "offline" else oret tt.

Definition handle_watch (app : string) (watched newly_watched : list string) (mailbox : Mailbox)
    : Op R unit :=
  online <~ cluster_watch ra app watched newly_watched ;;
  if bool_decide (online = []) then oret tt
  else mail mailbox (WatchlistEvents [mkWatchlistChange "online" online]).

(** What the reply channel receives, when it still has a receiver. *)
Definition handle_admit (app : string) (capacity : Z) (reply : nat) : Op R (option (nat * option bool)) :=
  verdict <~ cluster_admit_app ra app capacity ;;
  if listening reply then oret (Some (reply, verdict))
  else
    (if bool_decide (verdict = Some true) then cluster_release_app ra app else oret tt) ;~ oret None.

(** The drain loop's dispatch; the verdict of an admission is what its reply
    channel receives, when it still has a receiver. *)
Definition handle_cmd (cmd : ClusterCmd) : Op R (option (nat * option bool)) :=
  match cmd with
  | CC.Publish app channel frame except =>
      a <~ cluster_publish_broadcast ra app channel frame except ;;
      match a with Ok _ => oret tt | Err _ => count_publish_failure end ;~ oret None
  | CC.Subscribe app channel socket_id mailbox node_first =>
      handle_subscribe app channel socket_id mailbox node_first ;~ oret None
  | CC.Unsubscribe app channel socket_id node_last =>
      handle_unsubscribe app channel socket_id node_last ;~ oret None
  | CC.PresenceSubscribe app channel member socket_id mailbox node_first =>
      handle_presence_subscribe app channel member socket_id mailbox node_first ;~ oret None
  | CC.PresenceLeave app channel user_id socket_id node_last =>
      handle_presence_leave app channel user_id socket_id node_last ;~ oret None
  | CC.Signin app user_id socket_id node_first =>
      handle_signin app user_id socket_id node_first ;~ oret None
  | CC.Signout app user_id socket_id node_last =>
      handle_signout app user_id socket_id node_last ;~ oret None
  | CC.Watch app _ watched newly_watched mailbox =>
      handle_watch app watched newly_watched mailbox ;~ oret None
  | CC.Unwatch app _ no_longer_watched =>
      cluster_unwatch ra app no_longer_watched ;~ oret None
  | CC.AdmitApp app capacity reply => handle_admit app capacity reply
  | CC.ReleaseApp app => cluster_release_app ra app ;~ oret None
  | CC.PresenceAck app channel mailbox =>
      redis_resend_presence_ack ra app channel mailbox ;~ oret None
  end.
End bridge.

(** ** The worker side *)

(** The handle, as the bounded queue it sends on and the metrics it shares. *)
Record ClusterHandle : Type := mkClusterHandle {
  hd_queue : list ClusterCmd;
  hd_closed : bool;
  hd_metrics : ClusterMetrics
}.

Definition cmd_try_send (cmd : ClusterCmd) (h : ClusterHandle) : ClusterHandle * bool :=
  if hd_closed h || (CMD_CHANNEL_CAPACITY <=? Z.of_nat (length (hd_queue h)))%Z then (h, false)
  else (mkClusterHandle (hd_queue h ++ [cmd]) (hd_closed h) (hd_metrics h), true).

Definition count_dropped (h : ClusterHandle) : ClusterHandle :=
  mkClusterHandle (hd_queue h) (hd_closed h)
    (mkClusterMetrics ((cmd_dropped (hd_metrics h) + 1) mod 2 ^ 64) (publish_failed (hd_metrics h))
       (redis_connected (hd_metrics h))).

(** A [try_send] whose failure is only counted. *)
Definition fire_cmd (cmd : ClusterCmd) (h : ClusterHandle) : ClusterHandle :=
  let '(h, ok) := cmd_try_send cmd h in if (ok : bool) then h else count_dropped h.

Definition fire_subscribe (app channel : string) (socket_id : SocketId) (mailbox : Mailbox)
    (node_first : bool) (h : ClusterHandle) : ClusterHandle :=
  fire_cmd (CC.Subscribe app channel socket_id mailbox node_first) h.

Definition fire_unsubscribe (app channel : string) (socket_id : SocketId) (node_last : bool)
    (h : ClusterHandle) : ClusterHandle :=
  fire_cmd (CC.Unsubscribe app channel socket_id node_last) h.

Definition fire_presence_subscribe (app channel : string) (member : PresenceMember)
    (socket_id : SocketId) (mailbox : Mailbox) (node_first : bool) (h : ClusterHandle) : ClusterHandle :=
  fire_cmd (CC.PresenceSubscribe app channel member socket_id mailbox node_first) h.

Definition fire_presence_leave (app channel user_id : string) (socket_id : SocketId)
    (node_last : bool) (h : ClusterHandle) : ClusterHandle :=
  fire_cmd (CC.PresenceLeave app channel user_id socket_id node_last) h.

Definition fire_signin (app user_id : string) (socket_id : SocketId) (node_first : bool)
    (h : ClusterHandle) : ClusterHandle :=
  fire_cmd (CC.Signin app user_id socket_id node_first) h.

Definition fire_signout (app user_id : string) (socket_id : SocketId) (node_last : bool)
    (h : ClusterHandle) : ClusterHandle :=
  fire_cmd (CC.Signout app user_id socket_id node_last) h.

Definition fire_watch (app : string) (socket_id : SocketId) (watched newly_watched : list string)
    (mailbox : Mailbox) (h : ClusterHandle) : ClusterHandle :=
  fire_cmd (CC.Watch app socket_id watched newly_watched mailbox) h.

Definition fire_unwatch (app : string) (socket_id : SocketId) (no_longer_watched : list string)
    (h : ClusterHandle) : ClusterHandle :=
  fire_cmd (CC.Unwatch app socket_id no_longer_watched) h.

Definition fire_presence_ack (app channel : string) (mailbox : Mailbox) (h : ClusterHandle)
    : ClusterHandle :=
  fire_cmd (CC.PresenceAck app channel mailbox) h.

Definition FULL_OR_CLOSED : string := "cluster bridge channel full or closed".

Definition handle_publish (app channel frame : string) (except : option SocketId) (h : ClusterHandle)
    : ClusterHandle * result unit BroadcastError :=
  let '(h, ok) := cmd_try_send (CC.Publish app channel frame except) h in
  if (ok : bool) then (h, Ok tt)
  else
    let h := count_dropped h in
    (mkClusterHandle (hd_queue h) (hd_closed h)
       (mkClusterMetrics (cmd_dropped (hd_metrics h)) ((publish_failed (hd_metrics h) + 1) mod 2 ^ 64)
          (redis_connected (hd_metrics h))), Err (Publish FULL_OR_CLOSED)).

(** [answer] is what [recv_timeout] yields on the reply channel [reply]. *)
Definition handle_admit_app (app : string) (capacity : Z) (reply : nat) (answer : option (option bool))
    (h : ClusterHandle) : ClusterHandle * option bool :=
  let '(h, ok) := cmd_try_send (CC.AdmitApp app capacity reply) h in
  if (ok : bool) then (h, match answer with Some verdict => verdict | None => None end)
  else (count_dropped h, None).

Definition handle_release_app (app : string) (h : ClusterHandle) : ClusterHandle :=
  fire_cmd (CC.ReleaseApp app) h.

(** ** [ClusterAdapter] *)

Record ClusterAdapter `{Moka} : Type := mkClusterAdapter {
  ca_local : LocalAdapter;
  ca_handle : ClusterHandle
}.

Section cluster_adapter.
Context `{SerdeJson, Moka}.

Definition lower (w : ClusterAdapter * Env) : LocalAdapter * Env := (ca_local w.1, w.2).

(** The local half done, and a command fired. *)
Definition raise (l : LocalAdapter * Env) (h : ClusterHandle) : ClusterAdapter * Env :=
  (mkClusterAdapter _ l.1 h, l.2).

Definition cluster_adapter_subscribe (app channel : string) (h : ConnectionHandle)
    (member : option PresenceMember) (w : ClusterAdapter * Env)
    : ClusterAdapter * Env * SubscribeOutcome :=
  let socket_id := ch_socket_id h in
  let mailbox := ch_mailbox h in
  let '(l, out) := ad_subscribe app channel h member (lower w) in
  let node_first := so_subscription_count out =? 1 in
  let handle := match member with
                | Some m => fire_presence_subscribe app channel m socket_id mailbox node_first (ca_handle w.1)
                | None => fire_subscribe app channel socket_id mailbox node_first (ca_handle w.1)
                end in
  (raise l handle, out).

Definition cluster_adapter_unsubscribe (app channel : string) (socket_id : SocketId)
    (w : ClusterAdapter * Env) : ClusterAdapter * Env * UnsubscribeOutcome :=
  let '(l, out) := ad_unsubscribe app channel socket_id (lower w) in
  let node_last := uo_subscription_count out =? 0 in
  let handle := match uo_presence out with
                | Some leave =>
                    fire_presence_leave app channel (pl_user_id leave) socket_id node_last (ca_handle w.1)
                | None => fire_unsubscribe app channel socket_id node_last (ca_handle w.1)
                end in
  (raise l handle, out).

Definition cluster_adapter_broadcast (app channel : string) (event : ServerEvent)
    (except : option SocketId) (w : ClusterAdapter * Env)
    : ClusterAdapter * Env * result unit BroadcastError :=
  let f := frame_once event in
  let '(h, a) := handle_publish app channel f except (ca_handle w.1) in
  match a with
  | Err e => (raise (lower w) h, Err e)
  | Ok _ =>
      let '(l, a) := ad_broadcast app channel (Raw f) except (lower w) in (raise l h, a)
  end.

Definition cluster_adapter_resend_presence_ack (app channel : string) (mailbox : Mailbox)
    (w : ClusterAdapter * Env) : ClusterAdapter * Env :=
  raise (lower w) (fire_presence_ack app channel mailbox (ca_handle w.1)).

Definition cluster_adapter_signin_user (app user_id : string) (h : ConnectionHandle)
    (w : ClusterAdapter * Env) : ClusterAdapter * Env * UserJoinOutcome :=
  let socket_id := ch_socket_id h in
  let '(l, out) := ad_signin_user app user_id h (lower w) in
  (raise l (fire_signin app user_id socket_id (uj_first_for_user out) (ca_handle w.1)), out).

Definition cluster_adapter_signout_user (app user_id : string) (socket_id : SocketId)
    (w : ClusterAdapter * Env) : ClusterAdapter * Env * UserLeaveOutcome :=
  let '(l, out) := ad_signout_user app user_id socket_id (lower w) in
  (raise l (fire_signout app user_id socket_id (ul_last_for_user out) (ca_handle w.1)), out).

Definition cluster_adapter_watch (app : string) (h : ConnectionHandle) (watched : list string)
    (w : ClusterAdapter * Env) : ClusterAdapter * Env * list string :=
  let socket_id := ch_socket_id h in
  let mailbox := ch_mailbox h in
  let '(u, (online, newly)) := watch app h watched (la_users (ca_local w.1)) in
  (raise (set_users u (ca_local w.1), w.2)
     (fire_watch app socket_id watched newly mailbox (ca_handle w.1)), online).

Definition cluster_adapter_unwatch (app : string) (socket_id : SocketId) (w : ClusterAdapter * Env)
    : ClusterAdapter * Env :=
  let '(u, gone) := unwatch app socket_id (la_users (ca_local w.1)) in
  raise (set_users u (ca_local w.1), w.2) (fire_unwatch app socket_id gone (ca_handle w.1)).

(** The operations that stay node-local on the worker. *)
Definition locally {A} (f : LocalAdapter * Env → LocalAdapter * Env * A) (w : ClusterAdapter * Env)
    : ClusterAdapter * Env * A :=
  let '(l, a) := f (lower w) in (raise l (ca_handle w.1), a).

#[export] Instance ClusterAdapter_adapter : Adapter ClusterAdapter := {|
  ad_subscribe := cluster_adapter_subscribe;
  ad_unsubscribe := cluster_adapter_unsubscribe;
  ad_broadcast := cluster_adapter_broadcast;
  ad_channels app prefix w := ad_channels app prefix (lower w);
  ad_channel app channel w := ad_channel app channel (lower w);
  ad_presence_members app channel w := ad_presence_members app channel (lower w);
  ad_resend_presence_ack := cluster_adapter_resend_presence_ack;
  ad_cache_set app channel event ttl w :=
    raise (ad_cache_set app channel event ttl (lower w)) (ca_handle w.1);
  ad_cache_get app channel w := ad_cache_get app channel (lower w);
  ad_signin_user := cluster_adapter_signin_user;
  ad_signout_user := cluster_adapter_signout_user;
  ad_is_user_online app uid w := ad_is_user_online app uid (lower w);
  ad_send_to_user app uid event w := raise (ad_send_to_user app uid event (lower w)) (ca_handle w.1);
  ad_terminate_user app uid := locally (ad_terminate_user app uid);
  ad_purge_app app_id := locally (ad_purge_app app_id);
  ad_watch := cluster_adapter_watch;
  ad_unwatch := cluster_adapter_unwatch;
  ad_watchers_of app uid w := ad_watchers_of app uid (lower w)
|}.

(** The worker's view is its local one, so the handlers may rely on it. *)
#[export] Instance ClusterAdapter_view : AdapterView ClusterAdapter := {|
  ad_inv a := ad_inv (ca_local a);
  ad_sub a := ad_sub (ca_local a);
  ad_signed a := ad_signed (ca_local a);
  ad_watching a := ad_watching (ca_local a)
|}.

(** What the local half of each operation does to the adapter. *)
Lemma lower_subscribe app ch h m w :
  ca_local (cluster_adapter_subscribe app ch h m w).1.1 = (ad_subscribe app ch h m (lower w)).1.1.
Proof. unfold cluster_adapter_subscribe. by destruct (ad_subscribe app ch h m (lower w)) as [[] ?]. Qed.

Lemma lower_unsubscribe app ch sid w :
  ca_local (cluster_adapter_unsubscribe app ch sid w).1.1 = (ad_unsubscribe app ch sid (lower w)).1.1.
Proof. unfold cluster_adapter_unsubscribe. by destruct (ad_unsubscribe app ch sid (lower w)) as [[] ?]. Qed.

Lemma lower_signin app uid h w :
  ca_local (cluster_adapter_signin_user app uid h w).1.1 = (ad_signin_user app uid h (lower w)).1.1.
Proof. unfold cluster_adapter_signin_user. by destruct (ad_signin_user app uid h (lower w)) as [[] ?]. Qed.

Lemma lower_signout app uid sid w :
  ca_local (cluster_adapter_signout_user app uid sid w).1.1 = (ad_signout_user app uid sid (lower w)).1.1.
Proof. unfold cluster_adapter_signout_user. by destruct (ad_signout_user app uid sid (lower w)) as [[] ?]. Qed.

Lemma lower_watch app h watched w :
  ca_local (cluster_adapter_watch app h watched w).1.1 = (ad_watch app h watched (lower w)).1.1.
Proof.
  unfold cluster_adapter_watch. simpl.
  by destruct (watch app h watched (la_users (ca_local w.1))) as [? []].
Qed.

Lemma lower_unwatch app sid w :
  ca_local (cluster_adapter_unwatch app sid w).1 = (ad_unwatch app sid (lower w)).1.
Proof.
  unfold cluster_adapter_unwatch. simpl. by destruct (unwatch app sid (la_users (ca_local w.1))).
Qed.

Lemma lower_broadcast app ch ev ex w :
  ca_local (cluster_adapter_broadcast app ch ev ex w).1.1 = ca_local w.1 ∨
  ca_local (cluster_adapter_broadcast app ch ev ex w).1.1 =
    (ad_broadcast app ch (Raw (frame_once ev)) ex (lower w)).1.1.
Proof.
  unfold cluster_adapter_broadcast. destruct (handle_publish _ _ _ _ _) as [h [|e]]; [|by left].
  right. by destruct (ad_broadcast app ch _ ex (lower w)) as [[] ?].
Qed.

#[export] Instance ClusterAdapter_laws : AdapterLaws ClusterAdapter.
Proof.
  split.
  - intros app ch h m w. simpl. rewrite lower_subscribe. exact (law_subscribe (A := LocalAdapter) app ch h m (lower w)).
  - intros app ch sid w. simpl. rewrite lower_unsubscribe. exact (law_unsubscribe (A := LocalAdapter) app ch sid (lower w)).
  - intros app ch ev ex w. simpl.
    destruct (lower_broadcast app ch ev ex w) as [E|E]; unfold same_view; simpl; rewrite E; [done|].
    exact (law_broadcast (A := LocalAdapter) app ch (Raw (frame_once ev)) ex (lower w)).
  - intros app ch m w. done.
  - intros app uid h w. cbv zeta.
    cbn [ad_signin_user ClusterAdapter_adapter ad_inv ad_sub ad_signed ad_watching ClusterAdapter_view].
    rewrite lower_signin. exact (law_signin (A := LocalAdapter) app uid h (lower w)).
  - intros app uid sid w. cbv zeta.
    cbn [ad_signout_user ClusterAdapter_adapter ad_inv ad_sub ad_signed ad_watching ClusterAdapter_view].
    rewrite lower_signout. exact (law_signout (A := LocalAdapter) app uid sid (lower w)).
  - intros app h watched w. cbv zeta.
    cbn [ad_watch ClusterAdapter_adapter ad_inv ad_sub ad_signed ad_watching ClusterAdapter_view].
    rewrite lower_watch. exact (law_watch (A := LocalAdapter) app h watched (lower w)).
  - intros app sid w. cbv zeta.
    cbn [ad_unwatch ClusterAdapter_adapter ad_inv ad_sub ad_signed ad_watching ClusterAdapter_view].
    rewrite lower_unwatch. exact (law_unwatch (A := LocalAdapter) app sid (lower w)).
Qed.
End cluster_adapter.
