(* ===== verification/ClusterProps.v ===== *)
(** * The cluster at work

    Theorems on the Redis adapter, the bridge and the receive loops of a
    cluster of nodes: a broadcast reaches every node once, a node without Redis
    keeps its local behaviour, a refused presence join leaves no trace, the
    units of capacity balance, and the reconciler restores what was lost. *)

From S2P Require Import Prelude RustStd Json.
From S2P Require Import Protocol SocketIds Kind Fanout Mailbox ChannelState Registry UserRegistry Adapter.
From S2P Require Import RedisStore RedisKeys RedisScripts RedisSpecs RedisMembership RedisCapacity.
From S2P Require Import RedisPresence Envelope App Webhook ClusterNode RedisAdapter Sweeper Bridge.

(** ** Relay *)

Section relay.
Context `{SerdeJson, Moka, !Redis R, !Lua, !SerdeStruct, !SerdeStructLaws, !Base64, !Base64Laws, !NetErrors}.

(** A socket id that survives its text. *)
Definition textual (sid : SocketId) : Prop := SocketId.from_raw (SocketId.as_str sid) = sid.

Lemma broadcast_ok app channel ev ex (w : LocalAdapter * Env) :
  (local_broadcast app channel ev ex w).2 = Ok tt.
Proof.
  unfold local_broadcast. destruct w as [a e]. destruct (la_sink a); [done|].
  by destruct (Registry.broadcast _ _ _ _ _ _).
Qed.

Lemma receive_broadcast (ra : RedisAdapter) app channel f except (w : LocalAdapter * Env) node payload :
  utf8_valid (as_bytes f) = true → (∀ sid, except = Some sid → textual sid) →
  payload_of ra (mkEnvelope (ra_node_id ra) app Broadcast channel (JString f)
    (SocketId.as_str <$> except) (Some (encode_frame_b64 f))) = Some payload →
  receive node w (Message (Some payload)) =
  if decide (node = ra_node_id ra) then w else (ad_broadcast app channel (Raw f) except w).1.
Proof.
  intros Hf Hex. unfold payload_of. rewrite encode_with_utf8. intros [= <-]. unfold receive.
  rewrite decode_encode_with by done. set (e := mkEnvelope _ _ _ _ _ _ _).
  assert (∀ legacy, is_from (received e legacy) node = bool_decide (node = ra_node_id ra) ∧
    route (received e legacy) w = (ad_broadcast app channel (Raw f) except w).1) as He.
  { intros legacy. split.
    - unfold is_from, received. destruct legacy; simpl; by apply bool_decide_ext.
    - unfold route. rewrite (frame_received e legacy f) by done.
      assert (SocketId.from_raw <$> env_except e = except) as Hx.
      { simpl. destruct except as [sid|]; [|done]. simpl. by rewrite (Hex sid). }
      destruct legacy; simpl; simpl in Hx; by rewrite Hx. }
  destruct (He (envelope_compat (ra_cfg ra))) as [-> ->]. by case_bool_decide; case_decide.
Qed.

Lemma next_turn_keeps (n : Node R) : ∃ f n', next_turn n = (f, n') ∧ nd_local n' = nd_local n ∧
  nd_env n' = nd_env n ∧ nd_wire n' = nd_wire n.
Proof. unfold next_turn. destruct (nd_turns n) as [|t ts]; eexists _, _; (split; [done|done]). Qed.

(** C3. A broadcast through the Redis adapter, by the fate of its one publish
    call. Answered: it is accepted, handed to the publisher's local adapter once
    and published once. Not sent: it is refused, nothing is published and the
    local adapter is untouched. Reply lost: it is refused and the local adapter
    is untouched, but the publication is out. Every other node that receives a
    publication hands the same frame, with the same excluded socket, to its
    local adapter once, and the publisher ignores its own. *)
Theorem broadcast_relayed_once (ra : RedisAdapter) (n : Node R) (app channel : string)
    (event : ServerEvent) (except : option SocketId) :
  utf8_valid (as_bytes (frame_once event)) = true → (∀ sid, except = Some sid → textual sid) →
  let '(a, n') := redis_broadcast ra app channel event except n in
  let deliver := λ w : LocalAdapter * Env, (ad_broadcast app channel (Raw (frame_once event)) except w).1 in
  ∃ payload,
    (∀ node w, receive node w (Message (Some payload)) =
       if decide (node = ra_node_id ra) then w else deliver w) ∧
    let published := nd_wire n ++
      [mkPublication (sharded_pubsub (ra_cfg ra)) (Keys.msg (ra_prefix ra) app channel) payload] in
    match (next_turn n).1 with
    | Answered => a = Ok tt ∧ nd_wire n' = published ∧
        (nd_local n', nd_env n') = deliver (nd_local n, nd_env n)
    | NotSent => (∃ e, a = Err e) ∧ nd_wire n' = nd_wire n ∧ nd_local n' = nd_local n ∧ nd_env n' = nd_env n
    | ReplyLost => (∃ e, a = Err e) ∧ nd_wire n' = published ∧ nd_local n' = nd_local n ∧ nd_env n' = nd_env n
    end.
Proof.
  intros Hf Hex. unfold redis_broadcast, cluster_publish_broadcast.
  pose proof (receive_broadcast ra app channel (frame_once event) except) as Hrecv.
  destruct (payload_of ra _) as [payload|] eqn:Ep.
  2:{ exfalso. unfold payload_of in Ep. by rewrite encode_with_utf8 in Ep. }
  unfold obind, oret, publish_channel, on_local, obind.
  destruct (next_turn_keeps n) as (t & n1 & -> & El & Ee & Ew). cbn [fst].
  assert (∀ node w, receive node w (Message (Some payload)) = if decide (node = ra_node_id ra) then w
    else (ad_broadcast app channel (Raw (frame_once event)) except w).1) as Hr by (intros; by apply Hrecv).
  destruct t.
  - cbn [nd_local nd_env set_wire]. rewrite El, Ee.
    pose proof (broadcast_ok app channel (Raw (frame_once event)) except (nd_local n, nd_env n)) as Hok.
    change (local_broadcast app channel (Raw (frame_once event)) except (nd_local n, nd_env n))
      with (ad_broadcast app channel (Raw (frame_once event)) except (nd_local n, nd_env n)) in Hok.
    destruct (ad_broadcast app channel (Raw (frame_once event)) except (nd_local n, nd_env n))
      as [[l e] a] eqn:Ead. cbn [snd] in Hok. subst a. exists payload. split; [exact Hr|].
    cbn [nd_local nd_env nd_wire set_wire set_local fst]. rewrite Ew. by split_and!.
  - exists payload. split; [exact Hr|]. cbn. eauto.
  - exists payload. split; [exact Hr|]. cbn. rewrite Ew. eauto.
Qed.
End relay.

(** ** Without Redis *)

Section degraded.
Context `{SerdeJson, Moka, !Redis R, !Lua, !SerdeStruct, !Base64, !NetErrors} (ra : RedisAdapter).

(** The next [k] calls are lost, before or after the server executes them. *)
Definition failing (k : nat) (n : Node R) : Prop :=
  k ≤ length (nd_turns n) ∧ Forall (λ t, tn_fate t ≠ Answered) (nd_turns n).

(** Nothing but the server has changed. *)
Definition node_kept (n n' : Node R) : Prop :=
  nd_local n' = nd_local n ∧ nd_env n' = nd_env n ∧ nd_tracked n' = nd_tracked n ∧
  nd_wire n' = nd_wire n ∧ nd_hooks n' = nd_hooks n.

#[local] Instance node_kept_trans : Transitive node_kept.
Proof. unfold node_kept. intros a b c. naive_solver congruence. Qed.

#[local] Instance node_kept_refl : Reflexive node_kept.
Proof. by unfold node_kept. Qed.

Lemma failing_turn k n : failing (S k) n →
  ∃ f n', next_turn n = (f, n') ∧ f ≠ Answered ∧ node_kept n n' ∧ failing k n'.
Proof.
  intros [Hl Hf]. unfold next_turn, failing. destruct (nd_turns n) as [|t ts]; simpl in *; [lia|].
  apply Forall_cons in Hf as [Ht Hf]. eexists _, _. split_and!; [done|done|done|simpl; lia|done].
Qed.

Lemma failing_weaken k k' n : k' ≤ k → failing k n → failing k' n.
Proof. intros Hk [? ?]. split; [lia|done]. Qed.

(** An operation that makes at most [k] calls, all lost, answers [a] and
    changes nothing on the node. *)
Definition lost {A} (k : nat) (m : Op R A) (a : A) : Prop := ∀ n j, failing (k + j) n →
  ∃ n', m n = (a, n') ∧ node_kept n n' ∧ failing j n'.

Lemma lost_ret {A} k (a : A) : lost k (oret a) a.
Proof. intros n j Hn. exists n. split; [done|]. split; [done|]. eapply failing_weaken; [|done]. lia. Qed.

Lemma lost_bind {A B} k1 k2 (m : Op R A) (f : A → Op R B) a b :
  lost k1 m a → lost k2 (f a) b → lost (k1 + k2) (obind m f) b.
Proof.
  intros Hm Hf n j Hn. rewrite <-Nat.add_assoc in Hn. destruct (Hm n _ Hn) as (n1 & E1 & K1 & F1).
  destruct (Hf n1 j F1) as (n2 & E2 & K2 & F2). exists n2. unfold obind. rewrite E1.
  split; [done|]. split; [by etrans|done].
Qed.

Lemma lost_remote {A} (m : Script R A) : lost 1 (remote m) None.
Proof.
  intros n j Hn. destruct (failing_turn j n Hn) as (f & n1 & E & Hf & Hk & Hn1).
  unfold remote, obind. rewrite E. destruct f; [done|..]; simpl; eexists; (split; [done|]); done.
Qed.

Lemma lost_sub key b : lost 1 (sub_channel key b) false.
Proof.
  intros n j Hn. destruct (failing_turn j n Hn) as (f & n1 & E & Hf & Hk & Hn1).
  unfold sub_channel, obind. rewrite E. by destruct f; [done|..]; exists n1.
Qed.

Lemma lost_unsub key b : lost 1 (unsub_channel key b) false.
Proof.
  intros n j Hn. destruct (failing_turn j n Hn) as (f & n1 & E & Hf & Hk & Hn1).
  unfold unsub_channel, obind. rewrite E. by destruct f; [done|..]; exists n1.
Qed.

(** A read of the node, whatever it answers. *)
Lemma lost_read {A B} k (g : Node R → A) (f : A → Op R B) b :
  (∀ x, lost k (f x) b) → lost k (obind (λ n, (g n, n)) f) b.
Proof. intros Hf n j Hn. unfold obind. by apply Hf. Qed.

Lemma lost_if {A} k (c : bool) (m1 m2 : Op R A) a :
  lost k m1 a → lost k m2 a → lost k (if c then m1 else m2) a.
Proof. by destruct c. Qed.

Lemma lost_cluster_subscribe app channel sid first :
  lost 3 (cluster_subscribe ra app channel sid first) (0, false).
Proof.
  apply (lost_bind 1 2 _ _ tt).
  - apply lost_if; [|apply lost_ret]. apply (lost_bind 1 0 _ _ false); [apply lost_sub|apply lost_ret].
  - apply lost_read. intros now. apply (lost_bind 1 1 _ _ None); [apply lost_remote|].
    apply (lost_bind 1 0 _ _ None); [apply lost_remote|apply lost_ret].
Qed.

Lemma lost_cluster_unsubscribe app channel sid last :
  lost 2 (cluster_unsubscribe ra app channel sid last) (0, false).
Proof.
  apply (lost_bind 1 1 _ _ tt).
  - apply lost_if; [|apply lost_ret]. apply lost_read. intros busy. apply lost_if; [apply lost_ret|].
    apply (lost_bind 1 0 _ _ false); [apply lost_unsub|apply lost_ret].
  - apply (lost_bind 1 0 _ _ None); [apply lost_remote|apply lost_ret].
Qed.

Lemma lost_cluster_presence_join app channel member sid cap :
  lost 1 (cluster_presence_join ra app channel member sid cap) None.
Proof. apply (lost_bind 1 0 _ _ None); [apply lost_remote|apply lost_ret]. Qed.

Lemma lost_cluster_presence_leave app channel user sid :
  lost 1 (cluster_presence_leave ra app channel user sid) None.
Proof. apply (lost_bind 1 0 _ _ None); [apply lost_remote|apply lost_ret]. Qed.

Lemma lost_cluster_signin app user sid first :
  lost 3 (cluster_signin ra app user sid first) first.
Proof.
  apply (lost_bind 1 2 _ _ tt).
  { apply lost_if; [|apply lost_ret]. apply (lost_bind 1 0 _ _ false); [apply lost_sub|apply lost_ret]. }
  apply (lost_bind 1 1 _ _ None); [apply lost_remote|].
  apply (lost_bind 1 0 _ _ None); [|apply lost_ret].
  apply lost_read. intros now. apply (lost_bind 1 0 _ _ None); [apply lost_remote|apply lost_ret].
Qed.

Lemma lost_cluster_signout app user sid last :
  lost 2 (cluster_signout ra app user sid last) last.
Proof.
  apply (lost_bind 1 1 _ _ tt).
  { apply lost_if; [|apply lost_ret]. apply lost_read. intros online. apply lost_if; [apply lost_ret|].
    apply (lost_bind 1 0 _ _ false); [apply lost_unsub|apply lost_ret]. }
  apply (lost_bind 1 0 _ _ None); [|apply lost_ret].
  apply (lost_bind 1 0 _ _ None); [apply lost_remote|apply lost_ret].
Qed.

(** An operation of the local adapter, then calls that are all lost. *)
Definition local_only {A B} (f : LocalAdapter * Env → LocalAdapter * Env * A) (g : A → B)
    (n : Node R) (a : B) (n' : Node R) : Prop :=
  let '(w, out) := f (nd_local n, nd_env n) in
  a = g out ∧ (nd_local n', nd_env n') = w ∧ nd_tracked n' = nd_tracked n ∧
  nd_wire n' = nd_wire n ∧ nd_hooks n' = nd_hooks n.

Lemma local_then_lost {A B} k (f : LocalAdapter * Env → LocalAdapter * Env * A) (h : A → Op R B)
    (g : A → B) n :
  (∀ x, lost k (h x) (g x)) → failing k n →
  ∃ a n', obind (on_local f) h n = (a, n') ∧ local_only f g n a n'.
Proof.
  intros Hh Hn. unfold local_only, obind, on_local.
  destruct (f (nd_local n, nd_env n)) as [[l e] out].
  destruct (Hh out (set_local (l, e) n) 0) as (n' & E & (E1 & E2 & E3 & E4 & E5) & _).
  { rewrite Nat.add_0_r. exact Hn. }
  exists (g out), n'. split; [done|]. rewrite E1, E2. by split_and!.
Qed.

(** C29. A node that cannot reach Redis behaves as a node on its own. When none of
    the calls is answered, whether or not the server executed them, subscribing,
    unsubscribing, signing in and signing out report exactly what the local
    adapter reports, leave it as the local adapter leaves it, and publish and
    subscribe nothing. *)
Theorem redis_down_keeps_local (n : Node R) (app channel user : string) (h : ConnectionHandle)
    (member : option PresenceMember) (sid : SocketId) :
  failing 4 n →
  (∃ a n', redis_subscribe ra app channel h member n = (a, n') ∧
     local_only (ad_subscribe app channel h member) id n a n') ∧
  (∃ a n', redis_unsubscribe ra app channel sid n = (a, n') ∧
     local_only (ad_unsubscribe app channel sid) id n a n') ∧
  (∃ a n', redis_signin_user ra app user h n = (a, n') ∧
     local_only (ad_signin_user app user h) id n a n') ∧
  (∃ a n', redis_signout_user ra app user sid n = (a, n') ∧
     local_only (ad_signout_user app user sid) id n a n').
Proof.
  intros Hn. split_and!.
  - apply (local_then_lost 4); [|done]. intros out.
    apply (lost_bind 3 1 _ _ (0, false)); [apply lost_cluster_subscribe|]. simpl.
    destruct (so_presence out) as [join|]; [|apply lost_ret].
    apply (lost_bind 1 0 _ _ None); [apply lost_cluster_presence_join|apply lost_ret].
  - apply (local_then_lost 3); [|by eapply failing_weaken; [|done]; lia]. intros out.
    apply (lost_bind 1 2 _ _ out).
    + destruct (uo_presence out) as [leave|]; [|apply lost_ret].
      apply (lost_bind 1 0 _ _ None); [apply lost_cluster_presence_leave|apply lost_ret].
    + apply (lost_bind 2 0 _ _ (0, false)); [apply lost_cluster_unsubscribe|apply lost_ret].
  - apply (local_then_lost 3); [|by eapply failing_weaken; [|done]; lia]. intros [first].
    apply (lost_bind 3 0 _ _ first); [apply lost_cluster_signin|apply lost_ret].
  - apply (local_then_lost 2); [|by eapply failing_weaken; [|done]; lia]. intros [last].
    apply (lost_bind 2 0 _ _ last); [apply lost_cluster_signout|apply lost_ret].
Qed.
End degraded.

(** ** A refused presence join *)

Section alone.
Context `{SerdeJson, Moka, RedisLaws R, !Lua, !LuaLaws, !SerdeStruct, !Base64, !NetErrors} (ra : RedisAdapter).
#[local] Abbreviation p := (ra_prefix ra).

(** Nobody else acts, and every call is answered. *)
Definition alone (n : Node R) : Prop := nd_turns n = [].

Definition space (n : Node R) : Keyspace := keyspace (nd_redis n).

Lemma alone_remote {A} (m : Script R A) Q n :
  alone n → wp m Q (space n) →
  ∃ a r', remote m n = (Some a, set_redis r' n) ∧ Q a (keyspace r').
Proof.
  intros Hn Hm. destruct (wp_run m Q (nd_redis n) Hm) as (a & r' & E & HQ). exists a, r'.
  unfold remote, obind, next_turn. rewrite Hn. simpl. by rewrite E.
Qed.

Lemma alone_sub key b n : alone n →
  sub_channel key b n = (true, set_tracked (nd_tracked n ∪ {[(b, key)]}) n).
Proof. intros Hn. unfold sub_channel, obind, next_turn. by rewrite Hn. Qed.

Lemma alone_unsub key b n : alone n →
  unsub_channel key b n = (true, set_tracked (nd_tracked n ∖ {[(b, key)]}) n).
Proof. intros Hn. unfold unsub_channel, obind, next_turn. by rewrite Hn. Qed.

(** The join script refuses and writes nothing. *)
Lemma join_refused n app channel (member : PresenceMember) sid cap :
  alone n → typed p (space n) → no_empty (space n) → (0 <= cap <= LUA_INT)%Z →
  hashof (space n) (Keys.presusers p app channel) !! pm_user_id member = None →
  (cap <= Z.of_nat (size (hashof (space n) (Keys.presusers p app channel))))%Z →
  ∃ r, cluster_presence_join ra app channel member sid (Some cap) n = (Some None, set_redis r n) ∧
    keyspace r = space n.
Proof.
  intros Hn Ht Hne Hcap Hu Hfull. unfold cluster_presence_join, presence_join, obind_ok, obind.
  rewrite Z.min_l by (unfold LUA_INT, I64_MAX in *; lia).
  edestruct (alone_remote (PRESENCE_JOIN_LUA (Keys.presusers p app channel) (Keys.presinfo p app channel)
    (Keys.presmembers p app channel) (Keys.presseats p app channel) (pm_user_id member)
    (to_string (pm_user_info member)) (member_token (ra_node_id ra) (SocketId.as_str sid)) (dec cap)))
    as (a & r & -> & HQ); [exact Hn| |].
  - eapply (presence_join_spec p app channel _ _ _ _ cap 0 (space n)); [done| | | |].
    + by apply typed_tables.
    + apply tonumber_dec. unfold LUA_INT in *. lia.
    + simpl. by rewrite Hu.
    + unfold i64, I64_MAX. lia.
  - cbv beta in HQ. unfold over in HQ. simpl in HQ.
    rewrite (bool_decide_eq_true_2 _ Hu), (proj2 (Z.leb_le 0 cap)), (proj2 (Z.leb_le cap _)) in HQ by lia.
    simpl in HQ. destruct HQ as [-> Hr]. by exists r.
Qed.

(** The bridge refuses a presence join at the cap without a trace: the server
    is as before, nothing is published or reported, the joiner is told, its
    node-local join is undone, and the node stays attached to the channel
    exactly when the node-local half reports other subscribers. *)
Theorem full_channel_leaves_no_trace by_id attached cap (n : Node R) (app channel : string)
    (member : PresenceMember) (sid : SocketId) (mailbox : Mailbox) (node_first : bool) :
  alone n → typed p (space n) → no_empty (space n) → (0 <= cap <= LUA_INT)%Z →
  hashof (space n) (Keys.presusers p app channel) !! pm_user_id member = None →
  (cap <= Z.of_nat (size (hashof (space n) (Keys.presusers p app channel))))%Z →
  let told := set_store (send_ mailbox
    (SubscriptionError channel "LimitReached" "Presence channel is full" 4004)
    (env_store (nd_env n))) (nd_env n) in
  let '(w, out) := ad_unsubscribe app channel sid (nd_local n, told) in
  let key := (sharded_pubsub (ra_cfg ra), Keys.msg p app channel) in
  ∃ n', handle_presence_subscribe ra by_id attached cap app channel member sid mailbox node_first n
      = (tt, n') ∧
    space n' = space n ∧ (nd_local n', nd_env n') = w ∧
    nd_wire n' = nd_wire n ∧ nd_hooks n' = nd_hooks n ∧
    nd_tracked n' =
      (let tracked := if node_first then nd_tracked n ∪ {[key]} else nd_tracked n in
       if (uo_subscription_count out =? 0)%nat then tracked ∖ {[key]} else tracked).
Proof.
  intros Hn Ht Hne Hcap Hu Hfull told.
  set (n1 := if node_first then set_tracked (nd_tracked n ∪
    {[(sharded_pubsub (ra_cfg ra), Keys.msg p app channel)]}) n else n).
  assert (alone n1 ∧ space n1 = space n ∧ nd_local n1 = nd_local n ∧ nd_env n1 = nd_env n ∧
    nd_wire n1 = nd_wire n ∧ nd_hooks n1 = nd_hooks n) as (Hn1 & Es & El & Ee & Ew & Eh)
    by (subst n1; by destruct node_first).
  assert ((if node_first then cluster_sub_channel ra app channel else oret tt) n = (tt, n1)) as E1.
  { subst n1. destruct node_first; [|done]. unfold cluster_sub_channel, obind. by rewrite alone_sub. }
  destruct (join_refused n1 app channel member sid cap) as (r & E2 & Er); [done|by rewrite ?Es..|].
  unfold handle_presence_subscribe, obind. rewrite E1, E2. unfold oret, mail, on_local_, on_local.
  cbn [nd_local nd_env set_redis set_local fst snd]. rewrite El, Ee. subst told.
  destruct (ad_unsubscribe app channel sid _) as [[l e] out]. cbn [fst snd].
  destruct (uo_subscription_count out =? 0).
  - unfold cluster_unsub_channel, obind. rewrite alone_unsub by done. eexists. split; [done|].
    unfold space. cbn. rewrite Er, Es, Ew, Eh. split_and!; [done..|]. subst n1. by destruct node_first.
  - eexists. split; [done|]. unfold space. cbn. rewrite Er, Es, Ew, Eh. split_and!; [done..|].
    subst n1. by destruct node_first.
Qed.

(** The unit of an admission belongs to whoever hears of it. A grant that
    reaches the waiting worker leaves the app with one unit more, the one the
    connection releases when it closes; when the worker has stopped waiting,
    and so will never release, the bridge gives the unit back itself; a refusal
    takes none. *)
Theorem admission_unit_owned Ns d by_id attached listening cap (n : Node R) (app : string) (capacity : Z)
    (reply : nat) :
  NoDup Ns → alone n → books p Ns d (space n) → ra_node_id ra ∈ Ns →
  (0 <= capacity <= U32_MAX)%Z → (total p (space n) app < LUA_INT)%Z → (held p Ns (space n) app < LUA_INT)%Z →
  let granted := negb ((0 <? capacity) && (capacity <=? total p (space n) app))%Z in
  ∃ n', handle_cmd ra by_id attached listening cap (CC.AdmitApp app capacity reply) n
      = (if listening reply then Some (reply, Some granted) else None, n') ∧
    books p Ns d (space n') ∧
    held p Ns (space n') app =
      (held p Ns (space n) app + if listening reply && granted then 1 else 0)%Z.
Proof.
  intros HNs Hn Hb Hin Hcap Htot Hheld0 granted. unfold handle_cmd, handle_admit, cluster_admit_app, obind.
  assert (0 < node_conns_ttl_secs (ra_cfg ra))%Z as Httl by (unfold node_conns_ttl_secs; lia).
  destruct (alone_remote _ _ n Hn (admit_step p Ns HNs d (ra_node_id ra) app capacity
    (node_conns_ttl_secs (ra_cfg ra)) (space n) Hb (conj Hin (conj Hcap (conj Httl (conj Htot Hheld0))))))
    as (a & r & E & Hb1 & _ & Ha).
  simpl in E. rewrite E. unfold oret. fold (space (set_redis r n)) in Hb1.
  destruct ((0 <? capacity)%Z && (capacity <=? total p (space n) app)%Z) eqn:Ec; subst granted.
  - destruct Ha as [-> Hr]. assert (space (set_redis r n) = space n) as Es by exact Hr.
    destruct (listening reply); simpl; eexists; (split; [done|]); rewrite Es; split; [done|lia|done|lia].
  - destruct Ha as (-> & Hheld & Hunits). destruct (listening reply); simpl.
    { eexists. split; [done|]. split; [done|]. exact Hheld. }
    destruct (alone_remote _ _ (set_redis r n) Hn (release_step p Ns HNs d (ra_node_id ra) app
      (space (set_redis r n)) Hb1 Hin)) as (a' & r' & E' & Hb2 & _ & Hback).
    unfold cluster_release_app, obind. simpl in E'. rewrite E'. eexists. split; [done|].
    split; [done|]. unfold space in *. simpl in *. rewrite Hback by done. lia.
Qed.
End alone.
