(* ===== verification/ReconcileProps.v ===== *)
(** * Reconciliation

    The tick of the membership reconciler restores, from what the node itself
    knows, every stamp, index entry and subscription that Redis may have lost,
    and writes nothing else. *)

From S2P Require Import Prelude RustStd Json.
From S2P Require Import Protocol SocketIds Kind Fanout Mailbox ChannelState Registry UserRegistry Adapter.
From S2P Require Import RedisStore RedisKeys RedisScripts RedisMembership Envelope.
From S2P Require Import Webhook ClusterNode RedisAdapter ClusterProps.

Section grow.
Context `{RedisLaws R} (p stamp : string) (own : string → Prop).
#[local] Open Scope redis_scope.

(** The presence tables of every channel are as they were. *)
Definition presence_same (s s' : Keyspace) : Prop := ∀ a c,
  s' !! Keys.presusers p a c = s !! Keys.presusers p a c ∧
  s' !! Keys.presinfo p a c = s !! Keys.presinfo p a c ∧
  s' !! Keys.presmembers p a c = s !! Keys.presmembers p a c ∧
  s' !! Keys.presseats p a c = s !! Keys.presseats p a c.

(** The hashes and the indexes of the membership. *)
Definition membership_key (k : string) : Prop :=
  (∃ a c, k = Keys.occ p a c ∨ k = Keys.usr p a c) ∨ (∃ a, k = Keys.chans p a ∨ k = Keys.users p a) ∨ k = Keys.apps p.

(** Nothing is removed and nothing is written but this: the stamp of this tick,
    under the node's own tokens, and index entries. *)
Record grows (s s' : Keyspace) : Prop := mkGrows {
  gr_typed : typed p s → typed p s';
  gr_hash k t : hashof s' k !! t = hashof s k !! t ∨ own t ∧ hashof s' k !! t = Some stamp;
  gr_set k x : x ∈ setof s k → x ∈ setof s' k;
  gr_presence : presence_same s s';
  gr_other k : ¬ membership_key k → s' !! k = s !! k
}.

#[export] Instance grows_refl : Reflexive grows.
Proof. split; [done|by left|done..]. Qed.

#[export] Instance grows_trans : Transitive grows.
Proof.
  intros s1 s2 s3 [T1 F1 S1 P1 O1] [T2 F2 S2 P2 O2]. split; [auto|..|auto| |].
  - intros k t. destruct (F2 k t) as [->|Hs]; [apply F1|by right].
  - intros a c. destruct (P1 a c) as (E1 & E2 & E3 & E4). destruct (P2 a c) as (G1 & G2 & G3 & G4).
    by rewrite G1, G2, G3, G4.
  - intros k Hk. by rewrite O2, O1.
Qed.

Lemma grows_stamp s s' k t : grows s s' → hashof s k !! t = Some stamp → hashof s' k !! t = Some stamp.
Proof. intros Hg Ht. destruct (gr_hash _ _ Hg k t) as [->|[_ ?]]; done. Qed.

Lemma hash_no_set s k : typed p s → key_type p k = Some THash → setof s k = ∅.
Proof.
  intros Hs Hk. unfold setof, set_at. destruct (s !! k) as [[]|] eqn:E; [done| |done..].
  by specialize (Hs _ _ _ E Hk).
Qed.

Lemma set_no_hash s k : typed p s → key_type p k = Some TSet → hashof s k = ∅.
Proof.
  intros Hs Hk. unfold hashof, hash_at. destruct (s !! k) as [[]|] eqn:E; [|done..].
  by specialize (Hs _ _ _ E Hk).
Qed.

(** A key of the membership, by its kind. *)
Definition off_presence (k : string) : Prop := ∀ a c,
  k ≠ Keys.presusers p a c ∧ k ≠ Keys.presinfo p a c ∧ k ≠ Keys.presmembers p a c ∧
  k ≠ Keys.presseats p a c.

Definition stamped (h : gmap string string) (fvs : list (string * string)) : gmap string string :=
  foldl (λ h q, <[q.1 := q.2]> h) h fvs.

Lemma stamped_lookup h fvs t : Forall (λ q, q.2 = stamp) fvs →
  (t ∈ fvs.*1 ∨ h !! t = Some stamp) → stamped h fvs !! t = Some stamp.
Proof.
  intros Hf. revert h. induction Hf as [|[u v] fvs Hv _ IH]; intros h Ht; simpl in *.
  - destruct Ht as [Ht|Ht]; [by apply elem_of_nil in Ht|done].
  - subst v. apply IH. destruct Ht as [Ht|Ht].
    + apply elem_of_cons in Ht as [->|Ht]; [right; by rewrite lookup_insert_eq|by left].
    + right. destruct (decide (u = t)) as [->|]; [by rewrite lookup_insert_eq|by rewrite lookup_insert_ne].
Qed.

Lemma stamped_other h fvs t : Forall (λ q, own q.1 ∧ q.2 = stamp) fvs →
  stamped h fvs !! t = h !! t ∨ own t ∧ stamped h fvs !! t = Some stamp.
Proof.
  intros Hf. destruct (decide (t ∈ fvs.*1)) as [Hin|Hin].
  - right. split.
    + apply list_elem_of_fmap in Hin as (q & -> & Hq). by apply (proj1 (Forall_forall _ _) Hf q Hq).
    + apply stamped_lookup; [|by left]. eapply Forall_impl; [exact Hf|]. by intros q [_ ?].
  - left. clear Hf. revert h. induction fvs as [|[u v] fvs IH]; intros h; [done|].
    rewrite fmap_cons, not_elem_of_cons in Hin. destruct Hin as [Hne Hin].
    change (stamped h ((u, v) :: fvs)) with (stamped (<[u := v]> h) fvs).
    rewrite IH by done. by rewrite lookup_insert_ne.
Qed.

Lemma grows_hset s k fvs : typed p s → key_type p k = Some THash → off_presence k → membership_key k →
  Forall (λ q, own q.1 ∧ q.2 = stamp) fvs → grows s (put_hash k (stamped (hashof s k) fvs) s).
Proof.
  intros Hs Hk Ho Hm Hf. split.
  - intros _. by apply typed_put_hash.
  - intros k' t. destruct (decide (k = k')) as [->|Hne]; [|left; by rewrite hashof_put_ne].
    rewrite hashof_put_eq. by apply stamped_other.
  - intros k' x Hx. destruct (decide (k = k')) as [->|Hne].
    + by rewrite (hash_no_set s k' Hs Hk) in Hx.
    + unfold setof. rewrite (set_at_ext _ s); [done|]. by apply put_hash_ne.
  - intros a c. destruct (Ho a c) as (? & ? & ? & ?). by rewrite !put_hash_ne.
  - intros k' Hk'. apply put_hash_ne. by intros ->.
Qed.

Lemma grows_sadd s k ms : typed p s → key_type p k = Some TSet → off_presence k → membership_key k →
  grows s (put_set k (setof s k ∪ list_to_set ms) s).
Proof.
  intros Hs Hk Ho Hm. split.
  - intros _. by apply typed_put_set.
  - intros k' t. left. destruct (decide (k = k')) as [->|Hne].
    + rewrite (set_no_hash s k' Hs Hk). rewrite set_no_hash; [done|by apply typed_put_set|done].
    + unfold hashof. rewrite (hash_at_ext _ s); [done|]. by apply put_set_ne.
  - intros k' x Hx. destruct (decide (k = k')) as [->|Hne].
    + rewrite (set_at_Some _ _ _ (set_at_put_eq _ _ _)). set_solver.
    + unfold setof. rewrite (set_at_ext _ s); [done|]. by apply put_set_ne.
  - intros a c. destruct (Ho a c) as (? & ? & ? & ?). by rewrite !put_set_ne.
  - intros k' Hk'. apply put_set_ne. by intros ->.
Qed.

Lemma wp_grow_for {A} (l : list A) (f : A → Script R unit) (fact : A → Keyspace → Prop) s :
  typed p s → (∀ x s s', fact x s → grows s s' → fact x s') →
  (∀ x s, x ∈ l → typed p s → wp (f x) (λ _ s', grows s s' ∧ fact x s') s) →
  wp (sfor l f) (λ _ s', grows s s' ∧ ∀ x, x ∈ l → fact x s') s.
Proof.
  intros Hs Hm. revert s Hs. induction l as [|x l IH]; intros s Hs Hf; simpl.
  { apply wp_ret. split; [done|]. intros x Hx. by apply elem_of_nil in Hx. }
  eapply wp_seq; [apply Hf; [by left|done]|]. cbv beta. intros _ s1 [G1 F1].
  eapply wp_mono; [apply IH; [by apply G1|]|].
  - intros y s2 Hy. apply Hf. by right.
  - cbv beta. intros _ s2 [G2 F2]. split; [by etrans|]. intros y Hy.
    apply elem_of_cons in Hy as [->|Hy]; [by eapply Hm|by apply F2].
Qed.

Lemma wp_stamp s k fvs ttl : typed p s → key_type p k = Some THash → off_presence k → membership_key k →
  fvs ≠ [] → Forall (λ q, own q.1 ∧ q.2 = stamp) fvs → (0 < ttl)%Z →
  wp (HSET k fvs ;;; EXPIRE k ttl ;;; sret tt) (λ _ s', grows s s' ∧
    ∀ t, t ∈ fvs.*1 → hashof s' k !! t = Some stamp) s.
Proof.
  intros Hs Hk Ho Hm Hne Hf Httl. pose proof (typed_hash p s k Hs Hk) as Hh.
  rstep HSET_law. rstep EXPIRE_law. apply wp_ret. split; [by apply grows_hset|].
  intros t Ht. rewrite hashof_put_eq. apply stamped_lookup; [|by left].
  eapply Forall_impl; [exact Hf|]. by intros q [_ ?].
Qed.

Lemma wp_index s k ms : typed p s → key_type p k = Some TSet → off_presence k → membership_key k → ms ≠ [] →
  wp (SADD k ms ;;; sret tt) (λ _ s', grows s s' ∧ ∀ x, x ∈ ms → x ∈ setof s' k) s.
Proof.
  intros Hs Hk Ho Hm Hne. pose proof (typed_set p s k Hs Hk) as Hh.
  rstep SADD_law. apply wp_ret. split; [by apply grows_sadd|].
  intros x Hx. rewrite (set_at_Some _ _ _ (set_at_put_eq _ _ _)). set_solver.
Qed.

Lemma off_occ a c : off_presence (Keys.occ p a c).
Proof. intros a' c'. split_and!; rne. Qed.
Lemma off_usr a c : off_presence (Keys.usr p a c).
Proof. intros a' c'. split_and!; rne. Qed.
Lemma off_chans a : off_presence (Keys.chans p a).
Proof. intros a' c'. split_and!; rne. Qed.
Lemma off_users a : off_presence (Keys.users p a).
Proof. intros a' c'. split_and!; rne. Qed.
Lemma off_apps : off_presence (Keys.apps p).
Proof. intros a' c'. split_and!; rne. Qed.

Lemma occ_membership a c : membership_key (Keys.occ p a c).
Proof. left. exists a, c. by left. Qed.
Lemma usr_membership a c : membership_key (Keys.usr p a c).
Proof. left. exists a, c. by right. Qed.
Lemma chans_membership a : membership_key (Keys.chans p a).
Proof. right. left. exists a. by left. Qed.
Lemma users_membership a : membership_key (Keys.users p a).
Proof. right. left. exists a. by right. Qed.
Lemma apps_membership : membership_key (Keys.apps p).
Proof. by right; right. Qed.
End grow.

(** ** Grouping *)

Lemma group_step (m : gmap string (list string)) (g : (string * string) * list SocketId) app :
  <[g.1.1 := default [] (m !! g.1.1) ++ [g.1.2]]> m !! app =
  if decide (app = g.1.1) then Some (default [] (m !! app) ++ [g.1.2]) else m !! app.
Proof. case_decide as E; [subst; by rewrite lookup_insert_eq|by rewrite lookup_insert_ne]. Qed.

Lemma group_fold (groups : list ((string * string) * list SocketId)) (m : gmap string (list string)) app names :
  foldl (λ m g, <[g.1.1 := default [] (m !! g.1.1) ++ [g.1.2]]> m) m groups !! app = Some names ↔
  (names = default [] (m !! app) ++ (filter (λ g, g.1.1 = app) groups).*1.*2 ∧
   (is_Some (m !! app) ∨ filter (λ g, g.1.1 = app) groups ≠ [])).
Proof.
  revert m. induction groups as [|g groups IH]; intros m; simpl.
  - rewrite app_nil_r. split.
    + intros E. rewrite E. split; [done|]. left. done.
    + intros [-> [[l ->]|Hf]]; done.
  - rewrite IH, group_step, filter_cons. destruct (decide (app = g.1.1)) as [->|Hne].
    + rewrite decide_True by done. simpl. rewrite <-app_assoc. simpl.
      split; intros [? _]; (split; [done|]); [by right|by left].
    + rewrite decide_False by done. done.
Qed.

Lemma group_by_app_spec groups app names :
  (app, names) ∈ group_by_app groups →
  names = (filter (λ g : (string * string) * list SocketId, g.1.1 = app) groups).*1.*2 ∧ names ≠ [].
Proof.
  unfold group_by_app, btree_iter. rewrite merge_sort_Permutation, elem_of_map_to_list, group_fold.
  rewrite lookup_empty. simpl. intros [-> [[? Hf]|Hf]]; [done|]. split; [done|].
  by destruct (filter _ groups).
Qed.

Lemma group_by_app_in groups app name sids :
  ((app, name), sids) ∈ groups → ∃ names, (app, names) ∈ group_by_app groups ∧ name ∈ names.
Proof.
  intros Hin. exists (filter (λ g : (string * string) * list SocketId, g.1.1 = app) groups).*1.*2.
  assert (((app, name), sids) ∈ filter (λ g : (string * string) * list SocketId, g.1.1 = app) groups) as Hf
    by by apply list_elem_of_filter.
  split.
  - unfold group_by_app, btree_iter. rewrite merge_sort_Permutation, elem_of_map_to_list, group_fold.
    rewrite lookup_empty. split; [done|]. right. intros E. rewrite E in Hf. by apply elem_of_nil in Hf.
  - apply list_elem_of_fmap. exists (app, name). split; [done|].
    apply list_elem_of_fmap. by exists ((app, name), sids).
Qed.

(** ** The tick *)

Section tick.
Context `{SerdeJson, Moka, RedisLaws R, !Lua, !SerdeStruct, !Base64, !NetErrors} (ra : RedisAdapter).
#[local] Abbreviation p := (ra_prefix ra).
#[local] Abbreviation cfg := (ra_cfg ra).
#[local] Abbreviation groups := (list ((string * string) * list SocketId)).

Definition token_of (sid : SocketId) : string := member_token (ra_node_id ra) (SocketId.as_str sid).

(** A token of this node. *)
Definition own_token (t : string) : Prop := ∃ sid, t = token_of sid.

(** Each socket of each group has this stamp in its group's hash, and the
    group's name and app are indexed. *)
Definition asserted (hash : string → string → string) (index : string → string) (stamp : string)
    (gs : groups) (s : Keyspace) : Prop :=
  ∀ app name sids sid, ((app, name), sids) ∈ gs → sid ∈ sids →
    hashof s (hash app name) !! token_of sid = Some stamp ∧
    name ∈ setof s (index app) ∧ app ∈ setof s (Keys.apps p).

Definition sockets_of (gs : groups) : Prop := Forall (λ g, g.2 ≠ []) gs.

Lemma stamps_stamp e sids : Forall (λ q, own_token q.1 ∧ q.2 = e) (stamps ra e sids).
Proof. unfold stamps. apply Forall_fmap, Forall_forall. intros sid _. split; [by exists sid|done]. Qed.

Lemma stamps_tokens e sids : (stamps ra e sids).*1 = token_of <$> sids.
Proof. unfold stamps. by rewrite <-list_fmap_compose. Qed.

Lemma stamp_loop (hash : string → string → string) ttl e (gs : groups) s :
  typed p s → (∀ a c, key_type p (hash a c) = Some THash) → (∀ a c, off_presence p (hash a c)) →
  (∀ a c, membership_key p (hash a c)) → sockets_of gs → (0 < ttl)%Z →
  wp (sfor gs (λ g, HSET (hash g.1.1 g.1.2) (stamps ra e g.2) ;;;
                    EXPIRE (hash g.1.1 g.1.2) ttl ;;; sret tt)%redis) (λ _ s',
    grows p e own_token s s' ∧ ∀ g, g ∈ gs → ∀ sid, sid ∈ g.2 →
      hashof s' (hash g.1.1 g.1.2) !! token_of sid = Some e) s.
Proof.
  intros Hs Hk Ho Hm Hg Httl. apply wp_grow_for; [done| |].
  - intros g s1 s2 Hf Hgr sid Hsid. eapply grows_stamp; [done|]. by apply Hf.
  - intros g s1 Hin Hs1. pose proof (proj1 (Forall_forall _ _) Hg g Hin) as Hg1.
    eapply wp_mono; [apply wp_stamp|]; [done|apply Hk|apply Ho|apply Hm| |apply stamps_stamp|done|].
    + by destruct g as [k [|sid sids]].
    + cbv beta. intros _ s2 [Hgr Hf]. split; [done|]. intros sid Hsid. apply Hf.
      rewrite stamps_tokens. by apply list_elem_of_fmap_2.
Qed.

Lemma index_loop (index : string → string) e (gs : groups) s :
  typed p s → (∀ a, key_type p (index a) = Some TSet) → (∀ a, off_presence p (index a)) →
  (∀ a, membership_key p (index a)) →
  wp (sfor (group_by_app gs) (λ g, SADD (index g.1) g.2 ;;; sret tt)%redis) (λ _ s',
    grows p e own_token s s' ∧ ∀ app name sids, ((app, name), sids) ∈ gs → name ∈ setof s' (index app)) s.
Proof.
  intros Hs Hk Ho Hm. eapply wp_mono.
  - apply (wp_grow_for p e own_token _ _ (λ g s', ∀ name, name ∈ g.2 → name ∈ setof s' (index g.1))); [done| |].
    + intros g s1 s2 Hf Hgr name Hn. by apply Hgr, Hf.
    + intros [app names] s1 Hin Hs1. apply group_by_app_spec in Hin as [_ Hne].
      by apply wp_index.
  - cbv beta. intros _ s' [Hgr Hf]. split; [done|]. intros app name sids Hin.
    destruct (group_by_app_in _ _ _ _ Hin) as (names & Hg & Hn). by apply (Hf (app, names)).
Qed.

Lemma restamp_spec members bindings e s :
  typed p s → sockets_of members → sockets_of bindings → members ≠ [] ∨ bindings ≠ [] →
  (0 < membership_ttl_secs cfg)%Z →
  wp (restamp_script ra members bindings e) (λ _ s', grows p e own_token s s' ∧
    asserted (Keys.occ p) (Keys.chans p) e members s' ∧
    asserted (Keys.usr p) (Keys.users p) e bindings s') s.
Proof.
  intros Hs Hm Hb Hne Httl. unfold restamp_script.
  assert (0 < occ_ttl_secs cfg)%Z as Hocc by (unfold occ_ttl_secs; lia).
  eapply wp_seq; [apply (stamp_loop (Keys.occ p)); auto using off_occ, occ_membership with redis_keys|].
  cbv beta. intros _ s1 [G1 F1]. pose proof (gr_typed _ _ _ _ _ G1 Hs) as T1.
  eapply wp_seq; [apply (stamp_loop (Keys.usr p) _ e); auto using off_usr, usr_membership with redis_keys|].
  cbv beta. intros _ s2 [G2 F2]. pose proof (gr_typed _ _ _ _ _ G2 T1) as T2.
  eapply wp_seq; [apply (index_loop (Keys.chans p) e); auto using off_chans, chans_membership with redis_keys|].
  cbv beta. intros _ s3 [G3 F3]. pose proof (gr_typed _ _ _ _ _ G3 T2) as T3.
  eapply wp_seq; [apply (index_loop (Keys.users p) e); auto using off_users, users_membership with redis_keys|].
  cbv beta. intros _ s4 [G4 F4]. pose proof (gr_typed _ _ _ _ _ G4 T3) as T4.
  set (apps := merge_sort String.le _).
  assert (∀ app name sids, ((app, name), sids) ∈ members ∨ ((app, name), sids) ∈ bindings → app ∈ apps) as Hin.
  { intros app name sids Hg. subst apps. rewrite merge_sort_Permutation, elem_of_elements, elem_of_list_to_set.
    apply elem_of_app. destruct Hg as [Hg|Hg]; [left|right];
      destruct (group_by_app_in _ _ _ _ Hg) as (names & Hgr & _);
      by apply (list_elem_of_fmap_2 fst _ (app, names)). }
  eapply wp_mono; [apply (wp_index p e own_token s4); auto using off_apps, apps_membership with redis_keys|].
  { destruct Hne as [Hne|Hne]; [destruct members as [|[[app name] sids] ?]|destruct bindings as [|[[app name] sids] ?]];
      try done; intros E; specialize (Hin app name sids); rewrite E in Hin; eapply not_elem_of_nil, Hin;
      [left|right]; by left. }
  cbv beta. intros _ s5 [G5 F5]. split_and!.
  - etrans; [exact G1|]. etrans; [exact G2|]. etrans; [exact G3|]. by etrans; [exact G4|].
  - intros app name sids sid Hg Hsid. split_and!.
    + do 4 (eapply grows_stamp; [eassumption|]). exact (F1 _ Hg sid Hsid).
    + apply G5, G4. by eapply F3.
    + apply F5. eapply Hin. by left.
  - intros app name sids sid Hg Hsid. split_and!.
    + do 3 (eapply grows_stamp; [eassumption|]). exact (F2 _ Hg sid Hsid).
    + apply G5. by eapply F4.
    + apply F5. eapply Hin. by right.
Qed.

(** ** Subscriptions *)

Definition tracks (n : Node R) (key : string) : Prop := ∃ b, (b, key) ∈ nd_tracked n.

Lemma subscribe_all keys (n : Node R) : alone n →
  ∃ n', ofor keys (λ k, obind (sub_channel k (sharded_pubsub cfg)) (λ _, oret tt)) n = (tt, n') ∧
    alone n' ∧ nd_redis n' = nd_redis n ∧ nd_local n' = nd_local n ∧ nd_env n' = nd_env n ∧
    nd_wire n' = nd_wire n ∧ nd_hooks n' = nd_hooks n ∧ nd_now_ms n' = nd_now_ms n ∧
    (∀ k, k ∈ keys → tracks n' k) ∧ nd_tracked n ⊆ nd_tracked n'.
Proof.
  revert n. induction keys as [|k keys IH]; intros n Hn; simpl.
  { exists n. split_and!; [done..| |done]. intros k Hk. by apply elem_of_nil in Hk. }
  unfold obind at 1. unfold obind at 1. rewrite alone_sub by done. cbv beta iota delta [oret].
  destruct (IH (set_tracked (nd_tracked n ∪ {[(sharded_pubsub cfg, k)]}) n) Hn)
    as (n' & E & Hn' & E1 & E2 & E3 & E4 & E5 & E6 & Hk & Hsub).
  exists n'. split_and!; [done..| |simpl in Hsub; set_solver].
  intros k' Hk'. apply elem_of_cons in Hk' as [->|Hk']; [|by apply Hk].
  exists (sharded_pubsub cfg). simpl in Hsub. set_solver.
Qed.

Lemma resubscribe_spec members bindings (n : Node R) : alone n →
  ∃ n', resubscribe_missing ra members bindings n = (tt, n') ∧
    alone n' ∧ nd_redis n' = nd_redis n ∧ nd_local n' = nd_local n ∧ nd_env n' = nd_env n ∧
    nd_wire n' = nd_wire n ∧ nd_hooks n' = nd_hooks n ∧ nd_now_ms n' = nd_now_ms n ∧
    ∀ k, k ∈ wanted ra members bindings → tracks n' k.
Proof.
  intros Hn. unfold resubscribe_missing.
  destruct (subscribe_all (filter (λ k, k ∉ (set_map snd (nd_tracked n) : gset string))
    (wanted ra members bindings)) n Hn) as (n' & E & Hn' & E1 & E2 & E3 & E4 & E5 & E6 & Hk & Hsub).
  exists n'. split_and!; [done..|]. intros k Hin.
  destruct (decide (k ∈ (set_map snd (nd_tracked n) : gset string))) as [Ht|Ht].
  - apply elem_of_map in Ht as ([b k'] & -> & Hb). exists b. by apply Hsub.
  - apply Hk. by apply list_elem_of_filter.
Qed.

Definition local_groups (n : Node R) : groups * groups :=
  (local_members (la_registry (nd_local n)), local_bindings (la_users (nd_local n))).

Lemma map_to_list_keys_nonempty `{Countable K} {A} (m : gmap K A) : m ≠ ∅ → (map_to_list m).*1 ≠ [].
Proof.
  intros Hm E. apply Hm. apply fmap_nil_inv in E. by apply map_to_list_empty_iff.
Qed.

Lemma local_members_sockets r : sockets_of (local_members r).
Proof.
  unfold sockets_of, local_members. apply Forall_fmap, Forall_forall. intros [k st] Hin.
  apply list_elem_of_filter in Hin as [He _]. simpl. unfold socket_ids.
  apply map_to_list_keys_nonempty. unfold is_empty in He. by apply bool_decide_eq_false in He.
Qed.

Lemma local_bindings_sockets u : sockets_of (local_bindings u).
Proof.
  unfold sockets_of, local_bindings. apply Forall_fmap, Forall_forall. intros [k e] Hin.
  apply list_elem_of_filter in Hin as [He _]. simpl. by apply map_to_list_keys_nonempty.
Qed.

(** C30. One tick of the reconciler restores everything the node's own registries
    imply. Whatever the (well typed) server held, afterwards every local
    member and every local binding carries the tick's stamp, its channel, user
    and app are indexed, and the node is subscribed to its traffic. No index
    entry is removed, every field of a hash is as it was or is the tick's stamp
    under a token of this node, and no key outside the membership, presence
    tables included, is touched. The calls of the tick succeed and no other
    client writes between them. *)
Theorem reconcile_restores (n : Node R) :
  alone n → typed p (space n) → (0 < membership_ttl_secs cfg)%Z →
  let '(members, bindings) := local_groups n in
  let stamp := dec (nd_now_ms n + membership_ttl_secs cfg * 1000) in
  ∃ n', reconcile_tick ra n = (tt, n') ∧
    asserted (Keys.occ p) (Keys.chans p) stamp members (space n') ∧
    asserted (Keys.usr p) (Keys.users p) stamp bindings (space n') ∧
    (∀ k, k ∈ wanted ra members bindings → tracks n' k) ∧
    grows p stamp own_token (space n) (space n') ∧
    nd_local n' = nd_local n ∧ nd_env n' = nd_env n ∧ nd_wire n' = nd_wire n.
Proof.
  intros Hn Ht Httl. unfold reconcile_tick, obind, ask_local, local_groups. cbn [fst snd].
  set (members := local_members (la_registry (nd_local n))).
  set (bindings := local_bindings (la_users (nd_local n))). cbv zeta.
  destruct (decide (members = [] ∧ bindings = [])) as [[E1 E2]|Hne].
  { rewrite E1, E2. simpl. exists n. split_and!; [done| | | |done..];
      [intros ???? Hx; by apply elem_of_nil in Hx..|]. intros k Hk. by apply elem_of_nil in Hk. }
  assert (bool_decide (members = []) && bool_decide (bindings = []) = false) as ->.
  { apply andb_false_iff. rewrite !bool_decide_eq_false. destruct (decide (members = [])); tauto. }
  destruct (resubscribe_spec members bindings n Hn)
    as (n1 & -> & Hn1 & Er & El & Ee & Ew & Eh & Enow & Hk).
  unfold restamp_and_reindex, obind, now_ms. rewrite Enow.
  destruct (alone_remote _ _ n1 Hn1 (restamp_spec members bindings
    (dec (nd_now_ms n + membership_ttl_secs cfg * 1000)) (space n1)
    ltac:(unfold space; by rewrite Er) (local_members_sockets _) (local_bindings_sockets _)
    ltac:(destruct (decide (members = [])); tauto) Httl)) as (a & r & E & HG & HA & HB).
  rewrite E. eexists. split; [done|]. unfold space in *. simpl in *. rewrite Er in HG.
  split_and!; [exact HA|exact HB|exact Hk|exact HG|done..].
Qed.
End tick.
