(* ===== verification/SweeperProps.v ===== *)
(** * The sweeper among other nodes

    A small rely logic for the operations of a node: an invariant of the
    keyspace that the turns of the other nodes keep is kept by the operation,
    whatever the fates of its calls. With it, a sweep removes no live member,
    and yields to the holder of the lease. *)

From S2P Require Import Prelude RustStd Json.
From S2P Require Import Protocol Kind Fanout Mailbox ChannelState Registry UserRegistry Adapter.
From S2P Require Import RedisStore RedisKeys RedisScripts RedisSpecs RedisMembership RedisCapacity.
From S2P Require Import RedisPresence RedisTypes Envelope Webhook ClusterNode RedisAdapter Sweeper ClusterProps.

Section rely.
Context `{SerdeJson, Moka, RedisLaws R, !Lua, !LuaLaws, !SerdeStruct, !Base64, !NetErrors}.
Context (Inv : Keyspace → Prop).

(** The other nodes keep the invariant. *)
Definition rely (n : Node R) : Prop :=
  Forall (λ t, ∀ r, Inv (keyspace r) → Inv (keyspace (tn_others t r))) (nd_turns n).

Definition good (n : Node R) : Prop := Inv (space n) ∧ rely n.

(** The operation keeps the invariant and its answer satisfies [Q]. *)
Definition keeps {A} (m : Op R A) (Q : A → Prop) : Prop := ∀ n, good n →
  Q (m n).1 ∧ good (m n).2.

Lemma keeps_ret {A} (a : A) (Q : A → Prop) : Q a → keeps (oret a) Q.
Proof. by intros HQ n Hn. Qed.

Lemma keeps_bind {A B} (m : Op R A) (f : A → Op R B) P (Q : B → Prop) :
  keeps m P → (∀ a, P a → keeps (f a) Q) → keeps (obind m f) Q.
Proof.
  intros Hm Hf n Hn. unfold obind. destruct (Hm n Hn) as [HP Hn1]. destruct (m n) as [a n1].
  by apply Hf.
Qed.

Lemma keeps_mono {A} (m : Op R A) (P Q : A → Prop) : keeps m P → (∀ a, P a → Q a) → keeps m Q.
Proof. intros Hm HPQ n Hn. destruct (Hm n Hn). auto. Qed.

Lemma good_turn n : good n → good (next_turn n).2.
Proof.
  intros [Hi Hr]. unfold next_turn, rely in *. destruct (nd_turns n) as [|t ts] eqn:E; simpl.
  - split; [done|]. unfold rely. by rewrite E.
  - apply Forall_cons in Hr as [Ht Hr]. split; [by apply Ht|done].
Qed.

Lemma keeps_remote {A} (m : Script R A) (Q : A → Prop) :
  (∀ s, Inv s → wp m (λ a s', Q a ∧ Inv s') s) →
  keeps (remote m) (λ o, match o with Some a => Q a | None => True end).
Proof.
  intros Hm n Hn. apply good_turn in Hn. unfold remote, obind.
  destruct (next_turn n) as [f n1]. simpl in Hn. destruct Hn as [Hi Hr].
  destruct (wp_run _ _ (nd_redis n1) (Hm _ Hi)) as (a & r & E & HQ & HI).
  destruct f; simpl; rewrite ?E; by split.
Qed.

Lemma keeps_publish key payload b : keeps (publish_channel key payload b) (λ _, True).
Proof.
  intros n Hn. apply good_turn in Hn. unfold publish_channel, obind.
  destruct (next_turn n) as [f n1]. by destruct f.
Qed.

Lemma keeps_hook ev : keeps (hook ev) (λ _, True).
Proof. by intros n Hn. Qed.

Lemma keeps_for {A} (l : list A) (f : A → Op R unit) :
  (∀ x, x ∈ l → keeps (f x) (λ _, True)) → keeps (ofor l f) (λ _, True).
Proof.
  induction l as [|x l IH]; intros Hf; simpl; [by apply keeps_ret|].
  eapply keeps_bind; [apply Hf; by left|]. intros _ _. apply IH. intros y Hy. apply Hf. by right.
Qed.

Lemma keeps_seq {A B} (m : Op R A) (k : Op R B) (Q : B → Prop) :
  keeps m (λ _, True) → keeps k Q → keeps (obind m (λ _, k)) Q.
Proof. intros Hm Hk. by eapply keeps_bind. Qed.

Lemma keeps_envelope ra e key b :
  keeps (match payload_of ra e with
         | Some payload => obind (publish_channel key payload b) (λ _, oret tt)
         | None => oret tt
         end) (λ _, True).
Proof.
  destruct (payload_of ra e); [|by apply keeps_ret].
  apply keeps_seq; [apply keeps_publish|by apply keeps_ret].
Qed.

Lemma keeps_emit_removed ra app channel user : keeps (emit_member_removed ra app channel user) (λ _, True).
Proof. apply keeps_seq; [apply keeps_envelope|apply keeps_hook]. Qed.
End rely.

(** ** Live members *)

Section live.
Context `{SerdeJson, Moka, RedisLaws R, !Lua, !LuaLaws, !SerdeStruct, !Base64, !NetErrors} (ra : RedisAdapter).
Context (now : Z) (app channel token : string).
#[local] Abbreviation p := (ra_prefix ra).

(** The keyspace is in order, the connection [token] is stamped as live in the
    channel, and the channel is indexed. *)
Record living (s : Keyspace) : Prop := mkLiving {
  lv_kept : kept p s;
  lv_counters : counters_ok p s;
  lv_member : ∃ v, hashof s (Keys.occ p app channel) !! token = Some v ∧ is_stale now v = false;
  lv_indexed : channel ∈ setof s (Keys.chans p app)
}.

(** A step that leaves the member, the index and the counters alone. *)
Lemma living_frame s s' : living s → kept p s' → counters_ok p s' →
  s' !! Keys.occ p app channel = s !! Keys.occ p app channel →
  s' !! Keys.chans p app = s !! Keys.chans p app → living s'.
Proof.
  intros [_ _ Hm Hi] Hk Hc Eo Ec. split; [done|done| |].
  - unfold hashof. by rewrite (hash_at_ext _ s _ Eo).
  - unfold setof. by rewrite (set_at_ext _ s _ Ec).
Qed.

(** Counters under a change of one key. *)
Lemma counters_same s s' : counters_ok p s →
  (∀ k, key_type p k = Some TCounts → s' !! k = s !! k) → counters_ok p s'.
Proof.
  intros Hs Hk k f v Ht. unfold hashof. rewrite (hash_at_ext _ s _ (Hk k Ht)). by apply Hs.
Qed.

Lemma key_type_ne k k' t t' : key_type p k = Some t → key_type p k' = Some t' → t ≠ t' → k ≠ k'.
Proof. intros Hk Hk' Hne ->. congruence. Qed.

Lemma counters_put_hash s k h : counters_ok p s → key_type p k = Some THash →
  counters_ok p (put_hash k h s).
Proof.
  intros Hs Hk. eapply counters_same; [done|]. intros k' Hk'. apply put_hash_ne.
  by eapply key_type_ne.
Qed.

Lemma counters_put_set s k m : counters_ok p s → key_type p k = Some TSet →
  counters_ok p (put_set k m s).
Proof.
  intros Hs Hk. eapply counters_same; [done|]. intros k' Hk'. apply put_set_ne.
  by eapply key_type_ne.
Qed.

Lemma counters_delete s k : counters_ok p s → counters_ok p (delete k s).
Proof.
  intros Hs k' f v Ht. destruct (decide (k = k')) as [->|Hne].
  - by rewrite hashof_delete_eq, lookup_empty.
  - rewrite hashof_delete_ne by done. by apply Hs.
Qed.

Lemma counters_put_counts s k h : counters_ok p s →
  (∀ f v, h !! f = Some v → ∃ z, v = dec z ∧ (0 <= z < LUA_INT)%Z) → counters_ok p (put_hash k h s).
Proof.
  intros Hs Hh k' f v Ht. destruct (decide (k = k')) as [->|Hne].
  - rewrite hashof_put_eq. apply Hh.
  - rewrite hashof_put_ne by done. by apply Hs.
Qed.

Lemma living_keys s : living s →
  typed p s ∧ no_empty s ∧ hash_at s (Keys.occ p app channel) = Some (hashof s (Keys.occ p app channel)) ∧
  set_at s (Keys.chans p app) = Some (setof s (Keys.chans p app)).
Proof.
  intros Hs. destruct (lv_kept s Hs) as [Ht Hn].
  split_and!; [done|done|apply (typed_hash p)|apply (typed_set p)]; auto with redis_keys.
Qed.

Lemma living_put_hash s k h : living s → key_type p k = Some THash → k ≠ Keys.occ p app channel →
  living (put_hash k h s).
Proof.
  intros Hs Hk Hne. eapply living_frame; [done| | | |].
  - apply kept_put_hash; [apply Hs|done].
  - apply counters_put_hash; [apply Hs|done].
  - by apply put_hash_ne.
  - apply put_hash_ne. eapply key_type_ne; eauto with redis_keys.
Qed.

Lemma living_put_set s k m : living s → key_type p k = Some TSet → k ≠ Keys.chans p app →
  living (put_set k m s).
Proof.
  intros Hs Hk Hne. eapply living_frame; [done| | | |].
  - apply kept_put_set; [apply Hs|done].
  - apply counters_put_set; [apply Hs|done].
  - apply put_set_ne. eapply key_type_ne; eauto with redis_keys.
  - by apply put_set_ne.
Qed.

Lemma living_delete s k : living s → k ≠ Keys.occ p app channel → k ≠ Keys.chans p app →
  living (delete k s).
Proof.
  intros Hs Hne Hnc. eapply living_frame; [done| | | |].
  - apply kept_delete, Hs.
  - apply counters_delete, Hs.
  - by apply lookup_delete_ne.
  - by apply lookup_delete_ne.
Qed.

Lemma living_set_str s k v : living s → key_type p k = Some TString → living (<[k := RStr v]> s).
Proof.
  intros Hs Hk. assert (∀ k' t, key_type p k' = Some t → t ≠ TString → <[k := RStr v]> s !! k' = s !! k') as E.
  { intros k' t Hk' Ht. apply lookup_insert_ne. by eapply key_type_ne. }
  eapply living_frame; [done| | | |].
  - destruct (lv_kept s Hs) as [Ht Hn]. split.
    + intros k' v' t' Hv' Ht'. destruct (decide (k = k')) as [->|Hne].
      * rewrite lookup_insert_eq in Hv'. rewrite Hk in Ht'. by simplify_eq.
      * rewrite lookup_insert_ne in Hv' by done. by eapply Ht.
    + intros k'. destruct (decide (k = k')) as [->|Hne];
        [by rewrite lookup_insert_eq|rewrite lookup_insert_ne by done; apply Hn].
  - eapply counters_same; [apply Hs|]. intros k' Hk'. by eapply E.
  - eapply E; [auto with redis_keys|done].
  - eapply E; [auto with redis_keys|done].
Qed.

(** A read. *)
Lemma living_read {A} (m : Script R A) (P : A → Keyspace → Prop) s :
  living s → wp m (λ a s', s' = s ∧ P a s) s → wp m (λ a s', (∃ s0, living s0 ∧ P a s0) ∧ living s') s.
Proof.
  intros Hs Hm. eapply wp_mono; [exact Hm|]. cbv beta. intros a s' [-> HP]. split; [by exists s|done].
Qed.

Lemma living_reap_member a c t s : living s →
  wp (REAP_MEMBER_LUA (Keys.presusers p a c) (Keys.presinfo p a c) (Keys.presmembers p a c)
        (Keys.presseats p a c) t) (λ _ s', True ∧ living s') s.
Proof.
  intros Hs. destruct (living_keys s Hs) as (Ht & Hn & _).
  pose proof (typed_tables p a c s Ht) as HT.
  assert (∀ user, ∃ n, default (dec 0) (hashof s (Keys.presusers p a c) !! user) = dec n ∧
    (0 <= n < LUA_INT)%Z) as Hd.
  { intros. apply (counters_count p); [apply Hs|apply presusers_type]. }
  eapply wp_mono.
  { apply (reap_member_spec p a c t s _ Hn HT). intros user _. simpl.
    destruct (Hd user) as (n & En & Hb). exists n. unfold LUA_INT in *. split; [done|lia]. }
  cbv beta. intros x s' Hx. split; [done|]. destruct (t_members _ !! t) as [user|]; [|by destruct Hx as [_ ->]].
  destruct Hx as (n & En & _ & Hu). destruct (Hd user) as (n' & En' & Hb).
  simpl in En. rewrite En in En'. apply (inj dec) in En'. subst n'.
  eapply living_frame; [done| | | |].
  - eapply kept_updates; [apply Hs| |exact Hu]. apply leave_counts, (typed_counts p s _ Ht), presusers_type.
  - destruct Hu as (HT' & _ & Hk). intros k f v Hkt Hv.
    destruct (decide (k = Keys.presusers p a c)) as [->|Hne].
    + destruct HT' as (HU & _). rewrite (hash_at_Some _ _ _ HU) in Hv. unfold leave_tables in Hv.
      destruct (Z.leb_spec (n - 1) 0); simpl in Hv.
      * apply lookup_delete_Some in Hv as [_ Hv]. by eapply (lv_counters s Hs).
      * apply lookup_insert_Some in Hv as [[_ <-]|[_ Hv]]; [|by eapply (lv_counters s Hs)].
        exists (n - 1)%Z. split; [done|lia].
    + rewrite (hashof_ext _ s) in Hv; [by eapply (lv_counters s Hs)|]. apply Hk.
      rewrite !elem_of_cons, elem_of_nil.
      pose proof (presinfo_type p a c). pose proof (presmembers_type p a c). pose proof (presseats_type p a c).
      naive_solver congruence.
  - apply Hu. rewrite !elem_of_cons, elem_of_nil. intros [E|[E|[E|[E|[]]]]]; revert E; keys_ne.
  - apply Hu. rewrite !elem_of_cons, elem_of_nil. intros [E|[E|[E|[E|[]]]]]; revert E; keys_ne.
Qed.

Lemma foldl_delete_lookup (h : gmap string string) l t : t ∉ l →
  foldl (λ h f, delete f h) h l !! t = h !! t.
Proof.
  revert h. induction l as [|f l IH]; intros h Ht; simpl; [done|].
  apply not_elem_of_cons in Ht as [Hne Ht]. rewrite IH by done. by apply lookup_delete_ne.
Qed.

(** The members to remove were read from the channel, so the live one is not
    among them. *)
Definition spares (a c : string) (stale : list string) : Prop :=
  Keys.occ p a c = Keys.occ p app channel → token ∉ stale.

Lemma living_hdel a c stale s : stale ≠ [] → spares a c stale → living s →
  wp (HDEL (Keys.occ p a c) stale) (λ _ s', True ∧ living s') s.
Proof.
  intros Hne Hsp Hs. destruct (living_keys s Hs) as (Ht & Hn & Ho & Hc).
  eapply wp_mono; [apply HDEL_law; [apply (typed_hash p); auto with redis_keys|done]|].
  cbv beta. intros _ s' ->. split; [done|].
  destruct (decide (Keys.occ p a c = Keys.occ p app channel)) as [E|E].
  - specialize (Hsp E). rewrite E. split.
    + apply kept_put_hash; [apply Hs|auto with redis_keys].
    + apply counters_put_hash; [apply Hs|auto with redis_keys].
    + rewrite hashof_put_eq, foldl_delete_lookup by done. apply Hs.
    + unfold setof. rewrite (set_at_ext _ s); [apply Hs|]. apply put_hash_ne. rne.
  - apply living_put_hash; auto with redis_keys.
Qed.

Lemma chans_inj a a' : Keys.chans p a = Keys.chans p a' → a = a'.
Proof.
  unfold Keys.chans. intros E. apply (inj (String.append _)) in E. vm_compute in E. by simplify_eq.
Qed.

(** No vacate of the live member's channel wins. *)
Lemma living_vacate a c s : living s →
  wp (VACATE_LUA (Keys.occ p a c) (Keys.chans p a) (Keys.presusers p a c) (Keys.presinfo p a c)
        (Keys.presmembers p a c) (Keys.presseats p a c) c)
    (λ x s', ((a, c) = (app, channel) → x.1 ≠ 1%Z) ∧ living s') s.
Proof.
  intros Hs. destruct (living_keys s Hs) as (Ht & Hn & Ho & Hc).
  eapply wp_mono; [by apply vacate_spec|]. cbv beta zeta. intros x s' Hx.
  destruct (decide (hashof s (Keys.occ p a c) = ∅)) as [E|E]; [|by destruct Hx as [-> ->]].
  assert (Keys.occ p a c ≠ Keys.occ p app channel) as Hne.
  { intros Eq. destruct (lv_member s Hs) as (v & Hv & _). by rewrite <-Eq, E, lookup_empty in Hv. }
  assert ((a, c) ≠ (app, channel)) as Hac by naive_solver.
  assert (living (put_set (Keys.chans p a) (setof s (Keys.chans p a) ∖ {[c]}) (delete (Keys.occ p a c) s))) as Hl.
  { assert (living (delete (Keys.occ p a c) s)) as Hd by (apply living_delete; [done|done|rne]).
    destruct (decide (a = app)) as [->|Ha].
    - split.
      + apply kept_put_set; [apply Hd|auto with redis_keys].
      + apply counters_put_set; [apply Hd|auto with redis_keys].
      + unfold hashof. rewrite (hash_at_ext _ (delete (Keys.occ p app c) s)); [apply Hd|].
        apply put_set_ne. rne.
      + rewrite (set_at_Some _ _ _ (set_at_put_eq _ _ _)). pose proof (lv_indexed s Hs).
        assert (c ≠ channel) by naive_solver. set_solver.
    - apply living_put_set; [done|auto with redis_keys|]. intros Eq. by apply Ha, chans_inj. }
  split; [naive_solver|]. case_decide; destruct_and!; subst; [|done].
  repeat (apply living_delete; [|rne|rne]). done.
Qed.

Lemma living_user_reap a user s : (0 <= now <= LUA_INT)%Z → living s →
  wp (USER_REAP_LUA (Keys.usr p a user) (Keys.users p a) (dec now) user) (λ _ s', True ∧ living s') s.
Proof.
  intros Hnow Hs. destruct (living_keys s Hs) as (Ht & Hn & Ho & Hc). eapply wp_mono.
  { apply (user_reap_spec p a user (dec now) now); [done|]. apply tonumber_dec. unfold LUA_INT in *. lia. }
  cbv beta. intros x s' (Ht' & Hn' & Hk & _). split; [done|]. eapply living_frame; [done|split; auto| | |].
  - eapply counters_same; [apply Hs|]. intros k Hkt.
    apply Hk; intros ->; [rewrite usr_type in Hkt|rewrite users_type in Hkt]; done.
  - apply Hk; rne.
  - apply Hk; rne.
Qed.

Lemma living_reclaim node s : living s →
  wp (RECLAIM_NODE_LUA (Keys.appconns p) (Keys.nodeconns p node) (Keys.node p node)) (λ _ s', True ∧ living s') s.
Proof.
  intros Hs. destruct (living_keys s Hs) as (Ht & Hn & Ho & Hc). pose proof (lv_counters s Hs) as Hcs.
  pose proof (typed_counts p s _ Ht (appconns_type p)) as [HA CA].
  pose proof (typed_counts p s _ Ht (nodeconns_type p node)) as [HN CN].
  pose proof (counters_small p s _ Hcs (appconns_type p)) as SA.
  assert (naturals (hashof s (Keys.nodeconns p node))) as SN.
  { intros f v Hv. destruct (Hcs _ f v (nodeconns_type p node) Hv) as (z & -> & Hz).
    exists z. unfold LUA_INT in *. split; [done|lia]. }
  eapply wp_mono; [by apply (reclaim_spec p node s _ _ HA HN SA)|].
  cbv beta. intros x s' Hx. split; [done|]. destruct (s !! Keys.node p node); [by destruct Hx as [_ ->]|].
  destruct Hx as (A' & -> & SA' & HA').
  assert (counters_ok p (put_hash (Keys.appconns p) A' s)) as Hc'.
  { apply counters_put_counts; [done|]. intros f v Hv. pose proof (small_num A' f SA') as (_ & Ed & _).
    rewrite Hv in Ed. simpl in Ed. exists (num A' f). split; [done|].
    destruct (counters_count p s _ f Hcs (appconns_type p)) as (z & Ez & Hz).
    pose proof (small_num _ f SA) as (_ & Ez' & _). rewrite Ez in Ez'. apply (inj dec) in Ez'. subst z.
    pose proof (naturals_num _ f SN). rewrite HA' by lia. lia. }
  eapply living_frame; [done| | | |].
  - apply kept_delete, kept_put_counts; [apply Hs|by apply small_counts|auto with redis_keys].
  - by apply counters_delete.
  - rewrite lookup_delete_ne, put_hash_ne by rne. done.
  - rewrite lookup_delete_ne, put_hash_ne by rne. done.
Qed.

(** ** The sweep *)

#[local] Abbreviation safe := (keeps (R := R) living).

Lemma stale_spares a c members s : living s → members ≡ₚ map_to_list (hashof s (Keys.occ p a c)) →
  spares a c (stale_of now members).
Proof.
  intros Hs Hm E Hin. unfold stale_of in Hin. apply list_elem_of_fmap in Hin as ([t v] & Et & Hin).
  apply list_elem_of_filter in Hin as [Hst Hin]. rewrite Hm, E in Hin. apply elem_of_map_to_list in Hin.
  destruct (lv_member s Hs) as (v' & Hv' & Hf). simpl in *. congruence.
Qed.

Lemma safe_reap_member a c t : safe (reap_member ra a c t) (λ _, True).
Proof.
  eapply keeps_bind; [apply (keeps_remote living _ (λ _, True)); apply living_reap_member|].
  intros [[[user n] won]|] _; [|by apply keeps_ret].
  destruct (won =? 1)%Z; [apply keeps_emit_removed|by apply keeps_ret].
Qed.

Lemma safe_vacate a c : safe (sweep_vacate ra a c) (λ won, (a, c) = (app, channel) → won = false).
Proof.
  eapply keeps_bind; [apply (keeps_remote living _ (λ x, (a, c) = (app, channel) → x.1 ≠ 1%Z)); apply living_vacate|].
  intros [[won drained]|] Hw; [|by apply keeps_ret]. simpl in Hw.
  destruct (Z.eqb_spec won 1) as [->|]; [|by apply keeps_ret].
  apply keeps_seq; [apply keeps_for; intros; apply keeps_emit_removed|].
  apply keeps_seq; [apply keeps_hook|]. apply keeps_ret. intros E. by specialize (Hw E).
Qed.

Lemma safe_channel a c : safe (sweep_channel ra now a c) (λ x, (a, c) = (app, channel) → x.2 = false).
Proof.
  eapply keeps_bind.
  { apply (keeps_remote living _ (λ l, ∃ s, living s ∧ l ≡ₚ map_to_list (hashof s (Keys.occ p a c)))).
    intros s Hs. apply (living_read _ (λ l s, l ≡ₚ map_to_list (hashof s (Keys.occ p a c)))); [done|].
    apply HGETALL_law, (typed_hash p); [apply (living_keys s Hs)|auto with redis_keys]. }
  intros [members|] Hm; [|by apply keeps_ret]. destruct Hm as (s0 & Hs0 & Hm).
  pose proof (stale_spares a c members s0 Hs0 Hm) as Hsp. cbv zeta.
  apply keeps_seq.
  { destruct (is_presence c); [|by apply keeps_ret]. apply keeps_for. intros. apply safe_reap_member. }
  eapply (keeps_bind living _ _ (λ _, True)).
  { destruct (decide (stale_of now members = [])) as [|Hne]; [by apply keeps_ret|].
    eapply keeps_mono; [apply (keeps_remote living _ (λ _, True)); intros s; by apply living_hdel|done]. }
  intros [ok|] _; [|by apply keeps_ret]. destruct (_ <? _); [by apply keeps_ret|].
  eapply keeps_bind; [apply safe_vacate|]. intros won Hw. by apply keeps_ret.
Qed.

Lemma safe_channels a cs : safe (sweep_channels ra now a cs) (λ x, (app, channel) ∉ x.2).
Proof.
  induction cs as [|c cs IH]; simpl; [apply keeps_ret, not_elem_of_nil|].
  eapply keeps_bind; [apply safe_channel|]. intros x Hx. eapply keeps_bind; [exact IH|].
  intros y Hy. apply keeps_ret. simpl. rewrite elem_of_app. intros [Hin|Hin]; [|done].
  destruct x as [n []]; simpl in *; [|by apply elem_of_nil in Hin].
  apply list_elem_of_singleton in Hin. by specialize (Hx (eq_sym Hin)).
Qed.

Lemma safe_members k : key_type p k = Some TSet → safe (remote (SMEMBERS k)) (λ _, True).
Proof.
  intros Hk. eapply keeps_mono; [apply (keeps_remote living _ (λ _, True))|done]. intros s Hs.
  eapply wp_mono; [apply SMEMBERS_law, (typed_set p); [apply (living_keys s Hs)|done]|].
  cbv beta. by intros x s' [-> _].
Qed.

Lemma safe_apps as_ : safe (sweep_apps ra now as_) (λ x, (app, channel) ∉ x.2).
Proof.
  induction as_ as [|a as_ IH]; simpl; [apply keeps_ret, not_elem_of_nil|].
  eapply keeps_bind; [apply safe_members; auto with redis_keys|]. intros cs _.
  eapply (keeps_bind living _ _ (λ x, (app, channel) ∉ x.2)).
  { destruct cs; [apply safe_channels|apply keeps_ret, not_elem_of_nil]. }
  intros x Hx. eapply keeps_bind; [exact IH|]. intros y Hy. apply keeps_ret. simpl.
  by rewrite not_elem_of_app.
Qed.

Lemma safe_users a : (0 <= now <= LUA_INT)%Z → safe (sweep_users ra now a) (λ _, True).
Proof.
  intros Hnow. eapply keeps_bind; [apply safe_members; auto with redis_keys|].
  intros [users|] _; [|by apply keeps_ret]. apply keeps_for. intros user _.
  eapply keeps_bind; [apply (keeps_remote living _ (λ _, True)); intros s; by apply living_user_reap|].
  intros [[won dead]|] _; [|by apply keeps_ret]. destruct (won =? 1)%Z; [|by apply keeps_ret].
  apply keeps_envelope.
Qed.

Lemma safe_node node : safe (sweep_node ra node) (λ _, True).
Proof.
  eapply keeps_bind.
  { apply (keeps_remote living _ (λ _, True)). intros s Hs.
    eapply wp_mono; [apply EXISTS_law|]. cbv beta. by intros x s' [-> _]. }
  intros [[| |]|] _; [|by apply keeps_ret..].
  eapply keeps_bind; [apply (keeps_remote living _ (λ _, True)); apply living_reclaim|].
  intros [x|] _; [|by apply keeps_ret]. destruct (x =? -1)%Z; [by apply keeps_ret|].
  eapply keeps_bind; [|intros; by apply keeps_ret]. apply (keeps_remote living _ (λ _, True)). intros s Hs.
  eapply wp_mono; [apply SREM_law, (typed_set p); [apply (living_keys s Hs)|auto with redis_keys]|].
  cbv beta. intros y s' [_ ->]. split; [done|]. apply living_put_set; [done|auto with redis_keys|rne].
Qed.

Lemma typed_str s : typed p s → ∃ v, str_at s (Keys.sweeplock p) = Some v.
Proof.
  intros Hs. unfold str_at. destruct (s !! Keys.sweeplock p) as [v|] eqn:E; [|by eexists].
  specialize (Hs _ _ _ E (sweeplock_type p)). destruct v; [done..|by eexists].
Qed.

Lemma safe_lease lease : (0 < lease)%Z → safe (acquire_lease ra lease) (λ _, True).
Proof.
  intros Hl. eapply keeps_bind.
  { apply (keeps_remote living _ (λ _, True)). intros s Hs. eapply wp_mono; [by apply SET_NX_law|].
    cbv beta. intros x s'. destruct (s !! _); intros [_ ->]; [done|]. split; [done|].
    apply living_set_str; [done|apply sweeplock_type]. }
  intros [[x|]|] _; [by apply keeps_ret| |by apply keeps_ret]. eapply keeps_bind.
  { apply (keeps_remote living _ (λ _, True)). intros s Hs.
    destruct (typed_str s (proj1 (living_keys s Hs))) as [v Hv].
    eapply wp_mono; [by apply GET_law|]. cbv beta. by intros y s' [-> _]. }
  intros [[o|]|] _; [|by apply keeps_ret..]. case_decide; [|by apply keeps_ret].
  eapply keeps_bind; [|intros; by apply keeps_ret]. apply (keeps_remote living _ (λ _, True)). intros s Hs.
  eapply wp_mono; [by apply SET_law|]. cbv beta. intros y s' ->. split; [done|].
  apply living_set_str; [done|apply sweeplock_type].
Qed.

(** C11. A sweep at [now], with calls lost and other nodes at work between any two
    of its calls, never removes a connection whose stamp is fresh at [now]: the
    member and its channel's index entry are there after it, and the sweep does
    not report the channel vacated, which is when it enqueues the vacated
    event. *)
Theorem sweep_spares_live (lease : Z) (n : Node R) :
  (0 < lease)%Z → (0 <= now <= LUA_INT)%Z → living (space n) →
  Forall (λ t, ∀ r, living (keyspace r) → living (keyspace (tn_others t r))) (nd_turns n) →
  ((app, channel) ∉ sr_vacated (sweep_once ra lease now n).1) ∧
  living (space (sweep_once ra lease now n).2).
Proof.
  intros Hl Hnow Hs Hr.
  assert (safe (sweep_once ra lease now) (λ x, (app, channel) ∉ sr_vacated x)) as Hsafe; [|].
  2: { destruct (Hsafe n (conj Hs Hr)) as [HQ [Hg _]]. exact (conj HQ Hg). }
  eapply keeps_bind; [by apply safe_lease|]. intros [] _; simpl; [|apply keeps_ret, not_elem_of_nil].
  eapply keeps_bind; [apply safe_members; auto with redis_keys|]. intros apps _.
  eapply keeps_bind; [apply safe_apps|]. intros x Hx.
  eapply keeps_bind; [apply safe_members; auto with redis_keys|]. intros apps' _.
  apply keeps_seq; [apply keeps_for; intros a _; by apply safe_users|].
  eapply keeps_bind; [apply safe_members; auto with redis_keys|]. intros nodes _.
  apply keeps_seq; [apply keeps_for; intros; apply safe_node|]. by apply keeps_ret.
Qed.
End live.

(** ** The lease *)

Section lease.
Context `{SerdeJson, Moka, RedisLaws R, !Lua, !LuaLaws, !SerdeStruct, !Base64, !NetErrors} (ra : RedisAdapter).

(** Everything of a node but the server and the turns to come. *)
Definition outside_redis (n : Node R) :=
  (nd_local n, nd_env n, nd_tracked n, nd_hooks n, nd_metrics n, nd_wire n, nd_now_ms n).

Lemma remote_outside {A} (m : Script R A) n : outside_redis (remote m n).2 = outside_redis n.
Proof.
  unfold remote, obind, next_turn. destruct (nd_turns n) as [|[o f] ts]; simpl;
    [destruct (m _)|destruct f; simpl; try destruct (m _)]; done.
Qed.

(** While another node holds the sweep lease, a sweep does nothing: whatever
    the fates of its two calls, it reports that it did not run, keeps every
    property of the keyspace that says who holds the lease and that the other
    nodes keep, and delivers, publishes and enqueues nothing. *)
Theorem sweep_yields_to_holder (Inv : Keyspace → Prop) (holder : string) (lease now : Z) (n : Node R) :
  (∀ s, Inv s → s !! Keys.sweeplock (ra_prefix ra) = Some (RStr holder)) → holder ≠ ra_node_id ra →
  (0 < lease)%Z → Inv (space n) →
  Forall (λ t, ∀ r, Inv (keyspace r) → Inv (keyspace (tn_others t r))) (nd_turns n) →
  (sweep_once ra lease now n).1 = mkSweepReport false 0 [] ∧
  Inv (space (sweep_once ra lease now n).2) ∧
  outside_redis (sweep_once ra lease now n).2 = outside_redis n.
Proof.
  intros Hlock Hne Hl Hi Hr.
  pose proof (keeps_remote (R := R) Inv (SET_NX (Keys.sweeplock (ra_prefix ra)) (ra_node_id ra) lease)
    (λ a, a = None)) as K1.
  pose proof (keeps_remote (R := R) Inv (GET (Keys.sweeplock (ra_prefix ra))) (λ a, a = Some holder)) as K2.
  specialize (K1 ltac:(intros s Hs; eapply wp_mono; [by apply SET_NX_law|]; cbv beta; intros a s';
    rewrite (Hlock s Hs); by intros [-> ->])).
  specialize (K2 ltac:(intros s Hs; eapply wp_mono;
    [apply GET_law; unfold str_at; by rewrite (Hlock s Hs)|]; cbv beta; by intros a s' [-> ->])).
  unfold sweep_once, acquire_lease, obind.
  destruct (K1 n (conj Hi Hr)) as [Q1 G1].
  pose proof (remote_outside (SET_NX (Keys.sweeplock (ra_prefix ra)) (ra_node_id ra) lease) n) as O1.
  destruct (remote (SET_NX _ _ _) n) as [[a|] n1]; simpl in *; [subst a|by destruct G1].
  destruct (K2 n1 G1) as [Q2 G2].
  pose proof (remote_outside (GET (Keys.sweeplock (ra_prefix ra))) n1) as O2.
  destruct (remote (GET _) n1) as [[b|] n2]; simpl in *; [subst b|]; simpl.
  - rewrite decide_False by done. simpl. destruct G2. split_and!; [done|done|congruence].
  - destruct G2. split_and!; [done|done|congruence].
Qed.
End lease.

(** The backstop times to live outlast what they back: a dead node's capacity
    counts outlive its liveness key, the lease it may hold and one sweep tick by
    a heartbeat, and a channel's stamps outlive the stamp horizon, the lease and
    one tick; with intervals below [2^32] nothing leaves [u64]. *)
Theorem ttl_backstops (c : RedisConfig) :
  (0 <= node_heartbeat_secs c < 2 ^ 32)%Z → (0 <= sweep_interval_secs c < 2 ^ 32)%Z →
  (0 <= membership_ttl_secs c < 2 ^ 32)%Z →
  (node_ttl_secs c * 1000 + lease_ms c + sweep_interval_secs c * 1000 + Z.max (node_heartbeat_secs c) 1 * 1000
     <= node_conns_ttl_secs c * 1000 < 2 ^ 64)%Z ∧
  (membership_ttl_secs c * 1000 + lease_ms c + sweep_interval_secs c * 1000
     <= occ_ttl_secs c * 1000 < 2 ^ 64)%Z ∧
  (0 < lease_ms c < 2 ^ 64)%Z.
Proof. unfold node_ttl_secs, lease_ms, node_conns_ttl_secs, occ_ttl_secs. lia. Qed.
