(* ===== verification/ClusterWitness.v ===== *)
(** * A node to evaluate on

    A node whose local adapter has one subscriber of a channel, over the
    concrete store, and the theorems on nodes at that node. *)

From S2P Require Import Prelude RustStd Json JsonDemo EnvelopeDemo RedisDemo.
From S2P Require Import Protocol Kind Fanout Mailbox ChannelState Registry UserRegistry Adapter.
From S2P Require Import RedisStore RedisKeys RedisScripts RedisMembership RedisCapacity RedisTypes RedisProps.
From S2P Require Import Envelope App Webhook ClusterNode RedisAdapter Sweeper Bridge.
From S2P Require Import ClusterProps ReconcileProps SweeperProps.

#[local] Existing Instance MokaDemo.store.
#[local] Existing Instance JsonDemo.demo.
#[local] Existing Instance RedisDemo.store.
#[local] Existing Instance RedisDemo.view.
#[local] Existing Instance RedisDemo.lua.
#[local] Existing Instance RedisDemo.lua_laws.
#[local] Existing Instance RedisDemo.laws.
#[local] Existing Instance EnvelopeDemo.serde.
#[local] Existing Instance EnvelopeDemo.serde_laws.
#[local] Existing Instance EnvelopeDemo.b64.
#[local] Existing Instance EnvelopeDemo.b64_laws.

Module ClusterDemo.
#[local] Instance net : NetErrors := {| publish_error := "no reply"; utf8_error := "not UTF-8" |}.

Definition cfg : RedisConfig := mkRedisConfig 60 20 5 5 0 false false.
Definition ra : RedisAdapter := mkRedisAdapter "p" "n1" cfg.

Definition handle : ConnectionHandle := ChannelDemo.handle "1.1" 0.

Definition env : Env := mkEnv (mkStore {[0 := mkChan [] 8 false]} ∅ ∅ ∅) (mkPercore ∅ false None) 0.

(** The local adapter after one subscription. *)
Definition local : LocalAdapter * Env :=
  (ad_subscribe "app" "room" handle None (LocalAdapter_new ∅ ∅, env)).1.

Definition node (s : Keyspace) (turns : list (Turn Keyspace)) : Node Keyspace :=
  mkNode local.1 local.2 ∅ (mkWebhookHandle [] false 0 0 16) ClusterMetrics_new s [] turns 1000.

Definition lost : Turn Keyspace := mkTurn id NotSent.
Definition unheard : Turn Keyspace := mkTurn id ReplyLost.

Definition by_id (id : string) : result AppLookup AppLookupError := Ok NotFound.
End ClusterDemo.
#[local] Existing Instance ClusterDemo.net.

Lemma broadcast_relayed_once_witness :
  ∃ payload n', redis_broadcast ClusterDemo.ra "app" "room" Ping None (ClusterDemo.node ∅ []) = (Ok tt, n') ∧
    nd_wire n' = [mkPublication false "p:msg:app:{room}" payload] ∧
    receive "n1" ClusterDemo.local (Message (Some payload)) = ClusterDemo.local ∧
    receive "n2" ClusterDemo.local (Message (Some payload)) =
      (ad_broadcast "app" "room" (Raw (frame_once Ping)) None ClusterDemo.local).1.
Proof.
  assert (utf8_valid (as_bytes (frame_once Ping)) = true) as Hu by (vm_compute; reflexivity).
  pose proof (broadcast_relayed_once (R := Keyspace) ClusterDemo.ra (ClusterDemo.node ∅ []) "app" "room"
    Ping None Hu ltac:(intros sid E; discriminate E)) as Hv.
  destruct (redis_broadcast _ _ _ _ _ _) as [a n'].
  destruct Hv as (payload & Hr & -> & Hw & _). exists payload, n'.
  split; [reflexivity|]. split; [exact Hw|]. split; [exact (Hr "n1" _)|exact (Hr "n2" _)].
Defined.

Lemma redis_down_keeps_local_witness :
  ∃ a n', redis_unsubscribe ClusterDemo.ra "app" "room" (ch_socket_id ClusterDemo.handle)
      (ClusterDemo.node ∅ [ClusterDemo.lost; ClusterDemo.unheard; ClusterDemo.lost; ClusterDemo.lost]) = (a, n') ∧
    uo_vacated a = true ∧ nd_wire n' = [].
Proof.
  pose proof (redis_down_keeps_local (R := Keyspace) ClusterDemo.ra
    (ClusterDemo.node ∅ [ClusterDemo.lost; ClusterDemo.unheard; ClusterDemo.lost; ClusterDemo.lost])
    "app" "room" "u" ClusterDemo.handle None (ch_socket_id ClusterDemo.handle)) as Hv.
  destruct Hv as (_ & (a & n' & E & Hl) & _).
  - split; [simpl; lia|]. repeat (apply Forall_cons; split; [discriminate|]). apply Forall_nil_2.
  - exists a, n'. split; [exact E|]. unfold local_only in Hl.
    assert ((ad_unsubscribe "app" "room" (ch_socket_id ClusterDemo.handle) ClusterDemo.local).2
      = mkUnsubscribeOutcome 0 None true) as Ho by (vm_compute; reflexivity).
    change (nd_local (ClusterDemo.node _ _), nd_env (ClusterDemo.node _ _)) with ClusterDemo.local in Hl.
    destruct (ad_unsubscribe _ _ _ _) as [w out]. simpl in Ho. subst out.
    destruct Hl as (-> & _ & _ & Hw & _). exact (conj eq_refl Hw).
Defined.

(** Two users hold the channel's two seats; the third is refused. *)
Definition two_seats : Keyspace :=
  put_hash (Keys.presusers "p" "app" "presence-room") {["u1" := dec 1; "u2" := dec 1]} ∅.

Lemma two_seats_typed : typed "p" two_seats.
Proof.
  apply typed_put_counts; [apply typed_empty| |auto with redis_keys].
  do 2 (apply counts_insert). apply map_Forall_empty.
Qed.

Lemma full_channel_leaves_no_trace_witness :
  ∃ n', handle_presence_subscribe (R := Keyspace) ClusterDemo.ra ClusterDemo.by_id true 2 "app" "presence-room"
      (ChannelDemo.member "u3" "x") (ch_socket_id ClusterDemo.handle) (ch_mailbox ClusterDemo.handle) true
      (ClusterDemo.node two_seats []) = (tt, n') ∧
    space n' = two_seats ∧ nd_wire n' = [] ∧ nd_tracked n' = ∅.
Proof.
  pose proof (full_channel_leaves_no_trace (R := Keyspace) ClusterDemo.ra ClusterDemo.by_id true 2
    (ClusterDemo.node two_seats []) "app" "presence-room" (ChannelDemo.member "u3" "x")
    (ch_socket_id ClusterDemo.handle) (ch_mailbox ClusterDemo.handle) true
    ltac:(done) two_seats_typed (no_empty_put_hash _ _ _ no_empty_empty) ltac:(unfold LUA_INT; lia)
    ltac:(vm_compute; reflexivity) ltac:(vm_compute; discriminate)) as Hv.
  cbv zeta in Hv.
  assert ((ad_unsubscribe "app" "presence-room" (ch_socket_id ClusterDemo.handle)
    (nd_local (ClusterDemo.node two_seats []),
     set_store (send_ (ch_mailbox ClusterDemo.handle)
       (SubscriptionError "presence-room" "LimitReached" "Presence channel is full" 4004)
       (env_store (nd_env (ClusterDemo.node two_seats [])))) (nd_env (ClusterDemo.node two_seats [])))).2
    = mkUnsubscribeOutcome 0 None false) as Ho by (vm_compute; reflexivity).
  destruct (ad_unsubscribe _ _ _ _) as [w out]. simpl in Ho. subst out.
  destruct Hv as (n' & E & Hs & _ & Hw & _ & Ht). exists n'.
  split; [exact E|]. split; [exact Hs|]. split; [exact Hw|]. rewrite Ht. vm_compute. reflexivity.
Defined.

(** A granted admission that nobody waits for. *)
Lemma admission_unit_owned_witness :
  ∃ n', handle_cmd (R := Keyspace) ClusterDemo.ra ClusterDemo.by_id true (λ _, false) 100
      (CC.AdmitApp "app" 10 0) (ClusterDemo.node ∅ []) = (None, n') ∧
    held "p" cluster (space n') "app" = held "p" cluster ∅ "app".
Proof.
  pose proof (admission_unit_owned (R := Keyspace) ClusterDemo.ra cluster _ ClusterDemo.by_id true (λ _, false) 100
    (ClusterDemo.node ∅ []) "app" 10 0 cluster_nodup ltac:(done) books_empty ltac:(by left)
    ltac:(unfold U32_MAX; lia) ltac:(vm_compute; reflexivity) ltac:(vm_compute; reflexivity)) as Hv.
  destruct Hv as (n' & E & _ & Hh). exists n'. split; [exact E|]. etrans; [exact Hh|apply Z.add_0_r].
Defined.

Lemma reconcile_restores_witness :
  ∃ n', reconcile_tick (R := Keyspace) ClusterDemo.ra (ClusterDemo.node ∅ []) = (tt, n') ∧
    hashof (space n') (Keys.occ "p" "app" "room") !! "n1:1.1" = Some (dec 61000).
Proof.
  assert (0 < membership_ttl_secs (ra_cfg ClusterDemo.ra))%Z as Httl by reflexivity.
  assert (typed "p" (space (ClusterDemo.node ∅ []))) as Ht by apply typed_empty.
  pose proof (reconcile_restores (R := Keyspace) ClusterDemo.ra (ClusterDemo.node ∅ []) eq_refl Ht Httl) as Hv.
  assert (local_groups (ClusterDemo.node ∅ []) =
    ([(("app", "room"), [ch_socket_id ClusterDemo.handle])], [])) as Hg by (vm_compute; reflexivity).
  rewrite Hg in Hv. destruct Hv as (n' & E & Ha & _). exists n'. split; [exact E|].
  destruct (Ha "app" "room" [ch_socket_id ClusterDemo.handle] (ch_socket_id ClusterDemo.handle)) as [Hs _];
    [by left|by left|exact Hs].
Defined.

(** A channel with one live and one stale member, while a third joins between
    every two calls. *)
Definition mixed : Keyspace :=
  put_set (Keys.chans "p" "app") {["room"]}
    (put_hash (Keys.occ "p" "app" "room") {["n1:1.1" := "2000"; "n2:2.2" := "500"]} ∅).

Lemma mixed_living : living ClusterDemo.ra 1000 "app" "room" "n1:1.1" mixed.
Proof.
  split.
  - apply kept_put_set, chans_type. apply kept_put_hash, occ_type. split; [apply typed_empty|apply no_empty_empty].
  - apply counters_put_set, chans_type. apply counters_put_hash, occ_type.
    intros k f v _ Hv. unfold hashof, hash_at in Hv. rewrite lookup_empty in Hv. discriminate Hv.
  - exists "2000". split; vm_compute; reflexivity.
  - apply (bool_decide_unpack _). by vm_compute.
Qed.

Definition stamp_third (s : Keyspace) : Keyspace :=
  put_hash (Keys.occ "p" "app" "room") (<["n3:3.3" := "100"]> (hashof s (Keys.occ "p" "app" "room"))) s.

Lemma stamp_third_living s :
  living ClusterDemo.ra 1000 "app" "room" "n1:1.1" s →
  living ClusterDemo.ra 1000 "app" "room" "n1:1.1" (stamp_third s).
Proof.
  intros [Hk Hc (v & Hv & Hf) Hi]. unfold stamp_third. split.
  - by apply kept_put_hash, occ_type.
  - by apply counters_put_hash, occ_type.
  - exists v. rewrite hashof_put_eq. split; [|done]. by rewrite lookup_insert_ne.
  - unfold setof. rewrite (set_at_ext _ s); [done|]. apply put_hash_ne. rne.
Qed.

Lemma sweep_spares_live_witness :
  (("app", "room") ∉ sr_vacated (sweep_once (R := Keyspace) ClusterDemo.ra 15000 1000
     (ClusterDemo.node mixed [mkTurn stamp_third Answered; mkTurn stamp_third ReplyLost])).1) ∧
  living ClusterDemo.ra 1000 "app" "room" "n1:1.1" (space (sweep_once (R := Keyspace) ClusterDemo.ra 15000 1000
     (ClusterDemo.node mixed [mkTurn stamp_third Answered; mkTurn stamp_third ReplyLost])).2).
Proof.
  apply (sweep_spares_live (R := Keyspace)); [lia|unfold LUA_INT; lia|exact mixed_living|].
  repeat (apply Forall_cons; split; [exact stamp_third_living|]). apply Forall_nil_2.
Defined.

Lemma sweep_yields_to_holder_witness :
  (sweep_once (R := Keyspace) ClusterDemo.ra 15000 1000
     (ClusterDemo.node {[Keys.sweeplock "p" := RStr "n2"]} [mkTurn id Answered; mkTurn id ReplyLost])).1
  = mkSweepReport false 0 [].
Proof.
  apply (sweep_yields_to_holder (R := Keyspace) ClusterDemo.ra
    (λ s, s !! Keys.sweeplock "p" = Some (RStr "n2")) "n2"); [done|done|lia|by apply lookup_singleton_eq|].
  repeat (apply Forall_cons; split; [by intros r Hr|]). apply Forall_nil_2.
Defined.

Lemma ttl_backstops_witness :
  (node_ttl_secs ClusterDemo.cfg = 15 ∧ lease_ms ClusterDemo.cfg = 15000 ∧
   node_conns_ttl_secs ClusterDemo.cfg = 45)%Z ∧
  (15 * 1000 + 15000 + 5 * 1000 + 5 * 1000 <= 45 * 1000 < 2 ^ 64)%Z.
Proof.
  pose proof (ttl_backstops ClusterDemo.cfg ltac:(simpl; lia) ltac:(simpl; lia) ltac:(simpl; lia)) as Hv.
  split; [split; [|split]; vm_compute; reflexivity|exact (proj1 Hv)].
Defined.
