(* ===== verification/Dispatcher.v ===== *)
(** * Webhook dispatch: [src/src/webhook/dispatcher.rs],
    [src/src/webhook/occupancy.rs] and the signing and retry policy of
    [src/src/webhook/transport.rs]

    The dispatcher batches queued events, groups them by app, filters them per
    endpoint, signs one envelope per endpoint and hands it to the transport;
    [channel_vacated] and [member_removed] wait out a grace window and fire only
    if the client did not come back. The app store's answers, the occupancy
    source and the HTTP attempts are arguments. *)

From S2P Require Import Prelude RustStd Json Protocol Kind Mailbox ChannelState Adapter Auth App.
From S2P Require Import Webhook.

(** ** Signed deliveries *)

Record WebhookDelivery : Type := mkWebhookDelivery {
  wd_url : string;
  wd_body : string;
  wd_headers : gmap string string
}.

Fixpoint sort_keys (v : Value) : Value :=
  match v with
  | JObject m => JObject (merge_sort key_le (map (λ p, (p.1, sort_keys p.2)) m))
  | JArray l => JArray (map sort_keys l)
  | other => other
  end.

Section dispatcher.
Context `{SerdeJson, Crypto}.

Definition build_signed_delivery (url app_key secret : string) (time_ms : Z)
    (events : list Value) (custom : gmap string string) : WebhookDelivery :=
  let envelope := json_object [("time_ms", json_uint time_ms); ("events", JArray events)] in
  let body := to_string (sort_keys envelope) in
  let signature := hmac_sha256_hex secret body in
  mkWebhookDelivery url body
    (<["X-Pusher-Signature" := signature]>
     (<["X-Pusher-Key" := app_key]>
      (<["Content-Type" := "application/json"]> custom))).

(** ** One flush *)

(** The events an endpoint subscribes to, in order. *)
Definition selected (endpoint : WebhookConfig) (events : list WebhookEvent) : list WebhookEvent :=
  filter (λ e, event_name e ∈ wc_event_types endpoint) events.

Fixpoint deliver_endpoints (app : App) (time_ms : Z) (events : list WebhookEvent)
    (endpoints : list WebhookConfig) : list WebhookDelivery :=
  match endpoints with
  | [] => []
  | endpoint :: endpoints =>
      let sel := to_json <$> selected endpoint events in
      let rest := deliver_endpoints app time_ms events endpoints in
      if decide (sel = []) then rest
      else build_signed_delivery (wc_url endpoint) (app_key app) (app_secret app) time_ms sel
             (wc_headers endpoint) :: rest
  end.

Definition deliver_app_events (app : App) (time_ms : Z) (events : list WebhookEvent)
    : list WebhookDelivery :=
  deliver_endpoints app time_ms events (app_webhooks app).

(** Partition by app, in arrival order within an app. *)
Definition by_app (batch : list WebhookEvent) : gmap string (list WebhookEvent) :=
  foldl (λ m e, <[event_app e := default [] (m !! event_app e) ++ [e]]> m) ∅ batch.

(** What the grace window defers. *)
Definition is_grace (e : WebhookEvent) : bool :=
  match e with Hook.ChannelVacated _ _ | Hook.MemberRemoved _ _ _ => true | _ => false end.

(** The app store, at flush time. *)
Variable by_id : string → result AppLookup AppLookupError.

(** One app of the flush: what is handed to the transport now, and the events
    whose grace task is spawned. *)
Definition flush_app (grace_ms time_ms : Z) (app_id : string) (events : list WebhookEvent)
    : list WebhookDelivery * list WebhookEvent :=
  let defer := (0 <? grace_ms)%Z in
  let deferred := if defer then filter (λ e, is_grace e = true) events else [] in
  let immediate := if defer then filter (λ e, is_grace e = false) events else events in
  if decide (immediate = []) then ([], deferred)
  else
    match by_id app_id with
    | Ok (Found app) =>
        (if decide (app_webhooks app = []) then [] else deliver_app_events app time_ms immediate,
         deferred)
    | Ok _ => ([], [])
    | Err _ => ([], [])
    end.

Definition flush (grace_ms time_ms : Z) (batch : list WebhookEvent)
    : list WebhookDelivery * list WebhookEvent :=
  foldl (λ acc kv, let '(ds, gs) := flush_app grace_ms time_ms kv.1 kv.2 in
                   (acc.1 ++ ds, acc.2 ++ gs)) ([], []) (map_to_list (by_app batch)).

(** ** The grace task *)

(** An occupancy source, read at fire time. *)
Record Occupancy : Type := mkOccupancy {
  occ_subscription_count : string → string → nat;
  occ_is_member_present : string → string → string → bool
}.

(** The client is back. *)
Definition reconnected (occ : option Occupancy) (event : WebhookEvent) : bool :=
  match occ, event with
  | Some occ, Hook.MemberRemoved app channel user_id => occ_is_member_present occ app channel user_id
  | Some occ, Hook.ChannelVacated app channel => negb (occ_subscription_count occ app channel =? 0)%nat
  | _, _ => false
  end.

(** What the spawned task does after its sleep. *)
Definition fire (occ : option Occupancy) (time_ms : Z) (event : WebhookEvent)
    : list WebhookDelivery :=
  if reconnected occ event then []
  else
    match by_id (event_app event) with
    | Ok (Found app) =>
        if decide (app_webhooks app = []) then [] else deliver_app_events app time_ms [event]
    | _ => []
    end.
End dispatcher.

(** [AdapterOccupancy]. *)
Definition adapter_occupancy `{Adapter A} (w : A * Env) : Occupancy :=
  mkOccupancy
    (λ app channel, cs_subscription_count (ad_channel app channel w))
    (λ app channel user_id,
       existsb (λ m, bool_decide (pm_user_id m = user_id)) (ad_presence_members app channel w)).

(** ** The batch window *)

(** [run]: an event received at a time opens a window of [batch_ms]; the events
    received before its deadline join the batch, which is then flushed. Times
    are when the actor receives. *)
Fixpoint collect (deadline : Z) (arrivals : list (Z * WebhookEvent))
    : list WebhookEvent * list (Z * WebhookEvent) :=
  match arrivals with
  | (t, e) :: rest =>
      if (t <? deadline)%Z
      then let '(batch, rest) := collect deadline rest in (e :: batch, rest)
      else ([], arrivals)
  | [] => ([], [])
  end.

Fixpoint run (fuel : nat) (batch_ms : Z) (arrivals : list (Z * WebhookEvent))
    : list (list WebhookEvent) :=
  match fuel, arrivals with
  | S fuel, (t, first) :: rest =>
      let '(batch, rest) := collect (t + batch_ms) rest in
      (first :: batch) :: run fuel batch_ms rest
  | _, _ => []
  end.

(** ** The retry policy *)

(** One HTTP attempt, times in nanoseconds: its status ([None] a transport
    error), how long it took, the time between the two clock readings that
    follow, how late the sleep woke, and the wait for the next permit ([None]
    when the semaphore is closed). *)
Record Attempt : Type := mkAttempt {
  at_status : option Z;
  at_took : Z;
  at_gap : Z;
  at_late : Z;
  at_permit : option Z
}.

Inductive Outcome : Type := DeliveredOk | DeliveredFailed.

Definition MILLI : Z := 1000000.

(** The attempt loop from the first permit: the outcome and the number of posts;
    [None] while the script of attempts has not resolved it. *)
Fixpoint attempt_loop (cap_ms budget_ms delay_ms elapsed : Z) (posts : nat)
    (attempts : list Attempt) : option Outcome * nat :=
  match attempts with
  | [] => (None, posts)
  | a :: attempts =>
      let posts := S posts in
      let ok := match at_status a with
                | Some status => (200 <=? status)%Z && (status <? 300)%Z
                | None => false
                end in
      if ok then (Some DeliveredOk, posts)
      else
        let elapsed := (elapsed + at_took a)%Z in
        if (budget_ms * MILLI <=? elapsed)%Z then (Some DeliveredFailed, posts)
        else
          let elapsed := (elapsed + at_gap a)%Z in
          let remaining_ms := ((budget_ms - elapsed / MILLI) mod 2 ^ 64)%Z in
          let sleep_ms := Z.min delay_ms remaining_ms in
          let elapsed := (elapsed + sleep_ms * MILLI + at_late a)%Z in
          match at_permit a with
          | None => (Some DeliveredFailed, posts)
          | Some wait =>
              attempt_loop cap_ms budget_ms (Z.min (U64.saturating_mul delay_ms 2) cap_ms)
                (elapsed + wait) posts attempts
          end
  end.

(** [deliver] past the address guard; the constructor floors the cap at 1. *)
Definition deliver_attempts (base_ms cap_ms budget_ms : Z) (attempts : list Attempt)
    : option Outcome * nat :=
  let cap := Z.max cap_ms 1 in
  attempt_loop cap budget_ms (Z.min (Z.max base_ms 1) cap) 0 0 attempts.

(** ** Grouping *)

Lemma by_app_lookup batch a :
  by_app batch !! a =
  if decide (filter (λ e, event_app e = a) batch = []) then None
  else Some (filter (λ e, event_app e = a) batch).
Proof.
  induction batch as [|e batch IH] using rev_ind; [done|].
  unfold by_app. rewrite foldl_app. simpl. fold (by_app batch). rewrite filter_app.
  destruct (decide (event_app e = a)) as [<-|Hne].
  - rewrite lookup_insert_eq, IH, filter_cons_True, filter_nil by done.
    destruct (decide (filter (λ e0, event_app e0 = event_app e) batch = [])) as [Hb|Hb].
    + by rewrite Hb.
    + rewrite decide_False; [done|]. intros Hnil. by apply app_eq_nil in Hnil as [_ ?].
  - rewrite lookup_insert_ne, filter_cons_False, filter_nil, app_nil_r by done. exact IH.
Qed.

Lemma by_app_keys batch :
  (map_to_list (by_app batch)).*1 ≡ₚ remove_dups (event_app <$> batch).
Proof.
  apply NoDup_Permutation; [apply NoDup_fst_map_to_list|apply NoDup_remove_dups|].
  intros a. rewrite elem_of_remove_dups, !list_elem_of_fmap. split.
  - intros ([a' evs] & -> & Hin). apply elem_of_map_to_list in Hin.
    rewrite by_app_lookup in Hin. simpl. case_decide as Hf; [done|].
    destruct (filter (λ e, event_app e = a') batch) as [|e l] eqn:Hl; [done|].
    assert (e ∈ filter (λ e, event_app e = a') batch) as [? ?]%list_elem_of_filter
      by (rewrite Hl; set_solver). eauto.
  - intros (e & -> & Hin).
    exists (event_app e, filter (λ e', event_app e' = event_app e) batch). split; [done|].
    apply elem_of_map_to_list. rewrite by_app_lookup. case_decide as Hf; [|done].
    assert (e ∈ filter (λ e', event_app e' = event_app e) batch) as Hc
      by (apply list_elem_of_filter; done). rewrite Hf in Hc. by apply elem_of_nil in Hc.
Qed.

Lemma by_app_groups batch :
  map_to_list (by_app batch) =
  (λ a, (a, filter (λ e, event_app e = a) batch)) <$> (map_to_list (by_app batch)).*1.
Proof.
  rewrite <-list_fmap_compose. rewrite <-(list_fmap_id (map_to_list (by_app batch))) at 1.
  apply list_fmap_ext. intros i [a evs] Hi%list_elem_of_lookup_2. simpl.
  apply elem_of_map_to_list in Hi. rewrite by_app_lookup in Hi. by case_decide; simplify_eq.
Qed.

(** ** Retries end *)

Definition attempt_ok (a : Attempt) : Prop :=
  (0 <= at_took a ∧ 0 <= at_gap a ∧ 0 <= at_late a ∧ 0 <= default 0 (at_permit a))%Z.

Definition is_2xx (a : Attempt) : bool :=
  match at_status a with
  | Some status => (200 <=? status)%Z && (status <? 300)%Z
  | None => false
  end.

(** A retry costs at least a millisecond of the budget, or exhausts it. *)
Lemma retry_progress budget delay e k gap late wait :
  (1 <= delay)%Z → (0 <= k)%Z → (budget < 2 ^ 64)%Z → (k * MILLI <= e)%Z → (e < budget * MILLI)%Z →
  (0 <= gap)%Z → (0 <= late)%Z → (0 <= wait)%Z →
  let sleep := Z.min delay ((budget - (e + gap) / MILLI) mod 2 ^ 64) in
  ((k + 1) * MILLI <= e + gap + sleep * MILLI + late + wait)%Z.
Proof.
  intros Hd Hk Hb Hke Heb Hg Hl Hw sleep. unfold MILLI in *.
  assert (0 <= sleep)%Z as Hs.
  { pose proof (Z.mod_pos_bound (budget - (e + gap) / 1000000) (2 ^ 64)). lia. }
  destruct (decide ((e + gap) / 1000000 < budget)%Z) as [Hlt|Hge].
  - assert (1 <= sleep)%Z; [|lia]. subst sleep.
    rewrite Z.mod_small; [lia|]. split; [lia|].
    pose proof (Z.div_pos (e + gap) 1000000). lia.
  - pose proof (Z.mul_div_le (e + gap) 1000000). lia.
Qed.

Lemma attempt_loop_bound cap budget attempts delay e posts k :
  (1 <= cap)%Z → (1 <= delay)%Z → (0 <= k <= budget)%Z → (budget < 2 ^ 64)%Z →
  (k * MILLI <= e)%Z → Forall attempt_ok attempts →
  let '(r, n) := attempt_loop cap budget delay e posts attempts in
  (Z.of_nat n <= Z.of_nat posts + (budget - k) + 1)%Z ∧
  (r = None → n = posts + length attempts ∧ (Z.of_nat n <= Z.of_nat posts + (budget - k))%Z).
Proof.
  intros Hc Hd Hk Hb He Hall. revert delay e posts k Hd Hk He.
  induction Hall as [|a attempts (Ht & Hg & Hl & Hp) _ IH]; intros delay e posts k Hd Hk He; simpl.
  { split; [lia|]. intros _. lia. }
  fold (is_2xx a). destruct (is_2xx a); [split; [lia|done]|].
  destruct (Z.leb_spec (budget * MILLI) (e + at_took a)); [split; [lia|done]|].
  destruct (at_permit a) as [wait|]; [|split; [lia|done]]. simpl in Hp.
  pose proof (retry_progress budget delay (e + at_took a) k (at_gap a) (at_late a) wait
    Hd ltac:(lia) Hb ltac:(lia) ltac:(lia) Hg Hl Hp) as Hpr. simpl in Hpr.
  assert (k < budget)%Z as Hkb by (unfold MILLI in *; nia).
  match goal with |- let '(r, n) := attempt_loop _ _ ?d ?e' ?p attempts in _ =>
    specialize (IH d e' p (k + 1)%Z) end.
  destruct (attempt_loop _ _ _ _ _ attempts) as [r n].
  destruct IH as [Hn Hr]; [unfold U64.saturating_mul, U64.MAX; lia|lia|lia|].
  split; [lia|]. intros Hnone. destruct (Hr Hnone). lia.
Qed.

Lemma attempt_loop_ok cap budget attempts delay e posts :
  let '(r, n) := attempt_loop cap budget delay e posts attempts in
  r = Some DeliveredOk ↔
  ∃ i a, attempts !! i = Some a ∧ n = posts + S i ∧ is_2xx a = true.
Proof.
  revert delay e posts. induction attempts as [|a attempts IH]; intros delay e posts; simpl.
  { split; [done|]. intros (i & a & Hi & _). by rewrite lookup_nil in Hi. }
  fold (is_2xx a). destruct (is_2xx a) eqn:Ha.
  { split; [|done]. intros _. exists 0, a. split_and!; [done|lia|done]. }
  assert (Some DeliveredFailed = Some DeliveredOk ↔
    ∃ i b, (a :: attempts) !! i = Some b ∧ S posts = posts + S i ∧ is_2xx b = true) as Hfail.
  { split; [done|]. intros (i & b & Hi & Hn & Hb).
    assert (i = 0) as -> by lia. injection Hi as <-. congruence. }
  destruct (_ <=? _)%Z; [exact Hfail|]. destruct (at_permit a) as [wait|]; [|exact Hfail].
  match goal with |- let '(r, n) := attempt_loop _ _ ?d ?e' ?p attempts in _ =>
    specialize (IH d e' p) end.
  destruct (attempt_loop _ _ _ _ _ attempts) as [r n]. rewrite IH. split.
  - intros (i & b & Hi & Hn & Hb). exists (S i), b. split_and!; [done|lia|done].
  - intros ([|i] & b & Hi & Hn & Hb); [injection Hi as <-; congruence|].
    exists i, b. split_and!; [done|lia|done].
Qed.

(** ** Windows and flushes *)

Lemma collect_app deadline arrivals :
  let '(batch, rest) := collect deadline arrivals in
  arrivals.*2 = batch ++ rest.*2 ∧ length rest ≤ length arrivals.
Proof.
  induction arrivals as [|[t e] arrivals IH]; simpl; [done|].
  destruct (t <? deadline)%Z; [|done]. destruct (collect deadline arrivals) as [batch rest].
  destruct IH as [Hb Hl]. csimpl. rewrite Hb. split; [done|lia].
Qed.

(** Every received event is in exactly one batch, in order; no batch is empty. *)
Lemma run_batches fuel batch_ms arrivals :
  length arrivals ≤ fuel →
  concat (run fuel batch_ms arrivals) = arrivals.*2 ∧ Forall (λ b, b ≠ []) (run fuel batch_ms arrivals).
Proof.
  revert arrivals. induction fuel as [|fuel IH]; intros [|[t e] arrivals] Hl; simpl in *; try done; [lia|].
  pose proof (collect_app (t + batch_ms) arrivals) as Hc.
  destruct (collect (t + batch_ms) arrivals) as [batch rest]. destruct Hc as [Hc Hr].
  destruct (IH rest ltac:(lia)) as [Heq Hne]. csimpl. rewrite Heq, Hc.
  split; [done|]. by apply Forall_cons.
Qed.

Section flush.
Context `{SerdeJson, Crypto} (by_id : string → result AppLookup AppLookupError).

(** An app's events that wait, and those that do not. *)
Definition waits (grace_ms : Z) (e : WebhookEvent) : bool := (0 <? grace_ms)%Z && is_grace e.

Definition now_of (grace_ms : Z) (a : string) (batch : list WebhookEvent) : list WebhookEvent :=
  filter (λ e, event_app e = a ∧ waits grace_ms e = false) batch.

Definition later_of (grace_ms : Z) (a : string) (batch : list WebhookEvent) : list WebhookEvent :=
  filter (λ e, event_app e = a ∧ waits grace_ms e = true) batch.

(** What one app's endpoints get: one envelope each, if anything was selected. *)
Definition envelopes (time_ms : Z) (app : App) (events : list WebhookEvent)
    : list WebhookDelivery :=
  app_webhooks app ≫= λ ep,
    match selected ep events with
    | [] => []
    | sel => [build_signed_delivery (wc_url ep) (app_key app) (app_secret app) time_ms
                (to_json <$> sel) (wc_headers ep)]
    end.

Lemma deliver_app_envelopes app time_ms events :
  deliver_app_events app time_ms events = envelopes time_ms app events.
Proof.
  unfold deliver_app_events, envelopes. induction (app_webhooks app) as [|ep eps IH]; [done|].
  rewrite bind_cons, <-IH. simpl. by destruct (selected ep events).
Qed.

Lemma flush_fold grace_ms time_ms groups acc :
  foldl (λ acc kv, let '(ds, gs) := flush_app by_id grace_ms time_ms kv.1 kv.2 in
                   (acc.1 ++ ds, acc.2 ++ gs)) acc groups =
  (acc.1 ++ (groups ≫= λ kv, (flush_app by_id grace_ms time_ms kv.1 kv.2).1),
   acc.2 ++ (groups ≫= λ kv, (flush_app by_id grace_ms time_ms kv.1 kv.2).2)).
Proof.
  revert acc. induction groups as [|[a evs] groups IH]; intros [ds gs]; simpl.
  { by rewrite !app_nil_r. }
  destruct (flush_app by_id grace_ms time_ms a evs) as [ds1 gs1]. rewrite IH. simpl.
  by rewrite <-!(assoc_L (++)).
Qed.

Lemma filter_and {B} (P Q : B → Prop) `{!∀ x, Decision (P x), !∀ x, Decision (Q x)} (l : list B) :
  filter Q (filter P l) = filter (λ x, P x ∧ Q x) l.
Proof.
  rewrite list_filter_filter. apply list_filter_iff. intros x. naive_solver.
Qed.

Lemma filter_none {B} (P : B → Prop) `{!∀ x, Decision (P x)} (l : list B) :
  (∀ x, ¬ P x) → filter P l = [].
Proof. intros HP. induction l as [|x l IH]; [done|]. by rewrite filter_cons_False. Qed.

(** One app of the batch, in terms of the batch. *)
Lemma flush_app_spec grace_ms time_ms a batch :
  flush_app by_id grace_ms time_ms a (filter (λ e, event_app e = a) batch) =
  let imm := now_of grace_ms a batch in
  let later := later_of grace_ms a batch in
  match by_id a with
  | Ok (Found app) => (envelopes time_ms app imm, later)
  | _ => ([], if decide (imm = []) then later else [])
  end.
Proof.
  unfold flush_app.
  assert ((if (0 <? grace_ms)%Z
           then filter (λ e, is_grace e = true) (filter (λ e, event_app e = a) batch) else []) =
          later_of grace_ms a batch) as ->.
  { unfold later_of, waits. destruct (0 <? grace_ms)%Z; simpl; [apply filter_and|].
    symmetry. apply filter_none. by intros e [_ ?]. }
  assert ((if (0 <? grace_ms)%Z
           then filter (λ e, is_grace e = false) (filter (λ e, event_app e = a) batch)
           else filter (λ e, event_app e = a) batch) = now_of grace_ms a batch) as ->.
  { unfold now_of, waits. destruct (0 <? grace_ms)%Z; simpl; [apply filter_and|].
    apply list_filter_iff. naive_solver. }
  simpl. destruct (decide (now_of grace_ms a batch = [])) as [Hi|Hi].
  - rewrite Hi. destruct (by_id a) as [[app| |]|]; try done. f_equal.
    unfold envelopes. by induction (app_webhooks app).
  - destruct (by_id a) as [[app| |]|]; try done. rewrite deliver_app_envelopes.
    case_decide as Hw; [|done]. unfold envelopes. by rewrite Hw.
Qed.

Lemma flush_groups grace_ms time_ms batch :
  let apps := remove_dups (event_app <$> batch) in
  let one a := flush_app by_id grace_ms time_ms a (filter (λ e, event_app e = a) batch) in
  (flush by_id grace_ms time_ms batch).1 ≡ₚ (apps ≫= λ a, (one a).1) ∧
  (flush by_id grace_ms time_ms batch).2 ≡ₚ (apps ≫= λ a, (one a).2).
Proof.
  intros apps one. unfold flush. rewrite flush_fold. simpl.
  rewrite (by_app_groups batch). pose proof (by_app_keys batch) as Hk. fold apps in Hk.
  generalize dependent (map_to_list (by_app batch)).*1. intros keys Hk.
  rewrite !list_fmap_bind. split; by rewrite Hk.
Qed.

(** Each event reaches each subscribed endpoint once: the deliveries of a flush
    are, for every app of the batch that the store has enabled, one envelope per
    endpoint, carrying in order exactly the app's events that do not wait and
    that the endpoint subscribes to; an endpoint with none gets no request. The
    events that wait out the grace window are exactly the batch's vacated and
    removed events, save those of an app that also had other events while the
    store did not find it. *)
Theorem flush_once_per_endpoint (grace_ms time_ms : Z) (batch : list WebhookEvent) :
  let apps := remove_dups (event_app <$> batch) in
  (flush by_id grace_ms time_ms batch).1 ≡ₚ
    (apps ≫= λ a, match by_id a with
                  | Ok (Found app) => envelopes time_ms app (now_of grace_ms a batch)
                  | _ => []
                  end) ∧
  (flush by_id grace_ms time_ms batch).2 ≡ₚ
    (apps ≫= λ a, match by_id a with
                  | Ok (Found app) => later_of grace_ms a batch
                  | _ => if decide (now_of grace_ms a batch = []) then later_of grace_ms a batch
                         else []
                  end).
Proof.
  intros apps. destruct (flush_groups grace_ms time_ms batch) as [H1 H2]. fold apps in H1, H2.
  rewrite H1, H2. split; apply Permutation_refl', list_bind_ext; try done; intros a;
    rewrite flush_app_spec; by destruct (by_id a) as [[app| |]|].
Qed.

(** A failed app lookup loses deferred events: an event that would have waited
    for its own lookup after the grace window is dropped when another event of
    the app is in the same batch and the store does not answer, while alone in
    its batch it waits. *)
Theorem lookup_failure_drops_deferred (grace_ms time_ms : Z) (batch : list WebhookEvent)
    (e other : WebhookEvent) :
  (0 < grace_ms)%Z → (∀ app, by_id (event_app e) ≠ Ok (Found app)) →
  is_grace e = true → other ∈ batch → event_app other = event_app e → is_grace other = false →
  (e ∉ (flush by_id grace_ms time_ms batch).2) ∧ (flush by_id grace_ms time_ms [e]).2 = [e].
Proof.
  intros Hg Hid He Ho Ha Hog.
  assert ((0 <? grace_ms)%Z = true) as Hgb by lia. split.
  - destruct (flush_groups grace_ms time_ms batch) as [_ H2]. rewrite H2.
    rewrite list_elem_of_bind. intros (a & Hin & Hap).
    rewrite flush_app_spec in Hin.
    assert (now_of grace_ms (event_app e) batch ≠ []) as Hne.
    { intros Hnil. assert (other ∈ now_of grace_ms (event_app e) batch) as Hc.
      { apply list_elem_of_filter. unfold waits. by rewrite Hog, andb_false_r. }
      rewrite Hnil in Hc. by apply elem_of_nil in Hc. }
    assert (a = event_app e) as ->.
    { assert (e ∈ later_of grace_ms a batch) as Hl.
      { destruct (by_id a) as [[app| |]|]; simpl in Hin; [done|..];
          case_decide; (done || by apply elem_of_nil in Hin). }
      unfold later_of in Hl. apply list_elem_of_filter in Hl as [[<- _] _]. done. }
    destruct (by_id (event_app e)) as [[app| |]|] eqn:Hb; simpl in Hin; [by destruct (Hid app)|..];
      rewrite decide_False in Hin by done; by apply elem_of_nil in Hin.
  - assert (by_app [e] = {[event_app e := [e]]}) as Hb by done.
    unfold flush. rewrite Hb, map_to_list_singleton. simpl.
    unfold flush_app. rewrite Hgb. by destruct e; try discriminate He.
Qed.
End flush.

(** What a receiver checks: whatever custom headers the endpoint has, the
    request carries the app's key and the HMAC of the exact body under the app's
    secret. Every other header is the custom one, also one that differs from a
    signed header in letter case only. *)
Theorem delivery_signed `{SerdeJson, Crypto} (url key secret : string) (time_ms : Z)
    (events : list Value) (custom : gmap string string) (h : string) :
  let d := build_signed_delivery url key secret time_ms events custom in
  wd_headers d !! "X-Pusher-Signature" = Some (hmac_sha256_hex secret (wd_body d)) ∧
  wd_headers d !! "X-Pusher-Key" = Some key ∧
  wd_headers d !! "Content-Type" = Some "application/json" ∧
  (h ∉ ["X-Pusher-Signature"; "X-Pusher-Key"; "Content-Type"] → wd_headers d !! h = custom !! h).
Proof.
  intros d. simpl. split_and!.
  1: by rewrite lookup_insert_eq.
  1: by rewrite lookup_insert_ne, lookup_insert_eq.
  1: by do 2 rewrite lookup_insert_ne by done; rewrite lookup_insert_eq.
  intros Hh. rewrite !not_elem_of_cons in Hh.
  destruct Hh as (H1 & H2 & H3 & _). by rewrite !lookup_insert_ne by done.
Qed.

(** A delivery is resolved within its budget: at most one attempt per
    millisecond of the budget and one more, resolved as soon as that many were
    made, and delivered exactly when the last attempt made was answered 2xx. *)
Theorem delivery_resolves (base_ms cap_ms budget_ms : Z) (attempts : list Attempt) :
  (0 <= budget_ms < 2 ^ 64)%Z → Forall attempt_ok attempts →
  let '(r, posts) := deliver_attempts base_ms cap_ms budget_ms attempts in
  (Z.of_nat posts <= budget_ms + 1)%Z ∧
  ((budget_ms < Z.of_nat (length attempts))%Z → is_Some r) ∧
  (r = Some DeliveredOk ↔ ∃ i a, attempts !! i = Some a ∧ posts = S i ∧ is_2xx a = true).
Proof.
  intros Hb Hall. unfold deliver_attempts. set (cap := Z.max cap_ms 1).
  pose proof (attempt_loop_bound cap budget_ms attempts (Z.min (Z.max base_ms 1) cap) 0 0 0
    ltac:(lia) ltac:(lia) ltac:(lia) ltac:(lia) ltac:(lia) Hall) as Hbd.
  pose proof (attempt_loop_ok cap budget_ms attempts (Z.min (Z.max base_ms 1) cap) 0 0) as Hok.
  destruct (attempt_loop _ _ _ _ _ _) as [r posts]. destruct Hbd as [Hn Hr].
  split_and!; [lia| |exact Hok]. intros Hl. destruct r; [done|]. destruct (Hr eq_refl). lia.
Qed.

Module DispatchDemo.
Definition vacated : WebhookEvent := Hook.ChannelVacated "app" "room".
Definition occupied : WebhookEvent := Hook.ChannelOccupied "app" "hall".
Definition down (_ : string) : result AppLookup AppLookupError := Err (Backend "down").
Definition refused : Attempt := mkAttempt (Some 503%Z) 5000000 0 0 (Some 0%Z).
Definition accepted : Attempt := mkAttempt (Some 200%Z) 5000000 0 0 (Some 0%Z).
#[local] Instance json : SerdeJson :=
  {| from_str _ := None; to_string _ := "json"; number_to_string _ := "0";
     value_eqb _ _ := true |}.
#[local] Instance crypto : Crypto :=
  {| hmac_sha256_hex s m := s +:+ "/" +:+ m; md5_hex b := b |}.
End DispatchDemo.

Lemma lookup_failure_drops_deferred_witness :
  let f := flush (H := DispatchDemo.json) (H0 := DispatchDemo.crypto) DispatchDemo.down 3000 0 in
  (DispatchDemo.vacated ∉ (f [DispatchDemo.occupied; DispatchDemo.vacated]).2) ∧
  (f [DispatchDemo.vacated]).2 = [DispatchDemo.vacated].
Proof.
  apply (lookup_failure_drops_deferred (H := DispatchDemo.json) (H0 := DispatchDemo.crypto)
    DispatchDemo.down 3000 0 [DispatchDemo.occupied; DispatchDemo.vacated] DispatchDemo.vacated
    DispatchDemo.occupied); [lia|done|done|left|done|done].
Defined.

Lemma delivery_resolves_witness :
  (Z.of_nat (deliver_attempts 10 100 50
     [DispatchDemo.refused; DispatchDemo.refused; DispatchDemo.accepted]).2 <= 51)%Z.
Proof.
  assert (Hok : Forall attempt_ok
    [DispatchDemo.refused; DispatchDemo.refused; DispatchDemo.accepted]).
  { repeat (apply Forall_cons; split; [unfold attempt_ok; simpl; lia|]). apply Forall_nil_2. }
  pose proof (delivery_resolves 10 100 50
    [DispatchDemo.refused; DispatchDemo.refused; DispatchDemo.accepted] ltac:(lia) Hok) as Hd.
  destruct (deliver_attempts _ _ _ _) as [r posts]. simpl. destruct Hd as [Hd _]. lia.
Defined.
