(* ===== verification/Ssrf.v ===== *)
(** * The webhook address guard: [src/src/webhook/transport.rs]

    Addresses as the standard library parses and classifies them, the guard
    that refuses private targets and pins a delivery to the addresses it has
    checked, and the delivery behind it. *)

From S2P Require Import Prelude RustStd Auth Dispatcher.

(** ** [std::net] *)

Record Ipv4Addr : Type := mkV4 { oct0 : Z; oct1 : Z; oct2 : Z; oct3 : Z }.

(** [segments()]. *)
Record Ipv6Addr : Type := mkV6 {
  seg0 : Z; seg1 : Z; seg2 : Z; seg3 : Z; seg4 : Z; seg5 : Z; seg6 : Z; seg7 : Z
}.

Inductive IpAddr : Type := V4 (a : Ipv4Addr) | V6 (a : Ipv6Addr).

#[export] Instance Ipv4Addr_eq_dec : EqDecision Ipv4Addr.
Proof. solve_decision. Defined.
#[export] Instance Ipv6Addr_eq_dec : EqDecision Ipv6Addr.
Proof. solve_decision. Defined.
#[export] Instance IpAddr_eq_dec : EqDecision IpAddr.
Proof. solve_decision. Defined.

Module V4.
Definition is_loopback (a : Ipv4Addr) : bool := (oct0 a =? 127)%Z.
Definition is_unspecified (a : Ipv4Addr) : bool := bool_decide (a = mkV4 0 0 0 0).
Definition is_link_local (a : Ipv4Addr) : bool := (oct0 a =? 169)%Z && (oct1 a =? 254)%Z.
Definition is_private (a : Ipv4Addr) : bool :=
  (oct0 a =? 10)%Z || ((oct0 a =? 172)%Z && (16 <=? oct1 a)%Z && (oct1 a <=? 31)%Z)
  || ((oct0 a =? 192)%Z && (oct1 a =? 168)%Z).
Definition is_multicast (a : Ipv4Addr) : bool := (224 <=? oct0 a)%Z && (oct0 a <=? 239)%Z.
Definition is_broadcast (a : Ipv4Addr) : bool := bool_decide (a = mkV4 255 255 255 255).

Definition bits (a : Ipv4Addr) : Z := ((oct0 a * 256 + oct1 a) * 256 + oct2 a) * 256 + oct3 a.
Definition valid (a : Ipv4Addr) : Prop := is_byte (oct0 a) ∧ is_byte (oct1 a) ∧ is_byte (oct2 a) ∧ is_byte (oct3 a).
End V4.

Module V6.
Definition is_loopback (a : Ipv6Addr) : bool := bool_decide (a = mkV6 0 0 0 0 0 0 0 1).
Definition is_unspecified (a : Ipv6Addr) : bool := bool_decide (a = mkV6 0 0 0 0 0 0 0 0).
Definition is_multicast (a : Ipv6Addr) : bool := (Z.land (seg0 a) 0xff00 =? 0xff00)%Z.

(** The address in the last two segments. *)
Definition embedded (a : Ipv6Addr) : Ipv4Addr :=
  mkV4 (seg6 a / 256) (seg6 a mod 256) (seg7 a / 256) (seg7 a mod 256).

Definition zeros5 (a : Ipv6Addr) : bool :=
  (seg0 a =? 0)%Z && (seg1 a =? 0)%Z && (seg2 a =? 0)%Z && (seg3 a =? 0)%Z && (seg4 a =? 0)%Z.

Definition to_ipv4_mapped (a : Ipv6Addr) : option Ipv4Addr :=
  if zeros5 a && (seg5 a =? 0xffff)%Z then Some (embedded a) else None.

Definition to_ipv4 (a : Ipv6Addr) : option Ipv4Addr :=
  if zeros5 a && ((seg5 a =? 0)%Z || (seg5 a =? 0xffff)%Z) then Some (embedded a) else None.

Definition bits (a : Ipv6Addr) : Z :=
  ((((((seg0 a * 2 ^ 16 + seg1 a) * 2 ^ 16 + seg2 a) * 2 ^ 16 + seg3 a) * 2 ^ 16 + seg4 a) * 2 ^ 16
    + seg5 a) * 2 ^ 16 + seg6 a) * 2 ^ 16 + seg7 a.

Definition is_u16 (z : Z) : Prop := (0 <= z < 2 ^ 16)%Z.
Definition valid (a : Ipv6Addr) : Prop :=
  is_u16 (seg0 a) ∧ is_u16 (seg1 a) ∧ is_u16 (seg2 a) ∧ is_u16 (seg3 a) ∧
  is_u16 (seg4 a) ∧ is_u16 (seg5 a) ∧ is_u16 (seg6 a) ∧ is_u16 (seg7 a).
End V6.

Definition ip_valid (ip : IpAddr) : Prop := match ip with V4 a => V4.valid a | V6 a => V6.valid a end.

(** *** Parsing addresses, as [core::net::parser] does *)

Module IpParse.
Definition to_digit (radix : Z) (c : ascii) : option Z :=
  let b := u8_of_ascii c in
  let d := if Str.is_ascii_digit c then (b - 48)%Z
           else if (65 <=? b)%Z && (b <=? 70)%Z then (b - 55)%Z
           else if (97 <=? b)%Z && (b <=? 102)%Z then (b - 87)%Z
           else 36%Z in
  if (d <? radix)%Z then Some d else None.

(** The digits read, how many, and the rest; [None] on the digit past [max]. *)
Fixpoint read_digits (radix : Z) (max : nat) (acc : Z) (count : nat) (s : string)
    : option (Z * nat * string) :=
  match s with
  | EmptyString => Some (acc, count, EmptyString)
  | String c r =>
      match to_digit radix c with
      | None => Some (acc, count, s)
      | Some d => if count =? max then None else read_digits radix max (acc * radix + d)%Z (S count) r
      end
  end.

Definition read_number (radix : Z) (max : nat) (allow_zero_prefix : bool) (limit : Z) (s : string)
    : option (Z * string) :=
  match read_digits radix max 0 0 s with
  | Some (z, count, r) =>
      if count =? 0 then None
      else if negb allow_zero_prefix && Str.starts_with "0" s && (1 <? count) then None
      else if (z <? limit)%Z then Some (z, r) else None
  | None => None
  end.

(** [read_separator]: the separator first, but before the first item. *)
Definition separated {A} (sep : ascii) (index : nat) (f : string → option (A * string)) (s : string)
    : option (A * string) :=
  if index =? 0 then f s
  else match s with
       | String c r => if decide (c = sep) then f r else None
       | EmptyString => None
       end.

Definition octet : string → option (Z * string) := read_number 10 3 false 256.

Definition read_ipv4_addr (s : string) : option (Ipv4Addr * string) :=
  match separated "." 0 octet s with
  | Some (a, s) =>
      match separated "." 1 octet s with
      | Some (b, s) =>
          match separated "." 2 octet s with
          | Some (c, s) =>
              match separated "." 3 octet s with
              | Some (d, s) => Some (mkV4 a b c d, s)
              | None => None
              end
          | None => None
          end
      | None => None
      end
  | None => None
  end.

(** [read_groups] with [slots] slots from slot [i]: the groups, whether the last
    two are an embedded IPv4 address, and the rest. *)
Fixpoint read_groups (slots i : nat) (s : string) : list Z * bool * string :=
  match slots with
  | O => ([], false, s)
  | S slots =>
      match (if slots =? 0 then None else separated ":" i read_ipv4_addr s) with
      | Some (a, s) => ([oct0 a * 256 + oct1 a; oct2 a * 256 + oct3 a]%Z, true, s)
      | None =>
          match separated ":" i (read_number 16 4 true (2 ^ 16)) s with
          | Some (g, s) => let '(gs, v4, s) := read_groups slots (S i) s in (g :: gs, v4, s)
          | None => ([], false, s)
          end
      end
  end.

Definition of_segments (l : list Z) : option Ipv6Addr :=
  match l with
  | [a; b; c; d; e; f; g; h] => Some (mkV6 a b c d e f g h)
  | _ => None
  end.

Definition read_ipv6_addr (s : string) : option (Ipv6Addr * string) :=
  let '(head, head_ipv4, s) := read_groups 8 0 s in
  if length head =? 8 then (λ a, (a, s)) <$> of_segments head
  else if head_ipv4 then None
  else
    match s with
    | String ":"%char (String ":"%char s) =>
        let '(tail, _, s) := read_groups (8 - (length head + 1)) 0 s in
        (λ a, (a, s)) <$> of_segments (head ++ replicate (8 - length head - length tail) 0%Z ++ tail)
    | _ => None
    end.

(** [parse_with]: the whole input. *)
Definition whole {A} (r : option (A * string)) : option A :=
  match r with Some (a, EmptyString) => Some a | _ => None end.

Definition parse_ipv6 (s : string) : option Ipv6Addr := whole (read_ipv6_addr s).

Definition parse_ip (s : string) : option IpAddr :=
  whole (match read_ipv4_addr s with
         | Some (a, s) => Some (V4 a, s)
         | None => match read_ipv6_addr s with Some (a, s) => Some (V6 a, s) | None => None end
         end).
End IpParse.

(** ** The guard *)

Definition is_private_v4 (a : Ipv4Addr) : bool :=
  V4.is_loopback a || V4.is_unspecified a || V4.is_link_local a || V4.is_private a
  || ((oct0 a =? 100)%Z && (0x40 <=? oct1 a)%Z && (oct1 a <=? 0x7f)%Z)
  || V4.is_multicast a || V4.is_broadcast a
  || ((0xf0 <=? oct0 a)%Z && (oct0 a <=? 0xff)%Z).

Definition is_private_target (ip : IpAddr) : bool :=
  match ip with
  | V4 a => is_private_v4 a
  | V6 a =>
      if V6.is_loopback a || V6.is_unspecified a then true
      else
        match V6.to_ipv4_mapped a with
        | Some v4 => is_private_v4 v4
        | None =>
            if (seg0 a =? 0x64)%Z && (seg1 a =? 0xff9b)%Z && (seg2 a =? 0)%Z && (seg3 a =? 0)%Z
               && (seg4 a =? 0)%Z && (seg5 a =? 0)%Z then true
            else
              match V6.to_ipv4 a with
              | Some v4 => is_private_v4 v4
              | None =>
                  if (seg0 a =? 0x2002)%Z then true
                  else (Z.land (seg0 a) 0xfe00 =? 0xfc00)%Z
                       || (Z.land (seg0 a) 0xffc0 =? 0xfe80)%Z
                       || V6.is_multicast a
              end
        end
  end.

(** [reqwest::Url]: what the guard reads of a parsed URL. *)
Record Url : Type := mkUrl {
  url_scheme : string;
  url_host_str : option string;
  url_port_or_known_default : option Z
}.

Class UrlParser : Type := { url_parse : string → result Url string }.

Record DeliveryPin : Type := mkDeliveryPin {
  pin_host : string;
  pin_addrs : list (IpAddr * Z)
}.

(** The reasons of a refusal, which are logged. *)
Inductive Refusal : Type :=
| InvalidUrl (e : string)
| UnsupportedScheme (scheme : string)
| NoHost
| UnknownPort
| PrivateLiteral (ip : IpAddr)
| Unresolved (host : string)
| PrivateAnswer (host : string) (ip : IpAddr).

Record SsrfGuard : Type := mkSsrfGuard {
  sg_resolve : string → list IpAddr;
  sg_allow_private : bool
}.

(** [SystemResolver]: the first of the two ports whose lookup answers with an
    address, each address once. *)
Definition push_new (ips : list IpAddr) (ip : IpAddr) : list IpAddr :=
  if decide (ip ∈ ips) then ips else ips ++ [ip].

Fixpoint try_ports (lookup_host : string → Z → option (list IpAddr)) (host : string) (ports : list Z)
    : list IpAddr :=
  match ports with
  | [] => []
  | port :: ports =>
      match lookup_host host port with
      | Some addrs =>
          let ips := foldl push_new [] addrs in
          if bool_decide (ips = []) then try_ports lookup_host host ports else ips
      | None => try_ports lookup_host host ports
      end
  end.

Definition system_resolve (lookup_host : string → Z → option (list IpAddr)) (host : string)
    : list IpAddr :=
  try_ports lookup_host host [80; 443]%Z.

(** [strip_suffix] of one character. *)
Fixpoint strip_last (c : ascii) (s : string) : option string :=
  match s with
  | EmptyString => None
  | String a EmptyString => if decide (a = c) then Some EmptyString else None
  | String a s => String a <$> strip_last c s
  end.

Definition literal_host (host : string) : option IpAddr :=
  match (match Str.strip_prefix "[" host with Some h => strip_last "]" h | None => None end) with
  | Some v6 => V6 <$> IpParse.parse_ipv6 v6
  | None => IpParse.parse_ip host
  end.

(** The loop over the resolver's answers. *)
Fixpoint check_answers (allow_private : bool) (host : string) (port : Z) (ips : list IpAddr)
    : result (list (IpAddr * Z)) Refusal :=
  match ips with
  | [] => Ok []
  | ip :: ips =>
      if is_private_target ip && negb allow_private then Err (PrivateAnswer host ip)
      else
        match check_answers allow_private host port ips with
        | Ok addrs => Ok ((ip, port) :: addrs)
        | Err e => Err e
        end
  end.

Definition ssrf_check `{UrlParser} (g : SsrfGuard) (url : string) : result (option DeliveryPin) Refusal :=
  match url_parse url with
  | Err e => Err (InvalidUrl e)
  | Ok parsed =>
      let scheme := ascii_lowercase (url_scheme parsed) in
      if bool_decide (scheme ≠ "http") && bool_decide (scheme ≠ "https") then Err (UnsupportedScheme scheme)
      else
        match url_host_str parsed with
        | None => Err NoHost
        | Some host =>
            match url_port_or_known_default parsed with
            | None => Err UnknownPort
            | Some port =>
                match literal_host host with
                | Some ip =>
                    if is_private_target ip && negb (sg_allow_private g) then Err (PrivateLiteral ip)
                    else Ok None
                | None =>
                    let ips := sg_resolve g host in
                    if bool_decide (ips = []) then Err (Unresolved host)
                    else
                      match check_answers (sg_allow_private g) host port ips with
                      | Ok addrs => Ok (Some (mkDeliveryPin host addrs))
                      | Err e => Err e
                      end
                end
            end
        end
  end.

(** ** The delivery *)

(** The client that posts: the shared one, or one built for the delivery that
    connects to the pinned addresses. *)
Inductive Sender : Type := Shared | Pinned (pin : DeliveryPin).

(** Which sender a delivery uses; [None] when it fails before any attempt. *)
Definition preflight `{UrlParser} (guard : option SsrfGuard) (pinned_build : DeliveryPin → bool)
    (url : string) : option Sender :=
  match guard with
  | None => Some Shared
  | Some g =>
      match ssrf_check g url with
      | Ok None => Some Shared
      | Ok (Some pin) => if pinned_build pin then Some (Pinned pin) else None
      | Err _ => None
      end
  end.

(** The spawned task: the outcome it counts, the posts it makes, and the sender
    it makes them through. [first_permit] is false when the semaphore is closed. *)
Definition deliver_guarded `{UrlParser} (guard : option SsrfGuard) (pinned_build : DeliveryPin → bool)
    (first_permit : bool) (base_ms cap_ms budget_ms : Z) (url : string) (attempts : list Attempt)
    : option Outcome * nat * option Sender :=
  match preflight guard pinned_build url with
  | None => (Some DeliveredFailed, 0, None)
  | Some sender =>
      if first_permit then (deliver_attempts base_ms cap_ms budget_ms attempts, Some sender)
      else (Some DeliveredFailed, 0, Some sender)
  end.

(** ** What is private

    The specification: blocks of addresses, as a base and a prefix length. *)

Definition in_block (width : Z) (x : Z) (b : Z * Z) : Prop :=
  (x / 2 ^ (width - b.2) = b.1 / 2 ^ (width - b.2))%Z.

(** 127/8, 0.0.0.0, 169.254/16, 10/8, 172.16/12, 192.168/16, 100.64/10, 224/4
    and 240/4. *)
Definition V4_BLOCKS : list (Z * Z) :=
  [(V4.bits (mkV4 127 0 0 0), 8); (V4.bits (mkV4 0 0 0 0), 32); (V4.bits (mkV4 169 254 0 0), 16);
   (V4.bits (mkV4 10 0 0 0), 8); (V4.bits (mkV4 172 16 0 0), 12); (V4.bits (mkV4 192 168 0 0), 16);
   (V4.bits (mkV4 100 64 0 0), 10); (V4.bits (mkV4 224 0 0 0), 4); (V4.bits (mkV4 240 0 0 0), 4)]%Z.

(** ::1, ::, 64:ff9b::/96, 2002::/16, fc00::/7, fe80::/10 and ff00::/8. *)
Definition V6_BLOCKS : list (Z * Z) :=
  [(1, 128); (0, 128); (V6.bits (mkV6 0x64 0xff9b 0 0 0 0 0 0), 96); (V6.bits (mkV6 0x2002 0 0 0 0 0 0 0), 16);
   (V6.bits (mkV6 0xfc00 0 0 0 0 0 0 0), 7); (V6.bits (mkV6 0xfe80 0 0 0 0 0 0 0), 10);
   (V6.bits (mkV6 0xff00 0 0 0 0 0 0 0), 8)]%Z.

(** ::ffff:0:0/96 and ::/96, which embed an IPv4 address. *)
Definition V6_EMBEDDING : list (Z * Z) := [(0xffff * 2 ^ 32, 96); (0, 96)]%Z.

Definition blocked_v4 (x : Z) : Prop := Exists (in_block 32 x) V4_BLOCKS.

Definition blocked (ip : IpAddr) : Prop :=
  match ip with
  | V4 a => blocked_v4 (V4.bits a)
  | V6 a =>
      Exists (in_block 128 (V6.bits a)) V6_BLOCKS ∨
      (Exists (in_block 128 (V6.bits a)) V6_EMBEDDING ∧ blocked_v4 (V6.bits a mod 2 ^ 32))
  end.

Lemma v4_eqb (a b : Ipv4Addr) : V4.valid a → V4.valid b → a = b ↔ V4.bits a = V4.bits b.
Proof.
  destruct a as [a0 a1 a2 a3], b as [b0 b1 b2 b3]. unfold V4.valid, V4.bits, is_byte. simpl.
  intros. split; [by intros [= -> -> -> ->]|]. intros E. f_equal; lia.
Qed.

(** Powers of two with constant exponents, evaluated. *)
Ltac powers :=
  repeat match goal with
  | |- context [(2 ^ (?w - ?n))%Z] => let v := eval vm_compute in (2 ^ (w - n))%Z in change (2 ^ (w - n))%Z with v
  end.

Lemma is_private_v4_blocked a : V4.valid a → is_private_v4 a = true ↔ blocked_v4 (V4.bits a).
Proof.
  intros Ha. unfold is_private_v4, V4.is_unspecified, V4.is_broadcast, blocked_v4, V4_BLOCKS.
  rewrite !Exists_cons, Exists_nil. unfold in_block. cbn [fst snd].
  rewrite !orb_true_iff, !bool_decide_eq_true.
  rewrite (v4_eqb a (mkV4 0 0 0 0)), (v4_eqb a (mkV4 255 255 255 255)) by (done || (unfold V4.valid, is_byte; simpl; lia)).
  unfold V4.is_loopback, V4.is_link_local, V4.is_private, V4.is_multicast, V4.valid, is_byte in *.
  destruct a as [a b c d]. cbn [oct0 oct1 oct2 oct3] in *. unfold V4.bits. cbn [oct0 oct1 oct2 oct3].
  rewrite !orb_true_iff, !andb_true_iff, !Z.eqb_eq, !Z.leb_le.
  set (x := (((a * 256 + b) * 256 + c) * 256 + d)%Z).
  powers.
  assert (x / 16777216 = a)%Z as -> by (subst x; Z.div_mod_to_equations; lia).
  assert (x / 65536 = a * 256 + b)%Z as -> by (subst x; Z.div_mod_to_equations; lia).
  assert (x / 1048576 = a * 16 + b / 16)%Z as -> by (subst x; Z.div_mod_to_equations; lia).
  assert (x / 4194304 = a * 4 + b / 64)%Z as -> by (subst x; Z.div_mod_to_equations; lia).
  assert (x / 268435456 = a / 16)%Z as -> by (subst x; Z.div_mod_to_equations; lia).
  assert (x / 1 = x)%Z as -> by (subst x; Z.div_mod_to_equations; lia).
  assert (x = (((255 * 256 + 255) * 256 + 255) * 256 + 255)%Z → (0xf0 <= a)%Z) as Hbc by (subst x; lia).
  clearbody x. pose proof (Z.div_mod b 16 ltac:(lia)). pose proof (Z.mod_pos_bound b 16 ltac:(lia)).
  pose proof (Z.div_mod b 64 ltac:(lia)). pose proof (Z.mod_pos_bound b 64 ltac:(lia)).
  pose proof (Z.div_mod a 16 ltac:(lia)). pose proof (Z.mod_pos_bound a 16 ltac:(lia)).
  match goal with |- _ ↔ ?rhs => change rhs with
    (a = 127 ∨ x = 0 ∨ a * 256 + b = 43518 ∨ a = 10 ∨ a * 16 + b / 16 = 2753 ∨ a * 256 + b = 49320 ∨
     a * 4 + b / 64 = 401 ∨ a / 16 = 14 ∨ a / 16 = 15 ∨ False)%Z end.
  split; intros Hor; destruct_or! Hor; destruct_and?; try done; lia.
Qed.

(** A mask of the high bits of a word reads its quotient. *)
Lemma land_high s k n v : (0 <= k)%Z → (0 <= n)%Z → (0 <= s < 2 ^ (k + n))%Z →
  Z.land s (Z.shiftl (Z.ones n) k) = Z.shiftl v k ↔ (s / 2 ^ k = v)%Z.
Proof.
  intros Hk Hn Hs. rewrite Z.shiftl_mul_pow2, (Z.shiftl_mul_pow2 v) by lia.
  pose proof (Z.pow_pos_nonneg 2 k ltac:(lia) Hk). rewrite Z.pow_add_r in Hs by lia.
  assert (Z.land s (Z.ones n * 2 ^ k) = s / 2 ^ k * 2 ^ k)%Z as ->.
  { rewrite <-Z.shiftl_mul_pow2, <-Z.shiftl_mul_pow2, <-Z.shiftr_div_pow2 by lia.
    apply Z.bits_inj'. intros i Hi. rewrite Z.land_spec, !Z.shiftl_spec by lia.
    destruct (Z.lt_ge_cases i k) as [Hik|Hik].
    - rewrite !(Z.testbit_neg_r _ (i - k)) by lia. by rewrite andb_false_r.
    - rewrite Z.shiftr_spec by lia. replace (i - k + k)%Z with i by lia.
      destruct (Z.lt_ge_cases (i - k) n) as [Hin|Hin].
      + rewrite Z.ones_spec_low by lia. by rewrite andb_true_r.
      + rewrite Z.ones_spec_high by lia. rewrite andb_false_r. symmetry.
        destruct (decide (s = 0%Z)) as [->|Hne]; [apply Z.bits_0|].
        apply Z.bits_above_log2; [lia|]. apply Z.log2_lt_pow2; [lia|].
        eapply Z.lt_le_trans; [apply Hs|]. rewrite <-Z.pow_add_r by lia. apply Z.pow_le_mono_r; lia. }
  split; [|by intros ->]. intros E. by apply Z.mul_cancel_r in E; [|lia].
Qed.

Lemma word_inj q r q' r' : V6.is_u16 r → V6.is_u16 r' →
  (q * 2 ^ 16 + r = q' * 2 ^ 16 + r')%Z → q = q' ∧ r = r'.
Proof. unfold V6.is_u16. lia. Qed.

Section v6.
Context (a : Ipv6Addr) (Ha : V6.valid a).
#[local] Abbreviation x := (V6.bits a).

Lemma v6_top16 : (x / 2 ^ 112 = seg0 a)%Z.
Proof.
  unfold V6.valid, V6.is_u16 in Ha. unfold V6.bits. symmetry.
  apply (Z.div_unique _ _ _ (x - seg0 a * 2 ^ 112)); unfold V6.bits; lia.
Qed.

Lemma v6_top96 : (x / 2 ^ 32 =
  ((((seg0 a * 2 ^ 16 + seg1 a) * 2 ^ 16 + seg2 a) * 2 ^ 16 + seg3 a) * 2 ^ 16 + seg4 a) * 2 ^ 16 + seg5 a)%Z.
Proof.
  unfold V6.valid, V6.is_u16 in Ha. symmetry. apply (Z.div_unique _ _ _ (seg6 a * 2 ^ 16 + seg7 a));
    unfold V6.bits; lia.
Qed.

Lemma v6_low32 : (x mod 2 ^ 32)%Z = V4.bits (V6.embedded a).
Proof.
  unfold V6.valid, V6.is_u16 in Ha. symmetry.
  apply (Z.mod_unique _ _ (x / 2 ^ 32)); rewrite ?v6_top96; unfold V4.bits, V6.embedded, V6.bits; simpl.
  - left. pose proof (Z.div_mod (seg6 a) 256). pose proof (Z.div_mod (seg7 a) 256). lia.
  - pose proof (Z.div_mod (seg6 a) 256). pose proof (Z.div_mod (seg7 a) 256). lia.
Qed.

Lemma v6_embedded_valid : V4.valid (V6.embedded a).
Proof.
  unfold V6.valid, V6.is_u16 in Ha. unfold V4.valid, V6.embedded, is_byte. simpl.
  Z.div_mod_to_equations. lia.
Qed.

Lemma v6_quotient k : (0 <= k)%Z → (x / 2 ^ (112 + k) = seg0 a / 2 ^ k)%Z.
Proof. intros Hk. rewrite Z.pow_add_r by lia. rewrite <-Z.div_div by (try apply Z.pow_pos_nonneg; lia). by rewrite v6_top16. Qed.

(** The first six segments, as one number. *)
#[local] Abbreviation top := (x / 2 ^ 32)%Z.

Lemma v6_zeros5 : V6.zeros5 a = true ↔ top = seg5 a.
Proof.
  rewrite v6_top96. unfold V6.valid, V6.is_u16 in Ha. unfold V6.zeros5.
  rewrite !andb_true_iff, !Z.eqb_eq. lia.
Qed.

Lemma v6_top_small : (top < 2 ^ 16)%Z → V6.zeros5 a = true.
Proof.
  rewrite v6_top96. unfold V6.valid, V6.is_u16 in Ha. unfold V6.zeros5.
  rewrite !andb_true_iff, !Z.eqb_eq. lia.
Qed.

Lemma v6_nat64 :
  ((seg0 a =? 0x64)%Z && (seg1 a =? 0xff9b)%Z && (seg2 a =? 0)%Z && (seg3 a =? 0)%Z
     && (seg4 a =? 0)%Z && (seg5 a =? 0)%Z) = true ↔ top = ((0x64 * 2 ^ 16 + 0xff9b) * 2 ^ 64)%Z.
Proof.
  rewrite v6_top96. unfold V6.valid, V6.is_u16 in Ha. rewrite !andb_true_iff, !Z.eqb_eq. lia.
Qed.

Lemma v6_small b : V6.valid b → a = b ↔ x = V6.bits b.
Proof.
  intros Hb. split; [by intros ->|]. intros E. unfold V6.valid, V6.bits in *.
  destruct a as [a0 a1 a2 a3 a4 a5 a6 a7], b as [b0 b1 b2 b3 b4 b5 b6 b7].
  cbn [seg0 seg1 seg2 seg3 seg4 seg5 seg6 seg7] in *. destruct_and!.
  do 7 (apply word_inj in E as [E ->]; [|done|done]). by subst.
Qed.

Lemma v6_blocks : Exists (in_block 128 x) V6_BLOCKS ↔
  x = 1%Z ∨ x = 0%Z ∨ top = ((0x64 * 2 ^ 16 + 0xff9b) * 2 ^ 64)%Z ∨ seg0 a = 0x2002%Z ∨
  (seg0 a / 2 ^ 9 = 126)%Z ∨ (seg0 a / 2 ^ 6 = 1018)%Z ∨ (seg0 a / 2 ^ 8 = 255)%Z.
Proof.
  unfold V6_BLOCKS. rewrite !Exists_cons, Exists_nil. unfold in_block. cbn [fst snd].
  rewrite <-(v6_quotient 9), <-(v6_quotient 6), <-(v6_quotient 8), <-v6_top16 by lia.
  match goal with |- ?lhs ↔ _ => change lhs with
    (x / 1 = 1 ∨ x / 1 = 0 ∨ top = (0x64 * 2 ^ 16 + 0xff9b) * 2 ^ 64 ∨ x / 2 ^ 112 = 0x2002 ∨
     x / 2 ^ (112 + 9) = 126 ∨ x / 2 ^ (112 + 6) = 1018 ∨ x / 2 ^ (112 + 8) = 255 ∨ False)%Z end.
  rewrite !Z.div_1_r. tauto.
Qed.

Lemma v6_embedding : Exists (in_block 128 x) V6_EMBEDDING ↔ top = 0xffff%Z ∨ top = 0%Z.
Proof.
  unfold V6_EMBEDDING. rewrite !Exists_cons, Exists_nil. unfold in_block. cbn [fst snd].
  match goal with |- ?lhs ↔ _ => change lhs with (top = 0xffff ∨ top = 0 ∨ False)%Z end. tauto.
Qed.

Lemma v6_land m k n v : (0 <= k)%Z → (0 <= n)%Z → (k + n = 16)%Z →
  m = Z.shiftl (Z.ones n) k →
  (Z.land (seg0 a) m =? Z.shiftl v k)%Z = true ↔ (seg0 a / 2 ^ k = v)%Z.
Proof.
  intros Hk Hn Hs ->. rewrite Z.eqb_eq. apply land_high; [done|done|]. rewrite Hs. apply Ha.
Qed.

Lemma v6_private : is_private_target (V6 a) = true ↔ blocked (V6 a).
Proof.
  unfold blocked. rewrite v6_blocks, v6_embedding, v6_low32.
  rewrite <-(is_private_v4_blocked _ v6_embedded_valid). cbn [is_private_target].
  pose proof (v6_small (mkV6 0 0 0 0 0 0 0 1) ltac:(unfold V6.valid, V6.is_u16; simpl; lia)) as H1.
  pose proof (v6_small (mkV6 0 0 0 0 0 0 0 0) ltac:(unfold V6.valid, V6.is_u16; simpl; lia)) as H0.
  change (V6.bits (mkV6 0 0 0 0 0 0 0 1)) with 1%Z in H1. change (V6.bits (mkV6 0 0 0 0 0 0 0 0)) with 0%Z in H0.
  pose proof v6_zeros5 as Hz. pose proof v6_nat64 as Hn. rewrite <-Hn.
  rewrite <-(v6_land 0xfe00 9 7 126), <-(v6_land 0xffc0 6 10 1018), <-(v6_land 0xff00 8 8 255) by (done || lia).
  change (Z.shiftl 126 9) with 0xfc00%Z. change (Z.shiftl 1018 6) with 0xfe80%Z. change (Z.shiftl 255 8) with 0xff00%Z.
  unfold V6.is_loopback, V6.is_unspecified, V6.to_ipv4_mapped, V6.to_ipv4, V6.is_multicast.
  rewrite <-H1, <-H0.
  destruct (decide (a = mkV6 0 0 0 0 0 0 0 1)) as [E|E];
    [rewrite (bool_decide_eq_true_2 _ E); simpl; tauto|rewrite (bool_decide_eq_false_2 _ E)].
  destruct (decide (a = mkV6 0 0 0 0 0 0 0 0)) as [E'|E'];
    [rewrite (bool_decide_eq_true_2 _ E'); simpl; tauto|rewrite (bool_decide_eq_false_2 _ E')]. simpl.
  destruct (V6.zeros5 a) eqn:Ez; simpl.
  - pose proof (proj1 Hz eq_refl) as ->. clear Hz Hn H0 H1. unfold V6.zeros5 in Ez.
    rewrite !andb_true_iff, !Z.eqb_eq in Ez. destruct Ez as [[[[-> _] _] _] _].
    rewrite !Z.land_0_l. simpl. destruct (Z.eqb_spec (seg5 a) 0xffff) as [->|H5]; [naive_solver|].
    rewrite orb_false_r. destruct (Z.eqb_spec (seg5 a) 0) as [->|H6]; naive_solver.
  - assert (top ≠ 0xffff%Z ∧ top ≠ 0%Z) as [Hf H0'].
    { split; intros Et; rewrite v6_top_small in Ez; [done|rewrite Et; lia|done|rewrite Et; lia]. }
    destruct (_ && (seg5 a =? 0)%Z); [naive_solver|].
    destruct (Z.eqb_spec (seg0 a) 0x2002) as [|H2]; [naive_solver|]. rewrite !orb_true_iff.
    assert (¬ (false = true)) by done. clear -E E' Hf H0' H2 H. tauto.
Qed.
End v6.

Lemma private_blocked ip : ip_valid ip → is_private_target ip = true ↔ blocked ip.
Proof. destruct ip; [apply is_private_v4_blocked|apply v6_private]. Qed.

(** *** Parsed addresses are valid *)

Lemma to_digit_nonneg radix c d : IpParse.to_digit radix c = Some d → (0 <= d)%Z.
Proof.
  unfold IpParse.to_digit, Str.is_ascii_digit. intros Hd. destruct (_ <? radix)%Z; [|done].
  apply (inj Some) in Hd. subst d.
  destruct (Z.leb_spec 48 (u8_of_ascii c)), (Z.leb_spec (u8_of_ascii c) 57),
    (Z.leb_spec 65 (u8_of_ascii c)), (Z.leb_spec (u8_of_ascii c) 70),
    (Z.leb_spec 97 (u8_of_ascii c)), (Z.leb_spec (u8_of_ascii c) 102); simpl; lia.
Qed.

Lemma read_digits_nonneg radix max acc count s z n r : (0 <= radix)%Z → (0 <= acc)%Z →
  IpParse.read_digits radix max acc count s = Some (z, n, r) → (0 <= z)%Z.
Proof.
  intros Hradix. revert acc count. induction s as [|c s IH]; intros acc count Ha; simpl; [by intros [= <- _ _]|].
  destruct (IpParse.to_digit radix c) as [d|] eqn:Ed; [|by intros [= <- _ _]].
  destruct (count =? max); [done|]. apply to_digit_nonneg in Ed. apply IH. nia.
Qed.

Lemma read_number_bound radix max zero limit s z r : (0 <= radix)%Z →
  IpParse.read_number radix max zero limit s = Some (z, r) → (0 <= z < limit)%Z.
Proof.
  intros Hradix. unfold IpParse.read_number.
  destruct (IpParse.read_digits radix max 0 0 s) as [[[z' c] r']|] eqn:E; [|done].
  destruct (c =? 0); [done|]. destruct (_ && _ && _); [done|]. destruct (Z.ltb_spec z' limit); [|done].
  intros [= <- <-]. split; [|done]. exact (read_digits_nonneg _ _ 0 _ _ _ _ _ Hradix (Z.le_refl 0) E).
Qed.

Lemma octet_byte i s z r : IpParse.separated "." i IpParse.octet s = Some (z, r) → is_byte z.
Proof.
  assert (∀ s, IpParse.octet s = Some (z, r) → is_byte z) as Ho.
  { intros s'. exact (read_number_bound 10 3 false 256 s' z r ltac:(lia)). }
  unfold IpParse.separated. destruct (i =? 0); [apply Ho|].
  destruct s; [done|]. case_decide; [apply Ho|done].
Qed.

Lemma read_ipv4_valid s a r : IpParse.read_ipv4_addr s = Some (a, r) → V4.valid a.
Proof.
  unfold IpParse.read_ipv4_addr.
  destruct (IpParse.separated "." 0 _ s) as [[a0 s0]|] eqn:E0; [|done].
  destruct (IpParse.separated "." 1 _ s0) as [[a1 s1]|] eqn:E1; [|done].
  destruct (IpParse.separated "." 2 _ s1) as [[a2 s2]|] eqn:E2; [|done].
  destruct (IpParse.separated "." 3 _ s2) as [[a3 s3]|] eqn:E3; [|done].
  intros [= <- <-]. split_and!; simpl; by eapply octet_byte.
Qed.

Lemma read_groups_valid slots i s : Forall V6.is_u16 (IpParse.read_groups slots i s).1.1.
Proof.
  revert i s. induction slots as [|slots IH]; intros i s; simpl; [constructor|].
  destruct (if slots =? 0 then None else _) as [[a s1]|] eqn:E.
  - destruct (slots =? 0); [done|].
    assert (V4.valid a) as (Ha & Hb & Hc & Hd).
    { unfold IpParse.separated in E. destruct (i =? 0); [by eapply read_ipv4_valid|].
      destruct s; [done|]. case_decide; [by eapply read_ipv4_valid|done]. }
    unfold is_byte in *. simpl. repeat constructor; unfold V6.is_u16; lia.
  - clear E.
    destruct (IpParse.separated ":" i (IpParse.read_number _ _ _ _) s) as [[g s1]|] eqn:Eg; [|constructor].
    specialize (IH (S i) s1). destruct (IpParse.read_groups slots (S i) s1) as [[gs v4] s2]. simpl in *.
    constructor; [|done]. unfold IpParse.separated in Eg.
    destruct (i =? 0); [by apply read_number_bound in Eg|].
    destruct s; [done|]. case_decide; [by apply read_number_bound in Eg|done].
Qed.

Lemma of_segments_valid l a : Forall V6.is_u16 l → IpParse.of_segments l = Some a → V6.valid a.
Proof.
  intros Hl. do 9 (destruct l as [|? l]; [try done|]).
  - intros [= <-]. repeat (apply Forall_cons in Hl as [? Hl]). by split_and!.
  - done.
Qed.

Lemma read_ipv6_valid s a r : IpParse.read_ipv6_addr s = Some (a, r) → V6.valid a.
Proof.
  unfold IpParse.read_ipv6_addr. pose proof (read_groups_valid 8 0 s) as Hh.
  destruct (IpParse.read_groups 8 0 s) as [[head v4] s1]. simpl in Hh.
  destruct (length head =? 8).
  { destruct (IpParse.of_segments head) eqn:E; [|done]. intros [= <- <-]. by eapply of_segments_valid. }
  destruct v4; [done|]. destruct s1 as [|c1 [|c2 s2]]; [done|by destruct c1 as [[] [] [] [] [] [] [] []]|].
  destruct (decide (c1 = ":"%char)) as [->|]; [|by destruct c1 as [[] [] [] [] [] [] [] []]].
  destruct (decide (c2 = ":"%char)) as [->|]; [|by destruct c2 as [[] [] [] [] [] [] [] []]].
  pose proof (read_groups_valid (8 - (length head + 1)) 0 s2) as Ht.
  destruct (IpParse.read_groups _ 0 s2) as [[tail v4'] s3]. simpl in Ht |- *.
  destruct (IpParse.of_segments _) eqn:E; [|done]. intros [= <- <-].
  eapply of_segments_valid; [|exact E]. apply Forall_app. split; [done|]. apply Forall_app. split; [|done].
  apply Forall_replicate. unfold V6.is_u16. lia.
Qed.

Lemma literal_host_valid host ip : literal_host host = Some ip → ip_valid ip.
Proof.
  assert (∀ A (r : option (A * string)) a, IpParse.whole r = Some a → r = Some (a, "")) as Hw.
  { intros A [[a []]|] b; simpl; congruence. }
  unfold literal_host. case_match.
  - intros Hl. apply fmap_Some in Hl as (a & Ha & ->). unfold IpParse.parse_ipv6 in Ha.
    apply Hw in Ha. by eapply read_ipv6_valid.
  - unfold IpParse.parse_ip. intros Hl. apply Hw in Hl.
    destruct (IpParse.read_ipv4_addr host) as [[a s]|] eqn:E4.
    + simplify_eq. by eapply read_ipv4_valid.
    + destruct (IpParse.read_ipv6_addr host) as [[a s]|] eqn:E6; [|done]. simplify_eq. by eapply read_ipv6_valid.
Qed.

(** ** What the guard promises *)

Lemma check_answers_spec host port ips :
  match check_answers false host port ips with
  | Ok addrs => addrs = (λ ip, (ip, port)) <$> ips ∧ Forall (λ ip, is_private_target ip = false) ips
  | Err e => ∃ ip, ip ∈ ips ∧ is_private_target ip = true ∧ e = PrivateAnswer host ip
  end.
Proof.
  induction ips as [|ip ips IH]; simpl; [done|].
  destruct (is_private_target ip) eqn:E; simpl.
  - exists ip. split_and!; [by left|done|done].
  - destruct (check_answers false host port ips) as [addrs|e].
    + destruct IH as [-> IH]. split; [done|by constructor].
    + destruct IH as (ip' & ? & ? & ->). exists ip'. split_and!; [by right|done|done].
Qed.

(** The addresses a sender connects to for a URL whose host is [host]. *)
Definition reaches (host : string) (s : Sender) : list IpAddr :=
  match s with
  | Shared => match literal_host host with Some ip => [ip] | None => [] end
  | Pinned pin => (pin_addrs pin).*1
  end.

(** C13. A delivery behind the guard never connects to a private address. A post is
    made only for an HTTP(S) URL with a host; the sender then connects to the
    literal address of the host, or to exactly the addresses the resolver gave
    for it, each at the URL's port; there is at least one, and every one of them
    lies outside the blocks of loopback, private, shared, link-local, multicast,
    reserved and translated addresses. Without a post the delivery has failed,
    and nothing is retried. *)
Theorem webhook_never_reaches_private `{UrlParser} (resolve : string → list IpAddr)
    (pinned_build : DeliveryPin → bool) (first_permit : bool) (base_ms cap_ms budget_ms : Z)
    (url : string) (attempts : list Attempt) :
  (∀ host, Forall ip_valid (resolve host)) →
  let '(out, posts, sender) := deliver_guarded (Some (mkSsrfGuard resolve false)) pinned_build first_permit
    base_ms cap_ms budget_ms url attempts in
  match sender with
  | Some s => ∃ u host port, url_parse url = Ok u ∧ ascii_lowercase (url_scheme u) ∈ ["http"; "https"] ∧
      url_host_str u = Some host ∧ url_port_or_known_default u = Some port ∧
      reaches host s ≠ [] ∧ Forall (λ ip, ¬ blocked ip) (reaches host s) ∧
      match s with
      | Shared => True
      | Pinned pin => pin_host pin = host ∧ pin_addrs pin = (λ ip, (ip, port)) <$> resolve host
      end
  | None => out = Some DeliveredFailed ∧ posts = 0
  end.
Proof.
  intros Hres. unfold deliver_guarded. destruct (preflight _ _ _) as [s|] eqn:Ep; [|done].
  assert (∃ u host port, url_parse url = Ok u ∧ ascii_lowercase (url_scheme u) ∈ ["http"; "https"] ∧
      url_host_str u = Some host ∧ url_port_or_known_default u = Some port ∧
      reaches host s ≠ [] ∧ Forall (λ ip, ¬ blocked ip) (reaches host s) ∧
      match s with
      | Shared => True
      | Pinned pin => pin_host pin = host ∧ pin_addrs pin = (λ ip, (ip, port)) <$> resolve host
      end) as Hgoal; [|by destruct first_permit; [destruct (deliver_attempts _ _ _ _)|]].
  assert (∀ ip, ip_valid ip → is_private_target ip = false → ¬ blocked ip) as Hpub.
  { intros ip Hv Hp Hb. apply private_blocked in Hb; congruence. }
  unfold preflight, ssrf_check in Ep. destruct (url_parse url) as [u|] eqn:Eu; [|done].
  destruct (_ && _) eqn:Esch; [done|]. destruct (url_host_str u) as [host|] eqn:Eh; [|done].
  destruct (url_port_or_known_default u) as [port|] eqn:Eport; [|done].
  exists u, host, port. split; [done|]. split.
  { apply andb_false_iff in Esch. rewrite !bool_decide_eq_false in Esch. rewrite !elem_of_cons.
    destruct Esch as [Es|Es]; [left|right; left]; by apply dec_stable. }
  split; [done|]. split; [done|]. simpl in Ep.
  destruct (literal_host host) as [ip|] eqn:El.
  - destruct (is_private_target ip) eqn:Epr; [done|]. simpl in Ep. simplify_eq. simpl. rewrite El.
    split_and!; [done| |done]. constructor; [|constructor]. apply Hpub; [by eapply literal_host_valid|done].
  - pose proof (check_answers_spec host port (resolve host)) as Hc.
    destruct (bool_decide (resolve host = [])) eqn:Ene; [done|]. apply bool_decide_eq_false in Ene.
    destruct (check_answers _ _ _ _) as [addrs|]; [|done]. destruct Hc as [-> Hpu].
    destruct (pinned_build _); [|done]. simplify_eq. simpl.
    assert (((λ ip, (ip, port)) <$> resolve host).*1 = resolve host) as ->.
    { rewrite <-list_fmap_compose. exact (list_fmap_id _). }
    split_and!; [done| |done|done]. specialize (Hres host). rewrite Forall_forall in Hres, Hpu.
    apply Forall_forall. intros ip Hip. apply Hpub; auto.
Qed.

(** A public target is delivered to: an HTTP(S) URL whose host resolves to
    addresses outside the blocks gets its attempts, pinned to those addresses. *)
Theorem public_target_delivered `{UrlParser} (resolve : string → list IpAddr)
    (pinned_build : DeliveryPin → bool) (base_ms cap_ms budget_ms : Z) (url host : string) (u : Url) (port : Z)
    (attempts : list Attempt) :
  url_parse url = Ok u → ascii_lowercase (url_scheme u) ∈ ["http"; "https"] →
  url_host_str u = Some host → url_port_or_known_default u = Some port →
  literal_host host = None → resolve host ≠ [] →
  Forall (λ ip, ip_valid ip ∧ ¬ blocked ip) (resolve host) → (∀ pin, pinned_build pin = true) →
  deliver_guarded (Some (mkSsrfGuard resolve false)) pinned_build true base_ms cap_ms budget_ms url attempts =
    (deliver_attempts base_ms cap_ms budget_ms attempts,
     Some (Pinned (mkDeliveryPin host ((λ ip, (ip, port)) <$> resolve host)))).
Proof.
  intros Hu Hs Hh Hp Hl Hne Hpub Hb. unfold deliver_guarded, preflight, ssrf_check. rewrite Hu.
  assert (bool_decide (ascii_lowercase (url_scheme u) ≠ "http")
    && bool_decide (ascii_lowercase (url_scheme u) ≠ "https") = false) as ->.
  { apply andb_false_iff. rewrite !bool_decide_eq_false. rewrite !elem_of_cons, elem_of_nil in Hs. tauto. }
  rewrite Hh, Hp, Hl. cbn [sg_resolve sg_allow_private]. rewrite bool_decide_eq_false_2 by done.
  pose proof (check_answers_spec host port (resolve host)) as Hc.
  destruct (check_answers false host port (resolve host)) as [addrs|e].
  - destruct Hc as [-> _]. by rewrite Hb.
  - destruct Hc as (ip & Hin & Hpr & _). rewrite Forall_forall in Hpub. destruct (Hpub ip Hin) as [Hv Hnb].
    by apply private_blocked in Hpr.
Qed.

Module SsrfDemo.
#[local] Instance parser : UrlParser :=
  {| url_parse url := Ok (mkUrl "http" (Str.strip_prefix "http://" url) (Some 80%Z)) |}.
Definition dns (host : string) : list IpAddr :=
  if decide (host = "hook") then [V4 (mkV4 93 184 216 34)] else [V4 (mkV4 93 184 216 34); V4 (mkV4 10 0 0 7)].
Definition answered : list Attempt := [mkAttempt (Some 200%Z) 5000000 0 0 (Some 0%Z)].

Lemma dns_valid host : Forall ip_valid (dns host).
Proof.
  unfold dns. case_decide; repeat (apply Forall_cons; split; [unfold ip_valid, V4.valid, is_byte; simpl; lia|]);
    apply Forall_nil_2.
Qed.
End SsrfDemo.

Lemma webhook_never_reaches_private_witness :
  (deliver_guarded (H := SsrfDemo.parser) (Some (mkSsrfGuard SsrfDemo.dns false)) (λ _, true) true 10 100 50
     "http://rebind" SsrfDemo.answered).1.2 = 0.
Proof.
  pose proof (webhook_never_reaches_private (H := SsrfDemo.parser) SsrfDemo.dns (λ _, true) true 10 100 50
    "http://rebind" SsrfDemo.answered SsrfDemo.dns_valid) as Hv.
  assert ((deliver_guarded (H := SsrfDemo.parser) (Some (mkSsrfGuard SsrfDemo.dns false)) (λ _, true) true 10 100 50
     "http://rebind" SsrfDemo.answered).2 = None) as E by (vm_compute; reflexivity).
  destruct (deliver_guarded _ _ _ _ _ _ _ _) as [[out posts] sender]. simpl in E. subst sender.
  exact (proj2 Hv).
Defined.

Lemma public_target_delivered_witness :
  (deliver_guarded (H := SsrfDemo.parser) (Some (mkSsrfGuard SsrfDemo.dns false)) (λ _, true) true 10 100 50
     "http://hook" SsrfDemo.answered).1 = (Some DeliveredOk, 1).
Proof.
  rewrite (public_target_delivered (H := SsrfDemo.parser) SsrfDemo.dns (λ _, true) 10 100 50 "http://hook" "hook"
    (mkUrl "http" (Some "hook") (Some 80%Z)) 80 SsrfDemo.answered); [vm_compute; reflexivity| | | | | | | |].
  - vm_compute; reflexivity.
  - left.
  - reflexivity.
  - reflexivity.
  - vm_compute; reflexivity.
  - discriminate.
  - apply Forall_cons. split; [|apply Forall_nil_2]. split; [unfold ip_valid, V4.valid, is_byte; simpl; lia|].
    intros Hb. apply (private_blocked (V4 (mkV4 93 184 216 34))) in Hb;
      [vm_compute in Hb; discriminate Hb|unfold ip_valid, V4.valid, is_byte; simpl; lia].
  - reflexivity.
Defined.
