(* ===== verification/Rate.v ===== *)
(** * Rate limiting: [src/src/rate.rs] and [src/src/ws/rate.rs]

    [f64] is IEEE 754 binary64 with round-to-nearest-even, by the Standard
    Library's executable specification of it. Instants are nanoseconds. *)

From Stdlib Require Import SpecFloat.
From S2P Require Import Prelude RustStd.

Abbreviation f64 := spec_float.

Module F64.
Definition prec : Z := 53.
Definition emax : Z := 1024.
Definition add (x y : f64) : f64 := SFadd prec emax x y.
Definition sub (x y : f64) : f64 := SFsub prec emax x y.
Definition mul (x y : f64) : f64 := SFmul prec emax x y.
Definition div (x y : f64) : f64 := SFdiv prec emax x y.

(** An unsigned integer [as f64], or [f64::from]. *)
Definition of_uint (n : Z) : f64 := binary_normalize prec emax n 0 false.

Definition is_nan (x : f64) : bool := match x with S754_nan => true | _ => false end.

(** [f64::min] returns the other argument when one is NaN. *)
Definition min (x y : f64) : f64 :=
  if is_nan x then y else if is_nan y then x else if SFltb y x then y else x.

Definition le (x y : f64) : bool := SFleb x y.
Definition lt (x y : f64) : bool := SFltb x y.

(** The value rounded toward zero, and up, for a finite non-negative number. *)
Definition floor_pos (m : positive) (e : Z) : Z :=
  if (0 <=? e)%Z then (Z.pos m * 2 ^ e)%Z else (Z.pos m / 2 ^ (- e))%Z.
Definition ceil_pos (m : positive) (e : Z) : Z :=
  if (0 <=? e)%Z then (Z.pos m * 2 ^ e)%Z else (- (- Z.pos m / 2 ^ (- e)))%Z.

(** A saturating [as] cast to an unsigned type; NaN and negatives give 0. *)
Definition as_uint (max : Z) (round : positive → Z → Z) (x : f64) : Z :=
  match x with
  | S754_finite false m e => Z.min (round m e) max
  | S754_infinity false => max
  | _ => 0%Z
  end.
End F64.

(** ** [TokenBucket] *)

Record TokenBucket : Type := mkTokenBucket {
  tb_rate_per_second : Z;
  tb_rate : f64;
  tb_capacity : f64;
  tb_tokens : f64;
  tb_last_ns : option Z
}.

Definition TokenBucket_new (rate_per_second burst : Z) : TokenBucket :=
  let capacity := F64.of_uint (Z.max burst rate_per_second) in
  mkTokenBucket rate_per_second (F64.of_uint rate_per_second) capacity capacity None.

Definition refilled_at_ns (now_ns : Z) (b : TokenBucket) : f64 :=
  match tb_last_ns b with
  | None => tb_capacity b
  | Some prev =>
      let elapsed :=
        F64.div (F64.of_uint (U64.saturating_sub now_ns prev)) (F64.of_uint 1000000000) in
      F64.min (F64.add (tb_tokens b) (F64.mul elapsed (tb_rate b))) (tb_capacity b)
  end.

Definition set_tokens (tokens : f64) (now_ns : Z) (b : TokenBucket) : TokenBucket :=
  mkTokenBucket (tb_rate_per_second b) (tb_rate b) (tb_capacity b) tokens (Some now_ns).

Definition take_at_ns (now_ns cost : Z) (b : TokenBucket) : TokenBucket * bool :=
  if (tb_rate_per_second b =? 0)%Z then (b, true)
  else
    let cost := F64.of_uint cost in
    if F64.lt (tb_capacity b) cost then (b, false)
    else
      let tokens := refilled_at_ns now_ns b in
      if F64.le cost tokens then (set_tokens (F64.sub tokens cost) now_ns b, true)
      else (set_tokens tokens now_ns b, false).

Definition remaining_at_ns (now_ns : Z) (b : TokenBucket) : Z :=
  if (tb_rate_per_second b =? 0)%Z then U32_MAX
  else F64.as_uint U32_MAX F64.floor_pos (refilled_at_ns now_ns b).

Definition retry_after_secs_at_ns (now_ns cost : Z) (b : TokenBucket) : Z :=
  if (tb_rate_per_second b =? 0)%Z then 0%Z
  else
    let deficit := F64.sub (F64.of_uint cost) (refilled_at_ns now_ns b) in
    if F64.le deficit (F64.of_uint 0) then 0%Z
    else Z.max (F64.as_uint U64.MAX F64.ceil_pos (F64.div deficit (tb_rate b))) 1.

(** ** [RateWindow] *)

Record RateWindow : Type := mkRateWindow { rw_bucket : TokenBucket; rw_origin : option Z }.

Definition RateWindow_new (limit : Z) : RateWindow :=
  mkRateWindow (TokenBucket_new limit limit) None.

Definition check_at (now : Z) (w : RateWindow) : RateWindow * bool :=
  let origin := default now (rw_origin w) in
  let now_ns := (U64.saturating_sub now origin mod 2 ^ 64)%Z in
  let '(b, ok) := take_at_ns now_ns 1 (rw_bucket w) in
  (mkRateWindow b (Some origin), ok).

(** ** No NaN out of rounding *)

Definition real (x : f64) : Prop := F64.is_nan x = false.

Lemma shr_1_nonneg r : (0 <= shr_m r)%Z → (0 <= shr_m (shr_1 r))%Z.
Proof. destruct r as [[|[p|p|]|p] rr rs]; simpl; lia. Qed.

Lemma shr_nonneg r e n : (0 <= shr_m r)%Z → (0 <= shr_m (shr r e n).1)%Z.
Proof.
  intros Hr. unfold shr. destruct n as [|p|p]; simpl; [done| |done].
  revert r Hr. induction p as [p IH|p IH|]; intros r Hr; simpl; auto using shr_1_nonneg.
Qed.

Lemma shr_fexp_nonneg m e l :
  (0 <= m)%Z → (0 <= shr_m (shr_fexp F64.prec F64.emax m e l).1)%Z.
Proof. intros Hm. unfold shr_fexp. apply shr_nonneg. destruct l as [|[]]; simpl; done. Qed.

Lemma round_even_nonneg m l : (0 <= m)%Z → (0 <= round_nearest_even m l)%Z.
Proof. intros Hm. destruct l as [|[]]; simpl; try lia. destruct (Z.even m); lia. Qed.

Lemma binary_round_aux_real sx m e l :
  (0 <= m)%Z → real (binary_round_aux F64.prec F64.emax sx m e l).
Proof.
  intros Hm. unfold binary_round_aux.
  pose proof (shr_fexp_nonneg m e l Hm) as H1.
  destruct (shr_fexp F64.prec F64.emax m e l) as [r e']. simpl in H1.
  pose proof (shr_fexp_nonneg _ e' loc_Exact (round_even_nonneg _ (loc_of_shr_record r) H1)) as H2.
  destruct (shr_fexp _ _ (round_nearest_even _ _) e' loc_Exact) as [r'' e'']. simpl in H2.
  destruct (shr_m r''); [done| |lia]. by destruct (_ <=? _)%Z.
Qed.

Lemma of_uint_real n : real (F64.of_uint n).
Proof.
  unfold F64.of_uint, binary_normalize, binary_round.
  destruct n as [|p|p]; [done| |]; destruct (shl_align _ _ _); by apply binary_round_aux_real.
Qed.

Lemma compare_antisym x y : SFcompare x y = CompOpp <$> SFcompare y x.
Proof.
  destruct x as [s|s| |s m e], y as [s'|s'| |s' m' e']; try done;
    simpl; destruct s, s'; try done;
    rewrite (Z.compare_antisym e' e); destruct (e' ?= e)%Z; simpl; try done;
    rewrite (Pos.compare_antisym m' m : Pos.compare_cont Eq m m' = _); try done;
    by rewrite ?CompOpp_involutive.
Qed.

Lemma compare_real x y : real x → real y → is_Some (SFcompare x y).
Proof. destruct x, y; simpl; eauto; done. Qed.

Lemma not_lt_le x y : real x → real y → SFltb y x = false → SFleb x y = true.
Proof.
  unfold SFltb, SFleb. intros Hx Hy. rewrite (compare_antisym x y).
  destruct (compare_real y x Hy Hx) as [[] ->]; done.
Qed.

Lemma lt_le x y : SFltb x y = true → SFleb x y = true.
Proof. unfold SFltb, SFleb. by destruct (SFcompare x y) as [[]|]. Qed.

Lemma le_refl x : real x → SFleb x x = true.
Proof.
  intros Hx. apply not_lt_le; [done..|]. unfold SFltb. pose proof (compare_antisym x x) as Ha.
  destruct (SFcompare x x) as [[]|]; done.
Qed.

Lemma min_real x cap : real cap → real (F64.min x cap) ∧ SFleb (F64.min x cap) cap = true.
Proof.
  unfold F64.min. intros Hc. destruct (F64.is_nan x) eqn:Hx; [by auto using le_refl|].
  rewrite Hc. destruct (SFltb cap x) eqn:Hlt; [by auto using le_refl|].
  split; [done|]. by apply not_lt_le.
Qed.

(** ** Integers below 2^53 are exact *)

Lemma digits_bounds p : (2 ^ (Z.pos (digits2_pos p) - 1) <= Z.pos p < 2 ^ Z.pos (digits2_pos p))%Z.
Proof.
  induction p as [p IH|p IH|]; simpl digits2_pos; [..|by vm_compute].
  all: rewrite Pos2Z.inj_succ; replace (Z.succ (Z.pos (digits2_pos p)) - 1)%Z
         with (Z.succ (Z.pos (digits2_pos p) - 1))%Z by lia.
  all: rewrite !Z.pow_succ_r by lia; lia.
Qed.

Lemma iter_xO p k : Z.pos (Pos.iter xO p k) = (Z.pos p * 2 ^ Z.pos k)%Z ∧
  digits2_pos (Pos.iter xO p k) = (digits2_pos p + k)%positive.
Proof.
  induction k as [|k [IH1 IH2]] using Pos.peano_ind; [simpl; lia|].
  rewrite Pos.iter_succ. simpl. rewrite IH2, Pos2Z.inj_succ, Z.pow_succ_r by lia. lia.
Qed.

Lemma round_exact p e : fexp F64.prec F64.emax (Z.pos (digits2_pos p) + e) = e → (e <= 971)%Z →
  binary_round_aux F64.prec F64.emax false (Z.pos p) e loc_Exact = S754_finite false p e.
Proof.
  intros He Hle. unfold binary_round_aux, shr_fexp. simpl Zdigits2. rewrite He, Z.sub_diag. simpl.
  rewrite He, Z.sub_diag. simpl. unfold F64.emax, F64.prec. case_match eqn:E; [done|]. apply Z.leb_gt in E. lia.
Qed.

(** The mantissa of a small integer fills the 53 bits. *)
Lemma of_uint_small p : (Z.pos p < 2 ^ 53)%Z → ∃ m,
  F64.of_uint (Z.pos p) = S754_finite false m (Z.pos (digits2_pos p) - 53) ∧
  Z.pos m = (Z.pos p * 2 ^ (53 - Z.pos (digits2_pos p)))%Z.
Proof.
  intros Hp. pose proof (digits_bounds p) as [Hlo Hhi]. set (d := digits2_pos p) in *.
  assert (Z.pos d <= 53)%Z as Hd.
  { apply Z.le_ngt. intros Hgt. assert (2 ^ 53 <= 2 ^ (Z.pos d - 1))%Z by (apply Z.pow_le_mono_r; lia). lia. }
  assert (∀ e, (0 < e <= 53)%Z → fexp F64.prec F64.emax e = (e - 53)%Z) as Hfexp.
  { intros e He. unfold fexp, emin, F64.prec, F64.emax. lia. }
  unfold F64.of_uint, binary_normalize, binary_round. fold d. rewrite Z.add_0_r, Hfexp by lia.
  unfold shl_align. rewrite Z.sub_0_r. destruct (Z.pos d - 53)%Z as [|q|q] eqn:E; [|lia|].
  - exists p. replace (53 - Z.pos d)%Z with 0%Z by lia. rewrite Z.mul_1_r. split; [|done].
    apply round_exact; [fold d; rewrite Hfexp by lia; lia|lia].
  - destruct (iter_xO p q) as [Hm Hdig]. exists (Pos.iter xO p q). split.
    + apply round_exact; [rewrite Hdig, Hfexp; fold d; lia|lia].
    + rewrite Hm. do 2 f_equal. lia.
Qed.

(** Below 2^53 the order of integers is that of the numbers they become. *)
Lemma of_uint_lt a b : (0 < a < b)%Z → (b < 2 ^ 53)%Z → F64.lt (F64.of_uint a) (F64.of_uint b) = true.
Proof.
  intros Hab Hb. destruct a as [|a|a]; [lia| |lia]. destruct b as [|b|b]; [lia| |lia].
  destruct (of_uint_small a ltac:(lia)) as (m & -> & Hm). destruct (of_uint_small b ltac:(lia)) as (n & -> & Hn).
  pose proof (digits_bounds a) as [Halo Hahi]. pose proof (digits_bounds b) as [Hblo Hbhi].
  unfold F64.lt, SFltb. simpl.
  destruct (Z.compare_spec (Z.pos (digits2_pos a) - 53) (Z.pos (digits2_pos b) - 53)) as [He|He|He]; [|done|].
  - assert (digits2_pos a = digits2_pos b) as Hd by lia. rewrite Hd in Hm.
    change (Pos.compare_cont Eq m n) with (Pos.compare m n).
    assert (Z.pos m < Z.pos n)%Z as Hlt; [|by rewrite (proj2 (Pos.compare_lt_iff m n) Hlt)].
    rewrite Hm, Hn. apply Z.mul_lt_mono_pos_r; [|lia]. apply Z.pow_pos_nonneg; [lia|].
    apply Z.le_ngt. intros Hgt. assert (2 ^ 53 <= 2 ^ (Z.pos (digits2_pos b) - 1))%Z by (apply Z.pow_le_mono_r; lia). lia.
  - assert (2 ^ Z.pos (digits2_pos b) <= 2 ^ (Z.pos (digits2_pos a) - 1))%Z by (apply Z.pow_le_mono_r; lia). lia.
Qed.

(** ** Reachable buckets *)

Definition bucket_run (b : TokenBucket) : list (Z * Z) → TokenBucket :=
  foldl (λ b op, (take_at_ns op.1 op.2 b).1) b.

(** What no operation changes. *)
Lemma take_keeps now cost b :
  let b' := (take_at_ns now cost b).1 in
  tb_rate_per_second b' = tb_rate_per_second b ∧ tb_rate b' = tb_rate b ∧
  tb_capacity b' = tb_capacity b.
Proof.
  unfold take_at_ns. destruct (_ =? 0)%Z; [done|]. destruct (F64.lt _ _); [done|].
  by destruct (F64.le _ _).
Qed.

Lemma run_keeps ops b :
  tb_rate_per_second (bucket_run b ops) = tb_rate_per_second b ∧
  tb_capacity (bucket_run b ops) = tb_capacity b.
Proof.
  revert b. induction ops as [|[now cost] ops IH]; intros b; simpl; [done|].
  destruct (IH (take_at_ns now cost b).1) as [-> ->].
  pose proof (take_keeps now cost b) as (-> & _ & ->). done.
Qed.

Lemma refilled_bounded now b :
  real (tb_capacity b) →
  real (refilled_at_ns now b) ∧ SFleb (refilled_at_ns now b) (tb_capacity b) = true.
Proof.
  intros Hc. unfold refilled_at_ns. destruct (tb_last_ns b); [by apply min_real|].
  by auto using le_refl.
Qed.

(** ** Properties *)

(** The token bucket, over any history of requests at any times: a rate of
    zero means no limit; a cost above the capacity is refused and leaves the
    bucket alone; otherwise the request is granted exactly when the refilled
    amount covers its cost, and that amount is a number that never exceeds the
    capacity, however long the bucket was idle. *)
Theorem token_bucket_bounded (rate burst : Z) (ops : list (Z * Z)) (now cost : Z) :
  let b := bucket_run (TokenBucket_new rate burst) ops in
  let '(b', granted) := take_at_ns now cost b in
  let refilled := refilled_at_ns now b in
  let capacity := F64.of_uint (Z.max burst rate) in
  real refilled ∧ F64.le refilled capacity = true ∧
  (rate = 0%Z → granted = true ∧ b' = b) ∧
  (rate ≠ 0%Z → F64.lt capacity (F64.of_uint cost) = true → granted = false ∧ b' = b) ∧
  (rate ≠ 0%Z → F64.lt capacity (F64.of_uint cost) = false →
     granted = F64.le (F64.of_uint cost) refilled ∧
     tb_tokens b' = (if granted then F64.sub refilled (F64.of_uint cost) else refilled) ∧
     tb_last_ns b' = Some now).
Proof.
  intros b. destruct (run_keeps ops (TokenBucket_new rate burst)) as [Hr Hc].
  fold b in Hr, Hc. simpl in Hr, Hc.
  assert (real (tb_capacity b)) as Hreal by (rewrite Hc; apply of_uint_real).
  destruct (refilled_bounded now b Hreal) as [Hrr Hle]. rewrite Hc in Hle.
  unfold take_at_ns. rewrite Hr, Hc.
  destruct (Z.eqb_spec rate 0) as [->|Hne]; [by split_and!|].
  destruct (F64.lt (F64.of_uint (Z.max burst rate)) (F64.of_uint cost)) eqn:Hlt.
  { by split_and!. }
  destruct (F64.le (F64.of_uint cost) (refilled_at_ns now b)) eqn:Hge; by split_and!.
Qed.

(** Ten client events at once, the eleventh refused, one more after 100 ms. *)
Example ten_per_second :
  let step acc now := let '(w, oks) := acc in
    let '(w, ok) := check_at now w in (w, oks ++ [ok]) in
  (foldl step (RateWindow_new 10, []) (replicate 11 5%Z ++ [100000005%Z; 100000006%Z])).2 =
  replicate 10 true ++ [false; true; false].
Proof. vm_compute. reflexivity. Qed.
