(* ===== verification/Handler.v ===== *)
(** * The connection handler: [src/src/ws/handler.rs], [src/src/ws/subscribe.rs]
    and [src/src/ws/signin.rs]

    A [ConnectionContext] is one connection's protocol state; a [World] is what
    it shares: the adapter with the node's mailboxes, and the webhook mailbox.
    The adapter is any implementation of the class [Adapter]. Each operation is
    a function on the two, in the order of the code's effects; an [async] call
    of the adapter is one step. *)

From stdpp Require Import pretty.
From S2P Require Import Prelude RustStd Json Protocol Kind Fanout Mailbox ChannelState Registry.
From S2P Require Import UserRegistry Adapter Auth App Webhook Rate.

Record Limits : Type := mkLimits {
  max_presence_members : nat;
  max_event_payload_bytes : nat;
  max_watchlist_size : nat;
  max_channel_name_length : nat;
  max_event_name_length : nat;
  max_client_events_per_second : Z;
  max_presence_user_id_length : nat;
  max_presence_user_info_bytes : nat;
  max_subscriptions_per_connection : nat
}.

Record ConnectionContext : Type := mkConnectionContext {
  cx_app : App;
  cx_socket_id : SocketId;
  cx_self_tx : nat;
  cx_limits : Limits;
  cx_subscribed : gset string;
  cx_user : option AuthenticatedUser;
  cx_presence_membership : gmap string string;
  cx_client_event_rate : RateWindow;
  cx_saturated : bool;
  cx_clustered : bool;
  cx_mailbox_notify : option MailboxNotify;
  cx_mailbox_dropped : option nat;
  cx_capabilities : Capabilities
}.

Definition set_subscribed (s : gset string) (c : ConnectionContext) : ConnectionContext :=
  mkConnectionContext (cx_app c) (cx_socket_id c) (cx_self_tx c) (cx_limits c) s (cx_user c)
    (cx_presence_membership c) (cx_client_event_rate c) (cx_saturated c) (cx_clustered c)
    (cx_mailbox_notify c) (cx_mailbox_dropped c) (cx_capabilities c).

Definition set_user (u : option AuthenticatedUser) (c : ConnectionContext) : ConnectionContext :=
  mkConnectionContext (cx_app c) (cx_socket_id c) (cx_self_tx c) (cx_limits c) (cx_subscribed c) u
    (cx_presence_membership c) (cx_client_event_rate c) (cx_saturated c) (cx_clustered c)
    (cx_mailbox_notify c) (cx_mailbox_dropped c) (cx_capabilities c).

Definition set_presence_membership (m : gmap string string) (c : ConnectionContext)
    : ConnectionContext :=
  mkConnectionContext (cx_app c) (cx_socket_id c) (cx_self_tx c) (cx_limits c) (cx_subscribed c)
    (cx_user c) m (cx_client_event_rate c) (cx_saturated c) (cx_clustered c)
    (cx_mailbox_notify c) (cx_mailbox_dropped c) (cx_capabilities c).

Definition set_rate (r : RateWindow) (c : ConnectionContext) : ConnectionContext :=
  mkConnectionContext (cx_app c) (cx_socket_id c) (cx_self_tx c) (cx_limits c) (cx_subscribed c)
    (cx_user c) (cx_presence_membership c) r (cx_saturated c) (cx_clustered c)
    (cx_mailbox_notify c) (cx_mailbox_dropped c) (cx_capabilities c).

Record World (A : Type) : Type := mkWorld { w_ad : A * Env; w_hooks : WebhookHandle }.
Arguments mkWorld {A} _ _.
Arguments w_ad {A} _.
Arguments w_hooks {A} _.

Section handler.
Context `{SerdeJson, Crypto} {A : Type} `{Adapter A}.

Definition set_ad (ad : A * Env) (w : World A) : World A := mkWorld ad (w_hooks w).

Definition is_saturated (c : ConnectionContext) (w : World A) : bool :=
  cx_saturated c && flag_is_saturated (env_percore (w_ad w).2).

Definition conn_handle (c : ConnectionContext) : ConnectionHandle :=
  mkConnectionHandle (cx_socket_id c)
    (mkMailbox (cx_self_tx c) (cx_mailbox_notify c) (cx_mailbox_dropped c)).

(** Self-directed frames are not followed by a wake. *)
Definition send_self (c : ConnectionContext) (event : ServerEvent) (w : World A) : World A :=
  let '(a, e) := w_ad w in
  let st :=
    match try_send (cx_self_tx c) event (env_store e) with
    | (st, Full) => bump (cx_mailbox_dropped c) st
    | (st, _) => st
    end in
  set_ad (a, set_store st e) w.

Definition emit_webhook (event : WebhookEvent) (w : World A) : World A :=
  mkWorld (w_ad w) (enqueue event (w_hooks w)).

(** [broadcast] with its error logged only. *)
Definition broadcast_noting_drop (app channel : string) (event : ServerEvent)
    (except : option SocketId) (w : World A) : World A :=
  set_ad (ad_broadcast app channel event except (w_ad w)).1 w.

Definition send_each (hs : list ConnectionHandle) (event : ServerEvent) (w : World A) : World A :=
  let '(a, e) := w_ad w in set_ad (a, set_store (send_all hs event (env_store e)) e) w.

Definition notify_watchers (c : ConnectionContext) (user_id name : string) (w : World A)
    : World A :=
  let watchers := ad_watchers_of (app_id (cx_app c)) user_id (w_ad w) in
  if bool_decide (watchers = []) then w
  else send_each watchers (WatchlistEvents [mkWatchlistChange name [user_id]]) w.

Definition maybe_emit_count (c : ConnectionContext) (channel : string) (count : nat) (w : World A)
    : World A :=
  if cx_clustered c then w
  else if decide (ci_auth (ChannelInfo_of channel) = Presence) then w
  else if subscription_count_enabled (cx_app c) then
    let w := broadcast_noting_drop (app_id (cx_app c)) channel
               (SubscriptionCount channel count) None w in
    if (0 <? count)%nat && has_subscription_count_webhooks (cx_app c)
    then emit_webhook (Hook.SubscriptionCount (app_id (cx_app c)) channel count) w
    else w
  else w.

(** What [unsubscribe] announces, from the adapter's outcome. *)
Definition announce_leave (c : ConnectionContext) (channel : string) (out : UnsubscribeOutcome)
    (w : World A) : World A :=
  let app := app_id (cx_app c) in
  let w :=
    if negb (cx_clustered c) then
      match uo_presence out with
      | Some leave =>
          if pl_last_for_user leave then
            let w := broadcast_noting_drop app channel
                       (MemberRemoved channel (pl_user_id leave)) None w in
            if has_member_removed_webhooks (cx_app c)
            then emit_webhook (Hook.MemberRemoved app channel (pl_user_id leave)) w
            else w
          else w
      | None => w
      end
    else w in
  let w :=
    if negb (cx_clustered c) && uo_vacated out && has_channel_vacated_webhooks (cx_app c)
    then emit_webhook (Hook.ChannelVacated app channel) w else w in
  maybe_emit_count c channel (uo_subscription_count out) w.

Definition unsubscribe (channel : string) (c : ConnectionContext) (w : World A)
    : ConnectionContext * World A :=
  if decide (channel ∈ cx_subscribed c) then
    let c := set_presence_membership (delete channel (cx_presence_membership c))
               (set_subscribed (cx_subscribed c ∖ {[channel]}) c) in
    let '(ad, out) :=
      ad_unsubscribe (app_id (cx_app c)) channel (cx_socket_id c) (w_ad w) in
    (c, announce_leave c channel out (set_ad ad w))
  else (c, w).

(** ** Subscribing *)

Definition send_subscription_error (c : ConnectionContext) (channel error_type error : string)
    (status : Z) (w : World A) : World A :=
  send_self c (SubscriptionError channel error_type error status) w.

Definition resend_subscription_succeeded (c : ConnectionContext) (channel : string) (w : World A)
    : World A :=
  if decide (ci_auth (ChannelInfo_of channel) = Presence) then
    set_ad (ad_resend_presence_ack (app_id (cx_app c)) channel (ch_mailbox (conn_handle c)) (w_ad w)) w
  else send_self c (SubscriptionSucceeded channel None) w.

Definition emit_occupied_if_edge (c : ConnectionContext) (channel : string) (occupied : bool)
    (w : World A) : World A :=
  if cx_clustered c then w
  else if occupied && has_channel_occupied_webhooks (cx_app c)
  then emit_webhook (Hook.ChannelOccupied (app_id (cx_app c)) channel) w
  else w.

(** The tail of the public and private arms. *)
Definition join_plain (channel : string) (c : ConnectionContext) (w : World A)
    : ConnectionContext * World A :=
  let '(ad, out) :=
    ad_subscribe (app_id (cx_app c)) channel (conn_handle c) None (w_ad w) in
  let c := set_subscribed ({[channel]} ∪ cx_subscribed c) c in
  let w := send_self c (SubscriptionSucceeded channel None) (set_ad ad w) in
  let w := maybe_emit_count c channel (so_subscription_count out) w in
  (c, emit_occupied_if_edge c channel (so_occupied out) w).

(** What the presence arm announces. *)
Definition announce_join (c : ConnectionContext) (channel : string) (out : SubscribeOutcome)
    (w : World A) : World A :=
  let app := app_id (cx_app c) in
  match so_presence out with
  | Some join =>
      if negb (cx_clustered c) then
        let w := send_self c (Raw (pj_roster_frame join)) w in
        if pj_first_for_user join then
          let m := pj_member join in
          let w := broadcast_noting_drop app channel
                     (MemberAdded channel (pm_user_id m) (pm_user_info m))
                     (Some (cx_socket_id c)) w in
          if has_member_added_webhooks (cx_app c)
          then emit_webhook (Hook.MemberAdded app channel (pm_user_id m)) w
          else w
        else w
      else w
  | None => w
  end.

Definition join_presence (channel : string) (member : PresenceMember) (c : ConnectionContext)
    (w : World A) : ConnectionContext * World A :=
  let '(ad, out) :=
    ad_subscribe (app_id (cx_app c)) channel (conn_handle c) (Some member) (w_ad w) in
  let c := set_presence_membership (<[channel := pm_user_id member]> (cx_presence_membership c))
             (set_subscribed ({[channel]} ∪ cx_subscribed c) c) in
  let w := announce_join c channel out (set_ad ad w) in
  let w := maybe_emit_count c channel (so_subscription_count out) w in
  (c, emit_occupied_if_edge c channel (so_occupied out) w).

(** A refused subscription: the error's type, message and status. *)
Abbreviation refusal := (string * string * Z)%type.

(** The private and encrypted arm, up to the join. *)
Definition vet_private (c : ConnectionContext) (kind : AuthKind) (channel : string)
    (auth : option string) : result unit refusal :=
  if bool_decide (kind = PrivateEncrypted) && negb (cap_encrypted_channels (cx_capabilities c)) then
    Err ("AuthError", "Encrypted channels are not supported by this protocol version", 401%Z)
  else
    match auth with
    | None => Err ("AuthError", "Auth signature required", 401%Z)
    | Some token =>
        match channel_verify (app_key (cx_app c)) (app_secret (cx_app c))
                (SocketId.as_str (cx_socket_id c)) channel None token with
        | Err e => Err ("AuthError", TokenError_message e, 401%Z)
        | Ok _ => Ok tt
        end
    end.

(** The node-local member cap. *)
Definition presence_full (c : ConnectionContext) (channel : string) (member : PresenceMember)
    (w : World A) : bool :=
  let current := default 0 (cs_user_count (ad_channel (app_id (cx_app c)) channel (w_ad w))) in
  let already_member :=
    existsb (λ m, bool_decide (pm_user_id m = pm_user_id member))
      (ad_presence_members (app_id (cx_app c)) channel (w_ad w)) in
  negb already_member && (max_presence_members (cx_limits c) <=? current)%nat.

(** The presence arm, up to the join. *)
Definition vet_presence (c : ConnectionContext) (channel : string)
    (auth channel_data : option string) (w : World A) : result PresenceMember refusal :=
  if negb (cap_presence (cx_capabilities c)) then
    Err ("AuthError", "Presence channels are not supported by this protocol version", 401%Z)
  else
    match auth with
    | None => Err ("AuthError", "Auth signature required", 401%Z)
    | Some token =>
        match channel_data with
        | None => Err ("AuthError", "Presence requires channel_data", 401%Z)
        | Some raw =>
            match channel_verify (app_key (cx_app c)) (app_secret (cx_app c))
                    (SocketId.as_str (cx_socket_id c)) channel (Some raw) token with
            | Err e => Err ("AuthError", TokenError_message e, 401%Z)
            | Ok _ =>
                match parse_channel_data raw with
                | Err _ => Err ("AuthError", "Invalid channel_data", 401%Z)
                | Ok member =>
                    if (max_presence_user_id_length (cx_limits c)
                          <? Str.chars_count (pm_user_id member))%nat
                    then Err ("InvalidPresenceData", "user_id exceeds maximum length", 401%Z)
                    else if negb (is_null (pm_user_info member)) &&
                            (max_presence_user_info_bytes (cx_limits c)
                               <? String.length (to_string (pm_user_info member)))%nat
                    then Err ("InvalidPresenceData", "user_info exceeds maximum size", 401%Z)
                    else if negb (cx_clustered c) && presence_full c channel member w
                    then Err ("LimitReached", "Presence channel is full", 4004%Z)
                    else Ok member
                end
            end
        end
    end.

(** What the checks allow: only the acknowledgement (the user's own
    [#server-to-user-] channel), a plain join, or a join as a member. *)
Inductive plan : Type := AckOnly | JoinPlain | JoinAs (member : PresenceMember).

Definition vet (c : ConnectionContext) (channel : string) (auth channel_data : option string)
    (w : World A) : result plan refusal :=
  let cap := max_subscriptions_per_connection (cx_limits c) in
  if negb (cap =? 0)%nat && (cap <=? size (cx_subscribed c))%nat then
    Err ("LimitReached", "Subscription limit reached for this connection", 4004%Z)
  else if is_saturated c w then
    Err ("LimitReached", "Server is over capacity; try again shortly", 4004%Z)
  else
    match Str.strip_prefix SERVER_TO_USER_PREFIX channel with
    | Some uid =>
        if match cx_user c with Some u => bool_decide (au_id u = uid) | None => false end
        then Ok AckOnly else Err ("AuthError", "Unauthorized", 401%Z)
    | None =>
        if Str.starts_with "#" channel then Err ("AuthError", "Unknown channel", 401%Z)
        else if negb (validate_channel_name channel (max_channel_name_length (cx_limits c))) then
          Err ("InvalidChannel", "Invalid channel name", 4009%Z)
        else
          let info := ChannelInfo_of channel in
          if ci_cache info && negb (cap_cache_channels (cx_capabilities c)) then
            Err ("AuthError", "Cache channels are not supported by this protocol version", 401%Z)
          else
            match ci_auth info with
            | Public => Ok JoinPlain
            | Private | PrivateEncrypted =>
                match vet_private c (ci_auth info) channel auth with
                | Ok _ => Ok JoinPlain
                | Err e => Err e
                end
            | Presence =>
                match vet_presence c channel auth channel_data w with
                | Ok m => Ok (JoinAs m)
                | Err e => Err e
                end
            end
    end.

(** The cache replay after a join. *)
Definition replay_cache (channel : string) (c : ConnectionContext) (w : World A) : World A :=
  if negb (cx_clustered c) && ci_cache (ChannelInfo_of channel)
     && bool_decide (channel ∈ cx_subscribed c) then
    match ad_cache_get (app_id (cx_app c)) channel (w_ad w) with
    | Some cached =>
        send_self c (ChannelEvent channel (ce_event cached) (JString (ce_data cached)) None) w
    | None =>
        let w := if has_cache_miss_webhooks (cx_app c)
                 then emit_webhook (Hook.CacheMiss (app_id (cx_app c)) channel) w else w in
        send_self c (CacheMiss channel) w
    end
  else w.

Definition subscribe (channel : string) (auth channel_data : option string)
    (c : ConnectionContext) (w : World A) : ConnectionContext * World A :=
  if decide (channel ∈ cx_subscribed c) then (c, resend_subscription_succeeded c channel w)
  else
    match vet c channel auth channel_data w with
    | Err (error_type, error, status) =>
        (c, send_subscription_error c channel error_type error status w)
    | Ok AckOnly => (c, send_self c (SubscriptionSucceeded channel None) w)
    | Ok JoinPlain =>
        let '(c, w) := join_plain channel c w in (c, replay_cache channel c w)
    | Ok (JoinAs member) =>
        let '(c, w) := join_presence channel member c w in (c, replay_cache channel c w)
    end.

(** ** Client events *)

Definition reject_client_event (c : ConnectionContext) (message : string) (w : World A)
    : World A :=
  send_self c (ClientEventError 4301 message) w.

Definition client_event (event channel : string) (data : Value) (c : ConnectionContext)
    (w : World A) : ConnectionContext * World A :=
  let app := app_id (cx_app c) in
  if negb (cap_client_events (cx_capabilities c)) then
    (c, reject_client_event c "Client events are not supported by this protocol version." w)
  else if negb (client_messages_enabled (cx_app c)) then
    (c, reject_client_event c "The app does not have client messaging enabled." w)
  else
    let auth := ci_auth (ChannelInfo_of channel) in
    let allowed := match auth with Private | Presence => true | _ => false end in
    if negb allowed || negb (bool_decide (channel ∈ cx_subscribed c)) then (c, w)
    else if (max_event_name_length (cx_limits c) <? String.length event)%nat then
      (c, reject_client_event c ("Event name is too long. Maximum allowed size is " +:+
            pretty (max_event_name_length (cx_limits c)) +:+ ".") w)
    else if (max_event_payload_bytes (cx_limits c) <? String.length (to_string data))%nat then
      (c, reject_client_event c "Client event rejected - the data is too large" w)
    else if is_saturated c w then (c, w)
    else
      let '(rate, ok) := check_at (env_now (w_ad w).2) (cx_client_event_rate c) in
      let c := set_rate rate c in
      if negb ok then (c, reject_client_event c "Client event rejected due to rate limit" w)
      else
        let user_id := cx_presence_membership c !! channel in
        let w := broadcast_noting_drop app channel (ChannelEvent channel event data user_id)
                   (Some (cx_socket_id c)) w in
        (c, if has_client_event_webhooks (cx_app c)
            then emit_webhook (Hook.ClientEvent app channel event data
                   (SocketId.as_str (cx_socket_id c)) user_id) w
            else w).

(** ** Sign-in *)

Definition fail_signin (c : ConnectionContext) (message : string) (w : World A) : World A :=
  send_self c (Close 4009 message) (send_self c (Error (mkPusherError 4009 message)) w).

Definition capped_watchlist (c : ConnectionContext) (watchlist : list string) (w : World A)
    : list string * World A :=
  let max := max_watchlist_size (cx_limits c) in
  if (max <? length watchlist)%nat then
    (take max watchlist,
     send_self c (Error (mkPusherError 4302 ("Watchlist limit exceeded; only the first " +:+
       pretty max +:+ " entries are tracked."))) w)
  else (watchlist, w).

Definition signin_watch (c : ConnectionContext) (watched : list string) (w : World A) : World A :=
  if bool_decide (watched = []) then w
  else
    let '(ad, online) := ad_watch (app_id (cx_app c)) (conn_handle c) watched (w_ad w) in
    let w := set_ad ad w in
    if negb (cx_clustered c) && bool_decide (online ≠ [])
    then send_self c (WatchlistEvents [mkWatchlistChange "online" online]) w
    else w.

Definition signin (auth user_data : string) (c : ConnectionContext) (w : World A)
    : ConnectionContext * World A :=
  if negb (cap_user_auth (cx_capabilities c)) then
    (c, fail_signin c "Connection not authorized." w)
  else
    match cx_user c with
    | Some existing =>
        if bool_decide (au_user_data_raw existing = user_data)
        then (c, send_self c (SigninSuccess user_data) w)
        else (c, fail_signin c "Connection not authorized." w)
    | None =>
        match user_verify (app_key (cx_app c)) (app_secret (cx_app c))
                (SocketId.as_str (cx_socket_id c)) user_data auth with
        | Err _ => (c, fail_signin c "Connection not authorized." w)
        | Ok _ =>
            match parse_user_data user_data with
            | Err _ =>
                (c, fail_signin c (String.concat (String "034"%char EmptyString)
                      ["The returned user data must contain the "; "id"; " field."]) w)
            | Ok user =>
                let '(ad, outcome) :=
                  ad_signin_user (app_id (cx_app c)) (au_id user) (conn_handle c) (w_ad w) in
                let w := send_self c (SigninSuccess (au_user_data_raw user)) (set_ad ad w) in
                let w := if negb (cx_clustered c) && uj_first_for_user outcome
                         then notify_watchers c (au_id user) "online" w else w in
                let '(watched, w) :=
                  if cap_watchlist (cx_capabilities c)
                  then capped_watchlist c (au_watchlist user) w else ([], w) in
                (set_user (Some user) c, signin_watch c watched w)
            end
        end
    end.

(** ** Dispatch and close *)

Definition dispatch (cmd : ClientCommand) (c : ConnectionContext) (w : World A)
    : ConnectionContext * World A :=
  match cmd with
  | Cmd.Ping => (c, send_self c Pong w)
  | Cmd.Subscribe channel auth channel_data => subscribe channel auth channel_data c w
  | Cmd.Unsubscribe channel => unsubscribe channel c w
  | Cmd.ClientEvent event channel data => client_event event channel data c w
  | Cmd.Signin auth user_data => signin auth user_data c w
  | Cmd.Unknown _ => (c, w)
  end.

Definition unsubscribe_all (channels : list string) (c : ConnectionContext) (w : World A)
    : ConnectionContext * World A :=
  foldl (λ s channel, unsubscribe channel s.1 s.2) (c, w) channels.

Definition on_close (c : ConnectionContext) (w : World A) : ConnectionContext * World A :=
  let '(c, w) := unsubscribe_all (elements (cx_subscribed c)) c w in
  let '(c, w) :=
    match cx_user c with
    | Some user =>
        let c := set_user None c in
        let '(ad, outcome) :=
          ad_signout_user (app_id (cx_app c)) (au_id user) (cx_socket_id c) (w_ad w) in
        let w := set_ad ad w in
        (c, if negb (cx_clustered c) && ul_last_for_user outcome
            then notify_watchers c (au_id user) "offline" w else w)
    | None => (c, w)
    end in
  (c, set_ad (ad_unwatch (app_id (cx_app c)) (cx_socket_id c) (w_ad w)) w).
End handler.
