(* ===== verification/Inbound.v ===== *)
(** * The inbound path: [read_frames] of [src/src/transport/conn.rs] and the
    frame handling of [src/src/transport/worker.rs]

    From the bytes a socket yields to the commands the handler runs and the
    replies that go out: reading and parsing every complete frame, reassembling
    fragmented messages, answering pings and closes, dispatching each text
    message, and draining the connection's own mailbox. The socket's reads and
    writes are scripts of answers; a script that ends blocks. *)

From S2P Require Import Prelude RustStd Json Protocol Frame Outbound Mailbox Rate Handler.
From S2P Require Import Kind Adapter Auth.

(** ** Reading *)

(** One answer of [read]: [ReadOk []] is the end of the stream. *)
Inductive ReadResult : Type :=
| ReadOk (bytes : list Z)
| ReadWouldBlock
| ReadInterrupted
| ReadError.

Inductive ConnError : Type := ConnClosed | ConnProtocol (m : string).

(** Pull what is available: the buffer and whether the end was hit, [None] on a
    socket error. *)
Fixpoint fill (reads : list ReadResult) (scratch : list Z)
    : list Z * list ReadResult * option bool :=
  match reads with
  | [] => (scratch, [], Some false)
  | ReadOk [] :: reads => (scratch, reads, Some true)
  | ReadOk bytes :: reads => fill reads (scratch ++ bytes)
  | ReadWouldBlock :: reads => (scratch, reads, Some false)
  | ReadInterrupted :: reads => fill reads scratch
  | ReadError :: reads => (scratch, reads, None)
  end.

(** Drain every complete frame. A frame takes at least one byte, so the buffer's
    length is fuel enough. *)
Fixpoint parse_frames (fuel : nat) (scratch : list Z) (max_payload : Z)
    : list Z * result (list Frame) ConnError :=
  match fuel with
  | O => (scratch, Ok [])
  | S fuel =>
      match parse scratch max_payload with
      | (scratch, Ok f) =>
          match parse_frames fuel scratch max_payload with
          | (scratch, Ok fs) => (scratch, Ok (f :: fs))
          | (scratch, Err e) => (scratch, Err e)
          end
      | (scratch, Err Incomplete) => (scratch, Ok [])
      | (scratch, Err (ProtocolError m)) => (scratch, Err (ConnProtocol m))
      | (scratch, Err TooLarge) => (scratch, Err (ConnProtocol "frame too large"))
      end
  end.

(** The frames of a filled buffer: its end is reported only when it held none. *)
Definition frames_available (scratch : list Z) (hit_eof : bool) (max_payload : Z)
    : list Z * result (list Frame) ConnError :=
  let '(scratch, r) := parse_frames (S (length scratch)) scratch max_payload in
  (scratch,
   match r with
   | Err e => Err e
   | Ok fs => if hit_eof && bool_decide (fs = []) then Err ConnClosed else Ok fs
   end).

Definition read_frames (reads : list ReadResult) (scratch : list Z) (max_payload : Z)
    : list Z * list ReadResult * result (list Frame) ConnError :=
  match fill reads scratch with
  | (scratch, reads, None) => (scratch, reads, Err ConnClosed)
  | (scratch, reads, Some hit_eof) =>
      let '(scratch, r) := frames_available scratch hit_eof max_payload in (scratch, reads, r)
  end.

(** ** The entry *)

Inductive Fragment : Type :=
| FragText (buf : list Z)
| FragBinary
| FragOversize.

Inductive Action : Type := Keep | ActClose.

#[export] Instance Action_eq_dec : EqDecision Action.
Proof. solve_decision. Defined.

(** The socket side of an entry: the outbound queue, the bytes the peer got, the
    answers of the coming flushes (the write results, and whether the
    re-registration that follows succeeds), and the armed write interest. *)
Record Link : Type := mkLink {
  li_conn : Connection;
  li_wire : list Z;
  li_io : list (list IoResult * bool);
  li_writable_armed : bool
}.

Record SessionState : Type := mkSessionState { se_ctx : ConnectionContext; se_codec : Codec }.

Record InEntry : Type := mkInEntry {
  en_link : Link;
  en_reads : list ReadResult;
  en_inbuf : list Z;
  en_fragment : option Fragment;
  en_frames : TokenBucket;
  en_session : option SessionState
}.

Definition set_link_conn (c : Connection) (l : Link) : Link :=
  mkLink c (li_wire l) (li_io l) (li_writable_armed l).
Definition set_link (l : Link) (e : InEntry) : InEntry :=
  mkInEntry l (en_reads e) (en_inbuf e) (en_fragment e) (en_frames e) (en_session e).
Definition set_session (s : option SessionState) (e : InEntry) : InEntry :=
  mkInEntry (en_link e) (en_reads e) (en_inbuf e) (en_fragment e) (en_frames e) s.
Definition on_conn (f : Connection → Connection) (e : InEntry) : InEntry :=
  set_link (set_link_conn (f (li_conn (en_link e))) (en_link e)) e.

(** Installing a fragmentation state re-bills what it holds. *)
Definition set_fragment (fragment : option Fragment) (e : InEntry) : InEntry :=
  let held := match fragment with Some (FragText buf) => Z.of_nat (length buf) | _ => 0%Z end in
  let e := on_conn (set_reassembly_bytes held) e in
  mkInEntry (en_link e) (en_reads e) (en_inbuf e) fragment (en_frames e) (en_session e).

Definition take_fragment (e : InEntry) : InEntry * option Fragment :=
  let fragment := en_fragment e in
  let e := on_conn (set_reassembly_bytes 0) e in
  (mkInEntry (en_link e) (en_reads e) (en_inbuf e) None (en_frames e) (en_session e), fragment).

(** ** Writing *)

Definition queue_frame (frame : list Z) (now_ns : Z) (e : InEntry) : InEntry :=
  on_conn (λ c, (Outbound.queue frame now_ns c).1) e.

Definition queue_close_frame (code : Z) (reason : string) (now_ns : Z) (e : InEntry) : InEntry :=
  queue_frame (encode [] true OpClose (be_bytes 2 code ++ as_bytes reason)) now_ns e.

Definition flush_link (now_ns : Z) (l : Link) : Link * Action :=
  let '(answers, reregistered) := default ([], true) (head (li_io l)) in
  let '(c, wire, _, status) :=
    flush_plain (answers ++ [IoWouldBlock]) now_ns (li_conn l) (li_wire l) in
  let armed := match status with Some Drained => false | _ => true end in
  let l' b := mkLink c wire (tail (li_io l)) b in
  match status with
  | Some WClosed => (l' (li_writable_armed l), ActClose)
  | _ => if reregistered then (l' armed, Keep) else (l' (li_writable_armed l), ActClose)
  end.

Definition flush_and_arm (now_ns : Z) (e : InEntry) : InEntry * Action :=
  let '(l, a) := flush_link now_ns (en_link e) in (set_link l e, a).

(** ** Closing verdicts *)

Definition echo_close_code (payload : list Z) : Z :=
  match payload with
  | b0 :: b1 :: _ =>
      let code := from_be_bytes [b0; b1] in
      if (1000 <=? code)%Z && (code <=? 4999)%Z && negb (existsb (Z.eqb code) [1005; 1006; 1015]%Z)
      then code else 1000%Z
  | _ => 1000%Z
  end.

(** Queue a close frame, flush it, and close. *)
Definition close_with (code : Z) (reason : string) (now_ns : Z) (e : InEntry) : InEntry :=
  (flush_and_arm now_ns (queue_close_frame code reason now_ns e)).1.

Definition close_fragment_violation (reason : string) (now_ns : Z) (e : InEntry) : InEntry :=
  close_with 1002 reason now_ns (set_fragment None e).

Definition close_invalid_utf8 (now_ns : Z) (e : InEntry) : InEntry :=
  close_with 1007 "invalid UTF-8 in a text message" now_ns (set_fragment None e).

Definition close_frame_flood (now_ns : Z) (e : InEntry) : InEntry :=
  close_with 4100 "Inbound frame rate limit exceeded" now_ns (set_fragment None e).

Definition close_handshake_reply (payload : list Z) (now_ns : Z) (e : InEntry) : InEntry :=
  close_with (echo_close_code payload) EmptyString now_ns e.

(** ** Dispatch *)

Definition open_text_fragment (payload : list Z) (max_message_bytes : nat) : Fragment :=
  if (max_message_bytes <? length payload)%nat then FragOversize else FragText payload.

(** The text of a valid UTF-8 payload. *)
Definition text_of (payload : list Z) : string :=
  String.string_of_list_ascii ((λ b, ascii_of_N (Z.to_N b)) <$> payload).

Section dispatch.
Context `{SerdeJson, Crypto} {A : Type} `{Adapter A}.

Abbreviation state := (InEntry * World A)%type.

Definition dispatch_text_message (payload : list Z) (now_ns : Z) (st : state) : state * Action :=
  let '(e, w) := st in
  if negb (utf8_valid payload) then ((close_invalid_utf8 now_ns e, w), ActClose)
  else
    match en_session e with
    | None => ((e, w), ActClose)
    | Some s =>
        match codec_decode (se_codec s) (text_of payload) with
        | Ok cmd =>
            let '(ctx, w) := Handler.dispatch cmd (se_ctx s) w in
            ((set_session (Some (mkSessionState ctx (se_codec s))) e, w), Keep)
        | Err _ => ((e, w), Keep)
        end
    end.

(** One frame of the batch; [Some action] returns from the loop. *)
Definition dispatch_frame (max_message_bytes : nat) (now_ns : Z) (f : Frame) (st : state)
    : state * option Action :=
  let '(e, w) := st in
  let interleaved := "data frame interleaved with a fragmented message" in
  match opcode f with
  | OpText =>
      if bool_decide (en_fragment e ≠ None) then
        ((close_fragment_violation interleaved now_ns e, w), Some ActClose)
      else if negb (fin f) then
        ((set_fragment (Some (open_text_fragment (payload f) max_message_bytes)) e, w), None)
      else
        let '(st, a) := dispatch_text_message (payload f) now_ns (e, w) in
        (st, if decide (a = ActClose) then Some ActClose else None)
  | OpBinary =>
      match en_fragment e with
      | Some (FragText _ | FragOversize) =>
          ((close_fragment_violation interleaved now_ns e, w), Some ActClose)
      | Some FragBinary => ((e, w), None)
      | None => ((if negb (fin f) then set_fragment (Some FragBinary) e else e, w), None)
      end
  | OpContinuation =>
      let '(e, fragment) := take_fragment e in
      match fragment with
      | None =>
          ((close_fragment_violation "continuation frame without a fragmented message" now_ns e, w),
           Some ActClose)
      | Some (FragText buf) =>
          let assembled := buf ++ payload f in
          if (max_message_bytes <? length assembled)%nat then
            ((if negb (fin f) then set_fragment (Some FragOversize) e else e, w), None)
          else if fin f then
            let '(st, a) := dispatch_text_message assembled now_ns (e, w) in
            (st, if decide (a = ActClose) then Some ActClose else None)
          else ((set_fragment (Some (FragText assembled)) e, w), None)
      | Some ignored => ((if negb (fin f) then set_fragment (Some ignored) e else e, w), None)
      end
  | OpPing =>
      let '(e, a) := flush_and_arm now_ns (queue_frame (encode [] true OpPong (payload f)) now_ns e) in
      ((e, w), if decide (a = ActClose) then Some ActClose else None)
  | OpPong => ((e, w), None)
  | OpClose => ((close_handshake_reply (payload f) now_ns e, w), Some ActClose)
  end.

Fixpoint dispatch_loop (max_message_bytes : nat) (now_ns : Z) (fs : list Frame) (st : state)
    : state * option Action :=
  match fs with
  | [] => (st, None)
  | f :: fs =>
      match dispatch_frame max_message_bytes now_ns f st with
      | (st, None) => dispatch_loop max_message_bytes now_ns fs st
      | (st, Some a) => (st, Some a)
      end
  end.

(** ** The mailbox drain *)

Record DrainState : Type := mkDrainState {
  dr_ctx : ConnectionContext;
  dr_link : Link;
  dr_wrote : bool;
  dr_close_after : bool;
  dr_subs_changed : bool
}.

(** Events in order up to a close. Nothing sends to the mailbox meanwhile, so
    the loop runs over its content; the events after a close stay unread. *)
Fixpoint drain_events (codec : Codec) (now_ns : Z) (q : list ServerEvent) (d : DrainState)
    : list ServerEvent * DrainState :=
  let put frame d :=
    set_link_conn (Outbound.queue frame now_ns (li_conn (dr_link d))).1 (dr_link d) in
  match q with
  | [] => ([], d)
  | Close code reason :: q =>
      (q, mkDrainState (dr_ctx d)
            (put (encode [] true OpClose (be_bytes 2 code ++ as_bytes reason)) d)
            true true (dr_subs_changed d))
  | event :: q =>
      let '(ctx, changed) :=
        match event with
        | SubscriptionError channel _ _ _ =>
            let c := dr_ctx d in
            (set_presence_membership (delete channel (cx_presence_membership c))
               (set_subscribed (cx_subscribed c ∖ {[channel]}) c),
             bool_decide (channel ∈ cx_subscribed c))
        | _ => (dr_ctx d, false)
        end in
      drain_events codec now_ns q
        (mkDrainState ctx (put (encode_text [] (as_bytes (codec_encode codec event))) d)
           true (dr_close_after d) (dr_subs_changed d || changed))
  end.

Definition set_queue (i : nat) (q : list ServerEvent) (st : Store) : Store :=
  mkStore (alter (λ c, mkChan q (capacity c) (closed c)) i (chans st)) (dirty st) (wakes st)
    (counters st).

Record DrainResult : Type := mkDrainResult {
  res_action : Action;
  res_wrote : bool;
  res_subs_changed : bool
}.

Definition drain_session (now_ns : Z) (st : state) : state * DrainResult :=
  let '(e, w) := st in
  match en_session e with
  | None => (st, mkDrainResult Keep false false)
  | Some s =>
      let '(a, env) := w_ad w in
      let rx := cx_self_tx (se_ctx s) in
      let '(rest, d) :=
        drain_events (se_codec s) now_ns (queue_of (env_store env) rx)
          (mkDrainState (se_ctx s) (en_link e) false false false) in
      let w := set_ad (a, set_store (set_queue rx rest (env_store env)) env) w in
      let e := set_session (Some (mkSessionState (dr_ctx d) (se_codec s)))
                 (set_link (dr_link d) e) in
      let '(e, flushed) := if dr_wrote d then flush_and_arm now_ns e else (e, Keep) in
      ((e, w),
       mkDrainResult
         (if decide (flushed = ActClose) then ActClose
          else if dr_close_after d then ActClose else Keep)
         (dr_wrote d) (dr_subs_changed d))
  end.

Definition dispatch_frames (max_message_bytes : nat) (now_ns : Z) (fs : list Frame) (st : state)
    : state * Action :=
  match dispatch_loop max_message_bytes now_ns fs st with
  | (st, Some a) => (st, a)
  | (st, None) => let '(st, r) := drain_session now_ns st in (st, res_action r)
  end.

(** [handle_frames] on a dispatching worker; [limited] is the counter of
    rate-limited connections, when one is wired. *)
Definition handle_frames (max_payload : Z) (max_message_bytes : nat) (now_ns : Z)
    (limited : option Z) (st : state) : state * Action * option Z :=
  let '(e, w) := st in
  let '(inbuf, reads, r) := read_frames (en_reads e) (en_inbuf e) max_payload in
  let e := on_conn (set_frame_buffer_bytes (Z.of_nat (length inbuf)))
             (mkInEntry (en_link e) reads inbuf (en_fragment e) (en_frames e) (en_session e)) in
  match r with
  | Err _ => ((e, w), ActClose, limited)
  | Ok fs =>
      let count := (Z.of_nat (length fs) mod 2 ^ 32)%Z in
      let '(bucket, granted) :=
        if (0 <? count)%Z then take_at_ns now_ns count (en_frames e) else (en_frames e, true) in
      let e := mkInEntry (en_link e) (en_reads e) (en_inbuf e) (en_fragment e) bucket
                 (en_session e) in
      if granted then
        let '(st, a) := dispatch_frames max_message_bytes now_ns fs (e, w) in (st, a, limited)
      else ((close_frame_flood now_ns e, w), ActClose, (λ n, (n + 1) mod 2 ^ 64)%Z <$> limited)
  end.
End dispatch.

#[local] Arguments dispatch_text_message : simpl never.
#[local] Arguments handle_frames : simpl never.

(** ** Reading: the chunks do not matter *)

Lemma parse_err_same buf max rest e : parse buf max = (rest, Err e) → rest = buf.
Proof. unfold parse. repeat case_match; congruence. Qed.

Lemma parse_ok_shorter buf max rest f :
  Forall is_byte buf → parse buf max = (rest, Ok f) → length rest < length buf ∧ Forall is_byte rest.
Proof.
  intros Hb Hp. destruct (parse_shrinks _ _ _ _ Hb Hp) as [Hlt _].
  destruct (parse_ok_inv _ _ _ _ Hb Hp) as (h & p & _ & _ & -> & _). split; [done|].
  by apply Forall_drop.
Qed.

Definition parse_all (scratch : list Z) (max : Z) : list Z * result (list Frame) ConnError :=
  parse_frames (S (length scratch)) scratch max.

(** Enough fuel is enough. *)
Lemma parse_frames_fuel fuel fuel' scratch max :
  Forall is_byte scratch → length scratch < fuel → length scratch < fuel' →
  parse_frames fuel scratch max = parse_frames fuel' scratch max.
Proof.
  revert fuel' scratch. induction fuel as [|fuel IH]; intros [|fuel'] scratch Hb Hf Hf'; try lia.
  simpl. destruct (parse scratch max) as [s [f|e]] eqn:Hp; [|done].
  destruct (parse_ok_shorter _ _ _ _ Hb Hp) as [Hlt Hs]. by rewrite (IH fuel' s) by (done || lia).
Qed.

Lemma parse_all_step scratch max :
  Forall is_byte scratch →
  parse_all scratch max =
  match parse scratch max with
  | (s, Ok f) =>
      match parse_all s max with
      | (s, Ok fs) => (s, Ok (f :: fs))
      | (s, Err e) => (s, Err e)
      end
  | (s, Err Incomplete) => (s, Ok [])
  | (s, Err (ProtocolError m)) => (s, Err (ConnProtocol m))
  | (s, Err TooLarge) => (s, Err (ConnProtocol "frame too large"))
  end.
Proof.
  intros Hb. unfold parse_all at 1. simpl.
  destruct (parse scratch max) as [s [f|e]] eqn:Hp; [|by destruct e].
  destruct (parse_ok_shorter _ _ _ _ Hb Hp) as [Hlt Hs]. unfold parse_all.
  by rewrite (parse_frames_fuel (length scratch) (S (length s))) by (done || lia).
Qed.

(** Parsing what arrived first and then the rest is parsing it all. *)
Lemma parse_all_app scratch more max :
  Forall is_byte scratch → Forall is_byte more →
  match parse_all scratch max with
  | (rest, Ok fs) =>
      Forall is_byte rest ∧
      parse_all (scratch ++ more) max =
      match parse_all (rest ++ more) max with
      | (s, Ok fs2) => (s, Ok (fs ++ fs2))
      | (s, Err e) => (s, Err e)
      end
  | (rest, Err e) => parse_all (scratch ++ more) max = (rest ++ more, Err e)
  end.
Proof.
  intros Hb Hm. remember (length scratch) as n eqn:Hn. revert scratch Hb Hn.
  induction (lt_wf n) as [n _ IH]. intros scratch Hb ->.
  rewrite (parse_all_step scratch) by done.
  rewrite (parse_all_step (scratch ++ more)) by (by apply Forall_app).
  destruct (parse scratch max) as [s [f|e]] eqn:Hp.
  - destruct (parse_ok_shorter _ _ _ _ Hb Hp) as [Hlt Hs].
    rewrite (parse_app_ok _ more _ _ _ Hp). specialize (IH _ Hlt s Hs eq_refl).
    destruct (parse_all s max) as [s' [fs|e]].
    + destruct IH as [Hr ->]. split; [done|]. by destruct (parse_all (s' ++ more) max) as [? [?|?]].
    + by rewrite IH.
  - assert (s = scratch) as -> by (by eapply parse_err_same).
    destruct e as [|m|].
    + split; [done|]. rewrite (parse_all_step (scratch ++ more)) by (by apply Forall_app).
      destruct (parse (scratch ++ more) max) as [s' [f'|[| |]]]; try done.
      by destruct (parse_all s' max) as [? [?|?]].
    + by rewrite (parse_app_err _ more _ _ Hp) by done.
    + by rewrite (parse_app_err _ more _ _ Hp) by done.
Qed.

(** A connection read wake-up by wake-up, each yielding one chunk. *)
Fixpoint read_chunks (chunks : list (list Z)) (scratch : list Z) (max_payload : Z)
    : list Z * result (list Frame) ConnError :=
  match chunks with
  | [] => (scratch, Ok [])
  | chunk :: chunks =>
      match read_frames [ReadOk chunk; ReadWouldBlock] scratch max_payload with
      | (scratch, _, Ok fs) =>
          match read_chunks chunks scratch max_payload with
          | (scratch, Ok fs') => (scratch, Ok (fs ++ fs'))
          | (scratch, Err e) => (scratch, Err e)
          end
      | (scratch, _, Err e) => (scratch, Err e)
      end
  end.

Lemma read_chunk chunk scratch max :
  chunk ≠ [] →
  read_frames [ReadOk chunk; ReadWouldBlock] scratch max =
  let '(s, r) := parse_all (scratch ++ chunk) max in (s, [], r).
Proof.
  intros Hc. unfold read_frames, frames_available. destruct chunk as [|b bs]; [done|]. simpl fill. cbv iota beta.
  fold (parse_all (scratch ++ b :: bs) max).
  by destruct (parse_all (scratch ++ b :: bs) max) as [? [?|?]].
Qed.

Lemma parse_all_rest scratch max rest fs :
  Forall is_byte scratch → parse_all scratch max = (rest, Ok fs) →
  parse_all rest max = (rest, Ok []).
Proof.
  intros Hb Hp. pose proof (parse_all_app scratch [] max Hb (Forall_nil_2 _)) as Happ.
  rewrite Hp in Happ. destruct Happ as [_ Happ]. rewrite !app_nil_r, Hp in Happ.
  destruct (parse_all rest max) as [s [fs2|e]]; simplify_eq.
  assert (length fs2 = 0) as Hl.
  { assert (length fs = length (fs ++ fs2)) as Hlen by congruence. rewrite length_app in Hlen. lia. }
  by apply length_zero_iff_nil in Hl as ->.
Qed.

Lemma read_chunks_all chunks scratch max :
  Forall is_byte scratch → Forall (λ c, c ≠ [] ∧ Forall is_byte c) chunks →
  parse_all scratch max = (scratch, Ok []) →
  match parse_all (scratch ++ concat chunks) max with
  | (rest, Ok fs) => read_chunks chunks scratch max = (rest, Ok fs)
  | (_, Err e) => (read_chunks chunks scratch max).2 = Err e
  end.
Proof.
  intros Hb Hc. revert scratch Hb. induction Hc as [|c chunks [Hne Hbc] Hc IH];
    intros scratch Hb Hp; simpl; [by rewrite app_nil_r, Hp|].
  rewrite read_chunk by done. rewrite (assoc_L (++)).
  assert (Forall is_byte (scratch ++ c)) as Hb' by (by apply Forall_app).
  assert (Forall is_byte (concat chunks)) as Hbs.
  { apply Forall_concat. eapply Forall_impl; [exact Hc|]. by intros ? [_ ?]. }
  pose proof (parse_all_app (scratch ++ c) (concat chunks) max Hb' Hbs) as Happ.
  destruct (parse_all (scratch ++ c) max) as [s [fs|e]] eqn:Hs.
  - destruct Happ as [Hr ->]. specialize (IH s Hr (parse_all_rest _ _ _ _ Hb' Hs)).
    destruct (parse_all (s ++ concat chunks) max) as [s' [fs'|e]]; [by rewrite IH|].
    by destruct (read_chunks chunks s max) as [? [?|?]]; simplify_eq/=.
  - by rewrite Happ.
Qed.

(** Reading is independent of how the network chunks the stream: whatever bytes
    arrive together, the frames parsed over the wake-ups, the remainder kept and
    the verdict on a violation are those of one read of all the bytes. *)
Theorem chunking_irrelevant (chunks : list (list Z)) (max_payload : Z) :
  Forall (λ c, c ≠ [] ∧ Forall is_byte c) chunks → concat chunks ≠ [] →
  match read_frames [ReadOk (concat chunks); ReadWouldBlock] [] max_payload with
  | (rest, _, Ok fs) => read_chunks chunks [] max_payload = (rest, Ok fs)
  | (_, _, Err e) => (read_chunks chunks [] max_payload).2 = Err e
  end.
Proof.
  intros Hc Hne. rewrite read_chunk by done.
  pose proof (read_chunks_all chunks [] max_payload (Forall_nil_2 _) Hc eq_refl) as Hall.
  simpl in *. by destruct (parse_all (concat chunks) max_payload) as [? [?|?]].
Qed.

(** ** Messages: a conforming client's stream *)

Definition is_ctl (f : Frame) : Prop := opcode f = OpPing ∨ opcode f = OpPong.

(** The frames after the first of a fragmented message, with pings and pongs in
    between, carrying [p] (RFC 6455, section 5.4). *)
Inductive continues : list Z → list Frame → Prop :=
| cont_ctl f p fs : is_ctl f → continues p fs → continues p (f :: fs)
| cont_last p : continues p [mkFrame true OpContinuation p]
| cont_more p q fs :
    continues q fs → continues (p ++ q) (mkFrame false OpContinuation p :: fs).

(** A text message, with whether it came in more than one frame. *)
Record TextMessage : Type := mkTextMessage { tm_fragmented : bool; tm_bytes : list Z }.

(** The frames of a whole stream and its text messages. *)
Inductive sent : list Frame → list TextMessage → Prop :=
| sent_nil : sent [] []
| sent_ctl f fs ms : is_ctl f → sent fs ms → sent (f :: fs) ms
| sent_text p fs ms : sent fs ms → sent (mkFrame true OpText p :: fs) (mkTextMessage false p :: ms)
| sent_fragmented p q parts fs ms :
    continues q parts → sent fs ms →
    sent (mkFrame false OpText p :: parts ++ fs) (mkTextMessage true (p ++ q) :: ms)
| sent_binary p fs ms : sent fs ms → sent (mkFrame true OpBinary p :: fs) ms
| sent_binary_fragmented p q parts fs ms :
    continues q parts → sent fs ms →
    sent (mkFrame false OpBinary p :: parts ++ fs) ms.

(** The messages that are dispatched: the cap applies to the fragmented ones. *)
Definition accepted (max : nat) (ms : list TextMessage) : list (list Z) :=
  tm_bytes <$> filter (λ m, tm_fragmented m = true → length (tm_bytes m) ≤ max) ms.

Section delivery.
Context `{SerdeJson, Crypto} {A : Type} `{Adapter A}.

(** A text message, delivered. *)
Definition deliver_text (s : SessionState * World A) (p : list Z) : SessionState * World A :=
  match codec_decode (se_codec s.1) (text_of p) with
  | Ok cmd =>
      let '(ctx, w) := Handler.dispatch cmd (se_ctx s.1) s.2 in
      (mkSessionState ctx (se_codec s.1), w)
  | Err _ => s
  end.

Definition session_is (st : InEntry * World A) (s : SessionState * World A) : Prop :=
  en_session st.1 = Some s.1 ∧ st.2 = s.2.

Lemma dispatch_loop_app max now fs1 fs2 (st : InEntry * World A) :
  dispatch_loop max now (fs1 ++ fs2) st =
  match dispatch_loop max now fs1 st with
  | (st, None) => dispatch_loop max now fs2 st
  | (st, Some a) => (st, Some a)
  end.
Proof.
  revert st. induction fs1 as [|f fs1 IH]; intros st; simpl; [done|].
  destruct (dispatch_frame max now f st) as [st' [a|]]; [done|apply IH].
Qed.

(** The run over these frames ended at a ping whose pong could not be flushed. *)
Definition cut_short (max : nat) (now : Z) (fs : list Frame) (st st' : InEntry * World A) : Prop :=
  ∃ fs1 f fs2 st1, fs = fs1 ++ f :: fs2 ∧ opcode f = OpPing ∧
    dispatch_loop max now fs1 st = (st1, None) ∧ dispatch_frame max now f st1 = (st', Some ActClose).

Lemma cut_here max now f fs st st' : opcode f = OpPing →
  dispatch_frame max now f st = (st', Some ActClose) → cut_short max now (f :: fs) st st'.
Proof. intros Hf Hd. by exists [], f, fs, st. Qed.

Lemma cut_after max now fs1 fs st st1 st' : dispatch_loop max now fs1 st = (st1, None) →
  cut_short max now fs st1 st' → cut_short max now (fs1 ++ fs) st st'.
Proof.
  intros Hd (fs2 & f & fs3 & st2 & -> & Hf & Hd1 & Hd2). exists (fs1 ++ fs2), f, fs3, st2.
  split_and!; [by rewrite <-app_assoc|done| |done]. by rewrite dispatch_loop_app, Hd.
Qed.

Lemma cut_later max now f fs st st1 st' : dispatch_frame max now f st = (st1, None) →
  cut_short max now fs st1 st' → cut_short max now (f :: fs) st st'.
Proof. intros Hd. apply (cut_after max now [f]). simpl. by rewrite Hd. Qed.

Lemma cut_within max now fs fs2 st st' : cut_short max now fs st st' → cut_short max now (fs ++ fs2) st st'.
Proof.
  intros (fs1 & f & fs3 & st1 & -> & Hf & Hd). exists fs1, f, (fs3 ++ fs2), st1.
  by rewrite <-app_assoc.
Qed.

(** A ping or pong changes neither the message state nor the session. *)
Lemma dispatch_ctl max now f (st : InEntry * World A) :
  is_ctl f →
  let '(st', r) := dispatch_frame max now f st in
  en_session st'.1 = en_session st.1 ∧ en_fragment st'.1 = en_fragment st.1 ∧ st'.2 = st.2 ∧
  (r = None ∨ r = Some ActClose ∧ opcode f = OpPing).
Proof.
  destruct st as [e w]. unfold dispatch_frame. intros [-> | ->]; [|by repeat split; left].
  destruct (flush_and_arm now (queue_frame _ now e)) as [e' a] eqn:Hf.
  assert (en_session e' = en_session e ∧ en_fragment e' = en_fragment e) as [Hs Hg].
  { revert Hf. unfold flush_and_arm. destruct (flush_link _ _) as [l b]. by intros [= <- <-]. }
  simpl. split_and!; [done..|]. destruct a; [by left|by right].
Qed.

Lemma dispatch_text_valid p now e w s :
  utf8_valid p = true → session_is (e, w) s →
  let '(st, a) := dispatch_text_message p now (e, w) in
  a = Keep ∧ session_is st (deliver_text s p) ∧ en_fragment st.1 = en_fragment e.
Proof.
  intros Hv [Hs Hw]. simpl in Hs, Hw. unfold dispatch_text_message, deliver_text.
  rewrite Hv, Hs. subst w. simpl. destruct s as [s w]. simpl.
  destruct (codec_decode _ _) as [cmd|]; [|done]. by destruct (Handler.dispatch _ _ _) as [ctx w'].
Qed.

Lemma continues_ignored max now q fs g (st : InEntry * World A) :
  continues q fs → en_fragment st.1 = Some g → (∀ buf, g ≠ FragText buf) →
  let '(st', r) := dispatch_loop max now fs st in
  en_session st'.1 = en_session st.1 ∧ st'.2 = st.2 ∧
  (r = None ∧ en_fragment st'.1 = None ∨ r = Some ActClose ∧ cut_short max now fs st st').
Proof.
  intros Hc. revert st. induction Hc as [f p fs Hf _ IH|p|p q fs _ IH]; intros st Hg Hn.
  - simpl. pose proof (dispatch_ctl max now f st Hf) as Hd.
    destruct (dispatch_frame max now f st) as [st' r] eqn:E. destruct Hd as (Hs & Hfr & Hw & Hr).
    rewrite <-Hs, <-Hw. destruct Hr as [->|[-> Hp]].
    + specialize (IH st'). rewrite Hfr in IH. specialize (IH Hg Hn).
      destruct (dispatch_loop max now fs st') as [st2 r]. destruct IH as (? & ? & [?|[? ?]]).
      * by repeat split; [..|left].
      * split_and!; [done..|right]. split; [done|]. by eapply cut_later.
    + split_and!; [done..|right]. split; [done|]. by apply cut_here.
  - destruct st as [e w]. simpl in *. rewrite Hg. destruct g; [by destruct (Hn _ eq_refl)|..]; simpl;
      by repeat split; left.
  - destruct st as [e w]. simpl in Hg.
    assert (dispatch_frame max now (mkFrame false OpContinuation p) (e, w) =
      ((set_fragment (Some g) (take_fragment e).1, w), None)) as E.
    { simpl. rewrite Hg. destruct g; [by destruct (Hn _ eq_refl)|done..]. }
    specialize (IH (set_fragment (Some g) (take_fragment e).1, w) eq_refl Hn).
    cbn [dispatch_loop]. rewrite E.
    destruct (dispatch_loop max now fs _) as [st2 r]. destruct IH as (? & ? & [?|[? ?]]);
      (split_and!; [done..|]); [by left|right; split; [done|by eapply cut_later]].
Qed.

Lemma continues_text max now q fs buf (st : InEntry * World A) s :
  continues q fs → en_fragment st.1 = Some (FragText buf) → session_is st s →
  (length (buf ++ q) ≤ max → utf8_valid (buf ++ q) = true) →
  let '(st', r) := dispatch_loop max now fs st in
  (r = None ∧ en_fragment st'.1 = None ∧
   session_is st' (if (length (buf ++ q) <=? max)%nat then deliver_text s (buf ++ q) else s)) ∨
  (r = Some ActClose ∧ cut_short max now fs st st' ∧ session_is st' s).
Proof.
  intros Hc. revert buf st. induction Hc as [f p fs Hf _ IH|p|p q fs Hc IH];
    intros buf st Hg Hs Hv.
  - simpl. pose proof (dispatch_ctl max now f st Hf) as Hd.
    destruct (dispatch_frame max now f st) as [st' r] eqn:E. destruct Hd as (Hs' & Hfr & Hw & Hr).
    assert (session_is st' s) as Hst by (unfold session_is in *; by rewrite Hs', Hw).
    destruct Hr as [->|[-> Hp]]; [|right; split_and!; [done|by apply cut_here|done]].
    specialize (IH buf st'). rewrite Hfr in IH. specialize (IH Hg Hst Hv).
    destruct (dispatch_loop max now fs st') as [st2 r]. destruct IH as [?|(? & ? & ?)]; [by left|].
    right. split_and!; [done|by eapply cut_later|done].
  - destruct st as [e w]. simpl in *. rewrite Hg.
    destruct (Nat.ltb_spec max (length (buf ++ p))) as [Hlt|Hle].
    { rewrite (proj2 (Nat.leb_gt _ _)) by done. left. by repeat split; destruct Hs. }
    rewrite (proj2 (Nat.leb_le _ _)) by done.
    pose proof (dispatch_text_valid (buf ++ p) now (take_fragment e).1 w s) as Hd.
    specialize (Hd (Hv Hle) Hs). simpl in *.
    destruct (dispatch_text_message (buf ++ p) now _) as [st' a]. destruct Hd as (-> & Hd & Hfr).
    left. by split_and!.
  - destruct st as [e w]. simpl in Hg. rewrite !(assoc_L (++)) in *.
    destruct (Nat.ltb_spec max (length (buf ++ p))) as [Hlt|Hle].
    + assert (dispatch_frame max now (mkFrame false OpContinuation p) (e, w) =
        ((set_fragment (Some FragOversize) (take_fragment e).1, w), None)) as E.
      { simpl. rewrite Hg. by rewrite (proj2 (Nat.ltb_lt _ _)). }
      rewrite (proj2 (Nat.leb_gt _ _)) by (rewrite length_app; lia). cbn [dispatch_loop]. rewrite E.
      pose proof (continues_ignored max now q fs FragOversize
        (set_fragment (Some FragOversize) (take_fragment e).1, w) Hc eq_refl ltac:(done)) as Hi.
      destruct (dispatch_loop max now fs _) as [st2 r]. destruct Hi as (He & Hw & Hi).
      assert (session_is st2 s) as Hst by (destruct Hs; split; rewrite ?He, ?Hw; done).
      destruct Hi as [[-> Hn]|[-> Hp]]; [by left|]. right. split_and!; [done|by eapply cut_later|done].
    + assert (dispatch_frame max now (mkFrame false OpContinuation p) (e, w) =
        ((set_fragment (Some (FragText (buf ++ p))) (take_fragment e).1, w), None)) as E.
      { simpl. rewrite Hg. by rewrite (proj2 (Nat.ltb_ge _ _)). }
      cbn [dispatch_loop]. rewrite E.
      specialize (IH (buf ++ p) (set_fragment (Some (FragText (buf ++ p))) (take_fragment e).1, w)
        eq_refl Hs Hv).
      destruct (dispatch_loop max now fs _) as [st2 r]. destruct IH as [?|(? & ? & ?)]; [by left|].
      right. split_and!; [done|by eapply cut_later|done].
Qed.

(** What a run over the stream's frames ends in. *)
Definition delivered_upto (s : SessionState * World A) (cut : Prop) (ms : list (list Z))
    (st : InEntry * World A) (r : option Action) : Prop :=
  ∃ ms1 ms2, ms = ms1 ++ ms2 ∧ session_is st (foldl deliver_text s ms1) ∧
    match r with
    | None => ms2 = [] ∧ en_fragment st.1 = None
    | Some a => a = ActClose ∧ cut
    end.

Lemma delivered_stop s (cut : Prop) ms st : session_is st s → cut → delivered_upto s cut ms st (Some ActClose).
Proof. intros Hs Hp. by exists [], ms. Qed.

Lemma delivered_more s (cut cut' : Prop) ms st r :
  (cut → cut') → delivered_upto s cut ms st r → delivered_upto s cut' ms st r.
Proof.
  intros Hp (ms1 & ms2 & -> & Hs & Hr). exists ms1, ms2. split_and!; [done..|].
  destruct r; [|done]. destruct Hr as [-> ?]. by auto.
Qed.

Lemma delivered_cons s p cut ms st r :
  delivered_upto (deliver_text s p) cut ms st r → delivered_upto s cut (p :: ms) st r.
Proof. intros (ms1 & ms2 & -> & Hs & Hr). by exists (p :: ms1), ms2. Qed.

Lemma fragmented_text max now p q parts e w s :
  continues q parts → session_is (e, w) s →
  (length (p ++ q) ≤ max → utf8_valid (p ++ q) = true) →
  let st := (set_fragment (Some (open_text_fragment p max)) e, w) in
  let '(st', r) := dispatch_loop max now parts st in
  (r = None ∧ en_fragment st'.1 = None ∧
   session_is st' (if (length (p ++ q) <=? max)%nat then deliver_text s (p ++ q) else s)) ∨
  (r = Some ActClose ∧ cut_short max now parts st st' ∧ session_is st' s).
Proof.
  intros Hc Hs Hv st. set (e1 := set_fragment _ e) in st.
  unfold open_text_fragment in e1. destruct (Nat.ltb_spec max (length p)).
  - pose proof (continues_ignored max now q parts FragOversize st Hc eq_refl ltac:(done)) as Hi.
    rewrite (proj2 (Nat.leb_gt _ _)) by (rewrite length_app; lia).
    destruct (dispatch_loop max now parts st) as [st' r].
    destruct Hs as [Hs1 Hs2]. destruct Hi as (He & Hw & Hi).
    assert (session_is st' s) as Hst by (split; rewrite ?He, ?Hw; done). naive_solver.
  - by apply (continues_text max now q parts p st s Hc eq_refl Hs).
Qed.

Lemma accepted_cons max m ms :
  accepted max (m :: ms) =
  if negb (tm_fragmented m) || (length (tm_bytes m) <=? max)%nat then tm_bytes m :: accepted max ms else accepted max ms.
Proof.
  unfold accepted. rewrite filter_cons. destruct m as [[] p]; cbn [tm_fragmented tm_bytes negb orb].
  - destruct (Nat.leb_spec (length p) max); [by rewrite decide_True|].
    rewrite decide_False; [done|]. intros Hle. specialize (Hle eq_refl). lia.
  - by rewrite decide_True.
Qed.

Lemma sent_delivered max now fs ms s (st : InEntry * World A) :
  sent fs ms → Forall (λ p, utf8_valid p = true) (accepted max ms) →
  en_fragment st.1 = None → session_is st s →
  let '(st', r) := dispatch_loop max now fs st in
  delivered_upto s (cut_short max now fs st st') (accepted max ms) st' r.
Proof.
  intros Hsent. revert s st.
  induction Hsent as [|f fs ms Hf _ IH|p fs ms _ IH|p q parts fs ms Hc _ IH|p fs ms _ IH
                     |p q parts fs ms Hc _ IH]; intros s st Hv Hn Hs.
  - exists [], []. by split_and!.
  - simpl. pose proof (dispatch_ctl max now f st Hf) as Hd.
    destruct (dispatch_frame max now f st) as [st1 r1] eqn:E. destruct Hd as (Hs' & Hfr & Hw & Hr).
    assert (session_is st1 s) as Hst by (unfold session_is in *; by rewrite Hs', Hw).
    destruct Hr as [->|[-> Hp]]; [|by apply delivered_stop; [|by apply cut_here]].
    specialize (IH s st1 Hv ltac:(by rewrite Hfr) Hst).
    destruct (dispatch_loop max now fs st1) as [st2 r]. eapply delivered_more, IH. by apply cut_later.
  - destruct st as [e w]. simpl in Hn. rewrite accepted_cons in Hv |- *. simpl in Hv |- *. rewrite Hn. simpl.
    apply Forall_cons_1 in Hv as [Hp Hv].
    pose proof (dispatch_text_valid p now e w s Hp Hs) as Hd.
    destruct (dispatch_text_message p now (e, w)) as [st1 a] eqn:E. destruct Hd as (-> & Hd & Hfr).
    simpl. specialize (IH _ st1 Hv ltac:(by rewrite Hfr) Hd).
    destruct (dispatch_loop max now fs st1) as [st2 r].
    apply delivered_cons. eapply delivered_more, IH. apply cut_later. simpl. by rewrite Hn, E.
  - destruct st as [e w]. simpl in Hn. rewrite accepted_cons in Hv |- *. simpl in Hv |- *.
    rewrite Hn. simpl. rewrite dispatch_loop_app.
    set (e1 := set_fragment (Some (open_text_fragment p max)) e).
    assert (dispatch_frame max now (mkFrame false OpText p) (e, w) = ((e1, w), None)) as E by (simpl; by rewrite Hn).
    assert (length (p ++ q) ≤ max → utf8_valid (p ++ q) = true) as Hpq.
    { intros Hle. rewrite (proj2 (Nat.leb_le _ _)) in Hv by done.
      by apply Forall_cons_1 in Hv as [? _]. }
    pose proof (fragmented_text max now p q parts e w s Hc Hs Hpq) as Hd. cbv zeta in Hd. fold e1 in Hd.
    destruct (dispatch_loop max now parts (e1, w)) as [st1 r1] eqn:Ep.
    destruct Hd as [(-> & Hfr & Hst)|(-> & Hp & Hst)];
      [|by apply delivered_stop; [|eapply cut_later, cut_within]].
    assert (∀ st', cut_short max now fs st1 st' → cut_short max now (mkFrame false OpText p :: parts ++ fs) (e, w) st')
      as Hcut by (intros st' Hst'; by eapply cut_later, cut_after).
    destruct (length (p ++ q) <=? max)%nat.
    + apply Forall_cons_1 in Hv as [_ Hv]. specialize (IH _ st1 Hv Hfr Hst).
      destruct (dispatch_loop max now fs st1) as [st2 r].
      apply delivered_cons. eapply delivered_more, IH. apply Hcut.
    + specialize (IH _ st1 Hv Hfr Hst). destruct (dispatch_loop max now fs st1) as [st2 r].
      eapply delivered_more, IH. apply Hcut.
  - destruct st as [e w]. simpl in Hn. simpl. rewrite Hn. simpl.
    specialize (IH s (e, w) Hv Hn Hs). destruct (dispatch_loop max now fs (e, w)) as [st2 r].
    eapply delivered_more, IH. apply cut_later. simpl. by rewrite Hn.
  - destruct st as [e w]. simpl in Hn. simpl. rewrite Hn. simpl. rewrite dispatch_loop_app.
    pose proof (continues_ignored max now q parts FragBinary (set_fragment (Some FragBinary) e, w)
      Hc eq_refl ltac:(done)) as Hi.
    assert (dispatch_frame max now (mkFrame false OpBinary p) (e, w) = ((set_fragment (Some FragBinary) e, w), None))
      as E by (simpl; by rewrite Hn).
    destruct (dispatch_loop max now parts _) as [st1 r1] eqn:Ep. destruct Hi as (He & Hw & Hi).
    assert (session_is st1 s) as Hst by (destruct Hs; split; rewrite ?He, ?Hw; done).
    destruct Hi as [[-> Hfr]|[-> Hp]]; [|by apply delivered_stop; [|eapply cut_later, cut_within]].
    specialize (IH s st1 Hv Hfr Hst). destruct (dispatch_loop max now fs st1) as [st2 r].
    eapply delivered_more, IH. intros Hcut. by eapply cut_later, cut_after.
Qed.

(** Without pings, all of it. *)
Lemma sent_delivered_all max now fs ms s (st : InEntry * World A) :
  sent fs ms → Forall (λ p, utf8_valid p = true) (accepted max ms) →
  en_fragment st.1 = None → session_is st s → Forall (λ f, opcode f ≠ OpPing) fs →
  (dispatch_loop max now fs st).2 = None ∧
  session_is (dispatch_loop max now fs st).1 (foldl deliver_text s (accepted max ms)).
Proof.
  intros Hsent Hv Hn Hs Hp. pose proof (sent_delivered max now fs ms s st Hsent Hv Hn Hs) as Hd.
  destruct (dispatch_loop max now fs st) as [st' [a|]]; destruct Hd as (ms1 & ms2 & -> & Hst & Hr).
  - destruct Hr as [_ (fs1 & f & fs2 & _ & -> & Hf & _)].
    apply Forall_app in Hp as [_ Hp]. by apply Forall_cons_1 in Hp as [? _].
  - destruct Hr as [-> _]. by rewrite app_nil_r.
Qed.
End delivery.

(** ** Memory: what a peer can make the worker hold *)

Definition held (fragment : option Fragment) : nat :=
  match fragment with Some (FragText buf) => length buf | _ => 0 end.

(** The reassembly and frame buffers are billed exactly, and the first is
    within the message cap. *)
Definition billed (max_message_bytes : nat) (e : InEntry) : Prop :=
  buffers (li_conn (en_link e)) =
    (Z.of_nat (held (en_fragment e)), Z.of_nat (length (en_inbuf e)),
     tls_unflushed_bytes (li_conn (en_link e))) ∧
  held (en_fragment e) ≤ max_message_bytes.

(** What writing never changes. *)
Definition same_held (e e' : InEntry) : Prop :=
  buffers (li_conn (en_link e')) = buffers (li_conn (en_link e)) ∧
  en_fragment e' = en_fragment e ∧ en_inbuf e' = en_inbuf e.

Lemma same_held_billed max e e' : same_held e e' → billed max e → billed max e'.
Proof.
  intros (Hb & Hf & Hi) [Hr Hm]. split; [|by rewrite Hf].
  rewrite Hf, Hi. unfold buffers in *. simpl in *. congruence.
Qed.

Lemma queue_frame_held frame now e : same_held e (queue_frame frame now e).
Proof. split_and!; [apply buffers_queue|done..]. Qed.

Lemma flush_link_buffers now l : buffers (li_conn (flush_link now l).1) = buffers (li_conn l).
Proof.
  unfold flush_link. destruct (default _ _) as [answers b].
  pose proof (buffers_flush (answers ++ [IoWouldBlock]) WRITEV_MAX_BYTES now (li_conn l) (li_wire l)) as Hb.
  unfold flush_plain. destruct (flush_script _ _ _ _ _) as [[[c wire] sink] st]. simpl in *.
  by destruct st as [[]|], b.
Qed.

Lemma flush_and_arm_held now e : same_held e (flush_and_arm now e).1.
Proof.
  unfold flush_and_arm. pose proof (flush_link_buffers now (en_link e)) as Hb.
  by destruct (flush_link now (en_link e)) as [l a].
Qed.

Lemma same_held_trans e1 e2 e3 : same_held e1 e2 → same_held e2 e3 → same_held e1 e3.
Proof. intros (? & ? & ?) (? & ? & ?). split_and!; congruence. Qed.

Lemma close_with_held code reason now e : same_held e (close_with code reason now e).
Proof. eapply same_held_trans; [apply queue_frame_held|apply flush_and_arm_held]. Qed.

Lemma close_with_inbuf code reason now e : en_inbuf (close_with code reason now e) = en_inbuf e.
Proof. apply (close_with_held code reason now e). Qed.

Lemma failed_inbuf code reason now e :
  en_inbuf (close_with code reason now (set_fragment None e)) = en_inbuf e.
Proof. by rewrite close_with_inbuf. Qed.

Lemma set_fragment_billed max e f : billed max e → held f ≤ max → billed max (set_fragment f e).
Proof.
  intros [Hb _] Hf. split; [|done]. unfold buffers in *. simpl in *. injection Hb as _ Hfb.
  rewrite Hfb. by destruct f as [[]|].
Qed.

Lemma take_fragment_billed max e : billed max e → billed max (take_fragment e).1.
Proof.
  intros [Hb _]. split; [|simpl; lia]. unfold buffers in *. simpl in *. injection Hb as _ Hfb.
  by rewrite Hfb.
Qed.

Section memory.
Context `{SerdeJson, Crypto} {A : Type} `{Adapter A}.

Lemma dispatch_text_billed max p now (st : InEntry * World A) :
  billed max st.1 → billed max (dispatch_text_message p now st).1.1.
Proof.
  destruct st as [e w]. intros Hb. unfold dispatch_text_message. destruct (negb _); simpl.
  - eapply same_held_billed; [apply close_with_held|]. apply set_fragment_billed; [done|simpl; lia].
  - destruct (en_session e) as [s|]; [|done]. destruct (codec_decode _ _) as [cmd|]; [|done].
    by destruct (Handler.dispatch _ _ _).
Qed.

Lemma violation_billed max reason now e :
  billed max e → billed max (close_fragment_violation reason now e).
Proof.
  intros Hb. eapply same_held_billed; [apply close_with_held|].
  apply set_fragment_billed; [done|simpl; lia].
Qed.

Lemma dispatch_frame_billed max now f (st : InEntry * World A) :
  billed max st.1 → billed max (dispatch_frame max now f st).1.1.
Proof.
  destruct st as [e w]. intros Hb. simpl in Hb.
  pose proof (take_fragment_billed max e Hb) as Ht. unfold dispatch_frame.
  destruct (opcode f).
  - destruct (take_fragment e) as [e1 [[buf| |]|]]; simpl in Ht |- *.
    + destruct (Nat.ltb_spec max (length (buf ++ payload f))).
      { destruct (fin f); simpl; [done|]. apply set_fragment_billed; [done|simpl; lia]. }
      destruct (fin f); [|by apply set_fragment_billed].
      pose proof (dispatch_text_billed max (buf ++ payload f) now (e1, w) Ht) as Hd.
      by destruct (dispatch_text_message _ _ _) as [st a].
    + destruct (fin f); [done|]. apply set_fragment_billed; [done|simpl; lia].
    + destruct (fin f); [done|]. apply set_fragment_billed; [done|simpl; lia].
    + by apply violation_billed.
  - case_bool_decide; [by apply violation_billed|].
    destruct (fin f); simpl.
    + pose proof (dispatch_text_billed max (payload f) now (e, w) Hb) as Hd.
      by destruct (dispatch_text_message _ _ _) as [st a].
    + apply set_fragment_billed; [done|]. unfold open_text_fragment.
      destruct (Nat.ltb_spec max (length (payload f))); simpl; lia.
  - destruct (en_fragment e) as [[]|]; [by apply violation_billed|done|by apply violation_billed|].
    destruct (fin f); [done|]. apply set_fragment_billed; [done|simpl; lia].
  - exact (same_held_billed max e _ (close_with_held _ _ now e) Hb).
  - pose proof (flush_and_arm_held now (queue_frame (encode [] true OpPong (payload f)) now e)) as Hf.
    destruct (flush_and_arm _ _) as [e' a]. eapply same_held_billed; [exact Hf|].
    exact (same_held_billed max e _ (queue_frame_held _ now e) Hb).
  - done.
Qed.

Lemma dispatch_loop_billed max now fs (st : InEntry * World A) :
  billed max st.1 → billed max (dispatch_loop max now fs st).1.1.
Proof.
  revert st. induction fs as [|f fs IH]; intros st Hb; simpl; [done|].
  pose proof (dispatch_frame_billed max now f st Hb) as Hf.
  destruct (dispatch_frame max now f st) as [st' [a|]]; [done|]. by apply IH.
Qed.

Lemma drain_events_buffers codec now q d :
  buffers (li_conn (dr_link (drain_events codec now q d).2)) = buffers (li_conn (dr_link d)).
Proof.
  revert d. induction q as [|ev q IH]; intros d; simpl; [done|].
  destruct ev; try (rewrite IH; apply buffers_queue). apply buffers_queue.
Qed.

Lemma drain_session_held now (st : InEntry * World A) : same_held st.1 (drain_session now st).1.1.
Proof.
  destruct st as [e w]. unfold drain_session. destruct (en_session e) as [s|]; [|done].
  destruct (w_ad w) as [a env].
  pose proof (drain_events_buffers (se_codec s) now (queue_of (env_store env) (cx_self_tx (se_ctx s)))
    (mkDrainState (se_ctx s) (en_link e) false false false)) as Hb.
  destruct (drain_events _ _ _ _) as [rest d]. simpl in Hb.
  destruct (dr_wrote d); [|done].
  match goal with |- context [flush_and_arm now ?e1] =>
    pose proof (flush_and_arm_held now e1) as Hf; destruct (flush_and_arm now e1) as [e2 act] end.
  simpl in *. by eapply same_held_trans; [|exact Hf].
Qed.

Lemma dispatch_frames_billed max now fs (st : InEntry * World A) :
  billed max st.1 → billed max (dispatch_frames max now fs st).1.1.
Proof.
  intros Hb. unfold dispatch_frames. pose proof (dispatch_loop_billed max now fs st Hb) as Hl.
  destruct (dispatch_loop max now fs st) as [st' [a|]]; [done|].
  pose proof (drain_session_held now st') as Hd.
  destruct (drain_session now st') as [st2 r]. by eapply same_held_billed.
Qed.
End memory.

(** A frame that is not complete is short. *)
Lemma parse_len_fields buf len7 p l : parse_len buf len7 = Ok (p, l) → (l <= 8)%Z.
Proof. unfold parse_len. intros Hp. repeat case_match; simplify_eq/=; lia. Qed.

Lemma parse_incomplete_short buf max rest :
  (0 <= max)%Z → parse buf max = (rest, Err Incomplete) → (Z.of_nat (length buf) < 14 + max)%Z.
Proof.
  intros Hmax Hp. assert (parse_header buf max = Err Incomplete) as Hh.
  { revert Hp. unfold parse. repeat case_match; congruence. }
  clear Hp. revert Hh. unfold parse_header.
  destruct (Z.ltb_spec (Z.of_nat (length buf)) 2); [lia|].
  destruct (negb (Z.land (buf !!! 0%nat) 0x70 =? 0)%Z); [done|]. destruct (OpCode_from_u8 _) as [op|e] eqn:Hop; simpl.
  2:{ intros [= ->]. exfalso. revert Hop. unfold OpCode_from_u8. by repeat case_match. }
  destruct (parse_len buf _) as [[p l]|e] eqn:Hl; simpl.
  2:{ intros [= ->]. revert Hl. unfold parse_len. repeat case_match; intros; simplify_eq/=; lia. }
  apply parse_len_fields in Hl.
  destruct (check_control _ _ _) as [u|e] eqn:Hcc; simpl.
  2:{ intros [= ->]. exfalso. revert Hcc. unfold check_control. by repeat case_match. }
  destruct (negb (negb (Z.land (buf !!! 1%nat) 0x80 =? 0)%Z)); [done|]. destruct (Z.ltb_spec max p); [done|].
  destruct (_ <? _)%Z; [done|]. destruct (Z.ltb_spec (Z.of_nat (length buf)) (2 + l + 4 + p)); [lia|done].
Qed.

Lemma parse_all_short scratch max rest fs :
  (0 <= max)%Z → Forall is_byte scratch → parse_all scratch max = (rest, Ok fs) →
  Forall is_byte rest ∧ (Z.of_nat (length rest) < 14 + max)%Z.
Proof.
  intros Hmax Hb Hp. pose proof (parse_all_app scratch [] max Hb (Forall_nil_2 _)) as Happ.
  rewrite Hp in Happ. destruct Happ as [Hr _]. split; [done|].
  apply parse_all_rest in Hp; [|done]. rewrite parse_all_step in Hp by done.
  destruct (parse rest max) as [s [f|[|m|]]] eqn:Hpr; try done.
  - by destruct (parse_all s max) as [? [?|?]].
  - by eapply parse_incomplete_short.
Qed.

(** ** Wake-ups *)

(** What a wake-up brings: the socket's reads, the answers to the flushes, and
    the time. *)
Record Wake : Type := mkWake {
  wk_reads : list ReadResult;
  wk_io : list (list IoResult * bool);
  wk_now : Z
}.

Definition wake (k : Wake) (e : InEntry) : InEntry :=
  mkInEntry (mkLink (li_conn (en_link e)) (li_wire (en_link e)) (wk_io k)
               (li_writable_armed (en_link e)))
    (wk_reads k) (en_inbuf e) (en_fragment e) (en_frames e) (en_session e).

Definition read_bytes (r : ReadResult) : list Z := match r with ReadOk bs => bs | _ => [] end.

Lemma fill_bytes reads scratch :
  Forall is_byte scratch → Forall (λ r, Forall is_byte (read_bytes r)) reads →
  Forall is_byte (fill reads scratch).1.1.
Proof.
  intros Hs Hr. revert scratch Hs. induction Hr as [|r reads Hb _ IH]; intros scratch Hs; simpl; [done|].
  destruct r as [[|b bs]| | |]; simpl; auto. apply IH, Forall_app. by split.
Qed.

Section run.
Context `{SerdeJson, Crypto} {A : Type} `{Adapter A}.

(** Wake-ups until the connection closes. *)
Fixpoint inbound_run (max_payload : Z) (max_message_bytes : nat) (ks : list Wake)
    (st : InEntry * World A) : InEntry * World A * Action :=
  match ks with
  | [] => (st, Keep)
  | k :: ks =>
      match handle_frames max_payload max_message_bytes (wk_now k) None (wake k st.1, st.2) with
      | (st, Keep, _) => inbound_run max_payload max_message_bytes ks st
      | (st, ActClose, _) => (st, ActClose)
      end
  end.

(** What a live connection holds: billed exactly, within the caps. *)
Definition inbound_ok (max_payload : Z) (max_message_bytes : nat) (e : InEntry) : Prop :=
  billed max_message_bytes e ∧ Forall is_byte (en_inbuf e) ∧
  (Z.of_nat (length (en_inbuf e)) < 14 + max_payload)%Z.

Lemma dispatch_text_inbuf p now (st : InEntry * World A) :
  en_inbuf (dispatch_text_message p now st).1.1 = en_inbuf st.1.
Proof.
  destruct st as [e w]. unfold dispatch_text_message.
  destruct (negb _); [apply failed_inbuf|].
  destruct (en_session e) as [s|]; [|done]. destruct (codec_decode _ _) as [cmd|]; [|done].
  by destruct (Handler.dispatch _ _ _).
Qed.

Lemma dispatch_frame_inbuf max now f (st : InEntry * World A) :
  en_inbuf (dispatch_frame max now f st).1.1 = en_inbuf st.1.
Proof.
  destruct st as [e w]. unfold dispatch_frame. destruct (opcode f); simpl.
  - destruct (en_fragment e) as [[buf| |]|]; simpl.
    + destruct (_ <? _)%nat; [by destruct (fin f)|]. destruct (fin f); [|done].
      match goal with |- context [dispatch_text_message ?p now ?x] =>
        pose proof (dispatch_text_inbuf p now x) as Hd; destruct (dispatch_text_message p now x) end.
      done.
    + by destruct (fin f).
    + by destruct (fin f).
    + exact (failed_inbuf _ _ now (take_fragment e).1).
  - case_bool_decide; [apply failed_inbuf|]. destruct (fin f); [|done].
    pose proof (dispatch_text_inbuf (payload f) now (e, w)) as Hd.
    by destruct (dispatch_text_message _ _ _).
  - destruct (en_fragment e) as [[]|]; [apply failed_inbuf|done|apply failed_inbuf|].
    by destruct (fin f).
  - exact (close_with_inbuf (echo_close_code (payload f)) EmptyString now e).
  - pose proof (flush_and_arm_held now (queue_frame (encode [] true OpPong (payload f)) now e))
      as (_ & _ & Hi). by destruct (flush_and_arm _ _).
  - done.
Qed.

Lemma dispatch_frames_inbuf max now fs (st : InEntry * World A) :
  en_inbuf (dispatch_frames max now fs st).1.1 = en_inbuf st.1.
Proof.
  unfold dispatch_frames.
  assert (en_inbuf (dispatch_loop max now fs st).1.1 = en_inbuf st.1) as Hl.
  { revert st. induction fs as [|f fs IH]; intros st; simpl; [done|].
    pose proof (dispatch_frame_inbuf max now f st) as Hf.
    destruct (dispatch_frame max now f st) as [st' [a|]]; [done|]. by rewrite IH. }
  destruct (dispatch_loop max now fs st) as [st' [a|]]; [done|].
  destruct (drain_session_held now st') as (_ & _ & Hd).
  destruct (drain_session now st') as [st2 r]. simpl in *. congruence.
Qed.

Lemma handle_frames_ok mp mm now limited (st : InEntry * World A) st' l :
  (0 <= mp)%Z → Forall (λ r, Forall is_byte (read_bytes r)) (en_reads st.1) →
  inbound_ok mp mm st.1 → handle_frames mp mm now limited st = (st', Keep, l) →
  inbound_ok mp mm st'.1.
Proof.
  destruct st as [e w]. simpl. intros Hmp Hr ([Hb Hm] & Hin & _). unfold handle_frames, read_frames, frames_available.
  pose proof (fill_bytes _ _ Hin Hr) as Hf.
  destruct (fill (en_reads e) (en_inbuf e)) as [[scratch reads] [eof|]]; [|done]. simpl in Hf.
  fold (parse_all scratch mp). destruct (parse_all scratch mp) as [rest [fs|err]] eqn:Hp; [|done].
  destruct (parse_all_short _ _ _ _ Hmp Hf Hp) as [Hrb Hlen].
  destruct (eof && _); [done|]. destruct (if (0 <? _)%Z then _ else _) as [bucket granted].
  destruct granted; [|done].
  match goal with |- context [dispatch_frames mm now fs ?x] =>
    pose proof (dispatch_frames_billed mm now fs x) as Hd;
    pose proof (dispatch_frames_inbuf mm now fs x) as Hi;
    destruct (dispatch_frames mm now fs x) as [st2 a] end.
  intros [= -> -> _]. simpl in Hi. unfold inbound_ok. rewrite Hi. split_and!; [|done..].
  apply Hd. split; [|done]. unfold buffers in *. simpl in *. injection Hb as -> _. done.
Qed.

Lemma inbound_run_ok mp mm ks (st st' : InEntry * World A) :
  (0 <= mp)%Z → Forall (λ k, Forall (λ r, Forall is_byte (read_bytes r)) (wk_reads k)) ks →
  inbound_ok mp mm st.1 → inbound_run mp mm ks st = (st', Keep) → inbound_ok mp mm st'.1.
Proof.
  intros Hmp Hks. revert st. induction Hks as [|k ks Hk _ IH]; intros st Hok; simpl.
  { by intros [= <-]. }
  destruct (handle_frames mp mm (wk_now k) None (wake k st.1, st.2)) as [[st1 a] l] eqn:Hh.
  destruct a; [|done]. apply IH. by eapply handle_frames_ok; [..|exact Hh].
Qed.

(** C38. Every conforming client stream is delivered: with pings, pongs and binary
    messages in between, the session runs the decoded text messages in order,
    whatever way they are split into fragments, except those in more than one
    frame that are longer than the message cap, which are dropped; and nothing of
    a message is left over. Only a ping whose pong cannot be flushed cuts the
    stream short: the connection then closes, after a prefix of the messages and
    every frame before that ping. *)
Theorem conforming_stream_delivered (max : nat) (now : Z) (fs : list Frame) (ms : list TextMessage)
    (s : SessionState * World A) (st : InEntry * World A) :
  sent fs ms → Forall (λ p, utf8_valid p = true) (accepted max ms) →
  en_fragment st.1 = None → session_is st s →
  let '(st', r) := dispatch_loop max now fs st in
  ∃ ms1 ms2, accepted max ms = ms1 ++ ms2 ∧ session_is st' (foldl deliver_text s ms1) ∧
    match r with
    | None => ms2 = [] ∧ en_fragment st'.1 = None
    | Some a => a = ActClose ∧ cut_short max now fs st st'
    end.
Proof. apply sent_delivered. Qed.

(** What a peer can make a worker buffer is bounded and billed: after any
    wake-ups of a live connection, the reassembly bytes billed are those held and
    at most the message cap, the frame bytes billed are those held and less than
    one header above the frame cap. *)
Theorem inbound_memory_bounded (max_payload : Z) (max_message_bytes : nat) (ks : list Wake)
    (st st' : InEntry * World A) :
  (0 <= max_payload)%Z →
  Forall (λ k, Forall (λ r, Forall is_byte (read_bytes r)) (wk_reads k)) ks →
  inbound_ok max_payload max_message_bytes st.1 →
  inbound_run max_payload max_message_bytes ks st = (st', Keep) →
  let c := li_conn (en_link st'.1) in
  reassembly_bytes c = Z.of_nat (held (en_fragment st'.1)) ∧
  held (en_fragment st'.1) ≤ max_message_bytes ∧
  frame_buffer_bytes c = Z.of_nat (length (en_inbuf st'.1)) ∧
  (frame_buffer_bytes c < 14 + max_payload)%Z.
Proof.
  intros Hmp Hks Hok Hr c.
  destruct (inbound_run_ok _ _ _ _ _ Hmp Hks Hok Hr) as ([Hb Hm] & _ & Hl).
  subst c. unfold buffers in Hb. injection Hb as -> ->. done.
Qed.

(** The message cap applies to fragmented messages only: a valid text longer
    than the cap is dispatched when it comes in one frame and silently dropped
    when the same text comes in two. *)
Theorem cap_depends_on_fragmentation (max : nat) (now : Z) (p q : list Z)
    (s : SessionState * World A) (st : InEntry * World A) :
  max < length (p ++ q) → utf8_valid (p ++ q) = true →
  en_fragment st.1 = None → session_is st s →
  let whole := dispatch_loop max now [mkFrame true OpText (p ++ q)] st in
  let split := dispatch_loop max now
                 [mkFrame false OpText p; mkFrame true OpContinuation q] st in
  whole.2 = None ∧ session_is whole.1 (deliver_text s (p ++ q)) ∧
  split.2 = None ∧ session_is split.1 s.
Proof.
  intros Hlen Hv Hn Hs whole split.
  assert (accepted max [mkTextMessage false (p ++ q)] = [p ++ q]) as E1 by (unfold accepted; by rewrite filter_cons_True).
  assert (accepted max [mkTextMessage true (p ++ q)] = []) as E2.
  { unfold accepted. rewrite filter_cons_False; [done|]. simpl. intros Hle. specialize (Hle eq_refl). lia. }
  pose proof (sent_delivered_all max now _ _ s st (sent_text (p ++ q) [] [] sent_nil)) as Hw.
  pose proof (sent_delivered_all max now _ _ s st (sent_fragmented p q _ [] [] (cont_last q) sent_nil)) as Hsp.
  rewrite E1 in Hw. rewrite E2 in Hsp.
  destruct (Hw ltac:(by apply Forall_singleton) Hn Hs) as [Hw1 Hw2]; [by repeat constructor|].
  destruct (Hsp (Forall_nil_2 _) Hn Hs) as [Hs1 Hs2]; [by repeat constructor|]. done.
Qed.
End run.
