(* ===== verification/Text.v ===== *)
(** * Text

    What the code uses of [str] beyond RustStd: the Unicode property
    [White_Space], trimming, and splitting into words and lines. A text is the
    list of its UTF-8 bytes, or the string of them. *)

From S2P Require Import Prelude RustStd Auth Inbound.

Definition eq_ignore_ascii_case (a b : string) : bool := bool_decide (ascii_lowercase a = ascii_lowercase b).

(** The bytes of the character of the Unicode property [White_Space] that
    starts a UTF-8 text, 0 when it starts with none, and the same for a text
    whose bytes are reversed. *)
Definition is_space (b : Z) : bool := ((9 <=? b)%Z && (b <=? 13)%Z) || (b =? 32)%Z.
Definition is_space_2080 (b : Z) : bool :=
  ((0x80 <=? b)%Z && (b <=? 0x8A)%Z) || (b =? 0xA8)%Z || (b =? 0xA9)%Z || (b =? 0xAF)%Z.

Definition space2 (a b : Z) : bool := (a =? 0xC2)%Z && ((b =? 0x85)%Z || (b =? 0xA0)%Z).
Definition space3 (a b c : Z) : bool :=
  ((a =? 0xE1)%Z && (b =? 0x9A)%Z && (c =? 0x80)%Z)
  || ((a =? 0xE2)%Z && (b =? 0x80)%Z && is_space_2080 c)
  || ((a =? 0xE2)%Z && (b =? 0x81)%Z && (c =? 0x9F)%Z)
  || ((a =? 0xE3)%Z && (b =? 0x80)%Z && (c =? 0x80)%Z).

Definition space_len (v : list Z) : nat :=
  match v with
  | a :: v =>
      if is_space a then 1
      else match v with
           | b :: v =>
               if space2 a b then 2
               else match v with c :: _ => if space3 a b c then 3 else 0 | [] => 0 end
           | [] => 0
           end
  | [] => 0
  end.

Definition space_len_rev (v : list Z) : nat :=
  match v with
  | c :: v =>
      if is_space c then 1
      else match v with
           | b :: v =>
               if space2 b c then 2
               else match v with a :: _ => if space3 a b c then 3 else 0 | [] => 0 end
           | [] => 0
           end
  | [] => 0
  end.

Fixpoint trim_by (fuel : nat) (len : list Z → nat) (v : list Z) : list Z :=
  match fuel with
  | O => v
  | S fuel => match len v with O => v | n => trim_by fuel len (drop n v) end
  end.

(** [str::trim]; every step removes a byte, so the length is fuel enough. *)
Definition trim (v : list Z) : list Z :=
  let v := trim_by (length v) space_len v in
  rev (trim_by (length v) space_len_rev (rev v)).

(** ** Strings *)

Definition str_trim (s : string) : string := text_of (trim (as_bytes s)).
Definition str_trim_start (s : string) : string :=
  text_of (trim_by (String.length s) space_len (as_bytes s)).

(** The bytes before the first white space, and the rest. *)
Fixpoint word (fuel : nat) (v : list Z) : list Z * list Z :=
  match fuel with
  | O => ([], v)
  | S fuel =>
      match v with
      | [] => ([], [])
      | b :: v' => if (space_len v =? 0)%nat then let '(w, r) := word fuel v' in (b :: w, r) else ([], v)
      end
  end.

Fixpoint words (fuel : nat) (v : list Z) : list (list Z) :=
  match fuel with
  | O => []
  | S fuel =>
      match trim_by (length v) space_len v with
      | [] => []
      | v => let '(w, r) := word (length v) v in w :: words fuel r
      end
  end.

(** [str::split_whitespace]; every word has a byte, so the length is fuel
    enough. *)
Definition split_whitespace (s : string) : list string :=
  text_of <$> words (String.length s) (as_bytes s).

Definition strip_return (s : string) : string :=
  match rev (as_bytes s) with 13%Z :: r => text_of (rev r) | _ => s end.

(** [str::lines]: without the line feed or the return before it; a final line
    feed ends the last line. *)
Definition lines (s : string) : list string :=
  let ls := Str.split "010"%char s in
  strip_return <$> match rev ls with EmptyString :: r => rev r | _ => ls end.
