(* ===== verification/Handshake.v ===== *)
(** * The opening handshake: [src/src/transport/handshake.rs]

    What the bytes of a request head are: a WebSocket upgrade, a plain HTTP
    request, an incomplete head, or one to refuse. The head parser is the
    [httparse] crate, a parameter with the laws the code relies on. *)

From stdpp Require Import pretty.
From S2P Require Import Prelude RustStd Json Auth Envelope Inbound Text.

(** ** Bytes *)

(** [u8::is_ascii_whitespace]: space, tab, line feed, form feed, return. *)
Definition is_ascii_whitespace (b : Z) : bool :=
  (b =? 32)%Z || (b =? 9)%Z || (b =? 10)%Z || (b =? 12)%Z || (b =? 13)%Z.

Fixpoint trim_front (ws : Z → bool) (v : list Z) : list Z :=
  match v with
  | first :: rest => if ws first then trim_front ws rest else v
  | [] => []
  end.

Definition trim_ascii (v : list Z) : list Z :=
  rev (trim_front is_ascii_whitespace (rev (trim_front is_ascii_whitespace v))).

(** ** The head parser *)

Record Request : Type := mkRequest {
  rq_method : option string;
  rq_path : option string;
  rq_headers : list (string * list Z)
}.

Inductive ParseStatus : Type :=
| ParseComplete (n : nat) (r : Request)
| ParsePartial
| ParseTooManyHeaders
| ParseError.

(** [httparse::Request::parse] with [MAX_HEADERS] slots. *)
Class HttpParse : Type := { parse_request : list Z → ParseStatus }.

Definition CRLF : list Z := [13; 10]%Z.

Definition MAX_HEADERS : nat := 128.

Inductive HeadResult : Type :=
| WsUpgrade (key path : string)
| Rest (consumed : nat)
| NeedMore
| TooManyHeaders
| Bad (reason : string).

Definition header_value_eq_ignore_ascii_case (value : list Z) (expected : string) : bool :=
  eq_ignore_ascii_case (text_of (trim_ascii value)) expected.

Definition connection_contains_upgrade (value : list Z) : bool :=
  if utf8_valid value then
    existsb (λ tok, eq_ignore_ascii_case (text_of (trim (as_bytes tok))) "upgrade")
      (Str.split "," (text_of value))
  else false.

(** What the loop over the headers collects. *)
Record Upgrade : Type := mkUpgrade {
  up_upgrade : bool;
  up_connection : bool;
  up_version : bool;
  up_key : option string
}.

Definition note_header (u : Upgrade) (h : string * list Z) : Upgrade :=
  if eq_ignore_ascii_case h.1 "upgrade" then
    if header_value_eq_ignore_ascii_case h.2 "websocket"
    then mkUpgrade true (up_connection u) (up_version u) (up_key u) else u
  else if eq_ignore_ascii_case h.1 "connection" then
    if connection_contains_upgrade h.2
    then mkUpgrade (up_upgrade u) true (up_version u) (up_key u) else u
  else if eq_ignore_ascii_case h.1 "sec-websocket-version" then
    if header_value_eq_ignore_ascii_case h.2 "13"
    then mkUpgrade (up_upgrade u) (up_connection u) true (up_key u) else u
  else if eq_ignore_ascii_case h.1 "sec-websocket-key" then
    if utf8_valid h.2 then
      let trimmed := text_of (trim h.2) in
      if negb (Str.is_empty trimmed)
      then mkUpgrade (up_upgrade u) (up_connection u) (up_version u) (Some trimmed) else u
    else u
  else u.

(** [windows(4).any(|w| w == CRLFCRLF)]. *)
Fixpoint has_terminator (v : list Z) : bool :=
  match v with
  | [] => false
  | _ :: r => bool_decide (take 4 v = CRLF ++ CRLF) || has_terminator r
  end.

Section head.
Context `{HttpParse}.

Definition over_cap (buf : list Z) (max_head_bytes : nat) : bool :=
  negb (max_head_bytes =? 0) && (max_head_bytes <? length buf)
  && negb (has_terminator (take max_head_bytes buf)).

Definition read_head (buf : list Z) (max_head_bytes : nat) : HeadResult :=
  if over_cap buf max_head_bytes then Bad "request head too large"
  else
    match parse_request buf with
    | ParsePartial => NeedMore
    | ParseTooManyHeaders => TooManyHeaders
    | ParseError => Bad "malformed http request"
    | ParseComplete consumed req =>
        let path := default "" (rq_path req) in
        if bool_decide (default "" (rq_method req) ≠ "GET") then Rest consumed
        else
          match foldl note_header (mkUpgrade false false false None) (rq_headers req) with
          | mkUpgrade true true true (Some key) => WsUpgrade key path
          | _ => if Str.starts_with "/app/" path then Bad "invalid websocket upgrade" else Rest consumed
          end
    end.
End head.

(** ** The responses *)

Class Sha1 : Type := { sha1 : string → string }.

Definition WS_GUID : string := "258EAFA5-E914-47DA-95CA-C5AB0DC85B11".

Definition EOL : string := String "013" (String "010" "").

Definition accept_response `{Sha1, Base64} (ws_key : string) : string :=
  let accept := b64_encode (sha1 (ws_key +:+ WS_GUID)) in
  "HTTP/1.1 101 Switching Protocols" +:+ EOL +:+ "Upgrade: websocket" +:+ EOL +:+ "Connection: Upgrade" +:+ EOL
  +:+ "Sec-WebSocket-Accept: " +:+ accept +:+ EOL +:+ EOL.

(** [error_body] of [src/src/http/error.rs]. *)
Definition error_body `{SerdeJson} (message : string) (status : Z) : string :=
  to_string (JObject [("error", JString message); ("status", json_uint status)]).

Definition header_fields_too_large_response `{SerdeJson} : string :=
  let body := error_body "Request header fields too large" 431 in
  "HTTP/1.1 431 Request Header Fields Too Large" +:+ EOL +:+ "Content-Type: application/json" +:+ EOL
  +:+ "Content-Length: " +:+ pretty (String.length body) +:+ EOL +:+ "Connection: close" +:+ EOL +:+ EOL +:+ body.

(** ** What the headers ask for *)

Definition is_upgrade_header (h : string * list Z) : bool :=
  eq_ignore_ascii_case h.1 "upgrade" && header_value_eq_ignore_ascii_case h.2 "websocket".
Definition is_connection_header (h : string * list Z) : bool :=
  eq_ignore_ascii_case h.1 "connection" && connection_contains_upgrade h.2.
Definition is_version_header (h : string * list Z) : bool :=
  eq_ignore_ascii_case h.1 "sec-websocket-version" && header_value_eq_ignore_ascii_case h.2 "13".
Definition key_of_header (h : string * list Z) : option string :=
  if eq_ignore_ascii_case h.1 "sec-websocket-key" && utf8_valid h.2
     && negb (Str.is_empty (text_of (trim h.2)))
  then Some (text_of (trim h.2)) else None.

Lemma note_header_eq u h :
  note_header u h = mkUpgrade (up_upgrade u || is_upgrade_header h) (up_connection u || is_connection_header h)
    (up_version u || is_version_header h) (match key_of_header h with Some k => Some k | None => up_key u end).
Proof.
  destruct u as [a b c k], h as [n v]. unfold note_header, is_upgrade_header, is_connection_header,
    is_version_header, key_of_header, eq_ignore_ascii_case. cbn [fst snd up_upgrade up_connection up_version up_key].
  destruct (decide (ascii_lowercase n = "upgrade")) as [E|E1].
  { rewrite E. simpl. destruct (header_value_eq_ignore_ascii_case v "websocket"); by rewrite ?orb_true_r, ?orb_false_r. }
  destruct (decide (ascii_lowercase n = "connection")) as [E|E2].
  { rewrite E. simpl. destruct (connection_contains_upgrade v); by rewrite ?orb_true_r, ?orb_false_r. }
  destruct (decide (ascii_lowercase n = "sec-websocket-version")) as [E|E3].
  { rewrite E. simpl. destruct (header_value_eq_ignore_ascii_case v "13"); by rewrite ?orb_true_r, ?orb_false_r. }
  assert (∀ m, ascii_lowercase n ≠ ascii_lowercase m → bool_decide (ascii_lowercase n = ascii_lowercase m) = false) as F.
  { intros m Hm. by apply bool_decide_eq_false_2. }
  rewrite (F "upgrade"), (F "connection"), (F "sec-websocket-version") by done. simpl.
  rewrite !orb_false_r. destruct (bool_decide _); simpl; [|done].
  destruct (utf8_valid v); simpl; [|done]. by destruct (Str.is_empty _).
Qed.

Lemma note_headers hs u :
  foldl note_header u hs = mkUpgrade (up_upgrade u || existsb is_upgrade_header hs)
    (up_connection u || existsb is_connection_header hs) (up_version u || existsb is_version_header hs)
    (match last (omap key_of_header hs) with Some k => Some k | None => up_key u end).
Proof.
  revert u. induction hs as [|h hs IH]; intros u; simpl.
  { rewrite !orb_false_r. by destruct u. }
  rewrite IH, note_header_eq. simpl. rewrite <-!orb_assoc. f_equal.
  destruct (key_of_header h) as [k|]; simpl; [|done]. rewrite last_cons. by destruct (last _).
Qed.

Section head_props.
Context `{HttpParse}.

(** A head is taken for an upgrade exactly when it is complete and within the
    cap, its method is GET, and among its headers are [Upgrade: websocket], a
    [Connection] that lists [upgrade], version 13 and a non-empty key, whatever
    the case and order of the headers; the key taken is the last one, the path
    is whatever was asked for. *)
Theorem upgrade_iff (buf : list Z) (cap : nat) (key path : string) :
  read_head buf cap = WsUpgrade key path ↔
  over_cap buf cap = false ∧ ∃ n req, parse_request buf = ParseComplete n req ∧
    rq_method req = Some "GET" ∧ path = default "" (rq_path req) ∧
    existsb is_upgrade_header (rq_headers req) = true ∧
    existsb is_connection_header (rq_headers req) = true ∧
    existsb is_version_header (rq_headers req) = true ∧
    last (omap key_of_header (rq_headers req)) = Some key.
Proof.
  unfold read_head. destruct (over_cap buf cap); [naive_solver|].
  destruct (parse_request buf) as [n req| | |]; [|naive_solver..]. cbv zeta. rewrite note_headers. simpl.
  destruct (decide (default "" (rq_method req) = "GET")) as [Em|Em].
  - rewrite bool_decide_eq_false_2 by (by intros ?). assert (rq_method req = Some "GET") as Em'.
    { destruct (rq_method req); simpl in Em; [by subst|done]. }
    destruct (existsb is_upgrade_header (rq_headers req)) eqn:E1, (existsb is_connection_header (rq_headers req)) eqn:E2,
      (existsb is_version_header (rq_headers req)) eqn:E3,
      (last (omap key_of_header (rq_headers req))) as [k|] eqn:E4; simpl;
      (split; [try (intros [= <- <-]); try (by destruct (Str.starts_with _ _)); eauto 12
              |intros (_ & n' & req' & [= <- <-] & _ & -> & ? & ? & ? & ?); try congruence]).
  - rewrite bool_decide_eq_true_2 by done. split; [done|].
    intros (_ & n' & req' & [= <- <-] & Hm & _). by rewrite Hm in Em.
Qed.

(** Once a head has been read, more bytes do not change the verdict. *)
Theorem verdict_stable (buf more : list Z) (cap : nat) :
  (∀ b t n r, parse_request b = ParseComplete n r → parse_request (b ++ t) = ParseComplete n r) →
  cap = 0 ∨ has_terminator (take cap buf) = true →
  (∃ n r, parse_request buf = ParseComplete n r) → read_head (buf ++ more) cap = read_head buf cap.
Proof.
  intros Hext Hcap (n & r & E).
  assert (∀ v w, has_terminator v = true → has_terminator (v ++ w) = true) as Hmono.
  { induction v as [|z v IH]; intros w; [done|]. simpl. rewrite !orb_true_iff, !bool_decide_eq_true.
    intros [Ht|Ht]; [left|right; by apply IH].
    destruct v as [|y [|x [|u v]]]; [done..|exact Ht]. }
  assert (over_cap buf cap = false ∧ over_cap (buf ++ more) cap = false) as [E1 E2].
  { unfold over_cap. destruct Hcap as [->|Ht]; [done|]. rewrite Ht, take_app, Hmono by done.
    by rewrite !andb_false_r. }
  unfold read_head. by rewrite E1, E2, (Hext _ more _ _ E), E.
Qed.

(** The cap bounds what a head may accumulate only when the buffer does not
    start with blank lines. Without a terminator within it, a head is refused
    as soon as the buffer outgrows the cap. But the parser skips leading blank
    lines, and the search for the terminator does not: behind two of them, an
    incomplete head of any length is accumulated. *)
Theorem head_cap_bypassed (cap : nat) :
  4 ≤ cap → (∀ b, parse_request b = ParsePartial → parse_request (CRLF ++ b) = ParsePartial) →
  (∀ buf, has_terminator (take cap buf) = false → read_head buf cap = NeedMore → length buf ≤ cap) ∧
  (∀ b, parse_request b = ParsePartial → read_head (CRLF ++ CRLF ++ b) cap = NeedMore).
Proof.
  intros Hcap Hskip. split.
  - intros buf Ht. unfold read_head, over_cap. rewrite Ht.
    destruct (Nat.eqb_spec cap 0); [lia|]. destruct (Nat.ltb_spec cap (length buf)); [done|lia].
  - intros b Hb. unfold read_head.
    assert (over_cap (CRLF ++ CRLF ++ b) cap = false) as ->; [|by rewrite (Hskip _ (Hskip _ Hb))].
    unfold over_cap. do 4 (destruct cap as [|cap]; [lia|]). simpl. by rewrite !andb_false_r.
Qed.
End head_props.

Module HandshakeDemo.
(** A parser of the request line and blank line of one fixed request. *)
Definition head : list Z := as_bytes ("GET /app/key HTTP/1.1" +:+ EOL +:+ EOL).

Fixpoint skip_blank (v : list Z) : list Z :=
  match v with 13%Z :: 10%Z :: v => skip_blank v | _ => v end.

Definition request : Request :=
  mkRequest (Some "GET") (Some "/app/key")
    [("Upgrade", as_bytes " WebSocket "); ("connection", as_bytes "keep-alive, Upgrade");
     ("Sec-WebSocket-Version", as_bytes "13"); ("Sec-WebSocket-Key", as_bytes " c2VjcmV0 ")].

Definition parse_head (v : list Z) : ParseStatus :=
  if bool_decide (take (length head) v = head) then ParseComplete (length head) request else ParsePartial.

#[local] Instance parser : HttpParse := {| parse_request := parse_head |}.
#[local] Instance skipping : HttpParse := {| parse_request v := parse_head (skip_blank v) |}.

Lemma parser_extends b t n r : parse_head b = ParseComplete n r → parse_head (b ++ t) = ParseComplete n r.
Proof.
  unfold parse_head. case_bool_decide as E; [|done]. intros [= <- <-].
  rewrite bool_decide_eq_true_2; [done|]. rewrite take_app_le; [done|].
  pose proof (f_equal length E) as El. rewrite length_take in El. lia.
Qed.
End HandshakeDemo.

Lemma verdict_stable_witness :
  read_head (H := HandshakeDemo.parser) (HandshakeDemo.head ++ [1; 2; 3]%Z) 40 = WsUpgrade "c2VjcmV0" "/app/key".
Proof.
  rewrite (verdict_stable (H := HandshakeDemo.parser) HandshakeDemo.head [1; 2; 3]%Z 40 HandshakeDemo.parser_extends).
  - vm_compute. reflexivity.
  - right. vm_compute. reflexivity.
  - exists 25, HandshakeDemo.request. vm_compute. reflexivity.
Defined.

(** Thirty bytes of an unfinished head, past a cap of twenty. *)
Lemma head_cap_bypassed_witness :
  read_head (H := HandshakeDemo.skipping) (replicate 30 65%Z) 20 = Bad "request head too large" ∧
  read_head (H := HandshakeDemo.skipping) (CRLF ++ CRLF ++ replicate 30 65%Z) 20 = NeedMore.
Proof.
  split; [vm_compute; reflexivity|].
  apply (head_cap_bypassed (H := HandshakeDemo.skipping) 20); [lia|intros b Hb; exact Hb|vm_compute; reflexivity].
Defined.
