(* ===== verification/Config.v ===== *)
(** * Configuration: [src/src/server/config.rs] and [src/src/server/resources.rs]

    The settings read from the environment at start-up with their guards, and
    the budgets derived from them and from the host. A process environment is a
    partial function from names to values; a malformed value ends the process,
    which is an error here. *)

From Stdlib Require Import SpecFloat.
From S2P Require Import Prelude RustStd Auth Outbound Rate Text Handler.
#[local] Open Scope rust_scope.

(** ** Numbers from text *)

(** [f64::from_str]: the nearest binary64 of a decimal, ties to even. *)
Module F64Parse.
Fixpoint digits (acc : Z) (n : nat) (s : string) : Z * nat * string :=
  match s with
  | String c s' =>
      if Str.is_ascii_digit c then digits (acc * 10 + (u8_of_ascii c - 48)) (S n) s' else (acc, n, s)
  | EmptyString => (acc, n, s)
  end.

(** [mant] times ten to the [exp]. *)
Definition of_decimal (mant exp : Z) : f64 :=
  match mant with
  | Z.pos m =>
      if (0 <=? exp)%Z then F64.of_uint (mant * 10 ^ exp)
      else SFdiv F64.prec F64.emax (S754_finite false m 0) (S754_finite false (Z.to_pos (10 ^ (- exp))) 0)
  | _ => S754_zero false
  end.

Definition exponent (s : string) : option Z :=
  match s with
  | EmptyString => Some 0%Z
  | String c s =>
      if bool_decide (c = "e"%char) || bool_decide (c = "E"%char) then
        let '(sign, s) :=
          match s with
          | String "+" s => (1%Z, s) | String "-" s => ((-1)%Z, s) | s => (1%Z, s)
          end in
        let '(e, n, rest) := digits 0 0 s in
        if Str.is_empty rest && negb (n =? 0)%nat then Some (sign * e)%Z else None
      else None
  end.

Definition unsigned (s : string) : option f64 :=
  let '(int, n, s) := digits 0 0 s in
  let '(mant, m, s) := match s with String "." s => digits int 0 s | s => (int, 0, s) end in
  if (n + m =? 0)%nat then None
  else exp ← exponent s; Some (of_decimal mant (exp - Z.of_nat m)).

Definition named (s : string) : option f64 :=
  let s := ascii_lowercase s in
  if decide (s = "inf" ∨ s = "infinity") then Some (S754_infinity false)
  else if decide (s = "nan") then Some S754_nan
  else None.

Definition parse (s : string) : option f64 :=
  let '(neg, s) :=
    match s with String "-" s => (true, s) | String "+" s => (false, s) | s => (false, s) end in
  x ← match named s with Some x => Some x | None => unsigned s end;
  Some (if neg then SFopp x else x).
End F64Parse.

(** ** [ServerConfig] *)

(** The capacity of a worker's broadcast inbox, of [fanout.rs]. *)
Definition DEFAULT_BROADCAST_HANDOFF_CAP : Z := 1024.

Inductive AppManagerKind : Type := StaticFile | Sqlite | Mysql | Postgres | Mongo.

#[export] Instance AppManagerKind_eq_dec : EqDecision AppManagerKind.
Proof. solve_decision. Defined.

Definition parse_app_manager (kind : option string) : AppManagerKind :=
  let kind := default "static" kind in
  if decide (kind = "sqlite") then Sqlite
  else if decide (kind = "mysql") then Mysql
  else if decide (kind = "postgres") then Postgres
  else if decide (kind = "mongo") then Mongo
  else StaticFile.

Inductive LogFormat : Type := Text | Json.

Definition LogFormat_from_str (s : string) : result LogFormat string :=
  let s := ascii_lowercase s in
  if decide (s = "text") then Ok Text
  else if decide (s = "json") then Ok Json
  else Err ("unknown log format '" +:+ s +:+ "' (expected text or json)").

Record ServerConfig : Type := mkServerConfig {
  c_bind : string;
  c_port : Z;
  c_activity_timeout : Z;
  c_pong_timeout : Z;
  c_max_conn_lifetime_secs : Z;
  c_max_head_bytes : Z;
  c_handshake_timeout_ms : Z;
  c_strict_protocol : bool;
  c_apps_path : string;
  c_max_presence_members : Z;
  c_max_event_payload_bytes : Z;
  c_max_channels_per_publish : Z;
  c_rest_auth_window_secs : Z;
  c_max_batch_events : Z;
  c_cache_ttl_secs : Z;
  c_max_watchlist_size : Z;
  c_webhook_batch_ms : Z;
  c_webhook_timeout_ms : Z;
  c_webhook_backoff_base_ms : Z;
  c_webhook_backoff_cap_ms : Z;
  c_webhook_retry_budget_ms : Z;
  c_webhook_max_concurrency : Z;
  c_webhook_allow_private_targets : bool;
  c_max_channel_name_length : Z;
  c_max_event_name_length : Z;
  c_max_client_events_per_second : Z;
  c_max_frames_per_second : Z;
  c_max_frames_burst : Z;
  c_max_accepts_per_second : Z;
  c_max_rest_requests_per_second : Z;
  c_max_backend_events_per_second : Z;
  c_max_read_requests_per_second : Z;
  c_max_presence_user_id_length : Z;
  c_max_presence_user_info_bytes : Z;
  c_max_subscriptions_per_connection : Z;
  c_adapter : string;
  c_redis_url : string;
  c_redis_prefix : string;
  c_redis_pool_size : Z;
  c_redis_membership_ttl_secs : Z;
  c_redis_presence_heartbeat_secs : Z;
  c_redis_node_heartbeat_secs : Z;
  c_redis_sweep_interval_secs : Z;
  c_webhook_vacated_grace_ms : Z;
  c_redis_sharded_pubsub : bool;
  c_cluster_envelope_compat : bool;
  c_workers : Z;
  c_memory_budget_bytes : Z;
  c_memory_budget_fraction : f64;
  c_expected_conns_per_worker : Z;
  c_perconn_queue_min_bytes : Z;
  c_perconn_queue_max_bytes : Z;
  c_broadcast_handoff_cap : Z;
  c_codel_target_ms : Z;
  c_codel_interval_ms : Z;
  c_psi_backstop : option bool;
  c_psi_threshold : f64;
  c_shutdown_grace_ms : Z;
  c_shutdown_predrain_ms : Z;
  c_max_connections : Z;
  c_expected_per_conn_bytes : Z;
  c_tls_cert_path : option string;
  c_tls_key_path : option string;
  c_tls_ca_path : option string;
  c_mailbox_capacity : Z;
  c_app_manager : AppManagerKind;
  c_app_dsn : option string;
  c_app_cache : bool;
  c_app_cache_max : Z;
  c_app_cache_ttl : Z;
  c_app_cache_neg_max : Z;
  c_app_cache_neg_ttl : Z;
  c_app_cache_redis_url : option string;
  c_app_admin_token : option string;
  c_metrics_token : option string;
  c_app_sweep_interval_secs : Z;
  c_app_store_probe_interval_secs : Z;
  c_app_store_probe_timeout_ms : Z
}.

Definition ServerConfig_default : ServerConfig := {|
  c_bind := "0.0.0.0";
  c_port := 7000;
  c_activity_timeout := 120;
  c_pong_timeout := 30;
  c_max_conn_lifetime_secs := 86400;
  c_max_head_bytes := 16384;
  c_handshake_timeout_ms := 10000;
  c_strict_protocol := false;
  c_apps_path := "apps.json";
  c_max_presence_members := 100;
  c_max_event_payload_bytes := 10000;
  c_max_channels_per_publish := 100;
  c_rest_auth_window_secs := 600;
  c_max_batch_events := 10;
  c_cache_ttl_secs := 1800;
  c_max_watchlist_size := 100;
  c_webhook_batch_ms := 50;
  c_webhook_timeout_ms := 5000;
  c_webhook_backoff_base_ms := 1000;
  c_webhook_backoff_cap_ms := 60000;
  c_webhook_retry_budget_ms := 300000;
  c_webhook_max_concurrency := 100;
  c_webhook_allow_private_targets := false;
  c_max_channel_name_length := 200;
  c_max_event_name_length := 200;
  c_max_client_events_per_second := 10;
  c_max_frames_per_second := 100;
  c_max_frames_burst := 250;
  c_max_accepts_per_second := 0;
  c_max_rest_requests_per_second := 0;
  c_max_backend_events_per_second := 0;
  c_max_read_requests_per_second := 0;
  c_max_presence_user_id_length := 128;
  c_max_presence_user_info_bytes := 1024;
  c_max_subscriptions_per_connection := 200;
  c_adapter := "local";
  c_redis_url := "redis://127.0.0.1:6379";
  c_redis_prefix := "pylon";
  c_redis_pool_size := 6;
  c_redis_membership_ttl_secs := 60;
  c_redis_presence_heartbeat_secs := 25;
  c_redis_node_heartbeat_secs := 5;
  c_redis_sweep_interval_secs := 10;
  c_webhook_vacated_grace_ms := 3000;
  c_redis_sharded_pubsub := false;
  c_cluster_envelope_compat := true;
  c_workers := 0;
  c_memory_budget_bytes := 0;
  c_memory_budget_fraction := (F64.of_uint 0);
  c_expected_conns_per_worker := 50000;
  c_perconn_queue_min_bytes := (Z.shiftl 256 10);
  c_perconn_queue_max_bytes := (Z.shiftl 8 20);
  c_broadcast_handoff_cap := DEFAULT_BROADCAST_HANDOFF_CAP;
  c_codel_target_ms := 5;
  c_codel_interval_ms := 100;
  c_psi_backstop := None;
  c_psi_threshold := (F64.of_uint 15);
  c_shutdown_grace_ms := 10000;
  c_shutdown_predrain_ms := 2000;
  c_max_connections := 0;
  c_expected_per_conn_bytes := 8192;
  c_tls_cert_path := None;
  c_tls_key_path := None;
  c_tls_ca_path := None;
  c_mailbox_capacity := 256;
  c_app_manager := StaticFile;
  c_app_dsn := None;
  c_app_cache := true;
  c_app_cache_max := 100000;
  c_app_cache_ttl := 300;
  c_app_cache_neg_max := 10000;
  c_app_cache_neg_ttl := 30;
  c_app_cache_redis_url := None;
  c_app_admin_token := None;
  c_metrics_token := None;
  c_app_sweep_interval_secs := 0;
  c_app_store_probe_interval_secs := 15;
  c_app_store_probe_timeout_ms := 2000
|}.

(** ** Reading the environment *)

(** Why the process ends at start-up. *)
Inductive ConfigError : Type :=
| Unparsable (name raw type_name : string)
| ProbeIntervalZero
| ProbeTimeoutZero
| BurstBelowSubscriptions (burst subscriptions : Z)
| EventsBelowBatch (events batch : Z).

Inductive Width : Type := U16 | U32 | U64 | USIZE.

Definition width_max (w : Width) : Z :=
  match w with U16 => 2 ^ 16 - 1 | U32 => 2 ^ 32 - 1 | U64 | USIZE => 2 ^ 64 - 1 end.

Definition type_name (w : Width) : string :=
  match w with U16 => "u16" | U32 => "u32" | U64 => "u64" | USIZE => "usize" end.

(** [try_env_parse]: unset leaves the slot, unparsable is an error. *)
Definition try_env_parse {T} (parse : string → option T) (ty : string) (env : string → option string)
    (name : string) (slot : T) : result T ConfigError :=
  match env name with
  | None => Ok slot
  | Some raw => ok_or (parse raw) (Unparsable name raw ty)
  end.

Definition env_uint (w : Width) := try_env_parse (Str.parse_uint (width_max w)) (type_name w).
Definition env_f64 := try_env_parse F64Parse.parse "f64".

Definition env_string (env : string → option string) (name slot : string) : string :=
  default slot (env name).

(** An empty value counts as unset. *)
Definition env_nonempty (env : string → option string) (name : string) (slot : option string) : option string :=
  match env name with
  | Some v => if Str.is_empty v then slot else Some v
  | None => slot
  end.

Definition truthy (v : string) : bool := bool_decide (v = "1") || eq_ignore_ascii_case v "true".

Definition env_flag (env : string → option string) (name : string) (slot : bool) : bool :=
  match env name with Some v => truthy v | None => slot end.

Section from_env.
Context `{UnicodeCase}.

Definition env_unless_off (env : string → option string) (name : string) (slot : bool) : bool :=
  match env name with
  | Some v =>
      bool_decide (v ≠ "0") && bool_decide (to_lowercase v ≠ "off") && bool_decide (to_lowercase v ≠ "false")
  | None => slot
  end.

Definition with_frames_burst (burst : Z) (c : ServerConfig) : ServerConfig :=
    mkServerConfig (c_bind c) (c_port c) (c_activity_timeout c) (c_pong_timeout c) (c_max_conn_lifetime_secs c)
    (c_max_head_bytes c) (c_handshake_timeout_ms c) (c_strict_protocol c) (c_apps_path c)
    (c_max_presence_members c) (c_max_event_payload_bytes c) (c_max_channels_per_publish c)
    (c_rest_auth_window_secs c) (c_max_batch_events c) (c_cache_ttl_secs c) (c_max_watchlist_size c)
    (c_webhook_batch_ms c) (c_webhook_timeout_ms c) (c_webhook_backoff_base_ms c) (c_webhook_backoff_cap_ms c)
    (c_webhook_retry_budget_ms c) (c_webhook_max_concurrency c) (c_webhook_allow_private_targets c)
    (c_max_channel_name_length c) (c_max_event_name_length c) (c_max_client_events_per_second c)
    (c_max_frames_per_second c) burst (c_max_accepts_per_second c) (c_max_rest_requests_per_second c)
    (c_max_backend_events_per_second c) (c_max_read_requests_per_second c) (c_max_presence_user_id_length c)
    (c_max_presence_user_info_bytes c) (c_max_subscriptions_per_connection c) (c_adapter c) (c_redis_url c)
    (c_redis_prefix c) (c_redis_pool_size c) (c_redis_membership_ttl_secs c) (c_redis_presence_heartbeat_secs c)
    (c_redis_node_heartbeat_secs c) (c_redis_sweep_interval_secs c) (c_webhook_vacated_grace_ms c)
    (c_redis_sharded_pubsub c) (c_cluster_envelope_compat c) (c_workers c) (c_memory_budget_bytes c)
    (c_memory_budget_fraction c) (c_expected_conns_per_worker c) (c_perconn_queue_min_bytes c)
    (c_perconn_queue_max_bytes c) (c_broadcast_handoff_cap c) (c_codel_target_ms c) (c_codel_interval_ms c)
    (c_psi_backstop c) (c_psi_threshold c) (c_shutdown_grace_ms c) (c_shutdown_predrain_ms c) (c_max_connections
    c) (c_expected_per_conn_bytes c) (c_tls_cert_path c) (c_tls_key_path c) (c_tls_ca_path c)
    (c_mailbox_capacity c) (c_app_manager c) (c_app_dsn c) (c_app_cache c) (c_app_cache_max c) (c_app_cache_ttl
    c) (c_app_cache_neg_max c) (c_app_cache_neg_ttl c) (c_app_cache_redis_url c) (c_app_admin_token c)
    (c_metrics_token c) (c_app_sweep_interval_secs c) (c_app_store_probe_interval_secs c)
    (c_app_store_probe_timeout_ms c).

(** The checks across settings, last. *)
Definition from_env_guards (env : string → option string) (c : ServerConfig)
    : result ServerConfig ConfigError :=
  let subs := c_max_subscriptions_per_connection c in
  let burst_was_set := bool_decide (is_Some (env "PYLON_MAX_FRAMES_BURST")) in
  let c :=
    if negb burst_was_set && (0 <? subs)%Z then
      let subscribe_storm := Z.min (U64.saturating_add subs 50) U32_MAX in
      with_frames_burst (Z.max (c_max_frames_burst c) subscribe_storm) c
    else c in
  let burst := c_max_frames_burst c in
  if burst_was_set && (0 <? burst)%Z && (0 <? subs)%Z && (burst <? subs)%Z
  then Err (BurstBelowSubscriptions burst subs)
  else
    let events := c_max_backend_events_per_second c in
    if (0 <? events)%Z && (events <? c_max_batch_events c)%Z
    then Err (EventsBelowBatch events (c_max_batch_events c))
    else Ok c.

Definition from_env (env : string → option string) : result ServerConfig ConfigError :=
  let d := ServerConfig_default in
  let bind := env_string env "PYLON_BIND" (c_bind d) in
  let? port := env_uint U16 env "PYLON_PORT" (c_port d) in
  let? activity_timeout := env_uint U32 env "PYLON_ACTIVITY_TIMEOUT" (c_activity_timeout d) in
  let? pong_timeout := env_uint U32 env "PYLON_PONG_TIMEOUT" (c_pong_timeout d) in
  let? max_conn_lifetime_secs := env_uint U64 env "PYLON_MAX_CONN_LIFETIME_SECS" (c_max_conn_lifetime_secs d) in
  let? max_head_bytes := env_uint USIZE env "PYLON_MAX_HEAD_BYTES" (c_max_head_bytes d) in
  let? handshake_timeout_ms := env_uint U64 env "PYLON_HANDSHAKE_TIMEOUT_MS" (c_handshake_timeout_ms d) in
  let strict_protocol := env_flag env "PYLON_STRICT_PROTOCOL" (c_strict_protocol d) in
  let apps_path := env_string env "PYLON_APPS_PATH" (c_apps_path d) in
  let app_manager := parse_app_manager (env "PYLON_APP_MANAGER") in
  let app_dsn := env "PYLON_APP_DSN" in
  let app_cache := env_unless_off env "PYLON_APP_CACHE" (c_app_cache d) in
  let? app_cache_max := env_uint U64 env "PYLON_APP_CACHE_MAX" (c_app_cache_max d) in
  let? app_cache_ttl := env_uint U64 env "PYLON_APP_CACHE_TTL" (c_app_cache_ttl d) in
  let? app_cache_neg_max := env_uint U64 env "PYLON_APP_CACHE_NEG_MAX" (c_app_cache_neg_max d) in
  let? app_cache_neg_ttl := env_uint U64 env "PYLON_APP_CACHE_NEG_TTL" (c_app_cache_neg_ttl d) in
  let app_cache_redis_url := env "PYLON_APP_CACHE_REDIS_URL" in
  let app_admin_token := env "PYLON_ADMIN_TOKEN" in
  let metrics_token := env_nonempty env "PYLON_METRICS_TOKEN" (c_metrics_token d) in
  let? app_sweep_interval_secs := env_uint U64 env "PYLON_APP_SWEEP_INTERVAL" (c_app_sweep_interval_secs d) in
  let? app_store_probe_interval_secs := env_uint U64 env "PYLON_APP_STORE_PROBE_INTERVAL_SECS" (c_app_store_probe_interval_secs d) in
  let? app_store_probe_timeout_ms := env_uint U64 env "PYLON_APP_STORE_PROBE_TIMEOUT_MS" (c_app_store_probe_timeout_ms d) in
  if (app_store_probe_interval_secs =? 0)%Z then Err ProbeIntervalZero
  else if (app_store_probe_timeout_ms =? 0)%Z then Err ProbeTimeoutZero
  else
  let? max_presence_members := env_uint USIZE env "PYLON_MAX_PRESENCE_MEMBERS" (c_max_presence_members d) in
  let? max_event_payload_bytes := env_uint USIZE env "PYLON_MAX_EVENT_PAYLOAD_BYTES" (c_max_event_payload_bytes d) in
  let? max_channels_per_publish := env_uint USIZE env "PYLON_MAX_CHANNELS_PER_PUBLISH" (c_max_channels_per_publish d) in
  let? rest_auth_window_secs := env_uint U64 env "PYLON_REST_AUTH_WINDOW_SECS" (c_rest_auth_window_secs d) in
  let? max_batch_events := env_uint USIZE env "PYLON_MAX_BATCH_EVENTS" (c_max_batch_events d) in
  let? cache_ttl_secs := env_uint U64 env "PYLON_CACHE_TTL_SECS" (c_cache_ttl_secs d) in
  let? max_watchlist_size := env_uint USIZE env "PYLON_MAX_WATCHLIST_SIZE" (c_max_watchlist_size d) in
  let? webhook_batch_ms := env_uint U64 env "PYLON_WEBHOOK_BATCH_MS" (c_webhook_batch_ms d) in
  let? webhook_timeout_ms := env_uint U64 env "PYLON_WEBHOOK_TIMEOUT_MS" (c_webhook_timeout_ms d) in
  let? webhook_backoff_base_ms := env_uint U64 env "PYLON_WEBHOOK_BACKOFF_BASE_MS" (c_webhook_backoff_base_ms d) in
  let? webhook_backoff_cap_ms := env_uint U64 env "PYLON_WEBHOOK_BACKOFF_CAP_MS" (c_webhook_backoff_cap_ms d) in
  let? webhook_retry_budget_ms := env_uint U64 env "PYLON_WEBHOOK_RETRY_BUDGET_MS" (c_webhook_retry_budget_ms d) in
  let? webhook_max_concurrency := env_uint USIZE env "PYLON_WEBHOOK_MAX_CONCURRENCY" (c_webhook_max_concurrency d) in
  let webhook_allow_private_targets := env_flag env "PYLON_WEBHOOK_ALLOW_PRIVATE_TARGETS" (c_webhook_allow_private_targets d) in
  let? max_channel_name_length := env_uint USIZE env "PYLON_MAX_CHANNEL_NAME_LENGTH" (c_max_channel_name_length d) in
  let? max_event_name_length := env_uint USIZE env "PYLON_MAX_EVENT_NAME_LENGTH" (c_max_event_name_length d) in
  let? max_client_events_per_second := env_uint U32 env "PYLON_MAX_CLIENT_EVENTS_PER_SECOND" (c_max_client_events_per_second d) in
  let? max_frames_per_second := env_uint U32 env "PYLON_MAX_FRAMES_PER_SECOND" (c_max_frames_per_second d) in
  let? max_frames_burst := env_uint U32 env "PYLON_MAX_FRAMES_BURST" (c_max_frames_burst d) in
  let? max_accepts_per_second := env_uint U32 env "PYLON_MAX_ACCEPTS_PER_SECOND" (c_max_accepts_per_second d) in
  let? max_rest_requests_per_second := env_uint U32 env "PYLON_MAX_REST_REQUESTS_PER_SECOND" (c_max_rest_requests_per_second d) in
  let? max_backend_events_per_second := env_uint U32 env "PYLON_MAX_BACKEND_EVENTS_PER_SECOND" (c_max_backend_events_per_second d) in
  let? max_read_requests_per_second := env_uint U32 env "PYLON_MAX_READ_REQUESTS_PER_SECOND" (c_max_read_requests_per_second d) in
  let? max_presence_user_id_length := env_uint USIZE env "PYLON_MAX_PRESENCE_USER_ID_LENGTH" (c_max_presence_user_id_length d) in
  let? max_presence_user_info_bytes := env_uint USIZE env "PYLON_MAX_PRESENCE_USER_INFO_BYTES" (c_max_presence_user_info_bytes d) in
  let? max_subscriptions_per_connection := env_uint USIZE env "PYLON_MAX_SUBSCRIPTIONS_PER_CONNECTION" (c_max_subscriptions_per_connection d) in
  let adapter := env_string env "PYLON_ADAPTER" (c_adapter d) in
  let redis_url := env_string env "PYLON_REDIS_URL" (c_redis_url d) in
  let redis_prefix := env_string env "PYLON_REDIS_PREFIX" (c_redis_prefix d) in
  let? redis_pool_size := env_uint U32 env "PYLON_REDIS_POOL_SIZE" (c_redis_pool_size d) in
  let? redis_membership_ttl_secs := env_uint U64 env "PYLON_REDIS_MEMBERSHIP_TTL" (c_redis_membership_ttl_secs d) in
  let? redis_presence_heartbeat_secs := env_uint U64 env "PYLON_REDIS_PRESENCE_HEARTBEAT" (c_redis_presence_heartbeat_secs d) in
  let? redis_node_heartbeat_secs := env_uint U64 env "PYLON_REDIS_NODE_HEARTBEAT" (c_redis_node_heartbeat_secs d) in
  let? redis_sweep_interval_secs := env_uint U64 env "PYLON_REDIS_SWEEP_INTERVAL" (c_redis_sweep_interval_secs d) in
  let? webhook_vacated_grace_ms := env_uint U64 env "PYLON_WEBHOOK_VACATED_GRACE_MS" (c_webhook_vacated_grace_ms d) in
  let redis_sharded_pubsub := env_flag env "PYLON_REDIS_SHARDED_PUBSUB" (c_redis_sharded_pubsub d) in
  let cluster_envelope_compat := env_unless_off env "PYLON_CLUSTER_ENVELOPE_COMPAT" (c_cluster_envelope_compat d) in
  let? workers := env_uint USIZE env "PYLON_WORKERS" (c_workers d) in
  let? memory_budget_bytes := env_uint U64 env "PYLON_MEMORY_BUDGET_BYTES" (c_memory_budget_bytes d) in
  let? memory_budget_fraction := env_f64 env "PYLON_MEMORY_BUDGET_FRACTION" (c_memory_budget_fraction d) in
  let? expected_conns_per_worker := env_uint U64 env "PYLON_EXPECTED_CONNS_PER_WORKER" (c_expected_conns_per_worker d) in
  let? perconn_queue_min_bytes := env_uint U64 env "PYLON_PERCONN_QUEUE_MIN_BYTES" (c_perconn_queue_min_bytes d) in
  let? perconn_queue_max_bytes := env_uint U64 env "PYLON_PERCONN_QUEUE_MAX_BYTES" (c_perconn_queue_max_bytes d) in
  let? broadcast_handoff_cap := env_uint USIZE env "PYLON_BROADCAST_HANDOFF_CAP" (c_broadcast_handoff_cap d) in
  let? codel_target_ms := env_uint U64 env "PYLON_CODEL_TARGET_MS" (c_codel_target_ms d) in
  let? codel_interval_ms := env_uint U64 env "PYLON_CODEL_INTERVAL_MS" (c_codel_interval_ms d) in
  let psi_backstop := match env "PYLON_PSI_BACKSTOP" with Some v => Some (truthy v) | None => c_psi_backstop d end in
  let? psi_threshold := env_f64 env "PYLON_PSI_THRESHOLD" (c_psi_threshold d) in
  let? shutdown_grace_ms := env_uint U64 env "PYLON_SHUTDOWN_GRACE_MS" (c_shutdown_grace_ms d) in
  let? shutdown_predrain_ms := env_uint U64 env "PYLON_SHUTDOWN_PREDRAIN_MS" (c_shutdown_predrain_ms d) in
  let tls_cert_path := env_nonempty env "PYLON_TLS_CERT" (c_tls_cert_path d) in
  let tls_key_path := env_nonempty env "PYLON_TLS_KEY" (c_tls_key_path d) in
  let tls_ca_path := env_nonempty env "PYLON_TLS_CA" (c_tls_ca_path d) in
  let? max_connections := env_uint USIZE env "PYLON_MAX_CONNECTIONS" (c_max_connections d) in
  let? expected_per_conn_bytes := env_uint USIZE env "PYLON_EXPECTED_PER_CONN_BYTES" (c_expected_per_conn_bytes d) in
  let? mailbox_capacity := env_uint USIZE env "PYLON_MAILBOX_CAPACITY" (c_mailbox_capacity d) in
  let mailbox_capacity := if (0 <? mailbox_capacity)%Z then mailbox_capacity else c_mailbox_capacity d in
    from_env_guards env (mkServerConfig bind port activity_timeout pong_timeout max_conn_lifetime_secs
    max_head_bytes handshake_timeout_ms strict_protocol apps_path max_presence_members max_event_payload_bytes
    max_channels_per_publish rest_auth_window_secs max_batch_events cache_ttl_secs max_watchlist_size
    webhook_batch_ms webhook_timeout_ms webhook_backoff_base_ms webhook_backoff_cap_ms webhook_retry_budget_ms
    webhook_max_concurrency webhook_allow_private_targets max_channel_name_length max_event_name_length
    max_client_events_per_second max_frames_per_second max_frames_burst max_accepts_per_second
    max_rest_requests_per_second max_backend_events_per_second max_read_requests_per_second
    max_presence_user_id_length max_presence_user_info_bytes max_subscriptions_per_connection adapter
    redis_url redis_prefix redis_pool_size redis_membership_ttl_secs redis_presence_heartbeat_secs
    redis_node_heartbeat_secs redis_sweep_interval_secs webhook_vacated_grace_ms redis_sharded_pubsub
    cluster_envelope_compat workers memory_budget_bytes memory_budget_fraction expected_conns_per_worker
    perconn_queue_min_bytes perconn_queue_max_bytes broadcast_handoff_cap codel_target_ms codel_interval_ms
    psi_backstop psi_threshold shutdown_grace_ms shutdown_predrain_ms max_connections expected_per_conn_bytes
    tls_cert_path tls_key_path tls_ca_path mailbox_capacity app_manager app_dsn app_cache app_cache_max
    app_cache_ttl app_cache_neg_max app_cache_neg_ttl app_cache_redis_url app_admin_token metrics_token
    app_sweep_interval_secs app_store_probe_interval_secs app_store_probe_timeout_ms).
End from_env.

(** ** Host resources *)

Definition effective_cores_from_cpu_max (s : string) : option Z :=
  match split_whitespace s with
  | [] => None
  | quota :: rest =>
      if decide (quota = "max") then None
      else
        q ← Str.parse_uint U64.MAX quota;
        p ← Str.parse_uint U64.MAX (default "100000" (head rest));
        if (p =? 0)%Z then None else Some (Z.max ((q + (p - 1)) / p) 1)
  end.

Definition mem_limit_v2 (s : string) : option Z :=
  if decide (str_trim s = "max") then None else Str.parse_uint U64.MAX (str_trim s).

Definition mem_limit_v1 (s : string) : option Z :=
  v ← Str.parse_uint U64.MAX (str_trim s);
  if (2 ^ 62 <=? v)%Z then None else Some v.

(** The product is computed modulo 2^64. *)
Definition memory_budget (effective_mem : Z) : Z :=
  let reserve :=
    Z.min (Z.max (Z.shiftl 1536 20) ((effective_mem * 7) mod 2 ^ 64 / 100)) (effective_mem / 2) in
  U64.saturating_sub effective_mem reserve.

Definition per_conn_cap (per_worker_budget expected_conns : Z) : Z :=
  Z.min (Z.max (per_worker_budget / Z.max expected_conns 1) (Z.shiftl 256 10)) (Z.shiftl 8 20).

Definition psi_full_avg10 (s : string) : option f64 :=
  let avg10 (field : string) : option string := Str.strip_prefix "avg10=" field in
  let full (line : string) : option string :=
    rest ← Str.strip_prefix "full " (str_trim_start line);
    head (omap avg10 (split_whitespace rest)) in
  v ← head (omap full (lines s));
  F64Parse.parse v.

Definition PSI_CGROUP_V2 : string := "/sys/fs/cgroup/memory.pressure".
Definition PSI_HOST : string := "/proc/pressure/memory".

Definition pick_psi_path (cgroup_v2_exists host_exists : bool) : option string :=
  if cgroup_v2_exists then Some PSI_CGROUP_V2 else if host_exists then Some PSI_HOST else None.

(** What the detectors see of the file system: which paths exist, and the
    contents of those that can be read. *)
Definition Files : Type := string → option (option string).

Definition exists_file (fs : Files) (path : string) : bool := bool_decide (is_Some (fs path)).
Definition read_to_string (fs : Files) (path : string) : option string := fs path ≫= id.

Definition psi_pressure_path (fs : Files) : option string :=
  pick_psi_path (exists_file fs PSI_CGROUP_V2) (exists_file fs PSI_HOST).

(** The first line of the total decides. *)
Fixpoint memtotal_in (ls : list string) : option Z :=
  match ls with
  | [] => None
  | line :: ls =>
      match Str.strip_prefix "MemTotal:" line with
      | Some rest =>
          kb ← head (split_whitespace rest) ≫= Str.parse_uint U64.MAX;
          Some ((kb * 1024) mod 2 ^ 64)%Z
      | None => memtotal_in ls
      end
  end.

Definition meminfo_memtotal (s : string) : option Z := memtotal_in (lines s).

Definition cgroup_mem_limit (fs : Files) (root : string) : option Z :=
  if exists_file fs (root +:+ "/cgroup.controllers") then
    let max := read_to_string fs (root +:+ "/memory.max") ≫= mem_limit_v2 in
    let high := read_to_string fs (root +:+ "/memory.high") ≫= mem_limit_v2 in
    match max, high with
    | Some a, Some b => Some (Z.min a b)
    | Some a, None => Some a
    | None, Some b => Some b
    | None, None => None
    end
  else read_to_string fs (root +:+ "/memory/memory.limit_in_bytes") ≫= mem_limit_v1.

Definition detect_effective_mem (fs : Files) : Z :=
  let host := default (Z.shiftl 1 30) (read_to_string fs "/proc/meminfo" ≫= meminfo_memtotal) in
  match cgroup_mem_limit fs "/sys/fs/cgroup" with
  | Some cg => Z.min host cg
  | None => host
  end.

(** ** Derived settings *)

Definition codel_params (c : ServerConfig) : CodelParams :=
  mkCodelParams (U64.saturating_mul (c_codel_target_ms c) 1000000)
    (U64.saturating_mul (Z.max (c_codel_interval_ms c) 1) 1000000).

Definition resolved_memory_budget (c : ServerConfig) (effective_mem : Z) : Z :=
  if negb (c_memory_budget_bytes c =? 0)%Z then c_memory_budget_bytes c
  else if F64.lt (F64.of_uint 0) (c_memory_budget_fraction c) then
    F64.as_uint U64.MAX F64.floor_pos (F64.mul (F64.of_uint effective_mem) (c_memory_budget_fraction c))
  else memory_budget effective_mem.

(** [available_parallelism] is what the system reports, if it does. *)
Definition worker_count (c : ServerConfig) (available_parallelism : option Z) : Z :=
  if (c_workers c =? 0)%Z then default 1%Z available_parallelism else c_workers c.

Definition resolved_max_connections (c : ServerConfig) (budget : Z) : Z :=
  if negb (c_max_connections c =? 0)%Z then c_max_connections c
  else if negb (budget =? 0)%Z && negb (c_expected_per_conn_bytes c =? 0)%Z
  then (budget / c_expected_per_conn_bytes c)%Z
  else 0%Z.

Definition config_limits (c : ServerConfig) : Limits :=
  mkLimits (Z.to_nat (c_max_presence_members c)) (Z.to_nat (c_max_event_payload_bytes c))
    (Z.to_nat (c_max_watchlist_size c)) (Z.to_nat (c_max_channel_name_length c))
    (Z.to_nat (c_max_event_name_length c)) (c_max_client_events_per_second c)
    (Z.to_nat (c_max_presence_user_id_length c)) (Z.to_nat (c_max_presence_user_info_bytes c))
    (Z.to_nat (c_max_subscriptions_per_connection c)).

(** ** Properties *)

Lemma digits_range max s : ∀ acc x, (0 <= acc)%Z → Str.digits max acc s = Some x → acc = x ∨ (0 <= x <= max)%Z.
Proof.
  induction s as [|ch s IH]; intros acc x Hacc; simpl; [intros [= ->]; by left|].
  destruct (Str.is_ascii_digit ch) eqn:Hd; [|done]. case_match eqn:Hle; [|done]. intros Hs.
  assert (0 <= u8_of_ascii ch - 48)%Z as Hpos by (unfold Str.is_ascii_digit in Hd; apply andb_true_iff in Hd as [?%Z.leb_le _]; lia).
  apply Z.leb_le in Hle. right. apply IH in Hs as [<-|]; lia.
Qed.

Lemma parse_uint_range max s x : (0 <= max)%Z → Str.parse_uint max s = Some x → (0 <= x <= max)%Z.
Proof.
  intros Hmax Hs. assert (∃ t, Str.digits max 0 t = Some x) as [t Ht].
  { destruct s as [|ch s]; [done|]. revert Hs. cbn [Str.parse_uint].
    repeat case_match; try done; intros; by eexists. }
  destruct (digits_range max t 0 x ltac:(lia) Ht) as [<-|]; lia.
Qed.

Lemma env_uint_range w env name d x :
  (0 <= d <= width_max w)%Z → env_uint w env name d = Ok x → (0 <= x <= width_max w)%Z.
Proof.
  intros Hd. unfold env_uint, try_env_parse. destruct (env name) as [raw|]; [|intros [= <-]; done].
  destruct (Str.parse_uint (width_max w) raw) as [y|] eqn:Hp; simpl; [|done]. intros [= <-].
  apply (parse_uint_range _ raw); [by destruct w|done].
Qed.

(** The settings that are numbers, with the width and the variable of each; the
    frame burst and the mailbox capacity are adjusted after they are read. *)
Definition uint_settings : list (Width * string * (ServerConfig → Z)) :=
  [(U16, "PYLON_PORT", c_port);
   (U32, "PYLON_ACTIVITY_TIMEOUT", c_activity_timeout);
   (U32, "PYLON_PONG_TIMEOUT", c_pong_timeout);
   (U64, "PYLON_MAX_CONN_LIFETIME_SECS", c_max_conn_lifetime_secs);
   (USIZE, "PYLON_MAX_HEAD_BYTES", c_max_head_bytes);
   (U64, "PYLON_HANDSHAKE_TIMEOUT_MS", c_handshake_timeout_ms);
   (U64, "PYLON_APP_CACHE_MAX", c_app_cache_max);
   (U64, "PYLON_APP_CACHE_TTL", c_app_cache_ttl);
   (U64, "PYLON_APP_CACHE_NEG_MAX", c_app_cache_neg_max);
   (U64, "PYLON_APP_CACHE_NEG_TTL", c_app_cache_neg_ttl);
   (U64, "PYLON_APP_SWEEP_INTERVAL", c_app_sweep_interval_secs);
   (U64, "PYLON_APP_STORE_PROBE_INTERVAL_SECS", c_app_store_probe_interval_secs);
   (U64, "PYLON_APP_STORE_PROBE_TIMEOUT_MS", c_app_store_probe_timeout_ms);
   (USIZE, "PYLON_MAX_PRESENCE_MEMBERS", c_max_presence_members);
   (USIZE, "PYLON_MAX_EVENT_PAYLOAD_BYTES", c_max_event_payload_bytes);
   (USIZE, "PYLON_MAX_CHANNELS_PER_PUBLISH", c_max_channels_per_publish);
   (U64, "PYLON_REST_AUTH_WINDOW_SECS", c_rest_auth_window_secs);
   (USIZE, "PYLON_MAX_BATCH_EVENTS", c_max_batch_events);
   (U64, "PYLON_CACHE_TTL_SECS", c_cache_ttl_secs);
   (USIZE, "PYLON_MAX_WATCHLIST_SIZE", c_max_watchlist_size);
   (U64, "PYLON_WEBHOOK_BATCH_MS", c_webhook_batch_ms);
   (U64, "PYLON_WEBHOOK_TIMEOUT_MS", c_webhook_timeout_ms);
   (U64, "PYLON_WEBHOOK_BACKOFF_BASE_MS", c_webhook_backoff_base_ms);
   (U64, "PYLON_WEBHOOK_BACKOFF_CAP_MS", c_webhook_backoff_cap_ms);
   (U64, "PYLON_WEBHOOK_RETRY_BUDGET_MS", c_webhook_retry_budget_ms);
   (USIZE, "PYLON_WEBHOOK_MAX_CONCURRENCY", c_webhook_max_concurrency);
   (USIZE, "PYLON_MAX_CHANNEL_NAME_LENGTH", c_max_channel_name_length);
   (USIZE, "PYLON_MAX_EVENT_NAME_LENGTH", c_max_event_name_length);
   (U32, "PYLON_MAX_CLIENT_EVENTS_PER_SECOND", c_max_client_events_per_second);
   (U32, "PYLON_MAX_FRAMES_PER_SECOND", c_max_frames_per_second);
   (U32, "PYLON_MAX_ACCEPTS_PER_SECOND", c_max_accepts_per_second);
   (U32, "PYLON_MAX_REST_REQUESTS_PER_SECOND", c_max_rest_requests_per_second);
   (U32, "PYLON_MAX_BACKEND_EVENTS_PER_SECOND", c_max_backend_events_per_second);
   (U32, "PYLON_MAX_READ_REQUESTS_PER_SECOND", c_max_read_requests_per_second);
   (USIZE, "PYLON_MAX_PRESENCE_USER_ID_LENGTH", c_max_presence_user_id_length);
   (USIZE, "PYLON_MAX_PRESENCE_USER_INFO_BYTES", c_max_presence_user_info_bytes);
   (USIZE, "PYLON_MAX_SUBSCRIPTIONS_PER_CONNECTION", c_max_subscriptions_per_connection);
   (U32, "PYLON_REDIS_POOL_SIZE", c_redis_pool_size);
   (U64, "PYLON_REDIS_MEMBERSHIP_TTL", c_redis_membership_ttl_secs);
   (U64, "PYLON_REDIS_PRESENCE_HEARTBEAT", c_redis_presence_heartbeat_secs);
   (U64, "PYLON_REDIS_NODE_HEARTBEAT", c_redis_node_heartbeat_secs);
   (U64, "PYLON_REDIS_SWEEP_INTERVAL", c_redis_sweep_interval_secs);
   (U64, "PYLON_WEBHOOK_VACATED_GRACE_MS", c_webhook_vacated_grace_ms);
   (USIZE, "PYLON_WORKERS", c_workers);
   (U64, "PYLON_MEMORY_BUDGET_BYTES", c_memory_budget_bytes);
   (U64, "PYLON_EXPECTED_CONNS_PER_WORKER", c_expected_conns_per_worker);
   (U64, "PYLON_PERCONN_QUEUE_MIN_BYTES", c_perconn_queue_min_bytes);
   (U64, "PYLON_PERCONN_QUEUE_MAX_BYTES", c_perconn_queue_max_bytes);
   (USIZE, "PYLON_BROADCAST_HANDOFF_CAP", c_broadcast_handoff_cap);
   (U64, "PYLON_CODEL_TARGET_MS", c_codel_target_ms);
   (U64, "PYLON_CODEL_INTERVAL_MS", c_codel_interval_ms);
   (U64, "PYLON_SHUTDOWN_GRACE_MS", c_shutdown_grace_ms);
   (U64, "PYLON_SHUTDOWN_PREDRAIN_MS", c_shutdown_predrain_ms);
   (USIZE, "PYLON_MAX_CONNECTIONS", c_max_connections);
   (USIZE, "PYLON_EXPECTED_PER_CONN_BYTES", c_expected_per_conn_bytes)].

(** The settings of a configuration that was accepted, within the widths of
    their types and against each other. *)
Record config_ok (c : ServerConfig) : Prop := mkConfigOk {
  ok_widths : Forall (λ '(w, _, f), 0 <= f c <= width_max w)%Z uint_settings;
  ok_burst_width : (0 <= c_max_frames_burst c <= width_max U32)%Z;
  ok_mailbox : (1 <= c_mailbox_capacity c <= width_max USIZE)%Z;
  ok_probe : (1 <= c_app_store_probe_interval_secs c)%Z ∧ (1 <= c_app_store_probe_timeout_ms c)%Z;
  ok_burst : (0 < c_max_frames_burst c)%Z →
    (Z.min (c_max_subscriptions_per_connection c) U32_MAX <= c_max_frames_burst c)%Z;
  ok_batch : (0 < c_max_backend_events_per_second c)%Z →
    (c_max_batch_events c <= c_max_backend_events_per_second c)%Z
}.

(** A setting is its variable's value, or the default when it is unset. *)
Definition as_set (env : string → option string) (c : ServerConfig) : Prop :=
  Forall (λ '(w, name, f), env_uint w env name (f ServerConfig_default) = Ok (f c)) uint_settings.

Section soundness.
Context `{UnicodeCase}.

Lemma from_env_guards_ok env c c' : from_env_guards env c = Ok c' →
  (0 <= c_max_frames_burst c <= U32_MAX)%Z → (0 <= c_max_subscriptions_per_connection c <= U64.MAX)%Z →
  ∃ burst, c' = with_frames_burst burst c ∧ (0 <= burst <= U32_MAX)%Z ∧
    ((0 < burst)%Z → (Z.min (c_max_subscriptions_per_connection c) U32_MAX <= burst)%Z) ∧
    ((0 < c_max_backend_events_per_second c)%Z →
      (c_max_batch_events c <= c_max_backend_events_per_second c)%Z).
Proof.
  unfold from_env_guards. intros Hg Hb Hs.
  set (subs := c_max_subscriptions_per_connection c) in *.
  assert (with_frames_burst (c_max_frames_burst c) c = c) as Hid by (by destruct c).
  destruct (bool_decide (is_Some (env "PYLON_MAX_FRAMES_BURST"))) eqn:Eset; simpl in Hg.
  - destruct (_ && _ && _) eqn:E1 in Hg; [done|]. destruct (_ && _) eqn:E2 in Hg; [done|].
    injection Hg as <-. exists (c_max_frames_burst c). rewrite Hid. split_and!; [done|lia|lia|..].
    + intros Hpos. rewrite !andb_false_iff, !Z.ltb_ge in E1. lia.
    + intros Hpos. rewrite andb_false_iff, !Z.ltb_ge in E2. lia.
  - destruct (0 <? subs)%Z eqn:E0; simpl in Hg.
    + destruct (_ && _) eqn:E2 in Hg; [done|]. injection Hg as <-. eexists. split; [reflexivity|].
      unfold U64.saturating_add in *. split_and!; [lia|lia|lia|].
      intros Hpos. rewrite andb_false_iff, !Z.ltb_ge in E2. simpl in E2. lia.
    + destruct (_ && _) eqn:E2 in Hg; [done|]. injection Hg as <-. exists (c_max_frames_burst c). rewrite Hid.
      apply Z.ltb_ge in E0. split_and!; [done|lia|lia|lia|].
      intros Hpos. rewrite andb_false_iff, !Z.ltb_ge in E2. lia.
Qed.

Ltac in_width :=
  match goal with
  | E : env_uint _ _ _ _ = Ok ?x |- (0 <= ?x <= _)%Z =>
      refine (env_uint_range _ _ _ _ _ _ E); cbn; lia
  end.

Lemma as_set_widths env c : as_set env c → Forall (λ '(w, _, f), 0 <= f c <= width_max w)%Z uint_settings.
Proof.
  assert (Forall (λ '(w, _, f), 0 <= f ServerConfig_default <= width_max w)%Z uint_settings) as Hd
    by (unfold uint_settings; repeat (apply List.Forall_cons; [vm_compute; split; discriminate|]); constructor).
  unfold as_set. rewrite !Forall_forall. rewrite Forall_forall in Hd. intros Hs [[w name] f] Hin.
  exact (env_uint_range _ _ _ _ _ (Hd _ Hin) (Hs _ Hin)).
Qed.

Lemma from_env_sound env c :
  from_env env = Ok c → as_set env c ∧ config_ok c ∧ c_app_admin_token c = env "PYLON_ADMIN_TOKEN".
Proof.
  unfold from_env. intros Hc. cbn [ServerConfig_default] in Hc.
  repeat match type of Hc with
  | match ?e with Ok _ => _ | Err _ => _ end = _ => destruct e eqn:?; [|discriminate Hc]
  | (if ?b then Err _ else _) = _ => destruct b eqn:?; [discriminate Hc|]
  end.
  apply from_env_guards_ok in Hc; [|simpl; in_width..].
  destruct Hc as (burst & -> & Hb & Hstorm & Hbatch).
  match goal with |- as_set env ?c ∧ _ => assert (as_set env c) as Hset end.
  { unfold as_set, uint_settings. repeat (apply List.Forall_cons; [assumption|]). constructor. }
  split; [done|]. split; [|done]. pose proof (as_set_widths _ _ Hset) as Hw. clear Hset.
  split; [exact Hw| | |clear Hw..]; cbn in *; try done.
  - match goal with |- context [Z.ltb ?a ?b] => destruct (Z.ltb_spec a b) end; [|lia].
    match goal with H : env_uint USIZE _ "PYLON_MAILBOX_CAPACITY" _ = Ok _ |- _ => apply env_uint_range in H; cbn in *; lia end.
  - apply env_uint_range in Heqr10; [|cbn; lia]. apply env_uint_range in Heqr11; [|cbn; lia]. to_prop. lia.
Qed.

(** The token of the admin endpoint is the variable as it is. *)
Lemma from_env_admin_token env c : from_env env = Ok c → c_app_admin_token c = env "PYLON_ADMIN_TOKEN".
Proof. apply from_env_sound. Qed.

End soundness.

(** Without settings in the environment the defaults are in force. *)
Lemma from_env_unset `{UnicodeCase} : from_env (λ _, None) = Ok ServerConfig_default.
Proof. reflexivity. Qed.

(** ** Budgets *)

(** The memory budget is at least half and at most all of the envelope, also
    where the product with 7 wraps around, so it is never 0 on a host that has
    memory; and the ceiling on connections derived from a budget fits in it. *)
Theorem memory_budget_proportionate (c : ServerConfig) (effective_mem : Z) :
  (0 <= effective_mem)%Z → (0 <= c_expected_per_conn_bytes c)%Z → c_max_connections c = 0%Z →
  let budget := memory_budget effective_mem in
  (effective_mem <= 2 * budget)%Z ∧ (budget <= effective_mem)%Z ∧ ((0 < effective_mem)%Z → (0 < budget)%Z) ∧
  (resolved_max_connections c budget * c_expected_per_conn_bytes c <= budget)%Z.
Proof.
  intros Hm Hp Hc budget. subst budget. unfold memory_budget, U64.saturating_sub.
  assert (0 <= effective_mem / 2 /\ 2 * (effective_mem / 2) <= effective_mem)%Z as [Hh1 Hh2].
  { split; [apply Z.div_pos; lia|apply Z.mul_div_le; lia]. }
  set (reserve := Z.min _ _). assert (0 <= reserve <= effective_mem / 2)%Z as Hr.
  { subst reserve. change (Z.shiftl 1536 20) with 1610612736%Z. lia. }
  split_and!; [lia..|]. unfold resolved_max_connections. rewrite Hc. simpl.
  destruct (_ && _) eqn:E; [|lia]. to_prop.
  rewrite Z.mul_comm. apply Z.mul_div_le. lia.
Qed.

Module ConfigDemo.
End ConfigDemo.


Lemma memory_budget_proportionate_witness :
  memory_budget (4 * 2 ^ 30) = 2684354560%Z ∧
  (4 * 2 ^ 30 <= 2 * memory_budget (4 * 2 ^ 30))%Z.
Proof.
  split; [vm_compute; reflexivity|].
  apply (memory_budget_proportionate ServerConfig_default (4 * 2 ^ 30)); [lia|simpl; lia|reflexivity].
Defined.
