(* ===== verification/RestLimits.v ===== *)
(** * Rate limits of the REST API: [src/src/http/rest/ratelimit.rs]

    One bucket for the node and one per app and kind of request, kept in two
    caches that drop what was idle or does not fit. A bucket is shared between
    the cache and the requests that hold it, so buckets live in a heap and the
    caches hold their addresses. The cache itself is a parameter. *)

From S2P Require Import Prelude RustStd App Rate Config.

Record RateHeaders : Type := mkRateHeaders {
  rh_limit : Z;
  rh_remaining : Z;
  rh_retry_after_secs : Z
}.

Inductive RateDecision : Type := Allowed | Limited (rate : RateHeaders).

Record RestRateLimitedCounts : Type := mkRestRateLimitedCounts {
  rc_node : Z;
  rc_app_events : Z;
  rc_app_reads : Z
}.

Definition BUCKET_IDLE : Z := 300 * 1000000000.
Definition BUCKET_CAPACITY : Z := 100000.

(** [moka::sync::Cache] with a capacity and a time to idle: a read at a time
    refreshes the entry it finds. *)
Class IdleCache : Type := {
  icache : Type;
  ic_new : Z → Z → icache;
  ic_get : string → Z → icache → icache * option nat;
  ic_insert : string → nat → Z → icache → icache
}.

(** Dropping an entry of a map of values and the times of their last use: only
    one that was idle, or one of more than fit. *)
Inductive evict {V} (cap idle now : Z) (m : gmap string (V * Z)) : gmap string (V * Z) → Prop :=
| evict_idle a v used : m !! a = Some (v, used) → (idle <= now - used)%Z → evict cap idle now m (delete a m)
| evict_crowded a : (cap < Z.of_nat (size m))%Z → evict cap idle now m (delete a m).

Definition evicts {V} (cap idle now : Z) : relation (gmap string (V * Z)) := rtc (evict cap idle now).

#[export] Instance evicts_preorder {V} cap idle now : PreOrder (@evicts V cap idle now).
Proof. unfold evicts. apply _. Qed.

(** An entry is what was last inserted under its key, until it was dropped: for
    not being used for the time to idle, or for lack of room. *)
Class IdleCacheLaws `{IdleCache} : Type := {
  ic_content : icache → gmap string (nat * Z);
  ic_limits : icache → Z * Z;
  ic_new_laws cap idle : ic_content (ic_new cap idle) = ∅ ∧ ic_limits (ic_new cap idle) = (cap, idle);
  ic_get_laws k t c : let '(cap, idle) := ic_limits c in
    ic_limits (ic_get k t c).1 = (cap, idle) ∧
    ∃ m, evicts cap idle t (ic_content c) m ∧ (ic_get k t c).2 = fst <$> m !! k ∧
      evicts cap idle t (alter (λ e, (e.1, t)) k m) (ic_content (ic_get k t c).1);
  ic_insert_laws k v t c : let '(cap, idle) := ic_limits c in
    ic_limits (ic_insert k v t c) = (cap, idle) ∧
    ∃ m, evicts cap idle t (ic_content c) m ∧
      evicts cap idle t (<[k := (v, t)]> m) (ic_content (ic_insert k v t c))
}.

Record RestRateLimits `{IdleCache} : Type := mkRestRateLimits {
  rl_origin : Z;
  rl_node_rate : Z;
  rl_node : TokenBucket;
  rl_default_events : Z;
  rl_default_reads : Z;
  rl_heap : gmap nat TokenBucket;
  rl_events : icache;
  rl_reads : icache;
  rl_limited_node : Z;
  rl_limited_app_events : Z;
  rl_limited_app_reads : Z
}.

(** Which of the two caches. *)
Inductive LimitKind : Type := Events | Reads.

#[export] Instance LimitKind_eq_dec : EqDecision LimitKind.
Proof. solve_decision. Defined.

Section limits.
Context `{IdleCache}.

Definition fresh_bucket (rate_per_second : Z) : TokenBucket := TokenBucket_new rate_per_second rate_per_second.

Definition bucket_cache : icache := ic_new BUCKET_CAPACITY BUCKET_IDLE.

Definition RestRateLimits_new (config : ServerConfig) (now : Z) : RestRateLimits :=
  mkRestRateLimits _ now (c_max_rest_requests_per_second config)
    (fresh_bucket (c_max_rest_requests_per_second config))
    (c_max_backend_events_per_second config) (c_max_read_requests_per_second config)
    ∅ bucket_cache bucket_cache 0 0 0.

(** The clock, in nanoseconds since the limits were made. *)
Definition limits_now_ns (now : Z) (l : RestRateLimits) : Z :=
  (U64.saturating_sub now (rl_origin l) mod 2 ^ 64)%Z.

Definition limits_decide (now_ns cost : Z) (b : TokenBucket) : TokenBucket * RateDecision :=
  let '(b, ok) := take_at_ns now_ns cost b in
  (b, if ok then Allowed
      else Limited (mkRateHeaders (tb_rate_per_second b) (remaining_at_ns now_ns b)
             (Z.max (retry_after_secs_at_ns now_ns cost b) 1))).

Definition is_limited (d : RateDecision) : bool := match d with Limited _ => true | Allowed => false end.

Definition cache_of (k : LimitKind) (l : RestRateLimits) : icache :=
  match k with Events => rl_events l | Reads => rl_reads l end.

Definition set_cache (k : LimitKind) (c : icache) (l : RestRateLimits) : RestRateLimits :=
  match k with
  | Events =>
      mkRestRateLimits _ (rl_origin l) (rl_node_rate l) (rl_node l) (rl_default_events l) (rl_default_reads l)
        (rl_heap l) c (rl_reads l) (rl_limited_node l) (rl_limited_app_events l) (rl_limited_app_reads l)
  | Reads =>
      mkRestRateLimits _ (rl_origin l) (rl_node_rate l) (rl_node l) (rl_default_events l) (rl_default_reads l)
        (rl_heap l) (rl_events l) c (rl_limited_node l) (rl_limited_app_events l) (rl_limited_app_reads l)
  end.

Definition set_heap (m : gmap nat TokenBucket) (l : RestRateLimits) : RestRateLimits :=
  mkRestRateLimits _ (rl_origin l) (rl_node_rate l) (rl_node l) (rl_default_events l) (rl_default_reads l)
    m (rl_events l) (rl_reads l) (rl_limited_node l) (rl_limited_app_events l) (rl_limited_app_reads l).

Definition set_node (b : TokenBucket) (l : RestRateLimits) : RestRateLimits :=
  mkRestRateLimits _ (rl_origin l) (rl_node_rate l) b (rl_default_events l) (rl_default_reads l)
    (rl_heap l) (rl_events l) (rl_reads l) (rl_limited_node l) (rl_limited_app_events l) (rl_limited_app_reads l).

Definition count_limited (node events reads : Z) (l : RestRateLimits) : RestRateLimits :=
  mkRestRateLimits _ (rl_origin l) (rl_node_rate l) (rl_node l) (rl_default_events l) (rl_default_reads l)
    (rl_heap l) (rl_events l) (rl_reads l) (rl_limited_node l + node) (rl_limited_app_events l + events)
    (rl_limited_app_reads l + reads).

Definition check_node (now : Z) (l : RestRateLimits) : RestRateLimits * RateDecision :=
  if (rl_node_rate l =? 0)%Z then (l, Allowed)
  else
    let '(b, d) := limits_decide (limits_now_ns now l) 1 (rl_node l) in
    let l := set_node b l in
    (if is_limited d then count_limited 1 0 0 l else l, d).

(** [Arc::new(Mutex::new(..))]. *)
Definition alloc_bucket (configured : Z) (l : RestRateLimits) : RestRateLimits * nat :=
  let i := fresh (dom (rl_heap l)) in
  (set_heap (<[i := fresh_bucket configured]> (rl_heap l)) l, i).

(** A new bucket under the app's id. *)
Definition put_bucket (k : LimitKind) (app : string) (configured now : Z) (l : RestRateLimits)
    : RestRateLimits * nat :=
  let '(l, i) := alloc_bucket configured l in
  (set_cache k (ic_insert app i now (cache_of k l)) l, i).

(** [Cache::get_with]: the entry, or a new bucket put in its place. *)
Definition get_with (k : LimitKind) (app : string) (configured now : Z) (l : RestRateLimits)
    : RestRateLimits * nat :=
  match ic_get app now (cache_of k l) with
  | (c, Some i) => (set_cache k c l, i)
  | (c, None) => put_bucket k app configured now (set_cache k c l)
  end.

Definition heap_bucket (i : nat) (l : RestRateLimits) : TokenBucket := default (fresh_bucket 0) (rl_heap l !! i).

Definition app_decision (k : LimitKind) (app : string) (configured cost now : Z) (l : RestRateLimits)
    : RestRateLimits * RateDecision :=
  if (configured =? 0)%Z then (l, Allowed)
  else
    let '(l, i) := get_with k app configured now l in
    let '(l, i) :=
      if (tb_rate_per_second (heap_bucket i l) =? configured)%Z then (l, i)
      else put_bucket k app configured now l in
    let '(b, d) := limits_decide (limits_now_ns now l) cost (heap_bucket i l) in
    (set_heap (<[i := b]> (rl_heap l)) l, d).

Definition check_app_events (app : App) (cost now : Z) (l : RestRateLimits) : RestRateLimits * RateDecision :=
  let configured := default (rl_default_events l) (max_backend_events_per_second app) in
  let '(l, d) := app_decision Events (app_id app) configured cost now l in
  (if is_limited d then count_limited 0 1 0 l else l, d).

Definition check_app_reads (app : App) (now : Z) (l : RestRateLimits) : RestRateLimits * RateDecision :=
  let configured := default (rl_default_reads l) (max_read_requests_per_second app) in
  let '(l, d) := app_decision Reads (app_id app) configured 1 now l in
  (if is_limited d then count_limited 0 0 1 l else l, d).

Definition limits_counts (l : RestRateLimits) : RestRateLimitedCounts :=
  mkRestRateLimitedCounts (rl_limited_node l) (rl_limited_app_events l) (rl_limited_app_reads l).
End limits.

(** ** Every app has its own bucket *)

Section buckets.
Context `{IdleCacheLaws}.

(** The addresses in use: each in the heap, and in one place only. *)
Definition limits_ok (l : RestRateLimits) : Prop :=
  (∀ k, ic_limits (cache_of k l) = (BUCKET_CAPACITY, BUCKET_IDLE)) ∧
  (∀ k a i u, ic_content (cache_of k l) !! a = Some (i, u) → is_Some (rl_heap l !! i)) ∧
  (∀ k a u k' a' u' i, ic_content (cache_of k l) !! a = Some (i, u) →
     ic_content (cache_of k' l) !! a' = Some (i, u') → k = k' ∧ a = a').

(** What the limits promise: a bucket of its own for the node and for each app
    and kind of request, with the time of its last use. *)
Record Buckets : Type := mkBuckets {
  bk_node : TokenBucket;
  bk_app : LimitKind → gmap string (TokenBucket * Z)
}.

(** The bucket of an app: its own, or a full one when it has none or its rate
    was changed. *)
Definition own_bucket (a : string) (configured : Z) (m : gmap string (TokenBucket * Z)) : TokenBucket :=
  match m !! a with
  | Some (b, _) => if (tb_rate_per_second b =? configured)%Z then b else fresh_bucket configured
  | None => fresh_bucket configured
  end.

Definition set_kind (k : LimitKind) (m : gmap string (TokenBucket * Z)) (s : Buckets) : Buckets :=
  mkBuckets (bk_node s) (λ k', if decide (k = k') then m else bk_app s k').

(** A request is decided by the app's bucket, which is then in use; before and
    after, buckets may be dropped that were idle for [BUCKET_IDLE], or while
    there are more than [BUCKET_CAPACITY]. *)
Inductive bucket_step (k : LimitKind) (a : string) (configured now now_ns cost : Z) (s : Buckets)
    : RateDecision → Buckets → Prop :=
| bucket_unlimited : configured = 0%Z → bucket_step k a configured now now_ns cost s Allowed s
| bucket_decides m m' : configured ≠ 0%Z →
    evicts BUCKET_CAPACITY BUCKET_IDLE now (bk_app s k) m →
    evicts BUCKET_CAPACITY BUCKET_IDLE now
      (<[a := ((limits_decide now_ns cost (own_bucket a configured m)).1, now)]> m) m' →
    bucket_step k a configured now now_ns cost s
      (limits_decide now_ns cost (own_bucket a configured m)).2 (set_kind k m' s).

(** The buckets a state holds. *)
Definition view (heap : gmap nat TokenBucket) (m : gmap string (nat * Z)) : gmap string (TokenBucket * Z) :=
  (λ e, (default (fresh_bucket 0) (heap !! e.1), e.2)) <$> m.

Definition buckets_of (l : RestRateLimits) (s : Buckets) : Prop :=
  bk_node s = rl_node l ∧ ∀ k, bk_app s k = view (rl_heap l) (ic_content (cache_of k l)).

Lemma cache_of_set k k' c l : cache_of k' (set_cache k c l) = if decide (k = k') then c else cache_of k' l.
Proof. by destruct k, k'. Qed.

Lemma set_cache_rest k c l : rl_heap (set_cache k c l) = rl_heap l ∧ rl_node (set_cache k c l) = rl_node l ∧
  rl_origin (set_cache k c l) = rl_origin l.
Proof. by destruct k. Qed.

(** *** Dropping entries *)

Lemma evicts_subseteq {V} cap idle now (m m' : gmap string (V * Z)) : evicts cap idle now m m' → m' ⊆ m.
Proof.
  induction 1 as [|m1 m2 m3 Hs _ IH]; [done|]. etrans; [exact IH|]. destruct Hs; apply delete_subseteq.
Qed.

Lemma evicts_view heap cap idle now m m' :
  evicts cap idle now m m' → evicts cap idle now (view heap m) (view heap m').
Proof.
  apply (rtc_congruence (view heap)). clear m m'. intros m m' [a v u Ha Hi|a Hc].
  - unfold view. rewrite fmap_delete. eapply evict_idle; [by rewrite lookup_fmap, Ha|done].
  - unfold view. rewrite fmap_delete. apply evict_crowded. by rewrite map_size_fmap.
Qed.

(** What is dropped from a map could as well be dropped once an entry was set. *)
Lemma evicts_insert {V} cap idle now a (e : V * Z) m m' :
  evicts cap idle now m m' → evicts cap idle now (<[a := e]> m) (<[a := e]> m').
Proof.
  induction 1 as [|m1 m2 m3 Hs _ IH]; [done|]. etrans; [|exact IH]. clear IH m3.
  destruct Hs as [x v u Hx Hi|x Hc]; (destruct (decide (x = a)) as [->|Hne];
    [by rewrite insert_delete_eq|rewrite <-delete_insert_ne by done; apply rtc_once]).
  - eapply evict_idle; [by rewrite lookup_insert_ne|done].
  - apply evict_crowded. rewrite map_size_insert. destruct (m1 !! a); simpl; lia.
Qed.

Lemma insert_alter_eq {V} (f : V → V) a x (m : gmap string V) : <[a := x]> (alter f a m) = <[a := x]> m.
Proof.
  apply map_eq. intros b. destruct (decide (a = b)) as [->|]; [by rewrite !lookup_insert_eq|].
  by rewrite !lookup_insert_ne, lookup_alter_ne.
Qed.

Lemma alter_none {V} (f : V → V) a (m : gmap string V) : m !! a = None → alter f a m = m.
Proof. intros Ha. apply alter_id. intros x Hx. congruence. Qed.

Lemma alter_lookup_insert {V} (f : V → V) a x (m : gmap string V) : m !! a = Some x → alter f a m = <[a := f x]> m.
Proof.
  intros Ha. apply map_eq. intros b. destruct (decide (a = b)) as [->|].
  - by rewrite lookup_alter_eq, lookup_insert_eq, Ha.
  - by rewrite lookup_insert_ne, lookup_alter_ne.
Qed.

(** *** The bucket of a request *)

(** The first half of [app_decision]. *)
Definition bucket_for (k : LimitKind) (app : string) (configured now : Z) (l : RestRateLimits)
    : RestRateLimits * nat :=
  let '(l, i) := get_with k app configured now l in
  if (tb_rate_per_second (heap_bucket i l) =? configured)%Z then (l, i) else put_bucket k app configured now l.

Lemma app_decision_bucket_for k a configured cost now l : configured ≠ 0%Z →
  app_decision k a configured cost now l =
  let '(l, i) := bucket_for k a configured now l in
  let '(b, d) := limits_decide (limits_now_ns now l) cost (heap_bucket i l) in
  (set_heap (<[i := b]> (rl_heap l)) l, d).
Proof.
  intros Hne. unfold app_decision, bucket_for. rewrite (proj2 (Z.eqb_neq _ _) Hne).
  by destruct (get_with _ _ _ _ _).
Qed.

(** A bucket was taken from the cache of a kind, or put there. *)
Record acquired (k : LimitKind) (a : string) (now : Z) (l l' : RestRateLimits) (i : nat) (m : gmap string (nat * Z))
    : Prop := mkAcquired {
  aq_before : evicts BUCKET_CAPACITY BUCKET_IDLE now (ic_content (cache_of k l)) m;
  aq_after : evicts BUCKET_CAPACITY BUCKET_IDLE now (<[a := (i, now)]> m) (ic_content (cache_of k l'));
  aq_limits : ic_limits (cache_of k l') = (BUCKET_CAPACITY, BUCKET_IDLE);
  aq_others k' : k' ≠ k → cache_of k' l' = cache_of k' l;
  aq_node : rl_node l' = rl_node l;
  aq_origin : rl_origin l' = rl_origin l;
  aq_heap j : j ≠ i → rl_heap l' !! j = rl_heap l !! j;
  aq_mine : is_Some (rl_heap l' !! i);
  aq_owner k' a' u : ic_content (cache_of k' l) !! a' = Some (i, u) → k' = k ∧ a' = a
}.

(** A new bucket is nobody's. *)
Lemma put_spec k a configured now l l1 m : limits_ok l →
  evicts BUCKET_CAPACITY BUCKET_IDLE now (ic_content (cache_of k l)) m →
  ic_limits (cache_of k l1) = (BUCKET_CAPACITY, BUCKET_IDLE) →
  evicts BUCKET_CAPACITY BUCKET_IDLE now (alter (λ e, (e.1, now)) a m) (ic_content (cache_of k l1)) →
  (∀ c, set_cache k c l1 = set_cache k c l) →
  let '(l', i) := put_bucket k a configured now l1 in
  acquired k a now l l' i m ∧ heap_bucket i l' = fresh_bucket configured.
Proof.
  intros (_ & Hin & _) Hm Hlim Halt Hl1. unfold put_bucket, alloc_bucket.
  assert (rl_heap l1 = rl_heap l ∧ rl_node l1 = rl_node l ∧ rl_origin l1 = rl_origin l) as (Hh & Hn & Ho).
  { pose proof (set_cache_rest k (cache_of k l) l) as (E1 & E2 & E3).
    pose proof (set_cache_rest k (cache_of k l) l1) as (F1 & F2 & F3). rewrite Hl1 in F1, F2, F3. split_and!; congruence. }
  assert (∀ k', k' ≠ k → cache_of k' l1 = cache_of k' l) as Hoth.
  { intros k' Hk. pose proof (cache_of_set k k' (cache_of k l) l1) as E. rewrite Hl1, cache_of_set in E.
    by rewrite !decide_False in E by done. }
  set (i := fresh (dom (rl_heap l1))). set (l2 := set_heap _ l1).
  assert (rl_heap l !! i = None) as Hi by (rewrite <-Hh; apply not_elem_of_dom, is_fresh).
  assert (∀ k', cache_of k' l2 = cache_of k' l1) as Hc2 by (by intros []).
  pose proof (ic_insert_laws a i now (cache_of k l2)) as Hins. rewrite Hc2 in Hins |- *. rewrite Hlim in Hins.
  destruct Hins as (Hlim' & m2 & Hm2 & Hins). set (c := ic_insert a i now (cache_of k l1)) in *.
  destruct (set_cache_rest k c l2) as (Hh' & Hn' & Ho').
  assert (cache_of k (set_cache k c l2) = c) as Hck by (rewrite cache_of_set; by rewrite decide_True).
  split; [constructor|].
  - done.
  - rewrite Hck, <-(insert_alter_eq (λ e, (e.1, now))).
    etrans; [|exact Hins]. apply evicts_insert. by transitivity (ic_content (cache_of k l1)).
  - by rewrite Hck.
  - intros k' Hk. rewrite cache_of_set, decide_False by done. by rewrite Hc2, Hoth.
  - rewrite Hn'. exact Hn.
  - rewrite Ho'. exact Ho.
  - intros j Hj. rewrite Hh'. simpl. rewrite lookup_insert_ne by done. by rewrite Hh.
  - rewrite Hh'. simpl. rewrite lookup_insert_eq. done.
  - intros k' a' u Hu. destruct (Hin _ _ _ _ Hu). congruence.
  - unfold heap_bucket. rewrite Hh'. simpl. by rewrite lookup_insert_eq.
Qed.

Lemma view_lookup heap m a : view heap m !! a = (λ e, (default (fresh_bucket 0) (heap !! e.1), e.2)) <$> m !! a.
Proof. apply lookup_fmap. Qed.

Lemma bucket_for_spec k a configured now l : limits_ok l →
  let '(l', i) := bucket_for k a configured now l in
  ∃ m, acquired k a now l l' i m ∧ heap_bucket i l' = own_bucket a configured (view (rl_heap l) m).
Proof.
  intros Hok. pose proof Hok as (Hlim & Hin & Huniq). unfold bucket_for, get_with.
  pose proof (ic_get_laws a now (cache_of k l)) as Hg. rewrite Hlim in Hg.
  destruct (ic_get a now (cache_of k l)) as [c o]. cbn [fst snd] in Hg. destruct Hg as (Hlc & m & Hm & -> & Hc).
  destruct (set_cache_rest k c l) as (Hh & Hn & Ho).
  assert (cache_of k (set_cache k c l) = c) as Hck by (rewrite cache_of_set; by rewrite decide_True).
  pose proof (put_spec k a configured now l (set_cache k c l) m Hok Hm) as Hput. rewrite Hck in Hput.
  specialize (Hput Hlc Hc ltac:(by destruct k)).
  destruct (m !! a) as [[i u]|] eqn:Ha; cbn [fmap option_fmap option_map fst].
  - assert (ic_content (cache_of k l) !! a = Some (i, u)) as Hi by (eapply lookup_weaken; [done|by eapply evicts_subseteq]).
    destruct (Hin _ _ _ _ Hi) as [b Hb].
    assert (heap_bucket i (set_cache k c l) = b) as Hbk by (unfold heap_bucket; by rewrite Hh, Hb).
    assert (own_bucket a configured (view (rl_heap l) m) =
      if (tb_rate_per_second b =? configured)%Z then b else fresh_bucket configured) as Hown.
    { unfold own_bucket. rewrite view_lookup, Ha. simpl. by rewrite Hb. }
    rewrite Hbk. destruct (tb_rate_per_second b =? configured)%Z.
    + exists m. split; [|by rewrite Hown, Hbk]. constructor; try done.
      * rewrite Hck. replace (<[a := (i, now)]> m) with (alter (λ e : nat * Z, (e.1, now)) a m); [done|].
        rewrite (alter_lookup_insert _ _ _ _ Ha). done.
      * by rewrite Hck.
      * intros k' Hk. by rewrite cache_of_set, decide_False.
      * intros j _. by rewrite Hh.
      * by rewrite Hh, Hb.
      * intros k' a' u' Hu. destruct (Huniq _ _ _ _ _ _ _ Hi Hu). done.
    + destruct (put_bucket k a configured now (set_cache k c l)) as [l' j]. exists m. by rewrite Hown.
  - assert (own_bucket a configured (view (rl_heap l) m) = fresh_bucket configured) as Hown.
    { unfold own_bucket. by rewrite view_lookup, Ha. }
    destruct (put_bucket k a configured now (set_cache k c l)) as [l' j]. destruct Hput as [Hq Hf].
    rewrite Hf. simpl tb_rate_per_second. rewrite Z.eqb_refl. exists m. by rewrite Hown.
Qed.

(** *** A decision *)

(** A heap with another bucket at an address nobody else has. *)
Lemma view_own heap heap' m a i b now :
  (∀ j, j ≠ i → heap' !! j = heap !! j) → heap' !! i = Some b → (∀ a' u, m !! a' = Some (i, u) → a' = a) →
  view heap' (<[a := (i, now)]> m) = <[a := (b, now)]> (view heap m).
Proof.
  intros Hh Hi Hown. apply map_eq. intros a'. rewrite view_lookup. destruct (decide (a = a')) as [<-|Hne].
  { rewrite !lookup_insert_eq. simpl. by rewrite Hi. }
  rewrite !lookup_insert_ne, view_lookup by done. destruct (m !! a') as [[j u]|] eqn:Hm; [|done]. simpl.
  rewrite Hh; [done|]. intros ->. by apply Hne, eq_sym, Hown with u.
Qed.

Lemma view_other heap heap' m i :
  (∀ j, j ≠ i → heap' !! j = heap !! j) → (∀ a u, m !! a ≠ Some (i, u)) → view heap' m = view heap m.
Proof.
  intros Hh Hown. apply map_eq. intros a. rewrite !view_lookup. destruct (m !! a) as [[j u]|] eqn:Hm; [|done]. simpl.
  rewrite Hh; [done|]. intros ->. by apply (Hown a u).
Qed.

(** Where the entries of a state with an acquired bucket come from. *)
Lemma acquired_entries k a now l l' i m k' a' j u : acquired k a now l l' i m →
  ic_content (cache_of k' l') !! a' = Some (j, u) →
  k' = k ∧ a' = a ∧ j = i ∨ j ≠ i ∧ ic_content (cache_of k' l) !! a' = Some (j, u).
Proof.
  intros Hq Hj. destruct (decide (k' = k)) as [->|Hk]; cycle 1.
  { rewrite (aq_others _ _ _ _ _ _ _ Hq) in Hj by done. right. split; [|done]. intros ->.
    by destruct (aq_owner _ _ _ _ _ _ _ Hq _ _ _ Hj). }
  pose proof (lookup_weaken _ _ _ _ Hj (evicts_subseteq _ _ _ _ _ (aq_after _ _ _ _ _ _ _ Hq))) as Hj'.
  apply lookup_insert_Some in Hj' as [[<- [= <- <-]]|[Hne Hj']]; [by left|]. right.
  pose proof (lookup_weaken _ _ _ _ Hj' (evicts_subseteq _ _ _ _ _ (aq_before _ _ _ _ _ _ _ Hq))) as Hl.
  split; [|done]. intros ->. by destruct (aq_owner _ _ _ _ _ _ _ Hq _ _ _ Hl).
Qed.

Lemma acquired_step k a now l l' i m b s : limits_ok l → buckets_of l s → acquired k a now l l' i m →
  let l2 := set_heap (<[i := b]> (rl_heap l')) l' in
  limits_ok l2 ∧
  ∃ m', evicts BUCKET_CAPACITY BUCKET_IDLE now (<[a := (b, now)]> (view (rl_heap l) m)) m' ∧
    buckets_of l2 (set_kind k m' s).
Proof.
  intros (Hlim & Hin & Huniq) [Hnode Hb] Hq l2.
  assert (∀ k', cache_of k' l2 = cache_of k' l') as Hc by (by intros []).
  assert (∀ j, j ≠ i → rl_heap l2 !! j = rl_heap l !! j) as Hh.
  { intros j Hj. simpl. rewrite lookup_insert_ne by done. by apply (aq_heap _ _ _ _ _ _ _ Hq). }
  assert (rl_heap l2 !! i = Some b) as Hi by (simpl; by rewrite lookup_insert_eq).
  split; [split_and!|].
  - intros k'. rewrite Hc. destruct (decide (k' = k)) as [->|Hk]; [by apply (aq_limits _ _ _ _ _ _ _ Hq)|].
    by rewrite (aq_others _ _ _ _ _ _ _ Hq).
  - intros k' a' j u. rewrite Hc. intros Hj. destruct (decide (j = i)) as [->|Hne]; [by rewrite Hi|]. rewrite Hh by done.
    destruct (acquired_entries _ _ _ _ _ _ _ _ _ _ _ Hq Hj) as [(_ & _ & ->)|(_ & Hl)]; [done|]. by eapply Hin.
  - intros k1 a1 u1 k2 a2 u2 j. rewrite !Hc. intros H1 H2.
    destruct (acquired_entries _ _ _ _ _ _ _ _ _ _ _ Hq H1) as [(-> & -> & ->)|(? & Hl1)],
      (acquired_entries _ _ _ _ _ _ _ _ _ _ _ Hq H2) as [(-> & -> & ?)|(? & Hl2)]; [done..|]. by eapply Huniq.
  - exists (view (rl_heap l2) (ic_content (cache_of k l'))). split.
    + rewrite <-(view_own (rl_heap l) (rl_heap l2) m a i b now Hh Hi).
      * apply evicts_view, (aq_after _ _ _ _ _ _ _ Hq).
      * intros a' u Hu. eapply (aq_owner _ _ _ _ _ _ _ Hq k a' u), lookup_weaken; [exact Hu|].
        eapply evicts_subseteq, (aq_before _ _ _ _ _ _ _ Hq).
    + split; [simpl; rewrite Hnode; symmetry; apply (aq_node _ _ _ _ _ _ _ Hq)|]. intros k'. rewrite Hc. simpl.
      destruct (decide (k = k')) as [<-|Hk]; [done|]. rewrite (aq_others _ _ _ _ _ _ _ Hq), Hb by done. symmetry.
      apply (view_other _ _ _ i Hh). intros a' u Hu. by destruct (aq_owner _ _ _ _ _ _ _ Hq _ _ _ Hu) as [-> _].
Qed.

Lemma now_ns_origin now l l' : rl_origin l' = rl_origin l → limits_now_ns now l' = limits_now_ns now l.
Proof. unfold limits_now_ns. by intros ->. Qed.

(** A decision for an app is one of its bucket, and no other bucket moves. *)
Lemma app_decision_refines k a configured cost now l s : limits_ok l → buckets_of l s →
  let '(l', d) := app_decision k a configured cost now l in
  limits_ok l' ∧ ∃ s', bucket_step k a configured now (limits_now_ns now l) cost s d s' ∧ buckets_of l' s'.
Proof.
  intros Hok Hb. destruct (decide (configured = 0%Z)) as [->|Hne].
  { split; [done|]. exists s. split; [by constructor|done]. }
  rewrite app_decision_bucket_for by done. pose proof (bucket_for_spec k a configured now l Hok) as Hf.
  destruct (bucket_for k a configured now l) as [l' i]. destruct Hf as (m & Hq & ->).
  rewrite (now_ns_origin now l l') by apply (aq_origin _ _ _ _ _ _ _ Hq).
  pose proof (bucket_decides k a configured now (limits_now_ns now l) cost s (view (rl_heap l) m)) as Hs.
  destruct (limits_decide _ cost _) as [b d]. cbn [fst snd] in Hs.
  destruct (acquired_step k a now l l' i m b s Hok Hb Hq) as (Hok' & m' & Hev & Hb'). split; [done|].
  exists (set_kind k m' s). split; [|done]. apply Hs; [done| |done].
  destruct Hb as [_ Hb]. rewrite Hb. apply evicts_view, (aq_before _ _ _ _ _ _ _ Hq).
Qed.

(** ** Histories of checks *)

Inductive Check : Type := CheckNode | CheckEvents (app : App) (cost : Z) | CheckReads (app : App).

Definition check (q : Z * Check) (l : RestRateLimits) : RestRateLimits * RateDecision :=
  match q.2 with
  | CheckNode => check_node q.1 l
  | CheckEvents app cost => check_app_events app cost q.1 l
  | CheckReads app => check_app_reads app q.1 l
  end.

Fixpoint checks (qs : list (Z * Check)) (l : RestRateLimits) : RestRateLimits * list RateDecision :=
  match qs with
  | [] => (l, [])
  | q :: qs => let '(l, d) := check q l in let '(l, ds) := checks qs l in (l, d :: ds)
  end.

Section spec.
Context (config : ServerConfig) (origin : Z).

Definition spec_now (now : Z) : Z := (U64.saturating_sub now origin mod 2 ^ 64)%Z.

Inductive spec_check (now : Z) (s : Buckets) : Check → RateDecision → Buckets → Prop :=
| spec_node_unlimited : c_max_rest_requests_per_second config = 0%Z → spec_check now s CheckNode Allowed s
| spec_node : c_max_rest_requests_per_second config ≠ 0%Z →
    spec_check now s CheckNode (limits_decide (spec_now now) 1 (bk_node s)).2
      (mkBuckets (limits_decide (spec_now now) 1 (bk_node s)).1 (bk_app s))
| spec_events app cost d s' :
    bucket_step Events (app_id app)
      (default (c_max_backend_events_per_second config) (max_backend_events_per_second app))
      now (spec_now now) cost s d s' →
    spec_check now s (CheckEvents app cost) d s'
| spec_reads app d s' :
    bucket_step Reads (app_id app)
      (default (c_max_read_requests_per_second config) (max_read_requests_per_second app))
      now (spec_now now) 1 s d s' →
    spec_check now s (CheckReads app) d s'.

Inductive spec_checks : Buckets → list (Z * Check) → list RateDecision → Prop :=
| spec_nil s : spec_checks s [] []
| spec_cons s now q qs d ds s' : spec_check now s q d s' → spec_checks s' qs ds →
    spec_checks s ((now, q) :: qs) (d :: ds).
End spec.

(** The settings do not change. *)
Definition settings (config : ServerConfig) (origin : Z) (l : RestRateLimits) : Prop :=
  rl_origin l = origin ∧ rl_node_rate l = c_max_rest_requests_per_second config ∧
  rl_default_events l = c_max_backend_events_per_second config ∧
  rl_default_reads l = c_max_read_requests_per_second config.

Lemma app_decision_settings config origin k a configured cost now l :
  settings config origin l → settings config origin (app_decision k a configured cost now l).1.
Proof.
  intros Hs. unfold app_decision, get_with. destruct (configured =? 0)%Z; [done|].
  assert (∀ l, settings config origin l → settings config origin (put_bucket k a configured now l).1) as Hput
    by (intros ? ?; unfold put_bucket, alloc_bucket; by destruct k).
  assert (∀ c, settings config origin (set_cache k c l)) as Hset by (intros; by destruct k).
  destruct (match ic_get _ _ _ with (c, Some i) => _ | (c, None) => _ end) as [l1 i] eqn:E1.
  assert (settings config origin l1) as H1.
  { destruct (ic_get a now (cache_of k l)) as [c [j|]]; [by simplify_eq|].
    pose proof (Hput _ (Hset c)) as Hp. by rewrite E1 in Hp. }
  destruct (if (_ =? _)%Z then _ else _) as [l2 j] eqn:E2. assert (settings config origin l2) as H2.
  { case_match; [by simplify_eq|]. pose proof (Hput _ H1) as Hp. by rewrite E2 in Hp. }
  by destruct (limits_decide _ cost _).
Qed.

(** Counting a refusal changes no bucket. *)
Lemma count_limited_same config origin n e r l s :
  (limits_ok (count_limited n e r l) ↔ limits_ok l) ∧ (buckets_of (count_limited n e r l) s ↔ buckets_of l s) ∧
  (settings config origin (count_limited n e r l) ↔ settings config origin l).
Proof.
  assert (∀ k, cache_of k (count_limited n e r l) = cache_of k l) as Hc by (by intros []).
  unfold limits_ok, buckets_of. setoid_rewrite Hc. done.
Qed.

Lemma check_refines config origin now q l s : limits_ok l → buckets_of l s → settings config origin l →
  let '(l', d) := check (now, q) l in
  limits_ok l' ∧ settings config origin l' ∧ ∃ s', spec_check config origin now s q d s' ∧ buckets_of l' s'.
Proof.
  intros Hok Hb Hset. pose proof Hset as (Ho & Hn & He & Hr).
  assert (limits_now_ns now l = spec_now origin now) as Hnow by (unfold limits_now_ns; by rewrite Ho).
  destruct q as [|app cost|app]; unfold check; cbn [fst snd].
  - unfold check_node. destruct (Z.eqb_spec (rl_node_rate l) 0) as [Hz|Hz].
    { split_and!; [done..|]. exists s. split; [|done]. constructor. congruence. }
    destruct Hb as [Hbn Hba]. pose proof (spec_node config origin now s ltac:(congruence)) as Hs.
    rewrite Hnow, <-Hbn. destruct (limits_decide _ 1 (bk_node s)) as [b d]. simpl in Hs.
    assert (∀ k, cache_of k (set_node b l) = cache_of k l) as Hc by (by intros []).
    assert (limits_ok (set_node b l)) as Hok' by (unfold limits_ok; setoid_rewrite Hc; done).
    destruct (count_limited_same config origin 1 0 0 (set_node b l) (mkBuckets b (bk_app s))) as (C1 & C2 & C3).
    assert (buckets_of (set_node b l) (mkBuckets b (bk_app s))) as Hb' by (split; [done|]; setoid_rewrite Hc; done).
    split_and!; [destruct (is_limited d); [by apply C1|done]|destruct (is_limited d); [by apply C3|done]|].
    exists (mkBuckets b (bk_app s)). split; [done|]. destruct (is_limited d); [by apply C2|done].
  - unfold check_app_events. rewrite He. set (configured := default _ _).
    pose proof (app_decision_refines Events (app_id app) configured cost now l s Hok Hb) as Hd.
    pose proof (app_decision_settings config origin Events (app_id app) configured cost now l Hset) as Hs.
    destruct (app_decision _ _ _ _ _ _) as [l' d]. destruct Hd as (Hok' & s' & Hstep & Hb').
    destruct (count_limited_same config origin 0 1 0 l' s') as (C1 & C2 & C3). rewrite Hnow in Hstep.
    split_and!; [destruct (is_limited d); [by apply C1|done]|destruct (is_limited d); [by apply C3|done]|].
    exists s'. split; [by constructor|]. destruct (is_limited d); [by apply C2|done].
  - unfold check_app_reads. rewrite Hr. set (configured := default _ _).
    pose proof (app_decision_refines Reads (app_id app) configured 1 now l s Hok Hb) as Hd.
    pose proof (app_decision_settings config origin Reads (app_id app) configured 1 now l Hset) as Hs.
    destruct (app_decision _ _ _ _ _ _) as [l' d]. destruct Hd as (Hok' & s' & Hstep & Hb').
    destruct (count_limited_same config origin 0 0 1 l' s') as (C1 & C2 & C3). rewrite Hnow in Hstep.
    split_and!; [destruct (is_limited d); [by apply C1|done]|destruct (is_limited d); [by apply C3|done]|].
    exists s'. split; [by constructor|]. destruct (is_limited d); [by apply C2|done].
Qed.

(** C24. The limits of the REST API implement one token bucket for the node and one
    per app and kind of request. In any history of checks each decision is that
    of the app's own bucket, which no check of another app or kind moves; the
    app has a full bucket instead only at its first request, when its rate was
    changed, and when its bucket was dropped, which takes [BUCKET_IDLE] without a
    request of the app, or more than [BUCKET_CAPACITY] apps with a bucket. *)
Theorem rest_limits_refine_buckets (config : ServerConfig) (origin : Z) (qs : list (Z * Check)) :
  spec_checks config origin
    (mkBuckets (fresh_bucket (c_max_rest_requests_per_second config)) (λ _, ∅)) qs
    (checks qs (RestRateLimits_new config origin)).2.
Proof.
  set (s := mkBuckets _ _). set (l := RestRateLimits_new config origin).
  assert (∀ k, ic_content (cache_of k l) = ∅) as He by (intros []; apply ic_new_laws).
  assert (∀ k, ic_limits (cache_of k l) = (BUCKET_CAPACITY, BUCKET_IDLE)) as Hlim by (intros []; apply ic_new_laws).
  assert (limits_ok l) as Hok by (split_and!; [done|intros ????; rewrite He, lookup_empty; done..]).
  assert (buckets_of l s) as Hb by (split; [done|]; intros k; by rewrite He).
  assert (settings config origin l) as Hset by done.
  clearbody s l. clear He Hlim. revert l s Hok Hb Hset. induction qs as [|[now q] qs IH]; intros l s Hok Hb Hset; simpl.
  { constructor. }
  pose proof (check_refines config origin now q l s Hok Hb Hset) as Hc.
  destruct (check (now, q) l) as [l' d]. destruct Hc as (Hok' & Hset' & s' & Hs & Hb').
  specialize (IH l' s' Hok' Hb' Hset'). destruct (checks qs l') as [l'' ds]. by econstructor.
Qed.

(** ** Costs above the rate *)

(** A bucket of a rate, whatever its history, refuses a cost above the rate at
    every time, and asks to retry all the same. *)
Lemma limits_decide_oversized now_ns rate cost b : (0 < rate < cost)%Z → (cost <= U32_MAX)%Z →
  tb_rate_per_second b = rate → tb_capacity b = F64.of_uint rate →
  ∃ h, limits_decide now_ns cost b = (b, Limited h) ∧ rh_limit h = rate ∧ (1 <= rh_retry_after_secs h)%Z.
Proof.
  intros Hrc Hmax Hr Hc. unfold limits_decide, take_at_ns. rewrite Hr, Hc.
  destruct (Z.eqb_spec rate 0) as [|_]; [lia|].
  rewrite of_uint_lt by (unfold U32_MAX in *; lia). eexists. split; [reflexivity|]. split; [done|]. simpl. lia.
Qed.

(** Every bucket holds at most its rate. *)
Definition heap_ok (l : RestRateLimits) : Prop :=
  ∀ i b, rl_heap l !! i = Some b → tb_capacity b = F64.of_uint (tb_rate_per_second b).

Lemma fresh_bucket_ok rate : tb_capacity (fresh_bucket rate) = F64.of_uint (tb_rate_per_second (fresh_bucket rate)).
Proof. simpl. by rewrite Z.max_id. Qed.

Lemma heap_ok_insert l i b : heap_ok l → tb_capacity b = F64.of_uint (tb_rate_per_second b) →
  heap_ok (set_heap (<[i := b]> (rl_heap l)) l).
Proof. intros Hok Hb j c. simpl. intros [[_ <-]|[_ Hc]]%lookup_insert_Some; [done|]. by eapply Hok. Qed.

Lemma heap_ok_put k a configured now l : heap_ok l → heap_ok (put_bucket k a configured now l).1.
Proof.
  intros Hok. pose proof (heap_ok_insert l (fresh (dom (rl_heap l))) _ Hok (fresh_bucket_ok configured)) as Hi.
  unfold put_bucket, alloc_bucket. destruct k; exact Hi.
Qed.

Lemma put_bucket_fresh k a configured now l :
  heap_bucket (put_bucket k a configured now l).2 (put_bucket k a configured now l).1 = fresh_bucket configured.
Proof. unfold put_bucket, alloc_bucket, heap_bucket. destruct k; simpl; by rewrite lookup_insert_eq. Qed.

(** The bucket a decision is taken from, and the limits without its outcome. *)
Lemma app_decision_bucket k a configured cost now l : configured ≠ 0%Z → heap_ok l → ∃ l' i,
  app_decision k a configured cost now l =
    (let '(b, d) := limits_decide (limits_now_ns now l') cost (heap_bucket i l') in
     (set_heap (<[i := b]> (rl_heap l')) l', d)) ∧
  heap_ok l' ∧ tb_rate_per_second (heap_bucket i l') = configured ∧
  tb_capacity (heap_bucket i l') = F64.of_uint configured.
Proof.
  intros Hne Hok. unfold app_decision. destruct (Z.eqb_spec configured 0) as [|_]; [done|].
  assert (heap_ok (get_with k a configured now l).1) as Hok1.
  { unfold get_with. destruct (ic_get _ _ _) as [c [i|]]; [by destruct k|]. apply heap_ok_put. by destruct k. }
  destruct (get_with k a configured now l) as [l1 i]. simpl in Hok1.
  destruct (Z.eqb_spec (tb_rate_per_second (heap_bucket i l1)) configured) as [Hr|Hr].
  - exists l1, i. split_and!; [done..|]. unfold heap_bucket in *.
    destruct (rl_heap l1 !! i) as [b|] eqn:Hi; [|by simpl in Hr]. simpl in *. rewrite <-Hr. by eapply Hok1.
  - pose proof (heap_ok_put k a configured now l1 Hok1) as Hok2.
    pose proof (put_bucket_fresh k a configured now l1) as Hf.
    destruct (put_bucket k a configured now l1) as [l2 j]. simpl in Hok2, Hf. exists l2, j. rewrite Hf.
    split_and!; [done..|]. apply fresh_bucket_ok.
Qed.

Lemma limits_decide_keeps now_ns cost b :
  tb_rate_per_second (limits_decide now_ns cost b).1 = tb_rate_per_second b ∧
  tb_capacity (limits_decide now_ns cost b).1 = tb_capacity b.
Proof.
  unfold limits_decide. pose proof (take_keeps now_ns cost b) as (H1 & _ & H2).
  by destruct (take_at_ns now_ns cost b).
Qed.

Lemma app_decision_heap k a configured cost now l : heap_ok l → heap_ok (app_decision k a configured cost now l).1.
Proof.
  intros Hok. destruct (decide (configured = 0%Z)) as [->|Hne]; [done|].
  destruct (app_decision_bucket k a configured cost now l Hne Hok) as (l' & i & -> & Hok' & Hr & Hc).
  destruct (limits_decide_keeps (limits_now_ns now l') cost (heap_bucket i l')) as [Hr' Hc'].
  destruct (limits_decide _ cost _) as [b d]. simpl in *. apply heap_ok_insert; [done|]. congruence.
Qed.

Lemma checks_heap qs : ∀ l, heap_ok l → heap_ok (checks qs l).1.
Proof.
  induction qs as [|[now q] qs IH]; intros l Hok; simpl; [done|].
  assert (heap_ok (check (now, q) l).1) as H1.
  { destruct q as [|app cost|app]; unfold check; simpl.
    - unfold check_node. destruct (_ =? 0)%Z; [done|]. destruct (limits_decide _ _ _) as [b d].
      by destruct (is_limited d).
    - unfold check_app_events. set (c := default _ _).
      pose proof (app_decision_heap Events (app_id app) c cost now l Hok) as Hd.
      destruct (app_decision _ _ _ _ _ _) as [l' d]. by destruct (is_limited d).
    - unfold check_app_reads. set (c := default _ _).
      pose proof (app_decision_heap Reads (app_id app) c 1 now l Hok) as Hd.
      destruct (app_decision _ _ _ _ _ _) as [l' d]. by destruct (is_limited d). }
  destruct (check (now, q) l) as [l' d]. simpl in H1. specialize (IH l' H1). by destruct (checks qs l').
Qed.

(** An app whose rate is below a cost is refused it, at every time. *)
Lemma check_app_events_oversized app rate cost now l : heap_ok l →
  max_backend_events_per_second app = Some rate → (0 < rate < cost)%Z → (cost <= U32_MAX)%Z →
  ∃ h, (check_app_events app cost now l).2 = Limited h ∧ rh_limit h = rate ∧ (1 <= rh_retry_after_secs h)%Z.
Proof.
  intros Hok Hrate Hrc Hmax. unfold check_app_events. rewrite Hrate. simpl.
  destruct (app_decision_bucket Events (app_id app) rate cost now l ltac:(lia) Hok) as (l' & i & -> & _ & Hr & Hc).
  destruct (limits_decide_oversized (limits_now_ns now l') rate cost _ Hrc Hmax Hr Hc) as (h & -> & Hh1 & Hh2).
  by exists h.
Qed.
End buckets.

(** A cache that drops an idle entry as it is asked for. *)
Module IdleCacheDemo.
Record Cached : Type := mkCached { limits : Z * Z; content : gmap string (nat * Z) }.

#[export] Instance cache : IdleCache := {|
  icache := Cached;
  ic_new cap idle := mkCached (cap, idle) ∅;
  ic_get k t c :=
    match content c !! k with
    | Some (v, used) =>
        if ((limits c).2 <=? t - used)%Z then (mkCached (limits c) (delete k (content c)), None)
        else (mkCached (limits c) (<[k := (v, t)]> (content c)), Some v)
    | None => (c, None)
    end;
  ic_insert k v t c := mkCached (limits c) (<[k := (v, t)]> (content c))
|}.

#[export] Instance cache_laws : @IdleCacheLaws cache.
Proof.
  refine (@Build_IdleCacheLaws cache content limits _ _ _); [done| |].
  - intros k t [[cap idle] m]. simpl. destruct (m !! k) as [[v used]|] eqn:Hk; simpl.
    + destruct (Z.leb_spec idle (t - used)) as [Hi|Hi]; simpl; (split; [done|]).
      * exists (delete k m). rewrite lookup_delete_eq, alter_none by (by rewrite lookup_delete_eq). split_and!; [|done|done].
        by eapply rtc_once, evict_idle.
      * exists m. rewrite Hk. split_and!; [done|done|]. rewrite (alter_lookup_insert _ _ _ _ Hk). done.
    + split; [done|]. exists m. rewrite Hk. split_and!; [done|done|]. rewrite alter_none by done. done.
  - intros k v t [[cap idle] m]. simpl. split; [done|]. exists m. split; done.
Defined.
End IdleCacheDemo.

#[local] Existing Instances IdleCacheDemo.cache IdleCacheDemo.cache_laws.

Lemma rest_limits_refine_buckets_witness :
  let a := mkApp "" "a" "" "" true false 0 (Some 2%Z) None false [] false false false false false false false in
  let b := mkApp "" "b" "" "" true false 0 (Some 1%Z) None false [] false false false false false false false in
  let qs := [(10, CheckEvents a 2); (20, CheckEvents b 1); (30, CheckEvents a 1); (500000030, CheckEvents a 1)]%Z in
  let ds := (checks qs (RestRateLimits_new ServerConfig_default 0)).2 in
  is_limited <$> ds = [false; false; true; false] ∧
  spec_checks ServerConfig_default 0 (mkBuckets (fresh_bucket 0) (λ _, ∅)) qs ds.
Proof.
  intros a b qs ds. split; [vm_compute; reflexivity|]. apply (rest_limits_refine_buckets ServerConfig_default 0 qs).
Defined.
