(* ===== verification/Rest.v ===== *)
(** * The REST API: [src/src/http/rest/] and [src/src/http/error.rs]

    Each endpoint is a function from the request, as the HTTP framework hands
    it over, and the state of the application to a new state and a response.
    The framework's own refusals of a query string or a body are part of the
    request; the JSON text is a parameter. *)

From stdpp Require Import pretty.
From S2P Require Import Prelude RustStd Json Envelope Protocol SocketIds Kind Text.
From S2P Require Import ChannelState Fanout Adapter Auth App ClusterNode Config RestLimits Handshake.
#[local] Open Scope rust_scope.

(** ** [RestError] *)

Record RestError : Type := mkRestError {
  re_status : Z;
  re_message : string;
  re_rate : option RateHeaders
}.

Definition not_found (m : string) : RestError := mkRestError 404 m None.
Definition method_not_allowed (m : string) : RestError := mkRestError 405 m None.
Definition bad_request (m : string) : RestError := mkRestError 400 m None.
Definition unauthorized (m : string) : RestError := mkRestError 401 m None.
Definition forbidden (m : string) : RestError := mkRestError 403 m None.
Definition payload_too_large (m : string) : RestError := mkRestError 413 m None.
Definition service_unavailable (m : string) : RestError := mkRestError 503 m None.
Definition too_many_requests (m : string) (rate : RateHeaders) : RestError := mkRestError 429 m (Some rate).

(** A refusal of the framework: its status and text. *)
Record Rejection : Type := mkRejection { rj_status : Z; rj_text : string }.

Definition from_rejection (r : Rejection) : RestError := mkRestError (rj_status r) (rj_text r) None.

Record Response : Type := mkResponse {
  rp_status : Z;
  rp_headers : list (string * string);
  rp_body : string
}.

(** [HeaderMap::insert] replaces. *)
Fixpoint header_insert (k v : string) (h : list (string * string)) : list (string * string) :=
  match h with
  | [] => [(k, v)]
  | (k', v') :: h => if decide (k = k') then (k, v) :: h else (k', v') :: header_insert k v h
  end.

Definition show_uint (n : Z) : string := pretty (Z.to_N n).

Definition RestError_into_response `{SerdeJson} (e : RestError) : Response :=
  let headers := [("content-type", "application/json")] in
  let headers := if (re_status e =? 503)%Z then header_insert "retry-after" "1" headers else headers in
  let headers :=
    match re_rate e with
    | Some rate =>
        header_insert "x-ratelimit-remaining" (show_uint (rh_remaining rate))
          (header_insert "x-ratelimit-limit" (show_uint (rh_limit rate))
             (header_insert "retry-after" (show_uint (rh_retry_after_secs rate)) headers))
    | None => headers
    end in
  mkResponse (re_status e) headers (error_body (re_message e) (re_status e)).

(** The document a derived [Deserialize] walks when it reads a struct directly
    from text: its members as written, a repeated name repeated; and the text of
    the error for a body it refuses. *)
Class SerdeTree : Type := {
  tree_from_slice : string → option Value;
  tree_error : string → string
}.

(** ** Requests and the application *)

(** The query string as decoded parameters, the last of a repeated name. *)
Record RestRequest : Type := mkRestRequest {
  rq_path : string;
  rq_query : result (gmap string string) Rejection;
  rq_body : result string Rejection;
  rq_now_unix : Z;
  rq_now : Z
}.

(** [dyn AppManager], by what it answers. *)
Record AppManager : Type := mkAppManager {
  am_by_key : string → result AppLookup AppLookupError;
  am_by_id : string → result AppLookup AppLookupError;
  am_by_key_cached : string → option (result AppLookup AppLookupError);
  am_known_app_ids : option (list string)
}.

Record AppState (A : Type) `{IdleCache} : Type := mkAppState {
  as_config : ServerConfig;
  as_apps : AppManager;
  as_world : A * Env;
  as_saturated : bool;
  as_draining : bool;
  as_cluster_metrics : option ClusterMetrics;
  as_limits : RestRateLimits
}.
Arguments mkAppState {A _}.
Arguments as_config {A _}.
Arguments as_apps {A _}.
Arguments as_world {A _}.
Arguments as_saturated {A _}.
Arguments as_draining {A _}.
Arguments as_cluster_metrics {A _}.
Arguments as_limits {A _}.

Section rest.
Context `{SerdeJson, SerdeTree, Crypto, UnicodeCase, IdleCache, Adapter A}.

Definition with_world (w : A * Env) (s : AppState A) : AppState A :=
  mkAppState (as_config s) (as_apps s) w (as_saturated s) (as_draining s) (as_cluster_metrics s) (as_limits s).
Definition with_limits (l : RestRateLimits) (s : AppState A) : AppState A :=
  mkAppState (as_config s) (as_apps s) (as_world s) (as_saturated s) (as_draining s) (as_cluster_metrics s) l.
Definition with_metrics (m : option ClusterMetrics) (s : AppState A) : AppState A :=
  mkAppState (as_config s) (as_apps s) (as_world s) (as_saturated s) (as_draining s) m (as_limits s).

Definition state_is_saturated (s : AppState A) : bool :=
  as_saturated s && flag_is_saturated (env_percore (as_world s).2).

(** ** Authentication *)

Definition RestAuthError_message (window_secs : Z) (e : RestAuthError) : string :=
  match e with
  | RMissingParam => "Missing auth parameters"
  | RBadVersion => "Invalid auth version"
  | RKeyMismatch => GENERIC_AUTH_FAILURE
  | RExpired => "Timestamp expired: Given timestamp not within " +:+ show_uint window_secs +:+ "s of server time"
  | RBadBodyMd5 => "Invalid body_md5"
  | RBadSignature => "Invalid signature: Expected HMAC SHA256 hex digest"
  | RCaseCollidingParams => "Invalid query: two parameters differ only by case"
  end.

Definition authenticate (s : AppState A) (app_id method path : string) (params : gmap string string)
    (body : string) (now_unix : Z) : result App RestError :=
  match am_by_id (as_apps s) app_id with
  | Ok (Found app) =>
      let window := c_rest_auth_window_secs (as_config s) in
      match rest_verify (app_key app) (app_secret app) method path params body now_unix window with
      | Ok _ => Ok app
      | Err e => Err (unauthorized (RestAuthError_message window e))
      end
  | Ok Disabled => Err (forbidden "app is disabled")
  | Ok NotFound => Err (unauthorized GENERIC_AUTH_FAILURE)
  | Err _ => Err (service_unavailable "app store temporarily unavailable")
  end.

Definition map_err {T} (r : result T Rejection) : result T RestError :=
  match r with Ok x => Ok x | Err e => Err (from_rejection e) end.

(** ** Events *)

Record TriggerBody : Type := mkTriggerBody {
  tr_name : string;
  tr_data : string;
  tr_channels : option (list string);
  tr_channel : option string;
  tr_socket_id : option string;
  tr_info : option string
}.

Record BatchItem : Type := mkBatchItem {
  bi_name : string;
  bi_data : string;
  bi_channel : string;
  bi_socket_id : option string;
  bi_info : option string
}.

(** [wants] of [events.rs], [channels.rs]: a trimmed element of the list. *)
Definition wants (info : option string) (attr : string) : bool :=
  match info with
  | Some s => existsb (λ a, bool_decide (str_trim a = attr)) (Str.split ","%char s)
  | None => false
  end.

Definition valid_socket_id (s : string) : bool :=
  if Str.is_empty s || (SocketId.CAPACITY <? String.length s)%nat then false
  else
    match Str.split_once "."%char s with
    | Some (a, b) =>
        negb (Str.is_empty a) && negb (Str.is_empty b)
        && Str.all Str.is_ascii_digit a && Str.all Str.is_ascii_digit b
    | None => false
    end.

(** [serde_json::from_slice] into a value: the text must be UTF-8. *)
Definition from_slice (body : string) : option Value :=
  if utf8_valid (as_bytes body) then from_str body else None.

Definition de_strings (v : Value) : option (option (list string)) :=
  match v with
  | JNull => Some None
  | JArray l => Some <$> mapM as_str l
  | _ => None
  end.

(** The derived [Deserialize] of [TriggerBody], from a JSON object. *)
Definition de_trigger (m : list (string * Value)) : option TriggerBody :=
  name ← required de_string (map_get "name" m);
  data ← required de_string (map_get "data" m);
  channels ← defaulted None de_strings (map_get "channels" m);
  channel ← defaulted None de_opt_string (map_get "channel" m);
  socket_id ← defaulted None de_opt_string (map_get "socket_id" m);
  info ← defaulted None de_opt_string (map_get "info" m);
  Some (mkTriggerBody name data channels channel socket_id info).

(** What the object lacks comes from the query. *)
Definition fallback (params : gmap string string) (f : string → Value) (m : list (string * Value)) (key : string)
    : list (string * Value) :=
  match map_get key m with
  | Some _ => m
  | None => match params !! key with Some v => map_insert key (f v) m | None => m end
  end.

Definition merged_trigger_body (body : string) (params : gmap string string) : result TriggerBody RestError :=
  let invalid := bad_request "invalid request body" in
  let? root := if Str.is_empty body then Ok (JObject []) else ok_or (from_slice body) invalid in
  match root with
  | JObject obj =>
      let obj := foldl (fallback params JString) obj ["name"; "data"; "channel"; "socket_id"; "info"] in
      let obj := fallback params (λ c, JArray [JString c]) obj "channels" in
      ok_or (de_trigger obj) invalid
  | _ => Err invalid
  end.

(** One event to one channel: to the connections of a user, or to the channel
    with its cache written first. *)
Definition deliver (app_id channel name data : string) (socket_id : option string) (s : AppState A)
    : AppState A * result unit RestError :=
  let event := ChannelEvent channel name (JString data) None in
  match Str.strip_prefix SERVER_TO_USER_PREFIX channel with
  | Some user_id =>
      if Str.is_empty user_id then (s, Ok tt)
      else (with_world (ad_send_to_user app_id user_id event (as_world s)) s, Ok tt)
  | None =>
      let s :=
        if ci_cache (ChannelInfo_of channel) then
          with_world
            (ad_cache_set app_id channel (mkCachedEvent name data)
               (c_cache_ttl_secs (as_config s) * 1000000000) (as_world s)) s
        else s in
      let '(w, r) := ad_broadcast app_id channel event (SocketId.from_raw <$> socket_id) (as_world s) in
      let s := with_world w s in
      match r with
      | Ok _ => (s, Ok tt)
      | Err _ =>
          let bump m :=
            mkClusterMetrics (cmd_dropped m) ((publish_failed m + 1) mod 2 ^ 64) (redis_connected m) in
          (with_metrics (bump <$> as_cluster_metrics s) s,
           Err (service_unavailable "cluster publish failed"))
      end
  end.

Record Delivery : Type := mkDelivery {
  dl_channel : string;
  dl_name : string;
  dl_data : string;
  dl_socket_id : option string
}.

(** The loop over the deliveries, left at the first failure. *)
Fixpoint deliver_all (app_id : string) (ds : list Delivery) (s : AppState A)
    : AppState A * result unit RestError :=
  match ds with
  | [] => (s, Ok tt)
  | d :: ds =>
      match deliver app_id (dl_channel d) (dl_name d) (dl_data d) (dl_socket_id d) s with
      | (s, Ok _) => deliver_all app_id ds s
      | (s, Err e) => (s, Err e)
      end
  end.

Definition json_nat (n : nat) : Value := json_uint (Z.of_nat n).

Definition channel_attrs (app_id channel : string) (info : option string) (subscription_count_enabled : bool)
    (s : AppState A) : list (string * Value) :=
  let want_sub := wants info "subscription_count" && subscription_count_enabled in
  let want_uc := wants info "user_count" in
  if want_sub || want_uc then
    let sum := ad_channel app_id channel (as_world s) in
    let attrs := if want_sub then [("subscription_count", json_nat (cs_subscription_count sum))] else [] in
    if want_uc then
      match cs_user_count sum with
      | Some uc => map_insert "user_count" (json_nat uc) attrs
      | None => attrs
      end
    else attrs
  else [].

(** A channel name a publish may go to. *)
Definition publishable (config : ServerConfig) (channel : string) : bool :=
  Str.starts_with SERVER_TO_USER_PREFIX channel
  || validate_channel_name channel (Z.to_nat (c_max_channel_name_length config)).

Definition len (s : string) : Z := Z.of_nat (String.length s).

(** The checks of a trigger, in order; the channels it goes to. *)
Definition validate_trigger (config : ServerConfig) (t : TriggerBody) : result (list string) RestError :=
  if (c_max_event_payload_bytes config <? len (tr_data t))%Z then Err (payload_too_large "Event message over 10k")
  else if (c_max_event_name_length config <? len (tr_name t))%Z then Err (bad_request "Event name too long")
  else if match tr_socket_id t with Some sid => negb (valid_socket_id sid) | None => false end
  then Err (bad_request "Invalid socket id")
  else
    let? channels :=
      match tr_channels t, tr_channel t with
      | Some l, _ => Ok l
      | None, Some c => Ok [c]
      | None, None => Err (bad_request "must provide channel or channels")
      end in
    let n := Z.of_nat (length channels) in
    if (n =? 0)%Z || (c_max_channels_per_publish config <? n)%Z then Err (bad_request "invalid channel count")
    else if negb (forallb (publishable config) channels) then Err (bad_request "Invalid channel name")
    else
      let encrypted := filter (λ c, ci_auth (ChannelInfo_of c) = PrivateEncrypted) channels in
      if (1 <=? length encrypted)%nat && (1 <? length channels)%nat
      then Err (bad_request "Cannot trigger to multiple channels when using encrypted channels")
      else Ok channels.

Definition trigger_response (app : App) (t : TriggerBody) (channels : list string) (s : AppState A) : Value :=
  match tr_info t with
  | None => JObject []
  | Some _ =>
      let attrs ch := JObject (channel_attrs (app_id app) ch (tr_info t) (subscription_count_enabled app) s) in
      JObject [("channels", JObject (foldl (λ m ch, map_insert ch (attrs ch) m) [] channels))]
  end.

Definition post_events (app_id : string) (r : RestRequest) (s : AppState A)
    : AppState A * result Value RestError :=
  match
    (let? body := map_err (rq_body r) in
     let? params := map_err (rq_query r) in
     let? app := authenticate s app_id "POST" (rq_path r) params body (rq_now_unix r) in
     Ok (body, params, app))
  with
  | Err e => (s, Err e)
  | Ok (body, params, app) =>
      if state_is_saturated s then (s, Err (service_unavailable "Server overloaded"))
      else
        let '(l, d) := check_app_events app 1 (rq_now r) (as_limits s) in
        let s := with_limits l s in
        match d with
        | Limited rate => (s, Err (too_many_requests "Rate limit exceeded" rate))
        | Allowed =>
            match
              (let? t := merged_trigger_body body params in
               let? channels := validate_trigger (as_config s) t in
               Ok (t, channels))
            with
            | Err e => (s, Err e)
            | Ok (t, channels) =>
                let ds := (λ ch, mkDelivery ch (tr_name t) (tr_data t) (tr_socket_id t)) <$> channels in
                match deliver_all (App.app_id app) ds s with
                | (s, Err e) => (s, Err e)
                | (s, Ok _) => (s, Ok (trigger_response app t channels s))
                end
            end
        end
  end.

(** ** Batches *)

Definition build_item (name data channel socket_id info : option Value) : option BatchItem :=
  name ← required de_string name;
  data ← required de_string data;
  channel ← required de_string channel;
  socket_id ← defaulted None de_opt_string socket_id;
  info ← defaulted None de_opt_string info;
  Some (mkBatchItem name data channel socket_id info).

(** A struct is also read from an array of its fields in order. *)
Definition de_batch_item (v : Value) : option BatchItem :=
  match v with
  | JObject m =>
      name ← member_of "name" m;
      data ← member_of "data" m;
      channel ← member_of "channel" m;
      socket_id ← member_of "socket_id" m;
      info ← member_of "info" m;
      build_item name data channel socket_id info
  | JArray l =>
      if (5 <? length l)%nat then None else build_item (l !! 0) (l !! 1) (l !! 2) (l !! 3) (l !! 4)
  | _ => None
  end.

Definition de_batch (v : Value) : option (list BatchItem) :=
  batch ← match v with
          | JObject m => member_of "batch" m ≫= id
          | JArray [v] => Some v
          | _ => None
          end;
  items ← as_array batch;
  mapM de_batch_item items.

(** The checks over the items, one kind after the other. *)
Definition validate_batch (config : ServerConfig) (batch : list BatchItem) : result unit RestError :=
  if existsb (λ i, c_max_event_payload_bytes config <? len (bi_data i))%Z batch
  then Err (payload_too_large "Event message over 10k")
  else if existsb (λ i, c_max_event_name_length config <? len (bi_name i))%Z batch
  then Err (bad_request "Event name too long")
  else if negb (forallb (λ i, publishable config (bi_channel i)) batch)
  then Err (bad_request "Invalid channel name")
  else if existsb (λ i, match bi_socket_id i with Some sid => negb (valid_socket_id sid) | None => false end) batch
  then Err (bad_request "Invalid socket id")
  else Ok tt.

Definition batch_response (app : App) (batch : list BatchItem) (s : AppState A) : Value :=
  if existsb (λ i, bool_decide (is_Some (bi_info i))) batch then
    let attrs i :=
      JObject (channel_attrs (app_id app) (bi_channel i) (bi_info i) (subscription_count_enabled app) s) in
    JObject [("batch", JArray (attrs <$> batch))]
  else JObject [].

Definition parse_batch (config : ServerConfig) (body : string) : result (list BatchItem) RestError :=
  let? batch := ok_or (tree_from_slice body ≫= de_batch) (bad_request "invalid request body") in
  let n := Z.of_nat (length batch) in
  if (n =? 0)%Z || (c_max_batch_events config <? n)%Z then Err (bad_request "invalid batch size") else Ok batch.

Definition item_delivery (i : BatchItem) : Delivery :=
  mkDelivery (bi_channel i) (bi_name i) (bi_data i) (bi_socket_id i).

Definition post_batch (app_id : string) (r : RestRequest) (s : AppState A) : AppState A * result Value RestError :=
  match
    (let? body := map_err (rq_body r) in
     let? params := map_err (rq_query r) in
     let? app := authenticate s app_id "POST" (rq_path r) params body (rq_now_unix r) in
     if state_is_saturated s then Err (service_unavailable "Server overloaded")
     else let? batch := parse_batch (as_config s) body in Ok (app, batch))
  with
  | Err e => (s, Err e)
  | Ok (app, batch) =>
      let '(l, d) := check_app_events app (Z.of_nat (length batch) mod 2 ^ 32) (rq_now r) (as_limits s) in
      let s := with_limits l s in
      match d with
      | Limited rate => (s, Err (too_many_requests "Rate limit exceeded" rate))
      | Allowed =>
          match validate_batch (as_config s) batch with
          | Err e => (s, Err e)
          | Ok _ =>
              match deliver_all (App.app_id app) (item_delivery <$> batch) s with
              | (s, Err e) => (s, Err e)
              | (s, Ok _) => (s, Ok (batch_response app batch s))
              end
          end
      end
  end.

(** ** Channels and users *)

(** Authentication and the limit on reads, which the readers share. *)
Definition admit_read (app_id : string) (r : RestRequest) (s : AppState A)
    : AppState A * result (App * gmap string string) RestError :=
  match
    (let? params := map_err (rq_query r) in
     let? app := authenticate s app_id "GET" (rq_path r) params EmptyString (rq_now_unix r) in
     Ok (app, params))
  with
  | Err e => (s, Err e)
  | Ok (app, params) =>
      let '(l, d) := check_app_reads app (rq_now r) (as_limits s) in
      (with_limits l s,
       match d with
       | Limited rate => Err (too_many_requests "Rate limit exceeded" rate)
       | Allowed => Ok (app, params)
       end)
  end.

Definition summary_attrs (want_user_count want_subscription_count : bool) (sum : ChannelSummary)
    : list (string * Value) :=
  let attrs :=
    match cs_user_count sum with
    | Some uc => if want_user_count then [("user_count", json_nat uc)] else []
    | None => []
    end in
  if want_subscription_count
  then map_insert "subscription_count" (json_nat (cs_subscription_count sum)) attrs else attrs.

Definition get_channels (app_id : string) (r : RestRequest) (s : AppState A)
    : AppState A * result Value RestError :=
  let '(s, adm) := admit_read app_id r s in
  (s,
   let? (app, params) := adm in
   let prefix := params !! "filter_by_prefix" in
   let want_user_count := wants (params !! "info") "user_count" in
   let want_subscription_count := wants (params !! "info") "subscription_count" in
   if want_user_count && negb match prefix with Some p => Str.starts_with "presence-" p | None => false end
   then Err (bad_request "user_count is only allowed when filtering by presence channels")
   else if wants (params !! "info") "cache" then Err (bad_request "cache is not available when listing channels")
   else
     let attrs sum :=
       JObject (summary_attrs want_user_count
                  (want_subscription_count && subscription_count_enabled app) sum) in
     let chans :=
       foldl (λ m sum, map_insert (cs_name sum) (attrs sum) m) [] (ad_channels (App.app_id app) prefix (as_world s)) in
     Ok (JObject [("channels", JObject chans)])).

Definition get_channel (app_id channel : string) (r : RestRequest) (s : AppState A)
    : AppState A * result Value RestError :=
  let '(s, adm) := admit_read app_id r s in
  (s,
   let? (app, params) := adm in
   let want := wants (params !! "info") in
   let info := ChannelInfo_of channel in
   if want "user_count" && bool_decide (ci_auth info ≠ Presence)
   then Err (bad_request "user_count is only available for presence channels")
   else if want "subscription_count" && bool_decide (ci_auth info = Presence)
   then Err (bad_request "subscription_count is not available for presence channels")
   else if want "cache" && negb (ci_cache info) then Err (bad_request "cache is only available for cache channels")
   else
     let sum := ad_channel (App.app_id app) channel (as_world s) in
     let out := [("occupied", JBool (cs_occupied sum))] in
     let out :=
       if want "subscription_count" && subscription_count_enabled app
       then map_insert "subscription_count" (json_nat (cs_subscription_count sum)) out else out in
     let out :=
       match cs_user_count sum with
       | Some uc => if want "user_count" then map_insert "user_count" (json_nat uc) out else out
       | None => out
       end in
     let out :=
       if want "cache" then
         let v :=
           match ad_cache_get (App.app_id app) channel (as_world s) with
           | Some e => JObject [("data", JString (ce_data e)); ("ttl", json_uint (c_cache_ttl_secs (as_config s)))]
           | None => JNull
           end in
         map_insert "cache" v out
       else out in
     Ok (JObject out)).

Definition get_users (app_id channel : string) (r : RestRequest) (s : AppState A)
    : AppState A * result Value RestError :=
  let '(s, adm) := admit_read app_id r s in
  (s,
   let? (app, _) := adm in
   if bool_decide (ci_auth (ChannelInfo_of channel) ≠ Presence)
   then Err (bad_request "Only presence channels allow this functionality")
   else
     let user m := JObject [("id", JString (pm_user_id m))] in
     Ok (JObject [("users", JArray (user <$> ad_presence_members (App.app_id app) channel (as_world s)))])).

Definition terminate_user_connections (app_id user_id : string) (r : RestRequest) (s : AppState A)
    : AppState A * result Value RestError :=
  match
    (let? body := map_err (rq_body r) in
     let? params := map_err (rq_query r) in
     authenticate s app_id "POST" (rq_path r) params body (rq_now_unix r))
  with
  | Err e => (s, Err e)
  | Ok app => (with_world (ad_terminate_user (App.app_id app) user_id (as_world s)).1 s, Ok (JObject []))
  end.

(** ** Routing *)

(** The routes of [merge], with their path parameters. *)
Inductive Endpoint : Type :=
| PostEvents (app_id : string)
| PostBatch (app_id : string)
| GetChannels (app_id : string)
| GetChannel (app_id channel : string)
| GetUsers (app_id channel : string)
| TerminateUser (app_id user_id : string).

Definition run_endpoint (ep : Endpoint) : RestRequest → AppState A → AppState A * result Value RestError :=
  match ep with
  | PostEvents app => post_events app
  | PostBatch app => post_batch app
  | GetChannels app => get_channels app
  | GetChannel app ch => get_channel app ch
  | GetUsers app ch => get_users app ch
  | TerminateUser app uid => terminate_user_connections app uid
  end.

(** The middleware around every route. *)
Definition node_rate_limit (next : RestRequest → AppState A → AppState A * result Value RestError)
    (r : RestRequest) (s : AppState A) : AppState A * result Value RestError :=
  let '(l, d) := check_node (rq_now r) (as_limits s) in
  let s := with_limits l s in
  match d with
  | Limited rate => (s, Err (too_many_requests "Rate limit exceeded" rate))
  | Allowed => next r s
  end.

(** [Json(v)] renders the value. *)
Definition render (r : result Value RestError) : Response :=
  match r with
  | Ok v => mkResponse 200 [("content-type", "application/json")] (to_string v)
  | Err e => RestError_into_response e
  end.

Definition rest_serve (ep : Endpoint) (r : RestRequest) (s : AppState A) : AppState A * Response :=
  let '(s, res) := node_rate_limit (run_endpoint ep) r s in (s, render res).

(** The limit on a request body. *)
Definition body_limit (config : ServerConfig) : Z :=
  U64.saturating_add (U64.saturating_mul (c_max_batch_events config) (c_max_event_payload_bytes config)) (64 * 1024).

(** ** Probes *)

Definition readiness (workers_up draining : bool) : bool := workers_up && negb draining.

Definition get_ready (workers_up : bool) (s : AppState A) : Z * string :=
  if readiness workers_up (as_draining s) then (200%Z, "ready")
  else if as_draining s then (503%Z, "draining")
  else (503%Z, "starting").

(** ** The admin endpoint *)

Inductive InvalidateAction : Type := Refresh | Remove.

Record InvalidateMsg : Type := mkInvalidateMsg {
  im_id : string;
  im_key : string;
  im_action : InvalidateAction
}.

Definition action_of_name (n : string) : option InvalidateAction :=
  if decide (n = "refresh") then Some Refresh else if decide (n = "remove") then Some Remove else None.

Definition de_action (v : Value) : option InvalidateAction :=
  match v with
  | JString n => action_of_name n
  | JObject [(n, JNull)] => action_of_name n
  | _ => None
  end.

Definition build_invalidate (key action : option Value) : option (string * InvalidateAction) :=
  key ← required de_string key;
  action ← defaulted Refresh de_action action;
  Some (key, action).

Definition de_invalidate_body (v : Value) : option (string * InvalidateAction) :=
  match v with
  | JObject m => key ← member_of "key" m; action ← member_of "action" m; build_invalidate key action
  | JArray l => if (2 <? length l)%nat then None else build_invalidate (l !! 0) (l !! 1)
  | _ => None
  end.

Definition check_token (expected presented : string) : bool :=
  (String.length presented =? String.length expected)%nat && bool_decide (presented = expected).

(** [HeaderValue::to_str]: visible ASCII and tabs. *)
Definition header_to_str (v : string) : option string :=
  if Str.all (λ c, ((32 <=? u8_of_ascii c)%Z && (u8_of_ascii c <? 127)%Z) || (u8_of_ascii c =? 9)%Z) v
  then Some v else None.

(** [publish] is what the invalidator answers; the messages it was given come
    back with the result. *)
Definition post_invalidate (config : ServerConfig) (publish : option (InvalidateMsg → result unit string))
    (app_id : string) (authorization : option string) (body : result string Rejection)
    : list InvalidateMsg * result Z RestError :=
  match c_app_admin_token config with
  | None => ([], Err (not_found "admin api disabled"))
  | Some expected =>
      match map_err body with
      | Err e => ([], Err e)
      | Ok body =>
          let presented := default EmptyString
            (v ← authorization; v ← header_to_str v; Str.strip_prefix "Bearer " v) in
          if negb (check_token expected presented) then ([], Err (unauthorized "invalid admin token"))
          else
            match tree_from_slice body ≫= de_invalidate_body with
            | None => ([], Err (bad_request ("invalid body: " +:+ tree_error body)))
            | Some (key, action) =>
                match publish with
                | Some inv =>
                    let msg := mkInvalidateMsg app_id key action in
                    ([msg],
                     match inv msg with
                     | Ok _ => Ok 202%Z
                     | Err e => Err (service_unavailable ("invalidate publish failed: " +:+ e))
                     end)
                | None => ([], Err (service_unavailable "invalidation requires PYLON_APP_CACHE_REDIS_URL"))
                end
            end
      end
  end.
End rest.
