(* ===== verification/RestProps.v ===== *)
(** * What the REST API guarantees

    Properties of the endpoints of Rest.v: who may act, what a refused request
    leaves behind, and that an accepted publish reaches the subscribers through
    the workers' inboxes. *)

From S2P Require Import Prelude RustStd Json JsonDemo Envelope Protocol SocketIds Kind Text.
From S2P Require Import ChannelState Frame Fanout WorkerIndex WorkerDrain Adapter Auth App ClusterNode.
From S2P Require Import Rate Config RestLimits Handshake Rest.

(** ** Who may act *)

Section acting.
Context `{SerdeJson, SerdeTree, Crypto, UnicodeCase, IdleCache, Adapter A}.

Definition endpoint_app (ep : Endpoint) : string :=
  match ep with
  | PostEvents a | PostBatch a | GetChannels a | GetChannel a _ | GetUsers a _ | TerminateUser a _ => a
  end.

Definition endpoint_method (ep : Endpoint) : string :=
  match ep with PostEvents _ | PostBatch _ | TerminateUser _ _ => "POST" | _ => "GET" end.

(** What is signed: the body of a POST, nothing for a GET. *)
Definition signed_body (ep : Endpoint) (r : RestRequest) : result string Rejection :=
  match ep with PostEvents _ | PostBatch _ | TerminateUser _ _ => rq_body r | _ => Ok EmptyString end.

(** The request is signed with the secret of the enabled app it names. *)
Definition signed (ep : Endpoint) (r : RestRequest) (s : AppState A) (app : App) : Prop :=
  ∃ params body, rq_query r = Ok params ∧ signed_body ep r = Ok body ∧
    am_by_id (as_apps s) (endpoint_app ep) = Ok (Found app) ∧
    rest_verify (app_key app) (app_secret app) (endpoint_method ep) (rq_path r) params body (rq_now_unix r)
      (c_rest_auth_window_secs (as_config s)) = Ok tt.

Lemma authenticate_Ok (s : AppState A) id method path params body now app :
  authenticate s id method path params body now = Ok app →
  am_by_id (as_apps s) id = Ok (Found app) ∧
  rest_verify (app_key app) (app_secret app) method path params body now
    (c_rest_auth_window_secs (as_config s)) = Ok tt.
Proof.
  unfold authenticate. destruct (am_by_id (as_apps s) id) as [[a| |]|]; try done.
  destruct (rest_verify _ _ _ _ _ _ _ _) as [[]|] eqn:E; [|done]. by intros [= <-].
Qed.

Lemma map_err_Ok {T} (r : result T Rejection) x : map_err r = Ok x → r = Ok x.
Proof. destruct r; simpl; congruence. Qed.

(** What the endpoint answers to a request without a valid signature. *)
Definition refusal_of (r : RestRequest) (e : RestError) : Prop :=
  re_status e = 401%Z ∨ re_status e = 403%Z ∨ re_status e = 503%Z ∨
  ∃ j, e = from_rejection j ∧ (rq_query r = Err j ∨ rq_body r = Err j).

Lemma map_err_Err {T} (x : result T Rejection) e : map_err x = Err e → ∃ j, x = Err j ∧ e = from_rejection j.
Proof. destruct x as [|j]; simpl; [done|]. intros [= <-]. by exists j. Qed.

Lemma authenticate_Err (s : AppState A) id method path params body now e r :
  authenticate s id method path params body now = Err e → refusal_of r e.
Proof.
  unfold authenticate, refusal_of. destruct (am_by_id _ _) as [[app| |]|].
  - destruct (rest_verify _ _ _ _ _ _ _ _); [done|]. intros [= <-]. by left.
  - intros [= <-]. by right; left.
  - intros [= <-]. by left.
  - intros [= <-]. by right; right; left.
Qed.

Lemma unsigned_endpoint (ep : Endpoint) (r : RestRequest) (s : AppState A) :
  ¬ (∃ app, signed ep r s app) → ∃ e, run_endpoint ep r s = (s, Err e) ∧ refusal_of r e.
Proof.
  intros Hns.
  assert (∀ e, map_err (rq_query r) = Err e → refusal_of r e) as Hqe.
  { intros e (j & Hj & ->)%map_err_Err. right; right; right. exists j. auto. }
  assert (∀ e, map_err (rq_body r) = Err e → refusal_of r e) as Hbe.
  { intros e (j & Hj & ->)%map_err_Err. right; right; right. exists j. auto. }
  assert (∀ id, endpoint_app ep = id → endpoint_method ep = "GET" → signed_body ep r = Ok EmptyString →
    ∃ e, admit_read id r s = (s, Err e) ∧ refusal_of r e) as Hget.
  { intros id Hid Hm Hb. unfold admit_read.
    destruct (map_err (rq_query r)) as [params|e] eqn:Hq; [|eexists; split; [done|auto]].
    destruct (authenticate _ _ _ _ _ _ _) as [app|e] eqn:Ha; [|eexists; split; [done|by eapply authenticate_Err]].
    exfalso. apply authenticate_Ok in Ha as [Hf Hv]. apply map_err_Ok in Hq. apply Hns.
    exists app, params, EmptyString. by rewrite Hid, Hm. }
  destruct ep as [id|id|id|id ch|id ch|id uid]; cbn [run_endpoint endpoint_app] in *.
  1,2,6: unfold post_events, post_batch, terminate_user_connections;
    destruct (map_err (rq_body r)) as [body|e] eqn:Hb; [|eexists; split; [done|auto]];
    destruct (map_err (rq_query r)) as [params|e] eqn:Hq; [|eexists; split; [done|auto]];
    destruct (authenticate s id "POST" (rq_path r) params body (rq_now_unix r)) as [app|e] eqn:Ha;
      [|eexists; split; [done|by eapply authenticate_Err]];
    exfalso; apply authenticate_Ok in Ha as [Hf Hv]; apply Hns; exists app, params, body; auto using map_err_Ok.
  all: destruct (Hget id eq_refl eq_refl eq_refl) as (e & He & Hr);
    unfold get_channels, get_channel, get_users; rewrite He; by eexists.
Qed.

(** C15. A served request that is not signed with the secret of the enabled app it
    names changes nothing but the node's own request limit, from which it takes
    what any request takes: no delivery, no cached event, no closed connection,
    no token of an app's bucket. It is answered 429 when that limit refuses it,
    and otherwise 401, 403, 503 or as the framework refused its query or body. *)
Theorem unsigned_request_inert (ep : Endpoint) (r : RestRequest) (s : AppState A) :
  ¬ (∃ app, signed ep r s app) →
  let '(l, d) := check_node (rq_now r) (as_limits s) in
  (rl_heap l = rl_heap (as_limits s) ∧ rl_events l = rl_events (as_limits s) ∧
   rl_reads l = rl_reads (as_limits s)) ∧
  ∃ e, rest_serve ep r s = (with_limits l s, RestError_into_response e) ∧
    match d with
    | Limited rate => e = too_many_requests "Rate limit exceeded" rate
    | Allowed => refusal_of r e
    end.
Proof.
  intros Hns. unfold rest_serve, node_rate_limit.
  assert (rl_heap (check_node (rq_now r) (as_limits s)).1 = rl_heap (as_limits s) ∧
    rl_events (check_node (rq_now r) (as_limits s)).1 = rl_events (as_limits s) ∧
    rl_reads (check_node (rq_now r) (as_limits s)).1 = rl_reads (as_limits s)) as Hl.
  { unfold check_node. destruct (_ =? 0)%Z; [done|]. destruct (limits_decide _ _ _) as [b []]; done. }
  destruct (check_node (rq_now r) (as_limits s)) as [l [|rate]]; (split; [exact Hl|]); [|by eexists].
  destruct (unsigned_endpoint ep r (with_limits l s)) as (e & -> & He).
  { intros (app & Hs). apply Hns. by exists app. }
  by exists e.
Qed.
End acting.

(** ** Publishing *)

Section publishing.
Context `{SerdeJson, SerdeTree, Crypto, UnicodeCase, IdleCache}.

(** What a request asks to publish, when every check of it passes. *)
Definition publication (ep : Endpoint) (r : RestRequest) (config : ServerConfig)
    : result (list Delivery) RestError :=
  match ep, rq_query r, rq_body r with
  | PostEvents _, Ok params, Ok body =>
      match merged_trigger_body body params with
      | Ok t =>
          match validate_trigger config t with
          | Ok channels => Ok ((λ ch, mkDelivery ch (tr_name t) (tr_data t) (tr_socket_id t)) <$> channels)
          | Err e => Err e
          end
      | Err e => Err e
      end
  | PostBatch _, Ok _, Ok body =>
      match parse_batch config body with
      | Ok batch => match validate_batch config batch with Ok _ => Ok (item_delivery <$> batch) | Err e => Err e end
      | Err e => Err e
      end
  | _, _, _ => Err (not_found EmptyString)
  end.

(** The units a publish takes from the app's bucket. *)
Definition publish_cost (ep : Endpoint) (ds : list Delivery) : Z :=
  match ep with PostBatch _ => (Z.of_nat (length ds) mod 2 ^ 32)%Z | _ => 1%Z end.

Section any_adapter.
Context `{Adapter A}.

(** One delivery, as the adapter sees it. *)
Definition delivery_step (ttl_secs : Z) (app_id : string) (w : A * Env) (d : Delivery)
    : (A * Env) * result unit BroadcastError :=
  let event := ChannelEvent (dl_channel d) (dl_name d) (JString (dl_data d)) None in
  match Str.strip_prefix SERVER_TO_USER_PREFIX (dl_channel d) with
  | Some user_id => (if Str.is_empty user_id then w else ad_send_to_user app_id user_id event w, Ok tt)
  | None =>
      let w :=
        if ci_cache (ChannelInfo_of (dl_channel d))
        then ad_cache_set app_id (dl_channel d) (mkCachedEvent (dl_name d) (dl_data d)) (ttl_secs * 1000000000) w
        else w in
      ad_broadcast app_id (dl_channel d) event (SocketId.from_raw <$> dl_socket_id d) w
  end.

Definition handed (ttl_secs : Z) (app_id : string) (w : A * Env) (ds : list Delivery) : A * Env :=
  foldl (λ w d, (delivery_step ttl_secs app_id w d).1) w ds.

Lemma deliver_by_step app_id d (s : AppState A) :
  let '(w, res) := delivery_step (c_cache_ttl_secs (as_config s)) app_id (as_world s) d in
  let '(s', r) := deliver app_id (dl_channel d) (dl_name d) (dl_data d) (dl_socket_id d) s in
  as_world s' = w ∧ as_config s' = as_config s ∧
  r = match res with Ok _ => Ok tt | Err _ => Err (service_unavailable "cluster publish failed") end.
Proof.
  unfold deliver, delivery_step. destruct (Str.strip_prefix _ _) as [uid|].
  { by destruct (Str.is_empty uid). }
  set (s1 := if ci_cache _ then _ else s). set (w1 := if ci_cache _ then _ else as_world s).
  assert (as_world s1 = w1 ∧ as_config s1 = as_config s) as [-> Hc] by (subst s1 w1; by destruct (ci_cache _)).
  destruct (ad_broadcast _ _ _ _ w1) as [w2 [[]|e]]; done.
Qed.

(** The loop hands over everything, or leaves at the first refusal. *)
Lemma rest_deliver_all_spec app_id ds : ∀ s : AppState A,
  let ttl := c_cache_ttl_secs (as_config s) in
  let '(s', r) := deliver_all app_id ds s in
  match r with
  | Ok _ => as_world s' = handed ttl app_id (as_world s) ds
  | Err e =>
      ∃ k d err, ds !! k = Some d ∧
        (delivery_step ttl app_id (handed ttl app_id (as_world s) (take k ds)) d).2 = Err err ∧
        as_world s' = handed ttl app_id (as_world s) (take (S k) ds) ∧
        e = service_unavailable "cluster publish failed"
  end.
Proof.
  induction ds as [|d ds IH]; intros s ttl; [done|]. cbn [deliver_all].
  pose proof (deliver_by_step app_id d s) as Hd. fold ttl in Hd.
  destruct (delivery_step ttl app_id (as_world s) d) as [w res] eqn:Hst.
  destruct (deliver _ _ _ _ _ s) as [s1 r]. destruct Hd as (Hw & Hc & ->).
  assert ((delivery_step ttl app_id (as_world s) d).1 = w) as Hst1 by by rewrite Hst.
  destruct res as [[]|err].
  - specialize (IH s1). cbv zeta in IH. rewrite Hc in IH. fold ttl in IH. rewrite Hw in IH.
    destruct (deliver_all app_id ds s1) as [s' [[]|e]].
    + unfold handed. simpl. by rewrite Hst1.
    + destruct IH as (k & d' & err & Hk & He & Hs & Hm). exists (S k), d', err.
      unfold handed in *. simpl. by rewrite Hst1.
  - exists 0, d, err. split; [done|]. unfold handed. simpl. rewrite Hst. by destruct ds.
Qed.

Definition is_publish (ep : Endpoint) : Prop := ∃ id, ep = PostEvents id ∨ ep = PostBatch id.

(** A publish with every check passed comes down to its deliveries. *)
Lemma publish_accepted ep r (s : AppState A) app ds :
  is_publish ep → signed ep r s app → state_is_saturated s = false → publication ep r (as_config s) = Ok ds →
  (check_app_events app (publish_cost ep ds) (rq_now r) (as_limits s)).2 = Allowed →
  ∃ s1 (f : AppState A → Value), as_world s1 = as_world s ∧ as_config s1 = as_config s ∧
    run_endpoint ep r s =
    match deliver_all (app_id app) ds s1 with (s', Ok _) => (s', Ok (f s')) | (s', Err e) => (s', Err e) end.
Proof.
  intros [id [-> | ->]] (params & body & Hq & Hb & Hf & Hv) Hsat Hpub Hlim; cbn [run_endpoint];
    simpl in Hb, Hv, Hf; unfold publication in Hpub; rewrite Hq, Hb in Hpub; simpl in Hlim.
  - unfold post_events. rewrite Hb, Hq. cbn [map_err]. unfold authenticate. rewrite Hf, Hv, Hsat.
    destruct (check_app_events _ _ _ _) as [l d]. simpl in Hlim. subst d.
    destruct (merged_trigger_body body params) as [t|]; [|done].
    change (as_config (with_limits l s)) with (as_config s).
    destruct (validate_trigger (as_config s) t) as [channels|]; [|done]. injection Hpub as <-.
    by exists (with_limits l s), (trigger_response app t channels).
  - unfold post_batch. rewrite Hb, Hq. cbn [map_err]. unfold authenticate. rewrite Hf, Hv, Hsat.
    destruct (parse_batch (as_config s) body) as [batch|]; [|done].
    destruct (validate_batch (as_config s) batch) as [[]|] eqn:Hvb; [|done]. injection Hpub as <-.
    rewrite length_fmap in Hlim. destruct (check_app_events _ _ _ _) as [l d]. simpl in Hlim. subst d.
    change (as_config (with_limits l s)) with (as_config s). rewrite Hvb.
    by exists (with_limits l s), (batch_response app batch).
Qed.

(** A publish that hands anything over is signed, admitted and valid. *)
Lemma publish_refused ep r (s : AppState A) :
  is_publish ep →
  (∃ app ds, signed ep r s app ∧ state_is_saturated s = false ∧ publication ep r (as_config s) = Ok ds ∧
    (check_app_events app (publish_cost ep ds) (rq_now r) (as_limits s)).2 = Allowed) ∨
  ∃ s' e, run_endpoint ep r s = (s', Err e) ∧ as_world s' = as_world s.
Proof.
  intros [id [-> | ->]]; cbn [run_endpoint].
  - unfold post_events.
    destruct (map_err (rq_body r)) as [body|e] eqn:Hb; [|right; by eexists _, _]. apply map_err_Ok in Hb.
    destruct (map_err (rq_query r)) as [params|e] eqn:Hq; [|right; by eexists _, _]. apply map_err_Ok in Hq.
    destruct (authenticate _ _ _ _ _ _ _) as [app|e] eqn:Ha; [|right; by eexists _, _].
    apply authenticate_Ok in Ha as [Hf Hv].
    destruct (state_is_saturated s) eqn:Hsat; [right; by eexists _, _|].
    destruct (check_app_events app 1 _ _) as [l [|rate]] eqn:Hl; [|right; by eexists _, _].
    destruct (merged_trigger_body body params) as [t|e] eqn:Ht; [|right; by eexists _, _].
    change (as_config (with_limits l s)) with (as_config s).
    destruct (validate_trigger (as_config s) t) as [channels|e] eqn:Hch; [|right; by eexists _, _].
    left. eexists app, _. split_and!; [by exists params, body|done|unfold publication; by rewrite Hq, Hb, Ht, Hch|].
    simpl. by rewrite Hl.
  - unfold post_batch.
    destruct (map_err (rq_body r)) as [body|e] eqn:Hb; [|right; by eexists _, _]. apply map_err_Ok in Hb.
    destruct (map_err (rq_query r)) as [params|e] eqn:Hq; [|right; by eexists _, _]. apply map_err_Ok in Hq.
    destruct (authenticate _ _ _ _ _ _ _) as [app|e] eqn:Ha; [|right; by eexists _, _].
    apply authenticate_Ok in Ha as [Hf Hv].
    destruct (state_is_saturated s) eqn:Hsat; [right; by eexists _, _|].
    destruct (parse_batch (as_config s) body) as [batch|e] eqn:Hp; [|right; by eexists _, _].
    destruct (check_app_events _ _ _ _) as [l [|rate]] eqn:Hl; [|right; by eexists _, _].
    change (as_config (with_limits l s)) with (as_config s).
    destruct (validate_batch (as_config s) batch) as [[]|e] eqn:Hvb; [|right; by eexists _, _].
    left. eexists app, _. split_and!; [by exists params, body|done|unfold publication; by rewrite Hq, Hb, Hp, Hvb|].
    simpl. rewrite length_fmap. by rewrite Hl.
Qed.

(** C16. What a publish leaves behind, also a batch, through any adapter. Accepted,
    it is signed, the node was not saturated, every check of every event passed,
    and the events were handed to the adapter in order. Refused, no event of it
    was handed over and no cache was written, with one exception: when the
    adapter refuses a broadcast, the events up to that one have been handed over
    and the answer is 503. An adapter that refuses no broadcast, as that of a
    single node, makes it all or nothing. *)
Theorem publish_all_or_nothing (ep : Endpoint) (r : RestRequest) (s : AppState A) :
  is_publish ep →
  let ttl := c_cache_ttl_secs (as_config s) in
  let '(s', res) := run_endpoint ep r s in
  match res with
  | Ok _ =>
      ∃ app ds, signed ep r s app ∧ state_is_saturated s = false ∧ publication ep r (as_config s) = Ok ds ∧
        as_world s' = handed ttl (app_id app) (as_world s) ds
  | Err e =>
      as_world s' = as_world s ∨
      ∃ app ds k d err, signed ep r s app ∧ publication ep r (as_config s) = Ok ds ∧ ds !! k = Some d ∧
        (delivery_step ttl (app_id app) (handed ttl (app_id app) (as_world s) (take k ds)) d).2 = Err err ∧
        as_world s' = handed ttl (app_id app) (as_world s) (take (S k) ds) ∧
        e = service_unavailable "cluster publish failed"
  end ∧
  ((∀ app ch ev ex w, (ad_broadcast app ch ev ex w).2 = Ok tt) → ∀ e, res = Err e → as_world s' = as_world s).
Proof.
  intros Hep ttl. destruct (publish_refused ep r s Hep) as [(app & ds & Hsig & Hsat & Hpub & Hlim)|(s' & e & -> & Hw)].
  2:{ split; [by left|done]. }
  destruct (publish_accepted ep r s app ds Hep Hsig Hsat Hpub Hlim) as (s1 & f & Hw1 & Hc1 & ->).
  pose proof (rest_deliver_all_spec (app_id app) ds s1) as Hd. cbv zeta in Hd. rewrite Hw1, Hc1 in Hd. fold ttl in Hd.
  destruct (deliver_all (app_id app) ds s1) as [s' [[]|e]].
  - split; [by exists app, ds|done].
  - destruct Hd as (k & d & err & Hk & Herr & Hw & ->).
    split; [right; by exists app, ds, k, d, err|]. intros Hnever.
    exfalso. unfold delivery_step in Herr. destruct (Str.strip_prefix _ _); [done|]. by rewrite Hnever in Herr.
Qed.
End any_adapter.

Section single_node.
Context `{Moka}.




(** *** Through the workers *)




End single_node.
End publishing.

(** ** Batches above the rate of an app *)

Section oversized.
Context `{SerdeJson, SerdeTree, Crypto, UnicodeCase, IdleCacheLaws, Adapter A}.

(** An app may be given a rate of events of its own that is below the size of a
    batch the node takes; start-up checks only the node's own rate. Such a
    batch is then refused at every time and whatever came before, with a
    request to retry that cannot succeed. *)
Theorem small_app_rate_rejects_batches (id : string) (r : RestRequest) (s : AppState A)
    (origin : Z) (qs : list (Z * Check)) (app : App) (rate : Z) (body : string) (batch : list BatchItem) :
  as_limits s = (checks qs (RestRateLimits_new (as_config s) origin)).1 →
  signed (PostBatch id) r s app → state_is_saturated s = false →
  rq_body r = Ok body → parse_batch (as_config s) body = Ok batch →
  max_backend_events_per_second app = Some rate → (0 < rate < Z.of_nat (length batch))%Z →
  (Z.of_nat (length batch) <= U32_MAX)%Z →
  ∃ s' h, run_endpoint (PostBatch id) r s = (s', Err (too_many_requests "Rate limit exceeded" h)) ∧
    (1 <= rh_retry_after_secs h)%Z ∧ as_world s' = as_world s.
Proof.
  intros Hl (params & body' & Hq & Hb' & Hf & Hv) Hsat Hb Hp Hrate Hrc Hmax.
  simpl in Hb'. rewrite Hb in Hb'. injection Hb' as <-. cbn [run_endpoint endpoint_app endpoint_method] in *.
  unfold post_batch. rewrite Hb, Hq. cbn [map_err]. unfold authenticate. rewrite Hf, Hv, Hsat, Hp.
  rewrite Z.mod_small by (unfold U32_MAX in Hmax; lia).
  assert (heap_ok (as_limits s)) as Hok.
  { rewrite Hl. apply checks_heap. intros i b. simpl. by rewrite lookup_empty. }
  destruct (check_app_events_oversized app rate _ (rq_now r) (as_limits s) Hok Hrate Hrc Hmax) as (h & Hd & _ & Hh).
  destruct (check_app_events _ _ _ _) as [l d]. simpl in Hd. subst d. by exists (with_limits l s), h.
Qed.
End oversized.

(** ** The admin token *)

Section admin.
Context `{SerdeTree, UnicodeCase}.

Lemma check_token_true expected presented : check_token expected presented = true ↔ presented = expected.
Proof.
  unfold check_token. rewrite andb_true_iff, bool_decide_eq_true, Nat.eqb_eq. split; [by intros [_ ?]|by intros ->].
Qed.

(** With a token that is not empty the admin endpoint publishes only for a
    request that presents it. *)
Lemma admin_publishes_for_token config publish app_id authorization body token :
  c_app_admin_token config = Some token → token ≠ EmptyString →
  (post_invalidate config publish app_id authorization body).1 ≠ [] →
  authorization = Some ("Bearer " +:+ token).
Proof.
  intros Ht Hne Hp. unfold post_invalidate in Hp. rewrite Ht in Hp. destruct (map_err body) as [b|e]; [|done].
  match type of Hp with context [check_token token ?p] => set (presented := p) in Hp end.
  destruct (check_token token presented) eqn:Hc; [|done]. apply check_token_true in Hc.
  subst presented. clear Hp.
  match type of Hc with from_option _ _ ?o = _ => destruct o as [t|] eqn:E end; [|exfalso; exact (Hne (eq_sym Hc))].
  change (t = token) in Hc. subst t.
  apply bind_Some in E as (v & -> & E). apply bind_Some in E as (v' & Hv & E).
  unfold header_to_str in Hv. case_match; [|done]. injection Hv as <-. apply Str.strip_prefix_Some in E. by subst.
Qed.

(** An empty PYLON_ADMIN_TOKEN arms the admin endpoint with the empty token,
    which a request without any Authorization header presents: on a node that
    starts with it, anyone can have the connections of an app removed. *)
Theorem empty_admin_token_opens_admin (env : string → option string) (config : ServerConfig)
    (publish : InvalidateMsg → result unit string) (app_id body key : string) (action : InvalidateAction) :
  env "PYLON_ADMIN_TOKEN" = Some EmptyString → from_env env = Ok config →
  tree_from_slice body ≫= de_invalidate_body = Some (key, action) →
  (post_invalidate config (Some publish) app_id None (Ok body)).1 = [mkInvalidateMsg app_id key action].
Proof.
  intros Henv Hc Hb. apply from_env_admin_token in Hc. rewrite Henv in Hc.
  unfold post_invalidate. rewrite Hc. cbn [map_err option_bind mbind from_option default]. simpl. by rewrite Hb.
Qed.
End admin.
