(* ===== verification/RestWitness.v ===== *)
(** * The REST API at concrete requests

    A node with one app and two workers, and signed requests to it, at which
    the properties of RestProps.v apply. *)

From S2P Require Import Prelude RustStd Json JsonDemo Envelope Protocol SocketIds Kind Registry UserRegistry.
From S2P Require Import ChannelState Frame Fanout WorkerIndex WorkerDrain Mailbox Adapter Auth App ClusterNode.
From S2P Require Import Rate Config RestLimits Handshake Rest RestProps.

Module RestDemo.
#[export] Instance json : SerdeJson := JsonDemo.demo.
#[export] Instance tree : SerdeTree := {| tree_from_slice := JsonDemo.parse_text; tree_error _ := "expected value" |}.
#[export] Instance crypto : Crypto := AuthDemo.crypto.
#[export] Instance case : UnicodeCase := AuthDemo.case.
#[export] Instance cache : IdleCache := IdleCacheDemo.cache.
#[export] Instance cache_laws : IdleCacheLaws := IdleCacheDemo.cache_laws.
#[export] Instance moka : Moka := MokaDemo.store.

(** Two events a second for this app. *)
Definition app : App :=
  mkApp "demo" "app" "key" "secret" true false 0 (Some 2%Z) None true [] false false false false false false false.

Definition apps : AppManager :=
  mkAppManager (λ _, Ok NotFound) (λ id, Ok (if decide (id = "app") then Found app else NotFound)) (λ _, None) None.

Definition adapter : LocalAdapter := set_broadcast_sink [0; 1] (LocalAdapter_new ∅ ∅).

Definition slot : WorkerSlot := mkWorkerSlot [] 4 false (Some 0) 0 false.
Definition env : Env := mkEnv (mkStore ∅ ∅ ∅ ∅) (mkPercore {[0 := slot; 1 := slot]} false (Some [0; 1])) 1000.

Definition state : AppState LocalAdapter :=
  mkAppState ServerConfig_default apps (adapter, env) true false None (RestRateLimits_new ServerConfig_default 0).

(** A signed POST. *)
Definition request (path body : string) : RestRequest :=
  let md5 := "md5-" +:+ body in
  let params : gmap string string :=
    <["auth_key" := "key"]> (<["auth_timestamp" := "100"]> (<["auth_version" := "1.0"]> {["body_md5" := md5]})) in
  let signature := "secret/" +:+ signing_string "POST" path params in
  mkRestRequest path (Ok (<["auth_signature" := signature]> params)) (Ok body) 120 5000.

Definition event : string :=
  JsonDemo.show (JObject [("name", JString "greet"); ("data", JString "hi"); ("channel", JString "room")]).
Definition publish : RestRequest := request "/apps/app/events" event.

Definition item : Value :=
  JObject [("name", JString "greet"); ("data", JString "hi"); ("channel", JString "room")].
Definition three : string := JsonDemo.show (JObject [("batch", JArray [item; item; item])]).
Definition batch : RestRequest := request "/apps/app/batch_events" three.

Definition unsigned : RestRequest := mkRestRequest "/apps/app/events" (Ok ∅) (Ok event) 120 5000.
End RestDemo.

Import RestDemo.


Lemma unsigned_request_inert_witness :
  ∃ e, rest_serve (PostEvents "app") unsigned state =
    (with_limits (check_node 5000 (as_limits state)).1 state, RestError_into_response e) ∧ refusal_of unsigned e.
Proof.
  pose proof (unsigned_request_inert (PostEvents "app") unsigned state) as Hu.
  assert ((check_node 5000 (as_limits state)).2 = Allowed) as Hd by (vm_compute; reflexivity).
  change (rq_now unsigned) with 5000%Z in Hu.
  destruct (check_node 5000 (as_limits state)) as [l d]. simpl in Hd. subst d. apply Hu.
  intros (a & params & body & Hq & _ & _ & Hv). injection Hq as <-. vm_compute in Hv. discriminate Hv.
Defined.

Lemma publish_all_or_nothing_witness :
  match run_endpoint (PostEvents "app") publish state with
  | (s', Ok v) => v = JObject [] ∧ ∃ a ds,
      signed (PostEvents "app") publish state a ∧ state_is_saturated state = false ∧
      publication (PostEvents "app") publish ServerConfig_default = Ok ds ∧
      as_world s' = handed 1800 (app_id a) (adapter, env) ds
  | _ => False
  end.
Proof.
  pose proof (publish_all_or_nothing (PostEvents "app") publish state (ex_intro _ "app" (or_introl eq_refl))) as Hp.
  destruct (run_endpoint (PostEvents "app") publish state) as [s' [v|e]] eqn:E.
  - split; [|exact (proj1 Hp)]. apply (f_equal snd) in E. vm_compute in E. by injection E as <-.
  - apply (f_equal snd) in E. vm_compute in E. discriminate E.
Defined.


Lemma small_app_rate_rejects_batches_witness :
  ∃ s' h, run_endpoint (PostBatch "app") batch state = (s', Err (too_many_requests "Rate limit exceeded" h)) ∧
    (1 <= rh_retry_after_secs h)%Z ∧ as_world s' = as_world state.
Proof.
  destruct (parse_batch ServerConfig_default three) as [items|] eqn:E; [|vm_compute in E; discriminate E].
  apply (small_app_rate_rejects_batches "app" batch state 0 [] app 2 three items).
  - reflexivity.
  - eexists _, _. split; [reflexivity|]. split; [reflexivity|]. split; vm_compute; reflexivity.
  - vm_compute. reflexivity.
  - reflexivity.
  - exact E.
  - reflexivity.
  - vm_compute in E. injection E as <-. simpl. lia.
  - vm_compute in E. injection E as <-. unfold U32_MAX. simpl. lia.
Defined.

Lemma empty_admin_token_opens_admin_witness :
  let env name := if decide (name = "PYLON_ADMIN_TOKEN") then Some EmptyString else None in
  ∃ config, from_env env = Ok config ∧
    (post_invalidate config (Some (λ _, Ok tt)) "app" None
       (Ok (JsonDemo.show (JObject [("key", JString "key"); ("action", JString "remove")])))).1 =
    [mkInvalidateMsg "app" "key" Remove].
Proof.
  intros env. destruct (from_env env) as [config|] eqn:E; [|vm_compute in E; discriminate E].
  exists config. split; [done|]. apply (empty_admin_token_opens_admin env); [reflexivity|exact E|vm_compute; reflexivity].
Defined.
