(* ===== verification/AppStores.v ===== *)
(** * App stores: [src/src/app/static_file.rs], [cache.rs], [l2.rs], [purger.rs], [invalidation.rs]

    The apps of a node come from a file, or from a database behind two levels of
    cache: one in memory with an entry per id and key, one shared through Redis.
    The caches are parameters that keep an entry for a time and may drop it
    before; the database is what it holds at the time of a query, or an error. *)

From S2P Require Import Prelude RustStd Json Envelope RedisStore Protocol Mailbox Registry UserRegistry.
From S2P Require Import Adapter Auth App Rest.
#[local] Open Scope rust_scope.

(** ** The static file *)

Definition de_bool (v : Value) : option bool := match v with JBool b => Some b | _ => None end.

Definition de_u32 (v : Value) : option Z :=
  match v with JNumber (PosInt n) => if (n <=? U32_MAX)%Z then Some n else None | _ => None end.

Definition de_opt {T} (de : Value → option T) (v : Value) : option (option T) :=
  match v with JNull => Some None | v => Some <$> de v end.

Definition de_vec {T} (de : Value → option T) (v : Value) : option (list T) := l ← as_array v; mapM de l.

(** A repeated key keeps its last value. *)
Definition de_string_map (v : Value) : option (gmap string string) :=
  match v with
  | JObject m => l ← mapM (λ q, v ← de_string q.2; Some (q.1, v)) m; Some (foldl (λ m q, <[q.1 := q.2]> m) ∅ l)
  | _ => None
  end.

(** The fields of a struct, from an object or from an array of at most this
    many elements. *)
Definition fields (names : list string) (v : Value) : option (list (option Value)) :=
  match v with
  | JObject m => mapM (λ n, member_of n m) names
  | JArray l => if (length names <? length l)%nat then None else Some ((λ i, l !! i) <$> seq 0 (length names))
  | _ => None
  end.

Definition de_webhook (v : Value) : option WebhookConfig :=
  fs ← fields ["url"; "event_types"; "headers"] v;
  match fs with
  | [url; event_types; headers] =>
      url ← required de_string url;
      event_types ← required (de_vec de_string) event_types;
      headers ← defaulted ∅ de_string_map headers;
      Some (mkWebhookConfig url event_types headers)
  | _ => None
  end.

Definition de_app (v : Value) : option App :=
  fs ← fields ["name"; "id"; "key"; "secret"; "enabled"; "client_messages_enabled"; "capacity";
               "max_backend_events_per_second"; "max_read_requests_per_second"; "subscription_count_enabled";
               "webhooks"] v;
  match fs with
  | [name; id; key; secret; enabled; client; capacity; events; reads; count; webhooks] =>
      name ← required de_string name;
      id ← required de_string id;
      key ← required de_string key;
      secret ← required de_string secret;
      enabled ← defaulted true de_bool enabled;
      client ← defaulted false de_bool client;
      capacity ← defaulted 0%Z de_u32 capacity;
      events ← defaulted None (de_opt de_u32) events;
      reads ← defaulted None (de_opt de_u32) reads;
      count ← defaulted false de_bool count;
      webhooks ← defaulted [] (de_vec de_webhook) webhooks;
      Some (mkApp name id key secret enabled client capacity events reads count webhooks
              false false false false false false false)
  | _ => None
  end.

(** The loop over the parsed apps, with the ids and keys seen so far. *)
Fixpoint load_apps (parsed : list App) (ids keys : gset string) : result (list App) string :=
  match parsed with
  | [] => Ok []
  | a :: parsed =>
      let a := recompute_has_flags a in
      let? _ := validate a in
      if decide (app_id a ∈ ids) then Err ("duplicate app id '" +:+ app_id a +:+ "'")
      else if decide (app_key a ∈ keys) then Err ("duplicate app key '" +:+ app_key a +:+ "'")
      else let? apps := load_apps parsed ({[app_id a]} ∪ ids) ({[app_key a]} ∪ keys) in Ok (a :: apps)
  end.

Definition from_json `{SerdeTree} (raw : string) : result (list App) string :=
  let? parsed := ok_or (tree_from_slice raw ≫= de_vec de_app) (tree_error raw) in
  load_apps parsed ∅ ∅.

Definition resolve (apps : list App) (pred : App → bool) : AppLookup :=
  match find pred apps with
  | Some a => if app_enabled a then Found a else Disabled
  | None => NotFound
  end.

Definition by_key (apps : list App) (key : string) : AppLookup := resolve apps (λ a, bool_decide (app_key a = key)).
Definition by_id (apps : list App) (id : string) : AppLookup := resolve apps (λ a, bool_decide (app_id a = id)).

Definition StaticFileAppManager (apps : list App) : AppManager :=
  mkAppManager (λ k, Ok (by_key apps k)) (λ i, Ok (by_id apps i)) (λ k, Some (Ok (by_key apps k)))
    (Some (app_id <$> apps)).

(** ** Caches that expire *)

(** A cache whose entries live for a time: [moka::future::Cache] with a
    capacity and a time to live, and a Redis keyspace written with one
    expiry. *)
Class TtlCache : Type := {
  tcache : Type → Type;
  tc_new {V} : Z → tcache V;
  tc_get {V} : string → Z → tcache V → option V;
  tc_insert {V} : string → V → Z → tcache V → tcache V;
  tc_remove {V} : string → tcache V → tcache V
}.

(** What an entry is: the value last inserted under its key, for less than the
    time to live; it may be gone before. *)
Class TtlCacheLaws `{TtlCache} : Type := {
  tc_ttl {V} : tcache V → Z;
  tc_content {V} : tcache V → gmap string (V * Z);
  tc_ttl_new {V} ttl : tc_ttl (tc_new ttl : tcache V) = ttl;
  tc_content_new {V} ttl : tc_content (tc_new ttl : tcache V) = ∅;
  tc_get_content {V} k now (c : tcache V) v :
    tc_get k now c = Some v → ∃ t, tc_content c !! k = Some (v, t) ∧ (now < t + tc_ttl c)%Z;
  tc_ttl_insert {V} k v now (c : tcache V) : tc_ttl (tc_insert k v now c) = tc_ttl c;
  tc_content_insert {V} k v now (c : tcache V) : tc_content (tc_insert k v now c) ⊆ <[k := (v, now)]> (tc_content c);
  tc_ttl_remove {V} k (c : tcache V) : tc_ttl (tc_remove k c) = tc_ttl c;
  tc_content_remove {V} k (c : tcache V) : tc_content (tc_remove k c) ⊆ delete k (tc_content c)
}.

Definition executed (f : Fate) : bool := match f with NotSent => false | _ => true end.
Definition answered (f : Fate) : bool := match f with Answered => true | _ => false end.

(** The JSON of an app. *)
Class AppJson : Type := {
  app_to_string : App → string;
  app_from_string : string → option App
}.

Inductive LookupBy : Type := Id (id : string) | Key (key : string).

#[export] Instance LookupBy_eq_dec : EqDecision LookupBy.
Proof. solve_decision. Defined.

Definition pkey (b : LookupBy) : string := match b with Id i => "id:" +:+ i | Key k => "key:" +:+ k end.

(** *** L2 *)

Definition DISABLED_MARKER : string := "__PYLON_APP_DISABLED__".

Definition l2_key (b : LookupBy) : string :=
  match b with Id i => "pylon:app:id:" +:+ i | Key k => "pylon:app:key:" +:+ k end.

Inductive L2Hit : Type := L2Found (a : App) | L2Disabled.

Section caching.
Context `{TtlCache, AppJson}.

Definition l2_get (f : Fate) (b : LookupBy) (now : Z) (l2 : tcache string) : result (option L2Hit) AppLookupError :=
  if answered f then
    match tc_get (l2_key b) now l2 with
    | None => Ok None
    | Some s =>
        if decide (s = DISABLED_MARKER) then Ok (Some L2Disabled)
        else
          match app_from_string s with
          | Some a => Ok (Some (L2Found (recompute_has_flags a)))
          | None => Err (Decode s)
          end
    end
  else Err (Backend "l2").

Definition l2_set (f : Fate) (b : LookupBy) (v : string) (now : Z) (l2 : tcache string) : tcache string :=
  if executed f then tc_insert (l2_key b) v now l2 else l2.

(** Both aliases; an error on the first ends it. *)
Definition l2_put (f1 f2 : Fate) (a : App) (now : Z) (l2 : tcache string) : tcache string :=
  let s := app_to_string a in
  let l2 := l2_set f1 (Id (app_id a)) s now l2 in
  if answered f1 then l2_set f2 (Key (app_key a)) s now l2 else l2.

Definition l2_del (f : Fate) (id key : string) (l2 : tcache string) : tcache string :=
  if executed f then tc_remove (l2_key (Key key)) (tc_remove (l2_key (Id id)) l2) else l2.

(** *** L1 *)

Record CachingAppManager : Type := mkCachingAppManager {
  cm_pos : tcache App;
  cm_neg : tcache unit;
  cm_dis : tcache unit;
  cm_l2 : option (tcache string)
}.

Definition CachingAppManager_new (ttl neg_ttl : Z) (l2 : option (tcache string)) : CachingAppManager :=
  mkCachingAppManager (tc_new ttl) (tc_new neg_ttl) (tc_new ttl) l2.

Definition set_l2 (l2 : option (tcache string)) (m : CachingAppManager) : CachingAppManager :=
  mkCachingAppManager (cm_pos m) (cm_neg m) (cm_dis m) l2.

Inductive LoadErr : Type := LNotFound | LDisabled | LLookup (e : AppLookupError).

(** The fates of the calls of one lookup or invalidation. *)
Record Calls : Type := mkCalls { fate_get : Fate; fate_id : Fate; fate_key : Fate; fate_del : Fate }.

Definition load_from_driver (driver : AppManager) (b : LookupBy) : result AppLookup AppLookupError :=
  match b with Id i => am_by_id driver i | Key k => am_by_key driver k end.

(** The initialiser of [try_get_with]. *)
Definition load (driver : AppManager) (c : Calls) (b : LookupBy) (now : Z) (m : CachingAppManager)
    : CachingAppManager * result App LoadErr :=
  let from_driver :=
    match load_from_driver driver b with
    | Ok (Found a) => (set_l2 (l2_put (fate_id c) (fate_key c) a now <$> cm_l2 m) m, Ok a)
    | Ok Disabled => (set_l2 (l2_set (fate_id c) b DISABLED_MARKER now <$> cm_l2 m) m, Err LDisabled)
    | Ok NotFound => (m, Err LNotFound)
    | Err e => (m, Err (LLookup e))
    end in
  match cm_l2 m with
  | Some l2 =>
      match l2_get (fate_get c) b now l2 with
      | Ok (Some (L2Found a)) => (m, Ok a)
      | Ok (Some L2Disabled) => (m, Err LDisabled)
      | Ok None | Err _ => from_driver
      end
  | None => from_driver
  end.

Definition by_cached (b : LookupBy) (now : Z) (m : CachingAppManager) : option AppLookup :=
  match tc_get (pkey b) now (cm_neg m) with
  | Some _ => Some NotFound
  | None =>
      match tc_get (pkey b) now (cm_dis m) with
      | Some _ => Some Disabled
      | None => Found <$> tc_get (pkey b) now (cm_pos m)
      end
  end.

Definition cached (driver : AppManager) (c : Calls) (b : LookupBy) (now : Z) (m : CachingAppManager)
    : CachingAppManager * result AppLookup AppLookupError :=
  match tc_get (pkey b) now (cm_neg m) with
  | Some _ => (m, Ok NotFound)
  | None =>
      match tc_get (pkey b) now (cm_dis m) with
      | Some _ => (m, Ok Disabled)
      | None =>
          match tc_get (pkey b) now (cm_pos m) with
          | Some a => (m, Ok (Found a))
          | None =>
              match load driver c b now m with
              | (m, Ok a) =>
                  (mkCachingAppManager (tc_insert (pkey b) a now (cm_pos m)) (cm_neg m) (cm_dis m) (cm_l2 m),
                   Ok (Found a))
              | (m, Err LNotFound) =>
                  (mkCachingAppManager (cm_pos m) (tc_insert (pkey b) tt now (cm_neg m)) (cm_dis m) (cm_l2 m),
                   Ok NotFound)
              | (m, Err LDisabled) =>
                  (mkCachingAppManager (cm_pos m) (cm_neg m) (tc_insert (pkey b) tt now (cm_dis m)) (cm_l2 m),
                   Ok Disabled)
              | (m, Err (LLookup e)) => (m, Err e)
              end
          end
      end
  end.

Definition evict_both {V} (id key : string) (c : tcache V) : tcache V := tc_remove (pkey (Key key)) (tc_remove (pkey (Id id)) c).

Definition invalidate (c : Calls) (id key : string) (m : CachingAppManager) : CachingAppManager :=
  mkCachingAppManager (evict_both id key (cm_pos m)) (evict_both id key (cm_neg m)) (evict_both id key (cm_dis m))
    (l2_del (fate_del c) id key <$> cm_l2 m).
End caching.

(** ** Purging *)

Section purger.
Context `{TtlCache, AppJson, SerdeJson, Moka, SerdeTree}.

(** What the purger owns, on a node without a cluster: the adapter, the per-app
    connection counters, and the cache. *)
Record PurgeWorld : Type := mkPurgeWorld {
  pw_adapter : LocalAdapter * Env;
  pw_counts : gmap string Z;
  pw_cache : CachingAppManager
}.

Definition refresh (c : Calls) (id key : string) (w : PurgeWorld) : PurgeWorld :=
  mkPurgeWorld (pw_adapter w) (pw_counts w) (invalidate c id key (pw_cache w)).

Definition purge (c : Calls) (id key : string) (w : PurgeWorld) : PurgeWorld :=
  let cache := invalidate c id key (pw_cache w) in
  let '(adapter, _) := ad_purge_app id (pw_adapter w) in
  mkPurgeWorld adapter (delete id (pw_counts w)) cache.

(** One app of a sweep pass: its key from the cache, then the driver's
    verdict. *)
Definition sweep_app (driver : AppManager) (c : Calls) (now : Z) (w : PurgeWorld) (id : string)
    : PurgeWorld * bool :=
  let '(cache, known) := cached driver c (Id id) now (pw_cache w) in
  let key := match known with Ok (Found a) => app_key a | _ => "" end in
  let w := mkPurgeWorld (pw_adapter w) (pw_counts w) cache in
  match am_by_id driver id with
  | Ok Disabled | Ok NotFound => (purge c id key w, true)
  | Ok (Found _) | Err _ => (w, false)
  end.

Fixpoint sweep_ids (driver : AppManager) (c : string → Calls) (now : Z) (ids : list string) (w : PurgeWorld)
    : PurgeWorld * nat :=
  match ids with
  | [] => (w, 0)
  | id :: ids =>
      let '(w, gone) := sweep_app driver (c id) now w id in
      let '(w, n) := sweep_ids driver c now ids w in
      (w, if gone then S n else n)
  end.

Definition app_sweep_once (driver : AppManager) (c : string → Calls) (now : Z) (w : PurgeWorld) : PurgeWorld * nat :=
  sweep_ids driver c now (connected_app_ids (la_apps (pw_adapter w).1)) w.

(** *** Invalidation messages *)

Definition de_invalidate_msg (v : Value) : option InvalidateMsg :=
  fs ← fields ["id"; "key"; "action"] v;
  match fs with
  | [id; key; action] =>
      id ← required de_string id;
      key ← required de_string key;
      action ← defaulted Refresh de_action action;
      Some (mkInvalidateMsg id key action)
  | _ => None
  end.

(** A message of the subscription; [None] is a payload that is not UTF-8. *)
Definition on_invalidate (c : Calls) (payload : option string) (w : PurgeWorld) : PurgeWorld :=
  match (payload ≫= tree_from_slice) ≫= de_invalidate_msg with
  | Some m =>
      match im_action m with
      | Refresh => refresh c (im_id m) (im_key m) w
      | Remove => purge c (im_id m) (im_key m) w
      end
  | None => w
  end.
End purger.

(** ** Static lookups *)

Lemma load_apps_ok parsed : ∀ ids keys apps, load_apps parsed ids keys = Ok apps →
  apps = recompute_has_flags <$> parsed ∧ Forall (λ a, validate a = Ok tt) apps ∧
  NoDup (app_id <$> apps) ∧ NoDup (app_key <$> apps) ∧
  Forall (λ a, (app_id a ∉ ids) ∧ (app_key a ∉ keys)) apps.
Proof.
  induction parsed as [|a parsed IH]; intros ids keys apps; cbn [load_apps].
  { intros [= <-]. repeat split; constructor. }
  destruct (validate (recompute_has_flags a)) as [[]|] eqn:Hv; [|done].
  destruct (decide (app_id (recompute_has_flags a) ∈ ids)) as [|Hid]; [done|].
  destruct (decide (app_key (recompute_has_flags a) ∈ keys)) as [|Hkey]; [done|].
  destruct (load_apps _ _ _) as [apps'|] eqn:Hl; [|done]. intros [= <-].
  apply IH in Hl as (-> & Hval & Hi & Hk & Hfresh).
  rewrite Forall_forall in Hfresh. split; [done|]. split; [by constructor|]. split_and!.
  - rewrite fmap_cons. apply NoDup_cons. split; [|done]. intros (b & Hb & Hin)%list_elem_of_fmap.
    destruct (Hfresh b Hin) as [Hn _]. set_solver.
  - rewrite fmap_cons. apply NoDup_cons. split; [|done]. intros (b & Hb & Hin)%list_elem_of_fmap.
    destruct (Hfresh b Hin) as [_ Hn]. set_solver.
  - constructor; [done|]. apply Forall_forall. intros b Hb. destruct (Hfresh b Hb). set_solver.
Qed.

(** What a lookup among apps with distinct ids and keys answers. *)
Definition distinct (apps : list App) : Prop := NoDup (app_id <$> apps) ∧ NoDup (app_key <$> apps).

Lemma find_unique {B} (f : App → B) `{EqDecision B} (x : B) (apps : list App) a : NoDup (f <$> apps) →
  a ∈ apps → f a = x → find (λ b, bool_decide (f b = x)) apps = Some a.
Proof.
  intros Hnd Hin Hx. induction apps as [|b apps IH]; [set_solver|]. rewrite fmap_cons in Hnd.
  apply NoDup_cons in Hnd as [Hb Hnd]. simpl. case_bool_decide as Hf.
  - apply elem_of_cons in Hin as [->|Hin]; [done|]. destruct Hb. rewrite Hf, <-Hx. by apply list_elem_of_fmap_2.
  - apply elem_of_cons in Hin as [->|Hin]; [done|]. by apply IH.
Qed.

Lemma find_Some_elem (pred : App → bool) apps a : find pred apps = Some a → a ∈ apps ∧ pred a = true.
Proof.
  induction apps as [|b apps IH]; simpl; [done|]. destruct (pred b) eqn:E.
  - intros [= ->]. split; [left|done].
  - intros [Hin Hp]%IH. split; [by right|done].
Qed.

Lemma resolve_found_iff {B} (f : App → B) `{EqDecision B} (x : B) apps a : NoDup (f <$> apps) →
  resolve apps (λ b, bool_decide (f b = x)) = Found a ↔ a ∈ apps ∧ f a = x ∧ app_enabled a = true.
Proof.
  intros Hnd. unfold resolve. split.
  - destruct (find _ apps) as [b|] eqn:E; [|done]. apply find_Some_elem in E as [Hin Hp%bool_decide_eq_true].
    destruct (app_enabled b) eqn:Hen; [|done]. by intros [= <-].
  - intros (Hin & Hx & Hen). by rewrite (find_unique f x apps a Hnd Hin Hx), Hen.
Qed.

(** A file of apps that loads: every app of it is valid with its gates
    computed, ids and keys are distinct, and a lookup by id or key finds exactly
    the enabled app that has it. *)
Theorem static_apps_exact `{SerdeTree} (raw : string) (apps : list App) :
  from_json raw = Ok apps →
  Forall (λ a, validate a = Ok tt ∧ recompute_has_flags a = a) apps ∧ distinct apps ∧
  (∀ id a, am_by_id (StaticFileAppManager apps) id = Ok (Found a) ↔
     a ∈ apps ∧ app_id a = id ∧ app_enabled a = true) ∧
  (∀ key a, am_by_key (StaticFileAppManager apps) key = Ok (Found a) ↔
     a ∈ apps ∧ app_key a = key ∧ app_enabled a = true).
Proof.
  unfold from_json. destruct (ok_or _ _) as [parsed|]; [|done].
  intros (-> & Hv & Hi & Hk & _)%load_apps_ok. split_and!; [|done| |].
  - rewrite Forall_forall in Hv |- *. intros a Ha. split; [by apply Hv|].
    apply list_elem_of_fmap in Ha as (b & -> & _). done.
  - intros id a. simpl. unfold by_id. rewrite <-(resolve_found_iff app_id id _ a Hi). split; congruence.
  - intros key a. simpl. unfold by_key. rewrite <-(resolve_found_iff app_key key _ a Hk). split; congruence.
Qed.
