(* ===== verification/Databases.v ===== *)
(** * App stores in a database: [src/src/app/sql.rs], [mongo.rs]

    The query text, the decoding of a row into an app and the answer of a
    lookup. The databases are parameters: a query answers a row or none, a row
    answers its columns at the requested type. *)

From stdpp Require Import pretty.
From S2P Require Import Prelude RustStd Json Envelope Protocol Auth App Rest AppStores.
#[local] Open Scope rust_scope.

(** ** SQL *)

Inductive Dialect : Type := Sqlite | MySql | Postgres.

Definition from_dsn (dsn : string) : Dialect :=
  let scheme := ascii_lowercase (default EmptyString (head (Str.split ":" dsn))) in
  if Str.starts_with "mysql" scheme || Str.starts_with "mariadb" scheme then MySql
  else if Str.starts_with "postgres" scheme then Postgres
  else Sqlite.

Definition key_ident (d : Dialect) : string := match d with MySql => "`key`" | _ => "key" end.
Definition placeholder (d : Dialect) : string := match d with Postgres => "$1" | _ => "?" end.

Definition RATE_LIMIT_COLUMNS : string := "max_backend_events_per_second, max_read_requests_per_second".

Definition select_sql (d : Dialect) (rate_limit_columns : bool) : string :=
  let overrides := if rate_limit_columns then ", " +:+ RATE_LIMIT_COLUMNS else "" in
  "SELECT id, " +:+ key_ident d +:+ ", secret, name, capacity, client_messages_enabled, " +:+
  "subscription_count_enabled, enabled, webhooks" +:+ overrides +:+ " FROM apps".

(** A row: [try_get] of a column at a type, or the driver's message. *)
Class SqlRow : Type := {
  row : Type;
  get_i64 : row → string → result Z string;
  get_opt_i64 : row → string → result (option Z) string;
  get_string : row → string → result string string;
  get_blob : row → string → result string string
}.

(** What the failure of [serde_json] or [String::from_utf8] says. *)
Class DecodeErrors : Type := { json_error : string → string; not_utf8 : string → string }.

Section sql.
Context `{SqlRow, DecodeErrors, SerdeTree}.

Definition map_error {T} (f : string → string) (r : result T string) : result T AppLookupError :=
  match r with Ok x => Ok x | Err e => Err (Decode (f e)) end.

Definition get_bool (r : row) (col : string) : result bool AppLookupError :=
  let? v := map_error (λ e, col +:+ ": " +:+ e) (get_i64 r col) in Ok (negb (v =? 0)%Z).

Definition get_text (r : row) (col : string) : result string AppLookupError :=
  match get_string r col with
  | Ok s => Ok s
  | Err _ =>
      let? bytes := map_error (λ e, col +:+ " column: " +:+ e) (get_blob r col) in
      if utf8_valid (as_bytes bytes) then Ok bytes else Err (Decode (col +:+ " utf8: " +:+ not_utf8 bytes))
  end.

Definition get_opt_u32 (r : row) (col : string) : result (option Z) AppLookupError :=
  let? stored := map_error (λ e, col +:+ ": " +:+ e) (get_opt_i64 r col) in
  match stored with
  | None => Ok None
  | Some n =>
      if (0 <=? n)%Z && (n <=? U32_MAX)%Z then Ok (Some n)
      else Err (Decode (col +:+ ": " +:+ pretty n +:+ " is not a valid limit — use 0 for unlimited, " +:+
                        "or leave the column NULL for the server default"))
  end.

(** [v as u32]. *)
Definition as_u32 (v : Z) : Z := (v mod 2 ^ 32)%Z.

Definition row_to_app (r : row) (rate_limit_columns : bool) : result App AppLookupError :=
  let? webhooks_json := get_text r "webhooks" in
  let? webhooks := match tree_from_slice webhooks_json ≫= de_vec de_webhook with
                   | Some ws => Ok ws
                   | None => Err (Decode ("webhooks json: " +:+ json_error webhooks_json))
                   end in
  let? name := map_error id (get_string r "name") in
  let? i := map_error id (get_string r "id") in
  let? key := map_error id (get_string r "key") in
  let? secret := map_error id (get_string r "secret") in
  let? client := get_bool r "client_messages_enabled" in
  let? capacity := map_error id (get_i64 r "capacity") in
  let? events := (if rate_limit_columns then get_opt_u32 r "max_backend_events_per_second" else Ok None) in
  let? reads := (if rate_limit_columns then get_opt_u32 r "max_read_requests_per_second" else Ok None) in
  let? count := get_bool r "subscription_count_enabled" in
  let? enabled := get_bool r "enabled" in
  let app := recompute_has_flags
    (mkApp name i key secret enabled client (as_u32 capacity) events reads count webhooks
       false false false false false false false) in
  match validate app with Ok _ => Ok app | Err e => Err (Decode e) end.

Definition enabled_or_not (a : App) : AppLookup := if app_enabled a then Found a else Disabled.

(** [query sql val] is [sqlx::query(sql).bind(val).fetch_optional]. *)
Definition fetch (d : Dialect) (rate_limit_columns : bool) (query : string → string → result (option row) string)
    (b : LookupBy) : result AppLookup AppLookupError :=
  let '(where_col, val) := match b with Id i => ("id", i) | Key k => (key_ident d, k) end in
  let sql := select_sql d rate_limit_columns +:+ " WHERE " +:+ where_col +:+ " = " +:+ placeholder d +:+ " LIMIT 1" in
  match query sql val with
  | Err e => Err (Backend e)
  | Ok None => Ok NotFound
  | Ok (Some r) => let? app := row_to_app r rate_limit_columns in Ok (enabled_or_not app)
  end.

(** Whether the columns of the limits exist: the database's refusal says no,
    any other failure is one of the start-up. *)
Inductive SqlError : Type := SqlDatabase (m : string) | SqlOther (m : string).

Definition probe_rate_limit_columns (query : string → option SqlError) : result bool string :=
  match query ("SELECT " +:+ RATE_LIMIT_COLUMNS +:+ " FROM apps LIMIT 0") with
  | None => Ok true
  | Some (SqlDatabase _) => Ok false
  | Some (SqlOther e) => Err e
  end.

Definition SqlAppManager (d : Dialect) (rate_limit_columns : bool) (query : string → string → result (option row) string)
    : AppManager :=
  mkAppManager (λ k, fetch d rate_limit_columns query (Key k)) (λ i, fetch d rate_limit_columns query (Id i))
    (λ _, None) None.
End sql.

(** ** MongoDB *)

(** [find_one field val] is [Collection::find_one] of the one-field filter. *)
Definition mongo_find (find_one : string → string → result (option App) string) (field val : string)
    : result AppLookup AppLookupError :=
  match find_one field val with
  | Err e => Err (Backend e)
  | Ok None => Ok NotFound
  | Ok (Some app) =>
      let app := recompute_has_flags app in
      match validate app with
      | Ok _ => Ok (enabled_or_not app)
      | Err e => Err (Decode e)
      end
  end.

Definition MongoAppManager (find_one : string → string → result (option App) string) : AppManager :=
  mkAppManager (mongo_find find_one "key") (mongo_find find_one "id") (λ _, None) None.

(** ** What a lookup in a database answers *)

(** Destruct the [let?] chain of a computation that returned [Ok]. *)
Ltac ok_chain H :=
  repeat match type of H with
  | context [match ?r with Ok _ => _ | Err _ => _ end] => destruct r eqn:?; [|discriminate H]
  end.

Section lookups.
Context `{SqlRow, DecodeErrors, SerdeTree}.

Lemma row_to_app_ok r cols a : row_to_app r cols = Ok a →
  validate a = Ok tt ∧ recompute_has_flags a = a ∧
  ∃ n, get_i64 r "capacity" = Ok n ∧ app_capacity a = (n mod 2 ^ 32)%Z.
Proof.
  unfold row_to_app. intros Hr. ok_chain Hr. injection Hr as <-. split_and!; [|done|].
  { match goal with H : validate _ = Ok ?u |- _ => by destruct u end. }
  eexists. split; [|done]. by destruct (get_i64 r "capacity"); simplify_eq/=.
Qed.

(** What a database answers as an app is enabled, valid and has its gates
    computed, whatever the row or the document held. *)
Theorem database_apps_valid (d : Dialect) (cols : bool) (query : string → string → result (option row) string)
    (find_one : string → string → result (option App) string) (b : LookupBy) (a : App) :
  load_from_driver (SqlAppManager d cols query) b = Ok (Found a) ∨
  load_from_driver (MongoAppManager find_one) b = Ok (Found a) →
  app_enabled a = true ∧ validate a = Ok tt ∧ recompute_has_flags a = a.
Proof.
  assert (∀ x, enabled_or_not x = Found a → x = a ∧ app_enabled a = true) as Hen.
  { intros x. unfold enabled_or_not. destruct (app_enabled x) eqn:E; [|done]. intros [= <-]. done. }
  intros [Hf|Hf].
  - assert (fetch d cols query b = Ok (Found a)) as Hq by (by destruct b). unfold fetch in Hq.
    destruct (match b with Id _ => _ | Key _ => _ end) as [col val]. destruct (query _ _) as [[r|]|]; [|done|done].
    destruct (row_to_app r cols) as [x|] eqn:Hr; [|done]. injection Hq as [-> He]%Hen.
    apply row_to_app_ok in Hr. naive_solver.
  - assert (∃ f v, mongo_find find_one f v = Ok (Found a)) as (f & v & Hq) by (destruct b; do 2 eexists; exact Hf).
    unfold mongo_find in Hq.
    destruct (find_one f v) as [[x|]|]; [|done|done]. destruct (validate _) as [[]|] eqn:Hv; [|done].
    injection Hq as [<- He]%Hen. done.
Qed.

(** The capacity of a row is taken modulo 2^32: a stored capacity that is a
    multiple of it reads as 0, which is no limit, where a limit of the same
    value is refused. *)
Theorem oversized_capacity_is_unlimited (r : row) (cols : bool) (a : App) (k : Z) :
  get_i64 r "capacity" = Ok (k * 2 ^ 32)%Z → row_to_app r cols = Ok a → app_capacity a = 0%Z.
Proof.
  intros Hc (_ & _ & n & Hn & ->)%row_to_app_ok. rewrite Hc in Hn. injection Hn as <-. by apply Z.mod_mul.
Qed.
End lookups.
