(* ===== verification/AppCacheProps.v ===== *)
(** * What the app caches and the purger promise

    Over any history of lookups, invalidations and evictions, against a database
    whose apps change and which fails at times, a lookup answers what the
    database held for that id or key within the times to live; an invalidation
    makes the next lookup ask the database; a sweep closes the apps the database
    no longer has and no other. *)

From S2P Require Import Prelude RustStd Json Envelope RedisStore Protocol Mailbox Registry UserRegistry.
From S2P Require Import Adapter Auth App Rest AppStores.
#[local] Open Scope Z_scope.

(** ** The database *)

(** What the database holds at a query, or the error it answers with. *)
Record Snapshot : Type := mkSnapshot { sn_apps : list App; sn_error : option AppLookupError }.

Definition answer (apps : list App) (b : LookupBy) : AppLookup :=
  match b with Id i => by_id apps i | Key k => by_key apps k end.

Definition database (sn : Snapshot) : AppManager :=
  let ask l := match sn_error sn with Some e => Err e | None => Ok l end in
  mkAppManager (λ k, ask (by_key (sn_apps sn) k)) (λ i, ask (by_id (sn_apps sn) i)) (λ _, None) None.

Lemma load_from_database sn b :
  load_from_driver (database sn) b =
  match sn_error sn with Some e => Err e | None => Ok (answer (sn_apps sn) b) end.
Proof. by destruct b. Qed.

(** An app with its gates computed, found under both its aliases. *)
Lemma answer_found_aliases apps b a : distinct apps → answer apps b = Found a →
  a ∈ apps ∧ answer apps (Id (app_id a)) = Found a ∧ answer apps (Key (app_key a)) = Found a.
Proof.
  intros [Hi Hk] Hb.
  assert (a ∈ apps ∧ app_enabled a = true) as [Hin Hen].
  { destruct b as [i|k]; simpl in Hb.
    - apply (resolve_found_iff app_id i apps a Hi) in Hb. naive_solver.
    - apply (resolve_found_iff app_key k apps a Hk) in Hb. naive_solver. }
  split; [done|]. simpl. split.
  - by apply (resolve_found_iff app_id _ apps a Hi).
  - by apply (resolve_found_iff app_key _ apps a Hk).
Qed.

Lemma pkey_inj : Inj (=) (=) pkey.
Proof. intros [i|k] [i'|k'] Heq; first [discriminate Heq | f_equal; by apply (inj (String.append _)) in Heq]. Qed.

Lemma l2_key_inj : Inj (=) (=) l2_key.
Proof. intros [i|k] [i'|k'] Heq; first [discriminate Heq | f_equal; by apply (inj (String.append _)) in Heq]. Qed.
#[local] Existing Instances pkey_inj l2_key_inj.

(** The JSON of an app reads back as the app, up to the gates, and is never the
    marker of a disabled one. *)
Class AppJsonLaws `{AppJson} : Prop := {
  app_json_roundtrip a : recompute_has_flags a = a →
    ∃ a', app_from_string (app_to_string a) = Some a' ∧ recompute_has_flags a' = a;
  app_json_object a : app_to_string a ≠ DISABLED_MARKER
}.

Section recency.
Context `{TtlCacheLaws, AppJsonLaws}.

(** ** Histories

    What happens on a node, and what the other nodes do to the cache they
    share: a load of theirs writes it, an invalidation of theirs deletes from
    it. *)

Inductive AppOp : Type :=
| Lookup (sn : Snapshot) (c : Calls) (b : LookupBy)
| Invalidate (c : Calls) (id key : string)
| PeerLoad (sn : Snapshot) (c : Calls) (b : LookupBy)
| PeerDel (c : Calls) (id key : string).

Definition app_op (op : AppOp) (now : Z) (m : CachingAppManager) : CachingAppManager :=
  match op with
  | Lookup sn c b => (cached (database sn) c b now m).1
  | Invalidate c id key => invalidate c id key m
  | PeerLoad sn c b => (load (database sn) c b now m).1
  | PeerDel c id key => set_l2 (l2_del (fate_del c) id key <$> cm_l2 m) m
  end.

Definition app_ops (ops : list (Z * AppOp)) (m : CachingAppManager) : CachingAppManager :=
  foldl (λ m o, app_op o.2 o.1 m) m ops.

(** What the database held at the queries of a history. *)
Definition held (ops : list (Z * AppOp)) : list (Z * list App) :=
  omap (λ o, match o.2 with
             | Lookup sn _ _ | PeerLoad sn _ _ =>
                 match sn_error sn with None => Some (o.1, sn_apps sn) | Some _ => None end
             | Invalidate _ _ _ | PeerDel _ _ _ => None
             end) ops.

Definition snapshot_ok (apps : list App) : Prop := distinct apps ∧ Forall (λ a, recompute_has_flags a = a) apps.

(** The answer [l] for [b] was the database's at [t]. *)
Definition was (h : list (Z * list App)) (b : LookupBy) (l : AppLookup) (t : Z) : Prop :=
  ∃ apps, (t, apps) ∈ h ∧ answer apps b = l.

(** The same, or the shared cache had it from then. *)
Definition was2 (h : list (Z * list App)) (ttl2 : Z) (b : LookupBy) (l : AppLookup) (t : Z) : Prop :=
  ∃ t', was h b l t' ∧ (t' = t ∨ t < t' + ttl2).

Definition l2_ok (h : list (Z * list App)) (ttl2 : Z) (l2 : tcache string) : Prop :=
  tc_ttl l2 = ttl2 ∧
  ∀ b s t, tc_content l2 !! l2_key b = Some (s, t) →
    (s = DISABLED_MARKER ∧ was h b Disabled t) ∨
    (∃ a, s = app_to_string a ∧ recompute_has_flags a = a ∧ was h b (Found a) t).

Record cache_ok (h : list (Z * list App)) (ttl neg_ttl ttl2 : Z) (m : CachingAppManager) : Prop := {
  ok_pos_ttl : tc_ttl (cm_pos m) = ttl;
  ok_neg_ttl : tc_ttl (cm_neg m) = neg_ttl;
  ok_dis_ttl : tc_ttl (cm_dis m) = ttl;
  ok_pos : ∀ b a t, tc_content (cm_pos m) !! pkey b = Some (a, t) → was2 h ttl2 b (Found a) t;
  ok_neg : ∀ b u t, tc_content (cm_neg m) !! pkey b = Some (u, t) → was h b NotFound t;
  ok_dis : ∀ b u t, tc_content (cm_dis m) !! pkey b = Some (u, t) → was2 h ttl2 b Disabled t;
  ok_l2 : ∀ l2, cm_l2 m = Some l2 → l2_ok h ttl2 l2
}.

Lemma content_insert {V} (P : LookupBy → V → Z → Prop) (key : LookupBy → string) `{Inj _ _ (=) (=) key}
    (c : tcache V) b v now :
  (∀ b v t, tc_content c !! key b = Some (v, t) → P b v t) → P b v now →
  ∀ b' v' t, tc_content (tc_insert (key b) v now c) !! key b' = Some (v', t) → P b' v' t.
Proof.
  intros Hc Hb b' v' t Hl. eapply lookup_weaken in Hl; [|apply tc_content_insert].
  apply lookup_insert_Some in Hl as [[Hk [= <- <-]]|[_ Hl]]; [|by apply Hc].
  by apply (inj key) in Hk as ->.
Qed.

Lemma content_remove {V} k k' (c : tcache V) x :
  tc_content (tc_remove k c) !! k' = Some x → k ≠ k' ∧ tc_content c !! k' = Some x.
Proof. intros Hl. eapply lookup_weaken in Hl; [|apply tc_content_remove]. by apply lookup_delete_Some in Hl. Qed.

Definition extend (h : list (Z * list App)) (sn : Snapshot) (now : Z) : list (Z * list App) :=
  match sn_error sn with None => h ++ [(now, sn_apps sn)] | Some _ => h end.

Definition snapshot_sound (sn : Snapshot) : Prop := sn_error sn = None → snapshot_ok (sn_apps sn).

Lemma was_mono h h' b l t : h ⊆ h' → was h b l t → was h' b l t.
Proof. intros Hs (apps & Hin & Ha). exists apps. split; [by apply Hs|done]. Qed.

Lemma was2_mono h h' ttl2 b l t : h ⊆ h' → was2 h ttl2 b l t → was2 h' ttl2 b l t.
Proof. intros Hs (t' & Hw & Ht). exists t'. split; [by eapply was_mono|done]. Qed.

Lemma was2_now h ttl2 b l t : was h b l t → was2 h ttl2 b l t.
Proof. intros Hw. exists t. auto. Qed.

Lemma l2_ok_mono h h' ttl2 l2 : h ⊆ h' → l2_ok h ttl2 l2 → l2_ok h' ttl2 l2.
Proof.
  intros Hs [Ht Hl]. split; [done|]. intros b s t [[-> Hw]|(a & -> & Hf & Hw)]%Hl.
  - left. split; [done|]. by eapply was_mono.
  - right. exists a. split_and!; [done|done|]. by eapply was_mono.
Qed.

Lemma cache_ok_mono h h' ttl neg_ttl ttl2 m : h ⊆ h' → cache_ok h ttl neg_ttl ttl2 m → cache_ok h' ttl neg_ttl ttl2 m.
Proof.
  intros Hs []. split; [done|done|done| | | |]; eauto using was_mono, was2_mono, l2_ok_mono.
Qed.

Lemma extend_sub h sn now : h ⊆ extend h sn now.
Proof. unfold extend. destruct (sn_error sn); set_solver. Qed.

Lemma extend_was h sn now b : sn_error sn = None → was (extend h sn now) b (answer (sn_apps sn) b) now.
Proof. intros He. exists (sn_apps sn). unfold extend. rewrite He. split; [set_solver|done]. Qed.

(** ** L2 *)

Lemma l2_set_ok h ttl2 f b s now l2 : l2_ok h ttl2 l2 →
  (s = DISABLED_MARKER ∧ was h b Disabled now) ∨
  (∃ a, s = app_to_string a ∧ recompute_has_flags a = a ∧ was h b (Found a) now) →
  l2_ok h ttl2 (l2_set f b s now l2).
Proof.
  intros [Ht Hl] Hs. unfold l2_set. destruct (executed f); [|done]. split.
  - by rewrite tc_ttl_insert.
  - by apply (content_insert (λ b s t, (s = DISABLED_MARKER ∧ was h b Disabled t) ∨
      (∃ a, s = app_to_string a ∧ recompute_has_flags a = a ∧ was h b (Found a) t)) l2_key).
Qed.

Lemma l2_get_ok h ttl2 f b now l2 x : l2_ok h ttl2 l2 → l2_get f b now l2 = Ok (Some x) →
  was2 h ttl2 b (match x with L2Found a => Found a | L2Disabled => Disabled end) now.
Proof.
  intros [Ht Hl]. unfold l2_get. destruct (answered f); [|done].
  destruct (tc_get _ now l2) as [s|] eqn:Hg; [|done].
  apply tc_get_content in Hg as (t & Hc & Hlt). rewrite Ht in Hlt.
  apply Hl in Hc as [[-> Hw]|(a & -> & Hf & Hw)].
  - rewrite decide_True by done. intros [= <-]. exists t. auto.
  - rewrite decide_False by apply app_json_object.
    destruct (app_json_roundtrip a Hf) as (a' & -> & Ha'). intros [= <-]. rewrite Ha'. exists t. auto.
Qed.

Lemma set_l2_ok h ttl neg_ttl ttl2 m l2 : cache_ok h ttl neg_ttl ttl2 m →
  (∀ x, l2 = Some x → l2_ok h ttl2 x) → cache_ok h ttl neg_ttl ttl2 (set_l2 l2 m).
Proof. intros [] Hl2. by split. Qed.

(** ** Lookups *)

Definition load_sound (h : list (Z * list App)) (ttl2 : Z) (sn : Snapshot) (b : LookupBy) (now : Z)
    (r : result App LoadErr) : Prop :=
  match r with
  | Ok a => was2 h ttl2 b (Found a) now
  | Err LDisabled => was2 h ttl2 b Disabled now
  | Err LNotFound => was h b NotFound now
  | Err (LLookup e) => sn_error sn = Some e
  end.

Lemma l2_put_ok h ttl2 sn c b a now l2 : sn_error sn = None → snapshot_ok (sn_apps sn) →
  answer (sn_apps sn) b = Found a → l2_ok (extend h sn now) ttl2 l2 →
  l2_ok (extend h sn now) ttl2 (l2_put (fate_id c) (fate_key c) a now l2).
Proof.
  intros He [Hd Hf] Ha Hl2. destruct (answer_found_aliases _ _ _ Hd Ha) as (Hin & Hi & Hk).
  rewrite Forall_forall in Hf. specialize (Hf a Hin).
  assert (∀ b', answer (sn_apps sn) b' = Found a → was (extend h sn now) b' (Found a) now) as Hw.
  { intros b' Hb'. rewrite <-Hb'. by apply extend_was. }
  unfold l2_put. destruct (answered (fate_id c)); repeat apply l2_set_ok; eauto 10.
Qed.

(** A load that misses the shared cache. *)
Definition load_driver (sn : Snapshot) (c : Calls) (b : LookupBy) (now : Z) (m : CachingAppManager)
    : CachingAppManager * result App LoadErr :=
  match load_from_driver (database sn) b with
  | Ok (Found a) => (set_l2 (l2_put (fate_id c) (fate_key c) a now <$> cm_l2 m) m, Ok a)
  | Ok Disabled => (set_l2 (l2_set (fate_id c) b DISABLED_MARKER now <$> cm_l2 m) m, Err LDisabled)
  | Ok NotFound => (m, Err LNotFound)
  | Err e => (m, Err (LLookup e))
  end.

Lemma load_cases sn c b now m :
  load (database sn) c b now m = load_driver sn c b now m ∨
  ∃ l2 x, cm_l2 m = Some l2 ∧ l2_get (fate_get c) b now l2 = Ok (Some x) ∧
    load (database sn) c b now m = (m, match x with L2Found a => Ok a | L2Disabled => Err LDisabled end).
Proof.
  unfold load, load_driver. destruct (cm_l2 m) as [l2|]; [|by left].
  destruct (l2_get _ _ _ _) as [[x|]|e] eqn:Hg; [|by left|by left].
  right. exists l2, x. by destruct x.
Qed.

Lemma load_ok h ttl neg_ttl ttl2 sn c b now m : snapshot_sound sn → cache_ok h ttl neg_ttl ttl2 m →
  let '(m', r) := load (database sn) c b now m in
  cache_ok (extend h sn now) ttl neg_ttl ttl2 m' ∧ load_sound (extend h sn now) ttl2 sn b now r.
Proof.
  intros Hsn Hm. apply (cache_ok_mono _ _ _ _ _ _ (extend_sub h sn now)) in Hm.
  assert (let '(m', r) := load_driver sn c b now m in
    cache_ok (extend h sn now) ttl neg_ttl ttl2 m' ∧ load_sound (extend h sn now) ttl2 sn b now r) as Hdrv.
  { unfold load_driver. rewrite load_from_database. destruct (sn_error sn) as [e|] eqn:He; [done|].
    pose proof (extend_was h sn now b He) as Hw. specialize (Hsn He).
    destruct (answer (sn_apps sn) b) as [a| |] eqn:Ha; simpl; split; auto using was2_now.
    - apply set_l2_ok; [done|]. intros x (l2 & Hl2 & ->)%fmap_Some. by eapply l2_put_ok, ok_l2.
    - apply set_l2_ok; [done|]. intros x (l2 & Hl2 & ->)%fmap_Some. apply l2_set_ok; [by eapply ok_l2|auto]. }
  destruct (load_cases sn c b now m) as [-> | (l2 & x & Hl2 & Hg & ->)]; [exact Hdrv|].
  apply (l2_get_ok _ ttl2 _ _ _ _ _ (ok_l2 _ _ _ _ _ Hm l2 Hl2)) in Hg. by destruct x.
Qed.

(** How old an answer may be. *)
Definition age_bound (ttl neg_ttl ttl2 : Z) (l : AppLookup) : Z :=
  match l with NotFound => neg_ttl | _ => ttl + Z.max 0 ttl2 end.

Definition fresh (h : list (Z * list App)) (ttl neg_ttl ttl2 : Z) (b : LookupBy) (l : AppLookup) (now : Z) : Prop :=
  ∃ t, was h b l t ∧ (t = now ∨ now < t + age_bound ttl neg_ttl ttl2 l).

Lemma was2_fresh h ttl neg_ttl ttl2 b l t now : was2 h ttl2 b l t → l ≠ NotFound → now < t + ttl →
  fresh h ttl neg_ttl ttl2 b l now.
Proof.
  intros (t' & Hw & Ht) Hl Hlt. exists t'. split; [done|]. right. destruct l; [| |done]; simpl; lia.
Qed.

Lemma was2_now_fresh h ttl neg_ttl ttl2 b l now : 0 <= ttl → was2 h ttl2 b l now → l ≠ NotFound →
  fresh h ttl neg_ttl ttl2 b l now.
Proof.
  intros Httl (t' & Hw & Ht) Hl. exists t'. split; [done|]. destruct Ht as [->|Ht]; [by left|].
  right. destruct l; [| |done]; simpl; lia.
Qed.

Lemma cached_ok h ttl neg_ttl ttl2 sn c b now m : 0 <= ttl → snapshot_sound sn → cache_ok h ttl neg_ttl ttl2 m →
  let '(m', r) := cached (database sn) c b now m in
  cache_ok (extend h sn now) ttl neg_ttl ttl2 m' ∧
  match r with
  | Ok l => fresh (extend h sn now) ttl neg_ttl ttl2 b l now
  | Err e => sn_error sn = Some e
  end.
Proof.
  intros Httl Hsn Hm. pose proof (cache_ok_mono _ _ _ _ _ _ (extend_sub h sn now) Hm) as Hm'.
  pose proof (load_ok h ttl neg_ttl ttl2 sn c b now m Hsn Hm) as Hload. unfold cached.
  destruct (tc_get _ now (cm_neg m)) as [u|] eqn:Hneg.
  { split; [done|]. apply tc_get_content in Hneg as (t & Hc & Hlt). rewrite (ok_neg_ttl _ _ _ _ _ Hm) in Hlt.
    apply (ok_neg _ _ _ _ _ Hm') in Hc. exists t. auto. }
  destruct (tc_get _ now (cm_dis m)) as [u|] eqn:Hdis.
  { split; [done|]. apply tc_get_content in Hdis as (t & Hc & Hlt). rewrite (ok_dis_ttl _ _ _ _ _ Hm) in Hlt.
    apply (ok_dis _ _ _ _ _ Hm') in Hc. by eapply was2_fresh. }
  destruct (tc_get _ now (cm_pos m)) as [a|] eqn:Hpos.
  { split; [done|]. apply tc_get_content in Hpos as (t & Hc & Hlt). rewrite (ok_pos_ttl _ _ _ _ _ Hm) in Hlt.
    apply (ok_pos _ _ _ _ _ Hm') in Hc. by eapply was2_fresh. }
  clear Hneg Hdis Hpos. destruct (load _ _ _ _ _) as [m' [a|[| |e]]]; destruct Hload as [[] Hr]; simpl in Hr.
  - split; [|by apply was2_now_fresh]. split; simpl; auto; [by rewrite tc_ttl_insert|].
    by apply (content_insert (λ b a t, was2 _ ttl2 b (Found a) t) pkey).
  - split; [|exists now; auto]. split; simpl; auto; [by rewrite tc_ttl_insert|].
    by apply (content_insert (λ b (_ : ()) t, was _ b NotFound t) pkey).
  - split; [|by apply was2_now_fresh]. split; simpl; auto; [by rewrite tc_ttl_insert|].
    by apply (content_insert (λ b (_ : ()) t, was2 _ ttl2 b Disabled t) pkey).
  - by split.
Qed.

Lemma evict_content {V} id key k (c : tcache V) x : tc_content (evict_both id key c) !! k = Some x →
  k ≠ pkey (Id id) ∧ k ≠ pkey (Key key) ∧ tc_content c !! k = Some x.
Proof. intros [? [? ?]%content_remove]%content_remove. auto. Qed.

Lemma evict_ttl {V} id key (c : tcache V) : tc_ttl (evict_both id key c) = tc_ttl c.
Proof. unfold evict_both. by rewrite !tc_ttl_remove. Qed.

Lemma l2_del_content f id key k l2 x : tc_content (l2_del f id key l2) !! k = Some x → tc_content l2 !! k = Some x.
Proof. unfold l2_del. destruct (executed f); [|done]. by intros [_ [_ ?]%content_remove]%content_remove. Qed.

Lemma l2_del_ok h ttl2 f id key l2 : l2_ok h ttl2 l2 → l2_ok h ttl2 (l2_del f id key l2).
Proof.
  intros [Ht Hl]. split.
  - unfold l2_del. destruct (executed f); [|done]. by rewrite !tc_ttl_remove.
  - intros b s t Hc%l2_del_content. by apply Hl.
Qed.

Lemma invalidate_ok h ttl neg_ttl ttl2 c id key m : cache_ok h ttl neg_ttl ttl2 m →
  cache_ok h ttl neg_ttl ttl2 (invalidate c id key m).
Proof.
  intros [Hpt Hnt Hdt Hp Hn Hd Hl]. split; simpl; rewrite ?evict_ttl; auto.
  - intros b a t (_ & _ & Hc)%evict_content. eauto.
  - intros b a t (_ & _ & Hc)%evict_content. eauto.
  - intros b a t (_ & _ & Hc)%evict_content. eauto.
  - intros x (l2 & Hl2 & ->)%fmap_Some. by apply l2_del_ok, Hl.
Qed.

Definition op_sound (op : AppOp) : Prop :=
  match op with
  | Lookup sn _ _ | PeerLoad sn _ _ => snapshot_sound sn
  | Invalidate _ _ _ | PeerDel _ _ _ => True
  end.

Lemma held_snoc ops o : held (ops ++ [o]) =
  match o.2 with
  | Lookup sn _ _ | PeerLoad sn _ _ => extend (held ops) sn o.1
  | Invalidate _ _ _ | PeerDel _ _ _ => held ops
  end.
Proof.
  unfold held, extend. rewrite omap_app. simpl.
  destruct o as [now [sn c b|c id key|sn c b|c id key]]; simpl; try (by rewrite app_nil_r);
    destruct (sn_error sn); simpl; by rewrite ?app_nil_r.
Qed.

Lemma app_op_ok h ttl neg_ttl ttl2 op now m : 0 <= ttl → op_sound op → cache_ok h ttl neg_ttl ttl2 m →
  cache_ok (match op with Lookup sn _ _ | PeerLoad sn _ _ => extend h sn now | _ => h end)
    ttl neg_ttl ttl2 (app_op op now m).
Proof.
  intros Httl Hop Hm. destruct op as [sn c b|c id key|sn c b|c id key]; simpl in *.
  - pose proof (cached_ok h ttl neg_ttl ttl2 sn c b now m Httl Hop Hm) as Hc. by destruct (cached _ _ _ _ _), Hc.
  - by apply invalidate_ok.
  - pose proof (load_ok h ttl neg_ttl ttl2 sn c b now m Hop Hm) as Hc. by destruct (load _ _ _ _ _), Hc.
  - apply set_l2_ok; [done|]. intros x (l2 & Hl2 & ->)%fmap_Some. by eapply l2_del_ok, ok_l2.
Qed.

Lemma app_ops_ok ttl neg_ttl ttl2 ops m : 0 <= ttl → Forall (λ o, op_sound o.2) ops →
  cache_ok [] ttl neg_ttl ttl2 m → cache_ok (held ops) ttl neg_ttl ttl2 (app_ops ops m).
Proof.
  intros Httl. induction ops as [|[now op] ops IH] using rev_ind; [done|].
  intros [Hops Hop]%Forall_app Hm. specialize (IH Hops Hm). rewrite Forall_singleton in Hop.
  unfold app_ops. rewrite foldl_snoc, held_snoc. simpl. fold (app_ops ops m).
  apply (app_op_ok _ _ _ _ op now) in IH; done.
Qed.

(** A cache starts empty on the node; the shared one may hold anything other
    nodes wrote, as part of the history. *)
Lemma new_ok ttl neg_ttl ttl2 : ∀ l2 : option (tcache string),
  (∀ x, l2 = Some x → tc_ttl x = ttl2 ∧ tc_content x = ∅) → cache_ok [] ttl neg_ttl ttl2 (CachingAppManager_new ttl neg_ttl l2).
Proof.
  intros l2 Hl2. split; simpl; rewrite ?tc_ttl_new; try done;
    try (intros b v t; by rewrite tc_content_new, lookup_empty).
  intros x Hx. destruct (Hl2 x Hx) as [Ht Hc]. split; [done|]. intros b s t. by rewrite Hc, lookup_empty.
Qed.

(** C19. Whatever lookups, invalidations and evictions came before, on this node
    and through the shared cache on others, against a database whose apps came,
    went and changed and which failed at times: a lookup by id or key answers
    what the database held for it at one of the queries, at this moment or
    within the time to live of a missing app, or of a present or disabled one in
    both caches. It fails only when the database fails on this lookup. *)
Theorem cached_answers_recent (ttl neg_ttl ttl2 : Z) (l2 : option (tcache string)) (ops : list (Z * AppOp))
    (now : Z) (sn : Snapshot) (c : Calls) (b : LookupBy) :
  0 <= ttl → (∀ x, l2 = Some x → tc_ttl x = ttl2 ∧ tc_content x = ∅) →
  Forall (λ o, op_sound o.2) ops → snapshot_sound sn →
  match (cached (database sn) c b now (app_ops ops (CachingAppManager_new ttl neg_ttl l2))).2 with
  | Ok l => fresh (held (ops ++ [(now, Lookup sn c b)])) ttl neg_ttl ttl2 b l now
  | Err e => sn_error sn = Some e
  end.
Proof.
  intros Httl Hl2 Hops Hsn. rewrite held_snoc. simpl.
  pose proof (cached_ok _ ttl neg_ttl ttl2 sn c b now _ Httl Hsn
    (app_ops_ok ttl neg_ttl ttl2 ops _ Httl Hops (new_ok ttl neg_ttl ttl2 l2 Hl2))) as Hc.
  destruct (cached _ _ _ _ _) as [m r]. apply Hc.
Qed.

(** An invalidation whose delete reached the shared cache: the next lookup of
    the app by its id or its key gives the database's answer of that moment. *)
Theorem invalidate_then_lookup_asks (c c' : Calls) (id key : string) (b : LookupBy) (sn : Snapshot) (now : Z)
    (m : CachingAppManager) :
  fate_del c ≠ NotSent → b = Id id ∨ b = Key key →
  (cached (database sn) c' b now (invalidate c id key m)).2 =
  match sn_error sn with Some e => Err e | None => Ok (answer (sn_apps sn) b) end.
Proof.
  intros Hdel Hb.
  assert (∀ V (x : tcache V), tc_get (pkey b) now (evict_both id key x) = None) as Hget.
  { intros V x. destruct (tc_get _ _ _) as [v|] eqn:Hg; [|done].
    apply tc_get_content in Hg as (t & (Hi & Hk & _)%evict_content & _). destruct Hb as [-> | ->]; done. }
  assert (∀ l2, tc_get (l2_key b) now (l2_del (fate_del c) id key l2) = None) as Hget2.
  { intros l2. destruct (tc_get _ _ _) as [v|] eqn:Hg; [|done].
    apply tc_get_content in Hg as (t & Hc & _). unfold l2_del in Hc. destruct (fate_del c); [|done|];
    apply content_remove in Hc as [Hk [Hi _]%content_remove]; destruct Hb as [-> | ->]; done. }
  unfold cached. simpl. rewrite !Hget.
  destruct (load_cases sn c' b now (invalidate c id key m)) as [-> | (l2 & x & Hl2 & Hg & _)].
  - unfold load_driver. rewrite load_from_database. destruct (sn_error sn); [done|]. by destruct (answer _ _).
  - simpl in Hl2. apply fmap_Some in Hl2 as (l2' & _ & ->). revert Hg. unfold l2_get. rewrite Hget2.
    by destruct (answered _).
Qed.
End recency.

(** ** Sweeping *)

Section sweep.
Context `{TtlCache, AppJson, SerdeJson, Moka, SerdeTree}.

(** The database answers, and not with an enabled app. *)
Definition gone (sn : Snapshot) (id : string) : bool :=
  match sn_error sn, answer (sn_apps sn) (Id id) with
  | None, Disabled | None, NotFound => true
  | _, _ => false
  end.

Definition handles_of (a : LocalAdapter) (id : string) : list ConnectionHandle :=
  (map_to_list (default ∅ (la_apps a !! id))).*2.

Lemma sweep_app_step sn c now w id :
  let '(w', g) := sweep_app (database sn) c now w id in
  g = gone sn id ∧
  pw_adapter w' = (if g then (ad_purge_app id (pw_adapter w)).1 else pw_adapter w) ∧
  pw_counts w' = (if g then delete id (pw_counts w) else pw_counts w).
Proof.
  destruct w as [[a e] counts cache0]. unfold sweep_app, gone. destruct (cached _ _ _ _ _) as [cache known]. simpl.
  destruct (sn_error sn); [done|]. by destruct (by_id _ _).
Qed.

(** What a purge of one app does to the adapter. *)
Lemma purge_adapter id a e : let '(a', e') := (ad_purge_app id (a, e)).1 in
  la_apps a' = delete id (la_apps a) ∧
  env_store e' = (close_handles_4009 (handles_of a id) (env_store e)).1.
Proof. done. Qed.

Definition inners (a : LocalAdapter) (id : string) : list nat := inner_of <$> handles_of a id.

Record swept (sn : Snapshot) (ids : list string) (w w' : PurgeWorld) : Prop := {
  swept_apps id : la_apps (pw_adapter w').1 !! id =
    if bool_decide (id ∈ ids) && gone sn id then None else la_apps (pw_adapter w).1 !! id;
  swept_counts id : pw_counts w' !! id =
    if bool_decide (id ∈ ids) && gone sn id then None else pw_counts w !! id;
  swept_others i :
    (∀ id, id ∈ ids → gone sn id = true → i ∉ inners (pw_adapter w).1 id) →
    chans (env_store (pw_adapter w').2) !! i = chans (env_store (pw_adapter w).2) !! i;
  swept_closed id h :
    NoDup (ids ≫= inners (pw_adapter w).1) → id ∈ ids → gone sn id = true →
    h ∈ handles_of (pw_adapter w).1 id →
    queue_of (env_store (pw_adapter w').2) (inner_of h) =
    queue_of (env_store (pw_adapter w).2) (inner_of h) ++
      take (room (env_store (pw_adapter w).2) (inner_of h)) disconnect_frames
}.

Lemma mem_cons_ne (id id' : string) ids : id' ≠ id → bool_decide (id' ∈ id :: ids) = bool_decide (id' ∈ ids).
Proof. intros Hne. apply bool_decide_ext. rewrite elem_of_cons. naive_solver. Qed.

Lemma mem_cons_eq (id : string) ids : bool_decide (id ∈ id :: ids) = true.
Proof. apply bool_decide_eq_true_2. left. Qed.

Lemma swept_nil sn w : swept sn [] w w.
Proof. split; intros; [done|done|done|]. by destruct (not_elem_of_nil id). Qed.

Lemma swept_keep sn id ids w w1 w' : gone sn id = false → pw_adapter w1 = pw_adapter w → pw_counts w1 = pw_counts w →
  swept sn ids w1 w' → swept sn (id :: ids) w w'.
Proof.
  intros Hg Ha Hc [Happs Hcounts Hothers Hclosed]. rewrite Ha, ?Hc in *. split.
  - intros id'. rewrite Happs. destruct (decide (id' = id)) as [->|Hne]; [by rewrite Hg, !andb_false_r|].
    by rewrite mem_cons_ne.
  - intros id'. rewrite Hcounts. destruct (decide (id' = id)) as [->|Hne]; [by rewrite Hg, !andb_false_r|].
    by rewrite mem_cons_ne.
  - intros i Hi. apply Hothers. intros id' Hin. by apply Hi; right.
  - intros id' h Hnd Hin Hg' Hh. apply elem_of_cons in Hin as [->|Hin]; [congruence|].
    rewrite bind_cons in Hnd. apply NoDup_app in Hnd as (_ & _ & Hnd). by apply (Hclosed id').
Qed.

(** A purge leaves the mailboxes of the other apps as they were. *)
Lemma purge_handles id id' a a' : la_apps a' = delete id (la_apps a) → id' ≠ id → handles_of a' id' = handles_of a id'.
Proof. intros Ha Hne. unfold handles_of. rewrite Ha. unfold AppRegistry in *. by rewrite lookup_delete_ne. Qed.

Lemma inners_elem a id h : h ∈ handles_of a id → inner_of h ∈ inners a id.
Proof. apply list_elem_of_fmap_2. Qed.

Lemma swept_purge sn id ids a e counts a1 e1 w1 w' : gone sn id = true → id ∉ ids →
  la_apps a1 = delete id (la_apps a) → env_store e1 = (close_handles_4009 (handles_of a id) (env_store e)).1 →
  ∀ cache, pw_adapter w1 = (a1, e1) → pw_counts w1 = delete id counts →
  swept sn ids w1 w' → swept sn (id :: ids) (mkPurgeWorld (a, e) counts cache) w'.
Proof.
  intros Hg Hnin Ha1 He1 cache Ha Hc [Happs Hcounts Hothers Hclosed]. rewrite Ha, Hc in *. simpl in *.
  assert (∀ id', id' ∈ ids → handles_of a1 id' = handles_of a id') as Hsame.
  { intros id' Hin. apply (purge_handles id); [done|]. by intros ->. }
  assert (ids ≫= inners a1 = ids ≫= inners a) as Hbind.
  { clear -Hsame. induction ids as [|x ids IH]; [done|]. rewrite !bind_cons. unfold inners at 1 3.
    rewrite Hsame by left. f_equal. apply IH. intros y Hy. apply Hsame. by right. }
  assert (∀ i, i ∉ inners a id → chans (env_store e1) !! i = chans (env_store e) !! i) as Hkeep.
  { intros i Hi. rewrite He1. by apply close_handles_other. }
  split; simpl.
  - intros id'. rewrite Happs, Ha1. unfold AppRegistry in *. destruct (decide (id' = id)) as [->|Hne].
    + rewrite lookup_delete_eq, Hg, mem_cons_eq. by destruct (bool_decide _).
    + rewrite lookup_delete_ne by done. by rewrite mem_cons_ne.
  - intros id'. rewrite Hcounts. destruct (decide (id' = id)) as [->|Hne].
    + rewrite lookup_delete_eq, Hg, mem_cons_eq. by destruct (bool_decide _).
    + rewrite lookup_delete_ne by done. by rewrite mem_cons_ne.
  - intros i Hi. rewrite Hothers.
    + apply Hkeep. apply Hi; [by left|done].
    + intros id' Hin Hg'. unfold inners. rewrite Hsame by done. apply Hi; [by right|done].
  - intros id' h Hnd Hin Hg' Hh. change (NoDup (inners a id ++ (ids ≫= inners a))) in Hnd. apply NoDup_app in Hnd as (Hnd1 & Hdisj & Hnd2).
    apply elem_of_cons in Hin as [->|Hin].
    + unfold queue_of at 1. rewrite Hothers.
      * rewrite He1. by apply close_handles_each.
      * intros id' Hin Hg2. unfold inners. rewrite Hsame by done. intros Hbad.
        apply (Hdisj (inner_of h)); [by apply inners_elem|]. apply list_elem_of_bind. eauto.
    + assert (inner_of h ∉ inners a id) as Hno.
      { intros Hbad. apply (Hdisj _ Hbad), list_elem_of_bind. exists id'. split; [by apply inners_elem|done]. }
      rewrite (Hclosed id' h); [|by rewrite Hbind|done|done|by rewrite Hsame].
      unfold queue_of, room. by rewrite Hkeep.
Qed.

Lemma sweep_ids_swept sn c now ids : NoDup ids → ∀ w,
  let '(w', n) := sweep_ids (database sn) c now ids w in
  swept sn ids w w' ∧ n = length (filter (λ id, gone sn id = true) ids).
Proof.
  induction ids as [|id ids IH]; intros Hnd w; [by split; [apply swept_nil|]|].
  apply NoDup_cons in Hnd as [Hnin Hnd]. cbn [sweep_ids].
  pose proof (sweep_app_step sn (c id) now w id) as Hstep.
  destruct (sweep_app _ _ _ _ _) as [w1 g]. destruct Hstep as (-> & Ha & Hc). specialize (IH Hnd w1).
  destruct (sweep_ids _ _ _ _ w1) as [w' n]. destruct IH as [IH ->]. rewrite filter_cons.
  destruct (gone sn id) eqn:Hg.
  - split; [|by rewrite decide_True]. destruct w as [[a e] counts cache]. cbn [pw_adapter pw_counts] in Ha, Hc.
    pose proof (purge_adapter id a e) as Hp. destruct (ad_purge_app id (a, e)).1 as [a1 e1].
    destruct Hp as [Hp1 Hp2]. by eapply swept_purge.
  - split; [|by rewrite decide_False]. by eapply swept_keep.
Qed.

(** C20. A sweep of the connected apps: the ones whose id the database answers is
    unknown or disabled lose their index entry and their connection counter, and
    each of their mailboxes, one per connection, receives the 4009 error and the
    4009 close as far as it has room (a full mailbox drops them); apps the
    database still has keep everything, and a database that fails loses nobody
    anything. The number returned is the number of apps purged. *)
Theorem sweep_purges_exactly (sn : Snapshot) (c : string → Calls) (now : Z) (w : PurgeWorld) :
  let ids := connected_app_ids (la_apps (pw_adapter w).1) in
  let '(w', n) := app_sweep_once (database sn) c now w in
  swept sn ids w w' ∧ n = length (filter (λ id, gone sn id = true) ids) ∧
  (sn_error sn ≠ None → n = 0%nat ∧ la_apps (pw_adapter w').1 = la_apps (pw_adapter w).1 ∧ pw_counts w' = pw_counts w).
Proof.
  intros ids. pose proof (sweep_ids_swept sn c now ids (NoDup_fst_map_to_list _) w) as Hs.
  unfold app_sweep_once. fold ids. destruct (sweep_ids _ _ _ _ _) as [w' n]. destruct Hs as [Hs ->].
  split_and!; [done|done|]. intros Herr.
  assert (∀ id, gone sn id = false) as Hg. { intros id. unfold gone. by destruct (sn_error sn). }
  split_and!.
  - clear Hs. induction ids as [|id l IH]; [done|]. rewrite filter_cons, decide_False; [done|]. by rewrite Hg.
  - apply (map_eq (M := gmap string)). intros id. by rewrite (swept_apps _ _ _ _ Hs), Hg, andb_false_r.
  - apply map_eq. intros id. by rewrite (swept_counts _ _ _ _ Hs), Hg, andb_false_r.
Qed.
End sweep.
