(* ===== verification/AppWitness.v ===== *)
(** * Concrete caches, apps and histories for the theorems on the app stores *)

From S2P Require Import Prelude RustStd Json JsonDemo Envelope RedisStore Protocol Mailbox Registry UserRegistry.
From S2P Require Import Adapter Auth App Rest RestWitness AppStores Databases AppCacheProps.
#[local] Open Scope Z_scope.

Module AppDemo.

(** A cache that keeps every entry for its time to live. *)
#[export] Instance cache : TtlCache := {|
  tcache V := (Z * gmap string (V * Z))%type;
  tc_new V ttl := (ttl, ∅);
  tc_get V k now c :=
    match c.2 !! k with Some (v, t) => if (now <? t + c.1) then Some v else None | None => None end;
  tc_insert V k v now c := (c.1, <[k := (v, now)]> c.2);
  tc_remove V k c := (c.1, delete k c.2)
|}.

#[export] Instance cache_laws : TtlCacheLaws.
Proof.
  refine (@Build_TtlCacheLaws cache (λ V c, c.1) (λ V c, c.2) _ _ _ _ _ _ _); try by intros.
  intros V k now c v. simpl. destruct (c.2 !! k) as [[v' t]|]; [|done].
  destruct (Z.ltb_spec now (t + c.1)); [|done]. intros [= ->]. eauto.
Defined.

(** Apps as strings of bits. *)
#[export] Instance hook_eq : EqDecision WebhookConfig.
Proof. solve_decision. Defined.
#[export] Instance hook_countable : Countable WebhookConfig.
Proof.
  refine (inj_countable' (λ w, (wc_url w, wc_event_types w, wc_headers w))
    (λ '(u, t, h), mkWebhookConfig u t h) _). by intros [].
Defined.

#[export] Instance app_eq : EqDecision App.
Proof. solve_decision. Defined.
#[export] Instance app_countable : Countable App.
Proof.
  refine (inj_countable'
    (λ a, (app_name a, app_id a, app_key a, app_secret a, app_enabled a,
           (client_messages_enabled a, app_capacity a, max_backend_events_per_second a,
            max_read_requests_per_second a, subscription_count_enabled a, app_webhooks a),
           (has_channel_occupied_webhooks a, has_channel_vacated_webhooks a, has_member_added_webhooks a,
            has_member_removed_webhooks a, has_client_event_webhooks a, has_cache_miss_webhooks a,
            has_subscription_count_webhooks a)))
    (λ '(n, i, k, s, e, (c, p, b, r, u, w), (f1, f2, f3, f4, f5, f6, f7)),
       mkApp n i k s e c p b r u w f1 f2 f3 f4 f5 f6 f7) _). by intros [].
Defined.

Fixpoint bits (p : positive) : string :=
  match p with xH => "." | xO p => String "0" (bits p) | xI p => String "1" (bits p) end.

Fixpoint of_bits (s : string) : positive :=
  match s with
  | String "0" s => xO (of_bits s)
  | String "1" s => xI (of_bits s)
  | _ => xH
  end.

Lemma of_bits_bits p : of_bits (bits p) = p.
Proof. induction p as [p IH|p IH|]; simpl; by rewrite ?IH. Qed.

#[export] Instance json : AppJson := {|
  app_to_string a := bits (countable.encode a);
  app_from_string s := countable.decode (of_bits s)
|}.

#[export] Instance json_laws : AppJsonLaws.
Proof.
  split.
  - intros a Ha. exists a. split; [|done]. simpl. by rewrite of_bits_bits, decode_encode.
  - intros a. simpl. by destruct (countable.encode a).
Defined.

Definition app (secret : string) (enabled : bool) : App :=
  mkApp "n" "1" "k" secret enabled false 0 None None false [] false false false false false false false.

(** The secret changes, the database fails, the app is removed. *)
Definition old : Snapshot := mkSnapshot [app "old" true] None.
Definition new : Snapshot := mkSnapshot [app "new" true] None.
Definition down : Snapshot := mkSnapshot [] (Some (Backend "down")).
Definition none : Snapshot := mkSnapshot [] None.

Definition calls : Calls := mkCalls Answered Answered Answered Answered.
Definition lost : Calls := mkCalls ReplyLost Answered NotSent NotSent.

Lemma app_sound secret : snapshot_sound (mkSnapshot [app secret true] None).
Proof. intros _. split; [split; apply NoDup_singleton|by apply Forall_singleton]. Qed.
End AppDemo.

Import AppDemo.
#[local] Existing Instances RestDemo.json RestDemo.tree RestDemo.moka.

Lemma cached_answers_recent_witness :
  let l2 := Some (tc_new 60) in
  let ops := [(0, PeerLoad old calls (Key "k")); (50, Lookup new calls (Id "1")); (70, Lookup down lost (Key "x"));
              (80, Invalidate lost "2" "z")] in
  (cached (database down) calls (Id "1") 85 (app_ops ops (CachingAppManager_new 300 5 l2))).2 = Ok (Found (app "old" true)) ∧
  fresh (held (ops ++ [(85, Lookup down calls (Id "1"))])) 300 5 60 (Id "1") (Found (app "old" true)) 85.
Proof.
  intros l2 ops.
  pose proof (cached_answers_recent 300 5 60 l2 ops 85 down calls (Id "1")) as Hr.
  assert ((cached (database down) calls (Id "1") 85 (app_ops ops (CachingAppManager_new 300 5 l2))).2 =
          Ok (Found (app "old" true))) as Heq by (vm_compute; reflexivity).
  rewrite Heq in Hr. split; [exact Heq|]. clear Heq. apply Hr; [lia| | |done].
  - intros x [= <-]. split; reflexivity.
  - do 4 (apply Forall_cons_2; [first [apply app_sound | done]|]). by apply Forall_nil_2.
Defined.

Lemma invalidate_then_lookup_asks_witness :
  let m := app_ops [(0, Lookup old calls (Key "k"))] (CachingAppManager_new 300 5 (Some (tc_new 60))) in
  (cached (database new) calls (Key "k") 1 m).2 = Ok (Found (app "old" true)) ∧
  (cached (database new) calls (Key "k") 1 (invalidate calls "1" "k" m)).2 = Ok (Found (app "new" true)).
Proof.
  intros m. split; [vm_compute; reflexivity|].
  rewrite (invalidate_then_lookup_asks calls calls "1" "k" (Key "k") new 1 m); [done|done|by right].
Defined.

Lemma static_apps_exact_witness :
  let doc id key enabled := JObject [("name", JString "n"); ("id", JString id); ("key", JString key);
    ("secret", JString "s"); ("enabled", JBool enabled)] in
  let raw := JsonDemo.show (JArray [doc "1" "a" true; doc "2" "b" false]) in
  match from_json raw with
  | Ok apps => am_by_key (StaticFileAppManager apps) "b" = Ok Disabled ∧
      (∀ id a, am_by_id (StaticFileAppManager apps) id = Ok (Found a) ↔ a ∈ apps ∧ app_id a = id ∧ app_enabled a = true)
  | Err _ => False
  end.
Proof.
  intros doc raw. destruct (from_json raw) as [apps|e] eqn:Hj.
  - split.
    + vm_compute in Hj. injection Hj as <-. vm_compute. reflexivity.
    + apply (static_apps_exact raw apps Hj).
  - vm_compute in Hj. discriminate.
Defined.

(** A row as its columns. *)
#[local] Instance columns : SqlRow := {|
  row := gmap string (Z + string);
  get_i64 r c := match r !! c with Some (inl n) => Ok n | _ => Err "column" end;
  get_opt_i64 r c := match r !! c with Some (inl n) => Ok (Some n) | None => Ok None | _ => Err "column" end;
  get_string r c := match r !! c with Some (inr s) => Ok s | _ => Err "column" end;
  get_blob r c := Err "column"
|}.
#[local] Instance decode_errors : DecodeErrors := {| json_error _ := "json"; not_utf8 _ := "utf8" |}.

Definition stored (capacity : Z) : row :=
  (list_to_map [("id", inr "1"); ("key", inr "k"); ("secret", inr "s"); ("name", inr "n"); ("capacity", inl capacity);
               ("client_messages_enabled", inl 1); ("subscription_count_enabled", inl 0); ("enabled", inl 1);
               ("webhooks", inr (JsonDemo.show (JArray [])))] : gmap string (Z + string)).

Definition table (sql val : string) : result (option row) string :=
  Ok (if decide (val = "k") then Some (stored 5) else None).

Lemma oversized_capacity_is_unlimited_witness :
  match row_to_app (stored (2 ^ 32)) false with Ok a => app_capacity a = 0 | Err _ => False end.
Proof.
  destruct (row_to_app (stored (2 ^ 32)) false) as [a|e] eqn:Hr.
  - exact (oversized_capacity_is_unlimited (stored (2 ^ 32)) false a 1 eq_refl Hr).
  - vm_compute in Hr. discriminate.
Defined.

Lemma database_apps_valid_witness :
  match load_from_driver (SqlAppManager Postgres false table) (Key "k") with
  | Ok (Found a) => app_enabled a = true ∧ validate a = Ok tt ∧ recompute_has_flags a = a
  | _ => False
  end.
Proof.
  destruct (load_from_driver _ _) as [[a| |]|e] eqn:Hl; [|vm_compute in Hl; discriminate..].
  exact (database_apps_valid Postgres false table (λ _ _, Ok None) (Key "k") a (or_introl Hl)).
Defined.
