(* ===== verification/Rustls.v ===== *)
(** * The TLS library as an interface

    What [src/src/transport/conn.rs] and [src/src/transport/rest.rs] use of a
    [rustls] server session, and its documented behaviour. A session stands
    between a socket and its user: [read_tls] takes ciphertext from one read of
    the socket, [process_new_packets] decrypts what was taken, [reader_read]
    hands out plaintext; [writer_write] encrypts, [write_tls] gives ciphertext
    to one write of the socket. *)

From S2P Require Import Prelude RustStd Outbound Inbound.

(** ** Operations *)

(** [read_tls] is given the answer the socket would make to a read and returns
    what is left of it: all of it when the session does not read, a rest when it
    takes fewer bytes than were there. [write_tls] is given the answer the socket
    would make to a write and returns the bytes it put there; [write_tls_vec] is
    [write_tls] on a vector, which takes all it is offered. *)
Class Rustls (T : Type) : Type := {
  read_tls : T → ReadResult → T * list ReadResult * result nat IoKind;
  process_new_packets : T → T * bool;
  plaintext_bytes_to_read : T → nat;
  reader_read : T → nat → T * result (list Z) IoKind;
  wants_write : T → bool;
  write_tls : T → IoResult → T * list Z * result nat IoKind;
  write_tls_vec : T → T * list Z;
  writer_write : T → list Z → T * result nat IoKind;
  send_close_notify : T → T
}.

(** An answer of a socket, less its first [k] bytes. *)
Definition unread (k : nat) (bytes : list Z) : list ReadResult :=
  match drop k bytes with [] => [] | rest => [ReadOk rest] end.

(** ** Documented behaviour of reading *)

(** [received]: the plaintext decrypted and not read. [yields t cs]: all the
    plaintext [t] will have received once it has taken the ciphertext [cs],
    however that is cut; nothing when the session fails on it. [notified]: the
    peer's [close_notify] was received. [ended]: the socket reported its end.
    [processed]: nothing taken waits for [process_new_packets]. A session that
    holds more than [plaintext_limit] received bytes refuses to read. *)
Class RustlsReads (T : Type) `{Rustls T} : Type := {
  received : T → list Z;
  yields : T → list Z → option (list Z);
  notified : T → bool;
  ended : T → bool;
  processed : T → bool;
  plaintext_limit : nat;

  plaintext_counted t : plaintext_bytes_to_read t = length (received t);
  yields_extends t cs p : yields t cs = Some p → received t `prefix_of` p;
  notified_stops t cs : notified t = true → yields t cs = Some (received t);

  read_tls_full t a :
    (plaintext_limit < length (received t))%nat → read_tls t a = (t, [a], Err KOther);
  read_tls_notified t a :
    (length (received t) <= plaintext_limit)%nat → notified t = true →
    read_tls t a = (t, [a], Ok 0%nat);
  read_tls_data t bytes :
    (length (received t) <= plaintext_limit)%nat → notified t = false → processed t = true →
    bytes ≠ [] →
    ∃ k t', (0 < k <= length bytes)%nat ∧
      read_tls t (ReadOk bytes) = (t', unread k bytes, Ok k) ∧
      received t' = received t ∧ notified t' = false ∧ ended t' = ended t ∧
      ∀ cs, yields t' (drop k bytes ++ cs) = yields t (bytes ++ cs);
  read_tls_end t :
    (length (received t) <= plaintext_limit)%nat → notified t = false → processed t = true →
    ∃ t', read_tls t (ReadOk []) = (t', [], Ok 0%nat) ∧
      received t' = received t ∧ notified t' = false ∧ ended t' = true ∧ processed t' = true ∧
      ∀ cs, yields t' cs = yields t cs;
  read_tls_error t :
    (length (received t) <= plaintext_limit)%nat → notified t = false →
    read_tls t ReadWouldBlock = (t, [], Err KWouldBlock) ∧
    read_tls t ReadInterrupted = (t, [], Err KInterrupted) ∧
    read_tls t ReadError = (t, [], Err KOther);

  process_ok t t' :
    process_new_packets t = (t', true) →
    yields t [] = Some (received t') ∧ processed t' = true ∧ ended t' = ended t ∧
    ∀ cs, yields t' cs = yields t cs;
  process_failed t t' cs : process_new_packets t = (t', false) → yields t cs = None;

  reader_data t n :
    (0 < n)%nat → received t ≠ [] →
    ∃ k t', (0 < k <= n)%nat ∧ (k <= length (received t))%nat ∧
      reader_read t n = (t', Ok (take k (received t))) ∧
      received t' = drop k (received t) ∧ notified t' = notified t ∧ ended t' = ended t ∧
      processed t' = processed t ∧ ∀ cs, yields t' cs = drop k <$> yields t cs;
  reader_empty t n :
    received t = [] →
    reader_read t n =
      (t, if notified t then Ok [] else if ended t then Err KOther else Err KWouldBlock)
}.

(** ** Documented behaviour of writing *)

(** [pending]: the ciphertext that waits to be written. [carried t sent p]: the
    session has produced the ciphertext [sent] so far, for the plaintext [p];
    [peer_reads] is what the peer decrypts. [established]: the handshake
    is over and the session has sent no alert that ends it. A session takes
    plaintext up to [sendable_limit] pending bytes. *)
Class RustlsWrites (T : Type) `{Rustls T} : Type := {
  pending : T → list Z;
  carried : T → list Z → list Z → Prop;
  peer_reads : list Z → list Z;
  established : T → bool;
  sendable_limit : nat;
  sendable_some : sendable_limit ≠ 0%nat;

  wants_pending t : wants_write t = bool_decide (pending t ≠ []);
  peer_decrypts t sent p : carried t sent p → peer_reads sent = p;

  write_tls_room t n :
    pending t ≠ [] → (0 < n)%nat →
    ∃ k t', (0 < k <= n)%nat ∧ (k <= length (pending t))%nat ∧
      write_tls t (Room n) = (t', take k (pending t), Ok k) ∧
      pending t' = drop k (pending t) ∧ established t' = established t ∧
      ∀ sent p, carried t sent p → carried t' sent p;
  write_tls_to_vec t :
    pending t ≠ [] →
    ∃ k t', (0 < k <= length (pending t))%nat ∧ write_tls_vec t = (t', take k (pending t)) ∧
      pending t' = drop k (pending t) ∧ established t' = established t ∧
      ∀ sent p, carried t sent p → carried t' sent p;
  write_tls_none t : write_tls t (Room 0) = (t, [], Ok 0%nat);
  write_tls_error t :
    write_tls t IoWouldBlock = (t, [], Err KWouldBlock) ∧
    write_tls t IoInterrupted = (t, [], Err KInterrupted) ∧
    write_tls t IoError = (t, [], Err KOther);

  writer_takes t bytes :
    established t = true →
    let n := Nat.min (length bytes) (sendable_limit - length (pending t)) in
    ∃ ct t', writer_write t bytes = (t', Ok n) ∧ pending t' = pending t ++ ct ∧
      (n <= length ct)%nat ∧ established t' = true ∧
      ∀ sent p, carried t sent p → carried t' (sent ++ ct) (p ++ take n bytes);

  process_writes t t' ok :
    process_new_packets t = (t', ok) →
    ∃ ct, pending t' = pending t ++ ct ∧
      (ok = true → established t = true → established t' = true) ∧
      ∀ sent p, carried t sent p → carried t' (sent ++ ct) p;
  notify_writes t :
    ∃ ct, pending (send_close_notify t) = pending t ++ ct ∧
      ∀ sent p, carried t sent p → carried (send_close_notify t) (sent ++ ct) p;
  read_tls_writes t a t' rest r :
    read_tls t a = (t', rest, r) →
    pending t' = pending t ∧ established t' = established t ∧
    ∀ sent p, carried t sent p → carried t' sent p;
  reader_writes t n t' r :
    reader_read t n = (t', r) →
    pending t' = pending t ∧ established t' = established t ∧
    ∀ sent p, carried t sent p → carried t' sent p
}.

(** Writing does not touch what was received. *)
Class RustlsDuplex (T : Type) `{!Rustls T, !RustlsReads T, !RustlsWrites T} : Prop := {
  write_tls_reads t a t' out r :
    write_tls t a = (t', out, r) →
    received t' = received t ∧ notified t' = notified t ∧ ended t' = ended t ∧
    processed t' = processed t ∧ ∀ cs, yields t' cs = yields t cs;
  write_tls_vec_reads t t' out :
    write_tls_vec t = (t', out) →
    received t' = received t ∧ notified t' = notified t ∧ ended t' = ended t ∧
    processed t' = processed t ∧ ∀ cs, yields t' cs = yields t cs;
  notify_reads t :
    received (send_close_notify t) = received t ∧ notified (send_close_notify t) = notified t ∧
    ended (send_close_notify t) = ended t ∧ processed (send_close_notify t) = processed t ∧
    ∀ cs, yields (send_close_notify t) cs = yields t cs;
  writer_write_reads t bytes t' r :
    writer_write t bytes = (t', r) →
    received t' = received t ∧ notified t' = notified t ∧ ended t' = ended t ∧
    processed t' = processed t ∧ ∀ cs, yields t' cs = yields t cs
}.
