(* ===== verification/ConnTls.v ===== *)
(** * TLS connections: the encrypted half of [src/src/transport/conn.rs]

    A connection whose socket carries a TLS session: reading its request head
    and its frames, flushing its queue through the session, and the accounting
    of plaintext the session holds. The socket's reads and writes are scripts of
    answers; a script that ends blocks. *)

From S2P Require Import Prelude RustStd Frame Outbound Inbound Rustls.

Section tls.
Context {T : Type} `{!Rustls T}.

(** ** State *)

Inductive DrainStatus : Type := DrainOk | NeedsWrite | DrainClosed.

(** [Io::Tls]: the session, the coming reads of the socket, and its writes. *)
Record TlsIo : Type := mkTlsIo {
  io_tls : T;
  io_reads : list ReadResult;
  io_tcp : TcpStream
}.

Record TlsConnection : Type := mkTlsConnection { tc_conn : Connection; tc_io : TlsIo }.

Definition new_tls (io : TlsIo) (high_water : Z) : TlsConnection :=
  mkTlsConnection (Connection_new high_water) io.

Definition set_unflushed (n : Z) (c : Connection) : Connection :=
  mkConnection (out c) (out_cursor c) (out_bytes c) (high_water c) (codel c) (codel_state c)
    (codel_dropped c) (drophead_dropped c) n (reassembly_bytes c) (frame_buffer_bytes c)
    (inflight_delta c) (outbound_delta c).

(** ** Writing ciphertext *)

(** Write until the session has nothing left ([Ok true]), the socket blocks
    ([Ok false]) or fails. Each turn takes an answer of the socket. *)
Fixpoint write_ciphertext (t : T) (writes : list IoResult) (wire : list Z)
    : T * TcpStream * result bool IoKind :=
  if negb (wants_write t) then (t, mkTcpStream writes wire, Ok true)
  else
    match writes with
    | [] => (t, mkTcpStream [] wire, Ok false)
    | a :: writes =>
        match write_tls t a with
        | (t, out, Ok _) => write_ciphertext t writes (wire ++ out)
        | (t, out, Err KWouldBlock) => (t, mkTcpStream writes (wire ++ out), Ok false)
        | (t, out, Err e) => (t, mkTcpStream writes (wire ++ out), Err e)
        end
    end.

(** ** The sink of the flush *)

Record TlsBatchSink : Type := mkTlsBatchSink {
  ts_tls : T;
  ts_tcp : TcpStream;
  ts_unflushed : Z
}.

Definition tls_write_batch (bytes : list Z) (s : TlsBatchSink)
    : TlsBatchSink * option (result nat IoKind) :=
  match write_ciphertext (ts_tls s) (tcp_writes (ts_tcp s)) (tcp_wire (ts_tcp s)) with
  | (t, tcp, Err e) => (mkTlsBatchSink t tcp (ts_unflushed s), Some (Err e))
  | (t, tcp, Ok false) => (mkTlsBatchSink t tcp (ts_unflushed s), Some (Err KWouldBlock))
  | (t, tcp, Ok true) =>
      match writer_write t bytes with
      | (t, Err e) => (mkTlsBatchSink t tcp 0, Some (Err e))
      | (t, Ok n) =>
          match write_ciphertext t (tcp_writes tcp) (tcp_wire tcp) with
          | (t, tcp, Err e) => (mkTlsBatchSink t tcp (Z.of_nat n), Some (Err e))
          | (t, tcp, Ok flushed) =>
              (mkTlsBatchSink t tcp (if flushed then 0 else Z.of_nat n), Some (Ok n))
          end
      end
  end.

#[local] Instance TlsBatchSink_sink : WriteSink TlsBatchSink := tls_write_batch.

(** ** Flushing *)

Definition drain_ciphertext (c : TlsConnection) : TlsConnection * option WriteStatus :=
  let io := tc_io c in
  let '(t, tcp, r) :=
    write_ciphertext (io_tls io) (tcp_writes (io_tcp io)) (tcp_wire (io_tcp io)) in
  let io := mkTlsIo t (io_reads io) tcp in
  match r with
  | Ok true => (mkTlsConnection (set_unflushed 0 (tc_conn c)) io, None)
  | Ok false => (mkTlsConnection (tc_conn c) io, Some WouldBlock)
  | Err _ => (mkTlsConnection (tc_conn c) io, Some WClosed)
  end.

(** Every turn of the flush but the last two takes an answer of the socket. *)
Definition flush_tls_phases (now_ns : Z) (c : TlsConnection)
    : TlsConnection * option WriteStatus :=
  match drain_ciphertext c with
  | (c, Some status) => (c, Some status)
  | (c, None) =>
      let io := tc_io c in
      let '(conn, s, status) :=
        flush_coalesced (S (S (length (tcp_writes (io_tcp io))))) TLS_BATCH_MAX_BYTES now_ns
          (tc_conn c)
          (mkTlsBatchSink (io_tls io) (io_tcp io) (tls_unflushed_bytes (tc_conn c))) in
      let c := mkTlsConnection (set_unflushed (ts_unflushed s) conn)
                 (mkTlsIo (ts_tls s) (io_reads io) (ts_tcp s)) in
      match status with
      | Some Drained =>
          let '(c, status) := drain_ciphertext c in (c, Some (default Drained status))
      | _ => (c, status)
      end
  end.

Definition flush_tls (now_ns : Z) (c : TlsConnection) : TlsConnection * option WriteStatus :=
  let before := tls_unflushed_bytes (tc_conn c) in
  let '(c, status) := flush_tls_phases now_ns c in
  let delta := (tls_unflushed_bytes (tc_conn c) - before)%Z in
  let conn := tc_conn c in
  (mkTlsConnection
     (mkConnection (out conn) (out_cursor conn) (out_bytes conn) (high_water conn) (codel conn)
        (codel_state conn) (codel_dropped conn) (drophead_dropped conn)
        (tls_unflushed_bytes conn) (reassembly_bytes conn) (frame_buffer_bytes conn)
        (inflight_delta conn + delta)%Z (outbound_delta conn + delta)%Z) (tc_io c), status).

Definition tls_wants_write (c : TlsConnection) : bool := wants_write (io_tls (tc_io c)).

Definition has_pending_writes (c : TlsConnection) : bool :=
  negb (bool_decide (out (tc_conn c) = [])) || tls_wants_write c.

(** Best effort: a write error ends the attempt. *)
Definition close_notify (c : TlsConnection) : TlsConnection :=
  let io := tc_io c in
  let '(t, tcp, _) :=
    write_ciphertext (send_close_notify (io_tls io)) (tcp_writes (io_tcp io))
      (tcp_wire (io_tcp io)) in
  mkTlsConnection (tc_conn c) (mkTlsIo t (io_reads io) tcp).

(** ** Reading *)

Inductive Ingested : Type := IngestBlocked | IngestEnd | IngestFailed.

(** The bytes and answers a script holds. *)
Definition read_size (reads : list ReadResult) : nat :=
  foldr (λ r acc, match r with ReadOk bytes => S (length bytes) | _ => 1%nat end + acc)%nat
    0%nat reads.

(** Take ciphertext until the socket blocks. A turn takes an answer or at least
    one byte, so the size of the script is fuel enough. *)
Fixpoint ingest (fuel : nat) (t : T) (reads : list ReadResult)
    : T * list ReadResult * option Ingested :=
  match fuel with
  | O => (t, reads, None)
  | S fuel =>
      let '(t, rest, r) := read_tls t (default ReadWouldBlock (head reads)) in
      let reads := match reads with [] => [] | _ :: later => rest ++ later end in
      match r with
      | Ok O => (t, reads, Some IngestEnd)
      | Ok _ =>
          match process_new_packets t with
          | (t, true) => ingest fuel t reads
          | (t, false) => (t, reads, Some IngestFailed)
          end
      | Err KWouldBlock => (t, reads, Some IngestBlocked)
      | Err KInterrupted => ingest fuel t reads
      | Err KOther => (t, reads, Some IngestFailed)
      end
  end.

(** Read plaintext until there is none: the buffer, and whether the reader
    failed. A read hands out at least one byte. *)
Fixpoint take_plaintext (fuel : nat) (t : T) (buf : list Z) : T * list Z * option bool :=
  match fuel with
  | O => (t, buf, None)
  | S fuel =>
      match reader_read t (16 * 1024) with
      | (t, Ok []) => (t, buf, Some true)
      | (t, Ok bytes) => take_plaintext fuel t (buf ++ bytes)
      | (t, Err KWouldBlock) => (t, buf, Some true)
      | (t, Err KInterrupted) => take_plaintext fuel t buf
      | (t, Err KOther) => (t, buf, Some false)
      end
  end.

Definition drain_head_bytes_tls (io : TlsIo) (buf : list Z) : TlsIo * list Z * option DrainStatus :=
  let '(t, reads, got) := ingest (S (read_size (io_reads io))) (io_tls io) (io_reads io) in
  match got with
  | Some IngestBlocked =>
      let '(t, tcp, flight) := write_ciphertext t (tcp_writes (io_tcp io)) (tcp_wire (io_tcp io)) in
      match flight with
      | Err _ => (mkTlsIo t reads tcp, buf, Some DrainClosed)
      | Ok written =>
          match take_plaintext (S (plaintext_bytes_to_read t)) t buf with
          | (t, buf, Some true) =>
              (mkTlsIo t reads tcp, buf, Some (if written then DrainOk else NeedsWrite))
          | (t, buf, Some false) => (mkTlsIo t reads tcp, buf, Some DrainClosed)
          | (t, buf, None) => (mkTlsIo t reads tcp, buf, None)
          end
      end
  | Some _ => (mkTlsIo t reads (io_tcp io), buf, Some DrainClosed)
  | None => (mkTlsIo t reads (io_tcp io), buf, None)
  end.

(** Fill the buffer: whether the end was hit, an error when the socket or the
    session failed. *)
Definition fill_tls (io : TlsIo) (scratch : list Z)
    : TlsIo * list Z * option (result bool ConnError) :=
  let '(t, reads, got) := ingest (S (read_size (io_reads io))) (io_tls io) (io_reads io) in
  match got with
  | None => (mkTlsIo t reads (io_tcp io), scratch, None)
  | Some IngestFailed => (mkTlsIo t reads (io_tcp io), scratch, Some (Err ConnClosed))
  | Some got =>
      let hit_eof := match got with IngestEnd => true | _ => false end in
      let '(t, tcp, r) := write_ciphertext t (tcp_writes (io_tcp io)) (tcp_wire (io_tcp io)) in
      match r with
      | Err _ => (mkTlsIo t reads tcp, scratch, Some (Err ConnClosed))
      | Ok _ =>
          let '(t, scratch, ok) := take_plaintext (S (plaintext_bytes_to_read t)) t scratch in
          (mkTlsIo t reads tcp, scratch, (λ ok, Ok (hit_eof || negb ok)) <$> ok)
      end
  end.

Definition read_frames_tls (io : TlsIo) (scratch : list Z) (max_payload : Z)
    : TlsIo * list Z * option (result (list Frame) ConnError) :=
  match fill_tls io scratch with
  | (io, scratch, None) => (io, scratch, None)
  | (io, scratch, Some (Err e)) => (io, scratch, Some (Err e))
  | (io, scratch, Some (Ok hit_eof)) =>
      let '(scratch, r) := frames_available scratch hit_eof max_payload in
      (io, scratch, Some r)
  end.

End tls.

Arguments TlsIo : clear implicits.
Arguments TlsConnection : clear implicits.
Arguments TlsBatchSink : clear implicits.

#[export] Existing Instance TlsBatchSink_sink.
