(* ===== verification/TlsProps.v ===== *)
(** * Theorems on TLS connections

    Against any session with the documented behaviour of [rustls]: what the
    peer decrypts is made of whole frames, and a burst of plaintext is read up to
    the session's limit, beyond which the connection is closed. *)

From S2P Require Import Prelude RustStd Frame Outbound Inbound Rustls ConnTls.

Abbreviation session c := (io_tls (tc_io c)).
Abbreviation socket c := (io_tcp (tc_io c)).

(** ** Writing *)

Section writing.
Context {T : Type} `{!Rustls T, !RustlsWrites T}.
Implicit Types (t : T) (s : TlsBatchSink T).

(** What the peer decrypts once it has all the ciphertext produced so far. *)
Definition delivered t (tcp : TcpStream) : list Z := peer_reads (tcp_wire tcp ++ pending t).

(** The session and its socket fit: the ciphertext on the wire and the pending
    one are what the session produced, for the plaintext it was given. *)
Definition channel t (tcp : TcpStream) : Prop :=
  carried t (tcp_wire tcp ++ pending t) (delivered t tcp).

Lemma channel_intro t tcp p :
  carried t (tcp_wire tcp ++ pending t) p → channel t tcp ∧ delivered t tcp = p.
Proof.
  intros Hc. assert (delivered t tcp = p) as Hd by by apply peer_decrypts in Hc.
  split; [|done]. unfold channel. by rewrite Hd.
Qed.

Definition calm_write (a : IoResult) : bool := match a with IoInterrupted | IoError => false | _ => true end.
Definition no_interrupt (a : IoResult) : bool := match a with IoInterrupted => false | _ => true end.

Record ciphertext_post t (writes : list IoResult) t' (tcp : TcpStream) (p : list Z)
    (r : result bool IoKind) : Prop := {
  cp_channel : channel t' tcp;
  cp_established : established t' = established t;
  cp_delivered : delivered t' tcp = p;
  cp_suffix : tcp_writes tcp `suffix_of` writes;
  cp_all : r = Ok true → pending t' = [];
  cp_blocked : r = Ok false → pending t' ≠ [];
  cp_progress : pending t ≠ [] → writes ≠ [] → (length (tcp_writes tcp) < length writes)%nat;
  cp_interrupted : r = Err KInterrupted → IoInterrupted ∈ writes;
  cp_failed e : r = Err e → e ≠ KWouldBlock ∧ ¬ Forall calm_write writes;
  cp_idle : pending t = [] → t' = t ∧ r = Ok true ∧ tcp_writes tcp = writes;
  cp_stuck : pending t ≠ [] → writes = [] → t' = t ∧ r = Ok false
}.

Lemma write_ciphertext_spec t writes wire :
  channel t (mkTcpStream writes wire) →
  let '(t', tcp, r) := write_ciphertext t writes wire in
  ciphertext_post t writes t' tcp (delivered t (mkTcpStream writes wire)) r.
Proof.
  revert t wire. induction writes as [|a writes IH]; intros t wire Hch; cbn [write_ciphertext];
    rewrite wants_pending; (destruct (decide (pending t = [])) as [Hp|Hp];
      [rewrite bool_decide_eq_false_2 by (by intros ?); simpl; by split|];
     rewrite bool_decide_eq_true_2 by done; simpl).
  { split; try done. }
  destruct (write_tls_error t) as (Hwb & Hint & Herr).
  assert (writes `suffix_of` a :: writes) as Hsuf by by apply suffix_cons_r.
  destruct a as [n| | |]; rewrite ?Hwb, ?Hint, ?Herr, ?app_nil_r.
  - assert (∃ t1 out k, write_tls t (Room n) = (t1, out, Ok k) ∧
      channel t1 (mkTcpStream writes (wire ++ out)) ∧ established t1 = established t ∧
      delivered t1 (mkTcpStream writes (wire ++ out)) = delivered t (mkTcpStream (Room n :: writes) wire))
      as (t1 & out & k & -> & Hch1 & He1 & Hd1).
    { destruct n as [|n].
      - rewrite write_tls_none. exists t, [], 0%nat. rewrite app_nil_r. by split_and!.
      - destruct (write_tls_room t (S n) Hp ltac:(lia)) as (k & t1 & Hk & Hl & -> & Hp1 & He & Hc).
        exists t1, (take k (pending t)), k. split; [done|].
        destruct (channel_intro t1 (mkTcpStream writes (wire ++ take k (pending t)))
          (delivered t (mkTcpStream writes wire))) as [? ?]; [|done].
        simpl. rewrite Hp1, <-app_assoc, take_drop. by apply Hc. }
    specialize (IH _ _ Hch1). destruct (write_ciphertext t1 writes _) as [[t' tcp] r].
    destruct IH as [H1 H0 H2 H3 H4 H5 H6 H7 H8 H9 _]. split; try done; try congruence.
    + by apply suffix_cons_r.
    + intros _ _. simpl. apply suffix_length in H3. lia.
    + intros Hr. right. by apply H7.
    + intros e Hr. destruct (H8 e Hr) as [? Hf]. split; [done|]. intros Hall. apply Hf. by inv Hall.
  - split; try done; try (exact Hsuf); intros; simpl; lia.
  - split; try done; try (exact Hsuf); try (intros; simpl; lia); [intros _; left|].
    intros e [= <-]. split; [done|]. intros Hall. by inv Hall.
  - split; try done; try (exact Hsuf); try (intros; simpl; lia).
    intros e [= <-]. split; [done|]. intros Hall. by inv Hall.
Qed.

Lemma writer_write_channel t tcp bytes :
  established t = true → channel t tcp →
  ∃ n t', writer_write t bytes = (t', Ok n) ∧ (n <= length bytes)%nat ∧
    established t' = true ∧ channel t' tcp ∧
    delivered t' tcp = delivered t tcp ++ take n bytes ∧ (n ≠ 0%nat → pending t' ≠ []) ∧
    (pending t = [] → n = Nat.min (length bytes) sendable_limit).
Proof.
  intros He Hc. destruct (writer_takes t bytes He) as (ct & t' & Hw & Hp & Hct & He' & Hc').
  set (n := Nat.min _ _) in *. exists n, t'. split; [done|]. split; [lia|].
  destruct (channel_intro t' tcp (delivered t tcp ++ take n bytes)) as [Hch Hd].
  { rewrite Hp, app_assoc. by apply Hc'. }
  split_and!; [done..| |].
  - intros Hn Hnil. rewrite Hp in Hnil. apply app_eq_nil in Hnil as [_ ->]. simpl in Hct. lia.
  - intros Hnil. subst n. rewrite Hnil. simpl. f_equal. lia.
Qed.

Definition sink_good s : Prop :=
  established (ts_tls s) = true ∧ channel (ts_tls s) (ts_tcp s) ∧
  Forall no_interrupt (tcp_writes (ts_tcp s)).
Definition sink_delivered s : list Z := delivered (ts_tls s) (ts_tcp s).

Lemma no_interrupt_suffix (l l' : list IoResult) :
  l' `suffix_of` l → Forall no_interrupt l → Forall no_interrupt l'.
Proof. intros [k ->] Hf. by apply Forall_app in Hf as [_ Hf]. Qed.

Lemma no_interrupt_in (l : list IoResult) : Forall no_interrupt l → IoInterrupted ∉ l.
Proof. rewrite Forall_forall. intros Hf Hin. by apply (Hf _ Hin). Qed.

(** One write of a batch: it is refused whole, or the session took [n] bytes of
    it. *)
Lemma tls_write_batch_spec bytes s :
  sink_good s →
  let '(s', r) := tls_write_batch bytes s in
  sink_good s' ∧
  match r with
  | Some (Ok n) => (n <= length bytes)%nat ∧ sink_delivered s' = sink_delivered s ++ take n bytes
  | Some (Err KWouldBlock) => sink_delivered s' = sink_delivered s
  | Some (Err KInterrupted) => False
  | _ => ∃ n, sink_delivered s' = sink_delivered s ++ take n bytes
  end.
Proof.
  intros (He & Hch & Hni). unfold tls_write_batch, sink_good, sink_delivered.
  destruct s as [t [writes wire] u]. simpl in *. pose proof (write_ciphertext_spec t writes wire Hch) as Hw.
  destruct (write_ciphertext t writes wire) as [[t1 tcp1] r1].
  destruct Hw as [Hch1 He1 Hd1 Hsuf1 Hall1 _ _ Hint1 Hf1 _ _].
  pose proof (no_interrupt_suffix _ _ Hsuf1 Hni) as Hni1.
  destruct r1 as [[]|e].
  - destruct (writer_write_channel t1 tcp1 bytes ltac:(congruence) Hch1)
      as (n & t2 & -> & Hn & He2 & Hch2 & Hd2 & _).
    destruct tcp1 as [writes1 wire1]. pose proof (write_ciphertext_spec t2 writes1 wire1 Hch2) as Hw.
    simpl. destruct (write_ciphertext t2 writes1 wire1) as [[t3 tcp3] r3].
    destruct Hw as [Hch3 He3 Hd3 Hsuf3 _ _ _ Hint3 Hf3 _ _]. simpl in *.
    pose proof (no_interrupt_suffix _ _ Hsuf3 Hni1) as Hni3.
    destruct r3 as [b|e]; simpl; (split; [by split_and!; [congruence|..]|]); rewrite Hd3, Hd2, Hd1; [done|].
    destruct (Hf3 e eq_refl) as [Hne _]. destruct e; [done|..|by exists n].
    by eapply no_interrupt_in, Hint3.
  - simpl. by split_and!; [congruence|..].
  - simpl. split; [by split_and!; [congruence|..]|]. destruct (Hf1 e eq_refl) as [Hne _].
    destruct e; [done|..|by exists 0%nat; rewrite app_nil_r].
    by eapply no_interrupt_in, Hint1.
Qed.

#[export] Instance TlsBatchSink_laws : SinkLaws (TlsBatchSink T) sink_good sink_delivered False.
Proof.
  split; [..|done|done]; intros bytes s s'.
  - intros n Hg Hw. pose proof (tls_write_batch_spec bytes s Hg) as Hs.
    unfold write_batch, TlsBatchSink_sink in Hw. rewrite Hw in Hs. by destruct Hs as (? & ? & ?).
  - intros k Hg Hw Hk. pose proof (tls_write_batch_spec bytes s Hg) as Hs.
    unfold write_batch, TlsBatchSink_sink in Hw. rewrite Hw in Hs. destruct Hs as [? Hs]. by destruct k.
  - intros r Hg Hw Hr. pose proof (tls_write_batch_spec bytes s Hg) as Hs.
    unfold write_batch, TlsBatchSink_sink in Hw. rewrite Hw in Hs. destruct Hs as [? Hs].
    by destruct Hr as [->| ->].
Qed.

(** ** The flush returns *)

(** The turns a flush can still take. *)
Definition turns_left s : nat :=
  match tcp_writes (ts_tcp s) with
  | [] => if bool_decide (pending (ts_tls s) = []) then 2 else 1
  | writes => length writes + 2
  end.

Lemma turns_left_le s : (turns_left s <= length (tcp_writes (ts_tcp s)) + 2)%nat.
Proof. unfold turns_left. destruct (tcp_writes _); [case_bool_decide|]; simpl; lia. Qed.

Lemma turns_left_pos s : (0 < turns_left s)%nat.
Proof. unfold turns_left. destruct (tcp_writes _); [case_bool_decide|]; simpl; lia. Qed.

(** Writing ciphertext that was pending takes an answer, if there is one. *)
Lemma ciphertext_turns t writes u t' tcp p r u' :
  ciphertext_post t writes t' tcp p r → pending t ≠ [] → writes ≠ [] →
  (turns_left (mkTlsBatchSink t' tcp u') < turns_left (mkTlsBatchSink t (mkTcpStream writes []) u))%nat.
Proof.
  intros Hpost Hp Hw. pose proof (cp_progress _ _ _ _ _ _ Hpost Hp Hw) as Hlt.
  pose proof (turns_left_le (mkTlsBatchSink t' tcp u')) as Hle. simpl in Hle.
  destruct writes; [done|]. unfold turns_left at 2. simpl in *. lia.
Qed.

Lemma tls_write_batch_progress bytes s :
  established (ts_tls s) = true → channel (ts_tls s) (ts_tcp s) →
  let '(s', r) := tls_write_batch bytes s in
  (established (ts_tls s') = true ∧ channel (ts_tls s') (ts_tcp s')) ∧ r ≠ None ∧
  (r = Some (Err KWouldBlock) → pending (ts_tls s') ≠ []) ∧
  ((∃ n, r = Some (Ok n) ∧ n ≠ 0%nat) ∨ r = Some (Err KInterrupted) →
   (turns_left s' < turns_left s)%nat).
Proof.
  intros He Hch. unfold tls_write_batch. destruct s as [t [writes wire] u]. simpl in *.
  pose proof (write_ciphertext_spec t writes wire Hch) as Hw1.
  destruct (write_ciphertext t writes wire) as [[t1 [writes1 wire1]] r1].
  pose proof (cp_channel _ _ _ _ _ _ Hw1) as Hch1. pose proof (cp_established _ _ _ _ _ _ Hw1) as He1.
  rewrite He in He1.
  assert (∀ u', r1 ≠ Ok true → writes ≠ [] → (turns_left (mkTlsBatchSink t1 (mkTcpStream writes1 wire1) u')
    < turns_left (mkTlsBatchSink t (mkTcpStream writes wire) u))%nat) as Hlt1.
  { intros u' Hr Hne. apply (ciphertext_turns t writes u _ _ _ _ u' Hw1); [|done].
    intros Hnil. by destruct (cp_idle _ _ _ _ _ _ Hw1 Hnil) as (_ & ? & _). }
  destruct r1 as [[]|e].
  - destruct (writer_write_channel t1 _ bytes He1 Hch1) as (n & t2 & -> & Hn & He2 & Hch2 & _ & Hne & _).
    simpl. pose proof (write_ciphertext_spec t2 writes1 wire1 Hch2) as Hw3.
    destruct (write_ciphertext t2 writes1 wire1) as [[t3 tcp3] r3].
    pose proof (cp_channel _ _ _ _ _ _ Hw3) as Hch3. pose proof (cp_established _ _ _ _ _ _ Hw3) as He3.
    rewrite He2 in He3.
    destruct (cp_suffix _ _ _ _ _ _ Hw1) as [k ->]. simpl in *.
    assert (∀ u', pending t2 ≠ [] → writes1 ≠ [] → (turns_left (mkTlsBatchSink t3 tcp3 u')
      < turns_left (mkTlsBatchSink t (mkTcpStream (k ++ writes1) wire) u))%nat) as Hlt3.
    { intros u' Hp Hne1. pose proof (ciphertext_turns t2 writes1 u _ _ _ _ u' Hw3 Hp Hne1) as Hlt.
      pose proof (turns_left_le (mkTlsBatchSink t2 (mkTcpStream writes1 []) u)) as Hle. simpl in Hle.
      unfold turns_left at 2. simpl. destruct (k ++ writes1) eqn:Hk.
      - by apply app_eq_nil in Hk as [_ ->].
      - apply (f_equal length) in Hk. rewrite length_app in Hk. simpl in *. lia. }
    destruct r3 as [b|e3]; simpl; (split; [done|split; [done|split]]); [done| | |].
    + intros [(m & [= <-] & Hm)|?]; [|done]. destruct writes1 as [|a1 writes1].
      * destruct (cp_stuck _ _ _ _ _ _ Hw3 (Hne Hm) eq_refl) as [-> _].
        pose proof (cp_suffix _ _ _ _ _ _ Hw3) as Hs3. apply suffix_nil_inv in Hs3.
        unfold turns_left. simpl. rewrite Hs3, app_nil_r. rewrite bool_decide_eq_false_2 by auto.
        destruct k as [|a k]; simpl; [|lia]. rewrite bool_decide_eq_true_2; [lia|].
        destruct (decide (pending t = [])) as [|Hp]; [done|].
        by destruct (cp_stuck _ _ _ _ _ _ Hw1 Hp eq_refl) as [_ ?].
      * apply Hlt3; [by apply Hne|done].
    + intros [= ->]. by destruct (cp_failed _ _ _ _ _ _ Hw3 _ eq_refl).
    + intros [(? & ? & ?)|[= ->]]; [done|]. apply Hlt3.
      * intros Hnil. by destruct (cp_idle _ _ _ _ _ _ Hw3 Hnil) as (_ & ? & _).
      * intros ->. by pose proof (cp_interrupted _ _ _ _ _ _ Hw3 eq_refl) as ?%elem_of_nil.
  - split; [done|split; [done|split]].
    + intros _. by apply (cp_blocked _ _ _ _ _ _ Hw1).
    + intros [(? & ? & ?)|?]; done.
  - split; [done|split; [done|split]].
    + intros [= ->]. by destruct (cp_failed _ _ _ _ _ _ Hw1 _ eq_refl).
    + intros [(? & ? & ?)|[= ->]]; [done|]. apply Hlt1; [done|].
      intros ->. by pose proof (cp_interrupted _ _ _ _ _ _ Hw1 eq_refl) as ?%elem_of_nil.
Qed.

Lemma tls_flush_returns fuel max now c s :
  established (ts_tls s) = true → channel (ts_tls s) (ts_tcp s) → (turns_left s <= fuel)%nat →
  let '(c', s', st) := flush_coalesced fuel max now c s in
  established (ts_tls s') = true ∧ channel (ts_tls s') (ts_tcp s') ∧ st ≠ None ∧
  (st = Some Drained → out c' = []) ∧
  (st = Some WouldBlock → pending (ts_tls s') ≠ []).
Proof.
  revert c s. induction fuel as [|fuel IH]; intros c s He Hch Hf.
  { pose proof (turns_left_pos s). lia. }
  cbn [flush_coalesced]. cbv zeta. set (c1 := codel_dequeue _ now c).
  destruct (out c1) as [|f rest] eqn:Ho; [done|].
  destruct (gather _ _ _ _ _ _ _) as [[batch b] c2].
  pose proof (tls_write_batch_progress (offered (out_cursor c1) batch) s He Hch) as Hw.
  change (write_batch (offered (out_cursor c1) batch) s) with (tls_write_batch (offered (out_cursor c1) batch) s).
  destruct (tls_write_batch _ s) as [s' [[n|[| |]]|]]; destruct Hw as ([He' Hch'] & Hne & Hb & Hlt).
  - destruct (Nat.eqb_spec n 0); [done|]. apply IH; [done..|].
    assert (turns_left s' < turns_left s)%nat by (apply Hlt; eauto). lia.
  - split_and!; [done..|]. intros _. by apply Hb.
  - apply IH; [done..|]. assert (turns_left s' < turns_left s)%nat by (apply Hlt; auto). lia.
  - done.
  - done.
Qed.

(** ** The flush of a connection *)


(** The frames sent and queued, seen from the peer. *)
Definition stream_tls (queued : list OutFrame) (c : TlsConnection T) : Prop :=
  ∃ sent, stream_ok queued (delivered (session c) (socket c)) sent (tc_conn c).

(** The books apart from what the session holds. *)
Definition untold (c : Connection) : Z * Z :=
  (inflight_delta c - out_bytes c - reassembly_bytes c - frame_buffer_bytes c,
   outbound_delta c - out_bytes c)%Z.

Lemma untold_flush {W} `{WriteSink W} fuel max now c (s : W) :
  same_books c (flush_coalesced fuel max now c s).1.1 →
  untold (flush_coalesced fuel max now c s).1.1 = untold c.
Proof.
  pose proof (buffers_coalesced fuel max now c s) as Hb.
  destruct (flush_coalesced _ _ _ _ _) as [[c' s'] st]. simpl in *.
  intros [Hi Ho _ _]. unfold untold, buffers, accounted_bytes, outbound_bytes in *.
  injection Hb as Hr Hf Ht. rewrite Hr, Hf, Ht in *. f_equal; lia.
Qed.

Lemma stream_ok_unflushed queued wire sent n c :
  stream_ok queued wire sent c → stream_ok queued wire sent (set_unflushed n c).
Proof. by apply stream_ok_same. Qed.

Record flush_tls_post (queued : list OutFrame) (c c' : TlsConnection T) (st : option WriteStatus)
    : Prop := {
  fp_established : established (session c') = true;
  fp_channel : channel (session c') (socket c');
  fp_unspliced : unspliced queued (delivered (session c') (socket c'));
  fp_status : st ≠ None;
  fp_stream : st ≠ Some WClosed → stream_tls queued c';
  fp_untold : untold (tc_conn c') = untold (tc_conn c);
  fp_drained : st = Some Drained → has_pending_writes c' = false;
  fp_blocked : st = Some WouldBlock → has_pending_writes c' = true
}.

Lemma drain_ciphertext_spec queued (c : TlsConnection T) :
  channel (session c) (socket c) → stream_tls queued c →
  let '(c', st) := drain_ciphertext c in
  established (session c') = established (session c) ∧
  channel (session c') (socket c') ∧ stream_tls queued c' ∧ untold (tc_conn c') = untold (tc_conn c) ∧
  out (tc_conn c') = out (tc_conn c) ∧
  tcp_writes (socket c') `suffix_of` tcp_writes (socket c) ∧
  match st with
  | None => pending (session c') = []
  | Some WouldBlock => pending (session c') ≠ []
  | Some WClosed => True
  | Some Drained => False
  end.
Proof.
  intros Hch [sent Hs]. unfold drain_ciphertext. destruct c as [conn [t reads [writes wire]]]. simpl in *.
  pose proof (write_ciphertext_spec t writes wire Hch) as Hw.
  destruct (write_ciphertext t writes wire) as [[t' tcp'] r].
  destruct Hw as [Hch' He' Hd Hsuf Hall Hbl _ _ _ _ _]. rewrite <-Hd in Hs.
  destruct r as [[]|e]; simpl; (split_and!; [done|done| |done|done|done|]); auto; try (by exists sent).
  exists sent. by apply stream_ok_unflushed.
Qed.

Lemma tls_wants_false (c : TlsConnection T) :
  out (tc_conn c) = [] → pending (session c) = [] → has_pending_writes c = false.
Proof.
  intros Ho Hp. unfold has_pending_writes, tls_wants_write. rewrite wants_pending, Ho, Hp.
  by rewrite bool_decide_eq_true_2, bool_decide_eq_false_2 by (done || by intros ?).
Qed.

Lemma tls_wants_true (c : TlsConnection T) :
  pending (session c) ≠ [] → has_pending_writes c = true.
Proof.
  intros Hp. unfold has_pending_writes, tls_wants_write. rewrite wants_pending.
  rewrite (bool_decide_eq_true_2 (pending _ ≠ [])) by done. apply orb_true_r.
Qed.

Lemma flush_tls_phases_spec queued now (c : TlsConnection T) :
  established (session c) = true → channel (session c) (socket c) → stream_tls queued c →
  Forall no_interrupt (tcp_writes (socket c)) →
  let '(c', st) := flush_tls_phases now c in flush_tls_post queued c c' st.
Proof.
  intros He Hch Hs Hni. unfold flush_tls_phases.
  pose proof (drain_ciphertext_spec queued c Hch Hs) as Hd.
  destruct (drain_ciphertext c) as [c1 [st1|]]; destruct Hd as (He1 & Hch1 & Hs1 & Hu1 & Ho1 & Hsuf1 & Hst1);
    rewrite He in He1.
  { destruct st1; [done|..]; (split; [done|done| |done| |done|done|]); try done.
    all: try (destruct Hs1 as [sent Hs1]; by eapply stream_unspliced).
    intros _. by apply tls_wants_true. }
  destruct c1 as [conn1 [t1 reads1 tcp1]]. cbn [tc_conn tc_io io_tls io_reads io_tcp] in *.
  cbv zeta. set (s1 := mkTlsBatchSink t1 tcp1 (tls_unflushed_bytes conn1)).
  assert (sink_good s1) as Hg1 by (split_and!; [done|done|]; by eapply no_interrupt_suffix).
  destruct Hs1 as [sent Hs1].
  pose proof (tls_flush_returns (S (S (length (tcp_writes tcp1)))) TLS_BATCH_MAX_BYTES now conn1 s1 He1 Hch1) as Hret.
  pose proof (flush_spec queued (S (S (length (tcp_writes tcp1)))) TLS_BATCH_MAX_BYTES now conn1 s1 sent Hg1 Hs1) as Hf.
  pose proof (untold_flush (S (S (length (tcp_writes tcp1)))) TLS_BATCH_MAX_BYTES now conn1 s1) as Hun.
  destruct (flush_coalesced _ _ _ _ s1) as [[conn2 s2] st2].
  destruct Hret as (He2 & Hch2 & Hne2 & Hdr2 & Hbl2).
  { pose proof (turns_left_le s1). simpl in *. lia. }
  destruct Hf as [Hst Hunsp Hb _]. simpl in Hun. specialize (Hun Hb).
  set (c2 := mkTlsConnection (set_unflushed (ts_unflushed s2) conn2) (mkTlsIo (ts_tls s2) reads1 (ts_tcp s2))).
  assert (st2 ≠ Some WClosed → stream_tls queued c2) as Hs2.
  { intros Hc. destruct Hst as [more Hm]; [destruct st2 as [[]|]; naive_solver|].
    exists (sent ++ more). by apply stream_ok_unflushed. }
  assert (untold (tc_conn c2) = untold (tc_conn c)) as Hu2 by (rewrite <-Hu1, <-Hun; done).
  cbv zeta. fold c2. destruct st2 as [[]|]; [| | |done].
  - pose proof (drain_ciphertext_spec queued c2 Hch2 (Hs2 ltac:(done))) as Hd3.
    destruct (drain_ciphertext c2) as [c3 st3]. destruct Hd3 as (He3 & Hch3 & Hs3 & Hu3 & Ho3 & _ & Hst3).
    split; [by rewrite He3|done| |by destruct st3|done|by rewrite Hu3| |].
    + destruct Hs3 as [? Hs3]. by eapply stream_unspliced.
    + destruct st3 as [[]|]; try done. intros _. apply tls_wants_false; [|done].
      rewrite Ho3. by apply Hdr2.
    + destruct st3 as [[]|]; try done. intros _. by apply tls_wants_true.
  - split; try done. intros _. apply tls_wants_true. by apply Hbl2.
  - by split.
Qed.

(** What the worker took, less what it is owed an account of. *)
Definition booked (c : Connection) : Z * Z :=
  (inflight_delta c - accounted_bytes c, outbound_delta c - outbound_bytes c)%Z.

Lemma flush_tls_spec queued now (c : TlsConnection T) :
  established (session c) = true → channel (session c) (socket c) → stream_tls queued c →
  Forall no_interrupt (tcp_writes (socket c)) →
  let '(c', st) := flush_tls now c in
  established (session c') = true ∧ channel (session c') (socket c') ∧ unspliced queued (delivered (session c') (socket c')) ∧
  st ≠ None ∧ (st ≠ Some WClosed → stream_tls queued c') ∧
  booked (tc_conn c') = booked (tc_conn c) ∧
  (st = Some Drained → has_pending_writes c' = false) ∧
  (st = Some WouldBlock → has_pending_writes c' = true).
Proof.
  intros He Hch Hs Hni. unfold flush_tls. pose proof (flush_tls_phases_spec queued now c He Hch Hs Hni) as Hf.
  destruct (flush_tls_phases now c) as [c' st]. destruct Hf as [He' Hch' Hun Hst Hstr Hb Hdr Hbl].
  split; [done|]. split; [done|]. split_and!; [done|done| | |done|done].
  - intros Hc. destruct (Hstr Hc) as [sent Hs']. exists sent. by apply (stream_ok_same _ _ _ (tc_conn c')).
  - unfold untold, booked, accounted_bytes, outbound_bytes in *. simpl. injection Hb as Hi Ho.
    f_equal; lia.
Qed.

(** ** Reading and closing leave what was sent alone *)

(** The session moved on without taking plaintext. *)
Definition quiet t t' tcp : Prop :=
  channel t tcp → channel t' tcp ∧ delivered t' tcp = delivered t tcp.

Lemma quiet_more t t' tcp ct :
  pending t' = pending t ++ ct →
  (∀ sent p, carried t sent p → carried t' (sent ++ ct) p) → quiet t t' tcp.
Proof. intros Hp Hc Hcar. apply channel_intro. rewrite Hp, app_assoc. by apply Hc. Qed.

Lemma quiet_same t t' tcp :
  pending t' = pending t →
  (∀ sent p, carried t sent p → carried t' sent p) → quiet t t' tcp.
Proof.
  intros Hp Hc. apply (quiet_more _ _ _ []); rewrite ?app_nil_r; [done|].
  intros sent p. rewrite app_nil_r. apply Hc.
Qed.

#[local] Instance quiet_refl tcp : Reflexive (λ t t', quiet t t' tcp).
Proof. by intros t. Qed.

Lemma quiet_trans t1 t2 t3 tcp : quiet t1 t2 tcp → quiet t2 t3 tcp → quiet t1 t3 tcp.
Proof. intros H1 H2 Hc. destruct (H1 Hc) as [Hc2 <-]. by apply H2. Qed.

Lemma ingest_quiet fuel t reads tcp :
  let '(t', _, g) := ingest fuel t reads in
  quiet t t' tcp ∧ (g ≠ Some IngestFailed → established t = true → established t' = true).
Proof.
  revert t reads. induction fuel as [|fuel IH]; intros t reads; simpl; [done|].
  destruct (read_tls t _) as [[t1 rest] r] eqn:Hr.
  destruct (read_tls_writes _ _ _ _ _ Hr) as (Hp & He & Hc).
  pose proof (quiet_same t t1 tcp Hp Hc) as Hq. set (reads1 := match reads with [] => _ | _ :: _ => _ end).
  destruct r as [[|k]|[| |]]; try (split; [done|congruence]).
  - destruct (process_new_packets t1) as [t2 ok] eqn:Hpr.
    destruct (process_writes _ _ _ Hpr) as (ct & Hp2 & He2 & Hc2).
    pose proof (quiet_more t1 t2 tcp ct Hp2 Hc2) as Hq2. pose proof (quiet_trans _ _ _ _ Hq Hq2) as Hq12.
    destruct ok; [|by split]. specialize (IH t2 reads1).
    destruct (ingest fuel t2 reads1) as [[t3 reads3] g]. destruct IH as [IHq IHe].
    split; [by eapply quiet_trans|]. intros Hg Ht. apply IHe, He2; [done..|]. congruence.
  - specialize (IH t1 reads1). destruct (ingest fuel t1 reads1) as [[t3 reads3] g]. destruct IH as [IHq IHe].
    split; [by eapply quiet_trans|]. intros Hg Ht. apply IHe; [done|]. congruence.
Qed.

Lemma take_plaintext_quiet fuel t buf tcp :
  let '(t', _, _) := take_plaintext fuel t buf in
  quiet t t' tcp ∧ established t' = established t.
Proof.
  revert t buf. induction fuel as [|fuel IH]; intros t buf; cbn [take_plaintext]; [done|].
  destruct (reader_read t _) as [t1 r] eqn:Hr.
  destruct (reader_writes _ _ _ _ Hr) as (Hp & He & Hc).
  pose proof (quiet_same t t1 tcp Hp Hc) as Hq.
  destruct r as [[|b bytes]|[| |]]; try done.
  - specialize (IH t1 (buf ++ b :: bytes)). destruct (take_plaintext fuel _ _) as [[t2 buf2] r].
    destruct IH. split; [by eapply quiet_trans|congruence].
  - specialize (IH t1 buf). destruct (take_plaintext fuel _ _) as [[t2 buf2] r].
    destruct IH. split; [by eapply quiet_trans|congruence].
Qed.

Lemma fill_tls_quiet (io : TlsIo T) scratch :
  channel (io_tls io) (io_tcp io) →
  let '(io', _, r) := fill_tls io scratch in
  channel (io_tls io') (io_tcp io') ∧
  delivered (io_tls io') (io_tcp io') = delivered (io_tls io) (io_tcp io) ∧
  (established (io_tls io) = true → (∃ eof, r = Some (Ok eof)) → established (io_tls io') = true).
Proof.
  intros Hch. unfold fill_tls. destruct io as [t reads [writes wire]]. cbn [io_tls io_reads io_tcp tcp_writes tcp_wire] in *.
  pose proof (ingest_quiet (S (read_size reads)) t reads (mkTcpStream writes wire)) as Hq.
  destruct (ingest _ t reads) as [[t1 reads1] g]. destruct Hq as [Hq Hi]. destruct (Hq Hch) as [Hch1 Hd1].
  pose proof (write_ciphertext_spec t1 writes wire Hch1) as Hw.
  destruct (write_ciphertext t1 writes wire) as [[t2 tcp2] r2].
  destruct Hw as [Hch2 He2 Hd2 _ _ _ _ _ _ _ _].
  pose proof (take_plaintext_quiet (S (plaintext_bytes_to_read t2)) t2 scratch tcp2) as Hq3.
  destruct (take_plaintext _ t2 scratch) as [[t3 buf3] r3]. destruct Hq3 as [Hq3 He3].
  destruct (Hq3 Hch2) as [Hch3 Hd3].
  destruct g as [[]|]; try destruct r2; cbn; split_and!; try done; try congruence.
  all: intros He Hr; try (by destruct Hr); rewrite He3, He2; by apply Hi.
Qed.

Lemma close_notify_quiet (c : TlsConnection T) :
  channel (session c) (socket c) →
  channel (session (close_notify c)) (socket (close_notify c)) ∧
  delivered (session (close_notify c)) (socket (close_notify c)) = delivered (session c) (socket c) ∧
  tc_conn (close_notify c) = tc_conn c.
Proof.
  intros Hch. unfold close_notify. destruct c as [conn [t reads [writes wire]]].
  cbn [tc_conn tc_io io_tls io_reads io_tcp tcp_writes tcp_wire] in *.
  destruct (notify_writes t) as (ct & Hp & Hc).
  assert (quiet t (send_close_notify t) (mkTcpStream writes wire)) as Hq by by eapply quiet_more.
  destruct (Hq Hch) as [Hch1 Hd1]. pose proof (write_ciphertext_spec _ writes wire Hch1) as Hw.
  destruct (write_ciphertext _ writes wire) as [[t2 tcp2] r2].
  destruct Hw as [Hch2 _ Hd2 _ _ _ _ _ _ _ _]. cbn. split_and!; [done|congruence|done].
Qed.

(** ** A write interrupted after encryption *)

(** A socket that takes one byte at a time empties the session. *)
Lemma drain_ones t :
  ∃ t', pending t' = [] ∧ established t' = established t ∧
    (∀ sent p, carried t sent p → carried t' sent p) ∧
    ∀ rest wire, write_ciphertext t (replicate (length (pending t)) (Room 1) ++ rest) wire =
      (t', mkTcpStream rest (wire ++ pending t), Ok true).
Proof.
  remember (length (pending t)) as n eqn:Hn. revert t Hn. induction n as [|n IH]; intros t Hn.
  - symmetry in Hn. apply length_zero_iff_nil in Hn. exists t. split_and!; [done..|].
    intros rest wire. simpl. destruct rest; cbn [write_ciphertext]; rewrite wants_pending, Hn, app_nil_r;
      by rewrite bool_decide_eq_false_2 by (by intros ?).
  - assert (pending t ≠ []) as Hp by (by intros Hnil; rewrite Hnil in Hn).
    destruct (write_tls_room t 1 Hp ltac:(lia)) as (k & t1 & Hk & _ & Hw & Hp1 & He1 & Hc1).
    assert (k = 1%nat) as -> by lia.
    destruct (IH t1) as (t' & Hp' & He' & Hc' & Hall); [rewrite Hp1, length_drop; lia|].
    exists t'. split_and!; [done|congruence|auto|]. intros rest wire. simpl.
    rewrite wants_pending, bool_decide_eq_true_2 by done. simpl. rewrite Hw, Hall, Hp1.
    by rewrite <-app_assoc, take_drop.
Qed.

Lemma write_ciphertext_idle t writes wire :
  pending t = [] → write_ciphertext t writes wire = (t, mkTcpStream writes wire, Ok true).
Proof.
  intros Hp. destruct writes; simpl; rewrite wants_pending, Hp;
    by rewrite bool_decide_eq_false_2 by (by intros ?).
Qed.

(** The session takes a whole batch, and the socket's write is interrupted. *)
Lemma batch_interrupted t bytes wire :
  established t = true → channel t (mkTcpStream [] wire) → pending t = [] → bytes ≠ [] →
  (length bytes <= sendable_limit)%nat →
  ∃ t', established t' = true ∧ channel t' (mkTcpStream [] wire) ∧
    delivered t' (mkTcpStream [] wire) = delivered t (mkTcpStream [] wire) ++ bytes ∧
    ∀ rest u, tls_write_batch bytes (mkTlsBatchSink t (mkTcpStream (IoInterrupted :: rest) wire) u) =
      (mkTlsBatchSink t' (mkTcpStream rest wire) (Z.of_nat (length bytes)), Some (Err KInterrupted)).
Proof.
  intros He Hch Hp Hb Hl.
  destruct (writer_write_channel t _ bytes He Hch) as (n & t' & Hw & _ & He' & Hch' & Hd & Hne & Hn).
  rewrite Hn in * by done. rewrite Nat.min_l, firstn_all in * by done. exists t'. split_and!; [done..|].
  intros rest u. unfold tls_write_batch. cbn [ts_tls ts_tcp tcp_writes tcp_wire].
  rewrite write_ciphertext_idle by done. rewrite Hw. cbn [tcp_writes tcp_wire write_ciphertext].
  rewrite wants_pending, bool_decide_eq_true_2; [|apply Hne; by destruct bytes]. simpl.
  destruct (write_tls_error t') as (_ & -> & _). by rewrite app_nil_r.
Qed.

(** The session takes a whole batch, and the socket all its ciphertext. *)
Lemma batch_whole t bytes wire :
  established t = true → channel t (mkTcpStream [] wire) → (length bytes <= sendable_limit)%nat →
  ∃ m t' wire', pending t' = [] ∧ channel t' (mkTcpStream [] wire') ∧
    delivered t' (mkTcpStream [] wire') = delivered t (mkTcpStream [] wire) ++ bytes ∧
    ∀ rest u, tls_write_batch bytes (mkTlsBatchSink t (mkTcpStream (replicate m (Room 1) ++ rest) wire) u) =
      (mkTlsBatchSink t' (mkTcpStream rest wire') 0, Some (Ok (length bytes))).
Proof.
  intros He Hch Hl. destruct (drain_ones t) as (t1 & Hp1 & He1 & Hc1 & Hw1).
  assert (channel t1 (mkTcpStream [] (wire ++ pending t)) ∧
    delivered t1 (mkTcpStream [] (wire ++ pending t)) = delivered t (mkTcpStream [] wire)) as [Hch1 Hd1].
  { apply channel_intro. simpl. rewrite Hp1, app_nil_r. by apply Hc1. }
  destruct (writer_write_channel t1 _ bytes ltac:(congruence) Hch1) as (n & t2 & Hw2 & _ & He2 & Hch2 & Hd2 & _ & Hn).
  rewrite Hn in * by done. rewrite Nat.min_l, firstn_all in * by done.
  destruct (drain_ones t2) as (t3 & Hp3 & He3 & Hc3 & Hw3).
  assert (channel t3 (mkTcpStream [] ((wire ++ pending t) ++ pending t2)) ∧
    delivered t3 (mkTcpStream [] ((wire ++ pending t) ++ pending t2)) =
    delivered t2 (mkTcpStream [] (wire ++ pending t))) as [Hch3 Hd3].
  { apply channel_intro. simpl. rewrite Hp3, app_nil_r. by apply Hc3. }
  exists (length (pending t) + length (pending t2))%nat, t3, ((wire ++ pending t) ++ pending t2).
  split_and!; [done..|congruence|]. intros rest u. unfold tls_write_batch. cbn [ts_tls ts_tcp tcp_writes tcp_wire].
  rewrite replicate_add, <-app_assoc, Hw1, Hw2. cbn [tcp_writes tcp_wire]. by rewrite Hw3.
Qed.

Lemma codel_disabled fl now c : target_ns (codel c) = 0%Z → codel_dequeue fl now c = c.
Proof. intros Hc. unfold codel_dequeue, enabled. by rewrite Hc. Qed.

Lemma gather_single cursor max now c x :
  out c = [x] → target_ns (codel c) = 0%Z →
  ∃ b, gather 1 cursor max now [] 0 c = ([x], b, set_out [] c).
Proof.
  intros Ho Hc. eexists. cbn [gather]. rewrite Ho. rewrite bool_decide_eq_true_2 by done. cbn [negb andb app].
  by rewrite codel_disabled.
Qed.

Lemma restore_single c x : out c = [x] → restore_batch [x] (set_out [] c) = c.
Proof. destruct c. simpl. by intros ->. Qed.

(** A turn of the flush on a queue of one frame. *)
Lemma flush_single `{WriteSink W} fuel max now c (s : W) f ts :
  out c = [(f, ts)] → out_cursor c = 0%nat → target_ns (codel c) = 0%Z →
  flush_coalesced (S fuel) max now c s =
  match write_batch f s with
  | (s, None) => (c, s, None)
  | (s, Some (Ok n)) =>
      if (n =? 0)%nat then (c, s, Some WClosed)
      else flush_coalesced fuel max now (apply_write [(f, ts)] 0 n (set_out [] c)) s
  | (s, Some (Err KWouldBlock)) => (c, s, Some WouldBlock)
  | (s, Some (Err KInterrupted)) => flush_coalesced fuel max now c s
  | (s, Some (Err KOther)) => (c, s, Some WClosed)
  end.
Proof.
  intros Ho Hcur Hcodel. cbn [flush_coalesced]. cbv zeta.
  rewrite codel_disabled, Ho, Hcur by done. cbn [length].
  destruct (gather_single 0 max now c (f, ts) Ho Hcodel) as [b ->].
  cbn [offered bytes_of fst]. rewrite drop_0, app_nil_r.
  by rewrite (restore_single c (f, ts)).
Qed.

Lemma apply_write_single f ts c :
  out (apply_write [(f, ts)] 0 (length f) (set_out [] c)) = [].
Proof. unfold apply_write. cbn [complete]. rewrite Nat.sub_0_r, Nat.ltb_irrefl. done. Qed.

Lemma flush_empty `{WriteSink W} fuel max now c (s : W) :
  out c = [] → ∃ c', flush_coalesced (S fuel) max now c s = (c', s, Some Drained) ∧ out c' = [].
Proof.
  intros Ho. cbn [flush_coalesced]. cbv zeta. set (c1 := codel_dequeue _ now c).
  assert (out c1 = []) as Ho1.
  { destruct (codel_dequeue_spec (0 <? out_cursor c)%nat now c) as (d & [Hd _ _ _ _ _ _ _ _] & _).
    rewrite Ho in Hd. by symmetry in Hd; apply app_eq_nil in Hd as [_ ?]. }
  exists c1. by rewrite Ho1.
Qed.

(** A write of ciphertext that is interrupted after the session has taken
    the batch makes the flush hand the same frame to the session again: the flush
    drains the queue, and the peer receives the frame twice. *)
Theorem tls_interrupt_duplicates (t : T) (wire p : list Z) (f : list Z) (conn : Connection)
    (ts now : Z) :
  established t = true → pending t = [] → carried t wire p → f ≠ [] →
  (length f <= sendable_limit)%nat → out conn = [(f, ts)] → out_cursor conn = 0%nat →
  target_ns (codel conn) = 0%Z →
  ∃ m, let c := mkTlsConnection conn
         (mkTlsIo t [] (mkTcpStream (IoInterrupted :: replicate m (Room 1)) wire)) in
    let '(c', st) := flush_tls now c in
    st = Some Drained ∧ out (tc_conn c') = [] ∧ pending (session c') = [] ∧
    peer_reads (tcp_wire (socket c')) = p ++ f ++ f.
Proof.
  intros He Hp Hc Hf Hl Ho Hcur Hcodel.
  destruct (channel_intro t (mkTcpStream [] wire) p) as [Hch Hd]; [simpl; by rewrite Hp, app_nil_r|].
  destruct (batch_interrupted t f wire He Hch Hp Hf Hl) as (t1 & He1 & Hch1 & Hd1 & Hw1).
  destruct (batch_whole t1 f wire He1 Hch1 Hl) as (m & t2 & wire2 & Hp2 & Hch2 & Hd2 & Hw2).
  exists m. cbv zeta. unfold flush_tls, flush_tls_phases, drain_ciphertext at 1.
  cbn [tc_conn tc_io io_tls io_tcp io_reads tcp_writes tcp_wire].
  rewrite write_ciphertext_idle by done. cbn [tc_conn tc_io io_tls io_tcp io_reads tcp_writes tcp_wire length].
  rewrite (flush_single _ _ _ _ _ f ts) by done.
  change (write_batch f ?s) with (tls_write_batch f s). rewrite Hw1.
  rewrite (flush_single _ _ _ _ _ f ts) by done.
  change (write_batch f ?s) with (tls_write_batch f s).
  specialize (Hw2 []). rewrite app_nil_r in Hw2. rewrite Hw2.
  destruct (Nat.eqb_spec (length f) 0) as [Hz|_]; [by apply length_zero_iff_nil in Hz|].
  destruct (flush_empty (length (replicate m (Room 1))) TLS_BATCH_MAX_BYTES now
    (apply_write [(f, ts)] 0 (length f) (set_out [] (set_unflushed 0 conn)))
    (mkTlsBatchSink t2 (mkTcpStream [] wire2) 0)) as (c3 & -> & Ho3); [apply apply_write_single|].
  unfold drain_ciphertext. cbn [tc_conn tc_io io_tls io_tcp io_reads tcp_writes tcp_wire ts_tls ts_tcp].
  rewrite write_ciphertext_idle by done. cbn. split_and!; [done..|].
  unfold delivered in Hd2. cbn in Hd2. rewrite Hp2, app_nil_r in Hd2.
  rewrite Hd2. change (peer_reads _) with (delivered t1 (mkTcpStream [] wire)) at 1.
  rewrite Hd1, Hd. by rewrite app_assoc.
Qed.

End writing.

(** ** Reading *)

Section reading.
Context {T : Type} `{!Rustls T, !RustlsReads T, !RustlsWrites T, !RustlsDuplex T}.
Implicit Types (t : T).

(** The ciphertext a script delivers before it blocks, when the socket neither
    ends nor fails before that. *)
Fixpoint available (reads : list ReadResult) : option (list Z) :=
  match reads with
  | [] | ReadWouldBlock :: _ => Some []
  | ReadOk [] :: _ | ReadError :: _ => None
  | ReadOk bytes :: reads => (bytes ++.) <$> available reads
  | ReadInterrupted :: reads => available reads
  end.

(** A session that has decrypted all it took. *)
Definition settled t : Prop := processed t = true ∧ yields t [] = Some (received t).

Lemma available_cons bytes reads :
  bytes ≠ [] → available (ReadOk bytes :: reads) = (bytes ++.) <$> available reads.
Proof. by destruct bytes. Qed.

Lemma available_unread k bytes reads cs :
  available reads = Some cs → available (unread k bytes ++ reads) = Some (drop k bytes ++ cs).
Proof.
  intros Ha. unfold unread. destruct (drop k bytes) as [|b rest]; [done|].
  simpl. by rewrite Ha.
Qed.

Lemma read_size_unread k bytes reads :
  (0 < k)%nat →
  (read_size (unread k bytes ++ reads) < S (length bytes) + read_size reads)%nat.
Proof.
  intros Hk. unfold unread, read_size. rewrite foldr_app. simpl.
  pose proof (length_drop bytes k) as Hd. destruct (drop k bytes) as [|b rest]; simpl in *; lia.
Qed.

(** What the session ends with when it may read: all of the plaintext, or a
    refusal once it holds too much. *)
Definition ingest_post t t' (cs p : list Z) (g : option Ingested) : Prop :=
  ((length p <= plaintext_limit)%nat →
   received t' = p ∧ settled t' ∧ ended t' = ended t ∧
   (∀ more, yields t' more = yields t (cs ++ more)) ∧
   g = Some (if notified t' then IngestEnd else IngestBlocked)) ∧
  ((plaintext_limit < length p)%nat → g = Some IngestFailed).

Lemma ingest_post_stop t cs p :
  settled t → yields t cs = Some p → cs = [] ∨ notified t = true → (length p <= plaintext_limit)%nat →
  ingest_post t t cs p (Some (if notified t then IngestEnd else IngestBlocked)).
Proof.
  intros [Hpr Hy] Hp Hcs Hl. split; [intros _|lia].
  assert (∀ more, yields t more = yields t (cs ++ more)) as Hm.
  { intros more. destruct Hcs as [-> |Hn]; [done|]. by rewrite !(notified_stops t _ Hn). }
  split_and!; try done. specialize (Hm []). rewrite app_nil_r in Hm. congruence.
Qed.

Lemma ingest_spec fuel t reads cs p :
  settled t → available reads = Some cs → yields t cs = Some p → (read_size reads < fuel)%nat →
  let '(t', _, g) := ingest fuel t reads in ingest_post t t' cs p g.
Proof.
  revert t reads cs. induction fuel as [|fuel IH]; intros t reads cs Hset Hav Hy Hfuel; [lia|].
  cbn [ingest]. pose proof (yields_extends _ _ _ Hy) as Hpre. apply prefix_length in Hpre.
  destruct (decide (plaintext_limit < length (received t))%nat) as [Hfull|Hroom].
  { rewrite read_tls_full by done. split; [lia|done]. }
  destruct (notified t) eqn:Hnot.
  { rewrite read_tls_notified by (done || lia). pose proof (notified_stops t cs Hnot) as Hstop.
    assert (p = received t) as -> by congruence.
    pose proof (ingest_post_stop t cs (received t) Hset Hy (or_intror Hnot) ltac:(lia)) as Hpost. by rewrite Hnot in Hpost. }
  destruct (read_tls_error t ltac:(lia) Hnot) as (Hwb & Hint & _).
  assert (cs = [] → ingest_post t t cs p (Some IngestBlocked)) as Hblock.
  { intros ->. pose proof Hset as [_ Hy0]. assert (p = received t) as -> by congruence.
    pose proof (ingest_post_stop t [] (received t) Hset Hy0 (or_introl eq_refl) ltac:(lia)) as Hpost. by rewrite Hnot in Hpost. }
  destruct reads as [|[bytes| | |] reads]; cbn [head default from_option id].
  - rewrite Hwb. apply Hblock. by injection Hav.
  - destruct bytes as [|b0 bs]; [done|]. remember (b0 :: bs) as bytes eqn:Hb.
    assert (bytes ≠ []) as Hne by by subst. rewrite available_cons in Hav by done.
    destruct (available reads) as [cs'|] eqn:Hav'; [|done]. simplify_eq/=.
    destruct (read_tls_data t (b0 :: bs) ltac:(lia) Hnot (proj1 Hset) Hne)
      as (k & t1 & Hk & -> & Hr1 & Hn1 & He1 & Hy1).
    destruct k as [|k]; [lia|]. destruct (process_new_packets t1) as [t2 ok] eqn:Hpr.
    destruct ok.
    + destruct (process_ok _ _ Hpr) as (Hy2 & Hpr2 & He2 & Hyall).
      assert (settled t2) as Hset2 by (split; [done|]; by rewrite Hyall).
      pose proof (read_size_unread (S k) (b0 :: bs) reads ltac:(lia)) as Hsz.
      specialize (IH t2 (unread (S k) (b0 :: bs) ++ reads) (drop (S k) (b0 :: bs) ++ cs') Hset2
        (available_unread _ _ _ _ Hav')). rewrite Hyall, Hy1 in IH.
      specialize (IH Hy ltac:(simpl in *; lia)). destruct (ingest fuel t2 _) as [[t3 reads3] g].
      destruct IH as [IH1 IH2]. split; [|done]. intros Hl. destruct (IH1 Hl) as (? & ? & ? & Hm & ?).
      split_and!; [done..|congruence| |done]. intros more. rewrite Hm, Hyall, <-app_assoc, Hy1. simpl. by rewrite app_assoc.
    + pose proof (process_failed _ _ (drop (S k) (b0 :: bs) ++ cs') Hpr) as Hfail. rewrite Hy1 in Hfail.
      simpl in *. congruence.
  - rewrite Hwb. apply Hblock. by injection Hav.
  - rewrite Hint. apply (IH t reads cs); [done..|]. simpl in Hfuel. lia.
  - done.
Qed.

Lemma take_plaintext_spec fuel t buf :
  (length (received t) < fuel)%nat →
  ∃ t', take_plaintext fuel t buf = (t', buf ++ received t, Some (notified t || negb (ended t))) ∧
    received t' = [] ∧ notified t' = notified t ∧ ended t' = ended t ∧ processed t' = processed t ∧
    ∀ cs, yields t' cs = drop (length (received t)) <$> yields t cs.
Proof.
  revert t buf. induction fuel as [|fuel IH]; intros t buf Hf; [lia|]. cbn [take_plaintext].
  destruct (decide (received t = [])) as [Hnil|Hne].
  - rewrite reader_empty by done. exists t. rewrite Hnil, app_nil_r. split.
    + by destruct (notified t), (ended t).
    + split_and!; try done. intros cs. simpl. by destruct (yields t cs).
  - destruct (reader_data t (16 * 1024) (Nat.lt_0_succ _) Hne)
      as (k & t1 & Hk & Hkl & -> & Hr1 & Hn1 & He1 & Hp1 & Hy1).
    destruct (IH t1 (buf ++ take k (received t))) as (t' & Ht & Hr' & Hn' & He' & Hp' & Hy').
    { rewrite Hr1, length_drop. lia. }
    destruct (take k (received t)) as [|b bs] eqn:Htake.
    { apply (f_equal length) in Htake. rewrite length_take in Htake. simpl in Htake. lia. }
    exists t'. rewrite Ht, Hr1, <-app_assoc, <-Htake, take_drop, Hn1, He1. split_and!; try congruence.
    intros cs. rewrite Hy', Hy1, Hr1. destruct (yields t cs) as [q|]; [|done]. simpl.
    rewrite drop_drop, length_drop. do 2 f_equal. lia.
Qed.

(** What reading sees of a session. *)
Definition same_reads t t' : Prop :=
  received t' = received t ∧ notified t' = notified t ∧ ended t' = ended t ∧
  processed t' = processed t ∧ ∀ cs, yields t' cs = yields t cs.

Lemma write_ciphertext_calm t writes wire :
  Forall calm_write writes →
  ∃ t' tcp b, write_ciphertext t writes wire = (t', tcp, Ok b) ∧ same_reads t t'.
Proof.
  intros Hw. revert t wire. induction Hw as [|a writes Ha _ IH]; intros t wire; cbn [write_ciphertext];
    rewrite wants_pending; (destruct (decide (pending t = [])) as [Hp|Hp];
      [rewrite bool_decide_eq_false_2 by (by intros ?); by eexists _, _, _|];
     rewrite bool_decide_eq_true_2 by done; simpl).
  { by eexists _, _, _. }
  destruct (write_tls t a) as [[t1 out] r] eqn:Hr. pose proof (write_tls_reads _ _ _ _ _ Hr) as (? & ? & ? & ? & Hy).
  assert ((∃ k, r = Ok k) ∨ r = Err KWouldBlock) as Hcase.
  { destruct (write_tls_error t) as (Hwb & _ & _). destruct a as [[|n]| | |]; [| | |by destruct Ha..].
    - rewrite write_tls_none in Hr. simplify_eq. left. by eexists.
    - destruct (write_tls_room t (S n) Hp ltac:(lia)) as (k & ? & _ & _ & Hw & _). rewrite Hw in Hr.
      simplify_eq. left. by eexists.
    - rewrite Hwb in Hr. simplify_eq. by right. }
  destruct Hcase as [[k ->]| ->].
  - destruct (IH t1 (wire ++ out)) as (t' & tcp & b & -> & ? & ? & ? & ? & Hy').
    eexists _, _, _. split; [done|]. split_and!; try congruence.
  - eexists _, _, _. split; [done|]. by split_and!.
Qed.

(** The session after a read: everything was handed out. *)
Record read_out t (cs p : list Z) t' : Prop := {
  ro_settled : settled t';
  ro_received : received t' = [];
  ro_ended : ended t' = ended t;
  ro_yields : ∀ more, yields t' more = drop (length p) <$> yields t (cs ++ more)
}.

(** All the steps of a read that takes plaintext. *)
Lemma read_steps t reads cs p writes wire buf :
  settled t → ended t = false → available reads = Some cs → yields t cs = Some p →
  (length p <= plaintext_limit)%nat → Forall calm_write writes →
  ∃ t1 reads1 t2 tcp b t3,
    ingest (S (read_size reads)) t reads =
      (t1, reads1, Some (if notified t1 then IngestEnd else IngestBlocked)) ∧
    write_ciphertext t1 writes wire = (t2, tcp, Ok b) ∧
    take_plaintext (S (plaintext_bytes_to_read t2)) t2 buf = (t3, buf ++ p, Some true) ∧
    notified t3 = notified t1 ∧ read_out t cs p t3.
Proof.
  intros Hset He Hav Hy Hl Hw. pose proof (ingest_spec (S (read_size reads)) t reads cs p Hset Hav Hy ltac:(lia)) as Hi.
  destruct (ingest _ t reads) as [[t1 reads1] g]. destruct Hi as [Hi _].
  destruct (Hi Hl) as (Hr1 & [Hp1 Hy1] & He1 & Hm & ->).
  destruct (write_ciphertext_calm t1 writes wire Hw) as (t2 & tcp & b & Hwc & Hr2 & Hn2 & He2 & Hp2 & Hy2).
  destruct (take_plaintext_spec (S (plaintext_bytes_to_read t2)) t2 buf)
    as (t3 & Ht & Hr3 & Hn3 & He3 & Hp3 & Hy3); [rewrite plaintext_counted; lia|].
  exists t1, reads1, t2, tcp, b, t3. rewrite Ht, Hr2, Hr1, He2, He1, He, orb_true_r.
  split_and!; [done..|congruence|]. split; [split; [congruence|]|done|congruence|].
  - rewrite Hy3, Hy2, Hy1, Hr2, Hr1, Hr3. simpl. by rewrite drop_all.
  - intros more. by rewrite Hy3, Hy2, Hm, Hr2, Hr1.
Qed.

(** A TLS connection whose session is fed what the socket delivers before it
    blocks reads all of the plaintext, as a plain connection would, if that is
    within the session's limit. Beyond the limit nothing is read: frames and the
    request head are lost and the connection is closed, since the session is
    only emptied after the socket has blocked. *)
Theorem tls_read_takes_or_closes (io : TlsIo T) (scratch : list Z) (max : Z) (cs p : list Z) :
  settled (io_tls io) → ended (io_tls io) = false →
  available (io_reads io) = Some cs → yields (io_tls io) cs = Some p →
  Forall calm_write (tcp_writes (io_tcp io)) →
  ((length p <= plaintext_limit)%nat →
   ∃ io' io'' st, read_out (io_tls io) cs p (io_tls io') ∧
     read_frames_tls io scratch max =
       (let '(rest, r) := frames_available (scratch ++ p) (notified (io_tls io')) max in
        (io', rest, Some r)) ∧
     (notified (io_tls io') = false →
      drain_head_bytes_tls io scratch = (io'', scratch ++ p, Some st) ∧ st ≠ DrainClosed)) ∧
  ((plaintext_limit < length p)%nat →
   ∃ io', read_frames_tls io scratch max = (io', scratch, Some (Err ConnClosed)) ∧
     drain_head_bytes_tls io scratch = (io', scratch, Some DrainClosed)).
Proof.
  intros Hset He Hav Hy Hw. destruct io as [t reads [writes wire]].
  cbn [io_tls io_reads io_tcp tcp_writes tcp_wire] in *. split.
  - intros Hl. destruct (read_steps t reads cs p writes wire scratch Hset He Hav Hy Hl Hw)
      as (t1 & reads1 & t2 & tcp & b & t3 & Hi & Hwc & Ht & Hn & Hro).
    exists (mkTlsIo t3 reads1 tcp), (mkTlsIo t3 reads1 tcp), (if b then DrainOk else NeedsWrite).
    split; [done|]. unfold read_frames_tls, fill_tls, drain_head_bytes_tls.
    cbn [io_tls io_reads io_tcp tcp_writes tcp_wire]. rewrite Hi, Hn. split.
    + destruct (notified t1); rewrite Hwc, Ht; cbn [fmap option_fmap option_map negb orb];
        by destruct (frames_available _ _ _).
    + intros ->. rewrite Hwc, Ht. by destruct b.
  - intros Hl. pose proof (ingest_spec (S (read_size reads)) t reads cs p Hset Hav Hy ltac:(lia)) as Hi.
    unfold read_frames_tls, fill_tls, drain_head_bytes_tls. cbn [io_tls io_reads io_tcp].
    destruct (ingest _ t reads) as [[t1 reads1] g]. destruct Hi as [_ Hi]. rewrite (Hi Hl).
    by eexists.
Qed.

(** ** Every operation returns *)

#[local] Instance same_reads_reflexive : Reflexive same_reads.
Proof. by intros t. Qed.

#[local] Instance same_reads_transitive : Transitive same_reads.
Proof. intros t1 t2 t3 (? & ? & ? & ? & Hy1) (? & ? & ? & ? & Hy2). split_and!; congruence. Qed.

(** Writing leaves what was read alone, whatever the socket answers. *)
Lemma write_ciphertext_reads t writes wire : same_reads t (write_ciphertext t writes wire).1.1.
Proof.
  revert t wire. induction writes as [|a writes IH]; intros t wire; cbn [write_ciphertext];
    (destruct (negb _); [done|]); [done|].
  destruct (write_tls t a) as [[t1 out] r] eqn:Hr.
  assert (same_reads t t1) as H1 by exact (write_tls_reads _ _ _ _ _ Hr).
  destruct r as [k|[| |]]; try done. etrans; [exact H1|apply IH].
Qed.

Lemma tls_write_batch_reads bytes (s : TlsBatchSink T) :
  same_reads (ts_tls s) (ts_tls (tls_write_batch bytes s).1).
Proof.
  unfold tls_write_batch.
  pose proof (write_ciphertext_reads (ts_tls s) (tcp_writes (ts_tcp s)) (tcp_wire (ts_tcp s))) as H1.
  destruct (write_ciphertext _ _ _) as [[t1 tcp1] [[]|e]]; [|done..].
  destruct (writer_write t1 bytes) as [t2 r] eqn:Hw.
  assert (same_reads (ts_tls s) t2) as H2 by (etrans; [exact H1|exact (writer_write_reads _ _ _ _ Hw)]).
  destruct r as [n|e]; [|done].
  pose proof (write_ciphertext_reads t2 (tcp_writes tcp1) (tcp_wire tcp1)) as H3.
  destruct (write_ciphertext t2 _ _) as [[t3 tcp3] [b|e]]; (etrans; [exact H2|exact H3]).
Qed.

Lemma flush_coalesced_reads fuel max now c (s : TlsBatchSink T) :
  same_reads (ts_tls s) (ts_tls (flush_coalesced fuel max now c s).1.2).
Proof.
  revert c s. induction fuel as [|fuel IH]; intros c s; cbn [flush_coalesced]; [done|]. cbv zeta.
  destruct (out _); [done|]. destruct (gather _ _ _ _ _ _ _) as [[batch b] c2].
  change (write_batch ?x s) with (tls_write_batch x s).
  pose proof (tls_write_batch_reads (offered (out_cursor (codel_dequeue (0 <? out_cursor c)%nat now c)) batch) s) as H1.
  destruct (tls_write_batch _ s) as [s1 [[n|[| |]]|]]; try done; [destruct (n =? 0)%nat; [done|]|];
    (etrans; [exact H1|apply IH]).
Qed.

Lemma drain_ciphertext_reads (c : TlsConnection T) :
  same_reads (session c) (session (drain_ciphertext c).1).
Proof.
  unfold drain_ciphertext. pose proof (write_ciphertext_reads (session c) (tcp_writes (socket c)) (tcp_wire (socket c))) as H1.
  by destruct (write_ciphertext _ _ _) as [[t tcp] [[]|e]].
Qed.

Lemma flush_tls_reads now (c : TlsConnection T) : same_reads (session c) (session (flush_tls now c).1).
Proof.
  assert (same_reads (session c) (session (flush_tls_phases now c).1)) as H0.
  { unfold flush_tls_phases. pose proof (drain_ciphertext_reads c) as H1.
    destruct (drain_ciphertext c) as [c1 [st1|]]; [done|]. cbv zeta.
    pose proof (flush_coalesced_reads (S (S (length (tcp_writes (socket c1))))) TLS_BATCH_MAX_BYTES now
      (tc_conn c1) (mkTlsBatchSink (session c1) (socket c1) (tls_unflushed_bytes (tc_conn c1)))) as H2.
    destruct (flush_coalesced _ _ _ _ _) as [[conn s] st]. cbn [fst snd ts_tls] in H1, H2.
    assert (same_reads (session c) (ts_tls s)) as H12 by (etrans; [exact H1|exact H2]).
    destruct st as [[]|]; [|done..].
    match goal with |- context [drain_ciphertext ?x] => pose proof (drain_ciphertext_reads x) as H3 end.
    destruct (drain_ciphertext _) as [c3 st3]. etrans; [exact H12|exact H3]. }
  unfold flush_tls. by destruct (flush_tls_phases now c).
Qed.

(** Taking ciphertext ends with the script. *)
Lemma ingest_returns fuel t reads :
  processed t = true → (read_size reads < fuel)%nat →
  let '(t', _, g) := ingest fuel t reads in
  g ≠ None ∧ (g ≠ Some IngestFailed → processed t' = true).
Proof.
  revert t reads. induction fuel as [|fuel IH]; intros t reads Hp Hf; [lia|]. cbn [ingest].
  destruct (decide (plaintext_limit < length (received t))%nat) as [Hfull|Hroom];
    [by rewrite read_tls_full|].
  destruct (notified t) eqn:Hnot; [by rewrite read_tls_notified by (done || lia)|].
  destruct (read_tls_error t ltac:(lia) Hnot) as (Hwb & Hint & Herr).
  destruct reads as [|[bytes| | |] reads]; cbn [head default from_option id].
  - by rewrite Hwb.
  - destruct (decide (bytes = [])) as [->|Hne].
    { destruct (read_tls_end t ltac:(lia) Hnot Hp) as (t1 & -> & _ & _ & _ & ? & _). done. }
    destruct (read_tls_data t bytes ltac:(lia) Hnot Hp Hne) as (k & t1 & Hk & -> & _).
    destruct k as [|k]; [lia|]. destruct (process_new_packets t1) as [t2 []] eqn:Hpr; [|done].
    apply IH; [by destruct (process_ok _ _ Hpr) as (_ & ? & _)|].
    pose proof (read_size_unread (S k) bytes reads ltac:(lia)). simpl in Hf. lia.
  - by rewrite Hwb.
  - rewrite Hint. apply IH; [done|]. simpl in *. lia.
  - by rewrite Herr.
Qed.

Lemma fill_tls_returns (io : TlsIo T) scratch :
  processed (io_tls io) = true →
  let '(io', _, r) := fill_tls io scratch in
  r ≠ None ∧ ((∃ eof, r = Some (Ok eof)) → processed (io_tls io') = true).
Proof.
  intros Hp. unfold fill_tls.
  pose proof (ingest_returns (S (read_size (io_reads io))) (io_tls io) (io_reads io) Hp ltac:(lia)) as Hi.
  destruct (ingest _ _ _) as [[t1 reads1] [g|]]; destruct Hi as [Hne Hp1]; [|done].
  pose proof (write_ciphertext_reads t1 (tcp_writes (io_tcp io)) (tcp_wire (io_tcp io))) as (_ & _ & _ & Hp2 & _).
  destruct (write_ciphertext t1 _ _) as [[t2 tcp] r2]. cbn [fst] in Hp2.
  destruct (take_plaintext_spec (S (plaintext_bytes_to_read t2)) t2 scratch) as (t3 & Ht & _ & _ & _ & Hp3 & _);
    [rewrite plaintext_counted; lia|].
  rewrite Ht. destruct g; try destruct r2; cbn; (split; [done|]); intros Hex; try (by destruct Hex);
    rewrite Hp3, Hp2; by apply Hp1.
Qed.

(** A field outside the books. *)
Lemma booked_same (c : Connection) n b :
  booked c = b →
  booked (set_reassembly_bytes n c) = b ∧ booked (set_frame_buffer_bytes n c) = b.
Proof.
  intros <-. unfold booked, accounted_bytes, outbound_bytes. simpl. split; f_equal; lia.
Qed.

(** ** Histories *)

Inductive tls_op : Type :=
| TQueue (frame : list Z) (now_ns : Z)
| TFlush (writes : list IoResult) (now_ns : Z)
| TRead (reads : list ReadResult) (writes : list IoResult) (max_payload : Z)
| TSetReassembly (n : Z)
| TSetFrameBuffer (n : Z)
| TTakeInflight
| TTakeOutbound
| TClose (writes : list IoResult).

(** A connection with its inbound buffer, what was queued, the deltas the worker
    took, and whether the worker still serves it. *)
Record TlsWorld : Type := mkTlsWorld {
  tw_conn : TlsConnection T;
  tw_inbuf : list Z;
  tw_queued : list OutFrame;
  tw_inflight : Z;
  tw_outbound : Z;
  tw_open : bool
}.

(** The coming answers of the socket. *)
Definition with_answers (reads : list ReadResult) (writes : list IoResult) (c : TlsConnection T)
    : TlsConnection T :=
  mkTlsConnection (tc_conn c) (mkTlsIo (session c) reads (mkTcpStream writes (tcp_wire (socket c)))).

Definition on_tls_conn (f : Connection → Connection) (c : TlsConnection T) : TlsConnection T :=
  mkTlsConnection (f (tc_conn c)) (tc_io c).

(** Nothing when an operation does not return. *)
Definition tls_serve (w : TlsWorld) (op : tls_op) : option TlsWorld :=
  let c := tw_conn w in
  let keep c := mkTlsWorld c (tw_inbuf w) (tw_queued w) (tw_inflight w) (tw_outbound w) in
  match op with
  | TQueue frame now =>
      Some (mkTlsWorld (on_tls_conn (λ c, (queue frame now c).1) c) (tw_inbuf w)
        (tw_queued w ++ [(frame, now)]) (tw_inflight w) (tw_outbound w) true)
  | TFlush writes now =>
      let '(c, st) := flush_tls now (with_answers [] writes c) in
      st ← st; Some (keep c (negb (bool_decide (st = WClosed))))
  | TRead reads writes max =>
      let c := with_answers reads writes c in
      let '(io, inbuf, r) := read_frames_tls (tc_io c) (tw_inbuf w) max in
      r ← r;
      Some (mkTlsWorld (mkTlsConnection (tc_conn c) io) inbuf (tw_queued w) (tw_inflight w)
        (tw_outbound w) (match r with Ok _ => true | Err _ => false end))
  | TSetReassembly n => Some (keep (on_tls_conn (set_reassembly_bytes n) c) true)
  | TSetFrameBuffer n => Some (keep (on_tls_conn (set_frame_buffer_bytes n) c) true)
  | TTakeInflight =>
      let '(conn, d) := take_inflight_delta (tc_conn c) in
      Some (mkTlsWorld (mkTlsConnection conn (tc_io c)) (tw_inbuf w) (tw_queued w) (tw_inflight w + d)
        (tw_outbound w) true)
  | TTakeOutbound =>
      let '(conn, d) := take_outbound_delta (tc_conn c) in
      Some (mkTlsWorld (mkTlsConnection conn (tc_io c)) (tw_inbuf w) (tw_queued w) (tw_inflight w)
        (tw_outbound w + d) true)
  | TClose writes => Some (keep (close_notify (with_answers [] writes c)) false)
  end.

(** A closed connection is not served any more. *)
Definition tls_step (w : TlsWorld) (op : tls_op) : option TlsWorld :=
  if tw_open w then tls_serve w op else Some w.

Fixpoint tls_steps (w : TlsWorld) (ops : list tls_op) : option TlsWorld :=
  match ops with
  | [] => Some w
  | op :: ops => w ← tls_step w op; tls_steps w ops
  end.

Definition tls_run (t : T) (high_water : Z) (p : CodelParams) (ops : list tls_op) : option TlsWorld :=
  tls_steps
    (mkTlsWorld (on_tls_conn (set_codel p) (new_tls (mkTlsIo t [] (mkTcpStream [] [])) high_water))
       [] [] 0 0 true) ops.

(** No write of a flush is interrupted. *)
Definition uninterrupted (op : tls_op) : Prop :=
  match op with TFlush writes _ => Forall no_interrupt writes | _ => True end.

Record tls_world_ok (w : TlsWorld) : Prop := {
  tk_processed : tw_open w = true → processed (session (tw_conn w)) = true;
  tk_established : tw_open w = true → established (session (tw_conn w)) = true;
  tk_channel : channel (session (tw_conn w)) (socket (tw_conn w));
  tk_unspliced : unspliced (tw_queued w) (delivered (session (tw_conn w)) (socket (tw_conn w)));
  tk_stream : tw_open w = true → stream_tls (tw_queued w) (tw_conn w);
  tk_booked : booked (tc_conn (tw_conn w)) = (- tw_inflight w, - tw_outbound w)%Z
}.

Lemma tls_serve_ok w op :
  uninterrupted op → tw_open w = true → tls_world_ok w → ∃ w', tls_serve w op = Some w' ∧ tls_world_ok w'.
Proof.
  intros Hop Hopen [Hpr He Hch Hun Hst Hb]. specialize (Hpr Hopen). specialize (He Hopen).
  destruct (Hst Hopen) as [sent Hs].
  destruct w as [c inbuf queued inflight outbound open]. simpl in *.
  destruct op as [frame now|writes now|reads writes max|n|n| | |writes]; simpl.
  - destruct (queue_stream _ _ _ frame now _ Hs) as [Hs' [Hi Ho _ _]]. eexists. split; [done|].
    split; simpl; [done..|by eapply stream_unspliced|by exists sent|].
    unfold booked in *. injection Hb as <- <-. f_equal; lia.
  - pose proof (flush_tls_spec queued now (with_answers [] writes c) He Hch (ex_intro _ sent Hs) Hop) as Hf.
    pose proof (flush_tls_reads now (with_answers [] writes c)) as (_ & _ & _ & Hp' & _).
    destruct (flush_tls now _) as [c' [st|]]; destruct Hf as (He' & Hch' & Hun' & Hst' & Hs' & Hb' & _); [|done].
    eexists. split; [done|]. simpl in *.
    split; simpl; [congruence|done..| |by rewrite Hb']. case_bool_decide; [done|]. intros _. apply Hs'. congruence.
  - pose proof (fill_tls_quiet (tc_io (with_answers reads writes c)) inbuf Hch) as Hq.
    pose proof (fill_tls_returns (tc_io (with_answers reads writes c)) inbuf Hpr) as Hret.
    unfold read_frames_tls.
    change (tc_io (with_answers reads writes c)) with
      (mkTlsIo (session c) reads (mkTcpStream writes (tcp_wire (socket c)))) in *.
    destruct (fill_tls _ inbuf) as [[io' inbuf'] r]. destruct Hq as (Hch' & Hd' & He').
    destruct Hret as [Hne Hp'].
    assert (delivered (io_tls io') (io_tcp io') = delivered (session c) (socket c)) as Hd'' by exact Hd'.
    destruct r as [[eof|e]|]; [destruct (frames_available _ _ _) as [rest fs]| |done]; (eexists; split; [done|]);
      (split; simpl; [intros ?; try done; apply Hp'; eauto|intros ?; try done; apply He'; eauto|done
        |by rewrite Hd''|intros _; exists sent; simpl; by rewrite Hd''|done]).
  - eexists. split; [done|]. split; simpl; [done..| |by eapply booked_same].
    intros _. exists sent. by apply (stream_ok_same _ _ _ (tc_conn c)).
  - eexists. split; [done|]. split; simpl; [done..| |by eapply booked_same].
    intros _. exists sent. by apply (stream_ok_same _ _ _ (tc_conn c)).
  - eexists. split; [done|]. split; simpl; [done..| |].
    + intros _. exists sent. by apply (stream_ok_same _ _ _ (tc_conn c)).
    + unfold booked, accounted_bytes, outbound_bytes in *. simpl. injection Hb as Hi Ho. f_equal; lia.
  - eexists. split; [done|]. split; simpl; [done..| |].
    + intros _. exists sent. by apply (stream_ok_same _ _ _ (tc_conn c)).
    + unfold booked, accounted_bytes, outbound_bytes in *. simpl. injection Hb as Hi Ho. f_equal; lia.
  - destruct (close_notify_quiet (with_answers [] writes c) Hch) as (Hch' & Hd' & Hc').
    eexists. split; [done|].
    split; [done|done|done| |done|]; cbn [tw_conn tw_queued tw_inflight tw_outbound]; [|by rewrite Hc'].
    rewrite Hd'. exact Hun.
Qed.

Lemma tls_run_ok t hw p ops :
  processed t = true → established t = true → carried t (pending t) [] → Forall uninterrupted ops →
  ∃ w, tls_run t hw p ops = Some w ∧ tls_world_ok w.
Proof.
  intros Hp He Hc. unfold tls_run. set (w0 := mkTlsWorld _ _ _ _ _ _).
  assert (tls_world_ok w0) as Hw0.
  { destruct (channel_intro t (mkTcpStream [] []) [] Hc) as [Hch Hd].
    assert (stream_ok [] [] [] (set_codel p (Connection_new hw))) as Hs by (split; simpl; try done; by left).
    split; subst w0; simpl; [done..|rewrite Hd; by eapply stream_unspliced| |done].
    intros _. exists []. simpl. by rewrite Hd. }
  revert Hw0. generalize w0. induction ops as [|op ops IH]; intros w Hw Hops; simpl; [by eexists|].
  inv Hops. assert (∃ w', tls_step w op = Some w' ∧ tls_world_ok w') as (w' & -> & Hw').
  { unfold tls_step. destruct (tw_open w) eqn:Ho; [by apply tls_serve_ok|by eexists]. }
  by apply IH.
Qed.

(** C8. Over TLS, and whatever is queued, flushed and read while the socket
    accepts, blocks or fails: every operation returns; the peer decrypts whole
    frames in queue order, cut only at the end; once nothing is pending it has
    received every frame that was not counted as dropped; and the deltas the
    worker took account exactly for the bytes queued, buffered and held by the
    session. The session starts established, with nothing taken that waits to be
    processed, and the writes of a flush are not interrupted. *)
Theorem tls_stream_integrity (t : T) (hw : Z) (p : CodelParams) (ops : list tls_op) :
  processed t = true → established t = true → carried t (pending t) [] → Forall uninterrupted ops →
  ∃ w, tls_run t hw p ops = Some w ∧
  let c := tw_conn w in
  unspliced (tw_queued w) (peer_reads (tcp_wire (socket c) ++ pending (session c))) ∧
  (tw_inflight w + inflight_delta (tc_conn c))%Z = accounted_bytes (tc_conn c) ∧
  (tw_outbound w + outbound_delta (tc_conn c))%Z = outbound_bytes (tc_conn c) ∧
  (tw_open w = true → has_pending_writes c = false →
   ∃ sent, peer_reads (tcp_wire (socket c)) = bytes_of sent ∧ sublist sent (tw_queued w) ∧
     (Z.of_nat (length sent) + codel_dropped (tc_conn c) + drophead_dropped (tc_conn c)
      = Z.of_nat (length (tw_queued w)))%Z).
Proof.
  intros Hp0 He Hc Hops. destruct (tls_run_ok t hw p ops Hp0 He Hc Hops) as (w & Hw & [_ _ Hch Hun Hst Hb]).
  exists w. split; [done|]. intros c. fold c in Hch, Hun, Hst, Hb. unfold booked in Hb. injection Hb as Hi Ho.
  split_and!; [done|lia|lia|]. intros Hopen Hp. destruct (Hst Hopen) as [sent Hs]. exists sent.
  unfold has_pending_writes, tls_wants_write in Hp. apply orb_false_iff in Hp as [Hq Hp].
  rewrite wants_pending in Hp. apply negb_false_iff, bool_decide_eq_true in Hq.
  apply bool_decide_eq_false, dec_stable in Hp.
  destruct Hs as [Hwi Hcur Hord Hcnt _]. fold c in Hwi, Hcur, Hord, Hcnt. unfold delivered in Hwi.
  rewrite Hp, Hq, !app_nil_r in *. by split_and!.
Qed.
End reading.
