(* ===== verification/RestStream.v ===== *)
(** * The streams handed to the HTTP stack: [src/src/transport/rest.rs]

    A request that is not an upgrade leaves its worker with the bytes already
    read. [Rewind] replays them before the plain socket; [TlsRestStream] replays
    them before the plaintext of a TLS session it keeps driving. Both are polled:
    a poll is answered, or pending with a waker registered or already woken. The
    answers of the socket are scripts; a script that ends is not ready. *)

From S2P Require Import Prelude RustStd Outbound Inbound Rustls.

(** [Pending]: whether the socket holds the waker; otherwise the task woke
    itself. *)
Inductive Poll (A : Type) : Type :=
| Pending (registered : bool)
| Ready (r : result A IoKind).
Arguments Pending {A} registered.
Arguments Ready {A} r.

(** Hand out at most [room] bytes of a buffer from a cursor; an emptied buffer is
    released. *)
Definition take_buffered (room : nat) (buf : list Z) (pos : nat) : list Z * nat * list Z :=
  let remaining := drop pos buf in
  let n := Nat.min (length remaining) room in
  let pos := (pos + n)%nat in
  if (length buf <=? pos)%nat then ([], 0%nat, take n remaining) else (buf, pos, take n remaining).

(** ** Plain connections *)

(** A poll of the socket itself. *)
Definition tcp_poll_read (room : nat) (reads : list ReadResult) : list ReadResult * Poll (list Z) :=
  match reads with
  | [] => ([], Pending true)
  | ReadOk bytes :: reads => (unread room bytes ++ reads, Ready (Ok (take room bytes)))
  | ReadWouldBlock :: reads => (reads, Pending true)
  | ReadInterrupted :: reads => (reads, Ready (Err KInterrupted))
  | ReadError :: reads => (reads, Ready (Err KOther))
  end.

Record Rewind : Type := mkRewind {
  rw_prefix : list Z;
  rw_pos : nat;
  rw_inner : list ReadResult
}.

Definition rewind_new (prefix : list Z) (inner : list ReadResult) : Rewind := mkRewind prefix 0 inner.

Definition rewind_poll_read (room : nat) (s : Rewind) : Rewind * Poll (list Z) :=
  if (rw_pos s <? length (rw_prefix s))%nat then
    let '(prefix, pos, bytes) := take_buffered room (rw_prefix s) (rw_pos s) in
    (mkRewind prefix pos (rw_inner s), Ready (Ok bytes))
  else
    let '(inner, r) := tcp_poll_read room (rw_inner s) in
    (mkRewind (rw_prefix s) (rw_pos s) inner, r).

(** ** TLS connections *)

Inductive Readiness : Type := ReadyNow | NotReady | ReadyError.

(** The socket: the answers to its readiness polls, to its reads and to its
    writes, and the bytes it took. *)
Record RestTcp : Type := mkRestTcp {
  rt_read_ready : list Readiness;
  rt_reads : list ReadResult;
  rt_write_ready : list Readiness;
  rt_writes : list IoResult;
  rt_wire : list Z
}.

Definition poll_read_ready (tcp : RestTcp) : RestTcp * Readiness :=
  (mkRestTcp (tail (rt_read_ready tcp)) (rt_reads tcp) (rt_write_ready tcp) (rt_writes tcp)
     (rt_wire tcp), default NotReady (head (rt_read_ready tcp))).

(** Read into a buffer of 16 KiB. *)
Definition try_read (tcp : RestTcp) : RestTcp * result (list Z) IoKind :=
  let next reads := mkRestTcp (rt_read_ready tcp) reads (rt_write_ready tcp) (rt_writes tcp) (rt_wire tcp) in
  match rt_reads tcp with
  | [] => (next [], Err KWouldBlock)
  | ReadOk bytes :: reads => (next (unread (16 * 1024) bytes ++ reads), Ok (take (16 * 1024) bytes))
  | ReadWouldBlock :: reads => (next reads, Err KWouldBlock)
  | ReadInterrupted :: reads => (next reads, Err KInterrupted)
  | ReadError :: reads => (next reads, Err KOther)
  end.

Section tls_stream.
Context {T : Type} `{!Rustls T}.

Record TlsRestStream : Type := mkTlsRestStream {
  tr_tcp : RestTcp;
  tr_tls : T;
  tr_prefix : list Z;
  tr_prefix_pos : nat;
  tr_out_ct : list Z;
  tr_out_pos : nat;
  tr_in_pt : list Z;
  tr_in_pos : nat
}.

(** The stream of a hand-over. *)
Definition tls_rest_stream (tcp : RestTcp) (tls : T) (prefix : list Z) : TlsRestStream :=
  mkTlsRestStream tcp tls prefix 0 [] 0 [] 0.

Definition set_tcp (tcp : RestTcp) (s : TlsRestStream) : TlsRestStream :=
  mkTlsRestStream tcp (tr_tls s) (tr_prefix s) (tr_prefix_pos s) (tr_out_ct s) (tr_out_pos s)
    (tr_in_pt s) (tr_in_pos s).
Definition set_tls (t : T) (s : TlsRestStream) : TlsRestStream :=
  mkTlsRestStream (tr_tcp s) t (tr_prefix s) (tr_prefix_pos s) (tr_out_ct s) (tr_out_pos s)
    (tr_in_pt s) (tr_in_pos s).
Definition set_prefix (prefix : list Z) (pos : nat) (s : TlsRestStream) : TlsRestStream :=
  mkTlsRestStream (tr_tcp s) (tr_tls s) prefix pos (tr_out_ct s) (tr_out_pos s)
    (tr_in_pt s) (tr_in_pos s).
Definition set_out_ct (ct : list Z) (pos : nat) (s : TlsRestStream) : TlsRestStream :=
  mkTlsRestStream (tr_tcp s) (tr_tls s) (tr_prefix s) (tr_prefix_pos s) ct pos
    (tr_in_pt s) (tr_in_pos s).
Definition set_in_pt (pt : list Z) (pos : nat) (s : TlsRestStream) : TlsRestStream :=
  mkTlsRestStream (tr_tcp s) (tr_tls s) (tr_prefix s) (tr_prefix_pos s) (tr_out_ct s) (tr_out_pos s)
    pt pos.

(** *** Flushing ciphertext *)

(** Write the buffered ciphertext: nothing when all of it went out. Each turn
    polls the socket's readiness once. *)
Fixpoint write_buffered (ready : list Readiness) (writes : list IoResult) (wire : list Z)
    (ct : list Z) (pos : nat)
    : list Readiness * list IoResult * list Z * nat * option (Poll unit) :=
  if (pos <? length ct)%nat then
    match ready with
    | [] => ([], writes, wire, pos, Some (Pending true))
    | NotReady :: ready => (ready, writes, wire, pos, Some (Pending true))
    | ReadyError :: ready => (ready, writes, wire, pos, Some (Ready (Err KOther)))
    | ReadyNow :: ready =>
        match writes with
        | [] => write_buffered ready [] wire ct pos
        | Room room :: writes =>
            let n := Nat.min room (length (drop pos ct)) in
            if (n =? 0)%nat then (ready, writes, wire, pos, Some (Ready (Err KOther)))
            else write_buffered ready writes (wire ++ take n (drop pos ct)) ct (pos + n)
        | IoWouldBlock :: writes | IoInterrupted :: writes => write_buffered ready writes wire ct pos
        | IoError :: writes => (ready, writes, wire, pos, Some (Ready (Err KOther)))
        end
    end
  else (ready, writes, wire, pos, None).

(** Write what is buffered, take more from the session, and repeat. *)
Fixpoint flush_ct (fuel : nat) (s : TlsRestStream) : TlsRestStream * option (Poll unit) :=
  match fuel with
  | O => (s, None)
  | S fuel =>
      let tcp := tr_tcp s in
      let '(ready, writes, wire, pos, stop) :=
        write_buffered (rt_write_ready tcp) (rt_writes tcp) (rt_wire tcp) (tr_out_ct s) (tr_out_pos s) in
      let s := set_tcp (mkRestTcp (rt_read_ready tcp) (rt_reads tcp) ready writes wire) s in
      match stop with
      | Some p => (set_out_ct (tr_out_ct s) pos s, Some p)
      | None =>
          let s := set_out_ct [] 0 s in
          if negb (wants_write (tr_tls s)) then (s, Some (Ready (Ok tt)))
          else
            match write_tls_vec (tr_tls s) with
            | (t, []) => (set_tls t s, Some (Ready (Ok tt)))
            | (t, ct) => flush_ct fuel (set_out_ct ct 0 (set_tls t s))
            end
      end
  end.

(** Each round but the first polls the socket's readiness. *)
Definition poll_flush_ct (s : TlsRestStream) : TlsRestStream * option (Poll unit) :=
  flush_ct (S (S (length (rt_write_ready (tr_tcp s))))) s.

(** *** Reading *)

Definition take_in_pt (room : nat) (s : TlsRestStream) : TlsRestStream * list Z :=
  if (length (tr_in_pt s) <=? tr_in_pos s)%nat then (s, [])
  else
    let '(pt, pos, bytes) := take_buffered room (tr_in_pt s) (tr_in_pos s) in
    (set_in_pt pt pos s, bytes).

Inductive Pulled : Type := PulledClosed | PulledAll | PulledError (k : IoKind).

(** The plaintext of one round. A read hands out at least one byte. *)
Fixpoint pull_plaintext (fuel : nat) (t : T) (plaintext : list Z) : T * list Z * option Pulled :=
  match fuel with
  | O => (t, plaintext, None)
  | S fuel =>
      match reader_read t (16 * 1024) with
      | (t, Ok []) => (t, plaintext, Some PulledClosed)
      | (t, Ok bytes) => pull_plaintext fuel t (plaintext ++ bytes)
      | (t, Err KWouldBlock) => (t, plaintext, Some PulledAll)
      | (t, Err k) => (t, plaintext, Some (PulledError k))
      end
  end.

(** What is left of a cursor. *)
Definition cursor_rest (rest : list ReadResult) : list Z :=
  match rest with ReadOk bytes :: _ => bytes | _ => [] end.

(** Process every record of a buffer of ciphertext. A turn takes at least one
    byte of it. *)
Fixpoint drain_tls_records (fuel : nat) (t : T) (cursor plaintext : list Z)
    : T * list Z * option (result unit IoKind) :=
  match cursor with
  | [] => (t, plaintext, Some (Ok tt))
  | _ =>
      match fuel with
      | O => (t, plaintext, None)
      | S fuel =>
          match read_tls t (ReadOk cursor) with
          | (t, _, Ok O) => (t, plaintext, Some (Ok tt))
          | (t, _, Err e) => (t, plaintext, Some (Err e))
          | (t, rest, Ok _) =>
              match process_new_packets t with
              | (t, false) => (t, plaintext, Some (Err KOther))
              | (t, true) =>
                  match pull_plaintext (S (plaintext_bytes_to_read t)) t plaintext with
                  | (t, plaintext, None) => (t, plaintext, None)
                  | (t, plaintext, Some PulledClosed) => (t, plaintext, Some (Ok tt))
                  | (t, plaintext, Some (PulledError e)) => (t, plaintext, Some (Err e))
                  | (t, plaintext, Some PulledAll) =>
                      drain_tls_records fuel t (cursor_rest rest) plaintext
                  end
              end
          end
      end
  end.

(** Register the waker again before reporting that nothing came. *)
Definition wait_readable (s : TlsRestStream) : TlsRestStream * Poll (list Z) :=
  let '(tcp, ready) := poll_read_ready (tr_tcp s) in
  (set_tcp tcp s,
   match ready with
   | NotReady => Pending true
   | ReadyError => Ready (Err KOther)
   | ReadyNow => Pending false
   end).

(** Steps 7 to 9: after a read of ciphertext was processed. *)
Definition after_records (room : nat) (s : TlsRestStream) : TlsRestStream * option (Poll (list Z)) :=
  match poll_flush_ct s with
  | (s, None) => (s, None)
  | (s, Some _) =>
      match take_in_pt room s with
      | (s, (_ :: _) as bytes) => (s, Some (Ready (Ok bytes)))
      | (s, []) =>
          match reader_read (tr_tls s) (16 * 1024) with
          | (t, Ok []) => (set_tls t s, Some (Ready (Ok [])))
          | (t, Ok bytes) =>
              let s := set_tls t s in
              let '(s, bytes) := take_in_pt room (set_in_pt (tr_in_pt s ++ bytes) (tr_in_pos s) s) in
              (s, Some (Ready (Ok bytes)))
          | (t, Err KWouldBlock) =>
              let '(s, p) := wait_readable (set_tls t s) in (s, Some p)
          | (t, Err e) => (set_tls t s, Some (Ready (Err e)))
          end
      end
  end.

(** Steps 4 to 9: more ciphertext is needed. *)
Definition read_records (room : nat) (s : TlsRestStream) : TlsRestStream * option (Poll (list Z)) :=
  let '(tcp, ready) := poll_read_ready (tr_tcp s) in
  let s := set_tcp tcp s in
  match ready with
  | NotReady => (s, Some (Pending true))
  | ReadyError => (s, Some (Ready (Err KOther)))
  | ReadyNow =>
      let '(tcp, r) := try_read (tr_tcp s) in
      let s := set_tcp tcp s in
      match r with
      | Ok [] => (s, Some (Ready (Ok [])))
      | Ok ct =>
          let '(t, in_pt, r) := drain_tls_records (length ct) (tr_tls s) ct (tr_in_pt s) in
          let s := set_in_pt in_pt (tr_in_pos s) (set_tls t s) in
          match r with
          | None => (s, None)
          | Some (Err e) => (s, Some (Ready (Err e)))
          | Some (Ok _) => after_records room s
          end
      | Err KWouldBlock => let '(s, p) := wait_readable s in (s, Some p)
      | Err e => (s, Some (Ready (Err e)))
      end
  end.

Definition tls_poll_read (room : nat) (s : TlsRestStream) : TlsRestStream * option (Poll (list Z)) :=
  if (tr_prefix_pos s <? length (tr_prefix s))%nat then
    let '(prefix, pos, bytes) := take_buffered room (tr_prefix s) (tr_prefix_pos s) in
    (set_prefix prefix pos s, Some (Ready (Ok bytes)))
  else
    match take_in_pt room s with
    | (s, (_ :: _) as bytes) => (s, Some (Ready (Ok bytes)))
    | (s, []) =>
        match reader_read (tr_tls s) (16 * 1024) with
        | (t, Ok ((_ :: _) as bytes)) =>
            let s := set_tls t s in
            let '(s, bytes) := take_in_pt room (set_in_pt (tr_in_pt s ++ bytes) (tr_in_pos s) s) in
            (s, Some (Ready (Ok bytes)))
        | (t, Ok []) | (t, Err KWouldBlock) => read_records room (set_tls t s)
        | (t, Err e) => (set_tls t s, Some (Ready (Err e)))
        end
    end.

(** *** Writing *)

Definition tls_poll_write (buf : list Z) (s : TlsRestStream) : TlsRestStream * option (Poll nat) :=
  match writer_write (tr_tls s) buf with
  | (t, Err e) => (set_tls t s, Some (Ready (Err e)))
  | (t, Ok n) =>
      match poll_flush_ct (set_tls t s) with
      | (s, None) => (s, None)
      | (s, Some (Ready (Err e))) => (s, Some (Ready (Err e)))
      | (s, Some _) => (s, Some (Ready (Ok n)))
      end
  end.

(** The socket's own flush does nothing for a TCP stream. *)
Definition tls_poll_flush (s : TlsRestStream) : TlsRestStream * option (Poll unit) := poll_flush_ct s.

(** Up to the shutdown of the socket itself. *)
Definition tls_poll_shutdown (s : TlsRestStream) : TlsRestStream * option (Poll unit) :=
  poll_flush_ct (set_tls (send_close_notify (tr_tls s)) s).

End tls_stream.

Arguments TlsRestStream : clear implicits.
