(* ===== verification/StreamProps.v ===== *)
(** * Theorems on the streams handed to the HTTP stack

    A stream delivers the bytes its worker had read and then everything the
    socket carries, in order, and reports its end only after the last of them;
    what is written to it reaches the peer unchanged. *)

From S2P Require Import Prelude RustStd Frame Outbound Inbound Rustls ConnTls TlsProps RestStream.

(** ** Buffers and scripts *)

(** The bytes a script of reads carries. *)
Fixpoint script_bytes (reads : list ReadResult) : list Z :=
  match reads with
  | [] => []
  | ReadOk bytes :: reads => bytes ++ script_bytes reads
  | _ :: reads => script_bytes reads
  end.

(** Nothing comes after the end of the stream. *)
Fixpoint ends_once (reads : list ReadResult) : Prop :=
  match reads with
  | [] => True
  | ReadOk [] :: reads => script_bytes reads = []
  | _ :: reads => ends_once reads
  end.

Lemma script_bytes_app r1 r2 : script_bytes (r1 ++ r2) = script_bytes r1 ++ script_bytes r2.
Proof. induction r1 as [|[bytes| | |] r1 IH]; simpl; rewrite ?IH; try done. by rewrite app_assoc. Qed.

Lemma script_unread k bytes reads :
  script_bytes (unread k bytes ++ reads) = drop k bytes ++ script_bytes reads.
Proof. rewrite script_bytes_app. unfold unread. destruct (drop k bytes); simpl; by rewrite ?app_nil_r. Qed.

Lemma ends_unread k bytes reads : ends_once reads → ends_once (unread k bytes ++ reads).
Proof. unfold unread. by destruct (drop k bytes). Qed.

Lemma ends_empty reads : script_bytes reads = [] → ends_once reads.
Proof.
  induction reads as [|[bytes| | |] reads IH]; simpl; auto. intros Hnil.
  apply app_eq_nil in Hnil as [-> ?]. done.
Qed.

Lemma ends_tail r reads : ends_once (r :: reads) → ends_once reads.
Proof. destruct r as [[|b bytes]| | |]; simpl; try done. apply ends_empty. Qed.

Lemma take_buffered_spec room buf pos :
  let '(buf', pos', bytes) := take_buffered room buf pos in
  drop pos buf = bytes ++ drop pos' buf' ∧
  (pos < length buf → 0 < room → bytes ≠ [])%nat.
Proof.
  unfold take_buffered. set (n := Nat.min _ _). pose proof (length_drop buf pos) as Hd.
  assert (pos < length buf → 0 < room → take n (drop pos buf) ≠ [])%nat as Hne.
  { intros Hp Hr Hnil. apply (f_equal length) in Hnil. rewrite length_take in Hnil. simpl in Hnil. lia. }
  destruct (Nat.leb_spec (length buf) (pos + n)); (split; [|done]).
  - rewrite drop_nil, app_nil_r. rewrite take_ge; [done|]. lia.
  - rewrite <-drop_drop. by rewrite take_drop.
Qed.

(** ** Plain connections *)

Definition rewind_coming (s : Rewind) : list Z := drop (rw_pos s) (rw_prefix s) ++ script_bytes (rw_inner s).

(** The bytes a poll handed over. *)
Definition polled (p : Poll (list Z)) : list Z := match p with Ready (Ok bytes) => bytes | _ => [] end.

(** The polls of a reader, each with the room it offers: what it got, and whether
    the end was reported to it. *)
Fixpoint rewind_reads (rooms : list nat) (s : Rewind) : Rewind * list Z * bool :=
  match rooms with
  | [] => (s, [], false)
  | room :: rooms =>
      let '(s, p) := rewind_poll_read room s in
      match p with
      | Ready (Ok []) => (s, [], true)
      | _ => let '(s, got, eof) := rewind_reads rooms s in (s, polled p ++ got, eof)
      end
  end.

Lemma rewind_poll_spec room s :
  (0 < room)%nat → ends_once (rw_inner s) →
  let '(s', p) := rewind_poll_read room s in
  rewind_coming s = polled p ++ rewind_coming s' ∧ ends_once (rw_inner s') ∧
  (p = Ready (Ok []) → rewind_coming s' = []).
Proof.
  intros Hr He. unfold rewind_poll_read, rewind_coming. destruct (Nat.ltb_spec (rw_pos s) (length (rw_prefix s))) as [Hlt|Hge].
  - pose proof (take_buffered_spec room (rw_prefix s) (rw_pos s)) as Ht.
    destruct (take_buffered _ _ _) as [[prefix pos] bytes]. destruct Ht as [-> Hne]. simpl.
    split_and!; [by rewrite app_assoc|done|]. intros [= ->]. by destruct (Hne Hlt Hr).
  - rewrite (drop_ge _ _ Hge). destruct s as [prefix pos inner]. simpl in *.
    destruct inner as [|[bytes| | |] inner]; simpl; rewrite ?(drop_ge _ _ Hge); simpl; try done.
    rewrite script_unread. split_and!; [by rewrite app_assoc, take_drop| |].
    + by eapply ends_unread, ends_tail.
    + intros [= Hnil]. destruct bytes as [|b bytes]; [by rewrite drop_nil|]. by destruct room; [lia|].
Qed.

(** What a reader of a handed-over plain socket gets is the start of the bytes
    already read followed by the socket's; the end is reported after all of
    them. *)
Lemma rewind_reads_spec rooms s :
  Forall (λ room, 0 < room)%nat rooms → ends_once (rw_inner s) →
  let '(s', got, eof) := rewind_reads rooms s in
  rewind_coming s = got ++ rewind_coming s' ∧ (eof = true → rewind_coming s' = []).
Proof.
  intros Hr. revert s. induction Hr as [|room rooms Hroom _ IH]; intros s He; simpl; [done|].
  pose proof (rewind_poll_spec room s Hroom He) as Hp. destruct (rewind_poll_read room s) as [s1 p].
  destruct Hp as (Hc & He1 & Heof). specialize (IH s1 He1).
  destruct (rewind_reads rooms s1) as [[s2 got] eof]. destruct IH as [IHc IHe].
  destruct p as [reg|[[|b bytes]|e]]; simpl in *; (split; [|naive_solver]).
  all: rewrite Hc; try done; by rewrite IHc, ?app_assoc.
Qed.

Lemma take_pos_nil {A} n (l : list A) : (0 < n)%nat → take n l = [] → l = [].
Proof. destruct n, l; simpl; try done. lia. Qed.

(** ** Reading over TLS *)

Section tls_reading.
Context {T : Type} `{!Rustls T, !RustlsReads T, !RustlsWrites T, !RustlsDuplex T}.
Implicit Types (t : T) (s : TlsRestStream T).

(** A session the stream may read from: it will yield [p] for the ciphertext
    [cs]. *)
Record readable t (cs p : list Z) : Prop := {
  rd_settled : settled t;
  rd_ended : ended t = false;
  rd_yields : yields t cs = Some p
}.

Lemma readable_same t t' cs p : same_reads t t' → readable t cs p → readable t' cs p.
Proof.
  intros (Hr & Hn & He & Hp & Hy) [[Hset Hy0] Hend Hyc].
  split; [split; [congruence|by rewrite Hy, Hr]|congruence|by rewrite Hy].
Qed.

Lemma readable_empty t p : readable t [] p → p = received t.
Proof. intros [[_ Hy0] _ Hy]. congruence. Qed.

(** One read of plaintext. *)
Lemma reader_read_spec t cs p n :
  (0 < n)%nat → readable t cs p →
  (received t = [] ∧ reader_read t n = (t, if notified t then Ok [] else Err KWouldBlock)) ∨
  (∃ t' bytes p', reader_read t n = (t', Ok bytes) ∧ bytes ≠ [] ∧ p = bytes ++ p' ∧ readable t' cs p').
Proof.
  intros Hn [[Hpr Hy0] He Hy]. destruct (decide (received t = [])) as [Hnil|Hne].
  - left. split; [done|]. rewrite reader_empty by done. by rewrite He.
  - right. destruct (reader_data t n Hn Hne) as (k & t' & Hk & Hkl & Hr & Hr' & _ & He' & Hp' & Hy').
    destruct (yields_extends _ _ _ Hy) as [q ->].
    exists t', (take k (received t)), (drop k (received t) ++ q). split; [done|]. split_and!.
    + intros Hnil. apply (f_equal length) in Hnil. rewrite length_take in Hnil. simpl in Hnil. lia.
    + by rewrite app_assoc, take_drop.
    + split; [split; [congruence|]|congruence|]; rewrite Hy', ?Hy, ?Hy0, ?Hr'; simpl; [done|].
      by rewrite drop_app_le.
Qed.

Lemma pull_plaintext_spec fuel t cs p plaintext :
  readable t cs p → (length (received t) < fuel)%nat →
  ∃ t' q p', pull_plaintext fuel t plaintext =
      (t', plaintext ++ q, Some (if notified t' then PulledClosed else PulledAll)) ∧
    p = q ++ p' ∧ readable t' cs p' ∧ received t' = [] ∧ q = received t.
Proof.
  revert t p plaintext. induction fuel as [|fuel IH]; intros t p plaintext Hrd Hf; [lia|].
  cbn [pull_plaintext].
  destruct (decide (received t = [])) as [Hnil|Hne].
  - destruct (reader_read_spec t cs p (16 * 1024) (Nat.lt_0_succ _) Hrd) as [[_ ->]|(t' & bytes & p' & Hr & Hb & _)].
    + exists t, [], p. rewrite app_nil_r, Hnil. split_and!; try done. by destruct (notified t).
    + rewrite reader_empty in Hr by done. destruct Hrd as [_ He _]. rewrite He in Hr. destruct (notified t); simplify_eq.
  - destruct (reader_data t (16 * 1024) (Nat.lt_0_succ _) Hne) as (k & t1 & Hk & Hkl & Hr & Hr1 & _).
    destruct (reader_read_spec t cs p (16 * 1024) (Nat.lt_0_succ _) Hrd) as [[? _]|(t' & bytes & p' & Hr' & Hb & -> & Hrd')]; [done|].
    rewrite Hr in Hr'. injection Hr' as <- <-. rewrite Hr.
    destruct (IH t1 p' (plaintext ++ take k (received t)) Hrd') as (t2 & q & p2 & Hpl & -> & Hrd2 & Hr2 & ->).
    { rewrite Hr1, length_drop. lia. }
    destruct (take k (received t)) as [|b bs] eqn:Htk; [done|]. rewrite Hpl.
    exists t2, (received t), p2. rewrite Hr1, <-app_assoc, <-Htk, !app_assoc.
    rewrite <-(app_assoc plaintext), take_drop. by split_and!.
Qed.

Lemma drain_tls_records_spec fuel t cursor cs p plaintext :
  readable t (cursor ++ cs) p → received t = [] → (length cursor <= fuel)%nat →
  ∃ t' q p', drain_tls_records fuel t cursor plaintext = (t', plaintext ++ q, Some (Ok tt)) ∧
    p = q ++ p' ∧ readable t' cs p' ∧ received t' = [].
Proof.
  revert t cursor p plaintext. induction fuel as [|fuel IH]; intros t cursor p plaintext Hrd Hnil Hf.
  { destruct cursor; [|simpl in Hf; lia]. exists t, [], p. by rewrite app_nil_r. }
  destruct cursor as [|b0 bs]; [exists t, [], p; by rewrite app_nil_r|].
  cbn [drain_tls_records]. destruct Hrd as [[Hpr Hy0] He Hy].
  assert (length (received t) <= plaintext_limit)%nat as Hroom by (rewrite Hnil; simpl; lia).
  destruct (notified t) eqn:Hn.
  { rewrite read_tls_notified by done. pose proof (notified_stops t ((b0 :: bs) ++ cs) Hn) as Hs.
    assert (p = []) as -> by congruence. exists t, [], []. rewrite app_nil_r. split_and!; try done.
    split; try done. by rewrite notified_stops, Hnil. }
  destruct (read_tls_data t (b0 :: bs) Hroom Hn Hpr ltac:(done)) as (k & t1 & Hk & -> & Hr1 & Hn1 & He1 & Hy1).
  destruct k as [|k]; [lia|]. destruct (process_new_packets t1) as [t2 ok] eqn:Hp. destruct ok; last first.
  { pose proof (process_failed _ _ (drop (S k) (b0 :: bs) ++ cs) Hp) as Hfail. rewrite Hy1 in Hfail. congruence. }
  destruct (process_ok _ _ Hp) as (Hy2 & Hpr2 & He2 & Hyall).
  assert (readable t2 (drop (S k) (b0 :: bs) ++ cs) p) as Hrd2.
  { split; [split; [done|by rewrite Hyall]|congruence|]. by rewrite Hyall, Hy1. }
  destruct (pull_plaintext_spec (S (plaintext_bytes_to_read t2)) t2 _ p plaintext Hrd2)
    as (t3 & q & p' & -> & -> & Hrd3 & Hr3 & _); [rewrite plaintext_counted; lia|].
  destruct (notified t3) eqn:Hn3.
  - exists t3, q, p'. split_and!; try done. destruct Hrd3 as [Hset3 He3 Hy3].
    rewrite notified_stops in Hy3 by done. split; try done. by rewrite notified_stops.
  - assert (cursor_rest (unread (S k) (b0 :: bs)) = drop (S k) (b0 :: bs)) as ->
      by (unfold unread; by destruct (drop (S k) (b0 :: bs))).
    destruct (IH t3 (drop (S k) (b0 :: bs)) p' (plaintext ++ q) Hrd3 Hr3) as (t4 & q4 & p4 & -> & -> & Hrd4 & Hr4).
    { rewrite length_drop. simpl in *. lia. }
    exists t4, (q ++ q4), p4. rewrite !app_assoc. by split_and!.
Qed.

(** *** Flushing *)

(** All the ciphertext produced so far: on the wire, buffered, in the session. *)
Definition all_ct s : list Z :=
  rt_wire (tr_tcp s) ++ drop (tr_out_pos s) (tr_out_ct s) ++ pending (tr_tls s).

(** What the peer decrypts once it has all of it. *)
Definition peer_has s : list Z := peer_reads (all_ct s).

Definition rest_channel s : Prop := carried (tr_tls s) (all_ct s) (peer_has s).

Lemma rest_channel_intro s p : carried (tr_tls s) (all_ct s) p → rest_channel s ∧ peer_has s = p.
Proof.
  intros Hc. assert (peer_has s = p) as Hp by by apply peer_decrypts in Hc.
  split; [|done]. unfold rest_channel. by rewrite Hp.
Qed.

(** The inbound half of a stream. *)
Definition same_inbound s s' : Prop :=
  same_reads (tr_tls s) (tr_tls s') ∧
  rt_read_ready (tr_tcp s') = rt_read_ready (tr_tcp s) ∧ rt_reads (tr_tcp s') = rt_reads (tr_tcp s) ∧
  tr_prefix s' = tr_prefix s ∧ tr_prefix_pos s' = tr_prefix_pos s ∧
  tr_in_pt s' = tr_in_pt s ∧ tr_in_pos s' = tr_in_pos s.

Lemma same_reads_trans t1 t2 t3 : same_reads t1 t2 → same_reads t2 t3 → same_reads t1 t3.
Proof.
  intros (? & ? & ? & ? & Hy) (? & ? & ? & ? & Hy'). split_and!; try congruence.
Qed.

Lemma same_inbound_trans s1 s2 s3 : same_inbound s1 s2 → same_inbound s2 s3 → same_inbound s1 s3.
Proof.
  intros (Hr & ? & ? & ? & ? & ? & ?) (Hr' & ? & ? & ? & ? & ? & ?).
  split; [by eapply same_reads_trans|]. split_and!; congruence.
Qed.

Lemma write_buffered_spec ready writes wire ct pos :
  let '(ready', writes', wire', pos', stop) := write_buffered ready writes wire ct pos in
  wire' ++ drop pos' ct = wire ++ drop pos ct ∧
  (stop = None → (length ct <= pos')%nat) ∧
  (length ready' <= length ready)%nat ∧
  (stop = None → (pos < length ct)%nat → (length ready' < length ready)%nat) ∧
  stop ≠ Some (Ready (Ok tt)).
Proof.
  revert writes wire pos. induction ready as [|r ready IH]; intros writes wire pos; cbn [write_buffered];
    (destruct (Nat.ltb_spec pos (length ct)) as [Hlt|Hge]; [|split_and!; try done; intros; lia]).
  { by split_and!. }
  assert (∀ p : Poll unit, p ≠ Ready (Ok tt) → ∀ w : list Z, w = wire →
    w ++ drop pos ct = wire ++ drop pos ct ∧ (Some p = None → (length ct <= pos)%nat) ∧
    (length ready <= S (length ready))%nat ∧
    (Some p = None → (pos < length ct)%nat → (length ready < S (length ready))%nat) ∧
    Some p ≠ Some (Ready (Ok tt))) as Hstop by (intros p Hp w ->; split_and!; try done; [lia|congruence]).
  destruct r; [|by apply Hstop..].
  assert (∀ writes1, let '(ready', writes', wire', pos', stop) := write_buffered ready writes1 wire ct pos in
    wire' ++ drop pos' ct = wire ++ drop pos ct ∧ (stop = None → (length ct <= pos')%nat) ∧
    (length ready' <= S (length ready))%nat ∧
    (stop = None → (pos < length ct)%nat → (length ready' < S (length ready))%nat) ∧
    stop ≠ Some (Ready (Ok tt))) as Hagain.
  { intros writes1. specialize (IH writes1 wire pos).
    destruct (write_buffered ready writes1 wire ct pos) as [[[[r' w'] wi'] po'] st].
    destruct IH as (IH1 & IH2 & IH3 & IH4 & IH5). split_and!; try done; [lia|]. intros; lia. }
  destruct writes as [|[room| | |] writes]; [apply Hagain| |apply Hagain|apply Hagain|by apply Hstop].
  set (n := Nat.min _ _). destruct (Nat.eqb_spec n 0); [by apply Hstop|].
  specialize (IH writes (wire ++ take n (drop pos ct)) (pos + n)%nat).
  destruct (write_buffered ready writes _ ct _) as [[[[r' w'] wi'] po'] st].
  destruct IH as (IH1 & IH2 & IH3 & IH4 & IH5). split_and!; try done; [|simpl; lia|intros; simpl; lia].
  rewrite IH1, <-app_assoc, <-drop_drop, take_drop. done.
Qed.

Record flush_ct_post s s' (p : option (Poll unit)) : Prop := {
  fc_inbound : same_inbound s s';
  fc_channel : rest_channel s';
  fc_peer : peer_has s' = peer_has s;
  fc_established : established (tr_tls s') = established (tr_tls s);
  fc_returns : p ≠ None;
  fc_ready : p = Some (Ready (Ok tt)) →
    drop (tr_out_pos s') (tr_out_ct s') = [] ∧ pending (tr_tls s') = []
}.

Lemma flush_ct_spec fuel s :
  rest_channel s →
  (length (rt_write_ready (tr_tcp s)) + (if (tr_out_pos s <? length (tr_out_ct s))%nat then 1 else 2) <= fuel)%nat →
  let '(s', p) := flush_ct fuel s in flush_ct_post s s' p.
Proof.
  revert s. induction fuel as [|fuel IH]; intros s Hch Hf; [destruct (_ <? _)%nat; lia|].
  cbn [flush_ct]. cbv zeta.
  destruct s as [[rready reads wready writes wire] t prefix ppos ct pos pt ipos].
  cbn [tr_tcp tr_tls tr_out_ct tr_out_pos rt_write_ready rt_writes rt_wire rt_read_ready rt_reads] in *.
  pose proof (write_buffered_spec wready writes wire ct pos) as Hw.
  destruct (write_buffered wready writes wire ct pos) as [[[[ready' writes'] wire'] pos'] stop].
  destruct Hw as (Hwire & Hall & Hle & Hlt & Hno).
  assert (∀ s', tr_tls s' = t → all_ct s' = wire ++ drop pos ct ++ pending t →
    rest_channel s' ∧ peer_has s' = peer_has (mkTlsRestStream (mkRestTcp rready reads wready writes wire) t
      prefix ppos ct pos pt ipos)) as Hsame.
  { intros s' Ht Hct. apply rest_channel_intro. rewrite Ht, Hct. exact Hch. }
  destruct stop as [p|].
  { unfold set_out_ct, set_tcp. cbn [tr_tls tr_tcp tr_prefix tr_prefix_pos tr_in_pt tr_in_pos tr_out_ct tr_out_pos].
    edestruct (Hsame (mkTlsRestStream (mkRestTcp rready reads ready' writes' wire') t prefix ppos ct pos' pt ipos))
      as [Hc1 Hc2]; [done| |].
    { unfold all_ct. cbn. by rewrite app_assoc, Hwire, <-app_assoc. }
    split; try done. }
  specialize (Hall eq_refl). rewrite (drop_ge _ _ Hall), app_nil_r in Hwire.
  unfold set_out_ct, set_tcp, set_tls. cbn [tr_tls tr_tcp tr_prefix tr_prefix_pos tr_in_pt tr_in_pos tr_out_ct tr_out_pos].
  set (tcp' := mkRestTcp rready reads ready' writes' wire').
  rewrite wants_pending. destruct (decide (pending t = [])) as [Hp|Hp].
  { rewrite bool_decide_eq_false_2 by (by intros ?). cbn [negb].
    edestruct (Hsame (mkTlsRestStream tcp' t prefix ppos [] 0 pt ipos)) as [Hc1 Hc2]; [done| |].
    { unfold all_ct. subst tcp'. cbn. by rewrite Hwire, <-app_assoc. }
    split; try done. }
  rewrite bool_decide_eq_true_2 by done. cbn [negb].
  destruct (write_tls_to_vec t Hp) as (k & t1 & Hk & Hvec & Hp1 & He1 & Hc1).
  rewrite Hvec. destruct (take k (pending t)) as [|b bs] eqn:Htk.
  { apply (f_equal length) in Htk. rewrite length_take in Htk. simpl in Htk. lia. }
  set (s1 := mkTlsRestStream tcp' t1 prefix ppos (b :: bs) 0 pt ipos).
  assert (all_ct s1 = wire ++ drop pos ct ++ pending t) as Hall1.
  { unfold all_ct. subst s1 tcp'. cbn [tr_tcp rt_wire tr_out_pos tr_out_ct tr_tls]. rewrite drop_0, <-Htk, Hp1, take_drop.
    by rewrite Hwire, <-app_assoc. }
  destruct (rest_channel_intro s1 (peer_has (mkTlsRestStream (mkRestTcp rready reads wready writes wire) t
      prefix ppos ct pos pt ipos))) as [Hch1 Hpe1].
  { rewrite Hall1. apply Hc1. exact Hch. }
  specialize (IH s1 Hch1). destruct (flush_ct fuel s1) as [s2 p2].
  destruct IH as [IHin IHch IHpe IHe IHr IHok].
  { subst s1 tcp'. cbn [tr_tcp rt_write_ready tr_out_pos tr_out_ct]. cbn [length Nat.ltb Nat.leb].
    destruct (Nat.ltb_spec pos (length ct)) as [Hpos|Hpos]; [specialize (Hlt eq_refl Hpos)|]; lia. }
  split; try done; [|congruence|].
  - eapply same_inbound_trans; [|exact IHin]. split; [|done]. by eapply write_tls_vec_reads.
  - rewrite IHe. exact He1.
Qed.

Lemma poll_flush_ct_spec s :
  rest_channel s → let '(s', p) := poll_flush_ct s in flush_ct_post s s' p.
Proof. intros Hch. apply flush_ct_spec; [done|]. destruct (_ <? _)%nat; lia. Qed.

(** *** Reading leaves what was written alone *)

Definition grows t t' : Prop :=
  ∃ ct, pending t' = pending t ++ ct ∧ ∀ sent p, carried t sent p → carried t' (sent ++ ct) p.

Lemma grows_same t t' :
  pending t' = pending t → (∀ sent p, carried t sent p → carried t' sent p) → grows t t'.
Proof. intros Hp Hc. exists []. rewrite app_nil_r. split; [done|]. intros. rewrite app_nil_r. auto. Qed.

#[local] Instance grows_refl : Reflexive grows.
Proof. intros t. by apply grows_same. Qed.

#[local] Instance grows_trans : Transitive grows.
Proof.
  intros t1 t2 t3 (ct1 & Hp1 & Hc1) (ct2 & Hp2 & Hc2). exists (ct1 ++ ct2).
  split; [by rewrite Hp2, Hp1, app_assoc|]. intros sent p Hc. rewrite app_assoc. auto.
Qed.

Lemma grows_channel t s :
  grows (tr_tls s) t → rest_channel s → rest_channel (set_tls t s) ∧ peer_has (set_tls t s) = peer_has s.
Proof.
  intros (ct & Hp & Hc) Hch. apply rest_channel_intro. unfold all_ct. cbn [set_tls tr_tls tr_tcp tr_out_pos tr_out_ct].
  rewrite Hp, !app_assoc. apply Hc. unfold rest_channel, all_ct in Hch. by rewrite app_assoc in Hch.
Qed.

Lemma pull_plaintext_grows fuel t plaintext :
  let '(t', _, _) := pull_plaintext fuel t plaintext in grows t t' ∧ established t' = established t.
Proof.
  revert t plaintext. induction fuel as [|fuel IH]; intros t plaintext; cbn [pull_plaintext]; [done|].
  destruct (reader_read t _) as [t1 r] eqn:Hr. destruct (reader_writes _ _ _ _ Hr) as (Hp & He & Hc).
  pose proof (grows_same t t1 Hp Hc) as Hg. destruct r as [[|b bytes]|[| |]]; try done.
  specialize (IH t1 (plaintext ++ b :: bytes)). destruct (pull_plaintext fuel _ _) as [[t2 q] r].
  destruct IH. split; [by etrans|congruence].
Qed.

Lemma drain_tls_records_grows fuel t cursor plaintext :
  let '(t', _, r) := drain_tls_records fuel t cursor plaintext in
  grows t t' ∧ (r = Some (Ok tt) → established t = true → established t' = true).
Proof.
  revert t cursor plaintext. induction fuel as [|fuel IH]; intros t cursor plaintext;
    (destruct cursor as [|b bs]; [done|]); cbn [drain_tls_records]; [done|].
  destruct (read_tls t _) as [[t1 rest] r] eqn:Hr. destruct (read_tls_writes _ _ _ _ _ Hr) as (Hp & He & Hc).
  pose proof (grows_same t t1 Hp Hc) as Hg. destruct r as [[|k]|e]; [split; [done|congruence]| |done].
  destruct (process_new_packets t1) as [t2 ok] eqn:Hpr.
  destruct (process_writes _ _ _ Hpr) as (ct & Hp2 & He2 & Hc2).
  assert (grows t t2) as Hg2 by (etrans; [exact Hg|by exists ct]). destruct ok; [|done].
  pose proof (pull_plaintext_grows (S (plaintext_bytes_to_read t2)) t2 plaintext) as Hpl.
  destruct (pull_plaintext _ t2 plaintext) as [[t3 q] [[| |e]|]]; destruct Hpl as [Hg3 He3];
    (assert (grows t t3) as Hgt by (by etrans)); try done.
  - split; [done|]. intros _ Ht. rewrite He3. apply He2; congruence.
  - specialize (IH t3 (cursor_rest rest) q). destruct (drain_tls_records fuel _ _ _) as [[t4 q4] r4].
    destruct IH as [IHg IHe]. split; [by etrans|]. intros Hok Ht. apply IHe; [done|]. rewrite He3. apply He2; congruence.
Qed.

(** *** A poll of the stream *)

(** The stream still holds the bytes [c] for its reader. *)
Record rest_ok s (c : list Z) : Prop := {
  ok_pos : (tr_in_pos s <= length (tr_in_pt s))%nat;
  ok_ends : ends_once (rt_reads (tr_tcp s));
  ok_coming : ∃ p, readable (tr_tls s) (script_bytes (rt_reads (tr_tcp s))) p ∧
    c = drop (tr_prefix_pos s) (tr_prefix s) ++ drop (tr_in_pos s) (tr_in_pt s) ++ p;
  ok_channel : rest_channel s
}.

(** The socket will report an error. *)
Definition faulty s : Prop :=
  ReadyError ∈ rt_read_ready (tr_tcp s) ∨ ReadInterrupted ∈ rt_reads (tr_tcp s) ∨
  ReadError ∈ rt_reads (tr_tcp s).

(** What a poll for bytes leaves: an error is the socket's; otherwise the
    bytes handed over are the next ones, and the end comes after the last. *)
Definition poll_post s (c : list Z) s' (p : option (Poll (list Z))) : Prop :=
  rest_channel s' ∧ peer_has s' = peer_has s ∧
  match p with
  | None => False
  | Some (Ready (Err _)) => faulty s
  | Some p =>
      (established (tr_tls s) = true → established (tr_tls s') = true) ∧
      ∃ c', c = polled p ++ c' ∧ rest_ok s' c' ∧ (p = Ready (Ok []) → c' = [])
  end.

Lemma take_in_pt_spec room s :
  (tr_in_pos s <= length (tr_in_pt s))%nat →
  let '(s', bytes) := take_in_pt room s in
  drop (tr_in_pos s) (tr_in_pt s) = bytes ++ drop (tr_in_pos s') (tr_in_pt s') ∧
  (tr_in_pos s' <= length (tr_in_pt s'))%nat ∧
  s' = set_in_pt (tr_in_pt s') (tr_in_pos s') s ∧
  (0 < room → bytes = [] → tr_in_pos s' = tr_in_pos s ∧ length (tr_in_pt s) <= tr_in_pos s ∧ tr_in_pt s' = tr_in_pt s)%nat.
Proof.
  intros Hpos. unfold take_in_pt. destruct (Nat.leb_spec (length (tr_in_pt s)) (tr_in_pos s)) as [Hle|Hlt].
  { split_and!; try done. by destruct s. }
  pose proof (take_buffered_spec room (tr_in_pt s) (tr_in_pos s)) as Ht. unfold take_buffered in *.
  set (n := Nat.min _ _) in *.
  destruct (Nat.leb_spec (length (tr_in_pt s)) (tr_in_pos s + n)); destruct Ht as [Ht Hne]; simpl in *;
    split_and!; try done; try lia; intros Hr Hnil; by destruct (Hne Hlt Hr).
Qed.

Lemma wait_readable_spec s c :
  rest_ok s c → let '(s', p) := wait_readable s in poll_post s c s' (Some p).
Proof.
  intros Hok. unfold wait_readable, poll_read_ready. set (tcp := mkRestTcp _ _ _ _ _).
  assert (rest_ok (set_tcp tcp s) c) as Hok' by (by destruct Hok).
  split; [by destruct Hok'|]. split; [done|].
  destruct (rt_read_ready (tr_tcp s)) as [|r l] eqn:Hl; simpl; [split; [done|by exists c]|].
  destruct r; [by split; [|exists c]..|]. left. rewrite Hl. left.
Qed.

Lemma rest_ok_same s s' c :
  same_inbound s s' → rest_channel s' → rest_ok s c → rest_ok s' c.
Proof.
  intros (Hsr & _ & Hre & Hpr & Hpp & Hpt & Hpo) Hch [Hpos Hends (p & Hrd & ->) _].
  split; rewrite ?Hpo, ?Hpt, ?Hre, ?Hpr, ?Hpp; try done.
  exists p. split; [by eapply readable_same|done].
Qed.

(** Handing out plaintext that waits in the stream. *)
Lemma rest_ok_take s c room :
  rest_ok s c → (length (tr_prefix s) <= tr_prefix_pos s)%nat →
  let '(s', bytes) := take_in_pt room s in
  (∃ c', c = bytes ++ c' ∧ rest_ok s' c') ∧ rest_channel s' ∧ peer_has s' = peer_has s ∧
  tr_tls s' = tr_tls s ∧ (0 < room → bytes = [] → s' = s ∧ length (tr_in_pt s) <= tr_in_pos s)%nat.
Proof.
  intros [Hpos Hends (p & Hrd & ->) Hch] Hpre. pose proof (take_in_pt_spec room s Hpos) as Ht.
  destruct (take_in_pt room s) as [s' bytes]. destruct Ht as (Hd & Hpos' & Hs' & Hnil).
  assert (tr_tcp s' = tr_tcp s ∧ tr_tls s' = tr_tls s ∧ tr_prefix s' = tr_prefix s ∧
    tr_prefix_pos s' = tr_prefix_pos s ∧ tr_out_ct s' = tr_out_ct s ∧ tr_out_pos s' = tr_out_pos s)
    as (Htcp & Htls & Hp1 & Hp2 & Ho1 & Ho2) by (by rewrite Hs').
  assert (rest_channel s' ∧ peer_has s' = peer_has s) as [Hch' Hpe'].
  { apply rest_channel_intro. unfold all_ct. rewrite Htcp, Htls, Ho1, Ho2. exact Hch. }
  split_and!; [|done|done|done|].
  - exists (drop (tr_in_pos s') (tr_in_pt s') ++ p). split.
    + by rewrite (drop_ge _ _ Hpre), Hd, <-app_assoc.
    + split; rewrite ?Htcp, ?Htls, ?Hp1, ?Hp2; try done. exists p. by rewrite (drop_ge _ _ Hpre).
  - intros Hr Hb. destruct (Hnil Hr Hb) as (Hi & Hl & Hpt). split; [|done]. rewrite Hs', Hi, Hpt. by destruct s.
Qed.

(** Nothing buffered: what comes is what the session yields. *)
Definition drained s : Prop :=
  (length (tr_prefix s) <= tr_prefix_pos s)%nat ∧ (length (tr_in_pt s) <= tr_in_pos s)%nat.

Lemma drained_coming s c :
  drained s → rest_ok s c → readable (tr_tls s) (script_bytes (rt_reads (tr_tcp s))) c.
Proof. intros [Hp Hi] [_ _ (p & Hrd & ->) _]. by rewrite (drop_ge _ _ Hp), (drop_ge _ _ Hi). Qed.

Lemma faulty_from s s' :
  rt_read_ready (tr_tcp s') = tail (rt_read_ready (tr_tcp s)) →
  (∀ x, x = ReadInterrupted ∨ x = ReadError → x ∈ rt_reads (tr_tcp s') → x ∈ rt_reads (tr_tcp s)) →
  faulty s' → faulty s.
Proof.
  intros Hr Hx [Hf|[Hf|Hf]]; [left|right; left|right; right]; [|auto..].
  rewrite Hr in Hf. destruct (rt_read_ready (tr_tcp s)); [done|]. by right.
Qed.

Lemma unread_plain k bytes reads x :
  x = ReadInterrupted ∨ x = ReadError → x ∈ unread k bytes ++ reads → x ∈ ReadOk bytes :: reads.
Proof.
  intros Hx Hin. right. apply elem_of_app in Hin as [Hin|?]; [|done]. unfold unread in Hin.
  destruct (drop k bytes); [by apply elem_of_nil in Hin|]. apply list_elem_of_singleton in Hin.
  subst x. by destruct Hx.
Qed.

Lemma poll_post_from s1 s c s' p :
  peer_has s = peer_has s1 → (established (tr_tls s1) = true → established (tr_tls s) = true) →
  (faulty s → faulty s1) → poll_post s c s' p → poll_post s1 c s' p.
Proof.
  intros Hp He Hf (H1 & H2 & H3). split_and!; [done|congruence|].
  destruct p as [[reg|[bytes|e]]|]; try done; [..|by apply Hf]; destruct H3 as [H3 H4]; (split; [tauto|exact H4]).
Qed.

Lemma after_records_spec room s c :
  (0 < room)%nat → rest_ok s c → received (tr_tls s) = [] → (length (tr_prefix s) <= tr_prefix_pos s)%nat →
  let '(s', p) := after_records room s in poll_post s c s' p.
Proof.
  intros Hroom Hok Hnil Hpre. unfold after_records. pose proof (poll_flush_ct_spec s (ok_channel _ _ Hok)) as Hf.
  destruct (poll_flush_ct s) as [s1 [p1|]]; destruct Hf as [Hin Hch1 Hpe1 He1 Hret _]; [|done].
  pose proof (rest_ok_same _ _ _ Hin Hch1 Hok) as Hok1.
  destruct Hin as ((Hr1 & Hn1 & _) & Hrr1 & Hrd1 & Hp1 & Hp2 & _). rewrite Hnil in Hr1.
  assert (length (tr_prefix s1) <= tr_prefix_pos s1)%nat as Hpre1 by (by rewrite Hp1, Hp2).
  pose proof (rest_ok_take s1 c room Hok1 Hpre1) as Ht. destruct (take_in_pt room s1) as [s2 [|b bs]];
    destruct Ht as ((c' & Hc & Hok2) & Hch2 & Hpe2 & Ht2 & Hn2).
  - destruct (Hn2 Hroom eq_refl) as [-> Hdr]. simpl in Hc. subst c'.
    pose proof (drained_coming s1 c (conj Hpre1 Hdr) Hok1) as Hrd.
    destruct (reader_read_spec (tr_tls s1) _ c (16 * 1024) (Nat.lt_0_succ _) Hrd) as [[_ ->]|(t' & bs & p' & Hr & Hb & _)].
    + assert (set_tls (tr_tls s1) s1 = s1) as Hset by (by destruct s1). destruct (notified (tr_tls s1)) eqn:Hn.
      * rewrite Hset. split; [done|split; [done|]]. split; [by rewrite He1|]. exists c. split_and!; try done. intros _.
        pose proof (rd_yields _ _ _ Hrd) as Hy. rewrite notified_stops, Hr1 in Hy by done. congruence.
      * rewrite Hset. pose proof (wait_readable_spec s1 c Hok1) as Hw. destruct (wait_readable s1) as [s3 p3].
        eapply poll_post_from; [| | |exact Hw]; [done|by rewrite He1|]. unfold faulty. by rewrite Hrr1, Hrd1.
    + rewrite reader_empty in Hr by done. rewrite (rd_ended _ _ _ Hrd) in Hr.
      destruct (notified _); simplify_eq.
  - split; [done|split; [congruence|]]. split; [by rewrite Ht2, He1|]. by exists c'.
Qed.

Lemma read_records_spec room s c :
  (0 < room)%nat → rest_ok s c → received (tr_tls s) = [] → drained s →
  let '(s', p) := read_records room s in poll_post s c s' p.
Proof.
  intros Hroom Hok Hnil Hdr. unfold read_records, poll_read_ready. set (tcp1 := mkRestTcp _ _ _ _ _).
  set (s1 := set_tcp tcp1 s). assert (rest_ok s1 c) as Hok1 by (by destruct Hok).
  assert (peer_has s1 = peer_has s) as Hpe1 by done. assert (drained s1) as Hdr1 by done.
  assert (received (tr_tls s1) = []) as Hnil1 by done.
  destruct (default NotReady _) eqn:Hready; [|by split_and!; [apply Hok1|done|done|exists c]|].
  2:{ split_and!; [apply Hok1|done|]. left. destruct (rt_read_ready (tr_tcp s)); simpl in Hready; [done|]. subst. left. }
  unfold try_read. destruct (rt_reads (tr_tcp s1)) as [|r reads] eqn:Hreads.
  { set (tcp2 := mkRestTcp _ _ _ _ _). assert (rest_ok (set_tcp tcp2 s1) c) as Hok2.
    { destruct Hok1. split; try done; cbn; by rewrite Hreads in *. }
    pose proof (wait_readable_spec _ _ Hok2) as Hw. destruct (wait_readable _) as [s3 p3].
    eapply poll_post_from; [| | |exact Hw]; [done|done|]. apply faulty_from; [done|]. intros x _ Hin. by apply elem_of_nil in Hin. }
  pose proof (ok_ends _ _ Hok1) as Hends. rewrite Hreads in Hends.
  pose proof (drained_coming s1 c Hdr1 Hok1) as Hrd. rewrite Hreads in Hrd.
  assert (∀ reads', readable (tr_tls s1) (script_bytes reads') c → ends_once reads' →
    rest_ok (set_tcp (mkRestTcp (rt_read_ready tcp1) reads' (rt_write_ready tcp1) (rt_writes tcp1) (rt_wire tcp1)) s1) c)
    as Hnext.
  { intros reads' Hrd' Hends'. destruct Hok1 as [Hpos _ _ Hch]. split; try done. exists c. split; [done|].
    destruct Hdr as [Hd1 Hd2]. cbn. by rewrite (drop_ge _ _ Hd1), (drop_ge _ _ Hd2). }
  destruct r as [bytes| | |]; cbn [script_bytes] in Hrd.
  - set (reads2 := unread _ bytes ++ reads). set (s2 := set_tcp _ s1).
    assert (script_bytes reads2 = drop (16 * 1024) bytes ++ script_bytes reads) as Hs2 by apply script_unread.
    assert (ends_once reads2) as Hends2 by (by eapply ends_unread, ends_tail).
    destruct (take (16 * 1024) bytes) as [|b bs] eqn:Htk.
    + apply (take_pos_nil _ _ (Nat.lt_0_succ _)) in Htk. subst bytes.
      simpl in Hends, Hrd. rewrite Hends in Hrd.
      assert (c = []) as -> by (rewrite <-Hnil1; by apply readable_empty).
      split; [by apply Hok1|split; [done|]]. split; [done|]. exists []. split_and!; try done. apply Hnext; [|done].
      subst reads2. rewrite script_unread, drop_nil. simpl. by rewrite Hends.
    + rewrite <-(take_drop (16 * 1024) bytes), <-app_assoc, <-Hs2, Htk in Hrd.
      pose proof (drain_tls_records_grows (length (b :: bs)) (tr_tls s2) (b :: bs) (tr_in_pt s2)) as Hg.
      destruct (drain_tls_records_spec (length (b :: bs)) (tr_tls s2) (b :: bs) (script_bytes reads2) c (tr_in_pt s2) Hrd Hnil1
        ltac:(lia)) as (t3 & q & p' & Heq & Hc & Hrd3 & Hr3). rewrite Heq in Hg |- *.
      destruct Hg as [Hg He3]. destruct (grows_channel t3 s2 Hg (ok_channel _ _ Hok1)) as [Hch3 Hpe3].
      set (s3 := set_in_pt _ _ _). assert (rest_ok s3 c) as Hok3.
      { destruct Hok1 as [Hpos _ _ _]. destruct Hdr as [Hd1 Hd2]. split; try done.
        - cbn. rewrite length_app. cbn in Hpos. lia.
        - exists p'. split; [done|]. cbn in Hpos, Hd1, Hd2 |- *. rewrite (drop_ge _ _ Hd1), drop_app_le by lia.
          by rewrite (drop_ge _ _ Hd2), Hc. }
      pose proof (after_records_spec room s3 c Hroom Hok3 Hr3 (proj1 Hdr1)) as Ha.
      destruct (after_records room s3) as [s4 p4]. eapply poll_post_from; [| | |exact Ha]; [exact Hpe3|by apply He3|].
      apply faulty_from; [done|]. change (rt_reads (tr_tcp s)) with (rt_reads (tr_tcp s1)). rewrite Hreads.
      intros x. apply unread_plain.
  - pose proof (wait_readable_spec _ _ (Hnext reads Hrd Hends)) as Hw.
    destruct (wait_readable _) as [s3 p3]. eapply poll_post_from; [| | |exact Hw]; [done|done|].
    apply faulty_from; [done|]. change (rt_reads (tr_tcp s)) with (rt_reads (tr_tcp s1)). rewrite Hreads.
    intros x _ Hin. by right.
  - split_and!; [apply Hok1|done|]. right. left. change (rt_reads (tr_tcp s)) with (rt_reads (tr_tcp s1)).
    rewrite Hreads. left.
  - split_and!; [apply Hok1|done|]. right. right. change (rt_reads (tr_tcp s)) with (rt_reads (tr_tcp s1)).
    rewrite Hreads. left.
Qed.

Lemma tls_poll_read_spec room s c :
  (0 < room)%nat → rest_ok s c → let '(s', p) := tls_poll_read room s in poll_post s c s' p.
Proof.
  intros Hroom Hok. unfold tls_poll_read.
  destruct (Nat.ltb_spec (tr_prefix_pos s) (length (tr_prefix s))) as [Hlt|Hpre].
  { pose proof (take_buffered_spec room (tr_prefix s) (tr_prefix_pos s)) as Ht.
    destruct (take_buffered _ _ _) as [[prefix pos] bytes]. destruct Ht as [Hd Hne].
    destruct Hok as [Hpos Hends (p & Hrd & ->) Hch]. split; [done|split; [done|]]. split; [done|].
    eexists. split; [cbn [polled]; by rewrite Hd, <-app_assoc|]. split; [|by intros [= ->]; destruct (Hne Hlt Hroom)].
    split; try done. by exists p. }
  pose proof (rest_ok_take s c room Hok Hpre) as Ht. destruct (take_in_pt room s) as [s2 [|b bs]];
    destruct Ht as ((c' & Hc & Hok2) & Hch2 & Hpe2 & Ht2 & Hn2);
    [|split; [done|split; [done|]]; split; [by rewrite Ht2|]; by exists c'].
  destruct (Hn2 Hroom eq_refl) as [-> Hdr]. simpl in Hc. subst c'.
  pose proof (drained_coming s c (conj Hpre Hdr) Hok) as Hrd.
  destruct (reader_read_spec (tr_tls s) _ c (16 * 1024) (Nat.lt_0_succ _) Hrd) as [[Hnil ->]|(t' & bs & p' & Hr & Hb & -> & Hrd')].
  { assert (set_tls (tr_tls s) s = s) as Hset by (by destruct s).
    pose proof (read_records_spec room s c Hroom Hok Hnil (conj Hpre Hdr)) as Hrr.
    destruct (notified (tr_tls s)); by rewrite Hset. }
  rewrite Hr. destruct bs as [|b bs]; [done|]. destruct (reader_writes _ _ _ _ Hr) as (Hp & He & Hcar).
  destruct (grows_channel t' s (grows_same _ _ Hp Hcar) (ok_channel _ _ Hok)) as [Hch3 Hpe3].
  set (s3 := set_in_pt _ _ _). assert (rest_ok s3 ((b :: bs) ++ p')) as Hok3.
  { destruct Hok as [Hpos Hends _ _]. split; try done.
    - cbn. rewrite length_app. lia.
    - exists p'. split; [done|]. cbn. rewrite (drop_ge _ _ Hpre), drop_app_le by done. by rewrite (drop_ge _ _ Hdr). }
  pose proof (rest_ok_take s3 _ room Hok3 Hpre) as Ht. destruct (take_in_pt room s3) as [s4 bytes].
  destruct Ht as ((c' & Hc & Hok4) & Hch4 & Hpe4 & Ht4 & Hn4).
  split; [done|split; [rewrite Hpe4; exact Hpe3|]]. split; [rewrite Ht4; cbn; congruence|].
  exists c'. split_and!; try done. intros [= ->]. destruct (Hn4 Hroom eq_refl) as [_ Hl]. cbn in Hl.
  rewrite length_app in Hl. simpl in Hl. destruct Hok as [Hpos _ _ _]. lia.
Qed.

(** *** A poll makes progress *)









(** *** Reading to the end *)



(** ** Histories *)

(** What the HTTP stack does to its stream. *)
Inductive rest_op : Type :=
| PRead (room : nat)
| PWrite (buf : list Z)
| PFlush
| PShutdown.

Inductive Phase : Type := Alive | Closing | Dead.

(** The stream, the bytes read from it, those it accepted, and whether its end was
    reported. *)
Record RestWorld : Type := mkRestWorld {
  ro_stream : TlsRestStream T;
  ro_got : list Z;
  ro_accepted : list Z;
  ro_eof : bool;
  ro_phase : Phase
}.

(** An error ends the connection, and nothing is written after a shutdown. *)
Definition rest_step (w : RestWorld) (op : rest_op) : RestWorld :=
  let 'mkRestWorld s got accepted eof phase := w in
  match phase, op with
  | Dead, _ | Closing, PWrite _ => w
  | _, PRead room =>
      match tls_poll_read room s with
      | (s, None) | (s, Some (Ready (Err _))) => mkRestWorld s got accepted eof Dead
      | (s, Some p) =>
          mkRestWorld s (got ++ polled p) accepted
            (eof || match p with Ready (Ok []) => true | _ => false end) phase
      end
  | _, PWrite buf =>
      match tls_poll_write buf s with
      | (s, Some (Ready (Ok n))) => mkRestWorld s got (accepted ++ take n buf) eof phase
      | (s, Some (Pending _)) => mkRestWorld s got accepted eof phase
      | (s, _) => mkRestWorld s got accepted eof Dead
      end
  | _, PFlush =>
      match tls_poll_flush s with
      | (s, None) | (s, Some (Ready (Err _))) => mkRestWorld s got accepted eof Dead
      | (s, Some _) => mkRestWorld s got accepted eof phase
      end
  | _, PShutdown =>
      match tls_poll_shutdown s with
      | (s, None) | (s, Some (Ready (Err _))) => mkRestWorld s got accepted eof Dead
      | (s, Some _) => mkRestWorld s got accepted eof Closing
      end
  end.

Definition rest_run (s : TlsRestStream T) : list rest_op → RestWorld :=
  foldl rest_step (mkRestWorld s [] [] false Alive).

(** A reader offers room. *)
Definition with_room (op : rest_op) : Prop := match op with PRead room => (0 < room)%nat | _ => True end.

(** [all]: the bytes for the reader; [q]: what the peer had before. *)
Record rest_world_ok (all q : list Z) (w : RestWorld) : Prop := {
  rk_prefix : ro_got w `prefix_of` all;
  rk_eof : ro_eof w = true → ro_got w = all;
  rk_live : ro_phase w ≠ Dead →
    (∃ c, all = ro_got w ++ c ∧ rest_ok (ro_stream w) c) ∧ peer_has (ro_stream w) = q ++ ro_accepted w;
  rk_established : ro_phase w = Alive → established (tr_tls (ro_stream w)) = true
}.

Lemma tls_poll_write_spec buf s c :
  rest_ok s c → established (tr_tls s) = true →
  let '(s', p) := tls_poll_write buf s in
  (∃ e, p = Some (Ready (Err e))) ∨
  (∃ n, p = Some (Ready (Ok n)) ∧ (n <= length buf)%nat ∧ rest_ok s' c ∧
     peer_has s' = peer_has s ++ take n buf ∧ established (tr_tls s') = true).
Proof.
  intros Hok He. unfold tls_poll_write. destruct (writer_takes (tr_tls s) buf He) as (ct & t & Hw & Hp & _ & Het & Hc).
  set (n := Nat.min _ _) in *. rewrite Hw. pose proof (writer_write_reads _ _ _ _ Hw) as Hsr.
  assert (rest_channel (set_tls t s) ∧ peer_has (set_tls t s) = peer_has s ++ take n buf) as [Hch Hpe].
  { apply rest_channel_intro. unfold all_ct. cbn. rewrite Hp, !app_assoc. apply Hc.
    pose proof (ok_channel _ _ Hok) as Hch. unfold rest_channel, all_ct in Hch. by rewrite app_assoc in Hch. }
  assert (rest_ok (set_tls t s) c) as Hok1 by (eapply rest_ok_same; [|done|exact Hok]; split; [exact Hsr|done]).
  pose proof (poll_flush_ct_spec _ Hch) as Hf. destruct (poll_flush_ct (set_tls t s)) as [s2 p].
  destruct Hf as [Hin Hch2 Hpe2 He2 Hret _].
  assert (rest_ok s2 c) as Hok2 by by eapply rest_ok_same.
  destruct p as [[reg|[u|e]]|]; [right..|left; by eexists|done]; exists n; (split; [done|]; split; [lia|]);
    (split_and!; [done|congruence|by rewrite He2]).
Qed.

Lemma rest_step_ok all q w op : with_room op → rest_world_ok all q w → rest_world_ok all q (rest_step w op).
Proof.
  intros Hop Hw. destruct w as [s got accepted eof phase]. pose proof Hw as [Hpre Heof Hlive Hest]. simpl in *.
  assert (phase = Dead ∨ phase ≠ Dead) as [->|Hph] by (destruct phase; auto); [done|]. destruct (Hlive Hph) as [(c & -> & Hok) Hpeer].
  assert (∀ s', rest_world_ok (got ++ c) q (mkRestWorld s' got accepted eof Dead)) as Hdead by (by intros s').
  destruct op as [room|buf| |].
  - pose proof (tls_poll_read_spec room s c Hop Hok) as Hp.
    assert (rest_world_ok (got ++ c) q (match tls_poll_read room s with
      | (s, None) | (s, Some (Ready (Err _))) => mkRestWorld s got accepted eof Dead
      | (s, Some p) => mkRestWorld s (got ++ polled p) accepted
          (eof || match p with Ready (Ok []) => true | _ => false end) phase end)); [|by destruct phase].
    destruct (tls_poll_read room s) as [s' [p|]]; [|done]. destruct Hp as (Hch' & Hpe' & Hp).
    destruct p as [reg|[bytes|e]]; [..|done]; destruct Hp as (He' & c' & -> & Hok' & Hend).
    + simpl. rewrite app_nil_r, orb_false_r. split; simpl; try done; [|auto].
      intros _. split; [by exists c'|congruence].
    + simpl. split; simpl; [eexists; by rewrite <-app_assoc| | |auto].
      * destruct bytes; simpl; rewrite ?orb_true_r, ?orb_false_r.
        -- intros _. by rewrite (Hend eq_refl), !app_nil_r.
        -- intros ->. specialize (Heof eq_refl). apply (f_equal length) in Heof.
           rewrite length_app in Heof. simpl in Heof. lia.
      * intros _. split; [exists c'; by rewrite app_assoc|congruence].
  - destruct phase; [|done..]. pose proof (tls_poll_write_spec buf s c Hok (Hest eq_refl)) as Hp. simpl.
    destruct (tls_poll_write buf s) as [s' p]. destruct Hp as [(e & ->)|(n & -> & Hn & Hok' & Hpe' & He')]; [done|].
    split; simpl; try done. intros _. split; [by exists c|]. by rewrite Hpe', Hpeer, app_assoc.
  - pose proof (poll_flush_ct_spec s (ok_channel _ _ Hok)) as Hf.
    assert (rest_world_ok (got ++ c) q (match tls_poll_flush s with
      | (s, None) | (s, Some (Ready (Err _))) => mkRestWorld s got accepted eof Dead
      | (s, Some _) => mkRestWorld s got accepted eof phase end)); [|by destruct phase].
    unfold tls_poll_flush. destruct (poll_flush_ct s) as [s' p]. destruct Hf as [Hin Hch' Hpe' He' Hret _].
    assert (rest_ok s' c) as Hok' by by eapply rest_ok_same.
    destruct p as [[reg|[u|e]]|]; try done; (split; simpl; try done; [|by rewrite He'];
      intros _; split; [by exists c|congruence]).
  - destruct (notify_writes (tr_tls s)) as (ct & Hp & Hc).
    destruct (grows_channel (send_close_notify (tr_tls s)) s) as [Hch1 Hpe1]; [by exists ct|apply Hok|].
    set (s1 := set_tls _ s) in *. assert (rest_ok s1 c) as Hok1
      by (eapply rest_ok_same; [|done|exact Hok]; split; [apply notify_reads|done]).
    pose proof (poll_flush_ct_spec s1 Hch1) as Hf.
    assert (rest_world_ok (got ++ c) q (match tls_poll_shutdown s with
      | (s, None) | (s, Some (Ready (Err _))) => mkRestWorld s got accepted eof Dead
      | (s, Some _) => mkRestWorld s got accepted eof Closing end)); [|by destruct phase].
    unfold tls_poll_shutdown. fold s1. destruct (poll_flush_ct s1) as [s' p]. destruct Hf as [Hin Hch' Hpe' He' Hret _].
    assert (rest_ok s' c) as Hok' by by eapply rest_ok_same.
    destruct p as [[reg|[u|e]]|]; try done; (split; simpl; try done;
      intros _; split; [by exists c|congruence]).
Qed.

Lemma rest_run_ok s c ops :
  rest_ok s c → established (tr_tls s) = true → Forall with_room ops →
  rest_world_ok c (peer_has s) (rest_run s ops).
Proof.
  intros Hok He. unfold rest_run. set (w0 := mkRestWorld _ _ _ _ _).
  assert (rest_world_ok c (peer_has s) w0) as Hw0.
  { split; simpl; try done; [apply prefix_nil|]. intros _. rewrite app_nil_r. split; [by exists c|done]. }
  revert Hw0. generalize w0. induction ops as [|op ops IH]; intros w Hw Hops; simpl; [done|].
  inv Hops. apply IH; [|done]. by apply rest_step_ok.
Qed.

(** The stream of a hand-over holds the bytes its worker had read, and all that
    the session will yield. *)
Lemma hand_over_ok tcp t prefix p q :
  readable t (script_bytes (rt_reads tcp)) p → ends_once (rt_reads tcp) →
  carried t (rt_wire tcp ++ pending t) q →
  rest_ok (tls_rest_stream tcp t prefix) (prefix ++ p) ∧ peer_has (tls_rest_stream tcp t prefix) = q.
Proof.
  intros Hrd He Hc. destruct (rest_channel_intro (tls_rest_stream tcp t prefix) q) as [Hch Hp]; [exact Hc|].
  split; [|done]. split; try done. by exists p.
Qed.

(** C10. A TLS connection handed to the HTTP stack: however its stream is polled
    and however the socket answers, the bytes read are a start of those the
    worker had read followed by all that the session decrypts; the end is
    reported only after the last of them; and the peer decrypts exactly the bytes
    the stream accepted, all of them once a flush is done. *)
Theorem handed_over_stream_faithful (tcp : RestTcp) (t : T) (prefix p q : list Z) (ops : list rest_op) :
  readable t (script_bytes (rt_reads tcp)) p → ends_once (rt_reads tcp) →
  established t = true → carried t (rt_wire tcp ++ pending t) q → Forall with_room ops →
  let w := rest_run (tls_rest_stream tcp t prefix) ops in
  ro_got w `prefix_of` prefix ++ p ∧
  (ro_eof w = true → ro_got w = prefix ++ p) ∧
  (ro_phase w ≠ Dead →
   peer_has (ro_stream w) = q ++ ro_accepted w ∧
   let '(s, r) := tls_poll_flush (ro_stream w) in
   r ≠ None ∧
   (r = Some (Ready (Ok tt)) → peer_reads (rt_wire (tr_tcp s)) = q ++ ro_accepted w)).
Proof.
  intros Hrd Hends He Hc Hops w. destruct (hand_over_ok tcp t prefix p q Hrd Hends Hc) as [Hok <-].
  destruct (rest_run_ok _ _ ops Hok He Hops) as [Hpre Heof Hlive _]. fold w in Hpre, Heof, Hlive.
  split_and!; [done..|]. intros Hph. destruct (Hlive Hph) as [(c & Hall & Hokw) Hpeer]. split; [done|].
  pose proof (poll_flush_ct_spec _ (ok_channel _ _ Hokw)) as Hf. unfold tls_poll_flush.
  destruct (poll_flush_ct (ro_stream w)) as [s r]. destruct Hf as [_ _ Hpe _ Hret Hready].
  split; [done|]. intros Hr. destruct (Hready Hr) as [Ho Hp]. unfold peer_has, all_ct in Hpe.
  rewrite Ho, Hp, !app_nil_r in Hpe. rewrite Hpe. exact Hpeer.
Qed.

(** *** The end is reached *)










(** *** A full session *)

(** Nothing is flushed while buffered ciphertext waits for the socket. *)
Lemma poll_flush_ct_blocked s ready :
  rt_write_ready (tr_tcp s) = NotReady :: ready → (tr_out_pos s < length (tr_out_ct s))%nat →
  ∃ s', poll_flush_ct s = (s', Some (Pending true)) ∧ rt_write_ready (tr_tcp s') = ready ∧
    rt_wire (tr_tcp s') = rt_wire (tr_tcp s) ∧ tr_tls s' = tr_tls s ∧
    tr_out_ct s' = tr_out_ct s ∧ tr_out_pos s' = tr_out_pos s.
Proof.
  intros Hready Hout. unfold poll_flush_ct. cbn [flush_ct]. rewrite Hready. apply Nat.ltb_lt in Hout.
  cbn [write_buffered]. rewrite Hout. by eexists.
Qed.

Lemma blocked_write s ready buf :
  established (tr_tls s) = true → rt_write_ready (tr_tcp s) = NotReady :: ready →
  (tr_out_pos s < length (tr_out_ct s))%nat →
  ∃ s', tls_poll_write buf s = (s', Some (Ready (Ok
      (Nat.min (length buf) (sendable_limit - length (pending (tr_tls s))))))) ∧
    (length (pending (tr_tls s)) + Nat.min (length buf) (sendable_limit - length (pending (tr_tls s))) <=
      length (pending (tr_tls s')))%nat ∧
    established (tr_tls s') = true ∧ rt_write_ready (tr_tcp s') = ready ∧
    rt_wire (tr_tcp s') = rt_wire (tr_tcp s) ∧ (tr_out_pos s' < length (tr_out_ct s'))%nat.
Proof.
  intros He Hready Hout. unfold tls_poll_write.
  destruct (writer_takes (tr_tls s) buf He) as (ct & t & Hw & Hp & Hn & Het & _). rewrite Hw.
  destruct (poll_flush_ct_blocked (set_tls t s) ready Hready Hout) as (s' & -> & Hr & Hwire & Htls & Hct & Hpos).
  exists s'. split; [done|]. rewrite Htls. cbn [set_tls tr_tls]. rewrite Hp, length_app.
  split_and!; [lia|done..|]. rewrite Hct, Hpos. exact Hout.
Qed.

(** The first write of a stream goes to its buffer when the socket blocks. *)
Lemma first_write s ready buf :
  established (tr_tls s) = true → rt_write_ready (tr_tcp s) = NotReady :: ready →
  tr_out_ct s = [] → buf ≠ [] →
  ∃ s' n, tls_poll_write buf s = (s', Some (Ready (Ok n))) ∧
    established (tr_tls s') = true ∧ rt_write_ready (tr_tcp s') = ready ∧
    rt_wire (tr_tcp s') = rt_wire (tr_tcp s) ∧ (tr_out_pos s' < length (tr_out_ct s'))%nat.
Proof.
  intros He Hready Hout Hbuf. unfold tls_poll_write.
  destruct (writer_takes (tr_tls s) buf He) as (ct & t & Hw & Hp & Hn & Het & _). rewrite Hw.
  assert (pending t ≠ []) as Hne.
  { rewrite Hp. intros Hnil. apply app_eq_nil in Hnil as [Hnil ->]. rewrite Hnil in Hn. cbn [length] in Hn.
    pose proof sendable_some. destruct buf; [done|]. cbn [length] in Hn. lia. }
  destruct (write_tls_to_vec t Hne) as (k & t' & Hk & Hv & _ & Het' & _).
  unfold poll_flush_ct. cbn [flush_ct set_tls set_tcp set_out_ct tr_tcp tr_tls tr_out_ct tr_out_pos rt_write_ready].
  rewrite Hout, Hready. cbn [write_buffered length Nat.ltb Nat.leb].
  cbn [set_tls set_tcp set_out_ct tr_tls]. rewrite wants_pending, bool_decide_eq_true_2, Hv by done. cbn [negb].
  destruct (take k (pending t)) as [|b bs] eqn:Htk.
  { apply (f_equal length) in Htk. rewrite length_take in Htk. simpl in Htk. lia. }
  cbn [flush_ct set_tls set_tcp set_out_ct tr_tcp tr_tls tr_out_ct tr_out_pos rt_write_ready rt_writes rt_wire].
  cbn [write_buffered length Nat.ltb Nat.leb]. eexists _, _. split; [done|].
  split_and!; [cbn; congruence|done..|]. cbn. lia.
Qed.

(** A write the stream cannot take is not left pending: after two writes to
    a socket that takes nothing, the second as long as a session may hold, a
    further write is answered at once, with no byte written, however long it
    is. *)
Theorem tls_rest_write_zero (tcp : RestTcp) (t : T) (prefix b1 b2 b3 : list Z) (ready : list Readiness) :
  established t = true → rt_write_ready tcp = NotReady :: NotReady :: NotReady :: ready →
  b1 ≠ [] → (sendable_limit <= length b2)%nat →
  ∃ s1 n1 s2 n2 s3,
    tls_poll_write b1 (tls_rest_stream tcp t prefix) = (s1, Some (Ready (Ok n1))) ∧
    tls_poll_write b2 s1 = (s2, Some (Ready (Ok n2))) ∧
    tls_poll_write b3 s2 = (s3, Some (Ready (Ok 0%nat))) ∧
    rt_wire (tr_tcp s3) = rt_wire tcp.
Proof.
  intros He Hready Hb1 Hb2.
  destruct (first_write (tls_rest_stream tcp t prefix) _ b1 He Hready eq_refl Hb1)
    as (s1 & n1 & Hw1 & He1 & Hr1 & Hwire1 & Ho1).
  destruct (blocked_write s1 _ b2 He1 Hr1 Ho1) as (s2 & Hw2 & Hp2 & He2 & Hr2 & Hwire2 & Ho2).
  destruct (blocked_write s2 _ b3 He2 Hr2 Ho2) as (s3 & Hw3 & _ & _ & _ & Hwire3 & _).
  replace (Nat.min (length b3) _) with 0%nat in Hw3 by lia.
  exists s1, n1, s2. eexists. exists s3. split_and!; [done..|]. by rewrite Hwire3, Hwire2.
Qed.

End tls_reading.
