(* ===== verification/TlsWitness.v ===== *)
(** * TLS connections at concrete inputs

    A concrete instance of the interface of [Rustls], on which the theorems about
    TLS connections are run. A record is a length of at most a hundred and that
    many bytes; a zero is the [close_notify]; any other head is an error. The
    session takes four bytes per read, holds eight bytes of plaintext and
    sixteen bytes of records. *)

From S2P Require Import Prelude RustStd Frame Outbound Inbound Rustls ConnTls TlsProps RestStream StreamProps.

(** ** Records *)

Inductive Deframer : Type := Idle | Within (n : nat) | Notified | Failed.

#[export] Instance Deframer_eq_dec : EqDecision Deframer.
Proof. solve_decision. Defined.

Definition deframe (d : Deframer) (b : Z) : Deframer * list Z :=
  match d with
  | Idle =>
      (if (b =? 0)%Z then Notified
       else if (0 <? b)%Z && (b <=? 100)%Z then Within (Z.to_nat b) else Failed, [])
  | Within n => (match n with O | 1 => Idle | S n => Within n end, [b])
  | Notified => (Notified, [])
  | Failed => (Failed, [])
  end.

Fixpoint feed (d : Deframer) (bytes : list Z) : Deframer * list Z :=
  match bytes with
  | [] => (d, [])
  | b :: bytes =>
      let '(d, now) := deframe d b in
      let '(d, later) := feed d bytes in (d, now ++ later)
  end.

Lemma feed_app d b1 b2 :
  feed d (b1 ++ b2) =
  let '(d1, p1) := feed d b1 in let '(d2, p2) := feed d1 b2 in (d2, p1 ++ p2).
Proof.
  revert d. induction b1 as [|b b1 IH]; intros d; simpl; [by destruct (feed d b2)|].
  destruct (deframe d b) as [d1 now]. rewrite IH. destruct (feed d1 b1) as [d2 p1].
  destruct (feed d2 b2) as [d3 p2]. by rewrite app_assoc.
Qed.

Lemma feed_stuck d bytes : d = Notified ∨ d = Failed → feed d bytes = (d, []).
Proof. intros Hd. induction bytes as [|b bytes IH]; simpl; [done|]. destruct Hd as [-> | ->]; simpl in *; by rewrite IH. Qed.

(** One record carries its bytes. *)
Lemma feed_within bytes : bytes ≠ [] → feed (Within (length bytes)) bytes = (Idle, bytes).
Proof.
  induction bytes as [|b bytes IH]; [done|]. intros _. destruct bytes as [|b' bytes]; [done|].
  change (feed (Within (length (b :: b' :: bytes))) (b :: b' :: bytes)) with
    (let '(d, later) := feed (Within (length (b' :: bytes))) (b' :: bytes) in (d, [b] ++ later)).
  by rewrite IH.
Qed.

(** ** The session *)

Record DemoSession : Type := mkDemoSession {
  ss_deframer : Deframer;
  ss_taken : list Z;
  ss_plain : list Z;
  ss_ended : bool;
  ss_records : list Z;
  ss_closing : bool
}.

Definition session_limit : nat := 8.
Definition records_limit : nat := 16.

Definition fresh : DemoSession := mkDemoSession Idle [] [] false [] false.

Definition demo_read_tls (t : DemoSession) (a : ReadResult)
    : DemoSession * list ReadResult * result nat IoKind :=
  let 'mkDemoSession d taken plain ended records closing := t in
  if (session_limit <? length plain)%nat then (t, [a], Err KOther)
  else if bool_decide (d = Notified) then (t, [a], Ok 0%nat)
  else
    match a with
    | ReadOk [] => (mkDemoSession d taken plain true records closing, [], Ok 0%nat)
    | ReadOk bytes =>
        let k := Nat.min 4 (length bytes) in
        (mkDemoSession d (taken ++ take k bytes) plain ended records closing, unread k bytes, Ok k)
    | ReadWouldBlock => (t, [], Err KWouldBlock)
    | ReadInterrupted => (t, [], Err KInterrupted)
    | ReadError => (t, [], Err KOther)
    end.

Definition demo_process (t : DemoSession) : DemoSession * bool :=
  let 'mkDemoSession d taken plain ended records closing := t in
  let '(d, more) := feed d taken in
  (mkDemoSession d [] (plain ++ more) ended records closing, negb (bool_decide (d = Failed))).

Definition demo_reader (t : DemoSession) (n : nat) : DemoSession * result (list Z) IoKind :=
  let 'mkDemoSession d taken plain ended records closing := t in
  match plain with
  | [] => (t, if bool_decide (d = Notified) then Ok [] else if ended then Err KOther else Err KWouldBlock)
  | _ =>
      let k := Nat.min n (length plain) in
      (mkDemoSession d taken (drop k plain) ended records closing, Ok (take k plain))
  end.

Definition demo_write_tls (t : DemoSession) (a : IoResult) : DemoSession * list Z * result nat IoKind :=
  let 'mkDemoSession d taken plain ended records closing := t in
  match a with
  | Room n =>
      let k := Nat.min n (length records) in
      (mkDemoSession d taken plain ended (drop k records) closing, take k records, Ok k)
  | IoWouldBlock => (t, [], Err KWouldBlock)
  | IoInterrupted => (t, [], Err KInterrupted)
  | IoError => (t, [], Err KOther)
  end.

(** A record for the first [n] bytes. *)
Definition seal (n : nat) (bytes : list Z) : list Z :=
  match n with O => [] | _ => Z.of_nat n :: take n bytes end.

Definition demo_writer (t : DemoSession) (bytes : list Z) : DemoSession * result nat IoKind :=
  let 'mkDemoSession d taken plain ended records closing := t in
  let n := Nat.min (length bytes) (records_limit - length records) in
  (mkDemoSession d taken plain ended (records ++ seal n bytes) closing, Ok n).

#[export] Instance demo_rustls : Rustls DemoSession := {
  read_tls := demo_read_tls;
  process_new_packets := demo_process;
  plaintext_bytes_to_read t := length (ss_plain t);
  reader_read := demo_reader;
  wants_write t := bool_decide (ss_records t ≠ []);
  write_tls := demo_write_tls;
  write_tls_vec t :=
    (mkDemoSession (ss_deframer t) (ss_taken t) (ss_plain t) (ss_ended t) [] (ss_closing t), ss_records t);
  writer_write := demo_writer;
  send_close_notify t :=
    mkDemoSession (ss_deframer t) (ss_taken t) (ss_plain t) (ss_ended t) (ss_records t ++ [0%Z]) true
}.

(** ** Its reads *)

Definition demo_yields (t : DemoSession) (cs : list Z) : option (list Z) :=
  let '(d, more) := feed (ss_deframer t) (ss_taken t ++ cs) in
  if bool_decide (d = Failed) then None else Some (ss_plain t ++ more).

Lemma feed_failed d bytes more : (feed d bytes).1 = Failed → (feed d (bytes ++ more)).1 = Failed.
Proof.
  intros Hf. rewrite feed_app. destruct (feed d bytes) as [d1 p1]. simpl in Hf. subst d1.
  by rewrite feed_stuck by tauto.
Qed.

#[export] Program Instance demo_reads : RustlsReads DemoSession := {
  received := ss_plain;
  yields := demo_yields;
  notified t := bool_decide (ss_deframer t = Notified);
  ended := ss_ended;
  processed t := bool_decide (ss_taken t = []);
  plaintext_limit := session_limit
}.
Next Obligation. done. Qed.
Next Obligation.
  intros [d taken plain ended records closing] cs p. unfold demo_yields. simpl.
  destruct (feed _ _) as [d' more]. case_bool_decide; [done|]. intros [= <-]. by eexists.
Qed.
Next Obligation.
  intros [d taken plain ended records closing] cs Hn. apply bool_decide_eq_true in Hn. simpl in Hn. subst d.
  unfold demo_yields. simpl. rewrite feed_stuck by tauto. by rewrite app_nil_r.
Qed.
Next Obligation.
  intros [d taken plain ended records closing] a Hl. simpl in *.
  by rewrite (proj2 (Nat.ltb_lt session_limit (length plain))).
Qed.
Next Obligation.
  intros [d taken plain ended records closing] a Hl Hn. simpl in *.
  rewrite (proj2 (Nat.ltb_ge session_limit (length plain))) by done. by rewrite Hn.
Qed.
Next Obligation.
  intros [d taken plain ended records closing] bytes Hl Hn Hp Hb. simpl in *.
  apply bool_decide_eq_true in Hp. subst taken. destruct bytes as [|b bs]; [done|].
  exists (Nat.min 4 (length (b :: bs))), (mkDemoSession d (take (Nat.min 4 (length (b :: bs))) (b :: bs)) plain ended records closing).
  rewrite (proj2 (Nat.ltb_ge session_limit (length plain))), Hn by done.
  assert (0 < length (b :: bs))%nat by (simpl; lia). split; [lia|]. split_and!; try done.
  intros cs. unfold demo_yields. cbn [ss_deframer ss_taken ss_plain app].
  by rewrite app_assoc, take_drop.
Qed.
Next Obligation.
  intros [d taken plain ended records closing] Hl Hn Hp. simpl in *.
  rewrite (proj2 (Nat.ltb_ge session_limit (length plain))), Hn by done.
  eexists. split; [done|]. by split_and!.
Qed.
Next Obligation.
  intros [d taken plain ended records closing] Hl Hn. simpl in *.
  by rewrite (proj2 (Nat.ltb_ge session_limit (length plain))), Hn by done.
Qed.
Next Obligation.
  intros [d taken plain ended records closing] t' Hpr. simpl in *.
  destruct (feed d taken) as [d1 more] eqn:Hf. simplify_eq/=. case_bool_decide as Hd; [done|].
  unfold demo_yields. simpl. rewrite app_nil_r, Hf, bool_decide_eq_false_2 by done.
  split_and!; try done. intros cs. rewrite feed_app, Hf. destruct (feed d1 cs) as [d2 p2].
  case_bool_decide; [done|]. by rewrite app_assoc.
Qed.
Next Obligation.
  intros [d taken plain ended records closing] t' cs Hpr. simpl in *.
  pose proof (feed_failed d taken cs) as Hff. destruct (feed d taken) as [d1 more]. simplify_eq/=.
  case_bool_decide as Hd; [|done]. unfold demo_yields. simpl. subst d1.
  destruct (feed d (taken ++ cs)) as [d2 p2]. simpl in Hff. by rewrite Hff.
Qed.
Next Obligation.
  intros [d taken plain ended records closing] n Hn Hne. simpl in *. destruct plain as [|b plain]; [done|].
  exists (Nat.min n (length (b :: plain))), (mkDemoSession d taken (drop (Nat.min n (length (b :: plain))) (b :: plain)) ended records closing).
  assert (0 < length (b :: plain))%nat by (simpl; lia). split; [lia|]. split; [lia|]. split_and!; try done. intros cs. unfold demo_yields.
  cbn [ss_deframer ss_taken ss_plain]. destruct (feed d (taken ++ cs)) as [d2 p2]. case_bool_decide; [done|].
  cbn [fmap option_fmap option_map]. by rewrite drop_app_le by lia.
Qed.
Next Obligation. intros [d taken plain ended records closing] n Hp. simpl in *. by subst plain. Qed.

(** ** Its writes *)

Definition demo_carried (t : DemoSession) (sent p : list Z) : Prop :=
  feed Idle sent = (if ss_closing t then Notified else Idle, p).

Lemma feed_seal n bytes :
  (n <= records_limit)%nat → (n <= length bytes)%nat → feed Idle (seal n bytes) = (Idle, take n bytes).
Proof.
  intros Hn Hl. unfold records_limit in Hn. destruct n as [|n]; [done|]. cbn [seal feed deframe].
  rewrite (proj2 (Z.eqb_neq _ _)) by lia.
  rewrite (proj2 (Z.ltb_lt 0 _)), (proj2 (Z.leb_le _ 100)) by lia. cbn [andb]. rewrite Nat2Z.id.
  assert (length (take (S n) bytes) = S n) as Hlen by (rewrite length_take; lia).
  rewrite <-Hlen at 1. rewrite feed_within; [done|]. by intros Hnil; rewrite Hnil in Hlen.
Qed.

#[export] Program Instance demo_writes : RustlsWrites DemoSession := {
  pending := ss_records;
  carried := demo_carried;
  peer_reads sent := (feed Idle sent).2;
  established t := negb (ss_closing t);
  sendable_limit := records_limit
}.
Next Obligation. done. Qed.
Next Obligation. done. Qed.
Next Obligation. intros t sent p Hc. unfold demo_carried in Hc. simpl. by rewrite Hc. Qed.
Next Obligation.
  intros [d taken plain ended records closing] n Hp Hn. simpl in *.
  assert (0 < length records)%nat by (destruct records; [done|simpl; lia]).
  eexists (Nat.min n (length records)), _. split; [lia|]. split; [lia|]. by split_and!.
Qed.
Next Obligation.
  intros [d taken plain ended records closing] Hp. simpl in *. exists (length records).
  eexists. split; [destruct records; [done|simpl; lia]|]. rewrite firstn_all, drop_all. by split_and!.
Qed.
Next Obligation. by intros [d taken plain ended records closing]. Qed.
Next Obligation. by intros [d taken plain ended records closing]. Qed.
Next Obligation.
  intros [d taken plain ended records closing] bytes He. simpl in *. apply negb_true_iff in He. subst closing.
  set (n := Nat.min _ _). exists (seal n bytes). eexists. split; [done|].
  split_and!; [done| |done|].
  { assert (n <= length bytes)%nat as Hn by lia. clearbody n. destruct n as [|n]; [simpl; lia|].
    cbn [seal length]. rewrite length_take. lia. }
  intros sent p Hc. unfold demo_carried in *. simpl in *.
  rewrite feed_app, Hc, feed_seal by (subst n; lia). done.
Qed.
Next Obligation.
  intros [d taken plain ended records closing] t' ok Hpr. simpl in *. destruct (feed d taken) as [d1 more].
  simplify_eq. exists []. rewrite app_nil_r. split_and!; [done..|]. intros sent p. by rewrite app_nil_r.
Qed.
Next Obligation.
  intros [d taken plain ended records closing]. exists [0%Z]. split; [done|]. intros sent p Hc.
  unfold demo_carried in *. simpl in *. rewrite feed_app, Hc. destruct closing; simpl; by rewrite app_nil_r.
Qed.
Next Obligation.
  intros [d taken plain ended records closing] a t' rest r Hr. simpl in *.
  repeat case_match; simplify_eq; done.
Qed.
Next Obligation.
  intros [d taken plain ended records closing] n t' r Hr. simpl in *.
  repeat case_match; simplify_eq; done.
Qed.

#[export] Instance demo_duplex : RustlsDuplex DemoSession.
Proof.
  split.
  - intros [d taken plain ended records closing] a t' out r Hw. simpl in *. repeat case_match; simplify_eq; done.
  - intros [d taken plain ended records closing] t' out Hw. simpl in *. simplify_eq. done.
  - by intros [d taken plain ended records closing].
  - intros [d taken plain ended records closing] bytes t' r Hw. simpl in *. simplify_eq. done.
Qed.

Module TlsDemo.

(** Two frames are queued, one while the first is half written. *)
Definition ops : list tls_op :=
  [TQueue [1; 2; 3]%Z 0; TFlush [Room 2; IoWouldBlock] 1; TQueue [4; 5]%Z 2;
   TRead [ReadOk [1; 129]%Z] [Room 1] 100; TTakeOutbound; TFlush [Room 9; Room 9] 3].

Definition socket_of (w : TlsWorld (T := DemoSession)) : TcpStream := io_tcp (tc_io (tw_conn w)).

(** A connection with one queued frame. *)
Definition one_frame : Connection := (queue [7; 8]%Z 0 (Connection_new 100)).1.

Definition io (cs : list Z) : TlsIo DemoSession := mkTlsIo fresh [ReadOk cs] (mkTcpStream [] []).

End TlsDemo.

Lemma tls_stream_integrity_witness :
  ∃ w sent, tls_run fresh 100 CodelParams_DISABLED TlsDemo.ops = Some w ∧ peer_reads (tcp_wire (TlsDemo.socket_of w)) = bytes_of sent ∧
    sublist sent (tw_queued w).
Proof.
  destruct (tls_stream_integrity fresh 100 CodelParams_DISABLED TlsDemo.ops) as (w & Hw & _ & _ & _ & Hd).
  - reflexivity.
  - reflexivity.
  - reflexivity.
  - repeat constructor.
  - assert ((λ w, (tw_open w, has_pending_writes (tw_conn w))) <$>
      tls_run fresh 100 CodelParams_DISABLED TlsDemo.ops = Some (true, false)) as Ho by by_eval.
    rewrite Hw in Ho. injection Ho as Ho Hp.
    destruct (Hd Ho Hp) as (sent & Hpe & Hs & _). exists w, sent. split; [exact Hw|]. split; [exact Hpe|exact Hs].
Defined.

Lemma tls_interrupt_duplicates_witness :
  ∃ m, let c := mkTlsConnection TlsDemo.one_frame
         (mkTlsIo fresh [] (mkTcpStream (IoInterrupted :: replicate m (Room 1)) [])) in
    let '(c', st) := flush_tls 1 c in
    st = Some Drained ∧ out (tc_conn c') = [] ∧ pending (io_tls (tc_io c')) = [] ∧
    peer_reads (tcp_wire (io_tcp (tc_io c'))) = [7; 8; 7; 8]%Z.
Proof.
  apply (tls_interrupt_duplicates fresh [] [] [7; 8]%Z TlsDemo.one_frame 0 1); try reflexivity.
  - discriminate.
  - vm_compute. lia.
Defined.

(** Three bytes are read; nine are one too many. *)
Lemma tls_read_takes_or_closes_witness :
  (∃ io', read_frames_tls (TlsDemo.io [3; 1; 2; 3]%Z) [] 100 =
     (let '(rest, r) := frames_available [1; 2; 3]%Z (notified (io_tls io')) 100 in (io', rest, Some r))) ∧
  (∃ io', read_frames_tls (TlsDemo.io [9; 1; 2; 3; 4; 5; 6; 7; 8; 9]%Z) [] 100 =
     (io', [], Some (Err ConnClosed))).
Proof.
  split.
  - destruct (tls_read_takes_or_closes (TlsDemo.io [3; 1; 2; 3]%Z) [] 100 [3; 1; 2; 3]%Z [1; 2; 3]%Z)
      as [Hle _]; try reflexivity; [by split|constructor|].
    destruct Hle as (io' & io'' & st & _ & Hr & _); [vm_compute; lia|]. exists io'. exact Hr.
  - destruct (tls_read_takes_or_closes (TlsDemo.io [9; 1; 2; 3; 4; 5; 6; 7; 8; 9]%Z) [] 100
      [9; 1; 2; 3; 4; 5; 6; 7; 8; 9]%Z [1; 2; 3; 4; 5; 6; 7; 8; 9]%Z)
      as [_ Hgt]; try reflexivity; [by split|constructor|].
    destruct Hgt as (io' & Hr & _); [vm_compute; lia|]. exists io'. exact Hr.
Defined.

(** A request handed over with three bytes already read; its socket splits the
    records, blocks once and ends. *)
Module StreamDemo.

Definition tcp : RestTcp :=
  mkRestTcp (replicate 60 ReadyNow) [ReadOk [2; 4]%Z; ReadOk [5; 1]%Z; ReadOk [6]%Z; ReadOk []]
    (replicate 20 ReadyNow) (replicate 20 (Room 3)) [].

Definition ops : list rest_op :=
  [PRead 2; PWrite [9; 9; 9]%Z; PRead 5; PRead 5; PRead 5; PFlush; PRead 5; PRead 5].

(** The record the worker saw the head of goes on. *)
Definition rest : RestTcp :=
  mkRestTcp (replicate 60 ReadyNow) [ReadOk [3; 2]%Z; ReadOk [4; 5; 1]%Z; ReadOk [6]%Z; ReadOk []]
    (replicate 20 ReadyNow) [] [].

Definition blocked : RestTcp := mkRestTcp [] [] [NotReady; NotReady; NotReady] [] [].

End StreamDemo.

Lemma handed_over_stream_faithful_witness :
  let w := rest_run (tls_rest_stream StreamDemo.tcp fresh [1; 2; 3]%Z) StreamDemo.ops in
  ro_got w = [1; 2; 3; 4; 5; 6]%Z ∧ peer_has (ro_stream w) = [9; 9; 9]%Z.
Proof.
  destruct (handed_over_stream_faithful StreamDemo.tcp fresh [1; 2; 3]%Z [4; 5; 6]%Z [] StreamDemo.ops)
    as (_ & He & Hl).
  - by split.
  - reflexivity.
  - reflexivity.
  - reflexivity.
  - repeat constructor.
  - split; [apply He; vm_compute; reflexivity|]. destruct Hl as [Hp _]; [by vm_compute|exact Hp].
Defined.


Lemma tls_rest_write_zero_witness :
  ∃ s1 n1 s2 n2 s3,
    tls_poll_write [1]%Z (tls_rest_stream StreamDemo.blocked fresh []) = (s1, Some (Ready (Ok n1))) ∧
    tls_poll_write (replicate 16 7)%Z s1 = (s2, Some (Ready (Ok n2))) ∧
    tls_poll_write [8; 9]%Z s2 = (s3, Some (Ready (Ok 0%nat))) ∧
    rt_wire (tr_tcp s3) = [].
Proof.
  apply (tls_rest_write_zero StreamDemo.blocked fresh [] [1]%Z (replicate 16 7)%Z [8; 9]%Z []);
    try reflexivity; discriminate.
Defined.
