(* ===== verification/Links.v ===== *)
(** * What every write of a connection keeps

    Lemmas on the entries of Inbound.v, for the worker's ledger: each operation
    moves a connection's deltas and its accounted bytes equally, keeps the
    stream well formed, and leaves a connection that stays open with its write
    interest armed whenever bytes are owed. *)

From S2P Require Import Prelude RustStd Json Protocol Frame Outbound Fanout Mailbox Adapter Auth App Rate Handler Inbound.
#[local] Open Scope Z_scope.

(** ** Drop counters only grow *)

Lemma complete_counts batch : ∀ cursor n c,
  let c' := (complete batch cursor n c).2 in
  codel_dropped c' = codel_dropped c ∧ drophead_dropped c' = drophead_dropped c.
Proof.
  induction batch as [|f batch IH]; intros cursor n c; simpl; [done|].
  destruct (n <? _)%nat; [done|].
  destruct (IH 0%nat (n - (length f.1 - cursor))%nat (bill (- flen f) c)) as [H1 H2]. simpl in H1, H2. by rewrite H1, H2.
Qed.

Lemma apply_write_counts batch cursor n c :
  let c' := apply_write batch cursor n c in
  codel_dropped c' = codel_dropped c ∧ drophead_dropped c' = drophead_dropped c.
Proof.
  unfold apply_write. pose proof (complete_counts batch cursor n c) as Hc.
  destruct (complete batch cursor n c) as [[[tail cur] n'] c']. by destruct tail.
Qed.

Lemma codel_dequeue_counts fl now c :
  let c' := codel_dequeue fl now c in
  codel_dropped c <= codel_dropped c' ∧ drophead_dropped c' = drophead_dropped c.
Proof. destruct (codel_dequeue_spec fl now c) as (d & [] & _). simpl. split; [lia|done]. Qed.

Lemma gather_counts fuel : ∀ cursor max now batch bytes c,
  let c' := (gather fuel cursor max now batch bytes c).2 in
  codel_dropped c <= codel_dropped c' ∧ drophead_dropped c' = drophead_dropped c.
Proof.
  induction fuel as [|fuel IH]; intros cursor max now batch bytes c; simpl; [split; [lia|done]|].
  destruct (out c) as [|front rest]; [simpl; split; [lia|done]|]. destruct (_ && _); [simpl; split; [lia|done]|].
  set (fl := _ && bool_decide _). destruct (codel_dequeue_counts fl now (set_out rest c)) as [H1 H2]. simpl in H1, H2.
  destruct (IH cursor max now (batch ++ [front]) (bytes + (flen front - (if bool_decide (batch = []) then Z.of_nat cursor else 0)))
    (codel_dequeue fl now (set_out rest c))) as [H3 H4]. split; [lia|congruence].
Qed.

Lemma flush_counts sink max now : ∀ c wire,
  let c' := (flush_script sink max now c wire).1.1.1 in
  codel_dropped c <= codel_dropped c' ∧ drophead_dropped c' = drophead_dropped c.
Proof.
  induction sink as [|r sink IH]; intros c wire; rewrite flush_script_eq; simpl;
    destruct (codel_dequeue_counts (0 <? out_cursor c)%nat now c) as [H1 H2]; set (c1 := codel_dequeue _ now c) in *;
    (destruct (out c1) eqn:Ho; [done|]); rewrite <-Ho in *;
    destruct (gather_counts (length (out c1)) (out_cursor c1) max now [] 0 c1) as [H3 H4];
    destruct (gather _ _ _ _ _ _ _) as [[batch bytes] c2]; simpl in H3, H4.
  - simpl. split; [lia|congruence].
  - destruct r as [room| | |]; simpl; try (split; [lia|congruence]).
    + destruct (_ =? 0)%nat; simpl; [split; [lia|congruence]|].
      set (n := Nat.min _ _). destruct (apply_write_counts batch (out_cursor c1) n c2) as [H5 H6].
      destruct (IH (apply_write batch (out_cursor c1) n c2) (wire ++ take n (offered (out_cursor c1) batch))) as [H7 H8].
      split; [lia|congruence].
    + destruct (IH (restore_batch batch c2) wire) as [H7 H8]. simpl in H7, H8. split; [lia|congruence].
Qed.

(** ** Entries *)

Abbreviation conn_of e := (li_conn (en_link e)).

Record conn_ok (wire : list Z) (c : Connection) : Prop := {
  co_stream : ∃ queued sent, stream_ok queued wire sent c;
  co_codel : 0 <= codel_dropped c;
  co_drophead : 0 <= drophead_dropped c
}.

Definition entry_ok (e : InEntry) : Prop := conn_ok (li_wire (en_link e)) (conn_of e).

(** The entry stays well formed and its books move together. *)
Definition kept (e e' : InEntry) : Prop := entry_ok e → entry_ok e' ∧ same_books (conn_of e) (conn_of e').

(** Bytes owed come with the write interest. *)
Definition armed (e : InEntry) : Prop := out (conn_of e) = [] ∨ li_writable_armed (en_link e) = true.

#[export] Instance kept_refl : Reflexive kept.
Proof. by intros e He. Qed.

#[export] Instance kept_trans : Transitive kept.
Proof. intros e1 e2 e3 H12 H23 [H2 Hb12]%H12. destruct (H23 H2) as [H3 Hb23]. split; [done|by etrans]. Qed.

Lemma conn_ok_same wire c c' :
  out c' = out c → out_cursor c' = out_cursor c → out_bytes c' = out_bytes c →
  codel_dropped c' = codel_dropped c → drophead_dropped c' = drophead_dropped c →
  conn_ok wire c → conn_ok wire c'.
Proof.
  intros Ho Hc Hb Hcd Hdh [(queued & sent & Hs) H1 H2]. split; [|by rewrite Hcd|by rewrite Hdh].
  exists queued, sent. by eapply stream_ok_same.
Qed.

Lemma conn_ok_queue wire frame now c : conn_ok wire c →
  conn_ok wire (Outbound.queue frame now c).1 ∧ same_books c (Outbound.queue frame now c).1.
Proof.
  intros [(queued & sent & Hs) H1 H2]. destruct (queue_stream _ _ _ frame now _ Hs) as [Hs' Hb].
  split; [|done]. destruct (queue_eq frame now c) as (k & c1 & Heq & [] & _). rewrite Heq in *. simpl in *.
  split; [by eexists _, _|simpl; lia..].
Qed.

Lemma conn_ok_flush sink now wire c : conn_ok wire c →
  let '(c', wire', _, st) := flush_plain sink now c wire in
  conn_ok wire' c' ∧ same_books c c' ∧ (st = Some Drained → out c' = []).
Proof.
  intros [(queued & sent & Hs) H1 H2]. pose proof (flush_script_spec _ sink WRITEV_MAX_BYTES now _ _ _ Hs) as Hf.
  destruct (flush_counts sink WRITEV_MAX_BYTES now c wire) as [H3 H4]. unfold flush_plain.
  destruct (flush_script _ _ _ _ _) as [[[c' wire'] sink'] st]. simpl in H3, H4.
  destruct Hf as ([more Hm] & Hb & Hd). split_and!; [|done|done]. split; [by eexists _, _|lia..].
Qed.

Lemma kept_conn f e : (∀ c, conn_ok (li_wire (en_link e)) c → conn_ok (li_wire (en_link e)) (f c) ∧ same_books c (f c)) →
  kept e (on_conn f e).
Proof. intros Hf He. by apply Hf. Qed.

Lemma kept_link e e' : en_link e' = en_link e → kept e e'.
Proof. intros Hl He. unfold entry_ok. by rewrite Hl. Qed.

Lemma armed_link e e' : en_link e' = en_link e → armed e → armed e'.
Proof. unfold armed. by intros ->. Qed.

Lemma kept_queue_frame frame now e : kept e (queue_frame frame now e).
Proof. apply kept_conn. intros c. apply conn_ok_queue. Qed.

Lemma kept_reassembly n e : kept e (on_conn (set_reassembly_bytes n) e).
Proof.
  apply kept_conn. intros c Hc. split; [by eapply conn_ok_same; [..|exact Hc]|].
  split; unfold accounted_bytes, outbound_bytes; simpl; lia || done.
Qed.

Lemma kept_frame_buffer n e : kept e (on_conn (set_frame_buffer_bytes n) e).
Proof.
  apply kept_conn. intros c Hc. split; [by eapply conn_ok_same; [..|exact Hc]|].
  split; unfold accounted_bytes, outbound_bytes; simpl; lia || done.
Qed.

Lemma kept_set_fragment fr e : kept e (set_fragment fr e).
Proof. etrans; [apply kept_reassembly|]. by apply kept_link. Qed.

Lemma kept_take_fragment e : kept e (take_fragment e).1.
Proof. etrans; [apply kept_reassembly|]. by apply kept_link. Qed.

Lemma armed_set_fragment fr e : armed e → armed (set_fragment fr e).
Proof. done. Qed.

Lemma armed_take_fragment e : armed e → armed (take_fragment e).1.
Proof. done. Qed.

Lemma flush_and_arm_spec now e : entry_ok e →
  let '(e', a) := flush_and_arm now e in
  entry_ok e' ∧ same_books (conn_of e) (conn_of e') ∧ (a = Keep → armed e').
Proof.
  intros He. unfold flush_and_arm, flush_link. destruct (default _ _) as [answers ok].
  pose proof (conn_ok_flush (answers ++ [IoWouldBlock]) now _ _ He) as Hf.
  destruct (flush_plain _ _ _ _) as [[[c' wire'] sink'] st]. destruct Hf as (Hc & Hb & Hd).
  destruct st as [[| |]|]; try destruct ok; simpl; split_and!; try done; intros _.
  - left. by apply Hd.
  - by right.
  - by right.
Qed.

Lemma kept_flush now e : kept e (flush_and_arm now e).1.
Proof. intros He. pose proof (flush_and_arm_spec now e He) as Hf. destruct (flush_and_arm now e). by destruct Hf as (? & ? & _). Qed.

Lemma armed_flush now e : entry_ok e → (flush_and_arm now e).2 = Keep → armed (flush_and_arm now e).1.
Proof. intros He. pose proof (flush_and_arm_spec now e He) as Hf. destruct (flush_and_arm now e). by destruct Hf as (_ & _ & ?). Qed.

Lemma kept_close_with code reason now e : kept e (close_with code reason now e).
Proof. etrans; [apply kept_queue_frame|apply kept_flush]. Qed.

(** ** Steps of the inbound path *)

(** [kept], and a connection that goes on stays armed. *)
Definition step_kept (goes_on : Prop) (e e' : InEntry) : Prop :=
  kept e e' ∧ (entry_ok e → goes_on → armed e → armed e').

Lemma step_kept_close (goes_on : Prop) e e' : kept e e' → ¬ goes_on → step_kept goes_on e e'.
Proof. intros Hk Hn. by split. Qed.

Lemma step_kept_same goes_on e e' : en_link e' = en_link e → step_kept goes_on e e'.
Proof. intros Hl. split; [by apply kept_link|]. intros _ _. by apply armed_link. Qed.

Lemma step_kept_trans (g1 g2 : Prop) e1 e2 e3 : step_kept g1 e1 e2 → (g2 → g1) → step_kept g2 e2 e3 → step_kept g2 e1 e3.
Proof.
  intros [Hk1 Ha1] Hg [Hk2 Ha2]. split; [by etrans|]. intros He H2 Harm.
  destruct (Hk1 He) as [He2 _]. auto.
Qed.

Lemma step_kept_flush now e : step_kept ((flush_and_arm now e).2 = Keep) e (flush_and_arm now e).1.
Proof. split; [apply kept_flush|]. intros He Hk _. by apply armed_flush. Qed.

Lemma step_kept_then_flush now e e' : kept e e' → step_kept ((flush_and_arm now e').2 = Keep) e (flush_and_arm now e').1.
Proof.
  intros Hk. split; [etrans; [exact Hk|apply kept_flush]|]. intros He Hf _.
  destruct (Hk He) as [He' _]. by apply armed_flush.
Qed.

Lemma step_kept_fragment (goes_on : Prop) fr e : step_kept goes_on e (set_fragment fr e).
Proof. split; [apply kept_set_fragment|done]. Qed.

Section steps.
Context `{SerdeJson, Crypto} {A : Type} `{Adapter A}.
Implicit Type st : (InEntry * World A)%type.

Lemma dispatch_text_kept p now st :
  step_kept ((dispatch_text_message p now st).2 = Keep) st.1 (dispatch_text_message p now st).1.1.
Proof.
  destruct st as [e w]. unfold dispatch_text_message. destruct (negb _).
  { apply step_kept_close; [|done]. etrans; [apply kept_set_fragment|apply kept_close_with]. }
  destruct (en_session e) as [s|]; [|by apply step_kept_same].
  destruct (codec_decode _ _) as [cmd|]; [|by apply step_kept_same].
  destruct (Handler.dispatch _ _ _). by apply step_kept_same.
Qed.

Lemma kept_violation reason now e : kept e (close_fragment_violation reason now e).
Proof. etrans; [apply kept_set_fragment|apply kept_close_with]. Qed.

Lemma dispatch_text_goes_on now p (e e1 : InEntry) (w : World A) : step_kept True e e1 →
  let '(st, a) := dispatch_text_message p now (e1, w) in
  step_kept ((if decide (a = ActClose) then Some ActClose else None) = None) e st.1.
Proof.
  intros Hpre. pose proof (dispatch_text_kept p now (e1, w)) as Htext.
  destruct (dispatch_text_message p now (e1, w)) as [st a]. simpl in *.
  apply (step_kept_trans True _ _ e1); [done|done|].
  destruct Htext as [Hk Ha]. split; [done|]. intros He Hg. apply Ha; [done|]. by destruct a.
Qed.

Lemma dispatch_frame_kept max now f st :
  step_kept ((dispatch_frame max now f st).2 = None) st.1 (dispatch_frame max now f st).1.1.
Proof.
  destruct st as [e w]. unfold dispatch_frame.
  assert (∀ r, step_kept (Some ActClose = None) e (close_fragment_violation r now e)) as Hviol.
  { intros r. apply step_kept_close; [apply kept_violation|done]. }
  destruct (opcode f).
  - pose proof (kept_take_fragment e) as Htk. pose proof (armed_take_fragment e) as Hta.
    destruct (take_fragment e) as [e1 fragment]. simpl in Htk, Hta.
    assert (step_kept True e e1) as Hpre by (split; [done|auto]).
    assert (∀ (b : bool) fr, step_kept (None = None :> option Action) e (if b then set_fragment fr e1 else e1)) as Hre.
    { intros [] fr; [|by split; [|auto]]. apply (step_kept_trans True _ _ e1); [done|done|apply step_kept_fragment]. }
    destruct fragment as [[buf| |]|]; [|apply Hre|apply Hre|].
    + destruct (_ <? _)%nat; [apply Hre|]. destruct (fin f); [|apply (Hre true)].
      pose proof (dispatch_text_goes_on now (buf ++ payload f) e e1 w Hpre) as Ht.
      by destruct (dispatch_text_message _ _ _) as [st' a].
    + apply step_kept_close; [|done]. etrans; [exact Htk|apply kept_violation].
  - destruct (bool_decide _); [apply Hviol|]. destruct (negb (fin f)); [apply step_kept_fragment|].
    pose proof (dispatch_text_goes_on now (payload f) e e w (step_kept_same _ _ _ eq_refl)) as Ht.
    by destruct (dispatch_text_message _ _ _) as [st' a].
  - destruct (en_fragment e) as [[buf| |]|]; [apply Hviol|by apply step_kept_same|apply Hviol|].
    simpl. destruct (negb (fin f)); [apply step_kept_fragment|by apply step_kept_same].
  - apply step_kept_close; [|done]. cbn [fst]. unfold close_handshake_reply. apply kept_close_with.
  - pose proof (step_kept_then_flush now e _ (kept_queue_frame (encode [] true OpPong (payload f)) now e)) as Hf.
    destruct (flush_and_arm _ _) as [e' a]. simpl in *. destruct Hf as [Hk Ha]. split; [done|].
    intros He Hg. apply Ha; [done|]. by destruct a.
  - by apply step_kept_same.
Qed.

Lemma dispatch_loop_kept max now fs : ∀ st,
  step_kept ((dispatch_loop max now fs st).2 = None) st.1 (dispatch_loop max now fs st).1.1.
Proof.
  induction fs as [|f fs IH]; intros st; simpl; [by apply step_kept_same|].
  pose proof (dispatch_frame_kept max now f st) as Hf.
  destruct (dispatch_frame max now f st) as [st1 [a|]]; simpl in *; [done|].
  by apply (step_kept_trans (None = None :> option Action) _ _ st1.1); [|by intros _|].
Qed.

(** Draining queues only, and what it does not write it does not touch. *)
Lemma drain_events_kept codec now q : ∀ d e,
  let d' := (drain_events codec now q d).2 in
  kept (set_link (dr_link d) e) (set_link (dr_link d') e) ∧
  (dr_wrote d' = false → dr_link d' = dr_link d ∧ dr_wrote d = false).
Proof.
  assert (∀ d e frame, kept (set_link (dr_link d) e)
    (set_link (set_link_conn (Outbound.queue frame now (li_conn (dr_link d))).1 (dr_link d)) e)) as Hq.
  { intros d e frame. apply (kept_queue_frame frame now (set_link (dr_link d) e)). }
  induction q as [|ev q IH]; intros d e; cbn [drain_events]; [done|].
  destruct ev; cbn [snd];
    match goal with
    | |- context [let '(ctx, changed) := ?x in _] => destruct x as [ctx changed]
    | _ => idtac
    end;
    try (split; [apply Hq|done]);
    match goal with
    | |- context [drain_events codec now q ?d1] => destruct (IH d1 e) as [Hk Hw]
    end;
    (split; [etrans; [apply Hq|exact Hk]|by intros [_ ?]%Hw]).
Qed.

Lemma drain_session_kept now st :
  step_kept (res_action (drain_session now st).2 = Keep) st.1 (drain_session now st).1.1.
Proof.
  destruct st as [e w]. unfold drain_session. destruct (en_session e) as [s|]; [|by apply step_kept_same].
  destruct (w_ad w) as [a env]. destruct (drain_events _ _ _ _) as [rest d] eqn:Hd.
  pose proof (drain_events_kept (se_codec s) now (queue_of (env_store env) (cx_self_tx (se_ctx s)))
    (mkDrainState (se_ctx s) (en_link e) false false false) e) as [Hk Hw].
  rewrite Hd in Hk, Hw. simpl in Hk, Hw.
  set (e1 := set_session (Some (mkSessionState (dr_ctx d) (se_codec s))) (set_link (dr_link d) e)).
  assert (kept e e1) as He1.
  { etrans; [|etrans; [exact Hk|by apply kept_link]]. by apply kept_link. }
  destruct (dr_wrote d).
  - pose proof (step_kept_then_flush now e e1 He1) as [Hf1 Hf2].
    destruct (flush_and_arm now e1) as [e2 fl]. simpl in *. split; [done|].
    intros He Hg. apply Hf2; [done|]. by destruct fl; [|destruct (decide (ActClose = ActClose))].
  - destruct (Hw eq_refl) as [Hl _]. simpl. apply step_kept_same. done.
Qed.

(** The loop stops only to close. *)
Lemma dispatch_frame_stops max now f st a : (dispatch_frame max now f st).2 = Some a → a = ActClose.
Proof.
  destruct st as [e w]. unfold dispatch_frame.
  assert (∀ b, (if decide (b = ActClose) then Some ActClose else None) = Some a → a = ActClose) as Hd.
  { intros b. destruct (decide _); [by intros [= <-]|done]. }
  destruct (opcode f).
  - destruct (take_fragment e) as [e1 [[buf| |]|]]; [|done|done|by intros [= <-]].
    destruct (_ <? _)%nat; [done|]. destruct (fin f); [|done]. destruct (dispatch_text_message _ _ _). apply Hd.
  - destruct (bool_decide _); [by intros [= <-]|]. destruct (negb _); [done|].
    destruct (dispatch_text_message _ _ _). apply Hd.
  - destruct (en_fragment e) as [[| |]|]; [by intros [= <-]|done|by intros [= <-]|done].
  - by intros [= <-].
  - destruct (flush_and_arm _ _). apply Hd.
  - done.
Qed.

Lemma dispatch_loop_stops max now fs a : ∀ st, (dispatch_loop max now fs st).2 = Some a → a = ActClose.
Proof.
  induction fs as [|f fs IH]; intros st; simpl; [done|].
  pose proof (dispatch_frame_stops max now f st) as Hs.
  destruct (dispatch_frame max now f st) as [st1 [b|]]; simpl in *; [|apply IH]. intros [= <-]. by apply Hs.
Qed.

Lemma dispatch_frames_kept max now fs st :
  step_kept ((dispatch_frames max now fs st).2 = Keep) st.1 (dispatch_frames max now fs st).1.1.
Proof.
  unfold dispatch_frames. pose proof (dispatch_loop_kept max now fs st) as Hl.
  pose proof (λ a, dispatch_loop_stops max now fs a st) as Hs.
  destruct (dispatch_loop max now fs st) as [st1 [a|]]; simpl in *.
  - rewrite (Hs a eq_refl). destruct Hl as [Hk _]. by apply step_kept_close.
  - pose proof (drain_session_kept now st1) as Hd. destruct (drain_session now st1) as [st2 r]. simpl in *.
    by apply (step_kept_trans (None = None :> option Action) _ _ st1.1); [|by intros _|].
Qed.

Lemma handle_frames_kept max_payload max now limited st :
  step_kept ((handle_frames max_payload max now limited st).1.2 = Keep) st.1
    (handle_frames max_payload max now limited st).1.1.1.
Proof.
  destruct st as [e w]. unfold handle_frames. destruct (read_frames _ _ _) as [[inbuf reads] r].
  set (e0 := on_conn _ (mkInEntry _ _ _ _ _ _)).
  assert (∀ goes_on, step_kept goes_on e e0) as He0.
  { intros g. split; [|done]. etrans; [|apply kept_frame_buffer]. by apply kept_link. }
  destruct r as [fs|err]; [|apply He0].
  destruct (if (0 <? _) then _ else _) as [bucket granted].
  set (e1 := mkInEntry (en_link e0) _ _ _ bucket _).
  assert (∀ goes_on, step_kept goes_on e e1) as He1.
  { intros g. apply (step_kept_trans g g _ e0); [apply He0|done|by apply step_kept_same]. }
  destruct granted.
  - pose proof (dispatch_frames_kept max now fs (e1, w)) as Hd. destruct (dispatch_frames _ _ _ _) as [st a].
    simpl in *. by apply (step_kept_trans True _ _ e1).
  - simpl. apply step_kept_close; [|done]. destruct (He1 True) as [Hk _]. etrans; [exact Hk|].
    etrans; [apply kept_set_fragment|apply kept_close_with].
Qed.
End steps.
