(* ===== verification/Admission.v ===== *)
(** * Admission under concurrency

    The counters that [finish_establish] and [remove] of
    [src/src/transport/worker.rs] keep in memory shared by all workers: the
    node's connections, one counter per app behind a concurrent map, and the
    capacity units held in the cluster. Each atomic operation is one step, and
    the workers' steps interleave. *)

From S2P Require Import Prelude RustStd.

(** The memory shared by the workers. [sh_counter] holds the
    [Arc<AtomicUsize>]s, [sh_counts] is [conn_counts]; [sh_units] are the units
    the cluster has granted and not been given back, by app, and [sh_leaked] those
    among them that no close will give back: the release was dropped or failed,
    or the grant never reached the worker. *)
Record Shared : Type := mkShared {
  sh_node : Z;
  sh_counter : gmap nat Z;
  sh_counts : gmap string nat;
  sh_units : gmap string Z;
  sh_leaked : gmap string Z
}.

Definition Shared_new : Shared := mkShared 0 ∅ ∅ ∅ ∅.

Definition counter (c : nat) (sh : Shared) : Z := default 0%Z (sh_counter sh !! c).
Definition units (app : string) (sh : Shared) : Z := default 0%Z (sh_units sh !! app).
Definition leaked (app : string) (sh : Shared) : Z := default 0%Z (sh_leaked sh !! app).

Definition add_node (d : Z) (sh : Shared) : Shared :=
  mkShared (sh_node sh + d) (sh_counter sh) (sh_counts sh) (sh_units sh) (sh_leaked sh).
Definition add_counter (c : nat) (d : Z) (sh : Shared) : Shared :=
  mkShared (sh_node sh) (<[c := (counter c sh + d)%Z]> (sh_counter sh)) (sh_counts sh) (sh_units sh)
    (sh_leaked sh).
Definition add_units (app : string) (d : Z) (sh : Shared) : Shared :=
  mkShared (sh_node sh) (sh_counter sh) (sh_counts sh) (<[app := (units app sh + d)%Z]> (sh_units sh))
    (sh_leaked sh).
Definition leak (app : string) (sh : Shared) : Shared :=
  mkShared (sh_node sh) (sh_counter sh) (sh_counts sh) (sh_units sh)
    (<[app := (leaked app sh + 1)%Z]> (sh_leaked sh)).
Definition set_counts (m : gmap string nat) (sh : Shared) : Shared :=
  mkShared (sh_node sh) (sh_counter sh) m (sh_units sh) (sh_leaked sh).

(** [entry(app).or_insert_with(..).clone()], under the shard's lock. *)
Definition entry_clone (app : string) (sh : Shared) : Shared * nat :=
  match sh_counts sh !! app with
  | Some c => (sh, c)
  | None =>
      let c := fresh (dom (sh_counter sh)) in
      (set_counts (<[app := c]> (sh_counts sh)) (add_counter c 0 sh), c)
  end.

(** [remove_if(app, |_, c| c.load() == 0)], under the shard's lock. *)
Definition remove_if_zero (app : string) (sh : Shared) : Shared :=
  match sh_counts sh !! app with
  | Some c => if (counter c sh =? 0)%Z then set_counts (delete app (sh_counts sh)) sh else sh
  | None => sh
  end.

(** Where a connection is in [finish_establish], its life, or [remove]: what
    its worker does next. *)
Inductive Phase : Type :=
| Arriving (app : string)                              (* node_conns.fetch_add *)
| NodeTaken (app : string)                             (* the saturation gate *)
| Gated (app : string)                                 (* entry().or_insert_with().clone() *)
| Cloned (app : string) (c : nat)                      (* counter.fetch_add *)
| Counted (app : string) (c : nat)                     (* the cluster's verdict *)
| Undoing (app : string) (c : nat)                     (* counter.fetch_sub *)
| NodeUndoing (app : string)                           (* node_conns.fetch_sub *)
| Live (app : string) (c : nat) (admitted : bool)      (* the close *)
| Closing (app : string) (c : nat) (admitted : bool)   (* conn_count.fetch_sub *)
| Uncounted (app : string) (admitted : bool)           (* conn_counts.remove_if *)
| Unlisted (app : string) (admitted : bool)            (* node_conns.fetch_sub *)
| Releasing (app : string) (admitted : bool)           (* release_app *)
| Gone.

(** What a step meets elsewhere: the saturation flag; the verdict of the cluster,
    [None] when the bridge does not answer in time or Redis fails; and whether the
    call is lost on the way: a verdict that does not arrive may have taken a
    unit, and a release may be dropped at the bridge's full or closed queue or
    fail at Redis. *)
Record Input : Type := mkInput { in_saturated : bool; in_verdict : option bool; in_lost : bool }.

Section admission.
Context (max_connections : Z) (capacity : string → Z) (clustered : bool).

(** The atomic operations of [finish_establish], in order. *)
Definition establish_step (i : Input) (sh : Shared) (p : Phase) : Shared * Phase :=
  match p with
  | Arriving app =>
      let node_n := sh_node sh in
      (add_node 1 sh,
       if negb (max_connections =? 0)%Z && (max_connections <=? node_n)%Z then NodeUndoing app else NodeTaken app)
  | NodeTaken app => (sh, if in_saturated i then NodeUndoing app else Gated app)
  | Gated app => let '(sh, c) := entry_clone app sh in (sh, Cloned app c)
  | Cloned app c =>
      let current := counter c sh in
      (add_counter c 1 sh,
       if negb (capacity app =? 0)%Z && (capacity app <=? current)%Z then Undoing app c else Counted app c)
  | Counted app c =>
      if negb (capacity app =? 0)%Z && clustered then
        match in_verdict i with
        | Some true => (add_units app 1 sh, Live app c true)
        | Some false => (sh, Undoing app c)
        | None => (if in_lost i then leak app (add_units app 1 sh) else sh, Live app c false)
        end
      else (sh, Live app c false)
  | Undoing app c => (add_counter c (-1) sh, NodeUndoing app)
  | NodeUndoing app => (add_node (-1) sh, Gone)
  | p => (sh, p)
  end.

(** The atomic operations of [remove], in order. *)
Definition close_step (i : Input) (sh : Shared) (p : Phase) : Shared * Phase :=
  match p with
  | Live app c admitted => (sh, Closing app c admitted)
  | Closing app c admitted => (add_counter c (-1) sh, Uncounted app admitted)
  | Uncounted app admitted => (remove_if_zero app sh, Unlisted app admitted)
  | Unlisted app admitted => (add_node (-1) sh, Releasing app admitted)
  | Releasing app admitted =>
      (if admitted && clustered then if in_lost i then leak app sh else add_units app (-1) sh else sh, Gone)
  | p => (sh, p)
  end.

Definition advance (i : Input) (sh : Shared) (p : Phase) : Shared * Phase :=
  match p with
  | Live _ _ _ | Closing _ _ _ | Uncounted _ _ | Unlisted _ _ | Releasing _ _ => close_step i sh p
  | _ => establish_step i sh p
  end.

(** ** Interleavings *)

Record State : Type := mkState { st_shared : Shared; st_conns : gmap nat Phase }.

Inductive adm_step : State → State → Prop :=
| adm_arrive sh m t app : m !! t = None → adm_step (mkState sh m) (mkState sh (<[t := Arriving app]> m))
| adm_advance sh m t p i : m !! t = Some p →
    adm_step (mkState sh m) (mkState (advance i sh p).1 (<[t := (advance i sh p).2]> m)).

Definition adm_reach : State → Prop := rtc adm_step (mkState Shared_new ∅).

(** How many connections are in a phase. *)
Definition count (P : Phase → bool) (m : gmap nat Phase) : Z :=
  Z.of_nat (size (filter (λ q : nat * Phase, P q.2 = true) m)).

Definition b2z (b : bool) : Z := if b then 1 else 0.

Lemma count_insert P m t p : m !! t = None → count P (<[t := p]> m) = (count P m + b2z (P p))%Z.
Proof.
  intros Ht. unfold count. destruct (P p) eqn:E.
  - rewrite map_filter_insert_True by done. rewrite map_size_insert_None; [simpl; lia|].
    apply map_lookup_filter_None. by left.
  - rewrite map_filter_insert_False by (simpl; congruence). rewrite delete_id by done. simpl. lia.
Qed.

Lemma count_update P m t p q : m !! t = Some p →
  count P (<[t := q]> m) = (count P m - b2z (P p) + b2z (P q))%Z.
Proof.
  intros Ht. rewrite <-(insert_delete_eq m t q). rewrite <-(insert_delete_id m t p Ht) at 2.
  rewrite !count_insert by apply lookup_delete_eq. lia.
Qed.

Lemma count_mono P Q m : (∀ p, P p = true → Q p = true) → (count P m <= count Q m)%Z.
Proof.
  intros HPQ. unfold count. apply inj_le, map_subseteq_size, map_filter_subseteq_ext. intros t p _. apply HPQ.
Qed.

Lemma count_nonneg P m : (0 <= count P m)%Z.
Proof. unfold count. lia. Qed.

(** ** What each counter counts *)

Definition app_of (p : Phase) : string :=
  match p with
  | Arriving a | NodeTaken a | Gated a | Cloned a _ | Counted a _ | Undoing a _ | NodeUndoing a
  | Live a _ _ | Closing a _ _ | Uncounted a _ | Unlisted a _ | Releasing a _ => a
  | Gone => ""
  end.

(** The counter a connection has a handle on. *)
Definition handle_on (p : Phase) : option nat :=
  match p with Cloned _ c | Counted _ c | Undoing _ c | Live _ c _ | Closing _ c _ => Some c | _ => None end.

Definition on_node (p : Phase) : bool :=
  match p with Arriving _ | Releasing _ _ | Gone => false | _ => true end.
Definition past_ceiling (p : Phase) : bool :=
  match p with NodeUndoing _ => false | p => on_node p end.
Definition holds (c : nat) (p : Phase) : bool :=
  match p with Counted _ d | Undoing _ d | Live _ d _ | Closing _ d _ => bool_decide (c = d) | _ => false end.
Definition past_capacity (c : nat) (p : Phase) : bool :=
  match p with Counted _ d | Live _ d _ | Closing _ d _ => bool_decide (c = d) | _ => false end.
Definition owes (app : string) (p : Phase) : bool :=
  match p with
  | Live a _ b | Closing a _ b | Uncounted a b | Unlisted a b | Releasing a b =>
      bool_decide (app = a) && b && clustered
  | _ => false
  end.
Definition is_live (p : Phase) : bool := match p with Live _ _ _ => true | _ => false end.
Definition is_live_on (c : nat) (p : Phase) : bool :=
  match p with Live _ d _ => bool_decide (c = d) | _ => false end.
Definition is_live_of (app : string) (p : Phase) : bool :=
  match p with Live a _ _ => bool_decide (app = a) | _ => false end.

(** Which app a counter was made for. *)
Record adm_ok (own : gmap nat string) (st : State) : Prop := mkAdmOk {
  ok_node : sh_node (st_shared st) = count on_node (st_conns st);
  ok_counter c : counter c (st_shared st) = count (holds c) (st_conns st);
  ok_units app : units app (st_shared st) = (count (owes app) (st_conns st) + leaked app (st_shared st))%Z;
  ok_dom : dom own = dom (sh_counter (st_shared st));
  ok_listed app c : sh_counts (st_shared st) !! app = Some c → own !! c = Some app;
  ok_handle t p c : st_conns st !! t = Some p → handle_on p = Some c → own !! c = Some (app_of p);
  ok_ceiling : max_connections ≠ 0%Z → (count past_ceiling (st_conns st) <= Z.max 0 max_connections)%Z;
  ok_capacity app c : own !! c = Some app → capacity app ≠ 0%Z →
    (count (past_capacity c) (st_conns st) <= Z.max 0 (capacity app))%Z
}.

Lemma counter_add c c' d sh :
  counter c' (add_counter c d sh) = (counter c' sh + if decide (c = c') then d else 0)%Z.
Proof.
  unfold counter at 1. simpl. case_decide as E; subst.
  - by rewrite lookup_insert_eq.
  - rewrite lookup_insert_ne by done. unfold counter. lia.
Qed.

Lemma units_add app app' d sh :
  units app' (add_units app d sh) = (units app' sh + if decide (app = app') then d else 0)%Z.
Proof.
  unfold units at 1. simpl. case_decide as E; subst.
  - by rewrite lookup_insert_eq.
  - rewrite lookup_insert_ne by done. unfold units. lia.
Qed.

Lemma leaked_leak app app' sh :
  leaked app' (leak app sh) = (leaked app' sh + if decide (app = app') then 1 else 0)%Z.
Proof.
  unfold leaked at 1. simpl. case_decide as E; subst.
  - by rewrite lookup_insert_eq.
  - rewrite lookup_insert_ne by done. unfold leaked. lia.
Qed.

Lemma adm_ok_arrive own sh m t app : m !! t = None →
  adm_ok own (mkState sh m) → adm_ok own (mkState sh (<[t := Arriving app]> m)).
Proof.
  intros Ht [On Oc Ou Od Ol Oh Oe Op]. split; simpl in *;
    [rewrite count_insert by done; simpl; lia|intros; rewrite count_insert by done; simpl; rewrite ?Oc, ?Ou; lia..
    |done|done| |rewrite count_insert by done; simpl; lia
    |intros a c Ha Hc; rewrite count_insert by done; simpl; specialize (Op a c Ha Hc); lia].
  intros t' p c Hp. destruct (decide (t = t')) as [->|Hne].
  - rewrite lookup_insert_eq in Hp. by simplify_eq.
  - rewrite lookup_insert_ne in Hp by done. by eapply Oh.
Qed.

(** A step of one connection that makes no counter. *)
Lemma adm_ok_move own sh m t p sh' q : m !! t = Some p → adm_ok own (mkState sh m) →
  sh_node sh' = (sh_node sh - b2z (on_node p) + b2z (on_node q))%Z →
  (∀ c, counter c sh' = (counter c sh - b2z (holds c p) + b2z (holds c q))%Z) →
  (∀ app, (units app sh' - leaked app sh' = units app sh - leaked app sh - b2z (owes app p) + b2z (owes app q))%Z) →
  dom (sh_counter sh') = dom (sh_counter sh) → sh_counts sh' ⊆ sh_counts sh →
  (∀ c, handle_on q = Some c → handle_on p = Some c ∧ app_of q = app_of p) →
  (past_ceiling q = true → past_ceiling p = true ∨ max_connections = 0%Z ∨ (sh_node sh < max_connections)%Z) →
  (∀ c, past_capacity c q = true → past_capacity c p = true ∨ handle_on p = Some c ∧
     (capacity (app_of p) = 0%Z ∨ (counter c sh < capacity (app_of p))%Z)) →
  adm_ok own (mkState sh' (<[t := q]> m)).
Proof.
  intros Ht [On Oc Ou Od Ol Oh Oe Op] Hn Hc Hu Hd Hl Hh He Hp. simpl in *.
  pose proof (count_mono past_ceiling on_node m ltac:(by intros [])) as Hce.
  split; simpl; [|intros c|intros app|by rewrite Hd|intros app c Hin| |intros Hm|intros app c Ho Hca].
  - rewrite (count_update _ _ _ _ _ Ht). lia.
  - rewrite (count_update _ _ _ _ _ Ht), Hc, Oc. lia.
  - rewrite (count_update _ _ _ _ _ Ht). specialize (Hu app). specialize (Ou app). lia.
  - apply Ol. by eapply lookup_weaken.
  - intros t' p' c. destruct (decide (t = t')) as [->|Hne].
    + rewrite lookup_insert_eq. intros [= <-] Hq. destruct (Hh c Hq) as [Hp' ->]. by eapply Oh.
    + rewrite lookup_insert_ne by done. apply Oh.
  - rewrite (count_update _ _ _ _ _ Ht). specialize (Oe Hm).
    destruct (past_ceiling q) eqn:Eq; [|destruct (past_ceiling p); simpl; lia].
    destruct (He eq_refl) as [->|[?|Hlt]]; [simpl; lia|done|].
    destruct (past_ceiling p); simpl; lia.
  - rewrite (count_update _ _ _ _ _ Ht). specialize (Op app c Ho Hca).
    pose proof (count_mono (past_capacity c) (holds c) m ltac:(by intros [])) as Hcc. rewrite <-Oc in Hcc.
    destruct (past_capacity c q) eqn:Eq; [|destruct (past_capacity c p); simpl; lia].
    destruct (Hp c Eq) as [->|[Hhp Hlt]]; [simpl; lia|].
    pose proof (Oh t p c Ht Hhp) as Ho'. rewrite Ho in Ho'. simplify_eq.
    destruct Hlt as [?|Hlt]; [done|]. destruct (past_capacity c p); simpl; lia.
Qed.

Lemma bool_decide_if {A} (P : Prop) `{Decision P} (a b : A) :
  (if bool_decide P then a else b) = if decide P then a else b.
Proof. case_bool_decide; by case_decide. Qed.

Lemma remove_if_zero_counter app sh c : counter c (remove_if_zero app sh) = counter c sh.
Proof. unfold remove_if_zero. by repeat case_match. Qed.
Lemma remove_if_zero_units app sh a : units a (remove_if_zero app sh) = units a sh.
Proof. unfold remove_if_zero. by repeat case_match. Qed.
Lemma remove_if_zero_leaked app sh a : leaked a (remove_if_zero app sh) = leaked a sh.
Proof. unfold remove_if_zero. by repeat case_match. Qed.
Lemma remove_if_zero_node app sh : sh_node (remove_if_zero app sh) = sh_node sh.
Proof. unfold remove_if_zero. by repeat case_match. Qed.
Lemma remove_if_zero_heap app sh : sh_counter (remove_if_zero app sh) = sh_counter sh.
Proof. unfold remove_if_zero. by repeat case_match. Qed.
Lemma remove_if_zero_counts app sh : sh_counts (remove_if_zero app sh) ⊆ sh_counts sh.
Proof. unfold remove_if_zero. repeat case_match; [apply delete_subseteq|done..]. Qed.

Lemma add_counter_dom c d sh : is_Some (sh_counter sh !! c) → dom (sh_counter (add_counter c d sh)) = dom (sh_counter sh).
Proof. intros Hc. simpl. rewrite dom_insert_L. apply elem_of_dom in Hc. set_solver. Qed.

Lemma counter_node c d sh : counter c (add_node d sh) = counter c sh.
Proof. done. Qed.
Lemma counter_units c app d sh : counter c (add_units app d sh) = counter c sh.
Proof. done. Qed.
Lemma units_node app d sh : units app (add_node d sh) = units app sh.
Proof. done. Qed.
Lemma units_counter app c d sh : units app (add_counter c d sh) = units app sh.
Proof. done. Qed.
Lemma counter_leak c app sh : counter c (leak app sh) = counter c sh.
Proof. done. Qed.
Lemma units_leak a app sh : units a (leak app sh) = units a sh.
Proof. done. Qed.
Lemma leaked_node a d sh : leaked a (add_node d sh) = leaked a sh.
Proof. done. Qed.
Lemma leaked_counter a c d sh : leaked a (add_counter c d sh) = leaked a sh.
Proof. done. Qed.
Lemma leaked_units a app d sh : leaked a (add_units app d sh) = leaked a sh.
Proof. done. Qed.
Create Rewrite HintDb admission.
#[local] Hint Rewrite counter_add units_add counter_node counter_units units_node units_counter
  remove_if_zero_counter remove_if_zero_units remove_if_zero_node leaked_leak counter_leak units_leak
  leaked_node leaked_counter leaked_units remove_if_zero_leaked : admission.

(** The handle of a connection is on a counter in memory. *)
Lemma handle_in_heap own sh m t p c : adm_ok own (mkState sh m) → m !! t = Some p → handle_on p = Some c →
  is_Some (sh_counter sh !! c).
Proof.
  intros Hok Ht Hc. pose proof (ok_dom _ _ Hok) as Hd. simpl in Hd.
  apply elem_of_dom. rewrite <-Hd. apply elem_of_dom. eexists.
  exact (ok_handle _ _ Hok _ _ _ Ht Hc).
Qed.

Lemma adm_ok_gate own sh m t app : m !! t = Some (Gated app) → adm_ok own (mkState sh m) →
  let '(sh', c) := entry_clone app sh in
  ∃ own', adm_ok own' (mkState sh' (<[t := Cloned app c]> m)).
Proof.
  intros Ht Hok. pose proof Hok as [On Oc Ou Od Ol Oh Oe Op]. simpl in *. unfold entry_clone.
  destruct (sh_counts sh !! app) as [c|] eqn:E.
  - exists own. split; simpl;
      [rewrite (count_update _ _ _ _ _ Ht); simpl; lia
      |intros d; rewrite (count_update _ _ _ _ _ Ht); simpl; rewrite Oc; lia
      |intros a; rewrite (count_update _ _ _ _ _ Ht); simpl; rewrite Ou; lia|done|done|
      |intros Hm; rewrite (count_update _ _ _ _ _ Ht); simpl; specialize (Oe Hm); lia
      |intros a d Ho Hca; rewrite (count_update _ _ _ _ _ Ht); simpl; specialize (Op a d Ho Hca); lia].
    intros t' p c'. destruct (decide (t = t')) as [->|Hne].
    + rewrite lookup_insert_eq. intros [= <-] [= <-]. by apply Ol.
    + rewrite lookup_insert_ne by done. apply Oh.
  - set (c := fresh (dom (sh_counter sh))).
    assert (c ∉ dom (sh_counter sh)) as Hfresh by apply is_fresh.
    assert (own !! c = None) as Hown by (apply not_elem_of_dom; by rewrite Od).
    assert (∀ d, counter d (set_counts (<[app:=c]> (sh_counts sh)) (add_counter c 0 sh)) = counter d sh) as Hcnt.
    { intros d. change (counter d (add_counter c 0 sh) = counter d sh). rewrite counter_add. case_decide; lia. }
    exists (<[c := app]> own). split; simpl.
    + rewrite (count_update _ _ _ _ _ Ht). simpl. lia.
    + intros d. rewrite (count_update _ _ _ _ _ Ht), Hcnt, Oc. simpl. lia.
    + intros a. rewrite (count_update _ _ _ _ _ Ht). simpl. specialize (Ou a). unfold units, leaked in *. simpl in *. lia.
    + rewrite !dom_insert_L. by rewrite Od.
    + intros a d. destruct (decide (app = a)) as [->|Hne].
      * rewrite lookup_insert_eq. intros [= <-]. by rewrite lookup_insert_eq.
      * rewrite lookup_insert_ne by done. intros Hl. apply Ol in Hl.
        rewrite lookup_insert_ne; [done|]. intros <-. congruence.
    + intros t' p d. destruct (decide (t = t')) as [->|Hne].
      * rewrite lookup_insert_eq. intros [= <-] [= <-]. by rewrite lookup_insert_eq.
      * rewrite lookup_insert_ne by done. intros Hp Hd. pose proof (Oh _ _ _ Hp Hd) as Hl.
        rewrite lookup_insert_ne; [done|]. intros <-. congruence.
    + intros Hm. rewrite (count_update _ _ _ _ _ Ht). simpl. specialize (Oe Hm). lia.
    + intros a d Ho Hca. rewrite (count_update _ _ _ _ _ Ht). simpl.
      destruct (decide (c = d)) as [<-|Hne].
      * pose proof (count_mono (past_capacity c) (holds c) m ltac:(by intros [])) as Hcc. rewrite <-Oc in Hcc.
        apply not_elem_of_dom in Hfresh. unfold counter in Hcc. rewrite Hfresh in Hcc. simpl in Hcc. lia.
      * rewrite lookup_insert_ne in Ho by done. specialize (Op a d Ho Hca). lia.
Qed.

Lemma adm_ok_advance own sh m t p i : m !! t = Some p → adm_ok own (mkState sh m) →
  ∃ own', adm_ok own' (mkState (advance i sh p).1 (<[t := (advance i sh p).2]> m)).
Proof.
  intros Ht Hok. pose proof (λ c, handle_in_heap own sh m t p c Hok Ht) as Hheap.
  destruct p as [app|app|app|app c|app c|app c|app|app c b|app c b|app b|app b|app b|].
  3: { pose proof (adm_ok_gate own sh m t app Ht Hok) as Hg. simpl. by destruct (entry_clone app sh). }
  all: exists own; cbn [advance establish_step close_step fst snd]; repeat case_match; cbn [fst snd]; apply (adm_ok_move own sh m t _ _ _ Ht Hok).
  all: first [reflexivity | apply remove_if_zero_counts | by apply add_counter_dom, Hheap
    | by rewrite remove_if_zero_heap | idtac].
  all: try (intros x); autorewrite with admission; simpl; unfold b2z; try done;
    repeat case_bool_decide; repeat case_decide; simplify_eq; simpl;
    repeat match goal with |- context [if ?b then _ else _] => destruct b eqn:?; simpl end; try lia; try done.
  intros _. right. split; [done|]. apply andb_false_iff in H as [H|H]; [left|right].
  - apply negb_false_iff in H. by apply Z.eqb_eq.
  - by apply Z.leb_gt.
Qed.

Lemma adm_reach_ok st : adm_reach st → ∃ own, adm_ok own st.
Proof.
  assert (∀ P, count P ∅ = 0%Z) as H0 by (intros P; unfold count; by rewrite map_filter_empty, map_size_empty).
  intros Hr. unfold adm_reach in Hr.
  assert (∃ own, adm_ok own (mkState Shared_new ∅)) as Hinit.
  { exists ∅. split; simpl; intros; unfold counter, units; simpl in *; rewrite ?H0, ?lookup_empty in *;
      try lia; done. }
  revert Hinit. induction Hr as [st|st1 st2 st3 Hstep _ IH]; [done|]. intros [own Hok]. apply IH.
  destruct Hstep as [sh m t app Ht|sh m t p i Ht]; [exists own; by apply adm_ok_arrive|by eapply adm_ok_advance].
Qed.

(** No establish or close is under way. *)
Definition settled (st : State) : Prop :=
  ∀ t p, st_conns st !! t = Some p → is_live p = true ∨ p = Gone.

Definition settledb (st : State) : bool :=
  bool_decide (map_Forall (λ _ p, is_live p || match p with Gone => true | _ => false end = true) (st_conns st)).

Lemma settled_by st : settledb st = true → settled st.
Proof.
  intros Hb%bool_decide_eq_true t p Hp. specialize (Hb t p Hp). destruct p; simpl in Hb; (by left) || (by right) || done.
Qed.

Definition is_admitted (app : string) (p : Phase) : bool :=
  match p with Live a _ b => bool_decide (app = a) && b && clustered | _ => false end.

Lemma count_ext P Q m : (∀ t p, m !! t = Some p → P p = Q p) → count P m = count Q m.
Proof.
  intros HPQ. unfold count. do 2 f_equal. apply map_filter_ext. intros t p Hp. simpl. by rewrite (HPQ t p Hp).
Qed.

(** C12. The books of admission, in every interleaving of establishes and closes on
    any number of workers. No more connections are live than the node's
    ceiling, and no more are live on one counter than the capacity of its app;
    and whenever no establish or close is under way the node counter is the
    number of live connections, each app counter the number of those counted on
    it, and the units held in the cluster are those of the live connections it
    admitted and those that leaked: one for each release that was dropped and
    each grant whose answer was lost. *)
Theorem admission_books (st : State) :
  adm_reach st →
  ((0 < max_connections)%Z → (count is_live (st_conns st) <= max_connections)%Z) ∧
  (∀ t app c b, st_conns st !! t = Some (Live app c b) → (0 < capacity app)%Z →
     (count (is_live_on c) (st_conns st) <= capacity app)%Z) ∧
  (settled st →
     sh_node (st_shared st) = count is_live (st_conns st) ∧
     (∀ c, counter c (st_shared st) = count (is_live_on c) (st_conns st)) ∧
     (∀ app, units app (st_shared st) =
        (count (is_admitted app) (st_conns st) + leaked app (st_shared st))%Z)).
Proof.
  intros Hr. destruct (adm_reach_ok st Hr) as [own [On Oc Ou Od Ol Oh Oe Op]]. split_and!.
  - intros Hm. specialize (Oe ltac:(lia)).
    pose proof (count_mono is_live past_ceiling (st_conns st) ltac:(by intros [])). lia.
  - intros t app c b Ht Hcap. pose proof (Oh t _ c Ht eq_refl) as Ho. simpl in Ho.
    specialize (Op app c Ho ltac:(lia)).
    pose proof (count_mono (is_live_on c) (past_capacity c) (st_conns st) ltac:(by intros [])). lia.
  - intros Hs. split_and!.
    + rewrite On. apply count_ext. intros t p Hp. destruct (Hs t p Hp) as [Hl| ->]; [by destruct p|done].
    + intros c. rewrite Oc. apply count_ext. intros t p Hp. destruct (Hs t p Hp) as [Hl| ->]; [by destruct p|done].
    + intros app. rewrite Ou. f_equal. apply count_ext. intros t p Hp.
      destruct (Hs t p Hp) as [Hl| ->]; [by destruct p|done].
Qed.

(** *** Closes that do not race an establish *)

(** A close drops the app's entry only when no establish of the app holds a
    clone that it has not counted yet. *)
Inductive calm_step : State → State → Prop :=
| calm_arrive sh m t app : m !! t = None → calm_step (mkState sh m) (mkState sh (<[t := Arriving app]> m))
| calm_advance sh m t p i : m !! t = Some p →
    (∀ app b t' c, p = Uncounted app b → m !! t' ≠ Some (Cloned app c)) →
    calm_step (mkState sh m) (mkState (advance i sh p).1 (<[t := (advance i sh p).2]> m)).

Definition calm_reach : State → Prop := rtc calm_step (mkState Shared_new ∅).

Lemma calm_is_reach st : calm_reach st → adm_reach st.
Proof. apply rtc_subrel. intros ? ? []; by constructor. Qed.

Definition all_listed (st : State) : Prop := ∀ t p c,
  st_conns st !! t = Some p → handle_on p = Some c → sh_counts (st_shared st) !! app_of p = Some c.
Lemma all_listed_gate sh m t app : m !! t = Some (Gated app) → all_listed (mkState sh m) →
  all_listed (mkState (entry_clone app sh).1 (<[t := Cloned app (entry_clone app sh).2]> m)).
Proof.
  intros Ht Hl t' p c. unfold entry_clone. simpl. destruct (sh_counts sh !! app) as [d|] eqn:E; simpl.
  - destruct (decide (t = t')) as [->|Hne].
    + rewrite lookup_insert_eq. intros [= <-] [= <-]. done.
    + rewrite lookup_insert_ne by done. apply Hl.
  - destruct (decide (t = t')) as [->|Hne].
    + rewrite lookup_insert_eq. intros [= <-] [= <-]. by rewrite lookup_insert_eq.
    + rewrite lookup_insert_ne by done. intros Hp Hh. pose proof (Hl t' p c Hp Hh) as Hin. simpl in Hin.
      rewrite lookup_insert_ne; [done|]. intros Happ. rewrite <-Happ in Hin. congruence.
Qed.

Lemma all_listed_keep sh m t p sh' q : m !! t = Some p → all_listed (mkState sh m) →
  sh_counts sh' = sh_counts sh →
  (∀ c, handle_on q = Some c → handle_on p = Some c ∧ app_of q = app_of p) →
  all_listed (mkState sh' (<[t := q]> m)).
Proof.
  intros Ht Hl Hc Hh t' p' c. simpl. rewrite Hc. destruct (decide (t = t')) as [->|Hne].
  - rewrite lookup_insert_eq. intros [= <-] Hq. destruct (Hh c Hq) as [Hp ->]. by eapply Hl.
  - rewrite lookup_insert_ne by done. apply Hl.
Qed.

Lemma count_zero P m t p : count P m = 0%Z → m !! t = Some p → P p = false.
Proof.
  intros Hz Ht. apply not_true_iff_false. intros HP. unfold count in Hz.
  assert (filter (λ q : nat * Phase, P q.2 = true) m = ∅) as He by (apply map_size_empty_inv; lia).
  apply (map_filter_empty_not_lookup _ _ t p He HP Ht).
Qed.

Lemma count_none P m : (∀ t p, m !! t = Some p → P p = false) → count P m = 0%Z.
Proof.
  intros Hno. unfold count. replace (filter _ m) with (∅ : gmap nat Phase); [by rewrite map_size_empty|].
  symmetry. apply map_empty. intros t. apply map_lookup_filter_None. right. intros p Hp. simpl.
  by rewrite (Hno t p Hp).
Qed.

Lemma all_listed_unlist own sh m t app b : m !! t = Some (Uncounted app b) →
  (∀ t' c, m !! t' ≠ Some (Cloned app c)) → adm_ok own (mkState sh m) →
  all_listed (mkState sh m) →
  all_listed (mkState (remove_if_zero app sh) (<[t := Unlisted app b]> m)).
Proof.
  intros Ht Hcalm Hok Hl t' p c. simpl. destruct (decide (t = t')) as [->|Hne].
  { rewrite lookup_insert_eq. by intros [= <-]. }
  rewrite lookup_insert_ne by done. intros Hp Hh. pose proof (Hl t' p c Hp Hh) as Hin. simpl in Hin.
  unfold remove_if_zero. destruct (sh_counts sh !! app) as [d|] eqn:E; [|done].
  destruct (Z.eqb_spec (counter d sh) 0) as [Hz|]; [|done]. simpl.
  rewrite lookup_delete_ne; [done|]. intros Happ. rewrite <-Happ in Hin. rewrite E in Hin. injection Hin as <-.
  pose proof (ok_counter _ _ Hok d) as Hc. simpl in Hc. rewrite Hz in Hc.
  pose proof (count_zero _ _ _ _ (eq_sym Hc) Hp) as Hno.
  destruct p; simpl in *; simplify_eq; try (by rewrite bool_decide_eq_true_2 in Hno). by eapply Hcalm.
Qed.

Lemma calm_all_listed st : calm_reach st → all_listed st.
Proof.
  intros Hr. assert (adm_reach st ∧ all_listed st) as [_ ?]; [|done].
  refine (rtc_ind_r (λ st, adm_reach st ∧ all_listed st) _ _ _ st Hr);
    [split; [apply rtc_refl|intros t p c; simpl; by rewrite lookup_empty]|].
  intros s1 s2 _ Hstep [Hr1 Hl].
  assert (adm_reach s2) as Hr2.
  { eapply rtc_r; [exact Hr1|]. destruct Hstep; by constructor. }
  split; [done|]. destruct (adm_reach_ok s1 Hr1) as [own Hok].
  destruct Hstep as [sh m t app Ht|sh m t p i Ht Hcalm].
  - intros t' p c. simpl. destruct (decide (t = t')) as [->|Hne].
    + rewrite lookup_insert_eq. by intros [= <-].
    + rewrite lookup_insert_ne by done. apply Hl.
  - destruct p as [app|app|app|app c|app c|app c|app|app c b|app c b|app b|app b|app b|].
    3: { pose proof (all_listed_gate sh m t app Ht Hl) as Hg. simpl. by destruct (entry_clone app sh). }
    9: { eapply all_listed_unlist; eauto. }
    all: cbn [advance establish_step close_step fst snd]; repeat case_match; cbn [fst snd]; eapply all_listed_keep; eauto; naive_solver.
Qed.

(** Where no close drops an app's counter entry while an establish of the app
    holds a clone it has not counted yet, the app never has more live
    connections on the node than its capacity. *)
Theorem capacity_held_unless_raced (st : State) (app : string) :
  calm_reach st → (0 < capacity app)%Z → (count (is_live_of app) (st_conns st) <= capacity app)%Z.
Proof.
  intros Hr Hcap. pose proof (calm_all_listed st Hr) as Hl.
  destruct (adm_reach_ok st (calm_is_reach st Hr)) as [own [_ _ _ _ Ol _ _ Op]].
  destruct (sh_counts (st_shared st) !! app) as [c|] eqn:E.
  - specialize (Op app c (Ol _ _ E) ltac:(lia)).
    enough (count (is_live_of app) (st_conns st) <= count (past_capacity c) (st_conns st))%Z by lia.
    unfold count. apply inj_le, map_subseteq_size, map_filter_subseteq_ext. intros t p Hp. simpl.
    destruct p as [| | | | | | |a d b| | | | |]; simpl; try done. intros Ha%bool_decide_eq_true. subst a.
    pose proof (Hl t _ d Hp eq_refl) as Hd. simpl in Hd. rewrite E in Hd. injection Hd as ->.
    by apply bool_decide_eq_true.
  - rewrite count_none; [lia|]. intros t p Hp. destruct p as [| | | | | | |a d b| | | | |]; simpl; try done.
      apply bool_decide_eq_false. intros <-. pose proof (Hl t _ d Hp eq_refl) as Hd. simpl in Hd. congruence.
Qed.

(** *** Schedules *)

Inductive Event : Type :=
| Arrive (t : nat) (app : string)
| Step (t : nat) (i : Input).

Definition exec1 (e : Event) (st : State) : option State :=
  match e with
  | Arrive t app =>
      match st_conns st !! t with
      | None => Some (mkState (st_shared st) (<[t := Arriving app]> (st_conns st)))
      | Some _ => None
      end
  | Step t i =>
      match st_conns st !! t with
      | Some p => let '(sh, p) := advance i (st_shared st) p in Some (mkState sh (<[t := p]> (st_conns st)))
      | None => None
      end
  end.

Fixpoint exec (es : list Event) (st : State) : option State :=
  match es with
  | [] => Some st
  | e :: es => st ← exec1 e st; exec es st
  end.

Lemma exec_reach es st : exec es (mkState Shared_new ∅) = Some st → adm_reach st.
Proof.
  unfold adm_reach. generalize (mkState Shared_new ∅). induction es as [|e es IH]; intros s0; simpl.
  - intros [= <-]. apply rtc_refl.
  - intros (s1 & H1 & Hes)%bind_Some. eapply rtc_l; [|by apply IH]. destruct s0 as [sh m].
    destruct e as [t app|t i]; simpl in H1; destruct (m !! t) as [p|] eqn:Ht; try done.
    + injection H1 as <-. by constructor.
    + pose proof (adm_advance sh m t p i Ht) as Hs. destruct (advance i sh p). injection H1 as <-. exact Hs.
Qed.
End admission.

Module AdmissionDemo.
Definition go (t n : nat) : list Event := replicate n (Step t (mkInput false None false)).

(** Connection 1 clones the counter; connection 0 closes and drops the entry;
    connection 1 counts on the dropped counter; connection 2 gets a new one. *)
Definition race : list Event :=
  [Arrive 0 "app"] ++ go 0 5 ++ [Arrive 1 "app"] ++ go 1 3 ++ go 0 5 ++ go 1 2 ++ [Arrive 2 "app"] ++ go 2 5.
End AdmissionDemo.

(** The capacity of an app on one node can be exceeded. With a capacity of one,
    an establish that has cloned the app's counter and not yet counted on it
    keeps the counter when a close drops its entry, so that the next establish
    counts on a new one: two connections are live, and the app's entry counts
    one of them. *)
Theorem orphaned_counter_exceeds_capacity :
  ∃ (st : State) (c : nat),
    adm_reach 0 (λ _, 1%Z) false st ∧ settled st ∧
    count (is_live_of "app") (st_conns st) = 2%Z ∧
    sh_counts (st_shared st) !! "app" = Some c ∧ counter c (st_shared st) = 1%Z.
Proof.
  destruct (exec 0 (λ _, 1%Z) false AdmissionDemo.race (mkState Shared_new ∅)) as [st|] eqn:E;
    [|vm_compute in E; discriminate].
  pose proof (exec_reach _ _ _ _ _ E) as Hr. vm_compute in E. injection E as <-.
  eexists _, 1. split; [exact Hr|]. split; [apply settled_by; vm_compute; reflexivity|by vm_compute].
Qed.


(** Four connections in a cluster: one is admitted, one closes, one closes with
    its release dropped and one is turned away. *)
Lemma admission_books_witness :
  let es := [Arrive 0 "app"; Arrive 1 "app"; Arrive 2 "app"; Arrive 3 "app"]
    ++ replicate 5 (Step 0 (mkInput false (Some true) false)) ++ replicate 5 (Step 1 (mkInput false (Some true) false))
    ++ replicate 5 (Step 0 (mkInput false None false)) ++ replicate 7 (Step 2 (mkInput true None false))
    ++ replicate 5 (Step 3 (mkInput false (Some true) false)) ++ replicate 5 (Step 3 (mkInput false None true)) in
  ∃ st, exec 5 (λ _, 3%Z) true es (mkState Shared_new ∅) = Some st ∧ settled st ∧
    sh_node (st_shared st) = 1%Z ∧ units "app" (st_shared st) = 2%Z ∧ leaked "app" (st_shared st) = 1%Z ∧
    (count is_live (st_conns st) <= 5)%Z.
Proof.
  intros es. destruct (exec 5 (λ _, 3%Z) true es (mkState Shared_new ∅)) as [st|] eqn:E;
    [|vm_compute in E; discriminate].
  pose proof (exec_reach _ _ _ _ _ E) as Hr. vm_compute in E. injection E as E. exists st. split; [done|].
  assert (settled st) as Hs by (subst st; apply settled_by; vm_compute; reflexivity).
  destruct (admission_books 5 (λ _, 3%Z) true st Hr) as (H1 & _ & H3). destruct (H3 Hs) as (Hn & _ & Hu).
  split; [done|]. rewrite Hn, Hu. split_and!; [subst st; vm_compute; reflexivity..|apply H1; lia].
Defined.

Lemma capacity_held_unless_raced_witness :
  ∃ st, calm_reach 0 (λ _, 1%Z) false st ∧ count (is_live_of "app") (st_conns st) = 1%Z ∧
    (count (is_live_of "app") (st_conns st) <= 1)%Z.
Proof.
  assert (∃ st, calm_reach 0 (λ _, 1%Z) false st ∧ count (is_live_of "app") (st_conns st) = 1%Z) as (st & Hr & Hc).
  { eexists. split.
    - eapply rtc_l; [apply (calm_arrive _ _ _ _ _ 0 "app"); reflexivity|].
      do 5 (eapply rtc_l; [eapply (calm_advance _ _ _ _ _ 0 _ (mkInput false None false));
        [apply lookup_insert_eq|intros; discriminate]|]). apply rtc_refl.
    - vm_compute. reflexivity. }
  exists st. split; [done|]. split; [done|]. apply (capacity_held_unless_raced 0 (λ _, 1%Z) false); [done|lia].
Defined.
