(* ===== verification/Worker.v ===== *)
(** * The worker: [src/src/transport/worker.rs]

    One worker thread of a node, over plain TCP, dispatching the protocol: its
    slab of connections, its subscription index, its timer wheel and its byte
    totals, and one iteration of its event loop from the readiness events to
    the timers. The sockets, the poll, the clock, the app cache and the other
    threads are inputs. The counters of the node are those of Admission.v; here
    an establish and a close run them to the end. *)

From S2P Require Import Prelude RustStd Json Protocol Frame Timer Outbound Fanout WorkerIndex WorkerDrain.
From S2P Require Import Mailbox Registry UserRegistry Adapter Auth App Envelope Rate Handler Inbound Handshake Admission.

(** ** The connection index an adapter shares with the workers *)

Class AppTable (A : Type) : Type := {
  apps_of : A → AppRegistry;
  set_apps_of : AppRegistry → A → A
}.

#[export] Instance LocalAdapter_apps `{Moka} : AppTable LocalAdapter := {| apps_of := la_apps; set_apps_of := set_apps |}.

(** ** Configuration *)

Record DispatchEnv : Type := mkDispatchEnv {
  de_limits : Limits;
  de_activity_timeout : Z;
  de_pong_timeout : Z;
  de_max_conn_lifetime_secs : Z;
  de_strict_protocol : bool;
  de_saturated : bool;
  de_clustered : bool;
  de_cluster : bool;
  de_max_connections : Z;
  de_mailbox_capacity : nat
}.

(** [wc_dirty] and [wc_waker] are the worker's dirty-token queue and waker,
    [wc_slot] its slot of the broadcast sink when one is wired. *)
Record WorkerConfig : Type := mkWorkerConfig {
  wc_env : DispatchEnv;
  wc_max_payload : Z;
  wc_max_message_bytes : nat;
  wc_max_head_bytes : nat;
  wc_handshake_timeout_ms : Z;
  wc_high_water : Z;
  wc_rest_handoff : bool;
  wc_per_worker_budget : Z;
  wc_mailbox_dropped : option nat;
  wc_max_frames_per_second : Z;
  wc_max_frames_burst : Z;
  wc_max_accepts_per_second : Z;
  wc_codel : CodelParams;
  wc_shutdown_grace_ms : Z;
  wc_dirty : nat;
  wc_waker : nat;
  wc_slot : option nat
}.

(** ** Entries *)

Record PendingEstablish : Type := mkPendingEstablish {
  pn_key : string;
  pn_codec : Codec;
  pn_notify : MailboxNotify;
  pn_mailbox_dropped : option nat;
  pn_gen : Z
}.

Record ResolvedApp : Type := mkResolvedApp {
  rs_token : nat;
  rs_gen : Z;
  rs_result : result AppLookup AppLookupError
}.

(** What a lookup of an app key finds, by the time it is made. *)
Abbreviation AppDb := (string → nat → result AppLookup AppLookupError).

(** What a session has besides its context and codec: the last reconciled
    channels, the app's connection counter, and whether the cluster granted it
    a unit. *)
Record SessionRest : Type := mkSessionRest {
  sr_subs : gset string;
  sr_conn_count : nat;
  sr_cluster_admitted : bool
}.

(** [we_rest] is read only while the entry has a session. *)
Record WEntry : Type := mkWEntry {
  we_in : InEntry;
  we_state : ConnState;
  we_rest : SessionRest;
  we_pending : option PendingEstablish
}.

Definition no_rest : SessionRest := mkSessionRest ∅ 0 false.

Definition set_in (e : InEntry) (x : WEntry) : WEntry := mkWEntry e (we_state x) (we_rest x) (we_pending x).
Definition set_rest (r : SessionRest) (x : WEntry) : WEntry := mkWEntry (we_in x) (we_state x) r (we_pending x).
Definition set_pending (p : option PendingEstablish) (x : WEntry) : WEntry :=
  mkWEntry (we_in x) (we_state x) (we_rest x) p.

Definition we_session (x : WEntry) : option SessionState := en_session (we_in x).
Definition we_conn (x : WEntry) : Connection := li_conn (en_link (we_in x)).
Definition set_we_conn (c : Connection) (x : WEntry) : WEntry := set_in (on_conn (λ _, c) (we_in x)) x.

(** The session as the index sees it. *)
Definition index_session (x : WEntry) : option WorkerIndex.Session :=
  (λ s, WorkerIndex.mkSession (app_id (cx_app (se_ctx s))) (cx_socket_id (se_ctx s)) (version (se_codec s))
          (cx_subscribed (se_ctx s)) (sr_subs (we_rest x))) <$> we_session x.

Inductive WAction : Type :=
| WKeep
| WClose
| WHandoff (prefix : list Z).

Definition of_action (a : Action) : WAction := match a with Keep => WKeep | ActClose => WClose end.

(** ** The worker *)

(** The totals are [u64]s. *)
Record Totals : Type := mkTotals {
  to_inflight : Z;
  to_outbound : Z;
  to_codel : Z;
  to_drophead : Z
}.

(** The counters a worker publishes. *)
Record Slots : Type := mkSlots {
  sl_accepted : Z;
  sl_accept_limited : Z;
  sl_frame_limited : Z;
  sl_handshake_timeout : Z
}.

(** [wk_lookups] are the offloaded lookups under way, [wk_resolved] the channel
    of completed ones, [wk_handed] the connections given to the REST plane with
    the bytes already read. *)
Record Worker (A : Type) : Type := mkWorker {
  wk_conns : gmap nat WEntry;
  wk_subs : LocalSubs;
  wk_wheel : TimerWheel;
  wk_totals : Totals;
  wk_slots : Slots;
  wk_accepts : TokenBucket;
  wk_next_gen : Z;
  wk_lookups : list (nat * Z * string);
  wk_resolved : list ResolvedApp;
  wk_handed : list (Link * list Z);
  wk_shared : Shared;
  wk_world : World A
}.
Arguments mkWorker {A} _ _ _ _ _ _ _ _ _ _ _ _.
Arguments wk_conns {A} _.
Arguments wk_subs {A} _.
Arguments wk_wheel {A} _.
Arguments wk_totals {A} _.
Arguments wk_slots {A} _.
Arguments wk_accepts {A} _.
Arguments wk_next_gen {A} _.
Arguments wk_lookups {A} _.
Arguments wk_resolved {A} _.
Arguments wk_handed {A} _.
Arguments wk_shared {A} _.
Arguments wk_world {A} _.

Section setters.
Context {A : Type}.
Implicit Type w : Worker A.

Definition set_conns (m : gmap nat WEntry) w : Worker A :=
  mkWorker m (wk_subs w) (wk_wheel w) (wk_totals w) (wk_slots w) (wk_accepts w) (wk_next_gen w) (wk_lookups w)
    (wk_resolved w) (wk_handed w) (wk_shared w) (wk_world w).
Definition set_local_subs (m : LocalSubs) w : Worker A :=
  mkWorker (wk_conns w) m (wk_wheel w) (wk_totals w) (wk_slots w) (wk_accepts w) (wk_next_gen w) (wk_lookups w)
    (wk_resolved w) (wk_handed w) (wk_shared w) (wk_world w).
Definition set_wheel (t : TimerWheel) w : Worker A :=
  mkWorker (wk_conns w) (wk_subs w) t (wk_totals w) (wk_slots w) (wk_accepts w) (wk_next_gen w) (wk_lookups w)
    (wk_resolved w) (wk_handed w) (wk_shared w) (wk_world w).
Definition set_totals (t : Totals) w : Worker A :=
  mkWorker (wk_conns w) (wk_subs w) (wk_wheel w) t (wk_slots w) (wk_accepts w) (wk_next_gen w) (wk_lookups w)
    (wk_resolved w) (wk_handed w) (wk_shared w) (wk_world w).
Definition set_slots (s : Slots) w : Worker A :=
  mkWorker (wk_conns w) (wk_subs w) (wk_wheel w) (wk_totals w) s (wk_accepts w) (wk_next_gen w) (wk_lookups w)
    (wk_resolved w) (wk_handed w) (wk_shared w) (wk_world w).
Definition set_accepts (b : TokenBucket) w : Worker A :=
  mkWorker (wk_conns w) (wk_subs w) (wk_wheel w) (wk_totals w) (wk_slots w) b (wk_next_gen w) (wk_lookups w)
    (wk_resolved w) (wk_handed w) (wk_shared w) (wk_world w).
Definition set_gen (g : Z) (ls : list (nat * Z * string)) w : Worker A :=
  mkWorker (wk_conns w) (wk_subs w) (wk_wheel w) (wk_totals w) (wk_slots w) (wk_accepts w) g ls
    (wk_resolved w) (wk_handed w) (wk_shared w) (wk_world w).
Definition set_resolved (rs : list ResolvedApp) w : Worker A :=
  mkWorker (wk_conns w) (wk_subs w) (wk_wheel w) (wk_totals w) (wk_slots w) (wk_accepts w) (wk_next_gen w)
    (wk_lookups w) rs (wk_handed w) (wk_shared w) (wk_world w).
Definition set_handed (l : list (Link * list Z)) w : Worker A :=
  mkWorker (wk_conns w) (wk_subs w) (wk_wheel w) (wk_totals w) (wk_slots w) (wk_accepts w) (wk_next_gen w)
    (wk_lookups w) (wk_resolved w) l (wk_shared w) (wk_world w).
Definition set_node (sh : Shared) (x : World A) w : Worker A :=
  mkWorker (wk_conns w) (wk_subs w) (wk_wheel w) (wk_totals w) (wk_slots w) (wk_accepts w) (wk_next_gen w)
    (wk_lookups w) (wk_resolved w) (wk_handed w) sh x.

Definition on_wheel (f : TimerWheel → TimerWheel) w : Worker A := set_wheel (f (wk_wheel w)) w.

(** [conns.get_mut(key)], its result put back. *)
Definition on_entry (key : nat) (f : WEntry → WEntry) w : Worker A := set_conns (alter f key (wk_conns w)) w.

Definition bump_slot (f : Slots → Slots) w : Worker A := set_slots (f (wk_slots w)) w.
End setters.

(** ** The request path *)

(** First value of [name] in a raw query string. *)
Definition query_param (query : option string) (name : string) : option string :=
  q ← query;
  head (omap (λ pair, p ← Str.split_once "=" pair; if decide (p.1 = name) then Some p.2 else None) (Str.split "&" q)).

Definition parse_app_path (path : string) : option string * option string * option string :=
  let '(raw_path, query) :=
    match Str.split_once "?" path with Some (p, q) => (p, Some q) | None => (path, None) end in
  let key :=
    k ← Str.strip_prefix "/app/" raw_path;
    if negb (Str.is_empty k) && Str.all (λ c, negb (bool_decide (c = "/"%char))) k then Some k else None in
  (key, query_param query "protocol", query_param query "version").

Section worker.
Context `{SerdeJson, Crypto, HttpParse, Sha1, Base64} {A : Type} `{Adapter A, AppTable A}.
Context (cfg : WorkerConfig).
Implicit Type w : Worker A.

Definition env : DispatchEnv := wc_env cfg.

(** ** Byte accounts *)

(** [delta as u64] of an [i64]. *)
Definition as_u64 (d : Z) : Z := (d mod 2 ^ 64)%Z.
Definition wrapping_sub (a b : Z) : Z := ((a - b) mod 2 ^ 64)%Z.

Definition fold_delta (key : nat) w : Worker A :=
  match wk_conns w !! key with
  | None => w
  | Some x =>
      let t := wk_totals w in
      let '(c, di) := take_inflight_delta (we_conn x) in
      let inflight := if (di =? 0)%Z then to_inflight t else wrapping_add (to_inflight t) (as_u64 di) in
      let '(c, dout) := take_outbound_delta c in
      let outbound := if (dout =? 0)%Z then to_outbound t else wrapping_add (to_outbound t) (as_u64 dout) in
      set_totals (mkTotals inflight outbound (to_codel t) (to_drophead t)) (on_entry key (set_we_conn c) w)
  end.

Definition fold_codel (key : nat) w : Worker A :=
  match wk_conns w !! key with
  | None => w
  | Some x =>
      let t := wk_totals w in
      let '(c, n) := take_codel_dropped (we_conn x) in
      let total := if (0 <? n)%Z then wrapping_add (to_codel t) n else to_codel t in
      set_totals (mkTotals (to_inflight t) (to_outbound t) total (to_drophead t)) (on_entry key (set_we_conn c) w)
  end.

Definition fold_drophead (key : nat) w : Worker A :=
  match wk_conns w !! key with
  | None => w
  | Some x =>
      let t := wk_totals w in
      let '(c, n) := take_drophead_dropped (we_conn x) in
      let total := if (0 <? n)%Z then wrapping_add (to_drophead t) n else to_drophead t in
      set_totals (mkTotals (to_inflight t) (to_outbound t) (to_codel t) total) (on_entry key (set_we_conn c) w)
  end.

Definition fold_drops (key : nat) w : Worker A := fold_drophead key (fold_codel key w).

(** Fold what a departing connection has accumulated, then give back what it
    still holds. *)
Definition settle_totals (x : WEntry) (t : Totals) : Totals :=
  let c := we_conn x in
  mkTotals (wrapping_sub (wrapping_add (to_inflight t) (as_u64 (inflight_delta c))) (accounted_bytes c))
    (wrapping_sub (wrapping_add (to_outbound t) (as_u64 (outbound_delta c))) (outbound_bytes c))
    (to_codel t) (to_drophead t).

(** ** Removal *)

(** Dropping a receiver. *)
Definition close_chan (i : nat) (st : Store) : Store :=
  mkStore (alter (λ c, mkChan [] (capacity c) true) i (chans st)) (dirty st) (wakes st) (counters st).

Definition on_apps (f : AppRegistry → AppRegistry) (x : World A) : World A :=
  let '(a, e) := w_ad x in set_ad (set_apps_of (f (apps_of a)) a, e) x.

Definition on_store (f : Store → Store) (x : World A) : World A :=
  let '(a, e) := w_ad x in set_ad (a, set_store (f (env_store e)) e) x.

(** The counters a closing session gives back. [sh_units] moves with the command
    handed to the bridge; what the bridge may lose of it is in [Admission]. *)
Definition release_counts (app : string) (r : SessionRest) (sh : Shared) : Shared :=
  let sh := add_counter (sr_conn_count r) (-1) sh in
  let sh := remove_if_zero app sh in
  let sh := add_node (-1) sh in
  if sr_cluster_admitted r && de_cluster env then add_units app (-1) sh else sh.

(** The session's part of a removal. *)
Definition close_session (x : WEntry) w : Worker A :=
  match we_session x, index_session x with
  | Some s, Some ix =>
      let w := set_local_subs (deindex_connection ix (wk_subs w)) w in
      let '(ctx, world) := on_close (se_ctx s) (wk_world w) in
      let app := app_id (cx_app ctx) in
      let world := on_apps (app_remove app (cx_socket_id ctx)) world in
      let sh := release_counts app (we_rest x) (wk_shared w) in
      set_node sh (on_store (close_chan (cx_self_tx ctx)) world) w
  | _, _ => w
  end.

Definition remove_conn (key : nat) w : Worker A :=
  let w := on_wheel (Timer.remove key) w in
  match wk_conns w !! key with
  | None => w
  | Some x =>
      close_session x (set_totals (settle_totals x (wk_totals w)) (set_conns (delete key (wk_conns w)) w))
  end.

(** ** Writing to a connection *)

Definition queue_text (text : string) (now_ns : Z) (x : WEntry) : WEntry :=
  set_in (queue_frame (encode_text [] (as_bytes text)) now_ns (we_in x)) x.

Definition queue_bytes (bytes : list Z) (now_ns : Z) (x : WEntry) : WEntry :=
  set_in (queue_frame bytes now_ns (we_in x)) x.

Definition flush_entry (now_ns : Z) (x : WEntry) : WEntry * Action :=
  let '(e, a) := flush_and_arm now_ns (we_in x) in (set_in e x, a).

(** A function on the entry at [key] that answers, [None] when there is none. *)
Definition with_entry {T} (key : nat) (f : WEntry → WEntry * T) w : Worker A * option T :=
  match wk_conns w !! key with
  | None => (w, None)
  | Some x => let '(x, t) := f x in (set_conns (<[key := x]> (wk_conns w)) w, Some t)
  end.

(** The connection has to be in the protocol. *)
Definition queue_ping (now_ns : Z) (key : nat) w : Worker A * option Action :=
  let '(w, r) :=
    with_entry key
      (λ x,
        match we_session x with
        | None => (x, None)
        | Some s =>
            if decide (we_state x = Open) then
              let '(x, a) := flush_entry now_ns (queue_text (codec_encode (se_codec s) Ping) now_ns x) in (x, Some a)
            else (x, None)
        end) w in
  (w, mjoin r).

Definition send_close_reply (code : Z) (reason : string) (now_ns : Z) (key : nat) w : Worker A * Action :=
  let '(w, r) :=
    with_entry key (λ x, flush_entry now_ns (set_in (queue_close_frame code reason now_ns (we_in x)) x)) w in
  (w, default ActClose r).

Definition PONG_TIMEOUT_REASON : string :=
  "Pong reply not received: ping was sent to the client, but no reply was received".
Definition SHUTDOWN_REASON : string := "Server is shutting down; please reconnect".

Definition send_close_4201 (now_ns : Z) (key : nat) w : Worker A :=
  (send_close_reply 4201 PONG_TIMEOUT_REASON now_ns key w).1.
Definition send_close_4200 (now_ns : Z) (key : nat) w : Worker A * Action :=
  send_close_reply 4200 SHUTDOWN_REASON now_ns key w.
Definition send_close_4202 (now_ns : Z) (key : nat) w : Worker A :=
  (send_close_reply 4202 (pe_message PusherErrors.max_lifetime) now_ns key w).1.

(** An error text, by the session's codec or built by hand without one. *)
Definition error_text (codec : option Codec) (e : PusherError) : string :=
  match codec with
  | Some c => codec_encode c (Error e)
  | None => to_string (Frames.error_frame (pe_code e) (pe_message e))
  end.

Definition queue_error (e : PusherError) (now_ns : Z) (key : nat) w : Worker A :=
  on_entry key (λ x, queue_text (error_text (se_codec <$> we_session x) e) now_ns x) w.

Definition queue_lifetime_error : Z → nat → Worker A → Worker A := queue_error PusherErrors.max_lifetime.
Definition queue_shutdown_error : Z → nat → Worker A → Worker A := queue_error (mkPusherError 4200 SHUTDOWN_REASON).

Definition drain_close_connection (now_ns : Z) (key : nat) w : Worker A :=
  let w := queue_shutdown_error now_ns key w in
  let '(w, a) := send_close_4200 now_ns key w in
  let w := fold_drops key (fold_delta key w) in
  if decide (a = ActClose) then remove_conn key w else w.

(** ** Accepting *)

(** An answer of [accept]: a connection with the vacant slot it would take and
    whether its registration succeeds. *)
Inductive AcceptAnswer : Type :=
| Accepted (key : nat) (registered : bool)
| AcceptWouldBlock
| AcceptInterrupted
| AcceptFailed.

(** The slot a slab picks: [key] if it is vacant. *)
Definition vacant_key (key : nat) (conns : gmap nat WEntry) : nat :=
  if decide (key ∈ dom conns) then fresh (dom conns) else key.

Definition new_entry : WEntry :=
  mkWEntry
    (mkInEntry (mkLink (set_codel (wc_codel cfg) (Connection_new (wc_high_water cfg))) [] [] false) [] [] None
       (TokenBucket_new (wc_max_frames_per_second cfg) (wc_max_frames_burst cfg)) None)
    Handshaking no_rest None.

(** The loop ends when nothing waits; [accepted] counts. *)
Fixpoint accept_ready (answers : list AcceptAnswer) (handshake_deadline : option Z) (now_ns : Z) (accepted : Z) w
    : Worker A * Z :=
  match answers with
  | Accepted key registered :: answers =>
      let '(bucket, granted) := take_at_ns now_ns 1 (wk_accepts w) in
      let w := set_accepts bucket w in
      if negb granted then
        accept_ready answers handshake_deadline now_ns accepted
          (bump_slot (λ s, mkSlots (sl_accepted s) (wrapping_add (sl_accept_limited s) 1) (sl_frame_limited s)
                             (sl_handshake_timeout s)) w)
      else if negb registered then accept_ready answers handshake_deadline now_ns accepted w
      else
        let key := vacant_key key (wk_conns w) in
        let w := set_conns (<[key := new_entry]> (wk_conns w)) w in
        let w := match handshake_deadline with Some d => on_wheel (Timer.arm_handshake key d) w | None => w end in
        accept_ready answers handshake_deadline now_ns (accepted + 1) w
  | AcceptInterrupted :: answers => accept_ready answers handshake_deadline now_ns accepted w
  | AcceptWouldBlock :: _ | AcceptFailed :: _ | [] => (w, accepted)
  end.

Definition arm_lifetime (key : nat) (now_ms : Z) (t : TimerWheel) : TimerWheel :=
  if (0 <? de_max_conn_lifetime_secs env)%Z then
    Timer.arm_lifetime key (U64.saturating_add now_ms (U64.saturating_mul (de_max_conn_lifetime_secs env) 1000)) t
  else t.

(** ** Establishing *)

Record Reject : Type := mkReject { rj_error : PusherError; rj_codec : option Codec }.

(** What an establish reads from elsewhere: the id generated and the cluster's
    verdict. *)
Record EstablishInput : Type := mkEstablishInput { ei_socket_id : SocketId; ei_verdict : option bool }.

Definition server_saturated (x : World A) : bool :=
  de_saturated env && flag_is_saturated (env_percore (w_ad x).2).

(** The counters an establish takes: the counter of the app with the cluster's
    grant, or the refusal. *)
Definition take_counts (app : App) (i : EstablishInput) (x : World A) (sh : Shared)
    : Shared * result (nat * bool) PusherError :=
  let node_n := sh_node sh in
  let sh := add_node 1 sh in
  if negb (de_max_connections env =? 0)%Z && (de_max_connections env <=? node_n)%Z then
    (add_node (-1) sh, Err PusherErrors.server_over_capacity)
  else if server_saturated x then (add_node (-1) sh, Err PusherErrors.server_over_capacity)
  else
    let '(sh, counter) := entry_clone (app_id app) sh in
    let current := Admission.counter counter sh in
    let sh := add_counter counter 1 sh in
    let refuse sh := (add_node (-1) (add_counter counter (-1) sh), Err PusherErrors.over_capacity) in
    if negb (app_capacity app =? 0)%Z && (app_capacity app <=? current)%Z then refuse sh
    else if negb (app_capacity app =? 0)%Z && de_cluster env then
      match ei_verdict i with
      | Some true => (add_units (app_id app) 1 sh, Ok (counter, true))
      | Some false => refuse sh
      | None => (sh, Ok (counter, false))
      end
    else (sh, Ok (counter, false)).

(** [mpsc::channel(capacity.max(1))]. *)
Definition new_chan (st : Store) : Store * nat :=
  let i := fresh (dom (chans st)) in
  (mkStore (<[i := mkChan [] (Nat.max (de_mailbox_capacity env) 1) false]> (chans st)) (dirty st) (wakes st)
     (counters st), i).

Definition new_context (app : App) (codec : Codec) (sid : SocketId) (tx : nat) (notify : MailboxNotify)
    (dropped : option nat) : ConnectionContext :=
  mkConnectionContext app sid tx (de_limits env) ∅ None ∅
    (RateWindow_new (max_client_events_per_second (de_limits env))) (de_saturated env) (de_clustered env)
    (Some notify) dropped (capabilities codec).

Definition finish_establish (i : EstablishInput) (app : App) (codec : Codec) (notify : MailboxNotify)
    (dropped : option nat) (sh : Shared) (x : World A)
    : Shared * World A * result (SessionState * SessionRest) Reject :=
  match take_counts app i x sh with
  | (sh, Err e) => (sh, x, Err (mkReject e (Some codec)))
  | (sh, Ok (counter, admitted)) =>
      let '(a, e) := w_ad x in
      let '(st, tx) := new_chan (env_store e) in
      let ctx := new_context app codec (ei_socket_id i) tx notify dropped in
      let x := on_apps (app_insert (app_id app) (conn_handle ctx)) (set_ad (a, set_store st e) x) in
      (sh, x, Ok (mkSessionState ctx codec, mkSessionRest ∅ counter admitted))
  end.

(** The error text, then a close frame with its code and message. *)
Definition queue_reject (r : Reject) (now_ns : Z) (x : WEntry) : WEntry :=
  let x := queue_text (error_text (rj_codec r) (rj_error r)) now_ns x in
  set_in (queue_close_frame (pe_code (rj_error r)) (pe_message (rj_error r)) now_ns (we_in x)) x.

(** The session with its welcome queued. *)
Definition install_session (s : SessionState * SessionRest) (now_ns : Z) (x : WEntry) : WEntry :=
  let established := ConnectionEstablished (cx_socket_id (se_ctx s.1)) (de_activity_timeout env) in
  let x := queue_text (codec_encode (se_codec s.1) established) now_ns x in
  set_rest s.2 (set_in (set_session (Some s.1) (we_in x)) x).

(** What a lookup means for an establish. *)
Definition resolve_app (i : EstablishInput) (l : result AppLookup AppLookupError) (codec : Codec)
    (notify : MailboxNotify) (dropped : option nat) (sh : Shared) (x : World A)
    : Shared * World A * result (SessionState * SessionRest) Reject :=
  match l with
  | Ok (Found app) => finish_establish i app codec notify dropped sh x
  | Ok Disabled => (sh, x, Err (mkReject PusherErrors.app_disabled (Some codec)))
  | Ok NotFound => (sh, x, Err (mkReject PusherErrors.app_not_found (Some codec)))
  | Err _ => (sh, x, Err (mkReject PusherErrors.backend_unavailable (Some codec)))
  end.

(** ** The handshake *)

(** What the iteration reads from elsewhere: the clock, the L1 cache, and what
    an establish on a token would meet. *)
Record Inputs : Type := mkInputs {
  in_now_ns : Z;
  in_cached : string → option (result AppLookup AppLookupError);
  in_establish : nat → EstablishInput
}.

Definition now_ms (i : Inputs) : Z := (in_now_ns i / 1000000)%Z.

Definition wrapping_inc (g : Z) : Z := ((g + 1) mod 2 ^ 64)%Z.

Definition put_entry (key : nat) (x : WEntry) w : Worker A := set_conns (<[key := x]> (wk_conns w)) w.

(** Queue a refusal, flush it, and close. *)
Definition reject_entry (r : Reject) (now_ns : Z) (key : nat) (x : WEntry) w : Worker A * WAction :=
  (put_entry key (flush_entry now_ns (queue_reject r now_ns x)).1 w, WClose).

Definition flush_kept (now_ns : Z) (key : nat) (x : WEntry) w : Worker A * WAction :=
  let '(x, a) := flush_entry now_ns x in (put_entry key x w, of_action a).

(** The upgrade of a dispatching worker, once the 101 is queued. *)
Definition establish (i : Inputs) (path : string) (key : nat) (x : WEntry) w : Worker A * WAction :=
  let now_ns := in_now_ns i in
  let notify := mkMailboxNotify key (wc_dirty cfg) (wc_waker cfg) in
  let '(app_key, protocol, ver) := parse_app_path path in
  match negotiate protocol ver (de_strict_protocol env) with
  | Err e => reject_entry (mkReject e None) now_ns key x w
  | Ok codec =>
      match app_key with
      | None => reject_entry (mkReject PusherErrors.path_not_found (Some codec)) now_ns key x w
      | Some app_key =>
          match in_cached i app_key with
          | None =>
              let gen := wk_next_gen w in
              let x := set_pending (Some (mkPendingEstablish app_key codec notify (wc_mailbox_dropped cfg) gen)) x in
              let w := set_gen (wrapping_inc gen) (wk_lookups w ++ [(key, gen, app_key)]) w in
              flush_kept now_ns key x w
          | Some l =>
              match resolve_app (in_establish i key) l codec notify (wc_mailbox_dropped cfg) (wk_shared w)
                      (wk_world w) with
              | (sh, world, Ok s) =>
                  let w := set_node sh world w in
                  let w := on_wheel (λ t, arm_lifetime key (now_ms i) (Timer.clear_handshake key t)) w in
                  flush_kept now_ns key (install_session s now_ns x) w
              | (sh, world, Err r) => reject_entry r now_ns key x (set_node sh world w)
              end
          end
      end
  end.

(** [drain_head_bytes] of a plain stream: [None] when it closed. *)
Fixpoint drain_head_bytes (reads : list ReadResult) (buf : list Z) : list ReadResult * list Z * bool :=
  match reads with
  | [] => ([], buf, true)
  | ReadOk [] :: reads => (reads, buf, false)
  | ReadOk bytes :: reads => drain_head_bytes reads (buf ++ bytes)
  | ReadWouldBlock :: reads => (reads, buf, true)
  | ReadInterrupted :: reads => drain_head_bytes reads buf
  | ReadError :: reads => (reads, buf, false)
  end.

Definition set_inbound (reads : list ReadResult) (inbuf : list Z) (x : WEntry) : WEntry :=
  let e := we_in x in
  set_in (mkInEntry (en_link e) reads inbuf (en_fragment e) (en_frames e) (en_session e)) x.

(** Flush what waits, or drop a write interest nothing needs; the registration
    of the latter succeeds as the head of the coming answers says. *)
Definition arm_handshake_interest (now_ns : Z) (x : WEntry) : WEntry * Action :=
  let l := en_link (we_in x) in
  if negb (bool_decide (out (li_conn l) = [])) then flush_entry now_ns x
  else if li_writable_armed l then
    let reregistered := match head (li_io l) with Some (_, r) => r | None => true end in
    let l armed := mkLink (li_conn l) (li_wire l) (tail (li_io l)) armed in
    if reregistered then (set_in (set_link (l false) (we_in x)) x, Keep)
    else (set_in (set_link (l true) (we_in x)) x, ActClose)
  else (x, Keep).

Definition set_state (s : ConnState) (x : WEntry) : WEntry := mkWEntry (we_in x) s (we_rest x) (we_pending x).

Definition handle_handshake (i : Inputs) (key : nat) (x : WEntry) w : Worker A * WAction :=
  let now_ns := in_now_ns i in
  let '(reads, inbuf, alive) := drain_head_bytes (en_reads (we_in x)) (en_inbuf (we_in x)) in
  let x := set_inbound reads inbuf x in
  if negb alive then (put_entry key x w, WClose)
  else
    match read_head inbuf (wc_max_head_bytes cfg) with
    | NeedMore => let '(x, a) := arm_handshake_interest now_ns x in (put_entry key x w, of_action a)
    | WsUpgrade ws_key path =>
        let x := queue_bytes (as_bytes (accept_response ws_key)) now_ns x in
        establish i path key (set_state Open (set_inbound reads [] x)) w
    | Handshake.Rest _ => (put_entry key x w, if wc_rest_handoff cfg then WHandoff inbuf else WClose)
    | TooManyHeaders =>
        let x := queue_bytes (as_bytes header_fields_too_large_response) now_ns x in
        (put_entry key (flush_entry now_ns x).1 w, WClose)
    | Bad _ => (put_entry key x w, WClose)
    end.

(** ** Readiness *)

(** [handle_frames] on the entry at [key]. *)
Definition handle_open (i : Inputs) (key : nat) (x : WEntry) w : Worker A * WAction :=
  let slots := wk_slots w in
  let '((e, world), a, limited) :=
    handle_frames (wc_max_payload cfg) (wc_max_message_bytes cfg) (in_now_ns i) (Some (sl_frame_limited slots))
      (we_in x, wk_world w) in
  let slots := mkSlots (sl_accepted slots) (sl_accept_limited slots) (default 0%Z limited) (sl_handshake_timeout slots) in
  (set_slots slots (put_entry key (set_in e x) (set_node (wk_shared w) world w)), of_action a).

Definition handle_readable (i : Inputs) (key : nat) w : Worker A * WAction :=
  match wk_conns w !! key with
  | None => (w, WKeep)
  | Some x =>
      match we_state x with
      | Handshaking => handle_handshake i key x w
      | Open => handle_open i key x w
      end
  end.

Definition handle_writable (i : Inputs) (key : nat) w : Worker A * WAction :=
  match wk_conns w !! key with
  | None => (w, WKeep)
  | Some x =>
      match we_state x with
      | Handshaking => handle_handshake i key x w
      | Open => flush_kept (in_now_ns i) key x w
      end
  end.

(** Give the socket and the bytes read so far to the REST plane. *)
Definition handoff_rest (prefix : list Z) (key : nat) w : Worker A :=
  match wk_conns w !! key with
  | None => w
  | Some x =>
      let w := set_totals (settle_totals x (wk_totals w)) (set_conns (delete key (wk_conns w)) w) in
      if wc_rest_handoff cfg then set_handed (wk_handed w ++ [(en_link (we_in x), prefix)]) w else w
  end.

(** [reconcile_membership] on the session at [key]. *)
Definition reconcile_entry (key : nat) w : Worker A :=
  match wk_conns w !! key with
  | None => w
  | Some x =>
      match index_session x with
      | None => w
      | Some s =>
          let '(s, subs) := reconcile_membership s key (wk_subs w) in
          let r := we_rest x in
          set_local_subs subs
            (put_entry key (set_rest (mkSessionRest (s_subs s) (sr_conn_count r) (sr_cluster_admitted r)) x) w)
      end
  end.

(** A readiness event of a connection. *)
Record ConnEvent : Type := mkConnEvent { ev_key : nat; ev_hangup : bool; ev_readable : bool; ev_writable : bool }.

(** [None] goes on to the writable part, [Some] is the [continue]. *)
Definition on_readable (i : Inputs) (key : nat) w : Worker A * bool :=
  let w := on_wheel (Timer.touch key (now_ms i)) w in
  match handle_readable i key w with
  | (w, WClose) => (remove_conn key (fold_drops key w), false)
  | (w, WHandoff prefix) =>
      (handoff_rest prefix key (on_wheel (Timer.remove key) (fold_drops key w)), false)
  | (w, WKeep) => (reconcile_entry key (fold_drops key (fold_delta key w)), true)
  end.

Definition on_writable (i : Inputs) (key : nat) w : Worker A :=
  let '(w, a) := handle_writable i key w in
  let w := fold_drops key (fold_delta key w) in
  match a with
  | WClose => remove_conn key w
  | WHandoff prefix => handoff_rest prefix key (on_wheel (Timer.remove key) w)
  | WKeep => reconcile_entry key w
  end.

Definition on_conn_event (i : Inputs) (ev : ConnEvent) w : Worker A :=
  let key := ev_key ev in
  if decide (key ∈ dom (wk_conns w)) then
    if ev_hangup ev then remove_conn key w
    else
      let '(w, go_on) := if ev_readable ev then on_readable i key w else (w, true) in
      if go_on && ev_writable ev && bool_decide (key ∈ dom (wk_conns w)) then on_writable i key w else w
  else w.

Inductive Event : Type :=
| EvListener (answers : list AcceptAnswer)
| EvWaker
| EvConn (ev : ConnEvent).

Definition on_listener (i : Inputs) (answers : list AcceptAnswer) w : Worker A :=
  let deadline :=
    if (0 <? wc_handshake_timeout_ms cfg)%Z then Some (U64.saturating_add (now_ms i) (wc_handshake_timeout_ms cfg))
    else None in
  let '(w, n) := accept_ready answers deadline (in_now_ns i) 0 w in
  bump_slot (λ s, mkSlots (wrapping_add (sl_accepted s) n) (sl_accept_limited s) (sl_frame_limited s)
                    (sl_handshake_timeout s)) w.

Definition on_event (i : Inputs) w (ev : Event) : Worker A :=
  match ev with
  | EvListener answers => on_listener i answers w
  | EvWaker => w
  | EvConn ev => on_conn_event i ev w
  end.

(** ** Cross-worker work *)

Definition entry_view (x : WEntry) : WorkerDrain.Entry :=
  mkEntry (we_conn x) (we_state x) (bool_decide (is_Some (we_session x))).

(** The entries with the connections of the views. *)
Definition put_views (views : gmap nat WorkerDrain.Entry) (conns : gmap nat WEntry) : gmap nat WEntry :=
  map_imap (λ k x, Some (match views !! k with Some v => set_we_conn (e_conn v) x | None => x end)) conns.

Definition on_slot (k : nat) (f : WorkerSlot → WorkerSlot) (x : World A) : World A :=
  let '(a, e) := w_ad x in
  let p := env_percore e in
  set_ad (a, set_percore (mkPercore (alter f k (pc_slots p)) (pc_inbox_full p) (pc_workers p)) e) x.

Definition set_bit (b : bool) (s : WorkerSlot) : WorkerSlot :=
  mkWorkerSlot (ws_inbox s) (ws_cap s) (ws_gone s) (ws_wakes s) (ws_dropped s) b.
Definition empty_inbox (s : WorkerSlot) : WorkerSlot :=
  mkWorkerSlot [] (ws_cap s) (ws_gone s) (ws_wakes s) (ws_dropped s) (ws_budget_saturated s).

(** Flush one connection queued onto; the ones that fail are closed later. *)
Definition flush_touched (now_ns : Z) (st : Worker A * gset nat) (token : nat) : Worker A * gset nat :=
  let '(w, to_close) := st in
  if decide (token ∈ to_close) then st
  else
    match wk_conns w !! token with
    | None => st
    | Some x =>
        let '(x, a) := flush_entry now_ns x in
        let w := fold_drops token (fold_delta token (put_entry token x w)) in
        (w, if decide (a = ActClose) then {[token]} ∪ to_close else to_close)
    end.

Definition drain_broadcasts (slot : nat) (effective_budget now_ns : Z) w : Worker A * bool :=
  let p := env_percore (w_ad (wk_world w)).2 in
  let inbox := match pc_slots p !! slot with Some s => ws_inbox s | None => [] end in
  let bit := budget_bit p slot in
  let t := wk_totals w in
  let d := drain_broadcast_inbox effective_budget now_ns ∅ (wk_subs w) inbox
             (mkDrain (entry_view <$> wk_conns w) (to_inflight t) (to_outbound t) (to_drophead t) (Some bit) ∅) in
  let world := on_slot slot (λ s, set_bit (default bit (d_bit d)) (empty_inbox s)) (wk_world w) in
  let w := set_node (wk_shared w) world (set_conns (put_views (d_conns d) (wk_conns w)) w) in
  let w := set_totals (mkTotals (d_inflight d) (d_outbound d) (to_codel t) (d_drophead d)) w in
  let touched := elements (d_touched d) in
  let '(w, to_close) := foldl (flush_touched now_ns) (w, ∅) touched in
  (foldl (λ w k, remove_conn k w) w (elements to_close), negb (bool_decide (touched = []))).

(** The broadcast part of an iteration: the drain, then the saturation bits. *)
Definition broadcast_phase (effective_budget : Z) (i : Inputs) w : Worker A * bool :=
  match wc_slot cfg with
  | None => (w, false)
  | Some slot =>
      let '(w, wrote) := drain_broadcasts slot effective_budget (in_now_ns i) w in
      let '(a, e) := w_ad (wk_world w) in
      let world := set_ad (a, set_percore (clear_inbox_full (env_percore e)) e) (wk_world w) in
      let inflight := to_inflight (wk_totals w) in
      let world := on_slot slot (λ s, set_bit (Shed.update_budget_pressure (ws_budget_saturated s) inflight effective_budget) s) world in
      (set_node (wk_shared w) world w, wrote)
  end.

(** Take the dirty-token queue. *)
Definition take_dirty (w0 : Worker A) : Worker A * list nat :=
  let st := env_store (w_ad (wk_world w0)).2 in
  let tokens := default [] (dirty st !! wc_dirty cfg) in
  let st' := mkStore (chans st) (alter (λ _, []) (wc_dirty cfg) (dirty st)) (wakes st) (counters st) in
  (set_node (wk_shared w0) (on_store (λ _, st') (wk_world w0)) w0, tokens).

(** One dirty token: a stale one is skipped. *)
Definition drain_dirty_one (now_ns : Z) (st : Worker A * bool) (key : nat) : Worker A * bool :=
  let '(w, wrote_any) := st in
  match wk_conns w !! key with
  | None => st
  | Some x =>
      if bool_decide (is_Some (we_session x)) && bool_decide (we_state x = Open) then
        let '((e, world), r) := drain_session now_ns (we_in x, wk_world w) in
        let w := put_entry key (set_in e x) (set_node (wk_shared w) world w) in
        let w := fold_drops key (fold_delta key w) in
        let wrote_any := wrote_any || res_wrote r in
        if decide (res_action r = ActClose) then (remove_conn key w, wrote_any)
        else (if res_subs_changed r then reconcile_entry key w else w, wrote_any)
      else st
  end.

Definition drain_dirty_sessions (now_ns : Z) w : Worker A * bool :=
  let '(w, tokens) := take_dirty w in
  foldl (drain_dirty_one now_ns) (w, false) (elements (list_to_set tokens : gset nat)).

(** One completed lookup: discarded unless the entry waits for this very one. *)
Definition resolve_one (i : Inputs) w (r : ResolvedApp) : Worker A * bool :=
  let now_ns := in_now_ns i in
  let key := rs_token r in
  match wk_conns w !! key with
  | None => (w, false)
  | Some x =>
      match we_pending x with
      | None => (w, false)
      | Some p =>
          if negb (pn_gen p =? rs_gen r)%Z then (w, false)
          else
            let x := set_pending None x in
            match resolve_app (in_establish i key) (rs_result r) (pn_codec p) (pn_notify p) (pn_mailbox_dropped p)
                    (wk_shared w) (wk_world w) with
            | (sh, world, Ok s) =>
                let w := set_node sh world w in
                let '(x, a) := flush_entry now_ns (install_session s now_ns x) in
                let w := fold_drops key (fold_delta key (put_entry key x w)) in
                if decide (a = ActClose) then (remove_conn key w, true)
                else
                  (on_wheel (λ t, Timer.clear_handshake key
                                    (arm_lifetime key (now_ms i) (Timer.touch key (now_ms i) t))) w, true)
            | (sh, world, Err rj) =>
                let w := set_node sh world w in
                let x := (flush_entry now_ns (queue_reject rj now_ns x)).1 in
                (remove_conn key (fold_drops key (fold_delta key (put_entry key x w))), true)
            end
      end
  end.

Definition resolve_all (i : Inputs) (rs : list ResolvedApp) w : Worker A * bool :=
  foldl (λ st r, let '(w, b) := resolve_one i st.1 r in (w, st.2 || b)) (w, false) rs.

Definition drain_resolved (i : Inputs) w : Worker A * bool := resolve_all i (wk_resolved w) (set_resolved [] w).

(** ** Timers *)

Definition on_due (i : Inputs) w (d : Due) : Worker A :=
  let now_ns := in_now_ns i in
  let close key w := remove_conn key (fold_drops key (fold_delta key w)) in
  match d with
  | DuePing key =>
      match queue_ping now_ns key w with
      | (w, Some a) =>
          let w := fold_delta key w in
          if decide (a = ActClose) then remove_conn key (fold_drops key w)
          else on_wheel (Timer.mark_ping_sent key (now_ms i)) w
      | (w, None) => on_wheel (Timer.clear_liveness key) w
      end
  | Close4201 key => close key (send_close_4201 now_ns key w)
  | Close4202 key => close key (send_close_4202 now_ns key (queue_lifetime_error now_ns key w))
  | HandshakeTimeout key =>
      match wk_conns w !! key with
      | Some x =>
          if bool_decide (we_session x = None) then
            remove_conn key
              (bump_slot (λ s, mkSlots (sl_accepted s) (sl_accept_limited s) (sl_frame_limited s)
                                 (wrapping_add (sl_handshake_timeout s) 1)) w)
          else on_wheel (Timer.clear_handshake key) w
      | None => on_wheel (Timer.clear_handshake key) w
      end
  end.

Definition timer_phase (i : Inputs) w : Worker A * bool :=
  let '(t, ds) := Timer.due (now_ms i) (wk_wheel w) in
  (foldl (on_due i) (set_wheel t w) ds, negb (bool_decide (ds = []))).

(** ** One iteration *)

(** [per_worker_budget] scaled by the pressure factor in thousandths. *)
Definition effective_budget (factor : option Z) : Z :=
  match factor with
  | Some f => (U64.saturating_mul (wc_per_worker_budget cfg) f / 1000)%Z
  | None => wc_per_worker_budget cfg
  end.

(** The work of a turn up to the completed lookups. *)
Definition up_to_lookups (i : Inputs) (factor : option Z) (events : list Event) w : Worker A :=
  let w := foldl (on_event i) w events in
  let w := (broadcast_phase (effective_budget factor) i w).1 in
  (drain_dirty_sessions (in_now_ns i) w).1.

Definition work_phase (i : Inputs) (factor : option Z) (events : list Event) w : Worker A :=
  (timer_phase i (drain_resolved i (up_to_lookups i factor events w)).1).1.

(** *** Shutdown *)

(** [rn_deadline_ns] is [None] before the drain and without a grace. *)
Record Run : Type := mkRun {
  rn_worker : Worker A;
  rn_draining : bool;
  rn_deadline_ns : option Z;
  rn_stopped : bool
}.

Definition keys_of w : list nat := (map_to_list (wk_conns w)).*1.

Definition start_drain (now_ns clock_ns : Z) (r : Run) : Run :=
  if rn_draining r then r
  else
    let deadline :=
      if (0 <? wc_shutdown_grace_ms cfg)%Z then Some (clock_ns + wc_shutdown_grace_ms cfg * 1000000)%Z else None in
    let w := rn_worker r in
    mkRun (foldl (λ w k, drain_close_connection now_ns k w) w (keys_of w)) true deadline false.

(** The drain phase: [true] when the worker stops. *)
Definition shutdown_phase (now_ns clock_ns : Z) (r : Run) : Run :=
  let r := start_drain now_ns clock_ns r in
  let expired := match rn_deadline_ns r with None => true | Some d => (d <=? clock_ns)%Z end in
  let w := rn_worker r in
  if (to_outbound (wk_totals w) =? 0)%Z || expired then
    mkRun (foldl (λ w k, remove_conn k w) w (keys_of w)) true (rn_deadline_ns r) true
  else r.

(** The inputs of an iteration: whether the shutdown flag is up, with the
    times the drain reads; what the poll returned, [None] when it was
    interrupted (any other failure of it ends the thread); and the rest. *)
Record Iteration : Type := mkIteration {
  im_shutdown : bool;
  im_drain_now_ns : Z;
  im_clock_ns : Z;
  im_events : option (list Event);
  im_factor : option Z;
  im_inputs : Inputs
}.

(** The loop up to its poll: where the worker's own assertions stand. *)
Definition before_poll (m : Iteration) (r : Run) : Run :=
  if im_shutdown m then shutdown_phase (im_drain_now_ns m) (im_clock_ns m) r else r.

Definition iterate (m : Iteration) (r : Run) : Run :=
  let r := before_poll m r in
  if rn_stopped r then r
  else
    match im_events m with
    | None => r
    | Some events =>
        mkRun (work_phase (im_inputs m) (im_factor m) events (rn_worker r)) (rn_draining r) (rn_deadline_ns r) false
    end.

(** The worker as it enters its loop. *)
Definition start_worker (sh : Shared) (x : World A) : Run :=
  mkRun
    (mkWorker ∅ ∅ (with_timeouts (de_activity_timeout env) (de_pong_timeout env)) (mkTotals 0 0 0 0)
       (mkSlots 0 0 0 0) (TokenBucket_new (wc_max_accepts_per_second cfg) (wc_max_accepts_per_second cfg)) 0 [] [] []
       sh x)
    false None false.

(** ** Runs *)

(** Between two turns of the loop other threads change what is shared, a socket
    gets bytes to read and answers to give, and an offloaded lookup completes:
    [db app t] is what a lookup of [app] finds at some time [t]. *)
Inductive WStep : Type :=
| SIterate (m : Iteration)
| SNode (sh : Shared) (x : World A)
| SSocket (key : nat) (reads : list ReadResult) (io : list (list IoResult * bool))
| SAnswer (n t : nat).

Definition feed (reads : list ReadResult) (io : list (list IoResult * bool)) (x : WEntry) : WEntry :=
  let e := we_in x in
  let l := en_link e in
  set_in (mkInEntry (mkLink (li_conn l) (li_wire l) io (li_writable_armed l)) reads (en_inbuf e) (en_fragment e)
            (en_frames e) (en_session e)) x.

Definition answer (db : AppDb) (n t : nat) w : Worker A :=
  match wk_lookups w !! n with
  | None => w
  | Some (key, gen, app) =>
      set_resolved (wk_resolved w ++ [mkResolvedApp key gen (db app t)])
        (set_gen (wk_next_gen w) (delete n (wk_lookups w)) w)
  end.

Definition on_run (f : Worker A → Worker A) (r : Run) : Run :=
  mkRun (f (rn_worker r)) (rn_draining r) (rn_deadline_ns r) (rn_stopped r).

Definition worker_do (db : AppDb) (s : WStep) (r : Run) : Run :=
  if rn_stopped r then r
  else
    match s with
    | SIterate m => iterate m r
    | SNode sh x => on_run (set_node sh x) r
    | SSocket key reads io => on_run (on_entry key (feed reads io)) r
    | SAnswer n t => on_run (answer db n t) r
    end.

Definition worker_run (db : AppDb) (ss : list WStep) (r : Run) : Run := foldl (λ r s, worker_do db s r) r ss.
End worker.
