(* ===== verification/WorkerLedger.v ===== *)
(** * The worker's ledger

    The assertions [run] makes at the top of its loop hold in every state the
    loop reaches: the two byte totals are the sums over the slab, and a
    connection that owes bytes has its write interest armed. A worker that has
    stopped has no connection left. *)

From S2P Require Import Prelude RustStd Json Protocol Frame Timer Outbound Fanout WorkerIndex WorkerDrain.
From S2P Require Import Mailbox Adapter Auth App Envelope Rate Handler Inbound Handshake Admission Links Worker.
#[local] Open Scope Z_scope.

(** ** Sums over a slab *)

Definition slab_sum {X} (f : X → Z) (m : gmap nat X) : Z := map_fold (λ _ x acc, f x + acc) 0 m.

Lemma slab_sum_insert_new {X} (f : X → Z) m k x : m !! k = None → slab_sum f (<[k := x]> m) = f x + slab_sum f m.
Proof. intros Hk. unfold slab_sum. by rewrite map_fold_insert_L by (done || intros; lia). Qed.

Lemma slab_sum_delete {X} (f : X → Z) m k x : m !! k = Some x → slab_sum f (delete k m) = slab_sum f m - f x.
Proof.
  intros Hk. unfold slab_sum. rewrite (map_fold_delete_L _ _ k x m) by (done || intros; lia). lia.
Qed.

Lemma slab_sum_insert {X} (f : X → Z) m k x x' :
  m !! k = Some x → slab_sum f (<[k := x']> m) = slab_sum f m - f x + f x'.
Proof.
  intros Hk. rewrite <-insert_delete_eq, slab_sum_insert_new by apply lookup_delete_eq.
  rewrite (slab_sum_delete f m k x Hk). lia.
Qed.

Lemma slab_sum_fmap {X Y} (f : Y → Z) (g : X → Y) m : slab_sum f (g <$> m) = slab_sum (λ x, f (g x)) m.
Proof. unfold slab_sum. by rewrite map_fold_fmap. Qed.

Lemma slab_sum_ext {X} (f g : X → Z) m : (∀ k x, m !! k = Some x → f x = g x) → slab_sum f m = slab_sum g m.
Proof.
  induction m as [|k x m Hk IH] using map_ind; intros Hfg; [done|].
  rewrite !slab_sum_insert_new by done. rewrite (Hfg k x) by apply lookup_insert_eq. f_equal. apply IH.
  intros k' x' Hx'. apply (Hfg k'). rewrite lookup_insert_ne; [done|]. intros <-. congruence.
Qed.

(** ** The books of a slab *)

(** What a connection contributes to a total once its delta is folded. *)
Definition booked_in (c : Connection) : Z := accounted_bytes c - inflight_delta c.
Definition booked_out (c : Connection) : Z := outbound_bytes c - outbound_delta c.

Record quiet (x : WEntry) : Prop := {
  qt_inflight : inflight_delta (we_conn x) = 0;
  qt_outbound : outbound_delta (we_conn x) = 0;
  qt_armed : armed (we_in x)
}.

(** The totals are the booked sums, and every connection outside [busy] has its
    deltas folded and its interest armed. *)
Record accounted (busy : gset nat) (m : gmap nat WEntry) (t : Totals) : Prop := {
  ac_entries : ∀ k x, m !! k = Some x → entry_ok (we_in x);
  ac_quiet : ∀ k x, m !! k = Some x → k ∉ busy → quiet x;
  ac_inflight : to_inflight t = slab_sum (λ x, booked_in (we_conn x)) m mod 2 ^ 64;
  ac_outbound : to_outbound t = slab_sum (λ x, booked_out (we_conn x)) m mod 2 ^ 64
}.

Lemma booked_kept e e' : entry_ok e → kept e e' →
  booked_in (conn_of e') = booked_in (conn_of e) ∧ booked_out (conn_of e') = booked_out (conn_of e).
Proof. intros He Hk. destruct (Hk He) as [_ []]. unfold booked_in, booked_out. lia. Qed.

Lemma ac_weaken busy busy' m t : busy ⊆ busy' → accounted busy m t → accounted busy' m t.
Proof. intros Hs []. split; [done| |done..]. eauto. Qed.

Lemma ac_totals busy m t t' : to_inflight t' = to_inflight t → to_outbound t' = to_outbound t →
  accounted busy m t → accounted busy m t'.
Proof. intros Hi Ho []. split; [done..|by rewrite Hi|by rewrite Ho]. Qed.

Lemma ac_unbusy busy key m t : (∀ x, m !! key = Some x → quiet x) → accounted ({[key]} ∪ busy) m t → accounted busy m t.
Proof.
  intros Hk [He Hq Hi Ho]. split; [done| |done..]. intros k x Hx Hn.
  destruct (decide (k = key)) as [->|Hne]; [by apply Hk|]. apply (Hq k); [done|set_solver].
Qed.

(** With every delta folded the totals are the plain sums. *)
Lemma loop_sums m t : accounted ∅ m t →
  to_inflight t = slab_sum (λ x, accounted_bytes (we_conn x)) m mod 2 ^ 64 ∧
  to_outbound t = slab_sum (λ x, outbound_bytes (we_conn x)) m mod 2 ^ 64.
Proof.
  intros [_ Hq -> ->].
  split; f_equal; apply slab_sum_ext; intros k x Hx; destruct (Hq k x Hx) as [Hi Ho _]; try set_solver;
    unfold booked_in, booked_out; lia.
Qed.

(** A write to one connection. *)
Lemma ac_put busy m t key x x' : m !! key = Some x → kept (we_in x) (we_in x') →
  accounted busy m t → accounted ({[key]} ∪ busy) (<[key := x']> m) t.
Proof.
  intros Hx Hk [He Hq Hi Ho]. destruct (booked_kept _ _ (He _ _ Hx) Hk) as [Hbi Hbo].
  split.
  - intros k y [[<- <-]|[_ Hy]]%lookup_insert_Some; [|by eapply He]. by apply Hk, (He key).
  - intros k y [[<- <-]|[_ Hy]]%lookup_insert_Some Hn; [set_solver|]. apply (Hq k); [done|set_solver].
  - rewrite (slab_sum_insert _ _ _ x) by done. unfold we_conn. rewrite Hbi, Hi. f_equal. unfold we_conn. lia.
  - rewrite (slab_sum_insert _ _ _ x) by done. unfold we_conn. rewrite Hbo, Ho. f_equal. unfold we_conn. lia.
Qed.

(** A connection that changed nothing but its fold. *)
Lemma ac_same busy m t key x x' : m !! key = Some x → entry_ok (we_in x') → (quiet x → quiet x') →
  booked_in (we_conn x') = booked_in (we_conn x) → booked_out (we_conn x') = booked_out (we_conn x) →
  accounted busy m t → accounted busy (<[key := x']> m) t.
Proof.
  intros Hx Hok Hqt Hbi Hbo [He Hq Hi Ho]. split.
  - intros k y [[<- <-]|[_ Hy]]%lookup_insert_Some; [done|by eapply He].
  - intros k y [[<- <-]|[_ Hy]]%lookup_insert_Some Hn; [by apply Hqt, (Hq key)|by apply (Hq k)].
  - rewrite (slab_sum_insert _ _ _ x), Hbi, Hi by done. f_equal. lia.
  - rewrite (slab_sum_insert _ _ _ x), Hbo, Ho by done. f_equal. lia.
Qed.

Lemma ac_link busy m t key x x' : m !! key = Some x → en_link (we_in x') = en_link (we_in x) →
  accounted busy m t → accounted busy (<[key := x']> m) t.
Proof.
  intros Hx Hl Hac. pose proof (ac_entries _ _ _ Hac _ _ Hx) as Hok.
  apply (ac_same _ _ _ _ x); [done|by apply (kept_link _ _ Hl)| |unfold we_conn; by rewrite Hl..|done].
  intros [H1 H2 H3]. unfold we_conn in *. split; unfold we_conn; [by rewrite Hl..|by apply (armed_link _ _ Hl)].
Qed.

Lemma ac_insert busy m t key x : m !! key = None → entry_ok (we_in x) → quiet x →
  booked_in (we_conn x) = 0 → booked_out (we_conn x) = 0 →
  accounted busy m t → accounted busy (<[key := x]> m) t.
Proof.
  intros Hx Hok Hqt Hbi Hbo [He Hq Hi Ho]. split.
  - intros k y [[<- <-]|[_ Hy]]%lookup_insert_Some; [done|by eapply He].
  - intros k y [[<- <-]|[_ Hy]]%lookup_insert_Some Hn; [done|by apply (Hq k)].
  - by rewrite slab_sum_insert_new, Hbi, Hi by done.
  - by rewrite slab_sum_insert_new, Hbo, Ho by done.
Qed.

Lemma wrap_settle a d b : wrapping_sub (wrapping_add (a mod 2 ^ 64) (as_u64 d)) b = (a + d - b) mod 2 ^ 64.
Proof.
  unfold wrapping_sub, wrapping_add, as_u64. rewrite <-Zplus_mod, Zminus_mod_idemp_l. done.
Qed.

Lemma ac_settle busy m t key x : m !! key = Some x → accounted ({[key]} ∪ busy) m t →
  accounted busy (delete key m) (settle_totals x t).
Proof.
  intros Hx [He Hq Hi Ho]. split.
  - intros k y [_ Hy]%lookup_delete_Some. by eapply He.
  - intros k y [Hne Hy]%lookup_delete_Some Hn. apply (Hq k); [done|set_solver].
  - unfold settle_totals. simpl. rewrite Hi, wrap_settle, (slab_sum_delete _ _ _ x) by done.
    assert (booked_in (we_conn x) = accounted_bytes (we_conn x) - inflight_delta (we_conn x)) by done. f_equal. lia.
  - unfold settle_totals. simpl. rewrite Ho, wrap_settle, (slab_sum_delete _ _ _ x) by done.
    assert (booked_out (we_conn x) = outbound_bytes (we_conn x) - outbound_delta (we_conn x)) by done. f_equal. lia.
Qed.

(** ** The worker's books *)

(** Only the drop counters moved: the history they count is another one. *)
Lemma conn_ok_counts wire c c' :
  out c' = out c → out_cursor c' = out_cursor c → out_bytes c' = out_bytes c →
  0 <= codel_dropped c' → 0 <= drophead_dropped c' → conn_ok wire c → conn_ok wire c'.
Proof.
  intros Ho Hc Hb Hcd Hdh [(queued & sent & [Hw Hcur _ _ Hby]) _ _]. split; [|done..].
  exists ((sent ++ out c) ++ replicate (Z.to_nat (codel_dropped c' + drophead_dropped c')) ([], 0)), sent.
  split; rewrite ?Ho, ?Hc, ?Hb; [done|done| | |done]; [by apply sublist_inserts_r|].
  rewrite (length_app (sent ++ _)), length_replicate. lia.
Qed.

Lemma alter_insert {X} (f : X → X) (m : gmap nat X) key x : m !! key = Some x → alter f key m = <[key := f x]> m.
Proof.
  intros Hx. apply map_eq. intros k. destruct (decide (k = key)) as [->|Hne].
  - by rewrite lookup_alter_eq, Hx, lookup_insert_eq.
  - by rewrite lookup_alter_ne, lookup_insert_ne.
Qed.

Lemma wrap_fold a d : (if d =? 0 then a mod 2 ^ 64 else wrapping_add (a mod 2 ^ 64) (as_u64 d)) = (a + d) mod 2 ^ 64.
Proof.
  destruct (Z.eqb_spec d 0) as [->|_]; [by rewrite Z.add_0_r|].
  unfold wrapping_add, as_u64. by rewrite <-Zplus_mod.
Qed.

(** *** A broadcast drain *)

(** The views of a drain against the slab [m] it started from. *)
Record drain_ok (m : gmap nat WEntry) (d : Drain) : Prop := {
  dk_dom : ∀ k, is_Some (d_conns d !! k) ↔ is_Some (m !! k);
  dk_conn : ∀ k x v, m !! k = Some x → d_conns d !! k = Some v → conn_ok (li_wire (en_link (we_in x))) (e_conn v);
  dk_same : ∀ k x v, m !! k = Some x → d_conns d !! k = Some v → k ∉ d_touched d → e_conn v = we_conn x;
  dk_inflight : d_inflight d = slab_sum (λ v, booked_in (e_conn v)) (d_conns d) mod 2 ^ 64;
  dk_outbound : d_outbound d = slab_sum (λ v, booked_out (e_conn v)) (d_conns d) mod 2 ^ 64
}.

Lemma queue_on_ok m now token v frame d : d_conns d !! token = Some v → drain_ok m d →
  drain_ok m (queue_on now token (e_conn v) frame d).
Proof.
  intros Hv [Hdom Hc Hs Hi Ho]. destruct (proj1 (Hdom token)) as [x Hx]; [by eexists|].
  destruct (conn_ok_queue _ frame now _ (Hc _ _ _ Hx Hv)) as [[? ? ?] [Hbi Hbo _ _]].
  unfold queue_on. simpl. set (c := (Outbound.queue frame now (e_conn v)).1) in *.
  set (c' := mkConnection _ _ _ _ _ _ _ _ _ _ _ _ _).
  split; simpl; rewrite ?(alter_insert _ _ _ v Hv).
  - intros k. destruct (decide (token = k)) as [<-|Hne].
    + rewrite lookup_insert_eq, Hx. split; intros _; by eexists.
    + by rewrite lookup_insert_ne.
  - intros k y u Hy [[<- <-]|[_ Hu]]%lookup_insert_Some; [|by eapply Hc]. simplify_eq/=. by apply (conn_ok_counts _ c).
  - intros k y u Hy [[<- <-]|[_ Hu]]%lookup_insert_Some Hn; [set_solver|]. eapply Hs; [done..|set_solver].
  - rewrite (slab_sum_insert _ _ _ v _ Hv), Hi. unfold wrapping_add. rewrite Zplus_mod_idemp_l. f_equal.
    unfold booked_in, accounted_bytes in *. simpl in *. lia.
  - rewrite (slab_sum_insert _ _ _ v _ Hv), Ho. unfold wrapping_add. rewrite Zplus_mod_idemp_l. f_equal.
    unfold booked_out, outbound_bytes in *. simpl in *. lia.
Qed.

Lemma deliver_ok m budget now to_close frames first except d sub :
  drain_ok m d → drain_ok m (deliver budget now to_close frames first except d sub).
Proof.
  intros Hd. destruct sub as [sid [token v]]. unfold deliver.
  destruct (decide _); [by destruct Hd|]. destruct (decide _); [done|]. destruct (decide _); [done|].
  unfold open_conn. destruct (d_conns d !! token) as [e|] eqn:He; [|done]. destruct (is_open e); [|done].
  destruct (Shed.should_skip _ _ _); [done|]. by apply queue_on_ok.
Qed.

Lemma foldl_ind {X Y} (P : X → Prop) (f : X → Y → X) l : (∀ x y, P x → P (f x y)) → ∀ x, P x → P (foldl f x l).
Proof. intros Hf. induction l as [|y l IH]; intros x Hx; simpl; auto. Qed.

Lemma drain_inbox_ok m budget now to_close subs inbox d :
  drain_ok m d → drain_ok m (drain_broadcast_inbox budget now to_close subs inbox d).
Proof.
  apply foldl_ind. intros d1 msg Hd. unfold drain_message.
  destruct (subs !! _) as [l|]; [|done]. destruct (bm_frames msg) as [|[v first] rest]; [done|].
  revert Hd. apply foldl_ind. intros. by apply deliver_ok.
Qed.

Lemma drain_start_ok busy m t bit : accounted busy m t →
  drain_ok m (mkDrain (entry_view <$> m) (to_inflight t) (to_outbound t) (to_drophead t) bit ∅).
Proof.
  intros [He Hq Hi Ho]. split; simpl.
  - intros k. rewrite lookup_fmap. apply fmap_is_Some.
  - intros k x v Hx. rewrite lookup_fmap, Hx. intros [= <-]. by eapply He.
  - intros k x v Hx. rewrite lookup_fmap, Hx. by intros [= <-].
  - by rewrite slab_sum_fmap.
  - by rewrite slab_sum_fmap.
Qed.

Lemma put_views_lookup v m k :
  put_views v m !! k = (λ x, match v !! k with Some e => set_we_conn (e_conn e) x | None => x end) <$> m !! k.
Proof. unfold put_views. rewrite map_lookup_imap. by destruct (m !! k). Qed.

Lemma put_views_conns m d : drain_ok m d → we_conn <$> put_views (d_conns d) m = e_conn <$> d_conns d.
Proof.
  intros Hd. apply map_eq. intros k. rewrite !lookup_fmap, put_views_lookup.
  pose proof (dk_dom _ _ Hd k) as Hk. destruct (d_conns d !! k) as [e|], (m !! k) as [x|]; simpl; try done.
  - by destruct (proj1 Hk (ex_intro _ e eq_refl)).
  - by destruct (proj2 Hk (ex_intro _ x eq_refl)).
Qed.

Lemma drain_end_ok m t d c h : accounted ∅ m t → drain_ok m d →
  accounted (d_touched d) (put_views (d_conns d) m) (mkTotals (d_inflight d) (d_outbound d) c h).
Proof.
  intros [He Hq _ _] Hd. pose proof (put_views_conns m d Hd) as Hv. destruct Hd as [Hdom Hc Hs Hi Ho].
  split; simpl.
  - intros k y. rewrite put_views_lookup. intros (x & Hx & ->)%fmap_Some.
    destruct (d_conns d !! k) as [v|] eqn:Hk; [by apply (Hc k x v)|by eapply He].
  - intros k y. rewrite put_views_lookup. intros (x & Hx & ->)%fmap_Some Hn.
    destruct (d_conns d !! k) as [v|] eqn:Hk; [|by apply (Hq k)].
    rewrite (Hs k x v) by done. by destruct (Hq k x Hx).
  - rewrite Hi, <-(slab_sum_fmap booked_in e_conn), <-Hv. by rewrite slab_sum_fmap.
  - rewrite Ho, <-(slab_sum_fmap booked_out e_conn), <-Hv. by rewrite slab_sum_fmap.
Qed.

Section books.
Context `{SerdeJson, Crypto, HttpParse, Sha1, Base64} {A : Type} `{Adapter A, AppTable A}.
Context (cfg : WorkerConfig).
Implicit Type w : Worker A.

Definition books (busy : gset nat) w : Prop := accounted busy (wk_conns w) (wk_totals w).

Lemma absent_books busy key w : wk_conns w !! key = None → books ({[key]} ∪ busy) w → books busy w.
Proof. intros Hx. apply ac_unbusy. by rewrite Hx. Qed.

Lemma busy_books key busy w : books busy w → books ({[key]} ∪ busy) w.
Proof. apply ac_weaken. set_solver. Qed.

Lemma fold_delta_weak busy key w : books ({[key]} ∪ busy) w → books ({[key]} ∪ busy) (fold_delta key w).
Proof.
  intros Hb. unfold fold_delta, books in *. destruct (wk_conns w !! key) as [x|] eqn:Hx; [|done].
  destruct Hb as [He Hq Hi Ho]. simpl. rewrite (alter_insert _ _ _ x Hx). split; simpl.
  - intros k y [[<- <-]|[_ Hy]]%lookup_insert_Some; [|by eapply He].
    pose proof (He _ _ Hx) as Hok. destruct Hok. by apply (conn_ok_counts _ (we_conn x)).
  - intros k y [[<- <-]|[Hne Hy]]%lookup_insert_Some Hn; [set_solver|by apply (Hq k)].
  - rewrite Hi, wrap_fold, (slab_sum_insert _ _ _ x _ Hx). unfold booked_in. simpl.
    unfold accounted_bytes. simpl. f_equal. lia.
  - rewrite Ho, wrap_fold, (slab_sum_insert _ _ _ x _ Hx). unfold booked_out. simpl.
    unfold outbound_bytes. simpl. f_equal. lia.
Qed.

(** A fold settles a connection that is armed. *)
Lemma fold_delta_books busy key w :
  (∀ x, wk_conns w !! key = Some x → armed (we_in x)) → books ({[key]} ∪ busy) w → books busy (fold_delta key w).
Proof.
  intros Harm Hb. apply (ac_unbusy _ key); [|by apply fold_delta_weak].
  unfold fold_delta. destruct (wk_conns w !! key) as [x|] eqn:Hx; simpl; [|by rewrite Hx].
  rewrite lookup_alter_eq, Hx. intros y [= <-]. split; [done..|by apply (Harm x)].
Qed.

Lemma fold_codel_books busy key w : books busy w → books busy (fold_codel key w).
Proof.
  unfold fold_codel, books. destruct (wk_conns w !! key) as [x|] eqn:Hx; [|done]. simpl.
  intros Hac. pose proof (ac_entries _ _ _ Hac _ _ Hx) as [? ? ?].
  rewrite (alter_insert _ _ _ x Hx). apply (ac_totals _ _ (wk_totals w)); [done..|].
  apply (ac_same _ _ _ _ x); [done|by apply (conn_ok_counts _ (we_conn x))|by intros []|done..].
Qed.

Lemma fold_drophead_books busy key w : books busy w → books busy (fold_drophead key w).
Proof.
  unfold fold_drophead, books. destruct (wk_conns w !! key) as [x|] eqn:Hx; [|done]. simpl.
  intros Hac. pose proof (ac_entries _ _ _ Hac _ _ Hx) as [? ? ?].
  rewrite (alter_insert _ _ _ x Hx). apply (ac_totals _ _ (wk_totals w)); [done..|].
  apply (ac_same _ _ _ _ x); [done|by apply (conn_ok_counts _ (we_conn x))|by intros []|done..].
Qed.

Lemma fold_drops_books busy key w : books busy w → books busy (fold_drops key w).
Proof. intros Hb. by apply fold_drophead_books, fold_codel_books. Qed.

Lemma close_session_same x w : wk_conns (close_session cfg x w) = wk_conns w ∧ wk_totals (close_session cfg x w) = wk_totals w.
Proof.
  unfold close_session. destruct (we_session x); [|done]. destruct (index_session x); [|done].
  by destruct (on_close _ _).
Qed.

Lemma remove_conn_books busy key w : books ({[key]} ∪ busy) w → books busy (remove_conn cfg key w).
Proof.
  unfold remove_conn, books. simpl. intros Hb. destruct (wk_conns w !! key) as [x|] eqn:Hx.
  - destruct (close_session_same x (set_totals (settle_totals x (wk_totals w)) (set_conns (delete key (wk_conns w))
      (on_wheel (Timer.remove key) w)))) as [-> ->]. simpl. by apply ac_settle.
  - by apply (absent_books _ key).
Qed.

(** *** One connection handled *)

(** A handler rewrites the entry at [key] and leaves it armed when it keeps it. *)
Definition handled (key : nat) (x : WEntry) w (r : Worker A * WAction) : Prop :=
  ∃ x', wk_conns r.1 = <[key := x']> (wk_conns w) ∧ wk_totals r.1 = wk_totals w ∧
    step_kept (r.2 = WKeep) (we_in x) (we_in x').

Lemma step_kept_weaken (g g' : Prop) e e' : (g' → g) → step_kept g e e' → step_kept g' e e'.
Proof. intros Hg [Hk Ha]. split; [done|auto]. Qed.

Lemma flush_entry_kept now x x' : kept (we_in x) (we_in x') →
  step_kept (of_action (flush_entry now x').2 = WKeep) (we_in x) (we_in (flush_entry now x').1).
Proof.
  intros Hk. pose proof (step_kept_then_flush now _ _ Hk) as Hf. unfold flush_entry.
  destruct (flush_and_arm now (we_in x')) as [e []]; simpl in *; (eapply step_kept_weaken; [|exact Hf]); done.
Qed.

Lemma kept_flush_entry now x : kept (we_in x) (we_in (flush_entry now x).1).
Proof. unfold flush_entry. pose proof (kept_flush now (we_in x)) as Hk. by destruct (flush_and_arm now (we_in x)). Qed.

Lemma flush_kept_handled now key x0 x w w' : kept (we_in x0) (we_in x) →
  wk_conns w' = wk_conns w → wk_totals w' = wk_totals w → handled key x0 w (flush_kept now key x w').
Proof.
  intros Hk Hc Ht. unfold flush_kept. pose proof (flush_entry_kept now x0 x Hk) as Hf.
  destruct (flush_entry now x) as [x' a]. exists x'. simpl in *. by rewrite Hc.
Qed.

Lemma kept_queue_text text now x : kept (we_in x) (we_in (queue_text text now x)).
Proof. apply kept_queue_frame. Qed.

Lemma kept_queue_bytes bytes now x : kept (we_in x) (we_in (queue_bytes bytes now x)).
Proof. apply kept_queue_frame. Qed.

Lemma kept_queue_reject r now x : kept (we_in x) (we_in (queue_reject r now x)).
Proof. unfold queue_reject. etrans; [apply kept_queue_text|apply kept_queue_frame]. Qed.

Lemma kept_install s now x : kept (we_in x) (we_in (install_session cfg s now x)).
Proof. unfold install_session. etrans; [apply kept_queue_text|by apply kept_link]. Qed.

Lemma reject_handled r now key x0 x w w' : kept (we_in x0) (we_in x) →
  wk_conns w' = wk_conns w → wk_totals w' = wk_totals w → handled key x0 w (reject_entry r now key x w').
Proof.
  intros Hk Hc Ht. eexists. unfold reject_entry, put_entry. simpl. rewrite Hc. split_and!; [done|done|].
  apply step_kept_close; [|done]. etrans; [exact Hk|]. etrans; [apply kept_queue_reject|apply kept_flush_entry].
Qed.

Lemma establish_handled i path key x0 x w : kept (we_in x0) (we_in x) → handled key x0 w (establish cfg i path key x w).
Proof.
  intros Hk. unfold establish. destruct (parse_app_path path) as [[app_key protocol] ver].
  destruct (negotiate _ _ _) as [codec|e]; [|by apply reject_handled].
  destruct app_key as [app_key|]; [|by apply reject_handled].
  destruct (in_cached i app_key) as [l|].
  - destruct (resolve_app _ _ _ _ _ _ _ _) as [[sh world] [s|r]]; [|by apply reject_handled].
    apply flush_kept_handled; [|done..]. etrans; [exact Hk|apply kept_install].
  - apply flush_kept_handled; [|done..]. etrans; [exact Hk|by apply kept_link].
Qed.

Lemma arm_handshake_kept now x :
  step_kept (of_action (arm_handshake_interest now x).2 = WKeep) (we_in x) (we_in (arm_handshake_interest now x).1).
Proof.
  unfold arm_handshake_interest. case_bool_decide as Ho; simpl; [|by apply flush_entry_kept].
  destruct (li_writable_armed _) eqn:Ha; [|by apply step_kept_same].
  assert (∀ b, kept (we_in x) (set_link (mkLink (conn_of (we_in x)) (li_wire (en_link (we_in x)))
    (tail (li_io (en_link (we_in x)))) b) (we_in x))) as Hk by (intros b He; by split; [exact He|]).
  destruct (head _) as [[? []]|]; simpl; [split; [done|by left]|by apply step_kept_close|split; [done|by left]].
Qed.

Lemma handle_handshake_handled i key x w : handled key x w (handle_handshake cfg i key x w).
Proof.
  unfold handle_handshake. destruct (drain_head_bytes _ _) as [[reads inbuf] alive].
  assert (kept (we_in x) (we_in (set_inbound reads inbuf x))) as Hk by by apply kept_link.
  assert (∀ a, handled key x w (put_entry key (set_inbound reads inbuf x) w, a)) as Hput.
  { intros a. eexists. split_and!; [done|done|by apply step_kept_same]. }
  destruct alive; [|apply Hput]. simpl negb. cbn iota.
  destruct (read_head _ _) as [ws_key path| | | |]; [|apply Hput| | |apply Hput].
  - apply establish_handled. etrans; [exact Hk|]. etrans; [apply kept_queue_bytes|by apply kept_link].
  - pose proof (arm_handshake_kept (in_now_ns i) (set_inbound reads inbuf x)) as Ha.
    destruct (arm_handshake_interest _ _) as [x' a]. exists x'. split_and!; [done|done|].
    by apply (step_kept_trans True _ _ (we_in (set_inbound reads inbuf x))); [apply step_kept_same| |].
  - eexists. split_and!; [done|done|]. apply step_kept_close; [|done].
    etrans; [exact Hk|]. etrans; [apply kept_queue_bytes|apply kept_flush_entry].
Qed.

Lemma handle_open_handled i key x w : handled key x w (handle_open cfg i key x w).
Proof.
  unfold handle_open.
  pose proof (handle_frames_kept (wc_max_payload cfg) (wc_max_message_bytes cfg) (in_now_ns i)
    (Some (sl_frame_limited (wk_slots w))) (we_in x, wk_world w)) as Hf.
  destruct (handle_frames _ _ _ _ _) as [[[e world] a] limited]. eexists. split_and!; [done|done|].
  simpl in *. eapply step_kept_weaken; [|exact Hf]. by destruct a.
Qed.

Lemma handle_readable_handled i key x w : wk_conns w !! key = Some x → handled key x w (handle_readable cfg i key w).
Proof.
  intros Hx. unfold handle_readable. rewrite Hx. destruct (we_state x); [apply handle_handshake_handled|apply handle_open_handled].
Qed.

Lemma handle_writable_handled i key x w : wk_conns w !! key = Some x → handled key x w (handle_writable cfg i key w).
Proof.
  intros Hx. unfold handle_writable. rewrite Hx. destruct (we_state x); [apply handle_handshake_handled|].
  by apply flush_kept_handled.
Qed.

Lemma handled_books busy key x w w' a : wk_conns w !! key = Some x → handled key x w (w', a) → books busy w → key ∉ busy →
  books ({[key]} ∪ busy) w' ∧ (a = WKeep → ∀ y, wk_conns w' !! key = Some y → armed (we_in y)).
Proof.
  intros Hx (x' & Hc & Ht & Hs) Hb Hn. simpl in *. unfold books in *. rewrite Hc, Ht.
  split; [by eapply ac_put; [|apply Hs|]|]. intros -> y. rewrite lookup_insert_eq. intros [= <-].
  destruct Hb as [He Hq _ _]. apply Hs; [by eapply He|done|by apply (Hq key x)].
Qed.

(** *** Phases *)

Lemma settle_kept busy key w : key ∉ busy → (∀ x, wk_conns w !! key = Some x → armed (we_in x)) →
  books ({[key]} ∪ busy) w → books busy (fold_drops key (fold_delta key w)).
Proof. intros Hn Ha Hb. by apply fold_drops_books, fold_delta_books. Qed.

Lemma settle_gone busy key w : books ({[key]} ∪ busy) w →
  books busy (remove_conn cfg key (fold_drops key (fold_delta key w))).
Proof. intros Hb. by apply remove_conn_books, fold_drops_books, fold_delta_weak. Qed.

Lemma handoff_books busy prefix key w : books ({[key]} ∪ busy) w → books busy (handoff_rest cfg prefix key w).
Proof.
  unfold handoff_rest, books. intros Hb. destruct (wk_conns w !! key) as [x|] eqn:Hx.
  - assert (accounted busy (delete key (wk_conns w)) (settle_totals x (wk_totals w))) by by apply ac_settle.
    by destruct (wc_rest_handoff cfg).
  - by apply (absent_books _ key).
Qed.

Lemma reconcile_books busy key w : books busy w → books busy (reconcile_entry key w).
Proof.
  unfold reconcile_entry, books. intros Hb. destruct (wk_conns w !! key) as [x|] eqn:Hx; [|done].
  destruct (index_session x) as [ix|]; [|done]. destruct (reconcile_membership _ _ _) as [ix' subs]. simpl.
  by apply (ac_link _ _ _ _ x).
Qed.

Lemma on_readable_books i key w : books ∅ w → books ∅ (on_readable cfg i key w).1.
Proof.
  intros Hb. unfold on_readable. set (w1 := on_wheel _ w).
  assert (books ∅ w1) as Hb1 by done. clearbody w1. destruct (wk_conns w1 !! key) as [x|] eqn:Hx.
  - pose proof (handle_readable_handled i key x w1 Hx) as Hh. destruct (handle_readable cfg i key w1) as [w2 a].
    destruct (handled_books ∅ key x w1 w2 a Hx Hh Hb1) as [Hb2 Ha]; [set_solver|].
    destruct a as [| |prefix]; simpl.
    + apply reconcile_books, settle_kept; [set_solver|by apply Ha|done].
    + by apply remove_conn_books, fold_drops_books.
    + apply handoff_books. by apply (fold_drops_books _ key w2).
  - unfold handle_readable. rewrite Hx. simpl.
    apply reconcile_books, settle_kept; [set_solver|by rewrite Hx|by apply busy_books].
Qed.

Lemma on_writable_books i key w : books ∅ w → books ∅ (on_writable cfg i key w).
Proof.
  intros Hb. unfold on_writable. destruct (wk_conns w !! key) as [x|] eqn:Hx.
  - pose proof (handle_writable_handled i key x w Hx) as Hh. destruct (handle_writable cfg i key w) as [w2 a].
    destruct (handled_books ∅ key x w w2 a Hx Hh Hb) as [Hb2 Ha]; [set_solver|].
    destruct a as [| |prefix].
    + apply reconcile_books, settle_kept; [set_solver|by apply Ha|done].
    + by apply settle_gone.
    + apply handoff_books. apply (fold_drops_books _ key (fold_delta key w2)). by apply fold_delta_weak.
  - unfold handle_writable. rewrite Hx.
    apply reconcile_books, settle_kept; [set_solver|by rewrite Hx|by apply busy_books].
Qed.

Lemma on_conn_event_books i ev w : books ∅ w → books ∅ (on_conn_event cfg i ev w).
Proof.
  intros Hb. unfold on_conn_event. destruct (decide _); [|done].
  destruct (ev_hangup ev); [by apply remove_conn_books, busy_books|].
  assert (books ∅ (if ev_readable ev then on_readable cfg i (ev_key ev) w else (w, true)).1) as Hb1.
  { destruct (ev_readable ev); [by apply on_readable_books|done]. }
  destruct (if ev_readable ev then _ else _) as [w1 go_on]. simpl in Hb1.
  destruct (_ && _); [by apply on_writable_books|done].
Qed.

Lemma new_entry_books : entry_ok (we_in (new_entry cfg)) ∧ quiet (new_entry cfg) ∧
  booked_in (we_conn (new_entry cfg)) = 0 ∧ booked_out (we_conn (new_entry cfg)) = 0.
Proof.
  split_and!; [|by split; [| |left]|done|done]. split; [|done|done]. exists [], []. split; try done. by left.
Qed.

Lemma vacant_key_fresh key (m : gmap nat WEntry) : m !! vacant_key key m = None.
Proof.
  unfold vacant_key. destruct (decide _) as [_|Hn]; apply not_elem_of_dom; [apply is_fresh|done].
Qed.

Lemma accept_ready_books answers deadline now : ∀ n w, books ∅ w → books ∅ (accept_ready cfg answers deadline now n w).1.
Proof.
  induction answers as [|[key registered| | |] answers IH]; intros n w Hb; simpl; [done| |done|by apply IH|done].
  destruct (take_at_ns now 1 (wk_accepts w)) as [bucket granted].
  destruct granted; simpl; [|by apply IH]. destruct registered; simpl; [|by apply IH].
  apply IH. destruct new_entry_books as (? & ? & ? & ?).
  destruct deadline; apply ac_insert; (done || apply vacant_key_fresh).
Qed.

Lemma on_event_books i w ev : books ∅ w → books ∅ (on_event cfg i w ev).
Proof.
  intros Hb. destruct ev as [answers| |ev]; simpl; [|done|by apply on_conn_event_books].
  unfold on_listener. pose proof (λ d, accept_ready_books answers d (in_now_ns i) 0 w Hb) as Ha.
  destruct (0 <? wc_handshake_timeout_ms cfg); [specialize (Ha (Some (U64.saturating_add (now_ms i)
    (wc_handshake_timeout_ms cfg))))|specialize (Ha None)]; by destruct (accept_ready _ _ _ _ _ _).
Qed.

Lemma armed_flush_entry now x : entry_ok (we_in x) → (flush_entry now x).2 = Keep → armed (we_in (flush_entry now x).1).
Proof.
  intros He. unfold flush_entry. pose proof (armed_flush now (we_in x) He) as Ha. by destruct (flush_and_arm now (we_in x)).
Qed.

(** A connection written to, flushed, and kept only when armed. *)
Lemma flush_put_books busy now key x0 x w : key ∉ busy →
  wk_conns w !! key = Some x0 → kept (we_in x0) (we_in x) → books ({[key]} ∪ busy) w →
  let w' := put_entry key (flush_entry now x).1 w in
  books ({[key]} ∪ busy) w' ∧
  ((flush_entry now x).2 = Keep → books busy (fold_drops key (fold_delta key w'))).
Proof.
  intros Hn Hx Hk Hb. simpl. pose proof (ac_entries _ _ _ Hb _ _ Hx) as Hok.
  assert (books ({[key]} ∪ busy) (put_entry key (flush_entry now x).1 w)) as Hb'.
  { replace ({[key]} ∪ busy) with ({[key]} ∪ ({[key]} ∪ busy)) by set_solver.
    eapply ac_put; [done| |done]. etrans; [exact Hk|apply kept_flush_entry]. }
  split; [done|]. intros Ha. apply settle_kept; [done| |done].
  intros y. simpl. rewrite lookup_insert_eq. intros [= <-]. apply armed_flush_entry; [by apply Hk|done].
Qed.

Lemma flush_touched_books now l : ∀ w to_close, NoDup l → (∀ k, k ∈ l → k ∉ to_close) →
  books (list_to_set l ∪ to_close) w →
  books (foldl (flush_touched now) (w, to_close) l).2 (foldl (flush_touched now) (w, to_close) l).1.
Proof.
  induction l as [|key l IH]; intros w tc Hnd Htc Hb; simpl; [by rewrite list_to_set_nil, union_empty_l_L in Hb|].
  apply NoDup_cons in Hnd as [Hkl Hnd]. simpl in Hb. rewrite <-union_assoc_L in Hb.
  assert (∀ k, k ∈ l → k ∉ tc) as Htc' by (intros k Hk; apply Htc; by right).
  assert (key ∉ list_to_set l ∪ tc) as Hn.
  { intros [Hin%elem_of_list_to_set|Hin]%elem_of_union; [done|]. revert Hin. apply Htc. by left. }
  rewrite decide_False by (intros Hin; apply Hn, elem_of_union; by right).
  destruct (wk_conns w !! key) as [x|] eqn:Hx; [|by apply IH, (absent_books _ key)].
  destruct (flush_put_books _ now key x x w Hn Hx) as [Hb1 Hb2]; [done|done|].
  destruct (flush_entry now x) as [x' a]. simpl in Hb1, Hb2. destruct (decide (a = ActClose)) as [->|Ha].
  - apply IH; [done| |].
    + intros k Hk [->%elem_of_singleton|Hin]%elem_of_union; [done|]. by apply (Htc' k).
    + apply fold_drops_books.
      replace (list_to_set l ∪ ({[key]} ∪ tc)) with ({[key]} ∪ (list_to_set l ∪ tc)) by set_solver.
      by apply fold_delta_weak.
  - apply IH; [done|done|]. apply Hb2. by destruct a.
Qed.

Lemma remove_all_books l : ∀ w, books (list_to_set l) w → books ∅ (foldl (λ w k, remove_conn cfg k w) w l).
Proof. induction l as [|k l IH]; intros w Hb; simpl; [done|]. by apply IH, remove_conn_books. Qed.

Lemma drain_broadcasts_books slot budget now w : books ∅ w → books ∅ (drain_broadcasts cfg slot budget now w).1.
Proof.
  intros Hb. unfold drain_broadcasts.
  set (d := drain_broadcast_inbox _ _ _ _ _ _).
  assert (drain_ok (wk_conns w) d) as Hd by by eapply drain_inbox_ok, drain_start_ok.
  clearbody d. pose proof (drain_end_ok _ _ d (to_codel (wk_totals w)) (d_drophead d) Hb Hd) as He.
  set (w1 := set_totals _ _). assert (books (d_touched d) w1) as Hb1 by exact He. clearbody w1.
  pose proof (flush_touched_books now (elements (d_touched d)) w1 ∅) as Hf.
  destruct (foldl (flush_touched now) (w1, ∅) _) as [w2 to_close]. simpl in *.
  apply remove_all_books. rewrite list_to_set_elements_L. apply Hf; [apply NoDup_elements|set_solver|].
  by rewrite list_to_set_elements_L, union_empty_r_L.
Qed.

Lemma broadcast_phase_books budget i w : books ∅ w → books ∅ (broadcast_phase cfg budget i w).1.
Proof.
  intros Hb. unfold broadcast_phase. destruct (wc_slot cfg) as [slot|]; [|done].
  pose proof (drain_broadcasts_books slot budget (in_now_ns i) w Hb) as Hd.
  destruct (drain_broadcasts _ _ _ _ _) as [w1 wrote]. by destruct (w_ad (wk_world w1)).
Qed.

Lemma drain_dirty_one_books now st key : books ∅ st.1 → books ∅ (drain_dirty_one cfg now st key).1.
Proof.
  destruct st as [w wrote]. cbn [fst]. unfold drain_dirty_one. intros Hb.
  destruct (wk_conns w !! key) as [x|] eqn:Hx; [|done].
  destruct (_ && _); [|done]. pose proof (drain_session_kept now (we_in x, wk_world w)) as [Hk Ha].
  destruct (drain_session now _) as [[e world] r]. simpl in Hk, Ha.
  set (w1 := put_entry key (set_in e x) (set_node (wk_shared w) world w)).
  assert (books ({[key]} ∪ ∅) w1) as Hb1 by by eapply ac_put.
  destruct (decide (res_action r = ActClose)) as [Hc|Hc]; [by apply settle_gone|].
  assert (books ∅ (fold_drops key (fold_delta key w1))) as Hb2.
  { apply settle_kept; [set_solver| |done]. intros y. simpl. rewrite lookup_insert_eq. intros [= <-].
    destruct Hb as [He Hq _ _]. apply Ha; [by eapply He|by destruct (res_action r)|].
    by apply (Hq key); [|set_solver]. }
  destruct (res_subs_changed r); [by apply reconcile_books|done].
Qed.

Lemma drain_dirty_books now w : books ∅ w → books ∅ (drain_dirty_sessions cfg now w).1.
Proof.
  intros Hb. unfold drain_dirty_sessions, take_dirty. set (w1 := set_node _ _ w).
  assert (books ∅ (w1, false).1) as Hb1 by exact Hb. revert Hb1.
  apply (foldl_ind (λ st, books ∅ st.1)). intros. by apply drain_dirty_one_books.
Qed.

Lemma resolve_one_books i w r : books ∅ w → books ∅ (resolve_one cfg i w r).1.
Proof.
  intros Hb. unfold resolve_one. destruct (wk_conns w !! rs_token r) as [x|] eqn:Hx; [|done].
  destruct (we_pending x) as [p|]; [|done]. destruct (negb _); [done|].
  assert (∀ sh world, wk_conns (set_node sh world w) !! rs_token r = Some x) as Hx' by done.
  assert (∀ sh world, books ({[rs_token r]} ∪ ∅) (set_node sh world w)) as Hb' by (intros; by apply busy_books).
  destruct (resolve_app _ _ _ _ _ _ _ _) as [[sh world] [s|rj]].
  - destruct (flush_put_books ∅ (in_now_ns i) (rs_token r) x (install_session cfg s (in_now_ns i) (set_pending None x))
      (set_node sh world w)) as [Hb1 Hb2]; [set_solver|done| |apply Hb'|].
    { etrans; [|apply kept_install]. by apply kept_link. }
    destruct (flush_entry _ _) as [x1 a]. simpl in Hb1, Hb2. destruct (decide (a = ActClose)) as [->|Ha].
    + by apply settle_gone.
    + apply Hb2. by destruct a.
  - apply settle_gone.
    eapply (flush_put_books ∅ (in_now_ns i) (rs_token r) x); [set_solver|done| |apply Hb'].
    etrans; [|apply kept_queue_reject]. by apply kept_link.
Qed.

Lemma drain_resolved_books i w : books ∅ w → books ∅ (drain_resolved cfg i w).1.
Proof.
  intros Hb. unfold drain_resolved, resolve_all.
  assert (books ∅ (set_resolved [] w, false).1) as Hb1 by exact Hb. revert Hb1.
  apply (foldl_ind (λ st, books ∅ st.1)). intros st r Hst.
  pose proof (resolve_one_books i st.1 r Hst). by destruct (resolve_one _ _ _ _).
Qed.

(** A close frame, flushed. *)
Lemma send_close_books busy code reason now key w : key ∉ busy → books ({[key]} ∪ busy) w →
  let r := send_close_reply code reason now key w in
  books ({[key]} ∪ busy) r.1 ∧ (r.2 = Keep → books busy (fold_drops key (fold_delta key r.1))).
Proof.
  intros Hn Hb. unfold send_close_reply, with_entry. destruct (wk_conns w !! key) as [x|] eqn:Hx; [|done].
  pose proof (flush_put_books busy now key x (set_in (queue_close_frame code reason now (we_in x)) x) w Hn Hx) as Hf.
  destruct (flush_entry _ _) as [x1 a]. simpl in *. apply Hf; [apply kept_queue_frame|done].
Qed.

Lemma queue_error_books busy e now key w : books ({[key]} ∪ busy) w → books ({[key]} ∪ busy) (queue_error e now key w).
Proof.
  intros Hb. unfold queue_error, on_entry, books. simpl. destruct (wk_conns w !! key) as [x|] eqn:Hx.
  - rewrite (alter_insert _ _ _ x Hx). replace ({[key]} ∪ busy) with ({[key]} ∪ ({[key]} ∪ busy)) by set_solver.
    eapply ac_put; [done|apply kept_queue_text|done].
  - by rewrite alter_id by (intros ?; by rewrite Hx).
Qed.

Lemma queue_ping_books now key w : books ∅ w →
  match queue_ping now key w with
  | (w', Some a) => books ({[key]} ∪ ∅) w' ∧ (a = Keep → books ∅ (fold_delta key w'))
  | (w', None) => books ∅ w'
  end.
Proof.
  intros Hb. unfold queue_ping, with_entry. destruct (wk_conns w !! key) as [x|] eqn:Hx; [|done].
  assert (books ∅ (set_conns (<[key := x]> (wk_conns w)) w)) as Hsame.
  { unfold books. simpl. by rewrite insert_id. }
  destruct (we_session x) as [s|]; [|done]. destruct (decide _); [|done].
  pose proof (kept_queue_text (codec_encode (se_codec s) Ping) now x) as Hk.
  pose proof (ac_entries _ _ _ Hb _ _ Hx) as Hok.
  set (y := queue_text _ now x) in *. pose proof (kept_flush_entry now y) as Hf.
  pose proof (armed_flush_entry now y) as Ha. destruct (flush_entry now y) as [z a]. simpl in *.
  assert (books ({[key]} ∪ ∅) (set_conns (<[key := z]> (wk_conns w)) w)) as Hb1.
  { eapply ac_put; [done| |done]. by etrans. }
  split; [done|]. intros ->. apply fold_delta_books; [|done]. intros u. simpl. rewrite lookup_insert_eq.
  intros [= <-]. apply Ha; [|done]. by apply Hk.
Qed.

Lemma on_due_books i w d : books ∅ w → books ∅ (on_due cfg i w d).
Proof.
  intros Hb. destruct d as [key|key|key|key]; simpl.
  - pose proof (queue_ping_books (in_now_ns i) key w Hb) as Hp.
    destruct (queue_ping _ _ _) as [w1 [a|]]; [|done]. destruct Hp as [Hb1 Hb2].
    destruct (decide (a = ActClose)) as [->|Ha].
    + by apply remove_conn_books, fold_drops_books, fold_delta_weak.
    + apply Hb2. by destruct a.
  - apply settle_gone. apply send_close_books; [set_solver|by apply busy_books].
  - apply settle_gone. apply send_close_books; [set_solver|]. by apply queue_error_books, busy_books.
  - destruct (wk_conns w !! key) as [x|]; [|done]. destruct (bool_decide _); [|done].
    apply remove_conn_books. by apply (busy_books key ∅ w).
Qed.

Lemma timer_phase_books i w : books ∅ w → books ∅ (timer_phase cfg i w).1.
Proof.
  intros Hb. unfold timer_phase. destruct (Timer.due _ _) as [t ds]. simpl.
  assert (books ∅ (set_wheel t w)) as Hb1 by exact Hb. revert Hb1. apply foldl_ind. intros. by apply on_due_books.
Qed.

Lemma work_phase_books i factor events w : books ∅ w → books ∅ (work_phase cfg i factor events w).
Proof.
  intros Hb. unfold work_phase, up_to_lookups. apply timer_phase_books, drain_resolved_books, drain_dirty_books, broadcast_phase_books.
  revert Hb. apply foldl_ind. intros. by apply on_event_books.
Qed.

Lemma drain_close_books now key w : books ∅ w → books ∅ (drain_close_connection cfg now key w).
Proof.
  intros Hb. unfold drain_close_connection. set (w1 := queue_shutdown_error now key w).
  assert (books ({[key]} ∪ ∅) w1) as Hb1 by by apply queue_error_books, busy_books.
  pose proof (send_close_books ∅ 4200 SHUTDOWN_REASON now key w1) as Hs. unfold send_close_4200.
  destruct (send_close_reply _ _ _ _ _) as [w2 a]. destruct Hs as [Hb2 Hb3]; [set_solver|done|]. simpl in *.
  destruct (decide (a = ActClose)) as [->|Ha]; [by apply settle_gone|]. apply Hb3. by destruct a.
Qed.

(** *** The loop *)

Lemma remove_conn_conns key w : wk_conns (remove_conn cfg key w) = delete key (wk_conns w).
Proof.
  unfold remove_conn. simpl. destruct (wk_conns w !! key) as [x|] eqn:Hx; [|by rewrite delete_id].
  by rewrite (proj1 (close_session_same _ _)).
Qed.

Lemma remove_all_conns l : ∀ w k,
  wk_conns (foldl (λ w k, remove_conn cfg k w) w l) !! k = if decide (k ∈ l) then None else wk_conns w !! k.
Proof.
  induction l as [|k l IH]; intros w k'; simpl; [done|]. rewrite IH, remove_conn_conns.
  destruct (decide (k = k')) as [->|Hne].
  - rewrite lookup_delete_eq, (decide_True _ _ (list_elem_of_here _ _)). by destruct (decide _).
  - rewrite lookup_delete_ne by done. by do 2 destruct (decide _); set_solver.
Qed.

Lemma remove_every_conn w : wk_conns (foldl (λ w k, remove_conn cfg k w) w (keys_of w)) = ∅.
Proof.
  apply map_empty. intros k. rewrite remove_all_conns. destruct (decide _) as [|Hn]; [done|].
  destruct (wk_conns w !! k) as [x|] eqn:Hx; [|done]. destruct Hn. unfold keys_of. apply list_elem_of_fmap.
  exists (k, x). split; [done|]. by apply elem_of_map_to_list.
Qed.

Lemma before_poll_books m r : books ∅ (rn_worker r) → rn_stopped r = false →
  let r1 := before_poll cfg m r in
  books ∅ (rn_worker r1) ∧ (rn_stopped r1 = true → wk_conns (rn_worker r1) = ∅).
Proof.
  intros Hb Hst. unfold before_poll. destruct (im_shutdown m); [|by rewrite Hst]. unfold shutdown_phase.
  set (r1 := start_drain _ _ _ r).
  assert (books ∅ (rn_worker r1) ∧ rn_stopped r1 = false) as [Hb1 Hs1].
  { unfold r1, start_drain. destruct (rn_draining r); [done|]. split; [|done]. simpl. revert Hb.
    apply foldl_ind. intros. by apply drain_close_books. }
  clearbody r1. destruct (_ || _); simpl; [|by rewrite Hs1].
  split; [|intros _; apply remove_every_conn].
  apply remove_all_books. eapply ac_weaken; [apply empty_subseteq|exact Hb1].
Qed.

Lemma iterate_books m r : books ∅ (rn_worker r) → rn_stopped r = false → books ∅ (rn_worker (iterate cfg m r)).
Proof.
  intros Hb Hs. destruct (before_poll_books m r Hb Hs) as [Hb1 _]. unfold iterate.
  destruct (rn_stopped (before_poll cfg m r)); [done|]. destruct (im_events m); [|done]. by apply work_phase_books.
Qed.

Lemma feed_books busy key reads io w : books busy w → books busy (on_entry key (feed reads io) w).
Proof.
  intros Hb. unfold on_entry, books. simpl. destruct (wk_conns w !! key) as [x|] eqn:Hx.
  - rewrite (alter_insert _ _ _ x Hx). pose proof (ac_entries _ _ _ Hb _ _ Hx) as Hok.
    apply (ac_same _ _ _ _ x); [done|exact Hok|by intros []|done..].
  - by rewrite alter_id by (intros ?; by rewrite Hx).
Qed.

Lemma worker_do_books db s r : books ∅ (rn_worker r) → books ∅ (rn_worker (worker_do cfg db s r)).
Proof.
  intros Hb. unfold worker_do. destruct (rn_stopped r) eqn:Hs; [done|].
  destruct s as [m|sh x|key reads io|n t]; simpl; [by apply iterate_books|done|by apply feed_books|].
  unfold answer. by destruct (wk_lookups (rn_worker r) !! n) as [[[key gen] app]|].
Qed.

Lemma worker_run_books db ss r : books ∅ (rn_worker r) → books ∅ (rn_worker (worker_run cfg db ss r)).
Proof. apply (foldl_ind (λ r, books ∅ (rn_worker r))). intros. by apply worker_do_books. Qed.
End books.

(** ** The assertions of the loop *)

(** C4. Whenever the worker's loop reaches its assertions, after any history of
    readiness events, broadcasts, mailbox traffic, completed lookups, timers,
    socket refusals and changes made by other threads, the incrementally kept
    in-flight total is the sum of [accounted_bytes] over the slab and the
    outbound total the sum of [outbound_bytes], both as [u64]; and every
    connection that owes bytes has its write interest armed. When the shutdown
    drain ends the loop, no connection is left and both totals are back at
    zero. *)
Theorem loop_assertions_hold `{SerdeJson, Crypto, HttpParse, Sha1, Base64} {A} `{Adapter A, AppTable A}
    (cfg : WorkerConfig) (db : AppDb) (ss : list WStep) (sh : Shared) (x : World A) (m : Iteration) :
  let r := worker_run cfg db ss (start_worker cfg sh x) in
  rn_stopped r = false →
  let r' := before_poll cfg m r in
  let conns := wk_conns (rn_worker r') in
  let t := wk_totals (rn_worker r') in
  to_inflight t = slab_sum (λ x, accounted_bytes (we_conn x)) conns mod 2 ^ 64 ∧
  to_outbound t = slab_sum (λ x, outbound_bytes (we_conn x)) conns mod 2 ^ 64 ∧
  (∀ key x, conns !! key = Some x → out (we_conn x) ≠ [] → li_writable_armed (en_link (we_in x)) = true) ∧
  (rn_stopped r' = true → conns = ∅ ∧ to_inflight t = 0 ∧ to_outbound t = 0).
Proof.
  simpl. intros Hs. destruct (before_poll_books cfg m (worker_run cfg db ss (start_worker cfg sh x))) as [Hb He];
    [by apply worker_run_books|done|].
  pose proof (loop_sums _ _ Hb) as [Hi Ho]. split_and!; [exact Hi|exact Ho| |].
  - intros key y Hy Hout. destruct (ac_quiet _ _ _ Hb key y Hy) as [_ _ [Hn|Ha]]; [set_solver|done|done].
  - intros Hst. specialize (He Hst). rewrite Hi, Ho, He. done.
Qed.
