(* ===== verification/WorkerView.v ===== *)
(** * The life of a worker's connections

    What a worker does to its connections, seen through the stage each is in,
    the subscription index, the timer wheel and the lookups under way: every
    phase of the loop of Worker.v is a sequence of the moves below, and returns
    with every connection at rest. *)

From S2P Require Import Prelude RustStd Json Protocol Frame Timer Outbound Fanout WorkerIndex WorkerDrain.
From S2P Require Import Mailbox Adapter Auth App Envelope Rate Handler Inbound Handshake Admission Links Worker WorkerLedger.

(** ** Stages *)

(** [StDying] is a refused connection whose refusal is being flushed. *)
Inductive Stage : Type :=
| StHead
| StParked (p : PendingEstablish)
| StDying
| StLive (s : WorkerIndex.Session)
| StBroken.

Definition stage (x : WEntry) : Stage :=
  match we_state x, we_pending x, index_session x with
  | Handshaking, None, None => StHead
  | Open, Some p, None => StParked p
  | Open, None, None => StDying
  | Open, None, Some s => StLive s
  | _, _, _ => StBroken
  end.

Record View : Type := mkView {
  v_conns : gmap nat Stage;
  v_subs : LocalSubs;
  v_wheel : TimerWheel;
  v_gen : Z;
  v_lookups : list (nat * Z * string);
  v_resolved : list ResolvedApp
}.

Definition view {A} (w : Worker A) : View :=
  mkView (stage <$> wk_conns w) (wk_subs w) (wk_wheel w) (wk_next_gen w) (wk_lookups w) (wk_resolved w).

Definition put_stage (key : nat) (st : Stage) (v : View) : View :=
  mkView (<[key := st]> (v_conns v)) (v_subs v) (v_wheel v) (v_gen v) (v_lookups v) (v_resolved v).
Definition on_vwheel (f : TimerWheel → TimerWheel) (v : View) : View :=
  mkView (v_conns v) (v_subs v) (f (v_wheel v)) (v_gen v) (v_lookups v) (v_resolved v).
Definition set_vsubs (m : LocalSubs) (v : View) : View :=
  mkView (v_conns v) m (v_wheel v) (v_gen v) (v_lookups v) (v_resolved v).
Definition start_lookup (key : nat) (app : string) (v : View) : View :=
  mkView (v_conns v) (v_subs v) (v_wheel v) (wrapping_inc (v_gen v)) (v_lookups v ++ [(key, v_gen v, app)])
    (v_resolved v).
Definition take_resolved (v : View) : View :=
  mkView (v_conns v) (v_subs v) (v_wheel v) (v_gen v) (v_lookups v) [].

Definition close_stage (key : nat) (v : View) : View :=
  let subs := match v_conns v !! key with Some (StLive s) => deindex_connection s (v_subs v) | _ => v_subs v end in
  mkView (delete key (v_conns v)) subs (Timer.remove key (v_wheel v)) (v_gen v) (v_lookups v) (v_resolved v).

Definition fresh_session (e : EstablishInput) (s : WorkerIndex.Session) : Prop :=
  s_socket_id s = ei_socket_id e ∧ s_subscribed s = ∅ ∧ s_subs s = ∅.

(** [K] are the tokens a turn may establish. *)
Section moves.
Context (cfg : WorkerConfig) (i : Inputs) (K : list nat).

Definition handshake_deadline : option Z :=
  if (0 <? wc_handshake_timeout_ms cfg)%Z then Some (U64.saturating_add (now_ms i) (wc_handshake_timeout_ms cfg))
  else None.

Definition arm_deadline (key : nat) (t : TimerWheel) : TimerWheel :=
  match handshake_deadline with Some d => Timer.arm_handshake key d t | None => t end.

(** What happens to the connection at [key]. *)
Inductive move (key : nat) : View → View → Prop :=
| mv_accept v : v_conns v !! key = None → move key v (on_vwheel (arm_deadline key) (put_stage key StHead v))
| mv_touch v : is_Some (v_conns v !! key) → move key v (on_vwheel (Timer.touch key (now_ms i)) v)
| mv_park v p : v_conns v !! key = Some StHead → pn_gen p = v_gen v →
    move key v (start_lookup key (pn_key p) (put_stage key (StParked p) v))
| mv_refuse v : v_conns v !! key = Some StHead → move key v (put_stage key StDying v)
| mv_open v s : key ∈ K → v_conns v !! key = Some StHead → fresh_session (in_establish i key) s →
    move key v (on_vwheel (λ t, arm_lifetime cfg key (now_ms i) (Timer.clear_handshake key t)) (put_stage key (StLive s) v))
| mv_resume v p s : key ∈ K → v_conns v !! key = Some (StParked p) → fresh_session (in_establish i key) s →
    move key v (on_vwheel (λ t, Timer.clear_handshake key (arm_lifetime cfg key (now_ms i) (Timer.touch key (now_ms i) t)))
                  (put_stage key (StLive s) v))
| mv_dispatch v s subscribed : v_conns v !! key = Some (StLive s) →
    move key v (put_stage key (StLive (WorkerIndex.set_subscribed subscribed s)) v)
| mv_reconcile v s : v_conns v !! key = Some (StLive s) →
    move key v (set_vsubs (reconcile_membership s key (v_subs v)).2
                  (put_stage key (StLive (reconcile_membership s key (v_subs v)).1) v))
| mv_close v : move key v (close_stage key v)
| mv_take v : move key v (take_resolved v).

(** What a due deadline does. *)
Inductive due_move : Due → View → View → Prop :=
| dm_close d key v : d = DuePing key ∨ d = Close4201 key ∨ d = Close4202 key ∨ d = HandshakeTimeout key →
    due_move d v (close_stage key v)
| dm_ping key v s : v_conns v !! key = Some (StLive s) →
    due_move (DuePing key) v (on_vwheel (Timer.mark_ping_sent key (now_ms i)) v)
| dm_unwatch key v : (∀ s, v_conns v !! key ≠ Some (StLive s)) →
    due_move (DuePing key) v (on_vwheel (Timer.clear_liveness key) v)
| dm_shook key v : (∀ st, v_conns v !! key = Some st → ∃ s, st = StLive s) →
    due_move (HandshakeTimeout key) v (on_vwheel (Timer.clear_handshake key) v).
End moves.

(** At rest a session's channels are indexed as the protocol state has them. *)
Definition at_rest (st : Stage) : Prop :=
  match st with
  | StHead | StParked _ => True
  | StLive s => s_subs s = s_subscribed s
  | StDying | StBroken => False
  end.

(** What a handler leaves when it keeps the connection. *)
Definition goes_on (st : Stage) : Prop := match st with StHead | StParked _ | StLive _ => True | _ => False end.

Definition calm (v : View) : Prop := ∀ key st, v_conns v !! key = Some st → at_rest st.
Definition calm_but (key : nat) (v : View) : Prop := ∀ k st, k ≠ key → v_conns v !! k = Some st → at_rest st.

Lemma move_other cfg i K key v v' k : move cfg i K key v v' → k ≠ key → v_conns v' !! k = v_conns v !! k.
Proof. intros [] Hk; simpl; rewrite ?lookup_insert_ne, ?lookup_delete_ne by done; done. Qed.

Lemma moves_other cfg i K key v v' k : rtc (move cfg i K key) v v' → k ≠ key → v_conns v' !! k = v_conns v !! k.
Proof. intros Hr Hk. induction Hr as [|v1 v2 v3 Hm _ IH]; [done|]. rewrite IH. by eapply move_other. Qed.

Lemma moves_calm_but cfg i K key v v' : rtc (move cfg i K key) v v' → calm v → calm_but key v'.
Proof. intros Hr Hc k st Hk. rewrite (moves_other _ _ _ _ _ _ _ Hr Hk). apply Hc. Qed.

Lemma calm_at key v : calm_but key v → (∀ st, v_conns v !! key = Some st → at_rest st) → calm v.
Proof. intros Hb Hk k st Hst. destruct (decide (k = key)) as [->|Hne]; [by apply Hk|by eapply Hb]. Qed.

Lemma close_calm key v : calm_but key v → calm (close_stage key v).
Proof. intros Hb k st. simpl. intros [Hne Hk]%lookup_delete_Some. by eapply Hb. Qed.

Lemma reconcile_calm key v s : calm_but key v → 
  calm (set_vsubs (reconcile_membership s key (v_subs v)).2
          (put_stage key (StLive (reconcile_membership s key (v_subs v)).1) v)).
Proof.
  intros Hb k st. simpl. intros [[<- <-]|[Hne Hk]]%lookup_insert_Some; [|by eapply Hb].
  destruct (reconcile_fields s key (v_subs v)) as (_ & _ & _ & Hs & Hr). simpl. congruence.
Qed.

(** ** What leaves the view alone *)

Section view.
Context `{SerdeJson, Crypto, HttpParse, Sha1, Base64} {A : Type} `{Adapter A, AppTable A}.
Context (cfg : WorkerConfig).
Implicit Type w : Worker A.

Lemma view_put key x w : view (put_entry key x w) = put_stage key (stage x) (view w).
Proof. unfold view. simpl. by rewrite fmap_insert. Qed.

Lemma put_same key st v : v_conns v !! key = Some st → put_stage key st v = v.
Proof. intros Hk. unfold put_stage. rewrite insert_id by done. by destruct v. Qed.

Lemma view_at key x w : wk_conns w !! key = Some x → v_conns (view w) !! key = Some (stage x).
Proof. intros Hx. simpl. by rewrite lookup_fmap, Hx. Qed.

Lemma view_on_entry key f w : (∀ x, stage (f x) = stage x) → view (on_entry key f w) = view w.
Proof.
  intros Hf. unfold view. simpl. f_equal. apply map_eq. intros k. rewrite !lookup_fmap.
  destruct (decide (k = key)) as [->|Hne]; [|by rewrite lookup_alter_ne].
  rewrite lookup_alter_eq. destruct (wk_conns w !! key); [simpl; by rewrite Hf|done].
Qed.

Lemma view_fold_delta key w : view (fold_delta key w) = view w.
Proof. unfold fold_delta. destruct (wk_conns w !! key); [|done]. by apply (view_on_entry key). Qed.

Lemma view_fold_drops key w : view (fold_drops key w) = view w.
Proof.
  unfold fold_drops. transitivity (view (fold_codel key w)).
  - unfold fold_drophead. destruct (wk_conns (fold_codel key w) !! key); [|done]. by apply (view_on_entry key).
  - unfold fold_codel. destruct (wk_conns w !! key); [|done]. by apply (view_on_entry key).
Qed.

Lemma view_folds key w : view (fold_drops key (fold_delta key w)) = view w.
Proof. by rewrite view_fold_drops, view_fold_delta. Qed.

Lemma stage_live x s : stage x = StLive s → index_session x = Some s.
Proof. unfold stage. by destruct (we_state x), (we_pending x), (index_session x); intros [= <-]. Qed.

Lemma index_session_none x : we_session x = None → index_session x = None.
Proof. unfold index_session. by intros ->. Qed.

(** Closing the session the view shows. *)
Lemma view_close_session x w : stage x ≠ StBroken →
  view (close_session cfg x w) =
  set_vsubs match stage x with StLive s => deindex_connection s (wk_subs w) | _ => wk_subs w end (view w).
Proof.
  intros Hb. unfold close_session. destruct (index_session x) as [ix|] eqn:Hix.
  - unfold stage in *. rewrite Hix in *. unfold index_session in Hix.
    destruct (we_session x) as [s|]; [|done]. destruct (we_state x), (we_pending x); try done.
    by destruct (on_close _ _).
  - assert (match stage x with StLive s => deindex_connection s (wk_subs w) | _ => wk_subs w end = wk_subs w) as ->.
    { destruct (stage x) eqn:Hs; try done. apply stage_live in Hs. congruence. }
    by destruct (we_session x).
Qed.

Lemma view_remove key w : v_conns (view w) !! key ≠ Some StBroken →
  view (remove_conn cfg key w) = close_stage key (view w).
Proof.
  intros Hb. unfold remove_conn, close_stage. simpl. rewrite lookup_fmap.
  destruct (wk_conns w !! key) as [x|] eqn:Hx; simpl.
  - rewrite view_close_session; [|simpl in Hb; rewrite lookup_fmap, Hx in Hb; simpl in Hb; congruence].
    unfold view. simpl. by rewrite fmap_delete.
  - unfold view. simpl. by rewrite delete_id by by rewrite lookup_fmap, Hx.
Qed.

Lemma view_handoff prefix key w : v_conns (view w) !! key = Some StHead →
  view (handoff_rest cfg prefix key (on_wheel (Timer.remove key) w)) = close_stage key (view w).
Proof.
  intros Hh. unfold handoff_rest, close_stage. rewrite Hh. simpl in *. rewrite lookup_fmap in Hh.
  destruct (wk_conns w !! key) as [x|]; [|done]. unfold view.
  destruct (wc_rest_handoff cfg); simpl; by rewrite fmap_delete.
Qed.

Lemma view_reconcile key w : v_conns (view w) !! key ≠ Some StBroken →
  view (reconcile_entry key w) =
  match v_conns (view w) !! key with
  | Some (StLive s) =>
      set_vsubs (reconcile_membership s key (wk_subs w)).2
        (put_stage key (StLive (reconcile_membership s key (wk_subs w)).1) (view w))
  | _ => view w
  end.
Proof.
  intros Hb. unfold reconcile_entry. simpl in *. rewrite lookup_fmap in *.
  destruct (wk_conns w !! key) as [x|] eqn:Hx; [|done]. simpl in *.
  destruct (index_session x) as [s|] eqn:Hs.
  - pose proof (reconcile_fields s key (wk_subs w)) as (Ha & Hi & Hv & Hsub & _).
    destruct (reconcile_membership s key (wk_subs w)) as [s' subs] eqn:Hr. simpl in Ha, Hi, Hv, Hsub.
    unfold stage in *. rewrite Hs in *. destruct (we_state x) eqn:Hst, (we_pending x) eqn:Hp; try done. rewrite Hr. simpl.
    transitivity (set_vsubs subs (put_stage key (stage (set_rest (mkSessionRest (s_subs s') (sr_conn_count (we_rest x))
      (sr_cluster_admitted (we_rest x))) x)) (view w))); [by rewrite <-view_put|].
    do 2 f_equal. unfold stage. simpl. rewrite Hst, Hp. unfold index_session in *. unfold we_session in *. simpl. destruct (en_session (we_in x)) as [ss|]; [|done].
    simpl in *. injection Hs as <-. simpl in *. destruct s'. simpl in *. by subst.
  - unfold stage in *. rewrite Hs. by destruct (we_state x), (we_pending x).
Qed.
End view.

(** ** Sessions keep their identity *)

Definition same_session (a b : option SessionState) : Prop :=
  match a, b with
  | None, None => True
  | Some s, Some s' =>
      se_codec s' = se_codec s ∧ cx_app (se_ctx s') = cx_app (se_ctx s) ∧ cx_socket_id (se_ctx s') = cx_socket_id (se_ctx s)
  | _, _ => False
  end.

#[export] Instance same_session_refl : Reflexive same_session.
Proof. by intros [|]. Qed.

#[export] Instance same_session_trans : Transitive same_session.
Proof. intros [a|] [b|] [c|]; simpl; try done. intros (-> & -> & ->) (-> & -> & ->). done. Qed.

Definition evolves (e e' : InEntry) : Prop := same_session (en_session e) (en_session e').

Lemma evolves_eq e e' : en_session e' = en_session e → evolves e e'.
Proof. unfold evolves. by intros ->. Qed.

#[export] Instance evolves_trans : Transitive evolves.
Proof. intros e1 e2 e3. unfold evolves. apply transitivity. Qed.

Lemma flush_session now e : en_session (flush_and_arm now e).1 = en_session e.
Proof. unfold flush_and_arm. by destruct (flush_link now (en_link e)). Qed.

Lemma close_with_session code reason now e : en_session (close_with code reason now e) = en_session e.
Proof. unfold close_with. by rewrite flush_session. Qed.

Section sessions.
Context `{SerdeJson, Crypto} {A : Type} `{Adapter A}.
Implicit Type st : (InEntry * World A)%type.

Lemma dispatch_identity cmd c (w : World A) :
  cx_app (Handler.dispatch cmd c w).1 = cx_app c ∧ cx_socket_id (Handler.dispatch cmd c w).1 = cx_socket_id c.
Proof.
  destruct cmd as [|ch auth data|ch|ev ch data|auth data|ev]; simpl; try done.
  - unfold subscribe. repeat case_match; simplify_eq/=; try done; unfold join_plain, join_presence in *;
      repeat case_match; simplify_eq/=; done.
  - unfold unsubscribe. repeat case_match; simplify_eq/=; done.
  - unfold client_event. repeat case_match; simplify_eq/=; done.
  - unfold signin. repeat case_match; simplify_eq/=; done.
Qed.

Lemma dispatch_text_evolves p now st : evolves st.1 (dispatch_text_message p now st).1.1.
Proof.
  destruct st as [e w]. unfold dispatch_text_message. destruct (negb _).
  { apply evolves_eq. simpl. unfold close_invalid_utf8. by rewrite close_with_session. }
  destruct (en_session e) as [s|] eqn:Hs; [|by apply evolves_eq].
  destruct (codec_decode _ _) as [cmd|]; [|by apply evolves_eq].
  pose proof (dispatch_identity cmd (se_ctx s) w) as [Ha Hi]. destruct (Handler.dispatch _ _ _) as [ctx w'].
  unfold evolves. simpl in *. by rewrite Hs.
Qed.

Lemma dispatch_frame_evolves max now f st : evolves st.1 (dispatch_frame max now f st).1.1.
Proof.
  destruct st as [e w]. unfold dispatch_frame.
  assert (∀ r, evolves e (close_fragment_violation r now e)) as Hviol.
  { intros r. apply evolves_eq. unfold close_fragment_violation. by rewrite close_with_session. }
  assert (∀ e1 p, en_session e1 = en_session e → evolves e (dispatch_text_message p now (e1, w)).1.1) as Htext.
  { intros e1 p He1. etrans; [by apply evolves_eq|]. apply (dispatch_text_evolves p now (e1, w)). }
  destruct (opcode f).
  - unfold take_fragment. set (e1 := mkInEntry _ _ _ _ _ _).
    destruct (en_fragment e) as [[buf| |]|]; try (destruct (negb (fin f)); by apply evolves_eq).
    + destruct (_ <? _)%nat; [destruct (negb (fin f)); by apply evolves_eq|]. destruct (fin f); [|by apply evolves_eq].
      specialize (Htext e1 (buf ++ payload f) eq_refl). by destruct (dispatch_text_message _ _ _).
    + apply evolves_eq. cbn [fst]. unfold close_fragment_violation. by rewrite close_with_session.
  - destruct (bool_decide _); [apply Hviol|]. destruct (negb _); [by apply evolves_eq|].
    specialize (Htext e (payload f) eq_refl). by destruct (dispatch_text_message _ _ _).
  - destruct (en_fragment e) as [[| |]|]; try apply Hviol; [|destruct (negb _)]; by apply evolves_eq.
  - apply evolves_eq. cbn [fst]. unfold close_handshake_reply. by rewrite close_with_session.
  - apply evolves_eq. set (e1 := queue_frame _ now e). pose proof (flush_session now e1).
    by destruct (flush_and_arm now e1).
  - by apply evolves_eq.
Qed.

Lemma dispatch_loop_evolves max now fs : ∀ st, evolves st.1 (dispatch_loop max now fs st).1.1.
Proof.
  induction fs as [|f fs IH]; intros st; simpl; [by apply evolves_eq|].
  pose proof (dispatch_frame_evolves max now f st) as Hf. destruct (dispatch_frame max now f st) as [st1 [a|]]; [done|].
  by etrans; [exact Hf|].
Qed.

Lemma drain_events_identity codec now q : ∀ d, let d' := (drain_events codec now q d).2 in
  cx_app (dr_ctx d') = cx_app (dr_ctx d) ∧ cx_socket_id (dr_ctx d') = cx_socket_id (dr_ctx d) ∧
  (dr_subs_changed d' = false → cx_subscribed (dr_ctx d') = cx_subscribed (dr_ctx d) ∧ dr_subs_changed d = false).
Proof.
  induction q as [|ev q IH]; intros d; [done|]. destruct ev; simpl; try done;
    match goal with
    | |- context [drain_events codec now q ?d1] => destruct (IH d1) as (Ha & Hi & Hs)
    end; simpl in *; split_and!; try done; intros [Hsub [Hc Hd]%orb_false_iff]%Hs; try done.
  apply bool_decide_eq_false in Hd. split; [|done]. rewrite Hsub. set_solver.
Qed.

Lemma drain_session_evolves now st : let r := drain_session now st in
  evolves st.1 r.1.1 ∧
  (res_subs_changed r.2 = false →
   (cx_subscribed ∘ se_ctx <$> en_session r.1.1) = (cx_subscribed ∘ se_ctx <$> en_session st.1)).
Proof.
  destruct st as [e w]. unfold drain_session. destruct (en_session e) as [s|] eqn:Hs.
  2:{ simpl. rewrite Hs. split; [by apply evolves_eq|done]. }
  destruct (w_ad w) as [a env].
  pose proof (drain_events_identity (se_codec s) now (queue_of (env_store env) (cx_self_tx (se_ctx s)))
    (mkDrainState (se_ctx s) (en_link e) false false false)) as (Ha & Hi & Hsub).
  destruct (drain_events _ _ _ _) as [rest d]. simpl in Ha, Hi, Hsub.
  set (e1 := set_session _ _).
  assert (en_session (if dr_wrote d then flush_and_arm now e1 else (e1, Keep)).1 = en_session e1) as He.
  { destruct (dr_wrote d); [apply flush_session|done]. }
  destruct (if dr_wrote d then _ else _) as [e2 fl]. simpl in *. unfold evolves. rewrite Hs, He. simpl.
  split; [done|]. by intros [-> _]%Hsub.
Qed.

Lemma dispatch_frames_evolves max now fs st : evolves st.1 (dispatch_frames max now fs st).1.1.
Proof.
  unfold dispatch_frames. pose proof (dispatch_loop_evolves max now fs st) as Hl.
  destruct (dispatch_loop max now fs st) as [st1 [a|]]; [done|].
  pose proof (drain_session_evolves now st1) as [Hd _]. destruct (drain_session now st1). by etrans; [exact Hl|].
Qed.

Lemma handle_frames_evolves max_payload max now limited st :
  evolves st.1 (handle_frames max_payload max now limited st).1.1.1.
Proof.
  destruct st as [e w]. unfold handle_frames. destruct (read_frames _ _ _) as [[inbuf reads] r].
  destruct r as [fs|err]; [|by apply evolves_eq].
  destruct (if (0 <? _)%Z then _ else _) as [bucket granted]. set (e1 := mkInEntry _ _ _ _ bucket _).
  destruct granted.
  - pose proof (dispatch_frames_evolves max now fs (e1, w)) as Hd. destruct (dispatch_frames _ _ _ _) as [st a].
    etrans; [by apply evolves_eq|exact Hd].
  - apply evolves_eq. simpl. unfold close_frame_flood. by rewrite close_with_session.
Qed.
End sessions.

(** ** Handlers as moves *)

Section handlers.
Context `{SerdeJson, Crypto, HttpParse, Sha1, Base64} {A : Type} `{Adapter A, AppTable A}.
Context (cfg : WorkerConfig) (i : Inputs) (K : list nat).
Implicit Type w : Worker A.

Abbreviation moves := (λ key, rtc (move cfg i K key)).

Lemma stage_evolves e' x : evolves (we_in x) e' →
  match stage x with
  | StLive s => ∃ sub, stage (set_in e' x) = StLive (WorkerIndex.set_subscribed sub s) ∧
      Some sub = (cx_subscribed ∘ se_ctx <$> en_session e')
  | st => stage (set_in e' x) = st
  end.
Proof.
  unfold evolves, stage, index_session, we_session. simpl.
  destruct (en_session (we_in x)) as [s|], (en_session e') as [s'|]; simpl; try done;
    destruct (we_state x), (we_pending x); try done.
  intros (Hc & Ha & Hi). exists (cx_subscribed (se_ctx s')). split; [|done].
  unfold WorkerIndex.set_subscribed. simpl. by rewrite Hc, Ha, Hi.
Qed.

Lemma stage_session_eq e' x : en_session e' = en_session (we_in x) → stage (set_in e' x) = stage x.
Proof. intros He. unfold stage, index_session, we_session. simpl. by rewrite He. Qed.

Lemma stage_flush now x : stage (flush_entry now x).1 = stage x.
Proof.
  unfold flush_entry. pose proof (flush_session now (we_in x)) as Hs.
  destruct (flush_and_arm now (we_in x)) as [e a]. by apply stage_session_eq.
Qed.

(** The session of the connection at [key] evolved, and nothing else moved. *)
Lemma evolve_moves key x e' w w' : wk_conns w !! key = Some x → evolves (we_in x) e' → goes_on (stage x) →
  view w' = view (put_entry key (set_in e' x) w) →
  moves key (view w) (view w') ∧ ∃ st, v_conns (view w') !! key = Some st ∧ goes_on st.
Proof.
  intros Hx He Hg ->. rewrite view_put. pose proof (stage_evolves e' x He) as Hs.
  pose proof (view_at key x w Hx) as Hv.
  destruct (stage x) as [|p| |s|] eqn:Hst; try done.
  - rewrite Hs, (put_same _ _ _ Hv). split; [done|]. by eexists.
  - rewrite Hs, (put_same _ _ _ Hv). split; [done|]. by eexists.
  - destruct Hs as (sub & -> & _). split; [by apply rtc_once, mv_dispatch|].
    eexists. simpl. by rewrite lookup_insert_eq.
Qed.

(** The verdict of a handler about the connection at [key]. *)
Definition judged (key : nat) w (r : Worker A * WAction) : Prop :=
  moves key (view w) (view r.1) ∧
  ∃ st, v_conns (view r.1) !! key = Some st ∧ st ≠ StBroken ∧ (r.2 = WKeep → goes_on st) ∧
    ((∃ prefix, r.2 = WHandoff prefix) → st = StHead).

Lemma judged_put key st x w w' a : moves key (view w) (put_stage key st (view w')) → stage x = st → st ≠ StBroken →
  (a = WKeep → goes_on st) → (∀ prefix, a ≠ WHandoff prefix) → judged key w (put_entry key x w', a).
Proof.
  intros Hm Hs Hb Hg Hn. split; cbn [fst snd]; rewrite view_put, Hs; [done|]. exists st. simpl. rewrite lookup_insert_eq.
  split_and!; [done..|]. intros [p Hp]. by destruct (Hn p).
Qed.

Lemma of_action_not_handoff a prefix : of_action a ≠ WHandoff prefix.
Proof. by destruct a. Qed.

Lemma flush_kept_judged now key st x w w' : moves key (view w) (put_stage key st (view w')) → stage x = st → goes_on st →
  judged key w (flush_kept now key x w').
Proof.
  intros Hm Hs Hg. unfold flush_kept. pose proof (stage_flush now x) as Hf. destruct (flush_entry now x) as [x' a].
  apply (judged_put _ st); [done|by rewrite <-Hs| |done|apply of_action_not_handoff]. by intros ->.
Qed.

Lemma stage_queue text now x : stage (queue_text text now x) = stage x.
Proof. done. Qed.

(** A head answered by a refusal. *)
Lemma reject_judged r now key x w w' : v_conns (view w) !! key = Some StHead → view w' = view w → stage x = StDying →
  judged key w (reject_entry r now key x w').
Proof.
  intros Hh Hv Hx. unfold reject_entry. apply (judged_put _ StDying); [|by rewrite stage_flush|done..].
  rewrite Hv. by apply rtc_once, mv_refuse.
Qed.

Lemma stage_install s now x : we_state x = Open → we_pending x = None →
  stage (install_session cfg s now x) =
  StLive (WorkerIndex.mkSession (app_id (cx_app (se_ctx s.1))) (cx_socket_id (se_ctx s.1)) (version (se_codec s.1))
            (cx_subscribed (se_ctx s.1)) (sr_subs s.2)).
Proof. intros Ho Hp. unfold stage, install_session. simpl. by rewrite Ho, Hp. Qed.

Lemma resolve_fresh e l codec notify dropped sh (x : World A) sh' x' s :
  resolve_app cfg e l codec notify dropped sh x = (sh', x', Ok s) →
  fresh_session e (WorkerIndex.mkSession (app_id (cx_app (se_ctx s.1))) (cx_socket_id (se_ctx s.1))
    (version (se_codec s.1)) (cx_subscribed (se_ctx s.1)) (sr_subs s.2)).
Proof.
  unfold resolve_app. destruct l as [[app| |]|]; try done. unfold finish_establish.
  destruct (take_counts _ _ _ _ _) as [sh1 [[counter admitted]|e']]; [|done].
  destruct (w_ad x) as [a e0]. destruct (new_chan _ _) as [st tx]. by intros [= <- <- <-].
Qed.

Lemma establish_judged path key x w : key ∈ K → v_conns (view w) !! key = Some StHead → we_state x = Open → we_session x = None →
  we_pending x = None → judged key w (establish cfg i path key x w).
Proof.
  intros HK Hh Ho Hs Hp. assert (stage x = StDying) as Hd.
  { unfold stage. by rewrite Ho, Hp, (index_session_none x Hs). }
  unfold establish. destruct (parse_app_path path) as [[app_key protocol] ver].
  destruct (negotiate _ _ _) as [codec|e]; [|by apply reject_judged].
  destruct app_key as [app_key|]; [|by apply reject_judged].
  destruct (in_cached i app_key) as [l|].
  - destruct (resolve_app _ _ _ _ _ _ _ _) as [[sh world] [s|r]] eqn:Hr; [|by apply reject_judged].
    apply resolve_fresh in Hr. eapply flush_kept_judged; [|by apply stage_install|done].
    apply rtc_once. by apply (mv_open cfg i K key (view w)).
  - set (p := mkPendingEstablish _ _ _ _ _).
    apply (flush_kept_judged _ _ (StParked p)); [by apply rtc_once, (mv_park cfg i K key (view w) p)| |done].
    unfold stage. simpl. by rewrite Ho, (index_session_none (set_pending _ x) Hs).
Qed.

Lemma stage_head x : we_state x = Handshaking → goes_on (stage x) →
  stage x = StHead ∧ we_session x = None ∧ we_pending x = None.
Proof.
  unfold stage, index_session. intros ->. destruct (we_pending x); [done|]. by destruct (we_session x).
Qed.

Lemma stage_open x : we_state x = Open → goes_on (stage x) → stage x ≠ StHead.
Proof. unfold stage. intros ->. by destruct (we_pending x), (index_session x). Qed.

Lemma stage_inbound reads inbuf x : stage (set_inbound reads inbuf x) = stage x.
Proof. done. Qed.

Lemma arm_handshake_stage now x : stage (arm_handshake_interest now x).1 = stage x.
Proof.
  unfold arm_handshake_interest. destruct (negb _); [apply stage_flush|]. destruct (li_writable_armed _); [|done].
  by destruct (match head _ with Some (_, r) => r | None => true end).
Qed.

Lemma handle_handshake_judged key x w : key ∈ K → wk_conns w !! key = Some x → we_state x = Handshaking → goes_on (stage x) →
  judged key w (handle_handshake cfg i key x w).
Proof.
  intros HK Hx Hst Hg. destruct (stage_head x Hst Hg) as (Hh & Hs & Hp).
  pose proof (view_at key x w Hx) as Hv. rewrite Hh in Hv. unfold handle_handshake.
  destruct (drain_head_bytes _ _) as [[reads inbuf] alive]. set (x1 := set_inbound reads inbuf x).
  assert (stage x1 = StHead) as Hh1 by done.
  assert (∀ y a, stage y = StHead → judged key w (put_entry key y w, a)) as Hput.
  { intros y a Hy. split; cbn [fst snd]; rewrite view_put, Hy, ?(put_same _ _ _ Hv); [done|]. by exists StHead. }
  destruct alive; [|by apply Hput]. simpl negb. cbn iota.
  destruct (read_head _ _) as [ws_key path| | | |]; [|by apply Hput| | |by apply Hput].
  - by apply establish_judged.
  - pose proof (arm_handshake_stage (in_now_ns i) x1) as Ha. destruct (arm_handshake_interest _ _) as [x' a].
    apply Hput. by rewrite <-Hh1.
  - apply Hput. by rewrite stage_flush.
Qed.

Lemma handle_open_judged key x w : key ∈ K → wk_conns w !! key = Some x → we_state x = Open → goes_on (stage x) →
  judged key w (handle_open cfg i key x w).
Proof.
  intros HK Hx Hst Hg. unfold handle_open.
  pose proof (handle_frames_evolves (wc_max_payload cfg) (wc_max_message_bytes cfg) (in_now_ns i)
    (Some (sl_frame_limited (wk_slots w))) (we_in x, wk_world w)) as He.
  destruct (handle_frames _ _ _ _ _) as [[[e world] a] limited]. simpl in He.
  set (w' := set_slots _ _).
  destruct (evolve_moves key x e w w' Hx He Hg) as [Hm (st & Hst' & Hg')]; [done|].
  split; [done|]. exists st. split_and!; [done|by intros ->|done|]. intros [p Hp]. by destruct (of_action_not_handoff a p).
Qed.

Lemma handle_readable_judged key x w : key ∈ K → wk_conns w !! key = Some x → goes_on (stage x) →
  judged key w (handle_readable cfg i key w).
Proof.
  intros HK Hx Hg. unfold handle_readable. rewrite Hx.
  destruct (we_state x) eqn:Hst; [by apply handle_handshake_judged|by apply handle_open_judged].
Qed.

Lemma handle_writable_judged key x w : key ∈ K → wk_conns w !! key = Some x → goes_on (stage x) →
  judged key w (handle_writable cfg i key w).
Proof.
  intros HK Hx Hg. unfold handle_writable. rewrite Hx. destruct (we_state x) eqn:Hst; [by apply handle_handshake_judged|].
  apply (flush_kept_judged _ _ (stage x)); [|done|done]. by rewrite put_same by by apply view_at.
Qed.

(** ** Phases *)

Definition steps : View → View → Prop := rtc (λ v v', ∃ key, move cfg i K key v v').

(** From rest to rest. *)
Definition reaches w w' : Prop := calm (view w) → steps (view w) (view w') ∧ calm (view w').

#[export] Instance reaches_refl : Reflexive reaches.
Proof. by intros w Hc. Qed.

#[export] Instance reaches_trans : Transitive reaches.
Proof. intros w1 w2 w3 H12 H23 [Hs Hc]%H12. destruct (H23 Hc) as [Hs' Hc']. split; [by etrans|done]. Qed.

Lemma reaches_same w w' : view w' = view w → reaches w w'.
Proof. intros Hv Hc. by rewrite Hv. Qed.

Lemma moves_steps key v v' : moves key v v' → steps v v'.
Proof. apply rtc_subrel. intros. by exists key. Qed.

Lemma calm_goes_on key x w : calm (view w) → wk_conns w !! key = Some x → goes_on (stage x).
Proof. intros Hc Hx%view_at. specialize (Hc _ _ Hx). by destruct (stage x). Qed.

Lemma close_reaches key w w1 w' : moves key (view w) (view w1) → view w' = close_stage key (view w1) → reaches w w'.
Proof.
  intros Hm Hv Hc. rewrite Hv. split; [|by apply close_calm, (moves_calm_but cfg i K key (view w))].
  eapply moves_steps. eapply rtc_r; [exact Hm|apply mv_close].
Qed.

Lemma remove_reaches key w : reaches w (remove_conn cfg key w).
Proof.
  intros Hc. eapply (close_reaches key w w); [done| |done]. apply view_remove. intros Hb. by specialize (Hc _ _ Hb).
Qed.

(** A connection handled: closed, or reconciled. *)
Lemma judged_gone key w w' a : judged key w (w', a) → reaches w (remove_conn cfg key w').
Proof.
  intros (Hm & st & Hst & Hb & _). eapply close_reaches; [exact Hm|]. apply view_remove. simpl in *. congruence.
Qed.

Lemma judged_handed key w w' prefix : judged key w (w', WHandoff prefix) →
  reaches w (handoff_rest cfg prefix key (on_wheel (Timer.remove key) w')).
Proof.
  intros (Hm & st & Hst & _ & _ & Hh). eapply close_reaches; [exact Hm|]. apply view_handoff.
  cbn [fst snd] in *. rewrite Hst, Hh; [done|by eexists].
Qed.

Lemma reconciled key w w' st : moves key (view w) (view w') → v_conns (view w') !! key = Some st → goes_on st →
  reaches w (reconcile_entry key w').
Proof.
  intros Hm Hst Hg Hc. rewrite view_reconcile by (rewrite Hst; intros [= ->]; exact Hg). rewrite Hst.
  pose proof (moves_calm_but _ _ _ _ _ _ Hm Hc) as Hb.
  destruct st as [|p| |s|]; try done.
  - split; [exact (moves_steps _ _ _ Hm)|]. apply (calm_at key); [done|]. intros st. rewrite Hst. by intros [= <-].
  - split; [exact (moves_steps _ _ _ Hm)|]. apply (calm_at key); [done|]. intros st. rewrite Hst. by intros [= <-].
  - split; [|by apply reconcile_calm]. eapply moves_steps. eapply rtc_r; [exact Hm|]. by apply mv_reconcile.
Qed.

Lemma on_readable_reaches key w : key ∈ K → is_Some (wk_conns w !! key) → reaches w (on_readable cfg i key w).1.
Proof.
  intros HK [x Hx]. unfold on_readable. set (w1 := on_wheel _ w). trans w1.
  { intros Hc. split; [|done]. apply (moves_steps key), rtc_once, mv_touch. simpl. by rewrite lookup_fmap, Hx. }
  intros Hc. pose proof (handle_readable_judged key x w1 HK Hx (calm_goes_on _ _ _ Hc Hx)) as Hj. revert Hc. change (reaches w1
    (match handle_readable cfg i key w1 with
     | (w, WKeep) => (reconcile_entry key (fold_drops key (fold_delta key w)), true)
     | (w, WClose) => (remove_conn cfg key (fold_drops key w), false)
     | (w, WHandoff prefix) => (handoff_rest cfg prefix key (on_wheel (Timer.remove key) (fold_drops key w)), false)
     end).1).
  destruct (handle_readable cfg i key w1) as [w2 a]. destruct Hj as (Hm & st & Hst & Hb & Hg & Hh). cbn [fst snd] in *.
  destruct a as [| |prefix]; cbn [fst].
  - apply (reconciled key w1 _ st); [by rewrite view_folds|by rewrite view_folds|by apply Hg].
  - apply (judged_gone key w1 _ WClose). split; cbn [fst snd]; rewrite view_fold_drops; [done|]. by exists st.
  - apply judged_handed. split; cbn [fst snd]; rewrite view_fold_drops; [done|]. by exists st.
Qed.

Lemma on_writable_reaches key w : key ∈ K → is_Some (wk_conns w !! key) → reaches w (on_writable cfg i key w).
Proof.
  intros HK [x Hx] Hc. pose proof (handle_writable_judged key x w HK Hx (calm_goes_on _ _ _ Hc Hx)) as Hj. revert Hc.
  unfold on_writable. destruct (handle_writable cfg i key w) as [w2 a].
  destruct Hj as (Hm & st & Hst & Hb & Hg & Hh). cbn [fst snd] in *.
  set (w3 := fold_drops key (fold_delta key w2)). assert (view w3 = view w2) as Hv by apply view_folds.
  destruct a as [| |prefix].
  - apply (reconciled key w _ st); [by rewrite Hv|by rewrite Hv|by apply Hg].
  - apply (judged_gone key w _ WClose). split; cbn [fst snd]; rewrite Hv; [done|]. by exists st.
  - apply judged_handed. split; cbn [fst snd]; rewrite Hv; [done|]. by exists st.
Qed.

Lemma on_conn_event_reaches ev w : ev_key ev ∈ K → reaches w (on_conn_event cfg i ev w).
Proof.
  intros HK. unfold on_conn_event. destruct (decide _) as [Hd%elem_of_dom|]; [|done].
  destruct (ev_hangup ev); [apply remove_reaches|].
  assert (reaches w (if ev_readable ev then on_readable cfg i (ev_key ev) w else (w, true)).1) as Hr.
  { destruct (ev_readable ev); [by apply on_readable_reaches|done]. }
  destruct (if ev_readable ev then _ else _) as [w1 go_on]. cbn [fst] in Hr. etrans; [exact Hr|].
  destruct (go_on && ev_writable ev); [|done]. simpl. case_bool_decide as Hk; [|done].
  by apply on_writable_reaches; [|apply elem_of_dom].
Qed.

Lemma accept_ready_reaches answers : ∀ now n w, reaches w (accept_ready cfg answers (handshake_deadline cfg i) now n w).1.
Proof.
  induction answers as [|[key registered| | |] answers IH]; intros now n w; simpl; [done| |done|apply IH|done].
  destruct (take_at_ns now 1 (wk_accepts w)) as [bucket granted].
  destruct granted; simpl; [|etrans; [|apply IH]; by apply reaches_same].
  destruct registered; simpl; [|etrans; [|apply IH]; by apply reaches_same].
  etrans; [|apply IH]. set (w1 := match handshake_deadline cfg i with Some d => _ | None => _ end).
  set (k := vacant_key key (wk_conns w)) in *.
  assert (view w1 = on_vwheel (arm_deadline cfg i k) (put_stage k StHead (view w))) as Hv.
  { unfold w1, arm_deadline, view, put_stage, on_vwheel. destruct (handshake_deadline cfg i); simpl; by rewrite fmap_insert. }
  intros Hc. rewrite Hv. split.
  - apply (moves_steps k), rtc_once, mv_accept. simpl. rewrite lookup_fmap.
    assert (wk_conns w !! k = None) as Hk by apply vacant_key_fresh. by rewrite Hk.
  - intros k' st. simpl. intros [[<- <-]|[_ Hk]]%lookup_insert_Some; [done|by eapply Hc].
Qed.

Definition event_keys (ev : Event) : list nat := match ev with EvConn ev => [ev_key ev] | _ => [] end.

Lemma on_event_reaches w ev : (∀ k, k ∈ event_keys ev → k ∈ K) → reaches w (on_event cfg i w ev).
Proof.
  intros HK. destruct ev as [answers| |ev]; simpl; [|done|apply on_conn_event_reaches, HK; by left].
  pose proof (accept_ready_reaches answers (in_now_ns i) 0 w) as Ha. unfold on_listener.
  change (if (0 <? _)%Z then _ else None) with (handshake_deadline cfg i).
  destruct (accept_ready _ _ _ _ _ _) as [w1 n]. etrans; [exact Ha|by apply reaches_same].
Qed.

Lemma foldl_reaches {X} (f : Worker A → X → Worker A) l :
  (∀ w x, x ∈ l → reaches w (f w x)) → ∀ w, reaches w (foldl f w l).
Proof.
  induction l as [|x l IH]; intros Hf w; simpl; [done|]. etrans; [apply Hf; by left|].
  apply IH. intros. apply Hf. by right.
Qed.

Lemma foldl_reaches_fst {X Y} (f : Worker A * Y → X → Worker A * Y) l :
  (∀ st x, x ∈ l → reaches st.1 (f st x).1) → ∀ st, reaches st.1 (foldl f st l).1.
Proof.
  induction l as [|x l IH]; intros Hf st; simpl; [done|]. etrans; [apply Hf; by left|].
  apply IH. intros. apply Hf. by right.
Qed.

Lemma view_put_views (views : gmap nat WorkerDrain.Entry) w : view (set_conns (put_views views (wk_conns w)) w) = view w.
Proof.
  unfold view. simpl. f_equal. apply map_eq. intros k. rewrite !lookup_fmap, put_views_lookup.
  destruct (wk_conns w !! k) as [x|]; simpl; [|done]. by destruct (views !! k).
Qed.

Lemma flush_touched_reaches now st token : reaches st.1 (flush_touched now st token).1.
Proof.
  destruct st as [w to_close]. unfold flush_touched. destruct (decide _); [done|]. destruct (wk_conns w !! token) as [x|] eqn:Hx; [|done].
  pose proof (stage_flush now x) as Hs. destruct (flush_entry now x) as [x' a]. cbn [fst] in *.
  apply reaches_same. rewrite view_folds, view_put, Hs. by apply put_same, view_at.
Qed.

Lemma drain_broadcasts_reaches slot budget now w : reaches w (drain_broadcasts cfg slot budget now w).1.
Proof.
  unfold drain_broadcasts. set (d := drain_broadcast_inbox _ _ _ _ _ _). set (w1 := set_totals _ _).
  assert (view w1 = view w) as Hv by exact (view_put_views (d_conns d) w).
  pose proof (foldl_reaches_fst (flush_touched now) (elements (d_touched d)) (λ st k _, flush_touched_reaches now st k) (w1, ∅)) as Hf.
  destruct (foldl (flush_touched now) (w1, ∅) _) as [w2 to_close]. cbn [fst] in *.
  etrans; [by apply (reaches_same w w1)|]. etrans; [exact Hf|]. apply foldl_reaches. intros. apply remove_reaches.
Qed.

Lemma broadcast_phase_reaches budget w : reaches w (broadcast_phase cfg budget i w).1.
Proof.
  unfold broadcast_phase. destruct (wc_slot cfg) as [slot|]; [|done].
  pose proof (drain_broadcasts_reaches slot budget (in_now_ns i) w) as Hd.
  destruct (drain_broadcasts _ _ _ _ _) as [w1 wrote]. cbn [fst] in Hd.
  etrans; [exact Hd|]. destruct (w_ad (wk_world w1)). by apply reaches_same.
Qed.

Lemma drain_dirty_one_reaches now st key : reaches st.1 (drain_dirty_one cfg now st key).1.
Proof.
  destruct st as [w wrote]. unfold drain_dirty_one. cbn [fst].
  destruct (wk_conns w !! key) as [x|] eqn:Hx; [|done]. destruct (_ && _); [|done].
  pose proof (drain_session_evolves now (we_in x, wk_world w)) as [He Hsame].
  destruct (drain_session now _) as [[e world] r]. cbn [fst snd] in He, Hsame.
  set (w1 := put_entry key (set_in e x) (set_node (wk_shared w) world w)).
  set (w2 := fold_drops key (fold_delta key w1)). assert (view w2 = view w1) as Hv by apply view_folds.
  intros Hc. destruct (evolve_moves key x e w w2 Hx He (calm_goes_on _ _ _ Hc Hx)) as [Hm (st & Hst & Hg)]; [done|].
  revert Hc. destruct (decide (res_action r = ActClose)); cbn [fst].
  { apply (close_reaches key w w2); [done|]. apply view_remove. rewrite Hst. intros [= ->]. exact Hg. }
  destruct (res_subs_changed r); [by eapply reconciled|]. intros Hc.
  specialize (Hsame eq_refl). assert (view w2 = view w) as ->; [|done]. rewrite Hv. unfold w1. rewrite view_put.
  apply put_same. change (view (set_node _ _ w)) with (view w).
  pose proof (stage_evolves e x He) as Hs. rewrite (view_at key x w Hx). f_equal.
  pose proof (calm_goes_on _ _ _ Hc Hx) as Hgo. destruct (stage x) as [|p| |s|] eqn:Hstx; try done.
  destruct Hs as (sub & -> & Hsub). rewrite Hsame in Hsub. f_equal. apply stage_live in Hstx.
  unfold index_session, we_session in Hstx. destruct (en_session (we_in x)); [|done]. injection Hstx as <-.
  simpl in Hsub. injection Hsub as ->. done.
Qed.

Lemma drain_dirty_reaches now w : reaches w (drain_dirty_sessions cfg now w).1.
Proof.
  unfold drain_dirty_sessions, take_dirty. set (w1 := set_node _ _ w). trans w1; [by apply reaches_same|].
  apply (foldl_reaches_fst (drain_dirty_one cfg now) _ (λ st k _, drain_dirty_one_reaches now st k) (w1, false)).
Qed.

Lemma deindex_fresh s m : s_subscribed s = ∅ → s_subs s = ∅ → deindex_connection s m = m.
Proof. intros H1' H2'. unfold deindex_connection. by rewrite H1', H2'. Qed.

(** Closing what never had a channel. *)
Lemma close_idle key st st' v : v_conns v !! key = Some st' → (∀ s, st' ≠ StLive s) →
  (∀ s, st = StLive s → s_subscribed s = ∅ ∧ s_subs s = ∅) → close_stage key (put_stage key st v) = close_stage key v.
Proof.
  intros Hk Hn Hs. unfold close_stage. simpl. rewrite lookup_insert_eq, Hk, delete_insert_eq.
  assert (match st' with StLive s => deindex_connection s (v_subs v) | _ => v_subs v end = v_subs v) as ->.
  { destruct st'; try done. by destruct (Hn s). }
  f_equal. destruct st as [| | |s|]; try done. destruct (Hs s eq_refl). by apply deindex_fresh.
Qed.

Lemma stage_parked x p : we_pending x = Some p → goes_on (stage x) →
  stage x = StParked p ∧ we_state x = Open ∧ we_session x = None.
Proof.
  unfold stage, index_session. intros ->. destruct (we_state x); [done|]. by destruct (we_session x).
Qed.

Lemma resolve_one_reaches w r : rs_token r ∈ K → reaches w (resolve_one cfg i w r).1.
Proof.
  intros HK. unfold resolve_one. set (key := rs_token r) in *. destruct (wk_conns w !! key) as [x|] eqn:Hx; [|done].
  destruct (we_pending x) as [p|] eqn:Hp; [|done]. destruct (negb _); [done|]. intros Hc.
  destruct (stage_parked x p Hp (calm_goes_on _ _ _ Hc Hx)) as (Hst & Ho & Hs).
  pose proof (view_at key x w Hx) as Hv. rewrite Hst in Hv. revert Hc. set (x0 := set_pending None x).
  assert (∀ st y w', stage y = st → view w' = put_stage key st (view w) → st ≠ StBroken →
    (∀ s, st = StLive s → s_subscribed s = ∅ ∧ s_subs s = ∅) → reaches w (remove_conn cfg key w')) as Hgone.
  { intros st y w' Hy Hw' Hb Hf. apply (close_reaches key w w); [done|]. rewrite view_remove.
    - rewrite Hw'. by apply (close_idle key st (StParked p)).
    - rewrite Hw'. simpl. rewrite lookup_insert_eq. congruence. }
  destruct (resolve_app _ _ _ _ _ _ _ _) as [[sh world] [s|rj]] eqn:Hr.
  - apply resolve_fresh in Hr. pose proof (stage_install s (in_now_ns i) x0 Ho eq_refl) as Hi.
    set (ix := WorkerIndex.mkSession _ _ _ _ _) in *.
    pose proof (stage_flush (in_now_ns i) (install_session cfg s (in_now_ns i) x0)) as Hf. rewrite Hi in Hf.
    destruct (flush_entry _ _) as [x' a]. cbn [fst] in Hf. destruct (decide (a = ActClose)); cbn [fst].
    + apply (Hgone (StLive ix) x'); [done|by rewrite view_folds, view_put, Hf|done|].
      intros s' [= <-]. destruct Hr as (_ & ? & ?). done.
    + set (w2 := fold_drops _ _). assert (view w2 = put_stage key (StLive ix) (view w)) as Hw2.
      { unfold w2. by rewrite view_folds, view_put, Hf. }
      intros Hc. set (w3 := on_wheel _ w2). assert (view w3 = on_vwheel (λ t, Timer.clear_handshake key
        (arm_lifetime cfg key (now_ms i) (Timer.touch key (now_ms i) t))) (put_stage key (StLive ix) (view w))) as ->
        by by rewrite <-Hw2.
      split; [by apply (moves_steps key), rtc_once, (mv_resume _ _ _ _ _ p)|].
      intros k st. simpl. intros [[<- <-]|[_ Hk]]%lookup_insert_Some; [|by eapply Hc]. change (s_subs ix = s_subscribed ix). by destruct Hr as (_ & -> & ->).
  - apply (Hgone StDying (flush_entry (in_now_ns i) (queue_reject rj (in_now_ns i) x0)).1);
      [| |done|done]; [|rewrite view_folds, view_put; f_equal]; rewrite stage_flush; unfold stage; simpl;
      by rewrite Ho, (index_session_none (queue_reject rj (in_now_ns i) x0) Hs).
Qed.

Lemma resolve_all_reaches rs w : (∀ r, r ∈ rs → rs_token r ∈ K) → reaches w (resolve_all cfg i rs w).1.
Proof.
  intros HK. unfold resolve_all. change w with (w, false).1 at 1. apply foldl_reaches_fst. intros st r Hr.
  pose proof (resolve_one_reaches st.1 r (HK r Hr)). by destruct (resolve_one _ _ _ _).
Qed.

Lemma take_reaches w : reaches w (set_resolved [] w).
Proof. intros Hc. split; [|done]. apply (moves_steps 0), rtc_once, mv_take. Qed.

Lemma drain_resolved_reaches w : (∀ r, r ∈ wk_resolved w → rs_token r ∈ K) → reaches w (drain_resolved cfg i w).1.
Proof. intros HK. etrans; [apply take_reaches|by apply resolve_all_reaches]. Qed.

(** ** Timers *)

Lemma view_queue_error e now key w : view (queue_error e now key w) = view w.
Proof. by apply view_on_entry. Qed.

Lemma view_send_close code reason now key w : view (send_close_reply code reason now key w).1 = view w.
Proof.
  unfold send_close_reply, with_entry. destruct (wk_conns w !! key) as [x|] eqn:Hx; [|done].
  pose proof (stage_flush now (set_in (queue_close_frame code reason now (we_in x)) x)) as Hs.
  destruct (flush_entry _ _) as [x' a]. cbn [fst] in *. change (view (put_entry key x' w) = view w).
  rewrite view_put, Hs. apply put_same. by rewrite (view_at key x w Hx).
Qed.

Lemma view_queue_ping now key w : match queue_ping now key w with
  | (w', Some a) => view w' = view w ∧ ∃ x s, wk_conns w !! key = Some x ∧ we_state x = Open ∧ we_session x = Some s
  | (w', None) => view w' = view w ∧ ∀ x s, wk_conns w !! key = Some x → we_state x = Open → we_session x ≠ Some s
  end.
Proof.
  unfold queue_ping, with_entry. destruct (wk_conns w !! key) as [x|] eqn:Hx; [|done].
  assert (∀ x', stage x' = stage x → view (set_conns (<[key := x']> (wk_conns w)) w) = view w) as Hsame.
  { intros x' Hs. change (view (put_entry key x' w) = view w). rewrite view_put, Hs. by apply put_same, view_at. }
  destruct (we_session x) as [s|] eqn:Hs; [|split; [by apply Hsame|by intros; simplify_eq; rewrite Hs]].
  destruct (decide (we_state x = Open)) as [Ho|Ho]; [|split; [by apply Hsame|by intros; simplify_eq]].
  pose proof (stage_flush now (queue_text (codec_encode (se_codec s) Ping) now x)) as Hf.
  destruct (flush_entry _ _) as [x' a]. split; [by apply Hsame|]. by exists x, s.
Qed.

Lemma view_gone key w w' : calm (view w) → view w' = view w → view (remove_conn cfg key w') = close_stage key (view w).
Proof. intros Hc Hv. rewrite view_remove by (rewrite Hv; intros Hb; by apply (Hc _ _ Hb)). by rewrite Hv. Qed.

Lemma calm_close key v : calm v → calm (close_stage key v).
Proof. intros Hc. apply close_calm. intros k st _. apply Hc. Qed.

Lemma on_due_view w d : calm (view w) → due_move i d (view w) (view (on_due cfg i w d)) ∧ calm (view (on_due cfg i w d)).
Proof.
  intros Hc. assert (∀ key w', d = DuePing key ∨ d = Close4201 key ∨ d = Close4202 key ∨ d = HandshakeTimeout key →
    view w' = view w → due_move i d (view w) (view (remove_conn cfg key w')) ∧ calm (view (remove_conn cfg key w'))) as Hgone.
  { intros key w' Hd Hv. rewrite (view_gone key w w' Hc Hv). split; [by apply dm_close|by apply calm_close]. }
  destruct d as [key|key|key|key]; simpl.
  - pose proof (view_queue_ping (in_now_ns i) key w) as Hp. destruct (queue_ping _ _ _) as [w1 [a|]].
    + destruct Hp as (Hv & x & s & Hx & Ho & Hs). destruct (decide (a = ActClose)).
      { apply Hgone; [by left|by rewrite view_fold_drops, view_fold_delta]. }
      set (w2 := on_wheel _ _). assert (view w2 = on_vwheel (Timer.mark_ping_sent key (now_ms i)) (view w)) as ->.
      { rewrite <-Hv, <-(view_fold_delta key w1). done. }
      split; [|exact Hc]. pose proof (calm_goes_on _ _ _ Hc Hx) as Hg.
      assert (∃ ix, stage x = StLive ix) as [ix Hix].
      { unfold stage, index_session in *. rewrite Ho, Hs in *. simpl in *. destruct (we_pending x); [done|by eexists]. }
      apply (dm_ping i key (view w) ix). by rewrite (view_at key x w Hx), Hix.
    + destruct Hp as [Hv Hn]. set (w2 := on_wheel _ w1).
      assert (view w2 = on_vwheel (Timer.clear_liveness key) (view w)) as -> by by rewrite <-Hv.
      split; [|exact Hc]. apply dm_unwatch. intros ix Hix. simpl in Hix. rewrite lookup_fmap in Hix.
      destruct (wk_conns w !! key) as [x|] eqn:Hx; [|done]. simpl in Hix. injection Hix as Hix.
      unfold stage, index_session in Hix. destruct (we_state x) eqn:Ho, (we_pending x), (we_session x) as [s|] eqn:Hs; try done.
      by destruct (Hn x s).
  - apply Hgone; [by right; left|]. rewrite view_folds. apply view_send_close.
  - apply Hgone; [by right; right; left|]. rewrite view_folds. unfold send_close_4202.
    rewrite view_send_close. apply view_queue_error.
  - destruct (wk_conns w !! key) as [x|] eqn:Hx.
    + case_bool_decide as Hs; [by apply Hgone; [right; right; right|]|]. split; [|exact Hc]. apply dm_shook.
      intros st. rewrite (view_at key x w Hx). intros [= <-]. pose proof (calm_goes_on _ _ _ Hc Hx) as Hg.
      unfold stage, index_session in *. destruct (we_session x); [|done]. destruct (we_state x), (we_pending x); try done.
      by eexists.
    + split; [|exact Hc]. apply dm_shook. intros st. simpl. by rewrite lookup_fmap, Hx.
Qed.

(** The dues one after the other. *)
Inductive due_moves : list Due → View → View → Prop :=
| dms_nil v : due_moves [] v v
| dms_cons d ds v1 v2 v3 : due_move i d v1 v2 → due_moves ds v2 v3 → due_moves (d :: ds) v1 v3.

Lemma on_dues_view ds : ∀ w, calm (view w) →
  due_moves ds (view w) (view (foldl (on_due cfg i) w ds)) ∧ calm (view (foldl (on_due cfg i) w ds)).
Proof.
  induction ds as [|d ds IH]; intros w Hc; simpl; [by split; [constructor|]|].
  destruct (on_due_view w d Hc) as [Hd Hc']. destruct (IH _ Hc') as [Hds Hc'']. split; [by econstructor|done].
Qed.

Lemma timer_phase_view w : calm (view w) →
  let r := Timer.due (now_ms i) (v_wheel (view w)) in
  due_moves r.2 (on_vwheel (λ _, r.1) (view w)) (view (timer_phase cfg i w).1) ∧ calm (view (timer_phase cfg i w).1).
Proof.
  intros Hc. unfold timer_phase. change (v_wheel (view w)) with (wk_wheel w).
  destruct (Timer.due (now_ms i) (wk_wheel w)) as [t ds].
  by apply (on_dues_view ds (set_wheel t w)).
Qed.

(** ** Shutdown *)

Lemma drain_close_reaches now key w : reaches w (drain_close_connection cfg now key w).
Proof.
  unfold drain_close_connection. set (w1 := queue_shutdown_error now key w).
  pose proof (view_send_close 4200 SHUTDOWN_REASON now key w1) as Hv. unfold send_close_4200.
  destruct (send_close_reply _ _ _ _ _) as [w2 a]. cbn [fst] in Hv.
  set (w3 := fold_drops _ _). trans w3.
  - apply reaches_same. unfold w3. rewrite view_folds, Hv. apply view_queue_error.
  - destruct (decide _); [apply remove_reaches|done].
Qed.

Lemma before_poll_reaches m r : reaches (rn_worker r) (rn_worker (before_poll cfg m r)).
Proof.
  unfold before_poll. destruct (im_shutdown m); [|done]. unfold shutdown_phase. set (r1 := start_drain _ _ _ r).
  trans (rn_worker r1).
  - unfold r1, start_drain. destruct (rn_draining r); [done|]. apply foldl_reaches. intros. apply drain_close_reaches.
  - destruct (_ || _); [|done]. apply foldl_reaches. intros. apply remove_reaches.
Qed.

Lemma up_to_lookups_reaches factor events w : (∀ k, k ∈ events ≫= event_keys → k ∈ K) →
  reaches w (up_to_lookups cfg i factor events w).
Proof.
  intros HK. unfold up_to_lookups. etrans; [|apply drain_dirty_reaches]. etrans; [|apply broadcast_phase_reaches].
  apply foldl_reaches. intros w' ev Hev. apply on_event_reaches. intros k Hk. apply HK, list_elem_of_bind. by exists ev.
Qed.

Lemma steps_resolved v v' r : steps v v' → r ∈ v_resolved v' → r ∈ v_resolved v.
Proof.
  intros Hs. induction Hs as [|v1 v2 v3 [key Hm] _ IH]; [done|]. intros Hr%IH. destruct Hm; try done. by apply elem_of_nil in Hr.
Qed.

Lemma work_reaches factor events w : (∀ k, k ∈ events ≫= event_keys → k ∈ K) →
  (∀ r, r ∈ wk_resolved w → rs_token r ∈ K) → reaches w (drain_resolved cfg i (up_to_lookups cfg i factor events w)).1.
Proof.
  intros HK HR Hc. destruct (up_to_lookups_reaches factor events w HK Hc) as [Hs Hc1].
  destruct (drain_resolved_reaches (up_to_lookups cfg i factor events w)) as [Hs2 Hc2]; [|done|split; [by etrans|done]].
  intros r Hr. apply HR. exact (steps_resolved _ _ r Hs Hr).
Qed.
End handlers.

(** ** A turn of the loop *)

Section turns.
Context `{SerdeJson, Crypto, HttpParse, Sha1, Base64} {A : Type} `{Adapter A, AppTable A}.
Context (cfg : WorkerConfig) (db : AppDb).
Implicit Type r : Run (A := A).

Definition rview r : View := view (rn_worker r).

(** The tokens a turn may establish: those with events and those whose lookup
    has completed. *)
Definition turn_tokens (m : Iteration) r : list nat :=
  (default [] (im_events m) ≫= event_keys) ++ (rs_token <$> wk_resolved (rn_worker r)).

(** A turn that got its events ends with the timers. *)
Lemma iterate_view m r : calm (rview r) →
  let i := im_inputs m in
  let r' := iterate cfg m r in
  calm (rview r') ∧
  ∃ v, steps cfg i (turn_tokens m r) (rview r) v ∧
    (if rn_stopped r' || bool_decide (im_events m = None) then rview r' = v
     else let due := Timer.due (now_ms i) (v_wheel v) in due_moves i due.2 (on_vwheel (λ _, due.1) v) (rview r')).
Proof.
  intros Hc. unfold iterate. cbv zeta. destruct (before_poll_reaches cfg (im_inputs m) (turn_tokens m r) m r Hc) as [Hs Hc1].
  destruct (rn_stopped (before_poll cfg m r)) eqn:Hst.
  { rewrite Hst. split; [done|]. by eexists. }
  destruct (im_events m) as [events|] eqn:Hev; [|rewrite Hst; split; [done|]; by eexists].
  destruct (work_reaches cfg (im_inputs m) (turn_tokens m r) (im_factor m) events (rn_worker (before_poll cfg m r)))
    as [Hs2 Hc2]; [| |done|].
  { intros k Hk. unfold turn_tokens. rewrite Hev. apply elem_of_app. by left. }
  { intros res Hres. apply elem_of_app. right. apply list_elem_of_fmap. exists res. split; [done|].
    exact (steps_resolved _ _ _ _ _ res Hs Hres). }
  unfold rview, work_phase. cbn [rn_worker rn_stopped orb]. set (w := (drain_resolved cfg _ _).1) in *.
  destruct (timer_phase_view cfg (im_inputs m) w Hc2) as [Ht Hc3]. split; [done|].
  exists (view w). split; [by etrans|]. by rewrite bool_decide_false.
Qed.

Lemma feed_view key reads io (w : Worker A) : view (on_entry key (feed reads io) w) = view w.
Proof. by apply view_on_entry. Qed.

Lemma worker_do_calm s r : calm (rview r) → calm (rview (worker_do cfg db s r)).
Proof.
  intros Hc. unfold worker_do. destruct (rn_stopped r); [done|]. destruct s as [m|sh x|key reads io|n t].
  - by destruct (iterate_view m r Hc).
  - done.
  - unfold rview. simpl. rewrite feed_view. done.
  - unfold rview. simpl. unfold answer. by destruct (wk_lookups (rn_worker r) !! n) as [[[key gen] app]|].
Qed.
End turns.
