(* ===== verification/WorkerProps.v ===== *)
(** * What a worker guarantees over its runs

    Three guarantees of the loop of Worker.v, from the moves of WorkerView.v:
    the subscription index mirrors the protocol state, a completed lookup
    reaches only the connection that asked for it, and no connection outlives
    its deadlines. *)

From S2P Require Import Prelude RustStd Json Protocol Frame Timer Outbound Fanout WorkerIndex WorkerDrain.
From S2P Require Import Mailbox Adapter Auth App Envelope Rate Handler Inbound Handshake Admission.
From S2P Require Import Worker WorkerLedger WorkerView.

(** ** The index *)

Definition live_session (st : Stage) : option WorkerIndex.Session := match st with StLive s => Some s | _ => None end.

Definition index_of (v : View) : IndexWorld := mkIndexWorld (omap live_session (v_conns v)) (v_subs v).

(** The ids of the tokens [K] a turn may establish are distinct. *)
Definition distinct_ids (i : Inputs) (K : list nat) : Prop :=
  ∀ k k', k ∈ K → k' ∈ K → ei_socket_id (in_establish i k) = ei_socket_id (in_establish i k') → k = k'.

(** No session has one of them. *)
Definition unused_ids (i : Inputs) (K : list nat) (v : View) : Prop :=
  ∀ t s k, k ∈ K → v_conns v !! t = Some (StLive s) → s_socket_id s ≠ ei_socket_id (in_establish i k).

(** One that has was given it. *)
Definition own_ids (i : Inputs) (K : list nat) (v : View) : Prop :=
  ∀ t s k, k ∈ K → v_conns v !! t = Some (StLive s) → s_socket_id s = ei_socket_id (in_establish i k) → t = k.

Lemma live_lookup v key : iw_sessions (index_of v) !! key = v_conns v !! key ≫= live_session.
Proof. apply lookup_omap. Qed.

Lemma live_put_idle key st v : live_session st = None → (∀ s, v_conns v !! key ≠ Some (StLive s)) →
  omap live_session (<[key := st]> (v_conns v)) = omap live_session (v_conns v).
Proof.
  intros Hst Hn. apply map_eq. intros k. rewrite !lookup_omap. destruct (decide (k = key)) as [->|Hne].
  - rewrite lookup_insert_eq. simpl. rewrite Hst. destruct (v_conns v !! key) as [[]|]; try done. by destruct (Hn s).
  - by rewrite lookup_insert_ne.
Qed.

Lemma live_put key s v : omap live_session (<[key := StLive s]> (v_conns v)) = <[key := s]> (omap live_session (v_conns v)).
Proof. by rewrite omap_insert_Some with (y := s). Qed.

Section index.
Context (cfg : WorkerConfig) (i : Inputs) (K : list nat) (Hids : distinct_ids i K).

Definition index_inv (v : View) : Prop := index_ok (index_of v) ∧ own_ids i K v.

Lemma own_put key st v : own_ids i K v →
  (∀ s k, k ∈ K → st = StLive s → s_socket_id s = ei_socket_id (in_establish i k) → key = k) → own_ids i K (put_stage key st v).
Proof.
  intros Ho Hs t s k HK. simpl. intros [[<- Hst]|[_ Ht]]%lookup_insert_Some; [by apply Hs|by apply Ho].
Qed.

Lemma index_put_idle key st v : live_session st = None → (∀ s, v_conns v !! key ≠ Some (StLive s)) →
  index_inv v → index_inv (put_stage key st v).
Proof.
  intros Hst Hn [Hok Ho]. split; [|by apply own_put; [|intros s k _ ->]].
  unfold index_of. simpl. by rewrite live_put_idle.
Qed.

Lemma index_put_live key s v : key ∈ K → (∀ s', v_conns v !! key ≠ Some (StLive s')) → fresh_session (in_establish i key) s →
  index_inv v → index_inv (put_stage key (StLive s) v).
Proof.
  intros HK Hn (Hid & Hsub & Hsubs) [Hok Ho]. split.
  - unfold index_of. simpl. rewrite live_put. destruct s as [app sid ver sub subs]. simpl in *. subst sub subs.
    apply (index_open_ok (index_of v) Hok).
    + rewrite live_lookup. destruct (v_conns v !! key) as [[]|]; try done. by destruct (Hn s).
    + intros t s. rewrite live_lookup. destruct (v_conns v !! t) as [[]|] eqn:Ht; try done. intros [= ->] _ Heq.
      assert (t = key) as -> by (eapply Ho; [done|exact Ht|congruence]). by destruct (Hn s).
  - apply own_put; [done|]. intros s' k HK' [= <-] Hk. apply Hids; [done|done|congruence].
Qed.

Lemma index_close key v : index_inv v → index_inv (close_stage key v).
Proof.
  intros [Hok Ho]. split.
  2:{ intros t s k HK. simpl. intros [_ Ht]%lookup_delete_Some. by apply Ho. }
  unfold index_of, close_stage. simpl. rewrite omap_delete. destruct (v_conns v !! key) as [st|] eqn:Hk.
  2:{ rewrite delete_id; [done|]. by rewrite lookup_omap, Hk. }
  destruct (live_session st) as [s|] eqn:Hs.
  - destruct st; try done. injection Hs as ->. apply (index_close_ok (index_of v) Hok). by rewrite live_lookup, Hk.
  - rewrite delete_id by by rewrite lookup_omap, Hk. by destruct st.
Qed.

Lemma index_move key v v' : move cfg i K key v v' → index_inv v → index_inv v'.
Proof.
  intros Hm Hinv. destruct Hm as [v Hk|v _|v p Hk _|v Hk|v s HK Hk Hf|v p s HK Hk Hf|v s sub Hk|v s Hk|v|v].
  - apply (index_put_idle key StHead v); [done|intros ?; by rewrite Hk|done].
  - done.
  - apply (index_put_idle key (StParked p) v); [done|intros ?; by rewrite Hk|done].
  - apply (index_put_idle key StDying v); [done|intros ?; by rewrite Hk|done].
  - apply (index_put_live key s v); [done|intros ?; by rewrite Hk|done..].
  - apply (index_put_live key s v); [done|intros ?; by rewrite Hk|done..].
  - destruct Hinv as [Hok Ho]. split.
    + unfold index_of. simpl. rewrite live_put. apply (index_dispatch_ok (index_of v) Hok). by rewrite live_lookup, Hk.
    + apply own_put; [done|]. intros s' k HK [= <-]. exact (Ho key s k HK Hk).
  - destruct Hinv as [Hok Ho]. split.
    + unfold index_of. simpl. rewrite live_put. apply (index_reconcile_ok (index_of v) Hok). by rewrite live_lookup, Hk.
    + apply (own_put key _ v Ho). intros s' k HK [= <-]. destruct (reconcile_fields s key (v_subs v)) as (_ & -> & _). exact (Ho key s k HK Hk).
  - by apply index_close.
  - done.
Qed.

Lemma index_due d v v' : due_move i d v v' → index_inv v → index_inv v'.
Proof. intros [d' key v0 _| | |] Hinv; try done. by apply index_close. Qed.
End index.

Lemma steps_ind (P : View → Prop) cfg i K v v' : (∀ key v v', move cfg i K key v v' → P v → P v') → steps cfg i K v v' → P v → P v'.
Proof. intros Hm Hs. induction Hs as [|v1 v2 v3 [key Hk] _ IH]; [done|]. intros Hp. by eapply IH, Hm. Qed.

Lemma dues_ind (P : View → Prop) i ds v v' : (∀ d v v', due_move i d v v' → P v → P v') → due_moves i ds v v' → P v → P v'.
Proof. intros Hm Hs. induction Hs as [|d ds v1 v2 v3 Hd _ IH]; [done|]. intros Hp. by eapply IH, Hm. Qed.

Section index_runs.
Context `{SerdeJson, Crypto, HttpParse, Sha1, Base64} {A : Type} `{Adapter A, AppTable A}.
Context (cfg : WorkerConfig) (db : AppDb).
Implicit Type r : Run (A := A).

(** The ids generated in a turn are distinct, and no session of the worker has
    one of them. *)
Definition fresh_ids (s : WStep (A := A)) r : Prop :=
  match s with
  | SIterate m =>
      distinct_ids (im_inputs m) (turn_tokens m r) ∧
      ∀ t x s k, k ∈ turn_tokens m r → wk_conns (rn_worker r) !! t = Some x → we_session x = Some s →
        cx_socket_id (se_ctx s) ≠ ei_socket_id (in_establish (im_inputs m) k)
  | _ => True
  end.

Fixpoint all_fresh_ids (ss : list WStep) r : Prop :=
  match ss with
  | [] => True
  | s :: ss => fresh_ids s r ∧ all_fresh_ids ss (worker_do cfg db s r)
  end.

Lemma fresh_unused m r K : (∀ t x s k, k ∈ K → wk_conns (rn_worker r) !! t = Some x → we_session x = Some s →
    cx_socket_id (se_ctx s) ≠ ei_socket_id (in_establish (im_inputs m) k)) → unused_ids (im_inputs m) K (rview r).
Proof.
  intros Hf t ix k HK. unfold rview. simpl. rewrite lookup_fmap. intros (x & Hx & Hs)%fmap_Some.
  symmetry in Hs. apply stage_live in Hs. unfold index_session in Hs. apply fmap_Some in Hs as (s & Hs & ->). simpl.
  by eapply Hf.
Qed.

Definition indexed_ok r : Prop := calm (rview r) ∧ index_ok (index_of (rview r)).

Lemma iterate_indexed m r : fresh_ids (SIterate m) r → indexed_ok r → indexed_ok (iterate cfg m r).
Proof.
  intros [Hd Hu%(fresh_unused m r)] [Hc Hi]. destruct (iterate_view cfg m r Hc) as (Hc' & v & Hs & Hend). split; [done|].
  assert (index_inv (im_inputs m) (turn_tokens m r) v) as Hv.
  { eapply steps_ind; [|exact Hs|].
    - intros key v1 v2 Hm. by eapply index_move.
    - split; [done|]. intros t s k HK Ht Heq. by destruct (Hu t s k). }
  destruct (rn_stopped (iterate cfg m r) || _); [by rewrite Hend; apply Hv|].
  apply (dues_ind (index_inv (im_inputs m) (turn_tokens m r)) _ _ _ _ (λ d v1 v2, index_due _ _ d v1 v2) Hend Hv).
Qed.

Lemma worker_do_indexed s r : fresh_ids s r → indexed_ok r → indexed_ok (worker_do cfg db s r).
Proof.
  intros Hf [Hc Hi]. pose proof (worker_do_calm cfg db s r Hc) as Hc'. split; [done|]. unfold worker_do in *.
  destruct (rn_stopped r); [done|]. destruct s as [m|sh x|key reads io|n t].
  - by apply iterate_indexed.
  - done.
  - unfold rview. simpl. by rewrite feed_view.
  - unfold rview. simpl. unfold answer. by destruct (wk_lookups (rn_worker r) !! n) as [[[key gen] app]|].
Qed.

Lemma worker_run_indexed ss : ∀ r, all_fresh_ids ss r → indexed_ok r → indexed_ok (worker_run cfg db ss r).
Proof.
  induction ss as [|s ss IH]; intros r Hf Hi; [done|]. destruct Hf as [Hf Hfs]. simpl. by apply IH, worker_do_indexed.
Qed.

Lemma start_indexed sh x : indexed_ok (start_worker cfg sh x).
Proof.
  split; [done|]. apply (index_reach_ok []). replace (index_of _) with (mkIndexWorld ∅ ∅); [constructor|].
  unfold index_of, rview, view. simpl. by rewrite fmap_empty, omap_empty.
Qed.

(** A session the worker serves in a channel. *)
Definition serves r (app channel : string) (sid : SocketId) (token : nat) (ver : Z) : Prop :=
  ∃ x s, wk_conns (rn_worker r) !! token = Some x ∧ we_session x = Some s ∧ app_id (cx_app (se_ctx s)) = app ∧
    cx_socket_id (se_ctx s) = sid ∧ version (se_codec s) = ver ∧ channel ∈ cx_subscribed (se_ctx s).

Lemma serves_recorded r app channel sid token ver : calm (rview r) →
  serves r app channel sid token ver ↔ recorded (index_of (rview r)) (app, channel) sid token ver.
Proof.
  intros Hc. unfold serves, recorded. setoid_rewrite live_lookup. unfold rview. simpl. setoid_rewrite lookup_fmap. split.
  - intros (x & s & Hx & Hs & <- & <- & <- & Hch). pose proof (Hc _ _ (view_at _ _ _ Hx)) as Hr.
    assert (∃ ix, stage x = StLive ix ∧ index_session x = Some ix) as (ix & Hst & Hix).
    { unfold stage, index_session in *. rewrite Hs in *. simpl in *. destruct (we_state x), (we_pending x); try done. by eexists. }
    exists ix. rewrite Hx. simpl. rewrite Hst in *. unfold index_session in Hix. rewrite Hs in Hix. simplify_eq/=.
    by rewrite Hr.
  - intros (ix & Hix & <- & <- & <- & Hch). destruct (wk_conns (rn_worker r) !! token) as [x|] eqn:Hx; [|done].
    pose proof (Hc _ _ (view_at _ _ _ Hx)) as Hr. simpl in Hix. destruct (stage x) as [| | |ix'|] eqn:Hst; try done.
    simplify_eq/=. apply stage_live in Hst. unfold index_session in Hst. apply fmap_Some in Hst as (s & Hs & ->).
    exists x, s. simpl in *. by rewrite <-Hr.
Qed.
End index_runs.

(** C5. The worker's subscription index mirrors the protocol state of its
    sessions between any two turns of its loop, after any run in which the
    generated socket ids do not collide: a channel lists a socket, with its slab
    token and protocol version, exactly when the session at that token is
    subscribed to the channel; and no channel without subscribers is listed. *)
Theorem worker_index_mirrors_sessions `{SerdeJson, Crypto, HttpParse, Sha1, Base64} {A} `{Adapter A, AppTable A}
    (cfg : WorkerConfig) (db : AppDb) (ss : list WStep) (sh : Shared) (x : World A) :
  all_fresh_ids cfg db ss (start_worker cfg sh x) →
  let r := worker_run cfg db ss (start_worker cfg sh x) in
  (∀ app channel sid token ver,
     indexed (wk_subs (rn_worker r)) (app, channel) sid = Some (token, ver) ↔ serves r app channel sid token ver) ∧
  no_empty_channel (wk_subs (rn_worker r)).
Proof.
  intros Hf. simpl. destruct (worker_run_indexed cfg db ss _ Hf (start_indexed cfg sh x)) as [Hc Hi]. split.
  - intros app channel sid token ver. rewrite serves_recorded by done. apply Hi.
  - apply Hi.
Qed.

(** ** Lookups *)

(** The lookups under way and the results [rs] not yet handled, after [n]
    lookups were started. *)
Record park_ok (db : AppDb) (n : Z) (rs : list ResolvedApp) (v : View) : Prop := {
  pk_gen : v_gen v = (n mod 2 ^ 64)%Z;
  pk_parked : ∀ key p, v_conns v !! key = Some (StParked p) → (pn_gen p < n)%Z;
  pk_old : ∀ key g app, (key, g, app) ∈ v_lookups v → (g < n)%Z;
  pk_lookups : ∀ key g app p, (key, g, app) ∈ v_lookups v → v_conns v !! key = Some (StParked p) → pn_gen p = g →
    pn_key p = app;
  pk_past : ∀ r, r ∈ rs → (rs_gen r < n)%Z;
  pk_results : ∀ r p, r ∈ rs → v_conns v !! rs_token r = Some (StParked p) → pn_gen p = rs_gen r →
    ∃ t, rs_result r = db (pn_key p) t
}.

(** No connection was parked, none started a lookup. *)
Lemma park_shrinks db n rs v v' : v_gen v' = v_gen v → v_lookups v' = v_lookups v →
  (∀ key p, v_conns v' !! key = Some (StParked p) → v_conns v !! key = Some (StParked p)) →
  park_ok db n rs v → park_ok db n rs v'.
Proof.
  intros Hg Hl Hc []. split; rewrite ?Hg, ?Hl; eauto.
Qed.

Lemma parked_put key st v k p : (∀ p', st ≠ StParked p') → v_conns (put_stage key st v) !! k = Some (StParked p) →
  v_conns v !! k = Some (StParked p).
Proof. intros Hst. simpl. intros [[<- ->]|[_ Hk]]%lookup_insert_Some; [by destruct (Hst p)|done]. Qed.

Lemma parked_close key v k p : v_conns (close_stage key v) !! k = Some (StParked p) → v_conns v !! k = Some (StParked p).
Proof. simpl. by intros [_ Hk]%lookup_delete_Some. Qed.

Abbreviation lookups_of v := (Z.of_nat (length (v_lookups v))).

Lemma park_move cfg i K db key v v' c rs : (0 <= c)%Z → move cfg i K key v v' → (c + lookups_of v' <= 2 ^ 64)%Z →
  park_ok db (c + lookups_of v) rs v → park_ok db (c + lookups_of v') rs v'.
Proof.
  intros Hc Hm Hb Hok. destruct Hm as [v Hk|v _|v p Hk Hp|v Hk|v s _ Hk Hf|v p s _ Hk Hf|v s sub Hk|v s Hk|v|v];
    simpl in Hb |- *; try ((eapply park_shrinks; [..|exact Hok]); try done;
      intros k q; (apply parked_close || by apply parked_put)).
  rewrite length_app in *. simpl in *. destruct Hok as [Hg Hpk Ho Hl Hps Hr].
  set (n := (c + lookups_of v)%Z) in *. replace (c + Z.of_nat (length (v_lookups v) + 1))%Z with (n + 1)%Z by lia.
  rewrite Z.mod_small in Hg by lia. rewrite Hg in *. split; simpl.
  - unfold wrapping_inc. by rewrite Hg.
  - intros k q [[<- [= <-]]|[_ Hq]]%lookup_insert_Some; [lia|]. specialize (Hpk _ _ Hq). lia.
  - intros k g app [Hin|Hin]%elem_of_app; [specialize (Ho _ _ _ Hin); lia|].
    apply list_elem_of_singleton in Hin. simplify_eq. lia.
  - intros k g app q [Hin|Hin]%elem_of_app [[<- [= <-]]|[Hne Hq]]%lookup_insert_Some Hgen.
    + specialize (Ho _ _ _ Hin). lia.
    + by eapply Hl.
    + apply list_elem_of_singleton in Hin. by simplify_eq.
    + apply list_elem_of_singleton in Hin. by simplify_eq.
  - intros r Hin. specialize (Hps _ Hin). lia.
  - intros r q Hin [[_ [= <-]]|[Hne Hq]]%lookup_insert_Some Hgen; [specialize (Hps _ Hin); lia|by eapply Hr].
Qed.

Lemma move_lookups cfg i K key v v' : move cfg i K key v v' → (lookups_of v <= lookups_of v')%Z.
Proof. intros []; simpl; rewrite ?length_app; lia. Qed.

Lemma steps_lookups cfg i K v v' : steps cfg i K v v' → (lookups_of v <= lookups_of v')%Z.
Proof.
  intros Hs. induction Hs as [|v1 v2 v3 [key Hm] _ IH]; [lia|]. pose proof (move_lookups _ _ _ _ _ _ Hm). lia.
Qed.

Lemma park_steps cfg i K db v v' c rs : (0 <= c)%Z → steps cfg i K v v' → (c + lookups_of v' <= 2 ^ 64)%Z →
  park_ok db (c + lookups_of v) rs v → park_ok db (c + lookups_of v') rs v'.
Proof.
  intros Hc Hs. induction Hs as [|v1 v2 v3 [key Hm] Hs IH]; [done|]. intros Hb Hok. apply IH; [done|].
  eapply park_move; [done|exact Hm| |done]. pose proof (steps_lookups _ _ _ _ _ Hs). lia.
Qed.

Lemma park_due i db d v v' n rs : due_move i d v v' → park_ok db n rs v → park_ok db n rs v' ∧ v_lookups v' = v_lookups v.
Proof.
  intros [d' key v0 _| | |] Hok; (split; [|done]); (eapply park_shrinks; [..|exact Hok]); try done.
  intros k p. apply parked_close.
Qed.

Lemma park_dues i db ds v v' n rs : due_moves i ds v v' → park_ok db n rs v → park_ok db n rs v' ∧ v_lookups v' = v_lookups v.
Proof.
  intros Hs. induction Hs as [|d ds v1 v2 v3 Hd _ IH]; [done|]. intros Hok.
  destruct (park_due _ _ _ _ _ _ _ Hd Hok) as [Hok2 <-]. by apply IH.
Qed.

Lemma park_forget db n rs rs' v : (∀ r, r ∈ rs' → r ∈ rs) → park_ok db n rs v → park_ok db n rs' v.
Proof. intros Hs []. split; eauto. Qed.

Lemma dues_resolved i ds v v' : due_moves i ds v v' → v_resolved v' = v_resolved v.
Proof. intros Hs. induction Hs as [|d ds v1 v2 v3 Hd _ IH]; [done|]. rewrite IH. by destruct Hd. Qed.

Section park_runs.
Context `{SerdeJson, Crypto, HttpParse, Sha1, Base64} {A : Type} `{Adapter A, AppTable A}.
Context (cfg : WorkerConfig) (db : AppDb).
Implicit Type r : Run (A := A).

Definition lookups_grown (w w' : Worker A) : Z :=
  Z.max 0 (Z.of_nat (length (wk_lookups w')) - Z.of_nat (length (wk_lookups w))).

(** The lookups a run starts. *)
Fixpoint lookups_started (ss : list WStep) r : Z :=
  match ss with
  | [] => 0
  | s :: ss => lookups_grown (rn_worker r) (rn_worker (worker_do cfg db s r)) + lookups_started ss (worker_do cfg db s r)
  end.

Definition parked_ok (n : Z) r : Prop :=
  calm (rview r) ∧ (lookups_of (rview r) <= n)%Z ∧ park_ok db n (v_resolved (rview r)) (rview r).

Lemma iterate_parked n m r : let r' := iterate cfg m r in
  let n' := (n + lookups_grown (rn_worker r) (rn_worker r'))%Z in
  (n' <= 2 ^ 64)%Z → parked_ok n r → parked_ok n' r'.
Proof.
  cbv zeta. intros Hb (Hc & Hn & Hok). destruct (iterate_view cfg m r Hc) as (Hc' & v & Hs & Hend).
  split; [done|]. pose proof (steps_lookups _ _ _ _ _ Hs) as Hl.
  assert (v_lookups (rview (iterate cfg m r)) = v_lookups v →
    (n + lookups_grown (rn_worker r) (rn_worker (iterate cfg m r)) = (n - lookups_of (rview r)) + lookups_of v)%Z) as Hn'.
  { intros Heq. rewrite <-Heq in Hl |- *. unfold lookups_grown, rview in *. simpl in *. lia. }
  assert (v_lookups (rview (iterate cfg m r)) = v_lookups v →
    park_ok db ((n - lookups_of (rview r)) + lookups_of v)%Z (v_resolved v) v) as Hv.
  { intros Heq. eapply park_forget; [intros res; by eapply steps_resolved|].
    apply (park_steps cfg (im_inputs m) (turn_tokens m r) _ (rview r)); [lia|done|specialize (Hn' Heq); lia|].
    by replace ((n - lookups_of (rview r)) + lookups_of (rview r))%Z with n by lia. }
  destruct (rn_stopped _ || _).
  - rewrite Hend in *. rewrite Hn' by done. split; [lia|by apply Hv].
  - assert (v_lookups (rview (iterate cfg m r)) = v_lookups v) as Heq.
    { clear -Hend. apply (dues_ind (λ v', v_lookups v' = v_lookups v) _ _ _ _ ) in Hend; [done| |done].
      by intros d v1 v2 []. }
    rewrite Hn' by done. rewrite (dues_resolved _ _ _ _ Hend).
    destruct (park_dues _ db _ _ _ ((n - lookups_of (rview r)) + lookups_of v) (v_resolved v) Hend) as [Hok' _].
    { destruct (Hv Heq). by split. }
    rewrite Heq. split; [lia|done].
Qed.

Lemma answer_parked n k t r : parked_ok n r → parked_ok n (on_run (answer db k t) r).
Proof.
  intros (Hc & Hn & [Hg Hpk Ho Hl Hps Hr]). unfold parked_ok, rview in *. simpl in *. unfold answer.
  destruct (wk_lookups (rn_worker r) !! k) as [[[key gen] app]|] eqn:Hk; simpl; [|by split_and!].
  pose proof (list_elem_of_lookup_2 _ _ _ Hk) as Hin.
  assert (∀ e, e ∈ delete k (wk_lookups (rn_worker r)) → e ∈ wk_lookups (rn_worker r)) as Hsub.
  { intros e He. rewrite <-(take_drop k (wk_lookups (rn_worker r))). rewrite delete_take_drop in He.
    apply elem_of_app in He as [He|He]; apply elem_of_app; [by left|right].
    rewrite (drop_S _ _ _ Hk). by right. }
  split_and!; [done| |].
  - rewrite length_delete by by eexists. lia.
  - split; simpl; eauto.
    + intros res [Hres|Hres]%elem_of_app; [by apply Hps|]. apply list_elem_of_singleton in Hres as ->. by eapply Ho.
    + intros res p [Hres|Hres]%elem_of_app; [by apply Hr|]. apply list_elem_of_singleton in Hres as ->. simpl.
      intros Hp Hgen. exists t. by rewrite (Hl key gen app p).
Qed.

Lemma worker_do_parked n s r : let r' := worker_do cfg db s r in
  let n' := (n + lookups_grown (rn_worker r) (rn_worker r'))%Z in
  (n' <= 2 ^ 64)%Z → parked_ok n r → parked_ok n' r'.
Proof.
  cbv zeta. unfold worker_do. assert (∀ r', lookups_of (rview r') <= lookups_of (rview r) →
    n + lookups_grown (rn_worker r) (rn_worker r') = n)%Z as Hn.
  { intros r'. unfold lookups_grown, rview. simpl. lia. }
  destruct (rn_stopped r); [by rewrite Hn|]. destruct s as [m|sh x|key reads io|k t]; [by apply iterate_parked| | |].
  - by rewrite Hn.
  - unfold parked_ok, rview in *. simpl. rewrite feed_view. unfold lookups_grown. simpl. by rewrite Z.sub_diag, Z.add_0_r.
  - rewrite Hn; [intros _; apply answer_parked|]. unfold rview. simpl. unfold answer.
    destruct (wk_lookups (rn_worker r) !! k) as [[[key gen] app]|] eqn:Hk; simpl; [|lia].
    rewrite length_delete by by eexists. lia.
Qed.

Lemma lookups_started_nonneg ss : ∀ r, (0 <= lookups_started ss r)%Z.
Proof.
  induction ss as [|s ss IH]; intros r; simpl; [lia|]. specialize (IH (worker_do cfg db s r)). unfold lookups_grown. lia.
Qed.

Lemma worker_run_parked ss : ∀ n r, (n + lookups_started ss r <= 2 ^ 64)%Z → parked_ok n r →
  parked_ok (n + lookups_started ss r) (worker_run cfg db ss r).
Proof.
  induction ss as [|s ss IH]; intros n r Hb Hok; simpl in *; [by rewrite Z.add_0_r|]. rewrite Z.add_assoc.
  pose proof (lookups_started_nonneg ss (worker_do cfg db s r)).
  apply IH; [lia|]. apply worker_do_parked; [lia|done].
Qed.

Lemma start_parked sh x : parked_ok 0 (start_worker cfg sh x).
Proof.
  split_and!; [done|simpl; lia|]. unfold rview, view. simpl. split; simpl; try (intros *; rewrite ?fmap_empty; set_solver).
Qed.

Lemma folds_lookups key (w : Worker A) : wk_lookups (fold_drops key (fold_delta key w)) = wk_lookups w.
Proof. exact (f_equal v_lookups (view_folds key w)). Qed.

Lemma remove_lookups key (w : Worker A) : wk_lookups (remove_conn cfg key w) = wk_lookups w.
Proof.
  unfold remove_conn. simpl. destruct (wk_conns w !! key) as [x|]; [|done]. unfold close_session.
  destruct (we_session x); [|done]. destruct (index_session x); [|done]. by destruct (on_close _ _).
Qed.

Lemma resolve_one_lookups i (w : Worker A) res : wk_lookups (resolve_one cfg i w res).1 = wk_lookups w.
Proof.
  unfold resolve_one. destruct (wk_conns w !! rs_token res) as [y|]; [|done]. destruct (we_pending y) as [p|]; [|done].
  destruct (negb _); [done|]. destruct (resolve_app _ _ _ _ _ _ _ _) as [[sh world] [s|rj]].
  - destruct (flush_entry _ _) as [y' a]. destruct (decide _); cbn [fst]; rewrite ?remove_lookups.
    + by rewrite folds_lookups.
    + change (wk_lookups (on_wheel ?f ?w)) with (wk_lookups w). by rewrite folds_lookups.
  - cbn [fst]. by rewrite remove_lookups, folds_lookups.
Qed.

Lemma resolve_all_lookups i rs (w : Worker A) : wk_lookups (resolve_all cfg i rs w).1 = wk_lookups w.
Proof.
  unfold resolve_all. apply (foldl_ind (λ st, wk_lookups st.1 = wk_lookups w)); [|done]. intros st res <-.
  rewrite <-(resolve_one_lookups i st.1 res). by destruct (resolve_one _ _ _ _).
Qed.
End park_runs.

(** C6. A completed lookup resumes nobody but the connection that asked for it.
    However slab slots were reused while the lookup was under way, when the
    worker comes to a result it either discards it, or the connection it resumes
    has no session yet and waits for the answer to its own app key. This holds
    while fewer than 2^64 lookups were started, the range of the generation
    counter. *)
Theorem lookup_resumes_its_asker `{SerdeJson, Crypto, HttpParse, Sha1, Base64} {A} `{Adapter A, AppTable A}
    (cfg : WorkerConfig) (db : AppDb) (ss : list WStep) (sh : Shared) (x : World A) (m : Iteration) (events : list Event)
    (rs1 rs2 : list ResolvedApp) (res : ResolvedApp) :
  let r := worker_run cfg db ss (start_worker cfg sh x) in
  let i := im_inputs m in
  let w := up_to_lookups cfg i (im_factor m) events (rn_worker (before_poll cfg m r)) in
  (lookups_started cfg db ss (start_worker cfg sh x) + lookups_grown (rn_worker r) w <= 2 ^ 64)%Z →
  wk_resolved w = rs1 ++ res :: rs2 →
  let w' := (resolve_all cfg i rs1 (set_resolved [] w)).1 in
  resolve_one cfg i w' res = (w', false) ∨
  ∃ y p t, wk_conns w' !! rs_token res = Some y ∧ we_pending y = Some p ∧ we_session y = None ∧
    rs_gen res = pn_gen p ∧ rs_result res = db (pn_key p) t.
Proof.
  cbv zeta. intros Hb Hres. set (r := worker_run _ _ _ _) in *. set (i := im_inputs m) in *. set (w := up_to_lookups _ _ _ _ _) in *.
  set (n := lookups_started _ _ _ _) in *. set (w' := (resolve_all _ _ _ _).1).
  assert (parked_ok db n r) as (Hc & Hn & Hok).
  { rewrite <-(Z.add_0_l n). apply worker_run_parked; [|apply start_parked]. fold n. unfold lookups_grown in Hb. lia. }
  set (K := (events ≫= event_keys) ++ (rs_token <$> wk_resolved w)).
  destruct (before_poll_reaches cfg i K m r Hc) as [Hs1 Hc1].
  destruct (up_to_lookups_reaches cfg i K (im_factor m) events (rn_worker (before_poll cfg m r))) as [Hs2 Hc2]; [|done|].
  { intros k Hk. apply elem_of_app. by left. }
  fold w in Hs2, Hc2. destruct (take_reaches cfg i K w Hc2) as [Hs3 Hc3].
  destruct (resolve_all_reaches cfg i K rs1 (set_resolved [] w)) as [Hs4 Hc4]; [|done|].
  { intros res' Hin. apply elem_of_app. right. apply list_elem_of_fmap_2. rewrite Hres. apply elem_of_app. by left. }
  fold w' in Hs4, Hc4.
  destruct (wk_conns w' !! rs_token res) as [y|] eqn:Hy; [|left; unfold resolve_one; by rewrite Hy].
  destruct (we_pending y) as [p|] eqn:Hp; [|left; unfold resolve_one; by rewrite Hy, Hp].
  destruct (Z.eqb_spec (pn_gen p) (rs_gen res)) as [Hg|Hg].
  2:{ left. unfold resolve_one. rewrite Hy, Hp. by destruct (Z.eqb_spec (pn_gen p) (rs_gen res)). }
  right. destruct (stage_parked y p Hp (calm_goes_on _ _ _ Hc4 Hy)) as (Hst & _ & Hs).
  assert (steps cfg i K (rview r) (view w)) as Hs12 by by etrans. assert (steps cfg i K (view w) (view w')) as Hs34 by by etrans.
  pose proof (steps_lookups _ _ _ _ _ Hs12) as Hl.
  assert (lookups_of (view w') = lookups_of (view w)) as Hl' by (simpl; unfold w'; by rewrite resolve_all_lookups).
  assert (park_ok db (n - lookups_of (rview r) + lookups_of (view w')) (v_resolved (rview r)) (view w')) as Hpk.
  { apply (park_steps cfg i K _ (rview r)); [lia|by etrans| |].
    - rewrite Hl'. unfold lookups_grown in Hb. change (wk_lookups (rn_worker r)) with (v_lookups (rview r)) in Hb.
      change (wk_lookups w) with (v_lookups (view w)) in Hb. lia.
    - by replace (n - lookups_of (rview r) + lookups_of (rview r))%Z with n by lia. }
  destruct (pk_results _ _ _ _ Hpk res p) as [t Ht].
  - eapply steps_resolved; [exact Hs12|]. simpl. rewrite Hres. apply elem_of_app. right. by left.
  - rewrite (view_at _ _ _ Hy), Hst. done.
  - done.
  - by exists y, p, t.
Qed.
