(* ===== verification/WorkerTimers.v ===== *)
(** * No connection outlives its deadlines

    The timer wheel of Timer.v in the loop of Worker.v: every deadline belongs
    to a connection of the slab, a connection without a session is under its
    handshake deadline and a session under its lifetime deadline, when those are
    enabled, and no turn of the loop leaves an overdue one. *)

From S2P Require Import Prelude RustStd Json Protocol Frame Timer Outbound Fanout WorkerIndex WorkerDrain.
From S2P Require Import Mailbox Adapter Auth App Envelope Rate Handler Inbound Handshake Admission.
From S2P Require Import Worker WorkerLedger WorkerView WorkerProps.
#[local] Open Scope Z_scope.

Section timers.
Context (cfg : WorkerConfig).

Abbreviation lifetime_secs := (de_max_conn_lifetime_secs (wc_env cfg)).

(** The armed deadlines [a] of a view; [late] are the dues still to be handled. *)
Record timer_ok (late : list Due) (a : AWheel) (v : View) : Prop := {
  tk_refines : wrefines a (v_wheel v);
  tk_owned : ∀ c cl e, a !! (c, cl) = Some e → is_Some (v_conns v !! c);
  tk_late : ∀ c cl e, a !! (c, cl) = Some e → a_pending e = false → due_of (c, a_kind e) ∈ late;
  tk_handshake : ∀ c st, 0 < wc_handshake_timeout_ms cfg → v_conns v !! c = Some st → live_session st = None →
    is_Some (a !! (c, CHandshake));
  tk_established : ∀ c s, v_conns v !! c = Some (StLive s) → a !! (c, CHandshake) = None;
  tk_lifetime : ∀ c s, 0 < lifetime_secs → v_conns v !! c = Some (StLive s) → is_Some (a !! (c, CLifetime))
}.

(** Only deadlines of [key] moved, to pending ones. *)
Record rearmed (key : nat) (a a' : AWheel) : Prop := {
  ra_other : ∀ c cl, c ≠ key → a' !! (c, cl) = a !! (c, cl);
  ra_own : ∀ cl e, a' !! (key, cl) = Some e → a_pending e = true ∨ a !! (key, cl) = Some e
}.

#[local] Instance rearmed_refl key : Reflexive (rearmed key).
Proof. intros a. split; [done|auto]. Qed.

#[local] Instance rearmed_trans key : Transitive (rearmed key).
Proof.
  intros a1 a2 a3 [Ho1 Hp1] [Ho2 Hp2]. split; [intros; rewrite Ho2 by done; by apply Ho1|].
  intros cl e [|He]%Hp2; [by left|by apply Hp1].
Qed.

Lemma rearmed_arm key d k a : rearmed key a (arm key d k a).
Proof.
  unfold arm. split.
  - intros c cl Hne. apply lookup_insert_ne. congruence.
  - intros cl e [[_ <-]|[_ He]]%lookup_insert_Some; auto.
Qed.

Lemma rearmed_disarm key cl0 a : rearmed key a (disarm key cl0 a).
Proof.
  unfold disarm. split.
  - intros c cl Hne. apply lookup_delete_ne. congruence.
  - intros cl e [_ He]%lookup_delete_Some. auto.
Qed.

(** The connection at [key] moved to [st] and its deadlines with it. *)
Lemma timer_put late a a' v v' key st : timer_ok late a v → wrefines a' (v_wheel v') → rearmed key a a' →
  v_conns v' = <[key := st]> (v_conns v) →
  (0 < wc_handshake_timeout_ms cfg → live_session st = None → is_Some (a' !! (key, CHandshake))) →
  (∀ s, st = StLive s → a' !! (key, CHandshake) = None) →
  (∀ s, 0 < lifetime_secs → st = StLive s → is_Some (a' !! (key, CLifetime))) → timer_ok late a' v'.
Proof.
  intros [Hr Ho Hl Hh He Hlt] Hr' [Hoth Hown] Hc Hh' He' Hlt'. split; rewrite ?Hc; [done| | | | |].
  - intros c cl e Hae. destruct (decide (c = key)) as [->|Hne]; [rewrite lookup_insert_eq; by eexists|].
    rewrite lookup_insert_ne by done. rewrite Hoth in Hae by done. by eapply Ho.
  - intros c cl e Hae Hp. destruct (decide (c = key)) as [->|Hne].
    + destruct (Hown cl e Hae) as [Hpe|Hae']; [congruence|by eapply Hl].
    + rewrite Hoth in Hae by done. by eapply Hl.
  - intros c st' Hen [[<- <-]|[Hne Hst]]%lookup_insert_Some Hn; [by apply Hh'|]. rewrite Hoth by done. by eapply Hh.
  - intros c s [[<- ->]|[Hne Hst]]%lookup_insert_Some; [by eapply He'|]. rewrite Hoth by done. by eapply He.
  - intros c s Hen [[<- ->]|[Hne Hst]]%lookup_insert_Some; [by eapply Hlt'|]. rewrite Hoth by done. by eapply Hlt.
Qed.

Lemma timer_close late late' a v key : timer_ok late a v → (∀ d c k, d = due_of (c, k) → c ≠ key → d ∈ late → d ∈ late') →
  timer_ok late' (disarm_all key a) (close_stage key v).
Proof.
  intros [Hr Ho Hl Hh He Hlt] Hlate.
  assert (∀ c cl, disarm_all key a !! (c, cl) = if decide (c = key) then None else a !! (c, cl)) as Hd.
  { intros c cl. unfold disarm_all, disarm. destruct (decide (c = key)) as [->|Hne].
    - destruct cl; rewrite ?lookup_delete_ne by congruence; rewrite ?lookup_delete_eq; rewrite ?lookup_delete_ne by congruence;
        by rewrite ?lookup_delete_eq.
    - by rewrite !lookup_delete_ne by congruence. }
  split; simpl.
  - by apply remove_wheel_refines.
  - intros c cl e. rewrite Hd. destruct (decide (c = key)) as [|Hne]; [done|]. rewrite lookup_delete_ne by done. apply Ho.
  - intros c cl e. rewrite Hd. destruct (decide (c = key)) as [|Hne]; [done|]. intros Hae Hp.
    eapply Hlate; [done|done|by eapply Hl].
  - intros c st Hen [Hne Hst]%lookup_delete_Some Hn. rewrite Hd, decide_False by done. by eapply Hh.
  - intros c s [Hne Hst]%lookup_delete_Some. rewrite Hd, decide_False by done. by eapply He.
  - intros c s Hen [Hne Hst]%lookup_delete_Some. rewrite Hd, decide_False by done. by eapply Hlt.
Qed.

Definition timed (late : list Due) (v : View) : Prop := ∃ a, timer_ok late a v.

Lemma arm_lifetime_armed key now a t : wrefines a t → ∃ a',
  wrefines a' (Worker.arm_lifetime cfg key now t) ∧ rearmed key a a' ∧ a' !! (key, CHandshake) = a !! (key, CHandshake) ∧
  (0 < lifetime_secs → is_Some (a' !! (key, CLifetime))).
Proof.
  intros Hr. unfold Worker.arm_lifetime, env. destruct (Z.ltb_spec 0 lifetime_secs) as [Hen|Hen].
  - eexists. split_and!; [by apply arm_lifetime_refines|apply rearmed_arm| |].
    + unfold arm. by rewrite lookup_insert_ne.
    + intros _. unfold arm. simpl. rewrite lookup_insert_eq. by eexists.
  - exists a. split_and!; [done|done|done|lia].
Qed.

Lemma touch_armed key now a t : wrefines a t → ∃ a',
  wrefines a' (Timer.touch key now t) ∧ rearmed key a a' ∧ ∀ cl, cl ≠ CLive → a' !! (key, cl) = a !! (key, cl).
Proof.
  intros Hr. eexists. split_and!; [by apply schedule_refines|apply rearmed_arm|]. intros cl Hcl. unfold arm.
  apply lookup_insert_ne. simpl. congruence.
Qed.

(** Moves that leave the wheel and what the deadlines depend on. *)
Lemma timer_same late a v v' key st st' : v_wheel v' = v_wheel v → v_conns v !! key = Some st →
  v_conns v' = <[key := st']> (v_conns v) → (live_session st = None ↔ live_session st' = None) →
  timer_ok late a v → timer_ok late a v'.
Proof.
  intros Hw Hk Hc Hlive Hok. eapply timer_put; [exact Hok|rewrite Hw; apply Hok|done|exact Hc|..].
  - intros Hen Hn. eapply (tk_handshake _ _ _ Hok); [done..|by apply Hlive].
  - intros s ->. destruct st; try (destruct Hlive as [Hl _]; by discriminate Hl). by eapply (tk_established _ _ _ Hok).
  - intros s Hen ->. destruct st; try (destruct Hlive as [Hl _]; by discriminate Hl). by eapply (tk_lifetime _ _ _ Hok).
Qed.

Lemma timer_move i K late key v v' : move cfg i K key v v' → timed late v → timed late v'.
Proof.
  intros Hm [a Hok]. pose proof (tk_refines _ _ _ Hok) as Hr.
  destruct Hm as [v Hk|v [st Hk]|v p Hk Hp|v Hk|v s _ Hk Hf|v p s _ Hk Hf|v s sub Hk|v s Hk|v|v].
  - assert (∃ a', wrefines a' (arm_deadline cfg i key (v_wheel v)) ∧ rearmed key a a' ∧
      (0 < wc_handshake_timeout_ms cfg → is_Some (a' !! (key, CHandshake)))) as (a' & Hr' & Hra & Hh).
    { unfold arm_deadline, handshake_deadline. destruct (Z.ltb_spec 0 (wc_handshake_timeout_ms cfg)) as [Hen|Hen].
      - eexists. split_and!; [by apply arm_handshake_refines|apply rearmed_arm|].
        intros _. unfold arm. simpl. rewrite lookup_insert_eq. by eexists.
      - exists a. split_and!; [done|done|lia]. }
    exists a'. eapply timer_put; [exact Hok|done|exact Hra|done|auto|done|done].
  - destruct (touch_armed key (now_ms i) a (v_wheel v) Hr) as (a' & Hr' & Hra & Hcl). exists a'.
    eapply (timer_put _ a a' v _ key st); [done|done|done|by simpl; rewrite insert_id|..].
    + intros Hen Hn. rewrite Hcl by done. by eapply (tk_handshake _ _ _ Hok).
    + intros s ->. rewrite Hcl by done. by eapply (tk_established _ _ _ Hok).
    + intros s Hen ->. rewrite Hcl by done. by eapply (tk_lifetime _ _ _ Hok).
  - exists a. by eapply (timer_same late a v _ key StHead (StParked p)).
  - exists a. by eapply (timer_same late a v _ key StHead StDying).
  - destruct (arm_lifetime_armed key (now_ms i) _ _ (clear_handshake_refines a (v_wheel v) key Hr)) as (a' & Hr' & Hra & Hh & Hl).
    exists a'. eapply timer_put; [exact Hok|exact Hr'|etrans; [apply rearmed_disarm|exact Hra]|done|done|..].
    + intros _ _. rewrite Hh. unfold disarm. by rewrite lookup_delete_eq.
    + auto.
  - destruct (touch_armed key (now_ms i) a (v_wheel v) Hr) as (a1 & Hr1 & Hra1 & _).
    destruct (arm_lifetime_armed key (now_ms i) a1 _ Hr1) as (a2 & Hr2 & Hra2 & _ & Hl).
    exists (disarm key CHandshake a2). eapply timer_put; [exact Hok|by apply clear_handshake_refines| |done|done|..].
    + etrans; [exact Hra1|]. etrans; [exact Hra2|apply rearmed_disarm].
    + intros _ _. unfold disarm. by rewrite lookup_delete_eq.
    + intros _ Hen _. unfold disarm. rewrite lookup_delete_ne by done. auto.
  - exists a. by eapply (timer_same late a v _ key (StLive s)).
  - exists a. by eapply (timer_same late a v _ key (StLive s)).
  - exists (disarm_all key a). by eapply timer_close.
  - exists a. by destruct Hok.
Qed.

(** *** The dues of a turn *)

(** What is still pending besides the liveness deadlines lies ahead. *)
Definition ahead (now : Z) (a : AWheel) : Prop :=
  ∀ c cl e, cl ≠ CLive → a !! (c, cl) = Some e → a_pending e = true → now < a_deadline e.

Lemma ahead_disarm now key cl a : ahead now a → ahead now (disarm key cl a).
Proof. unfold disarm. intros Ha c cl' e Hcl [_ He]%lookup_delete_Some. by eapply Ha. Qed.

Definition due_key (d : Due) : nat := match d with DuePing c | Close4201 c | Close4202 c | HandshakeTimeout c => c end.

Lemma due_of_key c k : due_key (due_of (c, k)) = c.
Proof. by destruct k. Qed.

(** A due handled in place: its deadline is gone or pending again. *)
Lemma timer_handled d ds a a' v v' : let key := due_key d in
  timer_ok (d :: ds) a v → wrefines a' (v_wheel v') → v_conns v' = v_conns v → rearmed key a a' →
  (∀ cl e, a' !! (key, cl) = Some e → a_pending e = false → due_of (key, a_kind e) ≠ d) →
  (∀ st, v_conns v !! key = Some st → live_session st = None → a' !! (key, CHandshake) = a !! (key, CHandshake)) →
  (∀ s, v_conns v !! key = Some (StLive s) → a !! (key, CHandshake) = None → a' !! (key, CHandshake) = None) →
  a' !! (key, CLifetime) = a !! (key, CLifetime) → is_Some (v_conns v !! key) ∨ (∀ cl, a' !! (key, cl) = None) →
  timer_ok ds a' v'.
Proof.
  cbv zeta. set (key := due_key d). intros [Hr Ho Hl Hh He Hlt] Hr' Hc [Hoth Hown] Hd Hsh Hes Hli Hpres.
  split; rewrite ?Hc; [done| | | | |].
  - intros c cl e Hae. destruct (decide (c = key)) as [->|Hne]; [|rewrite Hoth in Hae by done; by eapply Ho].
    destruct Hpres as [|Hnone]; [done|]. by rewrite Hnone in Hae.
  - intros c cl e Hae Hp. assert (due_of (c, a_kind e) ∈ d :: ds) as Hin.
    { destruct (decide (c = key)) as [->|Hne]; [|rewrite Hoth in Hae by done; by eapply Hl].
      destruct (Hown cl e Hae) as [?|Hae']; [congruence|by eapply Hl]. }
    apply elem_of_cons in Hin as [Heq|]; [|done]. destruct (decide (c = key)) as [->|Hne]; [by destruct (Hd cl e)|].
    destruct Hne. unfold key. by rewrite <-Heq, due_of_key.
  - intros c st Hen Hst Hn. destruct (decide (c = key)) as [->|Hne]; [rewrite (Hsh st) by done|rewrite Hoth by done]; by eapply Hh.
  - intros c s Hst. destruct (decide (c = key)) as [->|Hne]; [|rewrite Hoth by done; by eapply He].
    eapply Hes; [done|by eapply He].
  - intros c s Hen Hst. destruct (decide (c = key)) as [->|Hne]; [rewrite Hli|rewrite Hoth by done]; by eapply Hlt.
Qed.

Lemma due_of_class c k d cl : class_of k = cl → due_of (c, k) = d →
  match d with DuePing _ | Close4201 _ => cl = CLive | Close4202 _ => cl = CLifetime | HandshakeTimeout _ => cl = CHandshake end.
Proof. intros <- <-. by destruct k. Qed.

Lemma timer_due i now d ds v v' a : due_move i d v v' → timer_ok (d :: ds) a v → ahead now a →
  ∃ a', timer_ok ds a' v' ∧ ahead now a'.
Proof.
  intros Hm Hok Ha. pose proof (tk_refines _ _ _ Hok) as Hr. destruct Hm as [d key v Hd|key v s Hk|key v Hn|key v Hs].
  - exists (disarm_all key a). split; [|by do 3 apply ahead_disarm]. eapply timer_close; [done|].
    intros d' c k -> Hne [Heq|]%elem_of_cons; [|done]. assert (due_key d = key) as Hdk by (by destruct Hd as [->|[->|[->| ->]]]).
    by rewrite <-Heq, due_of_key in Hdk.
  - set (a' := arm key (U64.saturating_add (now_ms i) (pong_timeout_ms (v_wheel v))) KPong a).
    assert (wrefines a' (Timer.mark_ping_sent key (now_ms i) (v_wheel v))) as Hr' by by apply schedule_refines.
    assert (∀ cl, cl ≠ CLive → a' !! (key, cl) = a !! (key, cl)) as Hcl by (intros; apply lookup_insert_ne; simpl; congruence).
    exists a'. split.
    + eapply timer_handled; [exact Hok|exact Hr'|done|apply rearmed_arm|..]; simpl; try (intros; rewrite Hcl; done).
      * intros cl e He Hp Hdue. pose proof (due_of_class _ _ _ cl (w_kinds _ _ Hr' _ _ _ He) Hdue) as Hc. simpl in Hc. subst cl.
        unfold a', arm in He. simpl in He. rewrite lookup_insert_eq in He. by simplify_eq.
      * left. by eexists.
    + intros c cl e Hcl' He. unfold a', arm in He. simpl in He. rewrite lookup_insert_ne in He by congruence. by eapply Ha.
  - set (a' := disarm key CLive a). exists a'. split; [|by apply ahead_disarm].
    assert (wrefines a' (Timer.clear_liveness key (v_wheel v))) as Hr' by by apply clear_liveness_refines.
    assert (∀ cl, cl ≠ CLive → a' !! (key, cl) = a !! (key, cl)) as Hcl by (intros; apply lookup_delete_ne; congruence).
    eapply timer_handled; [exact Hok|exact Hr'|done|apply rearmed_disarm|..]; simpl; try (intros; rewrite Hcl; done).
    + intros cl e He Hp Hdue. pose proof (due_of_class _ _ _ cl (w_kinds _ _ Hr' _ _ _ He) Hdue) as Hc. simpl in Hc. subst cl.
      unfold a', disarm in He. by rewrite lookup_delete_eq in He.
    + destruct (v_conns v !! key) as [st|] eqn:Hst; [left; by eexists|right]. intros cl. apply eq_None_not_Some.
      intros [e He]. unfold a', disarm in He. apply lookup_delete_Some in He as [_ He].
      destruct (tk_owned _ _ _ Hok _ _ _ He) as [? ?]. congruence.
  - set (a' := disarm key CHandshake a). exists a'. split; [|by apply ahead_disarm].
    assert (wrefines a' (Timer.clear_handshake key (v_wheel v))) as Hr' by by apply clear_handshake_refines.
    assert (a' !! (key, CHandshake) = None) as Hnone by apply lookup_delete_eq.
    eapply timer_handled; [exact Hok|exact Hr'|done|apply rearmed_disarm|..]; simpl.
    + intros cl e He Hp Hdue. pose proof (due_of_class _ _ _ cl (w_kinds _ _ Hr' _ _ _ He) Hdue) as Hc. simpl in Hc. subst cl. congruence.
    + intros st Hst Hnl. destruct (Hs st Hst) as [s ->]. done.
    + done.
    + by apply lookup_delete_ne.
    + destruct (v_conns v !! key) as [st|] eqn:Hst; [left; by eexists|right]. intros cl. apply eq_None_not_Some.
      intros [e He]. unfold a', disarm in He. apply lookup_delete_Some in He as [_ He].
      destruct (tk_owned _ _ _ Hok _ _ _ He) as [? ?]. congruence.
Qed.

Lemma timer_dues i now ds v v' : due_moves i ds v v' → ∀ a, timer_ok ds a v → ahead now a → ∃ a', timer_ok [] a' v' ∧ ahead now a'.
Proof.
  intros Hs. induction Hs as [|d ds v1 v2 v3 Hd _ IH]; intros a Hok Ha; [by exists a|].
  destruct (timer_due i now d ds v1 v2 a Hd Hok Ha) as (a' & Hok' & Ha'). by apply (IH a').
Qed.

Lemma timer_expire now v a : timer_ok [] a v → 0 <= now < U64.MAX → let due := Timer.due now (v_wheel v) in
  timer_ok due.2 (expire_all now a) (on_vwheel (λ _, due.1) v) ∧ ahead now (expire_all now a).
Proof.
  intros [Hr Ho Hl Hh He Hlt] Hnow. cbv zeta. unfold expire_all. split; [split|].
  - by apply due_refines.
  - intros c cl e. rewrite lookup_fmap. intros (e0 & Hae & _)%fmap_Some. by eapply Ho.
  - intros c cl e. rewrite lookup_fmap. intros (e0 & Hae & ->)%fmap_Some. unfold expire. cbn [a_pending a_kind]. intros Hp.
    destruct (a_pending e0) eqn:Hpe; [|specialize (Hl c cl e0 Hae Hpe); set_solver]. apply Z.ltb_ge in Hp.
    pose proof (w_kinds _ _ Hr _ _ _ Hae) as Hcl. rewrite (due_out a) by done.
    apply list_elem_of_fmap. exists (a_deadline e0, (c, a_kind e0)). split; [done|]. apply elem_of_expired. split; [|lia].
    apply (tl_slots _ _ (w_timeline _ _ Hr)). rewrite Hcl, Hae. destruct e0. simpl in *. by subst.
  - intros c st Hen Hst Hn. rewrite lookup_fmap, fmap_is_Some. by eapply Hh.
  - intros c s Hst. rewrite lookup_fmap. by erewrite He.
  - intros c s Hen Hst. rewrite lookup_fmap, fmap_is_Some. by eapply Hlt.
  - intros c cl e _. rewrite lookup_fmap. intros (e0 & Hae & ->)%fmap_Some. unfold expire. simpl.
    intros [_ Hp]%andb_true_iff. by apply Z.ltb_lt.
Qed.
End timers.

Section timer_runs.
Context `{SerdeJson, Crypto, HttpParse, Sha1, Base64} {A : Type} `{Adapter A, AppTable A}.
Context (cfg : WorkerConfig) (db : AppDb).
Implicit Type r : Run (A := A).

(** The clock of a turn is a [u64] below its maximum. *)
Definition clock_ok (s : WStep (A := A)) : Prop :=
  match s with SIterate m => 0 <= now_ms (im_inputs m) < U64.MAX | _ => True end.

Definition timed_ok r : Prop := calm (rview r) ∧ timed cfg [] (rview r).

Lemma iterate_timed m r : 0 <= now_ms (im_inputs m) < U64.MAX → timed_ok r → let r' := iterate cfg m r in
  timed_ok r' ∧ (rn_stopped r' = false → im_events m ≠ None →
    ∃ a, timer_ok cfg [] a (rview r') ∧ ahead (now_ms (im_inputs m)) a).
Proof.
  cbv zeta. intros Hnow [Hc Ht]. destruct (iterate_view cfg m r Hc) as (Hc' & v & Hs & Hend).
  assert (timed cfg [] v) as [a Hv].
  { eapply steps_ind; [|exact Hs|exact Ht]. intros key v1 v2 Hm. by eapply timer_move. }
  unfold timed_ok. destruct (rn_stopped (iterate cfg m r) || _) eqn:Hb.
  - rewrite Hend in *. split; [by split; [|exists a]|]. intros Hst Hev. rewrite Hst in Hb. simpl in Hb.
    by apply bool_decide_eq_true in Hb.
  - destruct (timer_expire cfg (now_ms (im_inputs m)) v a Hv Hnow) as [Hexp Ha].
    destruct (timer_dues cfg _ _ _ _ _ Hend _ Hexp Ha) as (a' & Hok & Ha').
    split; [by split; [|exists a']|]. intros _ _. by exists a'.
Qed.

Lemma worker_do_timed s r : clock_ok s → timed_ok r → timed_ok (worker_do cfg db s r).
Proof.
  intros Hk Ht. unfold worker_do. destruct (rn_stopped r); [done|]. destruct s as [m|sh x|key reads io|n t].
  - by apply iterate_timed.
  - done.
  - unfold timed_ok, rview. simpl. by rewrite feed_view.
  - destruct Ht as [Hc [a [Hr Ho Hl Hh He Hlt]]]. unfold timed_ok, rview in *. simpl. unfold answer.
    destruct (wk_lookups (rn_worker r) !! n) as [[[key gen] app]|]; (split; [done|by exists a]).
Qed.

Lemma worker_run_timed ss : Forall clock_ok ss → ∀ r, timed_ok r → timed_ok (worker_run cfg db ss r).
Proof. induction 1 as [|s ss Hs _ IH]; intros r Hr; [done|]. simpl. by apply IH, worker_do_timed. Qed.

Lemma start_timed sh x : timed_ok (start_worker cfg sh x).
Proof.
  split; [done|]. exists ∅. split; [apply wrefines_empty|..]; unfold rview, view; simpl; try done;
    intros *; rewrite fmap_empty, lookup_empty; done.
Qed.

Lemma view_session r key x : calm (rview r) → wk_conns (rn_worker r) !! key = Some x →
  v_conns (rview r) !! key = Some (stage x) ∧ (we_session x = None ↔ live_session (stage x) = None).
Proof.
  intros Hc Hx. pose proof (view_at key x (rn_worker r) Hx) as Hv. split; [done|].
  specialize (Hc _ _ Hv). unfold stage, index_session in *.
  by destruct (we_state x), (we_pending x), (we_session x).
Qed.
End timer_runs.

(** C7. No turn of a worker's loop leaves an overdue connection. After any run,
    and a turn that got its readiness events at time [now], every connection
    that still has no session is under a handshake deadline later than [now],
    when handshakes are bounded; every session is under a lifetime deadline later
    than [now], when lifetimes are bounded, and under no handshake deadline any
    more; and the wheel holds no deadline of a connection that is gone. *)
Theorem no_overdue_connections `{SerdeJson, Crypto, HttpParse, Sha1, Base64} {A} `{Adapter A, AppTable A}
    (cfg : WorkerConfig) (db : AppDb) (ss : list WStep) (sh : Shared) (x : World A) (m : Iteration) :
  Forall clock_ok (ss ++ [SIterate m]) → im_events m ≠ None →
  let now := now_ms (im_inputs m) in
  let r := worker_run cfg db (ss ++ [SIterate m]) (start_worker cfg sh x) in
  rn_stopped r = false →
  let wheel := wk_wheel (rn_worker r) in
  (∀ key e, wk_conns (rn_worker r) !! key = Some e → we_session e = None → 0 < wc_handshake_timeout_ms cfg →
     ∃ d, handshake wheel !! key = Some d ∧ now < d) ∧
  (∀ key e, wk_conns (rn_worker r) !! key = Some e → we_session e ≠ None →
     handshake wheel !! key = None ∧
     (0 < de_max_conn_lifetime_secs (wc_env cfg) → ∃ d, lifetime wheel !! key = Some d ∧ now < d)) ∧
  (∀ key, is_Some (handshake wheel !! key) ∨ is_Some (lifetime wheel !! key) ∨ is_Some (live wheel !! key) →
     is_Some (wk_conns (rn_worker r) !! key)).
Proof.
  cbv zeta. intros Hclk Hev Hst. set (r := worker_run _ _ (ss ++ _) _) in *.
  assert (∃ a, calm (rview r) ∧ timer_ok cfg [] a (rview r) ∧ ahead (now_ms (im_inputs m)) a) as (a & Hc & Hok & Ha).
  { apply Forall_app in Hclk as [Hss Hm]. rewrite Forall_singleton in Hm.
    pose proof (worker_run_timed cfg db ss Hss _ (start_timed cfg sh x)) as Ht.
    unfold r, worker_run in *. rewrite foldl_app in *. fold (worker_run cfg db ss (start_worker cfg sh x)) in *.
    simpl in *. unfold worker_do in *. destruct (rn_stopped (worker_run _ _ _ _)) eqn:Hst0; [congruence|].
    destruct (iterate_timed cfg m _ Hm Ht) as [[Hc _] Hend]. destruct (Hend Hst Hev) as (a & Hok & Ha). by exists a. }
  clearbody r. assert (∀ c cl e, a !! (c, cl) = Some e → a_pending e = true) as Hp.
  { intros c cl e He. destruct (a_pending e) eqn:Hpe; [done|]. pose proof (tk_late _ _ _ _ Hok c cl e He Hpe). set_solver. }
  destruct Hok as [[Hli Hlt Hh Hk _] Ho _ Hhs Hes Hlf]. unfold rview in Hli, Hlt, Hh. simpl in Hli, Hlt, Hh.
  split_and!.
  - intros key e He Hs Hen. destruct (view_session r key e Hc He) as [Hv Hn].
    destruct (Hhs key (stage e) Hen Hv) as [ar Har]; [by apply Hn|]. exists (a_deadline ar). rewrite Hh, Har. split; [done|].
    by eapply Ha; [|exact Har|by eapply Hp].
  - intros key e He Hs. destruct (view_session r key e Hc He) as [Hv Hn].
    destruct (stage e) as [| | |ix|] eqn:Hstg; try (destruct Hs; by apply Hn). split; [by rewrite Hh, (Hes key ix)|].
    intros Hen. destruct (Hlf key ix Hen Hv) as [ar Har]. exists (a_deadline ar). rewrite Hlt, Har. split; [done|].
    by eapply Ha; [|exact Har|by eapply Hp].
  - intros key Hd. assert (∃ cl ar, a !! (key, cl) = Some ar) as (cl & ar & Har).
    { rewrite Hh, Hlt, Hli, !fmap_is_Some in Hd. destruct Hd as [[ar ?]|[[ar ?]|[ar ?]]]; by eexists _, _. }
    destruct (Ho _ _ _ Har) as [st Hv]. unfold rview in Hv. simpl in Hv. rewrite lookup_fmap in Hv.
    destruct (wk_conns (rn_worker r) !! key); [by eexists|done].
Qed.
