(* ===== verification/WorkerWitness.v ===== *)
(** * A worker to evaluate on

    One client of a worker over the local adapter: it connects, sends its
    upgrade request, waits for the lookup of its app, is established, and
    subscribes to a channel. The theorems about workers are applied to this run. *)

From S2P Require Import Prelude RustStd Json JsonDemo Protocol Frame Timer Outbound Fanout WorkerIndex WorkerDrain.
From S2P Require Import Mailbox Adapter Auth App Webhook Envelope EnvelopeDemo Rate Handler Inbound Handshake Admission.
From S2P Require Import Worker WorkerLedger WorkerView WorkerProps WorkerTimers.

Module WorkerDemo.
#[export] Instance json : SerdeJson := JsonDemo.demo.
#[export] Instance crypto : Crypto := AuthDemo.crypto.
#[export] Instance http : HttpParse := HandshakeDemo.parser.
#[export] Instance digest : Sha1 := {| sha1 s := s |}.
#[export] Instance b64 : Base64 := EnvelopeDemo.b64.
#[export] Instance moka : Moka := MokaDemo.store.

Definition app : App :=
  mkApp "app" "1" "key" "secret" true true 100 None None true [] false false false false true
    false false.

Definition limits : Limits := mkLimits 100 1024 100 200 200 10 128 256 50.

(** A handshake takes at most ten seconds, a connection lives at most an hour. *)
Definition cfg : WorkerConfig :=
  mkWorkerConfig (mkDispatchEnv limits 120 30 3600 false false false false 0 16) 65536 1000 1000 10000 65536 true 0 None
    0 0 0 CodelParams_DISABLED 1000 0 0 None.

Definition world : World LocalAdapter :=
  mkWorld (LocalAdapter_new ∅ ∅, mkEnv (mkStore ∅ {[0 := []]} ∅ ∅) (mkPercore ∅ false None) 0)
    (mkWebhookHandle [] false 0 0 16).

Definition db : AppDb := λ key _, if decide (key = "key") then Ok (Found app) else Ok NotFound.

(** The ids of the turn at [now] are named after the slot and the time. *)
Definition socket_id (now : Z) (key : nat) : SocketId := SocketId.generate (N.of_nat (S key)) (Z.to_N now).

(** The turn at [now] seconds. *)
Definition turn (now : Z) (events : list Event) : Iteration :=
  mkIteration false 0 0 (Some events) None
    (mkInputs (now * 1000000000) (λ _, None) (λ key, mkEstablishInput (socket_id now key) None)).

Definition readable : Event := EvConn (mkConnEvent 0 false true false).

(** A text frame with an all-zero mask. *)
Definition client_frame (text : string) : list Z :=
  [129; 128 + Z.of_nat (String.length text); 0; 0; 0; 0]%Z ++ as_bytes text.

Definition quoted : string → string := JsonDemo.quoted.

Definition subscribe_text : string :=
  "{" +:+ quoted "event" +:+ ":" +:+ quoted "pusher:subscribe" +:+ "," +:+ quoted "data" +:+ ":{" +:+
  quoted "channel" +:+ ":" +:+ quoted "room" +:+ "}}".

Definition willing : list (list IoResult * bool) := replicate 4 ([Room 1000], true).

Definition connect : list (WStep (A := LocalAdapter)) :=
  [SIterate (turn 1 [EvListener [Accepted 0 true]]);
   SSocket 0 [ReadOk HandshakeDemo.head] willing;
   SIterate (turn 2 [readable])].

Definition established : list (WStep (A := LocalAdapter)) :=
  connect ++ [SAnswer 0 0; SIterate (turn 3 [])].

Definition subscribed : list (WStep (A := LocalAdapter)) :=
  established ++ [SSocket 0 [ReadOk (client_frame subscribe_text)] willing; SIterate (turn 4 [readable])].

Definition run (ss : list (WStep (A := LocalAdapter))) : Run := worker_run cfg db ss (start_worker cfg Shared_new world).
End WorkerDemo.

Section witnesses.
Import WorkerDemo.

(** The ids in use are other ones. *)
Definition used_ids (r : Run (A := LocalAdapter)) : list SocketId :=
  omap (λ x, cx_socket_id ∘ se_ctx <$> we_session x) (map_to_list (wk_conns (rn_worker r))).*2.

Lemma turn_fresh now events (r : Run (A := LocalAdapter)) :
  bool_decide (Forall (λ k, k = 0) (turn_tokens (turn now events) r)) = true →
  bool_decide (socket_id now 0 ∈ used_ids r) = false → fresh_ids (SIterate (turn now events)) r.
Proof.
  intros HK%bool_decide_eq_true Hu%bool_decide_eq_false. rewrite Forall_forall in HK. split.
  - intros k k' Hk Hk' _. by rewrite (HK k Hk), (HK k' Hk').
  - intros t x s k Hk Hx Hs Heq. rewrite (HK k Hk) in Heq. apply Hu. simpl in Heq. rewrite <-Heq.
    apply list_elem_of_omap. exists x. rewrite Hs. split; [|done]. apply list_elem_of_fmap. exists (t, x). split; [done|].
    by apply elem_of_map_to_list.
Qed.

Lemma subscribed_fresh : all_fresh_ids cfg db subscribed (start_worker cfg Shared_new world).
Proof. unfold subscribed, established, connect. cbn [Datatypes.app all_fresh_ids]. split_and!; try exact I; apply turn_fresh; by_eval. Qed.

(** After its subscribe the session is served in the channel, from its slot. *)
Lemma worker_index_mirrors_sessions_witness : serves (run subscribed) "1" "room" (socket_id 3 0) 0 7.
Proof.
  apply (worker_index_mirrors_sessions cfg db subscribed Shared_new world subscribed_fresh). by_eval.
Defined.

(** A client that stops reading after ten bytes owes the worker the rest. *)
Definition blocked : list (WStep (A := LocalAdapter)) :=
  established ++
  [SSocket 0 [ReadOk (client_frame subscribe_text)] [([Room 10], true)]; SIterate (turn 4 [readable])].

Lemma loop_assertions_hold_witness :
  (λ x, li_writable_armed (en_link (we_in x))) <$> wk_conns (rn_worker (run blocked)) !! 0 = Some true.
Proof.
  destruct (loop_assertions_hold cfg db blocked Shared_new world (turn 5 [])) as (_ & _ & Ha & _); [by_eval|].
  assert ((λ x, bool_decide (out (we_conn x) = [])) <$> wk_conns (rn_worker (run blocked)) !! 0 = Some false) as Ho by by_eval.
  specialize (Ha 0). change (before_poll cfg (turn 5 []) ?r) with r in Ha. fold (run blocked) in Ha.
  destruct (wk_conns (rn_worker (run blocked)) !! 0) as [x|]; [|discriminate Ho].
  simpl in Ho |- *. injection Ho as Ho%bool_decide_eq_false. f_equal. by apply Ha.
Defined.

(** The client waits for its app; the answer to its own key resumes it. *)
Definition answered : list (WStep (A := LocalAdapter)) := connect ++ [SAnswer 0 0].

Lemma lookup_resumes_its_asker_witness :
  let w := set_resolved [] (up_to_lookups cfg (im_inputs (turn 3 [])) None [] (rn_worker (run answered))) in
  let result := mkResolvedApp 0 0 (Ok (Found app)) in
  (resolve_one cfg (im_inputs (turn 3 [])) w result).2 = true ∧
  ∃ y p t, wk_conns w !! 0 = Some y ∧ we_pending y = Some p ∧ we_session y = None ∧ 0%Z = pn_gen p ∧
    Ok (Found app) = db (pn_key p) t.
Proof.
  cbv zeta. set (w := set_resolved _ _).
  assert ((resolve_one cfg (im_inputs (turn 3 [])) w (mkResolvedApp 0 0 (Ok (Found app)))).2 = true) as Ht by by_eval.
  split; [exact Ht|].
  destruct (lookup_resumes_its_asker cfg db answered Shared_new world (turn 3 []) [] [] []
    (mkResolvedApp 0 0 (Ok (Found app)))) as [Hno|Hyes].
  - vm_compute. discriminate.
  - by_eval.
  - change (resolve_one cfg (im_inputs (turn 3 [])) w (mkResolvedApp 0 0 (Ok (Found app))) = (w, false)) in Hno.
    rewrite Hno in Ht. discriminate Ht.
  - exact Hyes.
Defined.

(** Accepted after one second, the client has until the eleventh. *)
Lemma no_overdue_connections_witness :
  ∃ d, handshake (wk_wheel (rn_worker (run connect))) !! 0 = Some d ∧ (2000 < d)%Z.
Proof.
  pose proof (no_overdue_connections cfg db (take 2 connect) Shared_new world (turn 2 [readable])) as Hall.
  destruct Hall as (Hh & _); [|discriminate|by_eval|].
  - repeat constructor; vm_compute; congruence.
  - specialize (Hh 0). change (take 2 connect ++ [SIterate (turn 2 [readable])]) with connect in Hh. fold (run connect) in Hh.
    assert ((λ e, match we_session e with Some _ => false | None => true end) <$> wk_conns (rn_worker (run connect)) !! 0 = Some true) as Hs by by_eval.
    destruct (wk_conns (rn_worker (run connect)) !! 0) as [e|]; [|discriminate Hs]. simpl in Hs.
    destruct (we_session e) eqn:He; [discriminate Hs|]. exact (Hh e eq_refl He eq_refl).
Defined.
End witnesses.
