(* ===== verification/Fleet.v ===== *)
(** * The worker fleet: [src/src/transport/mod.rs] and [src/src/server/shutdown.rs]

    How a node sizes and starts its workers, the memory-pressure control loop
    that scales their budgets, the registry its metrics are read from, and how
    the fleet is stopped and joined. The threads, the signal and the pressure
    file are inputs; a thread that cannot be spawned is not modelled. *)

From S2P Require Import Prelude RustStd Outbound Fanout Adapter Auth Rate Text Handler Config Worker.

(** ** Sizing *)

(** What [run_percore] derives from the configuration before it starts a
    worker. *)
Record FleetPlan : Type := mkFleetPlan {
  fp_worker_count : nat;
  fp_budget : Z;
  fp_env : DispatchEnv;
  fp_max_payload : Z;
  fp_per_worker_budget : Z;
  fp_high_water : Z;
  fp_max_accepts_per_second : Z
}.

(** [u64::clamp] panics on an empty range. *)
Definition clamp (lo hi x : Z) : option Z :=
  if (hi <? lo)%Z then None else Some (Z.min (Z.max x lo) hi).

(** [u32::div_ceil] panics on a zero divisor. *)
Definition div_ceil (a b : Z) : option Z :=
  if (b =? 0)%Z then None else Some ((a + (b - 1)) / b)%Z.

(** The share of the accept rate of a worker. *)
Definition accept_share (config : ServerConfig) (worker_count : Z) : option Z :=
  if (c_max_accepts_per_second config =? 0)%Z then Some 0%Z
  else div_ceil (c_max_accepts_per_second config) (worker_count mod 2 ^ 32).

Definition dispatch_env (config : ServerConfig) (budget : Z) (local clustered cluster : bool) : DispatchEnv :=
  mkDispatchEnv (config_limits config) (c_activity_timeout config) (c_pong_timeout config)
    (c_max_conn_lifetime_secs config) (c_strict_protocol config) local clustered cluster
    (resolved_max_connections config budget) (Z.to_nat (c_mailbox_capacity config)).

(** [None] is a panic. *)
Definition plan_fleet (config : ServerConfig) (effective_mem : Z) (available_parallelism : option Z)
    (local clustered cluster : bool) : option FleetPlan :=
  let n := worker_count config available_parallelism in
  let budget := resolved_memory_budget config effective_mem in
  let env := dispatch_env config budget local clustered cluster in
  let max_payload := Z.max (c_max_event_payload_bytes config) (Z.shiftl 1 20) in
  let per_worker_budget := (budget / Z.max n 1)%Z in
  high_water ← clamp (c_perconn_queue_min_bytes config) (c_perconn_queue_max_bytes config)
    (per_conn_cap per_worker_budget (c_expected_conns_per_worker config));
  accepts ← (if (n =? 0)%Z then Some 0%Z else accept_share config n);
  Some (mkFleetPlan (Z.to_nat n) budget env max_payload per_worker_budget high_water accepts).

(** The configuration of worker [i], whose shared objects have its number. *)
Definition worker_config (config : ServerConfig) (p : FleetPlan) (rest_handoff local : bool) (i : nat) : WorkerConfig :=
  mkWorkerConfig (fp_env p) (fp_max_payload p) (Z.to_nat (c_max_event_payload_bytes config))
    (Z.to_nat (c_max_head_bytes config)) (c_handshake_timeout_ms config) (fp_high_water p) rest_handoff
    (fp_per_worker_budget p) (Some i) (c_max_frames_per_second config) (c_max_frames_burst config)
    (fp_max_accepts_per_second p) (codel_params config) (c_shutdown_grace_ms config) i i
    (if local then Some i else None).

Definition fleet_configs (config : ServerConfig) (p : FleetPlan) (rest_handoff local : bool) : list WorkerConfig :=
  worker_config config p rest_handoff local <$> seq 0 (fp_worker_count p).

(** The core a worker is pinned to, if the system reports any. *)
Definition core_of {C} (core_ids : list C) (i : nat) : option C :=
  core_ids !! (i mod Nat.max (length core_ids) 1)%nat.

(** ** The broadcast plumbing *)

Definition fresh_slot (cap : nat) : WorkerSlot := mkWorkerSlot [] cap false None 0 false.

(** One slot per worker, bound to the saturation flag of the local adapter and
    installed as its sink, before a worker starts. *)
Definition wire_fleet `{Moka} (handoff_cap n : nat) (local : LocalAdapter) (p : Percore) : LocalAdapter * Percore :=
  let workers := seq 0 n in
  let slots := foldl (λ m i, <[i := fresh_slot handoff_cap]> m) (pc_slots p) workers in
  (set_broadcast_sink workers local, bind_workers workers (mkPercore slots (pc_inbox_full p) (pc_workers p))).

(** ** The metrics registry *)

(** The counters of the workers, one list each; [pr_worker_slots] are the slots
    of the broadcast plumbing. *)
Record PercoreRegistry : Type := mkPercoreRegistry {
  pr_inflight_slots : list Z;
  pr_worker_slots : list nat;
  pr_accepted_slots : list Z;
  pr_codel_dropped_slots : list Z;
  pr_drophead_dropped_slots : list Z;
  pr_mailbox_dropped_slots : list Z;
  pr_frame_limited_slots : list Z;
  pr_accept_limited_slots : list Z;
  pr_handshake_timeout_slots : list Z;
  pr_budget_factor : Z;
  pr_worker_budget_bytes : Z
}.

(** The registry as a fleet starts. *)
Definition fill_registry (p : FleetPlan) (local : bool) : PercoreRegistry :=
  let zeros := replicate (fp_worker_count p) 0%Z in
  mkPercoreRegistry zeros (if local then seq 0 (fp_worker_count p) else []) zeros zeros zeros zeros zeros zeros
    zeros 1000 (fp_per_worker_budget p).

Record PercoreMetricsSnapshot : Type := mkPercoreMetricsSnapshot {
  pm_inflight : list Z;
  pm_dropped : list Z;
  pm_accepted : list Z;
  pm_codel_dropped : list Z;
  pm_drophead_dropped : list Z;
  pm_mailbox_dropped : list Z;
  pm_frame_limited : list Z;
  pm_accept_limited : list Z;
  pm_handshake_timeout : list Z;
  pm_inflight_total : Z;
  pm_budget_factor : f64;
  pm_worker_budget_bytes : Z
}.

Definition slot_dropped (p : Percore) (k : nat) : Z :=
  match pc_slots p !! k with Some s => ws_dropped s | None => 0%Z end.

Definition percore_metrics_snapshot (registry : option PercoreRegistry) (p : Percore) : option PercoreMetricsSnapshot :=
  g ← registry;
  let inflight := pr_inflight_slots g in
  Some (mkPercoreMetricsSnapshot inflight (slot_dropped p <$> pr_worker_slots g) (pr_accepted_slots g)
    (pr_codel_dropped_slots g) (pr_drophead_dropped_slots g) (pr_mailbox_dropped_slots g)
    (pr_frame_limited_slots g) (pr_accept_limited_slots g) (pr_handshake_timeout_slots g)
    (foldr Z.add 0 inflight mod 2 ^ 64)%Z
    (F64.div (F64.of_uint (pr_budget_factor g)) (F64.of_uint 1000)) (pr_worker_budget_bytes g)).

(** ** The memory-pressure loop *)

Definition FLOOR : Z := 800.
Definition CEIL : Z := 1000.

Definition compute_factor (current : Z) (full_avg10 threshold : f64) : Z :=
  if F64.lt threshold full_avg10 then Z.max ((current * 9) mod 2 ^ 32 / 10) FLOOR
  else if F64.lt full_avg10 (F64.div threshold (F64.of_uint 2)) then
    Z.min ((current + CEIL / 10) mod 2 ^ 32) CEIL
  else Z.min (Z.max current FLOOR) CEIL.

(** A tick reads the pressure file, if it can. *)
Definition psi_tick (threshold : f64) (factor : Z) (contents : option string) : Z :=
  match contents ≫= psi_full_avg10 with
  | Some p => compute_factor factor p threshold
  | None => factor
  end.

(** The ticks up to the shutdown. *)
Definition psi_backstop_loop (threshold : f64) : Z → list (option string) → Z := foldl (psi_tick threshold).

(** The loop runs when it is asked for, or by default when a file is there, if
    there is a file and a runtime to run it on. *)
Definition psi_backstop_on (config : ServerConfig) (fs : Files) (runtime : bool) : option string :=
  let path := psi_pressure_path fs in
  if default (bool_decide (is_Some path)) (c_psi_backstop config) && runtime then path else None.

(** ** Stopping *)

Inductive ThreadExit : Type := ExitOk | ExitErr (e : string) | ExitPanic.

Inductive Thread : Type := Running | Ended (x : ThreadExit).

Definition exit_error (x : ThreadExit) : option string :=
  match x with
  | ExitOk => None
  | ExitErr e => Some e
  | ExitPanic => Some "percore worker thread panicked"%string
  end.

(** Join the workers in order: nothing until all have ended, then the first
    error in that order. *)
Fixpoint join_workers (first_err : option string) (threads : list Thread) : option (result unit string) :=
  match threads with
  | [] => Some (match first_err with Some e => Err e | None => Ok tt end)
  | Running :: _ => None
  | Ended x :: threads =>
      join_workers (match first_err with Some _ => first_err | None => exit_error x end) threads
  end.

(** Where [supervise_fleet] is. *)
Inductive Supervision : Type := Watching | Predraining | Stopping | Returned (r : result unit string).

Record Fleet : Type := mkFleet {
  fl_threads : list Thread;
  fl_draining : bool;
  fl_shutdown : bool;
  fl_phase : Supervision
}.

Definition start_fleet (n : nat) : Fleet := mkFleet (replicate n Running) false false Watching.

Inductive FleetEvent : Type := WorkerEnds (i : nat) (x : ThreadExit) | Signal | Predrained | FleetJoined.

(** A worker returns without an error only once it has seen [shutdown]; one that
    panics sets it ([StopFleetOnPanic]). *)
Definition fleet_event (f : Fleet) (ev : FleetEvent) : option Fleet :=
  let 'mkFleet threads draining shutdown phase := f in
  match ev with
  | WorkerEnds i x =>
      match threads !! i, x with
      | Some Running, ExitOk => if shutdown then Some (mkFleet (<[i := Ended x]> threads) draining true phase) else None
      | Some Running, ExitErr _ => Some (mkFleet (<[i := Ended x]> threads) draining shutdown phase)
      | Some Running, ExitPanic => Some (mkFleet (<[i := Ended x]> threads) draining true phase)
      | _, _ => None
      end
  | Signal => match phase with Watching => Some (mkFleet threads true shutdown Predraining) | _ => None end
  | Predrained => match phase with Predraining => Some (mkFleet threads draining true Stopping) | _ => None end
  | FleetJoined =>
      match phase, join_workers None threads with
      | (Watching | Stopping), Some r => Some (mkFleet threads draining shutdown (Returned r))
      | _, _ => None
      end
  end.

Definition fleet_run (f : Fleet) (evs : list FleetEvent) : option Fleet :=
  foldl (λ f ev, f ≫= λ f, fleet_event f ev) (Some f) evs.

(** ** Theorems *)

Lemma clamp_spec lo hi x y : clamp lo hi x = Some y ↔ (lo <= hi)%Z ∧ y = Z.min (Z.max x lo) hi.
Proof. unfold clamp. destruct (Z.ltb_spec hi lo); split; intros; simplify_eq; try lia; destruct_and!; try lia; by subst. Qed.

Lemma div_ceil_spec a b : (0 < b)%Z → ∃ q, div_ceil a b = Some q ∧ (a <= b * q < a + b)%Z.
Proof.
  intros Hb. unfold div_ceil. rewrite (proj2 (Z.eqb_neq b 0)) by lia. eexists. split; [done|].
  pose proof (Z.div_mod (a + (b - 1)) b ltac:(lia)) as Hd.
  pose proof (Z.mod_pos_bound (a + (b - 1)) b Hb). lia.
Qed.

Lemma accept_share_spec config n :
  (0 <= c_max_accepts_per_second config)%Z → (0 < n < 2 ^ 32)%Z →
  ∃ a, accept_share config n = Some a ∧
    (c_max_accepts_per_second config = 0 → a = 0)%Z ∧
    (c_max_accepts_per_second config <= n * a < c_max_accepts_per_second config + n)%Z.
Proof.
  intros Hc Hn. unfold accept_share. destruct (Z.eqb_spec (c_max_accepts_per_second config) 0) as [->|Hne].
  { exists 0%Z. split_and!; [done..|lia|lia]. }
  rewrite Z.mod_small by lia. destruct (div_ceil_spec (c_max_accepts_per_second config) n ltac:(lia)) as (a & -> & Ha).
  exists a. split_and!; [done..|lia|lia].
Qed.

Lemma worker_count_bounds config par :
  (0 <= c_workers config)%Z → (∀ n, par = Some n → 0 < n)%Z → (0 < worker_count config par)%Z.
Proof.
  intros Hw Hp. unfold worker_count. destruct (Z.eqb_spec (c_workers config) 0); [|lia].
  destruct par as [n|]; simpl; [by apply Hp|lia].
Qed.

(** A worker's configuration with the shared objects of place [i]. *)
Definition at_place (local : bool) (i : nat) (cfg : WorkerConfig) : WorkerConfig :=
  mkWorkerConfig (wc_env cfg) (wc_max_payload cfg) (wc_max_message_bytes cfg) (wc_max_head_bytes cfg)
    (wc_handshake_timeout_ms cfg) (wc_high_water cfg) (wc_rest_handoff cfg) (wc_per_worker_budget cfg) (Some i)
    (wc_max_frames_per_second cfg) (wc_max_frames_burst cfg) (wc_max_accepts_per_second cfg) (wc_codel cfg)
    (wc_shutdown_grace_ms cfg) i i (if local then Some i else None).

(** What every worker takes from the configuration unchanged. *)
Record configured (config : ServerConfig) (rest : bool) (cfg : WorkerConfig) : Prop := mkConfigured {
  cf_payload : wc_max_payload cfg = Z.max (c_max_event_payload_bytes config) (2 ^ 20);
  cf_message : wc_max_message_bytes cfg = Z.to_nat (c_max_event_payload_bytes config);
  cf_head : wc_max_head_bytes cfg = Z.to_nat (c_max_head_bytes config);
  cf_handshake : wc_handshake_timeout_ms cfg = c_handshake_timeout_ms config;
  cf_rest : wc_rest_handoff cfg = rest;
  cf_frames : wc_max_frames_per_second cfg = c_max_frames_per_second config;
  cf_burst : wc_max_frames_burst cfg = c_max_frames_burst config;
  cf_codel : wc_codel cfg = codel_params config;
  cf_grace : wc_shutdown_grace_ms cfg = c_shutdown_grace_ms config
}.

(** C22. A fleet is planned whenever the bounds of the out-queues are in order, and
    only then; the budgets of its workers together are within the node's, the
    accept rates of the workers together admit the configured rate and less than
    one more per worker, and no rate stays no limit. Every worker has the
    configured limits (payload, message, head, handshake, frame rates, CoDel,
    grace), the connection ceiling of the node and an out-queue within its
    bounds, and the workers' settings are one and the same except for the
    number of the shared objects each owns. *)
Theorem fleet_plan_sound (config : ServerConfig) (effective_mem : Z) (par : option Z)
    (local clustered cluster rest : bool) :
  let n := worker_count config par in
  let plan := plan_fleet config effective_mem par local clustered cluster in
  (0 <= c_max_accepts_per_second config)%Z → (0 < n < 2 ^ 32)%Z →
  (is_Some plan ↔ (c_perconn_queue_min_bytes config <= c_perconn_queue_max_bytes config)%Z) ∧
  ∀ p, plan = Some p →
    length (fleet_configs config p rest local) = Z.to_nat n ∧
    (n * fp_per_worker_budget p <= resolved_memory_budget config effective_mem)%Z ∧
    (c_max_accepts_per_second config <= n * fp_max_accepts_per_second p <
       c_max_accepts_per_second config + n)%Z ∧
    (c_max_accepts_per_second config = 0 → fp_max_accepts_per_second p = 0)%Z ∧
    ∀ i cfg, fleet_configs config p rest local !! i = Some cfg →
      cfg = at_place local i cfg ∧
      (∀ j cfg', fleet_configs config p rest local !! j = Some cfg' → cfg' = at_place local j cfg) ∧
      configured config rest cfg ∧
      (c_perconn_queue_min_bytes config <= wc_high_water cfg <= c_perconn_queue_max_bytes config)%Z ∧
      wc_per_worker_budget cfg = fp_per_worker_budget p ∧
      wc_max_accepts_per_second cfg = fp_max_accepts_per_second p ∧
      wc_env cfg =
        dispatch_env config (resolved_memory_budget config effective_mem) local clustered cluster ∧
      de_max_connections (wc_env cfg) =
        resolved_max_connections config (resolved_memory_budget config effective_mem).
Proof.
  intros n plan Hacc Hn. destruct (accept_share_spec config n Hacc Hn) as (a & Ha & Ha0 & Hab).
  subst plan. unfold plan_fleet. fold n. set (budget := resolved_memory_budget config effective_mem).
  set (cap := per_conn_cap _ _). rewrite (proj2 (Z.eqb_neq n 0)), Ha by lia.
  destruct (clamp _ _ cap) as [hw|] eqn:Hc; simpl; last first.
  { split; [|done]. split; [by intros [? ?]|]. intros Hle.
    by rewrite (proj2 (clamp_spec _ _ _ _) (conj Hle eq_refl)) in Hc. }
  apply clamp_spec in Hc as [Hle Hhw]. split; [split; [done|by eexists]|]. intros p [= <-].
  cbn [fp_per_worker_budget fp_max_accepts_per_second]. split_and!; try done; try lia.
  - unfold fleet_configs. by rewrite length_fmap, length_seq.
  - rewrite Z.max_l by lia. apply Z.mul_div_le. lia.
  - intros i cfg Hi. unfold fleet_configs in *. apply list_lookup_fmap_Some in Hi as (i' & -> & Hi).
    apply lookup_seq in Hi as [-> _]. split_and!; try done; [|cbn; lia..].
    intros j cfg' Hj. apply list_lookup_fmap_Some in Hj as (j' & -> & Hj). by apply lookup_seq in Hj as [-> _].
Qed.

(** *** The broadcast plumbing is in place before a worker starts *)

Lemma fresh_slots cap (workers : list nat) (m : gmap nat WorkerSlot) k :
  foldl (λ m i, <[i := fresh_slot cap]> m) m workers !! k =
  if decide (k ∈ workers) then Some (fresh_slot cap) else m !! k.
Proof.
  revert m. induction workers as [|i workers IH]; intros m; cbn [foldl];
    [by rewrite decide_False by apply not_elem_of_nil|].
  rewrite IH. destruct (decide (k ∈ workers)); [by rewrite decide_True by (by right)|].
  destruct (decide (k = i)) as [->|Hne].
  - rewrite decide_True by left. by rewrite lookup_insert_eq.
  - rewrite decide_False by (by intros [?|?]%elem_of_cons). by rewrite lookup_insert_ne.
Qed.

(** The workers of a fresh node are exactly those its sink and its saturation
    flag know, each with an empty inbox of the configured size. *)
Theorem wired_fleet_ready `{Moka} (cap n : nat) (local : LocalAdapter) :
  la_sink local = None →
  let '(a, p) := wire_fleet cap n local (mkPercore ∅ false None) in
  la_sink a = Some (seq 0 n) ∧ pc_workers p = Some (seq 0 n) ∧ flag_is_saturated p = false ∧
  ∀ i, pc_slots p !! i = if decide (i < n)%nat then Some (fresh_slot cap) else None.
Proof.
  intros Hs. unfold wire_fleet, set_broadcast_sink, bind_workers. rewrite Hs. cbn [pc_workers la_sink pc_slots].
  assert (∀ i, foldl (λ (m : gmap nat WorkerSlot) i, <[i := fresh_slot cap]> m) ∅ (seq 0 n) !! i =
    if decide (i < n)%nat then Some (fresh_slot cap) else None) as Hl.
  { intros i. rewrite fresh_slots. rewrite lookup_empty.
    destruct (decide (i < n)%nat) as [Hlt|Hge]; [rewrite decide_True|rewrite decide_False]; [done|..]; rewrite ?elem_of_seq; try lia. done. }
  split_and!; try done. unfold flag_is_saturated. cbn. apply not_true_is_false. intros Hb.
  apply existsb_exists in Hb as (k & _ & Hk). unfold budget_bit in Hk. cbn in Hk. rewrite Hl in Hk. by case_decide.
Qed.

(** *** The budget factor *)

Lemma compute_factor_range current p threshold :
  (FLOOR <= current <= CEIL)%Z → (FLOOR <= compute_factor current p threshold <= CEIL)%Z.
Proof.
  unfold compute_factor, FLOOR, CEIL. intros Hc. change (1000 / 10)%Z with 100%Z.
  destruct (F64.lt _ _); [rewrite Z.mod_small by lia; split; [lia|]|destruct (F64.lt _ _); [rewrite Z.mod_small by lia|]; lia].
  apply Z.max_lub; [|lia]. apply Z.div_le_upper_bound; lia.
Qed.

(** A reading above the threshold, or below half of it. *)
Definition pressed (threshold : f64) (contents : option string) : Prop :=
  ∃ p, (contents ≫= psi_full_avg10) = Some p ∧ F64.lt threshold p = true.
Definition relaxed (threshold : f64) (contents : option string) : Prop :=
  ∃ p, (contents ≫= psi_full_avg10) = Some p ∧ F64.lt threshold p = false ∧
    F64.lt p (F64.div threshold (F64.of_uint 2)) = true.

Lemma psi_tick_pressed threshold factor c :
  (FLOOR <= factor <= CEIL)%Z → pressed threshold c → psi_tick threshold factor c = Z.max (factor * 9 / 10) FLOOR.
Proof.
  intros Hf (p & Hc & Hp). unfold psi_tick, compute_factor. rewrite Hc, Hp. unfold FLOOR, CEIL in *.
  by rewrite Z.mod_small by lia.
Qed.

Lemma psi_tick_relaxed threshold factor c :
  (FLOOR <= factor <= CEIL)%Z → relaxed threshold c → psi_tick threshold factor c = Z.min (factor + 100) CEIL.
Proof.
  intros Hf (p & Hc & Hp & Hq). unfold psi_tick, compute_factor. rewrite Hc, Hp, Hq. unfold FLOOR, CEIL in *.
  change (1000 / 10)%Z with 100%Z. by rewrite Z.mod_small by lia.
Qed.

Lemma psi_tick_range threshold factor c :
  (FLOOR <= factor <= CEIL)%Z → (FLOOR <= psi_tick threshold factor c <= CEIL)%Z.
Proof. intros Hf. unfold psi_tick. destruct (_ ≫= _); [by apply compute_factor_range|done]. Qed.

Lemma psi_tick_shrinks threshold factor b c :
  (FLOOR <= factor <= CEIL)%Z → (factor <= b)%Z → pressed threshold c →
  (FLOOR <= psi_tick threshold factor c <= CEIL)%Z ∧ (psi_tick threshold factor c <= Z.max (b * 9 / 10) FLOOR)%Z.
Proof.
  intros Hf Hb Hp. split; [by apply psi_tick_range|]. rewrite psi_tick_pressed by done.
  apply Z.max_le_compat_r, Z.div_le_mono; lia.
Qed.

Lemma psi_loop_range threshold factor cs :
  (FLOOR <= factor <= CEIL)%Z → (FLOOR <= psi_backstop_loop threshold factor cs <= CEIL)%Z.
Proof.
  revert factor. induction cs as [|c cs IH]; intros factor Hf; [done|]. simpl.
  by apply IH, psi_tick_range.
Qed.

Lemma psi_loop_app threshold factor cs cs' :
  psi_backstop_loop threshold factor (cs ++ cs') =
  psi_backstop_loop threshold (psi_backstop_loop threshold factor cs) cs'.
Proof. apply foldl_app. Qed.

(** Whatever the pressure file says, the budgets stay between eight tenths and
    all of their size; three readings above the threshold in a row bring them
    to the floor and two below half of it back to the full size; a file that
    cannot be read or parsed changes nothing. *)
Theorem budget_factor_controlled (threshold : f64) (cs : list (option string)) :
  let factor := psi_backstop_loop threshold CEIL cs in
  (FLOOR <= factor <= CEIL)%Z ∧
  (∀ c1 c2 c3, pressed threshold c1 → pressed threshold c2 → pressed threshold c3 →
     psi_backstop_loop threshold CEIL (cs ++ [c1; c2; c3]) = FLOOR) ∧
  (∀ c1 c2, relaxed threshold c1 → relaxed threshold c2 →
     psi_backstop_loop threshold CEIL (cs ++ [c1; c2]) = CEIL) ∧
  (∀ c, (c ≫= psi_full_avg10) = None → psi_backstop_loop threshold CEIL (cs ++ [c]) = factor).
Proof.
  intros factor. assert (FLOOR <= factor <= CEIL)%Z as Hf by (apply psi_loop_range; done).
  split; [done|]. split; [|split].
  - intros c1 c2 c3 H1 H2 H3. rewrite psi_loop_app. fold factor. simpl.
    destruct (psi_tick_shrinks threshold factor 1000 c1 Hf (proj2 Hf) H1) as [Hr1 Hb1].
    destruct (psi_tick_shrinks threshold _ 900 c2 Hr1 Hb1 H2) as [Hr2 Hb2].
    destruct (psi_tick_shrinks threshold _ 810 c3 Hr2 Hb2 H3) as [Hr3 Hb3].
    apply Z.le_antisymm; [exact Hb3|exact (proj1 Hr3)].
  - intros c1 c2 H1 H2. rewrite psi_loop_app. fold factor. simpl.
    rewrite (psi_tick_relaxed _ factor c1 Hf H1). rewrite psi_tick_relaxed by (done || (unfold FLOOR, CEIL in *; lia)).
    unfold FLOOR, CEIL in *. lia.
  - intros c Hc. rewrite psi_loop_app. simpl. unfold psi_tick. by rewrite Hc.
Qed.

(** *** Stopping the fleet *)

Lemma join_workers_spec err threads r :
  join_workers err threads = Some r →
  (Running ∉ threads) ∧ (r = Ok tt ↔ err = None ∧ Forall (λ t, t = Ended ExitOk) threads).
Proof.
  revert err. induction threads as [|[|x] threads IH]; intros err; simpl; [|done|].
  - intros [= <-]. split; [by apply not_elem_of_nil|]. destruct err as [e|].
    + by split; [|intros [? _]].
    + split; [by repeat constructor|done].
  - intros Hj. destruct (IH _ Hj) as [Hr Hok]. split; [by apply not_elem_of_cons|].
    rewrite Hok, Forall_cons. destruct err as [e|], x as [|e'|]; simpl; naive_solver.
Qed.

Lemma join_workers_returns err threads : Running ∉ threads → is_Some (join_workers err threads).
Proof.
  revert err. induction threads as [|[|x] threads IH]; intros err Hr; simpl; [done| |].
  - exfalso. apply Hr. left.
  - apply IH. intros Hin. apply Hr. by right.
Qed.

(** How much is left to happen. *)
Fixpoint running (threads : list Thread) : nat :=
  match threads with
  | [] => 0
  | Running :: threads => S (running threads)
  | Ended _ :: threads => running threads
  end.
Definition phases_left (s : Supervision) : nat :=
  match s with Watching => 3 | Predraining => 2 | Stopping => 1 | Returned _ => 0 end.
Definition fleet_left (f : Fleet) : nat := running (fl_threads f) + phases_left (fl_phase f).

Lemma running_end threads i x :
  threads !! i = Some Running → running threads = S (running (<[i := Ended x]> threads)).
Proof.
  revert i. induction threads as [|t threads IH]; intros [|i] Hi; simpl in *; [done..|by simplify_eq|].
  destruct t; by rewrite (IH i).
Qed.

Lemma running_replicate n : running (replicate n Running) = n.
Proof. induction n as [|n IH]; [done|]. simpl. by rewrite IH. Qed.

Record fleet_ok (f : Fleet) : Prop := {
  fk_returned r : fl_phase f = Returned r → join_workers None (fl_threads f) = Some r;
  fk_draining : fl_draining f = false → fl_phase f ≠ Predraining ∧ fl_phase f ≠ Stopping;
  fk_stopping : fl_phase f = Stopping → fl_shutdown f = true;
  fk_shutdown : fl_shutdown f = true → fl_draining f = true ∨ Ended ExitPanic ∈ fl_threads f;
  fk_panic : Ended ExitPanic ∈ fl_threads f → fl_shutdown f = true
}.

Lemma elem_of_insert_other {A} (l : list A) i (x y : A) : x ∈ <[i := y]> l → x = y ∨ x ∈ l.
Proof.
  intros Hx. apply list_elem_of_lookup in Hx as [j Hj].
  apply list_lookup_insert_Some in Hj as [(-> & -> & _)|[_ Hj]]; [by left|].
  right. by eapply list_elem_of_lookup_2.
Qed.

Lemma elem_of_insert_kept {A} (l : list A) i (x y z : A) : l !! i = Some z → x ≠ z → x ∈ l → x ∈ <[i := y]> l.
Proof.
  intros Hi Hx Hin. apply list_elem_of_lookup in Hin as [j Hj].
  apply (list_elem_of_lookup_2 _ j). rewrite list_lookup_insert_ne; [done|]. intros ->. congruence.
Qed.

Lemma join_running threads i : threads !! i = Some Running → join_workers None threads = None.
Proof.
  intros Hi. destruct (join_workers None threads) as [r|] eqn:Hj; [|done].
  apply join_workers_spec in Hj as [Hr _]. destruct Hr. by eapply list_elem_of_lookup_2.
Qed.

Lemma fleet_event_ok f ev f' :
  fleet_ok f → fleet_event f ev = Some f' → fleet_ok f' ∧ (fleet_left f' < fleet_left f)%nat.
Proof.
  destruct f as [threads draining shutdown phase]. intros [Hret Hdr Hst Hsh Hpa] Hev. cbn in *.
  destruct ev as [i x| | |].
  - destruct (threads !! i) as [[|x']|] eqn:Hi; [|by destruct x..].
    assert (fleet_ok (mkFleet (<[i := Ended x]> threads) draining (match x with ExitPanic => true | _ => shutdown end) phase)) as Hok.
    { assert (∀ r, phase = Returned r → False) as Hnr.
      { intros r Hr. specialize (Hret r Hr). by rewrite (join_running threads i Hi) in Hret. }
      split; cbn.
      - intros r Hr. by destruct (Hnr r Hr).
      - done.
      - intros Hp. specialize (Hst Hp). by destruct x.
      - intros Hs. destruct x as [| |]; [..|right; apply list_elem_of_insert; by eapply lookup_lt_Some].
        all: destruct (Hsh Hs); [by left|right; by eapply elem_of_insert_kept].
      - intros Hin. apply elem_of_insert_other in Hin as [Hx|Hin]; [|destruct x; auto].
        by injection Hx as <-. }
    assert (∀ b, fleet_left (mkFleet (<[i := Ended x]> threads) draining b phase) <
      fleet_left (mkFleet threads draining shutdown phase))%nat as Hleft
      by (intros b; unfold fleet_left; cbn; rewrite (running_end _ _ x Hi); lia).
    destruct x; [destruct shutdown; [|done]|..]; simplify_eq; by split.
  - destruct phase; simplify_eq. split; [|unfold fleet_left; cbn; lia].
    split; cbn; try done. intros _. by left.
  - destruct phase; simplify_eq. split; [|unfold fleet_left; cbn; lia].
    assert (draining = true) as -> by (by destruct draining; [|destruct (Hdr eq_refl)]).
    split; cbn; try done. intros _. by left.
  - destruct (join_workers None threads) as [r|] eqn:Hj; [|by destruct phase].
    assert (fleet_ok (mkFleet threads draining shutdown (Returned r))) as Hok
      by (split; cbn; try done; intros r' [= <-]; done).
    destruct phase; simplify_eq; (split; [done|unfold fleet_left; cbn; lia]).
Qed.

Lemma fleet_run_snoc f evs ev : fleet_run f (evs ++ [ev]) = (fleet_run f evs ≫= λ f, fleet_event f ev).
Proof. unfold fleet_run. by rewrite foldl_app. Qed.

Lemma fleet_run_ok n evs f :
  fleet_run (start_fleet n) evs = Some f → fleet_ok f ∧ (length evs + fleet_left f <= n + 3)%nat.
Proof.
  revert f. induction evs as [|ev evs IH] using rev_ind; intros f Hf.
  - injection Hf as <-. split; [|unfold fleet_left; cbn; by rewrite running_replicate].
    split; cbn; try done. intros Hin. by apply elem_of_replicate in Hin as [].
  - rewrite fleet_run_snoc in Hf. destruct (fleet_run (start_fleet n) evs) as [f0|]; [|done]. simpl in Hf.
    destruct (IH f0 eq_refl) as [Hok Hleft]. destruct (fleet_event_ok f0 ev f Hok Hf) as [Hok' Hl].
    split; [done|]. rewrite length_app. simpl. lia.
Qed.

(** C21. The fleet stops in order. Readiness is withdrawn before a worker is told to
    stop, unless one panicked, and a panic stops all of them; the supervisor
    returns only after every worker has ended, without an error exactly when no
    worker failed; a run has at most three events more than it has workers; and
    once every worker has ended nothing but the supervisor's own steps is
    missing. *)
Theorem fleet_stops_in_order (n : nat) (evs : list FleetEvent) (f : Fleet) :
  fleet_run (start_fleet n) evs = Some f →
  (fl_shutdown f = true → fl_draining f = true ∨ Ended ExitPanic ∈ fl_threads f) ∧
  (Ended ExitPanic ∈ fl_threads f → fl_shutdown f = true) ∧
  (∀ r, fl_phase f = Returned r →
     (Running ∉ fl_threads f) ∧ (r = Ok tt ↔ Forall (λ t, t = Ended ExitOk) (fl_threads f))) ∧
  (length evs <= n + 3)%nat ∧
  (Running ∉ fl_threads f → (∃ r, fl_phase f = Returned r) ∨
     is_Some (fleet_event f FleetJoined) ∨ is_Some (fleet_event f Predrained)).
Proof.
  intros Hf. destruct (fleet_run_ok n evs f Hf) as [[Hret _ _ Hsh Hpa] Hleft].
  split; [done|]. split; [done|]. split; [|split; [lia|]].
  - intros r Hr. destruct (join_workers_spec None _ _ (Hret r Hr)) as [Hnr Hok]. split; [done|].
    rewrite Hok. naive_solver.
  - intros Hnr. destruct (join_workers_returns None _ Hnr) as [r Hj]. destruct f as [threads draining shutdown phase].
    cbn in *. rewrite Hj. destruct phase; eauto.
Qed.

(** A worker that fails without a panic does not stop the others: the fleet goes
    on without it, nothing is reported and the supervisor keeps waiting. *)
Theorem failed_worker_unnoticed (n : nat) (e : string) :
  let f := mkFleet (Ended (ExitErr e) :: replicate (S n) Running) false false Watching in
  fleet_run (start_fleet (S (S n))) [WorkerEnds 0 (ExitErr e)] = Some f ∧
  fleet_event f FleetJoined = None ∧ ∀ i, fleet_event f (WorkerEnds i ExitOk) = None.
Proof.
  split_and!; [done..|]. intros i. cbn [fleet_event]. by destruct (_ !! i) as [[]|].
Qed.

(** Settings accepted at start-up may still not start a fleet: the bounds of the
    out-queues are not checked against each other. *)
Example inverted_queue_bounds_panic `{UnicodeCase} :
  let env (name : string) := if decide (name = "PYLON_PERCONN_QUEUE_MIN_BYTES"%string) then Some "16777216"%string else None in
  ∃ c, from_env env = Ok c ∧ ∀ mem par l cl cs, plan_fleet c mem par l cl cs = None.
Proof.
  intros env. destruct (from_env env) as [c|] eqn:E; [|discriminate E]. exists c. split; [done|].
  vm_compute in E. injection E as <-. intros mem par l cl cs. reflexivity.
Qed.

Module FleetDemo.
(** Three workers, a configured accept rate of ten. *)
Definition config : ServerConfig := ServerConfig_default.

(** The first worker stops on the signal, the second fails, the third panics. *)
Definition evs : list FleetEvent :=
  [WorkerEnds 2 ExitPanic; Signal; WorkerEnds 0 ExitOk; Predrained; WorkerEnds 1 (ExitErr "poll"); FleetJoined].
End FleetDemo.

Lemma fleet_plan_sound_witness :
  ∃ p, plan_fleet FleetDemo.config (2 ^ 33) (Some 4%Z) true false false = Some p ∧
    (4 * fp_per_worker_budget p <= 6979321856)%Z ∧ length (fleet_configs FleetDemo.config p true true) = 4%nat.
Proof.
  destruct (fleet_plan_sound FleetDemo.config (2 ^ 33) (Some 4%Z) true false false true) as [Hp Hall].
  - vm_compute. discriminate.
  - vm_compute. split; reflexivity.
  - destruct (proj2 Hp) as [p Hplan]; [vm_compute; discriminate|]. exists p. split; [exact Hplan|].
    destruct (Hall p Hplan) as (Hl & Hb & _). split; [|exact Hl].
    refine (Z.le_trans _ _ _ Hb _). vm_compute. discriminate.
Defined.

Lemma fleet_stops_in_order_witness :
  ∃ f, fleet_run (start_fleet 3) FleetDemo.evs = Some f ∧ fl_phase f = Returned (Err "poll"%string) ∧
    fl_shutdown f = true ∧ Running ∉ fl_threads f.
Proof.
  destruct (fleet_run (start_fleet 3) FleetDemo.evs) as [f|] eqn:Hf; [|vm_compute in Hf; discriminate].
  destruct (fleet_stops_in_order 3 FleetDemo.evs f Hf) as (_ & Hpanic & Hret & _ & _).
  vm_compute in Hf. injection Hf as <-. eexists. split; [reflexivity|]. split; [reflexivity|]. split.
  - apply Hpanic. set_solver.
  - exact (proj1 (Hret _ eq_refl)).
Defined.
