(* ===== verification/Metrics.v ===== *)
(** * The metrics endpoint: [src/src/http/rest/metrics.rs]

    The text of a scrape, the bearer gate in front of it, the collection of the
    counters and the routes of [src/src/http/rest/mod.rs] and
    [src/src/server/router.rs] the gate hides among. *)

From stdpp Require Import pretty.
From Stdlib Require Import SpecFloat.
From S2P Require Import Prelude RustStd Json Kind Text ChannelState Fanout Adapter Auth App Rate Webhook.
From S2P Require Import ClusterNode Config RestLimits Handshake Rest Fleet.
#[local] Open Scope rust_scope.

(** ** Text *)

Definition LF : string := String "010" "".
Definition QUOTE : string := String "034" "".
Definition BACKSLASH : string := String "092" "".

Fixpoint escape_label (s : string) : string :=
  match s with
  | EmptyString => EmptyString
  | String c s =>
      (if decide (c = "092"%char) then BACKSLASH +:+ BACKSLASH
       else if decide (c = "034"%char) then BACKSLASH +:+ QUOTE
       else if decide (c = "010"%char) then BACKSLASH +:+ "n"
       else String c "") +:+ escape_label s
  end.

(** The nearest integer of a ratio, ties to even. *)
Definition round_ratio (num den : Z) : Z :=
  let q := (num / den)%Z in
  match (2 * (num mod den) ?= den)%Z with
  | Lt => q
  | Eq => if Z.even q then q else (q + 1)%Z
  | Gt => (q + 1)%Z
  end.

Definition pad3 (n : Z) : string :=
  (if (n <? 10)%Z then "00" else if (n <? 100)%Z then "0" else "") +:+ show_uint n.

(** A number of thousandths. *)
Definition show_thousandths (n : Z) : string := show_uint (n / 1000) +:+ "." +:+ pad3 (n mod 1000).

(** [{:.3}] of an [f64]. *)
Definition show_f64_3 (x : f64) : string :=
  let sign (neg : bool) := if neg then "-" else "" in
  match x with
  | S754_zero neg => sign neg +:+ "0.000"
  | S754_infinity neg => sign neg +:+ "inf"
  | S754_nan => "NaN"
  | S754_finite neg m e =>
      sign neg +:+ show_thousandths
        (if (0 <=? e)%Z then (Z.pos m * 1000 * 2 ^ e)%Z else round_ratio (Z.pos m * 1000) (2 ^ (- e)))
  end.

(** ** The snapshot *)

Record AppMetrics : Type := mkAppMetrics {
  am_connections : Z;
  am_channels_occupied : Z;
  am_subscriptions : Z
}.

(** [WebhookMetrics]. *)
Record WebhookMetrics : Type := mkWebhookMetrics {
  wm_enqueued : Z;
  wm_dropped : Z;
  wm_delivered_ok : Z;
  wm_delivered_failed : Z
}.

Record MetricsSnapshot : Type := mkMetricsSnapshot {
  ms_apps : gmap string AppMetrics;
  ms_saturation : option bool;
  ms_percore : option PercoreMetricsSnapshot;
  ms_webhook : option WebhookMetrics;
  ms_webhook_queue_depth : option Z;
  ms_cluster : option ClusterMetrics;
  ms_rest_rate_limited : RestRateLimitedCounts;
  ms_app_store_up : bool
}.

(** ** The encoder *)

(** The two comment lines of a metric. *)
Definition header (name help kind : string) : string :=
  "# HELP " +:+ name +:+ " " +:+ help +:+ LF +:+ "# TYPE " +:+ name +:+ " " +:+ kind +:+ LF.

Definition line (name value : string) : string := name +:+ " " +:+ value +:+ LF.

(** A line with one label, whose value is already escaped. *)
Definition labelled (name label v value : string) : string :=
  name +:+ "{" +:+ label +:+ "=" +:+ QUOTE +:+ v +:+ QUOTE +:+ "} " +:+ value +:+ LF.

Definition bit (b : bool) : string := if b then "1" else "0".

Definition concat_map {A} (f : A → string) : list A → string := foldr (λ x out, f x +:+ out) EmptyString.

Definition encode_node (s : MetricsSnapshot) : string :=
  header "pylon_up" "Pylon process is up (liveness/scrape check)" "gauge" +:+ line "pylon_up" "1" +:+
  header "pylon_app_store_up" "App store reachable at the last probe (1 = up, 0 = down)" "gauge" +:+
  line "pylon_app_store_up" (bit (ms_app_store_up s)) +:+
  match ms_saturation s with
  | Some sat =>
      header "pylon_saturation_flag" "Broadcast pipeline saturation (1 = saturated)" "gauge" +:+
      line "pylon_saturation_flag" (bit sat)
  | None => ""
  end +:+
  let counts := ms_rest_rate_limited s in
  let limited (scope : string) (n : Z) := labelled "pylon_rest_rate_limited_total" "scope" scope (show_uint n) in
  header "pylon_rest_rate_limited_total" "REST requests rejected with 429 by scope" "counter" +:+
  limited "node" (rc_node counts) +:+ limited "app_events" (rc_app_events counts) +:+
  limited "app_reads" (rc_app_reads counts).

(** The apps in the order of their ids. *)
Definition encode_apps (apps : gmap string AppMetrics) : string :=
  let per_app (name : string) (f : AppMetrics → Z) :=
    concat_map (λ p, labelled name "app" (escape_label p.1) (show_uint (f p.2))) (btree_iter apps) in
  match btree_iter apps with
  | [] => ""
  | _ =>
      header "pylon_connections" "Number of live WebSocket connections per app" "gauge" +:+
      per_app "pylon_connections" am_connections +:+
      header "pylon_channels_occupied" "Number of occupied channels per app" "gauge" +:+
      per_app "pylon_channels_occupied" am_channels_occupied +:+
      header "pylon_subscriptions" "Total channel subscriptions per app" "gauge" +:+
      per_app "pylon_subscriptions" am_subscriptions
  end.

Definition per_worker (name : string) (l : list Z) : string :=
  concat_map (λ p, labelled name "worker" (show_uint (Z.of_nat p.1)) (show_uint p.2)) (imap pair l).

Definition encode_percore (pc : PercoreMetricsSnapshot) : string :=
  let series (name help kind : string) (l : list Z) := header name help kind +:+ per_worker name l in
  series "pylon_broadcast_dropped_total"
    "Broadcasts dropped due to full worker hand-off channel (cumulative)" "counter" (pm_dropped pc) +:+
  series "pylon_inflight_bytes" "Bytes queued in per-worker outbound buffers" "gauge" (pm_inflight pc) +:+
  header "pylon_inflight_bytes_sum" "Total bytes queued across all workers" "gauge" +:+
  line "pylon_inflight_bytes_sum" (show_uint (pm_inflight_total pc)) +:+
  header "pylon_worker_budget_bytes" "Per-worker memory budget in bytes" "gauge" +:+
  line "pylon_worker_budget_bytes" (show_uint (pm_worker_budget_bytes pc)) +:+
  header "pylon_budget_factor" "PSI memory-pressure budget factor (0.0–1.0)" "gauge" +:+
  line "pylon_budget_factor" (show_f64_3 (pm_budget_factor pc)) +:+
  series "pylon_accepted_connections_total" "Cumulative connections accepted per worker" "counter"
    (pm_accepted pc) +:+
  series "pylon_codel_dropped_total" "Frames dropped by CoDel staleness check per worker (cumulative)" "counter"
    (pm_codel_dropped pc) +:+
  series "pylon_drophead_dropped_total"
    "Frames evicted by the per-connection drop-head queue per worker (cumulative)" "counter"
    (pm_drophead_dropped pc) +:+
  series "pylon_mailbox_dropped_total"
    "Frames dropped due to per-connection mailbox full per worker (cumulative)" "counter"
    (pm_mailbox_dropped pc) +:+
  series "pylon_frame_limited_total"
    "Connections closed (4100) for exceeding the inbound frame rate limit, per worker (cumulative)" "counter"
    (pm_frame_limited pc) +:+
  series "pylon_accept_limited_total"
    "Sockets closed immediately after accept for exceeding the accept rate limit, per worker (cumulative)"
    "counter" (pm_accept_limited pc) +:+
  series "pylon_handshake_timeout_total"
    "Pre-session connections reaped for exceeding the handshake deadline, per worker (cumulative)" "counter"
    (pm_handshake_timeout pc).

Definition encode_webhook (wh : WebhookMetrics) (queue_depth : option Z) : string :=
  header "pylon_webhook_enqueued_total" "Total webhook events successfully enqueued" "counter" +:+
  line "pylon_webhook_enqueued_total" (show_uint (wm_enqueued wh)) +:+
  header "pylon_webhook_dropped_total" "Total webhook events dropped on full/closed mailbox" "counter" +:+
  line "pylon_webhook_dropped_total" (show_uint (wm_dropped wh)) +:+
  header "pylon_webhook_delivered_total" "Total webhook deliveries by outcome" "counter" +:+
  labelled "pylon_webhook_delivered_total" "status" "ok" (show_uint (wm_delivered_ok wh)) +:+
  labelled "pylon_webhook_delivered_total" "status" "failed" (show_uint (wm_delivered_failed wh)) +:+
  match queue_depth with
  | Some depth =>
      header "pylon_webhook_queue_depth" "Current number of events in the webhook mailbox" "gauge" +:+
      line "pylon_webhook_queue_depth" (show_uint depth)
  | None => ""
  end.

Definition encode_cluster (cm : ClusterMetrics) : string :=
  header "pylon_cluster_cmd_dropped_total" "Total ClusterCmds dropped on a full bridge channel" "counter" +:+
  line "pylon_cluster_cmd_dropped_total" (show_uint (cmd_dropped cm)) +:+
  header "pylon_redis_connected" "Redis connection health (1=connected, 0=error)" "gauge" +:+
  line "pylon_redis_connected" (bit (redis_connected cm)) +:+
  header "pylon_cluster_publish_failed_total"
    "Cross-node broadcast publishes that failed (bridge channel full/closed, or a Redis publish error)"
    "counter" +:+
  line "pylon_cluster_publish_failed_total" (show_uint (publish_failed cm)).

Definition encode (s : MetricsSnapshot) : string :=
  encode_node s +:+ encode_apps (ms_apps s) +:+
  match ms_percore s with Some pc => encode_percore pc | None => "" end +:+
  match ms_webhook s with Some wh => encode_webhook wh (ms_webhook_queue_depth s) | None => "" end +:+
  match ms_cluster s with Some cm => encode_cluster cm | None => "" end.

(** ** The gate *)

(** The token of an [Authorization] header, the empty one if there is none. *)
Definition bearer_token (authorization : option string) : string :=
  default EmptyString
    (v ← authorization; v ← header_to_str v;
     '(scheme, token) ← Str.split_once " " v;
     if eq_ignore_ascii_case scheme "Bearer" then Some token else None).

(** Every byte is compared, those past the end of a string as 0. *)
Definition token_matches (presented expected : string) : bool :=
  let p := as_bytes presented in
  let e := as_bytes expected in
  foldl (λ eq i, eq && (default 0 (p !! i) =? default 0 (e !! i))%Z)
    (length p =? length e)%nat (seq 0 (Nat.max (length p) (length e))).

(** ** Collection *)

(** What the handler reads besides the state of the REST API. *)
Record Monitored : Type := mkMonitored {
  mo_conn_counts : list (string * Z);
  mo_webhooks : WebhookHandle;
  mo_delivered_ok : Z;
  mo_delivered_failed : Z;
  mo_registry : option PercoreRegistry;
  mo_app_store_up : bool
}.

Section collect.
Context `{SerdeJson, IdleCache, Adapter A}.

Definition app_metrics (s : AppState A) (app_id : string) (connections : Z) : AppMetrics :=
  let summaries := ad_channels app_id None (as_world s) in
  mkAppMetrics connections
    (Z.of_nat (length (filter (λ c, cs_occupied c = true) summaries)))
    (foldr Z.add 0 ((λ c, Z.of_nat (cs_subscription_count c)) <$> summaries) mod 2 ^ 64)%Z.

(** The apps the store knows, at zero, then those with a counter. *)
Definition collect_apps (s : AppState A) (conn_counts : list (string * Z)) : gmap string AppMetrics :=
  let apps :=
    match am_known_app_ids (as_apps s) with
    | Some known_ids => foldl (λ m id, <[id := mkAppMetrics 0 0 0]> m) ∅ known_ids
    | None => ∅
    end in
  foldl (λ m p, <[p.1 := app_metrics s p.1 p.2]> m) apps conn_counts.

Definition metrics_snapshot (s : AppState A) (m : Monitored) : MetricsSnapshot :=
  let percore := env_percore (as_world s).2 in
  let wh := mo_webhooks m in
  mkMetricsSnapshot (collect_apps s (mo_conn_counts m))
    (if as_saturated s then Some (flag_is_saturated percore) else None)
    (percore_metrics_snapshot (mo_registry m) percore)
    (Some (mkWebhookMetrics (wh_enqueued wh) (wh_dropped wh) (mo_delivered_ok m) (mo_delivered_failed m)))
    (Some (queue_depth wh)) (as_cluster_metrics s) (limits_counts (as_limits s)) (mo_app_store_up m).

Definition get_metrics (s : AppState A) (m : Monitored) (authorization : option string) : Response :=
  let denied :=
    match c_metrics_token (as_config s) with
    | Some expected => negb (token_matches (bearer_token authorization) expected)
    | None => false
    end in
  if denied then RestError_into_response (not_found "Not found")
  else mkResponse 200 [("content-type", "text/plain; version=0.0.4")] (encode (metrics_snapshot s m)).

(** ** Routes *)

Inductive Method : Type := GET | HEAD | POST | OtherMethod.

Inductive Route : Type :=
| RRoot | REvents | RBatchEvents | RChannels | RChannel | RUsers | RTerminate
| RMetrics | RHealth | RReady | RInvalidate.

Inductive Segment : Type := Lit (s : string) | Param.

(** Each route with its path and whether it is a [get] or a [post]. *)
Definition routes : list (list Segment * bool * Route) :=
  [([Lit ""], true, RRoot);
   ([Lit "apps"; Param; Lit "events"], false, REvents);
   ([Lit "apps"; Param; Lit "batch_events"], false, RBatchEvents);
   ([Lit "apps"; Param; Lit "channels"], true, RChannels);
   ([Lit "apps"; Param; Lit "channels"; Param], true, RChannel);
   ([Lit "apps"; Param; Lit "channels"; Param; Lit "users"], true, RUsers);
   ([Lit "apps"; Param; Lit "users"; Param; Lit "terminate_connections"], false, RTerminate);
   ([Lit "metrics"], true, RMetrics); ([Lit "health"], true, RHealth); ([Lit "healthz"], true, RHealth);
   ([Lit "ready"], true, RReady); ([Lit "readyz"], true, RReady);
   ([Lit "admin"; Lit "apps"; Param; Lit "invalidate"], false, RInvalidate)].

(** A parameter takes one non-empty segment. *)
Fixpoint match_path (pattern : list Segment) (segments : list string) : bool :=
  match pattern, segments with
  | [], [] => true
  | Lit s :: pattern, seg :: segments => bool_decide (s = seg) && match_path pattern segments
  | Param :: pattern, seg :: segments => negb (Str.is_empty seg) && match_path pattern segments
  | _, _ => false
  end.

Inductive Routed : Type := Served (r : Route) | MethodNotAllowed | NotFound.

Definition route (method : Method) (path : string) : Routed :=
  match Str.split "/" path with
  | "" :: segments =>
      match head (filter (λ e, match_path e.1.1 segments = true) routes) with
      | None => NotFound
      | Some (_, is_get, r) =>
          match method, is_get with
          | (GET | HEAD), true | POST, false => Served r
          | _, _ => MethodNotAllowed
          end
      end
  | _ => NotFound
  end.

(** The answer to a request for the metrics, or to one no route serves. *)
Definition probe (method : Method) (path : string) (authorization : option string) (s : AppState A) (m : Monitored)
    : option Response :=
  match route method path with
  | NotFound => Some (RestError_into_response (not_found "Not found"))
  | MethodNotAllowed => Some (RestError_into_response (method_not_allowed "Method not allowed"))
  | Served RMetrics => Some (get_metrics s m authorization)
  | Served _ => None
  end.

End collect.
