(* ===== verification/MetricsProps.v ===== *)
(** * What a scrape of the metrics says

    A reader of the text format of Prometheus, and the theorems that it reads
    from the endpoint exactly the counters of the node. *)

From stdpp Require Import pretty.
From Stdlib Require Import SpecFloat.
From S2P Require Import Prelude RustStd Json JsonDemo Fanout ChannelState Adapter Auth App Webhook ClusterNode.
From S2P Require Import Rate Text Config RestLimits Rest RestWitness Fleet Metrics.
#[local] Open Scope rust_scope.

(** ** The text format *)

Inductive Line : Type :=
| Help (name doc : string)
| Typed (name kind : string)
| Sample (name : string) (labels : list (string * string)) (value : string).

(** A label value up to its closing quote. *)
Fixpoint unescape (s : string) : option (string * string) :=
  match s with
  | EmptyString => None
  | String c s =>
      if decide (c = "034"%char) then Some (EmptyString, s)
      else if decide (c = "092"%char) then
        match s with
        | EmptyString => None
        | String d s =>
            c ← (if decide (d = "092"%char) then Some "092"%char
                 else if decide (d = "034"%char) then Some "034"%char
                 else if decide (d = "n"%char) then Some "010"%char else None);
            '(v, rest) ← unescape s; Some (String c v, rest)
        end
      else '(v, rest) ← unescape s; Some (String c v, rest)
  end.

Definition is_name_char (c : ascii) : bool := Str.is_ascii_alphanumeric c || bool_decide (c = "_"%char).

Fixpoint span_name (s : string) : string * string :=
  match s with
  | String c s' =>
      if is_name_char c then let '(n, r) := span_name s' in (String c n, r) else (EmptyString, s)
  | EmptyString => (EmptyString, s)
  end.

Definition parse_sample (s : string) : option Line :=
  let '(name, r) := span_name s in
  match r with
  | String c r =>
      if decide (c = " "%char) then Some (Sample name [] r)
      else if decide (c = "{"%char) then
        '(label, r) ← Str.split_once "=" r;
        r ← Str.strip_prefix QUOTE r;
        '(v, r) ← unescape r;
        value ← Str.strip_prefix "} " r;
        Some (Sample name [(label, v)] value)
      else None
  | EmptyString => None
  end.

Definition parse_line (s : string) : option Line :=
  match Str.strip_prefix "# HELP " s with
  | Some r => '(name, doc) ← Str.split_once " " r; Some (Help name doc)
  | None =>
      match Str.strip_prefix "# TYPE " s with
      | Some r => '(name, kind) ← Str.split_once " " r; Some (Typed name kind)
      | None => parse_sample s
      end
  end.

(** Every line ends with a line feed. *)
Definition parse_text (s : string) : option (list Line) :=
  let ls := Str.split "010" s in
  if decide (last ls = Some EmptyString) then mapM parse_line (take (length ls - 1) ls) else None.

Fixpoint find_sample (name : string) (labels : list (string * string)) (ls : list Line) : option string :=
  match ls with
  | [] => None
  | Sample n l v :: ls => if decide (n = name ∧ l = labels) then Some v else find_sample name labels ls
  | _ :: ls => find_sample name labels ls
  end.

(** The value of a series in a text. *)
Definition scrape (text name : string) (labels : list (string * string)) : option string :=
  parse_text text ≫= find_sample name labels.

(** ** Printing the format *)

Definition line_text (l : Line) : string :=
  match l with
  | Help name doc => "# HELP " +:+ name +:+ " " +:+ doc
  | Typed name kind => "# TYPE " +:+ name +:+ " " +:+ kind
  | Sample name [] value => name +:+ " " +:+ value
  | Sample name ((label, v) :: _) value =>
      name +:+ "{" +:+ label +:+ "=" +:+ QUOTE +:+ escape_label v +:+ QUOTE +:+ "} " +:+ value
  end.

Definition no_lf (s : string) : bool := Str.all (λ c, bool_decide (c ≠ "010"%char)) s.
Definition is_name (s : string) : bool := Str.all is_name_char s.

Definition wf_line (l : Line) : bool :=
  match l with
  | Help name doc => is_name name && no_lf doc
  | Typed name kind => is_name name && no_lf kind
  | Sample name [] value => is_name name && negb (Str.starts_with "#" name) && no_lf value
  | Sample name [(label, v)] value => is_name name && is_name label && no_lf value
  | _ => false
  end.

Lemma unescape_escape v rest : unescape (escape_label v +:+ QUOTE +:+ rest) = Some (v, rest).
Proof.
  induction v as [|c v IH]; [done|]. set (r := QUOTE +:+ rest) in *. clearbody r.
  cbn [escape_label]. rewrite <-string_app_assoc. set (e := escape_label v +:+ r) in *. clearbody e.
  destruct (decide (c = "092"%char)) as [->|H1].
  { change (unescape (String "092" (String "092" e)) = Some (String "092" v, rest)). simpl. by rewrite IH. }
  destruct (decide (c = "034"%char)) as [->|H2].
  { change (unescape (String "092" (String "034" e)) = Some (String "034" v, rest)). simpl. by rewrite IH. }
  destruct (decide (c = "010"%char)) as [->|H3].
  { change (unescape (String "092" (String "n" e)) = Some (String "010" v, rest)). simpl. by rewrite IH. }
  change (unescape (String c e) = Some (String c v, rest)). cbn [unescape]. by rewrite !decide_False, IH by done.
Qed.

Lemma escape_no_lf v : no_lf (escape_label v) = true.
Proof.
  induction v as [|c v IH]; [done|]. cbn [escape_label]. unfold no_lf in *. rewrite Str.all_app, IH, andb_true_r.
  repeat case_decide; subst; try done. simpl. by rewrite bool_decide_eq_true_2.
Qed.

Lemma span_name_app n c r : is_name n = true → is_name_char c = false → span_name (n +:+ String c r) = (n, String c r).
Proof.
  intros Hn Hc. induction n as [|a n IH]; [simpl; by rewrite Hc|].
  change (span_name (String a (n +:+ String c r)) = (String a n, String c r)).
  unfold is_name in *. simpl in Hn. apply andb_prop in Hn as [Ha Hn]. cbn [span_name]. by rewrite Ha, (IH Hn).
Qed.

Lemma all_impl_name (n : string) c : is_name n = true → is_name_char c = false →
  Str.all (λ a, bool_decide (a ≠ c)) n = true.
Proof.
  intros Hn Hc. eapply Str.all_impl; [|exact Hn]. intros a Ha. apply bool_decide_eq_true_2. by intros ->; rewrite Ha in Hc.
Qed.

Lemma split_once_name n c r : is_name n = true → is_name_char c = false →
  Str.split_once c (n +:+ String c r) = Some (n, r).
Proof. intros Hn Hc. apply Str.split_once_Some. split; [done|]. by apply all_impl_name. Qed.

Lemma strip_hash n r p :
  is_name n = true → Str.strip_prefix (String "#" p) (n +:+ String " " r) = None ∧
  Str.strip_prefix (String "#" p) (n +:+ String "{" r) = None.
Proof.
  intros Hn. destruct n as [|a n]; [done|]. unfold is_name in Hn. simpl in Hn. apply andb_prop in Hn as [Ha _].
  assert ("#"%char ≠ a) as Hne by (by intros <-). split; simpl; by rewrite decide_False.
Qed.

Lemma parse_line_text l : wf_line l = true → parse_line (line_text l) = Some l.
Proof.
  intros Hwf. destruct l as [name doc|name kind|name labels value].
  - simpl in Hwf. apply andb_prop in Hwf as [Hn _]. unfold parse_line, line_text.
    rewrite strip_prefix_app. change (" " +:+ doc) with (String " " doc). by rewrite split_once_name.
  - simpl in Hwf. apply andb_prop in Hwf as [Hn _]. unfold parse_line, line_text.
    change (Str.strip_prefix "# HELP " ("# TYPE " +:+ name +:+ " " +:+ kind)) with (@None string).
    rewrite strip_prefix_app. change (" " +:+ kind) with (String " " kind). by rewrite split_once_name.
  - destruct labels as [|[label v] [|]]; [| |done]; simpl in Hwf; apply andb_prop in Hwf as [Hwf _].
    + apply andb_prop in Hwf as [Hn _]. unfold parse_line, line_text. change (" " +:+ value) with (String " " value).
      rewrite (proj1 (strip_hash name value _ Hn)), (proj1 (strip_hash name value _ Hn)).
      unfold parse_sample. by rewrite span_name_app.
    + apply andb_prop in Hwf as [Hn Hl]. unfold parse_line, line_text.
      set (r := label +:+ _). change ("{" +:+ r) with (String "{" r).
      rewrite (proj2 (strip_hash name r _ Hn)), (proj2 (strip_hash name r _ Hn)).
      unfold parse_sample. rewrite span_name_app by done. subst r.
      rewrite decide_False by done. rewrite decide_True by done.
      set (r := QUOTE +:+ _). change ("=" +:+ r) with (String "=" r). rewrite (split_once_name label "=") by done. subst r. cbn [mbind option_bind].
      rewrite strip_prefix_app. cbn [mbind option_bind]. rewrite unescape_escape. cbn [mbind option_bind].
      by rewrite strip_prefix_app.
Qed.

Lemma no_lf_app s1 s2 : no_lf (s1 +:+ s2) = no_lf s1 && no_lf s2.
Proof. apply Str.all_app. Qed.

Lemma line_text_no_lf l : wf_line l = true → no_lf (line_text l) = true.
Proof.
  assert (∀ n, is_name n = true → no_lf n = true) as Hname by (intros n Hn; by apply all_impl_name).
  destruct l as [name doc|name kind|name [|[label v] [|]] value]; simpl; intros Hwf; try done;
    repeat (apply andb_prop in Hwf as [Hwf ?]); rewrite ?no_lf_app, ?escape_no_lf;
    repeat match goal with
    | H : no_lf _ = true |- _ => rewrite H; clear H
    | H : is_name ?n = true |- _ => rewrite ?(Hname n H); clear H
    end; done.
Qed.

Definition text_of_lines : list Line → string := concat_map (λ l, line_text l +:+ LF).

Lemma split_lines ls :
  Forall (λ l, wf_line l = true) ls → Str.split "010" (text_of_lines ls) = (line_text <$> ls) ++ [EmptyString].
Proof.
  induction 1 as [|l ls Hl _ IH]; [done|]. change (text_of_lines (l :: ls)) with ((line_text l +:+ LF) +:+ text_of_lines ls).
  rewrite <-string_app_assoc. change (LF +:+ text_of_lines ls) with (String "010" (text_of_lines ls)).
  rewrite Str.split_before by (by apply line_text_no_lf). by rewrite IH.
Qed.

(** What is printed line by line is read back. *)
Lemma parse_text_lines ls : Forall (λ l, wf_line l = true) ls → parse_text (text_of_lines ls) = Some ls.
Proof.
  intros Hls. unfold parse_text. rewrite split_lines by done. rewrite last_snoc, decide_True by done.
  rewrite length_app, length_fmap. simpl. replace (length ls + 1 - 1)%nat with (length (line_text <$> ls)) by (rewrite length_fmap; lia).
  rewrite take_app_length. apply mapM_Some. induction Hls; constructor; [|done]. by apply parse_line_text.
Qed.

(** *** Numbers *)

(** A byte the format does not escape. *)
Definition plain (c : ascii) : bool :=
  bool_decide (c ≠ "010"%char) && bool_decide (c ≠ "034"%char) && bool_decide (c ≠ "092"%char).

Lemma pretty_go_plain (x : N) s : Str.all plain s = true → Str.all plain (pretty_N_go x s) = true.
Proof.
  revert s. induction (N.lt_wf_0 x) as [x _ IH]. intros s Hs. destruct (decide (0 < x)%N) as [Hx|Hx].
  - rewrite pretty_N_go_step by done. apply IH; [by apply N.div_lt|]. simpl. rewrite Hs, andb_true_r.
    unfold pretty_N_char. repeat case_match; done.
  - replace x with 0%N by lia. by rewrite pretty_N_go_0.
Qed.

Lemma show_uint_plain n : Str.all plain (show_uint n) = true.
Proof. unfold show_uint, pretty, pretty_N. case_decide; [done|]. by apply pretty_go_plain. Qed.

Lemma show_uint_no_lf n : no_lf (show_uint n) = true.
Proof.
  eapply Str.all_impl; [|apply show_uint_plain]. intros c Hc. unfold plain in Hc.
  apply andb_prop in Hc as [Hc _]. by apply andb_prop in Hc as [Hc _].
Qed.

Lemma escape_plain s : Str.all plain s = true → escape_label s = s.
Proof.
  induction s as [|c s IH]; [done|]. simpl. intros Hs. apply andb_prop in Hs as [Hc Hs]. rewrite (IH Hs).
  unfold plain in Hc. apply andb_prop in Hc as [Hc H3]. apply andb_prop in Hc as [H1 H2].
  apply bool_decide_eq_true in H1, H2, H3. by rewrite !decide_False.
Qed.

Lemma show_uint_inj (i j : nat) : show_uint (Z.of_nat i) = show_uint (Z.of_nat j) → i = j.
Proof. unfold show_uint. intros Heq. apply (inj pretty) in Heq. lia. Qed.

Lemma bit_no_lf b : no_lf (bit b) = true.
Proof. by destruct b. Qed.

Lemma show_thousandths_no_lf n : no_lf (show_thousandths n) = true.
Proof.
  unfold show_thousandths, pad3. rewrite !no_lf_app, !show_uint_no_lf. by repeat case_match.
Qed.

Lemma show_f64_3_no_lf x : no_lf (show_f64_3 x) = true.
Proof. destruct x as [[]|[]| |[] m e]; try done; cbn [show_f64_3]; by rewrite no_lf_app, show_thousandths_no_lf. Qed.

(** The budget factor is printed as it is: the nearest binary64 of a number of
    thousandths rounds back to it. *)
Lemma factor_shown n :
  (0 <= n <= 1000)%Z → show_f64_3 (F64.div (F64.of_uint n) (F64.of_uint 1000)) = show_thousandths n.
Proof.
  intros Hn.
  assert (forallb (λ k, bool_decide (show_f64_3 (F64.div (F64.of_uint (Z.of_nat k)) (F64.of_uint 1000)) =
    show_thousandths (Z.of_nat k))) (seq 0 1001) = true) as Hall by (vm_compute; reflexivity).
  rewrite forallb_forall in Hall. specialize (Hall (Z.to_nat n)). rewrite Z2Nat.id in Hall by lia.
  eapply bool_decide_eq_true_1, Hall, in_seq. lia.
Qed.

(** *** Families *)

(** A metric with its samples. *)
Record Family : Type := mkFamily {
  fam_name : string;
  fam_help : string;
  fam_kind : string;
  fam_samples : list (list (string * string) * string)
}.

Definition family_lines (f : Family) : list Line :=
  Help (fam_name f) (fam_help f) :: Typed (fam_name f) (fam_kind f) ::
  ((λ p, Sample (fam_name f) p.1 p.2) <$> fam_samples f).

Definition exposition (fs : list Family) : list Line := fs ≫= family_lines.

Definition scalar (name help kind value : string) : Family := mkFamily name help kind [([], value)].
Definition by_label (name help kind label : string) (l : list (string * string)) : Family :=
  mkFamily name help kind ((λ p, ([(label, p.1)], p.2)) <$> l).

Definition wf_family (f : Family) : Prop := Forall (λ l, wf_line l = true) (family_lines f).

Lemma wf_scalar name help kind value :
  is_name name && no_lf help && no_lf kind && negb (Str.starts_with "#" name) = true → no_lf value = true →
  wf_family (scalar name help kind value).
Proof.
  intros Hs Hv. apply andb_prop in Hs as [Hs Hn]. apply andb_prop in Hs as [Hs Hk]. apply andb_prop in Hs as [Hs Hh].
  unfold wf_family, family_lines. cbn. rewrite !Forall_cons. cbn. by rewrite Hs, Hh, Hk, Hn, Hv.
Qed.

Lemma wf_by_label name help kind label l :
  is_name name && no_lf help && no_lf kind && is_name label = true → Forall (λ p, no_lf p.2 = true) l →
  wf_family (by_label name help kind label l).
Proof.
  intros Hs Hv. apply andb_prop in Hs as [Hs Hn]. apply andb_prop in Hs as [Hs Hk]. apply andb_prop in Hs as [Hs Hh].
  unfold wf_family, family_lines. cbn. rewrite !Forall_cons. cbn. rewrite Hs, Hh, Hk. split; [done|]. split; [done|].
  apply Forall_fmap, Forall_fmap. eapply Forall_impl; [exact Hv|]. intros [x v] Hp.
  change (is_name name && is_name label && no_lf v = true). simpl in Hp. by rewrite Hs, Hn, Hp.
Qed.

(** *** The families of a snapshot *)

Definition node_families (s : MetricsSnapshot) : list Family :=
  [scalar "pylon_up" "Pylon process is up (liveness/scrape check)" "gauge" "1";
   scalar "pylon_app_store_up" "App store reachable at the last probe (1 = up, 0 = down)" "gauge"
     (bit (ms_app_store_up s))] ++
  match ms_saturation s with
  | Some sat => [scalar "pylon_saturation_flag" "Broadcast pipeline saturation (1 = saturated)" "gauge" (bit sat)]
  | None => []
  end ++
  [by_label "pylon_rest_rate_limited_total" "REST requests rejected with 429 by scope" "counter" "scope"
     [("node", show_uint (rc_node (ms_rest_rate_limited s)));
      ("app_events", show_uint (rc_app_events (ms_rest_rate_limited s)));
      ("app_reads", show_uint (rc_app_reads (ms_rest_rate_limited s)))]].

Definition app_series (name help : string) (f : AppMetrics → Z) (apps : gmap string AppMetrics) : Family :=
  by_label name help "gauge" "app" ((λ p, (p.1, show_uint (f p.2))) <$> btree_iter apps).

Definition app_families (apps : gmap string AppMetrics) : list Family :=
  match btree_iter apps with
  | [] => []
  | _ =>
      [app_series "pylon_connections" "Number of live WebSocket connections per app" am_connections apps;
       app_series "pylon_channels_occupied" "Number of occupied channels per app" am_channels_occupied apps;
       app_series "pylon_subscriptions" "Total channel subscriptions per app" am_subscriptions apps]
  end.

Definition worker_series (name help kind : string) (l : list Z) : Family :=
  by_label name help kind "worker" (imap (λ i n, (show_uint (Z.of_nat i), show_uint n)) l).

Definition percore_families (pc : PercoreMetricsSnapshot) : list Family :=
  [worker_series "pylon_broadcast_dropped_total"
     "Broadcasts dropped due to full worker hand-off channel (cumulative)" "counter" (pm_dropped pc);
   worker_series "pylon_inflight_bytes" "Bytes queued in per-worker outbound buffers" "gauge" (pm_inflight pc);
   scalar "pylon_inflight_bytes_sum" "Total bytes queued across all workers" "gauge"
     (show_uint (pm_inflight_total pc));
   scalar "pylon_worker_budget_bytes" "Per-worker memory budget in bytes" "gauge"
     (show_uint (pm_worker_budget_bytes pc));
   scalar "pylon_budget_factor" "PSI memory-pressure budget factor (0.0–1.0)" "gauge"
     (show_f64_3 (pm_budget_factor pc));
   worker_series "pylon_accepted_connections_total" "Cumulative connections accepted per worker" "counter"
     (pm_accepted pc);
   worker_series "pylon_codel_dropped_total" "Frames dropped by CoDel staleness check per worker (cumulative)"
     "counter" (pm_codel_dropped pc);
   worker_series "pylon_drophead_dropped_total"
     "Frames evicted by the per-connection drop-head queue per worker (cumulative)" "counter"
     (pm_drophead_dropped pc);
   worker_series "pylon_mailbox_dropped_total"
     "Frames dropped due to per-connection mailbox full per worker (cumulative)" "counter" (pm_mailbox_dropped pc);
   worker_series "pylon_frame_limited_total"
     "Connections closed (4100) for exceeding the inbound frame rate limit, per worker (cumulative)" "counter"
     (pm_frame_limited pc);
   worker_series "pylon_accept_limited_total"
     "Sockets closed immediately after accept for exceeding the accept rate limit, per worker (cumulative)"
     "counter" (pm_accept_limited pc);
   worker_series "pylon_handshake_timeout_total"
     "Pre-session connections reaped for exceeding the handshake deadline, per worker (cumulative)" "counter"
     (pm_handshake_timeout pc)].

Definition webhook_families (wh : WebhookMetrics) (depth : option Z) : list Family :=
  [scalar "pylon_webhook_enqueued_total" "Total webhook events successfully enqueued" "counter"
     (show_uint (wm_enqueued wh));
   scalar "pylon_webhook_dropped_total" "Total webhook events dropped on full/closed mailbox" "counter"
     (show_uint (wm_dropped wh));
   by_label "pylon_webhook_delivered_total" "Total webhook deliveries by outcome" "counter" "status"
     [("ok", show_uint (wm_delivered_ok wh)); ("failed", show_uint (wm_delivered_failed wh))]] ++
  match depth with
  | Some d => [scalar "pylon_webhook_queue_depth" "Current number of events in the webhook mailbox" "gauge"
      (show_uint d)]
  | None => []
  end.

Definition cluster_families (cm : ClusterMetrics) : list Family :=
  [scalar "pylon_cluster_cmd_dropped_total" "Total ClusterCmds dropped on a full bridge channel" "counter"
     (show_uint (cmd_dropped cm));
   scalar "pylon_redis_connected" "Redis connection health (1=connected, 0=error)" "gauge"
     (bit (redis_connected cm));
   scalar "pylon_cluster_publish_failed_total"
     "Cross-node broadcast publishes that failed (bridge channel full/closed, or a Redis publish error)"
     "counter" (show_uint (publish_failed cm))].

Definition families (s : MetricsSnapshot) : list Family :=
  node_families s ++ app_families (ms_apps s) ++
  match ms_percore s with Some pc => percore_families pc | None => [] end ++
  match ms_webhook s with Some wh => webhook_families wh (ms_webhook_queue_depth s) | None => [] end ++
  match ms_cluster s with Some cm => cluster_families cm | None => [] end.

(** The encoder prints its families, line by line. *)
Lemma text_app l1 l2 : text_of_lines (l1 ++ l2) = text_of_lines l1 +:+ text_of_lines l2.
Proof.
  induction l1 as [|l l1 IH]; [done|]. cbn [app].
  change (text_of_lines (l :: l1 ++ l2)) with ((line_text l +:+ LF) +:+ text_of_lines (l1 ++ l2)).
  by rewrite IH, string_app_assoc.
Qed.

Lemma exposition_app f1 f2 : text_of_lines (exposition (f1 ++ f2)) =
  text_of_lines (exposition f1) +:+ text_of_lines (exposition f2).
Proof. unfold exposition. by rewrite bind_app, text_app. Qed.

Lemma exposition_cons f fs : text_of_lines (exposition (f :: fs)) =
  header (fam_name f) (fam_help f) (fam_kind f) +:+
  text_of_lines ((λ p, Sample (fam_name f) p.1 p.2) <$> fam_samples f) +:+ text_of_lines (exposition fs).
Proof.
  change (exposition (f :: fs)) with (family_lines f ++ exposition fs). rewrite text_app, string_app_assoc. f_equal.
  unfold family_lines, header.
  change (text_of_lines (Help (fam_name f) (fam_help f) :: Typed (fam_name f) (fam_kind f) :: ?l)) with
    ((line_text (Help (fam_name f) (fam_help f)) +:+ LF) +:+
     (line_text (Typed (fam_name f) (fam_kind f)) +:+ LF) +:+ text_of_lines l).
  cbn [line_text]. by rewrite <-!string_app_assoc.
Qed.

Lemma string_app_nil_r (s : string) : s +:+ "" = s.
Proof. induction s as [|c s IH]; [done|]. change (String c (s +:+ "") = String c s). by rewrite IH. Qed.

Lemma text_scalar name value : text_of_lines ((λ p, Sample name p.1 p.2) <$> [([], value)]) = line name value.
Proof. unfold line. cbn -[String.append]. rewrite <-!string_app_assoc. by rewrite string_app_nil_r. Qed.

Lemma text_by_label name label l :
  text_of_lines ((λ p, Sample name p.1 p.2) <$> ((λ p, ([(label, p.1)], p.2)) <$> l)) =
  concat_map (λ p, labelled name label (escape_label p.1) p.2) l.
Proof.
  induction l as [|[x v] l IH]; [done|]. rewrite !fmap_cons.
  change (text_of_lines (?h :: ?t)) with ((line_text h +:+ LF) +:+ text_of_lines t). rewrite IH.
  unfold labelled. cbn [line_text fst snd concat_map foldr]. by rewrite <-!string_app_assoc.
Qed.

Lemma text_exposition_nil : text_of_lines (exposition []) = "".
Proof. done. Qed.

(** Print the families of a list. *)
Ltac print_families :=
  rewrite ?exposition_app, ?exposition_cons; cbn [fam_name fam_help fam_kind fam_samples scalar by_label];
  rewrite ?text_scalar, ?text_by_label, ?text_exposition_nil, ?string_app_nil_r, <-?string_app_assoc.

Lemma node_text s : encode_node s = text_of_lines (exposition (node_families s)).
Proof.
  unfold node_families, encode_node. destruct (ms_saturation s); print_families; cbn [concat_map foldr fst snd];
    rewrite ?string_app_nil_r, <-?string_app_assoc; reflexivity.
Qed.

Lemma concat_map_fmap {A B} (f : A → B) (g : B → string) l : concat_map g (f <$> l) = concat_map (g ∘ f) l.
Proof. unfold concat_map. by rewrite foldr_fmap. Qed.

Lemma apps_text apps : encode_apps apps = text_of_lines (exposition (app_families apps)).
Proof.
  unfold encode_apps, app_families. destruct (btree_iter apps) as [|x l] eqn:E; [done|]. unfold app_series. rewrite E.
  print_families. by rewrite !concat_map_fmap.
Qed.

Lemma per_worker_text name l :
  per_worker name l =
  concat_map (λ p, labelled name "worker" (escape_label p.1) p.2) (imap (λ i n, (show_uint (Z.of_nat i), show_uint n)) l).
Proof.
  unfold per_worker. replace (imap (λ i n, (show_uint (Z.of_nat i), show_uint n)) l)
    with ((λ p, (show_uint (Z.of_nat p.1), show_uint p.2)) <$> imap pair l) by (by rewrite fmap_imap).
  rewrite concat_map_fmap. unfold concat_map. apply foldr_ext; try done. intros [i n] out. cbn.
  by rewrite (escape_plain _ (show_uint_plain _)).
Qed.

Lemma percore_text pc : encode_percore pc = text_of_lines (exposition (percore_families pc)).
Proof.
  unfold percore_families, encode_percore, worker_series. print_families. by rewrite !per_worker_text.
Qed.

Lemma webhook_text wh depth : encode_webhook wh depth = text_of_lines (exposition (webhook_families wh depth)).
Proof.
  unfold webhook_families, encode_webhook. destruct depth; print_families; cbn [concat_map foldr fst snd];
    rewrite ?string_app_nil_r, <-?string_app_assoc; reflexivity.
Qed.

Lemma cluster_text cm : encode_cluster cm = text_of_lines (exposition (cluster_families cm)).
Proof. unfold cluster_families, encode_cluster. by print_families. Qed.

Lemma encode_text s : encode s = text_of_lines (exposition (families s)).
Proof.
  unfold encode, families. rewrite !exposition_app, node_text, apps_text. do 2 f_equal.
  destruct (ms_percore s), (ms_webhook s), (ms_cluster s); by rewrite ?percore_text, ?webhook_text, ?cluster_text.
Qed.

(** *** Every family is well formed *)

Lemma wf_app_series name help f apps :
  is_name name && no_lf help && no_lf "gauge" && is_name "app" = true → wf_family (app_series name help f apps).
Proof. intros Hs. apply wf_by_label; [done|]. apply Forall_fmap, Forall_true. intros p. apply show_uint_no_lf. Qed.

Lemma wf_worker_series name help kind l :
  is_name name && no_lf help && no_lf kind && is_name "worker" = true → wf_family (worker_series name help kind l).
Proof.
  intros Hs. apply wf_by_label; [done|]. apply Forall_lookup. intros i p Hp.
  rewrite list_lookup_imap in Hp. destruct (l !! i); simplify_eq/=. apply show_uint_no_lf.
Qed.

Create HintDb metrics.
#[local] Hint Resolve show_uint_no_lf show_f64_3_no_lf bit_no_lf : metrics.

Ltac wf_families :=
  repeat match goal with
  | |- Forall wf_family (_ ++ _) => apply Forall_app; split
  | |- Forall wf_family [] => constructor
  | |- Forall wf_family (_ :: _) => apply List.Forall_cons
  | |- wf_family (scalar _ _ _ _) => apply wf_scalar; [vm_compute; reflexivity|auto with metrics]
  | |- wf_family (app_series _ _ _ _) => apply wf_app_series; vm_compute; reflexivity
  | |- wf_family (worker_series _ _ _ _) => apply wf_worker_series; vm_compute; reflexivity
  | |- wf_family (by_label _ _ _ _ _) =>
      apply wf_by_label; [vm_compute; reflexivity|repeat (apply List.Forall_cons; [apply show_uint_no_lf|]); constructor]
  | |- Forall wf_family (match ?x with _ => _ end) => destruct x
  end.

Lemma families_wf s : Forall wf_family (families s).
Proof.
  unfold families, node_families, app_families, percore_families, webhook_families, cluster_families. wf_families.
Qed.

Lemma exposition_wf fs : Forall wf_family fs → Forall (λ l, wf_line l = true) (exposition fs).
Proof. induction 1 as [|f fs Hf _ IH]; [done|]. apply Forall_app. by split. Qed.

Lemma encode_parses s : parse_text (encode s) = Some (exposition (families s)).
Proof. rewrite encode_text. apply parse_text_lines, exposition_wf, families_wf. Qed.

(** The names of all the families there are. *)
Definition family_names : list string :=
  fam_name <$> families (mkMetricsSnapshot {[ "a" := mkAppMetrics 0 0 0 ]} (Some true)
    (percore_metrics_snapshot (Some (mkPercoreRegistry [] [] [] [] [] [] [] [] [] 0 0)) (mkPercore ∅ false None))
    (Some (mkWebhookMetrics 0 0 0 0)) (Some 0%Z) (Some ClusterMetrics_new) (mkRestRateLimitedCounts 0 0 0) true).

Lemma family_names_distinct s : NoDup (fam_name <$> families s).
Proof.
  assert (sublist (fam_name <$> families s) family_names) as Hsub.
  { unfold family_names, families. rewrite !fmap_app. repeat apply sublist_app.
    - unfold node_families. destruct (ms_saturation s); cbn; repeat constructor.
    - unfold app_families. destruct (btree_iter (ms_apps s)); [|destruct (btree_iter _) eqn:E; [done|]]; cbn; repeat constructor.
    - destruct (ms_percore s); cbn; repeat constructor.
    - destruct (ms_webhook s), (ms_webhook_queue_depth s); cbn; repeat constructor.
    - destruct (ms_cluster s); cbn; repeat constructor. }
  eapply sublist_NoDup; [|exact Hsub]. apply (bool_decide_eq_true_1 (NoDup family_names)). vm_compute. reflexivity.
Qed.

(** *** Reading a series *)

Fixpoint assoc {B} (labels : list (string * string)) (l : list (list (string * string) * B)) : option B :=
  match l with
  | [] => None
  | (k, v) :: l => if decide (k = labels) then Some v else assoc labels l
  end.

Lemma find_sample_app name labels l1 l2 :
  find_sample name labels (l1 ++ l2) =
  match find_sample name labels l1 with Some v => Some v | None => find_sample name labels l2 end.
Proof. induction l1 as [|[| |n l v] l1 IH]; simpl; try done. by case_decide. Qed.

Lemma find_in_family name labels f :
  find_sample name labels (family_lines f) = if decide (fam_name f = name) then assoc labels (fam_samples f) else None.
Proof.
  unfold family_lines. cbn [find_sample]. induction (fam_samples f) as [|[k v] l IH]; [by case_decide|].
  cbn [fmap list_fmap find_sample assoc fst snd]. rewrite IH. repeat case_decide; naive_solver.
Qed.

Lemma find_other name labels fs : name ∉ fam_name <$> fs → find_sample name labels (exposition fs) = None.
Proof.
  induction fs as [|f fs IH]; intros Hn; [done|]. rewrite fmap_cons, not_elem_of_cons in Hn. destruct Hn as [Hf Hn].
  change (exposition (f :: fs)) with (family_lines f ++ exposition fs).
  rewrite find_sample_app, find_in_family, decide_False by done. by apply IH.
Qed.

Lemma find_family labels fs f :
  NoDup (fam_name <$> fs) → f ∈ fs → find_sample (fam_name f) labels (exposition fs) = assoc labels (fam_samples f).
Proof.
  induction fs as [|g fs IH]; intros Hnd Hin; [by apply elem_of_nil in Hin|].
  rewrite fmap_cons, NoDup_cons in Hnd. destruct Hnd as [Hg Hnd].
  change (exposition (g :: fs)) with (family_lines g ++ exposition fs). rewrite find_sample_app, find_in_family.
  apply elem_of_cons in Hin as [->|Hin].
  - rewrite decide_True, find_other by done. by destruct (assoc _ _).
  - rewrite decide_False; [by apply IH|]. intros Heq. apply Hg. rewrite Heq. by apply list_elem_of_fmap_2.
Qed.

Lemma scrape_family s f labels :
  f ∈ families s → scrape (encode s) (fam_name f) labels = assoc labels (fam_samples f).
Proof.
  intros Hf. unfold scrape. rewrite encode_parses. cbn [mbind option_bind]. apply find_family; [apply family_names_distinct|done].
Qed.

Lemma scrape_absent s name labels :
  name ∉ fam_name <$> families s → scrape (encode s) name labels = None.
Proof. intros Hn. unfold scrape. rewrite encode_parses. cbn [mbind option_bind]. by apply find_other. Qed.

Lemma assoc_label label x (l : list (string * string)) :
  assoc [(label, x)] ((λ p, ([(label, p.1)], p.2)) <$> l) =
  snd <$> head (filter (λ p, p.1 = x) l).
Proof.
  induction l as [|[y v] l IH]; [done|]. rewrite fmap_cons. cbn [assoc fst snd]. rewrite filter_cons. cbn [fst].
  destruct (decide (y = x)) as [->|Hne]; [by rewrite decide_True|]. rewrite decide_False by congruence. done.
Qed.

Lemma assoc_apps (f : AppMetrics → Z) apps id :
  snd <$> head (filter (λ p, p.1 = id) ((λ p, (p.1, show_uint (f p.2))) <$> btree_iter apps)) =
  (λ m, show_uint (f m)) <$> apps !! id.
Proof.
  assert (∀ l : list (string * AppMetrics), NoDup l.*1 →
    snd <$> head (filter (λ p, p.1 = id) ((λ p, (p.1, show_uint (f p.2))) <$> l)) =
    (λ m, show_uint (f m)) <$> list_to_map (M:=gmap string AppMetrics) l !! id) as Hl.
  { induction l as [|[k m] l IH]; intros Hnd; [done|]. rewrite fmap_cons, filter_cons. cbn [fst list_to_map foldr].
    simpl in Hnd. rewrite NoDup_cons in Hnd. destruct Hnd as [_ Hnd]. destruct (decide (k = id)) as [->|Hne].
    - simpl. by rewrite lookup_insert_eq.
    - simpl. rewrite lookup_insert_ne by done. by apply IH. }
  assert (NoDup (btree_iter apps).*1) as Hnd by (rewrite btree_iter_perm; apply NoDup_fst_map_to_list).
  rewrite Hl by done. by rewrite (list_to_map_proper _ _ Hnd (btree_iter_perm apps)), list_to_map_to_list.
Qed.

Lemma assoc_workers l i :
  snd <$> head (filter (λ p, p.1 = show_uint (Z.of_nat i)) (imap (λ j n, (show_uint (Z.of_nat j), show_uint n)) l)) =
  show_uint <$> l !! i.
Proof.
  assert (∀ k, snd <$> head (filter (λ p, p.1 = show_uint (Z.of_nat (k + i)))
    (imap (λ j n, (show_uint (Z.of_nat (k + j)), show_uint n)) l)) = show_uint <$> l !! i) as Hk; [|exact (Hk 0%nat)].
  revert i. induction l as [|n l IH]; intros i k; [done|]. cbn [imap]. rewrite filter_cons. cbn [fst].
  destruct i as [|i].
  - rewrite decide_True by done. done.
  - rewrite decide_False by (intros Heq%show_uint_inj; lia).
    rewrite (imap_ext _ (λ j n, (show_uint (Z.of_nat (S k + j)), show_uint n))) by (intros; simpl; do 3 f_equal; lia).
    replace (k + S i)%nat with (S k + i)%nat by lia. apply IH.
Qed.

(** *** No series appears twice *)

Definition distinct_samples (f : Family) : Prop := NoDup (fam_samples f).*1.

Lemma distinct_by_label name help kind label l :
  NoDup l.*1 → distinct_samples (by_label name help kind label l).
Proof.
  intros Hl. unfold distinct_samples. cbn. rewrite <-list_fmap_compose.
  change (NoDup ((λ p : string * string, [(label, p.1)]) <$> l)).
  replace ((λ p : string * string, [(label, p.1)]) <$> l) with ((λ x, [(label, x)]) <$> l.*1)
    by (by rewrite <-list_fmap_compose).
  apply NoDup_fmap_2; [|done]. by intros x y [= ->].
Qed.

Lemma distinct_apps name help f apps : distinct_samples (app_series name help f apps).
Proof.
  apply distinct_by_label. rewrite <-list_fmap_compose.
  change (NoDup (btree_iter apps).*1). rewrite btree_iter_perm. apply NoDup_fst_map_to_list.
Qed.

Lemma distinct_workers name help kind l : distinct_samples (worker_series name help kind l).
Proof.
  apply distinct_by_label. rewrite fmap_imap. apply NoDup_alt. intros i j x Hi Hj.
  rewrite list_lookup_imap in Hi, Hj. destruct (l !! i), (l !! j); simplify_eq/=. by apply show_uint_inj.
Qed.

Lemma families_distinct s : Forall distinct_samples (families s).
Proof.
  unfold families, node_families, app_families, percore_families, webhook_families, cluster_families.
  repeat match goal with
  | |- Forall distinct_samples (_ ++ _) => apply Forall_app; split
  | |- Forall distinct_samples [] => constructor
  | |- Forall distinct_samples (_ :: _) => apply List.Forall_cons
  | |- distinct_samples (scalar _ _ _ _) => apply NoDup_singleton
  | |- distinct_samples (app_series _ _ _ _) => apply distinct_apps
  | |- distinct_samples (worker_series _ _ _ _) => apply distinct_workers
  | |- distinct_samples (by_label _ _ _ _ _) =>
      apply distinct_by_label; apply (bool_decide_eq_true_1 (NoDup _)); vm_compute; reflexivity
  | |- Forall distinct_samples (match ?x with _ => _ end) => destruct x
  end.
Qed.

(** The series of a text. *)
Definition series (ls : list Line) : list (string * list (string * string)) :=
  omap (λ l, match l with Sample n labels _ => Some (n, labels) | _ => None end) ls.

Lemma series_family f : series (family_lines f) = (pair (fam_name f)) <$> (fam_samples f).*1.
Proof.
  unfold family_lines, series. cbn [omap list_omap]. induction (fam_samples f) as [|p l IH]; [done|]. cbn. by rewrite IH.
Qed.

Lemma series_distinct fs : NoDup (fam_name <$> fs) → Forall distinct_samples fs → NoDup (series (exposition fs)).
Proof.
  induction fs as [|f fs IH]; intros Hnd Hds; [by apply NoDup_nil|].
  rewrite fmap_cons, NoDup_cons in Hnd. destruct Hnd as [Hf Hnd]. inv Hds.
  change (exposition (f :: fs)) with (family_lines f ++ exposition fs). unfold series. rewrite omap_app. fold (series (family_lines f)) (series (exposition fs)).
  rewrite series_family. apply NoDup_app. split_and!; [by apply NoDup_fmap_2; [apply _|]| |by apply IH].
  intros [n labels] Hn Hin. apply list_elem_of_fmap in Hn as (x & Hx & _).
  injection Hx as -> ->. apply Hf. clear -Hin. induction fs as [|g fs IH]; [by apply elem_of_nil in Hin|].
  change (exposition (g :: fs)) with (family_lines g ++ exposition fs) in Hin. unfold series in Hin. rewrite omap_app in Hin.
  fold (series (family_lines g)) (series (exposition fs)) in Hin. rewrite fmap_cons. apply elem_of_cons.
  apply elem_of_app in Hin as [Hin|Hin]; [left|right; by apply IH].
  rewrite series_family in Hin. apply list_elem_of_fmap in Hin as (y & Hy & _). by injection Hy.
Qed.

(** ** What is read from a snapshot *)

(** The metrics by app, by worker and of the node. *)
Definition app_metric_names : list (string * (AppMetrics → Z)) :=
  [("pylon_connections", am_connections); ("pylon_channels_occupied", am_channels_occupied);
   ("pylon_subscriptions", am_subscriptions)].

Definition worker_metric_names : list (string * (PercoreMetricsSnapshot → list Z)) :=
  [("pylon_broadcast_dropped_total", pm_dropped); ("pylon_inflight_bytes", pm_inflight);
   ("pylon_accepted_connections_total", pm_accepted); ("pylon_codel_dropped_total", pm_codel_dropped);
   ("pylon_drophead_dropped_total", pm_drophead_dropped); ("pylon_mailbox_dropped_total", pm_mailbox_dropped);
   ("pylon_frame_limited_total", pm_frame_limited); ("pylon_accept_limited_total", pm_accept_limited);
   ("pylon_handshake_timeout_total", pm_handshake_timeout)].

Definition node_metric_names : list (string * (MetricsSnapshot → option string)) :=
  [("pylon_up", λ _, Some "1"); ("pylon_app_store_up", λ s, Some (bit (ms_app_store_up s)));
   ("pylon_saturation_flag", λ s, bit <$> ms_saturation s);
   ("pylon_inflight_bytes_sum", λ s, show_uint ∘ pm_inflight_total <$> ms_percore s);
   ("pylon_worker_budget_bytes", λ s, show_uint ∘ pm_worker_budget_bytes <$> ms_percore s);
   ("pylon_budget_factor", λ s, show_f64_3 ∘ pm_budget_factor <$> ms_percore s);
   ("pylon_webhook_enqueued_total", λ s, show_uint ∘ wm_enqueued <$> ms_webhook s);
   ("pylon_webhook_dropped_total", λ s, show_uint ∘ wm_dropped <$> ms_webhook s);
   ("pylon_webhook_queue_depth", λ s, _ ← ms_webhook s; show_uint <$> ms_webhook_queue_depth s);
   ("pylon_cluster_cmd_dropped_total", λ s, show_uint ∘ cmd_dropped <$> ms_cluster s);
   ("pylon_redis_connected", λ s, bit ∘ redis_connected <$> ms_cluster s);
   ("pylon_cluster_publish_failed_total", λ s, show_uint ∘ publish_failed <$> ms_cluster s)].

(** The counters of the node by a label. *)
Definition labelled_metric_names : list (string * (string * string) * (MetricsSnapshot → option string)) :=
  [("pylon_rest_rate_limited_total", ("scope", "node"), λ s, Some (show_uint (rc_node (ms_rest_rate_limited s))));
   ("pylon_rest_rate_limited_total", ("scope", "app_events"),
     λ s, Some (show_uint (rc_app_events (ms_rest_rate_limited s))));
   ("pylon_rest_rate_limited_total", ("scope", "app_reads"),
     λ s, Some (show_uint (rc_app_reads (ms_rest_rate_limited s))));
   ("pylon_webhook_delivered_total", ("status", "ok"), λ s, show_uint ∘ wm_delivered_ok <$> ms_webhook s);
   ("pylon_webhook_delivered_total", ("status", "failed"), λ s, show_uint ∘ wm_delivered_failed <$> ms_webhook s)].

Ltac in_list := repeat first [apply list_elem_of_here | apply list_elem_of_further].

(** Which part of a snapshot a name belongs to. *)
Definition up_names : list string := ["pylon_up"; "pylon_app_store_up"; "pylon_rest_rate_limited_total"].
Definition percore_names : list string :=
  ["pylon_inflight_bytes_sum"; "pylon_worker_budget_bytes"; "pylon_budget_factor"] ++ worker_metric_names.*1.
Definition webhook_names : list string :=
  ["pylon_webhook_enqueued_total"; "pylon_webhook_dropped_total"; "pylon_webhook_delivered_total"].
Definition cluster_names : list string :=
  ["pylon_cluster_cmd_dropped_total"; "pylon_redis_connected"; "pylon_cluster_publish_failed_total"].

Lemma named_in s n :
  n ∈ fam_name <$> families s →
  n ∈ up_names ∨ n = "pylon_saturation_flag" ∧ ms_saturation s ≠ None ∨
  n ∈ app_metric_names.*1 ∧ btree_iter (ms_apps s) ≠ [] ∨ n ∈ percore_names ∧ ms_percore s ≠ None ∨
  n ∈ webhook_names ∧ ms_webhook s ≠ None ∨
  n = "pylon_webhook_queue_depth" ∧ ms_webhook s ≠ None ∧ ms_webhook_queue_depth s ≠ None ∨
  n ∈ cluster_names ∧ ms_cluster s ≠ None.
Proof.
  unfold families, node_families. rewrite !fmap_app, !elem_of_app. intros Hn. destruct_or! Hn.
  - left. clear -Hn. cbn in Hn. set_solver.
  - destruct (ms_saturation s); cbn in Hn; set_solver.
  - left. clear -Hn. cbn in Hn. set_solver.
  - unfold app_families in Hn. destruct (btree_iter (ms_apps s)); [by apply elem_of_nil in Hn|]. right; right; left. done.
  - destruct (ms_percore s) as [pc|]; [|by apply elem_of_nil in Hn]. right; right; right; left. split; [|done].
    clear -Hn. unfold percore_names, worker_metric_names. cbn in Hn |- *. set_solver.
  - destruct (ms_webhook s) as [wh|]; [|by apply elem_of_nil in Hn]. unfold webhook_families in Hn.
    rewrite fmap_app, elem_of_app in Hn. destruct Hn as [Hn|Hn]; [right; right; right; right; left; done|].
    destruct (ms_webhook_queue_depth s); [|by apply elem_of_nil in Hn]. apply list_elem_of_singleton in Hn.
    right; right; right; right; right; left. done.
  - destruct (ms_cluster s) as [cm|]; [|by apply elem_of_nil in Hn]. repeat right. done.
Qed.

(** A name none of the families has. *)
Ltac absent_name :=
  apply scrape_absent; intros Hn; apply named_in in Hn; destruct_or! Hn; destruct_and? Hn;
  first [done | congruence |
    match goal with H : ?n ∈ ?l |- False => apply (bool_decide_eq_true_2 (n ∈ l)) in H; vm_compute in H; discriminate H end].

Lemma scrape_app_metric s name f id :
  (name, f) ∈ app_metric_names →
  scrape (encode s) name [("app", id)] = (λ m, show_uint (f m)) <$> ms_apps s !! id.
Proof.
  intros Hin. destruct (btree_iter (ms_apps s)) as [|p l] eqn:E.
  - assert (ms_apps s !! id = None) as ->.
    { destruct (ms_apps s !! id) as [m|] eqn:Hm; [|done]. apply elem_of_btree_iter in Hm. rewrite E in Hm.
      by apply elem_of_nil in Hm. }
    apply list_elem_of_In in Hin. destruct Hin as [[= <- _]|[[= <- _]|[[= <- _]|[]]]]; absent_name.
  - assert (∀ help, app_series name help f (ms_apps s) ∈ app_families (ms_apps s) →
      scrape (encode s) name [("app", id)] = (λ m, show_uint (f m)) <$> ms_apps s !! id) as Hf.
    { intros help Hfam. rewrite <-assoc_apps, <-(assoc_label "app").
      apply (scrape_family s (app_series name help f (ms_apps s))). unfold families. rewrite !elem_of_app. auto. }
    unfold app_families in Hf. rewrite E in Hf.
    apply list_elem_of_In in Hin. destruct Hin as [[= <- <-]|[[= <- <-]|[[= <- <-]|[]]]]; eapply Hf; in_list.
Qed.

Lemma scrape_worker_metric s name f i :
  (name, f) ∈ worker_metric_names →
  scrape (encode s) name [("worker", show_uint (Z.of_nat i))] =
  (pc ← ms_percore s; show_uint <$> f pc !! i).
Proof.
  intros Hin. destruct (ms_percore s) as [pc|] eqn:E.
  - assert (∀ help kind, worker_series name help kind (f pc) ∈ percore_families pc →
      scrape (encode s) name [("worker", show_uint (Z.of_nat i))] = show_uint <$> f pc !! i) as Hf.
    { intros help kind Hfam. rewrite <-assoc_workers, <-(assoc_label "worker").
      apply (scrape_family s (worker_series name help kind (f pc))). unfold families. rewrite E, !elem_of_app. auto. }
    apply list_elem_of_In in Hin. cbn [mbind option_bind].
    repeat (destruct Hin as [[= <- <-]|Hin]; [eapply Hf; in_list|]). by destruct Hin.
  - apply list_elem_of_In in Hin. repeat (destruct Hin as [[= <- _]|Hin]; [absent_name|]). by destruct Hin.
Qed.

Lemma scrape_scalar s name help kind value :
  scalar name help kind value ∈ families s → scrape (encode s) name [] = Some value.
Proof. intros Hf. by rewrite (scrape_family s (scalar name help kind value)). Qed.

Ltac in_part :=
  lazymatch goal with
  | |- _ ∨ _ => first [left; in_part | right; in_part]
  | |- _ => solve [in_list]
  end.

Ltac in_families :=
  eapply scrape_scalar; unfold families, node_families, webhook_families;
  repeat match goal with H : ?x = _ |- context [match ?x with _ => _ end] => rewrite H end;
  rewrite !elem_of_app; in_part.

Lemma scrape_node_metric s name f : (name, f) ∈ node_metric_names → scrape (encode s) name [] = f s.
Proof.
  intros Hin. apply list_elem_of_In in Hin.
  repeat (destruct Hin as [[= <- <-]|Hin];
    [lazymatch goal with
     | |- _ = Some _ => in_families
     | |- _ = (ms_webhook s ≫= _) =>
         destruct (ms_webhook s) eqn:?; [destruct (ms_webhook_queue_depth s) eqn:?; [in_families|absent_name]|absent_name]
     | |- _ = (_ <$> ?x) => destruct x eqn:?; [in_families|absent_name]
     end|]).
  by destruct Hin.
Qed.

Lemma scrape_by_label s name help kind label l x :
  by_label name help kind label l ∈ families s →
  scrape (encode s) name [(label, x)] = snd <$> head (filter (λ p, p.1 = x) l).
Proof. intros Hf. rewrite <-(assoc_label label). exact (scrape_family s (by_label name help kind label l) _ Hf). Qed.

Lemma scrape_limited s scope :
  scrape (encode s) "pylon_rest_rate_limited_total" [("scope", scope)] =
  snd <$> head (filter (λ p, p.1 = scope)
    [("node", show_uint (rc_node (ms_rest_rate_limited s)));
     ("app_events", show_uint (rc_app_events (ms_rest_rate_limited s)));
     ("app_reads", show_uint (rc_app_reads (ms_rest_rate_limited s)))]).
Proof.
  eapply (scrape_by_label s _ "REST requests rejected with 429 by scope" "counter" "scope").
  unfold families, node_families. rewrite !elem_of_app. left. right. right. by apply list_elem_of_singleton.
Qed.

Lemma scrape_delivered s wh status :
  ms_webhook s = Some wh →
  scrape (encode s) "pylon_webhook_delivered_total" [("status", status)] =
  snd <$> head (filter (λ p, p.1 = status)
    [("ok", show_uint (wm_delivered_ok wh)); ("failed", show_uint (wm_delivered_failed wh))]).
Proof.
  intros Hwh. eapply (scrape_by_label s _ "Total webhook deliveries by outcome" "counter" "status").
  unfold families, webhook_families. rewrite Hwh, !elem_of_app. right. right. right. left. left.
  apply list_elem_of_further, list_elem_of_further. by apply list_elem_of_singleton.
Qed.

Lemma scrape_labelled_metric s name label f :
  (name, label, f) ∈ labelled_metric_names → scrape (encode s) name [label] = f s.
Proof.
  intros Hin. apply list_elem_of_In in Hin.
  destruct Hin as [[= <- <- <-]|[[= <- <- <-]|[[= <- <- <-]|Hin]]]; [by rewrite scrape_limited..|].
  destruct (ms_webhook s) as [wh|] eqn:Hwh.
  - destruct Hin as [[= <- <- <-]|[[= <- <- <-]|[]]]; by rewrite (scrape_delivered s wh), Hwh.
  - destruct Hin as [[= <- <- <-]|[[= <- <- <-]|[]]]; rewrite Hwh; absent_name.
Qed.

(** ** The endpoint *)

#[local] Instance u8_of_ascii_inj : Inj (=) (=) u8_of_ascii.
Proof.
  intros a b Hab. unfold u8_of_ascii in Hab. apply N2Z.inj in Hab.
  by rewrite <-(ascii_N_embedding a), Hab, ascii_N_embedding.
Qed.

Lemma as_bytes_inj s1 s2 : as_bytes s1 = as_bytes s2 → s1 = s2.
Proof.
  unfold as_bytes. intros Heq. apply (inj (fmap u8_of_ascii)) in Heq.
  rewrite <-(String.string_of_list_ascii_of_string s1), <-(String.string_of_list_ascii_of_string s2). by rewrite Heq.
Qed.

Lemma token_fold (p e : list Z) b n :
  foldl (λ eq i, eq && (default 0 (p !! i) =? default 0 (e !! i))%Z) b (seq 0 n) = true ↔
  b = true ∧ ∀ i, (i < n)%nat → default 0%Z (p !! i) = default 0%Z (e !! i).
Proof.
  induction n as [|n IH].
  - simpl. split; [|by intros [? _]]. intros ->. split; [done|]. intros i Hi. lia.
  - rewrite seq_S, foldl_app. cbn [foldl]. rewrite andb_true_iff, IH, Z.eqb_eq. simpl. split.
    + intros [[Hb Hall] Hn]. split; [done|]. intros i Hi. destruct (decide (i = n)) as [->|]; [done|]. apply Hall. lia.
    + intros [Hb Hall]. split_and!; [done| |apply Hall; lia]. intros i Hi. apply Hall. lia.
Qed.

(** The comparison without early exit is equality. *)
Lemma token_matches_iff presented expected : token_matches presented expected = true ↔ presented = expected.
Proof.
  unfold token_matches. rewrite token_fold, Nat.eqb_eq. split; [|by intros ->].
  intros [Hlen Hall]. apply as_bytes_inj, list_eq_same_length with (n := length (as_bytes expected)); [done..|].
  intros i x y Hi Hx Hy. specialize (Hall i ltac:(lia)). by rewrite Hx, Hy in Hall.
Qed.

Section endpoint.
Context `{SerdeJson, IdleCache, Adapter A}.

Lemma insert_all_lookup {X} (f : X → string * AppMetrics) l (m : gmap string AppMetrics) id :
  NoDup (fst ∘ f <$> l) →
  foldl (λ m x, <[(f x).1 := (f x).2]> m) m l !! id =
  match list_to_map (M := gmap string AppMetrics) (f <$> l) !! id with Some v => Some v | None => m !! id end.
Proof.
  revert m. induction l as [|x l IH]; intros m Hnd; [done|]. cbn [foldl fmap list_fmap]. simpl in Hnd.
  rewrite NoDup_cons in Hnd. destruct Hnd as [Hx Hnd]. rewrite IH by done. destruct (f x) as [k v] eqn:Hf.
  cbn [fst snd list_to_map foldr] in *. destruct (decide (k = id)) as [->|Hne].
  - rewrite !lookup_insert_eq. cbn. rewrite (not_elem_of_list_to_map_1 (f <$> l) id); [done|].
    by rewrite <-list_fmap_compose.
  - cbn. rewrite !lookup_insert_ne by done. done.
Qed.

(** An app is reported with its counter when it has one, and at zero when the
    store knows it. *)
Lemma collect_apps_lookup (s : AppState A) cc id :
  NoDup cc.*1 →
  collect_apps s cc !! id =
  match list_to_map (M := gmap string Z) cc !! id with
  | Some n => Some (app_metrics s id n)
  | None => if decide (id ∈ default [] (am_known_app_ids (as_apps s))) then Some (mkAppMetrics 0 0 0) else None
  end.
Proof.
  intros Hnd. unfold collect_apps. set (known := match am_known_app_ids _ with Some _ => _ | None => _ end).
  assert (known !! id = if decide (id ∈ default [] (am_known_app_ids (as_apps s))) then Some (mkAppMetrics 0 0 0) else None) as <-.
  { subst known. destruct (am_known_app_ids (as_apps s)) as [ids|]; [|done]. change (default [] (Some ids)) with ids.
    assert (∀ m : gmap string AppMetrics, foldl (λ m i, <[i := mkAppMetrics 0 0 0]> m) m ids !! id =
      if decide (id ∈ ids) then Some (mkAppMetrics 0 0 0) else m !! id) as ->; [|done].
    induction ids as [|i ids IH]; intros m; cbn [foldl]; [by rewrite decide_False by apply not_elem_of_nil|].
    rewrite IH. destruct (decide (id ∈ ids)); [by rewrite decide_True by (by right)|].
    destruct (decide (id = i)) as [->|Hne]; [rewrite decide_True by left; by rewrite lookup_insert_eq|].
    rewrite decide_False by (by intros [?|?]%elem_of_cons). by rewrite lookup_insert_ne. }
  etrans; [exact (insert_all_lookup (λ p : string * Z, (p.1, app_metrics s p.1 p.2)) cc known id Hnd)|].
  induction cc as [|[k n] cc IH]; [done|]. cbn [fmap list_fmap list_to_map foldr fst snd] in *.
  rewrite NoDup_cons in Hnd. destruct Hnd as [_ Hnd]. cbn. destruct (decide (k = id)) as [->|Hne].
  - by rewrite !lookup_insert_eq.
  - rewrite !lookup_insert_ne by done. by apply IH.
Qed.

(** C23. A scrape says what the node counts. The text of the metrics is well formed
    whatever the ids of the apps, no series appears twice, and a reader of the
    format finds: for an app its live connections, occupied channels and
    subscriptions, zero for an app the store knows that has none, nothing for any
    other; for a worker each of its counters; the counters of the node; the
    rejected REST requests by scope and the webhook deliveries by outcome. *)
Theorem scrape_reports_node (s : AppState A) (m : Monitored) (authorization : option string) :
  NoDup (mo_conn_counts m).*1 →
  (∀ expected, c_metrics_token (as_config s) = Some expected → bearer_token authorization = expected) →
  let response := get_metrics s m authorization in
  let text := rp_body response in
  let snapshot := metrics_snapshot s m in
  rp_status response = 200%Z ∧
  (∃ ls, parse_text text = Some ls ∧ NoDup (series ls)) ∧
  (∀ name f id, (name, f) ∈ app_metric_names →
     scrape text name [("app", id)] = (λ a, show_uint (f a)) <$>
       match list_to_map (M := gmap string Z) (mo_conn_counts m) !! id with
       | Some n => Some (app_metrics s id n)
       | None => if decide (id ∈ default [] (am_known_app_ids (as_apps s))) then Some (mkAppMetrics 0 0 0) else None
       end) ∧
  (∀ name f i, (name, f) ∈ worker_metric_names →
     scrape text name [("worker", show_uint (Z.of_nat i))] = (pc ← ms_percore snapshot; show_uint <$> f pc !! i)) ∧
  (∀ name f, (name, f) ∈ node_metric_names → scrape text name [] = f snapshot) ∧
  (∀ name label f, (name, label, f) ∈ labelled_metric_names → scrape text name [label] = f snapshot).
Proof.
  intros Hnd Hauth response text snapshot.
  assert (response = mkResponse 200 [("content-type", "text/plain; version=0.0.4")] (encode snapshot)) as Hr.
  { subst response. unfold get_metrics. destruct (c_metrics_token (as_config s)) as [expected|]; [|done].
    by rewrite (proj2 (token_matches_iff _ _) (Hauth expected eq_refl)). }
  assert (text = encode snapshot) as -> by (subst text; by rewrite Hr). split; [by rewrite Hr|]. split_and!.
  - exists (exposition (families snapshot)). split; [apply encode_parses|].
    apply series_distinct; [apply family_names_distinct|apply families_distinct].
  - intros name f id Hf. rewrite (scrape_app_metric snapshot name f id Hf). f_equal. by apply collect_apps_lookup.
  - intros name f i Hf. by apply scrape_worker_metric.
  - intros name f Hf. by apply scrape_node_metric.
  - intros name label f Hf. by apply scrape_labelled_metric.
Qed.

(** The gate hides the metrics: with a token configured, a [GET] that does not
    present exactly that token is answered as any path without a route is, and
    the token is compared in full whatever was presented. *)
Theorem metrics_hidden (s : AppState A) (m : Monitored) (authorization : option string) (expected path : string) :
  c_metrics_token (as_config s) = Some expected → route GET path = NotFound →
  (bearer_token authorization ≠ expected ↔
   probe GET "/metrics" authorization s m = probe GET path authorization s m).
Proof.
  intros Hc Hp. unfold probe. rewrite Hp. change (route GET "/metrics") with (Served RMetrics). unfold get_metrics. rewrite Hc.
  destruct (token_matches (bearer_token authorization) expected) eqn:Ht; cbn [negb].
  - apply token_matches_iff in Ht. split; [done|]. intros [=].
  - split; [done|]. intros _ Heq. apply token_matches_iff in Heq. congruence.
Qed.

(** Another method still tells them apart. *)
Lemma metrics_method_disclosed (s : AppState A) (m : Monitored) (authorization : option string) (path : string) :
  route POST path = NotFound →
  rp_status <$> probe POST "/metrics" authorization s m = Some 405%Z ∧
  rp_status <$> probe POST path authorization s m = Some 404%Z.
Proof. intros Hp. unfold probe. by rewrite Hp. Qed.

End endpoint.

(** ** The metrics of a concrete node *)

Import RestDemo.

Module MetricsDemo.

(** A node with a metrics token. *)
Definition config : ServerConfig :=
  match from_env (λ name, if decide (name = "PYLON_METRICS_TOKEN"%string) then Some "s3cret"%string else None) with
  | Ok c => c
  | Err _ => ServerConfig_default
  end.

(** An app whose id has to be escaped is known and idle. *)
Definition quoted : string := String "034" (String "010" "x").

Definition state : AppState LocalAdapter :=
  mkAppState config
    (mkAppManager (am_by_key RestDemo.apps) (am_by_id RestDemo.apps) (am_by_key_cached RestDemo.apps)
       (Some ["app"%string; quoted]))
    (adapter, env) true false (Some ClusterMetrics_new) (RestRateLimits_new config 0).

Definition monitored : Monitored :=
  mkMonitored [("app"%string, 7%Z)] (mkWebhookHandle [] false 5 1 16) 4 0
    (Some (mkPercoreRegistry [100; 20]%Z [0; 1] [3; 4]%Z [0; 0]%Z [0; 0]%Z [0; 0]%Z [0; 0]%Z [0; 0]%Z [0; 0]%Z 900 4096))
    true.

Definition presented : option string := Some "bearer s3cret"%string.

End MetricsDemo.

Lemma scrape_reports_node_witness :
  let text := rp_body (get_metrics MetricsDemo.state MetricsDemo.monitored MetricsDemo.presented) in
  scrape text "pylon_connections" [("app"%string, "app"%string)] = Some "7"%string ∧
  scrape text "pylon_connections" [("app"%string, MetricsDemo.quoted)] = Some "0"%string ∧
  scrape text "pylon_connections" [("app"%string, "other"%string)] = None ∧
  scrape text "pylon_inflight_bytes" [("worker"%string, "1"%string)] = Some "20"%string ∧
  scrape text "pylon_budget_factor" [] = Some "0.900"%string ∧
  scrape text "pylon_rest_rate_limited_total" [("scope"%string, "app_reads"%string)] = Some "0"%string.
Proof.
  destruct (scrape_reports_node MetricsDemo.state MetricsDemo.monitored MetricsDemo.presented)
    as (_ & _ & Happ & Hworker & Hnode & Hlabel).
  - apply NoDup_singleton.
  - intros expected He. vm_compute in He. injection He as <-. vm_compute. reflexivity.
  - split; [|split; [|split; [|split; [|split]]]].
    + rewrite (Happ _ am_connections) by left. vm_compute. reflexivity.
    + rewrite (Happ _ am_connections) by left. vm_compute. reflexivity.
    + rewrite (Happ _ am_connections) by left. vm_compute. reflexivity.
    + rewrite (Hworker _ pm_inflight 1%nat) by (right; left). vm_compute. reflexivity.
    + etrans; [eapply Hnode; do 5 right; left|]. vm_compute. reflexivity.
    + etrans; [eapply Hlabel; do 2 right; left|]. vm_compute. reflexivity.
Defined.

Lemma metrics_hidden_witness :
  probe GET "/metrics" (Some "Bearer guess"%string) MetricsDemo.state MetricsDemo.monitored =
  probe GET "/nope" (Some "Bearer guess"%string) MetricsDemo.state MetricsDemo.monitored.
Proof.
  apply (metrics_hidden MetricsDemo.state MetricsDemo.monitored (Some "Bearer guess"%string) "s3cret"%string "/nope"%string).
  - vm_compute. reflexivity.
  - vm_compute. reflexivity.
  - vm_compute. discriminate.
Defined.
