(* ===== verification/HandlerProps.v ===== *)
(** * Properties of the connection handler

    The handler's own record of a connection (its channels, its presence ids,
    its user) against the adapter's, over any history of commands interleaved
    with other connections; and what each command requires. *)

From S2P Require Import Prelude RustStd Json JsonDemo Protocol Kind Fanout Mailbox ChannelState.
From S2P Require Import Registry UserRegistry Adapter Auth App Webhook Rate Handler.

Section quiet.
Context `{SerdeJson, Crypto} {A : Type} `{AdapterLaws A}.

(** A step that moves none of the adapter's views. *)
Definition quiet (w w' : World A) : Prop :=
  (ad_inv (w_ad w).1 → ad_inv (w_ad w').1) ∧ same_view (w_ad w).1 (w_ad w').1.

#[export] Instance quiet_refl : Reflexive quiet.
Proof. intros w. by split. Qed.

#[export] Instance quiet_trans : Transitive quiet.
Proof. intros w1 w2 w3 [I1 V1] [I2 V2]. split; [auto|by etrans]. Qed.

Lemma send_self_quiet c ev w : quiet w (send_self c ev w).
Proof. unfold send_self. by destruct w as [[a e] h]; simpl. Qed.

Lemma emit_webhook_quiet ev w : quiet w (emit_webhook ev w).
Proof. by split. Qed.

Lemma broadcast_quiet app ch ev ex w : quiet w (broadcast_noting_drop app ch ev ex w).
Proof. apply law_broadcast. Qed.

Lemma send_each_quiet hs ev w : quiet w (send_each hs ev w).
Proof. unfold send_each. by destruct w as [[a e] h]; simpl. Qed.

Lemma notify_watchers_quiet c uid name w : quiet w (notify_watchers c uid name w).
Proof. unfold notify_watchers. case_bool_decide; [done|apply send_each_quiet]. Qed.

Lemma maybe_emit_count_quiet c ch n w : quiet w (maybe_emit_count c ch n w).
Proof.
  unfold maybe_emit_count. destruct (cx_clustered c); [done|]. case_decide; [done|].
  destruct (subscription_count_enabled _); [|done].
  destruct (_ && _); [|apply broadcast_quiet].
  etrans; [apply broadcast_quiet|apply emit_webhook_quiet].
Qed.

Lemma announce_leave_quiet c ch out w : quiet w (announce_leave c ch out w).
Proof.
  unfold announce_leave. etrans; [|apply maybe_emit_count_quiet].
  etrans; [|destruct (negb (cx_clustered c) && uo_vacated out && has_channel_vacated_webhooks (cx_app c));
            [apply emit_webhook_quiet|reflexivity]].
  destruct (negb (cx_clustered c)); [|done]. destruct (uo_presence out) as [l|]; [|done].
  destruct (pl_last_for_user l); [|done].
  destruct (has_member_removed_webhooks _); [|apply broadcast_quiet].
  etrans; [apply broadcast_quiet|apply emit_webhook_quiet].
Qed.

Lemma emit_occupied_quiet c ch b w : quiet w (emit_occupied_if_edge c ch b w).
Proof.
  unfold emit_occupied_if_edge. destruct (cx_clustered c); [done|].
  destruct (_ && _); [apply emit_webhook_quiet|done].
Qed.

Lemma announce_join_quiet c ch out w : quiet w (announce_join c ch out w).
Proof.
  unfold announce_join. destruct (so_presence out) as [j|]; [|done].
  destruct (negb (cx_clustered c)); [|done].
  destruct (pj_first_for_user j); [|apply send_self_quiet].
  etrans; [apply send_self_quiet|]. destruct (has_member_added_webhooks _); [|apply broadcast_quiet].
  etrans; [apply broadcast_quiet|apply emit_webhook_quiet].
Qed.

Lemma resend_quiet c ch w : quiet w (resend_subscription_succeeded c ch w).
Proof.
  unfold resend_subscription_succeeded. case_decide; [apply law_resend|apply send_self_quiet].
Qed.

Lemma replay_cache_quiet ch c w : quiet w (replay_cache ch c w).
Proof.
  unfold replay_cache. destruct (_ && _); [|done].
  destruct (ad_cache_get _ _ _); [apply send_self_quiet|].
  etrans; [|apply send_self_quiet].
  destruct (has_cache_miss_webhooks _); [apply emit_webhook_quiet|done].
Qed.

Lemma fail_signin_quiet c m w : quiet w (fail_signin c m w).
Proof. unfold fail_signin. etrans; apply send_self_quiet. Qed.

Lemma capped_watchlist_quiet c l w :
  quiet w (capped_watchlist c l w).2 ∧
  (capped_watchlist c l w).1 = take (max_watchlist_size (cx_limits c)) l.
Proof.
  unfold capped_watchlist. destruct (Nat.ltb_spec (max_watchlist_size (cx_limits c)) (length l));
    simpl; (split; [apply send_self_quiet || done|]); [done|]. by rewrite take_ge by lia.
Qed.

Lemma client_event_quiet ev ch data c w : quiet w (client_event ev ch data c w).2.
Proof.
  unfold client_event. repeat (destruct (negb _); simpl; [apply send_self_quiet|]).
  destruct (_ || _); [done|]. destruct (_ <? _); [apply send_self_quiet|].
  destruct (_ <? _); [apply send_self_quiet|]. destruct (is_saturated c w); [done|].
  destruct (check_at _ _) as [r ok]. destruct (negb ok); [apply send_self_quiet|]. simpl.
  destruct (has_client_event_webhooks _); [|apply broadcast_quiet].
  etrans; [apply broadcast_quiet|apply emit_webhook_quiet].
Qed.
End quiet.

#[export] Hint Resolve send_self_quiet emit_webhook_quiet broadcast_quiet notify_watchers_quiet
  maybe_emit_count_quiet announce_leave_quiet emit_occupied_quiet announce_join_quiet resend_quiet
  replay_cache_quiet fail_signin_quiet client_event_quiet : pylon.

Section sync.
Context `{SerdeJson, Crypto} {A : Type} `{AdapterLaws A}.

(** ** What a context and the adapter agree on *)

(** The evidence behind a membership of [ch] as [uid]: a subscription among the
    commands [hist] this connection sent, with a token of its own that verifies. *)
Definition authorised (hist : list ClientCommand) (c : ConnectionContext) (ch : string)
    (uid : option string) : Prop :=
  let verify := channel_verify (app_key (cx_app c)) (app_secret (cx_app c))
                  (SocketId.as_str (cx_socket_id c)) ch in
  validate_channel_name ch (max_channel_name_length (cx_limits c)) = true ∧
  ∃ auth data, Cmd.Subscribe ch auth data ∈ hist ∧
  match ci_auth (ChannelInfo_of ch) with
  | Public => uid = None
  | Private | PrivateEncrypted => uid = None ∧ ∃ token, auth = Some token ∧ verify None token = Ok tt
  | Presence =>
      ∃ token raw m, auth = Some token ∧ data = Some raw ∧ verify (Some raw) token = Ok tt ∧
        parse_channel_data raw = Ok m ∧ uid = Some (pm_user_id m)
  end.

Definition identified (hist : list ClientCommand) (c : ConnectionContext) (u : AuthenticatedUser)
    : Prop :=
  parse_user_data (au_user_data_raw u) = Ok u ∧
  ∃ token, Cmd.Signin token (au_user_data_raw u) ∈ hist ∧
    user_verify (app_key (cx_app c)) (app_secret (cx_app c))
      (SocketId.as_str (cx_socket_id c)) (au_user_data_raw u) token = Ok tt.

(** The users the context is due to watch. *)
Definition watched_by (c : ConnectionContext) : list string :=
  match cx_user c with
  | Some u =>
      if cap_watchlist (cx_capabilities c)
      then take (max_watchlist_size (cx_limits c)) (au_watchlist u) else []
  | None => []
  end.

(** Agreement after the commands [hist], while the refusals of the channels
    [pend] may still be unread in the mailbox and the channels [raced] were
    joined while theirs was. *)
Record sync (hist : list ClientCommand) (pend raced : gset string) (c : ConnectionContext)
    (w : World A) : Prop := {
  sy_inv : ad_inv (w_ad w).1;
  sy_sub : ∀ ch, ch ∉ pend → ch ∉ raced →
    ad_sub (w_ad w).1 (app_id (cx_app c)) ch (cx_socket_id c) =
    if decide (ch ∈ cx_subscribed c) then Some (cx_presence_membership c !! ch) else None;
  sy_refused : ∀ ch, ch ∈ pend → ch ∉ raced →
    ad_sub (w_ad w).1 (app_id (cx_app c)) ch (cx_socket_id c) = None;
  sy_member : ∀ ch uid, cx_presence_membership c !! ch = Some uid → ch ∈ cx_subscribed c;
  sy_auth : ∀ ch, ch ∈ cx_subscribed c → authorised hist c ch (cx_presence_membership c !! ch);
  sy_held : ∀ ch uid, ad_sub (w_ad w).1 (app_id (cx_app c)) ch (cx_socket_id c) = Some uid →
    authorised hist c ch uid;
  sy_signed : ∀ uid, ad_signed (w_ad w).1 (app_id (cx_app c)) uid (cx_socket_id c) =
    bool_decide (au_id <$> cx_user c = Some uid);
  sy_user : ∀ u, cx_user c = Some u → identified hist c u;
  sy_watch : ∀ uid, ad_watching (w_ad w).1 (app_id (cx_app c)) (cx_socket_id c) uid =
    bool_decide (uid ∈ watched_by c);
  sy_cap : max_subscriptions_per_connection (cx_limits c) ≠ 0 →
    size (cx_subscribed c) ≤ max_subscriptions_per_connection (cx_limits c)
}.

(** The parts of a context no command changes. *)
Definition same_identity (c c' : ConnectionContext) : Prop :=
  cx_app c' = cx_app c ∧ cx_socket_id c' = cx_socket_id c ∧ cx_limits c' = cx_limits c ∧
  cx_clustered c' = cx_clustered c ∧ cx_self_tx c' = cx_self_tx c ∧
  cx_capabilities c' = cx_capabilities c.

Lemma sync_quiet hist p r c w w' : sync hist p r c w → quiet w w' → sync hist p r c w'.
Proof.
  intros [Hi Hs Hr Hm Ha Hh Hsg Hu Hw Hc] [Hinv (V1 & V2 & V3)].
  split; try done; auto; intros *; rewrite ?V1, ?V2, ?V3; auto.
Qed.

Lemma sync_rate hist p r c rate w : sync hist p r c w → sync hist p r (set_rate rate c) w.
Proof. intros []. by split. Qed.

Lemma authorised_more hist hist' c c' ch uid :
  same_identity c c' → hist ⊆ hist' → authorised hist c ch uid → authorised hist' c' ch uid.
Proof.
  intros (Ha & Hs & Hl & _) Hh. unfold authorised. rewrite Ha, Hs, Hl.
  intros (Hv & auth & data & Hin & Hk). split; [done|]. exists auth, data. auto.
Qed.

Lemma identified_more hist hist' c c' u :
  same_identity c c' → hist ⊆ hist' → identified hist c u → identified hist' c' u.
Proof.
  intros (Ha & Hs & Hl & _) Hh. unfold identified. rewrite Ha, Hs.
  intros (Hp & token & Hin & Hv). split; [done|]. exists token. auto.
Qed.

Lemma sync_more hist cmd p r c w : sync hist p r c w → sync (hist ++ [cmd]) p r c w.
Proof.
  intros [Hi Hs Hr Hm Ha Hh Hsg Hu Hw Hc].
  assert (hist ⊆ hist ++ [cmd]) as Hsub by set_solver.
  assert (same_identity c c) as Hid by (by repeat split).
  split; try done; intros; eauto using authorised_more, identified_more.
Qed.

Lemma size_insert_subscribed (s : gset string) ch cap :
  ch ∉ s → negb (cap =? 0)%nat && (cap <=? size s)%nat = false → cap ≠ 0 →
  size ({[ch]} ∪ s) ≤ cap.
Proof.
  intros Hch Hcap Hne. rewrite size_union by set_solver. rewrite size_singleton.
  destruct (Nat.eqb_spec cap 0); [done|]. simpl in Hcap. apply Nat.leb_gt in Hcap. lia.
Qed.

(** What a successful check establishes. *)
Lemma vet_cap c ch auth data w p :
  vet c ch auth data w = Ok p →
  let cap := max_subscriptions_per_connection (cx_limits c) in
  negb (cap =? 0)%nat && (cap <=? size (cx_subscribed c))%nat = false.
Proof. unfold vet. by destruct (negb _ && _). Qed.

Lemma vet_private_ok c k ch auth :
  vet_private c k ch auth = Ok tt →
  ∃ token, auth = Some token ∧
    channel_verify (app_key (cx_app c)) (app_secret (cx_app c))
      (SocketId.as_str (cx_socket_id c)) ch None token = Ok tt.
Proof.
  unfold vet_private. destruct (_ && _); [done|]. destruct auth as [t|]; [|done].
  destruct (channel_verify _ _ _ _ _ _) as [[]|] eqn:Hv; [|done]. eauto.
Qed.

Lemma vet_presence_ok c ch auth data w m :
  vet_presence c ch auth data w = Ok m →
  ∃ token raw, auth = Some token ∧ data = Some raw ∧
    channel_verify (app_key (cx_app c)) (app_secret (cx_app c))
      (SocketId.as_str (cx_socket_id c)) ch (Some raw) token = Ok tt ∧
    parse_channel_data raw = Ok m.
Proof.
  unfold vet_presence. destruct (negb _); [done|]. destruct auth as [t|]; [|done].
  destruct data as [raw|]; [|done].
  destruct (channel_verify _ _ _ _ _ _) as [[]|] eqn:Hv; [|done].
  destruct (parse_channel_data raw) as [m'|] eqn:Hp; [|done].
  intros Hok. repeat (case_match; try done). simplify_eq. by exists t, raw.
Qed.

Definition membership_with (om : option PresenceMember) (ch : string) (pm : gmap string string)
    : gmap string string :=
  match om with Some m => <[ch := pm_user_id m]> pm | None => pm end.

(** The context after joining [ch]. *)
Definition joined (om : option PresenceMember) (ch : string) (c : ConnectionContext)
    : ConnectionContext :=
  set_presence_membership (membership_with om ch (cx_presence_membership c))
    (set_subscribed ({[ch]} ∪ cx_subscribed c) c).

Lemma membership_with_ne om ch ch' pm :
  ch' ≠ ch → membership_with om ch pm !! ch' = pm !! ch'.
Proof. intros Hne. destruct om; simpl; [|done]. by rewrite lookup_insert_ne. Qed.

Lemma membership_with_eq om ch pm :
  pm !! ch = None → membership_with om ch pm !! ch = pm_user_id <$> om.
Proof. intros Hn. destruct om; simpl; [|done]. by rewrite lookup_insert_eq. Qed.

Lemma not_member hist p r c w ch :
  sync hist p r c w → ch ∉ cx_subscribed c → cx_presence_membership c !! ch = None.
Proof.
  intros Hs Hch. destruct (cx_presence_membership c !! ch) as [uid|] eqn:Hm; [|done].
  by apply (sy_member _ _ _ _ _ Hs) in Hm.
Qed.

(** ** Refusals under way *)

(** The refusals a command may leave in the mailbox. *)
Definition pend_after (cmd : ClientCommand) (c' : ConnectionContext) (pend : gset string)
    : gset string :=
  match cmd with
  | Cmd.Subscribe ch _ _ => if decide (ch ∈ cx_subscribed c') then pend else {[ch]} ∪ pend
  | _ => pend
  end.

(** A join races the refusals of its channel that are still unread; one without
    such refusals settles the channel, as leaving it does. *)
Definition raced_join (ch : string) (pend raced : gset string) : gset string :=
  if decide (ch ∈ pend) then {[ch]} ∪ raced else raced ∖ {[ch]}.

Definition raced_after (cmd : ClientCommand) (c c' : ConnectionContext) (pend raced : gset string)
    : gset string :=
  match cmd with
  | Cmd.Subscribe ch _ _ =>
      if decide (ch ∈ cx_subscribed c) then raced
      else if decide (ch ∈ cx_subscribed c') then raced_join ch pend raced else raced
  | Cmd.Unsubscribe ch => if decide (ch ∈ cx_subscribed c) then raced ∖ {[ch]} else raced
  | _ => raced
  end.

Lemma raced_join_ne ch ch' p r : ch' ≠ ch → ch' ∈ raced_join ch p r ↔ ch' ∈ r.
Proof. intros Hne. unfold raced_join. case_decide; set_solver. Qed.

Lemma raced_join_eq ch p r : ch ∈ raced_join ch p r ↔ ch ∈ p.
Proof. unfold raced_join. case_decide; set_solver. Qed.

Lemma sync_join hist p r c w ch om ad out :
  sync hist p r c w → ch ∉ cx_subscribed c →
  ad_subscribe (app_id (cx_app c)) ch (conn_handle c) om (w_ad w) = (ad, out) →
  (let cap := max_subscriptions_per_connection (cx_limits c) in
   negb (cap =? 0)%nat && (cap <=? size (cx_subscribed c))%nat = false) →
  authorised hist c ch (pm_user_id <$> om) →
  sync hist p (raced_join ch p r) (joined om ch c) (set_ad ad w).
Proof.
  intros Hs Hch Had Hcap Hau. pose proof (not_member _ _ _ c w ch Hs Hch) as Hnm.
  pose proof (law_subscribe (app_id (cx_app c)) ch (conn_handle c) om (w_ad w)) as
    (Hinv & Hsub & Hsg & Hwt).
  rewrite Had in *. simpl in *. destruct Hs as [Hi Hs Hr Hm Ha Hh Hsd Hu Hw Hc].
  split; simpl; try done.
  - auto.
  - intros ch' Hp Hra. rewrite Hsub. destruct (decide (ch' = ch)) as [->|Hne].
    + rewrite !decide_True by set_solver. f_equal. by rewrite membership_with_eq.
    + rewrite raced_join_ne in Hra by done. rewrite Hs by done.
      rewrite membership_with_ne by done. rewrite decide_False by naive_solver.
      repeat case_decide; try done; set_solver.
  - intros ch' Hp Hra. rewrite Hsub. destruct (decide (ch' = ch)) as [->|Hne].
    + by rewrite raced_join_eq in Hra.
    + rewrite raced_join_ne in Hra by done. rewrite decide_False by naive_solver. auto.
  - intros ch' uid. destruct (decide (ch' = ch)) as [->|Hne]; [set_solver|].
    rewrite membership_with_ne by done. intros Hl%Hm. set_solver.
  - intros ch' [->%elem_of_singleton|Hin]%elem_of_union; [by rewrite membership_with_eq|].
    rewrite membership_with_ne by set_solver. by apply Ha.
  - intros ch' uid. rewrite Hsub. case_decide as Hd; [|apply Hh].
    destruct Hd as (_ & -> & _). by intros [= <-].
  - intros uid. rewrite Hsg. apply Hsd.
  - intros uid. rewrite Hwt. apply Hw.
  - intros Hne. by apply size_insert_subscribed.
Qed.

(** A check that allows a join provides the evidence. *)
Lemma vet_authorised hist c w ch auth data p om :
  Cmd.Subscribe ch auth data ∈ hist → vet c ch auth data w = Ok p →
  (p = JoinPlain ∧ om = None ∨ ∃ m, p = JoinAs m ∧ om = Some m) →
  authorised hist c ch (pm_user_id <$> om).
Proof.
  intros Hin Hvet Hp. unfold vet in Hvet. unfold authorised.
  destruct (negb _ && _); [done|]. destruct (is_saturated c w); [done|].
  destruct (Str.strip_prefix _ ch) as [uid|].
  { destruct (cx_user c) as [u|]; [case_bool_decide|]; naive_solver. }
  destruct (Str.starts_with "#" ch); [done|].
  destruct (validate_channel_name ch _); simpl in Hvet; [|done].
  destruct (ci_cache _ && _); [done|]. split; [done|]. exists auth, data. split; [done|].
  destruct (ci_auth (ChannelInfo_of ch)) eqn:Hk.
  - destruct Hp as [[_ ->]|(m & -> & _)]; [done|naive_solver].
  - destruct (vet_private c _ ch auth) as [[]|] eqn:Hv; [|done].
    apply vet_private_ok in Hv as (t & -> & Hv).
    destruct Hp as [[_ ->]|(m & -> & _)]; [|naive_solver]. eauto.
  - destruct (vet_presence c ch auth data w) as [m'|] eqn:Hv; [|done].
    apply vet_presence_ok in Hv as (t & raw & -> & -> & Hv & Hparse).
    destruct Hp as [[-> _]|(m & -> & ->)]; [done|]. simplify_eq. by exists t, raw, m.
  - destruct (vet_private c _ ch auth) as [[]|] eqn:Hv; [|done].
    apply vet_private_ok in Hv as (t & -> & Hv).
    destruct Hp as [[_ ->]|(m & -> & _)]; [|naive_solver]. eauto.
Qed.

Lemma join_plain_eq ch c w :
  ∃ ad out, ad_subscribe (app_id (cx_app c)) ch (conn_handle c) None (w_ad w) = (ad, out) ∧
    (join_plain ch c w).1 = joined None ch c ∧ quiet (set_ad ad w) (join_plain ch c w).2.
Proof.
  unfold join_plain. destruct (ad_subscribe _ _ _ _ _) as [ad out]. exists ad, out.
  split_and!; [done..|]. simpl. etrans; [apply send_self_quiet|].
  etrans; [apply maybe_emit_count_quiet|apply emit_occupied_quiet].
Qed.

Lemma join_presence_eq ch m c w :
  ∃ ad out, ad_subscribe (app_id (cx_app c)) ch (conn_handle c) (Some m) (w_ad w) = (ad, out) ∧
    (join_presence ch m c w).1 = joined (Some m) ch c ∧
    quiet (set_ad ad w) (join_presence ch m c w).2.
Proof.
  unfold join_presence. destruct (ad_subscribe _ _ _ _ _) as [ad out]. exists ad, out.
  split_and!; [done..|]. simpl. etrans; [apply announce_join_quiet|].
  etrans; [apply maybe_emit_count_quiet|apply emit_occupied_quiet].
Qed.

(** [subscribe], by its verdict. *)
Lemma subscribe_cases ch auth data c w :
  let r := subscribe ch auth data c w in
  (r.1 = c ∧ quiet w r.2) ∨
  (∃ p om ad out, (ch ∉ cx_subscribed c) ∧ vet c ch auth data w = Ok p ∧
     (p = JoinPlain ∧ om = None ∨ ∃ m, p = JoinAs m ∧ om = Some m) ∧
     ad_subscribe (app_id (cx_app c)) ch (conn_handle c) om (w_ad w) = (ad, out) ∧
     r.1 = joined om ch c ∧ quiet (set_ad ad w) r.2).
Proof.
  unfold subscribe. destruct (decide (ch ∈ cx_subscribed c)) as [Hin|Hch].
  { left. split; [done|apply resend_quiet]. }
  destruct (vet c ch auth data w) as [p|[[t m] st]] eqn:Hvet.
  2:{ left. split; [done|apply send_self_quiet]. }
  destruct p as [| |m].
  - left. split; [done|apply send_self_quiet].
  - right. destruct (join_plain_eq ch c w) as (ad & out & Had & Hc & Hq).
    destruct (join_plain ch c w) as [c' w']. simpl in *. exists JoinPlain, None, ad, out.
    split_and!; try done; [by left|]. etrans; [exact Hq|apply replay_cache_quiet].
  - right. destruct (join_presence_eq ch m c w) as (ad & out & Had & Hc & Hq).
    destruct (join_presence ch m c w) as [c' w']. simpl in *. exists (JoinAs m), (Some m), ad, out.
    split_and!; try done; [right; by exists m|]. etrans; [exact Hq|apply replay_cache_quiet].
Qed.

(** A refusal of a channel the connection is not in. *)
Lemma sync_refusal hist p r c w ch :
  sync hist p r c w → ch ∉ cx_subscribed c → sync hist ({[ch]} ∪ p) r c w.
Proof.
  intros [Hi Hs Hr Hm Ha Hh Hsg Hu Hw Hc] Hch. split; try done.
  - intros ch' Hp. apply Hs. set_solver.
  - intros ch' Hp Hra. destruct (decide (ch' ∈ p)); [auto|]. rewrite Hs by done.
    rewrite decide_False; [done|]. set_solver.
Qed.

Lemma subscribe_sync hist p r ch auth data c w :
  let cmd := Cmd.Subscribe ch auth data in
  let c' := (subscribe ch auth data c w).1 in
  sync hist p r c w →
  sync (hist ++ [cmd]) (pend_after cmd c' p) (raced_after cmd c c' p r) c'
    (subscribe ch auth data c w).2.
Proof.
  intros cmd c' Hs%(sync_more hist cmd).
  destruct (subscribe_cases ch auth data c w)
    as [[Hc Hq]|(pl & om & ad & out & Hch & Hv & Hp & Had & Hc & Hq)];
    unfold c'; rewrite Hc; simpl.
  - eapply sync_quiet; [|exact Hq]. destruct (decide (ch ∈ cx_subscribed c)); [done|].
    by apply sync_refusal.
  - eapply sync_quiet; [|exact Hq]. rewrite (decide_False (P := ch ∈ cx_subscribed c)) by done.
    rewrite !decide_True by set_solver.
    eapply sync_join; [done..|by eapply vet_cap|eapply vet_authorised; [|done..]]. set_solver.
Qed.

(** ** Leaving *)

Definition departed (ch : string) (c : ConnectionContext) : ConnectionContext :=
  set_presence_membership (delete ch (cx_presence_membership c))
    (set_subscribed (cx_subscribed c ∖ {[ch]}) c).

Lemma unsubscribe_cases ch c w :
  let r := unsubscribe ch c w in
  ((ch ∉ cx_subscribed c) ∧ r = (c, w)) ∨
  (∃ ad out, ch ∈ cx_subscribed c ∧
     ad_unsubscribe (app_id (cx_app c)) ch (cx_socket_id c) (w_ad w) = (ad, out) ∧
     r.1 = departed ch c ∧ quiet (set_ad ad w) r.2).
Proof.
  unfold unsubscribe. destruct (decide (ch ∈ cx_subscribed c)) as [Hin|Hch]; [right|by left].
  simpl. destruct (ad_unsubscribe _ _ _ _) as [ad out]. exists ad, out.
  split_and!; [done..|apply announce_leave_quiet].
Qed.

(** Steps of the rest of the node: anything but this socket's own entries,
    those of the channels [chs] excepted. *)
Definition others_but (chs : gset string) (c : ConnectionContext) (w w' : World A) : Prop :=
  let app := app_id (cx_app c) in
  let sid := cx_socket_id c in
  (ad_inv (w_ad w).1 → ad_inv (w_ad w').1) ∧
  (∀ ch, ch ∉ chs → ad_sub (w_ad w').1 app ch sid = ad_sub (w_ad w).1 app ch sid) ∧
  (∀ uid, ad_signed (w_ad w').1 app uid sid = ad_signed (w_ad w).1 app uid sid) ∧
  (∀ uid, ad_watching (w_ad w').1 app sid uid = ad_watching (w_ad w).1 app sid uid).

Lemma sync_others hist p r c w w' :
  sync hist p r c w → others_but ∅ c w w' → sync hist p r c w'.
Proof.
  intros [Hi Hs Hr Hm Ha Hh Hsd Hu Hw Hc] (Oi & Os & Og & Ow).
  split; auto; intros *; rewrite ?Os, ?Og, ?Ow by set_solver; auto.
Qed.

(** The adapter drops the connection from [ch]. *)
Lemma sync_dropped hist p r c w w' ch :
  sync hist p r c w → others_but {[ch]} c w w' →
  ad_sub (w_ad w').1 (app_id (cx_app c)) ch (cx_socket_id c) = None →
  sync hist ({[ch]} ∪ p) (r ∖ {[ch]}) c w'.
Proof.
  intros [Hi Hs Hr Hm Ha Hh Hsd Hu Hw Hc] (Oi & Os & Og & Ow) Hn. split; auto.
  - intros ch' Hp Hra. rewrite Os by set_solver. apply Hs; set_solver.
  - intros ch' Hp Hra. destruct (decide (ch' = ch)) as [->|Hne]; [done|].
    rewrite Os by set_solver. apply Hr; set_solver.
  - intros ch' uid. destruct (decide (ch' = ch)) as [->|Hne]; [congruence|].
    rewrite Os by set_solver. apply Hh.
  - intros uid. by rewrite Og.
  - intros uid. by rewrite Ow.
Qed.

(** The context forgets a channel that was refused. *)
Lemma sync_departed hist p p' r c w ch :
  sync hist p r c w → ch ∈ p → p ∖ {[ch]} ⊆ p' → p' ⊆ p → sync hist p' r (departed ch c) w.
Proof.
  intros [Hi Hs Hr Hm Ha Hh Hsd Hu Hw Hc] Hch Hp1 Hp2. split; simpl; try done.
  - intros ch' Hp Hra. destruct (decide (ch' = ch)) as [->|Hne].
    + rewrite decide_False by set_solver. by apply Hr.
    + rewrite lookup_delete_ne by done. rewrite Hs by set_solver.
      repeat case_decide; try done; set_solver.
  - intros ch' Hp Hra. apply Hr; set_solver.
  - intros ch' uid [Hne Hl%Hm]%lookup_delete_Some. set_solver.
  - intros ch' [Hin Hne]%elem_of_difference. rewrite lookup_delete_ne by set_solver. by apply Ha.
  - intros Hne. transitivity (size (cx_subscribed c)); [apply subseteq_size; set_solver|auto].
Qed.

Lemma unsubscribe_sync hist p r ch c w :
  sync hist p r c w →
  sync hist p (if decide (ch ∈ cx_subscribed c) then r ∖ {[ch]} else r)
    (unsubscribe ch c w).1 (unsubscribe ch c w).2.
Proof.
  intros Hs. destruct (unsubscribe_cases ch c w) as [[Hch ->]|(ad & out & Hin & Had & Hc & Hq)].
  { by rewrite decide_False. }
  rewrite Hc, decide_True by done. eapply sync_quiet; [|exact Hq].
  pose proof (law_unsubscribe (app_id (cx_app c)) ch (cx_socket_id c) (w_ad w)) as
    (Hinv & Hsub & Hsg & Hwt). rewrite Had in *. simpl in *.
  eapply sync_departed; [eapply (sync_dropped _ _ _ _ _ (set_ad ad w) ch Hs)|..].
  - split_and!; simpl; auto. intros ch' Hne. rewrite Hsub, decide_False; [done|]. set_solver.
  - simpl. by rewrite Hsub, decide_True.
  - set_solver.
  - destruct (decide (ch ∈ p)); set_solver.
  - set_solver.
Qed.

(** ** Signing in *)

Lemma signin_watch_cases c watched w :
  (watched = [] ∧ signin_watch c watched w = w) ∨
  ∃ ad online, ad_watch (app_id (cx_app c)) (conn_handle c) watched (w_ad w) = (ad, online) ∧
    quiet (set_ad ad w) (signin_watch c watched w).
Proof.
  unfold signin_watch. case_bool_decide as Hw; [by left|right].
  destruct (ad_watch _ _ _ _) as [ad online]. exists ad, online. split; [done|].
  destruct (_ && _); [apply send_self_quiet|done].
Qed.

(** [signin], by its verdict. *)
Lemma signin_cases auth data c w :
  let r := signin auth data c w in
  (r.1 = c ∧ quiet w r.2) ∨
  (∃ u ad out w1 watched, cx_user c = None ∧
     user_verify (app_key (cx_app c)) (app_secret (cx_app c))
       (SocketId.as_str (cx_socket_id c)) data auth = Ok tt ∧
     parse_user_data data = Ok u ∧
     ad_signin_user (app_id (cx_app c)) (au_id u) (conn_handle c) (w_ad w) = (ad, out) ∧
     quiet (set_ad ad w) w1 ∧
     watched = (if cap_watchlist (cx_capabilities c)
                then take (max_watchlist_size (cx_limits c)) (au_watchlist u) else []) ∧
     r = (set_user (Some u) c, signin_watch c watched w1)).
Proof.
  unfold signin. destruct (negb _); [left; split; [done|apply fail_signin_quiet]|].
  destruct (cx_user c) as [ex|] eqn:Hu.
  { left. case_bool_decide; (split; [done|]); [apply send_self_quiet|apply fail_signin_quiet]. }
  destruct (user_verify _ _ _ _ _) as [[]|] eqn:Hv;
    [|left; split; [done|apply fail_signin_quiet]].
  destruct (parse_user_data data) as [u|] eqn:Hp;
    [|left; split; [done|apply fail_signin_quiet]].
  destruct (ad_signin_user _ _ _ _) as [ad out] eqn:Had. right.
  set (w2 := if negb (cx_clustered c) && uj_first_for_user out then _ else _).
  assert (quiet (set_ad ad w) w2) as Hq2.
  { unfold w2. destruct (_ && _); [|apply send_self_quiet].
    etrans; [apply send_self_quiet|apply notify_watchers_quiet]. }
  destruct (capped_watchlist_quiet c (au_watchlist u) w2) as [Hq3 Hl].
  destruct (cap_watchlist (cx_capabilities c)).
  - destruct (capped_watchlist c (au_watchlist u) w2) as [l w3]. simpl in *.
    exists u, ad, out, w3, l. split_and!; try done. by etrans.
  - exists u, ad, out, w2, []. by split_and!.
Qed.

Lemma parse_user_data_raw raw u : parse_user_data raw = Ok u → au_user_data_raw u = raw.
Proof.
  unfold parse_user_data. destruct (from_str raw) as [v|]; [|done].
  destruct (get v "id") as [[]|]; try done. destruct (Str.is_empty _); [done|].
  by intros [= <-].
Qed.

Lemma signin_sync hist p r auth data c w :
  sync hist p r c w →
  sync (hist ++ [Cmd.Signin auth data]) p r (signin auth data c w).1 (signin auth data c w).2.
Proof.
  intros Hs%(sync_more _ (Cmd.Signin auth data)). destruct (signin_cases auth data c w)
    as [[Hc Hq]|(u & ad & out & w1 & watched & Hu & Hv & Hp & Had & Hq & Hwd & Hr)].
  { rewrite Hc. by eapply sync_quiet. }
  rewrite Hr. simpl. pose proof (parse_user_data_raw _ _ Hp) as Hraw.
  pose proof (law_signin (app_id (cx_app c)) (au_id u) (conn_handle c) (w_ad w)) as
    (Hinv & Hsub & Hsg & Hwt).
  rewrite Had in *. simpl in *. set (hist' := hist ++ _) in *.
  assert (identified hist' c u) as Hid.
  { split; rewrite Hraw; [done|]. exists auth. split; [set_solver|done]. }
  destruct Hs as [Hi Hs Hre Hm Ha Hh Hsd Hus Hw Hc]. destruct Hq as [Hi1 (V1 & V2 & V3)]. simpl in *.
  assert (∀ w', ad_inv (w_ad w').1 →
    (∀ app ch sid, ad_sub (w_ad w').1 app ch sid = ad_sub (w_ad w1).1 app ch sid) →
    (∀ app uid sid, ad_signed (w_ad w').1 app uid sid = ad_signed (w_ad w1).1 app uid sid) →
    (∀ uid, ad_watching (w_ad w').1 (app_id (cx_app c)) (cx_socket_id c) uid =
       bool_decide (uid ∈ watched)) → sync hist' p r (set_user (Some u) c) w') as Hfin.
  { intros w' Wi Ws Wg Ww. split; simpl; try done.
    - intros ch Hp' Hra. by rewrite Ws, V1, Hsub, Hs.
    - intros ch Hp' Hra. rewrite Ws, V1, Hsub. auto.
    - intros ch uid. rewrite Ws, V1, Hsub. apply Hh.
    - intros uid. rewrite Wg, V2, Hsg, Hsd, Hu. simpl. rewrite orb_false_r.
      apply bool_decide_ext. naive_solver.
    - by intros ? [= <-].
    - intros uid. rewrite Ww. unfold watched_by. simpl. by rewrite Hwd. }
  destruct (signin_watch_cases c watched w1) as [[Hnil ->]|(ad2 & online & Had2 & Hq2)].
  { apply Hfin; auto. intros uid. rewrite V3, Hwt, Hw, Hnil. unfold watched_by. by rewrite Hu. }
  pose proof (law_watch (app_id (cx_app c)) (conn_handle c) watched (w_ad w1)) as Hlaw.
  rewrite Had2 in Hlaw. simpl in Hlaw. destruct Hlaw as (Li & Ls & Lg & Lw); [auto|].
  eapply sync_quiet; [|exact Hq2]. apply Hfin; simpl; auto.
  intros uid. by rewrite Lw, decide_True.
Qed.

(** ** Histories *)

Lemma client_event_context ev ch data c w :
  ∃ r, (client_event ev ch data c w).1 = set_rate r c.
Proof.
  unfold client_event. assert (∃ r, c = set_rate r c) as Hid.
  { exists (cx_client_event_rate c). by destruct c. }
  do 2 (destruct (negb _); simpl; [done|]). destruct (_ || _); [done|].
  destruct (_ <? _); [done|]. destruct (_ <? _); [done|]. destruct (is_saturated c w); [done|].
  destruct (check_at _ _) as [r ok]. destruct (negb ok); by exists r.
Qed.

Lemma dispatch_sync hist p r cmd c w :
  let c' := (dispatch cmd c w).1 in
  sync hist p r c w →
  sync (hist ++ [cmd]) (pend_after cmd c' p) (raced_after cmd c c' p r) c' (dispatch cmd c w).2.
Proof.
  intros c' Hs. unfold c'. destruct cmd as [|ch auth data|ch|ev ch data|auth data|ev]; simpl.
  - eapply sync_quiet; [by apply sync_more|apply send_self_quiet].
  - by apply subscribe_sync.
  - by apply unsubscribe_sync, sync_more.
  - destruct (client_event_context ev ch data c w) as [rate ->].
    eapply sync_quiet; [by apply sync_rate, sync_more|apply client_event_quiet].
  - by apply signin_sync.
  - by apply sync_more.
Qed.

(** The adapter knows nothing of the socket yet. *)
Definition fresh (c : ConnectionContext) (w : World A) : Prop :=
  ad_inv (w_ad w).1 ∧ cx_subscribed c = ∅ ∧ cx_user c = None ∧ cx_presence_membership c = ∅ ∧
  (∀ ch, ad_sub (w_ad w).1 (app_id (cx_app c)) ch (cx_socket_id c) = None) ∧
  (∀ uid, ad_signed (w_ad w).1 (app_id (cx_app c)) uid (cx_socket_id c) = false) ∧
  (∀ uid, ad_watching (w_ad w).1 (app_id (cx_app c)) (cx_socket_id c) uid = false).

(** The life of a connection: its commands, in any interleaving with
    - steps of the rest of the node, which leave its entries alone;
    - refusals by the cluster bridge, which undoes the local join and writes to
      the mailbox (the reject arm of [handle_presence_subscribe] in [Bridge]);
    - refusals read from the mailbox by [drain_session], which takes the channel
      out of the context ([Inbound]); the handler's own refusals are read the
      same way. Further refusals of the channel may be unread after that. *)
Inductive lives : list ClientCommand → gset string → gset string → ConnectionContext → World A → Prop :=
| lives_fresh c w : fresh c w → lives [] ∅ ∅ c w
| lives_dispatch hist pend raced c w cmd :
    lives hist pend raced c w →
    let c' := (dispatch cmd c w).1 in
    lives (hist ++ [cmd]) (pend_after cmd c' pend) (raced_after cmd c c' pend raced) c'
      (dispatch cmd c w).2
| lives_others hist pend raced c w w' :
    lives hist pend raced c w → others_but ∅ c w w' → lives hist pend raced c w'
| lives_refused hist pend raced c w w' ch :
    lives hist pend raced c w → others_but {[ch]} c w w' →
    ad_sub (w_ad w').1 (app_id (cx_app c)) ch (cx_socket_id c) = None →
    lives hist ({[ch]} ∪ pend) (raced ∖ {[ch]}) c w'
| lives_drained hist pend pend' raced c w ch :
    lives hist pend raced c w → ch ∈ pend → pend ∖ {[ch]} ⊆ pend' → pend' ⊆ pend →
    lives hist pend' raced (departed ch c) w.

Lemma lives_step hist pend raced c w cmd pend' raced' :
  lives hist pend raced c w →
  pend' = pend_after cmd (dispatch cmd c w).1 pend →
  raced' = raced_after cmd c (dispatch cmd c w).1 pend raced →
  lives (hist ++ [cmd]) pend' raced' (dispatch cmd c w).1 (dispatch cmd c w).2.
Proof. intros Hl -> ->. by apply lives_dispatch. Qed.

Lemma fresh_sync c w : fresh c w → sync [] ∅ ∅ c w.
Proof.
  intros (Hi & Hs & Hu & Hm & Hsub & Hsg & Hw).
  split; rewrite ?Hs, ?Hu, ?Hm; try done.
  - intros ch uid. by rewrite Hsub.
  - intros uid. unfold watched_by. by rewrite Hw, Hu.
  - rewrite size_empty. lia.
Qed.

Lemma lives_sync hist p r c w : lives hist p r c w → sync hist p r c w.
Proof.
  induction 1.
  - by apply fresh_sync.
  - by apply dispatch_sync.
  - by eapply sync_others.
  - by eapply sync_dropped.
  - by eapply sync_departed.
Qed.

(** ** Closing *)

Lemma unsubscribe_context ch c w :
  cx_subscribed (unsubscribe ch c w).1 = cx_subscribed c ∖ {[ch]} ∧
  cx_user (unsubscribe ch c w).1 = cx_user c ∧
  same_identity c (unsubscribe ch c w).1.
Proof.
  destruct (unsubscribe_cases ch c w) as [[Hch ->]|(ad & out & Hin & Had & -> & Hq)].
  - split_and!; [set_solver|done|by repeat split].
  - split_and!; [done..|by repeat split].
Qed.

Lemma dispatch_joins hist p r cmd c w ch :
  sync hist p r c w →
  ch ∈ cx_subscribed (dispatch cmd c w).1 → ch ∉ cx_subscribed c →
  authorised [cmd] c ch (cx_presence_membership (dispatch cmd c w).1 !! ch).
Proof.
  intros Hs. destruct cmd as [|ch' auth data|ch'|ev ch' data|auth data|ev]; simpl; try done.
  - destruct (subscribe_cases ch' auth data c w)
      as [[Hc Hq]|(pl & om & ad & out & Hch & Hv & Hp & Had & Hc & Hq)]; rewrite Hc; [done|].
    intros [->%elem_of_singleton|Hin]%elem_of_union Hn; [|done].
    simpl. rewrite membership_with_eq by (by eapply not_member).
    eapply vet_authorised; [|done..]. set_solver.
  - destruct (unsubscribe_context ch' c w) as (-> & _). set_solver.
  - by destruct (client_event_context ev ch' data c w) as [rate ->].
  - destruct (signin_cases auth data c w)
      as [[-> _]|(u & ad & out & w1 & watched & _ & _ & _ & _ & _ & _ & ->)]; done.
Qed.

Lemma dispatch_signs_in cmd c w u :
  cx_user (dispatch cmd c w).1 = Some u → cx_user c = None → identified [cmd] c u.
Proof.
  intros Hu' Hu. destruct cmd as [|ch' auth data|ch'|ev ch' data|auth data|ev]; simpl in Hu'.
  - congruence.
  - destruct (subscribe_cases ch' auth data c w)
      as [[Hc Hq]|(pl & om & ad & out & Hch & Hv & Hp & Had & Hc & Hq)]; rewrite Hc in Hu';
      simpl in Hu'; congruence.
  - destruct (unsubscribe_context ch' c w) as (_ & Hc & _). congruence.
  - destruct (client_event_context ev ch' data c w) as [rate Hc]. rewrite Hc in Hu'. simpl in Hu'. congruence.
  - destruct (signin_cases auth data c w)
      as [[Hc _]|(u' & ad & out & w1 & watched & _ & Hv & Hp & _ & _ & _ & Hr)]; [congruence|].
    rewrite Hr in Hu'. simpl in Hu'. injection Hu' as <-. pose proof (parse_user_data_raw _ _ Hp) as Hraw.
    split; rewrite Hraw; [done|]. exists auth. split; [set_solver|done].
  - congruence.
Qed.

Lemma unsubscribe_all_spec hist p l c w :
  sync hist p ∅ c w →
  let r := unsubscribe_all l c w in
  sync hist p ∅ r.1 r.2 ∧ cx_subscribed r.1 = cx_subscribed c ∖ list_to_set l ∧
  cx_user r.1 = cx_user c ∧ same_identity c r.1.
Proof.
  unfold unsubscribe_all. revert c w. induction l as [|ch l IH]; intros c w Hs; simpl.
  { split_and!; [done|set_solver|done|by repeat split]. }
  pose proof (unsubscribe_sync hist p ∅ ch c w Hs) as Hs1.
  replace (if decide (ch ∈ cx_subscribed c) then ∅ ∖ {[ch]} else ∅) with (∅ : gset string) in Hs1
    by (case_decide; set_solver).
  destruct (unsubscribe_context ch c w) as (Hsub & Hu & Hid).
  destruct (unsubscribe ch c w) as [c1 w1]. simpl in *.
  destruct (IH c1 w1 Hs1) as (Hs2 & Hsub2 & Hu2 & Hid2).
  split_and!; [done|rewrite Hsub2, Hsub; set_solver|congruence|].
  unfold same_identity in *. destruct_and!. split_and!; congruence.
Qed.

Lemma signout_all hist p c w :
  sync hist p ∅ c w → cx_subscribed c = ∅ →
  let r := match cx_user c with
    | Some user =>
        let c := set_user None c in
        let '(ad, outcome) :=
          ad_signout_user (app_id (cx_app c)) (au_id user) (cx_socket_id c) (w_ad w) in
        let w := set_ad ad w in
        (c, if negb (cx_clustered c) && ul_last_for_user outcome
            then notify_watchers c (au_id user) "offline" w else w)
    | None => (c, w)
    end in
  r.1 = set_user None c ∧ ad_inv (w_ad r.2).1 ∧
  (∀ ch, ad_sub (w_ad r.2).1 (app_id (cx_app c)) ch (cx_socket_id c) = None) ∧
  (∀ uid, ad_signed (w_ad r.2).1 (app_id (cx_app c)) uid (cx_socket_id c) = false).
Proof.
  intros [Hi Hs Hr _ _ _ Hsd _ _ _] He.
  assert (∀ ch, ad_sub (w_ad w).1 (app_id (cx_app c)) ch (cx_socket_id c) = None) as Hnone.
  { intros ch. destruct (decide (ch ∈ p)); [by apply Hr|]. rewrite Hs by set_solver.
    rewrite decide_False; [done|]. rewrite He. set_solver. }
  destruct (cx_user c) as [u|] eqn:Hu; simpl.
  2:{ split_and!; [by destruct c; simpl in *; subst|done|done|]. intros uid. by rewrite Hsd. }
  pose proof (law_signout (app_id (cx_app c)) (au_id u) (cx_socket_id c) (w_ad w)) as
    (Li & Ls & Lg & _).
  destruct (ad_signout_user _ _ _ _) as [ad out]. simpl in *.
  assert (∀ w', quiet (set_ad ad w) w' → ad_inv (w_ad w').1 ∧
    (∀ ch, ad_sub (w_ad w').1 (app_id (cx_app c)) ch (cx_socket_id c) = None) ∧
    (∀ uid, ad_signed (w_ad w').1 (app_id (cx_app c)) uid (cx_socket_id c) = false)) as Hq.
  { intros w' [Qi (Q1 & Q2 & _)]. simpl in *. split_and!; [auto|..].
    - intros ch. by rewrite Q1, Ls.
    - intros uid. rewrite Q2, Lg, Hsd. simpl. repeat case_bool_decide; naive_solver. }
  split; [done|]. destruct (_ && _); apply Hq; [apply notify_watchers_quiet|done].
Qed.

Lemma on_close_spec hist p c w :
  sync hist p ∅ c w →
  let r := on_close c w in
  fresh r.1 r.2 ∧ same_identity c r.1.
Proof.
  intros Hs. unfold on_close.
  destruct (unsubscribe_all_spec hist p (elements (cx_subscribed c)) c w Hs) as (Hs1 & Hsub & Hu & Hid).
  destruct (unsubscribe_all _ c w) as [c1 w1]. simpl in *.
  assert (cx_subscribed c1 = ∅) as He by (rewrite Hsub; set_solver).
  assert (cx_presence_membership c1 = ∅) as Hpm.
  { apply map_empty. intros ch. apply (not_member _ _ _ c1 w1 ch Hs1). rewrite He. set_solver. }
  destruct (signout_all hist p c1 w1 Hs1 He) as (Hc2 & Hi2 & Hsub2 & Hsg2).
  destruct (match cx_user c1 with Some _ => _ | None => _ end) as [c2 w2] eqn:Hm.
  simpl in *. subst c2.
  pose proof (law_unwatch (app_id (cx_app c1)) (cx_socket_id c1) (w_ad w2) Hi2) as
    (Li & Ls & Lg & Lw). simpl in *.
  split; [|exact Hid]. split_and!; try done.
  - intros ch. by rewrite Ls.
  - intros uid. by rewrite Lg.
  - intros uid. rewrite Lw, bool_decide_eq_true_2; done.
Qed.

(** ** Other sockets *)

Definition untouched (c : ConnectionContext) (w w' : World A) : Prop :=
  ∀ app sid, ¬ (app = app_id (cx_app c) ∧ sid = cx_socket_id c) →
  (∀ ch, ad_sub (w_ad w').1 app ch sid = ad_sub (w_ad w).1 app ch sid) ∧
  (∀ uid, ad_signed (w_ad w').1 app uid sid = ad_signed (w_ad w).1 app uid sid) ∧
  (∀ uid, ad_watching (w_ad w').1 app sid uid = ad_watching (w_ad w).1 app sid uid).

Lemma untouched_quiet c w w' : quiet w w' → untouched c w w'.
Proof. by intros [_ (V1 & V2 & V3)] app sid _. Qed.

Lemma untouched_trans c c' w1 w2 w3 :
  same_identity c c' → untouched c w1 w2 → untouched c' w2 w3 → untouched c w1 w3.
Proof.
  intros (Ha & Hs & _) U1 U2 app sid Hne. rewrite <-Ha, <-Hs in Hne.
  destruct (U2 app sid Hne) as (B1 & B2 & B3). rewrite Ha, Hs in Hne.
  destruct (U1 app sid Hne) as (A1 & A2 & A3).
  split_and!; intros; congruence.
Qed.

Lemma same_identity_refl c : same_identity c c.
Proof. by repeat split. Qed.

Lemma subscribe_untouched ch auth data c w : untouched c w (subscribe ch auth data c w).2.
Proof.
  destruct (subscribe_cases ch auth data c w)
    as [[_ Hq]|(p & om & ad & out & _ & _ & _ & Had & _ & Hq)]; [by apply untouched_quiet|].
  eapply (untouched_trans c c); [apply same_identity_refl| |by apply untouched_quiet].
  pose proof (law_subscribe (app_id (cx_app c)) ch (conn_handle c) om (w_ad w)) as (_ & L1 & L2 & L3).
  rewrite Had in *. simpl in *. intros app sid Hne. split_and!; intros; simpl; auto.
  rewrite L1, decide_False by naive_solver. done.
Qed.

Lemma unsubscribe_untouched ch c w : untouched c w (unsubscribe ch c w).2.
Proof.
  destruct (unsubscribe_cases ch c w) as [[_ ->]|(ad & out & _ & Had & _ & Hq)]; [done|].
  eapply (untouched_trans c c); [apply same_identity_refl| |by apply untouched_quiet].
  pose proof (law_unsubscribe (app_id (cx_app c)) ch (cx_socket_id c) (w_ad w)) as (_ & L1 & L2 & L3).
  rewrite Had in *. simpl in *. intros app sid Hne. split_and!; intros; simpl; auto.
  rewrite L1, decide_False by naive_solver. done.
Qed.

Lemma signin_untouched auth data c w :
  ad_inv (w_ad w).1 → untouched c w (signin auth data c w).2.
Proof.
  intros Hi. destruct (signin_cases auth data c w)
    as [[_ Hq]|(u & ad & out & w1 & watched & _ & _ & _ & Had & Hq & _ & ->)];
    [by apply untouched_quiet|]. simpl.
  pose proof (law_signin (app_id (cx_app c)) (au_id u) (conn_handle c) (w_ad w)) as
    (Li & L1 & L2 & L3). rewrite Had in *. simpl in *.
  assert (untouched c w w1) as U1.
  { eapply (untouched_trans c c); [apply same_identity_refl| |by apply untouched_quiet].
    intros app sid Hne. split_and!; intros; simpl; auto.
    rewrite L2, bool_decide_eq_false_2 by naive_solver. done. }
  destruct (signin_watch_cases c watched w1) as [[_ ->]|(ad2 & online & Had2 & Hq2)]; [done|].
  eapply (untouched_trans c c); [apply same_identity_refl|exact U1|].
  eapply (untouched_trans c c); [apply same_identity_refl| |by apply untouched_quiet].
  pose proof (law_watch (app_id (cx_app c)) (conn_handle c) watched (w_ad w1)) as Hl.
  rewrite Had2 in Hl. simpl in Hl. destruct Hl as (_ & M1 & M2 & M3); [apply Hq, Li, Hi|].
  intros app sid Hne. split_and!; intros; simpl; auto.
  rewrite M3, decide_False by naive_solver. done.
Qed.

Lemma dispatch_untouched cmd c w :
  ad_inv (w_ad w).1 → untouched c w (dispatch cmd c w).2.
Proof.
  intros Hi. destruct cmd as [|ch auth data|ch|ev ch data|auth data|ev]; simpl.
  - apply untouched_quiet, send_self_quiet.
  - apply subscribe_untouched.
  - apply unsubscribe_untouched.
  - apply untouched_quiet, client_event_quiet.
  - by apply signin_untouched.
  - done.
Qed.

Lemma unsubscribe_all_untouched l c w : untouched c w (unsubscribe_all l c w).2.
Proof.
  unfold unsubscribe_all. revert c w. induction l as [|ch l IH]; intros c w; simpl; [done|].
  pose proof (unsubscribe_untouched ch c w) as U1.
  destruct (unsubscribe_context ch c w) as (_ & _ & Hid).
  destruct (unsubscribe ch c w) as [c1 w1]. simpl in *. eapply untouched_trans; [done..|apply IH].
Qed.

Lemma signout_untouched c u w ad out w' :
  ad_signout_user (app_id (cx_app c)) (au_id u) (cx_socket_id c) (w_ad w) = (ad, out) →
  quiet (set_ad ad w) w' → untouched c w w'.
Proof.
  intros Had Hq. eapply (untouched_trans c c);
    [apply same_identity_refl| |by apply untouched_quiet].
  pose proof (law_signout (app_id (cx_app c)) (au_id u) (cx_socket_id c) (w_ad w)) as
    (_ & L1 & L2 & L3). rewrite Had in *. simpl in *.
  intros app sid Hne. split_and!; intros; simpl; auto.
  rewrite L2, bool_decide_eq_false_2 by naive_solver. done.
Qed.

Lemma on_close_untouched hist p c w : sync hist p ∅ c w → untouched c w (on_close c w).2.
Proof.
  intros Hs. unfold on_close.
  destruct (unsubscribe_all_spec hist p (elements (cx_subscribed c)) c w Hs) as (Hs1 & Hsub & _ & Hid).
  pose proof (unsubscribe_all_untouched (elements (cx_subscribed c)) c w) as U1.
  destruct (unsubscribe_all _ c w) as [c1 w1]. simpl in *.
  assert (cx_subscribed c1 = ∅) as He by (rewrite Hsub; set_solver).
  destruct (signout_all hist p c1 w1 Hs1 He) as (Hc2 & Hi2 & _ & _).
  destruct (match cx_user c1 with Some _ => _ | None => _ end) as [c2 w2] eqn:Hm.
  simpl in *. subst c2. assert (untouched c1 w1 w2) as U2.
  { destruct (cx_user c1) as [u|]; [|by injection Hm as _ <-].
    destruct (ad_signout_user _ _ _ _) as [ad out] eqn:Had. injection Hm as <-.
    eapply signout_untouched; [exact Had|]. destruct (_ && _); [apply notify_watchers_quiet|done]. }
  eapply untouched_trans; [exact Hid|exact U1|]. eapply (untouched_trans c1 c1);
    [apply same_identity_refl|exact U2|].
  pose proof (law_unwatch (app_id (cx_app c1)) (cx_socket_id c1) (w_ad w2) Hi2) as (_ & L1 & L2 & L3).
  intros app sid Hne. split_and!; intros; simpl in *; auto.
  rewrite L3, bool_decide_eq_false_2 by done. done.
Qed.

(** ** Properties *)


(** C2. Nobody is anywhere without evidence of its own: in every reachable state
    each channel the adapter has a connection in, and each one its context
    records, has a valid name and was asked for by a command of this connection
    which, unless the channel is public, carried a token that verifies for this
    socket and channel, a presence member id being the one in the channel data
    of that command; the signed-in user is the parse of user data this
    connection sent with a token that verifies for this socket. And a command
    that makes the connection a member of a channel is itself such a command. *)
Theorem joined_channels_authorised (hist : list ClientCommand) (pend raced : gset string)
    (c : ConnectionContext) (w : World A) (cmd : ClientCommand) :
  lives hist pend raced c w →
  (∀ ch uid, ad_sub (w_ad w).1 (app_id (cx_app c)) ch (cx_socket_id c) = Some uid →
     authorised hist c ch uid) ∧
  (∀ ch, ch ∈ cx_subscribed c → authorised hist c ch (cx_presence_membership c !! ch)) ∧
  (∀ u, cx_user c = Some u → identified hist c u) ∧
  let c' := (dispatch cmd c w).1 in
  (∀ ch, ch ∈ cx_subscribed c' → ch ∉ cx_subscribed c →
     authorised [cmd] c ch (cx_presence_membership c' !! ch)) ∧
  (∀ u, cx_user c' = Some u → cx_user c = None → identified [cmd] c u).
Proof.
  intros Hs%lives_sync. split; [apply Hs|]. split; [apply Hs|]. split; [apply Hs|]. split.
  - intros ch. by eapply dispatch_joins.
  - intros u. apply dispatch_signs_in.
Qed.

(** Closing a connection leaves nothing behind: after [on_close] the adapter
    has the socket in no channel, signed in as no user and watching nobody, the
    context is empty, and no other socket's entries have moved, provided no join
    raced a refusal. *)
Theorem on_close_leaves_nothing (hist : list ClientCommand) (pend : gset string)
    (c : ConnectionContext) (w : World A) :
  lives hist pend ∅ c w →
  let r := on_close c w in
  fresh r.1 r.2 ∧ same_identity c r.1 ∧ untouched c w r.2.
Proof.
  intros Hs%lives_sync r. destruct (on_close_spec _ _ c w Hs) as [Hf Hid].
  split_and!; [done..|by eapply on_close_untouched].
Qed.

(** Connections do not interfere: a command of one connection changes no
    subscription, sign-in or watch of any other socket of the node. *)
Theorem commands_are_local (hist : list ClientCommand) (pend raced : gset string)
    (c : ConnectionContext) (w : World A) (cmd : ClientCommand) (app : string) (sid : SocketId) :
  lives hist pend raced c w → ¬ (app = app_id (cx_app c) ∧ sid = cx_socket_id c) →
  let w' := (dispatch cmd c w).2 in
  (∀ ch, ad_sub (w_ad w').1 app ch sid = ad_sub (w_ad w).1 app ch sid) ∧
  (∀ uid, ad_signed (w_ad w').1 app uid sid = ad_signed (w_ad w).1 app uid sid) ∧
  (∀ uid, ad_watching (w_ad w').1 app sid uid = ad_watching (w_ad w).1 app sid uid).
Proof.
  intros Hs%lives_sync Hne. apply (dispatch_untouched cmd c w); [apply (sy_inv _ _ _ _ _ Hs)|done].
Qed.

(** The gates every new subscription passes before authorisation. *)
Definition gates_open (c : ConnectionContext) (w : World A) (ch : string) : Prop :=
  let cap := max_subscriptions_per_connection (cx_limits c) in
  (cap = 0 ∨ size (cx_subscribed c) < cap) ∧ is_saturated c w = false ∧
  validate_channel_name ch (max_channel_name_length (cx_limits c)) = true ∧
  cx_capabilities c = Capabilities_v7.

Lemma hash_not_valid ch n t : ch = ("#" +:+ t) → validate_channel_name ch n = false.
Proof.
  intros ->. destruct (validate_channel_name _ n) eqn:Hv; [|done].
  apply validate_channel_name_spec in Hv as (_ & _ & Hall). done.
Qed.

(** Past the gates the verdict is the authorisation's. *)
Lemma vet_gates c w ch auth data :
  gates_open c w ch →
  vet c ch auth data w =
  match ci_auth (ChannelInfo_of ch) with
  | Public => Ok JoinPlain
  | Private | PrivateEncrypted =>
      match vet_private c (ci_auth (ChannelInfo_of ch)) ch auth with
      | Ok _ => Ok JoinPlain
      | Err e => Err e
      end
  | Presence =>
      match vet_presence c ch auth data w with Ok m => Ok (JoinAs m) | Err e => Err e end
  end.
Proof.
  intros (Hcap & Hsat & Hv & Hcaps). unfold vet. rewrite Hsat, Hcaps.
  assert (negb (max_subscriptions_per_connection (cx_limits c) =? 0)%nat &&
    (max_subscriptions_per_connection (cx_limits c) <=? size (cx_subscribed c))%nat = false) as ->.
  { destruct Hcap as [->|Hlt]; [done|]. apply andb_false_iff. right. by apply Nat.leb_gt. }
  destruct (Str.strip_prefix SERVER_TO_USER_PREFIX ch) as [uid|] eqn:Hp.
  { apply Str.strip_prefix_Some in Hp. rewrite (hash_not_valid ch _ _ Hp) in Hv. done. }
  destruct (Str.starts_with "#" ch) eqn:Hh.
  { apply Str.starts_with_true in Hh as [t Ht]. rewrite (hash_not_valid ch _ t Ht) in Hv. done. }
  rewrite Hv. simpl. by rewrite andb_false_r.
Qed.

Lemma subscribe_joins c w ch auth data :
  (ch ∉ cx_subscribed c) →
  (ch ∈ cx_subscribed (subscribe ch auth data c w).1) ↔
  ∃ p, vet c ch auth data w = Ok p ∧ p ≠ AckOnly.
Proof.
  intros Hch. unfold subscribe. rewrite decide_False by done.
  destruct (vet c ch auth data w) as [[| |m]|[[t m] st]] eqn:Hv; simpl.
  - split; [done|]. naive_solver.
  - destruct (join_plain_eq ch c w) as (ad & out & _ & Hc & _).
    destruct (join_plain ch c w) as [c' w']. simpl in *. subst c'. simpl.
    split; [|set_solver]. intros _. by eexists.
  - destruct (join_presence_eq ch m c w) as (ad & out & _ & Hc & _).
    destruct (join_presence ch m c w) as [c' w']. simpl in *. subst c'. simpl.
    split; [|set_solver]. intros _. by eexists.
  - split; [done|]. naive_solver.
Qed.

(** Admission to a private or encrypted channel, past the general gates, is
    exactly possession of the right token: the connection joins if and only if
    it presents the app key, a colon and the HMAC of its own socket id and that
    channel. *)
Theorem private_join_iff_token (c : ConnectionContext) (w : World A) (ch : string)
    (auth data : option string) :
  (ch ∉ cx_subscribed c) → gates_open c w ch → no_colon (app_key (cx_app c)) = true →
  ci_auth (ChannelInfo_of ch) = Private ∨ ci_auth (ChannelInfo_of ch) = PrivateEncrypted →
  (ch ∈ cx_subscribed (subscribe ch auth data c w).1) ↔
  auth = Some (app_key (cx_app c) +:+ ":" +:+
    hmac_sha256_hex (app_secret (cx_app c))
      (SocketId.as_str (cx_socket_id c) +:+ ":" +:+ ch)).
Proof.
  intros Hch Hg Hk Hkind. rewrite subscribe_joins, vet_gates by done.
  assert ((∃ p, match vet_private c (ci_auth (ChannelInfo_of ch)) ch auth with
                | Ok _ => Ok JoinPlain | Err e => Err e end = Ok p ∧ p ≠ AckOnly) ↔
          vet_private c (ci_auth (ChannelInfo_of ch)) ch auth = Ok tt) as Hex.
  { destruct (vet_private _ _ _ _) as [[]|e]; split; try done; [eauto|naive_solver]. }
  assert (vet_private c (ci_auth (ChannelInfo_of ch)) ch auth = Ok tt ↔
    auth = Some (app_key (cx_app c) +:+ ":" +:+ channel_signature (app_secret (cx_app c))
      (SocketId.as_str (cx_socket_id c)) ch None)) as Htok.
  { unfold vet_private. destruct Hg as (_ & _ & _ & ->). simpl. rewrite andb_false_r.
    destruct auth as [t|]; [|done]. unfold channel_verify.
    pose proof (verify_token_ok (app_key (cx_app c)) (channel_signature (app_secret (cx_app c))
      (SocketId.as_str (cx_socket_id c)) ch None) t) as Hv.
    destruct (verify_token _ _ t) as [[]|e].
    - split; [intros _|done]. f_equal. by apply Hv.
    - split; [done|]. intros [= ->]. destruct Hv as [_ Hv]. by discriminate Hv. }
  destruct Hkind as [Hkd|Hkd]; rewrite Hkd in *; by rewrite Hex, Htok.
Qed.

(** ** Client events *)

(** Every gate of [client_event] before the rate limit. *)
Definition may_publish (c : ConnectionContext) (w : World A) (ev ch : string) (data : Value)
    : bool :=
  cap_client_events (cx_capabilities c) && client_messages_enabled (cx_app c) &&
  match ci_auth (ChannelInfo_of ch) with Private | Presence => true | _ => false end &&
  bool_decide (ch ∈ cx_subscribed c) &&
  (String.length ev <=? max_event_name_length (cx_limits c))%nat &&
  (String.length (to_string data) <=? max_event_payload_bytes (cx_limits c))%nat &&
  negb (is_saturated c w).

(** Nothing happened beyond a frame to the sender itself. *)
Definition only_self (c : ConnectionContext) (w w' : World A) : Prop :=
  (w_ad w').1 = (w_ad w).1 ∧ w_hooks w' = w_hooks w ∧
  env_percore (w_ad w').2 = env_percore (w_ad w).2 ∧
  ∀ i, i ≠ cx_self_tx c →
    chans (env_store (w_ad w').2) !! i = chans (env_store (w_ad w).2) !! i.

Lemma only_self_refl c w : only_self c w w.
Proof. by repeat split. Qed.

Lemma send_self_only c ev w : only_self c w (send_self c ev w).
Proof.
  destruct w as [[a e] h]. unfold send_self, only_self, try_send. simpl.
  destruct (chans (env_store e) !! cx_self_tx c) as [q|]; [|by repeat split].
  destruct (closed q); [by repeat split|]. destruct (_ <=? _); simpl; split_and!; try done.
  - intros i _. by rewrite chans_bump.
  - intros i Hi. by rewrite lookup_insert_ne.
Qed.

(** C36. A client event is relayed exactly when every gate is open: the version
    and the app allow client events, the sender is in the channel, which is
    private or presence, the name and payload fit, the node is not saturated and
    the rate allows it. It is then broadcast to the channel with the sender
    excluded, carrying the sender's own presence id. Otherwise nothing happens
    beyond, at most, a frame to the sender. *)
Theorem client_event_relayed_iff (c : ConnectionContext) (w : World A) (ev ch : string)
    (data : Value) :
  let r := client_event ev ch data c w in
  let ok := (check_at (env_now (w_ad w).2) (cx_client_event_rate c)).2 in
  let uid := cx_presence_membership c !! ch in
  if may_publish c w ev ch data && ok then
    let w' := broadcast_noting_drop (app_id (cx_app c)) ch (ChannelEvent ch ev data uid)
                (Some (cx_socket_id c)) w in
    r.2 = (if has_client_event_webhooks (cx_app c)
           then emit_webhook (Hook.ClientEvent (app_id (cx_app c)) ch ev data
                  (SocketId.as_str (cx_socket_id c)) uid) w'
           else w')
  else only_self c w r.2.
Proof.
  unfold may_publish, client_event, reject_client_event.
  destruct (cap_client_events _); simpl; [|apply send_self_only].
  destruct (client_messages_enabled _); simpl; [|apply send_self_only].
  destruct (match ci_auth (ChannelInfo_of ch) with Private | Presence => true | _ => false end);
    simpl; [|apply only_self_refl].
  case_bool_decide; simpl; [|apply only_self_refl].
  destruct (Nat.ltb_spec (max_event_name_length (cx_limits c)) (String.length ev)).
  { rewrite (proj2 (Nat.leb_gt _ _)) by done. apply send_self_only. }
  rewrite (proj2 (Nat.leb_le _ _)) by lia. simpl.
  destruct (Nat.ltb_spec (max_event_payload_bytes (cx_limits c)) (String.length (to_string data))).
  { rewrite (proj2 (Nat.leb_gt _ _)) by done. apply send_self_only. }
  rewrite (proj2 (Nat.leb_le _ _)) by lia. simpl.
  destruct (is_saturated c w); simpl; [apply only_self_refl|].
  destruct (check_at _ _) as [rate ok]. simpl. destruct ok; simpl; [done|].
  apply (send_self_only (set_rate rate c)).
Qed.
End sync.

(** ** A node to evaluate on: one connection over the local adapter *)

Module HandlerDemo.
#[local] Existing Instance AuthDemo.crypto.
#[local] Existing Instance MokaDemo.store.
#[local] Existing Instance JsonDemo.demo.

Definition app : App :=
  mkApp "app" "1" "key" "secret" true true 100 None None true [] false false false false true
    false false.

Definition limits : Limits := mkLimits 100 1024 100 200 200 10 128 256 50.

Definition ctx : ConnectionContext :=
  mkConnectionContext app (SocketId.from_raw "1.2") 0 limits ∅ None ∅ (RateWindow_new 10) false
    false None None Capabilities_v7.

Definition world : World LocalAdapter :=
  mkWorld (LocalAdapter_new ∅ ∅,
           mkEnv (mkStore {[0 := mkChan [] 8 false]} ∅ ∅ ∅) (mkPercore ∅ false None) 0)
    (mkWebhookHandle [] false 0 0 16).

Lemma ctx_fresh : fresh ctx world.
Proof. unfold fresh. split_and!; try done. exact (user_run_ok []). Qed.

(** A signed join of a private channel. *)
Definition join : ClientCommand :=
  Cmd.Subscribe "private-room" (Some "key:secret/1.2:private-room") None.

Definition after : ConnectionContext * World LocalAdapter := dispatch join ctx world.

Lemma after_lives : lives [join] ∅ ∅ after.1 after.2.
Proof.
  apply (lives_step [] ∅ ∅ ctx world join); [by apply lives_fresh, ctx_fresh|by_eval..].
Qed.

(** The same join after one that was refused and whose refusal was read. *)
Definition refuse : ClientCommand := Cmd.Subscribe "private-room" (Some "key:wrong") None.
Definition refused : ConnectionContext * World LocalAdapter := dispatch refuse ctx world.
Definition retried : ConnectionContext * World LocalAdapter :=
  dispatch join (departed "private-room" refused.1) refused.2.

Lemma refused_lives : lives [refuse] {["private-room"]} ∅ refused.1 refused.2.
Proof.
  apply (lives_step [] ∅ ∅ ctx world refuse); [by apply lives_fresh, ctx_fresh|by_eval..].
Qed.

Lemma retried_lives : lives [refuse; join] ∅ ∅ retried.1 retried.2.
Proof.
  apply (lives_step [refuse] ∅ ∅ _ _ join); [|by_eval..].
  eapply (lives_drained _ {["private-room"]}); [apply refused_lives|set_solver..].
Qed.
End HandlerDemo.

Section witnesses.
#[local] Existing Instance AuthDemo.crypto.
#[local] Existing Instance MokaDemo.store.
#[local] Existing Instance JsonDemo.demo.


Lemma joined_channels_authorised_witness :
  authorised [HandlerDemo.refuse; HandlerDemo.join] HandlerDemo.retried.1 "private-room" None.
Proof.
  apply (proj1 (joined_channels_authorised _ _ _ _ _ Cmd.Ping HandlerDemo.retried_lives)). by_eval.
Defined.

Lemma on_close_leaves_nothing_witness :
  cx_subscribed (on_close HandlerDemo.after.1 HandlerDemo.after.2).1 = ∅ ∧
  size (cx_subscribed HandlerDemo.after.1) = 1.
Proof.
  split; [|by_eval].
  apply (on_close_leaves_nothing _ _ _ _ HandlerDemo.after_lives).
Defined.

Lemma commands_are_local_witness :
  ad_sub (w_ad (dispatch
    (Cmd.Unsubscribe "private-room") HandlerDemo.after.1 HandlerDemo.after.2).2).1
    "1" "private-room" (SocketId.from_raw "3.4") =
  ad_sub (w_ad HandlerDemo.after.2).1 "1" "private-room" (SocketId.from_raw "3.4").
Proof.
  apply (commands_are_local _ _ _ _ _ (Cmd.Unsubscribe "private-room") "1" (SocketId.from_raw "3.4")
    HandlerDemo.after_lives). by intros [_ [=]].
Defined.

Lemma private_join_iff_token_witness :
  "private-room" ∈ cx_subscribed HandlerDemo.after.1.
Proof.
  unfold HandlerDemo.after, HandlerDemo.join, dispatch.
  apply (private_join_iff_token HandlerDemo.ctx HandlerDemo.world "private-room").
  - set_solver.
  - repeat split; try by_eval. right. vm_compute. lia.
  - by_eval.
  - left. by_eval.
  - by_eval.
Defined.
End witnesses.
