(* ===== verification/SessionProps.v ===== *)
(** * Sessions: the mailbox drain against the handler's bookkeeping

    [drain_session] of [src/src/transport/worker.rs] edits the connection's
    context while it writes events out: a refusal found in the mailbox takes
    its channel out of the subscribed set. These lemmas say when that is
    harmless and when it breaks the agreement the handlers keep. *)

From S2P Require Import Prelude RustStd Json JsonDemo Protocol Kind Frame Outbound Fanout Mailbox.
From S2P Require Import Adapter Auth App Webhook Rate Handler HandlerProps Inbound.

(** The channels refused by the events a drain reads. *)
Fixpoint refusals (q : list ServerEvent) : list string :=
  match q with
  | [] => []
  | Close _ _ :: _ => []
  | SubscriptionError channel _ _ _ :: q => channel :: refusals q
  | _ :: q => refusals q
  end.

Definition forget (c : ConnectionContext) (chs : list string) : ConnectionContext :=
  foldl (λ c ch, departed ch c) c chs.

Lemma drain_events_ctx codec now q d :
  dr_ctx (drain_events codec now q d).2 = forget (dr_ctx d) (refusals q).
Proof.
  revert d. induction q as [|ev q IH]; intros d; [done|]. by destruct ev; simpl; rewrite ?IH.
Qed.

Lemma forget_fields c chs :
  cx_subscribed (forget c chs) = cx_subscribed c ∖ list_to_set chs ∧
  cx_app (forget c chs) = cx_app c ∧ cx_socket_id (forget c chs) = cx_socket_id c ∧
  cx_user (forget c chs) = cx_user c.
Proof.
  revert c. induction chs as [|ch chs IH]; intros c; simpl; [split_and!; [set_solver|done..]|].
  destruct (IH (departed ch c)) as (Hs & Ha & Hi & Hu).
  split_and!; [rewrite Hs; simpl; set_solver|done..].
Qed.

Section drain.
Context `{SerdeJson, Crypto} {A : Type} `{AdapterLaws A}.

(** The drain's effect on the session and the adapter. *)
Lemma drain_session_effect now e (w : World A) s :
  en_session e = Some s →
  let r := (drain_session now (e, w)).1 in
  let refused := refusals (queue_of (env_store (w_ad w).2) (cx_self_tx (se_ctx s))) in
  en_session r.1 = Some (mkSessionState (forget (se_ctx s) refused) (se_codec s)) ∧
  (w_ad r.2).1 = (w_ad w).1.
Proof.
  intros He. simpl. rewrite He. destruct (w_ad w) as [a env]. simpl.
  pose proof (drain_events_ctx (se_codec s) now (queue_of (env_store env) (cx_self_tx (se_ctx s)))
    (mkDrainState (se_ctx s) (en_link e) false false false)) as Hc.
  destruct (drain_events _ _ _ _) as [rest d]. simpl in Hc. rewrite <-Hc.
  destruct (dr_wrote d); [|done]. unfold flush_and_arm. by destruct (flush_link _ _).
Qed.

Lemma unsubscribe_other ch ch' c w :
  ch' ≠ ch →
  ad_sub (w_ad (unsubscribe ch c w).2).1 (app_id (cx_app c)) ch' (cx_socket_id c) =
  ad_sub (w_ad w).1 (app_id (cx_app c)) ch' (cx_socket_id c) ∧
  (ad_inv (w_ad w).1 → ad_inv (w_ad (unsubscribe ch c w).2).1).
Proof.
  intros Hne. destruct (unsubscribe_cases ch c w) as [[_ ->]|(ad & out & _ & Had & _ & Hq)]; [done|].
  destruct Hq as [Hqi (Hqs & _)]. simpl in *.
  pose proof (law_unsubscribe (app_id (cx_app c)) ch (cx_socket_id c) (w_ad w)) as (Li & Ls & _).
  rewrite Had in Li, Ls. simpl in *. rewrite Hqs, Ls, decide_False by naive_solver. auto.
Qed.

Lemma unsubscribe_all_other l ch' c w :
  ch' ∉ l →
  let r := unsubscribe_all l c w in
  ad_sub (w_ad r.2).1 (app_id (cx_app c)) ch' (cx_socket_id c) =
  ad_sub (w_ad w).1 (app_id (cx_app c)) ch' (cx_socket_id c) ∧
  (ad_inv (w_ad w).1 → ad_inv (w_ad r.2).1) ∧
  cx_app r.1 = cx_app c ∧ cx_socket_id r.1 = cx_socket_id c.
Proof.
  unfold unsubscribe_all. revert c w. induction l as [|ch l IH]; intros c w Hl; simpl; [done|].
  apply not_elem_of_cons in Hl as [Hne Hl].
  destruct (unsubscribe_other ch ch' c w Hne) as [Ho Hi].
  destruct (unsubscribe_context ch c w) as (_ & _ & (Ha & Hs & _)).
  destruct (unsubscribe ch c w) as [c1 w1]. simpl in *.
  destruct (IH c1 w1 Hl) as (Ho2 & Hi2 & Ha2 & Hs2). rewrite Ha, Hs in *. split_and!; try congruence. auto.
Qed.

(** Closing leaves the adapter's entries of channels the context does not have. *)
Lemma on_close_other ch c w :
  ad_inv (w_ad w).1 → ch ∉ cx_subscribed c →
  ad_sub (w_ad (on_close c w).2).1 (app_id (cx_app c)) ch (cx_socket_id c) =
  ad_sub (w_ad w).1 (app_id (cx_app c)) ch (cx_socket_id c).
Proof.
  intros Hi Hch. unfold on_close.
  destruct (unsubscribe_all_other (elements (cx_subscribed c)) ch c w) as (Ho & Hi1 & Ha & Hs).
  { by rewrite elem_of_elements. }
  destruct (unsubscribe_all _ c w) as [c1 w1]. simpl in *. rewrite <-Ho.
  assert (∀ w2, (ad_inv (w_ad w1).1 → ad_inv (w_ad w2).1) →
    (∀ app ch sid, ad_sub (w_ad w2).1 app ch sid = ad_sub (w_ad w1).1 app ch sid) →
    ad_sub (ad_unwatch (app_id (cx_app c1)) (cx_socket_id c1) (w_ad w2)).1
      (app_id (cx_app c)) ch (cx_socket_id c) =
    ad_sub (w_ad w1).1 (app_id (cx_app c)) ch (cx_socket_id c)) as Hun.
  { intros w2 Hi2 Hs2.
    pose proof (law_unwatch (app_id (cx_app c1)) (cx_socket_id c1) (w_ad w2)) as Hl.
    destruct Hl as (_ & Hl & _); [auto|]. by rewrite Hl, Hs2. }
  destruct (cx_user c1) as [u|]; simpl; [|by apply Hun].
  pose proof (law_signout (app_id (cx_app c1)) (au_id u) (cx_socket_id c1) (w_ad w1)) as (Li & Ls & _).
  destruct (ad_signout_user _ _ _ _) as [ad out]. simpl in *. apply Hun.
  - destruct (_ && _); [|done]. intros H5. apply notify_watchers_quiet. auto.
  - intros app' ch' sid'. destruct (_ && _); [|apply Ls].
    destruct (notify_watchers_quiet c1 (au_id u) "offline" (set_ad ad w1)) as [_ (Hv & _)].
    destruct c1; simpl in *. rewrite <-Ls. apply Hv.
Qed.

Lemma forget_absent hist p r c w chs :
  sync hist p r c w → (∀ ch, ch ∈ chs → ch ∉ cx_subscribed c) → forget c chs = c.
Proof.
  intros Hs. induction chs as [|ch chs IH]; intros Hall; [done|]. simpl.
  assert (departed ch c = c) as Hd.
  { assert (ch ∉ cx_subscribed c) as Hch by (apply Hall; set_solver). unfold departed.
    rewrite delete_id by (by eapply not_member).
    replace (cx_subscribed c ∖ {[ch]}) with (cx_subscribed c) by set_solver. by destruct c. }
  rewrite Hd. apply IH. intros ch' Hin. apply Hall. set_solver.
Qed.

(** The refusals a drain reads are steps of the connection's life. *)
Lemma forget_lives hist pend raced c (w : World A) chs :
  lives hist (pend ∪ list_to_set chs) raced c w → lives hist pend raced (forget c chs) w.
Proof.
  revert c. induction chs as [|ch chs IH]; intros c Hl; simpl in *; [by rewrite union_empty_r_L in Hl|].
  apply IH. eapply lives_drained; [exact Hl|set_solver..].
Qed.

(** The drain takes a step of the life of [HandlerProps]: it reads the refusals
    that were unread and nothing else of the connection changes. *)
Theorem drain_session_lives (hist : list ClientCommand) (pend raced : gset string) (now : Z)
    (e : InEntry) (w : World A) (s : SessionState) :
  let refused := refusals (queue_of (env_store (w_ad w).2) (cx_self_tx (se_ctx s))) in
  lives hist (pend ∪ list_to_set refused) raced (se_ctx s) w → en_session e = Some s →
  let r := (drain_session now (e, w)).1 in
  ∃ s', en_session r.1 = Some s' ∧ lives hist pend raced (se_ctx s') r.2.
Proof.
  intros refused Hl%forget_lives He r. destruct (drain_session_effect now e w s He) as [Hs Hw].
  eexists. split; [exact Hs|]. simpl. eapply lives_others; [exact Hl|].
  unfold r, others_but. rewrite Hw. by split_and!.
Qed.

(** A drain that finds no refusal of a channel the connection has joined leaves
    the context as it was and the agreement with the adapter intact. *)
Theorem drain_keeps_context (hist : list ClientCommand) (pend raced : gset string) (now : Z)
    (e : InEntry) (w : World A) (s : SessionState) :
  lives hist pend raced (se_ctx s) w → en_session e = Some s →
  (∀ ch, ch ∈ refusals (queue_of (env_store (w_ad w).2) (cx_self_tx (se_ctx s))) →
     ch ∉ cx_subscribed (se_ctx s)) →
  let r := (drain_session now (e, w)).1 in
  en_session r.1 = Some s ∧ lives hist pend raced (se_ctx s) r.2.
Proof.
  intros Hl He Hr. destruct (drain_session_effect now e w s He) as [Hs Hw].
  rewrite (forget_absent _ _ _ (se_ctx s) w) in Hs by (done || by apply lives_sync).
  split; [by destruct s|]. eapply lives_others; [done|].
  unfold others_but. rewrite Hw. by split_and!.
Qed.

(** A refusal still in the mailbox when its channel has been joined meanwhile
    makes the drain forget a live subscription: closing the connection then
    leaves the adapter's entry behind for good. The worker dispatches a whole
    batch of frames before it drains, so a client reaches this state by
    pipelining a subscription that is refused and one that is accepted. *)
Theorem stale_refusal_leaks (now : Z) (e : InEntry) (w : World A) (s : SessionState)
    (ch : string) (uid : option string) :
  let c := se_ctx s in
  let held a := ad_sub a (app_id (cx_app c)) ch (cx_socket_id c) in
  ad_inv (w_ad w).1 → held (w_ad w).1 = Some uid → en_session e = Some s →
  ch ∈ refusals (queue_of (env_store (w_ad w).2) (cx_self_tx c)) →
  let r := (drain_session now (e, w)).1 in
  ∃ s', en_session r.1 = Some s' ∧ (ch ∉ cx_subscribed (se_ctx s')) ∧
    held (w_ad (on_close (se_ctx s') r.2).2).1 = Some uid.
Proof.
  intros c held Hinv Hheld He Href r. destruct (drain_session_effect now e w s He) as [Hs Hw].
  fold c r in Hs, Hw. set (refused := refusals _) in *.
  destruct (forget_fields c refused) as (Hsub & Ha & Hi & _).
  eexists. split; [exact Hs|]. simpl.
  assert (ch ∉ cx_subscribed (forget c refused)) as Hnot by (rewrite Hsub; set_solver).
  split; [done|]. unfold held in *. rewrite <-Ha, <-Hi in *. rewrite on_close_other; rewrite ?Hw; done.
Qed.
End drain.

(** ** A pipelined retry *)

Section witnesses.
#[local] Existing Instance AuthDemo.crypto.
#[local] Existing Instance MokaDemo.store.
#[local] Existing Instance JsonDemo.demo.

Definition subscribe_text (token : string) : string :=
  JsonDemo.show (JObject
    [("event", JString "pusher:subscribe");
     ("data", JObject [("channel", JString "private-room"); ("auth", JString token)])]).

Definition text_frame (s : string) : Frame := mkFrame true OpText (as_bytes s).

Definition wrong_text : string := subscribe_text "key:wrong".
Definition right_text : string := subscribe_text "key:secret/1.2:private-room".

Definition demo_entry : InEntry :=
  mkInEntry (mkLink (Connection_new 4096) [] [] false) [] [] None (TokenBucket_new 0 0)
    (Some (mkSessionState HandlerDemo.ctx V7Codec)).

(** One batch of two frames, then the close: the socket is still in the room. *)
Example pipelined_retry_leaks :
  let '((e, w), a) :=
    dispatch_frames 1024 0 [text_frame wrong_text; text_frame right_text] (demo_entry, HandlerDemo.world) in
  a = Keep ∧
  (λ s, ad_sub (w_ad (on_close (se_ctx s) w).2).1 "1" "private-room" (SocketId.from_raw "1.2"))
    <$> en_session e = Some (Some None).
Proof. vm_compute. done. Qed.

(** The same two commands, dispatched without a drain in between. *)
Definition pipelined : ConnectionContext * World LocalAdapter :=
  dispatch HandlerDemo.join HandlerDemo.refused.1 HandlerDemo.refused.2.

Lemma pipelined_lives :
  lives [HandlerDemo.refuse; HandlerDemo.join] {["private-room"]} {["private-room"]} pipelined.1 pipelined.2.
Proof.
  apply (lives_step [HandlerDemo.refuse] {["private-room"]} ∅ _ _ HandlerDemo.join);
    [apply HandlerDemo.refused_lives|by_eval..].
Qed.

Definition pipelined_session : SessionState := mkSessionState pipelined.1 V7Codec.

Lemma stale_refusal_leaks_witness :
  ∃ s', en_session (drain_session 0 (set_session (Some pipelined_session) demo_entry, pipelined.2)).1.1 =
          Some s' ∧
    ad_sub (w_ad (on_close (se_ctx s')
      (drain_session 0 (set_session (Some pipelined_session) demo_entry, pipelined.2)).1.2).2).1
      "1" "private-room" (SocketId.from_raw "1.2") = Some None.
Proof.
  destruct (stale_refusal_leaks 0 (set_session (Some pipelined_session) demo_entry) pipelined.2
    pipelined_session "private-room" None) as (s' & He & _ & Hs).
  - apply (sy_inv _ _ _ _ _ (lives_sync _ _ _ _ _ pipelined_lives)).
  - by_eval.
  - done.
  - apply (bool_decide_unpack _). vm_compute. exact I.
  - exists s'. split; [exact He|]. exact Hs.
Defined.

Lemma drain_session_lives_witness :
  ∃ s', en_session (drain_session 0 (set_session (Some pipelined_session) demo_entry, pipelined.2)).1.1 =
    Some s' ∧ lives [HandlerDemo.refuse; HandlerDemo.join] ∅ {["private-room"]} (se_ctx s')
      (drain_session 0 (set_session (Some pipelined_session) demo_entry, pipelined.2)).1.2.
Proof.
  refine (drain_session_lives _ ∅ _ 0 (set_session (Some pipelined_session) demo_entry) pipelined.2
    pipelined_session _ eq_refl).
  replace (∅ ∪ list_to_set _) with ({["private-room"]} : gset string) by by_eval.
  apply pipelined_lives.
Defined.

Definition joined_session : SessionState := mkSessionState HandlerDemo.after.1 V7Codec.

Lemma drain_keeps_context_witness :
  en_session (drain_session 0
    (set_session (Some joined_session) demo_entry, HandlerDemo.after.2)).1.1 = Some joined_session.
Proof.
  apply (drain_keeps_context _ _ _ 0 (set_session (Some joined_session) demo_entry) HandlerDemo.after.2
    joined_session HandlerDemo.after_lives eq_refl).
  intros ch Hch. exfalso. revert Hch. apply not_elem_of_nil.
Defined.

Lemma chunking_irrelevant_witness :
  let stream := client_encode true OpText [1; 2; 3; 4]%Z [104; 105]%Z in
  read_chunks [take 3 stream; drop 3 stream] [] 100 =
  ([], Ok [mkFrame true OpText [104; 105]%Z]).
Proof.
  intros stream.
  apply (chunking_irrelevant [take 3 stream; drop 3 stream] 100).
  - apply (bool_decide_unpack _). vm_compute. exact I.
  - done.
Defined.

(** The message of one frame, in two fragments with a pong in between. *)
Definition demo_fragments : list Frame :=
  [mkFrame false OpText (take 9 (as_bytes right_text)); mkFrame true OpPong [];
   mkFrame true OpContinuation (drop 9 (as_bytes right_text))].

Lemma conforming_stream_delivered_witness :
  session_is (dispatch_loop 1024 0 demo_fragments (demo_entry, HandlerDemo.world)).1
    (deliver_text (mkSessionState HandlerDemo.ctx V7Codec, HandlerDemo.world) (as_bytes right_text)).
Proof.
  pose proof (conforming_stream_delivered 1024 0 demo_fragments [mkTextMessage true (as_bytes right_text)]
    (mkSessionState HandlerDemo.ctx V7Codec, HandlerDemo.world) (demo_entry, HandlerDemo.world)) as Hd.
  assert (accepted 1024 [mkTextMessage true (as_bytes right_text)] = [as_bytes right_text]) as Ha by by_eval.
  rewrite Ha in Hd. destruct (dispatch_loop 1024 0 demo_fragments (demo_entry, HandlerDemo.world)) as [st r].
  destruct Hd as (ms1 & ms2 & Hm & Hs & Hr).
  - exact (sent_fragmented (take 9 (as_bytes right_text)) (drop 9 (as_bytes right_text))
      [mkFrame true OpPong []; mkFrame true OpContinuation (drop 9 (as_bytes right_text))] [] []
      (cont_ctl (mkFrame true OpPong []) _ _ (or_intror eq_refl) (cont_last _)) sent_nil).
  - apply Forall_singleton. by_eval.
  - done.
  - done.
  - destruct r as [a|].
    + destruct Hr as [_ (fs1 & f & fs2 & st1 & Hfs & Hf & _)]. exfalso.
      assert (f ∈ demo_fragments) as Hin by (rewrite Hfs; apply elem_of_app; right; left).
      unfold demo_fragments in Hin. repeat (apply elem_of_cons in Hin as [->|Hin]; [discriminate Hf|]).
      by apply elem_of_nil in Hin.
    + destruct Hr as [-> _]. rewrite app_nil_r in Hm. subst ms1. exact Hs.
Defined.

Lemma cap_depends_on_fragmentation_witness :
  let p := take 9 (as_bytes right_text) in
  let q := drop 9 (as_bytes right_text) in
  session_is (dispatch_loop 50 0 [mkFrame false OpText p; mkFrame true OpContinuation q]
    (demo_entry, HandlerDemo.world)).1 (mkSessionState HandlerDemo.ctx V7Codec, HandlerDemo.world).
Proof.
  intros p q. apply (cap_depends_on_fragmentation 50 0 p q
    (mkSessionState HandlerDemo.ctx V7Codec, HandlerDemo.world) (demo_entry, HandlerDemo.world)).
  - apply (bool_decide_unpack _). vm_compute. exact I.
  - by_eval.
  - done.
  - done.
Defined.

Lemma inbound_memory_bounded_witness :
  let k := mkWake [ReadOk [129; 133; 1]%Z] [] 0 in
  let st := (inbound_run 100 10 [k] (demo_entry, HandlerDemo.world)).1 in
  (frame_buffer_bytes (li_conn (en_link st.1)) < 14 + 100)%Z.
Proof.
  intros k st.
  apply (inbound_memory_bounded 100 10 [k] (demo_entry, HandlerDemo.world) st).
  - done.
  - apply (bool_decide_unpack _). vm_compute. exact I.
  - split_and!; [split; [done|simpl; lia]|apply Forall_nil_2|done].
  - by_eval.
Defined.
End witnesses.
