(* ===== verification/LoadClient.v ===== *)
(** * The load generator's client: [src/load/src/pusher.rs]

    A client of the protocol written apart from the server: its signatures, its
    frames, its receive loop over one WebSocket and its signed publisher, with
    the counters and the latency recorder of [src/load/src/metrics.rs]. The
    WebSocket, the clock and the histogram are inputs. *)

From stdpp Require Import pretty.
From S2P Require Import Prelude RustStd Json Protocol Auth.

Definition U128_MAX : Z := 2 ^ 128 - 1.

(** [Value::as_u64]. *)
Definition as_u64 (v : Value) : option Z :=
  match v with JNumber (PosInt n) => Some n | _ => None end.

(** ** [metrics.rs] *)

(** [hdrhistogram::Histogram<u64>]. *)
Class HdrHistogram : Type := {
  Hist : Type;
  hist_new : Hist;
  saturating_record : Z → Hist → Hist;
  hist_len : Hist → Z;
  value_at_quantile : Z → Hist → Z;
  hist_max : Hist → Z
}.

Record Counters : Type := mkCounters {
  connected : Z;
  connect_failed : Z;
  subscribed : Z;
  sent : Z;
  received : Z;
  received_foreign : Z
}.

Definition Counters_default : Counters := mkCounters 0 0 0 0 0 0.

(** [fetch_add(1)] wraps. *)
Definition inc (n : Z) : Z := ((n + 1) mod 2 ^ 64)%Z.

Definition inc_connected (c : Counters) : Counters :=
  mkCounters (inc (connected c)) (connect_failed c) (subscribed c) (sent c) (received c) (received_foreign c).
Definition inc_connect_failed (c : Counters) : Counters :=
  mkCounters (connected c) (inc (connect_failed c)) (subscribed c) (sent c) (received c) (received_foreign c).
Definition inc_subscribed (c : Counters) : Counters :=
  mkCounters (connected c) (connect_failed c) (inc (subscribed c)) (sent c) (received c) (received_foreign c).
Definition inc_received (c : Counters) : Counters :=
  mkCounters (connected c) (connect_failed c) (subscribed c) (sent c) (inc (received c)) (received_foreign c).
Definition inc_received_foreign (c : Counters) : Counters :=
  mkCounters (connected c) (connect_failed c) (subscribed c) (sent c) (received c) (inc (received_foreign c)).

(** Count, the three quantiles in thousandths, and the maximum, in microseconds. *)
Definition summary_us `{HdrHistogram} (h : Hist) : Z * Z * Z * Z * Z :=
  (hist_len h, value_at_quantile 500 h / 1000, value_at_quantile 990 h / 1000,
   value_at_quantile 999 h / 1000, hist_max h / 1000)%Z.

(** ** Signatures *)

Section signing.
Context `{Crypto}.

Definition hmac_hex (secret msg : string) : string := hmac_sha256_hex secret msg.

Definition channel_auth (key secret socket_id channel : string) (channel_data : option string) : string :=
  let msg := socket_id +:+ ":" +:+ channel in
  let msg := match channel_data with Some cd => msg +:+ ":" +:+ cd | None => msg end in
  key +:+ ":" +:+ hmac_hex secret msg.

Definition show_param (p : string * string) : string := p.1 +:+ "=" +:+ p.2.

(** The parameters and their signature; the query is their text. *)
Definition post_events_params (key secret app_id body : string) (timestamp : Z) : list (string * string) :=
  let body_md5 := md5_hex body in
  let params := merge_sort param_le
    [("auth_key", key); ("auth_timestamp", pretty (Z.to_N timestamp)); ("auth_version", "1.0");
     ("body_md5", body_md5)] in
  let query := join "&" (show_param <$> params) in
  let path := "/apps/" +:+ app_id +:+ "/events" in
  let to_sign := "POST" +:+ newline +:+ path +:+ newline +:+ query in
  params ++ [("auth_signature", hmac_hex secret to_sign)].

Definition sign_post_events (key secret app_id body : string) (timestamp : Z) : string :=
  join "&" (show_param <$> post_events_params key secret app_id body timestamp).
End signing.

(** ** Frames *)

Module Pusher.
Record Frame : Type := mkFrame {
  event : string;
  channel : option string;
  data : option string
}.

Record Delivery : Type := mkDelivery { seq : Z; t : Z; p : string }.

Section frames.
Context `{SerdeJson}.

Definition parse_frame (text : string) : option Frame :=
  v ← from_str text;
  event ← get v "event" ≫= as_str;
  Some (mkFrame event (get v "channel" ≫= as_str)
    ((λ d, match d with JString s => s | other => to_string other end) <$> get v "data")).

Definition subscribe_frame (channel : string) (auth channel_data : option string) : string :=
  let data := [("channel", JString channel)] in
  let data := match auth with Some a => map_insert "auth" (JString a) data | None => data end in
  let data := match channel_data with Some cd => map_insert "channel_data" (JString cd) data | None => data end in
  to_string (JObject [("event", JString "pusher:subscribe"); ("data", JObject data)]).

Definition pong_frame : string :=
  to_string (JObject [("event", JString "pusher:pong"); ("data", JObject [])]).

Definition stamp_payload (seq publish_nanos : Z) (run_id : string) : string :=
  to_string (JObject
    [("seq", json_uint seq); ("t", JString (pretty (Z.to_N publish_nanos))); ("p", JString run_id)]).

Definition parse_delivery (data : string) : option Delivery :=
  v ← from_str data;
  seq ← get v "seq" ≫= as_u64;
  text ← get v "t" ≫= as_str;
  t ← Str.parse_uint U128_MAX text;
  p ← get v "p" ≫= as_str;
  Some (mkDelivery seq t p).
End frames.
End Pusher.

(** ** The client *)

Record ClientConfig : Type := mkClientConfig {
  cl_key : string;
  cl_secret : string;
  cl_channel : string;
  cl_private : bool;
  cl_own_run_id : string
}.

Inductive Message : Type :=
| MText (t : string)
| MPing (p : string)
| MPong (p : string)
| MBinary (p : string)
| MClose.

(** Why [run_client] fails: the connection, its end before the greeting, the
    text of the greeting, the sending of the subscription. *)
Inductive ClientError : Type := ConnectError | ClosedBeforeEstablished | GreetingError | SendError.

Inductive Phase : Type :=
| Establishing
| Receiving
| Finished (r : result unit ClientError).

(** What the client waits on. [answered] is whether a frame it sends in reply
    goes out, [now] the nanoseconds since the epoch it shares with the
    publisher. A WebSocket that ends or fails answers [None]. *)
Inductive ClientEvent : Type :=
| Shutdown
| Incoming (m : option Message) (answered : bool) (now : Z).

Section client.
Context `{SerdeJson, Crypto, HdrHistogram}.

Record Client : Type := mkClient {
  cl_phase : Phase;
  cl_out : list Message;
  cl_lat : Hist;
  cl_counters : Counters
}.

Definition in_phase (ph : Phase) (c : Client) : Client :=
  mkClient ph (cl_out c) (cl_lat c) (cl_counters c).
Definition push_out (m : Message) (c : Client) : Client :=
  mkClient (cl_phase c) (cl_out c ++ [m]) (cl_lat c) (cl_counters c).
Definition count (f : Counters → Counters) (c : Client) : Client :=
  mkClient (cl_phase c) (cl_out c) (cl_lat c) (f (cl_counters c)).
Definition measure (nanos : Z) (c : Client) : Client :=
  mkClient (cl_phase c) (cl_out c) (saturating_record nanos (cl_lat c)) (cl_counters c).

Definition record_delivery (data own_run_id : string) (now : Z) (c : Client) : Client :=
  match Pusher.parse_delivery data with
  | None => c
  | Some d =>
      if decide (Pusher.p d = own_run_id) then
        let nanos := Z.max (now - Pusher.t d) 0 in
        count inc_received (measure (Z.min nanos U64.MAX) c)
      else count inc_received_foreign c
  end.

(** Up to the first loop of [run_client]. *)
Definition client_start (connects : bool) (lat : Hist) (counters : Counters) : Client :=
  if connects then mkClient Establishing [] lat (inc_connected counters)
  else mkClient (Finished (Err ConnectError)) [] lat (inc_connect_failed counters).

(** The loop that waits for the socket id, and the subscription it ends with. *)
Definition await_greeting (cfg : ClientConfig) (m : option Message) (answered : bool) (c : Client) : Client :=
  match m with
  | Some (MText t) =>
      match Pusher.parse_frame t with
      | Some f =>
          if decide (Pusher.event f = "pusher:connection_established") then
            match from_str (default "{}" (Pusher.data f)) with
            | None => in_phase (Finished (Err GreetingError)) c
            | Some inner =>
                let socket_id := default EmptyString (get inner "socket_id" ≫= as_str) in
                let auth :=
                  if cl_private cfg
                  then Some (channel_auth (cl_key cfg) (cl_secret cfg) socket_id (cl_channel cfg) None)
                  else None in
                if answered
                then in_phase Receiving (push_out (MText (Pusher.subscribe_frame (cl_channel cfg) auth None)) c)
                else in_phase (Finished (Err SendError)) c
            end
          else c
      | None => c
      end
  | Some _ => c
  | None => in_phase (Finished (Err ClosedBeforeEstablished)) c
  end.

(** One round of the receive loop. *)
Definition receive_round (cfg : ClientConfig) (m : option Message) (answered : bool) (now : Z) (c : Client) : Client :=
  match m with
  | Some (MText t) =>
      match Pusher.parse_frame t with
      | Some f =>
          if decide (Pusher.event f = "pusher_internal:subscription_succeeded") then count inc_subscribed c
          else if decide (Pusher.event f = "pusher:ping") then
            if answered then push_out (MText Pusher.pong_frame) c else c
          else
            match Pusher.data f with
            | Some data => record_delivery data (cl_own_run_id cfg) now c
            | None => c
            end
      | None => c
      end
  | Some (MPing p) => if answered then push_out (MPong p) c else c
  | Some _ => c
  | None => in_phase (Finished (Ok tt)) c
  end.

(** [run_client] between two of its waits: the first loop does not wait for the
    shutdown. *)
Definition client_step (cfg : ClientConfig) (c : Client) (e : ClientEvent) : Client :=
  match cl_phase c, e with
  | Establishing, Incoming m answered _ => await_greeting cfg m answered c
  | Establishing, Shutdown => c
  | Receiving, Incoming m answered now => receive_round cfg m answered now c
  | Receiving, Shutdown => in_phase (Finished (Ok tt)) c
  | Finished _, _ => c
  end.

Definition run_client (cfg : ClientConfig) (connects : bool) (lat : Hist) (counters : Counters)
    (es : list ClientEvent) : Client :=
  foldl (client_step cfg) (client_start connects lat counters) es.
End client.

(** ** The publisher *)

Record Publisher : Type := mkPublisher {
  pb_app_id : string;
  pb_key : string;
  pb_secret : string
}.

(** A POST: path, query and body. *)
Record Post : Type := mkPost { po_path : string; po_query : string; po_body : string }.

Section publisher.
Context `{SerdeJson, Crypto}.

Definition publish_body (channel event payload : string) : string :=
  to_string (JObject [("name", JString event); ("channel", JString channel); ("data", JString payload)]).

Definition publish_post (p : Publisher) (channel event payload : string) (now_unix : Z) : Post :=
  let body := publish_body channel event payload in
  mkPost ("/apps/" +:+ pb_app_id p +:+ "/events")
    (sign_post_events (pb_key p) (pb_secret p) (pb_app_id p) body now_unix) body.

(** Whether [publish] returns without an error, by the status of the answer. *)
Definition published (status : option Z) : bool :=
  match status with
  | Some code => (200 <=? code)%Z && (code <? 300)%Z
  | None => false
  end.
End publisher.
