(* ===== verification/LoadProps.v ===== *)
(** * The load generator against the server

    The client of LoadClient.v and the server were written apart; the theorems
    show that they agree on the protocol: what the client sends the server reads
    as meant and accepts, and what the server then sends the client measures. *)

From stdpp Require Import pretty.
From S2P Require Import Prelude RustStd Json JsonDemo Envelope Protocol SocketIds EnvelopeDemo Kind Fanout.
From S2P Require Import Mailbox ChannelState Adapter Auth App ClusterNode Rate Text Handshake Config RestLimits.
From S2P Require Import Rest RestProps RestWitness LoadClient.

(** ** Texts of JSON *)

(** Two values read the same: objects as maps. *)
#[warnings="-register-all"]
Inductive agree : Value → Value → Prop :=
| agree_null : agree JNull JNull
| agree_bool b : agree (JBool b) (JBool b)
| agree_number n : agree (JNumber n) (JNumber n)
| agree_string s : agree (JString s) (JString s)
| agree_array l l' : Forall2 agree l l' → agree (JArray l) (JArray l')
| agree_object m m' :
    (∀ k, option_Forall2 agree (map_get k m) (map_get k m')) → agree (JObject m) (JObject m').

Definition utf8 (s : string) : bool := utf8_valid (as_bytes s).

(** Values that a Rust program can hold, without floats: texts are UTF-8,
    integers are [u64], names are distinct. *)
Fixpoint printable (v : Value) : bool :=
  match v with
  | JNull | JBool _ => true
  | JNumber (PosInt n) => (0 <=? n)%Z && (n <=? U64.MAX)%Z
  | JNumber _ => false
  | JString s => utf8 s
  | JArray l => forallb printable l
  | JObject m =>
      bool_decide (NoDup m.*1) && forallb (λ q, let '(k, v) := q in utf8 k && printable v) m
  end.

(** What [serde_json] documents of its texts: UTF-8, and read back. *)
Class SerdeText `{SerdeJson} : Prop := {
  from_str_empty : from_str EmptyString = None;
  to_string_utf8 v : printable v = true → utf8 (to_string v) = true;
  from_str_to_string v : printable v = true → ∃ w, from_str (to_string v) = Some w ∧ agree v w
}.

Lemma agree_string_inv s w : agree (JString s) w → w = JString s.
Proof. by inversion 1. Qed.


Section texts.
Context `{SerdeText}.

Lemma object_read m : printable (JObject m) = true →
  ∃ m', from_str (to_string (JObject m)) = Some (JObject m') ∧
    (∀ k, option_Forall2 agree (map_get k m) (map_get k m')).
Proof.
  intros Hp. destruct (from_str_to_string _ Hp) as (w & Hr & Ha). inversion Ha as [| | | | |? m']; subst. by exists m'.
Qed.

Lemma field_string m m' k s : (∀ k, option_Forall2 agree (map_get k m) (map_get k m')) →
  map_get k m = Some (JString s) → map_get k m' = Some (JString s).
Proof.
  intros Ha Hk. specialize (Ha k). rewrite Hk in Ha. inversion Ha as [? w Hw|]; subst.
  by rewrite (agree_string_inv _ _ Hw).
Qed.


Lemma field_absent m m' k : (∀ k, option_Forall2 agree (map_get k m) (map_get k m')) →
  map_get k m = None → map_get k m' = None.
Proof. intros Ha Hk. specialize (Ha k). rewrite Hk in Ha. by inversion Ha. Qed.

Lemma field_object m m' k o : (∀ k, option_Forall2 agree (map_get k m) (map_get k m')) →
  map_get k m = Some (JObject o) →
  ∃ o', map_get k m' = Some (JObject o') ∧ ∀ k, option_Forall2 agree (map_get k o) (map_get k o').
Proof.
  intros Ha Hk. specialize (Ha k). rewrite Hk in Ha. inversion Ha as [? w Hw|]; subst.
  inversion Hw as [| | | | |? o']; subst. by exists o'.
Qed.

End texts.

(** ** Joining *)

Lemma utf8_ascii s : ascii_only s = true → utf8 s = true.
Proof. intros Ha. by apply utf8_valid_ascii, ascii_only_bytes. Qed.

(** Digests are printed in hexadecimal. *)
Definition is_hex (c : ascii) : bool :=
  Str.is_ascii_digit c || ((97 <=? u8_of_ascii c)%Z && (u8_of_ascii c <=? 102)%Z).

Class CryptoHex `{Crypto} : Prop := {
  hmac_is_hex secret msg : Str.all is_hex (hmac_sha256_hex secret msg) = true;
  md5_is_hex body : Str.all is_hex (md5_hex body) = true
}.

Lemma hex_ascii s : Str.all is_hex s = true → ascii_only s = true.
Proof.
  apply Str.all_impl. intros c. unfold is_hex, Str.is_ascii_digit. intros Hc. apply Z.ltb_lt.
  apply orb_true_iff in Hc as [Hc|Hc]; to_prop; lia.
Qed.


Lemma utf8_app a b : utf8 a = true → utf8 b = true → utf8 (a +:+ b) = true.
Proof. unfold utf8. rewrite as_bytes_app. apply utf8_valid_app. Qed.

Section joining.
Context `{SerdeText, CryptoHex, HdrHistogram}.

Lemma utf8_token key secret socket_id channel cd :
  utf8 key = true → utf8 (channel_auth key secret socket_id channel cd) = true.
Proof.
  intros Hk. unfold channel_auth. apply utf8_app; [done|]. apply utf8_app; [done|]. apply utf8_ascii, hex_ascii, hmac_is_hex.
Qed.

(** The client's token is the one the server computes. *)
Lemma channel_auth_verifies key secret socket_id channel cd :
  no_colon key = true →
  channel_verify key secret socket_id channel cd (channel_auth key secret socket_id channel cd) = Ok tt.
Proof.
  intros Hk. unfold channel_verify. apply verify_token_ok. split; [|done]. unfold channel_auth, channel_signature, hmac_hex.
  do 3 f_equal. unfold channel_signing_string. destruct cd; [|done]. by rewrite <-!string_app_assoc.
Qed.

(** The server's codec reads the client's subscription. *)
Lemma subscribe_frame_decodes channel auth :
  utf8 channel = true → (∀ a, auth = Some a → utf8 a = true) →
  Frames.decode (Pusher.subscribe_frame channel auth None) = Ok (Cmd.Subscribe channel auth None).
Proof.
  intros Hc Ha. unfold Pusher.subscribe_frame.
  set (data := match auth with Some a => _ | None => _ end).
  assert (printable (JObject [("event", JString "pusher:subscribe"); ("data", JObject data)]) = true) as Hp.
  { subst data. destruct auth as [a|]; simpl; rewrite ?Hc, ?(Ha a); reflexivity. }
  destruct (object_read _ Hp) as (m & Hr & Hm). unfold Frames.decode. rewrite Hr. cbn [ok_or].
  unfold Frames.str_field. cbn [get]. rewrite (field_string _ _ "event" _ Hm eq_refl). simpl.
  destruct (field_object _ _ "data" _ Hm eq_refl) as (o & Ho & Hd). rewrite Ho. simpl.
  assert (map_get "channel" data = Some (JString channel)) as Hch by (subst data; by destruct auth).
  assert (map_get "channel_data" data = None) as Hcd by (subst data; by destruct auth).
  rewrite (field_string _ _ "channel" _ Hd Hch), (field_absent _ _ "channel_data" Hd Hcd). simpl. do 3 f_equal.
  destruct auth as [a|].
  - by rewrite (field_string _ _ "auth" a Hd eq_refl).
  - by rewrite (field_absent _ _ "auth" Hd eq_refl).
Qed.

(** Reading the greeting. *)
Lemma greeting_read sid timeout :
  utf8 (SocketId.as_str sid) = true → (0 <= timeout <= U64.MAX)%Z →
  ∃ data inner, Pusher.parse_frame (wire_encode_first (ConnectionEstablished sid timeout)) =
      Some (Pusher.mkFrame "pusher:connection_established" None (Some data)) ∧
    from_str data = Some inner ∧ get inner "socket_id" = Some (JString (SocketId.as_str sid)).
Proof.
  intros Hs Ht.
  set (fields := [("socket_id", JString (SocketId.as_str sid)); ("activity_timeout", json_uint timeout)]).
  assert (printable (JObject fields) = true) as Hf.
  { simpl. rewrite Hs, !andb_true_r. destruct (Z.leb_spec 0 timeout), (Z.leb_spec timeout U64.MAX); (done || lia). }
  destruct (object_read _ Hf) as (m & Hr & Hm).
  rewrite wire_encode_first_eq. unfold Frames.encode_into, Frames.write_frame, Frames.double_encoded.
  set (frame := [_; _]). change ("" +:+ to_string (JObject frame)) with (to_string (JObject frame)).
  assert (printable (JObject frame) = true) as Hp.
  { simpl. fold fields. rewrite (to_string_utf8 _ Hf). reflexivity. }
  destruct (object_read _ Hp) as (m' & Hr' & Hm').
  exists (to_string (JObject fields)), (JObject m). unfold Pusher.parse_frame. rewrite Hr'. cbn [get].
  simpl. rewrite (field_string _ _ "event" _ Hm' eq_refl), (field_absent _ _ "channel" Hm' eq_refl).
  rewrite (field_string _ _ "data" _ Hm' eq_refl). split; [reflexivity|]. split; [done|].
  by rewrite (field_string _ _ "socket_id" _ Hm eq_refl).
Qed.

(** C18. Two implementations of the protocol meet. Greeted by the server, a client of
    the load generator subscribes with a frame that the server's codec reads as
    a subscription to the client's channel, and, when the channel is private,
    with the token that the server accepts for this connection. *)
Theorem load_client_subscribes (cfg : ClientConfig) (c : Client) (sid : SocketId.t) (timeout now : Z) :
  cl_phase c = Establishing → utf8 (SocketId.as_str sid) = true → (0 <= timeout <= U64.MAX)%Z →
  utf8 (cl_channel cfg) = true → utf8 (cl_key cfg) = true → no_colon (cl_key cfg) = true →
  let greeting := wire_encode_first (ConnectionEstablished sid timeout) in
  let c' := client_step cfg c (Incoming (Some (MText greeting)) true now) in
  ∃ text auth, cl_phase c' = Receiving ∧ cl_out c' = cl_out c ++ [MText text] ∧
    Frames.decode text = Ok (Cmd.Subscribe (cl_channel cfg) auth None) ∧
    if cl_private cfg then
      ∃ token, auth = Some token ∧
        channel_verify (cl_key cfg) (cl_secret cfg) (SocketId.as_str sid) (cl_channel cfg) None token = Ok tt
    else auth = None.
Proof.
  intros Hph Hs Ht Hc Hk Hnc greeting c'. destruct (greeting_read sid timeout Hs Ht) as (data & inner & Hf & Hi & Hsid).
  subst c'. unfold client_step. rewrite Hph. unfold await_greeting. subst greeting. rewrite Hf. cbn [Pusher.event Pusher.data].
  change (default "{}" (Some data)) with data. rewrite decide_True, Hi, Hsid by done. simpl.
  eexists _, _. split; [done|]. split; [done|]. split.
  - apply subscribe_frame_decodes; [done|]. intros a. destruct (cl_private cfg); [|done]. intros [= <-]. by apply utf8_token.
  - destruct (cl_private cfg); [|done]. eexists. split; [done|]. by apply channel_auth_verifies.
Qed.
End joining.

(** ** Publishing *)

(** The decoding of a query ([application/x-www-form-urlencoded]); names and
    values of unreserved characters stand for themselves. *)
Class FormUrlEncoded : Type := { parse_query : string → list (string * string) }.

Definition form_safe (c : ascii) : bool :=
  Str.is_ascii_alphanumeric c || bool_decide (c ∈ ["*"; "-"; "."; "_"]%char).

Definition form_plain (s : string) : bool := Str.all form_safe s.

Class FormUrlEncodedLaws `{FormUrlEncoded} : Prop := {
  parse_query_plain ps :
    Forall (λ q, form_plain q.1 = true ∧ form_plain q.2 = true) ps →
    parse_query (join "&" (show_param <$> ps)) = ps
}.

Definition ascii_upper (c : ascii) : ascii :=
  let n := nat_of_ascii c in
  if (97 <=? n) && (n <=? 122) then ascii_of_nat (n - 32) else c.

Fixpoint ascii_uppercase (s : string) : string :=
  match s with EmptyString => EmptyString | String c s => String (ascii_upper c) (ascii_uppercase s) end.

(** [str::to_uppercase] on ASCII text. *)
Class UpperCaseLaws `{UnicodeCase} : Prop := {
  to_uppercase_ascii s : is_ascii s = true → to_uppercase s = ascii_uppercase s
}.








Section verifying.
Context `{Crypto, UnicodeCase, !UnicodeCaseLaws, !UpperCaseLaws}.


End verifying.

Section publishing.
Context `{SerdeText, SerdeTree, CryptoHex, UnicodeCase, !UnicodeCaseLaws, !UpperCaseLaws}.
Context `{IdleCache, Moka, HdrHistogram, FormUrlEncodedLaws}.












End publishing.

(** ** At concrete inputs

    A text format, digests, a query decoder and a histogram with the documented
    behaviour, and a client and a publisher against the node of RestWitness.v. *)

Module LoadDemo.
Import EnvelopeDemo.

(** Values as text: a tag, then the contents with each byte as two letters. *)
Fixpoint show (v : Value) : string :=
  match v with
  | JBool true => "1"
  | JBool false => "2"
  | JNumber (PosInt n) => "3" +:+ enc (pretty (Z.to_N n)) +:+ ";"
  | JString s => "4" +:+ enc s +:+ ";"
  | JArray l => "[" +:+ foldr (λ v t, show v +:+ t) "]" l
  | JObject m => "{" +:+ foldr (λ q t, let '(k, v) := q in "." +:+ enc k +:+ "=" +:+ show v +:+ t) "}" m
  | _ => "0"
  end.

Fixpoint read (fuel : nat) (s : string) : option (Value * string) :=
  match fuel, s with
  | S fuel, String "0" r => Some (JNull, r)
  | S fuel, String "1" r => Some (JBool true, r)
  | S fuel, String "2" r => Some (JBool false, r)
  | S fuel, String "3" r =>
      match dec_str r with
      | (d, String ";" r) => n ← Str.parse_uint U64.MAX d; Some (JNumber (PosInt n), r)
      | _ => None
      end
  | S fuel, String "4" r => match dec_str r with (d, String ";" r) => Some (JString d, r) | _ => None end
  | S fuel, String "[" r => '(l, r) ← items fuel r; Some (JArray l, r)
  | S fuel, String "{" r => '(m, r) ← fields fuel r; Some (JObject m, r)
  | _, _ => None
  end
with items (fuel : nat) (s : string) : option (list Value * string) :=
  match fuel, s with
  | S fuel, String "]" r => Some ([], r)
  | S fuel, s => '(v, r) ← read fuel s; '(l, r) ← items fuel r; Some (v :: l, r)
  | _, _ => None
  end
with fields (fuel : nat) (s : string) : option (list (string * Value) * string) :=
  match fuel, s with
  | S fuel, String "}" r => Some ([], r)
  | S fuel, String "." s =>
      match dec_str s with
      | (k, String "=" r) => '(v, r) ← read fuel r; '(m, r) ← fields fuel r; Some ((k, v) :: m, r)
      | _ => None
      end
  | _, _ => None
  end.

Definition show_items (l : list Value) : string := foldr (λ v t, show v +:+ t) "]" l.
Definition show_fields (m : list (string * Value)) : string :=
  foldr (λ q t, let '(k, v) := q in "." +:+ enc k +:+ "=" +:+ show v +:+ t) "}" m.

Lemma show_cons v : ∃ c t, show v = String c t ∧ c ≠ "]"%char.
Proof. destruct v as [|[]|[]| | |]; by eexists _, _. Qed.

Lemma show_items_length l : 1 ≤ String.length (show_items l).
Proof.
  destruct l as [|w l]; simpl; [lia|]. rewrite app_length. destruct (show_cons w) as (? & ? & -> & _). simpl. lia.
Qed.

Lemma read_shown fuel :
  (∀ v r, printable v = true → String.length (show v) ≤ fuel → read fuel (show v +:+ r) = Some (v, r)) ∧
  (∀ l r, forallb printable l = true → String.length (show_items l) ≤ fuel →
     items fuel (show_items l +:+ r) = Some (l, r)) ∧
  (∀ m r, forallb (λ q : string * Value, let '(k, v) := q in utf8 k && printable v) m = true →
     String.length (show_fields m) ≤ fuel → fields fuel (show_fields m +:+ r) = Some (m, r)).
Proof.
  induction fuel as [|fuel (IHv & IHl & IHm)].
  { split_and!; [intros v r _ Hf|intros l r _ Hf|intros m r _ Hf]; exfalso.
    - destruct (show_cons v) as (c & t & E & _). rewrite E in Hf. simpl in Hf. lia.
    - pose proof (show_items_length l). lia.
    - destruct m as [|[k v] m]; simpl in Hf; lia. }
  split_and!.
  - intros v r Hp Hf. destruct v as [|[]|[n|n|n]|s|l|m]; simpl in Hp; try done.
    + change (show (JNumber (PosInt n)) +:+ r) with (String "3" ((enc (pretty (Z.to_N n)) +:+ ";") +:+ r)).
      rewrite app_assoc_str. cbn [read]. change (";" +:+ r) with (String ";" r). rewrite dec_enc by done.
      to_prop. by rewrite parse_uint_pretty.
    + change (show (JString s) +:+ r) with (String "4" ((enc s +:+ ";") +:+ r)).
      rewrite app_assoc_str. cbn [read]. change (";" +:+ r) with (String ";" r). by rewrite dec_enc.
    + change (show (JArray l) +:+ r) with (String "[" (show_items l +:+ r)).
      change (show (JArray l)) with (String "[" (show_items l)) in Hf. simpl in Hf.
      cbn [read]. by rewrite IHl by (done || lia).
    + change (show (JObject m) +:+ r) with (String "{" (show_fields m +:+ r)).
      change (show (JObject m)) with (String "{" (show_fields m)) in Hf. simpl in Hf.
      cbn [read]. to_prop. by rewrite IHm by (done || lia).
  - intros [|v l] r Hp Hf; [done|]. simpl in Hp. to_prop.
    change (show_items (v :: l)) with (show v +:+ show_items l) in Hf |- *. rewrite app_length in Hf.
    rewrite app_assoc_str. pose proof (show_cons v) as (c & t & E & Hc).
    pose proof (show_items_length l).
    rewrite E in Hf |- *. simpl in Hf. change (String c t +:+ ?x) with (String c (t +:+ x)).
    assert (items (S fuel) (String c (t +:+ (show_items l +:+ r))) =
      ('(v, r) ← read fuel (String c (t +:+ (show_items l +:+ r))); '(l, r) ← items fuel r; Some (v :: l, r)))
      as -> by (destruct c as [[] [] [] [] [] [] [] []]; first [reflexivity|by destruct Hc]).
    change (String c (t +:+ ?x)) with (String c t +:+ x). rewrite <-E, IHv by (rewrite ?E; simpl; done || lia).
    simpl. by rewrite IHl by (done || lia).
  - intros [|[k v] m] r Hp Hf; [done|]. simpl in Hp. to_prop.
    change (show_fields ((k, v) :: m)) with ("." +:+ (enc k +:+ ("=" +:+ (show v +:+ show_fields m)))) in Hf |- *.
    rewrite !app_length in Hf. simpl in Hf. rewrite !app_assoc_str.
    change ("." +:+ ?x) with (String "." x). change ("=" +:+ ?x) with (String "=" x). cbn [fields].
    rewrite dec_enc by done. rewrite IHv by (done || lia). simpl. by rewrite IHm by (done || lia).
Qed.

Lemma agree_refl : ∀ v, agree v v.
Proof.
  fix IH 1. intros [|b|n|s|l|m]; constructor.
  - induction l as [|v l IHl]; constructor; [apply IH|exact IHl].
  - intros k. induction m as [|[k' v] m IHm]; simpl; [constructor|]. destruct (decide (k = k')); [constructor; apply IH|exact IHm].
Qed.

Lemma low_show : ∀ v, low (show v).
Proof.
  assert (∀ s, bool_decide (low s) = true → low s) as Hd by (intros s; apply bool_decide_eq_true_1).
  fix IH 1. intros [|[]|[n|n|n]|s|l|m]; try by apply Hd.
  1,2: apply (low_app (String _ _)); [by apply Hd|]; apply low_app; [apply low_enc|by apply Hd].
  - apply low_app; [by apply Hd|]. induction l as [|v l IHl]; [by apply Hd|]. apply low_app; [apply IH|exact IHl].
  - apply low_app; [by apply Hd|]. induction m as [|[k v] m IHm]; [by apply Hd|].
    apply low_app; [by apply Hd|]. apply low_app; [apply low_enc|]. apply low_app; [by apply Hd|].
    apply low_app; [apply IH|exact IHm].
Qed.

#[export] Instance json : SerdeJson := {|
  from_str s := match read (String.length s) s with Some (v, EmptyString) => Some v | _ => None end;
  to_string := show;
  number_to_string n := show (JNumber n);
  value_eqb v w := bool_decide (show v = show w)
|}.

Lemma app_nil_str s : s +:+ "" = s.
Proof. induction s as [|c s IH]; [done|]. change (String c (s +:+ "") = String c s). by rewrite IH. Qed.

#[export] Instance json_text : SerdeText.
Proof.
  split.
  - reflexivity.
  - intros v _. apply utf8_valid_ascii, low_show.
  - intros v Hp. exists v. split; [|apply agree_refl]. simpl.
    destruct (read_shown (String.length (show v))) as (Hr & _). specialize (Hr v "" Hp ltac:(lia)).
    rewrite app_nil_str in Hr. by rewrite Hr.
Qed.

(** Digests in hexadecimal: the bytes themselves. *)
Definition hex_digit (b0 b1 b2 b3 : bool) : ascii :=
  let n := nat_of_ascii (Ascii b0 b1 b2 b3 false false false false) in
  ascii_of_nat (if n <? 10 then 48 + n else 87 + n).

Fixpoint hex (s : string) : string :=
  match s with
  | EmptyString => EmptyString
  | String (Ascii b0 b1 b2 b3 b4 b5 b6 b7) s => String (hex_digit b4 b5 b6 b7) (String (hex_digit b0 b1 b2 b3) (hex s))
  end.

Lemma hex_is_hex s : Str.all is_hex (hex s) = true.
Proof.
  assert (∀ b0 b1 b2 b3, is_hex (hex_digit b0 b1 b2 b3) = true) as Hd by (intros [] [] [] []; reflexivity).
  induction s as [|[b0 b1 b2 b3 b4 b5 b6 b7] s IH]; [done|]. cbn [hex Str.all]. by rewrite !Hd, IH.
Qed.

#[export] Instance crypto : Crypto := {| hmac_sha256_hex s m := hex (s +:+ "/" +:+ m); md5_hex := hex |}.
#[export] Instance crypto_hex : CryptoHex.
Proof. split; intros; apply hex_is_hex. Qed.

#[export] Instance case : UnicodeCase := {| to_lowercase := ascii_lowercase; to_uppercase := ascii_uppercase |}.
#[export] Instance case_laws : UnicodeCaseLaws.
Proof. by constructor. Qed.
#[export] Instance upper_laws : UpperCaseLaws.
Proof. by constructor. Qed.

#[export] Instance histogram : HdrHistogram := {|
  Hist := list Z; hist_new := []; saturating_record n h := n :: h; hist_len h := Z.of_nat (length h);
  value_at_quantile _ h := default 0%Z (head h); hist_max := foldr Z.max 0%Z
|}.

(** A query: its pieces that are not empty, each cut at its first [=]. *)
#[export] Instance form : FormUrlEncoded := {|
  parse_query s :=
    (λ w, default (w, EmptyString) (Str.split_once "="%char w)) <$>
      filter (λ w, Str.is_empty w = false) (Str.split "&"%char s)
|}.

Lemma form_avoids c w : form_plain w = true → form_safe c = false → Str.all (λ a, bool_decide (a ≠ c)) w = true.
Proof.
  intros Hw Hc. eapply Str.all_impl; [|exact Hw]. intros a Ha. apply bool_decide_eq_true. intros ->. congruence.
Qed.

Lemma split_whole c w : Str.all (λ a, bool_decide (a ≠ c)) w = true → Str.split c w = [w].
Proof.
  induction w as [|a w IH]; intros Hw; simpl in *; [done|]. to_prop. rewrite decide_False by done. by rewrite IH.
Qed.

#[export] Instance form_laws : FormUrlEncodedLaws.
Proof.
  split. intros ps Hps.
  assert (∀ q, form_plain q.1 = true ∧ form_plain q.2 = true →
    Str.all (λ a, bool_decide (a ≠ "&"%char)) (show_param q) = true ∧ Str.is_empty (show_param q) = false ∧
    Str.split_once "="%char (show_param q) = Some q) as Hq.
  { intros [k v] [Hk Hv]. simpl in Hk, Hv. unfold show_param. cbn [fst snd]. split_and!.
    - rewrite !Str.all_app, (form_avoids "&" k), (form_avoids "&" v) by done. reflexivity.
    - by destruct k.
    - apply Str.split_once_Some. split; [done|]. by apply form_avoids. }
  change (parse_query ?s) with ((λ w, default (w, EmptyString) (Str.split_once "="%char w)) <$>
      filter (λ w, Str.is_empty w = false) (Str.split "&"%char s)).
  induction Hps as [|q ps H1 Hps IH]; [reflexivity|]. destruct (Hq q H1) as (Ha & He & Hs).
  destruct ps as [|q' ps].
  - change (join "&" (show_param <$> [q])) with (show_param q).
    rewrite split_whole, filter_cons_True by done. by rewrite fmap_cons, Hs.
  - change (join "&" (show_param <$> q :: q' :: ps))
      with (show_param q +:+ String "&" (join "&" (show_param <$> q' :: ps))).
    rewrite Str.split_before, filter_cons_True, fmap_cons, IH, Hs by done. done.
Qed.
End LoadDemo.

Section witnesses.
Import LoadDemo.
#[local] Existing Instance RestDemo.tree.
#[local] Existing Instance RestDemo.cache.
#[local] Existing Instance RestDemo.moka.

Definition viewer : ClientConfig := mkClientConfig "key" "secret" "private-room" true "run1".
Definition greeted : SocketId.t := SocketId.generate 4242 1717.

Lemma load_client_subscribes_witness :
  let c := client_start true hist_new Counters_default in
  let greeting := wire_encode_first (ConnectionEstablished greeted 120) in
  let c' := client_step viewer c (Incoming (Some (MText greeting)) true 5) in
  ∃ text token, cl_phase c' = Receiving ∧ cl_out c' = [MText text] ∧
    Frames.decode text = Ok (Cmd.Subscribe "private-room" (Some token) None) ∧
    channel_verify "key" "secret" "4242.1717" "private-room" None token = Ok tt.
Proof.
  destruct (load_client_subscribes viewer (client_start true hist_new Counters_default) greeted 120 5)
    as (text & auth & Hp & Ho & Hd & Hv); [reflexivity|vm_compute; reflexivity|vm_compute; split; discriminate|reflexivity..|].
  cbn [cl_private viewer] in Hv. destruct Hv as (token & -> & Hv). exists text, token.
  split; [exact Hp|]. split; [exact Ho|]. split; [exact Hd|exact Hv].
Defined.


End witnesses.
