(* ===== verification/Ramp.v ===== *)
(** * The ceiling search of the load generator: [src/load/src/ceiling]

    The two ramps that look for a node's limits, over the samples they take of
    it: connections in batches until memory, failures or a plateau stop them,
    and the publish rate until drops, latency or the processor do. With the
    open-loop publisher, the reading of the host's files and the sizing made
    from the results. *)

From Stdlib Require Import SpecFloat.
From stdpp Require Import pretty.
From S2P Require Import Prelude RustStd Outbound Rate Text Config.

(** [u64] arithmetic of a release build. *)
Definition u64_add (a b : Z) : Z := ((a + b) mod 2 ^ 64)%Z.
Definition u64_mul (a b : Z) : Z := ((a * b) mod 2 ^ 64)%Z.
Definition u64_sub (a b : Z) : Z := ((a - b) mod 2 ^ 64)%Z.

(** ** [spec.rs] and the files of [metrics.rs] *)

Record BoxSpec : Type := mkBoxSpec {
  logical_cores : Z;
  physical_cores : Z;
  total_ram_bytes : Z;
  cgroup_mem_limit : option Z;
  kernel : string
}.

Fixpoint find_map {A B} (f : A → option B) (l : list A) : option B :=
  match l with
  | [] => None
  | x :: l => match f x with Some y => Some y | None => find_map f l end
  end.

(** The first word of a text, as a [u64]. *)
Definition first_number (rest : string) : option Z :=
  w ← head (split_whitespace rest); Str.parse_uint U64.MAX w.

Definition parse_mem_total_kb (meminfo : string) : option Z :=
  find_map (λ l, rest ← Str.strip_prefix "MemTotal:" l; first_number rest) (lines meminfo).

Fixpoint trim_start_matches (cs : list ascii) (s : string) : string :=
  match s with
  | String c r => if bool_decide (c ∈ cs) then trim_start_matches cs r else s
  | EmptyString => s
  end.

Definition tab : ascii := "009"%char.

(** A line [key : value] of [/proc/cpuinfo]. *)
Definition cpu_val (l key : string) : option string :=
  r ← Str.strip_prefix key l; Some (str_trim (trim_start_matches [":"%char; " "%char; tab] r)).

Record CpuBlock : Type := mkCpuBlock {
  cb_pairs : gset (string * string);
  cb_phys : string;
  cb_core : option string;
  cb_in_block : bool
}.

Definition close_block (b : CpuBlock) : gset (string * string) :=
  if cb_in_block b then
    match cb_core b with Some c => {[ (cb_phys b, c) ]} ∪ cb_pairs b | None => cb_pairs b end
  else cb_pairs b.

Definition cpu_line (b : CpuBlock) (line : string) : CpuBlock :=
  if Str.starts_with "processor" line then mkCpuBlock (close_block b) "0" None true
  else match cpu_val line "physical id" with
       | Some v => mkCpuBlock (cb_pairs b) v (cb_core b) (cb_in_block b)
       | None =>
           match cpu_val line "core id" with
           | Some v => mkCpuBlock (cb_pairs b) (cb_phys b) (Some v) (cb_in_block b)
           | None => b
           end
       end.

Definition parse_physical_cores (cpuinfo : string) : option Z :=
  let pairs := close_block (foldl cpu_line (mkCpuBlock ∅ "0" None false) (lines cpuinfo)) in
  if decide (pairs = ∅) then None else Some (Z.of_nat (size pairs)).

Definition parse_cgroup_max (s : string) : option Z :=
  let t := str_trim s in if decide (t = "max") then None else Str.parse_uint U64.MAX t.

(** [detect], over what the host answers. *)
Definition detect (parallelism : option Z) (cpuinfo meminfo memory_max osrelease : option string) : BoxSpec :=
  let logical := default 1%Z parallelism in
  mkBoxSpec logical (default logical (parse_physical_cores (default EmptyString cpuinfo)))
    (u64_mul (default 0%Z (parse_mem_total_kb (default EmptyString meminfo))) 1024)
    (memory_max ≫= parse_cgroup_max) (str_trim (default EmptyString osrelease)).

Definition effective_mem_bytes (s : BoxSpec) : Z :=
  match cgroup_mem_limit s with
  | Some c => if (c <? total_ram_bytes s)%Z then c else total_ram_bytes s
  | None => total_ram_bytes s
  end.

(** The first line with the prefix decides. *)
Fixpoint rss_of_lines (ls : list string) : option Z :=
  match ls with
  | [] => None
  | l :: ls =>
      match Str.strip_prefix "VmRSS:" l with
      | Some rest => first_number rest
      | None => rss_of_lines ls
      end
  end.

Definition parse_rss_kb (status : string) : option Z := rss_of_lines (lines status).

(** What follows the last [c]. *)
Fixpoint after_last (c : ascii) (s : string) : option string :=
  match s with
  | EmptyString => None
  | String a r =>
      match after_last c r with
      | Some t => Some t
      | None => if decide (a = c) then Some r else None
      end
  end.

(** The user and system ticks of [/proc/<pid>/stat]. The slice two bytes past the
    last parenthesis panics, [None], when it is out of range or splits a
    character. *)
Definition parse_cpu_ticks (stat : string) : option (option (Z * Z)) :=
  match after_last ")"%char stat with
  | None => Some None
  | Some EmptyString => None
  | Some (String _ rest) =>
      if match rest with String c _ => is_cont (u8_of_ascii c) | EmptyString => false end then None
      else
        let f := split_whitespace rest in
        Some (utime ← f !! 11 ≫= Str.parse_uint U64.MAX; stime ← f !! 12 ≫= Str.parse_uint U64.MAX;
              Some (utime, stime))
  end.

(** ** [mpstat.rs] *)

Record CpuSample : Type := mkCpuSample { cs_per_core_busy : list f64; cs_mean_busy : f64 }.

Definition mpstat_line (acc : list f64 * option f64) (line : string) : list f64 * option f64 :=
  let cols := split_whitespace line in
  match cols, last cols ≫= F64Parse.parse with
  | _ :: label :: _ :: _, Some idle =>
      let busy := F64.sub (F64.of_uint 100) idle in
      if decide (label = "all") then (acc.1, Some busy)
      else match Str.parse_uint U64.MAX label with Some _ => (acc.1 ++ [busy], acc.2) | None => acc end
  | _, _ => acc
  end.

Definition parse_mpstat (out : string) : option CpuSample :=
  let '(per_core, mean) := foldl mpstat_line ([], None)
    (filter (λ l, Str.starts_with "Average:" l = true) (lines out)) in
  mean ← mean;
  if decide (per_core = []) then None else Some (mkCpuSample per_core mean).

(** ** The connection ramp: [conn_ramp.rs] *)

Inductive StopReason : Type := MemCeiling | ConnectFailures | MaxConns | Backpressure.

Record ConnCeiling : Type := mkConnCeiling {
  cc_max_conns : Z;
  cc_rss_bytes_at_max : Z;
  cc_bytes_per_conn : Z;
  cc_conns_per_gb : Z;
  cc_stop_reason : StopReason
}.

Record ConnRampOpts : Type := mkConnRampOpts {
  co_conn_batch : Z;
  co_max_conns : Z;
  co_mem_ceiling_pct : Z;
  co_fail_threshold : Z
}.

Definition should_stop (rss mem_ceiling connect_failed fail_threshold conns max_conns : Z) : option StopReason :=
  if (mem_ceiling <=? rss)%Z then Some MemCeiling
  else if (0 <? fail_threshold)%Z && (fail_threshold <=? connect_failed)%Z then Some ConnectFailures
  else if (0 <? max_conns)%Z && (max_conns <=? conns)%Z then Some MaxConns
  else None.

(** What is sampled after a batch has settled. *)
Record Batch : Type := mkBatch { bt_rss : option Z; bt_failed : Z; bt_subscribed : Z }.

(** The loop: the reason and the memory at the stop, or [None] while it goes on. *)
Fixpoint conn_loop (opts : ConnRampOpts) (mem_ceiling rss last_subscribed : Z) (batches : list Batch)
    : option (StopReason * Z) :=
  match batches with
  | [] => None
  | b :: batches =>
      let rss := default rss (bt_rss b) in
      match should_stop rss mem_ceiling (bt_failed b) (co_fail_threshold opts) (bt_subscribed b) (co_max_conns opts) with
      | Some reason => Some (reason, rss)
      | None =>
          if (U64.saturating_sub (bt_subscribed b) last_subscribed <? co_conn_batch opts / 2)%Z
          then Some (Backpressure, rss)
          else conn_loop opts mem_ceiling rss (bt_subscribed b) batches
      end
  end.

Definition checked_div (a b : Z) : option Z := if (b =? 0)%Z then None else Some (a / b)%Z.

(** [conn_ramp::run]; [subscribed] is the counter when the loop has ended. *)
Definition conn_run (idle : option Z) (spec : BoxSpec) (opts : ConnRampOpts) (batches : list Batch) (subscribed : Z)
    : option ConnCeiling :=
  let rss_idle := default 0%Z idle in
  let mem_ceiling := (u64_mul (effective_mem_bytes spec) (co_mem_ceiling_pct opts) / 100)%Z in
  match conn_loop opts mem_ceiling rss_idle 0 batches with
  | None => None
  | Some (reason, rss) =>
      let bytes_per_conn := default 0%Z (checked_div (U64.saturating_sub rss rss_idle) subscribed) in
      let conns_per_gb := default 0%Z (checked_div (2 ^ 30) bytes_per_conn) in
      Some (mkConnCeiling subscribed rss bytes_per_conn conns_per_gb reason)
  end.

(** ** The open-loop publisher: [openloop.rs] *)

(** A tick: whether a permit was free, and whether the publish succeeded. *)
Record Tick : Type := mkTick { tk_permit : bool; tk_ok : bool }.

Record OpenLoop : Type := mkOpenLoop {
  ol_attempted : Z;
  ol_succeeded : Z;
  ol_blocked : Z;
  ol_seq : Z;
  ol_published : list (string * Z)
}.

(** [channels[seq % len]]; the remainder by an empty list panics. *)
Definition channel_at (channels : list string) (seq : Z) : option string :=
  if decide (channels = []) then None else channels !! Z.to_nat (seq mod Z.of_nat (length channels)).

Definition openloop_tick (channels : list string) (o : OpenLoop) (t : Tick) : option OpenLoop :=
  if tk_permit t then
    ch ← channel_at channels (ol_seq o);
    Some (mkOpenLoop (ol_attempted o + 1) (if tk_ok t then ol_succeeded o + 1 else ol_succeeded o)%Z (ol_blocked o)
      (ol_seq o + 1) (ol_published o ++ [(ch, ol_seq o)]))
  else Some (mkOpenLoop (ol_attempted o) (ol_succeeded o) (ol_blocked o + 1) (ol_seq o) (ol_published o)).

Definition publish_openloop (channels : list string) (ticks : list Tick) : option OpenLoop :=
  foldl (λ o t, o ≫= λ o, openloop_tick channels o t) (Some (mkOpenLoop 0 0 0 0 [])) ticks.

Definition inflight_saturated_pct (o : OpenLoop) : f64 :=
  if (ol_attempted o + ol_blocked o =? 0)%Z then S754_zero false
  else F64.div (F64.mul (F64.of_uint 100) (F64.of_uint (ol_blocked o))) (F64.of_uint (ol_attempted o + ol_blocked o)).

(** ** The rate ramp: [rate_ramp.rs] *)

Record TputStep : Type := mkTputStep {
  ts_rate : Z;
  ts_delivered_per_s : Z;
  ts_drop_pct : f64;
  ts_p50_ms : Z;
  ts_p99_ms : Z;
  ts_cpu_busy_pct : f64;
  ts_per_core_busy : list f64
}.

Inductive TputStop : Type := Drops | LatencyBudget | CpuSaturated | MaxRate.

#[export] Instance TputStop_eq_dec : EqDecision TputStop.
Proof. solve_decision. Defined.

Record TputCeiling : Type := mkTputCeiling {
  tc_best : TputStep;
  tc_steps : list TputStep;
  tc_stop_reason : TputStop
}.

Record RateRampOpts : Type := mkRateRampOpts {
  ro_tput_conns : Z;
  ro_channels : Z;
  ro_rate_start : Z;
  ro_rate_step : Z;
  ro_max_rate : Z;
  ro_p99_budget_ms : Z;
  ro_step_secs : Z;
  ro_server_cores : Z
}.

Definition tput_should_stop (drop_pct : f64) (p99_ms p99_budget : Z) (cpu_busy_pct : f64) (rate max_rate : Z)
    : option TputStop :=
  if F64.lt (F64Parse.of_decimal 1 (-1)) drop_pct then Some Drops
  else if (p99_budget <? p99_ms)%Z then Some LatencyBudget
  else if F64.le (F64.of_uint 95) cpu_busy_pct then Some CpuSaturated
  else if (0 <? max_rate)%Z && (max_rate <=? rate)%Z then Some MaxRate
  else None.

(** What one step observes. *)
Record Sample : Type := mkSample {
  sm_received_before : Z;
  sm_received_after : Z;
  sm_ticks_before : option (Z * Z);
  sm_ticks_after : option (Z * Z);
  sm_attempted : Z;
  sm_p50_us : Z;
  sm_p99_us : Z;
  sm_per_core : option (list f64)
}.

Definition ch_count (opts : RateRampOpts) : Z := Z.max (ro_channels opts) 1.

Definition recipients_per_event (opts : RateRampOpts) : Z := Z.max (ro_tput_conns opts / ch_count opts) 1.

Definition drop_pct (expected delivered : Z) : f64 :=
  if (0 <? expected)%Z then
    F64.div (F64.mul (F64.of_uint 100) (F64.of_uint (U64.saturating_sub expected delivered))) (F64.of_uint expected)
  else S754_zero false.

Definition cpu_busy_pct (opts : RateRampOpts) (s : Sample) : f64 :=
  let '(u0, s0) := default (0, 0)%Z (sm_ticks_before s) in
  let '(u1, s1) := default (u0, s0) (sm_ticks_after s) in
  let ticks := U64.saturating_sub (u64_add u1 s1) (u64_add u0 s0) in
  let cores_used := F64.div (F64.div (F64.of_uint ticks) (F64.of_uint 100)) (F64.of_uint (Z.max (ro_step_secs opts) 1)) in
  if (0 <? ro_server_cores opts)%Z
  then F64.div (F64.mul (F64.of_uint 100) cores_used) (F64.of_uint (ro_server_cores opts))
  else S754_zero false.

Definition tput_step (opts : RateRampOpts) (rate : Z) (s : Sample) : TputStep :=
  let delivered := u64_sub (sm_received_after s) (sm_received_before s) in
  let expected := u64_mul (sm_attempted s) (recipients_per_event opts) in
  mkTputStep rate (delivered / Z.max (ro_step_secs opts) 1) (drop_pct expected delivered)
    (sm_p50_us s / 1000) (sm_p99_us s / 1000) (cpu_busy_pct opts s) (default [] (sm_per_core s)).

Definition step_stop (opts : RateRampOpts) (st : TputStep) : option TputStop :=
  tput_should_stop (ts_drop_pct st) (ts_p99_ms st) (ro_p99_budget_ms opts) (ts_cpu_busy_pct st) (ts_rate st)
    (ro_max_rate opts).

(** The loop, over the samples of its steps: the steps so far and the last clean one. *)
Fixpoint rate_loop (opts : RateRampOpts) (rate : Z) (steps : list TputStep) (last_clean : option TputStep)
    (samples : list Sample) : option (list TputStep * option TputStep * TputStop) :=
  match samples with
  | [] => None
  | s :: samples =>
      let step := tput_step opts rate s in
      let steps := steps ++ [step] in
      match step_stop opts step with
      | Some reason =>
          let last_clean := if decide (reason = MaxRate) then Some step else last_clean in
          Some (steps, last_clean, reason)
      | None => rate_loop opts (u64_add rate (ro_rate_step opts)) steps (Some step) samples
      end
  end.

(** [rate_ramp::run]; the best is the last clean step, or the first. *)
Definition rate_run (opts : RateRampOpts) (samples : list Sample) : option TputCeiling :=
  '(steps, last_clean, reason) ← rate_loop opts (ro_rate_start opts) [] None samples;
  best ← match last_clean with Some b => Some b | None => head steps end;
  Some (mkTputCeiling best steps reason).

(** ** Sizing: [report.rs] *)

Record Recommendation : Type := mkRecommendation { rec_ram_bytes : Z; rec_cores : Z; rec_binding : string }.

Definition div_ceil_u64 (a b : Z) : Z := (- (- a / b))%Z.

Definition recommend (conn : ConnCeiling) (tput : TputCeiling) (physical_cores box_ram_bytes target_conns target_rate : Z)
    : Recommendation :=
  let ram_bytes := (U64.saturating_mul (U64.saturating_mul target_conns (cc_bytes_per_conn conn)) 13 / 10)%Z in
  let per_core := (ts_delivered_per_s (tc_best tput) / Z.max physical_cores 1)%Z in
  let need := (U64.saturating_mul target_rate 15 / 10)%Z in
  let cores := Z.max (div_ceil_u64 need (Z.max per_core 1)) 1 in
  let box_ram_per_core := (box_ram_bytes / Z.max physical_cores 1)%Z in
  let ram_per_core_needed := (ram_bytes / cores)%Z in
  mkRecommendation ram_bytes cores
    (if (box_ram_per_core <? ram_per_core_needed)%Z then "memory" else "cpu").

(** Digits with a comma between groups of three, from the last one. *)
Fixpoint group_from (i : nat) (rev : list ascii) : list ascii :=
  match rev with
  | [] => []
  | c :: rev =>
      (if (0 <? i)%nat && (i mod 3 =? 0)%nat then [","%char; c] else [c]) ++ group_from (S i) rev
  end.

Definition fmt_thousands (n : Z) : string :=
  String.string_of_list_ascii (reverse (group_from 0 (reverse (String.list_ascii_of_string (pretty (Z.to_N n)))))).

(** ** Reading the ticks *)

Lemma after_last_app c pre post : Str.all (λ a, bool_decide (a ≠ c)) post = true →
  after_last c (pre +:+ String c post) = Some post.
Proof.
  intros Hp. assert (after_last c post = None) as Hn.
  { induction post as [|a post IH]; [done|]. simpl in Hp |- *. to_prop. rewrite IH by done. by rewrite decide_False. }
  induction pre as [|a pre IH].
  - simpl. by rewrite Hn, decide_True.
  - change (String a pre +:+ String c post) with (String a (pre +:+ String c post)). simpl. by rewrite IH.
Qed.

(** Whatever the name of a process holds, spaces and parentheses included, its
    ticks are read from the fields behind it. *)
Theorem cpu_ticks_any_name (pid comm fields : string) :
  Str.all (λ a, bool_decide (a ≠ ")"%char)) fields = true →
  match fields with String c _ => is_cont (u8_of_ascii c) = false | EmptyString => True end →
  parse_cpu_ticks (pid +:+ " (" +:+ comm +:+ ") " +:+ fields) =
  Some (utime ← split_whitespace fields !! 11 ≫= Str.parse_uint U64.MAX;
        stime ← split_whitespace fields !! 12 ≫= Str.parse_uint U64.MAX; Some (utime, stime)).
Proof.
  intros Hf Hc. unfold parse_cpu_ticks.
  assert (pid +:+ " (" +:+ comm +:+ ") " +:+ fields = (pid +:+ " (" +:+ comm) +:+ String ")" (String " " fields)) as ->
    by by rewrite <-!string_app_assoc.
  rewrite after_last_app by (simpl; by rewrite Hf). by destruct fields; [|rewrite Hc].
Qed.

(** ** The connection ramp ends *)

Lemma conn_loop_goes_on opts mem_ceiling batches : ∀ rss last,
  (0 < co_max_conns opts)%Z → (1 <= co_conn_batch opts / 2)%Z → conn_loop opts mem_ceiling rss last batches = None →
  batches ≠ [] → (last + co_conn_batch opts / 2 * Z.of_nat (length batches) < co_max_conns opts)%Z.
Proof.
  induction batches as [|b batches IH]; intros rss last Hm Hh Hl Hne; [done|]. cbn [conn_loop] in Hl.
  unfold should_stop in Hl. destruct (Z.leb_spec mem_ceiling (default rss (bt_rss b))); [done|].
  destruct (_ && _); [done|]. rewrite (proj2 (Z.ltb_lt _ _) Hm) in Hl. simpl in Hl.
  destruct (Z.leb_spec (co_max_conns opts) (bt_subscribed b)); [done|].
  unfold U64.saturating_sub in Hl. destruct (Z.ltb_spec (Z.max (bt_subscribed b - last) 0) (co_conn_batch opts / 2)); [done|].
  destruct (decide (batches = [])) as [->|Hn]; [cbn [length]; lia|].
  specialize (IH _ _ Hm Hh Hl Hn). cbn [length]. lia.
Qed.

(** With a limit and batches of at least two, the ramp stops: every batch that
    does not stop it brings half a batch of subscribers more. *)
Theorem conn_ramp_stops (idle : option Z) (spec : BoxSpec) (opts : ConnRampOpts) (batches : list Batch)
    (subscribed : Z) :
  (2 <= co_conn_batch opts)%Z → (0 < co_max_conns opts)%Z →
  (co_max_conns opts / (co_conn_batch opts / 2) < Z.of_nat (length batches))%Z →
  is_Some (conn_run idle spec opts batches subscribed).
Proof.
  intros Hb Hm Hn. unfold conn_run. destruct (conn_loop _ _ _ _ _) as [[reason rss]|] eqn:E; [by eexists|].
  assert (1 <= co_conn_batch opts / 2)%Z as Hh by (apply Z.div_le_lower_bound; lia).
  assert (batches ≠ []) as Hne.
  { intros ->. simpl in Hn. pose proof (Z.div_pos (co_max_conns opts) (co_conn_batch opts / 2)). lia. }
  apply conn_loop_goes_on in E; [|done|lia|done].
  pose proof (Z.mul_succ_div_gt (co_max_conns opts) (co_conn_batch opts / 2) ltac:(lia)). nia.
Qed.

(** Batches of one connection defeat the plateau check: against a server that
    accepts no more, without failing, the ramp goes on forever. *)
Theorem single_batches_never_plateau (spec : BoxSpec) (opts : ConnRampOpts) (rss subscribed : Z) (n : nat) :
  co_conn_batch opts = 1%Z → (0 <= subscribed)%Z → (co_max_conns opts = 0 ∨ subscribed < co_max_conns opts)%Z →
  (0 < co_fail_threshold opts)%Z →
  (rss < u64_mul (effective_mem_bytes spec) (co_mem_ceiling_pct opts) / 100)%Z →
  conn_run (Some rss) spec opts (replicate n (mkBatch (Some rss) 0 subscribed)) subscribed = None.
Proof.
  intros Hb Hs Hm Hf Hr. unfold conn_run. cbn [default from_option id]. set (ceiling := (_ / 100)%Z) in *.
  assert (∀ last, conn_loop opts ceiling rss last (replicate n (mkBatch (Some rss) 0 subscribed)) = None) as ->; [|done].
  induction n as [|n IH]; intros last; [done|]. cbn [replicate conn_loop bt_rss bt_failed bt_subscribed default from_option id].
  unfold should_stop. destruct (Z.leb_spec ceiling rss); [lia|].
  destruct (Z.ltb_spec 0 (co_fail_threshold opts)), (Z.leb_spec (co_fail_threshold opts) 0); try lia. simpl.
  assert ((0 <? co_max_conns opts)%Z && (co_max_conns opts <=? subscribed)%Z = false) as ->.
  { destruct (Z.ltb_spec 0 (co_max_conns opts)), (Z.leb_spec (co_max_conns opts) subscribed); (done || lia). }
  rewrite Hb. change (1 / 2)%Z with 0%Z. destruct (Z.ltb_spec (U64.saturating_sub subscribed last) 0) as [Hx|];
    [unfold U64.saturating_sub in Hx; lia|]. apply IH.
Qed.

(** ** The rate ramp finds the ceiling *)

Section rate_ramp.
Context (opts : RateRampOpts).

Definition rate_at (rate : Z) (i : nat) : Z := (rate + Z.of_nat i * ro_rate_step opts)%Z.

(** The steps of a ramp from [rate]. *)
Definition ramp_steps (rate : Z) (samples : list Sample) : list TputStep :=
  imap (λ i s, tput_step opts (rate_at rate i) s) samples.

Lemma step_below st : (0 < ro_max_rate opts)%Z → step_stop opts st = None → (ts_rate st < ro_max_rate opts)%Z.
Proof.
  unfold step_stop, tput_should_stop. intros Hm. repeat case_match; try done. rewrite (proj2 (Z.ltb_lt _ _) Hm) in *.
  simpl in *. by to_prop.
Qed.

Hypothesis Hmax : (0 < ro_max_rate opts)%Z.
Hypothesis Hstep : (0 < ro_rate_step opts)%Z.
Hypothesis Hwidth : (ro_max_rate opts + ro_rate_step opts < 2 ^ 64)%Z.

Lemma next_rate rate s : (0 <= rate)%Z → step_stop opts (tput_step opts rate s) = None →
  (rate < ro_max_rate opts)%Z ∧ u64_add rate (ro_rate_step opts) = (rate + ro_rate_step opts)%Z.
Proof. intros Hr Hs. apply step_below in Hs; [|done]. simpl in Hs. split; [done|]. apply Z.mod_small. lia. Qed.

Lemma rate_loop_goes_on samples : ∀ rate steps lc, (0 <= rate)%Z →
  rate_loop opts rate steps lc samples = None → samples ≠ [] →
  (rate + ro_rate_step opts * (Z.of_nat (length samples) - 1) < ro_max_rate opts)%Z.
Proof.
  induction samples as [|s samples IH]; intros rate steps lc Hr Hl Hne; [done|]. cbn [rate_loop] in Hl.
  destruct (step_stop _ _) as [r|] eqn:E; [done|]. apply next_rate in E as [Hlt E]; [|done]. rewrite E in Hl.
  destruct (decide (samples = [])) as [->|Hn]; [simpl; lia|].
  assert (0 <= rate + ro_rate_step opts)%Z as Hr2 by lia.
  specialize (IH _ _ _ Hr2 Hl Hn). simpl. lia.
Qed.

(** What the loop returns: the steps up to the first that trips. *)
Lemma rate_loop_spec samples : ∀ rate steps lc steps' lc' reason, (0 <= rate)%Z →
  rate_loop opts rate steps lc samples = Some (steps', lc', reason) →
  ∃ pre s post, samples = pre ++ s :: post ∧ steps' = steps ++ ramp_steps rate (pre ++ [s]) ∧
    Forall (λ st, step_stop opts st = None) (ramp_steps rate pre) ∧
    step_stop opts (tput_step opts (rate_at rate (length pre)) s) = Some reason ∧
    lc' = if decide (reason = MaxRate) then Some (tput_step opts (rate_at rate (length pre)) s)
          else match last (ramp_steps rate pre) with Some st => Some st | None => lc end.
Proof.
  induction samples as [|s samples IH]; intros rate steps lc steps' lc' reason Hr Hl; [done|]. cbn [rate_loop] in Hl.
  assert (rate_at rate 0 = rate) as H0 by (unfold rate_at; lia).
  destruct (step_stop opts (tput_step opts rate s)) as [r|] eqn:E.
  - injection Hl as <- <- <-. exists [], s, samples. simpl. unfold ramp_steps. simpl. rewrite H0. by rewrite E.
  - pose proof (next_rate rate s Hr E) as [Hlt Ha]. rewrite Ha in Hl.
    assert (0 <= rate + ro_rate_step opts)%Z as Hr2 by lia.
    destruct (IH _ _ _ _ _ _ Hr2 Hl) as (pre & s' & post & -> & -> & Hc & Hs & ->).
    assert (∀ i, rate_at (rate + ro_rate_step opts) i = rate_at rate (S i)) as Hra by (intros; unfold rate_at; lia).
    assert (∀ l, ramp_steps rate (s :: l) = tput_step opts rate s :: ramp_steps (rate + ro_rate_step opts) l) as Hrs.
    { intros l. unfold ramp_steps. rewrite imap_cons, H0. f_equal. apply imap_ext. intros i x _. simpl. by rewrite Hra. }
    exists (s :: pre), s', post. change ((s :: pre) ++ [s']) with (s :: (pre ++ [s'])). rewrite !Hrs.
    split; [done|]. split; [by rewrite <-app_assoc|]. split; [by constructor|]. rewrite Hra in *. split; [done|]. case_decide; [done|].
    rewrite last_cons. by destruct (last _).
Qed.
End rate_ramp.

(** C39. The rate ramp returns, and with the ceiling: given a limit and a step, after
    at most as many steps as fit below the limit it stops at the first rate that
    drops, is late, saturates the processor or reaches the limit; every earlier
    step was clean; and the best is the last clean step, or the first step when
    that already trips. *)
Theorem rate_ramp_finds_ceiling (opts : RateRampOpts) (samples : list Sample) :
  (0 < ro_max_rate opts)%Z → (0 < ro_rate_step opts)%Z → (ro_max_rate opts + ro_rate_step opts < 2 ^ 64)%Z →
  (0 <= ro_rate_start opts)%Z → samples ≠ [] →
  (ro_max_rate opts - ro_rate_start opts <= ro_rate_step opts * (Z.of_nat (length samples) - 1))%Z →
  ∃ c pre s post, rate_run opts samples = Some c ∧ samples = pre ++ s :: post ∧
    let clean := ramp_steps opts (ro_rate_start opts) pre in
    let tripped := tput_step opts (rate_at opts (ro_rate_start opts) (length pre)) s in
    tc_steps c = clean ++ [tripped] ∧ Forall (λ st, step_stop opts st = None) clean ∧
    step_stop opts tripped = Some (tc_stop_reason c) ∧
    tc_best c = if decide (tc_stop_reason c = MaxRate) then tripped else default tripped (last clean).
Proof.
  intros Hm Hst Hw Hr Hne Hlen. unfold rate_run.
  destruct (rate_loop opts (ro_rate_start opts) [] None samples) as [[[steps lc] reason]|] eqn:E.
  2: { apply rate_loop_goes_on in E; [lia|done..]. }
  destruct (rate_loop_spec opts Hm Hst Hw _ _ _ _ _ _ _ Hr E) as (pre & s & post & -> & -> & Hc & Hs & ->).
  assert (∀ l x, ramp_steps opts (ro_rate_start opts) (l ++ [x]) =
    ramp_steps opts (ro_rate_start opts) l ++ [tput_step opts (rate_at opts (ro_rate_start opts) (length l)) x]) as Happ.
  { intros l x. unfold ramp_steps. rewrite imap_app. simpl. by rewrite Nat.add_0_r. }
  rewrite Happ in *. set (clean := ramp_steps opts _ pre) in *. set (tripped := tput_step _ _ s) in *.
  exists (mkTputCeiling (if decide (reason = MaxRate) then tripped else default tripped (last clean))
    (clean ++ [tripped]) reason), pre, s, post.
  split; [|by split_and!]. cbn. case_decide; [done|]. destruct (last clean) as [b|] eqn:El; [done|].
  apply last_None in El. by rewrite El.
Qed.

(** ** The open loop *)

Lemma channel_at_nth channels (n : nat) : channels ≠ [] →
  channel_at channels (Z.of_nat n) = channels !! (n mod length channels) ∧ is_Some (channels !! (n mod length channels)).
Proof.
  intros Hne. unfold channel_at. rewrite decide_False by done. rewrite <-Nat2Z.inj_mod, Nat2Z.id. split; [done|].
  apply lookup_lt_is_Some, Nat.mod_upper_bound. by destruct channels.
Qed.

(** The open loop accounts for every tick, as published or as shed, and
    publishes to its channels in turn. *)
Theorem openloop_accounts (channels : list string) (ticks : list Tick) :
  channels ≠ [] →
  ∃ o, publish_openloop channels ticks = Some o ∧
    ol_attempted o = Z.of_nat (length (filter (λ t, tk_permit t = true) ticks)) ∧
    ol_succeeded o = Z.of_nat (length (filter (λ t, tk_permit t && tk_ok t = true) ticks)) ∧
    (ol_attempted o + ol_blocked o = Z.of_nat (length ticks))%Z ∧
    ol_seq o = ol_attempted o ∧ length (ol_published o) = Z.to_nat (ol_attempted o) ∧
    ∀ i ch seq, ol_published o !! i = Some (ch, seq) →
      seq = Z.of_nat i ∧ channels !! (i mod length channels) = Some ch.
Proof.
  intros Hne. induction ticks as [|t ticks IH] using rev_ind.
  { eexists. split; [reflexivity|]. simpl. split_and!; done. }
  destruct IH as (o & Ho & Ha & Hs & Hb & Hq & Hl & Hp). unfold publish_openloop in *. rewrite foldl_app, Ho. simpl.
  rewrite !filter_app, !length_app. unfold openloop_tick. destruct t as [[] ok]; simpl.
  - pose proof (channel_at_nth channels (length (ol_published o)) Hne) as [Hc [ch Hch]].
    rewrite Hl, Z2Nat.id in Hc by lia. rewrite Hl in Hch. rewrite Hq, Hc, Hch. eexists. split; [reflexivity|]. simpl.
    split_and!; [lia| |lia|lia|rewrite length_app; simpl; lia|].
    { destruct ok; simpl; lia. }
    intros i ch' seq Hi. apply lookup_app_Some in Hi as [Hi|[Hge Hi]]; [by apply Hp|].
    apply list_lookup_singleton_Some in Hi as [Hi [= <- <-]]. assert (i = Z.to_nat (ol_attempted o)) as -> by lia. split; [lia|done].
  - eexists. split; [reflexivity|]. simpl. split_and!; try lia. by apply Hp.
Qed.

(** ** Channels without a subscriber *)

(** The clients of a channel: client [i] subscribes to channel [i mod ch_count]. *)
Definition clients_of (conns ch_count seq : Z) : Z :=
  Z.of_nat (length (filter (λ i, i mod ch_count = seq mod ch_count)%Z (seqZ 0 conns))).

(** What reaches the clients when nothing is dropped. *)
Definition undropped (conns ch_count attempted : Z) : Z :=
  foldr Z.add 0%Z (clients_of conns ch_count <$> seqZ 0 attempted).

Module RampDemo.
Definition sparse : RateRampOpts := mkRateRampOpts 1 2 100 100 0 50 1 4.
Definition full (opts : RateRampOpts) (attempted : Z) : Sample :=
  mkSample 0 (undropped (ro_tput_conns opts) (ch_count opts) attempted) (Some (0, 0)%Z) (Some (10, 0)%Z) attempted
    500 900 None.
Definition steady : RateRampOpts := mkRateRampOpts 2 2 100 100 300 50 1 4.
Definition busy : Sample := mkSample 0 200 (Some (0, 0)%Z) (Some (390, 0)%Z) 200 500 900 None.
End RampDemo.

(** With more channels than clients some events have no recipient, but every
    event is expected to have one: a run in which nothing is dropped is stopped
    for its drops. *)
Example sparse_channels_read_as_drops :
  undropped 1 2 100 = 50%Z ∧
  step_stop RampDemo.sparse (tput_step RampDemo.sparse 100 (RampDemo.full RampDemo.sparse 100)) = Some Drops.
Proof. split; vm_compute; reflexivity. Qed.

Lemma rate_ramp_finds_ceiling_witness :
  ∃ c, rate_run RampDemo.steady [RampDemo.full RampDemo.steady 100; RampDemo.busy; RampDemo.busy] = Some c ∧
    length (tc_steps c) = 2 ∧ tc_stop_reason c = CpuSaturated ∧ ts_rate (tc_best c) = 100%Z.
Proof.
  destruct (rate_ramp_finds_ceiling RampDemo.steady [RampDemo.full RampDemo.steady 100; RampDemo.busy; RampDemo.busy])
    as (c & pre & s & post & Hr & _); [done..|simpl; lia|].
  exists c. split; [exact Hr|]. vm_compute in Hr. injection Hr as <-. repeat split.
Defined.

(** The cores for a rate of one message per second at one per core: one, where
    the rate with its margin, one and a half, needs two. *)
Example odd_rate_rounds_down :
  let step := mkTputStep 1 1 (S754_zero false) 0 0 (S754_zero false) [] in
  rec_cores (recommend (mkConnCeiling 1 1 1 1 MaxConns) (mkTputCeiling step [step] MaxRate) 1 0 0 1) = 1%Z ∧
  div_ceil_u64 (1 * 15) (10 * 1) = 2%Z.
Proof. split; vm_compute; reflexivity. Qed.
