(* ===== verification/Conformance.v ===== *)
(** * The conformance runner: [src/conformance/src]

    The tool that drives the official client libraries against a server: its
    command line, the catalog of scenarios and its audit, the outcome of a
    runner, the report and its exit code, the scan of observations for values
    of one run only, and the timestamp of a report. Processes, files and
    sockets are inputs. *)

From Stdlib Require Import SpecFloat.
From stdpp Require Import pretty.
From S2P Require Import Prelude RustStd Json JsonDemo Protocol SocketIds Auth Rate Inbound Text Config.
#[local] Open Scope rust_scope.

(** ** The catalog: [catalog.rs] *)

Inductive Plane : Type := ClientPlane | ServerPlane.

#[export] Instance Plane_eq_dec : EqDecision Plane.
Proof. solve_decision. Defined.

Record Scenario : Type := mkScenario {
  sc_id : string;
  sc_plane : Plane;
  sc_sdk : string;
  sc_summary : string;
  sc_budget_ms : Z
}.

#[export] Instance Scenario_eq_dec : EqDecision Scenario.
Proof. solve_decision. Defined.

Definition CATALOG : list Scenario := [
  mkScenario "C-ESTABLISH" ClientPlane "pusher-js"
    "connect → `connection_established` → state `connected`" 20000;
  mkScenario "C-RECONNECT" ClientPlane "pusher-js"
    "force disconnect → client reconnects → re-subscribes" 30000;
  mkScenario "C-PING" ClientPlane "pusher-js"
    "client `pusher:ping` → pong; connection stays usable" 15000;
  mkScenario "C-PUB-SUB" ClientPlane "pusher-js"
    "subscribe/trigger-receive/unsubscribe on a public channel" 20000;
  mkScenario "C-PRIV-SUB" ClientPlane "pusher-js"
    "private channel via auth endpoint" 20000;
  mkScenario "C-PRES-SUB" ClientPlane "pusher-js"
    "two connections, presence join/leave" 30000;
  mkScenario "C-CACHE-SUB" ClientPlane "pusher-js"
    "cache channel: empty → populated → new subscriber" 20000;
  mkScenario "C-ENC-SUB" ClientPlane "pusher-js"
    "server publishes ciphertext; client decrypts" 25000;
  mkScenario "C-EVENT-ECHO" ClientPlane "pusher-js"
    "client event on private channel" 20000;
  mkScenario "C-EVENT-LIMITS" ClientPlane "pusher-js"
    "oversized name (>200) and payload (>10 KB)" 20000;
  mkScenario "C-EVENT-RATE" ClientPlane "pusher-js"
    "burst beyond 10/s" 25000;
  mkScenario "C-EVENT-PUB" ClientPlane "pusher-js"
    "client event attempted on public channel" 15000;
  mkScenario "U-SIGNIN" ClientPlane "pusher-js"
    "signin via auth endpoint" 20000;
  mkScenario "U-WATCH" ClientPlane "pusher-js"
    "watchlist across two connections" 30000;
  mkScenario "U-WATCH-LIMIT" ClientPlane "pusher-js"
    "watchlist > 100 IDs" 20000;
  mkScenario "U-TERMINATE" ClientPlane "pusher-js"
    "terminate-user via SDK `terminateUser` if exposed, else the documented REST endpoint (plumbing per §2.2)" 25000;
  mkScenario "E-BADKEY" ClientPlane "pusher-js"
    "connect with unknown key" 15000;
  mkScenario "E-DISABLED" ClientPlane "pusher-js"
    "connect with disabled app's key" 15000;
  mkScenario "S-TRIGGER" ServerPlane "pusher-http-node"
    "single + multi-channel trigger" 15000;
  mkScenario "S-BATCH" ServerPlane "pusher-http-node"
    "batch trigger (10×10)" 15000;
  mkScenario "S-CHANNELS" ServerPlane "pusher-http-node"
    "query with prefix + attrs (`user_count`, `subscription_count`)" 15000;
  mkScenario "S-CHANNEL" ServerPlane "pusher-http-node"
    "single-channel info incl. cache attr" 15000;
  mkScenario "S-USERS" ServerPlane "pusher-http-node"
    "presence users list" 15000;
  mkScenario "S-AUTH" ServerPlane "pusher-http-node"
    "signing mode: reads an auth-request body from **stdin**, writes the SDK's auth response to **stdout** (spawned once per auth-endpoint hit; ~hundreds of ms is acceptable in a harness)" 15000;
  mkScenario "S-WEBHOOK-VERIFY" ServerPlane "pusher-http-node"
    "EVERY captured pylon envelope → SDK webhook verifier, over all seven event types" 30000;
  mkScenario "S-ERRORS" ServerPlane "pusher-http-node"
    "expired timestamp, bad signature, unknown app" 15000
].

Definition find_scenario (id : string) : option Scenario :=
  snd <$> list_find (λ s, sc_id s = id) CATALOG.

(** The problems of a table of [(sdk, scenario id)] bindings. *)
Inductive Problem : Type :=
| NoImplementation (id sdk : string)
| NotInCatalog (id sdk : string)
| WrongSdk (id catalog_sdk sdk : string)
| Duplicate (id sdk : string)
| NotListed (id sdk : string)
| NotBound (sdk id : string).

Definition audit_missing (implementations : list (string * string)) : list Problem :=
  omap (λ s, if decide ((sc_sdk s, sc_id s) ∈ implementations) then None
             else Some (NoImplementation (sc_id s) (sc_sdk s))) CATALOG.

(** One binding, with those before it. *)
Definition audit_binding (seen : list (string * string)) (b : string * string) : list Problem :=
  let '(sdk, id) := b in
  match find_scenario id with
  | None => [NotInCatalog id sdk]
  | Some s => if decide (sc_sdk s = sdk) then [] else [WrongSdk id (sc_sdk s) sdk]
  end ++ (if decide (b ∈ seen) then [Duplicate id sdk] else []).

Fixpoint audit_bindings (seen implementations : list (string * string)) : list Problem :=
  match implementations with
  | [] => []
  | b :: l => audit_binding seen b ++ audit_bindings (b :: seen) l
  end.

Definition audit (implementations : list (string * string)) : list Problem :=
  audit_missing implementations ++ audit_bindings [] implementations.

(** [catalog_impls] and [listing_problems] of [main.rs]. *)
Definition catalog_impls : list (string * string) := (λ s, (sc_sdk s, sc_id s)) <$> CATALOG.

Definition listing_problems (listings : gmap string (list string)) (impls : list (string * string)) : list Problem :=
  omap (λ b, match listings !! b.1 with
             | Some ids => if decide (b.2 ∈ ids) then None else Some (NotListed b.2 b.1)
             | None => None
             end) impls
  ++ (map_to_list listings ≫= λ q,
        omap (λ id, if decide ((q.1, id) ∈ impls) then None else Some (NotBound q.1 id)) q.2).

(** ** The command line: [args.rs] *)

Definition DEFAULT_PORT_BASE : Z := 19800.
Definition MAX_PORT_BASE : Z := 65533.
Definition DEFAULT_REPORT : string := "conformance-report.json".

Record RunArgs : Type := mkRunArgs {
  ra_sdk : option string;
  ra_scenario : option string;
  ra_smoke : bool;
  ra_report : string;
  ra_port_base : Z;
  ra_pylon_bin : option string
}.

Inductive Command : Type := Run (r : RunArgs) | ListScenarios | Audit.

Inductive ArgError : Type :=
| UnknownArgument (arg : string)
| ExpectsValue (flag : string)
| InvalidPort (raw : string)
| PortTooHigh (port : Z)
| ListAndAudit
| TakesNoRunFlags (flag : string).

(** The variables of the loop. *)
Record Parsed : Type := mkParsed {
  pa_list : bool;
  pa_audit : bool;
  pa_run_word : bool;
  pa_sdk : option string;
  pa_scenario : option string;
  pa_smoke : bool;
  pa_report : option string;
  pa_port_base : option Z;
  pa_pylon_bin : option string
}.

Definition Parsed_new : Parsed := mkParsed false false false None None false None None None.

Definition parse_port (raw : string) : result Z ArgError :=
  let? port := ok_or (Str.parse_uint 65535 raw) (InvalidPort raw) in
  if (MAX_PORT_BASE <? port)%Z then Err (PortTooHigh port) else Ok port.

Fixpoint parse_loop (p : Parsed) (argv : list string) : result Parsed ArgError :=
  match argv with
  | [] => Ok p
  | arg :: argv =>
      let '(mkParsed list audit run_word sdk scenario smoke report port_base pylon_bin) := p in
      if decide (arg = "run") then
        parse_loop (mkParsed list audit true sdk scenario smoke report port_base pylon_bin) argv
      else if decide (arg = "--list") then
        parse_loop (mkParsed true audit run_word sdk scenario smoke report port_base pylon_bin) argv
      else if decide (arg = "--audit") then
        parse_loop (mkParsed list true run_word sdk scenario smoke report port_base pylon_bin) argv
      else if decide (arg = "--smoke") then
        parse_loop (mkParsed list audit run_word sdk scenario true report port_base pylon_bin) argv
      else if decide (arg = "--sdk") then
        match argv with
        | v :: argv => parse_loop (mkParsed list audit run_word (Some v) scenario smoke report port_base pylon_bin) argv
        | [] => Err (ExpectsValue arg)
        end
      else if decide (arg = "--scenario") then
        match argv with
        | v :: argv => parse_loop (mkParsed list audit run_word sdk (Some v) smoke report port_base pylon_bin) argv
        | [] => Err (ExpectsValue arg)
        end
      else if decide (arg = "--report") then
        match argv with
        | v :: argv => parse_loop (mkParsed list audit run_word sdk scenario smoke (Some v) port_base pylon_bin) argv
        | [] => Err (ExpectsValue arg)
        end
      else if decide (arg = "--port-base") then
        match argv with
        | v :: argv =>
            let? port := parse_port v in
            parse_loop (mkParsed list audit run_word sdk scenario smoke report (Some port) pylon_bin) argv
        | [] => Err (ExpectsValue arg)
        end
      else if decide (arg = "--pylon-bin") then
        match argv with
        | v :: argv => parse_loop (mkParsed list audit run_word sdk scenario smoke report port_base (Some v)) argv
        | [] => Err (ExpectsValue arg)
        end
      else Err (UnknownArgument arg)
  end.

Definition saw_run_flag (p : Parsed) : bool :=
  pa_run_word p || pa_smoke p || bool_decide (is_Some (pa_sdk p)) || bool_decide (is_Some (pa_scenario p))
  || bool_decide (is_Some (pa_report p)) || bool_decide (is_Some (pa_port_base p))
  || bool_decide (is_Some (pa_pylon_bin p)).

Definition parse_args (argv : list string) : result Command ArgError :=
  let? p := parse_loop Parsed_new argv in
  if pa_list p && pa_audit p then Err ListAndAudit
  else if (pa_list p || pa_audit p) && saw_run_flag p
  then Err (TakesNoRunFlags (if pa_list p then "--list" else "--audit"))
  else if pa_list p then Ok ListScenarios
  else if pa_audit p then Ok Audit
  else Ok (Run (mkRunArgs (pa_sdk p) (pa_scenario p) (pa_smoke p) (default DEFAULT_REPORT (pa_report p))
                  (default DEFAULT_PORT_BASE (pa_port_base p)) (pa_pylon_bin p))).

(** ** The selection of [main.rs] *)

Definition SMOKE_IDS : list string := ["C-PUB-SUB"; "S-TRIGGER"; "S-WEBHOOK-VERIFY"].

Inductive SelectError : Type := UnknownScenario (id : string) | UnknownSdk (sdk : string) | NothingSelected.

Definition retain (P : Scenario → bool) (l : list Scenario) : list Scenario := filter (λ s, P s = true) l.

Definition select_scenarios (sdk scenario : option string) (smoke : bool) : result (list Scenario) SelectError :=
  let? _ :=
    match scenario with
    | Some id => match find_scenario id with None => Err (UnknownScenario id) | Some _ => Ok tt end
    | None => Ok tt
    end in
  let? _ :=
    match sdk with
    | Some sdk => if existsb (λ s, bool_decide (sc_sdk s = sdk)) CATALOG then Ok tt else Err (UnknownSdk sdk)
    | None => Ok tt
    end in
  let selected := CATALOG in
  let selected := if smoke then retain (λ s, bool_decide (sc_id s ∈ SMOKE_IDS)) selected else selected in
  let selected := match sdk with Some sdk => retain (λ s, bool_decide (sc_sdk s = sdk)) selected | None => selected end in
  let selected := match scenario with Some id => retain (λ s, bool_decide (sc_id s = id)) selected | None => selected end in
  if decide (selected = []) then Err NothingSelected else Ok selected.

(** ** The outcome of a runner: [adapter.rs] *)

Record Verdict : Type := mkVerdict {
  vd_scenario : string;
  vd_verdict : string;
  vd_observations : Value;
  vd_error : option string;
  vd_duration_ms : Z
}.

(** The derived reader of one verdict from JSON text. *)
Class VerdictText : Type := { verdict_from_str : string → option Verdict }.

Definition fail_verdict (scenario error : string) (elapsed_ms : Z) : Verdict :=
  mkVerdict scenario "fail" JNull (Some error) elapsed_ms.

Definition parse_verdict `{VerdictText} (stdout : string) : option Verdict :=
  last ← snd <$> list_find (λ l, Str.is_empty (str_trim l) = false) (reverse (lines stdout));
  verdict_from_str (str_trim last).

Definition TAIL_LIMIT : nat := 400.

(** Past the continuation bytes. *)
Fixpoint to_boundary (s : string) : string :=
  match s with
  | String c r => if is_cont (u8_of_ascii c) then to_boundary r else s
  | EmptyString => s
  end.

Fixpoint str_drop (n : nat) (s : string) : string :=
  match n, s with S n, String _ r => str_drop n r | _, _ => s end.

Definition tail400 (s : string) : string :=
  if (String.length s <=? TAIL_LIMIT)%nat then s else to_boundary (str_drop (String.length s - TAIL_LIMIT) s).

(** [str::trim_end]. *)
Definition str_trim_end (s : string) : string :=
  let v := as_bytes s in text_of (reverse (trim_by (length v) space_len_rev (reverse v))).

(** How a runner ends: it cannot be started, finishes with its output and an
    exit code (none after a signal), its pipe breaks, or its budget is spent. *)
Inductive RunnerEnd : Type :=
| SpawnFailed (why : string)
| Ended (stdout : string) (code : option Z)
| ReadFailed (why : string)
| BudgetExceeded.

Definition runner_verdict `{VerdictText} (scenario : string) (e : RunnerEnd) (elapsed_ms : Z) : Verdict :=
  match e with
  | SpawnFailed why => fail_verdict scenario why elapsed_ms
  | Ended stdout code =>
      match parse_verdict stdout with
      | Some v => v
      | None =>
          let tail := tail400 (str_trim_end stdout) in
          let text :=
            match code with
            | Some 0%Z => "no verdict JSON on stdout; stdout tail: " +:+ tail
            | Some c => "exit code " +:+ pretty c +:+ "; stdout tail: " +:+ tail
            | None => "terminated by signal; stdout tail: " +:+ tail
            end in
          fail_verdict scenario text elapsed_ms
      end
  | ReadFailed why => fail_verdict scenario ("reading runner output failed: " +:+ why) elapsed_ms
  | BudgetExceeded => fail_verdict scenario "budget exceeded" elapsed_ms
  end.

(** ** The scan of observations: [normalization.rs] *)

Definition ALLOWED_RAW_KEYS : list (string * string) := [].
Definition SOCKET_ID_MIN_HALF_DIGITS : nat := 4.
Definition LARGE_INTEGER_THRESHOLD : Z := 1000000000.
Definition EPOCH_MILLIS_MIN : Z := 1000000000000.
Definition EPOCH_MILLIS_MAX : Z := 1000000000000000.
Definition DIGIT_STRING_MIN_LEN : nat := 10.
Definition EXCERPT_LIMIT : nat := 40.

Definition is_allowed (scenario key : string) : bool :=
  existsb (λ q, bool_decide (q.1 = scenario) && bool_decide (q.2 = key)) ALLOWED_RAW_KEYS.

Definition all_digits (s : string) : bool := Str.all Str.is_ascii_digit s.

Definition looks_like_socket_id (s : string) : bool :=
  match Str.split_once "."%char s with
  | None => false
  | Some (a, b) =>
      let half_ok h :=
        (SOCKET_ID_MIN_HALF_DIGITS <=? String.length h)%nat && (String.length h <=? 15)%nat && all_digits h in
      half_ok a && half_ok b
  end.

Definition looks_like_iso8601 (s : string) : bool :=
  let b := String.list_ascii_of_string s in
  let digits i n := forallb Str.is_ascii_digit (take n (drop i b)) in
  let char_at i c := bool_decide (b !! i = Some c) in
  (16 <=? length b)%nat && digits 0 4 && char_at 4 "-"%char && digits 5 2 && char_at 7 "-"%char && digits 8 2
  && char_at 10 "T"%char && digits 11 2 && char_at 13 ":"%char && digits 14 2.

(** Why a leaf is of one run only. *)
Inductive Raw : Type := RawSocketId | RawTimestamp | RawDigits | RawEpochMillis | RawLargeInteger.

Definition Raw_text (r : Raw) : string :=
  match r with
  | RawSocketId => "a raw socket id (dotted integer pair, both halves large — expected e.g. <socket_id>)"
  | RawTimestamp => "an ISO-8601 timestamp (expected a placeholder)"
  | RawDigits => "a bare large integer in string form, epoch-like (expected a placeholder)"
  | RawEpochMillis => "raw epoch-millis (expected a placeholder)"
  | RawLargeInteger => "bare large integer, epoch-like (expected a placeholder)"
  end.

Definition string_violation (s : string) : option Raw :=
  if looks_like_socket_id s then Some RawSocketId
  else if looks_like_iso8601 s then Some RawTimestamp
  else if (DIGIT_STRING_MIN_LEN <=? String.length s)%nat && all_digits s then Some RawDigits
  else None.

(** The value of a bit pattern. *)
Definition f64_of_bits (bits : Z) : f64 :=
  let sign := Z.testbit bits 63 in
  let e := (Z.shiftr bits 52 mod 2048)%Z in
  let m := (bits mod 2 ^ 52)%Z in
  if (e =? 2047)%Z then if (m =? 0)%Z then S754_infinity sign else S754_nan
  else if (e =? 0)%Z then match m with Z.pos m => S754_finite sign m (-1074) | _ => S754_zero sign end
  else S754_finite sign (Z.to_pos (m + 2 ^ 52)) (e - 1075).

(** [as_u64], else [as_i64] without its sign, else [as_f64] without its sign,
    cut to an integer. *)
Definition magnitude (n : Number) : Z :=
  match n with
  | PosInt n => n
  | NegInt n => Z.abs n
  | Float bits => F64.as_uint U64.MAX F64.floor_pos (SFabs (f64_of_bits bits))
  end.

Definition number_violation (n : Number) : option Raw :=
  let m := magnitude n in
  if (EPOCH_MILLIS_MIN <=? m)%Z && (m <? EPOCH_MILLIS_MAX)%Z then Some RawEpochMillis
  else if (LARGE_INTEGER_THRESHOLD <=? m)%Z then Some RawLargeInteger
  else None.

(** [n] bytes, and on to the next character. *)
Fixpoint char_cut (n : nat) (s : string) : string :=
  match n, s with
  | S n, String c r => String c (char_cut n r)
  | O, String c r => if is_cont (u8_of_ascii c) then String c (char_cut O r) else EmptyString
  | _, EmptyString => EmptyString
  end.

Definition excerpt (s : string) : string :=
  if (Str.chars_count s <=? EXCERPT_LIMIT)%nat then s else char_cut EXCERPT_LIMIT s +:+ "…".

(** Past the last [.] or [[]. *)
Fixpoint leaf_key (acc path : string) : string :=
  match path with
  | EmptyString => acc
  | String c r =>
      if bool_decide (c = "."%char) || bool_decide (c = "["%char) then leaf_key EmptyString r
      else leaf_key (acc +:+ String c EmptyString) r
  end.

(** One line, unless the leaf is exempt. *)
Definition push (scenario path value : string) (why : Raw) : list string :=
  if is_allowed scenario (leaf_key EmptyString path) then []
  else [scenario +:+ ": " +:+ path +:+ " = " +:+ value +:+ " looks like " +:+ Raw_text why].

Definition quote : string := String "034"%char EmptyString.

Section scanning.
Context `{SerdeJson}.

Fixpoint walk (scenario : string) (v : Value) (path : string) : list string :=
  match v with
  | JObject m =>
      flat_map (λ q, let '(k, v) := q in
        walk scenario v (if Str.is_empty path then k else path +:+ "." +:+ k)) m
  | JArray l =>
      (fix items (i : nat) (l : list Value) : list string :=
         match l with
         | [] => []
         | v :: l => walk scenario v (path +:+ "[" +:+ pretty i +:+ "]") ++ items (S i) l
         end) 0 l
  | JString s =>
      match string_violation s with
      | Some why => push scenario path (quote +:+ excerpt s +:+ quote) why
      | None => []
      end
  | JNumber n =>
      match number_violation n with
      | Some why => push scenario path (excerpt (number_to_string n)) why
      | None => []
      end
  | _ => []
  end.

Definition scan (results : list Verdict) : list string :=
  results ≫= λ v, walk (vd_scenario v) (vd_observations v) EmptyString.

(** ** The report: [report.rs] *)

Definition count_verdicts (results : list Verdict) (verdict : string) : nat :=
  length (filter (λ v, vd_verdict v = verdict) results).

Definition exit_code (results : list Verdict) : Z :=
  if forallb (λ v, bool_decide (vd_verdict v = "pass") || bool_decide (vd_verdict v = "skip")) results then 0 else 1.

Definition push_block (heading : string) (rows : list (Verdict * string)) : string :=
  if decide (rows = []) then EmptyString
  else heading +:+ newline +:+
    foldr (λ r t, vd_scenario r.1 +:+ " | " +:+ r.2 +:+ " | " +:+ vd_verdict r.1 +:+ " | " +:+
                  pretty (Z.to_N (vd_duration_ms r.1)) +:+ "ms" +:+ newline +:+ t) EmptyString rows.

(** The block a verdict is shown in: its plane, or none when it is not in the catalog. *)
Definition block_of (v : Verdict) : option Plane := sc_plane <$> find_scenario (vd_scenario v).

Definition block_rows (b : option Plane) (results : list Verdict) : list (Verdict * string) :=
  (λ v, (v, default "unknown" (sc_sdk <$> find_scenario (vd_scenario v)))) <$> filter (λ v, block_of v = b) results.

Definition render_human (pylon_version : string) (sdk_versions : list (string * string)) (results : list Verdict) : string :=
  let blocks :=
    push_block "Client plane" (block_rows (Some ClientPlane) results)
    +:+ push_block "Server plane" (block_rows (Some ServerPlane) results)
    +:+ push_block "unknown" (block_rows None results) in
  let sdks := (λ q, q.1 +:+ "@" +:+ q.2) <$> sdk_versions in
  let sdk_segment :=
    if decide (sdks = []) then "pylon " +:+ pylon_version
    else join ", " sdks +:+ ", pylon " +:+ pylon_version in
  let n w := pretty (count_verdicts results w) in
  blocks +:+ newline +:+ n "pass" +:+ " passed, " +:+ n "fail" +:+ " failed, " +:+ n "skip" +:+ " skipped — "
  +:+ sdk_segment +:+ newline.

(** The end of [run_scenarios], once the report is written: its exit code. *)
Definition run_exit (results : list Verdict) : Z :=
  if decide (scan results = []) then exit_code results else 1.
End scanning.

(** ** The plumbing: [plumbing.rs] *)

Record RecordedEnvelope : Type := mkRecordedEnvelope {
  en_headers : list (string * string);
  en_body : string
}.

Section plumbing.
Context `{SerdeJson}.

(** [Display] of a value is its JSON text. *)
Definition add_header (headers : list (string * Value)) (h : string * string) : list (string * Value) :=
  let '(name, value) := h in
  match map_get name headers with
  | Some existing => map_insert name (JString (to_string existing +:+ ", " +:+ value)) headers
  | None => map_insert name (JString value) headers
  end.

Definition envelope_to_json (e : RecordedEnvelope) : Value :=
  JObject [("headers", JObject (foldl add_header [] (en_headers e))); ("body", JString (en_body e))].

(** [record]: names in lower case, at the end of the list. *)
Definition record_envelope (headers : list (string * string)) (body : string) (envelopes : list RecordedEnvelope)
    : list RecordedEnvelope :=
  envelopes ++ [mkRecordedEnvelope ((λ h, (ascii_lowercase h.1, h.2)) <$> headers) body].

(** [last] and [all]; [None] is answered 404. *)
Definition last_envelope (envelopes : list RecordedEnvelope) : option Value := envelope_to_json <$> last envelopes.
Definition all_envelopes (envelopes : list RecordedEnvelope) : Value := JArray (envelope_to_json <$> envelopes).
End plumbing.

(** The status code in the first line of an answer. *)
Definition status_of (text : string) : option Z :=
  line ← head (lines text);
  code ← split_whitespace line !! 1;
  Str.parse_uint 65535 code.

(** ** The timestamp of [main.rs] *)

(** Year, month and day of a day since the first of January 1970. *)
Definition civil_from_days (days : Z) : Z * Z * Z :=
  (let z := days + 719468 in
  let era := z / 146097 in
  let doe := z mod 146097 in
  let yoe := (doe - doe / 1460 + doe / 36524 - doe / 146096) / 365 in
  let doy := doe - (365 * yoe + yoe / 4 - yoe / 100) in
  let mp := (5 * doy + 2) / 153 in
  let day := doy - (153 * mp + 2) / 5 + 1 in
  let month := if mp <? 10 then mp + 3 else mp - 9 in
  let year := if month <=? 2 then yoe + era * 400 + 1 else yoe + era * 400 in
  (year, month, day))%Z.

(** A number with at least [width] digits. *)
Definition pad (width : nat) (n : Z) : string :=
  let s := pretty (Z.to_N n) in
  String.string_of_list_ascii (replicate (width - String.length s) "0"%char) +:+ s.

Definition rfc3339 (secs : Z) : string :=
  let hour := (secs / 3600 mod 24)%Z in
  let minute := (secs / 60 mod 60)%Z in
  let sec := (secs mod 60)%Z in
  let '(year, month, day) := civil_from_days (secs / 86400) in
  pad 4 year +:+ "-" +:+ pad 2 month +:+ "-" +:+ pad 2 day +:+ "T" +:+ pad 2 hour +:+ ":" +:+ pad 2 minute
  +:+ ":" +:+ pad 2 sec +:+ "Z".

(** * Theorems

    The calendar of the timestamps, what the scan flags, what the audits accept
    and what the command line and the exit code mean. *)

(** ** The calendar *)

Definition leap (y : Z) : bool := ((y mod 4 =? 0) && (negb (y mod 100 =? 0) || (y mod 400 =? 0)))%Z.

Definition month_days (y m : Z) : Z :=
  if (m =? 2)%Z then if leap y then 29 else 28
  else if bool_decide (m ∈ [4; 6; 9; 11]%Z) then 30 else 31.

Definition next_day (date : Z * Z * Z) : Z * Z * Z :=
  let '(y, m, d) := date in
  if (d <? month_days y m)%Z then (y, m, d + 1)%Z
  else if (m <? 12)%Z then (y, m + 1, 1)%Z
  else (y + 1, 1, 1)%Z.

(** Within one era of 400 years, from the first of March of the year 0. *)
Definition civil_in_era (doe : Z) : Z * Z * Z := civil_from_days (doe - 719468).

Definition shift_years (n : Z) (date : Z * Z * Z) : Z * Z * Z := let '(y, m, d) := date in (y + n, m, d)%Z.

(** The quotient that counts the years of an era, by 365. *)
Definition year_days (doe : Z) : Z := (doe - doe / 1460 + doe / 36524 - doe / 146096)%Z.

Lemma year_days_step doe : (0 <= doe < 146096)%Z → (year_days doe <= year_days (doe + 1))%Z.
Proof.
  intros Hd. unfold year_days.
  pose proof (Z.div_le_mono doe (doe + 1) 36524 ltac:(lia) ltac:(lia)).
  assert (doe / 146096 = 0)%Z as -> by (apply Z.div_small; lia).
  assert ((doe + 1) / 1460 <= doe / 1460 + 1)%Z.
  { rewrite <-(Z.div_add doe 1 1460) by lia. apply Z.div_le_mono; lia. }
  destruct (decide (doe = 146095%Z)) as [->|]; [by vm_compute|].
  assert ((doe + 1) / 146096 = 0)%Z as -> by (apply Z.div_small; lia). lia.
Qed.

Lemma year_days_mono a b : (0 <= a <= b)%Z → (b <= 146096)%Z → (year_days a <= year_days b)%Z.
Proof.
  intros Hab Hb. replace b with (a + Z.of_nat (Z.to_nat (b - a)))%Z in Hb |- * by lia.
  induction (Z.to_nat (b - a)) as [|n IH].
  - replace (a + Z.of_nat 0)%Z with a by lia. lia.
  - etrans; [apply IH; lia|]. replace (a + Z.of_nat (S n))%Z with (a + Z.of_nat n + 1)%Z by lia.
    apply year_days_step. lia.
Qed.

(** The first day of a year of an era, and whether its February has 29 days. *)
Definition year_start (y : Z) : Z := (365 * y + y / 4 - y / 100)%Z.
Definition year_length (y : Z) : Z := if leap (y + 1) then 366 else 365.

Definition year_ok (y : Z) : bool :=
  ((365 * y <=? year_days (year_start y)) && (year_days (year_start y + year_length y - 1) <? 365 * (y + 1))
   && ((year_start (y + 1) =? year_start y + year_length y) || (y =? 399)))%Z.

Lemma years_ok : forallb year_ok (seqZ 0 400) = true.
Proof. vm_compute. reflexivity. Qed.

Lemma year_ok_at y : (0 <= y < 400)%Z → year_ok y = true.
Proof. intros Hy. pose proof years_ok as Ha. rewrite forallb_forall in Ha. apply Ha, list_elem_of_In, elem_of_seqZ. lia. Qed.

Lemma year_length_bounds y : (365 <= year_length y <= 366)%Z.
Proof. unfold year_length. case_match; lia. Qed.

Lemma year_start_bounds y : (0 <= y < 400)%Z → (0 <= year_start y)%Z ∧ (year_start y + year_length y <= 146097)%Z.
Proof.
  intros Hy. assert (forallb (λ y, (0 <=? year_start y) && (year_start y + year_length y <=? 146097))%Z (seqZ 0 400) = true)
    as Ha by (vm_compute; reflexivity).
  rewrite forallb_forall in Ha. specialize (Ha y). rewrite <-list_elem_of_In, elem_of_seqZ in Ha.
  specialize (Ha ltac:(lia)). to_prop. lia.
Qed.

(** The year of a day. *)
Lemma year_of_day y doy : (0 <= y < 400)%Z → (0 <= doy < year_length y)%Z →
  (year_days (year_start y + doy) / 365 = y)%Z.
Proof.
  intros Hy Hd. pose proof (year_ok_at y Hy) as Hok. unfold year_ok in Hok. to_prop.
  pose proof (year_start_bounds y Hy) as [Hs He].
  pose proof (year_days_mono (year_start y) (year_start y + doy) ltac:(lia) ltac:(lia)).
  pose proof (year_days_mono (year_start y + doy) (year_start y + year_length y - 1) ltac:(lia) ltac:(lia)).
  symmetry. apply (Z.div_unique_pos _ 365 y (year_days (year_start y + doy) - 365 * y)); lia.
Qed.

(** Month and day of a day of the year that starts in March. *)
Definition month_day (doy : Z) : Z * Z :=
  let mp := ((5 * doy + 2) / 153)%Z in
  ((if mp <? 10 then mp + 3 else mp - 9), doy - (153 * mp + 2) / 5 + 1)%Z.

Lemma civil_in_year y doy : (0 <= y < 400)%Z → (0 <= doy < year_length y)%Z →
  civil_in_era (year_start y + doy) =
  let '(m, d) := month_day doy in ((if m <=? 2 then y + 1 else y), m, d)%Z.
Proof.
  intros Hy Hd. pose proof (year_start_bounds y Hy) as [Hs He]. pose proof (year_of_day y doy Hy Hd) as Hyear.
  unfold civil_in_era, civil_from_days, month_day.
  replace (year_start y + doy - 719468 + 719468)%Z with (year_start y + doy)%Z by lia.
  rewrite (Z.div_small (year_start y + doy) 146097), (Z.mod_small (year_start y + doy) 146097) by lia.
  fold (year_days (year_start y + doy)). rewrite Hyear.
  replace (year_start y + doy - (365 * y + y / 4 - y / 100))%Z with doy by (unfold year_start; lia).
  cbv zeta. f_equal. f_equal. case_match; lia.
Qed.

Lemma civil_era days :
  civil_from_days days = shift_years ((days + 719468) / 146097 * 400) (civil_in_era ((days + 719468) mod 146097)).
Proof.
  unfold civil_in_era, civil_from_days. set (z := (days + 719468)%Z).
  replace (z mod 146097 - 719468 + 719468)%Z with (z mod 146097)%Z by lia.
  pose proof (Z.mod_pos_bound z 146097 ltac:(lia)) as Hb.
  rewrite (Z.div_small (z mod 146097) 146097), (Z.mod_small (z mod 146097) 146097) by lia.
  cbn [shift_years]. f_equal. f_equal. case_match; lia.
Qed.

Lemma next_day_shift n date : next_day (shift_years (400 * n) date) = shift_years (400 * n) (next_day date).
Proof.
  destruct date as [[y m] d].
  assert (leap (y + 400 * n) = leap y) as Hl.
  { unfold leap. assert (∀ k c, (0 < c)%Z → (400 * n = k * c)%Z → ((y + 400 * n) mod c = y mod c)%Z) as Hm.
    { intros k c Hc ->. by rewrite Z.mod_add by lia. }
    by rewrite (Hm (100 * n) 4)%Z, (Hm (4 * n) 100)%Z, (Hm n 400)%Z by lia. }
  simpl. unfold month_days. rewrite Hl. repeat case_match; try done; simpl; do 2 f_equal; lia.
Qed.

(** Within a year of an era every day but the last is followed by the next, and
    months have their lengths. *)
Definition doy_ok (doy : Z) : bool :=
  let '(m, d) := month_day doy in
  let '(m', d') := month_day (doy + 1) in
  ((1 <=? m) && (m <=? 12) && (1 <=? d) &&
   if m =? 2 then (m' =? 2) && (d' =? d + 1) && (d =? doy - 336)
   else if d <? month_days 0 m then (m' =? m) && (d' =? d + 1)
   else (d' =? 1) && if m =? 12 then m' =? 1 else m' =? m + 1)%Z.

Lemma doys_ok : forallb doy_ok (seqZ 0 365) = true.
Proof. vm_compute. reflexivity. Qed.

Lemma doy_ok_at doy : (0 <= doy < 365)%Z → doy_ok doy = true.
Proof. intros Hd. pose proof doys_ok as Ha. rewrite forallb_forall in Ha. apply Ha, list_elem_of_In, elem_of_seqZ. lia. Qed.

Lemma month_days_not_february y m : (m ≠ 2)%Z → month_days y m = month_days 0 m.
Proof. intros Hm. unfold month_days. by destruct (Z.eqb_spec m 2). Qed.

Lemma next_within y doy : (0 <= y < 400)%Z → (0 <= doy)%Z → (doy + 1 < year_length y)%Z →
  civil_in_era (year_start y + doy + 1) = next_day (civil_in_era (year_start y + doy)).
Proof.
  intros Hy H0 Hd. pose proof (year_length_bounds y). rewrite <-Z.add_assoc, !civil_in_year by lia.
  pose proof (doy_ok_at doy ltac:(lia)) as Hok. unfold doy_ok in Hok.
  destruct (month_day doy) as [m d]. destruct (month_day (doy + 1)) as [m' d']. to_prop. unfold next_day.
  destruct (Z.eqb_spec m 2) as [->|Hm2].
  - to_prop. subst m' d'. unfold month_days. simpl. unfold year_length in Hd.
    destruct (leap (y + 1)); [destruct (Z.ltb_spec d 29)|destruct (Z.ltb_spec d 28)]; (done || lia).
  - rewrite month_days_not_february by done. destruct (d <? month_days 0 m)%Z; to_prop; subst; [done|].
    destruct (Z.eqb_spec m 12) as [->|]; to_prop; subst m'; [done|].
    destruct (Z.ltb_spec m 12); [|lia]. destruct (Z.leb_spec m 2), (Z.leb_spec (m + 1) 2); (done || lia).
Qed.

Lemma next_year y : (0 <= y < 399)%Z →
  civil_in_era (year_start y + year_length y) = next_day (civil_in_era (year_start y + (year_length y - 1))).
Proof.
  intros Hy. pose proof (year_length_bounds y). pose proof (year_ok_at y ltac:(lia)) as Hok. unfold year_ok in Hok. to_prop.
  assert (year_start y + year_length y = year_start (y + 1) + 0)%Z as ->.
  { apply orb_true_iff in H1 as [H1|H1]; to_prop; lia. }
  pose proof (year_length_bounds (y + 1)). rewrite !civil_in_year by lia. unfold year_length.
  destruct (leap (y + 1)) eqn:El; vm_compute (month_day _); simpl; unfold month_days; simpl; by rewrite El.
Qed.

Lemma day_in_year doe (n : nat) : (0 <= doe)%Z → n < 400 → (doe < year_start (Z.of_nat n) + year_length (Z.of_nat n))%Z →
  ∃ y doy, (0 <= y < 400)%Z ∧ (0 <= doy < year_length y)%Z ∧ doe = (year_start y + doy)%Z.
Proof.
  intros H0. induction n as [|n IH]; intros Hn Hd.
  - exists 0%Z, doe. change (Z.of_nat 0) with 0%Z in Hd. change (year_start 0) with 0%Z in *. lia.
  - destruct (decide (doe < year_start (Z.of_nat (S n)))%Z) as [Hlt|Hge].
    + apply IH; [lia|]. pose proof (year_ok_at (Z.of_nat n) ltac:(lia)) as Hok. unfold year_ok in Hok. to_prop.
      replace (Z.of_nat (S n)) with (Z.of_nat n + 1)%Z in Hlt by lia. apply orb_true_iff in H1 as [H1|H1]; to_prop; lia.
    + exists (Z.of_nat (S n)), (doe - year_start (Z.of_nat (S n)))%Z. lia.
Qed.

Lemma era_step doe : (0 <= doe < 146096)%Z → civil_in_era (doe + 1) = next_day (civil_in_era doe).
Proof.
  intros Hd. destruct (day_in_year doe 399) as (y & doy & Hy & Hdoy & ->); [lia|lia| |].
  { change (year_start (Z.of_nat 399) + year_length (Z.of_nat 399))%Z with 146097%Z. lia. }
  destruct (decide (doy + 1 = year_length y)%Z) as [He|Hne]; [|by apply next_within; lia].
  destruct (decide (y = 399%Z)) as [->|].
  { change (year_length 399) with 366%Z in He. change (year_start 399) with 145731%Z in Hd. lia. }
  replace doy with (year_length y - 1)%Z by lia. rewrite <-next_year by lia. f_equal. lia.
Qed.

Lemma civil_step days : civil_from_days (days + 1) = next_day (civil_from_days days).
Proof.
  rewrite !civil_era. set (z := (days + 719468)%Z). replace (days + 1 + 719468)%Z with (z + 1)%Z by lia.
  replace (z / 146097 * 400)%Z with (400 * (z / 146097))%Z by lia. rewrite next_day_shift.
  pose proof (Z.mod_pos_bound z 146097 ltac:(lia)). pose proof (Z.div_mod z 146097 ltac:(lia)).
  destruct (decide (z mod 146097 = 146096)%Z) as [He|Hne].
  - assert (((z + 1) / 146097 = z / 146097 + 1)%Z ∧ ((z + 1) mod 146097 = 0)%Z) as [-> ->].
    { split; [symmetry; apply (Z.div_unique_pos _ _ _ 0)|symmetry; apply (Z.mod_unique_pos _ _ (z / 146097 + 1))]; lia. }
    rewrite He. replace (next_day (civil_in_era 146096)) with (shift_years 400 (civil_in_era 0)) by (vm_compute; reflexivity).
    destruct (civil_in_era 0) as [[y m] d]. simpl. do 2 f_equal. lia.
  - assert (((z + 1) / 146097 = z / 146097)%Z ∧ ((z + 1) mod 146097 = z mod 146097 + 1)%Z) as [-> ->].
    { split; [symmetry; apply (Z.div_unique_pos _ _ _ (z mod 146097 + 1))|
        symmetry; apply (Z.mod_unique_pos _ _ (z / 146097))]; lia. }
    rewrite era_step by lia. f_equal. lia.
Qed.

(** C40. The date of a report is that of the calendar: day [n] since the first of
    January 1970 is the date reached by turning the page [n] times, with the
    months' lengths and the leap years of the Gregorian calendar. *)
Theorem civil_from_days_calendar (n : nat) :
  civil_from_days (Z.of_nat n) = Nat.iter n next_day (1970, 1, 1)%Z.
Proof.
  induction n as [|n IH]; [vm_compute; reflexivity|].
  replace (Z.of_nat (S n)) with (Z.of_nat n + 1)%Z by lia. rewrite civil_step, IH. reflexivity.
Qed.

(** ** What the scan flags *)

(** The leaves a run could have written into its observations. *)
Fixpoint leaves (v : Value) : list Value :=
  match v with
  | JObject m => flat_map (λ q, let '(_, v) := q in leaves v) m
  | JArray l => flat_map leaves l
  | JString _ | JNumber _ => [v]
  | _ => []
  end.

Definition raw (v : Value) : option Raw :=
  match v with JString s => string_violation s | JNumber n => number_violation n | _ => None end.

Definition normalized (v : Value) : Prop := Forall (λ l, raw l = None) (leaves v).

Lemma push_line scenario path value why : length (push scenario path value why) = 1.
Proof. reflexivity. Qed.

Section scanning.
Context `{SerdeJson}.

(** One line per raw leaf. *)
Lemma walk_lines : ∀ v scenario path,
  length (walk scenario v path) = length (omap raw (leaves v)).
Proof.
  fix IH 1. intros [|b|n|s|l|m] scenario path; cbn [walk leaves]; try reflexivity.
  - simpl. by destruct (number_violation n).
  - simpl. by destruct (string_violation s).
  - generalize 0 at 1. induction l as [|v l IHl]; intros i; [reflexivity|].
    cbn [flat_map]. rewrite omap_app, !length_app, IHl. f_equal. apply IH.
  - induction m as [|[k v] m IHm]; [reflexivity|].
    cbn [flat_map]. rewrite omap_app, !length_app, IHm. f_equal. apply IH.
Qed.

Lemma omap_nil_iff {A B} (f : A → option B) l : omap f l = [] ↔ Forall (λ x, f x = None) l.
Proof.
  induction l as [|x l IH]; simpl; [done|]. rewrite Forall_cons. destruct (f x); [split; [done|by intros []]|]. naive_solver.
Qed.

Lemma walk_clean scenario v path : walk scenario v path = [] ↔ normalized v.
Proof. unfold normalized. rewrite <-omap_nil_iff, <-!length_zero_iff_nil. by rewrite walk_lines. Qed.

Lemma scan_clean results : scan results = [] ↔ Forall (normalized ∘ vd_observations) results.
Proof.
  induction results as [|v l IH]; [done|].
  change (scan (v :: l)) with (walk (vd_scenario v) (vd_observations v) "" ++ scan l).
  by rewrite app_nil, IH, Forall_cons, walk_clean.
Qed.

(** A run of the harness exits with success exactly when every scenario passed
    or was skipped and no observation of it carries a value of this run only;
    otherwise it exits with 1. *)
Theorem run_exit_zero_iff (results : list Verdict) :
  (run_exit results = 0%Z ↔
   Forall (λ v, (vd_verdict v = "pass" ∨ vd_verdict v = "skip") ∧ normalized (vd_observations v)) results) ∧
  (run_exit results ≠ 0%Z → run_exit results = 1%Z).
Proof.
  assert (exit_code results = 0%Z ↔ Forall (λ v, vd_verdict v = "pass" ∨ vd_verdict v = "skip") results) as He.
  { unfold exit_code. destruct (forallb _ _) eqn:E; rewrite Forall_forall.
    - split; [|done]. intros _ v Hv%list_elem_of_In. rewrite forallb_forall in E. apply E in Hv.
      apply orb_true_iff in Hv as [Hv|Hv]; to_prop; auto.
    - split; [done|]. intros Ha. assert (forallb (λ v, bool_decide (vd_verdict v = "pass") || bool_decide (vd_verdict v = "skip")) results = true); [|congruence].
      apply forallb_forall. intros v Hv%list_elem_of_In%Ha. rewrite orb_true_iff, !bool_decide_eq_true. done. }
  unfold run_exit. rewrite Forall_and, <-He. case_decide as Hs; rewrite scan_clean in Hs.
  - split; [|unfold exit_code; by case_match]. split; [|by intros []]. done.
  - split; [|done]. split; [done|]. by intros [_ ?].
Qed.
End scanning.

(** ** Values of one run *)

Lemma looks_like_minted a b : (a < 10 ^ 10)%N → (b < 10 ^ 10)%N →
  looks_like_socket_id (SocketId.as_str (SocketId.generate a b)) = true ↔ (1000 <= a)%N ∧ (1000 <= b)%N.
Proof.
  intros Ha Hb. rewrite as_str_generate by done. unfold looks_like_socket_id, id_text.
  assert (Str.split_once "."%char (pretty a +:+ "." +:+ pretty b) = Some (pretty a, pretty b)) as ->.
  { apply Str.split_once_Some. split; [done|]. eapply Str.all_impl; [|apply pretty_digits].
    intros c Hc. apply bool_decide_eq_true. by intros ->. }
  unfold all_digits. rewrite !pretty_digits. rewrite !andb_true_r, !andb_true_iff, !Nat.leb_le.
  pose proof (pretty_length a Ha). pose proof (pretty_length b Hb).
  pose proof (pretty_long 3 a ltac:(lia)) as Hla. pose proof (pretty_long 3 b ltac:(lia)) as Hlb.
  change (10 ^ N.of_nat 3)%N with 1000%N in *. unfold SOCKET_ID_MIN_HALF_DIGITS. lia.
Qed.

Ltac rewrite_digits :=
  repeat match goal with H : Str.is_ascii_digit _ = true |- _ => rewrite H; clear H end.

(** A padded number of two or four digits. *)
Lemma pad_digits w n : Str.all Str.is_ascii_digit (pad w n) = true.
Proof.
  unfold pad. rewrite Str.all_app, pretty_digits, andb_true_r. by induction (w - _) as [|k IH].
Qed.

Lemma pad_length w n : 0 < w → (0 <= n < 10 ^ Z.of_nat w)%Z → String.length (pad w n) = w.
Proof.
  intros Hw Hn. unfold pad. rewrite string_length_app.
  assert (∀ k, String.length (String.string_of_list_ascii (replicate k "0"%char)) = k) as ->
    by (intros k; induction k; simpl; congruence).
  assert (String.length (pretty (Z.to_N n)) ≤ w); [|lia].
  unfold pretty, pretty_N. case_decide; [simpl; lia|].
  pose proof (pretty_go_length w (Z.to_N n) "") as Hl. simpl in Hl. rewrite Nat.add_0_r in Hl. apply Hl.
  apply N2Z.inj_lt. rewrite Z2N.id, N2Z.inj_pow by lia. rewrite nat_N_Z. lia.
Qed.

Lemma pad_two n : (0 <= n < 100)%Z →
  ∃ a b, pad 2 n = String a (String b EmptyString) ∧ Str.is_ascii_digit a = true ∧ Str.is_ascii_digit b = true.
Proof.
  intros Hn. pose proof (pad_length 2 n ltac:(lia) Hn) as Hl. pose proof (pad_digits 2 n) as Hd.
  destruct (pad 2 n) as [|a [|b [|]]]; try done. simpl in Hd. to_prop. by exists a, b.
Qed.

Lemma pad_four n : (0 <= n < 10000)%Z →
  ∃ a b c d, pad 4 n = String a (String b (String c (String d EmptyString))) ∧
    forallb Str.is_ascii_digit [a; b; c; d] = true.
Proof.
  intros Hn. pose proof (pad_length 4 n ltac:(lia) Hn) as Hl. pose proof (pad_digits 4 n) as Hd.
  destruct (pad 4 n) as [|a [|b [|c [|d [|]]]]]; try done. simpl in Hd. to_prop. exists a, b, c, d.
  split; [done|]. simpl. by rewrite_digits.
Qed.

(** Dates are dates. *)
Definition valid_date (date : Z * Z * Z) : Prop :=
  let '(y, m, d) := date in (1970 <= y)%Z ∧ (1 <= m <= 12)%Z ∧ (1 <= d <= month_days y m)%Z.

Lemma month_days_bounds y m : (28 <= month_days y m <= 31)%Z.
Proof. unfold month_days. repeat case_match; lia. Qed.

Lemma next_day_valid date : valid_date date → valid_date (next_day date) ∧ (date.1.1 <= (next_day date).1.1)%Z.
Proof.
  destruct date as [[y m] d]. simpl. intros (Hy & Hm & Hd).
  destruct (Z.ltb_spec d (month_days y m)); [simpl; lia|].
  pose proof (month_days_bounds y (m + 1)). pose proof (month_days_bounds (y + 1) 1).
  destruct (Z.ltb_spec m 12); simpl; lia.
Qed.

Lemma civil_valid n : valid_date (civil_from_days (Z.of_nat n)).
Proof.
  induction n as [|n IH]; [vm_compute; intuition discriminate|].
  replace (Z.of_nat (S n)) with (Z.of_nat n + 1)%Z by lia. rewrite civil_step. by apply next_day_valid.
Qed.

Lemma civil_year_mono n k : ((civil_from_days (Z.of_nat n)).1.1 <= (civil_from_days (Z.of_nat (n + k))).1.1)%Z.
Proof.
  induction k as [|k IH]; [by rewrite Nat.add_0_r|]. etrans; [exact IH|].
  replace (Z.of_nat (n + S k)) with (Z.of_nat (n + k) + 1)%Z by lia. rewrite civil_step. apply next_day_valid, civil_valid.
Qed.

(** The end of the year 9999. *)
Definition LAST_SECOND : Z := 253402300799.

Lemma rfc3339_flagged secs : (0 <= secs <= LAST_SECOND)%Z → string_violation (rfc3339 secs) = Some RawTimestamp.
Proof.
  intros Hs. unfold rfc3339, LAST_SECOND in *.
  assert (0 <= secs / 86400 <= 2932896)%Z as Hd.
  { split; [apply Z.div_pos; lia|]. apply Z.lt_succ_r, Z.div_lt_upper_bound; lia. }
  remember (Z.to_nat (secs / 86400)) as n eqn:En. assert (secs / 86400 = Z.of_nat n)%Z as -> by lia.
  pose proof (civil_valid n) as Hv. pose proof (civil_year_mono n (Z.to_nat (2932896 - Z.of_nat n))) as Hm.
  replace (Z.of_nat (n + Z.to_nat (2932896 - Z.of_nat n))) with 2932896%Z in Hm by lia.
  change (civil_from_days 2932896).1.1 with 9999%Z in Hm.
  destruct (civil_from_days (Z.of_nat n)) as [[y m] d]. simpl in Hv, Hm.
  pose proof (month_days_bounds y m).
  destruct (pad_four y) as (y1 & y2 & y3 & y4 & -> & Hy); [lia|].
  destruct (pad_two m) as (m1 & m2 & -> & Hm1 & Hm2); [lia|].
  destruct (pad_two d) as (d1 & d2 & -> & Hd1 & Hd2); [lia|].
  destruct (pad_two (secs / 3600 mod 24)) as (h1 & h2 & -> & Hh1 & Hh2); [pose proof (Z.mod_pos_bound (secs / 3600) 24); lia|].
  destruct (pad_two (secs / 60 mod 60)) as (i1 & i2 & -> & Hi1 & Hi2); [pose proof (Z.mod_pos_bound (secs / 60) 60); lia|].
  destruct (pad_two (secs mod 60)) as (s1 & s2 & -> & Hs1 & Hs2); [pose proof (Z.mod_pos_bound secs 60); lia|].
  simpl in Hy. apply andb_true_iff in Hy as [Hy1 Hy]. apply andb_true_iff in Hy as [Hy2 Hy].
  apply andb_true_iff in Hy as [Hy3 Hy]. apply andb_true_iff in Hy as [Hy4 _].
  unfold string_violation.
  match goal with |- context [looks_like_iso8601 ?t] =>
    assert (looks_like_socket_id t = false) as -> end.
  { assert (∀ c, Str.is_ascii_digit c = true → bool_decide (c ≠ "."%char) = true) as Hdot
      by (intros c Hc; apply bool_decide_eq_true; by intros ->).
    unfold looks_like_socket_id.
    match goal with |- context [Str.split_once _ ?t] =>
      assert (Str.all (λ a, bool_decide (a ≠ "."%char)) t = true) as Ha by (simpl; rewrite !Hdot by done; reflexivity);
      destruct (Str.split_once "."%char t) as [[l r]|] eqn:E; [|done] end.
    apply Str.split_once_Some in E as [E _]. rewrite E, Str.all_app in Ha. simpl in Ha. by rewrite andb_false_r in Ha. }
  match goal with |- context [looks_like_iso8601 ?t] => assert (looks_like_iso8601 t = true) as -> end; [|done].
  unfold looks_like_iso8601. simpl. rewrite_digits. reflexivity.
Qed.

(** What the server mints is flagged when both halves have four digits, and so
    is every timestamp of a report: neither can slip into an observation. A
    socket id with a half below 1000 does. *)
Theorem run_values_flagged (a b : N) (secs ms : Z) :
  (a < 10 ^ 10)%N → (b < 10 ^ 10)%N → (0 <= secs <= LAST_SECOND)%Z → (EPOCH_MILLIS_MIN <= ms < EPOCH_MILLIS_MAX)%Z →
  (string_violation (SocketId.as_str (SocketId.generate a b)) = Some RawSocketId ↔ (1000 <= a)%N ∧ (1000 <= b)%N) ∧
  string_violation (rfc3339 secs) = Some RawTimestamp ∧
  number_violation (PosInt ms) = Some RawEpochMillis.
Proof.
  intros Ha Hb Hs Hm. split_and!.
  - rewrite <-looks_like_minted by done. unfold string_violation. destruct (looks_like_socket_id _); [done|].
    by repeat case_match.
  - by apply rfc3339_flagged.
  - unfold number_violation, magnitude. destruct (Z.leb_spec EPOCH_MILLIS_MIN ms), (Z.ltb_spec ms EPOCH_MILLIS_MAX); (done || lia).
Qed.

(** ** The audits *)

Lemma catalog_ids_distinct : NoDup (sc_id <$> CATALOG).
Proof. apply (bool_decide_eq_true_1 (NoDup _)). vm_compute. reflexivity. Qed.

Lemma find_scenario_Some id s : find_scenario id = Some s ↔ s ∈ CATALOG ∧ sc_id s = id.
Proof.
  unfold find_scenario. split.
  - intros Hf. apply fmap_Some in Hf as ([i s'] & Hf & ->). apply list_find_Some in Hf as (Hi & Hid & _).
    split; [by eapply list_elem_of_lookup_2|done].
  - intros [Hin Hid]. apply list_elem_of_lookup_1 in Hin as [i Hi].
    destruct (list_find (λ s, sc_id s = id) CATALOG) as [[j s']|] eqn:E.
    + apply list_find_Some in E as (Hj & Hid' & _). simpl. f_equal.
      assert (i = j) as <-; [|congruence]. eapply NoDup_lookup; [exact catalog_ids_distinct| |].
      * by rewrite list_lookup_fmap, Hi.
      * rewrite list_lookup_fmap, Hj. simpl. congruence.
    + eapply list_find_None, Forall_lookup in E; [|exact Hi]. by destruct E.
Qed.

Lemma catalog_binding sdk id : (sdk, id) ∈ catalog_impls ↔ ∃ s, find_scenario id = Some s ∧ sc_sdk s = sdk.
Proof.
  unfold catalog_impls. rewrite list_elem_of_fmap. setoid_rewrite find_scenario_Some. split.
  - intros (s & [= -> ->] & Hin). by exists s.
  - intros (s & [Hin <-] & <-). by exists s.
Qed.

Lemma audit_missing_nil impls : audit_missing impls = [] ↔ catalog_impls ⊆ impls.
Proof.
  unfold audit_missing, catalog_impls. rewrite omap_nil_iff, Forall_forall. split.
  - intros Ha b Hb. apply list_elem_of_fmap in Hb as (s & -> & Hs). specialize (Ha s Hs). simpl in Ha. by destruct (decide _).
  - intros Hs s Hin. rewrite decide_True; [done|]. apply Hs, list_elem_of_fmap. by exists s.
Qed.

Lemma audit_bindings_nil impls : ∀ seen,
  audit_bindings seen impls = [] ↔ Forall (λ b, b ∈ catalog_impls ∧ b ∉ seen) impls ∧ NoDup impls.
Proof.
  induction impls as [|[sdk id] impls IH]; intros seen; cbn [audit_bindings]; [by split; [split; constructor|]|].
  rewrite app_nil, IH, Forall_cons, NoDup_cons. unfold audit_binding. rewrite app_nil, catalog_binding.
  assert (Forall (λ b, b ∈ catalog_impls ∧ b ∉ (sdk, id) :: seen) impls ↔
    Forall (λ b, b ∈ catalog_impls ∧ b ∉ seen) impls ∧ (sdk, id) ∉ impls) as ->.
  { rewrite !Forall_forall. setoid_rewrite not_elem_of_cons. split.
    - intros Ha. split; [intros b Hb; by destruct (Ha b Hb) as (? & ? & ?)|]. intros Hin. by destruct (Ha _ Hin) as (_ & ? & _).
    - intros [Ha Hn] b Hb. destruct (Ha b Hb). split_and!; [done| |done]. by intros ->. }
  destruct (find_scenario id) as [s|]; repeat case_decide; naive_solver.
Qed.

(** The audit is silent exactly on the bindings of the catalog, in any order. *)
Theorem audit_exact (impls : list (string * string)) : audit impls = [] ↔ impls ≡ₚ catalog_impls.
Proof.
  assert (NoDup catalog_impls) as Hnd.
  { apply (NoDup_fmap_1 snd). unfold catalog_impls. rewrite <-list_fmap_compose. exact catalog_ids_distinct. }
  unfold audit. rewrite app_nil, audit_missing_nil, audit_bindings_nil, Forall_forall. split.
  - intros (Hsub & Hall & Hn). apply NoDup_Permutation; [done|done|]. intros b. split; [by intros [? _]%Hall|by apply Hsub].
  - intros Hp. split_and!.
    + intros b Hb. by rewrite Hp.
    + intros b Hb. split; [by rewrite <-Hp|apply not_elem_of_nil].
    + by rewrite Hp.
Qed.

(** The cross-check with what the runners list is silent exactly when every
    runner that answered lists the scenarios bound to it and no other. *)
Theorem listing_exact (listings : gmap string (list string)) (impls : list (string * string)) :
  listing_problems listings impls = [] ↔
  ∀ sdk ids, listings !! sdk = Some ids → ∀ id, id ∈ ids ↔ (sdk, id) ∈ impls.
Proof.
  unfold listing_problems. rewrite app_nil, omap_nil_iff, Forall_forall.
  assert ((map_to_list listings ≫= λ q, omap (λ id, if decide ((q.1, id) ∈ impls) then None else Some (NotBound q.1 id)) q.2) = []
    ↔ ∀ sdk ids, listings !! sdk = Some ids → ∀ id, id ∈ ids → (sdk, id) ∈ impls) as ->.
  { setoid_rewrite <-elem_of_map_to_list. generalize (map_to_list listings). intros l.
    induction l as [|[sdk ids] l IH]; [set_solver|]. rewrite bind_cons, app_nil, omap_nil_iff, IH, Forall_forall.
    setoid_rewrite elem_of_cons. split.
    - intros [Ha Hb] sdk' ids' [[= -> ->]|Hin] id Hid; [|by eapply Hb]. specialize (Ha id Hid). simpl in Ha. by destruct (decide _).
    - intros Ha. split; [|intros sdk' ids' Hin; by apply Ha; right].
      intros id Hid. simpl. rewrite decide_True; [done|]. eapply Ha; [by left|done]. }
  split.
  - intros [Ha Hb] sdk ids Hl id. split; [by eapply Hb|]. intros Hin. specialize (Ha _ Hin). simpl in Ha. rewrite Hl in Ha.
    by destruct (decide _).
  - intros Ha. split; [|intros sdk ids Hl id; by apply Ha].
    intros [sdk id] Hin. simpl. destruct (listings !! sdk) as [ids|] eqn:Hl; [|done]. rewrite decide_True; [done|].
    by eapply Ha.
Qed.

(** ** The command line *)

(** A command as arguments. *)
Definition opt_arg (flag : string) (v : option string) : list string :=
  match v with Some v => [flag; v] | None => [] end.

Definition show_command (c : Command) : list string :=
  match c with
  | ListScenarios => ["--list"]
  | Audit => ["--audit"]
  | Run r =>
      "run" :: opt_arg "--sdk" (ra_sdk r) ++ opt_arg "--scenario" (ra_scenario r) ++
      (if ra_smoke r then ["--smoke"] else []) ++ ["--report"; ra_report r] ++
      ["--port-base"; pretty (Z.to_N (ra_port_base r))] ++ opt_arg "--pylon-bin" (ra_pylon_bin r)
  end.

Lemma parse_port_shown port : (0 <= port <= MAX_PORT_BASE)%Z → parse_port (pretty (Z.to_N port)) = Ok port.
Proof.
  unfold MAX_PORT_BASE. intros Hp. unfold parse_port. rewrite parse_uint_pretty by lia. simpl.
  unfold MAX_PORT_BASE. destruct (Z.ltb_spec 65533 port); [lia|done].
Qed.

Definition port_ok (p : option Z) : Prop := ∀ n, p = Some n → (0 <= n <= MAX_PORT_BASE)%Z.

Lemma parse_port_range raw port : parse_port raw = Ok port → (0 <= port <= MAX_PORT_BASE)%Z.
Proof.
  unfold parse_port. destruct (Str.parse_uint 65535 raw) as [x|] eqn:E; [|done]. simpl.
  apply parse_uint_range in E; [|lia]. destruct (Z.ltb_spec MAX_PORT_BASE x); [done|]. intros [= <-]. lia.
Qed.

Lemma parse_loop_ports n : ∀ argv p p', length argv ≤ n → port_ok (pa_port_base p) →
  parse_loop p argv = Ok p' → port_ok (pa_port_base p').
Proof.
  induction n as [|n IH]; intros argv p p' Hn Hp Hl; (destruct argv as [|arg argv]; [by injection Hl as <-|]); simpl in Hn; [lia|].
  cbn [parse_loop] in Hl. destruct p as [ls au rw sdk sc sm re po bin]. simpl in Hp.
  repeat case_decide; try done; try (eapply IH; [| |exact Hl]; [lia|exact Hp]).
  all: destruct argv as [|v argv]; [done|]; simpl in Hn.
  4: destruct (parse_port v) as [port|] eqn:Ev; [|done]; apply parse_port_range in Ev;
    eapply IH; [| |exact Hl]; [lia|intros x [= <-]; exact Ev].
  all: eapply IH; [| |exact Hl]; [lia|exact Hp].
Qed.

(** Each flag sets its variable. *)
Lemma parse_flags ls au rw sdk sc sm re po bin v l :
  let p := mkParsed ls au rw sdk sc sm re po bin in
  parse_loop p ("run" :: l) = parse_loop (mkParsed ls au true sdk sc sm re po bin) l ∧
  parse_loop p ("--smoke" :: l) = parse_loop (mkParsed ls au rw sdk sc true re po bin) l ∧
  parse_loop p ("--sdk" :: v :: l) = parse_loop (mkParsed ls au rw (Some v) sc sm re po bin) l ∧
  parse_loop p ("--scenario" :: v :: l) = parse_loop (mkParsed ls au rw sdk (Some v) sm re po bin) l ∧
  parse_loop p ("--report" :: v :: l) = parse_loop (mkParsed ls au rw sdk sc sm (Some v) po bin) l ∧
  parse_loop p ("--pylon-bin" :: v :: l) = parse_loop (mkParsed ls au rw sdk sc sm re po (Some v)) l.
Proof. repeat split. Qed.

Lemma parse_port_flag ls au rw sdk sc sm re po bin port l : (0 <= port <= MAX_PORT_BASE)%Z →
  parse_loop (mkParsed ls au rw sdk sc sm re po bin) ("--port-base" :: pretty (Z.to_N port) :: l) =
  parse_loop (mkParsed ls au rw sdk sc sm re (Some port) bin) l.
Proof.
  intros Hp. transitivity (match parse_port (pretty (Z.to_N port)) with
    | Ok port => parse_loop (mkParsed ls au rw sdk sc sm re (Some port) bin) l | Err e => Err e end); [reflexivity|].
  by rewrite parse_port_shown.
Qed.

Lemma parse_shown_run sdk scenario smoke report port bin : (0 <= port <= MAX_PORT_BASE)%Z →
  parse_loop Parsed_new (show_command (Run (mkRunArgs sdk scenario smoke report port bin))) =
  Ok (mkParsed false false true sdk scenario smoke (Some report) (Some port) bin).
Proof.
  intros Hp. unfold show_command, Parsed_new. cbn [ra_sdk ra_scenario ra_smoke ra_report ra_port_base ra_pylon_bin].
  rewrite (proj1 (parse_flags _ _ _ _ _ _ _ _ _ report _)).
  assert (∀ ls au rw sdk sc sm re po bin v l, parse_loop (mkParsed ls au rw sdk sc sm re po bin) (opt_arg "--sdk" v ++ l) =
    parse_loop (mkParsed ls au rw (match v with Some _ => v | None => sdk end) sc sm re po bin) l) as Hsdk
    by (intros; destruct v; [apply (parse_flags)|done]).
  assert (∀ ls au rw sdk sc sm re po bin v l, parse_loop (mkParsed ls au rw sdk sc sm re po bin) (opt_arg "--scenario" v ++ l) =
    parse_loop (mkParsed ls au rw sdk (match v with Some _ => v | None => sc end) sm re po bin) l) as Hsc
    by (intros; destruct v; [apply (parse_flags)|done]).
  rewrite Hsdk, Hsc.
  assert (∀ ls au rw sdk sc re po bin (b : bool) l,
    parse_loop (mkParsed ls au rw sdk sc false re po bin) ((if b then ["--smoke"] else []) ++ l) =
    parse_loop (mkParsed ls au rw sdk sc b re po bin) l) as Hsm
    by (intros; destruct b; [apply (parse_flags) with (v := EmptyString)|done]).
  rewrite Hsm. change (["--report"; report] ++ ?l) with ("--report" :: report :: l).
  rewrite (proj1 (proj2 (proj2 (proj2 (proj2 (parse_flags _ _ _ _ _ _ _ _ _ report _)))))).
  change (["--port-base"; ?x] ++ ?l) with ("--port-base" :: x :: l). rewrite parse_port_flag by done.
  destruct bin as [bin|]; [|by destruct sdk, scenario].
  cbn [opt_arg]. rewrite (proj2 (proj2 (proj2 (proj2 (proj2 (parse_flags _ _ _ _ _ _ _ _ _ bin _)))))). by destruct sdk, scenario.
Qed.

(** The command line means what it says: a command written as arguments parses
    to itself, and every accepted run has room above its port for the two
    others it binds. *)
Theorem command_line_roundtrip (c : Command) :
  (∀ r, c = Run r → (0 <= ra_port_base r <= MAX_PORT_BASE)%Z) →
  parse_args (show_command c) = Ok c ∧
  ∀ argv r, parse_args argv = Ok (Run r) → (0 <= ra_port_base r)%Z ∧ (ra_port_base r + 2 <= 65535)%Z.
Proof.
  intros Hc. split.
  - destruct c as [r| |]; [|done..]. specialize (Hc r eq_refl). destruct r as [sdk scenario smoke report port bin].
    simpl in Hc. unfold parse_args. by rewrite parse_shown_run.
  - intros argv r Hp. unfold parse_args in Hp. destruct (parse_loop Parsed_new argv) as [p|] eqn:El; [|done].
    assert (port_ok (pa_port_base p)) as Hok by (eapply parse_loop_ports; [reflexivity| |exact El]; done).
    repeat case_match; simplify_eq. simpl. unfold port_ok, MAX_PORT_BASE in Hok.
    destruct (pa_port_base p) as [x|]; simpl; [specialize (Hok x eq_refl); lia|]. unfold DEFAULT_PORT_BASE. lia.
Qed.

(** ** The selection *)

Definition passes_filters (sdk scenario : option string) (smoke : bool) (s : Scenario) : bool :=
  (negb smoke || bool_decide (sc_id s ∈ SMOKE_IDS)) &&
  match sdk with Some x => bool_decide (sc_sdk s = x) | None => true end &&
  match scenario with Some id => bool_decide (sc_id s = id) | None => true end.

(** A run has the scenarios of the catalog that pass every filter, in its order;
    a selection of none is an error. *)
Theorem selection_exact (sdk scenario : option string) (smoke : bool) (l : list Scenario) :
  select_scenarios sdk scenario smoke = Ok l ↔ l ≠ [] ∧ l = filter (λ s, passes_filters sdk scenario smoke s = true) CATALOG.
Proof.
  unfold select_scenarios. set (selected := match scenario with Some id => retain _ _ | None => _ end).
  assert (selected = filter (λ s, passes_filters sdk scenario smoke s = true) CATALOG) as Hsel.
  { subst selected. unfold retain, passes_filters. destruct smoke, sdk, scenario; rewrite ?list_filter_filter.
    8: symmetry; apply filter_all, Forall_true; done.
    all: apply list_filter_iff; intros x; simpl; rewrite ?andb_true_iff, ?andb_true_r; naive_solver. }
  clearbody selected. subst selected. set (selected := filter _ CATALOG).
  split.
  - repeat case_match; try done; case_decide; naive_solver.
  - intros [Hne ->]. fold selected in Hne |- *. destruct selected as [|s l'] eqn:E; [done|].
    assert (s ∈ selected) as Hs by (rewrite E; by left). subst selected. apply list_elem_of_filter in Hs as [Hw Hin].
    unfold passes_filters in Hw. apply andb_true_iff in Hw as [Hw Hsc]. apply andb_true_iff in Hw as [_ Hsdk].
    assert (match scenario with Some id => match find_scenario id with None => Err (UnknownScenario id) | Some _ => Ok tt end
      | None => Ok tt end = Ok tt) as ->.
    { destruct scenario as [id|]; [|done]. to_prop. destruct (find_scenario id) eqn:Ef; [done|].
      by rewrite (proj2 (find_scenario_Some id s) (conj Hin Hsc)) in Ef. }
    assert (match sdk with Some sdk => if existsb (λ s, bool_decide (sc_sdk s = sdk)) CATALOG then Ok tt else Err (UnknownSdk sdk)
      | None => Ok tt end = Ok tt) as ->; [|done].
    destruct sdk as [x|]; [|done]. rewrite (proj2 (existsb_exists _ _)); [done|]. exists s. by rewrite <-list_elem_of_In.
Qed.

(** ** Repeated headers *)

(** The receiver joins the values of a repeated header, but with the JSON text of
    the first, quotes included, instead of the value. *)
Example repeated_header_quoted :
  let first := JsonDemo.quote +:+ "a" +:+ JsonDemo.quote in
  map_get "x-test" (foldl (add_header (H := JsonDemo.demo)) [] [("x-test", "a"); ("x-test", "b")]) =
  Some (JString (first +:+ ", b")).
Proof. vm_compute. reflexivity. Qed.

(** ** At concrete inputs *)

Lemma run_values_flagged_witness :
  string_violation (SocketId.as_str (SocketId.generate 7123456789 1234567890)) = Some RawSocketId ∧
  string_violation (rfc3339 1788266096) = Some RawTimestamp ∧ rfc3339 1788266096 = "2026-09-01T12:34:56Z".
Proof.
  destruct (run_values_flagged 7123456789 1234567890 1788266096 1770000000000) as (Hid & Hts & _);
    [done|done|unfold LAST_SECOND; lia|unfold EPOCH_MILLIS_MIN, EPOCH_MILLIS_MAX; lia|].
  split; [apply Hid; lia|]. split; [exact Hts|]. vm_compute. reflexivity.
Defined.
